(* ===== verification/_CoqProject ===== *)
-Q . S2P
Prelude.v
Text.v
SkillTypes.v
Receipt.v
ZigZag.v
SkillStore.v
SkillRegistry.v
Ghost.v
Ledger.v
LedgerRun.v
Json.v
Commands.v
CommandJournal.v
CommandLog.v
CommandJournalInv.v
CommandJournalSteps.v
CommandJournalOps.v
CommandJournalReads.v
CommandJournalLaws.v
CommandJournalDamage.v
CommandJournalThms.v
Checkpoint.v
CheckpointStore.v
CheckpointStoreInv.v
CheckpointStoreSteps.v
CheckpointStoreList.v
CheckpointStoreIndex.v
CheckpointStoreCalm.v
CheckpointStoreThms.v
Recovery.v
RecoveryInv.v
RecoveryCalm.v
RecoveryThms.v
Nodes.v
Executor.v
ExecutorInv.v
ExecutorThms.v
WorkerPool.v
WorkerPoolInv.v
WorkerPoolThms.v
RuntimeService.v
RuntimeServiceThms.v
Job.v
JobQueue.v
JobStore.v
JournalStore.v
Lifecycle.v
Scheduler.v
SchedulerInv.v
SchedulerSteps.v
SchedulerThms.v
SchedulerRuns.v
Interface.v
Authority.v
SessionOwnership.v
ArtifactStore.v
ArtifactStoreThms.v
ArtifactReader.v
ArtifactReaderThms.v
ContextStore.v
ContextView.v
ContextOps.v
ContextBounds.v
ContextSweep.v
ContextStoreThms.v
Events.v
Idempotency.v
IdempotencyInv.v
DurableLog.v
IdempotencySteps.v
IdempotencyWorld.v
IdempotencyKeep.v
IdempotencyThms.v
KeyedRuns.v
Front.v
FrontThms.v
FrontRuns.v
IdempotencyLedger.v
LedgerLaws.v
LedgerThms.v
