(* ===== verification/Prelude.v ===== *)
(** * Bobby Browser runtime: a verification development

    Bobby Browser is a runtime that lets agents drive browsers: a broker accepts commands
    and background jobs over several protocols, a session runs them on pages, and
    append-only ledgers record what was done so that a restart never repeats an effect it
    cannot account for.  This development models the parts that decide what may be
    executed, retried, resumed or believed after a failure, and proves what they promise.

    ** Parts of the program and files of the development

    - [Prelude]: results, the state-and-error monad with its triples, record update,
      machine integers, strings and the automation the other files share.
    - [Text], [SkillTypes], [Receipt]: the wire types of the skill runtime with their
      checks ([crates/bobby-browser-client/src/skills.rs], [recovery.rs]).  A Rust type
      [T] is a record or inductive type [T]; [T::new], [T::validate], [TryFrom<TWire>] and
      [Serialize] are [T_new], [T_validate], [T_try_from] and [T_serialize].
    - [ZigZag]: the recovery strategy [SkillZigZagZig] of
      [crates/skill-runtime/src/zigzagzig.rs], one definition per method.
    - [SkillStore], [SkillRegistry], [Ghost]: the session store ([state.rs]), the registry,
      the command parser and the router ([registry.rs], [command.rs], [router.rs]), the
      Ghost profiles and the ZigZagZig controller ([ghost.rs], [zigzagzig.rs]).  [Ghost]
      puts them together as one transition system [world_step].
    - [Ledger]: the bounded line reader and the scan every ledger shares
      ([crates/workflow-journal/src/health.rs], the reader in [lib.rs]).
    - [CommandJournal]: the journal of the phases of every command ([JsonlJournal] of
      [workflow-journal/src/lib.rs]).  [CommandJournalInv] says what its files hold,
      [CommandJournalSteps], [CommandJournalOps] and [CommandJournalReads] what opening,
      appending and reading do to them whatever call fails, [CommandJournalDamage] what
      changed bytes do, and [CommandJournalThms] what follows for every run.
    - [Commands]: the commands, their classes and the copies that a journal may hold
      ([bobby-browser-client/src/commands.rs], [outcomes.rs]).
    - [Checkpoint], [CheckpointStore]: the checkpoints of workflows
      ([bobby-browser-client/src/recovery.rs]) and the store that keeps them, one file each,
      with an index by session ([crates/checkpoint-store/src/lib.rs],
      [crates/durable-file/src/lib.rs]).  [CheckpointStoreInv] and [CheckpointStoreSteps] say
      what each call leaves whatever fails, [CheckpointStoreList] and [CheckpointStoreIndex]
      what a listing and its index hold, [CheckpointStoreCalm] that calls succeed when
      nothing fails, and [CheckpointStoreThms] what follows for every run.
    - [Recovery]: the [RecoveryCoordinator] of [crates/page-runtime/src/recovery.rs], over the
      checkpoint store and a browser that may answer anything.  [RecoveryInv] describes each
      operation, [RecoveryCalm] the one that nothing disturbs, [RecoveryThms] what follows.
    - [Executor]: [PageRuntime::execute] and [recover_command] with admission, dispatch,
      the recovery of a lost transport, prepared results and the page registry
      ([crates/page-runtime/src/executor.rs], [executor/*], [lib.rs]).  [ExecutorInv] says
      in which order an execution may act, [ExecutorThms] what follows.
    - [Nodes]: the registry of vision nodes and what a session that names one gets
      ([crates/node-registry/src/lib.rs], [config/src/vision.rs]).
    - [RuntimeService]: the session table ([crates/session-manager/src/lib.rs]) and the
      service that gates, checkpoints and executes commands ([crates/sdk-core/src/lib.rs]).
      [RuntimeServiceThms] runs it by a list of calls.
    - [Job], [JobQueue], [JobStore], [JournalStore], [Scheduler]: the crate
      [crates/task-scheduler] file by file ([job.rs], [queue.rs], the trait and memory
      store of [store.rs], its journal store, [scheduler.rs] with the registrations of
      [handlers.rs]), and the client's view of a job
      ([bobby-browser-client/src/jobs.rs], [job_resolution.rs], [broker/src/routes.rs]).
    - [LedgerRun]: when the scan of a ledger accepts a file, in terms of its lines alone.
    - [Json]: JSON values, their canonical form and the digests that identify a request
      ([interface-core/src/idempotency.rs]).
    - [Interface], [Authority], [SessionOwnership], [Events]: what every protocol adapter
      goes through: keys, capabilities and operations ([bobby-browser-client/src/interface.rs],
      [auth.rs]), bearer enrolment, revocation and the authorization guard
      ([interface-core/src/auth.rs], [lib.rs]), who owns a session
      ([session_ownership.rs]), and the event history with its readers ([events.rs]).
    - [Idempotency]: the store that answers a repeated request with the outcome of the first
      ([idempotency.rs]); [IdempotencyLedger]: its log on disk ([idempotency/durable.rs]).
      [IdempotencyInv], [IdempotencySteps], [IdempotencyWorld], [IdempotencyKeep] and
      [IdempotencyThms] prove the store correct against the contract [DurableLog];
      [LedgerLaws] proves that contract of the log and [LedgerThms] what the two promise
      together.
    - [Front]: [AuthenticatedRuntime] of [crates/sdk-core/src/interface.rs], which puts the
      guard, the ownership of sessions and the idempotency stores before the service.
      [FrontThms] says what passes it.  [KeyedRuns] is the abstract life of a request with a
      key, over [IdempotencyWorld]; [FrontRuns] interleaves submissions and refines it.
    - [WorkerPool]: the pool of browser workers ([crates/worker-pool/src/lib.rs]) as tasks that
      interleave: leases, cleanup, launches and their reapers.  [WorkerPoolInv] is its invariant,
      [WorkerPoolThms] what it promises.
    - [ArtifactStore]: captured bytes, staged, checked and published
      ([crates/artifact-store/src/lib.rs]); [ArtifactReader]: who registered which artifact and
      reads it back ([interface-core/src/artifacts.rs]).  [ArtifactStoreThms] and
      [ArtifactReaderThms] say what they promise.
    - [ContextStore]: what is remembered of the forms of a site, with its cache, its buffered
      writes and its retention ([crates/context-store/src/lib.rs], [limits.rs]).  [ContextView]
      is what can be seen of a site, [ContextOps] what each operation changes of it,
      [ContextBounds] the size of the cache, [ContextSweep] what a sweep leaves,
      [ContextStoreThms] the store as a map.
    - [Lifecycle]: the shape of a job in each status, kept by every transition.
    - [SchedulerInv], [SchedulerSteps], [SchedulerThms], [SchedulerRuns]: the scheduler's
      invariant, that every operation keeps it, the theorems about its runs, and concrete
      runs.

    ** Interfaces

    The [JobStore] trait is the class [JobStore]; what its clients rely on is the class
    [JobStoreLaws], stated on an abstract map of jobs and proved of both stores.  The
    scheduler's theorems are proved for every store.  In the same way [DurableLog] is what
    the idempotency store calls of its log and [DurableLogLaws] what it relies on: its
    theorems hold for every log with these laws, and [LedgerLaws] makes the file format an
    instance.  [CommandLog] is the trait [CommandJournal] and [CommandLogLaws] what the executor
    relies on; [CommandJournalLaws] proves them of the journal's file format, and [CommandLog]
    itself of a journal whose process dies.  [Workers] is everything the executor asks of the
    worker pool: it may answer anything; [BrowserPool] is the same for the recovery coordinator,
    and [ServicePages] for the service: its sample in [RuntimeServiceThms] is the executor.
    [NodeLib] is what the node registry asks of URLs, the environment and HTTP, [RequestJson] the
    JSON of requests.
    [RetainedOutcome] is the trait of the outcomes a
    store keeps.  Code that is not in the repository
    is a class with the operations the program calls: [UuidLib] (parsing identifiers),
    [ReceiptCodec] (digests and encoded lengths), [JobCodec] with its round-trip law
    [JobCodecLaws] (JSON of a journal record), [JsonWriter], [Decimal], [Backoff],
    [JsonLib], [Sha2], [UrlLib], [LedgerCodec] with [LedgerCodecLaws] (JSON of a ledger line: what
    was written is read back, and a line has room for a full store), [RecordCodec] with
    [RecordCodecLaws] (JSON of a command record is one line and is read back), [ManifestCodec] and
    [ReaderCodec] with [ManifestCodecLaws] and [ReaderCodecLaws] (what was written is read back),
    [SiteCodec] with [SiteCodecLaws] (the file of a site is read back), [SiteSizes] with
    [SiteSizesLaws] (the bytes a site is counted with are not negative),
    [Sha2Digest] (a digest has 32 bytes) and
    [CheckpointCodec] with [CheckpointCodecLaws] (a checkpoint that was written is read back).
    Engine adapters and job handlers, which the embedding program provides, are records
    of functions or the values they returned.  Every theorem with such a law has a
    concrete instance in its witness.

    ** How code is translated

    A method that may fail returns [result]; a method that changes state is a function
    [ST S E A], and an error leaves the changes made before it, as an early return in the
    code does.  Integers are [Z] with the wrap, saturation or check of the code written
    out; times are nanoseconds; identifiers and the clock are arguments.  An [async]
    operation that holds a lock for its whole length is one step.  In the scheduler the
    tasks that run a handler and the retries that wait for their backoff are part of the
    state, so that a turn of the run loop ([start_next]), the end of a handler
    ([task_done]) and the end of a backoff ([timer_done]) are steps of their own, and
    steps of different jobs interleave freely.  Releasing the permit of a finished or
    aborted task is part of the step that ends it.  A handler may return a value, an
    error or run into its timeout; one that panics is not modelled.

    A call of [reserve] is a sequence of steps, one per scope it holds the lock for, and
    the waiting in between; so is a blocked event reader.  [finish] tests whether the store
    accepts writes before it takes the lock; the model does both in one step.  The laws of
    the log cover the files this version writes: a version 1 file is loaded and replaced,
    but a restart from one is not part of the theorems about restarts.

    An execution of a command is one sequence of calls: the journal and the workers are
    asked in the order of the code, an early return is an error of the monad, and the times
    read along the way are one argument.  A crash is a journal that later writes do not
    reach ([Crashing]), so that an execution which goes on after its crash leaves what the
    crash left.  Requests of different commands are not interleaved.

    A handler of the front is cut where it waits for its key: [_begin], [_poll] and [_run] are
    steps of its task, and the call of the service within [_run] is one step with the settling
    of the key.  A task may be cancelled at any of these points, whatever the service has done
    by then.

    File operations of the journals and of the idempotency log may fail at any call:
    the state carries the faults to come, and a failed write leaves a prefix of its bytes.
    The disk of the command journal has files by identity, so that a handle outlives the
    name it was opened under; a new archive is listed after the older ones, a file has at
    most [MAX_FILE_BYTES] bytes, and the record limit is the same at every opening.

    The checkpoint store's directory knows a file by what its name says (a workflow's
    checkpoint, its skill decision, a temporary file), since the code writes and accepts only
    canonical names.  The time of change of a file and the version of the directory move
    with every change, as the code assumes of its file system.  An operation that holds the
    lock of its workflow is one step.  That a listing is exact supposes that no call of an
    earlier listing failed: [unreadable_once_is_hidden] shows why.

    Two loops recurse on a fuel.  The ledger scan ([scan_loop]) has two more than the number
    of bytes, and [scan_terminates] shows that more changes nothing, since an iteration that
    goes on has consumed a byte; the walk over an archive ([archive_lines]) has one more
    than the number of bytes, and every turn consumes one.

    The tasks of the worker pool wait at gates and for permits in any order; the code's locks are
    fair, which only removes runs.  A worker that is launched has an identifier no earlier one
    had.  A task that panics is not modelled.  Runs of the scheduler begin with an empty
    registry; what opening on a filled store gives is shown apart ([hydrate]).  Opening the
    idempotency log reads the clock once, where the code reads it for every entry; the scan of
    the artifact records takes every name in its directory to be readable text.

    ** What the theorems show

    - Scheduler: in every reachable state the registry, the queue, the tasks and the
      waiting retries agree; at most [max_concurrent_jobs] handlers run; entries move only
      along the lifecycle; a job that ended or whose effect is uncertain never runs again;
      a handler that is not safe to retry is dispatched at most once; a handler starts only
      after its start is in the store; accepted jobs are durable; hydration restores the
      store's content; resolution is for the owner only and idempotent; the output bound is
      on the total text.
    - Journal store: what was acknowledged is read back after a restart, interrupted jobs
      are turned over to reconciliation, and damage is archived and never resumed.
    - Command journal: what was acknowledged stays readable across failed calls, torn writes
      and restarts; an answer without reservation is exactly the file's; an append is read
      back at once; bytes changed in place are detected and the file is archived, unless a
      changed line has the digest of the old one; a command whose records were archived
      is not appended to again.  Every step is one of the abstract journal [CommandLogLaws].
    - Checkpoints: a checkpoint is replaced as a whole or not at all and is saved when
      nothing fails; its session never changes and only removal takes it away; a listing
      holds exactly the session's checkpoints, newest first.
    - Recovery: a decision is the one the evidence allows, and it is recorded; a boundary is
      never sent back to its start; receipts of recovered commands are kept and only
      advance, until a new checkpoint is saved; a recovery that nothing disturbs ends with a
      decision.
    - Executor: nothing is asked of a browser before the journal has acknowledged the
      command; one dispatch, or two for a replayable command; a dispatched boundary
      command or download is offered for a retry only on an error from before the effect, on
      a failed check of a postcondition or on a lost target (the last two do not exclude an
      effect: [verification_failure_is_retryable]); a completed command is recovered as it
      was, as long as it is not executed again; after a crash a dispatched command is
      reconciled or has the outcome that was recorded; only valid commands leave a trace.
    - Idempotency: a key whose permit was handed out is never handed out again before its
      holder settles it, across failed writes and restarts; a restart settles exactly the
      keys for which the caller's resolver, any function here, answers a settling outcome, and
      answers every other such key; a finished outcome is replayed to the next request; waiters are answered; the store is bounded and
      its log mirrors it.  The log can always be opened again, its last digest fixes its
      history, and converting it back loses no key.
    - Interface: two requests have the same identity exactly when they mean the same;
      revocation is final, also when the clock is set back; the guard refuses exactly what it should; session slots and
      owners are kept; readers get the event history without a hole, are told when anything
      after their cursor was let go, whoever it was for, and are woken; stored
      payloads are bounded and redacted.
    - Service: every executed command was submitted and ran with the rights its session was
      created with; JavaScript and the password manager only where they were asked for; a
      command that brings its own checkpoint runs only once the executor would accept it, and
      not at all when it cannot be saved; a session that names a vision node gets that one or
      none.
    - Front: a plain submission reaches the service only with a valid handle, the
      capabilities of its command and an owned session, also after waiting for its key; who
      does not own a session changes nothing of it and is told nothing; a session is created
      with its owner or not at all, and flagged only for who holds the capability.  However
      submissions interleave, with restarts and cancellations, a keyed command runs again
      only after its first run was reported completed or as worth another attempt.
    - Worker pool: a leased worker is alive and its session is not cleaned up under it; the
      capacity holds; the pool is never stuck; it knows every worker it launched as long as no
      launch fails on an entry somebody else took over.
    - Artifacts: what is published is whole and stays; what was stored is read back, by the
      principal it was registered for and nobody else; a staged artifact can be published
      later, until the store is opened again.  A registered artifact stays readable as long as
      no call fails while the records are looked through: [unreadable_record_is_put_aside].
    - Context store: whatever is evicted, buffered or fails, and as long as no sweep has an
      earlier cutoff than the one before it ([moved_back_cutoff_shows_again]), its operations
      are those of a map from site keys to what is retained of them; a flush without failures is durable; the
      cache stays within its limits; a sweep leaves nothing expired in memory or in the files
      of sites that are not in memory.
    - Ledger scan: termination, exactly the complete lines, ordered sequences, a consistent
      health report.
    - Queue and retention: highest priority first and oldest first within it; bounds; the
      newest terminal jobs are kept and no live one is dropped.
    - Recovery strategy, for one value of it (each command has its own, and a decision that
      cannot be reserved is taken back): soundness, order, completeness and termination of the ladder;
      settlement is idempotent and recording settles exactly what was issued.
    - Ghost, registry, session store: the live profile is the stored one; off is final;
      skills run only within declared and granted capabilities; sessions stay keyed.
    - Types and text checks: reading inverts writing; accepted text carries no secret word
      and no path.

    Fifteen theorems show behaviour the code does not intend: [settlement_can_brick_a_session],
    [torn_append_loses_the_next_record], [waiting_retry_blocks_restart],
    [requeue_failure_is_refused_by_the_client], [repeated_sequence_is_archived],
    [journal_safe_keeps_typed_url], [verification_failure_is_retryable],
    [unreadable_once_is_hidden], [new_checkpoint_drops_receipts],
    [revoked_caller_still_runs], [takeover_loses_worker], [staged_until_reopened],
    [json_is_never_stored], [long_extension_is_refused] and [shielded_file_keeps_expired].

    ** Not modelled

    Protocol adapters, browser drivers, the intent engine, the command line and the rendering
    of messages talk to the outside: what they do depends on a browser, a model or a peer whose
    answers the code cannot fix, and the parts above treat those answers as arbitrary.  The
    run loop's drain deadline only decides when [abort_all_running] happens.  The
    lock file of the context store and the derivation of its keys from URLs, the climb of the
    recovery ladder inside [page-runtime] and the building of a service from its configuration are left out. *)

From stdpp Require Export base tactics option list list_numbers gmap strings sorting.
From Stdlib Require Export ZArith Lia.
From Stdlib Require Import Ascii.

Open Scope Z_scope.

(** ** Results

    Fallible Rust code returns [Result<A, E>]; the model keeps the error value. *)

Inductive result (A E : Type) : Type :=
| Ok (a : A)
| Err (e : E).
Arguments Ok {A E} a.
Arguments Err {A E} e.

Definition is_ok {A E} (r : result A E) : bool :=
  match r with Ok _ => true | Err _ => false end.

Definition rbind {A B E} (r : result A E) (k : A -> result B E) : result B E :=
  match r with Ok a => k a | Err e => Err e end.

(** [map_err] of the Rust standard library. *)
Definition map_err {A E F} (f : E -> F) (r : result A E) : result A F :=
  match r with Ok a => Ok a | Err e => Err (f e) end.

(** [Option::ok_or]. *)
Definition ok_or {A E} (o : option A) (e : E) : result A E :=
  match o with Some a => Ok a | None => Err e end.

(** A guard that returns early: [if c { return Err(e) }]. *)
Definition refuse_if {E} (c : bool) (e : E) : result unit E :=
  if c then Err e else Ok tt.

Declare Scope bobby_scope.
Delimit Scope bobby_scope with bobby.
Notation "'let?' x := e 'in' k" := (rbind e (fun x => k))
  (at level 10, x name, e at level 100, k at level 200) : bobby_scope.
Notation "e ;? k" := (rbind e (fun _ : unit => k))
  (at level 100, right associativity) : bobby_scope.
Open Scope bobby_scope.

(** Runs a unit-valued check over a list and stops at its first error, as a Rust
    [for] loop whose body ends in [?]. *)
Fixpoint check_all {A E} (f : A -> result unit E) (l : list A) : result unit E :=
  match l with
  | [] => Ok tt
  | x :: l' => f x ;? check_all f l'
  end.

(** ** State and errors

    Code that mutates shared state and may fail: the state after the call is kept on
    the error path too, because the source has written it by then. *)

Definition ST (S E A : Type) : Type := S -> result A E * S.

Definition sret {S E A} (a : A) : ST S E A := fun s => (Ok a, s).
Definition sfail {S E A} (e : E) : ST S E A := fun s => (Err e, s).
Definition slift {S E A} (r : result A E) : ST S E A := fun s => (r, s).
Definition sget {S E} : ST S E S := fun s => (Ok s, s).
Definition sput {S E} (s : S) : ST S E unit := fun _ => (Ok tt, s).
Definition smodify {S E} (f : S -> S) : ST S E unit := fun s => (Ok tt, f s).
Definition sbind {S E A B} (m : ST S E A) (k : A -> ST S E B) : ST S E B :=
  fun s => match m s with
           | (Ok a, s') => k a s'
           | (Err e, s') => (Err e, s')
           end.

Notation "'do' x <- m ; k" := (sbind m (fun x => k))
  (at level 10, x name, m at level 100, k at level 200) : bobby_scope.
Notation "m ;; k" := (sbind m (fun _ : unit => k))
  (at level 100, right associativity) : bobby_scope.

(** ** Record update

    [r <| proj := v |>] rebuilds the record [r] with one field replaced.  A record
    declares its eta expansion once, as an [Eta] instance; the setter of a field is
    found from it. *)

Class Eta (R : Type) := eta : R -> R.

Class FieldSet {R T : Type} (proj : R -> T) := set_field : (T -> T) -> R -> R.
Arguments set_field {R T} proj {_} f r /.

Ltac derive_setter :=
  match goal with
  | |- @FieldSet ?R ?T ?p =>
      let e := constr:(_ : Eta R) in
      let f := fresh "f" in let r := fresh "r" in
      intros f r;
      let b := eval cbv beta delta [eta] in (@eta R e r) in
      let b := eval red in b in
      let b' := eval pattern (p r) in b in
      match b' with
      | ?F _ => let t := eval cbv beta in (F (f (p r))) in exact t
      end
  end.
#[export] Hint Extern 1 (FieldSet _) => derive_setter : typeclass_instances.

Notation "r <| p := v |>" := (set_field p (fun _ => v) r)
  (at level 12, left associativity) : bobby_scope.

(** ** Machine integers

    [u64], [usize] and [u32] values are kept as [Z]; arithmetic that can leave the
    range is written with the Rust operation the source uses. *)

Definition u64_max : Z := 18446744073709551615.
Definition u32_max : Z := 4294967295.

(** [u64::checked_add]. *)
Definition checked_add (a b : Z) : option Z :=
  if a + b <=? u64_max then Some (a + b) else None.

(** [u64::wrapping_add]. *)
Definition wrapping_add (a b : Z) : Z := (a + b) mod (u64_max + 1).

(** [u64::saturating_add] and [usize::saturating_add] (64-bit targets). *)
Definition saturating_add (a b : Z) : Z := Z.min (a + b) u64_max.

(** [usize::saturating_sub]. *)
Definition saturating_sub (a b : Z) : Z := Z.max (a - b) 0.

(** ** Time

    A [DateTime<Utc>] is a number of nanoseconds; a [chrono::Duration] is a
    difference of two.  [num_milliseconds] truncates towards zero. *)

Definition Time : Type := Z.
Definition num_milliseconds (d : Z) : Z := Z.quot d 1000000.
Definition minutes (n : Z) : Z := n * 60 * 1000000000.

(** ** Strings

    A Rust [String] is the sequence of its UTF-8 bytes; [len] is the number of bytes. *)

Definition slen (s : string) : Z := Z.of_nat (String.length s).

Fixpoint str_forallb (p : ascii -> bool) (s : string) : bool :=
  match s with
  | EmptyString => true
  | String c s' => p c && str_forallb p s'
  end.

(** [str::contains] with a string pattern. *)
Fixpoint contains (pat s : string) : bool :=
  String.prefix pat s ||
  match s with
  | EmptyString => false
  | String _ s' => contains pat s'
  end.

(** [str::strip_prefix]. *)
Fixpoint strip_prefix (pat s : string) : option string :=
  match pat, s with
  | EmptyString, _ => Some s
  | String a pat', String b s' =>
      if Ascii.eqb a b then strip_prefix pat' s' else None
  | String _ _, EmptyString => None
  end.

Fixpoint str_map (f : ascii -> ascii) (s : string) : string :=
  match s with
  | EmptyString => EmptyString
  | String c s' => String (f c) (str_map f s')
  end.

(** Byte-wise comparison, the [Ord] of Rust strings. *)
Definition str_leb (a b : string) : bool := String.leb a b.

(** ** Ordered maps

    A [BTreeMap<String, V>] is a [gmap]; iteration visits the keys in byte order. *)

Definition entry_le {V} (a b : string * V) : Prop := str_leb a.1 b.1 = true.

#[export] Instance entry_le_dec {V} (a b : string * V) : Decision (entry_le a b) :=
  decide (str_leb a.1 b.1 = true).

Definition btree_entries {V} (m : gmap string V) : list (string * V) :=
  merge_sort entry_le (map_to_list m).

(** ** Automation *)

(** Splits a boolean conjunction or disjunction hypothesis and inverts results. *)
Ltac inv_res :=
  repeat match goal with
  | H : Ok _ = Ok _ |- _ => injection H as H
  | H : Err _ = Err _ |- _ => injection H as H
  | H : Ok _ = Err _ |- _ => discriminate H
  | H : Err _ = Ok _ |- _ => discriminate H
  | H : Some _ = Some _ |- _ => injection H as H
  | H : Some _ = None |- _ => discriminate H
  | H : None = Some _ |- _ => discriminate H
  | H : (_, _) = (_, _) |- _ => injection H as H
  | H : true = false |- _ => discriminate H
  | H : false = true |- _ => discriminate H
  end; subst.

(** Case analysis on the scrutinee of a match in a hypothesis. *)
Ltac break_match_in H :=
  match type of H with
  | context [match ?x with _ => _ end] =>
      lazymatch x with
      | context [match _ with _ => _ end] => fail
      | _ => let E := fresh "E" in destruct x eqn:E
      end
  end.

Ltac break_match_goal :=
  match goal with
  | |- context [match ?x with _ => _ end] =>
      lazymatch x with
      | context [match _ with _ => _ end] => fail
      | _ => let E := fresh "E" in destruct x eqn:E
      end
  end.

Create HintDb bobby.

(** ** Lemmas on results *)

Lemma rbind_ok {A B E} (r : result A E) (k : A -> result B E) b :
  rbind r k = Ok b <-> exists a, r = Ok a /\ k a = Ok b.
Proof. destruct r; simpl; naive_solver. Qed.

Lemma rbind_unit_ok {B E} (r : result unit E) (k : result B E) b :
  rbind r (fun _ => k) = Ok b <-> r = Ok tt /\ k = Ok b.
Proof. rewrite rbind_ok. split; [intros ([] & ? & ?)|intros [? ?]]; eauto. Qed.

Lemma refuse_if_ok {E} c (e : E) : refuse_if c e = Ok tt <-> c = false.
Proof. destruct c; simpl; naive_solver. Qed.

Lemma map_err_ok {A E F} (f : E -> F) (r : result A E) a :
  map_err f r = Ok a <-> r = Ok a.
Proof. destruct r; simpl; naive_solver. Qed.

Lemma ok_or_ok {A E} (o : option A) (e : E) a : ok_or o e = Ok a <-> o = Some a.
Proof. destruct o; simpl; naive_solver. Qed.

Lemma is_ok_true {A E} (r : result A E) : is_ok r = true <-> exists a, r = Ok a.
Proof. destruct r; simpl; naive_solver. Qed.

Lemma is_ok_unit {E} (r : result unit E) : is_ok r = true <-> r = Ok tt.
Proof. destruct r as [[]|]; simpl; naive_solver. Qed.

Lemma check_all_ok {A E} (f : A -> result unit E) l :
  check_all f l = Ok tt <-> Forall (fun x => f x = Ok tt) l.
Proof.
  induction l as [|x l IH]; simpl; [by split|].
  rewrite rbind_unit_ok, IH, Forall_cons. done.
Qed.

Lemma sbind_ok {S E A B} (m : ST S E A) (k : A -> ST S E B) s b s'' :
  sbind m k s = (Ok b, s'') <-> exists a s', m s = (Ok a, s') /\ k a s' = (Ok b, s'').
Proof. unfold sbind. destruct (m s) as [[a|e] s']; naive_solver. Qed.

Lemma slift_ok {S E A} (r : result A E) (s : S) a s' :
  slift r s = (Ok a, s') <-> r = Ok a /\ s' = s.
Proof. unfold slift. naive_solver. Qed.

(** Turns every [... = Ok ...] hypothesis and goal into its facts. *)
Ltac simp_ok :=
  repeat first
    [ setoid_rewrite rbind_unit_ok | setoid_rewrite rbind_ok
    | setoid_rewrite refuse_if_ok | setoid_rewrite map_err_ok
    | setoid_rewrite ok_or_ok | setoid_rewrite check_all_ok ].

Ltac simp_ok_in H :=
  repeat first
    [ rewrite rbind_unit_ok in H | rewrite rbind_ok in H
    | rewrite refuse_if_ok in H | rewrite map_err_ok in H
    | rewrite ok_or_ok in H | rewrite check_all_ok in H ].

(** ** Lemmas on strings *)

Lemma str_app_cons c a b : String c a +:+ b = String c (a +:+ b).
Proof. done. Qed.

Lemma str_app_nil_r s : s +:+ "" = s.
Proof. induction s as [|c s IH]; [done|]. by rewrite str_app_cons, IH. Qed.

Lemma str_app_assoc a b c : (a +:+ b) +:+ c = a +:+ b +:+ c.
Proof. induction a as [|x a IH]; [done|]. by rewrite !str_app_cons, IH. Qed.

Lemma string_of_list_app l k :
  String.string_of_list_ascii (l ++ k) = String.string_of_list_ascii l +:+ String.string_of_list_ascii k.
Proof. induction l as [|x l IH]; simpl; [done|]. by rewrite IH, str_app_cons. Qed.

Lemma str_forallb_app p a b :
  str_forallb p (a +:+ b) = str_forallb p a && str_forallb p b.
Proof. induction a as [|c a IH]; simpl; [done|]. by rewrite IH, andb_assoc. Qed.

Lemma prefix_spec pat s : String.prefix pat s = true <-> exists t, s = pat +:+ t.
Proof.
  revert s; induction pat as [|a pat IH]; intros s; simpl.
  { split; eauto. destruct s; done. }
  destruct s as [|b s]; simpl; [by split; [|intros []]|].
  destruct (ascii_dec a b) as [->|Hne].
  2:{ split; [done|]. intros [t H]; by injection H. }
  rewrite IH. split; intros [t Ht]; exists t; [by rewrite Ht|by injection Ht].
Qed.

(** [contains] is the substring relation. *)
Lemma contains_spec pat s :
  contains pat s = true <-> exists a b, s = a +:+ pat +:+ b.
Proof.
  induction s as [|c s IH]; cbn [contains]; rewrite orb_true_iff, prefix_spec.
  - split; [intros [[t Ht]|?]; [exists "", t; done|done]|].
    intros ([|? a] & b & H); [left; eauto|discriminate].
  - rewrite IH. split.
    + intros [[t Ht]|(a & b & Hs)]; [exists "", t; done|].
      exists (String c a), b. by rewrite Hs.
    + intros ([|c' a] & b & H); [left; eauto|].
      injection H as -> ->. right; eauto.
Qed.

Lemma strip_prefix_spec pat s t :
  strip_prefix pat s = Some t <-> s = pat +:+ t.
Proof.
  revert s; induction pat as [|a pat IH]; intros s; simpl; [naive_solver|].
  destruct s as [|b s]; [by split|].
  destruct (Ascii.eqb_spec a b) as [->|Hne].
  2:{ split; [done|]. intros H; by injection H. }
  rewrite IH. split; [by intros ->|]. intros H; by injection H.
Qed.

(** A byte that every character test rejects occurs in no accepted string. *)
Lemma str_forallb_not_contains p s c :
  str_forallb p s = true -> p c = false -> contains (String c EmptyString) s = false.
Proof.
  intros Hs Hc. apply not_true_iff_false. intros (a & b & ->)%contains_spec.
  rewrite !str_forallb_app in Hs. simpl in Hs. rewrite Hc in Hs.
  by rewrite andb_false_r in Hs.
Qed.

Lemma slen_nonneg s : 0 <= slen s.
Proof. unfold slen. lia. Qed.

(** ** Lemmas on ordered maps *)

Lemma btree_entries_perm {V} (m : gmap string V) :
  btree_entries m ≡ₚ map_to_list m.
Proof. apply merge_sort_Permutation. Qed.

Lemma Forall_btree_entries {V} (P : string * V -> Prop) (m : gmap string V) :
  Forall P (btree_entries m) <-> map_Forall (fun k v => P (k, v)) m.
Proof.
  rewrite btree_entries_perm, Forall_forall. unfold map_Forall. split.
  - intros H k v Hk. apply H, elem_of_map_to_list, Hk.
  - intros H [k v] Hk%elem_of_map_to_list. by apply H.
Qed.

#[export] Hint Resolve slen_nonneg : bobby.

(** ** Lemmas on lists *)

(** [Iterator::find] returns the first element that passes. *)
Lemma find_first {A} (f : A -> bool) l x :
  List.find f l = Some x <->
  exists l1 l2, l = l1 ++ x :: l2 /\ f x = true /\ Forall (fun y => f y = false) l1.
Proof.
  induction l as [|y l IH]; simpl.
  { split; [done|]. intros ([|] & ? & ? & ?); done. }
  destruct (f y) eqn:Ey; split.
  - intros [= ->]. exists [], l. eauto.
  - intros ([|z l1] & l2 & Heq & Hx & Hl); simplify_eq/=; [done|].
    inversion Hl; congruence.
  - intros (l1 & l2 & -> & ? & ?)%IH. exists (y :: l1), l2. eauto.
  - intros ([|z l1] & l2 & Heq & Hx & Hl); simplify_eq/=; [congruence|].
    inversion Hl; simplify_eq. apply IH. eauto.
Qed.

Lemma find_none_iff {A} (f : A -> bool) l :
  List.find f l = None <-> Forall (fun y => f y = false) l.
Proof.
  induction l as [|y l IH]; simpl; [by split|].
  rewrite Forall_cons, <-IH. destruct (f y); naive_solver.
Qed.

(** The decimal text of an integer. *)
Class Decimal := {
  decimal : Z -> string;
}.

(** ** Evaluation in proofs *)

(** An equation whose right side is a value, checked by conversion. *)
Ltac by_eval := match goal with |- _ = ?b => exact_no_check (@eq_refl _ b) end.

Lemma pair_fst {A B} (p : A * B) a : p.1 = a -> p = (a, p.2).
Proof. destruct p. simpl. congruence. Qed.

(** ** Triples with an outcome for early returns *)

Definition triple {S E A} (P : S -> Prop) (m : ST S E A) (Q : A -> S -> Prop) (F : E -> S -> Prop) : Prop :=
  forall s r s', P s -> m s = (r, s') -> match r with Ok a => Q a s' | Err e => F e s' end.

Section Triples.
Context {S E : Type} (F : E -> S -> Prop).

Lemma triple_bind {A B} P Q (m : ST S E A) (k : A -> ST S E B) R :
  triple P m Q F -> (forall a, triple (Q a) (k a) R F) -> triple P (sbind m k) R F.
Proof.
  intros Hm Hk s r s' Hp. unfold sbind. destruct (m s) as [[a|e] s1] eqn:Em.
  - apply Hk. exact (Hm _ _ _ Hp Em).
  - intros [= <- <-]. exact (Hm _ _ _ Hp Em).
Qed.

Lemma triple_ret {A} (P : S -> Prop) (a : A) (Q : A -> S -> Prop) :
  (forall s, P s -> Q a s) -> triple P (sret a) Q F.
Proof. intros HQ s r s' Hp [= <- <-]. auto. Qed.

Lemma triple_fail {A} (P : S -> Prop) (e : E) (Q : A -> S -> Prop) :
  (forall s, P s -> F e s) -> triple P (sfail e) Q F.
Proof. intros HF s r s' Hp [= <- <-]. auto. Qed.

Lemma triple_get (P : S -> Prop) : triple P sget (fun a s => P s /\ a = s) F.
Proof. by intros s r s' Hp [= <- <-]. Qed.

Lemma triple_modify (P : S -> Prop) f (Q : unit -> S -> Prop) :
  (forall s, P s -> Q tt (f s)) -> triple P (smodify f) Q F.
Proof. intros HQ s r s' Hp [= <- <-]. auto. Qed.

Lemma triple_lift {A} (P : S -> Prop) (x : result A E) (Q : A -> S -> Prop) :
  (forall s, P s -> match x with Ok a => Q a s | Err e => F e s end) -> triple P (slift x) Q F.
Proof. intros HQ s r s' Hp [= <- <-]. by apply HQ. Qed.

Lemma triple_weaken {A} (P P' : S -> Prop) (m : ST S E A) (Q Q' : A -> S -> Prop) :
  triple P' m Q' F -> (forall s, P s -> P' s) -> (forall a s, Q' a s -> Q a s) -> triple P m Q F.
Proof.
  intros Hm HP HQ s r s' Hp Em. pose proof (Hm _ _ _ (HP _ Hp) Em) as Hr. destruct r; auto.
Qed.

Lemma triple_pure {A} (X : Prop) (P : S -> Prop) (m : ST S E A) Q :
  (X -> triple P m Q F) -> triple (fun s => P s /\ X) m Q F.
Proof. intros Hm s r s' [Hp Hx]. by apply Hm. Qed.

Lemma triple_ex {A X} (P : X -> S -> Prop) (m : ST S E A) Q :
  (forall x, triple (P x) m Q F) -> triple (fun s => exists x, P x s) m Q F.
Proof. intros Hm s r s' [x Hp]. by apply (Hm x). Qed.
End Triples.
