(* ===== verification/Text.v ===== *)
(** * Text validation

    The byte-level grammars of [crates/bobby-browser-client/src/skills.rs] (profile
    versions, artifact identifiers, locales, display text) and of the skill registry
    ([crates/skill-runtime/src/registry.rs]).  Every validator returns the error text
    of the source.  The theorems show what an accepted string can not contain. *)

From S2P Require Import Prelude.
From Stdlib Require Import Ascii.

Definition code (c : ascii) : Z := Z.of_N (N_of_ascii c).
Definition in_range (lo hi : Z) (c : ascii) : bool := (lo <=? code c) && (code c <=? hi).

(** [u8::is_ascii_*] of the Rust standard library. *)
Definition is_ascii_digit : ascii -> bool := in_range 48 57.
Definition is_ascii_lowercase : ascii -> bool := in_range 97 122.
Definition is_ascii_uppercase : ascii -> bool := in_range 65 90.
Definition is_ascii_alphabetic (c : ascii) : bool := is_ascii_lowercase c || is_ascii_uppercase c.
Definition is_ascii_alphanumeric (c : ascii) : bool := is_ascii_alphabetic c || is_ascii_digit c.
Definition is_ascii_hexdigit (c : ascii) : bool :=
  is_ascii_digit c || in_range 97 102 c || in_range 65 70 c.
Definition is_ascii_graphic : ascii -> bool := in_range 33 126.

Definition to_ascii_lowercase (s : string) : string :=
  str_map (fun c => if is_ascii_uppercase c
                    then ascii_of_N (Z.to_N (code c + 32)) else c) s.

(** [value.chars().any(char::is_control)] on UTF-8 bytes: the control characters are
    U+0000..U+001F, U+007F and U+0080..U+009F, the last encoded as the byte 194
    followed by a byte 128..159. *)
Fixpoint any_control (s : string) : bool :=
  match s with
  | EmptyString => false
  | String c s' =>
      in_range 0 31 c || (code c =? 127) ||
      ((code c =? 194) && match s' with
                          | String d _ => in_range 128 159 d
                          | EmptyString => false
                          end) ||
      any_control s'
  end.

Definition MAX_NAME_BYTES : Z := 128.
Definition MAX_POSTCONDITION_BYTES : Z := 1024.

(** Membership of one character in a literal character class. *)
Definition one_of (cs : string) (c : ascii) : bool :=
  existsb (Ascii.eqb c) (String.list_ascii_of_string cs).

Definition any_contained (pats : list string) (value : string) : bool :=
  existsb (fun p => contains p value) pats.

Definition credential_or_token_prefix (value : string) : bool :=
  any_contained
    ["basic "; "bearer "; "authorization:"; "authorization "; "ghp_"; "gho_"; "ghs_";
     "github_pat_"; "sk-"; "token"]
    (to_ascii_lowercase value).

Definition credential_assignment (value : string) : bool :=
  any_contained
    ["authorization="; "cookie="; "password="; "token="; "api_key="; "apikey="]
    (to_ascii_lowercase value).

(** [str::split] at the characters that satisfy [sep]; [acc] is the current token,
    reversed. *)
Fixpoint split_by (sep : ascii -> bool) (acc : list ascii) (s : string) : list string :=
  match s with
  | EmptyString => [String.string_of_list_ascii (reverse acc)]
  | String c s' =>
      if sep c then String.string_of_list_ascii (reverse acc) :: split_by sep [] s'
      else split_by sep (c :: acc) s'
  end.

Definition forbidden_terms : list string :=
  ["cookie"; "password"; "authorization"; "bearer"; "token"].

Definition contains_forbidden_secret_term (value : string) : bool :=
  existsb (fun token => existsb (String.eqb token) forbidden_terms)
    (split_by (fun c => negb (is_ascii_alphanumeric c)) [] (to_ascii_lowercase value)).

(** [as_bytes().windows(3).any(..)]. *)
Fixpoint contains_windows_drive_path (value : string) : bool :=
  match value with
  | String a ((String b (String c _)) as rest) =>
      (is_ascii_alphabetic a && Ascii.eqb b ":" && (Ascii.eqb c "/" || Ascii.eqb c "\"))
      || contains_windows_drive_path rest
  | _ => false
  end.

Definition validate_display_text_safety (value field : string) : result unit string :=
  refuse_if
    (any_control value || contains ".." value || contains "~/" value || contains "~\" value
     || String.prefix "/" value || String.prefix "\" value || contains " /" value
     || contains "\\" value || contains_forbidden_secret_term value
     || contains_windows_drive_path value || contains "://" value
     || credential_or_token_prefix value || credential_assignment value)
    (field +:+ " contains unsafe wire metadata").

Definition validate_observable_digest (value : string) : result unit string :=
  validate_display_text_safety value "observable digest".

Definition validate_postcondition (value : string) : result unit string :=
  refuse_if (String.eqb value "" || (MAX_POSTCONDITION_BYTES <? slen value))
    "expected postcondition must be between 1 and 1024 bytes" ;?
  validate_display_text_safety value "expected postcondition".

Definition validate_user_agent (value : string) : result unit string :=
  refuse_if (String.eqb value "" || (MAX_NAME_BYTES <? slen value)
             || negb (str_forallb (fun b => is_ascii_graphic b || Ascii.eqb b " ") value))
    "user agent is invalid" ;?
  validate_display_text_safety value "user agent".

Definition validate_timezone (value : string) : result unit string :=
  refuse_if (String.eqb value "" || (MAX_NAME_BYTES <? slen value)
             || String.prefix "/" value || contains ".." value
             || negb (str_forallb (fun b => is_ascii_alphanumeric b || one_of "/_+-" b) value))
    "timezone is invalid".

Definition validate_locale (value : string) : result unit string :=
  refuse_if (String.eqb value "" || (MAX_NAME_BYTES <? slen value)
             || negb (str_forallb (fun b => is_ascii_alphanumeric b || Ascii.eqb b "-") value))
    "locale is invalid".

Definition version_byte (b : ascii) : bool := is_ascii_alphanumeric b || one_of "._+-" b.

Definition validate_version (value field : string) : result unit string :=
  refuse_if (String.eqb value "" || (MAX_NAME_BYTES <? slen value)
             || negb (str_forallb version_byte value)
             || credential_or_token_prefix value)
    (field +:+ " must use the conservative version grammar").

Definition artifact_byte (b : ascii) : bool := is_ascii_alphanumeric b || one_of "-_.:" b.

Definition validate_artifact_id (value : string) : result unit string :=
  refuse_if (String.eqb value "" || (MAX_NAME_BYTES <? slen value)
             || negb (str_forallb artifact_byte value)
             || contains ".." value || credential_or_token_prefix value)
    "artifact id must be an opaque identifier".

(** Sixty-four lowercase hexadecimal digits.  The sources write this test in four
    ways; see [sha256_spellings_agree]. *)
Definition lower_hex (b : ascii) : bool := is_ascii_hexdigit b && negb (is_ascii_uppercase b).
Definition is_sha256_hex (value : string) : bool :=
  (slen value =? 64) && str_forallb lower_hex value.

(** The spelling of [SkillEvidenceRef::validate]. *)
Definition evidence_hex (b : ascii) : bool :=
  is_ascii_digit b || (is_ascii_lowercase b && is_ascii_hexdigit b).

(** The spelling of [JobResolutionRequest::validate]. *)
Definition resolution_hex (b : ascii) : bool := is_ascii_digit b || in_range 97 102 b.

(** ** The skill registry's own version grammar *)

Definition contains_secret_marker (value : string) : bool :=
  any_contained ["bearer"; "authorization"; "password"; "cookie"; "token"; "sk-"]
    (to_ascii_lowercase value).

Definition registry_version_ok (version : string) : bool :=
  negb (String.eqb version "" || (128 <? slen version)
        || negb (str_forallb version_byte version) || contains_secret_marker version).

(** ** Facts about the grammars *)

(** A boolean fact about every byte, by evaluation on the 256 of them. *)
Ltac all_bytes :=
  let b0 := fresh in let b1 := fresh in let b2 := fresh in let b3 := fresh in
  let b4 := fresh in let b5 := fresh in let b6 := fresh in let b7 := fresh in
  intros [b0 b1 b2 b3 b4 b5 b6 b7];
  destruct b0, b1, b2, b3, b4, b5, b6, b7;
  vm_compute; first [reflexivity | discriminate].

Lemma evidence_hex_lower b : evidence_hex b = lower_hex b.
Proof. revert b; all_bytes. Qed.

Lemma resolution_hex_lower b : resolution_hex b = lower_hex b.
Proof. revert b; all_bytes. Qed.

Lemma str_forallb_ext p q s : (forall b, p b = q b) -> str_forallb p s = str_forallb q s.
Proof. intros H. induction s; simpl; [done|]. by rewrite H, IHs. Qed.

Lemma str_forallb_impl p q s :
  (forall b, p b = true -> q b = true) -> str_forallb p s = true -> str_forallb q s = true.
Proof. intros H. induction s; simpl; [done|]. rewrite !andb_true_iff. naive_solver. Qed.

Lemma sha256_spellings_agree s :
  str_forallb evidence_hex s = str_forallb lower_hex s /\
  str_forallb resolution_hex s = str_forallb lower_hex s.
Proof.
  split; apply str_forallb_ext; [apply evidence_hex_lower|apply resolution_hex_lower].
Qed.

Lemma printable_no_control p s :
  (forall b, p b = true -> in_range 32 126 b = true) ->
  str_forallb p s = true -> any_control s = false.
Proof.
  intros Hp Hs. apply (str_forallb_impl p _ _ Hp) in Hs. clear Hp.
  induction s as [|c s IH]; [done|]. cbn [str_forallb] in Hs.
  apply andb_true_iff in Hs as [Hc Hs].
  cbn [any_control]. rewrite IH by done. unfold in_range in *.
  rewrite orb_false_r, !orb_false_iff, !andb_false_iff. lia.
Qed.

Lemma artifact_byte_printable b : artifact_byte b = true -> in_range 32 126 b = true.
Proof. revert b; all_bytes. Qed.

(** Tokens of [split_by]: a maximal separator-free factor of the text is one of them. *)
Definition starts_with_sep (sep : ascii -> bool) (s : string) : Prop :=
  match s with EmptyString => True | String c _ => sep c = true end.

Lemma split_by_head sep acc t b :
  str_forallb (fun c => negb (sep c)) t = true -> starts_with_sep sep b ->
  (String.string_of_list_ascii (reverse acc) +:+ t) ∈ split_by sep acc (t +:+ b).
Proof.
  revert acc. induction t as [|c t IH]; intros acc Ht Hb; simpl in *.
  - rewrite str_app_nil_r. destruct b as [|c b]; simpl in *; [|rewrite Hb]; left.
  - apply andb_true_iff in Ht as [Hc Ht]. apply negb_true_iff in Hc. rewrite Hc.
    specialize (IH (c :: acc) Ht Hb).
    by rewrite reverse_cons, string_of_list_app, str_app_assoc in IH.
Qed.

Lemma split_by_tail sep acc a c t b :
  sep c = true ->
  str_forallb (fun c => negb (sep c)) t = true -> starts_with_sep sep b ->
  t ∈ split_by sep acc (a +:+ String c (t +:+ b)).
Proof.
  intros Hc Ht Hb. revert acc. induction a as [|x a IH]; intros acc; simpl.
  - rewrite Hc. right. exact (split_by_head sep [] t b Ht Hb).
  - destruct (sep x); [right|]; apply IH.
Qed.

(** The text before a token is empty or ends with a separator. *)
Inductive token_start (sep : ascii -> bool) : string -> Prop :=
| token_start_empty : token_start sep EmptyString
| token_start_after a c : sep c = true -> token_start sep (a +:+ String c EmptyString).

Lemma split_by_token sep a t b :
  token_start sep a -> str_forallb (fun c => negb (sep c)) t = true -> starts_with_sep sep b ->
  t ∈ split_by sep [] (a +:+ t +:+ b).
Proof.
  intros [|a' c Hc] Ht Hb; [exact (split_by_head sep [] t b Ht Hb)|].
  rewrite str_app_assoc. exact (split_by_tail sep [] a' c t b Hc Ht Hb).
Qed.

Lemma validate_version_ok value field :
  validate_version value field = Ok tt ->
  value <> "" /\ slen value <= MAX_NAME_BYTES /\ str_forallb version_byte value = true
  /\ credential_or_token_prefix value = false.
Proof.
  unfold validate_version. rewrite refuse_if_ok, !orb_false_iff, negb_false_iff.
  intros (((He & Hl) & Hb) & Hc). apply String.eqb_neq in He. repeat split; try done. lia.
Qed.

(** An artifact identifier that [validate_artifact_id] accepts names no path: it
    holds no slash, no backslash, no parent-directory component and no control
    character, has at most 128 bytes, and embeds none of the credential markers. *)
Theorem artifact_id_path_safe value :
  validate_artifact_id value = Ok tt ->
  contains "/" value = false /\ contains "\" value = false /\ contains ".." value = false
  /\ any_control value = false /\ 0 < slen value <= MAX_NAME_BYTES
  /\ credential_or_token_prefix value = false.
Proof.
  unfold validate_artifact_id. rewrite refuse_if_ok, !orb_false_iff, negb_false_iff.
  intros ((((He & Hl) & Hb) & Hd) & Hc). apply String.eqb_neq in He. split_and!; try done.
  - by apply (str_forallb_not_contains artifact_byte).
  - by apply (str_forallb_not_contains artifact_byte).
  - by apply (printable_no_control artifact_byte), Hb; apply artifact_byte_printable.
  - destruct value; [done|]. unfold slen. simpl. lia.
  - lia.
Qed.

Lemma artifact_id_path_safe_witness :
  validate_artifact_id "shot-2026.07:page_1" = Ok tt /\
  contains "/" "shot-2026.07:page_1" = false.
Proof.
  split; [vm_compute; reflexivity|].
  apply (artifact_id_path_safe "shot-2026.07:page_1"). vm_compute; reflexivity.
Defined.

(** Display text that [validate_display_text_safety] accepts carries none of the
    words cookie, password, authorization, bearer or token, in any letter case, as a
    whole alphanumeric token; nor a control character, a parent-directory component, a
    URL scheme or a Windows drive path. *)
Theorem display_text_carries_no_secret_word value field a t b :
  validate_display_text_safety value field = Ok tt ->
  to_ascii_lowercase value = a +:+ t +:+ b ->
  token_start (fun c => negb (is_ascii_alphanumeric c)) a ->
  starts_with_sep (fun c => negb (is_ascii_alphanumeric c)) b ->
  (t ∉ forbidden_terms) /\ any_control value = false /\ contains ".." value = false
  /\ contains "://" value = false /\ contains_windows_drive_path value = false.
Proof.
  unfold validate_display_text_safety. rewrite refuse_if_ok, !orb_false_iff.
  intros Hv Hs Ha Hb. destruct_and!. split; [|done]. intros Ht.
  match goal with H : contains_forbidden_secret_term value = false |- _ =>
    apply not_true_iff_false in H; apply H end.
  unfold contains_forbidden_secret_term. rewrite Hs. apply existsb_exists. exists t. split.
  - apply list_elem_of_In, split_by_token; [done| |done].
    unfold forbidden_terms in Ht. repeat (apply elem_of_cons in Ht as [->|Ht]; [done|]).
    by apply elem_of_nil in Ht.
  - apply existsb_exists. exists t. rewrite String.eqb_refl. by apply list_elem_of_In in Ht.
Qed.

Lemma display_text_carries_no_secret_word_witness :
  validate_display_text_safety "Order 12 saved" "expected postcondition" = Ok tt /\
  ("order" ∉ forbidden_terms).
Proof.
  split; [vm_compute; reflexivity|].
  apply (display_text_carries_no_secret_word "Order 12 saved" "expected postcondition"
           "" "order" " 12 saved"); try (vm_compute; reflexivity).
  constructor.
Defined.
