(* ===== verification/SkillTypes.v ===== *)
(** * Skill wire types

    The data of [crates/bobby-browser-client/src/skills.rs]: skill profiles, recovery
    decisions, checkpoint proofs, issued decisions and the durable session state, with
    the validation that every constructor, deserializer and serializer runs.

    A [Uuid] is a 128-bit number.  [BTreeSet<SkillCapability>] is a [gset].  The
    functions that read the wall clock take the reading [clock]; one call reads it
    once.  [X_serialize] is the custom [Serialize] implementation of [X]: it validates,
    builds the wire struct, and then serializes the wire struct's fields, each with its
    own [Serialize]; [X_try_from] is the [TryFrom] of deserialization. *)

From S2P Require Import Prelude Text.
From Stdlib Require Import Ascii.

Definition Uuid : Type := N.
Definition SessionId : Type := Uuid.
Definition CommandId : Type := Uuid.
Definition CheckpointId : Type := Uuid.
Definition WorkflowId : Type := Uuid.
Definition AttemptId : Type := Uuid.
Definition PageId : Type := Uuid.
#[export] Hint Unfold SessionId CommandId CheckpointId WorkflowId AttemptId PageId Uuid : bobby.
#[export] Instance Uuid_eq_dec : EqDecision Uuid := N.eq_dec.
#[export] Instance Uuid_countable : Countable Uuid := _.
#[export] Instance SessionId_eq_dec : EqDecision SessionId := N.eq_dec.
#[export] Instance SessionId_countable : Countable SessionId := N_countable.

Definition SKILL_SCHEMA_VERSION : Z := 1.
Definition MAX_CAPABILITIES : Z := 32.
Definition MAX_PREFERRED_ENGINES : Z := 8.
Definition MAX_PROFILE_VALUES : Z := 64.
Definition MAX_TACTICS : Z := 32.
Definition MAX_EVIDENCE_REFS : Z := 128.

(** ** Enumerations *)

Inductive SkillGhostCommand := On | Off | GhostStatus.
Inductive SkillZigZagZigCommand := Run | ZigStatus | Stop.

Inductive SkillCommand :=
| Ghost (c : SkillGhostCommand)
| ZigZagZig (c : SkillZigZagZigCommand).

Inductive SkillCapability :=
| EngineSelection | ProfilePersistence | Locale | Timezone | Viewport
| UserAgentConsistency | InteractionCadence.

Inductive SkillFailure :=
| UnsupportedCapability | ConfigurationConflict | DeadlineExceeded | TargetDrift
| PostconditionFailed | EffectUncertain | CheckpointMismatch | StrategyExhausted
| EngineUnavailable.

Inductive SkillTactic :=
| ObserveAgain | ResolveSemanticTarget | ChangeInteractionMethod | SolveChallenge
| ReconcileCheckpoint | FreshGhostSession | SelectCompatibleEngine | RestartDurableBoundary.

Inductive SkillBrowserEngine := Firefox | Chromium | WebKit.

Inductive CommandClass := Replayable | Reconciliable | Boundary.

#[export] Instance SkillGhostCommand_eq_dec : EqDecision SkillGhostCommand.
Proof. solve_decision. Defined.
#[export] Instance SkillZigZagZigCommand_eq_dec : EqDecision SkillZigZagZigCommand.
Proof. solve_decision. Defined.
#[export] Instance SkillCommand_eq_dec : EqDecision SkillCommand.
Proof. solve_decision. Defined.
#[export] Instance SkillCapability_eq_dec : EqDecision SkillCapability.
Proof. solve_decision. Defined.
#[export] Instance SkillFailure_eq_dec : EqDecision SkillFailure.
Proof. solve_decision. Defined.
#[export] Instance SkillTactic_eq_dec : EqDecision SkillTactic.
Proof. solve_decision. Defined.
#[export] Instance SkillBrowserEngine_eq_dec : EqDecision SkillBrowserEngine.
Proof. solve_decision. Defined.
#[export] Instance CommandClass_eq_dec : EqDecision CommandClass.
Proof. solve_decision. Defined.

(** The declaration order, which is the derived [Ord]. *)
Definition capability_index (c : SkillCapability) : nat :=
  match c with
  | EngineSelection => 0 | ProfilePersistence => 1 | Locale => 2 | Timezone => 3
  | Viewport => 4 | UserAgentConsistency => 5 | InteractionCadence => 6
  end.

Definition all_capabilities : list SkillCapability :=
  [EngineSelection; ProfilePersistence; Locale; Timezone; Viewport;
   UserAgentConsistency; InteractionCadence].

#[export] Program Instance SkillCapability_countable : Countable SkillCapability :=
  inj_countable capability_index (fun i => all_capabilities !! i) _.
Next Obligation. by intros []. Qed.

(** ** Shared validation helpers *)

Definition validate_schema_version (schema_version : Z) : result unit string :=
  refuse_if (negb (schema_version =? SKILL_SCHEMA_VERSION)) "skill schema version must be 1".

Definition validate_capabilities (capabilities : gset SkillCapability) (field : string)
  : result unit string :=
  refuse_if (MAX_CAPABILITIES <? Z.of_nat (size capabilities))
    (field +:+ " capabilities exceed 32 entries").

Definition validate_profile_value (entry : string * string) : result unit string :=
  let '(name, value) := entry in
  if String.eqb name "locale" then validate_locale value
  else if String.eqb name "timezone" then validate_timezone value
  else if String.eqb name "userAgentConsistency" then validate_user_agent value
  else if String.eqb name "engineSelection" || String.eqb name "profilePersistence"
          || String.eqb name "viewport" || String.eqb name "interactionCadence"
  then validate_version value name
  else Err ("unsupported profile setting: " +:+ name).

Definition validate_profile_values (values : gmap string string) : result unit string :=
  refuse_if (MAX_PROFILE_VALUES <? Z.of_nat (size values)) "profile values exceed 64 entries" ;?
  check_all validate_profile_value (btree_entries values).

(** [name.strip_prefix("Skill").is_none_or(|suffix| ..)], negated. *)
Definition skill_identifier (name : string) : bool :=
  match strip_prefix "Skill" name with
  | None => false
  | Some suffix => negb (String.eqb suffix "") && str_forallb is_ascii_alphanumeric suffix
  end.

Definition validate_active_version (entry : string * string) : result unit string :=
  refuse_if ((MAX_NAME_BYTES <? slen entry.1) || negb (skill_identifier entry.1))
    "active version name must be a Skill identifier" ;?
  validate_version entry.2 "active version".

Definition validate_active_versions (values : gmap string string) : result unit string :=
  refuse_if (MAX_PROFILE_VALUES <? Z.of_nat (size values)) "active versions exceed 64 entries" ;?
  check_all validate_active_version (btree_entries values).

Definition tactic_requires_checkpoint (tactic : SkillTactic) : bool :=
  match tactic with
  | ReconcileCheckpoint | FreshGhostSession | SelectCompatibleEngine
  | RestartDurableBoundary => true
  | _ => false
  end.

Definition issued_interval_ms (issued_at deadline : Time) : result Z string :=
  let interval := deadline - issued_at in
  refuse_if (interval <? 0) "issued decision is after the workflow deadline" ;?
  let ms := num_milliseconds interval in
  if (0 <=? ms) && (ms <=? u64_max) then Ok ms
  else Err "issued decision interval is not representable in milliseconds".

(** ** Profile requests *)

Record SkillProfileRequest := MkSkillProfileRequest {
  spr_schema_version : Z;
  spr_required : gset SkillCapability;
  spr_optional : gset SkillCapability;
  spr_preferred_engines : list SkillBrowserEngine;
  spr_values : gmap string string;
}.

Record SkillProfileRequestWire := MkSkillProfileRequestWire {
  sprw_schema_version : Z;
  sprw_required : gset SkillCapability;
  sprw_optional : gset SkillCapability;
  sprw_preferred_engines : list SkillBrowserEngine;
  sprw_values : gmap string string;
}.

Definition SkillProfileRequest_validate (r : SkillProfileRequest) : result unit string :=
  validate_schema_version r.(spr_schema_version) ;?
  validate_capabilities r.(spr_required) "required" ;?
  validate_capabilities r.(spr_optional) "optional" ;?
  refuse_if (negb (bool_decide (r.(spr_required) ## r.(spr_optional))))
    "required and optional capabilities must not overlap" ;?
  refuse_if (MAX_CAPABILITIES <? Z.of_nat (size (r.(spr_required) ∪ r.(spr_optional))))
    "required and optional capabilities exceed 32 entries" ;?
  refuse_if (MAX_PREFERRED_ENGINES <? Z.of_nat (length r.(spr_preferred_engines)))
    "preferred engines exceed 8 entries" ;?
  validate_profile_values r.(spr_values).

Definition SkillProfileRequest_new (required optional : list SkillCapability)
    (preferred_engines : list SkillBrowserEngine) (values : gmap string string)
    : result SkillProfileRequest string :=
  let profile := MkSkillProfileRequest SKILL_SCHEMA_VERSION (list_to_set required)
                   (list_to_set optional) preferred_engines values in
  SkillProfileRequest_validate profile ;? Ok profile.

Definition SkillProfileRequest_try_from (value : SkillProfileRequestWire)
    : result SkillProfileRequest string :=
  let profile := MkSkillProfileRequest value.(sprw_schema_version) value.(sprw_required)
                   value.(sprw_optional) value.(sprw_preferred_engines) value.(sprw_values) in
  SkillProfileRequest_validate profile ;? Ok profile.

Definition SkillProfileRequest_serialize (r : SkillProfileRequest)
    : result SkillProfileRequestWire string :=
  SkillProfileRequest_validate r ;?
  Ok (MkSkillProfileRequestWire r.(spr_schema_version) r.(spr_required) r.(spr_optional)
        r.(spr_preferred_engines) r.(spr_values)).

(** ** Effective profiles *)

Record SkillProfile := MkSkillProfile {
  sp_schema_version : Z;
  sp_version : string;
  sp_engine : SkillBrowserEngine;
  sp_effective_capabilities : gset SkillCapability;
  sp_observable_digest : string;
}.
#[export] Instance SkillProfile_eq_dec : EqDecision SkillProfile.
Proof. solve_decision. Defined.

Record SkillProfileWire := MkSkillProfileWire {
  spw_schema_version : Z;
  spw_version : string;
  spw_engine : SkillBrowserEngine;
  spw_effective_capabilities : gset SkillCapability;
  spw_observable_digest : string;
}.

Definition SkillProfile_validate (p : SkillProfile) : result unit string :=
  validate_schema_version p.(sp_schema_version) ;?
  validate_version p.(sp_version) "profile version" ;?
  validate_capabilities p.(sp_effective_capabilities) "effective capabilities" ;?
  validate_observable_digest p.(sp_observable_digest).

Definition SkillProfile_new (version : string) (engine : SkillBrowserEngine)
    (effective_capabilities : list SkillCapability) (observable_digest : string)
    : result SkillProfile string :=
  let profile := MkSkillProfile SKILL_SCHEMA_VERSION version engine
                   (list_to_set effective_capabilities) observable_digest in
  SkillProfile_validate profile ;? Ok profile.

Definition SkillProfile_try_from (value : SkillProfileWire) : result SkillProfile string :=
  let profile := MkSkillProfile value.(spw_schema_version) value.(spw_version)
                   value.(spw_engine) value.(spw_effective_capabilities)
                   value.(spw_observable_digest) in
  SkillProfile_validate profile ;? Ok profile.

Definition SkillProfile_serialize (p : SkillProfile) : result SkillProfileWire string :=
  SkillProfile_validate p ;?
  Ok (MkSkillProfileWire p.(sp_schema_version) p.(sp_version) p.(sp_engine)
        p.(sp_effective_capabilities) p.(sp_observable_digest)).

(** ** Decisions *)

Record SkillDecision := MkSkillDecision {
  sd_tactic : SkillTactic;
  sd_trigger : SkillFailure;
  sd_expected_postcondition : string;
  sd_remaining_deadline_ms : Z;
  sd_tactic_budget_ms : Z;
  sd_checkpoint_id : option CheckpointId;
  sd_selected_engine : option SkillBrowserEngine;
}.
#[export] Instance SkillDecision_eq_dec : EqDecision SkillDecision.
Proof. solve_decision. Defined.

Record SkillDecisionWire := MkSkillDecisionWire {
  sdw_tactic : SkillTactic;
  sdw_trigger : SkillFailure;
  sdw_expected_postcondition : string;
  sdw_remaining_deadline_ms : Z;
  sdw_tactic_budget_ms : Z;
  sdw_checkpoint_id : option CheckpointId;
  sdw_selected_engine : option SkillBrowserEngine;
}.

Definition SkillDecision_validate (d : SkillDecision) : result unit string :=
  validate_postcondition d.(sd_expected_postcondition) ;?
  refuse_if (d.(sd_remaining_deadline_ms) <? d.(sd_tactic_budget_ms))
    "tactic budget must not exceed the remaining deadline" ;?
  match d.(sd_tactic), d.(sd_selected_engine) with
  | SelectCompatibleEngine, None => Err "engine selection requires a selected engine"
  | SelectCompatibleEngine, Some _ | _, None => Ok tt
  | _, Some _ => Err "only engine selection may select an engine"
  end.

Definition SkillDecision_new (tactic : SkillTactic) (trigger : SkillFailure)
    (expected_postcondition : string) (remaining_deadline_ms tactic_budget_ms : Z)
    (checkpoint_id : option CheckpointId) (selected_engine : option SkillBrowserEngine)
    : result SkillDecision string :=
  let decision := MkSkillDecision tactic trigger expected_postcondition
                    remaining_deadline_ms tactic_budget_ms checkpoint_id selected_engine in
  SkillDecision_validate decision ;? Ok decision.

Definition SkillDecision_try_from (value : SkillDecisionWire) : result SkillDecision string :=
  SkillDecision_new value.(sdw_tactic) value.(sdw_trigger) value.(sdw_expected_postcondition)
    value.(sdw_remaining_deadline_ms) value.(sdw_tactic_budget_ms)
    value.(sdw_checkpoint_id) value.(sdw_selected_engine).

Definition SkillDecision_serialize (d : SkillDecision) : result SkillDecisionWire string :=
  SkillDecision_validate d ;?
  Ok (MkSkillDecisionWire d.(sd_tactic) d.(sd_trigger) d.(sd_expected_postcondition)
        d.(sd_remaining_deadline_ms) d.(sd_tactic_budget_ms)
        d.(sd_checkpoint_id) d.(sd_selected_engine)).

(** ** Evidence references *)

Record SkillEvidenceRef := MkSkillEvidenceRef {
  er_artifact_id : string;
  er_sha256 : string;
}.
#[export] Instance SkillEvidenceRef_eq_dec : EqDecision SkillEvidenceRef.
Proof. solve_decision. Defined.

Record SkillEvidenceRefWire := MkSkillEvidenceRefWire {
  erw_artifact_id : string;
  erw_sha256 : string;
}.

Definition SkillEvidenceRef_validate (e : SkillEvidenceRef) : result unit string :=
  validate_artifact_id e.(er_artifact_id) ;?
  refuse_if (negb (slen e.(er_sha256) =? 64) || negb (str_forallb evidence_hex e.(er_sha256)))
    "sha256 must be exactly 64 lowercase hexadecimal characters".

Definition SkillEvidenceRef_new (artifact_id sha256 : string) : result SkillEvidenceRef string :=
  let evidence := MkSkillEvidenceRef artifact_id sha256 in
  SkillEvidenceRef_validate evidence ;? Ok evidence.

Definition SkillEvidenceRef_try_from (value : SkillEvidenceRefWire)
    : result SkillEvidenceRef string :=
  SkillEvidenceRef_new value.(erw_artifact_id) value.(erw_sha256).

Definition SkillEvidenceRef_serialize (e : SkillEvidenceRef)
    : result SkillEvidenceRefWire string :=
  SkillEvidenceRef_validate e ;?
  Ok (MkSkillEvidenceRefWire e.(er_artifact_id) e.(er_sha256)).

(** ** Outcomes *)

Inductive SkillOutcome :=
| Applied (evidence : list SkillEvidenceRef)
| Adapted (tactic : SkillTactic) (evidence : list SkillEvidenceRef)
| Degraded (unsupported : gset SkillCapability) (evidence : list SkillEvidenceRef)
| Stopped (evidence : list SkillEvidenceRef)
| Failed (failure : SkillFailure) (evidence : list SkillEvidenceRef).
#[export] Instance SkillOutcome_eq_dec : EqDecision SkillOutcome.
Proof. solve_decision. Defined.

Inductive SkillOutcomeWire :=
| AppliedWire (evidence : list SkillEvidenceRef)
| AdaptedWire (tactic : SkillTactic) (evidence : list SkillEvidenceRef)
| DegradedWire (unsupported : gset SkillCapability) (evidence : list SkillEvidenceRef)
| StoppedWire (evidence : list SkillEvidenceRef)
| FailedWire (failure : SkillFailure) (evidence : list SkillEvidenceRef).

Definition validate_evidence (evidence : list SkillEvidenceRef) : result unit string :=
  refuse_if (MAX_EVIDENCE_REFS <? Z.of_nat (length evidence))
    "evidence references exceed 128 entries" ;?
  check_all SkillEvidenceRef_validate evidence.

Definition SkillOutcome_applied (evidence : list SkillEvidenceRef) : result SkillOutcome string :=
  validate_evidence evidence ;? Ok (Applied evidence).
Definition SkillOutcome_adapted (tactic : SkillTactic) (evidence : list SkillEvidenceRef)
    : result SkillOutcome string :=
  validate_evidence evidence ;? Ok (Adapted tactic evidence).
Definition SkillOutcome_degraded (unsupported : gset SkillCapability)
    (evidence : list SkillEvidenceRef) : result SkillOutcome string :=
  validate_capabilities unsupported "unsupported" ;?
  validate_evidence evidence ;? Ok (Degraded unsupported evidence).
Definition SkillOutcome_stopped (evidence : list SkillEvidenceRef) : result SkillOutcome string :=
  validate_evidence evidence ;? Ok (Stopped evidence).
Definition SkillOutcome_failed (failure : SkillFailure) (evidence : list SkillEvidenceRef)
    : result SkillOutcome string :=
  validate_evidence evidence ;? Ok (Failed failure evidence).

Definition SkillOutcome_validate (o : SkillOutcome) : result unit string :=
  match o with
  | Applied evidence | Adapted _ evidence | Stopped evidence | Failed _ evidence =>
      validate_evidence evidence
  | Degraded unsupported evidence =>
      validate_capabilities unsupported "unsupported" ;? validate_evidence evidence
  end.

(** The derived serializer of a wire struct visits every evidence reference. *)
Definition serialize_evidence (evidence : list SkillEvidenceRef) : result unit string :=
  check_all (fun e => let? w := SkillEvidenceRef_serialize e in Ok tt) evidence.

Definition SkillOutcome_serialize (o : SkillOutcome) : result SkillOutcomeWire string :=
  SkillOutcome_validate o ;?
  match o with
  | Applied evidence => serialize_evidence evidence ;? Ok (AppliedWire evidence)
  | Adapted tactic evidence => serialize_evidence evidence ;? Ok (AdaptedWire tactic evidence)
  | Degraded unsupported evidence =>
      serialize_evidence evidence ;? Ok (DegradedWire unsupported evidence)
  | Stopped evidence => serialize_evidence evidence ;? Ok (StoppedWire evidence)
  | Failed failure evidence => serialize_evidence evidence ;? Ok (FailedWire failure evidence)
  end.

Definition SkillOutcome_try_from (value : SkillOutcomeWire) : result SkillOutcome string :=
  match value with
  | AppliedWire evidence => SkillOutcome_applied evidence
  | AdaptedWire tactic evidence => SkillOutcome_adapted tactic evidence
  | DegradedWire unsupported evidence => SkillOutcome_degraded unsupported evidence
  | StoppedWire evidence => SkillOutcome_stopped evidence
  | FailedWire failure evidence => SkillOutcome_failed failure evidence
  end.

(** ** Checkpoint proofs *)

Record SkillCheckpointProof := MkSkillCheckpointProof {
  cp_checkpoint_id : CheckpointId;
  cp_session_id : SessionId;
  cp_verified_at : Time;
  cp_attestation : SkillEvidenceRef;
}.
#[export] Instance SkillCheckpointProof_eq_dec : EqDecision SkillCheckpointProof.
Proof. solve_decision. Defined.

Record SkillCheckpointProofWire := MkSkillCheckpointProofWire {
  cpw_checkpoint_id : CheckpointId;
  cpw_session_id : SessionId;
  cpw_verified_at : Time;
  cpw_attestation : SkillEvidenceRef;
}.

Definition MAX_AGE_MINUTES : Z := 15.

Definition is_fresh_at (p : SkillCheckpointProof) (now : Time) : bool :=
  (p.(cp_verified_at) <=? now) && (now - p.(cp_verified_at) <=? minutes MAX_AGE_MINUTES).

Definition SkillCheckpointProof_validate (clock : Time) (p : SkillCheckpointProof)
    : result unit string :=
  SkillEvidenceRef_validate p.(cp_attestation) ;?
  refuse_if (negb (is_fresh_at p clock)) "checkpoint proof is stale or from the future".

Definition SkillCheckpointProof_new (clock : Time) (checkpoint_id : CheckpointId)
    (session_id : SessionId) (verified_at : Time) (attestation : SkillEvidenceRef)
    : result SkillCheckpointProof string :=
  let proof := MkSkillCheckpointProof checkpoint_id session_id verified_at attestation in
  SkillCheckpointProof_validate clock proof ;? Ok proof.

Definition SkillCheckpointProof_try_from (clock : Time) (value : SkillCheckpointProofWire)
    : result SkillCheckpointProof string :=
  SkillCheckpointProof_new clock value.(cpw_checkpoint_id) value.(cpw_session_id)
    value.(cpw_verified_at) value.(cpw_attestation).

Definition SkillCheckpointProof_serialize (clock : Time) (p : SkillCheckpointProof)
    : result SkillCheckpointProofWire string :=
  SkillCheckpointProof_validate clock p ;?
  let? w := SkillEvidenceRef_serialize p.(cp_attestation) in
  Ok (MkSkillCheckpointProofWire p.(cp_checkpoint_id) p.(cp_session_id)
        p.(cp_verified_at) p.(cp_attestation)).

(** ** Command identities and issued decisions *)

Record SkillCommandIdentity := MkSkillCommandIdentity {
  ci_command_id : CommandId;
  ci_workflow_id : WorkflowId;
  ci_attempt_id : AttemptId;
  ci_session_id : SessionId;
  ci_page_id : option PageId;
  ci_command_class : CommandClass;
  ci_command_sha256 : string;
}.
#[export] Instance SkillCommandIdentity_eq_dec : EqDecision SkillCommandIdentity.
Proof. solve_decision. Defined.

Definition SkillCommandIdentity_validate (i : SkillCommandIdentity) : result unit string :=
  refuse_if (negb (slen i.(ci_command_sha256) =? 64)
             || negb (str_forallb lower_hex i.(ci_command_sha256)))
    "skill command identity requires a lowercase SHA-256 digest".

Definition SkillCommandIdentity_new (command_id : CommandId) (workflow_id : WorkflowId)
    (attempt_id : AttemptId) (session_id : SessionId) (page_id : option PageId)
    (command_class : CommandClass) (command_sha256 : string)
    : result SkillCommandIdentity string :=
  let identity := MkSkillCommandIdentity command_id workflow_id attempt_id session_id page_id
                    command_class command_sha256 in
  SkillCommandIdentity_validate identity ;? Ok identity.

Record SkillIssuedDecision := MkSkillIssuedDecision {
  si_reservation_id : CommandId;
  si_session_id : SessionId;
  si_command_identity : option SkillCommandIdentity;
  si_decision : SkillDecision;
  si_checkpoint_proof : option SkillCheckpointProof;
  si_issued_at : Time;
  si_deadline : Time;
}.
#[export] Instance SkillIssuedDecision_eq_dec : EqDecision SkillIssuedDecision.
Proof. solve_decision. Defined.

Record SkillIssuedDecisionWire := MkSkillIssuedDecisionWire {
  siw_reservation_id : CommandId;
  siw_session_id : SessionId;
  siw_command_identity : option SkillCommandIdentity;
  siw_decision : SkillDecision;
  siw_checkpoint_proof : option SkillCheckpointProof;
  siw_issued_at : Time;
  siw_deadline : Time;
}.

Definition is_active_at (i : SkillIssuedDecision) (now : Time) : bool :=
  (i.(si_issued_at) <=? now) && (now <=? i.(si_deadline)).

Definition SkillIssuedDecision_validate (clock : Time) (i : SkillIssuedDecision)
    : result unit string :=
  SkillDecision_validate i.(si_decision) ;?
  match i.(si_command_identity) with
  | Some identity =>
      SkillCommandIdentity_validate identity ;?
      refuse_if (negb (bool_decide (identity.(ci_session_id) = i.(si_session_id))))
        "issued decision command identity belongs to another session"
  | None => Ok tt
  end ;?
  let? interval_ms := issued_interval_ms i.(si_issued_at) i.(si_deadline) in
  refuse_if (negb (i.(si_decision).(sd_remaining_deadline_ms) =? interval_ms))
    "issued decision remaining deadline does not match its issuance interval" ;?
  refuse_if (interval_ms <? i.(si_decision).(sd_tactic_budget_ms))
    "issued decision tactic budget exceeds its issuance interval" ;?
  match tactic_requires_checkpoint i.(si_decision).(sd_tactic), i.(si_checkpoint_proof) with
  | true, Some proof =>
      if bool_decide (proof.(cp_session_id) = i.(si_session_id))
         && bool_decide (i.(si_decision).(sd_checkpoint_id) = Some proof.(cp_checkpoint_id))
      then SkillCheckpointProof_validate clock proof
      else Err "recovery decision requires its verified checkpoint proof"
  | true, None => Err "recovery decision requires its verified checkpoint proof"
  | false, None =>
      if bool_decide (i.(si_decision).(sd_checkpoint_id) = None) then Ok tt
      else Err "non-recovery decision cannot carry checkpoint proof"
  | false, Some _ => Err "non-recovery decision cannot carry checkpoint proof"
  end.

Definition SkillIssuedDecision_new_inner (clock : Time) (reservation_id : CommandId)
    (session_id : SessionId) (command_identity : option SkillCommandIdentity)
    (decision : SkillDecision) (checkpoint_proof : option SkillCheckpointProof)
    (issued_at deadline : Time) : result SkillIssuedDecision string :=
  let issued := MkSkillIssuedDecision reservation_id session_id command_identity decision
                  checkpoint_proof issued_at deadline in
  SkillIssuedDecision_validate clock issued ;? Ok issued.

Definition SkillIssuedDecision_new (clock : Time) (reservation_id : CommandId)
    (session_id : SessionId) (decision : SkillDecision)
    (checkpoint_proof : option SkillCheckpointProof) (issued_at deadline : Time)
    : result SkillIssuedDecision string :=
  SkillIssuedDecision_new_inner clock reservation_id session_id None decision
    checkpoint_proof issued_at deadline.

Definition SkillIssuedDecision_new_for_command (clock : Time) (reservation_id : CommandId)
    (session_id : SessionId) (command_identity : SkillCommandIdentity)
    (decision : SkillDecision) (checkpoint_proof : option SkillCheckpointProof)
    (issued_at deadline : Time) : result SkillIssuedDecision string :=
  refuse_if (negb (bool_decide (command_identity.(ci_session_id) = session_id)))
    "issued decision command identity belongs to another session" ;?
  SkillIssuedDecision_new_inner clock reservation_id session_id (Some command_identity)
    decision checkpoint_proof issued_at deadline.

Definition SkillIssuedDecision_try_from (clock : Time) (value : SkillIssuedDecisionWire)
    : result SkillIssuedDecision string :=
  match value.(siw_command_identity) with
  | Some identity =>
      SkillIssuedDecision_new_for_command clock value.(siw_reservation_id)
        value.(siw_session_id) identity value.(siw_decision) value.(siw_checkpoint_proof)
        value.(siw_issued_at) value.(siw_deadline)
  | None =>
      SkillIssuedDecision_new clock value.(siw_reservation_id) value.(siw_session_id)
        value.(siw_decision) value.(siw_checkpoint_proof)
        value.(siw_issued_at) value.(siw_deadline)
  end.

(** Serializes an optional field with the serializer of its content. *)
Definition serialize_option {A W} (ser : A -> result W string) (o : option A)
    : result unit string :=
  match o with
  | None => Ok tt
  | Some a => let? w := ser a in Ok tt
  end.

Definition SkillIssuedDecision_serialize (clock : Time) (i : SkillIssuedDecision)
    : result SkillIssuedDecisionWire string :=
  SkillIssuedDecision_validate clock i ;?
  let? w := SkillDecision_serialize i.(si_decision) in
  serialize_option (SkillCheckpointProof_serialize clock) i.(si_checkpoint_proof) ;?
  Ok (MkSkillIssuedDecisionWire i.(si_reservation_id) i.(si_session_id)
        i.(si_command_identity) i.(si_decision) i.(si_checkpoint_proof)
        i.(si_issued_at) i.(si_deadline)).

(** ** Session state *)

Record SkillSessionState := MkSkillSessionState {
  ss_schema_version : Z;
  ss_session_id : SessionId;
  ss_active_versions : gmap string string;
  ss_effective_profile : option SkillProfile;
  ss_last_checkpoint_id : option CheckpointId;
  ss_verified_checkpoint : option SkillCheckpointProof;
  ss_reserved_tactic : option SkillTactic;
  ss_pending_issuance : option SkillIssuedDecision;
  ss_attempted_tactics : list SkillTactic;
  ss_evidence : list SkillEvidenceRef;
  ss_deadline : Time;
}.
#[export] Instance eta_SkillSessionState : Eta SkillSessionState := fun s =>
  MkSkillSessionState (ss_schema_version s) (ss_session_id s) (ss_active_versions s)
    (ss_effective_profile s) (ss_last_checkpoint_id s) (ss_verified_checkpoint s)
    (ss_reserved_tactic s) (ss_pending_issuance s) (ss_attempted_tactics s)
    (ss_evidence s) (ss_deadline s).
#[export] Instance SkillSessionState_eq_dec : EqDecision SkillSessionState.
Proof. solve_decision. Defined.

Record SkillSessionStateWire := MkSkillSessionStateWire {
  ssw_schema_version : Z;
  ssw_session_id : SessionId;
  ssw_active_versions : gmap string string;
  ssw_effective_profile : option SkillProfile;
  ssw_last_checkpoint_id : option CheckpointId;
  ssw_verified_checkpoint : option SkillCheckpointProof;
  ssw_reserved_tactic : option SkillTactic;
  ssw_pending_issuance : option SkillIssuedDecision;
  ssw_attempted_tactics : list SkillTactic;
  ssw_evidence : list SkillEvidenceRef;
  ssw_deadline : Time;
}.

(** [attempted.iter().filter(|t| t == tactic).count()]. *)
Definition attempts (tactic : SkillTactic) (l : list SkillTactic) : nat :=
  length (filter (fun t => t = tactic) l).

Definition validate_checkpoint_pair (clock : Time) (s : SkillSessionState)
    : result unit string :=
  match s.(ss_last_checkpoint_id), s.(ss_verified_checkpoint) with
  | None, None => Ok tt
  | Some checkpoint_id, Some proof =>
      if bool_decide (proof.(cp_checkpoint_id) = checkpoint_id)
         && bool_decide (proof.(cp_session_id) = s.(ss_session_id))
      then SkillCheckpointProof_validate clock proof
      else Err "verified proof does not match session checkpoint"
  | Some _, None => Err "checkpoint requires a verified proof"
  | None, Some _ => Err "verified proof requires a checkpoint"
  end.

Definition validate_reservation_pair (clock : Time) (s : SkillSessionState)
    : result unit string :=
  match s.(ss_reserved_tactic), s.(ss_pending_issuance) with
  | None, None => Ok tt
  | Some tactic, Some issued =>
      if bool_decide (issued.(si_session_id) = s.(ss_session_id))
         && bool_decide (issued.(si_decision).(sd_tactic) = tactic)
         && bool_decide (attempts tactic s.(ss_attempted_tactics) = 1%nat)
      then
        SkillIssuedDecision_validate clock issued ;?
        refuse_if (negb (bool_decide (issued.(si_deadline) = s.(ss_deadline))))
          "issued decision deadline does not match session deadline" ;?
        refuse_if (tactic_requires_checkpoint tactic
                   && negb (bool_decide (issued.(si_checkpoint_proof)
                                         = s.(ss_verified_checkpoint))))
          "issued decision proof does not match session proof"
      else Err "issued decision does not match its reservation"
  | Some _, None => Err "tactic reservation requires an issued decision"
  | None, Some _ => Err "issued decision requires a tactic reservation"
  end.

Definition SkillSessionState_validate (clock : Time) (s : SkillSessionState)
    : result unit string :=
  validate_schema_version s.(ss_schema_version) ;?
  validate_active_versions s.(ss_active_versions) ;?
  refuse_if (MAX_TACTICS <? Z.of_nat (length s.(ss_attempted_tactics)))
    "attempted tactics exceed 32 entries" ;?
  match s.(ss_effective_profile) with
  | Some profile => SkillProfile_validate profile
  | None => Ok tt
  end ;?
  validate_checkpoint_pair clock s ;?
  validate_reservation_pair clock s ;?
  validate_evidence s.(ss_evidence).

Definition SkillSessionState_new (clock : Time) (session_id : SessionId)
    (active_versions : gmap string string) (effective_profile : option SkillProfile)
    (last_checkpoint_id : option CheckpointId)
    (verified_checkpoint : option SkillCheckpointProof)
    (reserved_tactic : option SkillTactic) (pending_issuance : option SkillIssuedDecision)
    (attempted_tactics : list SkillTactic) (evidence : list SkillEvidenceRef)
    (deadline : Time) : result SkillSessionState string :=
  let state := MkSkillSessionState SKILL_SCHEMA_VERSION session_id active_versions
                 effective_profile last_checkpoint_id verified_checkpoint reserved_tactic
                 pending_issuance attempted_tactics evidence deadline in
  SkillSessionState_validate clock state ;? Ok state.

Definition SkillSessionState_try_from (clock : Time) (value : SkillSessionStateWire)
    : result SkillSessionState string :=
  let state := MkSkillSessionState value.(ssw_schema_version) value.(ssw_session_id)
                 value.(ssw_active_versions) value.(ssw_effective_profile)
                 value.(ssw_last_checkpoint_id) value.(ssw_verified_checkpoint)
                 value.(ssw_reserved_tactic) value.(ssw_pending_issuance)
                 value.(ssw_attempted_tactics) value.(ssw_evidence) value.(ssw_deadline) in
  SkillSessionState_validate clock state ;? Ok state.

Definition SkillSessionState_serialize (clock : Time) (s : SkillSessionState)
    : result SkillSessionStateWire string :=
  SkillSessionState_validate clock s ;?
  serialize_option SkillProfile_serialize s.(ss_effective_profile) ;?
  serialize_option (SkillCheckpointProof_serialize clock) s.(ss_verified_checkpoint) ;?
  serialize_option (SkillIssuedDecision_serialize clock) s.(ss_pending_issuance) ;?
  serialize_evidence s.(ss_evidence) ;?
  Ok (MkSkillSessionStateWire s.(ss_schema_version) s.(ss_session_id)
        s.(ss_active_versions) s.(ss_effective_profile) s.(ss_last_checkpoint_id)
        s.(ss_verified_checkpoint) s.(ss_reserved_tactic) s.(ss_pending_issuance)
        s.(ss_attempted_tactics) s.(ss_evidence) s.(ss_deadline)).

(** ** Serialization validates, and round trips *)

Lemma serialize_evidence_validated evidence :
  validate_evidence evidence = Ok tt -> serialize_evidence evidence = Ok tt.
Proof.
  unfold validate_evidence, serialize_evidence. rewrite rbind_unit_ok, !check_all_ok.
  intros [_ H]. eapply Forall_impl; [exact H|]. intros e He. simpl.
  unfold SkillEvidenceRef_serialize. by rewrite He.
Qed.

Lemma SkillCheckpointProof_serialize_validated clock p :
  SkillCheckpointProof_validate clock p = Ok tt ->
  exists w, SkillCheckpointProof_serialize clock p = Ok w.
Proof.
  intros H. unfold SkillCheckpointProof_serialize. rewrite H. simpl.
  unfold SkillCheckpointProof_validate in H. apply rbind_unit_ok in H as [He _].
  unfold SkillEvidenceRef_serialize. rewrite He. simpl. eauto.
Qed.

Lemma SkillIssuedDecision_serialize_validated clock i :
  SkillIssuedDecision_validate clock i = Ok tt ->
  exists w, SkillIssuedDecision_serialize clock i = Ok w.
Proof.
  intros H. unfold SkillIssuedDecision_serialize. rewrite H. cbn [rbind].
  unfold SkillIssuedDecision_validate in H.
  apply rbind_unit_ok in H as [Hd H]. unfold SkillDecision_serialize. rewrite Hd. cbn [rbind].
  apply rbind_unit_ok in H as [_ H]. apply rbind_ok in H as (ms & _ & H).
  apply rbind_unit_ok in H as [_ H]. apply rbind_unit_ok in H as [_ H].
  destruct (tactic_requires_checkpoint _), (si_checkpoint_proof i) as [p|];
    simpl; eauto; try discriminate.
  destruct (_ && _) eqn:Eg; [|discriminate].
  destruct (SkillCheckpointProof_serialize_validated _ _ H) as [w ->]. simpl. eauto.
Qed.

(** Everything the session state nests was validated with it. *)
Lemma SkillSessionState_serialize_validated clock s :
  SkillSessionState_validate clock s = Ok tt ->
  exists w, SkillSessionState_serialize clock s = Ok w.
Proof.
  intros H. unfold SkillSessionState_serialize. rewrite H. cbn [rbind].
  unfold SkillSessionState_validate in H.
  apply rbind_unit_ok in H as [_ H]. apply rbind_unit_ok in H as [_ H].
  apply rbind_unit_ok in H as [_ H]. apply rbind_unit_ok in H as [Hp H].
  apply rbind_unit_ok in H as [Hc H]. apply rbind_unit_ok in H as [Hr He].
  assert (serialize_option SkillProfile_serialize (ss_effective_profile s) = Ok tt) as ->.
  { destruct (ss_effective_profile s); [|done]. simpl. unfold SkillProfile_serialize.
    by rewrite Hp. }
  assert (serialize_option (SkillCheckpointProof_serialize clock)
            (ss_verified_checkpoint s) = Ok tt) as ->.
  { unfold validate_checkpoint_pair in Hc. destruct (ss_verified_checkpoint s) as [p|]; [|done].
    destruct (ss_last_checkpoint_id s); [|done]. destruct (_ && _); [|done].
    destruct (SkillCheckpointProof_serialize_validated _ _ Hc) as [w Hw]. simpl.
    by rewrite Hw. }
  assert (serialize_option (SkillIssuedDecision_serialize clock)
            (ss_pending_issuance s) = Ok tt) as ->.
  { unfold validate_reservation_pair in Hr. destruct (ss_pending_issuance s) as [i|]; [|done].
    destruct (ss_reserved_tactic s); [|done]. destruct (_ && _ && _); [|done].
    apply rbind_unit_ok in Hr as [Hr _].
    destruct (SkillIssuedDecision_serialize_validated _ _ Hr) as [w Hw]. simpl. by rewrite Hw. }
  rewrite serialize_evidence_validated by done. simpl. eauto.
Qed.

(** [serde_json::to_vec(&state)] fails exactly when the state does not validate. *)
Lemma SkillSessionState_serialize_ok_iff clock s :
  is_ok (SkillSessionState_serialize clock s) = true <->
  SkillSessionState_validate clock s = Ok tt.
Proof.
  rewrite is_ok_true. split.
  - intros [w H]. unfold SkillSessionState_serialize in H.
    by apply rbind_unit_ok in H as [H _].
  - apply SkillSessionState_serialize_validated.
Qed.

(** A skill session state is writable exactly when it validates, and what is
    written reads back as the same state at the same clock. *)
Theorem session_state_roundtrip clock s :
  (SkillSessionState_validate clock s = Ok tt <->
   exists w, SkillSessionState_serialize clock s = Ok w) /\
  (forall w, SkillSessionState_serialize clock s = Ok w ->
     SkillSessionState_try_from clock w = Ok s).
Proof.
  split.
  { rewrite <-SkillSessionState_serialize_ok_iff. apply is_ok_true. }
  intros w H. pose proof H as Hv. unfold SkillSessionState_serialize in H.
  repeat (apply rbind_unit_ok in H as [? H]). injection H as <-.
  unfold SkillSessionState_try_from. simpl. destruct s; simpl in *.
  match goal with H : SkillSessionState_validate _ _ = Ok tt |- _ => by rewrite H end.
Qed.
