(* ===== verification/Receipt.v ===== *)
(** * Recovery receipts

    The part of [crates/bobby-browser-client/src/recovery.rs] that the skill runtime
    settles reservations with: a receipt binds a command's identity, its recovery
    decision and its outcomes under a digest.

    The outcome of a command, its error and its evidence are those of [outcomes.rs]; an
    evidence whose fields no modelled code reads is kept as the JSON text of its fields.
    JSON encoding and SHA-256 are third-party code: [ReceiptCodec] stands for them. *)

From S2P Require Import Prelude Text SkillTypes.

Record PageEvidence := MkPageEvidence {
  pe_page_id : PageId;
  pe_url : string;
  pe_title : string;
}.

Inductive Evidence :=
| EvExecutionPath (fields : string) (final_url : option string) (redirect_chain : list string)
| EvNavigation (url title : string)
| EvInspection (selector : option string) (url title text : string) (html : option string)
| EvSubmitSettlement (fields : string)
| EvElement (selector : string) (text : option string)
| EvUpload (selector : string) (paths : list string)
| EvPage (page_id : PageId) (url title : string)
| EvPageGeneration (page_id : PageId) (generation : Z)
| EvPages (pages : list PageEvidence)
| EvPopup (opener_page_id page_id : PageId) (url title : string)
| EvPopupClosed (popup_page_id opener_page_id : PageId)
| EvDownload (filename path : string) (bytes : Z) (sha256 : string) (saved_to : option string)
| EvConfiguration (name value : string)
| EvResolution (fields : string)
| EvWait (fields : string)
| EvScreenshot (fields : string)
| EvBrowserExecution (fields : string)
| EvJavaScriptResult (fields : string)
| EvAccessibilitySnapshot (page_id : PageId) (nodes : list string) (truncated : bool)
| EvFormSnapshot (fields : string)
| EvFormValidation (fields : string)
| EvCodeEntry (fields : string)
| EvControlAction (fields : string)
| EvStructuredExtraction (fields : string)
| EvChallengeDetection (fields : string)
| EvOutcomeReading (fields : string)
| EvCookieState (fields : string)
| EvPdfArtifact (fields : string)
| EvDialog (fields : string)
| EvEmulation (fields : string)
| EvHarArtifact (fields : string)
| EvIntentExecution (record : string)
| EvHumanization (fields : string)
| EvExtraction (fields : string).

Inductive ErrorCode :=
| CodeInvalidRequest | CodeNotFound | CodeDeadlineExceeded | CodeBrowserLaunchFailed
| CodeBrowserCommandFailed | CodeVerificationFailed | CodeJournalFailed | CodeResourceExhausted
| CodePolicyDenied | CodeInternal | CodeTargetNotFound | CodeTargetAmbiguous | CodeFrameNotFound
| CodeShadowRootUnavailable | CodeTargetDetached | CodeTargetObscured | CodeTargetOutOfBounds
| CodeWaitConditionTimedOut | CodeScreenshotCaptureFailed | CodeNetworkPolicyDenied
| CodeHttpResponseTooLarge | CodeHttpTransferFailed | CodeHttpStateConflict
| CodeHttpEquivalenceUnproven | CodeIntentCompileFailed | CodeIntentActionMismatch
| CodeObstructionSuspected | CodeVisionAssistDenied | CodeVisionAssistFailed
| CodeExpectedStatePreSatisfied | CodeBoundaryAlreadyExecuted | CodeVerificationCodeRequired.

Inductive ErrorLayer :=
| LayerInterface | LayerBroker | LayerWorkflow | LayerPage | LayerDriver | LayerBrowser
| LayerNetwork | LayerSite | LayerJournal.

Record CommandError := MkCommandError {
  ce_code : ErrorCode;
  ce_message : string;
  ce_layer : ErrorLayer;
  ce_retryable : bool;
}.

Inductive CommandOutcome :=
| OutcomeCompleted (command_id : CommandId) (evidence : list Evidence)
| OutcomeRetryableFailure (command_id : CommandId) (error : CommandError)
| OutcomeNeedsReconciliation (command_id : CommandId) (error : CommandError)
    (evidence : list Evidence)
| OutcomePolicyDenied (command_id : CommandId) (error : CommandError)
| OutcomeResourceExhausted (command_id : CommandId) (error : CommandError)
    (retry_after_ms : Z)
| OutcomeRestarted (command_id : CommandId) (prior_attempt_id attempt_id : AttemptId)
    (reason : string) (evidence : list Evidence)
| OutcomeFailed (command_id : CommandId) (error : CommandError) (evidence : list Evidence).

Definition command_outcome_id (outcome : CommandOutcome) : CommandId :=
  match outcome with
  | OutcomeCompleted command_id _
  | OutcomeRetryableFailure command_id _
  | OutcomeNeedsReconciliation command_id _ _
  | OutcomePolicyDenied command_id _
  | OutcomeResourceExhausted command_id _ _
  | OutcomeRestarted command_id _ _ _ _
  | OutcomeFailed command_id _ _ => command_id
  end.

Definition MAX_RECOVERY_RECEIPT_EVIDENCE : Z := 32.
Definition MAX_RECOVERY_RECEIPT_BYTES : Z := 256 * 1024.

Record RecoveryCommandIdentity := MkRecoveryCommandIdentity {
  rci_command_id : CommandId;
  rci_workflow_id : WorkflowId;
  rci_attempt_id : AttemptId;
  rci_session_id : SessionId;
  rci_page_id : option PageId;
  rci_command_class : CommandClass;
  rci_command_sha256 : string;
}.

Inductive RecoveryReceiptState := PendingJournal | Committed | Unresolved.
#[export] Instance RecoveryReceiptState_eq_dec : EqDecision RecoveryReceiptState.
Proof. solve_decision. Defined.

Record RecoveryReceipt := MkRecoveryReceipt {
  rr_idempotency_key : CommandId;
  rr_identity : RecoveryCommandIdentity;
  rr_state : RecoveryReceiptState;
  rr_reservation_id : CommandId;
  rr_decision : SkillDecision;
  rr_command_outcome : CommandOutcome;
  rr_skill_outcome : SkillOutcome;
  rr_tactic_evidence : list Evidence;
  rr_outcome_sha256 : string;
  rr_recorded_at : Time;
}.

(** What the receipts use of [serde_json] and [sha2]: the hex digest of the JSON of
    the outcome triple, and the length of the JSON of the receipt. *)
Class ReceiptCodec := {
  outcome_json_sha256 : CommandOutcome -> SkillOutcome -> list Evidence -> result string string;
  receipt_json_len : RecoveryReceipt -> result Z string;
}.

Definition validate_sha256 (value name : string) : result unit string :=
  refuse_if (negb (slen value =? 64) || negb (str_forallb lower_hex value))
    (name +:+ " requires a lowercase SHA-256 digest").

Definition RecoveryCommandIdentity_validate (i : RecoveryCommandIdentity) : result unit string :=
  validate_sha256 i.(rci_command_sha256) "recovery command identity".

Definition RecoveryCommandIdentity_new (command_id : CommandId) (workflow_id : WorkflowId)
    (attempt_id : AttemptId) (session_id : SessionId) (page_id : option PageId)
    (command_class : CommandClass) (command_sha256 : string)
    : result RecoveryCommandIdentity string :=
  let identity := MkRecoveryCommandIdentity command_id workflow_id attempt_id session_id
                    page_id command_class command_sha256 in
  RecoveryCommandIdentity_validate identity ;? Ok identity.

Section WithCodec.
Context `{ReceiptCodec}.

Definition outcome_digest (command_outcome : CommandOutcome) (skill_outcome : SkillOutcome)
    (tactic_evidence : list Evidence) : result string string :=
  let? w := SkillOutcome_serialize skill_outcome in
  outcome_json_sha256 command_outcome skill_outcome tactic_evidence.

Definition RecoveryReceipt_validate (r : RecoveryReceipt) : result unit string :=
  RecoveryCommandIdentity_validate r.(rr_identity) ;?
  refuse_if (MAX_RECOVERY_RECEIPT_EVIDENCE <? Z.of_nat (length r.(rr_tactic_evidence)))
    "recovery receipt tactic evidence exceeds its bound" ;?
  refuse_if (negb (bool_decide (r.(rr_idempotency_key) = r.(rr_identity).(rci_command_id)))
             || negb (bool_decide (command_outcome_id r.(rr_command_outcome)
                                   = r.(rr_identity).(rci_command_id))))
    "recovery receipt command identity does not match its outcome" ;?
  validate_sha256 r.(rr_outcome_sha256) "recovery receipt outcome" ;?
  let? actual := outcome_digest r.(rr_command_outcome) r.(rr_skill_outcome)
                   r.(rr_tactic_evidence) in
  refuse_if (negb (String.eqb actual r.(rr_outcome_sha256)))
    "recovery receipt outcome digest changed" ;?
  let? w := SkillDecision_serialize r.(rr_decision) in
  let? bytes := receipt_json_len r in
  refuse_if (MAX_RECOVERY_RECEIPT_BYTES <? bytes) "recovery receipt exceeds its byte bound".

Definition RecoveryReceipt_new (idempotency_key : CommandId)
    (identity : RecoveryCommandIdentity) (state : RecoveryReceiptState)
    (reservation_id : CommandId) (decision : SkillDecision)
    (command_outcome : CommandOutcome) (skill_outcome : SkillOutcome)
    (tactic_evidence : list Evidence) (recorded_at : Time)
    : result RecoveryReceipt string :=
  let? outcome_sha256 := outcome_digest command_outcome skill_outcome tactic_evidence in
  let receipt := MkRecoveryReceipt idempotency_key identity state reservation_id decision
                   command_outcome skill_outcome tactic_evidence outcome_sha256 recorded_at in
  RecoveryReceipt_validate receipt ;? Ok receipt.

(** A receipt that validates carries outcomes whose digest it names, and both of its
    outcomes belong to the command of its identity. *)
Lemma RecoveryReceipt_validate_facts r :
  RecoveryReceipt_validate r = Ok tt ->
  outcome_digest r.(rr_command_outcome) r.(rr_skill_outcome) r.(rr_tactic_evidence)
    = Ok r.(rr_outcome_sha256)
  /\ command_outcome_id r.(rr_command_outcome) = r.(rr_identity).(rci_command_id)
  /\ SkillDecision_validate r.(rr_decision) = Ok tt
  /\ SkillOutcome_validate r.(rr_skill_outcome) = Ok tt.
Proof.
  unfold RecoveryReceipt_validate. intros Hv.
  do 2 apply rbind_unit_ok in Hv as [_ Hv]. apply rbind_unit_ok in Hv as [Hid Hv].
  apply rbind_unit_ok in Hv as [_ Hv]. apply rbind_ok in Hv as (actual & Hd & Hv).
  apply rbind_unit_ok in Hv as [He Hv]. apply rbind_ok in Hv as (w & Hw & _).
  apply refuse_if_ok, orb_false_iff in Hid as [_ Hid].
  apply refuse_if_ok, negb_false_iff, String.eqb_eq in He as ->.
  apply negb_false_iff, bool_decide_eq_true in Hid.
  unfold SkillDecision_serialize in Hw. apply rbind_unit_ok in Hw as [Hw _].
  unfold outcome_digest in Hd. pose proof Hd as Hd'.
  apply rbind_ok in Hd as (w' & Hs & _). unfold SkillOutcome_serialize in Hs.
  apply rbind_unit_ok in Hs as [Hs _]. done.
Qed.

End WithCodec.
