(* ===== verification/ZigZag.v ===== *)
(** * The ZigZagZig recovery ladder

    [crates/skill-runtime/src/zigzagzig.rs]: the deterministic selector of recovery
    tactics for one workflow session.  Issuing a decision reserves its tactic in the
    session state; recording an outcome, or settling a committed receipt, releases the
    reservation.

    The source mutates [&mut self] and assigns [self.state] last: an operation returns
    the next strategy, and an error leaves the strategy as it was.  [clock] is the
    reading of [Utc::now()] the validation uses; [now] is the argument of the source;
    [reservation_id] is the freshly generated [CommandId::new()]. *)

From S2P Require Import Prelude Text SkillTypes Receipt.

Definition LADDER : list SkillTactic :=
  [ObserveAgain; ResolveSemanticTarget; ChangeInteractionMethod; SolveChallenge;
   ReconcileCheckpoint; FreshGhostSession; SelectCompatibleEngine; RestartDurableBoundary].

Record SkillTrigger := MkSkillTrigger {
  st_failure : SkillFailure;
  st_expected_postcondition : string;
}.

Definition SkillTrigger_new (failure : SkillFailure) (expected_postcondition : string)
    : result SkillTrigger SkillFailure :=
  let? d := map_err (fun _ => ConfigurationConflict)
              (SkillDecision_new ObserveAgain failure expected_postcondition 1 1 None None) in
  Ok (MkSkillTrigger failure expected_postcondition).

Record SkillZigZagZig := MkSkillZigZagZig {
  zz_state : SkillSessionState;
  zz_per_tactic_budget_ms : Z;
  zz_compatible_engines : list SkillBrowserEngine;
  zz_stopped : bool;
}.
#[export] Instance eta_SkillZigZagZig : Eta SkillZigZagZig := fun z =>
  MkSkillZigZagZig (zz_state z) (zz_per_tactic_budget_ms z) (zz_compatible_engines z)
    (zz_stopped z).

Definition engine_rank (engine : SkillBrowserEngine) : nat :=
  match engine with Firefox => 0 | Chromium => 1 | WebKit => 2 end.

Definition engine_le (a b : SkillBrowserEngine) : Prop := (engine_rank a <= engine_rank b)%nat.
#[export] Instance engine_le_dec a b : Decision (engine_le a b) :=
  decide (engine_rank a <= engine_rank b)%nat.

(** [Vec::dedup]: drops an element equal to the one kept before it. *)
Fixpoint dedup {A} `{EqDecision A} (l : list A) : list A :=
  match l with
  | [] => []
  | x :: l' =>
      match dedup l' with
      | [] => [x]
      | y :: k => if bool_decide (x = y) then y :: k else x :: y :: k
      end
  end.

Definition SkillZigZagZig_new (clock : Time) (state : SkillSessionState)
    (per_tactic_budget_ms : Z) (compatible_engines : list SkillBrowserEngine)
    : result SkillZigZagZig SkillFailure :=
  let? w := map_err (fun _ => ConfigurationConflict) (SkillSessionState_serialize clock state) in
  refuse_if match state.(ss_pending_issuance) with
            | Some issued => negb (is_active_at issued clock)
            | None => false
            end DeadlineExceeded ;?
  Ok (MkSkillZigZagZig state per_tactic_budget_ms
        (dedup (merge_sort engine_le compatible_engines)) false).

Definition stop (z : SkillZigZagZig) : SkillZigZagZig := z <| zz_stopped := true |>.

Definition requires_checkpoint (tactic : SkillTactic) : bool :=
  match tactic with
  | ReconcileCheckpoint | FreshGhostSession | SelectCompatibleEngine
  | RestartDurableBoundary => true
  | _ => false
  end.

Definition remaining_deadline_ms (deadline now : Time) : result Z SkillFailure :=
  let remaining := num_milliseconds (deadline - now) in
  refuse_if (remaining <=? 0) DeadlineExceeded ;? Ok remaining.

Definition verified_checkpoint (z : SkillZigZagZig) (now : Time) : option SkillCheckpointProof :=
  match z.(zz_state).(ss_verified_checkpoint) with
  | None => None
  | Some proof =>
      if bool_decide (z.(zz_state).(ss_last_checkpoint_id) = Some proof.(cp_checkpoint_id))
         && bool_decide (proof.(cp_session_id) = z.(zz_state).(ss_session_id))
         && is_fresh_at proof now
      then Some proof else None
  end.

Definition select_compatible_engine (z : SkillZigZagZig) : option SkillBrowserEngine :=
  match z.(zz_state).(ss_effective_profile) with
  | None => None
  | Some profile => List.find (fun e => negb (bool_decide (e = profile.(sp_engine))))
                      z.(zz_compatible_engines)
  end.

Definition eligible (z : SkillZigZagZig) (tactic : SkillTactic) (now : Time) : bool :=
  negb (bool_decide (tactic ∈ z.(zz_state).(ss_attempted_tactics)))
  && (negb (requires_checkpoint tactic) || bool_decide (is_Some (verified_checkpoint z now)))
  && (negb (bool_decide (tactic = SelectCompatibleEngine))
      || bool_decide (is_Some (select_compatible_engine z))).

Definition next_tactic (z : SkillZigZagZig) (failure : SkillFailure) (now : Time)
    : option SkillTactic :=
  if bool_decide (failure = EffectUncertain) then
    if eligible z ReconcileCheckpoint now then Some ReconcileCheckpoint else None
  else List.find (fun tactic => eligible z tactic now) LADDER.

Definition terminal_failure (trigger : SkillFailure) : SkillFailure :=
  if bool_decide (trigger = EffectUncertain) then EffectUncertain else StrategyExhausted.

Definition next_decision_inner (clock : Time) (reservation_id : CommandId)
    (z : SkillZigZagZig) (trigger : SkillTrigger)
    (command_identity : option SkillCommandIdentity) (now : Time)
    : result (SkillDecision * SkillZigZagZig) SkillFailure :=
  let state := z.(zz_state) in
  let? remaining := remaining_deadline_ms state.(ss_deadline) now in
  refuse_if (z.(zz_stopped) || bool_decide (is_Some state.(ss_pending_issuance))
             || (z.(zz_per_tactic_budget_ms) =? 0)) StrategyExhausted ;?
  let? tactic := ok_or (next_tactic z trigger.(st_failure) now)
                   (terminal_failure trigger.(st_failure)) in
  let checkpoint_proof := if requires_checkpoint tactic then verified_checkpoint z now
                          else None in
  let selected_engine := if bool_decide (tactic = SelectCompatibleEngine)
                         then select_compatible_engine z else None in
  let? decision := map_err (fun _ => ConfigurationConflict)
    (SkillDecision_new tactic trigger.(st_failure) trigger.(st_expected_postcondition)
       remaining (Z.min z.(zz_per_tactic_budget_ms) remaining)
       (cp_checkpoint_id <$> checkpoint_proof) selected_engine) in
  let? issued := map_err (fun _ => ConfigurationConflict)
    match command_identity with
    | Some identity =>
        SkillIssuedDecision_new_for_command clock reservation_id state.(ss_session_id)
          identity decision checkpoint_proof now state.(ss_deadline)
    | None =>
        SkillIssuedDecision_new clock reservation_id state.(ss_session_id)
          decision checkpoint_proof now state.(ss_deadline)
    end in
  let next := state <| ss_attempted_tactics := state.(ss_attempted_tactics) ++ [tactic] |>
                    <| ss_reserved_tactic := Some tactic |>
                    <| ss_pending_issuance := Some issued |> in
  let? w := map_err (fun _ => ConfigurationConflict) (SkillSessionState_serialize clock next) in
  Ok (decision, z <| zz_state := next |>).

Definition next_decision (clock : Time) (reservation_id : CommandId) (z : SkillZigZagZig)
    (trigger : SkillTrigger) (now : Time) :=
  next_decision_inner clock reservation_id z trigger None now.

Definition next_decision_for_command (clock : Time) (reservation_id : CommandId)
    (z : SkillZigZagZig) (trigger : SkillTrigger) (command_identity : SkillCommandIdentity)
    (now : Time) :=
  next_decision_inner clock reservation_id z trigger (Some command_identity) now.

(** ** Outcomes *)

Definition outcome_tactic (outcome : SkillOutcome) : option SkillTactic :=
  match outcome with Adapted tactic _ => Some tactic | _ => None end.

Definition outcome_failure (outcome : SkillOutcome) : option SkillFailure :=
  match outcome with Failed failure _ => Some failure | _ => None end.

Definition outcome_evidence (outcome : SkillOutcome) : list SkillEvidenceRef :=
  match outcome with
  | Applied evidence | Adapted _ evidence | Degraded _ evidence | Stopped evidence
  | Failed _ evidence => evidence
  end.

(** [artifact_id] then [sha256], byte-wise. *)
Definition evidence_leb (a b : SkillEvidenceRef) : bool :=
  match String.compare a.(er_artifact_id) b.(er_artifact_id) with
  | Lt => true
  | Eq => String.leb a.(er_sha256) b.(er_sha256)
  | Gt => false
  end.
Definition evidence_le (a b : SkillEvidenceRef) : Prop := evidence_leb a b = true.
#[export] Instance evidence_le_dec a b : Decision (evidence_le a b) :=
  decide (evidence_leb a b = true).

Definition proof_is_unchanged (z : SkillZigZagZig) (issued : SkillIssuedDecision) (now : Time)
    : bool :=
  match issued.(si_checkpoint_proof) with
  | None => true
  | Some proof => bool_decide (verified_checkpoint z now = Some proof)
  end.

(** Releases the reservation and files the outcome's evidence in order. *)
Definition release (state : SkillSessionState) (evidence : list SkillEvidenceRef)
    : SkillSessionState :=
  state <| ss_reserved_tactic := None |> <| ss_pending_issuance := None |>
        <| ss_evidence := merge_sort evidence_le (state.(ss_evidence) ++ evidence) |>.

(** [outcome_tactic(outcome).is_some_and(|tactic| tactic != decision.tactic)]. *)
Definition outcome_tactic_differs (outcome : SkillOutcome) (tactic : SkillTactic) : bool :=
  match outcome_tactic outcome with
  | Some t => negb (bool_decide (t = tactic))
  | None => false
  end.

Definition record_outcome_inner (clock : Time) (z : SkillZigZagZig) (decision : SkillDecision)
    (outcome : SkillOutcome) (now : Time) : result SkillZigZagZig SkillFailure :=
  let? issued := ok_or z.(zz_state).(ss_pending_issuance) ConfigurationConflict in
  refuse_if ((now <? issued.(si_issued_at))
             || negb (is_ok (SkillDecision_serialize decision))
             || negb (bool_decide (decision = issued.(si_decision)))
             || negb (proof_is_unchanged z issued now)
             || outcome_tactic_differs outcome decision.(sd_tactic)) ConfigurationConflict ;?
  let next := release z.(zz_state) (outcome_evidence outcome) in
  let? w := map_err (fun _ => ConfigurationConflict) (SkillSessionState_serialize clock next) in
  Ok (z <| zz_state := next |>).

Definition record_outcome (clock : Time) (z : SkillZigZagZig) (decision : SkillDecision)
    (outcome : SkillOutcome) (now : Time) : result SkillZigZagZig SkillFailure :=
  refuse_if (z.(zz_state).(ss_deadline) <? now) DeadlineExceeded ;?
  record_outcome_inner clock z decision outcome now.

Definition record_terminal_outcome (clock : Time) (z : SkillZigZagZig)
    (decision : SkillDecision) (outcome : SkillOutcome) (now finalization_deadline : Time)
    : result SkillZigZagZig SkillFailure :=
  refuse_if ((now <=? z.(zz_state).(ss_deadline)) || (finalization_deadline <? now)
             || negb match outcome_failure outcome with
                     | Some DeadlineExceeded | Some EffectUncertain => true
                     | _ => false
                     end) ConfigurationConflict ;?
  record_outcome_inner clock z decision outcome now.

(** ** Settling committed receipts *)

Definition identity_matches (c : SkillCommandIdentity) (r : RecoveryCommandIdentity) : bool :=
  bool_decide (c.(ci_command_id) = r.(rci_command_id))
  && bool_decide (c.(ci_workflow_id) = r.(rci_workflow_id))
  && bool_decide (c.(ci_attempt_id) = r.(rci_attempt_id))
  && bool_decide (c.(ci_session_id) = r.(rci_session_id))
  && bool_decide (c.(ci_page_id) = r.(rci_page_id))
  && bool_decide (c.(ci_command_class) = r.(rci_command_class))
  && bool_decide (c.(ci_command_sha256) = r.(rci_command_sha256)).

Definition settle_committed_receipt_state `{ReceiptCodec} (state : SkillSessionState)
    (receipt : RecoveryReceipt) : result SkillSessionState SkillFailure :=
  map_err (fun _ => ConfigurationConflict) (RecoveryReceipt_validate receipt) ;?
  refuse_if (negb (bool_decide (receipt.(rr_state) = Committed))) ConfigurationConflict ;?
  match state.(ss_pending_issuance) with
  | None => Ok state
  | Some issued =>
      let? command_identity := ok_or issued.(si_command_identity) ConfigurationConflict in
      refuse_if (negb (identity_matches command_identity receipt.(rr_identity))
                 || negb (bool_decide (issued.(si_reservation_id) = receipt.(rr_reservation_id)))
                 || negb (bool_decide (issued.(si_decision) = receipt.(rr_decision)))
                 || outcome_tactic_differs receipt.(rr_skill_outcome)
                      receipt.(rr_decision).(sd_tactic)) ConfigurationConflict ;?
      Ok (release state (outcome_evidence receipt.(rr_skill_outcome)))
  end.

Definition settle_committed_receipt `{ReceiptCodec} (z : SkillZigZagZig)
    (receipt : RecoveryReceipt) : result SkillZigZagZig SkillFailure :=
  let? state := settle_committed_receipt_state z.(zz_state) receipt in
  Ok (z <| zz_state := state |>).

(** ** The ladder issues each tactic once *)

Lemma requires_checkpoint_same tactic :
  requires_checkpoint tactic = tactic_requires_checkpoint tactic.
Proof. by destruct tactic. Qed.

Lemma in_ladder (tactic : SkillTactic) : tactic ∈ LADDER.
Proof. apply list_elem_of_In. destruct tactic; simpl; tauto. Qed.

Lemma next_tactic_eligible z failure now tactic :
  next_tactic z failure now = Some tactic -> eligible z tactic now = true.
Proof.
  unfold next_tactic. case_bool_decide.
  - destruct (eligible z ReconcileCheckpoint now) eqn:E; naive_solver.
  - intros (? & ? & _ & He & _)%find_first. done.
Qed.

Lemma eligible_spec z tactic now :
  eligible z tactic now = true <->
  (tactic ∉ z.(zz_state).(ss_attempted_tactics))
  /\ (requires_checkpoint tactic = true -> is_Some (verified_checkpoint z now))
  /\ (tactic = SelectCompatibleEngine -> is_Some (select_compatible_engine z)).
Proof.
  unfold eligible. rewrite !andb_true_iff, !orb_true_iff, !negb_true_iff, !bool_decide_eq_true,
    !bool_decide_eq_false.
  split.
  - intros ((? & H1) & H2). split_and!; [done|intros; destruct H1; congruence|naive_solver].
  - intros (? & H1 & H2). destruct (requires_checkpoint tactic); split_and!; auto;
      destruct (decide (tactic = SelectCompatibleEngine)); auto.
Qed.

(** What an issued decision did to the strategy. *)
Lemma next_decision_inner_ok clock rid z trigger identity now d z' :
  next_decision_inner clock rid z trigger identity now = Ok (d, z') ->
  let s := z.(zz_state) in
  exists remaining issued,
    remaining_deadline_ms s.(ss_deadline) now = Ok remaining
    /\ z.(zz_stopped) = false /\ s.(ss_pending_issuance) = None
    /\ z.(zz_per_tactic_budget_ms) <> 0
    /\ next_tactic z trigger.(st_failure) now = Some d.(sd_tactic)
    /\ d = MkSkillDecision d.(sd_tactic) trigger.(st_failure)
             trigger.(st_expected_postcondition) remaining
             (Z.min z.(zz_per_tactic_budget_ms) remaining)
             (cp_checkpoint_id <$>
                (if requires_checkpoint d.(sd_tactic) then verified_checkpoint z now else None))
             (if bool_decide (d.(sd_tactic) = SelectCompatibleEngine)
              then select_compatible_engine z else None)
    /\ issued = MkSkillIssuedDecision rid s.(ss_session_id) identity d
                  (if requires_checkpoint d.(sd_tactic) then verified_checkpoint z now else None)
                  now s.(ss_deadline)
    /\ SkillDecision_validate d = Ok tt
    /\ z' = z <| zz_state :=
              s <| ss_attempted_tactics := s.(ss_attempted_tactics) ++ [d.(sd_tactic)] |>
                <| ss_reserved_tactic := Some d.(sd_tactic) |>
                <| ss_pending_issuance := Some issued |> |>
    /\ SkillSessionState_validate clock z'.(zz_state) = Ok tt.
Proof.
  unfold next_decision_inner. intros H. simpl.
  apply rbind_ok in H as (remaining & Hr & H).
  apply rbind_unit_ok in H as [Hg H]. apply refuse_if_ok in Hg.
  rewrite !orb_false_iff, bool_decide_eq_false, Z.eqb_neq in Hg. destruct Hg as [[Hs Hp] Hb].
  apply rbind_ok in H as (tactic & Ht & H). apply ok_or_ok in Ht.
  apply rbind_ok in H as (decision & Hd & H). apply map_err_ok in Hd.
  unfold SkillDecision_new in Hd. apply rbind_unit_ok in Hd as [Hv Hd]. injection Hd as Hd.
  apply rbind_ok in H as (issued & Hi & H). apply map_err_ok in Hi.
  apply rbind_ok in H as (w & Hw & H). apply map_err_ok in Hw. injection H as <- <-.
  assert (Hv' : SkillSessionState_validate clock
    (z.(zz_state) <| ss_attempted_tactics := z.(zz_state).(ss_attempted_tactics) ++ [tactic] |>
                <| ss_reserved_tactic := Some tactic |>
                <| ss_pending_issuance := Some issued |>) = Ok tt).
  { apply SkillSessionState_serialize_ok_iff, is_ok_true. eauto. }
  assert (Hissued : issued = MkSkillIssuedDecision rid z.(zz_state).(ss_session_id) identity
    decision (if requires_checkpoint tactic then verified_checkpoint z now else None) now
    z.(zz_state).(ss_deadline)).
  { destruct identity; [unfold SkillIssuedDecision_new_for_command in Hi;
      apply rbind_unit_ok in Hi as [_ Hi]|unfold SkillIssuedDecision_new in Hi];
    unfold SkillIssuedDecision_new_inner in Hi; apply rbind_unit_ok in Hi as [_ Hi];
    by injection Hi as <-. }
  subst decision. simpl in *.
  exists remaining, issued. split_and!; auto.
  destruct (ss_pending_issuance (zz_state z)); [|done]. exfalso. eauto.
Qed.

(** Issuing a recovery decision is sound.  The tactic was never attempted before
    and is recorded as attempted now; the decision is the session's only outstanding
    reservation; its budget lies within the remaining deadline; a tactic that acts on a
    checkpoint carries the session's checkpoint proof, fresh at [now]; an uncertain
    effect is only ever answered by reconciliation; and the resulting state validates. *)
Theorem next_decision_sound clock rid z trigger identity now d z' :
  next_decision_inner clock rid z trigger identity now = Ok (d, z') ->
  let s := z.(zz_state) in let s' := z'.(zz_state) in
  (d.(sd_tactic) ∉ s.(ss_attempted_tactics))
  /\ s'.(ss_attempted_tactics) = s.(ss_attempted_tactics) ++ [d.(sd_tactic)]
  /\ s.(ss_pending_issuance) = None
  /\ (exists issued, s'.(ss_pending_issuance) = Some issued
        /\ issued.(si_decision) = d /\ issued.(si_command_identity) = identity
        /\ (requires_checkpoint d.(sd_tactic) = true ->
            exists proof, issued.(si_checkpoint_proof) = Some proof
              /\ s.(ss_verified_checkpoint) = Some proof /\ is_fresh_at proof now = true))
  /\ 0 < d.(sd_remaining_deadline_ms)
  /\ d.(sd_tactic_budget_ms) <= d.(sd_remaining_deadline_ms)
  /\ (trigger.(st_failure) = EffectUncertain -> d.(sd_tactic) = ReconcileCheckpoint)
  /\ SkillSessionState_validate clock s' = Ok tt.
Proof.
  intros H. apply next_decision_inner_ok in H. simpl in H.
  destruct H as (remaining & issued & Hr & Hs & Hp & Hb & Ht & Hd & Hi & Hvd & Hz & Hv).
  pose proof (next_tactic_eligible _ _ _ _ Ht) as He. apply eligible_spec in He as (Hn & Hc & _).
  unfold remaining_deadline_ms in Hr. apply rbind_unit_ok in Hr as [Hr Hr']. injection Hr' as Hr'.
  apply refuse_if_ok in Hr. subst z'. simpl in *. split_and!; auto.
  - exists issued. subst issued; simpl. split_and!; auto. intros Hq. rewrite Hq in *.
    destruct (Hc eq_refl) as [proof Hproof]. exists proof. split; [done|].
    unfold verified_checkpoint in Hproof. destruct (ss_verified_checkpoint _) as [p|]; [|done].
    destruct (_ && _) eqn:Eg; [|done]. injection Hproof as ->.
    apply andb_true_iff in Eg as [_ Eg]. done.
  - rewrite Hd. simpl. lia.
  - rewrite Hd. simpl. lia.
  - intros Hf. unfold next_tactic in Ht. rewrite Hf in Ht.
    rewrite bool_decide_eq_true_2 in Ht by done. destruct (eligible _ _ _); [|done].
    by injection Ht as <-.
Qed.

Definition demo_state : SkillSessionState :=
  MkSkillSessionState 1 7%N ∅ None None None None None [] [] 5000000000.
Definition demo_strategy : SkillZigZagZig := MkSkillZigZagZig demo_state 800 [Firefox] false.
Definition demo_trigger : SkillTrigger := MkSkillTrigger TargetDrift "Saved".

Lemma next_decision_sound_witness :
  exists d z',
    next_decision_inner 1000000000 99%N demo_strategy demo_trigger None 1000000000 = Ok (d, z')
    /\ d.(sd_tactic) = ObserveAgain /\ d.(sd_tactic_budget_ms) <= d.(sd_remaining_deadline_ms).
Proof.
  eexists _, _. split; [vm_compute; reflexivity|]. split; [reflexivity|].
  refine (proj1 (proj2 (proj2 (proj2 (proj2 (proj2
    (next_decision_sound 1000000000 99%N demo_strategy demo_trigger None 1000000000 _ _ _))))))).
  vm_compute; reflexivity.
Defined.

(** Outside an uncertain effect the ladder climbs in order: the tactic of the
    decision is the first rung of [LADDER] that is eligible, and when the ladder reports
    exhaustion every rung was ineligible. *)
Theorem ladder_climbs_in_order z failure now :
  failure <> EffectUncertain ->
  match next_tactic z failure now with
  | Some tactic => exists below above,
      LADDER = below ++ tactic :: above /\ eligible z tactic now = true
      /\ Forall (fun t => eligible z t now = false) below
  | None => forall tactic, eligible z tactic now = false
  end.
Proof.
  intros Hf. unfold next_tactic. rewrite bool_decide_eq_false_2 by done.
  destruct (List.find _ LADDER) as [t|] eqn:E; [by apply find_first in E|].
  intros tactic. apply find_none_iff in E. rewrite Forall_forall in E.
  apply (E tactic), in_ladder.
Qed.

Lemma ladder_climbs_in_order_witness :
  next_tactic (demo_strategy <| zz_state :=
    demo_state <| ss_attempted_tactics := [ObserveAgain] |> |>) TargetDrift 0
    = Some ResolveSemanticTarget /\
  exists below above, LADDER = below ++ ResolveSemanticTarget :: above.
Proof.
  split; [vm_compute; reflexivity|].
  pose proof (ladder_climbs_in_order (demo_strategy <| zz_state :=
    demo_state <| ss_attempted_tactics := [ObserveAgain] |> |>) TargetDrift 0
    ltac:(discriminate)) as (b & a & H & _).
  exists b, a. exact H.
Defined.

(** *** Completeness *)

Lemma postcondition_decision_valid tactic failure post rem budget cid eng :
  validate_postcondition post = Ok tt -> budget <= rem ->
  (tactic = SelectCompatibleEngine <-> is_Some eng) ->
  SkillDecision_validate (MkSkillDecision tactic failure post rem budget cid eng) = Ok tt.
Proof.
  intros Hp Hb He. unfold SkillDecision_validate. simpl. rewrite Hp. simpl.
  assert ((rem <? budget) = false) as -> by lia. simpl.
  destruct tactic, eng; try done; exfalso; destruct He as [H1 H2];
    first [by specialize (H1 eq_refl) as [??] | by specialize (H2 ltac:(eauto))].
Qed.

Lemma verified_checkpoint_facts z now proof :
  verified_checkpoint z now = Some proof ->
  z.(zz_state).(ss_verified_checkpoint) = Some proof
  /\ z.(zz_state).(ss_last_checkpoint_id) = Some proof.(cp_checkpoint_id)
  /\ proof.(cp_session_id) = z.(zz_state).(ss_session_id) /\ is_fresh_at proof now = true.
Proof.
  unfold verified_checkpoint. destruct (ss_verified_checkpoint _) as [p|]; [|done].
  destruct (_ && _) eqn:Eg; [|done]. intros [= ->].
  rewrite !andb_true_iff, !bool_decide_eq_true in Eg. naive_solver.
Qed.

Lemma attempts_fresh tactic l :
  tactic ∉ l -> attempts tactic (l ++ [tactic]) = 1%nat.
Proof.
  intros Hn. unfold attempts. induction l as [|x l IH]; simpl.
  - by rewrite filter_cons_True.
  - apply not_elem_of_cons in Hn as [Hx Hn]. rewrite filter_cons_False by congruence. auto.
Qed.

(** The parts of session validation that issuing a decision does not touch. *)
Lemma validate_session_parts clock s :
  SkillSessionState_validate clock s = Ok tt <->
  validate_schema_version s.(ss_schema_version) = Ok tt
  /\ validate_active_versions s.(ss_active_versions) = Ok tt
  /\ Z.of_nat (length s.(ss_attempted_tactics)) <= MAX_TACTICS
  /\ match s.(ss_effective_profile) with
     | Some profile => SkillProfile_validate profile | None => Ok tt end = Ok tt
  /\ validate_checkpoint_pair clock s = Ok tt
  /\ validate_reservation_pair clock s = Ok tt
  /\ validate_evidence s.(ss_evidence) = Ok tt.
Proof.
  unfold SkillSessionState_validate. rewrite !rbind_unit_ok, refuse_if_ok, Z.ltb_ge. tauto.
Qed.

Lemma session_proof_valid clock z now proof :
  SkillSessionState_validate clock z.(zz_state) = Ok tt ->
  verified_checkpoint z now = Some proof ->
  SkillCheckpointProof_validate clock proof = Ok tt.
Proof.
  intros Hv Hp. apply validate_session_parts in Hv as (_ & _ & _ & _ & Hc & _).
  apply verified_checkpoint_facts in Hp as (Hp & Hl & Hs & _).
  unfold validate_checkpoint_pair in Hc. rewrite Hp, Hl in Hc.
  by destruct (_ && _).
Qed.

Lemma issued_interval_remaining now deadline remaining :
  remaining_deadline_ms deadline now = Ok remaining -> remaining <= u64_max ->
  issued_interval_ms now deadline = Ok remaining /\ 0 < remaining.
Proof.
  unfold remaining_deadline_ms, issued_interval_ms, num_milliseconds. intros H Hmax.
  apply rbind_unit_ok in H as [Hr H]. apply refuse_if_ok in Hr. injection H as <-.
  assert (0 <= deadline - now) by (apply Z.nlt_ge; intros ?; 
    pose proof (Z.quot_opp_l (deadline - now) 1000000 ltac:(lia));
    pose proof (Z.quot_pos (- (deadline - now)) 1000000); lia).
  assert ((deadline - now <? 0) = false) as -> by lia. simpl.
  rewrite !(proj2 (Z.leb_le _ _)) by lia. simpl. split; [done|lia].
Qed.

(** The selected engine is present exactly for the engine-selection rung. *)
Lemma selected_engine_iff z tactic now :
  eligible z tactic now = true ->
  tactic = SelectCompatibleEngine <->
  is_Some (if bool_decide (tactic = SelectCompatibleEngine)
           then select_compatible_engine z else None).
Proof.
  intros (_ & _ & He)%eligible_spec. case_bool_decide; split; auto; done.
Qed.

(** What the strategy needs besides an eligible tactic. *)
Record ready (clock : Time) (z : SkillZigZagZig) (trigger : SkillTrigger)
    (identity : option SkillCommandIdentity) (now : Time) (remaining : Z) : Prop := {
  ready_state : SkillSessionState_validate clock z.(zz_state) = Ok tt;
  ready_running : z.(zz_stopped) = false;
  ready_free : z.(zz_state).(ss_pending_issuance) = None;
  ready_budget : z.(zz_per_tactic_budget_ms) <> 0;
  ready_deadline : remaining_deadline_ms z.(zz_state).(ss_deadline) now = Ok remaining;
  ready_representable : remaining <= u64_max;
  ready_post : validate_postcondition trigger.(st_expected_postcondition) = Ok tt;
  ready_identity : match identity with
    | Some i => SkillCommandIdentity_validate i = Ok tt
                /\ i.(ci_session_id) = z.(zz_state).(ss_session_id)
    | None => True end;
  ready_room : Z.of_nat (length z.(zz_state).(ss_attempted_tactics)) < MAX_TACTICS;
}.

Lemma issued_decision_valid clock rid z trigger identity now remaining tactic d :
  ready clock z trigger identity now remaining -> eligible z tactic now = true ->
  d.(sd_tactic) = tactic -> SkillDecision_validate d = Ok tt ->
  d.(sd_remaining_deadline_ms) = remaining -> d.(sd_tactic_budget_ms) <= remaining ->
  d.(sd_checkpoint_id) = cp_checkpoint_id <$>
    (if requires_checkpoint tactic then verified_checkpoint z now else None) ->
  SkillIssuedDecision_validate clock
    (MkSkillIssuedDecision rid z.(zz_state).(ss_session_id) identity d
       (if requires_checkpoint tactic then verified_checkpoint z now else None)
       now z.(zz_state).(ss_deadline)) = Ok tt.
Proof.
  intros Hready He Ht Hd Hr Hb Hc. unfold SkillIssuedDecision_validate. simpl.
  rewrite Hd, Ht, Hr. cbn [rbind].
  destruct (issued_interval_remaining _ _ _ (ready_deadline _ _ _ _ _ _ Hready)
              (ready_representable _ _ _ _ _ _ Hready)) as [Hi Hpos].
  assert (match identity with Some i => SkillCommandIdentity_validate i ;?
      refuse_if (negb (bool_decide (ci_session_id i = ss_session_id (zz_state z))))
        "issued decision command identity belongs to another session"
      | None => Ok tt end = Ok tt) as ->.
  { pose proof (ready_identity _ _ _ _ _ _ Hready) as Hid. destruct identity as [i|]; [|done].
    destruct Hid as [-> ->]. simpl. by rewrite bool_decide_eq_true_2. }
  cbn [rbind]. rewrite Hi. cbn [rbind]. rewrite Z.eqb_refl. simpl.
  assert ((remaining <? d.(sd_tactic_budget_ms)) = false) as -> by lia. simpl.
  rewrite Hc. rewrite <-requires_checkpoint_same.
  apply eligible_spec in He as (_ & Hcp & _). destruct (requires_checkpoint tactic); simpl; [|done].
  destruct (Hcp eq_refl) as [proof Hp]. rewrite Hp. simpl.
  destruct (verified_checkpoint_facts _ _ _ Hp) as (_ & _ & Hs & _).
  rewrite Hs, !bool_decide_eq_true_2 by done. simpl.
  eapply session_proof_valid; eauto using ready_state.
Qed.

Lemma reserved_state_valid clock z trigger identity now remaining issued :
  ready clock z trigger identity now remaining ->
  eligible z issued.(si_decision).(sd_tactic) now = true ->
  SkillIssuedDecision_validate clock issued = Ok tt ->
  issued.(si_session_id) = z.(zz_state).(ss_session_id) ->
  issued.(si_deadline) = z.(zz_state).(ss_deadline) ->
  issued.(si_checkpoint_proof) =
    (if requires_checkpoint issued.(si_decision).(sd_tactic)
     then verified_checkpoint z now else None) ->
  SkillSessionState_validate clock
    (z.(zz_state) <| ss_attempted_tactics :=
        z.(zz_state).(ss_attempted_tactics) ++ [issued.(si_decision).(sd_tactic)] |>
      <| ss_reserved_tactic := Some issued.(si_decision).(sd_tactic) |>
      <| ss_pending_issuance := Some issued |>) = Ok tt.
Proof.
  intros Hready He Hv Hs Hd Hp. pose proof (ready_state _ _ _ _ _ _ Hready) as Hst.
  pose proof (ready_room _ _ _ _ _ _ Hready) as Hroom.
  apply validate_session_parts in Hst as (H1 & H2 & H3 & H4 & H5 & H6 & H7).
  apply validate_session_parts. simpl. split_and!; auto.
  { rewrite length_app. simpl. lia. }
  pose proof He as He'. apply eligible_spec in He' as (Hn & Hcp & _).
  unfold validate_reservation_pair. simpl.
  rewrite attempts_fresh, !bool_decide_eq_true_2 by done. simpl. rewrite Hv. simpl.
  rewrite <-requires_checkpoint_same, Hp.
  destruct (requires_checkpoint _); simpl; [|done].
  destruct (Hcp eq_refl) as [proof Hproof].
  destruct (verified_checkpoint_facts _ _ _ Hproof) as (Hvp & _).
  by rewrite Hproof, Hvp, bool_decide_eq_true_2.
Qed.

(** Issuing is complete.  A running strategy with a valid state, no outstanding
    reservation, time left, a non-zero budget and an eligible tactic does issue a
    decision for that tactic: no validation step it runs can refuse. *)
Theorem next_decision_complete clock rid z trigger identity now remaining tactic :
  ready clock z trigger identity now remaining ->
  next_tactic z trigger.(st_failure) now = Some tactic ->
  exists d z', next_decision_inner clock rid z trigger identity now = Ok (d, z')
               /\ d.(sd_tactic) = tactic.
Proof.
  intros Hready Ht. pose proof (next_tactic_eligible _ _ _ _ Ht) as He.
  unfold next_decision_inner.
  rewrite (ready_deadline _ _ _ _ _ _ Hready). cbn [rbind].
  rewrite (ready_running _ _ _ _ _ _ Hready), (ready_free _ _ _ _ _ _ Hready).
  rewrite (proj2 (Z.eqb_neq _ _) (ready_budget _ _ _ _ _ _ Hready)). simpl.
  rewrite Ht. cbn [ok_or rbind].
  set (proof := if requires_checkpoint tactic then verified_checkpoint z now else None).
  set (eng := if bool_decide _ then select_compatible_engine z else None).
  set (d := MkSkillDecision tactic trigger.(st_failure) trigger.(st_expected_postcondition)
    remaining (Z.min z.(zz_per_tactic_budget_ms) remaining) (cp_checkpoint_id <$> proof) eng).
  assert (Hd : SkillDecision_validate d = Ok tt).
  { apply postcondition_decision_valid; [apply Hready|lia|by apply selected_engine_iff with now]. }
  unfold SkillDecision_new. fold d. rewrite Hd. cbn [rbind map_err].
  set (i := MkSkillIssuedDecision rid z.(zz_state).(ss_session_id) identity d proof now
              z.(zz_state).(ss_deadline)).
  assert (Hi : SkillIssuedDecision_validate clock i = Ok tt).
  { eapply issued_decision_valid; eauto. simpl. lia. }
  assert (match identity with
    | Some identity => SkillIssuedDecision_new_for_command clock rid (ss_session_id (zz_state z))
        identity d proof now (ss_deadline (zz_state z))
    | None => SkillIssuedDecision_new clock rid (ss_session_id (zz_state z)) d proof now
        (ss_deadline (zz_state z)) end = Ok i) as ->.
  { pose proof (ready_identity _ _ _ _ _ _ Hready) as Hid. destruct identity as [id|].
    - destruct Hid as [_ Hs]. unfold SkillIssuedDecision_new_for_command.
      rewrite Hs, bool_decide_eq_true_2 by done. simpl.
      unfold SkillIssuedDecision_new_inner. fold i. by rewrite Hi.
    - unfold SkillIssuedDecision_new, SkillIssuedDecision_new_inner. fold i. by rewrite Hi. }
  cbn [rbind map_err].
  pose proof (reserved_state_valid clock z trigger identity now remaining i Hready He Hi
    eq_refl eq_refl eq_refl) as Hst.
  apply SkillSessionState_serialize_validated in Hst as [w Hw]. simpl in Hw.
  cbn [set_field]. rewrite Hw. simpl. eauto.
Qed.

Lemma next_decision_complete_witness :
  exists d z', next_decision_inner 1000000000 99%N demo_strategy demo_trigger None 1000000000
                 = Ok (d, z') /\ d.(sd_tactic) = ObserveAgain.
Proof.
  apply (next_decision_complete 1000000000 99%N demo_strategy demo_trigger None 1000000000
           4000 ObserveAgain).
  - constructor; try (vm_compute; (reflexivity || discriminate)); exact I.
  - vm_compute; reflexivity.
Defined.

(** ** Runs of a strategy *)

Section Runs.
Context `{ReceiptCodec}.

(** One operation on the strategy; the label is the decision it issues, if any. *)
Inductive zz_step (z : SkillZigZagZig) : option SkillDecision -> SkillZigZagZig -> Prop :=
| step_issue clock rid trigger identity now d z' :
    next_decision_inner clock rid z trigger identity now = Ok (d, z') -> zz_step z (Some d) z'
| step_record clock decision outcome now z' :
    record_outcome clock z decision outcome now = Ok z' -> zz_step z None z'
| step_record_terminal clock decision outcome now finalization z' :
    record_terminal_outcome clock z decision outcome now finalization = Ok z' ->
    zz_step z None z'
| step_settle receipt z' :
    settle_committed_receipt z receipt = Ok z' -> zz_step z None z'
| step_stop : zz_step z None (stop z).

Inductive zz_run : SkillZigZagZig -> list SkillDecision -> SkillZigZagZig -> Prop :=
| run_done z : zz_run z [] z
| run_step z l z' ds z'' :
    zz_step z l z' -> zz_run z' ds z'' -> zz_run z (option_list l ++ ds) z''.

Lemma record_outcome_inner_ok clock z decision outcome now z' :
  record_outcome_inner clock z decision outcome now = Ok z' ->
  exists issued, z.(zz_state).(ss_pending_issuance) = Some issued
    /\ issued.(si_decision) = decision /\ issued.(si_issued_at) <= now
    /\ proof_is_unchanged z issued now = true
    /\ outcome_tactic_differs outcome decision.(sd_tactic) = false
    /\ z' = z <| zz_state := release z.(zz_state) (outcome_evidence outcome) |>
    /\ SkillSessionState_validate clock z'.(zz_state) = Ok tt.
Proof.
  unfold record_outcome_inner. intros Hr.
  apply rbind_ok in Hr as (issued & Hi & Hr). apply ok_or_ok in Hi.
  apply rbind_unit_ok in Hr as [Hg Hr]. apply refuse_if_ok in Hg.
  rewrite !orb_false_iff, !negb_false_iff, bool_decide_eq_true in Hg.
  destruct Hg as ((((Hn & _) & Hd) & Hu) & Ho).
  apply rbind_ok in Hr as (w & Hw & Hr). apply map_err_ok in Hw. injection Hr as <-.
  exists issued. split_and!; auto; [lia|].
  apply SkillSessionState_serialize_ok_iff, is_ok_true. eauto.
Qed.

Lemma settle_state_ok s receipt s' :
  settle_committed_receipt_state s receipt = Ok s' ->
  receipt.(rr_state) = Committed /\ RecoveryReceipt_validate receipt = Ok tt /\
  ((s.(ss_pending_issuance) = None /\ s' = s) \/
   (exists issued identity, s.(ss_pending_issuance) = Some issued
      /\ issued.(si_command_identity) = Some identity
      /\ identity_matches identity receipt.(rr_identity) = true
      /\ issued.(si_reservation_id) = receipt.(rr_reservation_id)
      /\ issued.(si_decision) = receipt.(rr_decision)
      /\ s' = release s (outcome_evidence receipt.(rr_skill_outcome)))).
Proof.
  unfold settle_committed_receipt_state. intros Hs.
  apply rbind_unit_ok in Hs as [Hv Hs]. apply map_err_ok in Hv.
  apply rbind_unit_ok in Hs as [Hc Hs].
  apply refuse_if_ok, negb_false_iff, bool_decide_eq_true in Hc. split_and!; auto.
  destruct (ss_pending_issuance s) as [issued|]; [right|injection Hs as <-; auto].
  apply rbind_ok in Hs as (identity & Hi & Hs). apply ok_or_ok in Hi.
  apply rbind_unit_ok in Hs as [Hg Hs]. apply refuse_if_ok in Hg. injection Hs as <-.
  rewrite !orb_false_iff, !negb_false_iff, !bool_decide_eq_true in Hg.
  destruct Hg as (((? & ?) & ?) & ?). eauto 10.
Qed.

Lemma zz_step_attempted z l z' :
  zz_step z l z' ->
  z'.(zz_state).(ss_attempted_tactics) =
    z.(zz_state).(ss_attempted_tactics) ++ (sd_tactic <$> option_list l)
  /\ (forall d, l = Some d ->
        (d.(sd_tactic) ∉ z.(zz_state).(ss_attempted_tactics)) /\ z.(zz_stopped) = false)
  /\ (z.(zz_stopped) = true -> z'.(zz_stopped) = true).
Proof.
  intros Hs. destruct Hs as [clock rid trigger identity now d z' Hs
    |clock d o now z' Hs|clock d o now f z' Hs|r z' Hs|]; simpl; rewrite ?app_nil_r.
  - apply next_decision_inner_ok in Hs. simpl in Hs.
    destruct Hs as (remaining & issued & _ & Hst & _ & _ & Ht & _ & _ & _ & Hz & _).
    apply next_tactic_eligible, eligible_spec in Ht as (Hn & _). subst z'. simpl.
    split_and!; [done| |congruence]. intros d' [= <-]. done.
  - unfold record_outcome in Hs. apply rbind_unit_ok in Hs as [_ Hs].
    apply record_outcome_inner_ok in Hs as (? & _ & _ & _ & _ & _ & -> & _). done.
  - unfold record_terminal_outcome in Hs. apply rbind_unit_ok in Hs as [_ Hs].
    apply record_outcome_inner_ok in Hs as (? & _ & _ & _ & _ & _ & -> & _). done.
  - unfold settle_committed_receipt in Hs. apply rbind_ok in Hs as (s' & Hs & Hz).
    injection Hz as <-. simpl.
    apply settle_state_ok in Hs as (_ & _ & [[_ ->]|(? & ? & _ & _ & _ & _ & _ & ->)]); done.
  - done.
Qed.

Lemma zz_run_attempted z ds z' :
  zz_run z ds z' ->
  z'.(zz_state).(ss_attempted_tactics) =
    z.(zz_state).(ss_attempted_tactics) ++ (sd_tactic <$> ds)
  /\ (NoDup z.(zz_state).(ss_attempted_tactics) ->
      NoDup z'.(zz_state).(ss_attempted_tactics)).
Proof.
  induction 1 as [z|z l z' ds z'' Hs Hr [IH1 IH2]]; simpl; [by rewrite app_nil_r|].
  apply zz_step_attempted in Hs as (Ha & Hn & _).
  split; [by rewrite IH1, Ha, <-app_assoc, fmap_app|]. intros Hd. apply IH2. rewrite Ha.
  destruct l as [d|]; simpl; [|by rewrite app_nil_r].
  destruct (Hn d eq_refl) as [Hd' _]. apply NoDup_app. split_and!; [done| |apply NoDup_singleton].
  intros x Hx ->%list_elem_of_singleton. done.
Qed.

(** However issuing, recording, settling and stopping of one strategy interleave, and from
    distinct attempts, it never issues the same tactic twice, so it issues at most eight
    decisions.  (Each command of a session has a strategy of its own, and a failure to
    reserve a decision puts back the strategy of before it was issued.) *)
Theorem ladder_issues_at_most_eight z ds z' :
  zz_run z ds z' -> NoDup z.(zz_state).(ss_attempted_tactics) ->
  NoDup (z.(zz_state).(ss_attempted_tactics) ++ (sd_tactic <$> ds))
  /\ (length z.(zz_state).(ss_attempted_tactics) + length ds <= 8)%nat.
Proof.
  intros Hr Hd. apply zz_run_attempted in Hr as [Ha Hn]. specialize (Hn Hd).
  rewrite Ha in Hn. split; [done|].
  assert (Hsub : (length (ss_attempted_tactics (zz_state z) ++ (sd_tactic <$> ds))
                  <= length LADDER)%nat).
  { apply submseteq_length, NoDup_submseteq; [done|]. intros t _. apply in_ladder. }
  rewrite length_app, length_fmap in Hsub. exact Hsub.
Qed.

(** A stopped strategy issues nothing more, whatever is still recorded or settled. *)
Theorem stopped_strategy_issues_nothing z ds z' :
  zz_run z ds z' -> z.(zz_stopped) = true -> ds = [].
Proof.
  induction 1 as [z|z l z' ds z'' Hs Hr IH]; intros Hst; [done|].
  apply zz_step_attempted in Hs as (_ & Hn & Hs).
  destruct l as [d|]; [destruct (Hn d eq_refl); congruence|]. simpl. auto.
Qed.

(** Settling a committed receipt releases only the reservation it names, is
    idempotent, and never lets a tactic be attempted again. *)
Theorem settle_idempotent s receipt s' :
  settle_committed_receipt_state s receipt = Ok s' ->
  settle_committed_receipt_state s' receipt = Ok s'
  /\ s'.(ss_pending_issuance) = None
  /\ s'.(ss_attempted_tactics) = s.(ss_attempted_tactics)
  /\ (forall issued, s.(ss_pending_issuance) = Some issued ->
        issued.(si_reservation_id) = receipt.(rr_reservation_id)
        /\ issued.(si_decision) = receipt.(rr_decision)).
Proof.
  intros Hs. pose proof (settle_state_ok _ _ _ Hs) as (Hc & Hv & Hcases).
  assert (s'.(ss_pending_issuance) = None).
  { destruct Hcases as [[? ->]|(? & ? & _ & _ & _ & _ & _ & ->)]; done. }
  split_and!; auto.
  - unfold settle_committed_receipt_state. rewrite Hv, Hc. cbn [map_err rbind].
    rewrite bool_decide_eq_true_2 by done. cbn [negb refuse_if rbind].
    by match goal with Hp : ss_pending_issuance s' = None |- _ => rewrite Hp end.
  - destruct Hcases as [[? ->]|(? & ? & _ & _ & _ & _ & _ & ->)]; done.
  - intros issued Hi. destruct Hcases as [[? ->]|(i & ? & Hi' & _ & _ & ? & ? & _)];
      [congruence|]. rewrite Hi in Hi'. injection Hi' as ->. done.
Qed.

End Runs.

#[export] Instance evidence_le_total : Total evidence_le.
Proof.
  intros a b. unfold evidence_le, evidence_leb.
  rewrite (String.compare_antisym b.(er_artifact_id) a.(er_artifact_id)).
  destruct (String.compare a.(er_artifact_id) b.(er_artifact_id)); simpl; auto.
  apply String.leb_total.
Qed.

(** Recording an outcome settles exactly the outstanding decision, inside the
    deadline and after it was issued: the reservation is gone, no tactic becomes
    available again, and the evidence is the old evidence plus the outcome's, sorted. *)
Theorem record_outcome_settles clock z decision outcome now z' :
  record_outcome clock z decision outcome now = Ok z' ->
  let s := z.(zz_state) in let s' := z'.(zz_state) in
  (exists issued, s.(ss_pending_issuance) = Some issued /\ issued.(si_decision) = decision
     /\ issued.(si_issued_at) <= now <= s.(ss_deadline))
  /\ s'.(ss_pending_issuance) = None /\ s'.(ss_reserved_tactic) = None
  /\ s'.(ss_attempted_tactics) = s.(ss_attempted_tactics)
  /\ s'.(ss_evidence) ≡ₚ s.(ss_evidence) ++ outcome_evidence outcome
  /\ Sorted evidence_le s'.(ss_evidence)
  /\ SkillSessionState_validate clock s' = Ok tt.
Proof.
  unfold record_outcome. intros Hr. apply rbind_unit_ok in Hr as [Hd Hr].
  apply refuse_if_ok in Hd.
  apply record_outcome_inner_ok in Hr as (issued & Hi & He & Hn & _ & _ & -> & Hv).
  simpl in *. split_and!; auto.
  - exists issued. split_and!; auto. lia.
  - apply merge_sort_Permutation.
  - apply (Sorted_merge_sort evidence_le).
Qed.

Definition demo_issued : SkillDecision * SkillZigZagZig :=
  match next_decision_inner 1000000000 99%N demo_strategy demo_trigger None 1000000000 with
  | Ok r => r
  | Err _ => (MkSkillDecision ObserveAgain TargetDrift "" 0 0 None None, demo_strategy)
  end.

Lemma record_outcome_settles_witness :
  exists z', record_outcome 1000000000 demo_issued.2 demo_issued.1 (Applied []) 1200000000 = Ok z'
    /\ z'.(zz_state).(ss_pending_issuance) = None.
Proof.
  eexists. split; [vm_compute; reflexivity|].
  refine (proj1 (proj2 (record_outcome_settles 1000000000 demo_issued.2 demo_issued.1 (Applied [])
    1200000000 _ _))).
  vm_compute; reflexivity.
Defined.

(** A codec for the concrete runs below. *)
Definition sixty_four_a : string :=
  "aaaaaaaaaaaaaaaaaaaaaaaaaaaaaaaaaaaaaaaaaaaaaaaaaaaaaaaaaaaaaaaa".
#[local] Instance demo_codec : ReceiptCodec :=
  {| outcome_json_sha256 := fun _ _ _ => Ok sixty_four_a; receipt_json_len := fun _ => Ok 512 |}.

Lemma ladder_issues_at_most_eight_witness :
  zz_run demo_strategy [demo_issued.1] demo_issued.2 /\
  NoDup (demo_state.(ss_attempted_tactics) ++ (sd_tactic <$> [demo_issued.1])).
Proof.
  assert (Hr : zz_run demo_strategy [demo_issued.1] demo_issued.2).
  { apply (run_step _ (Some demo_issued.1) demo_issued.2 []); [|apply run_done].
    apply (step_issue demo_strategy 1000000000 99%N demo_trigger None 1000000000).
    vm_compute; reflexivity. }
  split; [exact Hr|]. apply (ladder_issues_at_most_eight _ _ _ Hr). constructor.
Defined.

Lemma stopped_strategy_issues_nothing_witness :
  zz_run (stop demo_strategy) [] (stop (stop demo_strategy)) /\ @nil SkillDecision = [].
Proof.
  assert (Hr : zz_run (stop demo_strategy) [] (stop (stop demo_strategy))).
  { apply (run_step _ None (stop (stop demo_strategy)) []); [apply step_stop|apply run_done]. }
  split; [exact Hr|]. exact (stopped_strategy_issues_nothing _ _ _ Hr eq_refl).
Defined.

(** A reservation made for a command, and the committed receipt of that command. *)
Definition demo_identity : SkillCommandIdentity :=
  MkSkillCommandIdentity 3%N 4%N 5%N 7%N None Replayable sixty_four_a.
Definition demo_reserved : SkillDecision * SkillZigZagZig :=
  match next_decision_for_command 1000000000 99%N demo_strategy demo_trigger demo_identity
          1000000000 with
  | Ok r => r
  | Err _ => demo_issued
  end.
Definition demo_receipt : RecoveryReceipt :=
  MkRecoveryReceipt 3%N (MkRecoveryCommandIdentity 3%N 4%N 5%N 7%N None Replayable sixty_four_a)
    Committed 99%N demo_reserved.1 (OutcomeCompleted 3%N []) (Applied []) [] sixty_four_a
    2000000000.

Lemma settle_idempotent_witness :
  exists s', settle_committed_receipt_state demo_reserved.2.(zz_state) demo_receipt = Ok s'
    /\ settle_committed_receipt_state s' demo_receipt = Ok s'.
Proof.
  eexists. split; [vm_compute; reflexivity|].
  refine (proj1 (settle_idempotent demo_reserved.2.(zz_state) demo_receipt _ _)).
  vm_compute; reflexivity.
Defined.
