(* ===== verification/SkillStore.v ===== *)
(** * The skill state store

    [crates/skill-runtime/src/state.rs]: session states behind a [RwLock].  The lock is
    poisoned when a writer panicked; every access then fails.  The [test-support] fault
    injection of the source is not compiled into the product and not modelled. *)

From S2P Require Import Prelude Text SkillTypes Receipt ZigZag.

Inductive SkillStateStoreError :=
| SessionNotFound
| DuplicateSession
| Cancelled
| InvalidState (reason : string)
| ProfileFrozen
| Poisoned.

Record SkillStateStore := MkSkillStateStore {
  sessions : gmap SessionId SkillSessionState;
  poisoned : bool;
}.
#[export] Instance eta_SkillStateStore : Eta SkillStateStore := fun s =>
  MkSkillStateStore (sessions s) (poisoned s).

Definition SkillStateStore_new : SkillStateStore := MkSkillStateStore ∅ false.

(** [read_sessions] and [write_sessions]. *)
Definition lock_sessions (st : SkillStateStore)
    : result (gmap SessionId SkillSessionState) SkillStateStoreError :=
  refuse_if st.(poisoned) Poisoned ;? Ok st.(sessions).

Definition store_validate (clock : Time) (state : SkillSessionState)
    : result unit SkillStateStoreError :=
  let? w := map_err InvalidState (SkillSessionState_serialize clock state) in Ok tt.

Definition store_insert (clock : Time) (state : SkillSessionState) (st : SkillStateStore)
    : result SkillStateStore SkillStateStoreError :=
  store_validate clock state ;?
  let? m := lock_sessions st in
  refuse_if (bool_decide (is_Some (m !! state.(ss_session_id)))) DuplicateSession ;?
  Ok (st <| sessions := <[state.(ss_session_id) := state]> m |>).

Definition store_get (session_id : SessionId) (st : SkillStateStore)
    : result SkillSessionState SkillStateStoreError :=
  let? m := lock_sessions st in
  ok_or (m !! session_id) SessionNotFound.

Definition store_transition (clock : Time) (session_id : SessionId)
    (transition : SkillSessionState -> result SkillSessionState SkillStateStoreError)
    (st : SkillStateStore) : result SkillStateStore SkillStateStoreError :=
  let? m := lock_sessions st in
  let? current := ok_or (m !! session_id) SessionNotFound in
  let? next := transition current in
  refuse_if (negb (bool_decide (next.(ss_session_id) = current.(ss_session_id))))
    (InvalidState "session identity cannot change during a transition") ;?
  store_validate clock next ;?
  Ok (st <| sessions := <[session_id := next]> m |>).

Definition record_tactic (clock : Time) (session_id : SessionId) (tactic : SkillTactic)
    (st : SkillStateStore) : result SkillStateStore SkillStateStoreError :=
  store_transition clock session_id
    (fun state => Ok (state <| ss_attempted_tactics :=
                               state.(ss_attempted_tactics) ++ [tactic] |>)) st.

(** The text of [format!("{error:?}")]. *)
Definition failure_debug (f : SkillFailure) : string :=
  match f with
  | UnsupportedCapability => "UnsupportedCapability"
  | ConfigurationConflict => "ConfigurationConflict"
  | DeadlineExceeded => "DeadlineExceeded"
  | TargetDrift => "TargetDrift"
  | PostconditionFailed => "PostconditionFailed"
  | EffectUncertain => "EffectUncertain"
  | CheckpointMismatch => "CheckpointMismatch"
  | StrategyExhausted => "StrategyExhausted"
  | EngineUnavailable => "EngineUnavailable"
  end.

Definition store_settle_committed_receipt `{ReceiptCodec} (receipt : RecoveryReceipt)
    (st : SkillStateStore) : result SkillStateStore SkillStateStoreError :=
  let? m := lock_sessions st in
  let sid := receipt.(rr_identity).(rci_session_id) in
  let? current := ok_or (m !! sid) SessionNotFound in
  let? settled := map_err (fun e => InvalidState (failure_debug e))
                    (settle_committed_receipt_state current receipt) in
  Ok (st <| sessions := <[sid := settled]> m |>).

(** The closure of [freeze_profile], which [SkillGhost::on] also runs. *)
Definition freeze (profile : SkillProfile) (state : SkillSessionState)
    : result SkillSessionState SkillStateStoreError :=
  match state.(ss_effective_profile) with
  | None => Ok (state <| ss_effective_profile := Some profile |>)
  | Some existing => if bool_decide (existing = profile) then Ok state else Err ProfileFrozen
  end.

Definition freeze_profile (clock : Time) (session_id : SessionId) (profile : SkillProfile)
    (st : SkillStateStore) : result SkillStateStore SkillStateStoreError :=
  store_transition clock session_id (freeze profile) st.

(** ** Facts *)

Lemma store_validate_ok clock s :
  store_validate clock s = Ok tt <-> SkillSessionState_validate clock s = Ok tt.
Proof.
  unfold store_validate. rewrite <-SkillSessionState_serialize_ok_iff.
  destruct (SkillSessionState_serialize clock s); simpl; naive_solver.
Qed.

Lemma lock_sessions_ok st m :
  lock_sessions st = Ok m <-> st.(poisoned) = false /\ m = st.(sessions).
Proof. unfold lock_sessions. rewrite rbind_unit_ok, refuse_if_ok. naive_solver. Qed.

Lemma store_get_ok sid st s :
  store_get sid st = Ok s <-> st.(poisoned) = false /\ st.(sessions) !! sid = Some s.
Proof.
  unfold store_get. rewrite rbind_ok. setoid_rewrite lock_sessions_ok.
  setoid_rewrite ok_or_ok. naive_solver.
Qed.

(** A transition that succeeds replaces one session's state by a validated one. *)
Lemma store_transition_ok clock sid f st st' :
  store_transition clock sid f st = Ok st' <->
  exists current next, st.(poisoned) = false /\ st.(sessions) !! sid = Some current
    /\ f current = Ok next /\ next.(ss_session_id) = current.(ss_session_id)
    /\ SkillSessionState_validate clock next = Ok tt
    /\ st' = st <| sessions := <[sid := next]> st.(sessions) |>.
Proof.
  unfold store_transition. rewrite rbind_ok. setoid_rewrite lock_sessions_ok. split.
  - intros (m & [Hp ->] & H). apply rbind_ok in H as (cur & Hc & H). apply ok_or_ok in Hc.
    apply rbind_ok in H as (next & Hn & H). apply rbind_unit_ok in H as [Hi H].
    apply refuse_if_ok, negb_false_iff, bool_decide_eq_true in Hi.
    apply rbind_unit_ok in H as [Hv H]. apply store_validate_ok in Hv. injection H as <-.
    eauto 10.
  - intros (cur & next & Hp & Hc & Hn & Hi & Hv & ->). eexists. split; [eauto|].
    rewrite Hc. simpl. rewrite Hn. simpl. rewrite bool_decide_eq_true_2 by done. simpl.
    apply store_validate_ok in Hv. by rewrite Hv.
Qed.

Lemma store_transition_lookup clock sid f st st' sid' :
  store_transition clock sid f st = Ok st' -> sid' <> sid ->
  st'.(sessions) !! sid' = st.(sessions) !! sid'.
Proof.
  intros (cur & next & _ & _ & _ & _ & _ & ->)%store_transition_ok Hne. simpl.
  by rewrite lookup_insert_ne.
Qed.

(** ** The store keeps each state under its own session, and a profile frozen *)

Definition keyed (st : SkillStateStore) : Prop :=
  map_Forall (fun sid s => s.(ss_session_id) = sid) st.(sessions).

Section Steps.
Context `{ReceiptCodec}.

(** The operations of the store; a [transition] runs any closure. *)
Inductive store_step (st : SkillStateStore) : SkillStateStore -> Prop :=
| ss_insert clock s st' : store_insert clock s st = Ok st' -> store_step st st'
| ss_transition clock sid f st' : store_transition clock sid f st = Ok st' -> store_step st st'
| ss_record_tactic clock sid t st' : record_tactic clock sid t st = Ok st' -> store_step st st'
| ss_freeze clock sid p st' : freeze_profile clock sid p st = Ok st' -> store_step st st'
| ss_settle r st' : store_settle_committed_receipt r st = Ok st' -> store_step st st'.

Lemma settle_keeps_identity s r s' :
  settle_committed_receipt_state s r = Ok s' ->
  s'.(ss_session_id) = s.(ss_session_id)
  /\ s'.(ss_effective_profile) = s.(ss_effective_profile)
  /\ s'.(ss_active_versions) = s.(ss_active_versions).
Proof.
  intros (_ & _ & [[_ ->]|(? & ? & _ & _ & _ & _ & _ & ->)])%settle_state_ok; done.
Qed.

Lemma store_settle_ok r st st' :
  store_settle_committed_receipt r st = Ok st' ->
  exists cur settled, st.(poisoned) = false
    /\ st.(sessions) !! r.(rr_identity).(rci_session_id) = Some cur
    /\ settle_committed_receipt_state cur r = Ok settled
    /\ st' = st <| sessions := <[r.(rr_identity).(rci_session_id) := settled]> st.(sessions) |>.
Proof.
  unfold store_settle_committed_receipt. intros H1.
  apply rbind_ok in H1 as (m & Hm & H1). apply lock_sessions_ok in Hm as [Hp ->].
  apply rbind_ok in H1 as (cur & Hc & H1). apply ok_or_ok in Hc.
  apply rbind_ok in H1 as (settled & Hs & H1). apply map_err_ok in Hs. injection H1 as <-.
  eauto 10.
Qed.

(** Every operation of the store keeps each session state stored under its own
    session identifier; a transition can not move a session or rename it. *)
Theorem store_keeps_sessions_keyed st st' :
  store_step st st' -> keyed st -> keyed st'.
Proof.
  assert (Htr : forall clock sid f st st',
    store_transition clock sid f st = Ok st' -> keyed st -> keyed st').
  { intros clock sid f s0 s1 (cur & next & _ & Hc & _ & Hi & _ & ->)%store_transition_ok Hk.
    unfold keyed. simpl. apply map_Forall_insert_2; [|done]. rewrite Hi. by apply (Hk sid). }
  intros [clock s st1 Hi|clock sid f st1 Ht|clock sid t st1 Ht|clock sid p st1 Ht|r st1 Hs] Hk;
    [|eapply Htr; eauto..|].
  - unfold store_insert in Hi. apply rbind_unit_ok in Hi as [_ Hi].
    apply rbind_ok in Hi as (m & Hm & Hi). apply lock_sessions_ok in Hm as [_ ->].
    apply rbind_unit_ok in Hi as [_ Hi]. injection Hi as <-. unfold keyed. simpl.
    by apply map_Forall_insert_2.
  - apply store_settle_ok in Hs as (cur & settled & _ & Hc & Hs & ->). unfold keyed. simpl.
    apply map_Forall_insert_2; [|done]. apply settle_keeps_identity in Hs as (-> & _).
    by apply (Hk _ _ Hc).
Qed.

End Steps.

Definition demo_store : SkillStateStore :=
  MkSkillStateStore {[ 7%N := demo_state ]} false.

#[local] Instance store_demo_codec : ReceiptCodec :=
  {| outcome_json_sha256 := fun _ _ _ => Ok sixty_four_a; receipt_json_len := fun _ => Ok 512 |}.

Lemma store_keeps_sessions_keyed_witness :
  exists st', record_tactic 0 7%N ObserveAgain demo_store = Ok st' /\ keyed st'.
Proof.
  eexists. split; [vm_compute; reflexivity|].
  apply (store_keeps_sessions_keyed demo_store).
  - apply (ss_record_tactic _ 0 7%N ObserveAgain). vm_compute; reflexivity.
  - apply map_Forall_singleton. reflexivity.
Defined.

(** *** Settlement does not re-check the evidence bound *)

Definition demo_evidence : SkillEvidenceRef := MkSkillEvidenceRef "shot-1" sixty_four_a.

(** A reservation in a session that already holds the maximum of 128 references. *)
Definition full_state : SkillSessionState :=
  demo_reserved.2.(zz_state) <| ss_evidence := replicate 128 demo_evidence |>.
Definition full_receipt : RecoveryReceipt :=
  MkRecoveryReceipt 3%N (MkRecoveryCommandIdentity 3%N 4%N 5%N 7%N None Replayable sixty_four_a)
    Committed 99%N demo_reserved.1 (OutcomeCompleted 3%N []) (Applied [demo_evidence]) []
    sixty_four_a 2000000000.

Lemma oversized_evidence_refused clock s :
  MAX_EVIDENCE_REFS < Z.of_nat (length s.(ss_evidence)) ->
  SkillSessionState_validate clock s <> Ok tt.
Proof.
  intros Hl (_ & _ & _ & _ & _ & _ & He)%validate_session_parts.
  unfold validate_evidence in He. apply rbind_unit_ok in He as [He _].
  apply refuse_if_ok in He. lia.
Qed.

(** A transition that keeps the evidence can not succeed on such a session. *)
Lemma oversized_session_stuck clock sid f st s :
  st.(sessions) !! sid = Some s -> MAX_EVIDENCE_REFS < Z.of_nat (length s.(ss_evidence)) ->
  (forall next, f s = Ok next -> next.(ss_evidence) = s.(ss_evidence)) ->
  exists e, store_transition clock sid f st = Err e.
Proof.
  intros Hs Hl Hf. destruct (store_transition clock sid f st) as [st'|e] eqn:E; [|eauto].
  apply store_transition_ok in E as (cur & next & _ & Hc & Hn & _ & Hv & _).
  rewrite Hs in Hc. injection Hc as <-. exfalso.
  apply (oversized_evidence_refused clock next); [|done]. by rewrite (Hf _ Hn).
Qed.

Lemma release_evidence_length s evidence :
  length (release s evidence).(ss_evidence) = (length s.(ss_evidence) + length evidence)%nat.
Proof.
  unfold release. cbn [set_field ss_evidence].
  rewrite (merge_sort_Permutation evidence_le), length_app. done.
Qed.

Lemma record_tactic_stuck clock sid tactic st s :
  st.(sessions) !! sid = Some s -> MAX_EVIDENCE_REFS < Z.of_nat (length s.(ss_evidence)) ->
  exists e, record_tactic clock sid tactic st = Err e.
Proof. intros. eapply oversized_session_stuck; eauto. intros next [= <-]. done. Qed.

Lemma freeze_profile_stuck clock sid profile st s :
  st.(sessions) !! sid = Some s -> MAX_EVIDENCE_REFS < Z.of_nat (length s.(ss_evidence)) ->
  exists e, freeze_profile clock sid profile st = Err e.
Proof.
  intros. eapply oversized_session_stuck; eauto. intros next Hn. unfold freeze in Hn.
  destruct (ss_effective_profile s); [case_bool_decide|]; by inv_res.
Qed.

(** [settle_committed_receipt] writes the settled state without validating it.
    From a valid session state and a valid committed receipt the store ends with a
    session whose evidence exceeds the 128-entry bound, and every later [record_tactic]
    or [freeze_profile] on that session fails. *)
Theorem settlement_can_brick_a_session :
  SkillSessionState_validate 1000000000 full_state = Ok tt /\
  RecoveryReceipt_validate full_receipt = Ok tt /\
  exists st', store_settle_committed_receipt full_receipt
                (MkSkillStateStore {[ 7%N := full_state ]} false) = Ok st' /\
    forall clock tactic profile,
      (exists e, record_tactic clock 7%N tactic st' = Err e) /\
      (exists e, freeze_profile clock 7%N profile st' = Err e).
Proof.
  split; [vm_compute; reflexivity|]. split; [vm_compute; reflexivity|].
  destruct (store_settle_committed_receipt full_receipt
    (MkSkillStateStore {[ 7%N := full_state ]} false)) as [st'|e] eqn:Es.
  2:{ exfalso. revert Es. vm_compute. discriminate. }
  exists st'. split; [done|]. intros clock tactic profile.
  apply store_settle_ok in Es as (cur & settled & _ & Hc & Hs & ->).
  change ((({[ 7%N := full_state ]} : gmap SessionId SkillSessionState) !! 7%N) = Some cur) in Hc.
  rewrite lookup_singleton_eq in Hc. injection Hc as <-.
  apply settle_state_ok in Hs as (_ & _ & [[Hp _]|(i & id & _ & _ & _ & _ & _ & ->)]);
    [exfalso; revert Hp; vm_compute; discriminate|].
  split; [eapply record_tactic_stuck|eapply freeze_profile_stuck];
    solve [apply lookup_insert_eq | rewrite release_evidence_length; vm_compute; reflexivity].
Qed.
