(* ===== verification/SkillRegistry.v ===== *)
(** * Skill commands, registry and router

    [crates/skill-runtime/src/command.rs], [registry.rs] and [router.rs]: the text
    commands, the registry of skills with its capability gates, and the router that
    parses, resolves and executes.  A [Skill] is a record of the trait's methods; [W] is
    the mutable world a skill's [execute] changes. *)

From S2P Require Import Prelude Text SkillTypes.
From Stdlib Require Import Ascii.

(** ** Commands *)

Inductive SkillCommandError :=
| EmptyCommand
| UnknownCommand (alias : string)
| UnknownAction (action : string)
| TrailingTokens.

(** [u8::is_ascii_whitespace]: space, tab, line feed, form feed, carriage return. *)
Definition is_ascii_whitespace (c : ascii) : bool :=
  (code c =? 32) || (code c =? 9) || (code c =? 10) || (code c =? 12) || (code c =? 13).

Definition split_ascii_whitespace (s : string) : list string :=
  filter (fun t => t <> "") (split_by is_ascii_whitespace [] s).

Definition parse_tokens (tokens : list string) : result SkillCommand SkillCommandError :=
  match tokens with
  | [] => Err EmptyCommand
  | _ :: _ :: _ :: _ => Err TrailingTokens
  | alias :: rest =>
      let action := head rest in
      if bool_decide (alias = "/ghost") then
        match action with
        | None => Ok (Ghost On)
        | Some a =>
            if bool_decide (a = "on") then Ok (Ghost On)
            else if bool_decide (a = "off") then Ok (Ghost Off)
            else if bool_decide (a = "status") then Ok (Ghost GhostStatus)
            else Err (UnknownAction a)
        end
      else if bool_decide (alias = "/zigzagzig") then
        match action with
        | None => Ok (ZigZagZig Run)
        | Some a =>
            if bool_decide (a = "run") then Ok (ZigZagZig Run)
            else if bool_decide (a = "status") then Ok (ZigZagZig ZigStatus)
            else if bool_decide (a = "stop") then Ok (ZigZagZig Stop)
            else Err (UnknownAction a)
        end
      else Err (UnknownCommand alias)
  end.

Definition parse_skill_command (input : string) : result SkillCommand SkillCommandError :=
  parse_tokens (split_ascii_whitespace input).

Definition command_alias (command : SkillCommand) : string :=
  match command with
  | Ghost _ => "/ghost"
  | ZigZagZig _ => "/zigzagzig"
  end.

(** The action word of a command, for the round trip. *)
Definition command_action (command : SkillCommand) : string :=
  match command with
  | Ghost On => "on" | Ghost Off => "off" | Ghost GhostStatus => "status"
  | ZigZagZig Run => "run" | ZigZagZig ZigStatus => "status" | ZigZagZig Stop => "stop"
  end.

(** ** Contexts *)

Record SkillContext := MkSkillContext {
  cx_required_capabilities : gset SkillCapability;
  cx_granted_capabilities : gset SkillCapability;
  cx_active_versions : gmap string string;
  cx_session_id : option SessionId;
  cx_ghost_profile_request : option SkillProfileRequest;
}.
#[export] Instance eta_SkillContext : Eta SkillContext := fun c =>
  MkSkillContext (cx_required_capabilities c) (cx_granted_capabilities c)
    (cx_active_versions c) (cx_session_id c) (cx_ghost_profile_request c).

Definition SkillContext_new (required : list SkillCapability) : SkillContext :=
  MkSkillContext (list_to_set required) (list_to_set required) ∅ None None.

Definition with_granted_capabilities (required granted : list SkillCapability) : SkillContext :=
  MkSkillContext (list_to_set required) (list_to_set granted) ∅ None None.

Definition with_active_versions (required : list SkillCapability)
    (active_versions : gmap string string) : SkillContext :=
  MkSkillContext (list_to_set required) (list_to_set required) active_versions None None.

Definition with_ghost (c : SkillContext) (session_id : SessionId)
    (profile_request : option SkillProfileRequest) : SkillContext :=
  c <| cx_session_id := Some session_id |> <| cx_ghost_profile_request := profile_request |>.

Definition with_session (c : SkillContext) (session_id : SessionId) : SkillContext :=
  c <| cx_session_id := Some session_id |>.

(** ** Skills and their registry *)

Inductive SkillRegistryError :=
| InvalidName (name : string)
| InvalidAlias (alias : string)
| InvalidVersion (version : string)
| DuplicateName (name : string)
| DuplicateAlias (alias : string)
| UnknownAlias (alias : string)
| MissingRequiredCapability (skill : string) (missing : gset SkillCapability)
| VersionConflict (skill : string)
| UngrantedCapabilities (skill : string) (ungranted : gset SkillCapability)
| UnsupportedSkillName (name : string)
| AliasMismatch (name expected actual : string).

Section Registry.
Context {W : Type}.

Record Skill := MkSkill {
  sk_name : string;
  sk_alias : string;
  sk_version : string;
  sk_capabilities : gset SkillCapability;
  sk_requested_capabilities : SkillCommand -> SkillContext ->
                              result (gset SkillCapability) SkillFailure;
  sk_execute : SkillCommand -> SkillContext -> ST W SkillFailure SkillOutcome;
}.

Record SkillRegistry := MkSkillRegistry {
  by_name : gmap string Skill;
  by_alias : gmap string string;
}.

Definition SkillRegistry_new : SkillRegistry := MkSkillRegistry ∅ ∅.

Definition validate_registered_pair (name alias : string) : result unit SkillRegistryError :=
  let? expected :=
    if bool_decide (name = "SkillGhost") then Ok "/ghost"
    else if bool_decide (name = "SkillZigZagZig") then Ok "/zigzagzig"
    else Err (UnsupportedSkillName name) in
  refuse_if (negb (bool_decide (alias = expected))) (AliasMismatch name expected alias).

Definition registry_validate_version (version : string) : result unit SkillRegistryError :=
  refuse_if (negb (registry_version_ok version)) (InvalidVersion version).

Definition register (skill : Skill) (reg : SkillRegistry)
    : result SkillRegistry SkillRegistryError :=
  validate_registered_pair skill.(sk_name) skill.(sk_alias) ;?
  registry_validate_version skill.(sk_version) ;?
  refuse_if (bool_decide (is_Some (reg.(by_name) !! skill.(sk_name))))
    (DuplicateName skill.(sk_name)) ;?
  refuse_if (bool_decide (is_Some (reg.(by_alias) !! skill.(sk_alias))))
    (DuplicateAlias skill.(sk_alias)) ;?
  Ok (MkSkillRegistry (<[skill.(sk_name) := skill]> reg.(by_name))
        (<[skill.(sk_alias) := skill.(sk_name)]> reg.(by_alias))).

Definition get_by_name (reg : SkillRegistry) (name : string) : option Skill :=
  reg.(by_name) !! name.

Definition get_by_alias (reg : SkillRegistry) (alias : string) : option Skill :=
  match reg.(by_alias) !! alias with
  | None => None
  | Some name => get_by_name reg name
  end.

Definition resolve_base (reg : SkillRegistry) (alias : string) (context : SkillContext)
    : result Skill SkillRegistryError :=
  let? skill := ok_or (get_by_alias reg alias) (UnknownAlias alias) in
  let missing := context.(cx_required_capabilities) ∖ skill.(sk_capabilities) in
  refuse_if (negb (bool_decide (missing = ∅)))
    (MissingRequiredCapability skill.(sk_name) missing) ;?
  refuse_if match context.(cx_active_versions) !! skill.(sk_name) with
            | Some version => negb (bool_decide (version = skill.(sk_version)))
            | None => false
            end (VersionConflict skill.(sk_name)) ;?
  Ok skill.

Definition registry_resolve := resolve_base.

Definition registry_failure (error : SkillRegistryError) : SkillFailure :=
  match error with
  | MissingRequiredCapability _ _ | UngrantedCapabilities _ _ => UnsupportedCapability
  | _ => ConfigurationConflict
  end.

Definition registry_execute (reg : SkillRegistry) (command : SkillCommand)
    (context : SkillContext) : ST W SkillFailure SkillOutcome :=
  do skill <- slift (map_err registry_failure
                      (resolve_base reg (command_alias command) context));
  do requested <- slift (skill.(sk_requested_capabilities) command context);
  slift (refuse_if (negb (bool_decide (requested ⊆ skill.(sk_capabilities)))
                    || negb (bool_decide (requested ⊆ context.(cx_granted_capabilities))))
           UnsupportedCapability) ;;
  skill.(sk_execute) command context.

(** ** The router *)

Record SkillCommandReceipt := MkSkillCommandReceipt {
  rc_alias : string;
  rc_skill_name : string;
  rc_skill_version : string;
  rc_outcome : SkillOutcome;
}.

Inductive SkillCommandRouterError :=
| RouterCommand (e : SkillCommandError)
| RouterRegistry (e : SkillRegistryError)
| RouterExecution (f : SkillFailure).

Definition router_execute (reg : SkillRegistry) (input : string) (context : SkillContext)
    : ST W SkillCommandRouterError SkillCommandReceipt :=
  do command <- slift (map_err RouterCommand (parse_skill_command input));
  let alias := command_alias command in
  do skill <- slift (map_err RouterRegistry (registry_resolve reg alias context));
  do outcome <- (fun w => let '(r, w') := registry_execute reg command context w in
                          (map_err RouterExecution r, w'));
  sret (MkSkillCommandReceipt alias skill.(sk_name) skill.(sk_version) outcome).

(** ** Properties *)

(** The registry's two maps agree, and every entry is one of the shipped pairs. *)
Definition registry_wf (reg : SkillRegistry) : Prop :=
  (forall alias name, reg.(by_alias) !! alias = Some name ->
     exists skill, reg.(by_name) !! name = Some skill
       /\ skill.(sk_name) = name /\ skill.(sk_alias) = alias)
  /\ map_Forall (fun name skill => skill.(sk_name) = name
       /\ validate_registered_pair skill.(sk_name) skill.(sk_alias) = Ok tt
       /\ registry_version_ok skill.(sk_version) = true
       /\ reg.(by_alias) !! skill.(sk_alias) = Some name) reg.(by_name).

Lemma registry_new_wf : registry_wf SkillRegistry_new.
Proof. split; [intros ? ? H; simpl in H; by rewrite lookup_empty in H|apply map_Forall_empty]. Qed.

(** Registration keeps the registry consistent: every alias leads to the skill
    registered under it, and only the shipped name/alias pairs with a clean version get
    in. *)
Theorem register_preserves_wf skill reg reg' :
  register skill reg = Ok reg' -> registry_wf reg ->
  registry_wf reg' /\ get_by_alias reg' skill.(sk_alias) = Some skill.
Proof.
  intros Hr [Ha Hn]. unfold register in Hr.
  apply rbind_unit_ok in Hr as [Hp Hr]. apply rbind_unit_ok in Hr as [Hv Hr].
  apply rbind_unit_ok in Hr as [Hdn Hr]. apply rbind_unit_ok in Hr as [Hda Hr].
  injection Hr as <-. apply refuse_if_ok, bool_decide_eq_false in Hdn, Hda.
  apply eq_None_not_Some in Hdn, Hda.
  unfold registry_validate_version in Hv. apply refuse_if_ok, negb_false_iff in Hv.
  split; [split|].
  - intros alias name Hl. cbn [by_alias by_name] in *.
    apply lookup_insert_Some in Hl as [[<- <-]|[Hne Hl]].
    { exists skill. rewrite lookup_insert_eq. done. }
    destruct (Ha _ _ Hl) as (sk & Hs & ? & ?). exists sk. split; [|done].
    rewrite lookup_insert_ne; [done|]. intros He; rewrite He in Hdn; congruence.
  - cbn [by_alias by_name] in *. apply map_Forall_insert_2.
    { rewrite lookup_insert_eq. done. }
    intros name sk Hs. destruct (Hn _ _ Hs) as (? & ? & ? & Hal). split_and!; auto.
    rewrite lookup_insert_ne; [done|]. intros He. rewrite He in Hda. congruence.
  - unfold get_by_alias, get_by_name. cbn [by_alias by_name]. by rewrite !lookup_insert_eq.
Qed.

(** The capability gates.  A skill's [execute] runs only when the skill was found
    under the command's alias, offers everything the context requires, has the version
    the session runs, and asks for nothing beyond its own and the granted capabilities;
    in every other case the world is untouched and the call fails. *)
Theorem registry_execute_gated reg command context w r w' :
  registry_execute reg command context w = (r, w') ->
  (exists e, r = Err e /\ w' = w) \/
  (exists skill requested,
     get_by_alias reg (command_alias command) = Some skill
     /\ context.(cx_required_capabilities) ⊆ skill.(sk_capabilities)
     /\ (forall v, context.(cx_active_versions) !! skill.(sk_name) = Some v ->
           v = skill.(sk_version))
     /\ skill.(sk_requested_capabilities) command context = Ok requested
     /\ requested ⊆ skill.(sk_capabilities) ∩ context.(cx_granted_capabilities)
     /\ (r, w') = skill.(sk_execute) command context w).
Proof.
  unfold registry_execute, sbind, slift. intros H.
  destruct (resolve_base reg _ context) as [skill|e] eqn:Eb; simpl in H; [|inv_res; eauto].
  destruct (sk_requested_capabilities skill command context) as [req|e] eqn:Er;
    [|inv_res; eauto].
  destruct (refuse_if _ _) as [[]|e] eqn:Eg; [|inv_res; eauto].
  right. exists skill, req.
  apply refuse_if_ok in Eg. rewrite orb_false_iff, !negb_false_iff, !bool_decide_eq_true in Eg.
  unfold resolve_base in Eb. apply rbind_ok in Eb as (sk & Hs & Eb). apply ok_or_ok in Hs.
  apply rbind_unit_ok in Eb as [Hm Eb]. apply rbind_unit_ok in Eb as [Hv Eb].
  injection Eb as ->. apply refuse_if_ok, negb_false_iff, bool_decide_eq_true in Hm.
  apply refuse_if_ok in Hv. split_and!; auto.
  - intros x Hx. destruct (decide (x ∈ sk_capabilities skill)); [done|]. set_solver.
  - intros v Hv'. rewrite Hv' in Hv. by apply negb_false_iff, bool_decide_eq_true in Hv.
  - set_solver.
Qed.

End Registry.

Arguments Skill : clear implicits.
Arguments SkillRegistry : clear implicits.

(** A command written as its alias and its action word parses back, an alias alone
    means switching the skill on, and an accepted line has one or two words and starts
    with the alias of the command it denotes. *)
Theorem parse_skill_command_spec :
  (forall c, parse_skill_command (command_alias c +:+ " " +:+ command_action c) = Ok c)
  /\ (forall input c, parse_skill_command input = Ok c ->
       split_ascii_whitespace input = [command_alias c; command_action c]
       \/ (split_ascii_whitespace input = [command_alias c]
           /\ (c = Ghost On \/ c = ZigZagZig Run))).
Proof.
  split.
  - intros [[]|[]]; vm_compute; reflexivity.
  - intros input c. unfold parse_skill_command.
    destruct (split_ascii_whitespace input) as [|alias [|a [|]]]; simpl; try done;
      repeat case_bool_decide; intros [= <-]; subst; auto.
Qed.
