(* ===== verification/Ghost.v ===== *)
(** * SkillGhost and the ZigZagZig controller

    [crates/skill-runtime/src/ghost.rs] and the controller of [zigzagzig.rs].  Both hold
    the same [Arc<SkillStateStore>]; [SkillWorld] is that shared state: the store, the
    Ghost profiles live in this process (one gate per session, empty until switched on)
    and the live strategies.  Every operation holds its locks to its end, so one
    operation is one step. *)

From S2P Require Import Prelude Text SkillTypes Receipt ZigZag SkillStore SkillRegistry.

Record EffectiveSkillProfile := MkEffectiveSkillProfile {
  ef_profile : SkillProfile;
  ef_unsupported_optional : gset SkillCapability;
  ef_restart_required : bool;
}.
#[export] Instance eta_EffectiveSkillProfile : Eta EffectiveSkillProfile := fun e =>
  MkEffectiveSkillProfile (ef_profile e) (ef_unsupported_optional e) (ef_restart_required e).

(** The methods of the [SkillEngineAdapter] trait. *)
Record SkillEngineAdapter := MkSkillEngineAdapter {
  ad_engine : SkillBrowserEngine;
  ad_resolve_profile : SkillProfileRequest -> result EffectiveSkillProfile SkillFailure;
  ad_prepare_restart : SessionId -> result unit SkillFailure;
}.

Record SkillGhostStatus := MkSkillGhostStatus {
  gs_active : bool;
  gs_profile : option SkillProfile;
  gs_unsupported_optional : gset SkillCapability;
  gs_restart_required : bool;
}.

Record SkillGhostResult := MkSkillGhostResult {
  gr_outcome : SkillOutcome;
  gr_status : SkillGhostStatus;
}.

Record LiveGhostProfile := MkLiveGhostProfile {
  lg_active : bool;
  lg_effective : EffectiveSkillProfile;
}.

Record SkillWorld := MkSkillWorld {
  w_store : SkillStateStore;
  w_ghost : gmap SessionId (option LiveGhostProfile);
  w_zig : gmap SessionId SkillZigZagZig;
}.
#[export] Instance eta_SkillWorld : Eta SkillWorld := fun w =>
  MkSkillWorld (w_store w) (w_ghost w) (w_zig w).

Definition GHOST_NAME : string := "SkillGhost".
Definition GHOST_VERSION : string := "1.0.0".
Definition ZIGZAGZIG_NAME : string := "SkillZigZagZig".
Definition ZIGZAGZIG_VERSION : string := "1.1.0".

Definition store_failure (_ : SkillStateStoreError) : SkillFailure := ConfigurationConflict.

(** Runs a store operation on the world's store. *)
Definition on_store (f : SkillStateStore -> result SkillStateStore SkillStateStoreError)
    : ST SkillWorld SkillFailure unit :=
  fun w => match f w.(w_store) with
           | Ok st => (Ok tt, w <| w_store := st |>)
           | Err e => (Err (store_failure e), w)
           end.

Definition read_store (sid : SessionId) : ST SkillWorld SkillFailure SkillSessionState :=
  fun w => (map_err store_failure (store_get sid w.(w_store)), w).

Definition status_for (live : LiveGhostProfile) : SkillGhostStatus :=
  MkSkillGhostStatus live.(lg_active) (Some live.(lg_effective).(ef_profile))
    live.(lg_effective).(ef_unsupported_optional) live.(lg_effective).(ef_restart_required).

Definition result_for (live : LiveGhostProfile) (stopped : bool)
    : result SkillGhostResult SkillFailure :=
  let status := status_for live in
  let? outcome := map_err (fun _ => ConfigurationConflict)
    (if stopped then SkillOutcome_stopped []
     else if bool_decide (live.(lg_effective).(ef_unsupported_optional) = ∅)
     then SkillOutcome_applied []
     else SkillOutcome_degraded live.(lg_effective).(ef_unsupported_optional) []) in
  Ok (MkSkillGhostResult outcome status).

Definition stopped_result (status : SkillGhostStatus) : result SkillGhostResult SkillFailure :=
  let? outcome := map_err (fun _ => ConfigurationConflict) (SkillOutcome_stopped []) in
  Ok (MkSkillGhostResult outcome status).

Definition status_outcome (status : SkillGhostStatus) : result SkillOutcome SkillFailure :=
  map_err (fun _ => ConfigurationConflict)
    (if negb status.(gs_active) then SkillOutcome_stopped []
     else if bool_decide (status.(gs_unsupported_optional) = ∅) then SkillOutcome_applied []
     else SkillOutcome_degraded status.(gs_unsupported_optional) []).

(** The adapters in the order [resolve] asks them: engine by engine. *)
Definition candidates (adapters : list SkillEngineAdapter) (request : SkillProfileRequest)
    : list SkillEngineAdapter :=
  let engines := match request.(spr_preferred_engines) with
                 | [] => ad_engine <$> adapters
                 | preferred => preferred
                 end in
  engines ≫= fun engine => filter (fun a => a.(ad_engine) = engine) adapters.

Fixpoint resolve_scan (request : SkillProfileRequest) (unsupported : bool)
    (l : list SkillEngineAdapter) : result EffectiveSkillProfile SkillFailure :=
  match l with
  | [] => Err (if unsupported then UnsupportedCapability else EngineUnavailable)
  | adapter :: l' =>
      match adapter.(ad_resolve_profile) request with
      | Ok effective => Ok effective
      | Err UnsupportedCapability => resolve_scan request true l'
      | Err EngineUnavailable => resolve_scan request unsupported l'
      | Err error => Err error
      end
  end.

Definition ghost_resolve (adapters : list SkillEngineAdapter) (request : SkillProfileRequest)
    : result EffectiveSkillProfile SkillFailure :=
  resolve_scan request false (candidates adapters request).

(** [session_gate]: creates the session's gate when it is missing. *)
Definition session_gate (sid : SessionId) : ST SkillWorld SkillFailure (option LiveGhostProfile) :=
  fun w => match w.(w_ghost) !! sid with
           | Some live => (Ok live, w)
           | None => (Ok None, w <| w_ghost := <[sid := None]> w.(w_ghost) |>)
           end.

Definition existing_session_gate (sid : SessionId)
    : ST SkillWorld SkillFailure (option LiveGhostProfile) :=
  fun w => (ok_or (w.(w_ghost) !! sid) ConfigurationConflict, w).

Definition set_gate (sid : SessionId) (live : option LiveGhostProfile)
    : ST SkillWorld SkillFailure unit :=
  smodify (fun w => w <| w_ghost := <[sid := live]> w.(w_ghost) |>).

(** The conflict test of [on]. *)
Definition ghost_conflict (current : LiveGhostProfile) (effective : EffectiveSkillProfile)
    : bool :=
  current.(lg_effective).(ef_restart_required)
  || negb (bool_decide (current.(lg_effective).(ef_profile) = effective.(ef_profile)))
  || negb (bool_decide (current.(lg_effective).(ef_unsupported_optional)
                        = effective.(ef_unsupported_optional))).

(** The closure of the store transition in [on]. *)
Definition ghost_on_transition (effective : EffectiveSkillProfile) (state : SkillSessionState)
    : result SkillSessionState SkillStateStoreError :=
  let? s := freeze effective.(ef_profile) state in
  Ok (s <| ss_active_versions := <[GHOST_NAME := GHOST_VERSION]> s.(ss_active_versions) |>).

Section Ghost.
Variable adapters : list SkillEngineAdapter.

Definition ghost_on (clock : Time) (context : SkillContext)
    : ST SkillWorld SkillFailure SkillGhostResult :=
  do session <- slift (ok_or context.(cx_session_id) ConfigurationConflict);
  do request <- slift (ok_or context.(cx_ghost_profile_request) ConfigurationConflict);
  slift (refuse_if (negb (bool_decide (request.(spr_required) ∪ request.(spr_optional)
                                       ⊆ context.(cx_granted_capabilities))))
           UnsupportedCapability) ;;
  do state <- read_store session;
  do live <- session_gate session;
  do effective <- slift (ghost_resolve adapters request);
  slift (refuse_if match live with
                   | Some current => ghost_conflict current effective
                   | None => false
                   end ConfigurationConflict) ;;
  on_store (store_transition clock session (ghost_on_transition effective)) ;;
  let live_profile := MkLiveGhostProfile true (effective <| ef_restart_required := false |>) in
  do result <- slift (result_for live_profile false);
  set_gate session (Some live_profile) ;;
  sret result.

Definition ghost_off (clock : Time) (context : SkillContext)
    : ST SkillWorld SkillFailure SkillGhostResult :=
  do session <- slift (ok_or context.(cx_session_id) ConfigurationConflict);
  do live <- existing_session_gate session;
  do current <- slift (ok_or live ConfigurationConflict);
  on_store (store_transition clock session (fun state =>
    Ok (state <| ss_active_versions := delete GHOST_NAME state.(ss_active_versions) |>))) ;;
  let current' := MkLiveGhostProfile false
                    (current.(lg_effective) <| ef_restart_required := true |>) in
  set_gate session (Some current') ;;
  slift (result_for current' true).

Definition ghost_status (context : SkillContext)
    : ST SkillWorld SkillFailure SkillGhostStatus :=
  do session <- slift (ok_or context.(cx_session_id) ConfigurationConflict);
  do w <- sget;
  match w.(w_ghost) !! session with
  | Some (Some current) => sret (status_for current)
  | _ =>
      do state <- read_store session;
      sret (MkSkillGhostStatus (bool_decide (is_Some (state.(ss_active_versions) !! GHOST_NAME)))
              state.(ss_effective_profile) ∅ false)
  end.

Definition replace_session (clock : Time) (context : SkillContext)
    : ST SkillWorld SkillFailure SkillGhostResult :=
  do session <- slift (ok_or context.(cx_session_id) ConfigurationConflict);
  do live <- existing_session_gate session;
  do current <- slift (ok_or live ConfigurationConflict);
  slift (refuse_if (current.(lg_active) || negb current.(lg_effective).(ef_restart_required))
           ConfigurationConflict) ;;
  do adapter <- slift (ok_or
    (List.find (fun a => bool_decide (a.(ad_engine)
                          = current.(lg_effective).(ef_profile).(sp_engine))) adapters)
    EngineUnavailable);
  slift (adapter.(ad_prepare_restart) session) ;;
  on_store (store_transition clock session (fun state =>
    Ok (state <| ss_active_versions := delete GHOST_NAME state.(ss_active_versions) |>
              <| ss_effective_profile := None |>))) ;;
  set_gate session None ;;
  slift (stopped_result (MkSkillGhostStatus false None ∅ false)).

Definition ghost_capabilities : gset SkillCapability :=
  {[ EngineSelection; ProfilePersistence; Locale; Timezone; Viewport;
     UserAgentConsistency; InteractionCadence ]}.

Definition ghost_requested_capabilities (command : SkillCommand) (context : SkillContext)
    : result (gset SkillCapability) SkillFailure :=
  match command with
  | Ghost On =>
      let? request := ok_or context.(cx_ghost_profile_request) ConfigurationConflict in
      Ok (request.(spr_required) ∪ request.(spr_optional))
  | Ghost Off | Ghost GhostStatus => Ok ∅
  | ZigZagZig _ => Err ConfigurationConflict
  end.

Definition ghost_execute (clock : Time) (command : SkillCommand) (context : SkillContext)
    : ST SkillWorld SkillFailure SkillOutcome :=
  match command with
  | Ghost On => do r <- ghost_on clock context; sret r.(gr_outcome)
  | Ghost Off => do r <- ghost_off clock context; sret r.(gr_outcome)
  | Ghost GhostStatus => do s <- ghost_status context; slift (status_outcome s)
  | ZigZagZig _ => sfail ConfigurationConflict
  end.

Definition ghost_skill (clock : Time) : Skill SkillWorld :=
  MkSkill GHOST_NAME "/ghost" GHOST_VERSION ghost_capabilities
    ghost_requested_capabilities (ghost_execute clock).

End Ghost.

(** ** The ZigZagZig controller *)

Section Controller.
Variable per_tactic_budget_ms : Z.
Variable compatible_engines : list SkillBrowserEngine.

Definition zig_outcome (r : result SkillOutcome string) : result SkillOutcome SkillFailure :=
  map_err (fun _ => ConfigurationConflict) r.

Definition zig_strategy (sid : SessionId) (w : SkillWorld) : result SkillZigZagZig SkillFailure :=
  ok_or (w.(w_zig) !! sid) ConfigurationConflict.

Definition zig_run (clock : Time) (context : SkillContext)
    : ST SkillWorld SkillFailure SkillOutcome :=
  do session_id <- slift (ok_or context.(cx_session_id) ConfigurationConflict);
  do w <- sget;
  if bool_decide (is_Some (w.(w_zig) !! session_id)) then
    slift (zig_outcome (SkillOutcome_applied []))
  else
    on_store (store_transition clock session_id (fun state =>
      Ok (state <| ss_active_versions :=
            <[ZIGZAGZIG_NAME := ZIGZAGZIG_VERSION]> state.(ss_active_versions) |>))) ;;
    do state <- read_store session_id;
    do strategy <- slift (SkillZigZagZig_new clock state per_tactic_budget_ms
                            compatible_engines);
    smodify (fun w => w <| w_zig := <[session_id := strategy]> w.(w_zig) |>) ;;
    slift (zig_outcome (SkillOutcome_applied [])).

(** [live.remove] takes the strategy out before the store is written. *)
Definition zig_stop (clock : Time) (context : SkillContext)
    : ST SkillWorld SkillFailure SkillOutcome :=
  do session_id <- slift (ok_or context.(cx_session_id) ConfigurationConflict);
  do w <- sget;
  do strategy <- slift (ok_or (w.(w_zig) !! session_id) ConfigurationConflict);
  smodify (fun w => w <| w_zig := delete session_id w.(w_zig) |>) ;;
  on_store (store_transition clock session_id (fun state =>
    Ok (state <| ss_active_versions := delete ZIGZAGZIG_NAME state.(ss_active_versions) |>))) ;;
  slift (zig_outcome (SkillOutcome_stopped [])).

Definition zig_status (context : SkillContext) : ST SkillWorld SkillFailure SkillOutcome :=
  do session_id <- slift (ok_or context.(cx_session_id) ConfigurationConflict);
  do w <- sget;
  if bool_decide (is_Some (w.(w_zig) !! session_id))
  then slift (zig_outcome (SkillOutcome_applied []))
  else slift (zig_outcome (SkillOutcome_stopped [])).

Definition zig_capabilities : gset SkillCapability := {[ EngineSelection; ProfilePersistence ]}.

Definition zig_execute (clock : Time) (command : SkillCommand) (context : SkillContext)
    : ST SkillWorld SkillFailure SkillOutcome :=
  match command with
  | ZigZagZig Run => zig_run clock context
  | ZigZagZig ZigStatus => zig_status context
  | ZigZagZig Stop => zig_stop clock context
  | Ghost _ => sfail ConfigurationConflict
  end.

(** The controller keeps the trait's default [requested_capabilities]. *)
Definition zig_skill (clock : Time) : Skill SkillWorld :=
  MkSkill ZIGZAGZIG_NAME "/zigzagzig" ZIGZAGZIG_VERSION zig_capabilities
    (fun _ _ => Ok zig_capabilities) (zig_execute clock).

End Controller.

(** ** Facts *)

Lemma capability_sets_small (s : gset SkillCapability) : (size s <= 7)%nat.
Proof.
  transitivity (size (list_to_set all_capabilities : gset SkillCapability)).
  - apply subseteq_size. intros [] _; apply elem_of_list_to_set; repeat constructor.
  - vm_compute. lia.
Qed.

(** The outcome of [result_for] is always within the wire bounds, so [on] never fails
    after it has written the store. *)
Lemma result_for_total live stopped :
  exists r, result_for live stopped = Ok r /\ r.(gr_status) = status_for live.
Proof.
  unfold result_for, SkillOutcome_degraded, validate_capabilities.
  pose proof (capability_sets_small (ef_unsupported_optional (lg_effective live))).
  replace (MAX_CAPABILITIES <? _) with false by (symmetry; apply Z.ltb_ge; unfold MAX_CAPABILITIES; lia).
  destruct stopped; [simpl; eauto|]. case_bool_decide; simpl; eauto.
Qed.

Lemma on_store_cases f w r w' :
  on_store f w = (r, w') ->
  (exists e, r = Err e /\ w' = w) \/
  (exists st, f w.(w_store) = Ok st /\ r = Ok tt /\ w' = w <| w_store := st |>).
Proof. unfold on_store. destruct (f (w_store w)); intros [= <- <-]; eauto 10. Qed.

(** Steps through the first bind of a computation: a pure failure ends it. *)
Ltac bind_step H x E :=
  unfold sbind at 1 in H;
  match type of H with
  | context [slift (ok_or ?o _) _] => destruct o as [x|] eqn:E; cbn [slift ok_or] in H
  | context [slift (refuse_if ?c _) _] => destruct c eqn:E; cbn [slift refuse_if] in H
  | context [slift ?e _] => destruct e as [x|] eqn:E; unfold slift at 1 in H
  end.

Section GhostFacts.
Variable adapters : list SkillEngineAdapter.

(** What [on] can do: nothing, create the session's empty gate, or switch the profile on. *)
Lemma ghost_on_cases clock context w r w' :
  ghost_on adapters clock context w = (r, w') ->
  (exists e, r = Err e /\ (w' = w \/ exists sid, w.(w_ghost) !! sid = None
     /\ w' = w <| w_ghost := <[sid := None]> w.(w_ghost) |>)) \/
  (exists sid request effective st' result,
     let live := MkLiveGhostProfile true (effective <| ef_restart_required := false |>) in
     context.(cx_session_id) = Some sid
     /\ context.(cx_ghost_profile_request) = Some request
     /\ request.(spr_required) ∪ request.(spr_optional) ⊆ context.(cx_granted_capabilities)
     /\ ghost_resolve adapters request = Ok effective
     /\ (forall current, w.(w_ghost) !! sid = Some (Some current) ->
           ghost_conflict current effective = false)
     /\ store_transition clock sid (ghost_on_transition effective) w.(w_store) = Ok st'
     /\ r = Ok result /\ result.(gr_status) = status_for live
     /\ w' = MkSkillWorld st' (<[sid := Some live]> w.(w_ghost)) w.(w_zig)).
Proof.
  intros H. unfold ghost_on in H.
  bind_step H u Eu; [|inv_res; eauto]. bind_step H req Ereq; [|inv_res; eauto].
  bind_step H x E1; [inv_res; eauto|]. apply negb_false_iff, bool_decide_eq_true in E1.
  unfold sbind at 1 in H. unfold read_store in H.
  destruct (store_get u (w_store w)) as [s|e]; cbn [map_err] in H; [|inv_res; eauto].
  unfold sbind at 1 in H. unfold session_gate in H.
  assert (exists live w1,
    match w_ghost w !! u with
    | Some live => (Ok live, w)
    | None => (Ok None, w <| w_ghost := <[u:=None]> (w_ghost w) |>)
    end = (Ok live : result _ SkillFailure, w1)
    /\ (w_ghost w !! u = Some live /\ w1 = w \/ w_ghost w !! u = None /\ live = None
        /\ w1 = w <| w_ghost := <[u:=None]> (w_ghost w) |>)) as (live & w1 & Hg & Hw1).
  { destruct (w_ghost w !! u); eauto 10. }
  rewrite Hg in H. clear Hg.
  assert (Hnone : forall e : SkillFailure, (exists e', @Err SkillGhostResult _ e = Err e' /\ (w1 = w \/ exists sid,
     w_ghost w !! sid = None /\ w1 = w <| w_ghost := <[sid := None]> (w_ghost w) |>))).
  { intros e. exists e. split; [done|]. destruct Hw1 as [[_ ->]|(? & _ & ->)]; eauto. }
  bind_step H eff Ef; [|injection H as <- <-; left; apply Hnone].
  bind_step H x Ec; [injection H as <- <-; left; apply Hnone|].
  unfold sbind at 1 in H.
  destruct (on_store _ w1) as [r2 w2] eqn:Es.
  apply on_store_cases in Es as [(e & -> & ->)|(st & Ht & -> & ->)].
  { injection H as <- <-. left. apply Hnone. }
  destruct (result_for_total (MkLiveGhostProfile true (eff <| ef_restart_required := false |>)) false)
    as (res & Hr & Hst).
  unfold sbind in H. cbn zeta in H. rewrite Hr in H. cbn in H. injection H as <- <-. right.
  exists u, req, eff, st, res. split_and!; auto.
  - intros cur Hc. destruct Hw1 as [[Hl _]|(Hl & _)]; [|congruence].
    rewrite Hl in Hc. injection Hc as ->. done.
  - destruct Hw1 as [[_ ->]|(_ & _ & ->)]; exact Ht.
  - destruct Hw1 as [[_ ->]|(_ & _ & ->)]; simpl; [done|]. by rewrite insert_insert_eq.
Qed.

Lemma ghost_off_cases clock context w r w' :
  ghost_off clock context w = (r, w') ->
  (exists e, r = Err e /\ w' = w) \/
  (exists sid current st' result,
     let live := MkLiveGhostProfile false
                   (current.(lg_effective) <| ef_restart_required := true |>) in
     context.(cx_session_id) = Some sid /\ w.(w_ghost) !! sid = Some (Some current)
     /\ store_transition clock sid (fun state =>
          Ok (state <| ss_active_versions := delete GHOST_NAME state.(ss_active_versions) |>))
          w.(w_store) = Ok st'
     /\ r = Ok result /\ result.(gr_status) = status_for live
     /\ w' = MkSkillWorld st' (<[sid := Some live]> w.(w_ghost)) w.(w_zig)).
Proof.
  intros H. unfold ghost_off in H.
  bind_step H u Eu; [|inv_res; eauto]. unfold sbind at 1 in H. unfold existing_session_gate in H.
  destruct (w_ghost w !! u) as [live|] eqn:Eg; cbn [ok_or] in H; [|inv_res; eauto].
  bind_step H l El; [|inv_res; eauto]. unfold sbind at 1 in H.
  destruct (on_store _ w) as [r2 w2] eqn:Es.
  apply on_store_cases in Es as [(e & -> & ->)|(st & Ht & -> & ->)]; [inv_res; eauto|].
  destruct (result_for_total (MkLiveGhostProfile false
    (l.(lg_effective) <| ef_restart_required := true |>)) true) as (res & Hr & Hst).
  cbn zeta in H. unfold sbind, set_gate, smodify, slift in H. rewrite Hr in H.
  injection H as <- <-. right. subst. exists u, l, st, res. done.
Qed.

Lemma replace_session_cases clock context w r w' :
  replace_session adapters clock context w = (r, w') ->
  (exists e, r = Err e /\ w' = w) \/
  (exists sid current adapter st' result,
     context.(cx_session_id) = Some sid /\ w.(w_ghost) !! sid = Some (Some current)
     /\ current.(lg_active) = false /\ current.(lg_effective).(ef_restart_required) = true
     /\ adapter ∈ adapters
     /\ adapter.(ad_engine) = current.(lg_effective).(ef_profile).(sp_engine)
     /\ adapter.(ad_prepare_restart) sid = Ok tt
     /\ store_transition clock sid (fun state =>
          Ok (state <| ss_active_versions := delete GHOST_NAME state.(ss_active_versions) |>
                    <| ss_effective_profile := None |>)) w.(w_store) = Ok st'
     /\ r = Ok result
     /\ w' = MkSkillWorld st' (<[sid := None]> w.(w_ghost)) w.(w_zig)).
Proof.
  intros H. unfold replace_session in H.
  bind_step H u Eu; [|inv_res; eauto]. unfold sbind at 1 in H. unfold existing_session_gate in H.
  destruct (w_ghost w !! u) as [live|] eqn:Eg; cbn [ok_or] in H; [|inv_res; eauto].
  bind_step H l El; [|inv_res; eauto]. bind_step H x E1; [inv_res; eauto|].
  apply orb_false_iff in E1 as [Ha Hr]. apply negb_false_iff in Hr.
  bind_step H ad Ead; [|inv_res; eauto]. apply List.find_some in Ead as [Hin He].
  apply bool_decide_eq_true in He. apply list_elem_of_In in Hin.
  bind_step H y Ep; [|inv_res; eauto]. unfold sbind at 1 in H.
  destruct (on_store _ w) as [r2 w2] eqn:Es.
  apply on_store_cases in Es as [(e & -> & ->)|(st & Ht & -> & ->)]; [inv_res; eauto|].
  injection H as <- <-. right. subst. destruct y.
  eexists u, l, ad, st, _. split_and!; eauto.
Qed.

Lemma ghost_status_pure context w : (ghost_status context w).2 = w.
Proof.
  unfold ghost_status, sbind, slift. destruct (cx_session_id context) as [u|]; [|done]. simpl.
  destruct (w_ghost w !! u) as [[]|]; [done|..]; unfold read_store;
    destruct (store_get u (w_store w)); done.
Qed.
End GhostFacts.

(** ** The world as a state machine *)

Section World.
Variable adapters : list SkillEngineAdapter.
Variable per_tactic_budget_ms : Z.
Variable compatible_engines : list SkillBrowserEngine.
Context `{ReceiptCodec}.

(** The tags tell which session a step replaces. *)
Inductive world_step (w : SkillWorld) : option SessionId -> SkillWorld -> Prop :=
| ws_ghost clock command context r w' :
    ghost_execute adapters clock command context w = (r, w') -> world_step w None w'
| ws_replace clock context r w' :
    replace_session adapters clock context w = (r, w') -> world_step w context.(cx_session_id) w'
| ws_zig clock command context r w' :
    zig_execute per_tactic_budget_ms compatible_engines clock command context w = (r, w') ->
    world_step w None w'
| ws_insert clock s st :
    store_insert clock s w.(w_store) = Ok st -> world_step w None (w <| w_store := st |>)
| ws_record_tactic clock sid t st :
    record_tactic clock sid t w.(w_store) = Ok st -> world_step w None (w <| w_store := st |>)
| ws_freeze clock sid p st :
    freeze_profile clock sid p w.(w_store) = Ok st -> world_step w None (w <| w_store := st |>)
| ws_settle receipt st :
    store_settle_committed_receipt receipt w.(w_store) = Ok st ->
    world_step w None (w <| w_store := st |>).

Inductive world_steps (sid : SessionId) : SkillWorld -> SkillWorld -> Prop :=
| wss_refl w : world_steps sid w w
| wss_step w tag w' w'' :
    world_step w tag w' -> tag <> Some sid -> world_steps sid w' w'' -> world_steps sid w w''.

(** What a live profile says about the store. *)
Definition live_matches (st : SkillStateStore) (sid : SessionId) (live : LiveGhostProfile) : Prop :=
  live.(lg_active) = negb live.(lg_effective).(ef_restart_required) /\
  exists s, st.(sessions) !! sid = Some s
    /\ s.(ss_effective_profile) = Some live.(lg_effective).(ef_profile)
    /\ s.(ss_active_versions) !! GHOST_NAME =
         if live.(lg_active) then Some GHOST_VERSION else None.

Definition ghost_inv (w : SkillWorld) : Prop :=
  forall sid live, w.(w_ghost) !! sid = Some (Some live) -> live_matches w.(w_store) sid live.

(** A store change that keeps every frozen profile and every Ghost version. *)
Definition quiet (st st' : SkillStateStore) : Prop :=
  forall sid s p, st.(sessions) !! sid = Some s -> s.(ss_effective_profile) = Some p ->
  exists s', st'.(sessions) !! sid = Some s' /\ s'.(ss_effective_profile) = Some p
    /\ s'.(ss_active_versions) !! GHOST_NAME = s.(ss_active_versions) !! GHOST_NAME.

Lemma quiet_inv w w' :
  quiet w.(w_store) w'.(w_store) -> w'.(w_ghost) = w.(w_ghost) -> ghost_inv w -> ghost_inv w'.
Proof.
  intros Hq Hg Hi sid live Hl. rewrite Hg in Hl. destruct (Hi _ _ Hl) as (Ha & s & Hs & Hp & Hv).
  destruct (Hq _ _ _ Hs Hp) as (s' & Hs' & Hp' & Hv'). split; [done|]. exists s'.
  by rewrite Hv'.
Qed.

(** A store change at one session leaves the live profiles of the others matched. *)
Lemma live_matches_other clock sid f st st' sid' live :
  store_transition clock sid f st = Ok st' -> sid' <> sid ->
  live_matches st sid' live -> live_matches st' sid' live.
Proof.
  intros Ht Hne (Ha & s & Hs & Hp). split; [done|]. exists s.
  by rewrite (store_transition_lookup _ _ _ _ _ _ Ht Hne).
Qed.

Lemma transition_quiet clock sid f st st' :
  store_transition clock sid f st = Ok st' ->
  (forall s s' p, f s = Ok s' -> s.(ss_effective_profile) = Some p ->
     s'.(ss_effective_profile) = Some p
     /\ s'.(ss_active_versions) !! GHOST_NAME = s.(ss_active_versions) !! GHOST_NAME) ->
  quiet st st'.
Proof.
  intros (cur & next & _ & Hc & Hn & _ & _ & ->)%store_transition_ok Hf sid' s p Hs Hp. simpl.
  destruct (decide (sid' = sid)) as [->|Hne].
  - exists next. rewrite lookup_insert_eq. rewrite Hc in Hs. injection Hs as <-.
    destruct (Hf _ _ _ Hn Hp). done.
  - exists s. by rewrite lookup_insert_ne.
Qed.

Lemma quiet_refl st : quiet st st.
Proof. intros sid s p Hs Hp. eauto. Qed.

Lemma insert_quiet clock s st st' : store_insert clock s st = Ok st' -> quiet st st'.
Proof.
  unfold store_insert. intros Hi. apply rbind_unit_ok in Hi as [_ Hi].
  apply rbind_ok in Hi as (m & Hm & Hi). apply lock_sessions_ok in Hm as [_ ->].
  apply rbind_unit_ok in Hi as [Hd Hi]. injection Hi as <-.
  apply refuse_if_ok, bool_decide_eq_false, eq_None_not_Some in Hd.
  intros sid s' p Hs Hp. exists s'. simpl. rewrite lookup_insert_ne; [done|]. congruence.
Qed.

Lemma settle_quiet r st st' : store_settle_committed_receipt r st = Ok st' -> quiet st st'.
Proof.
  intros (cur & settled & _ & Hc & Hs & ->)%store_settle_ok sid s p Hl Hp. simpl.
  apply settle_keeps_identity in Hs as (_ & Hep & Hav).
  destruct (decide (sid = r.(rr_identity).(rci_session_id))) as [->|Hne].
  - exists settled. rewrite lookup_insert_eq, Hep, Hav. rewrite Hc in Hl. by injection Hl as ->.
  - exists s. by rewrite lookup_insert_ne.
Qed.

Lemma freeze_quiet clock sid p st st' : freeze_profile clock sid p st = Ok st' -> quiet st st'.
Proof.
  intros Ht. eapply transition_quiet; [exact Ht|]. intros s s' q Hf Hq. unfold freeze in Hf.
  rewrite Hq in Hf. case_bool_decide; by inv_res.
Qed.

(** The ZigZagZig controller touches only its own version entry. *)
Lemma zig_execute_quiet clock command context w r w' :
  zig_execute per_tactic_budget_ms compatible_engines clock command context w = (r, w') ->
  quiet w.(w_store) w'.(w_store) /\ w'.(w_ghost) = w.(w_ghost).
Proof.
  assert (Hs : forall f w r w', on_store f w = (r, w') ->
    (forall st, f w.(w_store) = Ok st -> quiet w.(w_store) st) ->
    quiet w.(w_store) w'.(w_store) /\ w'.(w_ghost) = w.(w_ghost)).
  { intros f w0 r0 w0' [(e & -> & ->)|(st & Ht & -> & ->)]%on_store_cases Hf;
      simpl; eauto using quiet_refl. }
  intros Hx. destruct command as [c|[]]; simpl in Hx; [unfold sfail in Hx; by inv_res; eauto using quiet_refl|..].
  - unfold zig_run in Hx. bind_step Hx sid Es; [|inv_res; eauto using quiet_refl].
    unfold sbind at 1, sget in Hx. case_bool_decide; [unfold slift in Hx; inv_res; eauto using quiet_refl|].
    unfold sbind at 1 in Hx. destruct (on_store _ w) as [r1 w1] eqn:Eo.
    eapply Hs in Eo; [|intros st Ht; eapply transition_quiet; [exact Ht|];
      intros s s' p [= <-] Hp; simpl; rewrite lookup_insert_ne by done; done].
    destruct r1; [|inv_res; done].
    unfold sbind at 1, read_store in Hx.
    destruct (store_get sid _); cbn [map_err] in Hx; [|injection Hx as <- <-; done].
    bind_step Hx z Ez; [|injection Hx as <- <-; done].
    cbn in Hx. unfold slift in Hx. injection Hx as <- <-. done.
  - unfold zig_status in Hx. bind_step Hx sid Es; [|inv_res; eauto using quiet_refl].
    unfold sbind at 1, sget in Hx. case_bool_decide; unfold slift in Hx; inv_res; eauto using quiet_refl.
  - unfold zig_stop in Hx. bind_step Hx sid Es; [|inv_res; eauto using quiet_refl].
    unfold sbind at 1, sget in Hx. bind_step Hx z Ez; [|inv_res; eauto using quiet_refl].
    unfold sbind at 1, smodify in Hx. unfold sbind at 1 in Hx.
    destruct (on_store _ _) as [r1 w1] eqn:Eo.
    eapply Hs in Eo; [|intros st Ht; eapply transition_quiet; [exact Ht|];
      intros s s' p [= <-] Hp; simpl; rewrite lookup_delete_ne by done; done].
    destruct r1; unfold slift in Hx; inv_res; done.
Qed.

Lemma ghost_on_inv clock context w r w' :
  ghost_on adapters clock context w = (r, w') -> ghost_inv w -> ghost_inv w'.
Proof.
  intros [(e & -> & [->|(sid & Hn & ->)])|(sid & req & eff & st & res & _ & _ & _ & _ & _ & Ht & _ & _ & ->)]%ghost_on_cases
    Hi; [done|..]; intros sid' live Hl; simpl in *.
  - destruct (decide (sid' = sid)) as [->|Hne];
      [by rewrite lookup_insert_eq in Hl|rewrite lookup_insert_ne in Hl by done; eauto].
  - destruct (decide (sid' = sid)) as [->|Hne];
      [|rewrite lookup_insert_ne in Hl by done; eapply live_matches_other; eauto].
    rewrite lookup_insert_eq in Hl. injection Hl as <-.
    apply store_transition_ok in Ht as (cur & next & _ & Hc & Hn & _ & _ & ->).
    split; [done|]. exists next. simpl. rewrite lookup_insert_eq. split; [done|].
    unfold ghost_on_transition in Hn. apply rbind_ok in Hn as (s & Hf & Hn). injection Hn as <-.
    simpl. rewrite lookup_insert_eq. split; [|done]. unfold freeze in Hf.
    destruct (ss_effective_profile cur) eqn:Ep; [case_bool_decide|]; inv_res; simpl; congruence.
Qed.

Lemma ghost_off_inv clock context w r w' :
  ghost_off clock context w = (r, w') -> ghost_inv w -> ghost_inv w'.
Proof.
  intros [(e & -> & ->)|(sid & cur & st & res & _ & Hcur & Ht & _ & _ & ->)]%ghost_off_cases Hi;
    [done|]. intros sid' live Hl; simpl in *.
  destruct (decide (sid' = sid)) as [->|Hne];
    [|rewrite lookup_insert_ne in Hl by done; eapply live_matches_other; eauto].
  rewrite lookup_insert_eq in Hl. injection Hl as <-.
  destruct (Hi _ _ Hcur) as (_ & s & Hs & Hp & _).
  apply store_transition_ok in Ht as (c & next & _ & Hc & Hn & _ & _ & ->).
  rewrite Hs in Hc. injection Hc as <-. injection Hn as <-.
  split; [done|]. eexists. simpl. rewrite lookup_insert_eq. split; [done|]. simpl.
  by rewrite lookup_delete_eq.
Qed.

Lemma replace_session_inv clock context w r w' :
  replace_session adapters clock context w = (r, w') -> ghost_inv w -> ghost_inv w'.
Proof.
  intros [(e & -> & ->)|(sid & cur & ad & st & res & _ & _ & _ & _ & _ & _ & _ & Ht & _ & ->)]%replace_session_cases
    Hi; [done|]. intros sid' live Hl; simpl in *.
  destruct (decide (sid' = sid)) as [->|Hne]; [by rewrite lookup_insert_eq in Hl|].
  rewrite lookup_insert_ne in Hl by done. eapply live_matches_other; eauto.
Qed.

(** A Ghost command is [on], [off], a read, or a refusal. *)
Lemma ghost_execute_cases clock command context w r w' :
  ghost_execute adapters clock command context w = (r, w') ->
  (exists r1, ghost_on adapters clock context w = (r1, w'))
  \/ (exists r1, ghost_off clock context w = (r1, w')) \/ w' = w.
Proof.
  intros Hx. destruct command as [[]|c]; simpl in Hx; unfold sbind, sret, sfail in Hx.
  - destruct (ghost_on _ _ _ _) as [[]?] eqn:Eo; injection Hx as _ <-; eauto.
  - destruct (ghost_off _ _ _) as [[]?] eqn:Eo; injection Hx as _ <-; eauto.
  - pose proof (ghost_status_pure context w) as Hp. unfold slift in Hx.
    destruct (ghost_status _ _) as [[]?]; injection Hx as _ <-; auto.
  - injection Hx as _ <-; auto.
Qed.

(** In every reachable state the profile Ghost holds live for a session is the one
    frozen in the session's state, it is active exactly when it needs no restart, and
    the session lists the Ghost version exactly while the profile is active.  Every step
    of Ghost, of the ZigZagZig controller and of the state store keeps it, failed ones
    included. *)
Theorem ghost_live_matches_store w tag w' :
  world_step w tag w' -> ghost_inv w -> ghost_inv w'.
Proof.
  intros [clock c ctx r w1 Hx|clock ctx r w1 Hx|clock c ctx r w1 Hx|clock s st Hx|clock sid t st Hx
         |clock sid p st Hx|rc st Hx] Hi.
  - apply ghost_execute_cases in Hx as [[r1 Hx]|[[r1 Hx]| ->]];
      eauto using ghost_on_inv, ghost_off_inv.
  - eauto using replace_session_inv.
  - apply zig_execute_quiet in Hx as [Hq Hg]. eauto using quiet_inv.
  - eapply quiet_inv; eauto using insert_quiet.
  - eapply (quiet_inv w); eauto. eapply transition_quiet; [exact Hx|].
    intros s s' p [= <-] Hp. done.
  - eapply quiet_inv; eauto using freeze_quiet.
  - eapply quiet_inv; eauto using settle_quiet.
Qed.

(** A session whose profile was switched off. *)
Definition switched_off (sid : SessionId) (w : SkillWorld) : Prop :=
  exists live, w.(w_ghost) !! sid = Some (Some live)
    /\ live.(lg_active) = false /\ live.(lg_effective).(ef_restart_required) = true.

Lemma switched_off_other sid sid' v w st z :
  switched_off sid w -> sid <> sid' ->
  switched_off sid (MkSkillWorld st (<[sid' := v]> w.(w_ghost)) z).
Proof. intros (live & Hl & Hr) Hne. exists live. simpl. by rewrite lookup_insert_ne. Qed.

Lemma world_step_switched_off w tag w' sid :
  world_step w tag w' -> tag <> Some sid -> switched_off sid w -> switched_off sid w'.
Proof.
  intros [clock c ctx r w1 Hx|clock ctx r w1 Hx|clock c ctx r w1 Hx|clock s st Hx|clock sid' t st Hx
         |clock sid' p st Hx|rc st Hx] Ht Ho; [..|done|done|done|done].
  - apply ghost_execute_cases in Hx as [[r1 Hx]|[[r1 Hx]| ->]]; [..|done].
    + apply ghost_on_cases in Hx as [(e & -> & [->|(sid' & Hn & ->)])|(sid' & req & eff & st & res
        & _ & _ & _ & _ & Hcf & _ & _ & _ & ->)]; [done|..].
      * apply switched_off_other; [done|]. destruct Ho as (? & Hl & _). congruence.
      * apply switched_off_other; [done|]. destruct Ho as (l & Hl & _ & Hr). intros <-.
        specialize (Hcf _ Hl). unfold ghost_conflict in Hcf. by rewrite Hr in Hcf.
    + apply ghost_off_cases in Hx as [(e & -> & ->)|(sid' & cur & st & res & _ & _ & _ & _ & _ & ->)];
        [done|].
      destruct (decide (sid = sid')) as [<-|Hne]; [|by apply switched_off_other].
      eexists. simpl. rewrite lookup_insert_eq. done.
  - apply replace_session_cases in Hx as [(e & -> & ->)|(sid' & cur & ad & st & res & Hc & _ & _ & _
      & _ & _ & _ & _ & _ & ->)]; [done|]. apply switched_off_other; [done|]. congruence.
  - apply zig_execute_quiet in Hx as [_ Hg]. unfold switched_off. by rewrite Hg.
Qed.

Lemma switched_off_refuses_on w sid clock context r w' :
  switched_off sid w -> context.(cx_session_id) = Some sid ->
  ghost_on adapters clock context w = (r, w') -> exists e, r = Err e.
Proof.
  intros (l & Hl & _ & Hr) Hs [(e & -> & _)|(sid' & req & eff & st & res & Hc & _ & _ & _ & Hcf & _)]%ghost_on_cases;
    [eauto|]. rewrite Hs in Hc. injection Hc as <-.
  specialize (Hcf _ Hl). unfold ghost_conflict in Hcf. by rewrite Hr in Hcf.
Qed.

(** Once [off] has switched a session's profile off, no sequence of steps switches
    it on again until [replace_session] has replaced that session: every [on] for it
    fails. *)
Theorem ghost_off_is_final_until_replaced clock context w res w1 w2 clock' context' r w3 sid :
  ghost_off clock context w = (Ok res, w1) -> context.(cx_session_id) = Some sid ->
  world_steps sid w1 w2 -> context'.(cx_session_id) = Some sid ->
  ghost_on adapters clock' context' w2 = (r, w3) ->
  res.(gr_status).(gs_active) = false /\ exists e, r = Err e.
Proof.
  intros [(e & [=] & _)|(sid' & cur & st & res' & Hc & Hcur & _ & Hr & Hst & ->)]%ghost_off_cases Hs Hsteps Hs' Hon.
  injection Hr as <-. split; [by rewrite Hst|].
  rewrite Hs in Hc. injection Hc as <-.
  assert (Ho : switched_off sid w2).
  { match type of Hsteps with world_steps _ ?x _ => assert (Ho : switched_off sid x) end.
    { eexists. simpl. rewrite lookup_insert_eq. done. }
    revert Ho. clear Hst Hcur. induction Hsteps; eauto using world_step_switched_off. }
  eauto using switched_off_refuses_on.
Qed.

End World.

Lemma resolve_scan_spec request unsupported l :
  (forall eff, resolve_scan request unsupported l = Ok eff <->
     exists l1 a l2, l = l1 ++ a :: l2 /\ a.(ad_resolve_profile) request = Ok eff
       /\ Forall (fun b => b.(ad_resolve_profile) request = Err UnsupportedCapability
                       \/ b.(ad_resolve_profile) request = Err EngineUnavailable) l1)
  /\ (resolve_scan request unsupported l = Err EngineUnavailable ->
      unsupported = false /\
      Forall (fun b => b.(ad_resolve_profile) request = Err EngineUnavailable) l).
Proof.
  revert unsupported. induction l as [|a l IH]; intros u; cbn [resolve_scan].
  { split; [|by destruct u]. intros eff. split; [done|]. intros ([] & ? & ? & ? & _); discriminate. }
  assert (Hstep : forall u' eff, (ad_resolve_profile a request = Err UnsupportedCapability
      \/ ad_resolve_profile a request = Err EngineUnavailable) ->
    (resolve_scan request u' l = Ok eff <-> exists l1 a' l2, a :: l = l1 ++ a' :: l2
       /\ a'.(ad_resolve_profile) request = Ok eff
       /\ Forall (fun b => b.(ad_resolve_profile) request = Err UnsupportedCapability
                       \/ b.(ad_resolve_profile) request = Err EngineUnavailable) l1)).
  { intros u' eff Ha. rewrite (proj1 (IH u')). split.
    - intros (l1 & a' & l2 & -> & ? & ?). exists (a :: l1), a', l2. eauto.
    - intros ([|b l1] & a' & l2 & Heq & Hr & Hf); simplify_eq/=.
      + destruct Ha; congruence.
      + inversion Hf; subst. eauto 10. }
  destruct (ad_resolve_profile a request) as [e|[]] eqn:Ea;
    try (split; [|by intros [=]]; intros eff; split; [done|];
         intros ([|b l1] & a' & l2 & Heq & Hr & Hf); simplify_eq/=;
         [congruence|inversion Hf as [|?? [|]]; congruence]);
    try (split; [intros eff; apply Hstep; auto|]).
  - split; [|done]. intros eff. split.
    + intros [= <-]. exists [], a, l. eauto.
    + intros ([|b l1] & a' & l2 & Heq & Hr & Hf); simplify_eq/=; [congruence|].
      inversion Hf as [|?? [|]]; congruence.
  - by intros [? _]%(proj2 (IH true)).
  - intros [? ?]%(proj2 (IH u)). eauto.
Qed.

(** Engine resolution takes the first adapter that can serve the request, in the
    order of the requested engines; adapters before it refused for a missing capability
    or a missing engine, any other failure ends the search, and "engine unavailable" is
    reported only when no candidate exists but lacked a capability. *)
Theorem ghost_resolve_first_match adapters request eff :
  (ghost_resolve adapters request = Ok eff <->
   exists l1 a l2, candidates adapters request = l1 ++ a :: l2
     /\ a.(ad_resolve_profile) request = Ok eff
     /\ Forall (fun b => b.(ad_resolve_profile) request = Err UnsupportedCapability
                     \/ b.(ad_resolve_profile) request = Err EngineUnavailable) l1)
  /\ (ghost_resolve adapters request = Err EngineUnavailable ->
      Forall (fun b => b.(ad_resolve_profile) request = Err EngineUnavailable)
        (candidates adapters request))
  /\ (forall a, a ∈ candidates adapters request -> a ∈ adapters
        /\ (request.(spr_preferred_engines) <> [] -> a.(ad_engine) ∈ request.(spr_preferred_engines))).
Proof.
  split_and!.
  - apply resolve_scan_spec.
  - intros He. by apply (proj2 (resolve_scan_spec request false _)) in He as [_ ?].
  - intros a (engine & Ha & Hin)%list_elem_of_bind.
    apply list_elem_of_filter in Ha as [Hae Ha]. split; [done|].
    destruct (spr_preferred_engines request); [done|]. by rewrite Hae.
Qed.

(** ** A concrete world *)

Definition demo_profile : SkillProfile :=
  MkSkillProfile SKILL_SCHEMA_VERSION "1.0.0" Firefox {[ Locale ]} sixty_four_a.
Definition demo_request : SkillProfileRequest :=
  MkSkillProfileRequest SKILL_SCHEMA_VERSION {[ Locale ]} {[ Viewport ]} [Firefox] ∅.
Definition demo_adapter : SkillEngineAdapter :=
  MkSkillEngineAdapter Firefox
    (fun r => Ok (MkEffectiveSkillProfile demo_profile r.(spr_optional) false)) (fun _ => Ok tt).
Definition demo_world : SkillWorld := MkSkillWorld demo_store ∅ ∅.
Definition demo_context : SkillContext :=
  MkSkillContext ∅ {[ Locale; Viewport ]} ∅ (Some 7%N) (Some demo_request).
Definition demo_on := ghost_on [demo_adapter] 1 demo_context demo_world.
Definition demo_off := ghost_off 2 demo_context demo_on.2.
Definition demo_registry : SkillRegistry SkillWorld := SkillRegistry_new.

#[local] Instance ghost_demo_codec : ReceiptCodec :=
  {| outcome_json_sha256 := fun _ _ _ => Ok sixty_four_a; receipt_json_len := fun _ => Ok 512 |}.

Lemma ghost_live_matches_store_witness :
  is_ok (ghost_execute [demo_adapter] 1 (Ghost On) demo_context demo_world).1 = true
  /\ ghost_inv (ghost_execute [demo_adapter] 1 (Ghost On) demo_context demo_world).2.
Proof.
  split; [vm_compute; reflexivity|].
  apply (ghost_live_matches_store [demo_adapter] 800 [Firefox] demo_world None).
  - apply (ws_ghost _ _ _ _ 1 (Ghost On) demo_context
             (ghost_execute [demo_adapter] 1 (Ghost On) demo_context demo_world).1).
    by destruct (ghost_execute _ _ _ _ _).
  - intros sid live Hl. simpl in Hl. by rewrite lookup_empty in Hl.
Defined.

Lemma ghost_off_is_final_until_replaced_witness :
  exists res, demo_off.1 = Ok res /\ res.(gr_status).(gs_active) = false
    /\ exists e, (ghost_on [demo_adapter] 3 demo_context demo_off.2).1 = Err e.
Proof.
  assert (exists res, demo_off.1 = Ok res) as [res Hres] by (vm_compute; eauto).
  exists res. split; [done|].
  apply (ghost_off_is_final_until_replaced [demo_adapter] 800 [Firefox] 2 demo_context
           demo_on.2 res demo_off.2 demo_off.2 3 demo_context
           (ghost_on [demo_adapter] 3 demo_context demo_off.2).1
           (ghost_on [demo_adapter] 3 demo_context demo_off.2).2 7%N).
  - rewrite <-Hres. unfold demo_off. by destruct (ghost_off _ _ _).
  - reflexivity.
  - apply wss_refl.
  - reflexivity.
  - by destruct (ghost_on _ _ _ _).
Defined.

Lemma register_preserves_wf_witness :
  exists reg, register (ghost_skill [demo_adapter] 1) demo_registry = Ok reg
    /\ registry_wf reg /\ get_by_alias reg "/ghost" = Some (ghost_skill [demo_adapter] 1).
Proof.
  assert (Hok : is_ok (register (ghost_skill [demo_adapter] 1) demo_registry) = true)
    by (vm_compute; reflexivity).
  apply is_ok_true in Hok as [reg E]. exists reg. split; [exact E|].
  apply (register_preserves_wf (ghost_skill [demo_adapter] 1) demo_registry reg E registry_new_wf).
Defined.

Definition demo_registered : SkillRegistry SkillWorld :=
  match register (ghost_skill [demo_adapter] 1) demo_registry with
  | Ok reg => reg
  | Err _ => demo_registry
  end.

Lemma registry_execute_gated_witness :
  is_ok (registry_execute demo_registered (Ghost On) demo_context demo_world).1 = true
  /\ exists skill, get_by_alias demo_registered "/ghost" = Some skill
       /\ demo_context.(cx_required_capabilities) ⊆ skill.(sk_capabilities).
Proof.
  assert (Hok : is_ok (registry_execute demo_registered (Ghost On) demo_context demo_world).1 = true)
    by (vm_compute; reflexivity).
  split; [exact Hok|].
  destruct (registry_execute_gated demo_registered (Ghost On) demo_context demo_world
    (registry_execute demo_registered (Ghost On) demo_context demo_world).1
    (registry_execute demo_registered (Ghost On) demo_context demo_world).2)
    as [(e & He & _)|(skill & req & Hs & Hr & _)].
  - by destruct (registry_execute _ _ _ _).
  - exfalso. rewrite He in Hok. exact (Bool.diff_false_true Hok).
  - exists skill. split; [exact Hs|exact Hr].
Defined.
