(* ===== verification/Ledger.v ===== *)
(** * The JSONL ledger scan

    [crates/workflow-journal/src/health.rs] and the line reader of
    [crates/workflow-journal/src/lib.rs]: the scan that every append-only ledger of the
    runtime shares.  A reader is the bytes that are left and the error the device reports,
    if it does, when they are used up; a decoder is a pair of stateful functions on its own state
    [D].  The loop is structural on a fuel; [scan_fuel_enough] shows that one more than
    the number of bytes left is always enough, since an iteration that goes on has
    consumed a line. *)

From S2P Require Import Prelude.
From Stdlib Require Import Ascii.

Definition bytes : Type := list ascii.
Definition newline : ascii := ascii_of_nat 10.

(** [bytes.len() as u64]. *)
Definition blen (b : bytes) : Z := Z.of_nat (length b).

Inductive IoError :=
| DeviceError (message : string)
| DataError (message : string)
| FuelExhausted.

(** What becomes of one I/O call: a partial write leaves a prefix of its bytes, a partial
    read gives a prefix before it fails. *)
Inductive Fault :=
| IoOk
| IoFails (message : string)
| IoPartial (n : nat) (message : string).

Record Reader := MkReader {
  rd_bytes : bytes;
  rd_fails : option string;
}.

(** ** Reading one line *)

Inductive JsonlRead :=
| Eof
| Complete (line : bytes)
| Torn (line : bytes)
| TooLong.

(** [AsyncBufReadExt::take(limit).read_until(b'\n')]: what is read and what is left. *)
Fixpoint read_until (limit : Z) (r : bytes) : bytes * bytes :=
  if limit <=? 0 then ([], r) else
  match r with
  | [] => ([], [])
  | c :: r' =>
      if Ascii.eqb c newline then ([c], r')
      else let '(l, rest) := read_until (limit - 1) r' in (c :: l, rest)
  end.

Definition ends_with_newline (b : bytes) : bool :=
  match last b with
  | Some c => Ascii.eqb c newline
  | None => false
  end.

(** The read reached the end of the bytes and asked the device for more. *)
Definition hit_end (limit : Z) (line : bytes) : bool :=
  negb (ends_with_newline line) && (blen line <? limit).

Definition read_jsonl_line_buffered (r : Reader) (max_bytes : Z)
    : result JsonlRead IoError * Reader :=
  let limit := saturating_add max_bytes 1 in
  let '(line, rest) := read_until limit r.(rd_bytes) in
  let r' := MkReader rest r.(rd_fails) in
  match (if hit_end limit line then r.(rd_fails) else None) with
  | Some message => (Err (DeviceError message), r')
  | None =>
      (Ok (if blen line =? 0 then Eof
           else if max_bytes <? blen line then TooLong
           else if ends_with_newline line then Complete line
           else Torn line), r')
  end.

Definition read_jsonl_line (r : Reader) (max_bytes : Z) : result JsonlRead IoError * Reader :=
  read_jsonl_line_buffered r max_bytes.

(** ** Scan facts *)

Inductive SequenceRule :=
| NoSequence
| Increasing
| Consecutive (first : Z).

Inductive SequenceVerdict := Unsequenced | Valid | Invalid.
Inductive ScanControl := Continue | StopScan.

Inductive LedgerIssueKind :=
| TornTail | OversizedLine | Decode | Schema | Sequence | SequenceExhausted | Checksum
| LedgerInvalidState.

#[export] Instance SequenceVerdict_eq_dec : EqDecision SequenceVerdict.
Proof. solve_decision. Defined.
#[export] Instance LedgerIssueKind_eq_dec : EqDecision LedgerIssueKind.
Proof. solve_decision. Defined.

(** [kind as usize]. *)
Definition kind_index (kind : LedgerIssueKind) : nat :=
  match kind with
  | TornTail => 0 | OversizedLine => 1 | Decode => 2 | Schema => 3 | Sequence => 4
  | SequenceExhausted => 5 | Checksum => 6 | LedgerInvalidState => 7
  end.

Record LedgerIssue := MkLedgerIssue {
  li_kind : LedgerIssueKind;
  li_line : option Z;
  li_offset : option Z;
}.

Record LedgerHealth := MkLedgerHealth {
  lh_exists : bool;
  lh_bytes_observed : Z;
  lh_complete_lines : Z;
  lh_accepted_records : Z;
  lh_decoded_records : Z;
  lh_incompatible_records : Z;
  lh_max_observed_sequence : option Z;
  lh_last_accepted_sequence : option Z;
  lh_issue_counts : list Z;
  lh_first_issue : option LedgerIssue;
}.
#[export] Instance eta_LedgerHealth : Eta LedgerHealth := fun h =>
  MkLedgerHealth (lh_exists h) (lh_bytes_observed h) (lh_complete_lines h)
    (lh_accepted_records h) (lh_decoded_records h) (lh_incompatible_records h)
    (lh_max_observed_sequence h) (lh_last_accepted_sequence h) (lh_issue_counts h)
    (lh_first_issue h).

Definition LedgerHealth_default : LedgerHealth :=
  MkLedgerHealth false 0 0 0 0 0 None None (replicate 8 0) None.

Definition issue_count (h : LedgerHealth) (kind : LedgerIssueKind) : Z :=
  default 0 (h.(lh_issue_counts) !! kind_index kind).

Definition health_issue (h : LedgerHealth) (kind : LedgerIssueKind) (line offset : Z)
    : LedgerHealth :=
  h <| lh_issue_counts := <[kind_index kind := saturating_add (issue_count h kind) 1]>
                            h.(lh_issue_counts) |>
    <| lh_first_issue := match h.(lh_first_issue) with
                         | Some first => Some first
                         | None => Some (MkLedgerIssue kind (Some line) (Some offset))
                         end |>.

Inductive RecordObservation :=
| Skip
| Accepted (sequence : option Z)
| Rejected (sequence_hint : option Z) (kind : LedgerIssueKind).

Record PreparedRecord (Rec : Type) := MkPreparedRecord {
  pr_observation : RecordObservation;
  pr_record : option Rec;
}.
Arguments MkPreparedRecord {Rec} _ _.
Arguments pr_observation {Rec} _.
Arguments pr_record {Rec} _.

Record JsonlLine := MkJsonlLine {
  ln_offset : Z;
  ln_number : Z;
  ln_bytes : bytes;
}.

(** The [LedgerDecoder] trait. *)
Record LedgerDecoder (D Rec : Type) := MkLedgerDecoder {
  ld_decode : JsonlLine -> ST D IoError (PreparedRecord Rec);
  ld_apply : JsonlLine -> PreparedRecord Rec -> SequenceVerdict -> ST D IoError ScanControl;
}.
Arguments MkLedgerDecoder {D Rec} _ _.
Arguments ld_decode {D Rec} _ _.
Arguments ld_apply {D Rec} _ _ _ _.

Record ScanOptions := MkScanOptions {
  so_max_line_bytes : Z;
  so_sequence_rule : SequenceRule;
}.

(** [Option::max] of two sequences: [None] is the smallest. *)
Definition option_max (a b : option Z) : option Z :=
  match a, b with
  | Some x, Some y => Some (Z.max x y)
  | None, o | o, None => o
  end.

(** The observation's sequence, whether it was rejected, whether it was skipped. *)
Definition observe (o : RecordObservation) : option Z * bool * bool :=
  match o with
  | Skip => (None, false, true)
  | Accepted sequence => (sequence, false, false)
  | Rejected hint _ => (hint, true, false)
  end.

Definition sequence_valid (rule : SequenceRule) (h : LedgerHealth) (sequence : option Z) : bool :=
  match rule, sequence with
  | NoSequence, _ | _, None => true
  | Increasing, Some s =>
      match h.(lh_max_observed_sequence) with
      | None => true
      | Some previous => previous <? s
      end
  | Consecutive first, Some s =>
      let expected := match h.(lh_last_accepted_sequence) with
                      | Some previous => checked_add previous 1
                      | None => Some first
                      end in
      bool_decide (expected = Some s)
  end.

Definition is_sequenced (rule : SequenceRule) : bool :=
  match rule with NoSequence => false | _ => true end.

(** The health and the verdict after one complete line was decoded. *)
Definition observe_line (rule : SequenceRule) (h : LedgerHealth) {Rec} (prepared : PreparedRecord Rec)
    (number offset : Z) : LedgerHealth * SequenceVerdict :=
  let h := match prepared.(pr_record) with
           | Some _ => h <| lh_decoded_records := saturating_add h.(lh_decoded_records) 1 |>
           | None => h
           end in
  let '(sequence, rejected, skipped) := observe prepared.(pr_observation) in
  let h := match prepared.(pr_observation) with
           | Rejected _ kind => health_issue h kind number offset
           | _ => h
           end in
  let valid := sequence_valid rule h sequence in
  let h := if negb valid then health_issue h Sequence number offset else h in
  let h := match sequence with
           | None => h
           | Some s =>
               let h := h <| lh_max_observed_sequence :=
                               option_max h.(lh_max_observed_sequence) (Some s) |> in
               if (s =? u64_max) && (issue_count h SequenceExhausted =? 0)
               then health_issue h SequenceExhausted number offset else h
           end in
  let '(h, verdict) :=
    if rejected || negb valid then
      (h <| lh_incompatible_records := saturating_add h.(lh_incompatible_records) 1 |>, Invalid)
    else if bool_decide (is_Some sequence) && is_sequenced rule then (h, Valid)
    else (h, Unsequenced) in
  if negb skipped && negb (bool_decide (verdict = Invalid)) then
    let h := h <| lh_accepted_records := saturating_add h.(lh_accepted_records) 1 |> in
    (match sequence with
     | Some s => h <| lh_last_accepted_sequence := Some s |>
     | None => h
     end, verdict)
  else (h, verdict).

Section Scan.
Context {D Rec : Type}.
Variable dec : LedgerDecoder D Rec.
Variable options : ScanOptions.

Fixpoint scan_loop (fuel : nat) (r : Reader) (first : option JsonlRead) (h : LedgerHealth)
    (d : D) : result LedgerHealth IoError * D :=
  match fuel with
  | O => (Err FuelExhausted, d)
  | S fuel' =>
      let '(next, r) := match first with
                        | Some first => (Ok first, r)
                        | None => read_jsonl_line_buffered r options.(so_max_line_bytes)
                        end in
      match next with
      | Err e => (Err e, d)
      | Ok next =>
          let offset := h.(lh_bytes_observed) in
          let number := saturating_add h.(lh_complete_lines) 1 in
          match next with
          | Eof => (Ok h, d)
          | TooLong =>
              let h := h <| lh_bytes_observed :=
                saturating_add offset (saturating_add options.(so_max_line_bytes) 1) |> in
              (Ok (health_issue h OversizedLine number offset), d)
          | Torn line =>
              let h := h <| lh_bytes_observed := saturating_add offset (blen line) |> in
              (Ok (health_issue h TornTail number offset), d)
          | Complete line =>
              let h := h <| lh_bytes_observed := saturating_add offset (blen line) |>
                         <| lh_complete_lines := number |> in
              let ln := MkJsonlLine offset number line in
              match dec.(ld_decode) ln d with
              | (Err e, d) => (Err e, d)
              | (Ok prepared, d) =>
                  let '(h, verdict) :=
                    observe_line options.(so_sequence_rule) h prepared number offset in
                  match dec.(ld_apply) ln prepared verdict d with
                  | (Err e, d) => (Err e, d)
                  | (Ok StopScan, d) => (Ok h, d)
                  | (Ok Continue, d) => scan_loop fuel' r None h d
                  end
              end
          end
      end
  end.

Definition health_start : LedgerHealth := LedgerHealth_default <| lh_exists := true |>.

Definition scan (r : Reader) (first : option JsonlRead) (d : D) : result LedgerHealth IoError * D :=
  scan_loop (length r.(rd_bytes) + 2) r first health_start d.

Definition scan_jsonl (r : Reader) (d : D) : result LedgerHealth IoError * D := scan r None d.

Definition scan_jsonl_prefetched (r : Reader) (first : JsonlRead) (d : D)
    : result LedgerHealth IoError * D := scan r (Some first) d.

End Scan.

(** ** Visiting the physical lines *)

Record JsonlScan := MkJsonlScan {
  js_torn_tail : bool;
  js_bytes_read : Z;
}.

Definition Visitor {V} (visit : JsonlLine -> ST V IoError unit) : LedgerDecoder V unit :=
  MkLedgerDecoder
    (fun _ => sret (MkPreparedRecord (Accepted None) None))
    (fun line _ _ => visit line ;; sret Continue).

Definition for_each_jsonl_line {V} (r : Reader) (visit : JsonlLine -> ST V IoError unit)
    (v : V) : result JsonlScan IoError * V :=
  match scan_jsonl (Visitor visit) (MkScanOptions u64_max NoSequence) r v with
  | (Err e, v) => (Err e, v)
  | (Ok h, v) => (Ok (MkJsonlScan (0 <? issue_count h TornTail) h.(lh_bytes_observed)), v)
  end.

(** ** Reading lines: facts *)

Lemma read_until_app limit r line rest : read_until limit r = (line, rest) -> r = line ++ rest.
Proof.
  revert limit line rest. induction r as [|c r IH]; intros limit line rest; cbn [read_until].
  { destruct (limit <=? 0); intros [= <- <-]; done. }
  destruct (limit <=? 0); [intros [= <- <-]; done|].
  destruct (Ascii.eqb c newline); [intros [= <- <-]; done|].
  destruct (read_until (limit - 1) r) as [l rest'] eqn:E. intros [= <- <-].
  by rewrite (IH _ _ _ E).
Qed.

Lemma read_until_nonempty limit c r line rest :
  0 < limit -> read_until limit (c :: r) = (line, rest) -> line <> [].
Proof.
  intros Hl. cbn [read_until]. replace (limit <=? 0) with false by lia.
  destruct (Ascii.eqb c newline); [by intros [= <- _]|].
  destruct (read_until (limit - 1) r). by intros [= <- _].
Qed.

Lemma saturating_succ_pos n : 0 <= n -> 0 < saturating_add n 1.
Proof. unfold saturating_add, u64_max. lia. Qed.

(** A complete line leaves strictly fewer bytes. *)
Lemma read_line_consumes r max line r' :
  read_jsonl_line_buffered r max = (Ok (Complete line), r') ->
  r.(rd_bytes) = line ++ r'.(rd_bytes) /\ 0 < blen line /\ r'.(rd_fails) = r.(rd_fails).
Proof.
  unfold read_jsonl_line_buffered. destruct (read_until _ _) as [l rest] eqn:E.
  destruct (if hit_end _ _ then _ else None); [done|].
  destruct (Z.eqb_spec (blen l) 0); [done|]. destruct (_ <? _); [done|].
  destruct (ends_with_newline l); [|done]. intros [= <- <-]. simpl.
  split_and!; [by eapply read_until_app|unfold blen in *; lia|done].
Qed.

(** The reader on a line of the expected shape. *)
Definition no_newline (b : bytes) : Prop := Forall (fun c => c <> newline) b.

Lemma read_until_line limit body rest :
  no_newline body -> blen body < limit ->
  read_until limit (body ++ newline :: rest) = (body ++ [newline], rest).
Proof.
  intros Hb. revert limit. unfold blen.
  induction Hb as [|c body Hc Hb IH]; intros limit Hl; simpl in *.
  - replace (limit <=? 0) with false by lia. done.
  - replace (limit <=? 0) with false by lia.
    destruct (Ascii.eqb_spec c newline); [done|]. rewrite IH by lia. done.
Qed.

Lemma read_until_tail limit tail :
  no_newline tail -> blen tail <= limit -> read_until limit tail = (tail, []).
Proof.
  intros Hb. revert limit. unfold blen.
  induction Hb as [|c body Hc Hb IH]; intros limit Hl; cbn [read_until length] in *;
    [by destruct (limit <=? 0)|].
  replace (limit <=? 0) with false by lia.
  destruct (Ascii.eqb_spec c newline); [done|]. rewrite IH by lia. done.
Qed.

Lemma ends_with_newline_snoc body : ends_with_newline (body ++ [newline]) = true.
Proof. unfold ends_with_newline. rewrite last_snoc. apply Ascii.eqb_refl. Qed.

Lemma ends_with_newline_none tail : no_newline tail -> ends_with_newline tail = false.
Proof.
  intros H. unfold ends_with_newline. destruct (last tail) as [c|] eqn:E; [|done].
  apply last_Some_elem_of in E. eapply Forall_forall in H; [|exact E].
  by destruct (Ascii.eqb_spec c newline).
Qed.

Lemma blen_app a b : blen (a ++ b) = blen a + blen b.
Proof. unfold blen. rewrite length_app. lia. Qed.

Lemma blen_nonneg b : 0 <= blen b.
Proof. unfold blen. lia. Qed.
#[export] Hint Resolve blen_nonneg : bobby.

Lemma read_complete body rest max :
  no_newline body -> blen body < max -> max <= u64_max ->
  read_jsonl_line_buffered (MkReader (body ++ newline :: rest) None) max
  = (Ok (Complete (body ++ [newline])), MkReader rest None).
Proof.
  intros Hb Hl Hm. pose proof (blen_nonneg body). unfold read_jsonl_line_buffered. simpl.
  rewrite read_until_line by (auto; unfold saturating_add; lia).
  replace (if hit_end _ _ then None else None) with (@None string) by (by destruct (hit_end _ _)).
  rewrite ends_with_newline_snoc, blen_app. change (blen [newline]) with 1.
  destruct (Z.eqb_spec (blen body + 1) 0); [lia|].
  destruct (Z.ltb_spec max (blen body + 1)); [lia|]. done.
Qed.

Lemma read_last tail max :
  no_newline tail -> blen tail <= max -> max <= u64_max ->
  read_jsonl_line_buffered (MkReader tail None) max
  = (Ok (if blen tail =? 0 then Eof else Torn tail), MkReader [] None).
Proof.
  intros Hb Hl Hm. unfold read_jsonl_line_buffered. simpl.
  rewrite read_until_tail by (auto; unfold saturating_add; lia).
  replace (if hit_end _ _ then None else None) with (@None string) by (by destruct (hit_end _ _)).
  rewrite ends_with_newline_none by done.
  destruct (blen tail =? 0); [done|]. replace (max <? blen tail) with false by lia. done.
Qed.

(** ** Termination *)

Section ScanFacts.
Context {D Rec : Type}.
Variable dec : LedgerDecoder D Rec.
Variable options : ScanOptions.

(** Any fuel above the number of bytes left gives the same scan. *)
Lemma scan_fuel_enough n m r h d :
  (length r.(rd_bytes) < n)%nat -> (length r.(rd_bytes) < m)%nat ->
  scan_loop dec options n r None h d = scan_loop dec options m r None h d.
Proof.
  revert m r h d. induction n as [|n IH]; intros [|m] r h d Hn Hm; [lia..|].
  cbn [scan_loop].
  destruct (read_jsonl_line_buffered r _) as [[[|line|line|]|e] r'] eqn:E; try done.
  apply read_line_consumes in E as (Hr & Hl & _).
  destruct (ld_decode dec _ d) as [[p|e] d1]; [|done].
  destruct (observe_line _ _ _ _ _) as [h' v].
  destruct (ld_apply dec _ _ _ d1) as [[[]|e] d2]; try done.
  rewrite Hr, length_app in Hn, Hm. unfold blen in Hl. apply IH; lia.
Qed.

(** The decoder itself never reports exhausted fuel. *)
Definition decoder_honest : Prop :=
  (forall ln d, (ld_decode dec ln d).1 <> Err FuelExhausted)
  /\ (forall ln p v d, (ld_apply dec ln p v d).1 <> Err FuelExhausted).

Lemma scan_loop_honest n r h d :
  decoder_honest -> (length r.(rd_bytes) < n)%nat ->
  (scan_loop dec options n r None h d).1 <> Err FuelExhausted.
Proof.
  intros [Hd Ha]. revert r h d. induction n as [|n IH]; intros r h d Hn; [lia|].
  cbn [scan_loop].
  destruct (read_jsonl_line_buffered r _) as [[[|line|line|]|e] r'] eqn:E; try done.
  - apply read_line_consumes in E as (Hr & Hl & _).
    specialize (Hd (MkJsonlLine (lh_bytes_observed h) (saturating_add (lh_complete_lines h) 1) line) d).
    destruct (ld_decode dec _ d) as [[p|e] d1]; [|simpl in *; congruence].
    destruct (observe_line _ _ _ _ _) as [h' v].
    specialize (Ha (MkJsonlLine (lh_bytes_observed h) (saturating_add (lh_complete_lines h) 1) line)
                  p v d1).
    destruct (ld_apply dec _ _ _ d1) as [[[]|e] d2]; [|done|simpl in *; congruence].
    apply IH. rewrite Hr, length_app in Hn. unfold blen in Hl. lia.
  - unfold read_jsonl_line_buffered in E. destruct (read_until _ _).
    destruct (if hit_end _ _ then _ else None); [|done]. by injection E as <- _.
Qed.

(** The scan terminates.  Whatever the bytes, the prefetched line and the decoder,
    more fuel than [scan] uses changes nothing, and a decoder that does not itself report
    exhausted fuel never sees that error. *)
Theorem scan_terminates r first d extra :
  decoder_honest ->
  scan_loop dec options (length r.(rd_bytes) + 2 + extra) r first health_start d
    = scan dec options r first d
  /\ (scan dec options r first d).1 <> Err FuelExhausted.
Proof.
  intros Hh. unfold scan. destruct first as [f|].
  2:{ split; [apply scan_fuel_enough; lia|apply scan_loop_honest; [done|lia]]. }
  replace (length (rd_bytes r) + 2 + extra)%nat with (S (length (rd_bytes r) + 1 + extra)) by lia.
  replace (length (rd_bytes r) + 2)%nat with (S (length (rd_bytes r) + 1)) by lia.
  cbn [scan_loop]. destruct f as [|line|line|]; try done.
  pose proof (proj1 Hh (MkJsonlLine (lh_bytes_observed health_start)
    (saturating_add (lh_complete_lines health_start) 1) line) d) as Hd.
  destruct (ld_decode dec _ d) as [[p|e] d1]; [|split; [done|simpl in *; congruence]].
  destruct (observe_line _ _ _ _ _) as [h' v].
  pose proof (proj2 Hh (MkJsonlLine (lh_bytes_observed health_start)
    (saturating_add (lh_complete_lines health_start) 1) line) p v d1) as Ha.
  destruct (ld_apply dec _ _ _ d1) as [[[]|e] d2]; [|done|split; [done|simpl in *; congruence]].
  split; [apply scan_fuel_enough; lia|apply scan_loop_honest; [done|lia]].
Qed.
End ScanFacts.

(** ** The physical lines of a file *)

(** The complete lines of a byte string, each with its newline, and what follows the last
    newline. *)
Fixpoint jsonl_lines (b : bytes) : list bytes * bytes :=
  match b with
  | [] => ([], [])
  | c :: b' =>
      let '(ls, tail) := jsonl_lines b' in
      if Ascii.eqb c newline then ([c] :: ls, tail)
      else match ls with
           | [] => ([], c :: tail)
           | l :: ls' => ((c :: l) :: ls', tail)
           end
  end.

(** Calls the visitor on each line, numbered from [number], until it fails. *)
Fixpoint visit_lines {V} (visit : JsonlLine -> ST V IoError unit) (offset number : Z)
    (ls : list bytes) (v : V) : result unit IoError * V :=
  match ls with
  | [] => (Ok tt, v)
  | l :: ls' =>
      match visit (MkJsonlLine offset number l) v with
      | (Err e, v) => (Err e, v)
      | (Ok _, v) => visit_lines visit (offset + blen l) (number + 1) ls' v
      end
  end.

Definition line_shape (l : bytes) : Prop := exists body, no_newline body /\ l = body ++ [newline].

Lemma jsonl_lines_spec b ls tail :
  jsonl_lines b = (ls, tail) ->
  b = concat ls ++ tail /\ Forall line_shape ls /\ no_newline tail.
Proof.
  revert ls tail. induction b as [|c b IH]; intros ls tail; cbn [jsonl_lines].
  { intros [= <- <-]. split_and!; constructor. }
  destruct (jsonl_lines b) as [ls0 tail0]. destruct (IH _ _ eq_refl) as (Hb & Hls & Ht).
  destruct (Ascii.eqb_spec c newline) as [->|Hc].
  - intros [= <- <-]. simpl. rewrite <-Hb. split_and!; [done| |done]. constructor; [|done].
    exists []. split; [constructor|done].
  - destruct ls0 as [|l ls0]; intros [= <- <-]; simpl in *.
    + split_and!; [by rewrite Hb|constructor|by constructor].
    + rewrite Hb. split_and!; [done| |done]. inversion Hls as [|?? (body & Hn & ->) Hls']; subst.
      constructor; [|done]. exists (c :: body). split; [by constructor|done].
Qed.

Lemma health_no_issue_torn h line offset :
  issue_count h TornTail = 0 -> length h.(lh_issue_counts) = 8%nat ->
  issue_count (health_issue h TornTail line offset) TornTail = 1.
Proof.
  intros Hc Hl. unfold issue_count at 1. simpl. rewrite Hc.
  rewrite list_lookup_insert_eq; [done|]. rewrite Hl. lia.
Qed.

Lemma visitor_observe h number offset :
  observe_line NoSequence h (MkPreparedRecord (Accepted None) None : PreparedRecord unit)
    number offset
  = (h <| lh_accepted_records := saturating_add h.(lh_accepted_records) 1 |>, Unsequenced).
Proof. reflexivity. Qed.

(** The visitor's scan from the middle of a file. *)
Lemma visitor_scan {V} (visit : JsonlLine -> ST V IoError unit) ls tail fuel h v :
  Forall line_shape ls -> no_newline tail ->
  (length (concat ls ++ tail) < fuel)%nat ->
  h.(lh_bytes_observed) + blen (concat ls ++ tail) < u64_max ->
  0 <= h.(lh_bytes_observed) -> h.(lh_complete_lines) <= h.(lh_bytes_observed) ->
  issue_count h TornTail = 0 -> length h.(lh_issue_counts) = 8%nat ->
  let res := scan_loop (Visitor visit) (MkScanOptions u64_max NoSequence) fuel
               (MkReader (concat ls ++ tail) None) None h v in
  match visit_lines visit h.(lh_bytes_observed) (h.(lh_complete_lines) + 1) ls v with
  | (Err e, v') => res = (Err e, v')
  | (Ok _, v') => exists h', res = (Ok h', v')
      /\ h'.(lh_bytes_observed) = h.(lh_bytes_observed) + blen (concat ls ++ tail)
      /\ issue_count h' TornTail = if blen tail =? 0 then 0 else 1
  end.
Proof.
  intros Hls. revert fuel h v.
  induction Hls as [|l ls (body & Hbody & ->) Hls IH];
    intros [|fuel] h v Ht Hf Hb H0 Hc Hi Hl; try (cbn in Hf; lia); cbn [visit_lines concat app].
  - cbn [scan_loop]. cbn [so_max_line_bytes]. change (concat [] ++ tail) with tail in *.
    rewrite read_last by (auto; pose proof (blen_nonneg tail); lia). cbn [app].
    pose proof (blen_nonneg tail). unfold saturating_add.
    destruct (Z.eqb_spec (blen tail) 0) as [Hz|Hz].
    + eexists. split; [done|]. split; [lia|done].
    + eexists. split; [done|]. split; [simpl; lia|]. by rewrite health_no_issue_torn.
  - cbn [scan_loop so_max_line_bytes]. cbn [concat] in *.
    rewrite <-!app_assoc in *. cbn [app] in *.
    pose proof (blen_nonneg body). pose proof (blen_nonneg (concat ls ++ tail)).
    assert (Hlen : blen (body ++ newline :: concat ls ++ tail) = blen body + 1 + blen (concat ls ++ tail)).
    { rewrite blen_app. unfold blen. simpl. lia. }
    rewrite read_complete by (auto; lia).
    assert (Hbl : blen (body ++ [newline]) = blen body + 1) by (rewrite blen_app; done).
    assert (Hsat : saturating_add (lh_complete_lines h) 1 = lh_complete_lines h + 1)
      by (unfold saturating_add; lia).
    rewrite Hsat. cbn [ld_decode ld_apply Visitor]. unfold sret, sbind.
    destruct (visit (MkJsonlLine (lh_bytes_observed h) (lh_complete_lines h + 1) (body ++ [newline])) v)
      as [[[]|e] v']; [|done]. cbn beta iota zeta. rewrite visitor_observe.
    specialize (IH fuel (h <| lh_bytes_observed := saturating_add (lh_bytes_observed h) (blen (body ++ [newline])) |>
      <| lh_complete_lines := lh_complete_lines h + 1 |>
      <| lh_accepted_records := saturating_add (lh_accepted_records h) 1 |>) v' Ht).
    cbn [set_field lh_bytes_observed lh_complete_lines lh_issue_counts lh_accepted_records] in IH |- *.
    rewrite Hbl in *. rewrite length_app in Hf. cbn [length] in Hf. rewrite Hlen in *.
    unfold saturating_add in *. rewrite (Z.min_l (lh_bytes_observed h + (blen body + 1))) in * by lia.
    replace (lh_bytes_observed h + (blen body + 1 + blen (concat ls ++ tail)))
      with (lh_bytes_observed h + (blen body + 1) + blen (concat ls ++ tail)) by lia.
    apply IH; auto; lia.
Qed.

(** [for_each_jsonl_line] visits exactly the newline-terminated lines of the file,
    in order, with their numbers and offsets, stops at the visitor's first error, and
    otherwise reports the bytes of the whole file and a torn tail exactly when bytes
    follow the last newline. *)
Theorem for_each_visits_the_lines {V} (visit : JsonlLine -> ST V IoError unit) b v :
  blen b < u64_max ->
  for_each_jsonl_line (MkReader b None) visit v =
  match visit_lines visit 0 1 (jsonl_lines b).1 v with
  | (Err e, v') => (Err e, v')
  | (Ok _, v') => (Ok (MkJsonlScan (negb (blen (jsonl_lines b).2 =? 0)) (blen b)), v')
  end.
Proof.
  intros Hb. destruct (jsonl_lines b) as [ls tail] eqn:E.
  apply jsonl_lines_spec in E as (-> & Hls & Ht). cbn [fst snd].
  unfold for_each_jsonl_line, scan_jsonl, scan.
  pose proof (visitor_scan visit ls tail (length (concat ls ++ tail) + 2) health_start v
    Hls Ht ltac:(lia) Hb ltac:(done) ltac:(done) eq_refl eq_refl) as H.
  cbn [rd_bytes]. change (lh_complete_lines health_start + 1) with 1 in H.
  change (lh_bytes_observed health_start) with 0 in H.
  destruct (visit_lines visit 0 1 ls v) as [[[]|e] v'].
  - destruct H as (h' & -> & Hby & Hi). rewrite Hi, Hby. by destruct (blen tail =? 0).
  - by rewrite H.
Qed.

(** A visitor that keeps the bodies, to run the scan on a small file. *)
Definition collect : JsonlLine -> ST (list JsonlLine) IoError unit :=
  fun ln => smodify (fun seen => seen ++ [ln]).
Definition demo_file : bytes := String.list_ascii_of_string "{}" ++ [newline] ++ String.list_ascii_of_string "[1".

Lemma for_each_visits_the_lines_witness :
  for_each_jsonl_line (MkReader demo_file None) collect []
  = (Ok (MkJsonlScan true 5), [MkJsonlLine 0 1 (String.list_ascii_of_string "{}" ++ [newline])]).
Proof.
  rewrite (for_each_visits_the_lines collect demo_file []) by reflexivity. vm_compute. reflexivity.
Defined.

Lemma scan_terminates_witness :
  (scan (Visitor collect) (MkScanOptions 64 Increasing) (MkReader demo_file (Some "read failed")) None []).1
    <> Err FuelExhausted.
Proof.
  apply (scan_terminates (Visitor collect) (MkScanOptions 64 Increasing)
           (MkReader demo_file (Some "read failed")) None [] 0).
  split; intros; vm_compute; discriminate.
Defined.

(** ** Sequences *)

(** A decoder that also logs the sequences of the records it was told to be valid. *)
Definition logging {D Rec} (dec : LedgerDecoder D Rec) : LedgerDecoder (D * list Z) Rec :=
  MkLedgerDecoder
    (fun ln '(d, log) => let '(r, d') := dec.(ld_decode) ln d in (r, (d', log)))
    (fun ln p v '(d, log) =>
       let log' := match v, (observe p.(pr_observation)).1.1 with
                   | Valid, Some s => log ++ [s]
                   | _, _ => log
                   end in
       let '(r, d') := dec.(ld_apply) ln p v d in (r, (d', log'))).

(** The order each rule promises of the valid sequences. *)
Definition ordered (rule : SequenceRule) (log : list Z) : Prop :=
  match rule with
  | NoSequence => log = []
  | Increasing => StronglySorted Z.lt log
  | Consecutive first => log = seqZ first (Z.of_nat (length log))
  end.

(** How the health remembers the log. *)
Definition log_inv (rule : SequenceRule) (h : LedgerHealth) (log : list Z) : Prop :=
  ordered rule log /\
  match rule with
  | NoSequence => True
  | Increasing => Forall (fun s => exists m, h.(lh_max_observed_sequence) = Some m /\ s <= m) log
  | Consecutive first =>
      h.(lh_last_accepted_sequence) = last log
  end.

Lemma health_issue_fields h kind line offset :
  (health_issue h kind line offset).(lh_max_observed_sequence) = h.(lh_max_observed_sequence)
  /\ (health_issue h kind line offset).(lh_last_accepted_sequence) = h.(lh_last_accepted_sequence).
Proof. done. Qed.

(** The effect of a line on the remembered sequences. *)
Lemma observe_line_sequences rule h {Rec} (p : PreparedRecord Rec) number offset h' v :
  observe_line rule h p number offset = (h', v) ->
  let sequence := (observe p.(pr_observation)).1.1 in
  h'.(lh_max_observed_sequence) = option_max h.(lh_max_observed_sequence) sequence
  /\ (v = Valid -> is_sequenced rule = true /\ is_Some sequence /\ sequence_valid rule h sequence = true
        /\ h'.(lh_last_accepted_sequence) = sequence)
  /\ (v <> Valid -> is_sequenced rule = true ->
        h'.(lh_last_accepted_sequence) = h.(lh_last_accepted_sequence)).
Proof.
  unfold observe_line. intros H. destruct p as [obs rec]. cbn [pr_record pr_observation] in *.
  set (h0 := match rec with Some _ => _ | None => h end) in H.
  assert (H0 : lh_max_observed_sequence h0 = lh_max_observed_sequence h
               /\ lh_last_accepted_sequence h0 = lh_last_accepted_sequence h) by (by destruct rec).
  clearbody h0. destruct (observe obs) as [[sequence rejected] skipped] eqn:Eo.
  set (h1 := match obs with Rejected _ kind => _ | _ => h0 end) in H.
  assert (H1 : lh_max_observed_sequence h1 = lh_max_observed_sequence h
               /\ lh_last_accepted_sequence h1 = lh_last_accepted_sequence h) by (by destruct obs).
  clearbody h1. clear H0 h0.
  assert (Hv : sequence_valid rule h1 sequence = sequence_valid rule h sequence).
  { unfold sequence_valid. destruct H1 as [-> ->]. done. }
  rewrite Hv in H. destruct (sequence_valid rule h sequence) eqn:Ev; cbn [negb] in H.
  all: set (h2 := match sequence with Some _ => _ | None => _ end) in H.
  all: assert (H2 : lh_max_observed_sequence h2 = option_max (lh_max_observed_sequence h) sequence
         /\ lh_last_accepted_sequence h2 = lh_last_accepted_sequence h)
         by (destruct H1 as [H1a H1b]; unfold h2; destruct sequence as [s|];
             [destruct (_ && _); cbn; by rewrite ?H1a, ?H1b
             |cbn; rewrite ?H1a, ?H1b; by destruct (lh_max_observed_sequence h)]).
  all: clearbody h2; destruct H2 as [H2a H2b].
  all: destruct obs; cbn in Eo; injection Eo as <- <- <-; cbn in H |- *; clear Hv H1;
    simplify_eq/=; repeat (case_match; simplify_eq/=); cbn; rewrite ?H2a, ?H2b;
    split_and!; try done; try (by destruct rule).
Qed.

Lemma seqZ_snoc first n : 0 <= n -> seqZ first n ++ [first + n] = seqZ first (n + 1).
Proof. intros Hn. rewrite seqZ_app by lia. done. Qed.

Lemma last_seqZ first n : last (seqZ first (Z.of_nat n)) =
  match n with O => None | S m => Some (first + Z.of_nat m) end.
Proof.
  destruct n as [|m]; [done|]. replace (Z.of_nat (S m)) with (Z.of_nat m + 1) by lia.
  rewrite <-seqZ_snoc, last_snoc by lia. done.
Qed.

(** One line keeps the log in order. *)
Lemma log_inv_step rule h {Rec} (p : PreparedRecord Rec) number offset h' v log :
  observe_line rule h p number offset = (h', v) -> log_inv rule h log ->
  log_inv rule h' (match v, (observe p.(pr_observation)).1.1 with
                   | Valid, Some s => log ++ [s]
                   | _, _ => log
                   end).
Proof.
  intros (Hmax & Hval & Hinv)%observe_line_sequences [Hord Hmem].
  set (sequence := (observe (pr_observation p)).1.1) in *. clearbody sequence.
  destruct (decide (v = Valid)) as [->|Hne].
  - destruct (Hval eq_refl) as (Hs & [s ->] & Hv & Hl). clear Hinv Hval.
    destruct rule as [| |first]; [done|..]; unfold log_inv, ordered in *; cbn in Hv.
    + assert (Hgt : Forall (fun x => x < s) log).
      { eapply Forall_impl; [exact Hmem|]. intros x (m & Hm & ?). rewrite Hm in Hv.
        apply Z.ltb_lt in Hv. simpl in *. lia. }
      split.
      * apply StronglySorted_app_2; [|done|repeat constructor].
        intros x y Hx ->%list_elem_of_singleton. by eapply Forall_forall in Hgt.
      * apply Forall_app. split; [|constructor; [|constructor]]; rewrite Hmax.
        -- eapply Forall_impl; [exact Hmem|]. intros x (m & -> & ?). cbn.
           eexists. split; [done|]. lia.
        -- destruct (lh_max_observed_sequence h); cbn; eexists; (split; [done|]); lia.
    + split; [|by rewrite Hl, last_snoc]. apply bool_decide_eq_true in Hv.
      assert (s = first + Z.of_nat (length log)) as ->.
      { rewrite Hmem, Hord, last_seqZ in Hv. destruct (length log) as [|m]; simplify_eq; [lia|].
        unfold checked_add in Hv. destruct (_ <=? _); simplify_eq. lia. }
      rewrite length_app. cbn [length]. rewrite Hord at 1.
      rewrite seqZ_snoc by lia. f_equal. lia.
  - replace (match v with Valid => _ | _ => log end) with log by (by destruct v, sequence).
    split; [done|]. destruct rule as [| |first]; [done|..].
    + eapply Forall_impl; [exact Hmem|]. intros x (m & Hm & ?). rewrite Hmax, Hm.
      destruct sequence; cbn; eexists; (split; [done|]); lia.
    + rewrite Hinv by done. exact Hmem.
Qed.

(** The records a scan reports as valid are in order, whatever the file holds and
    whatever the decoder does: strictly increasing under [Increasing], without a gap from
    [first] under [Consecutive first], none without a rule. *)
Theorem scan_sequences_ordered {D Rec} (dec : LedgerDecoder D Rec) options r first d :
  ordered options.(so_sequence_rule) (scan (logging dec) options r first (d, [])).2.2.
Proof.
  unfold scan. generalize (length (rd_bytes r) + 2)%nat. intros fuel.
  assert (Hgo : forall fuel r first h d log, log_inv (so_sequence_rule options) h log ->
    ordered (so_sequence_rule options) (scan_loop (logging dec) options fuel r first h (d, log)).2.2).
  2:{ apply Hgo. destruct options as [? [| |]]; repeat constructor. }
  clear. induction fuel as [|fuel IH]; intros r first h d log Hi; [apply Hi|].
  cbn [scan_loop]. destruct (match first with Some _ => _ | None => _ end) as [[[|line|line|]|e] r'];
    try apply Hi. cbn [ld_decode logging].
  destruct (ld_decode dec _ d) as [[p|e] d1]; [|apply Hi].
  destruct (observe_line _ _ _ _ _) as [h' v] eqn:Eo. cbn [ld_apply logging].
  eapply log_inv_step in Eo.
  2:{ instantiate (1 := log). exact Hi. }
  destruct (ld_apply dec _ _ _ d1) as [[[]|e] d2]; [|apply Eo..].
  apply IH, Eo.
Qed.

(** ** Accounting *)

Record health_inv (h : LedgerHealth) (left : Z) : Prop := MkHealthInv {
  hi_len : length h.(lh_issue_counts) = 8%nat;
  hi_nonneg : Forall (fun n => 0 <= n) h.(lh_issue_counts);
  hi_first : h.(lh_first_issue) = None <-> Forall (fun n => n = 0) h.(lh_issue_counts);
  hi_incompatible : h.(lh_first_issue) = None -> h.(lh_incompatible_records) = 0;
  hi_records : 0 <= h.(lh_accepted_records) /\ 0 <= h.(lh_incompatible_records)
    /\ h.(lh_accepted_records) + h.(lh_incompatible_records) <= h.(lh_complete_lines);
  hi_room : h.(lh_complete_lines) + left <= u64_max;
}.

Lemma kind_index_lt kind : (kind_index kind < 8)%nat.
Proof. destruct kind; simpl; lia. Qed.

Lemma issue_count_nonneg h kind left : health_inv h left -> 0 <= issue_count h kind.
Proof.
  intros [Hl Hn _ _ _ _]. unfold issue_count.
  destruct (lookup_lt_is_Some_2 (lh_issue_counts h) (kind_index kind)) as [n Hk].
  { rewrite Hl. apply kind_index_lt. }
  rewrite Hk. simpl. by eapply (Forall_lookup_1 _ _ _ _ Hn).
Qed.

(** Recording an issue keeps the counts and the first issue in step. *)
Lemma health_issue_inv h kind line offset left :
  health_inv h left ->
  health_inv (health_issue h kind line offset) left
  /\ (health_issue h kind line offset).(lh_first_issue) <> None.
Proof.
  intros Hi. pose proof (issue_count_nonneg h kind left Hi) as Hc.
  destruct Hi as [Hl Hn Hf Hinc Hr Hroom].
  assert (Hne : (health_issue h kind line offset).(lh_first_issue) <> None)
    by (unfold health_issue; cbn [set_field lh_first_issue]; by destruct (lh_first_issue h)).
  split; [|exact Hne]. apply MkHealthInv; try assumption; unfold health_issue at 1;
    cbn [set_field lh_issue_counts].
  - by rewrite length_insert.
  - apply Forall_insert; [exact Hn|]. apply Z.lt_le_incl, saturating_succ_pos, Hc.
  - split; [intros H0; contradiction|]. intros H0. exfalso.
    eapply (Forall_lookup_1 _ _ (kind_index kind)) in H0.
    2:{ apply list_lookup_insert_eq. rewrite Hl. apply kind_index_lt. }
    cbv beta in H0. pose proof (saturating_succ_pos _ Hc) as Hp. rewrite H0 in Hp.
    by apply Z.lt_irrefl in Hp.
  - intros H0. contradiction.
Qed.

Lemma saturating_add_exact a b : a + b <= u64_max -> saturating_add a b = a + b.
Proof. unfold saturating_add. lia. Qed.

(** The fields that [observe_line] does not count with do not matter to the invariant. *)
Lemma health_inv_ext h h' left :
  health_inv h left ->
  h'.(lh_issue_counts) = h.(lh_issue_counts) -> h'.(lh_first_issue) = h.(lh_first_issue) ->
  h'.(lh_accepted_records) = h.(lh_accepted_records) ->
  h'.(lh_incompatible_records) = h.(lh_incompatible_records) ->
  h'.(lh_complete_lines) = h.(lh_complete_lines) -> health_inv h' left.
Proof. intros [????? Hroom] E1 E2 E3 E4 E5. constructor; rewrite ?E1, ?E2, ?E3, ?E4, ?E5; done. Qed.

(** The issues of one line, before it is counted. *)
Definition line_issues (rule : SequenceRule) (h : LedgerHealth) (o : RecordObservation)
    (number offset : Z) : LedgerHealth :=
  let h := match o with Rejected _ kind => health_issue h kind number offset | _ => h end in
  let h := if negb (sequence_valid rule h (observe o).1.1)
           then health_issue h Sequence number offset else h in
  match (observe o).1.1 with
  | None => h
  | Some s =>
      let h := h <| lh_max_observed_sequence := option_max h.(lh_max_observed_sequence) (Some s) |> in
      if (s =? u64_max) && (issue_count h SequenceExhausted =? 0)
      then health_issue h SequenceExhausted number offset else h
  end.

Lemma health_issue_counts_kept h kind n o :
  (health_issue h kind n o).(lh_accepted_records) = h.(lh_accepted_records)
  /\ (health_issue h kind n o).(lh_incompatible_records) = h.(lh_incompatible_records)
  /\ (health_issue h kind n o).(lh_complete_lines) = h.(lh_complete_lines).
Proof. done. Qed.

Lemma line_issues_inv rule h o number offset left :
  health_inv h left ->
  let h' := line_issues rule h o number offset in
  health_inv h' left
  /\ h'.(lh_accepted_records) = h.(lh_accepted_records)
  /\ h'.(lh_incompatible_records) = h.(lh_incompatible_records)
  /\ h'.(lh_complete_lines) = h.(lh_complete_lines)
  /\ ((observe o).1.2 || negb (sequence_valid rule h (observe o).1.1) = true ->
      h'.(lh_first_issue) <> None).
Proof.
  intros Hi. unfold line_issues.
  set (h1 := match o with Rejected _ kind => _ | _ => h end).
  assert (H1 : health_inv h1 left /\ lh_accepted_records h1 = lh_accepted_records h
    /\ lh_incompatible_records h1 = lh_incompatible_records h
    /\ lh_complete_lines h1 = lh_complete_lines h
    /\ ((observe o).1.2 = true -> lh_first_issue h1 <> None)
    /\ sequence_valid rule h1 (observe o).1.1 = sequence_valid rule h (observe o).1.1).
  { unfold h1. destruct o as [| |hint kind]; [split_and!; try done..|].
    destruct (health_issue_inv h kind number offset left Hi) as [Hi1 Hf1].
    split_and!; done. }
  clearbody h1. destruct H1 as (Hi1 & Ha1 & Hb1 & Hc1 & Hf1 & Hv1). rewrite Hv1.
  set (h2 := if negb _ then _ else h1).
  assert (H2 : health_inv h2 left /\ lh_accepted_records h2 = lh_accepted_records h
    /\ lh_incompatible_records h2 = lh_incompatible_records h
    /\ lh_complete_lines h2 = lh_complete_lines h
    /\ ((observe o).1.2 || negb (sequence_valid rule h (observe o).1.1) = true ->
        lh_first_issue h2 <> None)).
  { unfold h2. destruct (sequence_valid rule h _); cbn [negb].
    - rewrite orb_false_r. done.
    - destruct (health_issue_inv h1 Sequence number offset left Hi1) as [Hi2 Hf2].
      split_and!; auto. }
  clearbody h2. destruct H2 as (Hi2 & Ha2 & Hb2 & Hc2 & Hf2).
  destruct (observe o).1.1 as [s|]; [|split_and!; done].
  set (h3 := h2 <| lh_max_observed_sequence := _ |>).
  assert (Hi3 : health_inv h3 left) by (eapply health_inv_ext; [exact Hi2|done..]).
  destruct (_ && _); [|split_and!; done].
  destruct (health_issue_inv h3 SequenceExhausted number offset left Hi3) as [Hi4 Hf4].
  split_and!; auto.
Qed.

Lemma observe_line_issues rule h {Rec} (p : PreparedRecord Rec) number offset :
  observe_line rule h p number offset =
  let h0 := match p.(pr_record) with
            | Some _ => h <| lh_decoded_records := saturating_add h.(lh_decoded_records) 1 |>
            | None => h
            end in
  let '(sequence, rejected, skipped) := observe p.(pr_observation) in
  let bad := rejected || negb (sequence_valid rule h sequence) in
  let h1 := line_issues rule h0 p.(pr_observation) number offset in
  let h2 := if bad then h1 <| lh_incompatible_records :=
                             saturating_add h1.(lh_incompatible_records) 1 |> else h1 in
  let verdict := if bad then Invalid
                 else if bool_decide (is_Some sequence) && is_sequenced rule then Valid
                 else Unsequenced in
  if negb skipped && negb bad then
    let h3 := h2 <| lh_accepted_records := saturating_add h2.(lh_accepted_records) 1 |> in
    (match sequence with
     | Some s => h3 <| lh_last_accepted_sequence := Some s |>
     | None => h3
     end, verdict)
  else (h2, verdict).
Proof.
  unfold observe_line, line_issues. destruct p as [obs rec]. cbn [pr_record pr_observation].
  set (h0 := match rec with Some _ => _ | None => h end).
  assert (Hv : forall s, sequence_valid rule h0 s = sequence_valid rule h s)
    by (intros s; unfold h0; by destruct rec, rule, s).
  clearbody h0. destruct (observe obs) as [[sequence rejected] skipped] eqn:Eo.
  cbn [fst snd].
  set (h1 := match obs with Rejected _ kind => _ | _ => h0 end).
  assert (Hv1 : sequence_valid rule h1 sequence = sequence_valid rule h sequence)
    by (rewrite <-Hv; unfold h1; by destruct obs, rule, sequence).
  clearbody h1. rewrite Hv1. destruct (rejected || negb (sequence_valid rule h sequence)); [done|].
  cbn beta iota. destruct (bool_decide _ && _); cbn beta iota;
    (rewrite bool_decide_eq_false_2 by done); done.
Qed.

Lemma observe_line_inv rule h {Rec} (p : PreparedRecord Rec) number offset left h' v :
  observe_line rule h p number offset = (h', v) -> health_inv h left ->
  h.(lh_accepted_records) + h.(lh_incompatible_records) + 1 <= h.(lh_complete_lines) ->
  0 <= left -> health_inv h' left.
Proof.
  rewrite observe_line_issues. intros H Hi Hroom Hleft.
  set (h0 := match pr_record p with Some _ => _ | None => h end) in H.
  assert (Hi0 : health_inv h0 left /\ lh_accepted_records h0 = lh_accepted_records h
    /\ lh_incompatible_records h0 = lh_incompatible_records h
    /\ lh_complete_lines h0 = lh_complete_lines h
    /\ forall s, sequence_valid rule h0 s = sequence_valid rule h s).
  { unfold h0. destruct (pr_record p); [|done].
    split; [eapply health_inv_ext; [exact Hi|done..]|]. split_and!; done. }
  clearbody h0. destruct Hi0 as (Hi0 & Ha0 & Hb0 & Hc0 & Hv0).
  pose proof (line_issues_inv rule h0 (pr_observation p) number offset _ Hi0)
    as (Hi1 & Ha1 & Hb1 & Hc1 & Hf1). rewrite Hv0 in Hf1.
  destruct (observe (pr_observation p)) as [[sequence rejected] skipped]. cbn [fst snd] in *.
  set (h1 := line_issues _ _ _ _ _) in *. clearbody h1.
  set (bad := rejected || _) in *. clearbody bad. cbv zeta in H.
  destruct Hi1 as [Hl Hn Hfi Hin (Hr1 & Hr2 & Hr3) Hroom1].
  assert (E1 : saturating_add (lh_incompatible_records h1) 1 = lh_incompatible_records h1 + 1)
    by (apply saturating_add_exact; lia).
  assert (E2 : saturating_add (lh_accepted_records h1) 1 = lh_accepted_records h1 + 1)
    by (apply saturating_add_exact; lia).
  destruct bad; cbn [negb andb] in H.
  - rewrite andb_false_r in H. injection H as <- _. rewrite E1.
    constructor; cbn [set_field lh_issue_counts lh_first_issue lh_incompatible_records
      lh_accepted_records lh_complete_lines]; try done; [|lia..].
    intros Hnone. by destruct (Hf1 eq_refl).
  - rewrite andb_true_r in H. destruct (negb skipped).
    + destruct sequence; injection H as <- _; rewrite E2;
        (constructor; cbn [set_field lh_issue_counts lh_first_issue lh_incompatible_records
           lh_accepted_records lh_complete_lines]; try done; lia).
    + injection H as <- _. constructor; try done; lia.
Qed.

(** The health report is consistent for any file and any decoder: it names a first
    issue exactly when some issue was counted, a report without an issue has no
    incompatible record, and no line is counted both as accepted and as incompatible. *)
Theorem scan_health_consistent {D Rec} (dec : LedgerDecoder D Rec) options r d h d' :
  scan_jsonl dec options r d = (Ok h, d') -> blen r.(rd_bytes) < u64_max ->
  (h.(lh_first_issue) = None <-> forall kind, issue_count h kind = 0)
  /\ (h.(lh_first_issue) = None -> h.(lh_incompatible_records) = 0)
  /\ h.(lh_accepted_records) + h.(lh_incompatible_records) <= h.(lh_complete_lines).
Proof.
  intros Hs Hb.
  assert (Hgo : forall fuel r h0 d h d', health_inv h0 (blen (rd_bytes r)) ->
    scan_loop dec options fuel r None h0 d = (Ok h, d') -> exists left, health_inv h left).
  { clear. induction fuel as [|fuel IH]; intros r h0 d h d' Hi H; [done|]. cbn [scan_loop] in H.
    destruct (read_jsonl_line_buffered r _) as [[[|line|line|]|e] r'] eqn:Er; [..|done].
    - injection H as <- _. eauto.
    - apply read_line_consumes in Er as (Hrb & Hl & _).
      destruct (ld_decode dec _ d) as [[p|e] d1]; [|done].
      destruct (observe_line _ _ _ _ _) as [h' v] eqn:Eo.
      pose proof (blen_nonneg (rd_bytes r')) as Hn. rewrite Hrb, blen_app in Hi.
      assert (Hsat : saturating_add (lh_complete_lines h0) 1 = lh_complete_lines h0 + 1).
      { apply saturating_add_exact. destruct Hi. lia. }
      eapply (observe_line_inv _ _ _ _ _ (blen (rd_bytes r'))) in Eo; [| |
        cbn [set_field lh_accepted_records lh_incompatible_records lh_complete_lines];
        rewrite Hsat; destruct Hi; lia|lia].
      2:{ rewrite Hsat. destruct Hi. constructor; try done;
          cbn [set_field lh_accepted_records lh_incompatible_records lh_complete_lines]; lia. }
      destruct (ld_apply dec _ _ _ d1) as [[[]|e] d2]; [|injection H as <- _; eauto|done].
      eapply IH; eauto.
    - injection H as <- _. eexists. eapply health_issue_inv, health_inv_ext; [exact Hi|done..].
    - injection H as <- _. eexists. eapply health_issue_inv, health_inv_ext; [exact Hi|done..]. }
  eapply Hgo in Hs as [left [Hl Hn Hf Hin Hr _]].
  2:{ constructor; cbn; [done|by repeat (constructor; [lia|])|split; [by repeat constructor|done]
        |done|lia|lia]. }
  split_and!; [|done|lia]. rewrite Hf. split.
  - intros H0 kind. unfold issue_count.
    destruct (lookup_lt_is_Some_2 (lh_issue_counts h) (kind_index kind)) as [n Hk].
    { rewrite Hl. apply kind_index_lt. }
    rewrite Hk. by eapply (Forall_lookup_1 _ _ _ _ H0).
  - intros H0. apply Forall_lookup_2. intros i n Hi.
    assert (exists kind, kind_index kind = i) as [kind <-].
    { apply lookup_lt_Some in Hi. rewrite Hl in Hi.
      do 8 (destruct i as [|i]; [by (exists TornTail + exists OversizedLine + exists Decode
        + exists Schema + exists Sequence + exists SequenceExhausted + exists Checksum
        + exists LedgerInvalidState)|]). lia. }
    specialize (H0 kind). unfold issue_count in H0. by rewrite Hi in H0.
Qed.

Lemma scan_health_consistent_witness :
  exists h d', scan_jsonl (Visitor collect) (MkScanOptions 64 NoSequence) (MkReader demo_file None) []
    = (Ok h, d') /\ h.(lh_first_issue) <> None
    /\ h.(lh_accepted_records) + h.(lh_incompatible_records) <= h.(lh_complete_lines).
Proof.
  eexists _, _. split; [vm_compute; reflexivity|]. split; [discriminate|].
  eapply (scan_health_consistent (Visitor collect) (MkScanOptions 64 NoSequence)
            (MkReader demo_file None) []); vm_compute; reflexivity.
Defined.
