(* ===== verification/LedgerRun.v ===== *)
(** * Scans that find nothing wrong

    A ledger whose records are numbered from one, read by a decoder that accepts every line:
    the scan reports no issue exactly when each line is complete, within the bound, accepted
    and next in sequence, and then the decoder has seen the lines in order ([run]).  Used by
    the ledgers that refuse a file with any issue. *)

From S2P Require Import Prelude Ledger.

(** A whole line within the bound. *)
Definition line_ok (max : Z) (l : bytes) : Prop := line_shape l /\ blen l <= max.

Lemma read_until_complete limit b line rest :
  read_until limit b = (line, rest) -> ends_with_newline line = true -> line_shape line.
Proof.
  revert limit line rest. induction b as [|c b IH]; intros limit line rest; cbn [read_until].
  { destruct (limit <=? 0); intros [= <- <-]; done. }
  destruct (limit <=? 0); [intros [= <- <-]; done|].
  destruct (Ascii.eqb_spec c newline) as [->|Hc].
  { intros [= <- <-] _. exists []. split; [constructor|done]. }
  destruct (read_until (limit - 1) b) as [l r] eqn:E. intros [= <- <-] He.
  destruct l as [|x l].
  { unfold ends_with_newline in He. simpl in He. by destruct (Ascii.eqb_spec c newline). }
  assert (ends_with_newline (x :: l) = true) as He' by exact He.
  destruct (IH _ _ _ E He') as (body & Hb & ->). exists (c :: body).
  split; [by constructor|done].
Qed.

(** What a successful read of a line says of the bytes. *)
Lemma read_inv r max next r' :
  read_jsonl_line_buffered r max = (Ok next, r') -> r'.(rd_fails) = r.(rd_fails)
  /\ match next with
     | Complete line => r.(rd_bytes) = line ++ r'.(rd_bytes) /\ line_ok max line
     | Eof => 0 <= max -> r.(rd_bytes) = [] /\ r.(rd_fails) = None
     | _ => True
     end.
Proof.
  unfold read_jsonl_line_buffered. destruct (read_until _ _) as [l rest] eqn:E.
  destruct (hit_end _ l) eqn:Hh.
  - destruct (rd_fails r) as [m|] eqn:Ef; [done|]. intros [= <- <-]. split; [done|]. simpl.
    destruct (Z.eqb_spec (blen l) 0) as [H0|H0].
    + intros Hm. split; [|done]. destruct (rd_bytes r) as [|c b] eqn:Eb; [done|].
      apply read_until_nonempty in E; [|by apply saturating_succ_pos]. by destruct l.
    + destruct (Z.ltb_spec max (blen l)); [done|].
      destruct (ends_with_newline l) eqn:He; [|done]. split; [by apply read_until_app in E|].
      split; [by eapply read_until_complete|done].
  - intros [= <- <-]. split; [done|]. simpl. destruct (Z.eqb_spec (blen l) 0) as [H0|H0].
    + intros Hm. destruct l; [|unfold blen in H0; simpl in H0; lia].
      unfold hit_end in Hh. simpl in Hh. pose proof (saturating_succ_pos max Hm). lia.
    + destruct (Z.ltb_spec max (blen l)); [done|].
      destruct (ends_with_newline l) eqn:He; [|done]. split; [by apply read_until_app in E|].
      split; [by eapply read_until_complete|done].
Qed.

(** ** Splitting into lines *)

Lemma jsonl_lines_tail tail : no_newline tail -> jsonl_lines tail = ([], tail).
Proof.
  intros Ht. induction Ht as [|c tail Hc _ IH]; [done|]. cbn [jsonl_lines]. rewrite IH.
  by destruct (Ascii.eqb_spec c newline).
Qed.

Lemma jsonl_lines_concat ls tail :
  Forall line_shape ls -> no_newline tail -> jsonl_lines (concat ls ++ tail) = (ls, tail).
Proof.
  intros Hls Ht. induction Hls as [|l ls (body & Hb & ->) _ IH]; [by apply jsonl_lines_tail|].
  cbn [concat]. rewrite <-!app_assoc. induction Hb as [|c body Hc _ IHb].
  - cbn [app jsonl_lines]. rewrite IH. done.
  - cbn [app jsonl_lines] in *. rewrite IHb. by destruct (Ascii.eqb_spec c newline).
Qed.

Lemma lines_short (ls : list bytes) : Forall line_shape ls -> (length ls <= length (concat ls))%nat.
Proof.
  induction 1 as [|l ls (body & _ & ->) _ IH]; [done|]. cbn [concat length].
  rewrite !length_app. simpl. lia.
Qed.

(** ** What a line leaves of the health *)

(** A field of the health that counting does not touch, and that issues keep. *)
Lemma observe_keeps {X} (f : LedgerHealth -> X) (P : X -> Prop) rule h {Rec} (p : PreparedRecord Rec) n o :
  (forall h h', h'.(lh_issue_counts) = h.(lh_issue_counts) ->
     h'.(lh_bytes_observed) = h.(lh_bytes_observed) -> f h' = f h) ->
  (forall h k, P (f h) -> P (f (health_issue h k n o))) ->
  P (f h) -> P (f (observe_line rule h p n o).1).
Proof.
  intros Hf Hi Hp. rewrite observe_line_issues. cbv zeta.
  set (h0 := match pr_record p with Some _ => _ | None => _ end).
  assert (P (f h0)) as H0 by (unfold h0; destruct (pr_record p); [|done]; by erewrite Hf).
  clearbody h0. set (h1 := line_issues rule h0 _ n o).
  assert (P (f h1)) as H1.
  { unfold h1, line_issues.
    set (h2 := match pr_observation p with Rejected _ k => _ | _ => h0 end).
    assert (P (f h2)) as H2 by (unfold h2; destruct (pr_observation p); auto). clearbody h2.
    set (h3 := if negb _ then _ else h2). assert (P (f h3)) as H3 by (unfold h3; destruct (negb _); auto).
    clearbody h3. destruct (observe _).1.1 as [s|]; [|done].
    destruct (_ && _); [apply Hi|]; by erewrite Hf. }
  clearbody h1. destruct (observe (pr_observation p)) as [[[s|] rejected] skipped];
    destruct (rejected || _); destruct skipped; cbn; try (by erewrite Hf); try (repeat case_match; by erewrite Hf).
Qed.

Lemma observe_bytes rule h {Rec} (p : PreparedRecord Rec) n o :
  (observe_line rule h p n o).1.(lh_bytes_observed) = h.(lh_bytes_observed).
Proof. by apply (observe_keeps lh_bytes_observed (fun x => x = _)). Qed.

Definition counts_ok (counts : list Z) : Prop :=
  length counts = 8%nat /\ Forall (fun n => 0 <= n) counts.

Lemma counts_nonneg h k : counts_ok (lh_issue_counts h) -> 0 <= issue_count h k.
Proof.
  intros [Hl Hn]. unfold issue_count. destruct (lh_issue_counts h !! kind_index k) eqn:E; [|done].
  simpl. by eapply (Forall_lookup_1 _ _ _ _ Hn).
Qed.

Lemma counts_ok_issue h k n o :
  counts_ok (lh_issue_counts h) ->
  counts_ok (lh_issue_counts (health_issue h k n o)) /\ 0 < issue_count (health_issue h k n o) k.
Proof.
  intros Hc. pose proof (counts_nonneg h k Hc) as Hk. pose proof Hc as [Hl Hn].
  pose proof (saturating_succ_pos _ Hk) as Hp. split; [split|].
  - unfold health_issue. simpl. by rewrite length_insert.
  - unfold health_issue. simpl. apply Forall_insert; [done|lia].
  - unfold issue_count, health_issue. simpl. rewrite list_lookup_insert_eq; [done|].
    rewrite Hl. apply kind_index_lt.
Qed.

Lemma observe_counts rule h {Rec} (p : PreparedRecord Rec) n o :
  counts_ok (lh_issue_counts h) -> counts_ok (lh_issue_counts (observe_line rule h p n o).1).
Proof.
  apply (observe_keeps lh_issue_counts counts_ok); [done|].
  intros h' k Hc. by apply counts_ok_issue.
Qed.
Lemma line_issues_incompatible rule h o n f :
  (line_issues rule h o n f).(lh_incompatible_records) = h.(lh_incompatible_records).
Proof. unfold line_issues. destruct o as [|[s|]|[s|] k]; cbn [observe fst]; repeat case_match; done. Qed.

Lemma observe_incompatible rule h {Rec} (p : PreparedRecord Rec) n o :
  0 <= h.(lh_incompatible_records) -> 0 <= (observe_line rule h p n o).1.(lh_incompatible_records).
Proof.
  intros Hh. rewrite observe_line_issues. cbv zeta.
  set (h0 := match pr_record p with Some _ => _ | None => _ end).
  assert (lh_incompatible_records h0 = lh_incompatible_records h) as E0 by (unfold h0; by destruct (pr_record p)).
  clearbody h0. set (h1 := line_issues rule h0 _ n o).
  assert (0 <= lh_incompatible_records h1) as Hi1
    by (unfold h1; rewrite line_issues_incompatible; lia).
  clearbody h1. pose proof (saturating_succ_pos _ Hi1).
  destruct (observe (pr_observation p)) as [[[s|] rejected] skipped];
    destruct (rejected || _); destruct skipped; cbn; repeat case_match; cbn; lia.
Qed.

(** A device that fails is not taken for the end of the file. *)
Lemma read_failing r max next r' m :
  0 <= max < u64_max -> r.(rd_fails) = Some m -> read_jsonl_line_buffered r max = (Ok next, r') ->
  r'.(rd_fails) = Some m /\ (next = TooLong \/ exists l, next = Complete l).
Proof.
  intros Hm Hf. unfold read_jsonl_line_buffered. destruct (read_until _ _) as [l rest] eqn:E.
  unfold hit_end. assert (saturating_add max 1 = max + 1) as -> by (unfold saturating_add; lia).
  destruct (ends_with_newline l) eqn:En; cbn [negb andb].
  - intros [= <- <-]. split; [done|]. destruct (Z.eqb_spec (blen l) 0) as [H0|_].
    { destruct l; [done|unfold blen in H0; simpl in H0; lia]. }
    destruct (max <? blen l); eauto.
  - destruct (Z.ltb_spec (blen l) (max + 1)) as [Hl|Hl]; [by rewrite Hf|].
    intros [= <- <-]. split; [done|]. destruct (Z.eqb_spec (blen l) 0); [lia|].
    destruct (Z.ltb_spec max (blen l)); [by left|lia].
Qed.

Section Run.
Context {D Rec : Type}.
Variable dec : LedgerDecoder D Rec.
Variable max : Z.

Definition consecutive : ScanOptions := MkScanOptions max (Consecutive 1).

(** The decoder looks at the bytes of a line only, skips none, and stops at none that it
    accepted. *)
Record plain : Prop := MkPlain {
  pl_decode : forall ln ln', ln.(ln_bytes) = ln'.(ln_bytes) -> dec.(ld_decode) ln = dec.(ld_decode) ln';
  pl_apply : forall ln ln', ln.(ln_bytes) = ln'.(ln_bytes) -> dec.(ld_apply) ln = dec.(ld_apply) ln';
  pl_noskip : forall ln d p d', dec.(ld_decode) ln d = (Ok p, d') -> p.(pr_observation) <> Skip;
  pl_nostop : forall ln p v d d', dec.(ld_apply) ln p v d = (Ok StopScan, d') -> v = Invalid;
}.

Definition line_of (b : bytes) : JsonlLine := MkJsonlLine 0 0 b.

Definition next_sequence (last : option Z) : option Z :=
  match last with Some s => checked_add s 1 | None => Some 1 end.

Definition in_sequence (last sequence : option Z) : bool :=
  match sequence with
  | None => true
  | Some s => bool_decide (next_sequence last = Some s) && negb (s =? u64_max)
  end.

(** One line that is accepted: the sequence it leaves and the decoder after it. *)
Definition run_line (line : bytes) (last : option Z) (d : D) : option (option Z * D) :=
  match dec.(ld_decode) (line_of line) d with
  | (Ok p, d) =>
      match p.(pr_observation) with
      | Accepted sequence =>
          if in_sequence last sequence then
            match dec.(ld_apply) (line_of line) p
                    (if bool_decide (is_Some sequence) then Valid else Unsequenced) d with
            | (Ok Continue, d) =>
                Some (match sequence with Some s => Some s | None => last end, d)
            | _ => None
            end
          else None
      | _ => None
      end
  | _ => None
  end.

Fixpoint run (lines : list bytes) (last : option Z) (d : D) : option (option Z * D) :=
  match lines with
  | [] => Some (last, d)
  | l :: lines => match run_line l last d with Some (last, d) => run lines last d | None => None end
  end.

Lemma run_app l1 l2 last d :
  run (l1 ++ l2) last d = match run l1 last d with Some (last, d) => run l2 last d | None => None end.
Proof.
  revert last d. induction l1 as [|l l1 IH]; intros last d; [done|]. simpl.
  destruct (run_line l last d) as [[? ?]|]; [apply IH|done].
Qed.

(** ** Observing one line *)

Definition clean (h : LedgerHealth) (last : option Z) : Prop :=
  h.(lh_first_issue) = None /\ h.(lh_last_accepted_sequence) = last
  /\ issue_count h SequenceExhausted = 0.

Lemma observe_accepted h last (p : PreparedRecord Rec) sequence number offset :
  clean h last -> p.(pr_observation) = Accepted sequence -> in_sequence last sequence = true ->
  exists h', observe_line (Consecutive 1) h p number offset
             = (h', if bool_decide (is_Some sequence) then Valid else Unsequenced)
    /\ clean h' (match sequence with Some s => Some s | None => last end)
    /\ h'.(lh_bytes_observed) = h.(lh_bytes_observed)
    /\ h'.(lh_complete_lines) = h.(lh_complete_lines).
Proof.
  intros (Hi & Hl & Hx) Ho Hs. unfold observe_line. rewrite Ho. cbn [observe].
  set (h1 := match pr_record p with Some _ => _ | None => _ end).
  assert (clean h1 last /\ lh_bytes_observed h1 = lh_bytes_observed h
          /\ lh_complete_lines h1 = lh_complete_lines h) as ((Hi1 & Hl1 & Hx1) & E1 & E2).
  { unfold h1. destruct (pr_record p); done. }
  clearbody h1. destruct sequence as [s|].
  - unfold in_sequence, next_sequence in Hs. apply andb_prop in Hs as [Hs Hne].
    assert (sequence_valid (Consecutive 1) h1 (Some s) = true) as ->.
    { unfold sequence_valid. rewrite Hl1. exact Hs. }
    cbn [negb]. destruct (s =? u64_max); [done|]. cbn [andb orb negb is_sequenced].
    rewrite bool_decide_eq_true_2 by done. eexists. split; [reflexivity|]. done.
  - cbn [sequence_valid negb orb]. rewrite bool_decide_eq_false_2 by (by intros [? ?]). cbn [andb].
    eexists. split; [reflexivity|]. done.
Qed.

Lemma issue_sticks h kind line offset : (health_issue h kind line offset).(lh_first_issue) <> None.
Proof. unfold health_issue. simpl. by destruct (lh_first_issue h). Qed.

Lemma health_issue_some h kind line offset :
  exists i, (health_issue h kind line offset).(lh_first_issue) = Some i.
Proof. unfold health_issue. simpl. destruct (lh_first_issue h); eauto. Qed.

Lemma health_issue_keeps h i kind line offset :
  h.(lh_first_issue) = Some i -> (health_issue h kind line offset).(lh_first_issue) = Some i.
Proof. unfold health_issue. simpl. by intros ->. Qed.

(** The first issue after a line is the one [line_issues] leaves. *)
Lemma observe_first_issue h (p : PreparedRecord Rec) number offset :
  (observe_line (Consecutive 1) h p number offset).1.(lh_first_issue)
  = (line_issues (Consecutive 1)
       match p.(pr_record) with
       | Some _ => h <| lh_decoded_records := saturating_add h.(lh_decoded_records) 1 |>
       | None => h
       end p.(pr_observation) number offset).(lh_first_issue).
Proof.
  rewrite observe_line_issues. cbv zeta.
  set (h0 := match pr_record p with Some _ => _ | None => _ end). clearbody h0.
  destruct (observe (pr_observation p)) as [[[s|] rejected] skipped];
    destruct (rejected || _); destruct skipped; done.
Qed.

(** An observation that leaves no issue was accepted and next in sequence. *)
Lemma observe_clean_inv h last (p : PreparedRecord Rec) number offset h' v :
  clean h last -> p.(pr_observation) <> Skip ->
  observe_line (Consecutive 1) h p number offset = (h', v) -> h'.(lh_first_issue) = None ->
  exists sequence, p.(pr_observation) = Accepted sequence /\ in_sequence last sequence = true.
Proof.
  intros (Hi & Hl & Hx) Hsk E Hn. apply (f_equal fst) in E. simpl in E. subst h'.
  rewrite observe_first_issue in Hn.
  set (h1 := match pr_record p with Some _ => _ | None => _ end) in Hn.
  assert (clean h1 last) as (Hi1 & Hl1 & Hx1) by (unfold h1; by destruct (pr_record p)).
  clearbody h1. unfold line_issues in Hn.
  destruct (pr_observation p) as [|[s|]|hint k]; [done|..|exfalso]; cbn [observe fst] in Hn.
  - exists (Some s). split; [done|].
    assert (sequence_valid (Consecutive 1) h1 (Some s) = bool_decide (next_sequence last = Some s)) as Hv.
    { unfold sequence_valid. rewrite Hl1. by destruct last. }
    rewrite Hv in Hn. unfold in_sequence. destruct (bool_decide _); cbn [negb andb] in Hn |- *.
    + destruct (s =? u64_max); [exfalso|done]. cbn [andb] in Hn.
      change (issue_count (h1 <| lh_max_observed_sequence := _ |>) SequenceExhausted)
        with (issue_count h1 SequenceExhausted) in Hn. rewrite Hx1 in Hn. by apply issue_sticks in Hn.
    + exfalso. destruct (_ && _) in Hn; [by apply issue_sticks in Hn|].
      destruct (health_issue_some h1 Sequence number offset) as [i Hs]. simpl in Hn, Hs. congruence.
  - by exists None.
  - destruct (health_issue_some h1 k number offset) as [i Hs].
    set (h2 := health_issue h1 k number offset) in *. clearbody h2.
    set (h3 := if negb _ then health_issue h2 Sequence number offset else h2) in Hn.
    assert (lh_first_issue h3 = Some i) as H3.
    { unfold h3. destruct (negb _); [by apply health_issue_keeps|done]. }
    clearbody h3. destruct hint as [s|]; [|congruence].
    destruct (_ && _) in Hn; [by apply issue_sticks in Hn|]. simpl in Hn. congruence.
Qed.

(** ** The scan *)

Hypothesis Hplain : plain.
Hypothesis Hmax : 0 <= max < u64_max.

Lemma clean_bytes h last b n : clean h last ->
  clean (h <| lh_bytes_observed := b |> <| lh_complete_lines := n |>) last.
Proof. done. Qed.

Lemma line_ok_read l rest :
  line_ok max l ->
  read_jsonl_line_buffered (MkReader (l ++ rest) None) max = (Ok (Complete l), MkReader rest None).
Proof.
  intros [(body & Hb & ->) Hl]. rewrite <-app_assoc. apply read_complete; [done| |lia].
  rewrite blen_app in Hl. change (blen [newline]) with 1 in Hl. lia.
Qed.

Lemma scan_of_run lines fuel h last d last' d' :
  Forall (line_ok max) lines -> clean h last -> run lines last d = Some (last', d') ->
  (length lines < fuel)%nat ->
  exists h', scan_loop dec consecutive fuel (MkReader (concat lines) None) None h d = (Ok h', d')
             /\ h'.(lh_first_issue) = None.
Proof.
  revert fuel h last d. induction lines as [|l lines IH]; intros fuel h last d Hls Hc Hr Hf;
    (destruct fuel as [|fuel]; [simpl in Hf; lia|]); cbn [scan_loop concat].
  - injection Hr as <- <-. cbn [so_max_line_bytes consecutive].
    assert (read_jsonl_line_buffered (MkReader [] None) max = (Ok Eof, MkReader [] None)) as ->.
    { rewrite (read_last [] max); [done|constructor|unfold blen; simpl; lia|lia]. }
    exists h. split; [done|apply Hc].
  - apply Forall_cons in Hls as [Hl Hls]. cbn [so_max_line_bytes consecutive].
    rewrite (line_ok_read l (concat lines) Hl). cbn [run] in Hr. unfold run_line in Hr.
    set (ln := MkJsonlLine _ _ l).
    rewrite (pl_decode Hplain ln (line_of l) eq_refl).
    destruct (ld_decode dec (line_of l) d) as [[p|e] d1]; [|done].
    destruct (pr_observation p) as [|sequence|] eqn:Ho; [done| |done].
    destruct (in_sequence last sequence) eqn:Hs; [|done].
    cbn [so_sequence_rule consecutive].
    match goal with |- context [observe_line _ ?h0 p ?n ?o] =>
      destruct (observe_accepted h0 last p sequence n o) as (h1 & -> & Hc1 & _ & _); [done|done|done|] end.
    rewrite (pl_apply Hplain ln (line_of l) eq_refl).
    destruct (ld_apply dec (line_of l) p _ d1) as [[[|]|e] d2]; [|done|done].
    eapply IH; [done|exact Hc1|exact Hr|simpl in Hf; lia].
Qed.

Lemma observe_keeps_issue h (p : PreparedRecord Rec) number offset i :
  h.(lh_first_issue) = Some i ->
  (observe_line (Consecutive 1) h p number offset).1.(lh_first_issue) = Some i.
Proof.
  intros Hi. rewrite observe_first_issue. set (h1 := match pr_record p with Some _ => _ | None => _ end).
  assert (lh_first_issue h1 = Some i) as H1 by (unfold h1; by destruct (pr_record p)).
  clearbody h1. unfold line_issues.
  set (h2 := match pr_observation p with Rejected _ k => _ | _ => h1 end).
  assert (lh_first_issue h2 = Some i) as H2
    by (unfold h2; destruct (pr_observation p); [done|done|by apply health_issue_keeps]).
  clearbody h2. set (h3 := if negb _ then _ else h2).
  assert (lh_first_issue h3 = Some i) as H3
    by (unfold h3; destruct (negb _); [by apply health_issue_keeps|done]).
  clearbody h3. destruct (observe _).1.1 as [s|]; [|done].
  destruct (_ && _); [by apply health_issue_keeps|done].
Qed.

Lemma scan_keeps_issue fuel r h d h' d' i :
  scan_loop dec consecutive fuel r None h d = (Ok h', d') -> h.(lh_first_issue) = Some i ->
  h'.(lh_first_issue) = Some i.
Proof.
  revert r h d. induction fuel as [|fuel IH]; intros r h d E Hi; [done|].
  cbn [scan_loop so_max_line_bytes so_sequence_rule consecutive] in E.
  destruct (read_jsonl_line_buffered r max) as [[next|e] r']; [|done]. destruct next as [|l|l|].
  - by injection E as <- <-.
  - destruct (ld_decode dec _ d) as [[p|e] d1]; [|done].
    match type of E with context [observe_line _ ?h0 p ?n ?o] =>
      pose proof (observe_keeps_issue h0 p n o i Hi) as Hk; destruct (observe_line _ h0 p n o) as [h1 v] end.
    destruct (ld_apply dec _ p v d1) as [[[|]|e] d2]; [by eapply IH|by injection E as <- <-|done].
  - injection E as <- <-. by apply health_issue_keeps.
  - injection E as <- <-. by apply health_issue_keeps.
Qed.

Lemma run_of_scan fuel r h last d h' d' :
  clean h last -> scan_loop dec consecutive fuel r None h d = (Ok h', d') ->
  h'.(lh_first_issue) = None ->
  r.(rd_fails) = None /\ exists lines last', r.(rd_bytes) = concat lines /\ Forall (line_ok max) lines
    /\ run lines last d = Some (last', d').
Proof.
  revert r h last d. induction fuel as [|fuel IH]; intros r h last d Hc E Hn; [done|].
  cbn [scan_loop so_max_line_bytes so_sequence_rule consecutive] in E.
  destruct (read_jsonl_line_buffered r max) as [[next|e] r'] eqn:Er; [|done].
  apply read_inv in Er as [Hf Hread]. destruct next as [|l|l|].
  - injection E as <- <-. destruct Hread as [Hb Hfn]; [lia|]. split; [done|].
    exists [], last. rewrite Hb. split; [done|]. split; [constructor|done].
  - destruct Hread as [Hb Hl]. set (ln := MkJsonlLine _ _ l) in E.
    rewrite (pl_decode Hplain ln (line_of l) eq_refl) in E.
    destruct (ld_decode dec (line_of l) d) as [[p|e] d1] eqn:Ed; [|done].
    destruct (observe_line _ _ p _ _) as [h1 v] eqn:Eo.
    rewrite (pl_apply Hplain ln (line_of l) eq_refl) in E.
    assert (lh_first_issue h1 = None -> exists sequence, pr_observation p = Accepted sequence
      /\ in_sequence last sequence = true
      /\ clean h1 (match sequence with Some s => Some s | None => last end)
      /\ v = (if bool_decide (is_Some sequence) then Valid else Unsequenced)) as Hobs.
    { intros Hn1. pose proof (pl_noskip Hplain _ _ _ _ Ed) as Hsk.
      destruct (observe_clean_inv _ last p _ _ h1 v (clean_bytes _ _ _ _ Hc) Hsk Eo Hn1)
        as (sequence & Ho & Hs). exists sequence.
      match type of Eo with observe_line _ ?h0 p ?n ?o = _ =>
        destruct (observe_accepted h0 last p sequence n o (clean_bytes _ _ _ _ Hc) Ho Hs)
          as (h2 & Eo2 & Hc2 & _ & _) end.
      rewrite Eo2 in Eo. by injection Eo as <- <-. }
    destruct (ld_apply dec (line_of l) p v d1) as [[[|]|e] d2] eqn:Ea; [| |done].
    + destruct (lh_first_issue h1) as [i|] eqn:Hn1.
      { pose proof (scan_keeps_issue _ _ _ _ _ _ _ E Hn1). congruence. }
      destruct (Hobs eq_refl) as (sequence & Ho & Hs & Hc2 & ->).
      destruct (IH _ _ _ _ Hc2 E Hn) as (Hfn & lines & last' & Hb' & Hls & Hr).
      split; [congruence|]. exists (l :: lines), last'. split; [by rewrite Hb, Hb'|].
      split; [by constructor|]. cbn [run]. unfold run_line. by rewrite Ed, Ho, Hs, Ea.
    + injection E as <- <-. destruct (Hobs Hn) as (sequence & _ & _ & _ & ->).
      apply (pl_nostop Hplain) in Ea. by destruct (bool_decide _).
  - injection E as <- <-. by apply issue_sticks in Hn.
  - injection E as <- <-. by apply issue_sticks in Hn.
Qed.
End Run.
