(* ===== verification/Json.v ===== *)
(** * JSON values and request digests

    The [serde_json] values the idempotency code hashes and stores, and the canonical
    digest of [crates/interface-core/src/idempotency.rs] ([canonicalize],
    [canonical_sha256], [command_identity_sha256]).

    An object is the list of its members in iteration order, with distinct keys: the
    insertion-ordered backing of [serde_json::Map]; the sorted backing is the case of
    sorted lists.  JSON text and SHA-256 are third-party code and stay parameters
    ([JsonLib]). *)

From S2P Require Import Prelude Ledger.
From Stdlib Require Import Ascii.

Inductive JsonValue :=
| Null
| JBool (b : bool)
| Number (text : string)
| JString (s : string)
| Array (items : list JsonValue)
| Object (members : list (string * JsonValue)).

(** [Map::insert] and [FromIterator for Map]: a later member replaces the value of an
    earlier one with the same key, in place. *)
Fixpoint map_insert {V} (k : string) (v : V) (m : list (string * V)) : list (string * V) :=
  match m with
  | [] => [(k, v)]
  | (k', v') :: m' => if bool_decide (k = k') then (k', v) :: m' else (k', v') :: map_insert k v m'
  end.

Definition map_collect {V} (l : list (string * V)) : list (string * V) :=
  fold_left (fun m p => map_insert p.1 p.2 m) l [].

Fixpoint canonicalize (value : JsonValue) : JsonValue :=
  match value with
  | Object map =>
      let entries := List.map (fun p => (p.1, canonicalize p.2)) map in
      Object (map_collect (merge_sort entry_le entries))
  | Array items => Array (List.map canonicalize items)
  | scalar => scalar
  end.

Definition Digest : Type := list Z.

(** What the digests use of [serde_json] and [sha2]. *)
Class JsonLib := to_vec : JsonValue -> result bytes string.
Class Sha2 := sha256 : bytes -> Digest.

(** Decimal text of a [u16]. *)
Class Decimal16 := u16_text : Z -> string.

Section Digests.
Context `{JsonLib, Sha2}.

(** [canonical_sha256] of a value that was serialized ([serde_json::to_value]); [None]
    when that failed.  The only error is [canonicalization_error]. *)
Definition canonical_sha256 (value : option JsonValue) : option Digest :=
  v ← value;
  match to_vec (canonicalize v) with
  | Ok b => Some (sha256 b)
  | Err _ => None
  end.

Definition command_identity `{Decimal16} (schema_version : Z)
    (session_id page_id command : JsonValue) (consent : bool) : JsonValue :=
  Object [("schemaVersion", Number (u16_text schema_version));
          ("sessionId", session_id);
          ("pageId", page_id);
          ("command", command);
          ("consent", JBool consent)].

Definition command_identity_sha256 `{Decimal16} (schema_version : Z)
    (session_id page_id command : option JsonValue) (consent : bool) : option Digest :=
  s ← session_id; p ← page_id; c ← command;
  canonical_sha256 (Some (command_identity schema_version s p c consent)).
End Digests.

(** ** Values up to the order of object members *)

Section JsonInd.
Variable P : JsonValue -> Prop.
Hypothesis HNull : P Null.
Hypothesis HBool : forall b, P (JBool b).
Hypothesis HNumber : forall n, P (Number n).
Hypothesis HString : forall s, P (JString s).
Hypothesis HArray : forall l, Forall P l -> P (Array l).
Hypothesis HObject : forall m, Forall (fun p => P p.2) m -> P (Object m).

Fixpoint JsonValue_ind_nested (v : JsonValue) : P v :=
  match v with
  | Null => HNull
  | JBool b => HBool b
  | Number n => HNumber n
  | JString s => HString s
  | Array l => HArray l ((fix go l := match l return Forall P l with
                                      | [] => Forall_nil_2 P
                                      | x :: l' => Forall_cons_2 P x l' (JsonValue_ind_nested x) (go l')
                                      end) l)
  | Object m => HObject m ((fix go m := match m return Forall (fun p => P p.2) m with
                                        | [] => Forall_nil_2 _
                                        | p :: m' => Forall_cons_2 (fun p => P p.2) p m'
                                                       (JsonValue_ind_nested p.2) (go m')
                                        end) m)
  end.
End JsonInd.

(** Every object of the value has distinct keys. *)
Inductive json_wf : JsonValue -> Prop :=
| wf_null : json_wf Null
| wf_bool b : json_wf (JBool b)
| wf_number n : json_wf (Number n)
| wf_string s : json_wf (JString s)
| wf_array l : Forall json_wf l -> json_wf (Array l)
| wf_object m : NoDup m.*1 -> Forall (fun p => json_wf p.2) m -> json_wf (Object m).

Inductive same_json : JsonValue -> JsonValue -> Prop :=
| same_null : same_json Null Null
| same_bool b : same_json (JBool b) (JBool b)
| same_number n : same_json (Number n) (Number n)
| same_string s : same_json (JString s) (JString s)
| same_array l k : Forall2 same_json l k -> same_json (Array l) (Array k)
| same_object m m' n :
    m ≡ₚ m' -> Forall2 (fun a b => a.1 = b.1 /\ same_json a.2 b.2) m' n ->
    same_json (Object m) (Object n).

(** ** Canonical form *)

Lemma entry_le_iff {V} (a b : string * V) : entry_le a b <-> String.le a.1 b.1.
Proof. unfold entry_le, str_leb, String.le. by rewrite Is_true_true. Qed.

#[export] Instance entry_le_trans {V} : Transitive (@entry_le V).
Proof. intros a b c. rewrite !entry_le_iff. apply transitivity. Qed.

#[export] Instance entry_le_total {V} : Total (@entry_le V).
Proof. intros a b. rewrite !entry_le_iff. apply total, _. Qed.

Lemma entry_le_antisym {V} (a b : string * V) : entry_le a b -> entry_le b a -> a.1 = b.1.
Proof. rewrite !entry_le_iff. apply anti_symm, _. Qed.

(** Two orders of the same members, keys distinct, sort to the same list. *)
Lemma merge_sort_perm {V} (m n : list (string * V)) :
  m ≡ₚ n -> NoDup m.*1 -> merge_sort entry_le m = merge_sort entry_le n.
Proof.
  intros Hp Hm. apply (StronglySorted_unique_strong entry_le); try apply (StronglySorted_merge_sort _).
  2: by rewrite !merge_sort_Permutation.
  intros [a va] [b vb] Ha Hb H1 H2. pose proof (entry_le_antisym _ _ H1 H2) as E. simpl in E. subst b.
  rewrite merge_sort_Permutation in Ha, Hb. rewrite <-Hp in Hb.
  apply list_elem_of_lookup in Ha as [i Hi], Hb as [j Hj].
  assert (i = j) as ->; [|congruence].
  eapply NoDup_lookup; [exact Hm| |]; by rewrite list_lookup_fmap, ?Hi, ?Hj.
Qed.

Lemma map_insert_new {V} k (v : V) m : k ∉ m.*1 -> map_insert k v m = m ++ [(k, v)].
Proof.
  induction m as [|[k' v'] m IH]; simpl; [done|].
  rewrite not_elem_of_cons. intros [Hne Hm].
  rewrite bool_decide_eq_false_2 by done. by rewrite IH.
Qed.

(** Collecting members with distinct keys keeps them as they are. *)
Lemma map_collect_nodup {V} (l : list (string * V)) : NoDup l.*1 -> map_collect l = l.
Proof.
  unfold map_collect. intros Hl.
  enough (forall m, NoDup (m ++ l).*1 -> fold_left (fun m p => map_insert p.1 p.2 m) l m = m ++ l)
    as H by (by apply (H [])).
  clear Hl. induction l as [|[k v] l IH]; intros m Hm; simpl; [by rewrite app_nil_r|].
  rewrite map_insert_new; [rewrite IH; by rewrite <-app_assoc|].
  rewrite fmap_app, fmap_cons in Hm. apply NoDup_app in Hm as (_ & Hk & _).
  intros Hin. apply (Hk k Hin). simpl. left.
Qed.

Definition canon_member (p : string * JsonValue) : string * JsonValue := (p.1, canonicalize p.2).

Lemma canon_member_keys m : (canon_member <$> m).*1 = m.*1.
Proof. rewrite <-list_fmap_compose. apply list_fmap_ext. by intros ? []. Qed.

Lemma sorted_keys {V} (m : list (string * V)) : (merge_sort entry_le m).*1 ≡ₚ m.*1.
Proof. by rewrite merge_sort_Permutation. Qed.

Lemma canonicalize_object m :
  NoDup m.*1 -> canonicalize (Object m) = Object (merge_sort entry_le (canon_member <$> m)).
Proof.
  intros Hm. simpl. f_equal. apply map_collect_nodup.
  rewrite sorted_keys. change (List.map _ m) with (canon_member <$> m). by rewrite canon_member_keys.
Qed.

(** A value differs from its canonical form only in the order of object members. *)
Lemma canonicalize_inj v : forall w,
  json_wf v -> json_wf w -> canonicalize v = canonicalize w -> same_json v w.
Proof.
  induction v as [|b0|n0|s0|l IH|m IH] using JsonValue_ind_nested; intros w Hv Hw E;
    destruct w as [| | | |k|n]; try discriminate E; try (by simplify_eq; constructor).
  - inversion Hv as [| | | |? Hl|]; inversion Hw as [| | | |? Hk|]; subst. injection E as E.
    change (canonicalize <$> l = canonicalize <$> k) in E. apply same_array. clear Hv Hw.
    revert k Hk E. induction l as [|x l IHl]; intros [|y k] Hk E; try discriminate E; constructor;
      apply Forall_cons in IH as [??], Hl as [??], Hk as [??]; simpl in E; injection E as ??; auto.
  - inversion Hv as [| | | | |? Nm Hm]; inversion Hw as [| | | | |? Nn Hn]; subst.
    rewrite !canonicalize_object in E by done. injection E as E.
    assert (canon_member <$> m ≡ₚ canon_member <$> n) as Hp.
    { by rewrite <-(merge_sort_Permutation entry_le (_ <$> m)), E, merge_sort_Permutation. }
    symmetry in Hp. apply Permutation_map_inv in Hp as (m' & E' & Hp). symmetry in E'.
    apply (same_object m m' n); [done|]. rewrite Hp in IH, Hm. clear -E' IH Hm Hn.
    revert n E' Hn. induction m' as [|[a v] m' IHm]; intros [|[b w] n] E Hn; try discriminate E;
      constructor; apply Forall_cons in IH as [??], Hm as [??], Hn as [??];
      unfold canon_member in E; simpl in E; injection E as ???; simpl in *; auto.
Qed.

Lemma canonicalize_same v : forall w,
  json_wf v -> json_wf w -> same_json v w -> canonicalize v = canonicalize w.
Proof.
  induction v as [|b0|n0|s0|l IH|m IH] using JsonValue_ind_nested; intros w Hv Hw S;
    inversion S as [| | | |? k HS|? m' n Hp HS]; subst; try done.
  - inversion Hv as [| | | |? Hl|]; inversion Hw as [| | | |? Hk|]; subst. simpl. f_equal.
    clear S Hv Hw. revert Hl IH Hk.
    induction HS; intros Hl IH Hk; simpl; [done|].
    apply Forall_cons in IH as [??], Hl as [??], Hk as [??]. f_equal; auto.
  - inversion Hv as [| | | | |? Nm Hm]; inversion Hw as [| | | | |? Nn Hn]; subst.
    rewrite !canonicalize_object by done. f_equal.
    replace (canon_member <$> n) with (canon_member <$> m').
    { apply merge_sort_perm; [by rewrite Hp|by rewrite canon_member_keys]. }
    rewrite Hp in IH, Hm. clear -IH Hm Hn HS. revert Hm IH Hn.
    induction HS as [|[a v] [b w] m' n [E S]]; intros Hm IH Hn; [done|].
    apply Forall_cons in IH as [??], Hm as [??], Hn as [??]. unfold canon_member in *. simpl in *.
    subst b. f_equal; [f_equal|]; auto.
Qed.

Lemma same_keys_perm_eq {V} (m n : list (string * V)) :
  m ≡ₚ n -> m.*1 = n.*1 -> NoDup m.*1 -> m = n.
Proof.
  intros Hp E Hm. apply list_eq. intros i.
  destruct (m !! i) as [[k v]|] eqn:Hi.
  - assert (n.*1 !! i = Some k) as Hk by (by rewrite <-E, list_lookup_fmap, Hi).
    rewrite list_lookup_fmap in Hk. destruct (n !! i) as [[k' w]|] eqn:Hj; [|done].
    simplify_eq/=. f_equal. f_equal.
    assert ((k, w) ∈ m) as [j Hj']%list_elem_of_lookup
      by (rewrite Hp; by eapply list_elem_of_lookup_2).
    assert (i = j) as ->; [|congruence].
    eapply NoDup_lookup; [exact Hm| |]; by rewrite list_lookup_fmap, ?Hi, ?Hj'.
  - symmetry. apply lookup_ge_None. rewrite <-Hp. by apply lookup_ge_None.
Qed.

(** Objects with the same keys in the same order are the same member by member. *)
Lemma same_object_inv m n :
  NoDup m.*1 -> m.*1 = n.*1 -> same_json (Object m) (Object n) ->
  Forall2 (fun a b => same_json a.2 b.2) m n.
Proof.
  intros Hm E S. inversion S as [| | | | |? m' ? Hp HS]; subst.
  assert (m'.*1 = n.*1) as E'.
  { clear -HS. induction HS as [|? ? ? ? [Ek _] _ IH]; csimpl; congruence. }
  rewrite (same_keys_perm_eq m m') by (done || congruence).
  eapply Forall2_impl; [exact HS|]. by intros ? ? [].
Qed.

(** ** Digests *)

(** No two values of the requests seen have the same digest: SHA-256 without collisions
    on injective JSON text. *)
Class CollisionFree `{JsonLib, Sha2} := {
  digest_inj v w b c : to_vec v = Ok b -> to_vec w = Ok c -> sha256 b = sha256 c -> v = w;
}.

Section DigestFacts.
Context `{JsonLib, Sha2}.

(** Two values have the same canonical form exactly when they are equal up to the order
    of object members, at every depth; with a digest that does not collide, two requests get
    the same identity exactly when they mean the same. *)
Lemma digest_identifies_values `{!CollisionFree} v w d :
  json_wf v -> json_wf w -> canonical_sha256 (Some v) = Some d ->
  canonical_sha256 (Some w) = Some d <-> same_json v w.
Proof.
  intros Hv Hw. unfold canonical_sha256; simpl. split.
  - destruct (to_vec (canonicalize v)) eqn:Ev; [|done].
    destruct (to_vec (canonicalize w)) eqn:Ew; [|done]. intros. simplify_eq.
    apply canonicalize_inj; [done..|]. by eapply digest_inj.
  - intros S. by rewrite <-(canonicalize_same v w).
Qed.

(** The identity of a command is decided by the envelope schema, the session, the page,
    the command and the consent, and by nothing else: with a digest that does not collide, a
    second submission gets the identity of the first exactly when all five agree (the
    JSON ones up to the order of object members). *)
Theorem command_identity_is_exact `{!CollisionFree, Decimal16}
    (Hu16 : forall a b, u16_text a = u16_text b -> a = b)
    v1 s1 p1 c1 k1 v2 s2 p2 c2 k2 d :
  Forall json_wf [s1; p1; c1; s2; p2; c2] ->
  command_identity_sha256 v1 (Some s1) (Some p1) (Some c1) k1 = Some d ->
  command_identity_sha256 v2 (Some s2) (Some p2) (Some c2) k2 = Some d <->
    v1 = v2 /\ same_json s1 s2 /\ same_json p1 p2 /\ same_json c1 c2 /\ k1 = k2.
Proof.
  intros Hwf Hd. rewrite !Forall_cons in Hwf. destruct Hwf as (? & ? & ? & ? & ? & ? & _).
  unfold command_identity_sha256 in *. cbn [mbind option_bind] in *.
  assert (forall v s p c k, json_wf s -> json_wf p -> json_wf c ->
            json_wf (command_identity v s p c k)) as Hid.
  { intros. constructor; [|repeat constructor; done]. simpl.
    apply (bool_decide_unpack _). by vm_compute. }
  rewrite (digest_identifies_values (command_identity v1 s1 p1 c1 k1)) by eauto.
  split.
  - intros S. apply same_object_inv in S; [|apply (bool_decide_unpack _); by vm_compute|done].
    rewrite !Forall2_cons in S. simpl in S. destruct S as (Sv & Ss & Sp & Sc & Sk & _).
    inversion Sv; inversion Sk. eauto 10.
  - intros (-> & ? & ? & ? & ->).
    eapply same_object; [reflexivity|].
    repeat constructor; done.
Qed.
End DigestFacts.

(** ** Values are countable *)

Fixpoint to_tree (v : JsonValue) : gen_tree string :=
  match v with
  | Null => GenNode 0 []
  | JBool b => GenNode (if b then 1 else 2) []
  | Number n => GenNode 3 [GenLeaf n]
  | JString s => GenNode 4 [GenLeaf s]
  | Array l => GenNode 5 (List.map to_tree l)
  | Object m => GenNode 6 (List.map (fun p => GenNode 7 [GenLeaf p.1; to_tree p.2]) m)
  end.

Fixpoint of_tree (t : gen_tree string) : JsonValue :=
  match t with
  | GenNode 1 _ => JBool true
  | GenNode 2 _ => JBool false
  | GenNode 3 [GenLeaf n] => Number n
  | GenNode 4 [GenLeaf s] => JString s
  | GenNode 5 l => Array (List.map of_tree l)
  | GenNode 6 l => Object (List.map (fun t => match t with
                                              | GenNode _ [GenLeaf k; t'] => (k, of_tree t')
                                              | _ => ("", Null)
                                              end) l)
  | _ => Null
  end.

Lemma of_to_tree v : of_tree (to_tree v) = v.
Proof.
  induction v as [|[]|n|s|l IH|m IH] using JsonValue_ind_nested; try done; simpl; f_equal.
  - induction IH; simpl; congruence.
  - induction IH as [|[] ? H ? IHm]; simpl in *; [done|]. by rewrite H, IHm.
Qed.

#[export] Instance JsonValue_eq_dec : EqDecision JsonValue.
Proof.
  refine (fun v w => cast_if (decide (to_tree v = to_tree w))); [|congruence].
  by rewrite <-(of_to_tree v), <-(of_to_tree w), e.
Defined.

#[export] Instance JsonValue_countable : Countable JsonValue :=
  inj_countable' to_tree of_tree of_to_tree.

(** ** A concrete digest *)

Module SampleJson.

Fixpoint digits (p : positive) : bytes :=
  match p with
  | xH => ["1"]
  | xO p => "0" :: digits p
  | xI p => "1" :: digits p
  end%char.

Lemma digits_nonempty p : digits p <> [].
Proof. by destruct p. Qed.

Lemma digits_inj p q : digits p = digits q -> p = q.
Proof.
  revert q. induction p as [p IH|p IH|]; intros [q|q|] E; simpl in E; try discriminate E; try done;
    injection E as E; try (by rewrite (IH _ E));
    by apply digits_nonempty in E || (symmetry in E; by apply digits_nonempty in E).
Qed.

Fixpoint undigits (b : bytes) : option positive :=
  match b with
  | [] => None
  | c :: b =>
      if Ascii.eqb c "0"%char then xO <$> undigits b
      else if Ascii.eqb c "1"%char then Some (match undigits b with Some p => xI p | None => xH end)
      else None
  end.

Lemma undigits_of p tail : undigits tail = None -> undigits (digits p ++ tail) = Some p.
Proof. intros Ht. induction p as [p IH|p IH|]; simpl; [by rewrite IH..|by rewrite Ht]. Qed.

Definition code (c : ascii) : Z := Z.of_N (N_of_ascii c).

#[export] Instance json : JsonLib := fun v => Ok (digits (encode v)).
#[export] Instance sha : Sha2 := fun b => code <$> b.

Lemma code_inj a b : code a = code b -> a = b.
Proof. unfold code. intros E%N2Z.inj. by rewrite <-(ascii_N_embedding a), E, ascii_N_embedding. Qed.

#[export] Instance json_collision_free : CollisionFree.
Proof.
  split. intros v w b c [= <-] [= <-] E. apply (inj encode), digits_inj.
  apply (list_fmap_eq_inj code); [exact code_inj|exact E].
Qed.

#[export] Instance digits16 : Decimal16 := fun n => pretty.pretty n.

(** A click written by two clients that order the members differently. *)
Definition click_a : JsonValue :=
  Object [("type", JString "click"); ("target", Object [("x", Number "3"); ("y", Number "7")])].
Definition click_b : JsonValue :=
  Object [("target", Object [("y", Number "7"); ("x", Number "3")]); ("type", JString "click")].

Lemma clicks_same : same_json click_a click_b.
Proof.
  eapply same_object; [apply Permutation_swap|]. constructor.
  - split; [done|]. eapply same_object; [apply Permutation_swap|]. repeat constructor.
  - repeat constructor.
Qed.

Lemma wf_object_check m :
  bool_decide (NoDup m.*1) = true -> Forall (fun p => json_wf p.2) m -> json_wf (Object m).
Proof. intros H%bool_decide_eq_true. by constructor. Qed.

Lemma command_identity_is_exact_witness :
  command_identity_sha256 1 (Some (JString "s")) (Some (JString "p")) (Some click_b) true
  = command_identity_sha256 1 (Some (JString "s")) (Some (JString "p")) (Some click_a) true
  /\ command_identity_sha256 1 (Some (JString "s")) (Some (JString "p")) (Some click_a) true
     <> None.
Proof.
  split; [|by vm_compute].
  destruct (command_identity_sha256 1 (Some (JString "s")) (Some (JString "p")) (Some click_a) true)
    as [d|] eqn:Hd; [|by vm_compute in Hd].
  refine (proj2 (command_identity_is_exact _ 1 (JString "s") (JString "p") click_a true
            1 (JString "s") (JString "p") click_b true d _ Hd) _).
  - intros a b E. exact (inj pretty.pretty a b E).
  - repeat (apply Forall_cons; split); [..|apply Forall_nil_2];
      repeat first [apply wf_object_check; [reflexivity|] | constructor].
  - split; [reflexivity|]. split; [constructor|]. split; [constructor|].
    split; [exact clicks_same|reflexivity].
Defined.
End SampleJson.
