(* ===== verification/Commands.v ===== *)
(** * Commands and what is written about them

    The commands of [crates/bobby-browser-client/src/commands.rs]: which may be replayed,
    and the copies of a command, its evidence and its outcome that are safe for a journal
    ([journal_safe] in [commands.rs] and [outcomes.rs]).

    A field that no modelled code reads is kept as its JSON value.  URLs are parsed by
    third-party code ([UrlLib]). *)

From S2P Require Import Prelude Text SkillTypes Receipt Json.

(** [url::Url]: the URL without user, password, query and fragment; [None] when the text is
    no URL. *)
Class UrlLib := bare_url : string -> option string.

(** ** Data *)

Inductive WaitUntil := Commit | DomContentLoaded | Interactive | NetworkIdle.

Record NavigateCommand := MkNavigateCommand {
  nv_url : string;
  nv_wait_until : WaitUntil;
  nv_timeout_ms : Z;
}.

Record DownloadUrlCommand := MkDownloadUrlCommand {
  du_url : string;
  du_expected_content_type : option string;
  du_max_bytes : Z;
  du_save_as : option string;
}.

Record InspectCommand := MkInspectCommand {
  ic_selector : option string;
  ic_target : option JsonValue;
  ic_include_html : bool;
}.

Inductive ClickModifier := Shift | Ctrl | Alt | Meta.
#[export] Instance ClickModifier_eq_dec : EqDecision ClickModifier.
Proof. solve_decision. Defined.

Record ClickCommand := MkClickCommand {
  ck_selector : string;
  ck_target : option JsonValue;
  ck_boundary : bool;
  ck_expected_url : option string;
  ck_modifiers : list ClickModifier;
}.

Record TypeTextCommand := MkTypeTextCommand {
  tt_selector : string;
  tt_target : option JsonValue;
  tt_value : string;
  tt_clear_first : bool;
  tt_expected_url : option string;
}.

Record UploadFilesCommand := MkUploadFilesCommand {
  uf_selector : string;
  uf_target : option JsonValue;
  uf_paths : list string;
}.

Record UploadAndConfirmCommand := MkUploadAndConfirmCommand {
  uc_upload : UploadFilesCommand;
  uc_expected_state : JsonValue;
}.

Inductive ControlAction :=
| SetText (value : string) (clear_first : bool)
| SetChecked (checked : bool)
| SelectOne (value : string)
| SelectMany (values : list string)
| SetFiles (paths : list string)
| Clear
| Activate
| PasswordManagerFill
| Credential (name : string).

Inductive PrimitiveCommand :=
| Navigate (c : NavigateCommand)
| DownloadUrl (c : DownloadUrlCommand)
| Inspect (c : InspectCommand)
| Click (c : ClickCommand)
| TypeText (c : TypeTextCommand)
| UploadFiles (c : UploadFilesCommand)
| UploadAndConfirm (c : UploadAndConfirmCommand)
| OpenPage (url : option string)
| ListPages
| ClosePage (page_id : PageId)
| ActivatePage (page_id : PageId)
| AccessibilitySnapshot (c : JsonValue)
| ExtractStructured (c : JsonValue)
| GetCookies (c : JsonValue)
| PrintToPdf (c : JsonValue)
| HandleDialog (c : JsonValue)
| Emulate (c : JsonValue)
| NetworkLog (c : JsonValue)
| SetCookies (c : JsonValue)
| DeleteCookies (c : JsonValue)
| ClickAndWaitForPopup (c : JsonValue)
| ClickAndWaitForDownload (c : JsonValue)
| WaitFor (c : JsonValue)
| CaptureScreenshot (c : JsonValue)
| ControlActionCommand (target : JsonValue) (action : ControlAction)
| SetFocusEmulation (c : JsonValue)
| SetEmulatedMedia (c : JsonValue)
| EvaluateJavaScript (c : JsonValue).

Record FillIntent := MkFillIntent {
  fi_purpose : string;
  fi_hints : JsonValue;
  fi_value : ControlAction;
}.

Record CompleteFormField := MkCompleteFormField {
  cf_name : string;
  cf_purpose : string;
  cf_hints : JsonValue;
  cf_value : ControlAction;
  cf_revealed_by : option JsonValue;
}.

Record CompleteFormIntent := MkCompleteFormIntent {
  cfi_purpose : string;
  cfi_fields : list CompleteFormField;
}.

Record FollowIntent := MkFollowIntent {
  fo_purpose : string;
  fo_hints : JsonValue;
  fo_expected_destination : JsonValue;
  fo_boundary : bool;
}.

Record EnterCodeIntent := MkEnterCodeIntent {
  ec_code : string;
  ec_hints : JsonValue;
  ec_submit : bool;
  ec_expected_state : option JsonValue;
}.

Inductive IntentCommand :=
| Locate (i : JsonValue)
| Fill (i : FillIntent)
| CompleteForm (i : CompleteFormIntent)
| SubmitAndVerify (i : JsonValue)
| WaitForState (i : JsonValue)
| Follow (i : FollowIntent)
| DismissObstruction (i : JsonValue)
| Extract (i : JsonValue)
| SolveChallenge (i : JsonValue)
| DetectChallenge (i : JsonValue)
| EnterCode (i : EnterCodeIntent).

Inductive RuntimeCommand := Primitive (c : PrimitiveCommand) | Intent (c : IntentCommand).

Record CommandEnvelope := MkCommandEnvelope {
  ev_schema_version : Z;
  ev_command_id : CommandId;
  ev_workflow_id : WorkflowId;
  ev_attempt_id : AttemptId;
  ev_session_id : SessionId;
  ev_page_id : option PageId;
  ev_deadline : Time;
  ev_command : RuntimeCommand;
}.
#[export] Instance eta_CommandEnvelope : Eta CommandEnvelope := fun e =>
  MkCommandEnvelope (ev_schema_version e) (ev_command_id e) (ev_workflow_id e) (ev_attempt_id e)
    (ev_session_id e) (ev_page_id e) (ev_deadline e) (ev_command e).

(** [CommandEnvelope::SCHEMA_VERSION]. *)
Definition COMMAND_SCHEMA_VERSION : Z := 2.

(** ** Classes *)

Definition PrimitiveCommand_class (c : PrimitiveCommand) : CommandClass :=
  match c with
  | Navigate _ | Inspect _ | OpenPage _ | ListPages | WaitFor _ | ActivatePage _ | Emulate _
  | NetworkLog _ | AccessibilitySnapshot _ | ExtractStructured _ | GetCookies _ | PrintToPdf _
  | CaptureScreenshot _ => Replayable
  | SetCookies _ | DeleteCookies _ | HandleDialog _ => Reconciliable
  | DownloadUrl _ | TypeText _ | UploadFiles _ | ClosePage _ | EvaluateJavaScript _ => Reconciliable
  | ControlActionCommand _ _ => Reconciliable
  | ClickAndWaitForPopup _ | ClickAndWaitForDownload _ | UploadAndConfirm _ => Boundary
  | Click command => if command.(ck_boundary) then Boundary else Reconciliable
  | SetFocusEmulation _ | SetEmulatedMedia _ => Reconciliable
  end.

Definition IntentCommand_class (c : IntentCommand) : CommandClass :=
  match c with
  | Locate _ | WaitForState _ | Extract _ => Replayable
  | DetectChallenge _ => Replayable
  | Fill _ | CompleteForm _ | DismissObstruction _ => Reconciliable
  | SolveChallenge _ => Reconciliable
  | EnterCode intent => if intent.(ec_submit) then Boundary else Reconciliable
  | SubmitAndVerify _ => Boundary
  | Follow intent => if intent.(fo_boundary) then Boundary else Reconciliable
  end.

Definition RuntimeCommand_class (c : RuntimeCommand) : CommandClass :=
  match c with
  | Primitive command => PrimitiveCommand_class command
  | Intent command => IntentCommand_class command
  end.

(** Whether a control is filled from the password manager or a configured credential. *)
Definition fills_credential (action : ControlAction) : bool :=
  match action with PasswordManagerFill | Credential _ => true | _ => false end.

Definition uses_password_manager (c : RuntimeCommand) : bool :=
  match c with
  | Primitive (ControlActionCommand _ action) => fills_credential action
  | Intent (Fill intent) => fills_credential intent.(fi_value)
  | Intent (CompleteForm intent) => existsb (fun field => fills_credential field.(cf_value)) intent.(cfi_fields)
  | _ => false
  end.

(** ** Copies for a journal *)

Section Safe.
Context `{UrlLib, Decimal}.

Definition sanitize (value : string) : string :=
  match bare_url value with Some url => url | None => "[redacted-invalid-url]" end.

(** Each path becomes its number. *)
Definition number_paths (prefix : string) (paths : list string) : list string :=
  imap (fun index _ => prefix +:+ decimal (Z.of_nat index)) paths.

Definition PrimitiveCommand_sanitize_urls (c : PrimitiveCommand) : PrimitiveCommand :=
  match c with
  | Navigate c => Navigate (MkNavigateCommand (sanitize c.(nv_url)) c.(nv_wait_until) c.(nv_timeout_ms))
  | DownloadUrl c =>
      DownloadUrl (MkDownloadUrlCommand (sanitize c.(du_url)) c.(du_expected_content_type) c.(du_max_bytes)
        ((fun _ => "[redacted-download-path]") <$> c.(du_save_as)))
  | UploadFiles c =>
      UploadFiles (MkUploadFilesCommand c.(uf_selector) c.(uf_target) (number_paths "upload://input/" c.(uf_paths)))
  | UploadAndConfirm c =>
      let u := c.(uc_upload) in
      UploadAndConfirm (MkUploadAndConfirmCommand
        (MkUploadFilesCommand u.(uf_selector) u.(uf_target) (number_paths "upload://input/" u.(uf_paths)))
        c.(uc_expected_state))
  | OpenPage url => OpenPage (sanitize <$> url)
  | Click c =>
      Click (MkClickCommand c.(ck_selector) c.(ck_target) c.(ck_boundary) (sanitize <$> c.(ck_expected_url))
        c.(ck_modifiers))
  | ControlActionCommand target (SetFiles paths) =>
      ControlActionCommand target (SetFiles (number_paths "upload://input/" paths))
  | c => c
  end.

Definition RuntimeCommand_sanitize_urls (c : RuntimeCommand) : RuntimeCommand :=
  match c with
  | Primitive command => Primitive (PrimitiveCommand_sanitize_urls command)
  | Intent (EnterCode intent) =>
      Intent (EnterCode (MkEnterCodeIntent "[redacted-code]" intent.(ec_hints) intent.(ec_submit)
        intent.(ec_expected_state)))
  | Intent command => Intent command
  end.

Definition CommandEnvelope_journal_safe (e : CommandEnvelope) : CommandEnvelope :=
  e <| ev_command := RuntimeCommand_sanitize_urls e.(ev_command) |>.

Definition Evidence_journal_safe (e : Evidence) : Evidence :=
  match e with
  | EvExecutionPath fields final_url redirect_chain =>
      EvExecutionPath fields (sanitize <$> final_url) (sanitize <$> redirect_chain)
  | EvNavigation url title => EvNavigation (sanitize url) title
  | EvInspection selector url title text html => EvInspection selector (sanitize url) title text html
  | EvPage page_id url title => EvPage page_id (sanitize url) title
  | EvPopup opener page_id url title => EvPopup opener page_id (sanitize url) title
  | EvPages pages =>
      EvPages ((fun p => MkPageEvidence p.(pe_page_id) (sanitize p.(pe_url)) p.(pe_title)) <$> pages)
  | EvUpload selector paths => EvUpload selector (number_paths "upload://evidence/" paths)
  | EvDownload filename path bytes sha256 saved_to =>
      EvDownload filename ("artifact://sha256/" +:+ sha256) bytes sha256 None
  | e => e
  end.

(** The message of a durable error. *)
Definition redact_error (e : CommandError) : CommandError :=
  MkCommandError e.(ce_code) "redacted durable diagnostic" e.(ce_layer) e.(ce_retryable).

Definition CommandOutcome_journal_safe (o : CommandOutcome) : CommandOutcome :=
  let safe := fmap (M := list) Evidence_journal_safe in
  match o with
  | OutcomeCompleted id evidence => OutcomeCompleted id (safe evidence)
  | OutcomeRetryableFailure id error => OutcomeRetryableFailure id (redact_error error)
  | OutcomeNeedsReconciliation id error evidence =>
      OutcomeNeedsReconciliation id (redact_error error) (safe evidence)
  | OutcomePolicyDenied id error => OutcomePolicyDenied id (redact_error error)
  | OutcomeResourceExhausted id error retry_after_ms =>
      OutcomeResourceExhausted id (redact_error error) retry_after_ms
  | OutcomeRestarted id prior attempt reason evidence => OutcomeRestarted id prior attempt reason (safe evidence)
  | OutcomeFailed id error evidence => OutcomeFailed id (redact_error error) (safe evidence)
  end.

(** The URL that a typed Enter is expected to lead to is written down as it is. *)
Lemma journal_safe_keeps_typed_url e c : e.(ev_command) = Primitive (TypeText c) -> CommandEnvelope_journal_safe e = e.
Proof. destruct e. cbn. by intros ->. Qed.

(** The copy of a command in the journal is of the same class. *)
Lemma journal_safe_class e :
  RuntimeCommand_class (CommandEnvelope_journal_safe e).(ev_command) = RuntimeCommand_class e.(ev_command).
Proof. destruct e as [? ? ? ? ? ? ? [[]|[]]]; try done. by destruct action. Qed.
End Safe.
