(* ===== verification/CommandJournal.v ===== *)
(** * The command journal

    [JsonlJournal] of [crates/workflow-journal/src/lib.rs]: one JSONL record per phase of a
    command, an index of the records by command, archives of damaged files, and the checks
    that decide whether what is read may be believed.

    The disk has the entry at the journal's path, the archived entries of its directory in
    the order [read_dir] lists them, and the files behind them by identity, each with its
    bytes, number of hard links and time of modification.  A file has at most
    [MAX_FILE_BYTES] bytes; a write past that fails.  Every I/O call takes the next fault.
    The writer's handle names a file by identity, wherever the directory has moved it.
    Between two calls of one operation the directory does not change.  JSON text is
    third-party code: [RecordCodec] has what is called of it. *)

From S2P Require Import Prelude Text SkillTypes Receipt Ledger Json Commands.
From Stdlib Require Import Ascii.

Definition DEFAULT_MAX_RECORD_BYTES : Z := 64 * 1024 * 1024.

(** The largest file offset. *)
Definition MAX_FILE_BYTES : Z := 2 ^ 63 - 1.

(** ** Records *)

Inductive CommandPhase :=
| PhaseAccepted | PhasePrepared | PhaseExecuting | PhaseResultPrepared | PhaseVerifying
| PhaseRecovering | PhaseCompleted | PhaseFailed.

Record PreparedDownload := MkPreparedDownload {
  pd_staging_id : string;
  pd_metadata_sha256 : string;
}.

Record PreparedResult := MkPreparedResult {
  pt_command_id : CommandId;
  pt_attempt_id : AttemptId;
  pt_state_version : Z;
  pt_state_delta : JsonValue;
  pt_evidence : list Evidence;
  pt_artifact_id : option string;
  pt_artifact_sha256 : option string;
  pt_artifact_bytes : option Z;
  pt_artifact_staging_id : option string;
  pt_download : option PreparedDownload;
}.

Record CommandRecord := MkCommandRecord {
  cr_sequence : Z;
  cr_recorded_at : Time;
  cr_command_id : CommandId;
  cr_phase : CommandPhase;
  cr_envelope : option CommandEnvelope;
  cr_outcome : option CommandOutcome;
  cr_prepared_result : option PreparedResult;
}.
#[export] Instance eta_CommandRecord : Eta CommandRecord := fun r =>
  MkCommandRecord (cr_sequence r) (cr_recorded_at r) (cr_command_id r) (cr_phase r)
    (cr_envelope r) (cr_outcome r) (cr_prepared_result r).

Record JournalScan := MkJournalScan {
  js_records : list CommandRecord;
  js_torn : bool;
  js_incompatible_records : Z;
}.
Definition JournalScan_default : JournalScan := MkJournalScan [] false 0.

Record JournalHealth := MkJournalHealth {
  jh_exists : bool;
  jh_bytes : Z;
  jh_records : Z;
  jh_torn_tail : bool;
  jh_incompatible_records : Z;
}.

Inductive JournalError :=
| JournalIo (e : IoError)
| JournalSerialization (message : string)
| UncertainCommand.

(** [serde_json] on records: [probe_sequence] is the [sequence] of a [RecordProbe],
    [object_members] the members of an object in order, with repeated keys, and
    [command_id_of_value] the reading of an identifier. *)
Class RecordCodec := {
  record_text : CommandRecord -> result bytes string;
  record_of_text : bytes -> option CommandRecord;
  probe_sequence : bytes -> option Z;
  object_members : bytes -> option (list (string * JsonValue));
  command_id_of_value : JsonValue -> option CommandId;
}.

(** [u8::is_ascii_whitespace]. *)
Definition is_ascii_whitespace (c : ascii) : bool :=
  existsb (fun n => Ascii.eqb c (ascii_of_nat n)) [32; 9; 10; 12; 13]%nat.

Definition blank_line (line : bytes) : bool := forallb is_ascii_whitespace line.

(** ** The disk *)

Record Inode := MkInode {
  in_bytes : bytes;
  in_links : Z;
  in_modified : Time;
}.

(** A regular file by identity, or a link, a stream or a directory. *)
Inductive DirEntry := Regular (ino : N) | Special.

Record Disk := MkDisk {
  dk_path : option DirEntry;
  dk_archives : list (N * DirEntry);
  dk_inodes : gmap N Inode;
  dk_fresh : N;
  dk_faults : list Fault;
}.
#[export] Instance eta_Disk : Eta Disk := fun d =>
  MkDisk (dk_path d) (dk_archives d) (dk_inodes d) (dk_fresh d) (dk_faults d).

Definition DiskIO (A : Type) : Type := ST Disk JournalError A.

Definition take_fault : DiskIO Fault :=
  fun d => match d.(dk_faults) with
           | [] => (Ok IoOk, d)
           | f :: fs => (Ok f, d <| dk_faults := fs |>)
           end.

(** An I/O call that changes nothing. *)
Definition disk_call : DiskIO unit :=
  do f <- take_fault;
  match f with
  | IoOk => sret tt
  | IoFails m | IoPartial _ m => sfail (JournalIo (DeviceError m))
  end.

Definition inode_of (d : Disk) (ino : N) : Inode := default (MkInode [] 0 0) (d.(dk_inodes) !! ino).

(** Bytes written at the end of a file. *)
Definition inode_append (ino : N) (b : bytes) (now : Time) (d : Disk) : Disk :=
  let i := inode_of d ino in
  d <| dk_inodes := <[ino := MkInode (i.(in_bytes) ++ b) i.(in_links) now]> d.(dk_inodes) |>.

Definition file_write (ino : N) (b : bytes) (now : Time) : DiskIO unit :=
  do f <- take_fault;
  match f with
  | IoOk =>
      do d <- sget;
      if MAX_FILE_BYTES <? blen ((inode_of d ino).(in_bytes) ++ b)
      then sfail (JournalIo (DeviceError "file too large"))
      else smodify (inode_append ino b now)
  | IoFails m => sfail (JournalIo (DeviceError m))
  | IoPartial n m =>
      do d <- sget;
      (if MAX_FILE_BYTES <? blen ((inode_of d ino).(in_bytes) ++ take n b) then sret tt
       else smodify (inode_append ino (take n b) now)) ;;
      sfail (JournalIo (DeviceError m))
  end.

(** [durable_file::require_sole_hard_link]. *)
Definition sole_hard_link (i : Inode) : bool := i.(in_links) =? 1.

Definition require_sole_hard_link (ino : N) : DiskIO unit :=
  disk_call ;;
  do d <- sget;
  if sole_hard_link (inode_of d ino) then sret tt
  else sfail (JournalIo (DataError "journal entry must have exactly one hard link")).

(** Opens [path] for appending, creating it; a link is not followed. *)
Definition open_append (now : Time) : DiskIO N :=
  disk_call ;;
  do d <- sget;
  match d.(dk_path) with
  | Some (Regular ino) => sret ino
  | Some Special => sfail (JournalIo (DeviceError "not a regular file"))
  | None =>
      let ino := d.(dk_fresh) in
      sput (d <| dk_path := Some (Regular ino) |>
              <| dk_inodes := <[ino := MkInode [] 1 now]> d.(dk_inodes) |>
              <| dk_fresh := N.succ ino |>) ;;
      sret ino
  end.

(** [open_regular_read]: [None] when there is no such entry, [Some None] for one that is
    not a regular file. *)
Definition open_regular_read (e : option DirEntry) : DiskIO (option (option N)) :=
  disk_call ;;
  match e with
  | None => sret None
  | Some Special => sret (Some None)
  | Some (Regular ino) => disk_call ;; disk_call ;; sret (Some (Some ino))
  end.

Definition sync_parent : DiskIO unit := disk_call ;; disk_call.

(** The entry at the path gets a new name in the directory, listed last. *)
Definition archive_damaged_journal : DiskIO unit :=
  disk_call ;;
  do d <- sget;
  match d.(dk_path) with
  | None => sfail (JournalIo (DeviceError "no such file"))
  | Some e =>
      sput (d <| dk_path := None |>
              <| dk_archives := d.(dk_archives) ++ [(d.(dk_fresh), e)] |>
              <| dk_fresh := N.succ d.(dk_fresh) |>) ;;
      sync_parent
  end.

Section Journal.
Context `{RecordCodec, Sha2}.

(** ** The index *)

Record IndexedRecord := MkIndexedRecord {
  ir_offset : Z;
  ir_len : Z;
  ir_digest : Digest;
}.

Definition IndexedRecord_new (offset : Z) (b : bytes) : IndexedRecord :=
  MkIndexedRecord offset (blen b) (sha256 b).

Abbreviation Index := (gmap CommandId (list IndexedRecord)).

(** [entry(id).or_default().push(value)]. *)
Definition push_at {V} (id : CommandId) (v : V) (m : gmap CommandId (list V))
    : gmap CommandId (list V) :=
  <[id := default [] (m !! id) ++ [v]]> m.

(** The decoder of the scan; its state is the index, [None] when none is asked for. *)
Definition CommandDecoder_decode (ln : JsonlLine)
    : ST (option Index) IoError (PreparedRecord CommandRecord) :=
  sret (if blank_line ln.(ln_bytes) then MkPreparedRecord Skip None
        else match record_of_text ln.(ln_bytes) with
             | Some record => MkPreparedRecord (Accepted (Some record.(cr_sequence))) (Some record)
             | None => MkPreparedRecord (Rejected (probe_sequence ln.(ln_bytes)) Decode) None
             end).

Definition CommandDecoder_apply (ln : JsonlLine) (prepared : PreparedRecord CommandRecord)
    (verdict : SequenceVerdict) : ST (option Index) IoError ScanControl :=
  smodify (fun index =>
    match index, prepared.(pr_record) with
    | Some index, Some record =>
        Some (push_at record.(cr_command_id) (IndexedRecord_new ln.(ln_offset) ln.(ln_bytes)) index)
    | _, _ => index
    end) ;;
  sret Continue.

Definition command_decoder : LedgerDecoder (option Index) CommandRecord :=
  MkLedgerDecoder CommandDecoder_decode CommandDecoder_apply.

Record Scan := MkScan {
  sc_scan : JournalScan;
  sc_records : Z;
  sc_max_sequence : option Z;
}.

Definition scan_of_health (h : LedgerHealth) : Scan :=
  MkScan (MkJournalScan [] (0 <? issue_count h TornTail)
            (h.(lh_incompatible_records) + issue_count h OversizedLine))
    h.(lh_decoded_records) h.(lh_max_observed_sequence).

(** [scan_file] of a file's bytes, with the fault of reading them. *)
Definition scan_file (ino : N) (index : option Index) (max_record_bytes : Z)
    : DiskIO (Scan * option Index) :=
  do f <- take_fault;
  do d <- sget;
  let b := (inode_of d ino).(in_bytes) in
  let r := match f with
           | IoOk => MkReader b None
           | IoFails m => MkReader [] (Some m)
           | IoPartial n m => MkReader (take n b) (Some m)
           end in
  match scan_jsonl command_decoder (MkScanOptions max_record_bytes Increasing) r index with
  | (Err e, _) => sfail (JournalIo e)
  | (Ok h, index) => sret (scan_of_health h, index)
  end.

(** ** Archives *)

Record ArchivedRecordLocation := MkArchivedRecordLocation {
  al_path : N;
  al_offset : Z;
  al_len : Z;
}.

Record ArchiveIndex := MkArchiveIndex {
  ai_offsets : gmap CommandId (list ArchivedRecordLocation);
  ai_torn_tail : bool;
  ai_incompatible_records : Z;
}.
#[export] Instance eta_ArchiveIndex : Eta ArchiveIndex := fun a =>
  MkArchiveIndex (ai_offsets a) (ai_torn_tail a) (ai_incompatible_records a).

(** [ArchiveRecordProbe]: the last member [commandId], which may be no identifier. *)
Definition probe_members (members : list (string * JsonValue)) : option CommandId :=
  fold_left (fun id member =>
    if String.eqb member.1 "commandId" then command_id_of_value member.2 else id) members None.

(** The command of an archived line, and whether the line is readable. *)
Definition archived_line_id (line : bytes) : option CommandId * bool :=
  match record_of_text line with
  | Some record => (Some record.(cr_command_id), true)
  | None => (object_members line ≫= probe_members, false)
  end.

(** [discard_jsonl_line]: how much is dropped and what is left. *)
Fixpoint discard_line (b : bytes) : Z * bytes :=
  match b with
  | [] => (0, [])
  | c :: b =>
      if Ascii.eqb c newline then (1, b)
      else let '(n, rest) := discard_line b in (1 + n, rest)
  end.

(** What one archived line within the bound adds. *)
Definition archive_line (name : N) (offset : Z) (line : bytes) (a : ArchiveIndex) : ArchiveIndex :=
  let a := if ends_with_newline line then a else a <| ai_torn_tail := true |> in
  if blank_line line then a
  else
    let '(id, readable) := archived_line_id line in
    let a := if readable : bool then a
             else a <| ai_incompatible_records := a.(ai_incompatible_records) + 1 |> in
    match id with
    | Some id =>
        a <| ai_offsets := push_at id (MkArchivedRecordLocation name offset (blen line)) a.(ai_offsets) |>
    | None => a
    end.

(** The loop over one archive; every turn consumes a byte. *)
Fixpoint archive_lines (fuel : nat) (max_record_bytes : Z) (name : N) (offset : Z) (b : bytes)
    (a : ArchiveIndex) : ArchiveIndex :=
  match fuel with
  | O => a
  | S fuel =>
      let '(line, rest) := read_until (saturating_add max_record_bytes 1) b in
      match line with
      | [] => a
      | _ =>
          if max_record_bytes <? blen line then
            let a := a <| ai_incompatible_records := a.(ai_incompatible_records) + 1 |> in
            if ends_with_newline line
            then archive_lines fuel max_record_bytes name (offset + blen line) rest a
            else let '(n, rest) := discard_line rest in
                 archive_lines fuel max_record_bytes name (offset + blen line + n) rest a
          else
            archive_lines fuel max_record_bytes name (offset + blen line) rest
              (archive_line name offset line a)
      end
  end.

(** The loop over the directory: the entries seen and what they add. *)
Fixpoint index_archives (max_record_bytes : Z) (entries : list (N * DirEntry))
    (acc : list N * ArchiveIndex) : DiskIO (list N * ArchiveIndex) :=
  disk_call ;;
  match entries with
  | [] => sret acc
  | (name, e) :: entries =>
      do file <- open_regular_read (Some e);
      match file with
      | Some (Some ino) =>
          disk_call ;;
          do d <- sget;
          let b := (inode_of d ino).(in_bytes) in
          index_archives max_record_bytes entries
            (acc.1 ++ [name], archive_lines (S (length b)) max_record_bytes name 0 b acc.2)
      | _ =>
          index_archives max_record_bytes entries
            (acc.1 ++ [name],
             acc.2 <| ai_incompatible_records := acc.2.(ai_incompatible_records) + 1 |>)
      end
  end.

(** ** The writer *)

Record WriterState := MkWriterState {
  ws_file : N;
  ws_identity : N;
  ws_next_sequence : Z;
  ws_file_len : Z;
  ws_modified : option Time;
  ws_offsets : Index;
  ws_archives : list N;
  ws_archived : ArchiveIndex;
}.
#[export] Instance eta_WriterState : Eta WriterState := fun w =>
  MkWriterState (ws_file w) (ws_identity w) (ws_next_sequence w) (ws_file_len w) (ws_modified w)
    (ws_offsets w) (ws_archives w) (ws_archived w).

Definition validate_record_limit (max_bytes : Z) : result unit JournalError :=
  refuse_if (max_bytes =? 0) (JournalIo (DataError "journal record byte limit must be positive")).

(** An entry that is no file of its own is moved aside before it is opened. *)
Definition set_aside_foreign_entry : DiskIO unit :=
  disk_call ;;
  do d <- sget;
  match d.(dk_path) with
  | Some Special => archive_damaged_journal
  | Some (Regular ino) =>
      if sole_hard_link (inode_of d ino) then sret tt else archive_damaged_journal
  | None => sret tt
  end.

(** Opens the file and checks the handle. *)
Definition open_checked (now : Time) : DiskIO N :=
  do ino <- open_append now;
  disk_call ;;
  require_sole_hard_link ino ;;
  sret ino.

Definition scan_damaged (s : Scan) : bool :=
  s.(sc_scan).(js_torn) || (0 <? s.(sc_scan).(js_incompatible_records))
  || bool_decide (s.(sc_max_sequence) = Some u64_max).

Definition open_writer (now : Time) (max_record_bytes : Z) : DiskIO WriterState :=
  set_aside_foreign_entry ;;
  do ino <- open_checked now;
  disk_call ;;
  do found <- scan_file ino (Some ∅) max_record_bytes;
  let '(s, index) := found in
  do opened <-
    (if scan_damaged s then
       archive_damaged_journal ;;
       do ino <- open_checked now;
       sret (ino, 0, ∅)
     else sret (ino, match s.(sc_max_sequence) with Some m => m + 1 | None => 0 end, default ∅ index));
  let '(ino, next_sequence, offsets) := opened in
  disk_call ;;
  sync_parent ;;
  disk_call ;;
  do metadata <- sget;
  disk_call ;;
  disk_call ;;
  disk_call ;;
  do archived <- index_archives max_record_bytes metadata.(dk_archives) ([], MkArchiveIndex ∅ false 0);
  sret (MkWriterState ino ino next_sequence (blen (inode_of metadata ino).(in_bytes))
          (Some (inode_of metadata ino).(in_modified)) offsets archived.1 archived.2).

Definition open_with_max_record_bytes (now : Time) (max_record_bytes : Z) : DiskIO WriterState :=
  slift (validate_record_limit max_record_bytes) ;;
  disk_call ;;
  open_writer now max_record_bytes.

Definition open (now : Time) : DiskIO WriterState :=
  open_with_max_record_bytes now DEFAULT_MAX_RECORD_BYTES.

Definition inspect_with_max_record_bytes (max_record_bytes : Z) : DiskIO JournalHealth :=
  slift (validate_record_limit max_record_bytes) ;;
  do d <- sget;
  do file <- open_regular_read d.(dk_path);
  match file with
  | None => sret (MkJournalHealth false 0 0 false 0)
  | Some None => sfail (JournalIo (DataError "journal must be a regular file"))
  | Some (Some ino) =>
      disk_call ;;
      do metadata <- sget;
      do found <- scan_file ino None max_record_bytes;
      sret (MkJournalHealth true (blen (inode_of metadata ino).(in_bytes)) found.1.(sc_records)
              found.1.(sc_scan).(js_torn) found.1.(sc_scan).(js_incompatible_records))
  end.

Definition inspect : DiskIO JournalHealth := inspect_with_max_record_bytes DEFAULT_MAX_RECORD_BYTES.

(** ** Operations

    The state of an open journal is the disk and the writer under its lock. *)

Record JsonlJournal := MkJsonlJournal {
  jj_disk : Disk;
  jj_writer : WriterState;
  jj_max_record_bytes : Z;
}.
#[export] Instance eta_JsonlJournal : Eta JsonlJournal := fun j =>
  MkJsonlJournal (jj_disk j) (jj_writer j) (jj_max_record_bytes j).

Definition JournalIO (A : Type) : Type := ST JsonlJournal JournalError A.

Definition on_disk {A} (m : DiskIO A) : JournalIO A :=
  fun j => let '(r, d) := m j.(jj_disk) in (r, j <| jj_disk := d |>).

Definition archives : JournalIO (list N) :=
  do j <- sget; sret j.(jj_writer).(ws_archives).

(** [*writer = open_writer(..)?]. *)
Definition reopen_writer (now : Time) : JournalIO unit :=
  do j <- sget;
  do w <- on_disk (open_writer now j.(jj_max_record_bytes));
  smodify (fun j => j <| jj_writer := w |>).

(** The file at the path is the one the writer indexed, with the same metadata. *)
Definition unchanged (w : WriterState) (ino : N) (i : Inode) : bool :=
  N.eqb ino w.(ws_identity) && sole_hard_link i && (blen i.(in_bytes) =? w.(ws_file_len))
  && bool_decide (Some i.(in_modified) = w.(ws_modified)).

Definition refresh (now : Time) : JournalIO unit :=
  do j <- sget;
  do file <- on_disk (open_regular_read j.(jj_disk).(dk_path));
  match file with
  | Some (Some ino) =>
      on_disk disk_call ;;
      do j <- sget;
      on_disk disk_call ;;
      if unchanged j.(jj_writer) ino (inode_of j.(jj_disk) ino) then sret tt
      else reopen_writer now
  | _ => reopen_writer now
  end.

(** [BoundedBuffer]: the record, then the newline. *)
Definition bounded_line (max_record_bytes : Z) (record : CommandRecord) : result bytes JournalError :=
  let? b := map_err JournalSerialization (record_text record) in
  if max_record_bytes <? blen b
  then Err (JournalSerialization "serialized data exceeds byte limit")
  else if max_record_bytes <? blen b + 1
  then Err (JournalIo (DataError "serialized data exceeds byte limit"))
  else Ok (b ++ [newline]).

Definition append_record (record : CommandRecord) (now : Time) : JournalIO unit :=
  refresh now ;;
  do j <- sget;
  let w := j.(jj_writer) in
  if bool_decide (is_Some (w.(ws_archived).(ai_offsets) !! record.(cr_command_id)))
  then sfail UncertainCommand
  else
    do next <- slift (ok_or (checked_add w.(ws_next_sequence) 1) UncertainCommand);
    let record := record <| cr_sequence := w.(ws_next_sequence) |> in
    do b <- slift (bounded_line j.(jj_max_record_bytes) record);
    on_disk (require_sole_hard_link w.(ws_file)) ;;
    on_disk (file_write w.(ws_file) b now) ;;
    on_disk disk_call ;;
    on_disk disk_call ;;
    smodify (fun j => j <| jj_writer := w
      <| ws_offsets := push_at record.(cr_command_id) (IndexedRecord_new w.(ws_file_len) b) w.(ws_offsets) |>
      <| ws_file_len := w.(ws_file_len) + blen b |> |>) ;;
    on_disk disk_call ;;
    smodify (fun j => j <| jj_writer := j.(jj_writer)
      <| ws_modified := Some (inode_of j.(jj_disk) w.(ws_file)).(in_modified) |>
      <| ws_next_sequence := next |> |>).

(** ** Reading back *)

(** [read_exact] of [len] bytes at an offset; [None] at the end of the file. *)
Definition read_at (b : bytes) (offset len : Z) : option bytes :=
  let line := take (Z.to_nat len) (drop (Z.to_nat offset) b) in
  if blen line =? len then Some line else None.

(** One indexed record: [None] when it is not what was indexed. *)
Definition check_indexed (b : bytes) (entry : IndexedRecord) (id : CommandId) : option CommandRecord :=
  line ← read_at b entry.(ir_offset) entry.(ir_len);
  if negb (ends_with_newline line) || negb (bool_decide (sha256 line = entry.(ir_digest))) then None
  else
    record ← record_of_text line;
    if N.eqb record.(cr_command_id) id then Some record else None.

Fixpoint read_entries (ino : N) (entries : list IndexedRecord) (id : CommandId) (position : option Z)
    (records : list CommandRecord) : DiskIO (option (list CommandRecord)) :=
  match entries with
  | [] => sret (Some records)
  | entry :: entries =>
      (if bool_decide (position = Some entry.(ir_offset)) then sret tt else disk_call) ;;
      disk_call ;;
      do d <- sget;
      match check_indexed (inode_of d ino).(in_bytes) entry id with
      | None => sret None
      | Some record =>
          read_entries ino entries id (Some (entry.(ir_offset) + entry.(ir_len))) (records ++ [record])
      end
  end.

Definition read_indexed_records (ino : N) (entries : list IndexedRecord) (id : CommandId)
    : DiskIO (option (list CommandRecord)) :=
  disk_call ;;
  read_entries ino entries id None [].

(** [chunk_by] of locations in the same archive. *)
Fixpoint chunk_by_path (locations : list ArchivedRecordLocation)
    : list (N * list ArchivedRecordLocation) :=
  match locations with
  | [] => []
  | l :: locations =>
      match chunk_by_path locations with
      | (name, ls) :: chunks =>
          if N.eqb name l.(al_path) then (name, l :: ls) :: chunks
          else (l.(al_path), [l]) :: (name, ls) :: chunks
      | [] => [(l.(al_path), [l])]
      end
  end.

(** What one archived line adds to the answer. *)
Definition archived_answer (line : bytes) (id : CommandId) (s : JournalScan) : JournalScan :=
  let s := if ends_with_newline line then s
           else MkJournalScan s.(js_records) true s.(js_incompatible_records) in
  match record_of_text line with
  | Some record =>
      if N.eqb record.(cr_command_id) id
      then MkJournalScan (s.(js_records) ++ [record]) s.(js_torn) s.(js_incompatible_records)
      else MkJournalScan s.(js_records) s.(js_torn) (s.(js_incompatible_records) + 1)
  | None => s
  end.

Fixpoint read_locations (ino : N) (entries : list ArchivedRecordLocation) (id : CommandId)
    (position : Z) (s : JournalScan) : DiskIO JournalScan :=
  match entries with
  | [] => sret s
  | entry :: entries =>
      (if position =? entry.(al_offset) then sret tt else disk_call) ;;
      disk_call ;;
      do d <- sget;
      let line := (read_until entry.(al_len)
                     (drop (Z.to_nat entry.(al_offset)) (inode_of d ino).(in_bytes))).1 in
      read_locations ino entries id (entry.(al_offset) + blen line) (archived_answer line id s)
  end.

Definition archive_entry (d : Disk) (name : N) : option DirEntry :=
  (fun x : nat * (N * DirEntry) => x.2.2) <$> list_find (fun a => a.1 = name) d.(dk_archives).

Fixpoint read_chunks (chunks : list (N * list ArchivedRecordLocation)) (id : CommandId)
    (s : JournalScan) : DiskIO JournalScan :=
  match chunks with
  | [] => sret s
  | (name, entries) :: chunks =>
      do d <- sget;
      do file <- open_regular_read (archive_entry d name);
      match file with
      | None => sfail (JournalIo (DeviceError "no such file"))
      | Some None =>
          read_chunks chunks id
            (MkJournalScan s.(js_records) s.(js_torn) (s.(js_incompatible_records) + 1))
      | Some (Some ino) =>
          do s <- read_locations ino entries id 0 s;
          read_chunks chunks id s
      end
  end.

(** The answer from the archives. *)
Definition archived_history (id : CommandId) : JournalIO JournalScan :=
  do j <- sget;
  let a := j.(jj_writer).(ws_archived) in
  do s <- on_disk (read_chunks (chunk_by_path (default [] (a.(ai_offsets) !! id))) id
                     (MkJournalScan [] a.(ai_torn_tail) a.(ai_incompatible_records)));
  sret (match j.(jj_writer).(ws_archives) with
        | [] => s
        | _ => MkJournalScan s.(js_records) s.(js_torn) (Z.max s.(js_incompatible_records) 1)
        end).

(** What follows the refresh. *)
Definition history_refreshed (id : CommandId) (now : Time) : JournalIO JournalScan :=
  do j <- sget;
  let w := j.(jj_writer) in
  match (if bool_decide (is_Some (w.(ws_archived).(ai_offsets) !! id)) then None
         else w.(ws_offsets) !! id) with
  | Some entries =>
      do records <- on_disk (read_indexed_records w.(ws_file) entries id);
      match records with
      | Some records => sret (MkJournalScan records false 0)
      | None =>
          on_disk archive_damaged_journal ;;
          reopen_writer now ;;
          archived_history id
      end
  | None => archived_history id
  end.

Definition history (id : CommandId) (now : Time) : JournalIO JournalScan :=
  refresh now ;;
  history_refreshed id now.
End Journal.
