(* ===== verification/CommandLog.v ===== *)
(** * What the command journal promises its clients

    The trait [CommandJournal] of [crates/workflow-journal/src/lib.rs] as a class, and the
    laws that the executor relies on.  They are stated on an abstract journal: for each
    command the records that the journal vouches for, or [None] once its history has been
    set aside and nothing may be concluded from it. *)

From S2P Require Import Prelude Text SkillTypes Receipt Ledger Json CommandJournal.

(** The record under the number that the journal gives it. *)
Definition with_sequence (record : CommandRecord) (seq : Z) : CommandRecord :=
  record <| cr_sequence := seq |>.

(** A journal with [append], [history] and, for a restart, opening it again. *)
Class CommandLog (J : Type) := {
  log_append : CommandRecord -> Time -> ST J JournalError unit;
  log_history : CommandId -> Time -> ST J JournalError JournalScan;
  log_reopen : Time -> ST J JournalError unit;
}.

Abbreviation History := (option (list CommandRecord)).

(** The history of a command may be set aside at any time, and then stays so. *)
Definition lapses (before after : History) : Prop := after = before \/ after = None.

(** The history after an append that was carried out. *)
Definition extends (record : CommandRecord) (before after : History) : Prop :=
  exists rs seq, before = Some rs /\ after = Some (rs ++ [with_sequence record seq]).

(** An answer without reservation. *)
Definition clean (s : JournalScan) : Prop := s.(js_torn) = false /\ s.(js_incompatible_records) <= 0.

Class CommandLogLaws (J : Type) `{CommandLog J} := {
  log_ok : J -> Prop;
  log_held : J -> CommandId -> History;
  log_append_law j record now r j' :
    log_ok j -> log_append record now j = (r, j') ->
    log_ok j'
    /\ (forall id, id <> record.(cr_command_id) -> lapses (log_held j id) (log_held j' id))
    /\ (extends record (log_held j record.(cr_command_id)) (log_held j' record.(cr_command_id))
        \/ (r <> Ok tt /\ lapses (log_held j record.(cr_command_id)) (log_held j' record.(cr_command_id))));
  log_history_law j id now r j' :
    log_ok j -> log_history id now j = (r, j') ->
    log_ok j' /\ (forall id', lapses (log_held j id') (log_held j' id'))
    /\ (forall s, r = Ok s -> clean s -> log_held j' id = Some s.(js_records));
  log_reopen_law j now r j' :
    log_ok j -> log_reopen now j = (r, j') ->
    log_ok j' /\ forall id, lapses (log_held j id) (log_held j' id);
}.

Lemma lapses_refl x : lapses x x.
Proof. by left. Qed.

Lemma lapses_trans x y z : lapses x y -> lapses y z -> lapses x z.
Proof. unfold lapses. intros [-> | ->] [-> | ->]; auto. Qed.

Lemma lapses_some x rs : lapses x (Some rs) -> x = Some rs.
Proof. by intros [<-|]. Qed.

(** ** Runs of a journal

    What any processes may do with a journal one after the other: append records, read
    histories and open it again, each with whatever answer it gives. *)

Inductive LogCall :=
  | LogAppend (record : CommandRecord) (now : Time)
  | LogHistory (id : CommandId) (now : Time)
  | LogReopen (now : Time).

(** The call appends no record of the command. *)
Definition spares (id : CommandId) (call : LogCall) : bool :=
  match call with LogAppend record _ => negb (record.(cr_command_id) =? id)%N | _ => true end.

Section Runs.
Context {J : Type} `{CommandLogLaws J}.

Definition log_call (call : LogCall) (j : J) : J :=
  match call with
  | LogAppend record now => (log_append record now j).2
  | LogHistory id now => (log_history id now j).2
  | LogReopen now => (log_reopen now j).2
  end.

Definition log_run (calls : list LogCall) (j : J) : J := fold_left (fun j call => log_call call j) calls j.

Lemma log_call_spares id call j :
  log_ok j -> spares id call = true ->
  log_ok (log_call call j) /\ lapses (log_held j id) (log_held (log_call call j) id).
Proof.
  intros Hok Hs. destruct call as [record now|id' now|now]; cbn [log_call].
  - destruct (log_append_law j record now _ _ Hok (surjective_pairing _)) as (Hok' & Ho & _). split; [done|].
    apply Ho. intros ->. cbn in Hs. by rewrite N.eqb_refl in Hs.
  - destruct (log_history_law j id' now _ _ Hok (surjective_pairing _)) as (Hok' & Ho & _). auto.
  - destruct (log_reopen_law j now _ _ Hok (surjective_pairing _)) as (Hok' & Ho). auto.
Qed.

(** What the journal holds of a command is what it held, or has been set aside, after any
    calls that append nothing of the command. *)
Lemma log_run_spares id calls j :
  log_ok j -> forallb (spares id) calls = true ->
  log_ok (log_run calls j) /\ lapses (log_held j id) (log_held (log_run calls j) id).
Proof.
  revert j. induction calls as [|call calls IH]; intros j Hok Hs; [split; [done|apply lapses_refl]|].
  cbn in Hs. apply andb_prop in Hs as [Hc Hs]. destruct (log_call_spares id call j Hok Hc) as [Hok1 Hl1].
  destruct (IH _ Hok1 Hs) as [Hok2 Hl2]. split; [done|]. by eapply lapses_trans.
Qed.
End Runs.

(** ** A process that dies

    The journal of a process that dies after some number of appends: later calls of
    [append] do not reach it, so that it ends as the crash left it.  It keeps the laws. *)

Record Crashing (J : Type) := MkCrashing {
  cw_left : nat;
  cw_journal : J;
}.
Arguments MkCrashing {J} _ _.
Arguments cw_left {J} _.
Arguments cw_journal {J} _.

Section Crash.
Context {J : Type} `{CommandLogLaws J}.

Definition on_journal {A} (m : ST J JournalError A) : ST (Crashing J) JournalError A := fun c =>
  let '(r, j) := m c.(cw_journal) in (r, MkCrashing c.(cw_left) j).

Definition crashing_append (record : CommandRecord) (now : Time) : ST (Crashing J) JournalError unit := fun c =>
  match c.(cw_left) with
  | 0%nat => (Err (JournalIo (DeviceError "the process has died")), c)
  | S n =>
      let '(r, j) := log_append record now c.(cw_journal) in (r, MkCrashing n j)
  end.

#[export] Instance crashing_log : CommandLog (Crashing J) := {
  log_append := crashing_append;
  log_history id now := on_journal (log_history id now);
  log_reopen now := on_journal (log_reopen now);
}.

#[export] Program Instance crashing_log_laws : CommandLogLaws (Crashing J) := {
  log_ok c := log_ok c.(cw_journal);
  log_held c := log_held c.(cw_journal);
}.
Next Obligation.
  cbn. unfold crashing_append. intros [[|n] j] record now r c' Hok; cbn [cw_left cw_journal].
  - intros [= <- <-]. split_and!; [done|intros; apply lapses_refl|right; split; [done|apply lapses_refl]].
  - destruct (log_append record now j) as [y j'] eqn:E. intros [= <- <-]. by apply (log_append_law j record now y j').
Qed.
Next Obligation.
  cbn. unfold on_journal. intros [n j] id now r c' Hok. cbn [cw_left cw_journal].
  destruct (log_history id now j) as [y j'] eqn:E. intros [= <- <-]. by apply (log_history_law j id now y j').
Qed.
Next Obligation.
  cbn. unfold on_journal. intros [n j] now r c' Hok. cbn [cw_left cw_journal].
  destruct (log_reopen now j) as [y j'] eqn:E. intros [= <- <-]. by apply (log_reopen_law j now y j').
Qed.
End Crash.
#[export] Existing Instances crashing_log crashing_log_laws.
