(* ===== verification/CommandJournalInv.v ===== *)
(** * What the files of the command journal hold

    The lines of a file that only this journal has written, what the scan makes of them for
    the index, and what the walk over an archive makes of them. *)

From S2P Require Import Prelude Text SkillTypes Receipt Ledger LedgerRun Json CommandJournal.
From Stdlib Require Import Ascii.

(** What is relied on in [serde_json]: a record is one line that is not blank, and reads back. *)
Class RecordCodecLaws `{RecordCodec} := {
  record_text_line r b : record_text r = Ok b -> no_newline b /\ blank_line (b ++ [newline]) = false;
  record_text_read r b : record_text r = Ok b -> record_of_text (b ++ [newline]) = Some r;
}.

Section Files.
Context `{RecordCodecLaws, Sha2}.
Variable max_bytes : Z.
Hypothesis Hmax : 0 < max_bytes < u64_max.
Implicit Types (b l tail : bytes) (r : CommandRecord) (id : CommandId).
Abbreviation Index := (gmap CommandId (list IndexedRecord)).

(** A line that an append writes. *)
Definition record_line (l : bytes) : Prop :=
  exists r b, record_text r = Ok b /\ l = b ++ [newline] /\ blen l <= max_bytes.

Definition of_command id (rs : list CommandRecord) : list CommandRecord :=
  filter (fun r => cr_command_id r = id) rs.

Definition records_of_lines (ls : list bytes) : list CommandRecord := omap record_of_text ls.

(** The records in the whole lines of a file. *)
Definition records_of b : list CommandRecord := records_of_lines (jsonl_lines b).1.

Lemma record_line_facts l :
  record_line l -> line_shape l /\ blen l <= max_bytes /\ blank_line l = false
                   /\ exists r, record_of_text l = Some r.
Proof.
  intros (r & b & Hr & -> & Hl). destruct (record_text_line r b Hr) as [Hn Hb].
  split; [by exists b|]. split; [done|]. split; [done|]. exists r. by apply record_text_read.
Qed.

(** Everything but a torn end was written whole. *)
Definition sound_file b : Prop :=
  Forall record_line (jsonl_lines b).1 /\ blen (jsonl_lines b).2 <= max_bytes /\ blen b <= MAX_FILE_BYTES.

(** The places of the lines from an offset on. *)
Fixpoint placed (offset : Z) (ls : list bytes) : list (Z * bytes) :=
  match ls with [] => [] | l :: ls => (offset, l) :: placed (offset + blen l) ls end.

Definition line_of_command id (l : bytes) : bool :=
  match record_of_text l with Some r => N.eqb (cr_command_id r) id | None => false end.

Definition placed_of id offset ls : list (Z * bytes) :=
  filter (fun p => line_of_command id p.2 = true) (placed offset ls).

Lemma placed_app offset ls ls' :
  placed offset (ls ++ ls') = placed offset ls ++ placed (offset + blen (concat ls)) ls'.
Proof.
  revert offset. induction ls as [|l ls IH]; intros offset; simpl.
  - by rewrite Z.add_0_r.
  - rewrite IH, blen_app. by rewrite Z.add_assoc.
Qed.

(** The index of the lines: for each command, its lines in order. *)
Definition indexes (ls : list bytes) (index : Index) : Prop :=
  forall id, default [] (index !! id)
             = (fun p => IndexedRecord_new p.1 p.2) <$> placed_of id 0 ls.

Lemma push_at_lookup {V} id id' (v : V) (m : gmap CommandId (list V)) :
  default [] (push_at id v m !! id') = default [] (m !! id') ++ (if decide (id = id') then [v] else []).
Proof.
  unfold push_at. destruct (decide (id = id')) as [->|Hne].
  - by rewrite lookup_insert_eq.
  - by rewrite lookup_insert_ne, app_nil_r.
Qed.

(** ** The scan of sound lines *)

Definition options : ScanOptions := MkScanOptions max_bytes Increasing.

Record fair (h : LedgerHealth) : Prop := MkFair {
  fr_counts : counts_ok (lh_issue_counts h);
  fr_incompatible : 0 <= h.(lh_incompatible_records);
}.

Lemma fair_start : fair health_start.
Proof. split; [split; [done|]|done]. cbn. by repeat (constructor; [lia|]). Qed.

Lemma fair_observe rule h {Rec} (p : PreparedRecord Rec) n o :
  fair h -> fair (observe_line rule h p n o).1.
Proof. intros [Hc Hi]. split; [by apply observe_counts|by apply observe_incompatible]. Qed.

(** The index after the lines from an offset on. *)
Definition index_lines (offset : Z) (ls : list bytes) (index : Index) : Index :=
  fold_left (fun index p => match record_of_text p.2 with
                            | Some r => push_at (cr_command_id r) (IndexedRecord_new p.1 p.2) index
                            | None => index
                            end) (placed offset ls) index.

Lemma scan_sound_lines fuel ls tail h index :
  Forall record_line ls -> no_newline tail -> blen tail <= max_bytes -> fair h ->
  0 <= lh_bytes_observed h -> lh_bytes_observed h + blen (concat ls ++ tail) <= u64_max ->
  (S (length ls) < fuel)%nat ->
  exists h', scan_loop command_decoder options fuel (MkReader (concat ls ++ tail) None) None h (Some index)
             = (Ok h', Some (index_lines (lh_bytes_observed h) ls index))
    /\ fair h' /\ (tail <> [] -> 0 < issue_count h' TornTail).
Proof.
  intros Hls Hn Ht. revert fuel h index.
  induction Hls as [|l ls Hl _ IH]; intros fuel h index Hh Hp Hb Hf;
    (destruct fuel as [|fuel]; [lia|]); cbn [scan_loop concat].
  - cbn [app so_max_line_bytes options]. rewrite read_last by (done || lia).
    destruct (Z.eqb_spec (blen tail) 0) as [E|E].
    { exists h. split; [done|]. split; [done|]. destruct tail; [done|].
      unfold blen in E. simpl in E. lia. }
    eexists. split; [reflexivity|].
    match goal with |- fair (health_issue ?h0 _ ?n ?o) /\ _ =>
      destruct (counts_ok_issue h0 TornTail n o) as [Hc Hpos]; [apply Hh|] end.
    split; [|done]. split; [done|apply Hh].
  - destruct (record_line_facts l Hl) as (Hs & Hlm & Hblank & r & Hr).
    rewrite <-app_assoc. cbn [so_max_line_bytes options].
    rewrite (line_ok_read max_bytes ltac:(lia) l (concat ls ++ tail)) by done.
    set (ln := MkJsonlLine _ _ l). change (ld_decode command_decoder) with CommandDecoder_decode.
    change (ld_apply command_decoder) with CommandDecoder_apply.
    unfold CommandDecoder_decode, sret. cbn [ln_bytes ln]. rewrite Hblank, Hr.
    cbn [so_sequence_rule options].
    match goal with |- context [observe_line _ ?h0 ?p ?n ?o] =>
      pose proof (fair_observe Increasing h0 p n o) as Hfair;
      pose proof (observe_bytes Increasing h0 p n o) as Hby;
      destruct (observe_line _ h0 p n o) as [h1 v] end.
    unfold CommandDecoder_apply, smodify, sbind, sret. subst ln. cbn [pr_record ln_offset ln_bytes].
    cbn [fst] in Hby, Hfair. cbn in Hby.
    cbn [concat] in Hb. rewrite <-app_assoc, blen_app in Hb.
    pose proof (blen_nonneg (concat ls ++ tail)). pose proof (blen_nonneg l).
    rewrite saturating_add_exact in Hby by lia. cbn [length] in Hf.
    destruct (IH fuel h1 (push_at (cr_command_id r) (IndexedRecord_new (lh_bytes_observed h) l) index))
      as (h' & E & Hh' & Htail); [|lia..|].
    { apply Hfair. by split; [apply Hh|apply Hh]. }
    exists h'. split; [|done]. etrans; [exact E|]. unfold index_lines. cbn [placed fold_left snd].
    by rewrite Hr, Hby.
Qed.
(** With a device that fails, only a line that is too long ends the scan early. *)
Lemma scan_failing fuel b m h index h' index' :
  scan_loop command_decoder options fuel (MkReader b (Some m)) None h index = (Ok h', index') ->
  fair h -> fair h' /\ 0 < issue_count h' OversizedLine.
Proof.
  revert b h index. induction fuel as [|fuel IH]; intros b h index; [done|]. cbn [scan_loop].
  destruct (read_jsonl_line_buffered _ _) as [[next|e] [b' f']] eqn:Er; [|done].
  apply (read_failing _ _ _ _ m) in Er as [Hf Hnext]; [|simpl; lia|done]. simpl in Hf. subst f'.
  destruct Hnext as [->|[l ->]].
  - intros [= <- <-] Hh.
    match goal with |- fair (health_issue ?h0 _ ?n ?o) /\ _ =>
      destruct (counts_ok_issue h0 OversizedLine n o) as [Hc Hpos]; [apply Hh|] end.
    split; [|done]. split; [done|apply Hh].
  - change (ld_decode command_decoder) with CommandDecoder_decode.
    change (ld_apply command_decoder) with CommandDecoder_apply.
    unfold CommandDecoder_decode, sret.
    match goal with |- context [observe_line _ ?h0 ?p ?n ?o] =>
      pose proof (fair_observe Increasing h0 p n o) as Hfair; cbn [so_sequence_rule options];
      destruct (observe_line _ h0 p n o) as [h1 v] end.
    unfold CommandDecoder_apply, smodify, sbind, sret. intros E Hh. eapply IH; [exact E|].
    apply Hfair. by split; [apply Hh|apply Hh].
Qed.

Lemma index_lines_lookup offset ls index id :
  default [] (index_lines offset ls index !! id)
  = default [] (index !! id) ++ ((fun p => IndexedRecord_new p.1 p.2) <$> placed_of id offset ls).
Proof.
  unfold index_lines, placed_of. revert offset index. induction ls as [|l ls IH]; intros offset index.
  { by rewrite app_nil_r. }
  cbn [placed fold_left]. rewrite IH, filter_cons. cbn [fst snd].
  assert (line_of_command id l = match record_of_text l with Some r => N.eqb (cr_command_id r) id | None => false end)
    as -> by done.
  destruct (record_of_text l) as [r|]; [|by rewrite decide_False by done].
  rewrite push_at_lookup, <-app_assoc. f_equal. destruct (N.eqb_spec (cr_command_id r) id) as [E|E].
  - by rewrite decide_True, decide_True by done.
  - by rewrite decide_False, decide_False by done.
Qed.

Lemma sound_split b :
  sound_file b -> exists ls tail, jsonl_lines b = (ls, tail) /\ b = concat ls ++ tail
    /\ Forall record_line ls /\ no_newline tail /\ blen tail <= max_bytes.
Proof.
  intros (Hls & Ht & _). destruct (jsonl_lines b) as [ls tail] eqn:E.
  destruct (jsonl_lines_spec _ _ _ E) as (Hb & _ & Hn). by exists ls, tail.
Qed.

Lemma record_lines_shape ls : Forall record_line ls -> Forall line_shape ls.
Proof. intros Hls. eapply Forall_impl; [exact Hls|]. intros l Hl. by apply record_line_facts. Qed.

(** The scan of a whole file finds its lines, or a torn end. *)
Lemma scan_sound_file b (r : Reader) index h index' :
  sound_file b -> r = MkReader b None \/ (exists b' m, r = MkReader b' (Some m)) ->
  scan_jsonl command_decoder options r (Some index) = (Ok h, index') ->
  scan_damaged (scan_of_health h) = false ->
  exists ls, b = concat ls /\ Forall record_line ls /\ index' = Some (index_lines 0 ls index).
Proof.
  intros Hb Hr E Hd. unfold scan_damaged, scan_of_health in Hd. cbn in Hd.
  apply orb_false_iff in Hd as [Hd _]. apply orb_false_iff in Hd as [Ht Hi].
  apply Z.ltb_ge in Ht, Hi. unfold scan_jsonl, scan in E. destruct Hr as [->|(b' & m & ->)].
  - destruct (sound_split b Hb) as (ls & tail & _ & Eb & Hls & Hn & Htl).
    destruct Hb as (_ & _ & Hlen). cbn [rd_bytes] in E.
    pose proof (lines_short ls (record_lines_shape ls Hls)) as Hs.
    destruct (scan_sound_lines (length b + 2) ls tail health_start index) as (h' & E' & Hf & Hpos);
      [done|done|done|apply fair_start|done|..].
    { rewrite <-Eb. cbn. unfold MAX_FILE_BYTES, u64_max in *. lia. }
    { rewrite Eb, length_app. lia. }
    rewrite <-Eb in E'. pose proof (eq_trans (eq_sym E) E') as [= -> ->].
    exists ls. destruct tail; [by rewrite app_nil_r in Eb|]. specialize (Hpos ltac:(done)). lia.
  - apply scan_failing in E as [Hf Hpos]; [|apply fair_start]. pose proof (fr_incompatible _ Hf). lia.
Qed.

(** ** The walk over an archive *)

Definition location name (p : Z * bytes) : ArchivedRecordLocation :=
  MkArchivedRecordLocation name p.1 (blen p.2).

Lemma read_record_line limit l rest :
  record_line l -> max_bytes <= limit -> read_until limit (l ++ rest) = (l, rest).
Proof.
  intros Hl Hlim. destruct (record_line_facts l Hl) as ((body & Hb & ->) & Hlen & _).
  rewrite <-app_assoc. apply read_until_line; [done|].
  rewrite blen_app in Hlen. change (blen [newline]) with 1 in Hlen. lia.
Qed.

Lemma archive_record_line name offset l r a :
  record_line l -> record_of_text l = Some r ->
  archive_line name offset l a
  = a <| ai_offsets := push_at (cr_command_id r) (location name (offset, l)) a.(ai_offsets) |>.
Proof.
  intros Hl Hr. destruct (record_line_facts l Hl) as ((body & Hb & ->) & _ & Hblank & _).
  unfold archive_line. rewrite ends_with_newline_snoc, Hblank. unfold archived_line_id. by rewrite Hr.
Qed.

(** A torn end may add one more location. *)
Lemma archive_torn name offset tail a :
  exists extra, forall id, default [] (ai_offsets (archive_line name offset tail a) !! id)
                = default [] (ai_offsets a !! id) ++ extra id
                /\ Forall (fun x => al_path x = name) (extra id).
Proof.
  unfold archive_line. set (a1 := if ends_with_newline tail then a else _).
  assert (ai_offsets a1 = ai_offsets a) as <- by (unfold a1; by destruct (ends_with_newline tail)).
  clearbody a1. destruct (blank_line tail).
  { exists (fun _ => []). intros id. by rewrite app_nil_r. }
  destruct (archived_line_id tail) as [oid readable].
  set (a2 := if readable then a1 else _).
  assert (ai_offsets a2 = ai_offsets a1) as <- by (unfold a2; by destruct readable). clearbody a2.
  destruct oid as [cid|].
  - exists (fun id => if decide (cid = id) then [MkArchivedRecordLocation name offset (blen tail)] else []).
    intros id. split; [apply push_at_lookup|]. destruct (decide (cid = id)); by repeat constructor.
  - exists (fun _ => []). intros id. by rewrite app_nil_r.
Qed.

Lemma archive_sound_lines name ls tail fuel offset a :
  Forall record_line ls -> no_newline tail -> blen tail <= max_bytes ->
  (length ls + length tail <= fuel)%nat ->
  exists extra, forall id,
    default [] (ai_offsets (archive_lines fuel max_bytes name offset (concat ls ++ tail) a) !! id)
    = default [] (ai_offsets a !! id) ++ (location name <$> placed_of id offset ls) ++ extra id
    /\ Forall (fun x => al_path x = name) (extra id).
Proof.
  intros Hls Hn Ht. revert fuel offset a.
  assert (saturating_add max_bytes 1 = max_bytes + 1) as Hsat by (unfold saturating_add; lia).
  induction Hls as [|l ls Hl _ IH]; intros fuel offset a Hf.
  - destruct tail as [|c tail].
    { exists (fun _ => []). intros id. split; [|done]. rewrite !app_nil_r.
      destruct fuel; [done|]. cbn [archive_lines concat app read_until]. by rewrite Hsat; destruct (_ <=? _). }
    cbn [length] in Hf. destruct fuel as [|fuel]; [lia|]. cbn [archive_lines concat app].
    rewrite Hsat, read_until_tail by (done || lia).
    destruct (Z.ltb_spec max_bytes (blen (c :: tail))); [lia|].
    destruct (archive_torn name offset (c :: tail) a) as [extra Hx]. exists extra. intros id.
    destruct (Hx id) as [E Hp]. split; [|done]. etrans; [|exact E].
    destruct fuel; [done|]. cbn [archive_lines read_until]. by rewrite Hsat; destruct (_ <=? _).
  - cbn [length] in Hf. destruct fuel as [|fuel]; [lia|]. cbn [archive_lines concat].
    destruct (record_line_facts l Hl) as ((body & Hb & Hbody) & Hlen & _ & r & Hr).
    rewrite <-app_assoc, (read_record_line _ l (concat ls ++ tail) Hl) by lia.
    destruct l as [|c l]; [by destruct body|].
    destruct (Z.ltb_spec max_bytes (blen (c :: l))); [lia|].
    rewrite (archive_record_line name offset (c :: l) r) by done.
    match goal with |- context [archive_lines fuel max_bytes name ?o _ ?a1] =>
      destruct (IH fuel o a1) as [extra Hx]; [lia|] end.
    exists extra. intros id. destruct (Hx id) as [E Hp]. split; [|done]. etrans; [exact E|].
    unfold placed_of at 2. cbn [placed]. rewrite filter_cons. fold (placed_of id (offset + blen (c :: l)) ls).
    cbn [ai_offsets set_field eta eta_ArchiveIndex]. rewrite push_at_lookup, <-app_assoc.
    f_equal. cbn [snd].
    assert (line_of_command id (c :: l) = N.eqb (cr_command_id r) id) as ->
      by (unfold line_of_command; by rewrite Hr).
    destruct (N.eqb_spec (cr_command_id r) id) as [Eid|Eid].
    + by rewrite decide_True, decide_True by done.
    + by rewrite decide_False, decide_False by done.
Qed.

(** ** Reading the lines back *)

Lemma placed_split offset ls o l :
  (o, l) ∈ placed offset ls ->
  exists before after, ls = before ++ l :: after /\ o = offset + blen (concat before).
Proof.
  revert offset. induction ls as [|l0 ls IH]; intros offset; [by intros ?%not_elem_of_nil|].
  cbn [placed]. intros [[= -> ->]|Hin]%elem_of_cons.
  - exists [], ls. split; [done|]. unfold blen. simpl. lia.
  - destruct (IH _ Hin) as (before & after & -> & ->). exists (l0 :: before), after. split; [done|].
    cbn [concat]. rewrite blen_app. lia.
Qed.

Lemma drop_at b b' : drop (Z.to_nat (blen b)) (b ++ b') = b'.
Proof. unfold blen. rewrite Nat2Z.id. apply drop_app_length. Qed.

(** The bytes from a line's place on. *)
Lemma placed_drop ls rest o l :
  (o, l) ∈ placed 0 ls -> exists more, drop (Z.to_nat o) (concat ls ++ rest) = l ++ more.
Proof.
  intros (before & after & -> & ->)%placed_split. rewrite Z.add_0_l. exists (concat after ++ rest).
  rewrite concat_app. cbn [concat]. rewrite <-!app_assoc. apply drop_at.
Qed.

Lemma take_at b b' : take (Z.to_nat (blen b)) (b ++ b') = b.
Proof. unfold blen. rewrite Nat2Z.id. apply take_app_length. Qed.

Lemma placed_of_elem id offset ls p :
  p ∈ placed_of id offset ls -> p ∈ placed offset ls /\ line_of_command id p.2 = true.
Proof. unfold placed_of. intros [? ?]%list_elem_of_filter. done. Qed.

Lemma placed_line offset ls o l : (o, l) ∈ placed offset ls -> l ∈ ls.
Proof. intros (before & after & -> & _)%placed_split. apply elem_of_app. right. left. Qed.

Lemma check_placed ls rest id o l :
  Forall record_line ls -> (o, l) ∈ placed_of id 0 ls ->
  check_indexed (concat ls ++ rest) (IndexedRecord_new o l) id = record_of_text l.
Proof.
  intros Hls [Hin Hid]%placed_of_elem. simpl in Hid. destruct (placed_drop ls rest o l Hin) as [more Hd].
  pose proof (placed_line _ _ _ _ Hin) as Hl. eapply Forall_forall in Hls; [|exact Hl].
  destruct (record_line_facts l Hls) as ((body & Hb & Hbody) & _ & _ & r & Hr).
  unfold check_indexed, read_at, IndexedRecord_new. cbn [ir_offset ir_len ir_digest].
  rewrite Hd, take_at, Z.eqb_refl. cbn [mbind option_bind].
  assert (ends_with_newline l = true) as -> by (rewrite Hbody; apply ends_with_newline_snoc).
  rewrite bool_decide_eq_true_2 by done. cbn [negb orb]. unfold line_of_command in Hid.
  rewrite Hr in Hid |- *. cbn [mbind option_bind]. by rewrite Hid.
Qed.

(** All the indexed records of a command. *)
Fixpoint check_all (b : bytes) (entries : list IndexedRecord) (id : CommandId)
    : option (list CommandRecord) :=
  match entries with
  | [] => Some []
  | e :: entries => r ← check_indexed b e id; rs ← check_all b entries id; Some (r :: rs)
  end.

Lemma records_placed id offset ls :
  omap (fun p => record_of_text p.2) (placed_of id offset ls) = of_command id (records_of_lines ls).
Proof.
  unfold placed_of. revert offset. induction ls as [|l ls IH]; intros offset; [done|].
  cbn [placed]. rewrite filter_cons. cbn [snd]. unfold records_of_lines. cbn [omap list_omap].
  fold (records_of_lines ls).
  assert (line_of_command id l = match record_of_text l with Some r => N.eqb (cr_command_id r) id | None => false end)
    as -> by done.
  destruct (record_of_text l) as [r|] eqn:Hr; [|by rewrite decide_False by done].
  unfold of_command. rewrite filter_cons. destruct (N.eqb_spec (cr_command_id r) id) as [E|E].
  - rewrite decide_True, decide_True by done. cbn [omap list_omap snd]. rewrite Hr. f_equal. apply IH.
  - rewrite decide_False, decide_False by done. apply IH.
Qed.

Lemma check_all_placed ls rest id :
  Forall record_line ls ->
  check_all (concat ls ++ rest) ((fun p => IndexedRecord_new p.1 p.2) <$> placed_of id 0 ls) id
  = Some (of_command id (records_of_lines ls)).
Proof.
  intros Hls. rewrite <-(records_placed id 0 ls).
  assert (forall ps, (forall p, p ∈ ps -> p ∈ placed_of id 0 ls) ->
    check_all (concat ls ++ rest) ((fun p => IndexedRecord_new p.1 p.2) <$> ps) id
    = Some (omap (fun p => record_of_text p.2) ps)) as Hgo; [|by apply Hgo].
  induction ps as [|[o l] ps IH]; intros Hps; [done|]. cbn [fmap list_fmap check_all].
  assert ((o, l) ∈ placed_of id 0 ls) as Hin by (apply Hps; left).
  cbn [fst snd]. rewrite (check_placed ls rest id o l Hls Hin).
  destruct (placed_of_elem _ _ _ _ Hin) as [_ Hid]. simpl in Hid. unfold line_of_command in Hid.
  destruct (record_of_text l) as [r|] eqn:Hr; [|done]. cbn [mbind option_bind].
  rewrite IH by (intros p Hp; apply Hps; by right). cbn [omap list_omap snd]. by rewrite Hr.
Qed.

(** The line an archived location leads to. *)
Definition located_line b (e : ArchivedRecordLocation) : bytes :=
  (read_until e.(al_len) (drop (Z.to_nat e.(al_offset)) b)).1.

Lemma located_placed ls rest name id p :
  Forall record_line ls -> p ∈ placed_of id 0 ls ->
  located_line (concat ls ++ rest) (location name p) = p.2.
Proof.
  intros Hls [Hin _]%placed_of_elem. destruct p as [o l].
  destruct (placed_drop ls rest o l Hin) as [more Hd].
  pose proof (placed_line _ _ _ _ Hin) as Hl. eapply Forall_forall in Hls; [|exact Hl].
  destruct (record_line_facts l Hls) as ((body & Hb & Hbody) & _).
  unfold located_line, location. cbn [al_offset al_len fst snd]. rewrite Hd, Hbody, <-app_assoc.
  cbn [app]. rewrite read_until_line; [done|done|]. rewrite blen_app. change (blen [newline]) with 1. lia.
Qed.

Definition answer_all b (es : list ArchivedRecordLocation) id (s : JournalScan) : JournalScan :=
  fold_left (fun s e => archived_answer (located_line b e) id s) es s.

(** The records of the command are added, without a reservation. *)
Lemma answer_placed ls rest name id s :
  Forall record_line ls ->
  answer_all (concat ls ++ rest) (location name <$> placed_of id 0 ls) id s
  = MkJournalScan (js_records s ++ of_command id (records_of_lines ls)) (js_torn s)
      (js_incompatible_records s).
Proof.
  intros Hls. rewrite <-(records_placed id 0 ls).
  assert (forall ps s, (forall p, p ∈ ps -> p ∈ placed_of id 0 ls) ->
    answer_all (concat ls ++ rest) (location name <$> ps) id s
    = MkJournalScan (js_records s ++ omap (fun p => record_of_text p.2) ps) (js_torn s)
        (js_incompatible_records s)) as Hgo; [|by apply Hgo].
  induction ps as [|p ps IH]; intros s' Hps.
  { cbn. rewrite app_nil_r. by destruct s'. }
  assert (p ∈ placed_of id 0 ls) as Hin by (apply Hps; left).
  unfold answer_all. cbn [fmap list_fmap fold_left]. rewrite (located_placed ls rest name id p Hls Hin).
  fold (answer_all (concat ls ++ rest) (location name <$> ps) id (archived_answer p.2 id s')).
  rewrite IH by (intros q Hq; apply Hps; by right).
  destruct (placed_of_elem _ _ _ _ Hin) as [Hpl Hid].
  assert (record_line p.2) as Hp2
    by (eapply Forall_forall in Hls; [exact Hls|]; destruct p; exact (placed_line _ _ _ _ Hpl)).
  destruct (record_line_facts _ Hp2) as ((body & Hb & Hbody) & _ & _ & r & Hr).
  unfold archived_answer. assert (ends_with_newline p.2 = true) as -> by (rewrite Hbody; apply ends_with_newline_snoc).
  unfold line_of_command in Hid. cbn [omap list_omap]. rewrite Hr in Hid |- *. rewrite Hid.
  cbn [js_records js_torn js_incompatible_records]. by rewrite <-app_assoc.
Qed.
End Files.
