(* ===== verification/CommandJournalSteps.v ===== *)
(** * The operations of the command journal keep what was acknowledged

    An invariant of the disk and the writer, and what each operation does to them, whatever
    I/O call fails.  Statements about operations are triples ([spec]): the invariant holds
    again however the operation ends, and the postcondition when it succeeds. *)

From S2P Require Import Prelude Text SkillTypes Receipt Ledger LedgerRun Json CommandJournal CommandJournalInv.

(** ** Triples *)

Definition spec {S E} (I P : S -> Prop) {A} (m : ST S E A) (Q : A -> S -> Prop) : Prop :=
  forall s r s', I s -> P s -> m s = (r, s') ->
    I s' /\ match r with Ok a => Q a s' | Err _ => True end.

Section Rules.
Context {S E : Type} (I : S -> Prop).
Implicit Types (P : S -> Prop).

Lemma spec_bind {A B} P Q (m : ST S E A) (k : A -> ST S E B) R :
  spec I P m Q -> (forall a, spec I (Q a) (k a) R) -> spec I P (sbind m k) R.
Proof.
  intros Hm Hk s r s' Hi Hp. unfold sbind. destruct (m s) as [[a|e] s1] eqn:Em.
  - destruct (Hm _ _ _ Hi Hp Em) as [Hi1 HQ]. by apply Hk.
  - intros [= <- <-]. split; [|done]. by destruct (Hm _ _ _ Hi Hp Em).
Qed.

Lemma spec_ret {A} P (a : A) (Q : A -> S -> Prop) :
  (forall s, I s -> P s -> Q a s) -> spec (E := E) I P (sret a) Q.
Proof. intros HQ s r s' Hi Hp [= <- <-]. auto. Qed.

Lemma spec_fail {A} P (e : E) (Q : A -> S -> Prop) : spec I P (sfail e) Q.
Proof. by intros s r s' Hi Hp [= <- <-]. Qed.

Lemma spec_lift {A} P (x : result A E) : spec I P (slift x) (fun a s => P s /\ x = Ok a).
Proof. intros s r s' Hi Hp [= <- <-]. split; [done|]. by destruct x. Qed.

Lemma spec_get P : spec (E := E) I P sget (fun a s => P s /\ a = s).
Proof. by intros s r s' Hi Hp [= <- <-]. Qed.

Lemma spec_put P s0 (Q : unit -> S -> Prop) :
  (forall s, I s -> P s -> I s0 /\ Q tt s0) -> spec (E := E) I P (sput s0) Q.
Proof. intros HQ s r s' Hi Hp [= <- <-]. by apply (HQ s). Qed.

Lemma spec_modify P f (Q : unit -> S -> Prop) :
  (forall s, I s -> P s -> I (f s) /\ Q tt (f s)) -> spec (E := E) I P (smodify f) Q.
Proof. intros HQ s r s' Hi Hp [= <- <-]. by apply (HQ s). Qed.

Lemma spec_weaken {A} P P' (m : ST S E A) (Q Q' : A -> S -> Prop) :
  spec I P' m Q' -> (forall s, I s -> P s -> P' s) -> (forall a s, I s -> Q' a s -> Q a s) -> spec I P m Q.
Proof.
  intros Hm HP HQ s r s' Hi Hp Em. destruct (Hm _ _ _ Hi (HP _ Hi Hp) Em) as [Hi' Hr].
  split; [done|]. destruct r; auto.
Qed.

Lemma spec_if {A} (c : bool) P (m1 m2 : ST S E A) Q :
  (c = true -> spec I P m1 Q) -> (c = false -> spec I P m2 Q) -> spec I P (if c then m1 else m2) Q.
Proof. destruct c; auto. Qed.

(** A pure fact of the precondition. *)
Lemma spec_pure {A} (F : Prop) P (m : ST S E A) Q :
  (F -> spec I P m Q) -> spec I (fun s => P s /\ F) m Q.
Proof. intros Hm s r s' Hi [Hp Hf]. by apply Hm. Qed.
End Rules.

(** ** Calls of the device *)

Definition stable (P : Disk -> Prop) : Prop := forall d fs, P d -> P (d <| dk_faults := fs |>).

Lemma spec_fault I P : stable I -> stable P -> spec I P take_fault (fun _ => P).
Proof.
  intros HI HP d r d' Hi Hp. unfold take_fault. destruct (dk_faults d) as [|f fs]; intros [= <- <-];
    [done|split; [by apply HI|by apply HP]].
Qed.

Lemma spec_call I P : stable I -> stable P -> spec I P disk_call (fun _ => P).
Proof.
  intros HI HP. eapply spec_bind; [by apply spec_fault|].
  intros []; [by apply spec_ret|apply spec_fail..].
Qed.

Lemma stable_and P Q : stable P -> stable Q -> stable (fun d => P d /\ Q d).
Proof. intros HP HQ d fs [? ?]. split; [by apply HP|by apply HQ]. Qed.

Lemma stable_const (F : Prop) : stable (fun _ => F).
Proof. by intros d fs. Qed.

Create HintDb journal.
Ltac solve_stable := solve [eauto with journal | by intros ? ? | by intros ? ? ?].

(** A call that changes nothing, and what follows it. *)
Ltac after_call := eapply spec_bind; [apply spec_call; solve_stable|intros []; cbv beta].

Section Calls.
Context (I : Disk -> Prop) (HI : stable I).
#[local] Hint Resolve HI : journal.

Lemma spec_sync P : stable P -> spec I P sync_parent (fun _ => P).
Proof. intros HP. after_call. apply spec_call; solve_stable. Qed.

Lemma spec_sole_link P ino : stable P -> spec I P (require_sole_hard_link ino) (fun _ => P).
Proof.
  intros HP. unfold require_sole_hard_link. after_call. eapply spec_bind; [apply spec_get|]. intros d0.
  apply spec_if; intros _; [|apply spec_fail]. apply spec_ret. by intros d _ [? _].
Qed.

Lemma spec_open_read P e :
  stable P -> spec I P (open_regular_read e)
    (fun x d => P d /\ x = match e with
                           | None => None
                           | Some Special => Some None
                           | Some (Regular ino) => Some (Some ino)
                           end).
Proof.
  intros HP. unfold open_regular_read. after_call.
  destruct e as [[ino|]|]; [after_call; after_call|..]; apply spec_ret; by intros.
Qed.
End Calls.

Definition bytes_of (d : Disk) (ino : N) : bytes := (inode_of d ino).(in_bytes).

(** Nothing but the faults to come has changed. *)
Definition same_files (m d : Disk) : Prop :=
  d.(dk_path) = m.(dk_path) /\ d.(dk_archives) = m.(dk_archives) /\ d.(dk_inodes) = m.(dk_inodes)
  /\ d.(dk_fresh) = m.(dk_fresh).

Lemma same_files_bytes m d ino : same_files m d -> bytes_of d ino = bytes_of m ino.
Proof. intros (_ & _ & E & _). unfold bytes_of, inode_of. by rewrite E. Qed.

Section Steps.
Context `{RecordCodecLaws, Sha2}.
Variable max_bytes : Z.
Hypothesis Hmax : 0 < max_bytes < u64_max.
Implicit Types (d : Disk) (w : WriterState) (id : CommandId) (ino : N).

Definition in_dir d ino : Prop :=
  d.(dk_path) = Some (Regular ino) \/ exists name, (name, Regular ino) ∈ d.(dk_archives).

(** ** What the archives say *)

Definition archive_step d (acc : list N * ArchiveIndex) (a : N * DirEntry) : list N * ArchiveIndex :=
  match a.2 with
  | Regular ino =>
      (acc.1 ++ [a.1], archive_lines (S (length (bytes_of d ino))) max_bytes a.1 0 (bytes_of d ino) acc.2)
  | Special =>
      (acc.1 ++ [a.1], acc.2 <| ai_incompatible_records := acc.2.(ai_incompatible_records) + 1 |>)
  end.

Definition archived_of d : list N * ArchiveIndex :=
  fold_left (archive_step d) d.(dk_archives) ([], MkArchiveIndex ∅ false 0).

Definition archived_at d id : list ArchivedRecordLocation :=
  default [] ((archived_of d).2.(ai_offsets) !! id).

Lemma archived_of_ext m d :
  d.(dk_archives) = m.(dk_archives) ->
  (forall name ino, (name, Regular ino) ∈ m.(dk_archives) -> bytes_of d ino = bytes_of m ino) ->
  archived_of d = archived_of m.
Proof.
  intros Ha Hb. unfold archived_of. rewrite Ha. clear Ha.
  generalize (@nil N, MkArchiveIndex ∅ false 0). revert Hb. generalize (dk_archives m).
  induction l as [|[name e] l IH]; intros Hb acc; [done|]. cbn [fold_left].
  rewrite IH by (intros n ino Hin; apply (Hb n); by right). f_equal.
  unfold archive_step. destruct e as [ino|]; [|done]. cbn [snd fst].
  by rewrite (Hb name ino) by left.
Qed.

(** ** The invariant *)

(** The records of a command are in the file at the path and in no archive, or in one. *)
Definition in_current id (acked : list CommandRecord) d : Prop :=
  exists ino, d.(dk_path) = Some (Regular ino) /\ archived_at d id = []
    /\ of_command id acked `sublist_of` of_command id (records_of (bytes_of d ino)).
Definition in_archive id (acked : list CommandRecord) d : Prop :=
  exists name ino, (name, Regular ino) ∈ d.(dk_archives)
    /\ of_command id acked `sublist_of` of_command id (records_of (bytes_of d ino)).

Record disk_inv (acked : list CommandRecord) d : Prop := MkDiskInv {
  dv_path : d.(dk_path) = None \/ exists ino, d.(dk_path) = Some (Regular ino);
  dv_archives : forall a, a ∈ d.(dk_archives) -> exists ino, a.2 = Regular ino;
  dv_dir : forall ino, in_dir d ino -> is_Some (d.(dk_inodes) !! ino);
  dv_apart : forall ino name, d.(dk_path) = Some (Regular ino) -> (name, Regular ino) ∉ d.(dk_archives);
  dv_names : NoDup d.(dk_archives).*1;
  dv_fresh : (forall ino, is_Some (d.(dk_inodes) !! ino) -> (ino < d.(dk_fresh))%N)
             /\ forall name, name ∈ d.(dk_archives).*1 -> (name < d.(dk_fresh))%N;
  dv_files : forall ino i, d.(dk_inodes) !! ino = Some i -> sound_file max_bytes i.(in_bytes) /\ i.(in_links) = 1;
  dv_acked : forall id, of_command id acked = [] \/ in_current id acked d \/ in_archive id acked d;
}.

(** The writer knows the archives and has indexed the file up to [ws_file_len]. *)
Record writer_ok d w : Prop := MkWriterOk {
  wo_handle : w.(ws_file) = w.(ws_identity);
  wo_old : (w.(ws_identity) < d.(dk_fresh))%N;
  wo_current : d.(dk_path) = Some (Regular w.(ws_identity)) ->
    archived_of d = (w.(ws_archives), w.(ws_archived))
    /\ exists ls more, bytes_of d w.(ws_identity) = concat ls ++ more /\ Forall (record_line max_bytes) ls
         /\ blen (concat ls) = w.(ws_file_len) /\ indexes ls w.(ws_offsets);
}.

Lemma disk_inv_stable acked : stable (disk_inv acked).
Proof. intros d fs [A B C D E F G K]. by split. Qed.

Lemma writer_ok_stable w : stable (fun d => writer_ok d w).
Proof. intros d fs [A B C]. by split. Qed.

(** What the journal still vouches for: the records of a command that no archive mentions. *)
Definition current_records d id : list CommandRecord :=
  match d.(dk_path) with
  | Some (Regular ino) => of_command id (records_of (bytes_of d ino))
  | _ => []
  end.
Definition holds d id : option (list CommandRecord) :=
  if decide (archived_at d id = []) then Some (current_records d id) else None.

Variables (acked : list CommandRecord) (allowed : CommandId -> list CommandRecord -> Prop)
  (held : option WriterState).

(** The invariant of the disk, with the writer that is held while it is worked on and what
    the journal may vouch for. *)
Record world_ok d : Prop := MkWorldOk {
  wk_disk : disk_inv acked d;
  wk_writer : forall w, held = Some w -> writer_ok d w;
  wk_holds : forall id rs, holds d id = Some rs -> allowed id rs;
}.

Lemma world_ok_stable : stable world_ok.
Proof.
  intros d fs [A B C]. split; [by apply disk_inv_stable| |exact C]. intros w Hw. by apply writer_ok_stable, B.
Qed.
#[local] Hint Resolve world_ok_stable : journal.

(** ** Moving the file aside and creating a new one *)

Definition archived d (e : DirEntry) : Disk :=
  d <| dk_path := None |> <| dk_archives := d.(dk_archives) ++ [(d.(dk_fresh), e)] |>
    <| dk_fresh := N.succ d.(dk_fresh) |>.

Definition created d (now : Time) : Disk :=
  d <| dk_path := Some (Regular d.(dk_fresh)) |>
    <| dk_inodes := <[d.(dk_fresh) := MkInode [] 1 now]> d.(dk_inodes) |>
    <| dk_fresh := N.succ d.(dk_fresh) |>.

Lemma in_dir_archived d ino e :
  d.(dk_path) = Some e -> in_dir d ino <-> in_dir (archived d e) ino.
Proof.
  intros Hp. unfold in_dir. simpl. split.
  - intros [E|[name Hn]]; right.
    + exists (dk_fresh d). apply elem_of_app. right. rewrite Hp in E. injection E as ->. apply list_elem_of_singleton. done.
    + exists name. apply elem_of_app. by left.
  - intros [?|[name Hn]]; [done|]. apply elem_of_app in Hn as [Hn|Hn]; [right; eauto|].
    apply list_elem_of_singleton in Hn as [= -> ->]. by left.
Qed.

(** After the file is moved aside, only commands it does not mention are vouched for. *)
Lemma holds_archived d e id rs :
  disk_inv acked d -> d.(dk_path) = Some e -> holds (archived d e) id = Some rs -> rs = [] /\ holds d id = Some [].
Proof.
  intros D Hp. destruct (dv_path _ _ D) as [E|[ino E]]; [congruence|]. assert (e = Regular ino) as -> by congruence.
  assert (sound_file max_bytes (bytes_of d ino)) as Hs.
  { destruct (dv_dir _ _ D ino) as [i Hi]; [by left|]. unfold bytes_of, inode_of. rewrite Hi. by apply (dv_files _ _ D ino). }
  destruct (sound_split max_bytes _ Hs) as (ls & tail & Ej & Eb & Hls & Hn & Ht).
  pose proof (lines_short ls (record_lines_shape max_bytes ls Hls)) as Hshort.
  destruct (archive_sound_lines max_bytes Hmax (dk_fresh d) ls tail (S (length (bytes_of d ino))) 0
              (archived_of d).2 Hls Hn Ht) as [extra Hx]; [rewrite Eb, length_app; lia|].
  destruct (Hx id) as [Hx1 _]. rewrite <-Eb in Hx1.
  assert (archived_at (archived d (Regular ino)) id
          = archived_at d id ++ (location (dk_fresh d) <$> placed_of id 0 ls) ++ extra id) as Ha.
  { unfold archived_at at 1, archived_of. cbn [dk_archives archived set_field eta eta_Disk].
    rewrite fold_left_app. exact Hx1. }
  unfold holds. rewrite Ha. destruct (decide _) as [En|]; [|done]. intros [= <-]. split; [done|].
  apply app_eq_nil in En as [En1 [En2 _]%app_eq_nil]. apply fmap_nil_inv in En2.
  rewrite decide_True by done. unfold current_records. rewrite E. unfold records_of. rewrite Ej. cbn [fst].
  by rewrite <-(records_placed id 0 ls), En2.
Qed.

Lemma archive_ok d e : world_ok d -> d.(dk_path) = Some e -> world_ok (archived d e).
Proof.
  intros [[A B C D E [F1 F2] G K] W X] Hp. pose proof (MkDiskInv acked d A B C D E (conj F1 F2) G K) as DI. split.
  - split.
    + by left.
    + intros a. simpl. intros [Ha|Ha%list_elem_of_singleton]%elem_of_app; [by apply B|].
      subst a. simpl. destruct A as [?|[ino ?]]; [congruence|]. exists ino. congruence.
    + intros ino Hin. apply (C ino). by apply (in_dir_archived d ino e Hp).
    + done.
    + simpl. rewrite fmap_app. apply NoDup_app. split; [done|]. split; [|apply NoDup_singleton].
      intros x Hx ->%list_elem_of_singleton. apply F2 in Hx. simpl in Hx. lia.
    + split; simpl.
      * intros ino Hi. apply F1 in Hi. lia.
      * intros name. rewrite fmap_app. intros [Hn|Hn%list_elem_of_singleton]%elem_of_app.
        { apply F2 in Hn. lia. } simpl in Hn. lia.
    + done.
    + intros id. destruct (K id) as [?|[(ino & Hi & _ & Hs)|(name & ino & Hi & Hs)]]; [by left|right; right..].
      * exists (dk_fresh d), ino. split; [|exact Hs]. apply elem_of_app. right. apply list_elem_of_singleton.
        congruence.
      * exists name, ino. split; [|exact Hs]. apply elem_of_app. by left.
  - intros w Hw. destruct (W w Hw) as [W1 W2 W3]. split; [done|simpl; lia|done].
  - intros id rs Hh. destruct (holds_archived d e id rs DI Hp Hh) as [-> Hd]. by apply X.
Qed.

Lemma sound_empty : sound_file max_bytes [].
Proof. split; [by constructor|]. split; [simpl; unfold blen; simpl; lia|done]. Qed.

Lemma bytes_created_old d now ino : ino <> d.(dk_fresh) -> bytes_of (created d now) ino = bytes_of d ino.
Proof. intros Hne. unfold bytes_of, inode_of. simpl. by rewrite lookup_insert_ne. Qed.

Lemma create_ok d now : world_ok d -> d.(dk_path) = None -> world_ok (created d now).
Proof.
  intros [[A B C D E [F1 F2] G K] W X] Hp.
  assert (forall ino, in_dir d ino -> ino <> dk_fresh d) as Hold.
  { intros ino Hin%C%F1. lia. }
  assert (forall ino, in_dir (created d now) ino -> ino = dk_fresh d \/ in_dir d ino) as Hdir.
  { intros ino [E1|Hn]; [left; simpl in E1; congruence|right; by right]. }
  split.
  - split.
    + right. by exists (dk_fresh d).
    + done.
    + intros ino [->|Hin]%Hdir; simpl; [by rewrite lookup_insert_eq|].
      rewrite lookup_insert_ne by (intros E1; by apply (Hold ino)). by apply C.
    + intros ino name. simpl. intros [= <-] Hin. apply (Hold (dk_fresh d)); [right; eauto|done].
    + done.
    + split; simpl.
      * intros ino Hi. destruct (decide (ino = dk_fresh d)) as [->|Hne]; [lia|].
        rewrite lookup_insert_ne in Hi by done. apply F1 in Hi. lia.
      * intros name Hn. apply F2 in Hn. lia.
    + intros ino i. simpl. destruct (decide (ino = dk_fresh d)) as [->|Hne].
      * rewrite lookup_insert_eq. intros [= <-]. split; [apply sound_empty|done].
      * rewrite lookup_insert_ne by done. apply G.
    + intros id. destruct (K id) as [?|[(ino & Hi & _)|(name & ino & Hi & Hs)]]; [by left|congruence|].
      right. right. exists name, ino. split; [done|].
      rewrite bytes_created_old by (apply Hold; right; eauto). done.
  - intros w Hw. destruct (W w Hw) as [W1 W2 W3]. split; [done|simpl; lia|].
    simpl. intros [= E1]. lia.
  - intros id rs. unfold holds, archived_at. rewrite (archived_of_ext d (created d now)); [|done|].
    + intros Hh. apply X. rewrite <-Hh. unfold holds, archived_at, current_records. rewrite Hp. simpl.
      unfold bytes_of, inode_of. simpl. by rewrite lookup_insert_eq.
    + intros name ino Hin. apply bytes_created_old, Hold. right. eauto.
Qed.

Lemma stable_path (P : option DirEntry -> Prop) : stable (fun d => P d.(dk_path)).
Proof. by intros d fs. Qed.

Lemma spec_archive :
  spec world_ok (fun _ => True) archive_damaged_journal (fun _ d => d.(dk_path) = None).
Proof.
  unfold archive_damaged_journal. after_call. eapply spec_bind; [apply spec_get|]. intros d0.
  destruct (dk_path d0) as [e|] eqn:Ep; [|apply spec_fail].
  eapply (spec_bind _ _ (fun _ d => dk_path d = None));
    [|intros []; apply (spec_sync _ world_ok_stable (fun d => dk_path d = None)); solve_stable].
  apply spec_put. intros d Hd [_ ->]. split; [by apply (archive_ok d e)|done].
Qed.

Definition at_path ino d : Prop := d.(dk_path) = Some (Regular ino).
Definition blank_at ino d : Prop := at_path ino d /\ bytes_of d ino = [].

Lemma spec_open_append now :
  spec world_ok (fun _ => True) (open_append now) at_path.
Proof.
  unfold open_append. after_call. eapply spec_bind; [apply spec_get|]. intros d0.
  destruct (dk_path d0) as [[ino|]|] eqn:Ep; [|apply spec_fail|].
  - apply spec_ret. intros d _ [_ ->]. done.
  - eapply (spec_bind _ _ (fun _ => at_path (dk_fresh d0))); [|intros []; by apply spec_ret].
    apply spec_put. intros d Hd [_ ->]. split; [by apply (create_ok d)|done].
Qed.

Lemma spec_open_new now :
  spec world_ok (fun d => d.(dk_path) = None) (open_append now) blank_at.
Proof.
  unfold open_append. after_call. eapply spec_bind; [apply spec_get|]. intros d0.
  apply (spec_weaken _ _ (fun d => (d.(dk_path) = None /\ d0 = d) /\ d0.(dk_path) = None) _ _ blank_at);
    [|by intros d _ [? ->]|done].
  apply spec_pure. intros Ep. rewrite Ep.
  eapply (spec_bind _ _ (fun _ => blank_at (dk_fresh d0))); [|intros []; by apply spec_ret].
  apply spec_put. intros d Hd [_ ->]. split; [by apply (create_ok d)|].
  split; [done|]. unfold bytes_of, inode_of. simpl. by rewrite lookup_insert_eq.
Qed.

Lemma spec_checked P now (Q : N -> Disk -> Prop) :
  spec world_ok P (open_append now) Q -> (forall ino, stable (Q ino)) ->
  spec world_ok P (open_checked now) Q.
Proof.
  intros Ho HQ. unfold open_checked. eapply spec_bind; [exact Ho|]. intros ino. after_call.
  eapply spec_bind; [apply (spec_sole_link _ world_ok_stable); solve_stable|]. intros []. by apply spec_ret.
Qed.

(** ** Opening *)

Definition indexed_at ino (index : gmap CommandId (list IndexedRecord)) d : Prop :=
  at_path ino d /\ exists ls, bytes_of d ino = concat ls /\ Forall (record_line max_bytes) ls /\ indexes ls index.

Lemma spec_set_aside : spec world_ok (fun _ => True) set_aside_foreign_entry (fun _ _ => True).
Proof.
  unfold set_aside_foreign_entry. after_call. eapply spec_bind; [apply spec_get|]. intros d0.
  assert (forall P, spec world_ok P archive_damaged_journal (fun _ _ => True)) as Ha.
  { intros P. eapply spec_weaken; [apply spec_archive|done|done]. }
  destruct (dk_path d0) as [[ino|]|]; [apply spec_if; intros _| |]; try apply Ha; by apply spec_ret.
Qed.

Lemma inode_sound d ino : disk_inv acked d -> at_path ino d -> sound_file max_bytes (bytes_of d ino).
Proof.
  intros D Hp. destruct (dv_dir _ _ D ino) as [i Hi]; [by left|].
  unfold bytes_of, inode_of. rewrite Hi. by apply (dv_files _ _ D ino).
Qed.

Lemma spec_scan ino :
  spec world_ok (at_path ino) (scan_file ino (Some ∅) max_bytes)
    (fun x d => at_path ino d /\ (scan_damaged x.1 = false -> indexed_at ino (default ∅ x.2) d)).
Proof.
  unfold scan_file. eapply spec_bind; [apply spec_fault; solve_stable|]. intros f.
  eapply spec_bind; [apply spec_get|]. intros d0. cbv zeta.
  set (r := match f with IoOk => _ | IoFails m => _ | IoPartial n m => _ end).
  assert (r = MkReader (bytes_of d0 ino) None \/ exists b m, r = MkReader b (Some m)) as Hr
    by (unfold r; destruct f; eauto).
  clearbody r. destruct (scan_jsonl _ _ _ _) as [[h|e] index] eqn:E; [|apply spec_fail].
  apply spec_ret. intros d [D _ _] [Hp ->]. split; [done|]. cbn [fst snd]. intros Hd. split; [done|].
  destruct (scan_sound_file max_bytes Hmax _ _ _ _ _ (inode_sound _ _ D Hp) Hr E Hd) as (ls & Hb & Hls & ->).
  exists ls. split_and!; [done|done|]. intros id.
  etrans; [apply index_lines_lookup|]. by rewrite lookup_empty.
Qed.

Lemma spec_index_archives (I : Disk -> Prop) m entries acc :
  stable I ->
  spec I (same_files m) (index_archives max_bytes entries acc)
    (fun x d => same_files m d /\ x = fold_left (archive_step m) entries acc).
Proof.
  intros HI. revert acc. induction entries as [|[name e] entries IH]; intros acc; cbn [index_archives].
  - after_call. by apply spec_ret.
  - after_call. eapply spec_bind; [apply (spec_open_read I HI); solve_stable|]. intros x. cbv beta.
    apply spec_pure. intros ->. cbn [fold_left]. destruct e as [ino|].
    + after_call. intros d r d' Hi Hd. unfold sbind at 1, sget.
      assert (in_bytes (inode_of d ino) = bytes_of m ino) as -> by (exact (same_files_bytes m d ino Hd)).
      by apply IH.
    + apply IH.
Qed.

(** The writer is at the end of the file at the path. *)
Definition current d w : Prop :=
  at_path w.(ws_identity) d /\ w.(ws_file_len) = blen (bytes_of d w.(ws_identity))
  /\ w.(ws_modified) = Some (inode_of d w.(ws_identity)).(in_modified).

Lemma archived_of_same m d : same_files m d -> archived_of d = archived_of m.
Proof. intros Hs. apply archived_of_ext; [apply Hs|]. intros. by apply same_files_bytes. Qed.

Lemma indexed_at_stable ino index : stable (indexed_at ino index).
Proof. by intros d fs. Qed.
#[local] Hint Resolve indexed_at_stable : journal.

Lemma indexed_empty ino d : blank_at ino d -> indexed_at ino ∅ d.
Proof.
  intros [Hp Hb]. split; [done|]. exists []. split_and!; [done|by constructor|].
  intros id. by rewrite lookup_empty.
Qed.

Lemma spec_open_writer now :
  spec world_ok (fun _ => True) (open_writer now max_bytes) (fun w d => writer_ok d w /\ current d w).
Proof.
  unfold open_writer. eapply spec_bind; [apply spec_set_aside|]. intros [].
  eapply spec_bind; [apply spec_checked; [apply spec_open_append|solve_stable]|]. intros ino0. after_call.
  eapply spec_bind; [apply spec_scan|]. intros [s index]. cbn [fst snd].
  eapply (spec_bind _ _ (fun x d => indexed_at x.1.1 x.2 d)).
  { apply spec_if; intros Hd.
    - eapply spec_bind; [eapply spec_weaken; [apply spec_archive|done|by intros a d _ Hd'; exact Hd']|].
      intros []. cbv beta.
      eapply spec_bind; [apply spec_checked; [apply spec_open_new|solve_stable]|]. intros ino.
      apply spec_ret. intros d _ Hb. by apply indexed_empty.
    - apply spec_ret. intros d _ [_ Hx]. by apply Hx. }
  intros [[ino next] offsets]. cbn [fst snd]. after_call.
  eapply spec_bind; [apply (spec_sync _ world_ok_stable); solve_stable|]. intros []. after_call.
  eapply spec_bind; [apply spec_get|]. intros m. cbv beta.
  apply (spec_weaken _ _ (fun d => same_files m d /\ indexed_at ino offsets m) _ _
           (fun w d => writer_ok d w /\ current d w)); [|by intros d _ [Hx ->]|done].
  apply spec_pure. intros [Hp (ls & Hb & Hls & Hidx)]. after_call. after_call. after_call.
  eapply spec_bind; [apply (spec_index_archives _ _ _ _ world_ok_stable)|]. intros [names archive]. cbv beta.
  apply spec_pure. intros E. apply spec_ret. intros d [D _ _] Hs. pose proof Hs as (S1 & S2 & S3 & S4).
  assert (bytes_of d ino = bytes_of m ino) as Hbm by (by apply same_files_bytes).
  split.
  - split; cbn [ws_file ws_identity ws_archives ws_archived ws_file_len ws_offsets]; [done|..].
    + apply (proj1 (dv_fresh _ _ D)), (dv_dir _ _ D). left. by rewrite S1.
    + intros _. rewrite (archived_of_same m d Hs). unfold archived_of. rewrite <-E. split; [done|].
      exists ls, []. rewrite app_nil_r, Hbm. split_and!; [done|done| |done]. unfold bytes_of in Hb. by rewrite Hb.
  - split_and!; cbn [ws_identity ws_file_len ws_modified]; [unfold at_path; by rewrite S1|by rewrite Hbm|].
    unfold inode_of. by rewrite S3.
Qed.
End Steps.
