(* ===== verification/CommandJournalOps.v ===== *)
(** * Appending to and reading the command journal

    What [refresh], [append_record] and [history] do to the invariant of the journal, and
    what they return, whatever I/O call fails. *)

From S2P Require Import Prelude Text SkillTypes Receipt Ledger LedgerRun Json CommandJournal CommandJournalInv CommandJournalSteps.

Section Operations.
Context `{RecordCodecLaws, Sha2}.
Variable max_bytes : Z.
Hypothesis Hmax : 0 < max_bytes < u64_max.
Implicit Types (d : Disk) (w : WriterState) (id : CommandId) (ino : N) (j : JsonlJournal)
  (acked : list CommandRecord) (allowed : CommandId -> list CommandRecord -> Prop).

Definition journal_ok acked allowed j : Prop :=
  world_ok max_bytes acked allowed (Some j.(jj_writer)) j.(jj_disk) /\ j.(jj_max_record_bytes) = max_bytes.

(** The index and the archives of the writer are those of the file at the path. *)
Definition synced j : Prop :=
  at_path j.(jj_writer).(ws_identity) j.(jj_disk)
  /\ j.(jj_writer).(ws_file_len) = blen (bytes_of j.(jj_disk) j.(jj_writer).(ws_identity)).

Lemma spec_on_disk acked allowed {A} (P : JsonlJournal -> Prop) (m : DiskIO A) (Q : A -> JsonlJournal -> Prop) :
  (forall w, spec (world_ok max_bytes acked allowed (Some w)) (fun d => P (MkJsonlJournal d w max_bytes)) m
               (fun a d => Q a (MkJsonlJournal d w max_bytes))) ->
  spec (journal_ok acked allowed) P (on_disk m) Q.
Proof.
  intros Hm [d w mx] r j' [Hw Hx] Hp. simpl in Hx. subst mx. unfold on_disk. simpl.
  destruct (m d) as [r0 d'] eqn:E. intros [= <- <-]. simpl in Hw.
  destruct (Hm w _ _ _ Hw Hp E) as [Hw' HQ]. split; [by split|]. by destruct r0.
Qed.

Definition jstable (P : JsonlJournal -> Prop) : Prop :=
  forall w, stable (fun d => P (MkJsonlJournal d w max_bytes)).

Lemma spec_jcall acked allowed P : jstable P -> spec (journal_ok acked allowed) P (on_disk disk_call) (fun _ => P).
Proof. intros HP. apply spec_on_disk. intros w. apply spec_call; [apply world_ok_stable|apply HP]. Qed.

Ltac after_jcall := eapply spec_bind; [apply spec_jcall; by intros ? ? ?|intros []; cbv beta].

(** ** Refreshing *)

Lemma spec_reopen acked allowed now : spec (journal_ok acked allowed) (fun _ => True) (reopen_writer now) (fun _ => synced).
Proof.
  unfold reopen_writer. eapply spec_bind; [apply spec_get|]. intros j0. cbv beta.
  apply (spec_weaken _ _ (fun _ => True /\ j0.(jj_max_record_bytes) = max_bytes) _ _ (fun _ => synced));
    [|by intros j [_ Hx] [_ ->]|done].
  apply spec_pure. intros ->.
  eapply (spec_bind _ _ (fun w j => writer_ok max_bytes j.(jj_disk) w /\ current j.(jj_disk) w)).
  { apply spec_on_disk. intros w. by apply spec_open_writer. }
  intros w. apply spec_modify. intros [d w0 mx] [[D W X] Hx] [Hw (Hc1 & Hc2 & _)]. split; [split; [split|]|]; try done.
  intros w' [= <-]. done.
Qed.

Lemma spec_refresh acked allowed now : spec (journal_ok acked allowed) (fun _ => True) (refresh now) (fun _ => synced).
Proof.
  unfold refresh. eapply spec_bind; [apply spec_get|]. intros j0.
  eapply (spec_bind _ _ (fun x j => forall ino, x = Some (Some ino) -> at_path ino j.(jj_disk))).
  { apply spec_on_disk. intros w d r d' Hw [_ ->]. cbn [jj_disk]. intros E.
    destruct (spec_open_read _ (world_ok_stable max_bytes acked allowed (Some w)) (fun d1 => dk_path d1 = dk_path d) (dk_path d)
                ltac:(by intros ? ?) d r d' Hw eq_refl E) as [Hw' Hr].
    split; [done|]. destruct r as [x|e]; [|done]. destruct Hr as [Hp ->]. intros ino. unfold at_path.
    rewrite Hp. destruct (dk_path d) as [[]|]; naive_solver. }
  intros x. destruct x as [[ino|]|].
  2,3: eapply spec_weaken; [apply spec_reopen|done|done].
  after_jcall. eapply spec_bind; [apply spec_get|]. intros j1.
  apply (spec_weaken _ _ (fun j => (j.(jj_writer) = j1.(jj_writer) /\ same_files j1.(jj_disk) j.(jj_disk))
                                   /\ at_path ino j1.(jj_disk)) _ _ (fun _ => synced)).
  2: { intros j _ [Hp ->]. split; [|by apply Hp]. done. }
  2: done.
  apply spec_pure. intros Hp. after_jcall.
  apply spec_if; intros Hu; [|eapply spec_weaken; [apply spec_reopen|done|done]].
  apply spec_ret. intros j _ [Ew Hs]. unfold unchanged in Hu. unfold synced. rewrite Ew.
  apply andb_prop in Hu as [Hu _]. apply andb_prop in Hu as [Hu Hl]. apply andb_prop in Hu as [Hi _].
  apply N.eqb_eq in Hi. subst ino. apply Z.eqb_eq in Hl. unfold at_path.
  rewrite (same_files_bytes _ _ _ Hs). destruct Hs as (-> & _). split; [done|]. unfold bytes_of. lia.
Qed.

(** ** What the archives hold *)

Lemma sound_archive acked d name ino :
  disk_inv max_bytes acked d -> (name, Regular ino) ∈ d.(dk_archives) -> sound_file max_bytes (bytes_of d ino).
Proof.
  intros D Hin. destruct (dv_dir _ _ _ D ino) as [i Hi]; [right; eauto|].
  unfold bytes_of, inode_of. rewrite Hi. by apply (dv_files _ _ _ D ino).
Qed.

(** The locations of a command in an archive: its lines, and perhaps the torn end. *)
Definition archive_part d id (a : N * DirEntry) (part : list ArchivedRecordLocation) : Prop :=
  exists ino extra, a.2 = Regular ino
    /\ part = (location a.1 <$> placed_of id 0 (jsonl_lines (bytes_of d ino)).1) ++ extra
    /\ Forall (fun x => al_path x = a.1) part.

Lemma fold_archives acked d id l acc :
  disk_inv max_bytes acked d -> (forall a, a ∈ l -> a ∈ d.(dk_archives)) ->
  exists parts, default [] ((fold_left (archive_step max_bytes d) l acc).2.(ai_offsets) !! id)
                = default [] (acc.2.(ai_offsets) !! id) ++ concat parts
    /\ Forall2 (archive_part d id) l parts.
Proof.
  intros D. revert acc. induction l as [|[name e] l IH]; intros acc Hl.
  { exists []. rewrite app_nil_r. split; [done|constructor]. }
  cbn [fold_left]. destruct (IH (archive_step max_bytes d acc (name, e))) as (parts & E & Hp).
  { intros a Ha. apply Hl. by right. }
  destruct (dv_archives _ _ _ D (name, e)) as [ino Hino]; [apply Hl; left|]. simpl in Hino. subst e.
  pose proof (sound_archive _ _ _ _ D (Hl _ ltac:(left))) as Hs.
  destruct (sound_split max_bytes _ Hs) as (ls & tail & Ej & Eb & Hls & Hn & Ht).
  pose proof (lines_short ls (record_lines_shape max_bytes ls Hls)) as Hshort.
  destruct (archive_sound_lines max_bytes Hmax name ls tail (S (length (bytes_of d ino))) 0 acc.2 Hls Hn Ht)
    as [extra Hx].
  { rewrite Eb, length_app. lia. }
  destruct (Hx id) as [Hx1 Hx2].
  exists (((location name <$> placed_of id 0 ls) ++ extra id) :: parts). split.
  - rewrite E. cbn [archive_step snd fst concat]. rewrite <-Eb in Hx1. rewrite Hx1. by rewrite <-!app_assoc.
  - constructor; [|done]. exists ino, (extra id). split; [done|]. split; [by rewrite Ej|].
    apply Forall_app. split; [|done]. apply Forall_fmap, Forall_forall. by intros p _.
Qed.

Lemma archived_parts acked d id :
  disk_inv max_bytes acked d ->
  exists parts, archived_at max_bytes d id = concat parts /\ Forall2 (archive_part d id) d.(dk_archives) parts.
Proof.
  intros D. destruct (fold_archives acked d id d.(dk_archives) ([], MkArchiveIndex ∅ false 0) D) as (parts & E & Hp);
    [done|]. exists parts. split; [exact E|done].
Qed.

Lemma part_of acked d id name ino :
  disk_inv max_bytes acked d -> (name, Regular ino) ∈ d.(dk_archives) -> archived_at max_bytes d id = [] ->
  of_command id (records_of (bytes_of d ino)) = [].
Proof.
  intros D [k Hk]%list_elem_of_lookup He. destruct (archived_parts acked d id D) as (parts & E & Hp).
  rewrite He in E. destruct (Forall2_lookup_l _ _ _ _ _ Hp Hk) as (part & Hpart & ino' & extra & E1 & E2 & _).
  simpl in E1. injection E1 as <-.
  assert (part = []) as Hnil.
  { symmetry in E. apply concat_nil_Forall in E. by eapply Forall_lookup_1 in E. }
  rewrite Hnil in E2. symmetry in E2. apply app_eq_nil in E2 as [E2 _]. apply fmap_nil_inv in E2.
  unfold records_of. rewrite <-(records_placed id 0), E2. done.
Qed.

(** A command with nothing in the archives has its records in the file at the path. *)
Lemma not_archived_current acked d id ino :
  disk_inv max_bytes acked d -> at_path ino d -> archived_at max_bytes d id = [] ->
  of_command id acked `sublist_of` of_command id (records_of (bytes_of d ino)).
Proof.
  intros D Hp Ha. destruct (dv_acked _ _ _ D id) as [->|[(ino' & Hp' & _ & Hs)|(name & ino' & Hin & Hs)]].
  - apply sublist_nil_l.
  - unfold at_path in Hp. rewrite Hp in Hp'. by injection Hp' as <-.
  - rewrite (part_of _ _ _ _ _ D Hin Ha) in Hs. apply sublist_nil_r in Hs as ->. apply sublist_nil_l.
Qed.

(** ** Growing the file *)

(** What a write of a line that may stop early leaves at the end of the file. *)
Definition piece (l b : bytes) : Prop := b = l \/ (no_newline b /\ blen b <= max_bytes).

Lemma take_piece n l : record_line max_bytes l -> piece l (take n l).
Proof.
  intros Hl. destruct (record_line_facts max_bytes l Hl) as ((body & Hb & E) & Hlen & _).
  destruct (decide (length l <= n)%nat) as [Hn|Hn]; [left; by rewrite take_ge|right].
  split.
  - rewrite E, length_app in Hn. simpl in Hn. rewrite E, take_app_le by lia. by apply Forall_take.
  - unfold blen in *. rewrite length_take. lia.
Qed.

Lemma piece_lines ls l b :
  Forall (record_line max_bytes) ls -> record_line max_bytes l -> piece l b -> exists more,
  (jsonl_lines (concat ls ++ b)).1 = ls ++ more /\ Forall (record_line max_bytes) (ls ++ more)
  /\ blen (jsonl_lines (concat ls ++ b)).2 <= max_bytes /\ (b = l /\ more = [l] \/ b <> l /\ more = []).
Proof.
  intros Hls Hl Hb. pose proof (record_lines_shape max_bytes ls Hls) as Hshape. destruct Hb as [->|[Hn Hlen]].
  - exists [l]. assert (concat ls ++ l = concat (ls ++ [l]) ++ []) as ->
      by (rewrite concat_app; cbn [concat]; by rewrite !app_nil_r).
    destruct (record_line_facts max_bytes l Hl) as (Hs & _).
    rewrite jsonl_lines_concat by (constructor || by apply Forall_app; repeat constructor).
    split; [done|]. split; [apply Forall_app; by repeat constructor|]. split; [unfold blen; simpl; lia|by left].
  - exists []. rewrite jsonl_lines_concat by done. rewrite app_nil_r. split_and!; [done..|]. right. split; [|done].
    destruct Hl as (r & body & _ & -> & _). intros ->. apply Forall_app in Hn as [_ Hn].
    apply Forall_cons in Hn as [Hn _]. done.
Qed.

Lemma records_grow ls l b :
  Forall (record_line max_bytes) ls -> record_line max_bytes l -> piece l b ->
  exists more, records_of (concat ls ++ b) = records_of_lines ls ++ records_of_lines more
    /\ (b = l /\ more = [l] \/ b <> l /\ more = []).
Proof.
  intros Hls Hl Hb. destruct (piece_lines ls l b Hls Hl Hb) as (more & E & _ & _ & Hm). exists more.
  split; [|done]. unfold records_of. rewrite E. apply omap_app.
Qed.

Lemma records_of_whole ls : Forall (record_line max_bytes) ls -> records_of (concat ls) = records_of_lines ls.
Proof.
  intros Hls. unfold records_of. rewrite <-(app_nil_r (concat ls)), jsonl_lines_concat; [done| |constructor].
  by apply (record_lines_shape max_bytes).
Qed.

Section Grow.
Context (d : Disk) (ino : N) (ls : list bytes) (l b : bytes) (now : Time) (acked : list CommandRecord).
Hypotheses (D : disk_inv max_bytes acked d) (Hp : at_path ino d) (Hls : Forall (record_line max_bytes) ls)
  (Hb : bytes_of d ino = concat ls) (Hl : record_line max_bytes l) (Hpiece : piece l b) (Hlen : blen (concat ls ++ b) <= MAX_FILE_BYTES).
Let d' := inode_append ino b now d.

Lemma bytes_grown : bytes_of d' ino = concat ls ++ b.
Proof. unfold bytes_of, inode_of, d'. simpl. rewrite lookup_insert_eq. simpl. unfold bytes_of in Hb. by rewrite Hb. Qed.

Lemma bytes_grown_ne ino' : ino' <> ino -> bytes_of d' ino' = bytes_of d ino'.
Proof. intros Hne. unfold bytes_of, inode_of, d'. simpl. by rewrite lookup_insert_ne. Qed.

Lemma bytes_grown_archive name ino' : (name, Regular ino') ∈ d.(dk_archives) -> bytes_of d' ino' = bytes_of d ino'.
Proof. intros Hin. apply bytes_grown_ne. intros ->. by apply (dv_apart _ _ _ D ino name). Qed.

Lemma archived_of_grown : archived_of max_bytes d' = archived_of max_bytes d.
Proof. apply archived_of_ext; [done|]. exact bytes_grown_archive. Qed.

Lemma disk_grown acked' :
  (forall id, of_command id acked' = of_command id acked
              \/ of_command id acked' `sublist_of` of_command id (records_of (concat ls ++ b))
                 /\ archived_at max_bytes d id = []) ->
  disk_inv max_bytes acked' d'.
Proof.
  intros Hacked. pose proof D as [A B C E F [G1 G2] K L]. destruct (C ino (or_introl Hp)) as [i Hi].
  assert (forall id, archived_at max_bytes d' id = archived_at max_bytes d id) as Harch
    by (intros id; unfold archived_at; by rewrite archived_of_grown).
  split; try done.
  - intros ino' Hin. simpl. destruct (decide (ino' = ino)) as [->|Hne]; [by rewrite lookup_insert_eq|].
    rewrite lookup_insert_ne by done. by apply C.
  - split; [|done]. intros ino'. simpl. destruct (decide (ino' = ino)) as [->|Hne].
    + intros _. apply G1. by exists i.
    + rewrite lookup_insert_ne by done. apply G1.
  - intros ino' i'. simpl. destruct (decide (ino' = ino)) as [->|Hne].
    + rewrite lookup_insert_eq. intros [= <-]. simpl. unfold bytes_of in Hb. rewrite Hb.
      split; [|unfold inode_of; rewrite Hi; by apply (K ino)].
      destruct (piece_lines ls l b Hls Hl Hpiece) as (more & E1 & E2 & E3 & _).
      split; [by rewrite E1|]. by split.
    + rewrite lookup_insert_ne by done. apply K.
  - intros id. destruct (Hacked id) as [Ha|[Hs Ha]].
    + destruct (L id) as [?|[(ino' & Hi' & Ha' & Hs)|(name & ino' & Hin & Hs)]]; [left; congruence|right; left|right; right].
      * unfold at_path in Hp. rewrite Hp in Hi'. injection Hi' as <-. exists ino. split; [done|].
        split; [by rewrite Harch|]. rewrite Ha, bytes_grown. rewrite Hb, records_of_whole in Hs by done.
        destruct (records_grow ls l b Hls Hl Hpiece) as (more & -> & _). etrans; [exact Hs|].
        unfold of_command. rewrite filter_app. by apply sublist_inserts_r.
      * exists name, ino'. split; [done|]. rewrite Ha. by rewrite (bytes_grown_archive name).
    + right. left. exists ino. split; [done|]. rewrite Harch, bytes_grown. done.
Qed.

(** What the journal vouches for after a write. *)
Lemma holds_grown id rs r :
  record_of_text l = Some r -> holds max_bytes d' id = Some rs ->
  holds max_bytes d id = Some rs
  \/ (b = l /\ id = r.(cr_command_id) /\ exists rs0, holds max_bytes d id = Some rs0 /\ rs = rs0 ++ [r]).
Proof.
  intros Hr. unfold holds, archived_at. rewrite archived_of_grown. destruct (decide _); [|done]. intros [= <-].
  assert (current_records d id = of_command id (records_of_lines ls)) as Ed.
  { unfold current_records. rewrite Hp, Hb, records_of_whole by done. done. }
  assert (current_records d' id = of_command id (records_of (concat ls ++ b))) as Ed'.
  { unfold current_records. rewrite (Hp : dk_path d' = _), bytes_grown. done. }
  destruct (records_grow ls l b Hls Hl Hpiece) as (more & E & Hm). rewrite Ed', E, Ed. unfold of_command.
  rewrite filter_app. destruct Hm as [[-> ->]|[_ ->]]; [|left; by rewrite app_nil_r].
  assert (records_of_lines [l] = [r]) as -> by (unfold records_of_lines; cbn [omap list_omap]; by rewrite Hr).
  rewrite filter_cons. destruct (decide (cr_command_id r = id)) as [Eid|]; [right|left; by rewrite app_nil_r]. eauto.
Qed.
End Grow.

(** The writer has indexed the whole file. *)
Record tidy w d (ls : list bytes) : Prop := MkTidy {
  td_path : at_path w.(ws_identity) d;
  td_bytes : bytes_of d w.(ws_identity) = concat ls;
  td_lines : Forall (record_line max_bytes) ls;
  td_len : w.(ws_file_len) = blen (concat ls);
  td_index : indexes ls w.(ws_offsets);
  td_archived : archived_of max_bytes d = (w.(ws_archives), w.(ws_archived));
}.

Lemma synced_tidy acked allowed j : journal_ok acked allowed j -> synced j -> exists ls, tidy j.(jj_writer) j.(jj_disk) ls.
Proof.
  intros [[_ W _] _] [Hp Hl]. destruct (W _ eq_refl) as [W1 W2 W3].
  destruct (W3 Hp) as (Ha & ls & more & Hb & Hls & Hlen & Hidx). exists ls.
  assert (more = []) as ->.
  { rewrite Hb, blen_app in Hl. destruct more as [|c more]; [done|].
    assert (0 < blen (c :: more)) by (unfold blen; simpl; lia). lia. }
  rewrite app_nil_r in Hb. by split.
Qed.

Lemma tidy_same m d w ls : tidy w m ls -> same_files m d -> tidy w d ls.
Proof.
  intros [A B C D E F] Hs. split; try done.
  - unfold at_path. destruct Hs as (-> & _). done.
  - by rewrite (same_files_bytes m d _ Hs).
  - by rewrite (archived_of_same max_bytes m d Hs).
Qed.

Lemma indexes_snoc ls index l r :
  indexes ls index -> record_of_text l = Some r ->
  indexes (ls ++ [l]) (push_at r.(cr_command_id) (IndexedRecord_new (blen (concat ls)) l) index).
Proof.
  intros Hi Hr id. rewrite push_at_lookup, Hi. unfold placed_of. rewrite placed_app, filter_app, fmap_app.
  f_equal. cbn [placed]. rewrite filter_cons, Z.add_0_l. cbn [snd].
  assert (line_of_command id l = N.eqb (cr_command_id r) id) as -> by (unfold line_of_command; by rewrite Hr).
  destruct (N.eqb_spec (cr_command_id r) id) as [E|E].
  - by rewrite decide_True, decide_True by done.
  - by rewrite decide_False, decide_False by done.
Qed.

(** The writer after an append, before the metadata is read. *)
Definition advanced w (r : CommandRecord) (l : bytes) : WriterState :=
  w <| ws_offsets := push_at r.(cr_command_id) (IndexedRecord_new w.(ws_file_len) l) w.(ws_offsets) |>
    <| ws_file_len := w.(ws_file_len) + blen l |>.

Section Written.
Context (acked : list CommandRecord) (before after : CommandId -> list CommandRecord -> Prop)
  (d : Disk) (w : WriterState) (ls : list bytes) (now : Time) (r : CommandRecord) (l : bytes).
Hypotheses (D : disk_inv max_bytes acked d) (W : writer_ok max_bytes d w) (T : tidy w d ls)
  (X : forall id rs, holds max_bytes d id = Some rs -> before id rs)
  (Hl : record_line max_bytes l) (Hr : record_of_text l = Some r)
  (Hkeep : forall id rs, before id rs -> after id rs)
  (Hgrow : forall rs, before r.(cr_command_id) rs -> after r.(cr_command_id) (rs ++ [r])).

Lemma written_piece b :
  piece l b -> blen (concat ls ++ b) <= MAX_FILE_BYTES ->
  world_ok max_bytes acked after (Some w) (inode_append w.(ws_file) b now d).
Proof.
  intros Hb Hlen. rewrite (wo_handle _ _ _ W). destruct T as [A B C E F G]. split.
  - apply (disk_grown d _ ls l b now acked D A C B Hl Hb Hlen). by left.
  - intros w' [= <-]. destruct W as [W1 W2 W3]. split; [done|done|]. intros _.
    rewrite (archived_of_grown d _ b now acked D A). split; [done|].
    exists ls, b. split; [by apply bytes_grown|]. by rewrite E.
  - intros id rs Hh. destruct (holds_grown d _ ls l b now acked D A C B Hl Hb Hlen id rs r Hr Hh)
      as [Hd|(_ & -> & rs0 & Hd & ->)]; eauto.
Qed.

Hypotheses (Hlen : blen (concat ls ++ l) <= MAX_FILE_BYTES)
  (Hfree : archived_at max_bytes d r.(cr_command_id) = []).

Lemma written_acked :
  disk_inv max_bytes (acked ++ [r]) (inode_append w.(ws_file) l now d).
Proof.
  rewrite (wo_handle _ _ _ W). destruct T as [A B C E F G].
  apply (disk_grown d _ ls l l now acked D A C B Hl (or_introl eq_refl) Hlen). intros id.
  unfold of_command. rewrite filter_app, filter_cons.
  destruct (decide (cr_command_id r = id)) as [<-|Hne]; [right|left; by rewrite app_nil_r].
  split; [|done]. destruct (records_grow ls l l C Hl (or_introl eq_refl)) as (more & -> & Hm).
  assert (more = [l]) as -> by (destruct Hm as [[_ ->]|[? _]]; done). rewrite filter_app. unfold records_of_lines at 2. cbn [omap list_omap]. rewrite Hr.
  rewrite filter_cons, decide_True by done. apply sublist_app; [|done].
  pose proof (not_archived_current acked d _ _ D A Hfree) as Hs. by rewrite B, records_of_whole in Hs.
Qed.

Lemma advanced_tidy : tidy (advanced w r l) (inode_append w.(ws_file) l now d) (ls ++ [l]).
Proof.
  rewrite (wo_handle _ _ _ W). destruct T as [A B C E F G]. split; cbn.
  - done.
  - rewrite concat_app. cbn [concat]. rewrite app_nil_r. by apply bytes_grown.
  - apply Forall_app. by repeat constructor.
  - rewrite E, concat_app, blen_app. cbn [concat]. by rewrite app_nil_r.
  - rewrite E. by apply indexes_snoc.
  - etrans; [exact (archived_of_grown d _ l now acked D A)|exact G].
Qed.
End Written.

Lemma tidy_writer d w ls :
  w.(ws_file) = w.(ws_identity) -> (w.(ws_identity) < d.(dk_fresh))%N -> tidy w d ls -> writer_ok max_bytes d w.
Proof.
  intros W1 W2 [A B C E F G]. split; [done|done|]. intros _. split; [done|].
  exists ls, []. rewrite app_nil_r. by split_and!.
Qed.

(** ** Appending *)

Lemma same_files_eq m d : same_files m d -> d = m <| dk_faults := d.(dk_faults) |>.
Proof. destruct m, d. unfold same_files. simpl. by intros (-> & -> & -> & ->). Qed.

Lemma disk_inv_same acked m d : disk_inv max_bytes acked m -> same_files m d -> disk_inv max_bytes acked d.
Proof. intros D ->%same_files_eq. by apply disk_inv_stable. Qed.

Lemma holds_same m d id : same_files m d -> holds max_bytes d id = holds max_bytes m id.
Proof. by intros ->%same_files_eq. Qed.

Lemma append_same ino b now m d :
  same_files m d -> same_files (inode_append ino b now m) (inode_append ino b now d).
Proof. intros ->%same_files_eq. done. Qed.

(** The records allowed after an append: those allowed before, with the new record or not. *)
Record admits (before after : CommandId -> list CommandRecord -> Prop) (r : CommandRecord) : Prop := MkAdmits {
  ad_keep : forall id rs, before id rs -> after id rs;
  ad_grow : forall rs, before r.(cr_command_id) rs -> after r.(cr_command_id) (rs ++ [r]);
}.

Lemma spec_write acked before after w ls r l now d0 :
  tidy w d0 ls -> record_line max_bytes l -> record_of_text l = Some r -> admits before after r ->
  (forall id rs, holds max_bytes d0 id = Some rs -> before id rs) ->
  spec (world_ok max_bytes acked after (Some w)) (same_files d0) (file_write w.(ws_file) l now)
    (fun _ d => same_files (inode_append w.(ws_file) l now d0) d /\ blen (concat ls ++ l) <= MAX_FILE_BYTES).
Proof.
  intros T0 Hl Hr Had X0. unfold file_write.
  eapply spec_bind; [apply spec_fault; [apply world_ok_stable|by intros ? ?]|]. intros f.
  assert (forall d b, world_ok max_bytes acked after (Some w) d -> same_files d0 d -> piece l b ->
    (MAX_FILE_BYTES <? blen (in_bytes (inode_of d w.(ws_file)) ++ b)) = false ->
    world_ok max_bytes acked after (Some w) (inode_append w.(ws_file) b now d)
    /\ blen (concat ls ++ b) <= MAX_FILE_BYTES) as Hgrow.
  { intros d b [D W _] Hs Hb Hlen%Z.ltb_ge. specialize (W w eq_refl). pose proof (tidy_same _ _ _ _ T0 Hs) as T.
    assert (blen (concat ls ++ b) <= MAX_FILE_BYTES).
    { rewrite <-(td_bytes _ _ _ T), <-(wo_handle _ _ _ W). exact Hlen. }
    split; [|done]. apply (written_piece acked before after d w ls now r l); try done; try apply Had.
    intros id rs Hh. apply X0. by rewrite <-(holds_same _ _ _ Hs). }
  destruct f as [|m|n m]; [|apply spec_fail|]; (eapply spec_bind; [apply spec_get|]; intros d1).
  - apply spec_if; intros Hc; [apply spec_fail|]. apply spec_modify. intros d Hd [Hs ->].
    destruct (Hgrow d l Hd Hs (or_introl eq_refl) Hc) as [Hw Hlen]. split; [done|]. split; [by apply append_same|done].
  - eapply (spec_bind _ _ (fun _ _ => True)); [|intros []; apply spec_fail].
    apply spec_if; intros Hc; [by apply spec_ret|]. apply spec_modify. intros d Hd [Hs ->].
    split; [|done]. apply Hgrow; [done..|by apply take_piece|done].
Qed.

Lemma bounded_line_ok r b :
  bounded_line max_bytes r = Ok b -> record_line max_bytes b /\ record_of_text b = Some r.
Proof.
  unfold bounded_line. destruct (record_text r) as [t|] eqn:E; [|done]. cbn.
  destruct (_ <? blen t); [done|]. destruct (Z.ltb_spec max_bytes (blen t + 1)); [done|].
  intros [= <-]. split; [|by apply record_text_read]. exists r, t. split_and!; [done|done|].
  rewrite blen_app. done.
Qed.

(** What an acknowledged append leaves. *)
Definition recorded acked before after (record : CommandRecord) j : Prop :=
  exists seq ls l, let r := record <| cr_sequence := seq |> in
    journal_ok (acked ++ [r]) after j /\ tidy j.(jj_writer) j.(jj_disk) (ls ++ [l])
    /\ record_of_text l = Some r /\ current j.(jj_disk) j.(jj_writer)
    /\ j.(jj_writer).(ws_archived).(ai_offsets) !! r.(cr_command_id) = None
    /\ j.(jj_writer).(ws_next_sequence) = seq + 1
    /\ before r.(cr_command_id) (of_command r.(cr_command_id) (records_of_lines ls)).

Lemma free_held w d ls id :
  tidy w d ls -> w.(ws_archived).(ai_offsets) !! id = None ->
  archived_at max_bytes d id = [] /\ holds max_bytes d id = Some (of_command id (records_of_lines ls)).
Proof.
  intros T Hfree. assert (archived_at max_bytes d id = []) as Ha
    by (unfold archived_at; rewrite (td_archived _ _ _ T); cbn [snd]; by rewrite Hfree).
  split; [done|]. unfold holds. rewrite decide_True by done. unfold current_records.
  rewrite (td_path _ _ _ T), (td_bytes _ _ _ T), records_of_whole by apply T. done.
Qed.

Section Append.
Context (acked : list CommandRecord) (before after : CommandId -> list CommandRecord -> Prop)
  (w0 : WriterState) (d0 : Disk) (ls : list bytes) (now : Time) (record : CommandRecord) (seq : Z) (l : bytes).
Let r := record <| cr_sequence := seq |>.
Hypotheses (D : disk_inv max_bytes acked d0) (W : writer_ok max_bytes d0 w0) (T : tidy w0 d0 ls)
  (X : forall id rs, holds max_bytes d0 id = Some rs -> before id rs) (Had : admits before after r)
  (Hl : record_line max_bytes l) (Hr : record_of_text l = Some r)
  (Hfree : w0.(ws_archived).(ai_offsets) !! r.(cr_command_id) = None).

Lemma recorded_written j :
  blen (concat ls ++ l) <= MAX_FILE_BYTES -> j.(jj_max_record_bytes) = max_bytes ->
  j.(jj_writer) = advanced w0 r l ->
  same_files (inode_append w0.(ws_file) l now d0) j.(jj_disk) ->
  (forall id rs, holds max_bytes j.(jj_disk) id = Some rs -> after id rs) ->
  recorded acked before after record (j <| jj_writer := j.(jj_writer)
    <| ws_modified := Some (inode_of j.(jj_disk) w0.(ws_file)).(in_modified) |>
    <| ws_next_sequence := seq + 1 |> |>).
Proof.
  intros Hlen Hmx Hw Hs Hafter. exists seq, ls, l. cbv zeta. fold r.
  destruct (free_held w0 d0 ls _ T Hfree) as [Ha Hheld].
  pose proof (advanced_tidy acked d0 w0 ls now r l D W T Hl Hr) as T1.
  pose proof (tidy_same _ _ _ _ T1 Hs) as T2.
  pose proof (disk_inv_same _ _ _ (written_acked acked d0 w0 ls now r l D W T Hl Hr Hlen Ha) Hs) as D2.
  set (w2 := j.(jj_writer) <| ws_modified := _ |> <| ws_next_sequence := _ |>).
  assert (tidy w2 j.(jj_disk) (ls ++ [l])) as T3 by (unfold w2; rewrite Hw; destruct T2; by split).
  assert (ws_identity w2 = ws_identity w0) as Hid by (unfold w2; by rewrite Hw).
  assert (ws_file w2 = ws_file w0) as Hfile by (unfold w2; by rewrite Hw).
  pose proof (wo_handle _ _ _ W) as Hh.
  assert (writer_ok max_bytes j.(jj_disk) w2) as W2.
  { apply (tidy_writer _ _ (ls ++ [l])); [congruence| |done]. rewrite Hid. destruct Hs as (_ & _ & _ & ->).
    apply (wo_old _ _ _ W). }
  split_and!; [|done|done| | |done|by apply X].
  - split; [|done]. split; [done| |done]. by intros w [= <-].
  - split_and!; [apply T3| |].
    + change (ws_file_len w2 = blen (bytes_of (jj_disk j) (ws_identity w2))).
      rewrite (td_len _ _ _ T3), (td_bytes _ _ _ T3). done.
    + change (Some (in_modified (inode_of (jj_disk j) (ws_file w0)))
              = Some (in_modified (inode_of (jj_disk j) (ws_identity w2)))). by rewrite Hid, Hh.
  - change (w2.(ws_archived).(ai_offsets) !! r.(cr_command_id) = None).
    assert (ws_archived w2 = ws_archived w0) as -> by (unfold w2; by rewrite Hw). done.
Qed.
End Append.

(** The journal while an operation works on it: the writer it read and the files then. *)
Definition during w d0 j : Prop := j.(jj_writer) = w /\ same_files d0 j.(jj_disk).

Lemma spec_append acked before after record now :
  (forall seq, admits before after (record <| cr_sequence := seq |>)) ->
  spec (journal_ok acked after) (journal_ok acked before) (append_record record now)
    (fun _ => recorded acked before after record).
Proof.
  intros Had. unfold append_record.
  eapply (spec_bind _ _ (fun _ j => journal_ok acked before j /\ synced j)).
  { intros j x j' _ Hj E. destruct (spec_refresh acked before now j x j' Hj I E) as [Hj' Hs].
    split; [|by destruct x]. destruct Hj' as [[D W X] Hmx]. split; [|done]. split; [done|done|].
    intros id rs Hh. by apply (Had 0), X. }
  intros []. eapply spec_bind; [apply spec_get|]. intros j0. cbv beta zeta.
  set (w0 := jj_writer j0). set (d0 := jj_disk j0).
  apply (spec_weaken _ _ (fun j => during w0 d0 j /\ jj_max_record_bytes j0 = max_bytes
    /\ disk_inv max_bytes acked d0 /\ writer_ok max_bytes d0 w0
    /\ (forall id rs, holds max_bytes d0 id = Some rs -> before id rs) /\ exists ls, tidy w0 d0 ls)
    _ _ (fun _ => recorded acked before after record)); [| |done].
  2: { intros j _ [[Hj Hs] ->]. pose proof (synced_tidy _ _ _ Hj Hs) as HT. destruct Hj as [[D W X] Hmx].
       split; [done|]. split; [done|]. split; [done|]. split; [by apply W|]. by split. }
  apply spec_pure. intros (-> & D & W & X & ls & T).
  destruct (bool_decide_reflect (is_Some (ai_offsets (ws_archived w0) !! cr_command_id record))) as [|Hfree];
    [apply spec_fail|]. apply eq_None_not_Some in Hfree.
  eapply spec_bind; [apply spec_lift|]. intros next. cbv beta. apply spec_pure.
  intros Hnext%ok_or_ok. unfold checked_add in Hnext. destruct (_ <=? u64_max); [|done]. injection Hnext as <-.
  set (r := record <| cr_sequence := _ |>).
  eapply spec_bind; [apply spec_lift|]. intros l. cbv beta. apply spec_pure.
  intros [Hl Hr]%bounded_line_ok.
  eapply (spec_bind _ _ (fun _ => during w0 d0)).
  { apply spec_on_disk. intros w. apply (spec_sole_link _ (world_ok_stable max_bytes acked after (Some w))). by intros ? ?. }
  intros []. cbv beta. set (d1 := inode_append (ws_file w0) l now d0).
  eapply (spec_bind _ _ (fun _ j => during w0 d1 j /\ blen (concat ls ++ l) <= MAX_FILE_BYTES)).
  { apply spec_on_disk. intros w. unfold during. cbn [jj_writer jj_disk].
    intros d x d' Hw [-> Hs]. intros E.
    destruct (spec_write acked before after w0 ls r l now d0 T Hl Hr (Had _) X d x d' Hw Hs E) as [Hw' Hx].
    split; [done|]. destruct x; [|done]. destruct Hx. done. }
  intros []. cbv beta. apply spec_pure. intros Hlen. after_jcall. after_jcall.
  eapply (spec_bind _ _ (fun _ j => during (advanced w0 r l) d1 j)).
  { apply spec_modify. intros j [[Dj _ Xj] Hx] [Ew Hs]. split; [|done]. split; [|done].
    split; [done| |done]. intros w [= <-]. cbn [jj_disk set_field eta eta_JsonlJournal].
    apply (tidy_writer _ _ (ls ++ [l])); [apply (wo_handle _ _ _ W)| |].
    - destruct Hs as (_ & _ & _ & ->). apply (wo_old _ _ _ W).
    - exact (tidy_same _ _ _ _ (advanced_tidy acked d0 w0 ls now r l D W T Hl Hr) Hs). }
  intros []. after_jcall. apply spec_modify. intros j [[Dj Wj Xj] Hx] [Ew Hs].
  pose proof (recorded_written acked before after w0 d0 ls now record (ws_next_sequence w0) l
                D W T X Hl Hr Hfree j Hlen Hx Ew Hs Xj) as Hrec.
  split; [|done]. split; [|done]. split; [done| |done]. destruct Hrec as (? & ? & ? & [[_ Wr _] _] & _). exact Wr.
Qed.
End Operations.
