(* ===== verification/CommandJournalReads.v ===== *)
(** * Reading the command journal

    What [history] answers: the records of a command from the indexed file, or from the
    archives with a reservation. *)

From S2P Require Import Prelude Text SkillTypes Receipt Ledger LedgerRun Json CommandJournal CommandJournalInv CommandJournalSteps CommandJournalOps.

Section Reads.
Context `{RecordCodecLaws, Sha2}.
Variable max_bytes : Z.
Hypothesis Hmax : 0 < max_bytes < u64_max.
Implicit Types (d : Disk) (w : WriterState) (id : CommandId) (ino : N) (j : JsonlJournal)
  (acked : list CommandRecord) (allowed : CommandId -> list CommandRecord -> Prop) (s : JournalScan).

(** ** The index of the archives *)

(** A command in the index has a location. *)
Definition no_empty {V} (m : gmap CommandId (list V)) : Prop := forall id, m !! id <> Some [].

Lemma no_empty_push {V} id (v : V) m : no_empty m -> no_empty (push_at id v m).
Proof.
  intros Hm id'. unfold push_at. destruct (decide (id = id')) as [->|Hne].
  - rewrite lookup_insert_eq. intros [= E]. by apply app_nil in E as [_ E].
  - by rewrite lookup_insert_ne.
Qed.

Lemma no_empty_line name offset line a :
  no_empty a.(ai_offsets) -> no_empty (archive_line name offset line a).(ai_offsets).
Proof.
  intros Ha. unfold archive_line. destruct (archived_line_id line) as [[id|] readable];
    destruct (ends_with_newline line), (blank_line line), readable; cbn; auto using no_empty_push.
Qed.

Lemma no_empty_lines fuel name offset b a :
  no_empty a.(ai_offsets) -> no_empty (archive_lines fuel max_bytes name offset b a).(ai_offsets).
Proof.
  revert offset b a. induction fuel as [|fuel IH]; intros offset b a Ha; [done|]. cbn [archive_lines].
  destruct (read_until _ b) as [[|c line] rest]; [done|].
  destruct (_ <? _); [|apply IH; by apply no_empty_line].
  destruct (ends_with_newline _); [by apply IH|]. destruct (discard_line rest). by apply IH.
Qed.

Lemma no_empty_archives d l acc :
  no_empty acc.2.(ai_offsets) -> no_empty (fold_left (archive_step max_bytes d) l acc).2.(ai_offsets).
Proof.
  revert acc. induction l as [|[name [ino|]] l IH]; intros acc Ha; [done|..]; cbn [fold_left]; apply IH; [|done].
  by apply no_empty_lines.
Qed.

Lemma archived_lookup d id :
  archived_at max_bytes d id = [] -> (archived_of max_bytes d).2.(ai_offsets) !! id = None.
Proof.
  unfold archived_at. pose proof (no_empty_archives d d.(dk_archives) ([], MkArchiveIndex ∅ false 0)) as Hn.
  fold (archived_of max_bytes d) in Hn. destruct (ai_offsets _ !! id) as [l|] eqn:E; [|done].
  simpl. intros ->. by apply Hn in E.
Qed.

Lemma archive_names d l acc : (fold_left (archive_step max_bytes d) l acc).1 = acc.1 ++ l.*1.
Proof.
  revert acc. induction l as [|[name [ino|]] l IH]; intros acc; [by rewrite app_nil_r|..]; cbn [fold_left];
    rewrite IH; cbn; by rewrite <-app_assoc.
Qed.

(** ** Calls that only read *)

Lemma spec_read_entries (I : Disk -> Prop) (HI : stable I) d0 ino entries id position acc :
  spec I (same_files d0) (read_entries ino entries id position acc)
    (fun x d => same_files d0 d /\ x = app acc <$> check_all (bytes_of d0 ino) entries id).
Proof.
  revert position acc. induction entries as [|e entries IH]; intros position acc; cbn [read_entries check_all].
  { apply spec_ret. intros d _ Hd. cbn. by rewrite app_nil_r. }
  eapply (spec_bind _ _ (fun _ => same_files d0)).
  { apply spec_if; intros _; [by apply spec_ret|]. apply spec_call; [done|by intros ? ?]. }
  intros []. eapply spec_bind; [apply spec_call; [done|by intros ? ?]|]. intros []. cbv beta.
  intros d r d' Hi Hd. unfold sbind at 1, sget.
  assert (in_bytes (inode_of d ino) = bytes_of d0 ino) as -> by (exact (same_files_bytes d0 d ino Hd)).
  destruct (check_indexed _ e id) as [rec|]; [|by intros [= <- <-]].
  intros E. destruct (IH _ _ d r d' Hi Hd E) as [Hi' Hr]. split; [done|].
  destruct r as [x|]; [|done]. destruct Hr as [Hs ->]. split; [done|]. cbn.
  destruct (check_all _ entries id) as [rs|]; [|done]. cbn. by rewrite <-app_assoc.
Qed.

Lemma spec_read_locations (I : Disk -> Prop) (HI : stable I) d0 ino entries id position s :
  spec I (same_files d0) (read_locations ino entries id position s)
    (fun x d => same_files d0 d /\ x = answer_all (bytes_of d0 ino) entries id s).
Proof.
  revert position s. induction entries as [|e entries IH]; intros position s; cbn [read_locations].
  { by apply spec_ret. }
  eapply (spec_bind _ _ (fun _ => same_files d0)).
  { apply spec_if; intros _; [by apply spec_ret|]. apply spec_call; [done|by intros ? ?]. }
  intros []. eapply spec_bind; [apply spec_call; [done|by intros ? ?]|]. intros []. cbv beta.
  intros d r d' Hi Hd. unfold sbind at 1, sget.
  assert (in_bytes (inode_of d ino) = bytes_of d0 ino) as -> by (exact (same_files_bytes d0 d ino Hd)).
  intros E. by destruct (IH _ _ d r d' Hi Hd E) as [Hi' Hr].
Qed.

(** What the chunks add to an answer. *)
Definition answer_chunk d id s (c : N * list ArchivedRecordLocation) : JournalScan :=
  match archive_entry d c.1 with
  | Some (Regular ino) => answer_all (bytes_of d ino) c.2 id s
  | _ => MkJournalScan s.(js_records) s.(js_torn) (s.(js_incompatible_records) + 1)
  end.

Lemma spec_read_chunks (I : Disk -> Prop) (HI : stable I) d0 chunks id s :
  spec I (same_files d0) (read_chunks chunks id s)
    (fun x d => same_files d0 d /\ x = fold_left (answer_chunk d0 id) chunks s).
Proof.
  revert s. induction chunks as [|[name entries] chunks IH]; intros s; cbn [read_chunks fold_left].
  { by apply spec_ret. }
  intros d r d' Hi Hd. unfold sbind at 1, sget. cbv beta iota.
  assert (archive_entry d name = archive_entry d0 name) as ->.
  { unfold archive_entry. destruct Hd as (_ & -> & _). done. }
  revert d r d' Hi Hd. eapply spec_bind; [apply (spec_open_read I HI); by intros ? ?|]. intros x. cbv beta.
  apply spec_pure. intros ->. unfold answer_chunk at 2. cbn [fst snd].
  destruct (archive_entry d0 name) as [[ino|]|]; [|apply IH|apply spec_fail].
  eapply spec_bind; [by apply (spec_read_locations I)|]. intros s'. cbv beta. apply spec_pure. intros ->. apply IH.
Qed.

(** ** The answer from the archives *)

Lemma chunks_flat es :
  concat (chunk_by_path es).*2 = es /\ Forall (fun c => Forall (fun e => al_path e = c.1) c.2) (chunk_by_path es).
Proof.
  induction es as [|e es [E F]]; [done|]. cbn [chunk_by_path]. destruct (chunk_by_path es) as [|[name ls] chunks].
  - cbn in E |- *. subst es. split; [done|]. by repeat constructor.
  - destruct (N.eqb_spec name (al_path e)) as [->|Hne]; cbn in E |- *; (split; [by rewrite <-E|]).
    + apply Forall_cons in F as [F1 F2]. apply Forall_cons. split; [|done]. apply Forall_cons. done.
    + apply Forall_cons. split; [|done]. apply Forall_cons. split; [done|constructor].
Qed.

(** The records that one location adds. *)
Definition line_records id (line : bytes) : list CommandRecord :=
  match record_of_text line with
  | Some r => if N.eqb r.(cr_command_id) id then [r] else []
  | None => []
  end.

Definition located d id (e : ArchivedRecordLocation) : list CommandRecord :=
  match archive_entry d e.(al_path) with
  | Some (Regular ino) => line_records id (located_line (bytes_of d ino) e)
  | _ => []
  end.

Lemma answer_records b es id s :
  js_records (answer_all b es id s) = js_records s ++ (es ≫= fun e => line_records id (located_line b e)).
Proof.
  revert s. induction es as [|e es IH]; intros s; [by rewrite app_nil_r|].
  unfold answer_all. cbn [fold_left]. fold (answer_all b es id (archived_answer (located_line b e) id s)).
  rewrite IH. cbn [mbind list_bind]. rewrite app_assoc. f_equal.
  unfold archived_answer, line_records. destruct (record_of_text _) as [r|]; [destruct (N.eqb _ _)|];
    destruct (ends_with_newline _); cbn; by rewrite ?app_nil_r.
Qed.

Lemma chunks_records d chunks id s :
  Forall (fun c => Forall (fun e => al_path e = c.1) c.2) chunks ->
  js_records (fold_left (answer_chunk d id) chunks s)
  = js_records s ++ (concat chunks.*2 ≫= located d id).
Proof.
  intros Hc. revert s. induction Hc as [|[name es] chunks He _ IH]; intros s; [by rewrite app_nil_r|].
  cbn [fold_left fmap list_fmap concat fst snd] in *. rewrite IH, bind_app, app_assoc. f_equal.
  assert (es ≫= located d id = match archive_entry d name with
    | Some (Regular ino) => es ≫= fun e => line_records id (located_line (bytes_of d ino) e) | _ => [] end) as ->.
  { clear IH. induction He as [|e es E _ IH]; cbn [mbind list_bind].
    - by destruct (archive_entry d name) as [[]|].
    - rewrite IH. unfold located. rewrite E. by destruct (archive_entry d name) as [[]|]. }
  unfold answer_chunk. cbn [fst snd].
  destruct (archive_entry d name) as [[ino|]|]; cbn; rewrite ?app_nil_r; [|done..]. apply answer_records.
Qed.

(** Nothing but records of the command is added. *)
Lemma located_command d id es : Forall (fun r => cr_command_id r = id) (es ≫= located d id).
Proof.
  apply Forall_bind, Forall_true. intros e. change (Forall (fun r => cr_command_id r = id) (located d id e)).
  unfold located, line_records. destruct (archive_entry d _) as [[ino|]|]; [|constructor..].
  destruct (record_of_text _) as [r|]; [|constructor].
  destruct (N.eqb_spec (cr_command_id r) id); by repeat constructor.
Qed.

Lemma archive_entry_found acked d name ino :
  disk_inv max_bytes acked d -> (name, Regular ino) ∈ d.(dk_archives) -> archive_entry d name = Some (Regular ino).
Proof.
  intros D Hin. unfold archive_entry.
  destruct (list_find_elem_of (fun a : N * DirEntry => a.1 = name) d.(dk_archives) (name, Regular ino) Hin eq_refl)
    as [[k [n e]] Hf].
  rewrite Hf. cbn. apply list_find_Some in Hf as (Hk & Hn & _). simpl in Hn. subst n. f_equal.
  apply list_elem_of_lookup in Hin as [k' Hk'].
  pose proof (dv_names _ _ _ D) as Hnd.
  assert (k = k') as <- by (eapply (NoDup_lookup _ _ _ name Hnd); rewrite list_lookup_fmap, ?Hk, ?Hk'; done).
  congruence.
Qed.

(** The whole lines of an archive add its records of the command. *)
Lemma located_part acked d id name ino :
  disk_inv max_bytes acked d -> (name, Regular ino) ∈ d.(dk_archives) ->
  (location name <$> placed_of id 0 (jsonl_lines (bytes_of d ino)).1) ≫= located d id
  = of_command id (records_of (bytes_of d ino)).
Proof.
  intros D Hin. pose proof (archive_entry_found _ _ _ _ D Hin) as He.
  pose proof (sound_archive max_bytes _ _ _ _ D Hin) as Hs.
  destruct (sound_split max_bytes _ Hs) as (ls & tail & Ej & Eb & Hls & _). unfold records_of. rewrite Ej. cbn [fst].
  pose proof (answer_placed max_bytes ls tail name id JournalScan_default Hls) as Ha.
  apply (f_equal js_records) in Ha. rewrite answer_records in Ha. cbn in Ha. etrans; [|exact Ha].
  rewrite !list_fmap_bind. apply list_bind_ext; [|done]. intros p. unfold located. cbn. rewrite He.
  by rewrite Eb.
Qed.

Lemma archived_acked acked d id :
  disk_inv max_bytes acked d -> archived_at max_bytes d id <> [] ->
  of_command id acked `sublist_of` (archived_at max_bytes d id ≫= located d id).
Proof.
  intros D Hne. destruct (dv_acked _ _ _ D id) as [->|[(ino & _ & E & _)|(name & ino & Hin & Hs)]];
    [apply sublist_nil_l|done|].
  destruct (archived_parts max_bytes Hmax acked d id D) as (parts & -> & Hp). etrans; [exact Hs|].
  rewrite <-(located_part acked d id name ino D Hin).
  apply list_elem_of_lookup in Hin as [k Hk].
  destruct (Forall2_lookup_l _ _ _ _ _ Hp Hk) as (part & Hpart & ino' & extra & E1 & E2 & _).
  simpl in E1, E2. injection E1 as <-.
  apply list_elem_of_lookup_2, list_elem_of_split in Hpart as (before & after & ->).
  rewrite concat_app. cbn [concat]. rewrite !bind_app. apply sublist_inserts_l, sublist_inserts_r.
  rewrite E2, bind_app. by apply sublist_inserts_r.
Qed.

(** ** The history of a command *)

(** What an answer says. *)
Record answered acked id s j : Prop := MkAnswered {
  an_command : Forall (fun r => cr_command_id r = id) s.(js_records);
  an_acked : of_command id acked `sublist_of` s.(js_records);
  an_clean : s.(js_torn) = false -> s.(js_incompatible_records) <= 0 ->
    exists ls, tidy max_bytes j.(jj_writer) j.(jj_disk) ls
      /\ s.(js_records) = of_command id (records_of_lines ls)
      /\ j.(jj_writer).(ws_archived).(ai_offsets) !! id = None;
}.

Lemma of_command_all id rs : Forall (fun r => cr_command_id r = id) (of_command id rs).
Proof. apply Forall_forall. intros r [? _]%list_elem_of_filter. done. Qed.

Lemma unindexed_none ls index id :
  indexes ls index -> index !! id = None -> of_command id (records_of_lines ls) = [].
Proof.
  intros Hi Hn. specialize (Hi id). rewrite Hn in Hi. cbn in Hi. symmetry in Hi. apply fmap_nil_inv in Hi.
  by rewrite <-(records_placed id 0), Hi.
Qed.

Section During.
Context (acked : list CommandRecord) (w0 : WriterState) (d0 : Disk) (ls : list bytes) (id : CommandId).
Hypotheses (D : disk_inv max_bytes acked d0) (T : tidy max_bytes w0 d0 ls).

Lemma archived_none_current :
  w0.(ws_archived).(ai_offsets) !! id = None ->
  of_command id acked `sublist_of` of_command id (records_of_lines ls).
Proof.
  intros Ha. rewrite <-(records_of_whole max_bytes) by apply T. rewrite <-(td_bytes _ _ _ _ T).
  apply (not_archived_current max_bytes Hmax _ _ _ _ D); [apply T|].
  unfold archived_at. rewrite (td_archived _ _ _ _ T). cbn [snd]. by rewrite Ha.
Qed.

Lemma no_archives : w0.(ws_archives) = [] -> w0.(ws_archived).(ai_offsets) !! id = None.
Proof.
  intros Hn. pose proof (td_archived _ _ _ _ T) as E. pose proof (archive_names d0 d0.(dk_archives) ([], MkArchiveIndex ∅ false 0)) as En.
  fold (archived_of max_bytes d0) in En. rewrite E in En. cbn in En. rewrite Hn in En.
  symmetry in En. apply fmap_nil_inv in En. unfold archived_of in E. rewrite En in E. cbn in E.
  injection E as _ <-. apply lookup_empty.
Qed.

Lemma answered_archived s :
  (is_Some (w0.(ws_archived).(ai_offsets) !! id) \/ w0.(ws_offsets) !! id = None) ->
  s = fold_left (answer_chunk d0 id) (chunk_by_path (default [] (w0.(ws_archived).(ai_offsets) !! id)))
        (MkJournalScan [] w0.(ws_archived).(ai_torn_tail) w0.(ws_archived).(ai_incompatible_records)) ->
  forall j, during w0 d0 j ->
  answered acked id (match w0.(ws_archives) with
                     | [] => s
                     | _ => MkJournalScan s.(js_records) s.(js_torn) (Z.max s.(js_incompatible_records) 1)
                     end) j.
Proof.
  intros Hid -> j [Ew Hs]. destruct (chunks_flat (default [] (w0.(ws_archived).(ai_offsets) !! id))) as [Ec Fc].
  pose proof (chunks_records d0 _ id
    (MkJournalScan [] w0.(ws_archived).(ai_torn_tail) w0.(ws_archived).(ai_incompatible_records)) Fc) as Hr.
  rewrite Ec in Hr. cbn in Hr. set (s := fold_left _ _ _) in *.
  assert (default [] (w0.(ws_archived).(ai_offsets) !! id) = archived_at max_bytes d0 id) as Ea
    by (unfold archived_at; by rewrite (td_archived _ _ _ _ T)).
  rewrite Ea in Hr.
  assert (of_command id acked `sublist_of` js_records s) as Hacked.
  { rewrite Hr. destruct (decide (archived_at max_bytes d0 id = [])) as [E|E]; [|by apply archived_acked].
    pose proof (archived_lookup d0 id E) as Hnone. rewrite (td_archived _ _ _ _ T) in Hnone. cbn in Hnone.
    pose proof (archived_none_current Hnone) as Hs'. destruct Hid as [Hx|Hx]; [rewrite Hnone in Hx; by destruct Hx|].
    rewrite (unindexed_none ls _ id (td_index _ _ _ _ T) Hx) in Hs'. apply sublist_nil_r in Hs' as ->.
    apply sublist_nil_l. }
  assert (Forall (fun r => cr_command_id r = id) (js_records s)) as Hcmd by (rewrite Hr; apply located_command).
  destruct (ws_archives w0) as [|n ns] eqn:En; [|split; [done|done|cbn; lia]].
  split; [done|done|]. intros _ _. pose proof (no_archives En) as Hnone. exists ls. rewrite Ew.
  split; [by apply (tidy_same max_bytes d0)|]. split; [|done]. destruct Hid as [Hx|Hx]; [rewrite Hnone in Hx; by destruct Hx|].
  rewrite (unindexed_none ls _ id (td_index _ _ _ _ T) Hx), Hr, <-Ea, Hnone. done.
Qed.

Lemma spec_archived_history allowed :
  (is_Some (w0.(ws_archived).(ai_offsets) !! id) \/ w0.(ws_offsets) !! id = None) ->
  spec (journal_ok max_bytes acked allowed) (during w0 d0) (archived_history id) (answered acked id).
Proof.
  intros Hid. unfold archived_history. eapply spec_bind; [apply spec_get|]. intros j0. cbv beta zeta.
  apply (spec_weaken _ _ (fun j => during w0 d0 j /\ j0.(jj_writer) = w0) _ _ (answered acked id));
    [|by intros j _ [[? ?] ->]|done].
  apply spec_pure. intros ->.
  eapply (spec_bind _ _ (fun x j => during w0 d0 j /\ x = fold_left (answer_chunk d0 id) _ _)).
  { apply spec_on_disk. intros w d r d' Hi [Ew Hs]. cbn in Ew, Hs. intros E.
    destruct (spec_read_chunks _ (world_ok_stable max_bytes acked allowed (Some w)) d0 _ id _ d r d' Hi Hs E) as [Hi' Hr]. split; [done|].
    destruct r as [x|]; [|done]. by destruct Hr as [? ->]. }
  intros s. cbv beta. apply spec_pure. intros Es. apply spec_ret. intros j _ Hj. by apply answered_archived.
Qed.
End During.

(** The indexed records are what the file holds. *)
Lemma check_tidy w d ls id entries :
  tidy max_bytes w d ls -> w.(ws_offsets) !! id = Some entries ->
  check_all (bytes_of d w.(ws_identity)) entries id = Some (of_command id (records_of_lines ls)).
Proof.
  intros T He. pose proof (td_index _ _ _ _ T id) as Hi. rewrite He in Hi. cbn in Hi. subst entries.
  rewrite (td_bytes _ _ _ _ T), <-(app_nil_r (concat ls)).
  apply (check_all_placed max_bytes). apply T.
Qed.

Lemma spec_history acked allowed id now :
  spec (journal_ok max_bytes acked allowed) (fun _ => True) (history id now) (answered acked id).
Proof.
  unfold history. eapply spec_bind; [by apply spec_refresh|]. intros []. unfold history_refreshed.
  eapply spec_bind; [apply spec_get|]. intros j0. cbv beta zeta.
  set (w0 := jj_writer j0). set (d0 := jj_disk j0).
  apply (spec_weaken _ _ (fun j => during w0 d0 j /\ disk_inv max_bytes acked d0 /\ writer_ok max_bytes d0 w0
    /\ exists ls, tidy max_bytes w0 d0 ls) _ _ (answered acked id)); [| |done].
  2: { intros j Hj [Hs ->]. pose proof (synced_tidy max_bytes _ _ _ Hj Hs) as HT. destruct Hj as [[D W X] Hmx].
       split; [done|]. split; [done|]. split; [by apply W|done]. }
  apply spec_pure. intros (D & W & ls & T).
  destruct (bool_decide_reflect (is_Some (ai_offsets (ws_archived w0) !! id))) as [Ha|Ha];
    [apply (spec_archived_history acked w0 d0 ls id D T allowed); by left|].
  destruct (ws_offsets w0 !! id) as [entries|] eqn:He;
    [|apply (spec_archived_history acked w0 d0 ls id D T allowed); by right].
  apply eq_None_not_Some in Ha.
  eapply (spec_bind _ _ (fun x j => during w0 d0 j /\ x = Some (of_command id (records_of_lines ls)))).
  { apply spec_on_disk. intros w. unfold read_indexed_records.
    eapply spec_bind; [apply spec_call; [apply world_ok_stable|by intros ? ?]|]. intros [].
    intros d r d' Hi [Ew Hs]. cbn in Ew, Hs. intros E.
    destruct (spec_read_entries _ (world_ok_stable max_bytes acked allowed (Some w)) d0 _ entries id None [] d r d' Hi Hs E) as [Hi' Hr].
    split; [done|]. destruct r as [x|]; [|done]. destruct Hr as [Hs' ->]. split; [done|].
    rewrite (wo_handle _ _ _ W), (check_tidy w0 d0 ls id entries T He). done. }
  intros x. cbv beta. apply spec_pure. intros ->. apply spec_ret. intros j _ [Ew Hs].
  split; cbn [js_records js_torn js_incompatible_records]; [apply of_command_all|by apply (archived_none_current acked w0 d0)|].
  intros _ _. exists ls. rewrite Ew. split; [by apply (tidy_same max_bytes d0)|]. by split.
Qed.

(** ** Without faults *)

Lemma quiet_call d : d.(dk_faults) = [] -> disk_call d = (Ok tt, d).
Proof. intros E. unfold disk_call, sbind, take_fault. by rewrite E. Qed.

Lemma quiet_entries d ino entries id position acc :
  d.(dk_faults) = [] ->
  read_entries ino entries id position acc d = (Ok (app acc <$> check_all (bytes_of d ino) entries id), d).
Proof.
  intros Hf. revert position acc. induction entries as [|e entries IH]; intros position acc; cbn [read_entries check_all].
  { unfold sret. cbn. by rewrite app_nil_r. }
  unfold sbind at 1. assert ((if bool_decide (position = Some (ir_offset e)) then sret tt else disk_call) d = (Ok tt, d)) as ->
    by (case_match; [done|by apply quiet_call]).
  unfold sbind, sget. rewrite (quiet_call d Hf). fold (bytes_of d ino).
  destruct (check_indexed (bytes_of d ino) e id) as [r|]; [|done]. rewrite IH. cbn.
  destruct (check_all _ entries id) as [rs|]; [|done]. cbn. by rewrite <-app_assoc.
Qed.

(** The journal is as its last append left it: the answer is whole and changes nothing. *)
Lemma quiet_history acked allowed j ls id entries now :
  journal_ok max_bytes acked allowed j -> tidy max_bytes j.(jj_writer) j.(jj_disk) ls -> current j.(jj_disk) j.(jj_writer) ->
  j.(jj_disk).(dk_faults) = [] -> j.(jj_writer).(ws_archived).(ai_offsets) !! id = None ->
  j.(jj_writer).(ws_offsets) !! id = Some entries ->
  history id now j = (Ok (MkJournalScan (of_command id (records_of_lines ls)) false 0), j).
Proof.
  destruct j as [d w mx]. intros [[D W X] Hmx] T (Hp & Hlen & Hmod) Hf Ha He. cbn in *. subst mx.
  pose proof (wo_handle _ _ _ (W w eq_refl)) as Hh.
  assert (refresh now (MkJsonlJournal d w max_bytes) = (Ok tt, MkJsonlJournal d w max_bytes)) as Hrefresh.
  { unfold refresh, sbind, sget, on_disk. cbn. unfold at_path in Hp. rewrite Hp. unfold open_regular_read, sbind.
    rewrite !(quiet_call d Hf). cbn. rewrite !(quiet_call d Hf). cbn. unfold unchanged.
    destruct (dv_dir _ _ _ D (ws_identity w) (or_introl Hp)) as [i Hi]. unfold inode_of, bytes_of, inode_of in *.
    rewrite Hi in *. cbn in *. unfold sole_hard_link. destruct (dv_files _ _ _ D _ _ Hi) as [_ ->].
    rewrite N.eqb_refl, Hlen, Z.eqb_refl, Hmod, bool_decide_eq_true_2 by reflexivity. cbn.
    by rewrite (quiet_call d Hf), Z.eqb_refl. }
  unfold history, sbind at 1. rewrite Hrefresh. unfold history_refreshed, sbind, sget. cbn.
  rewrite bool_decide_eq_false_2 by (rewrite Ha; by intros []). rewrite He. unfold on_disk, read_indexed_records, sbind. cbn.
  rewrite (quiet_call d Hf), (quiet_entries d (ws_file w) entries id None [] Hf), Hh. cbn.
  rewrite (check_tidy w d ls id entries T He). done.
Qed.
End Reads.
