(* ===== verification/CommandJournalLaws.v ===== *)
(** * The command journal keeps its promise

    [JsonlJournal] is an instance of the abstract journal of [CommandLog]. *)

From S2P Require Import Prelude Text SkillTypes Receipt Ledger LedgerRun Json CommandJournal CommandLog CommandJournalInv CommandJournalSteps CommandJournalOps CommandJournalReads.

Section Laws.
Context `{RecordCodecLaws, Sha2}.
Implicit Types (j : JsonlJournal) (id : CommandId).

Definition free : CommandId -> list CommandRecord -> Prop := fun _ _ => True.

(** A restart opens the journal with the limit it had. *)
Definition reopen (now : Time) : ST JsonlJournal JournalError unit := fun j =>
  match open_with_max_record_bytes now j.(jj_max_record_bytes) j.(jj_disk) with
  | (Ok w, d) => (Ok tt, MkJsonlJournal d w j.(jj_max_record_bytes))
  | (Err e, d) => (Err e, j <| jj_disk := d |>)
  end.

#[export] Instance jsonl_log : CommandLog JsonlJournal := {|
  log_append := append_record;
  log_history := history;
  log_reopen := reopen;
|}.

Definition jsonl_ok j : Prop :=
  0 < j.(jj_max_record_bytes) < u64_max /\ journal_ok j.(jj_max_record_bytes) [] free j.

Definition jsonl_held j id : History := holds j.(jj_max_record_bytes) j.(jj_disk) id.

(** What was vouched for in a state is allowed from it on. *)
Lemma ok_from j : jsonl_ok j -> journal_ok j.(jj_max_record_bytes) [] (fun id rs => jsonl_held j id = Some rs) j.
Proof. intros [_ [[D W _] Hm]]. by split. Qed.

Lemma lapses_allowed max_bytes j j' acked id :
  j'.(jj_max_record_bytes) = max_bytes ->
  journal_ok max_bytes acked (fun id rs => jsonl_held j id = Some rs) j' ->
  lapses (jsonl_held j id) (jsonl_held j' id).
Proof.
  intros Hm [[_ _ X] _]. unfold jsonl_held at 2. rewrite Hm. destruct (holds max_bytes _ id) as [rs|] eqn:E; [|by right].
  left. symmetry. by apply X.
Qed.

Lemma keeps_ok max_bytes j' allowed :
  0 < max_bytes < u64_max -> journal_ok max_bytes [] allowed j' -> jsonl_ok j'.
Proof. intros Hmax [[D W X] <-]. split; [done|]. by split. Qed.

Lemma spec_open (max_bytes : Z) (Hmax : 0 < max_bytes < u64_max) acked allowed held now :
  spec (world_ok max_bytes acked allowed held) (fun _ => True) (open_with_max_record_bytes now max_bytes)
    (fun w d => writer_ok max_bytes d w).
Proof.
  unfold open_with_max_record_bytes. eapply spec_bind; [apply spec_lift|]. intros [].
  eapply (spec_bind _ _ (fun _ _ => True)).
  { eapply spec_weaken; [apply (spec_call _ (fun _ => True)); [apply world_ok_stable|done]|done|done]. }
  intros []. eapply spec_weaken; [by apply spec_open_writer|done|]. by intros w d _ [? _].
Qed.

Lemma jsonl_append_law j record now r j' :
  jsonl_ok j -> append_record record now j = (r, j') ->
  let id := record.(cr_command_id) in
  jsonl_ok j' /\ (forall id', id' <> id -> lapses (jsonl_held j id') (jsonl_held j' id'))
  /\ (extends record (jsonl_held j id) (jsonl_held j' id)
      \/ (r <> Ok tt /\ lapses (jsonl_held j id) (jsonl_held j' id))).
Proof.
  intros Hj E id. pose proof (ok_from j Hj) as Hb. destruct Hj as [Hmax _].
  set (mx := jj_max_record_bytes j) in *. set (before := fun id rs => jsonl_held j id = Some rs) in *.
  set (after := fun id' rs => before id' rs
    \/ (id' = id /\ exists rs0 seq, before id' rs0 /\ rs = rs0 ++ [with_sequence record seq])).
  assert (forall seq, admits before after (record <| cr_sequence := seq |>)) as Had.
  { intros seq. split; [by left|]. intros rs Hrs. right. split; [done|]. by exists rs, seq. }
  assert (journal_ok mx [] after j) as Ha.
  { destruct Hb as [[D W X] Hm]. split; [|done]. split; [done|done|]. intros id' rs Hh. left. by apply X. }
  destruct (spec_append mx Hmax [] before after record now Had j r j' Ha Hb E) as [Hj' Hr].
  pose proof (proj2 Hj') as Hm. split; [by eapply keeps_ok|]. split.
  - intros id' Hne. destruct Hj' as [[_ _ X] _]. unfold jsonl_held at 2. rewrite Hm.
    destruct (holds mx _ id') as [rs|] eqn:Eh; [|by right]. left. symmetry.
    destruct (X _ _ Eh) as [Hx|[? _]]; done.
  - destruct r as [[]|e].
    + left. destruct Hr as (seq & ls & l & _ & T & Hl & _ & Hfree & _ & Hbefore). exists (of_command id (records_of_lines ls)), seq.
      split; [exact Hbefore|]. unfold jsonl_held. rewrite Hm.
      etrans; [exact (proj2 (free_held mx _ _ _ _ T Hfree))|]. f_equal.
      change (cr_command_id (record <| cr_sequence := seq |>)) with id. unfold records_of_lines, of_command. rewrite omap_app, filter_app. f_equal. cbn [omap list_omap].
      rewrite Hl, filter_cons, decide_True by done. done.
    + destruct Hj' as [[_ _ X] _]. unfold jsonl_held at 2 4. rewrite Hm.
      destruct (holds mx _ id) as [rs|] eqn:Eh; [|right; split; [done|by right]].
      destruct (X _ _ Eh) as [Hx|(_ & rs0 & seq & Hx & ->)]; [right|left].
      * split; [done|]. left. by symmetry.
      * by exists rs0, seq.
Qed.

Lemma jsonl_history_law j id now r j' :
  jsonl_ok j -> history id now j = (r, j') ->
  jsonl_ok j' /\ (forall id', lapses (jsonl_held j id') (jsonl_held j' id'))
  /\ (forall s, r = Ok s -> clean s -> jsonl_held j' id = Some s.(js_records)).
Proof.
  intros Hj E. pose proof (ok_from j Hj) as Hb. destruct Hj as [Hmax _].
  set (mx := jj_max_record_bytes j) in *.
  destruct (spec_history mx Hmax [] _ id now j r j' Hb I E) as [Hj' Hr].
  pose proof (proj2 Hj') as Hm. split; [by eapply keeps_ok|]. split; [intros id'; by eapply lapses_allowed|].
  intros s -> [Ht Hi]. destruct (an_clean _ _ _ _ _ Hr Ht Hi) as (ls & T & -> & Ha).
  unfold jsonl_held. rewrite Hm. by destruct (free_held mx _ _ _ _ T Ha) as [_ ->].
Qed.

Lemma jsonl_reopen_law j now r j' :
  jsonl_ok j -> reopen now j = (r, j') ->
  jsonl_ok j' /\ forall id, lapses (jsonl_held j id) (jsonl_held j' id).
Proof.
  intros Hj E. pose proof (ok_from j Hj) as Hb. destruct Hj as [Hmax _].
  set (mx := jj_max_record_bytes j) in *. unfold reopen in E. fold mx in E.
  assert (journal_ok mx [] (fun id rs => jsonl_held j id = Some rs) j' /\ jj_max_record_bytes j' = mx) as [Hj' Hm].
  { destruct (open_with_max_record_bytes now mx (jj_disk j)) as [x d] eqn:Eo.
    destruct (spec_open mx Hmax [] _ (Some (jj_writer j)) now _ _ _ (proj1 Hb) I Eo) as [[D W X] Hx].
    destruct x as [w|e]; injection E as <- <-; (split; [|done]); (split; [|done]); (split; [done| |done]); [|exact W].
    intros w' [= <-]. exact Hx. }
  split; [by eapply keeps_ok|]. intros id. by eapply lapses_allowed.
Qed.

#[export] Instance jsonl_log_laws : CommandLogLaws JsonlJournal := {|
  log_ok := jsonl_ok;
  log_held := jsonl_held;
  log_append_law := jsonl_append_law;
  log_history_law := jsonl_history_law;
  log_reopen_law := jsonl_reopen_law;
|}.
End Laws.
#[export] Existing Instance jsonl_log.
#[export] Existing Instance jsonl_log_laws.
