(* ===== verification/CommandJournalDamage.v ===== *)
(** * Bytes that change under the command journal

    The journal file may be overwritten in place, keeping its length and time of
    modification, so that nothing but the digests of the index can tell. *)

From S2P Require Import Prelude Text SkillTypes Receipt Ledger LedgerRun Json CommandJournal CommandJournalInv CommandJournalSteps CommandJournalOps CommandJournalReads.

(** ** An archive stays *)

Section Archives.
Context `{RecordCodec, Sha2}.
Implicit Types (d : Disk) (j : JsonlJournal).

Definition any {S : Type} : S -> Prop := fun _ => True.

Lemma any_stable : stable any.
Proof. by intros d fs. Qed.

(** The entry is among the archives. *)
Definition kept (e : DirEntry) d : Prop := e ∈ d.(dk_archives).*2.

Lemma kept_stable e : stable (kept e).
Proof. by intros d fs. Qed.

(** What [archive_damaged_journal] archives is what is at the path. *)
Lemma spec_any_archive e : spec any (fun d => d.(dk_path) = Some e) archive_damaged_journal (fun _ => kept e).
Proof.
  unfold archive_damaged_journal. eapply spec_bind; [apply spec_call; [apply any_stable|by intros ? ?]|intros []; cbv beta].
  eapply spec_bind; [apply spec_get|]. intros d0. cbv beta.
  apply (spec_weaken _ _ (fun d => any d /\ dk_path d0 = Some e) _ _ (fun _ => kept e)); [|by intros d _ [? ->]|done].
  apply spec_pure. intros ->. eapply (spec_bind _ _ (fun _ => kept e)); [|intros []; apply (spec_sync _ any_stable), kept_stable].
  apply spec_put. intros d _ _. split; [done|]. unfold kept. cbn. rewrite fmap_app. apply elem_of_app. right. by left.
Qed.

(** ** Nothing takes it away *)

Variable e : DirEntry.
#[local] Hint Resolve any_stable kept_stable : journal.

Lemma spec_kept_archive : spec (kept e) any archive_damaged_journal (fun _ => any).
Proof.
  unfold archive_damaged_journal. after_call. eapply spec_bind; [apply spec_get|]. intros d0. cbv beta.
  destruct (dk_path d0) as [e'|]; [|apply spec_fail].
  eapply (spec_bind _ _ (fun _ => any)); [|intros []; apply (spec_sync _ (kept_stable e)); solve_stable].
  apply spec_put. intros d Hd [_ ->]. split; [|done]. unfold kept in *. cbn. rewrite fmap_app. apply elem_of_app. by left.
Qed.

Lemma spec_kept_checked now : spec (kept e) any (open_checked now) (fun _ => any).
Proof.
  unfold open_checked. eapply (spec_bind _ _ (fun _ => any)).
  { unfold open_append. after_call. eapply spec_bind; [apply spec_get|]. intros d0.
    destruct (dk_path d0) as [[ino|]|]; [by apply spec_ret|apply spec_fail|].
    eapply (spec_bind _ _ (fun _ => any)); [|intros []; by apply spec_ret].
    apply spec_put. by intros d ? [_ ->]. }
  intros ino. after_call. eapply spec_bind; [apply (spec_sole_link _ (kept_stable e)); solve_stable|].
  intros []. by apply spec_ret.
Qed.

Lemma spec_kept_set_aside : spec (kept e) any set_aside_foreign_entry (fun _ => any).
Proof.
  unfold set_aside_foreign_entry. after_call. eapply spec_bind; [apply spec_get|]. intros d0.
  assert (forall P, spec (kept e) P archive_damaged_journal (fun _ => any)) as Ha.
  { intros P. eapply spec_weaken; [apply spec_kept_archive|done|done]. }
  destruct (dk_path d0) as [[ino|]|]; [apply spec_if; intros _| |]; try apply Ha; by apply spec_ret.
Qed.

Lemma spec_kept_scan ino index mx : spec (kept e) any (scan_file ino index mx) (fun _ => any).
Proof.
  unfold scan_file. eapply spec_bind; [apply spec_fault; solve_stable|]. intros f.
  eapply spec_bind; [apply spec_get|]. intros d0. cbv zeta.
  destruct (scan_jsonl _ _ _ _) as [[h|er] i]; [|apply spec_fail]. by apply spec_ret.
Qed.

Lemma spec_kept_open now mx :
  spec (kept e) any (open_writer now mx) (fun w _ => w.(ws_archives) <> []).
Proof.
  unfold open_writer. eapply spec_bind; [apply spec_kept_set_aside|]. intros [].
  eapply spec_bind; [apply spec_kept_checked|]. intros ino. after_call.
  eapply spec_bind; [apply spec_kept_scan|]. intros [s index]. cbn beta iota.
  eapply (spec_bind _ _ (fun _ => any)).
  { apply spec_if; intros _; [|by apply spec_ret].
    eapply spec_bind; [apply spec_kept_archive|]. intros [].
    eapply spec_bind; [apply spec_kept_checked|]. intros ino'. by apply spec_ret. }
  intros [[ino' next] offsets]. cbn beta iota. after_call.
  eapply spec_bind; [apply (spec_sync _ (kept_stable e)); solve_stable|]. intros []. after_call.
  eapply spec_bind; [apply spec_get|]. intros m. cbv beta.
  apply (spec_weaken _ _ (fun d => same_files m d /\ kept e m) _ _
           (fun w _ => w.(ws_archives) <> [])); [|by intros d Hd [_ ->]|done].
  apply spec_pure. intros Hm. after_call. after_call. after_call.
  eapply spec_bind; [apply (spec_index_archives _ (kept e) _ _ _ (kept_stable e))|]. intros x. cbv beta.
  apply spec_pure. intros ->. apply spec_ret. intros d _ _. cbn. rewrite archive_names. cbn.
  intros E%fmap_nil_inv. unfold kept in Hm. rewrite E in Hm. by apply elem_of_nil in Hm.
Qed.

Lemma spec_kept_disk {A} (P : JsonlJournal -> Prop) (m : DiskIO A) (Q : A -> JsonlJournal -> Prop) :
  (forall w mx, spec (kept e) (fun d => P (MkJsonlJournal d w mx)) m (fun a d => Q a (MkJsonlJournal d w mx))) ->
  spec (fun j => kept e j.(jj_disk)) P (on_disk m) Q.
Proof.
  intros Hm [d w mx] r j' Hi Hp. unfold on_disk. simpl. destruct (m d) as [r0 d'] eqn:E. intros [= <- <-].
  destruct (Hm w mx d r0 d' Hi Hp E) as [Hi' HQ]. split; [done|]. by destruct r0.
Qed.

Lemma spec_kept_reopen now :
  spec (fun j => kept e j.(jj_disk)) any (reopen_writer now) (fun _ j => j.(jj_writer).(ws_archives) <> []).
Proof.
  unfold reopen_writer. eapply spec_bind; [apply spec_get|]. intros j0. cbv beta.
  eapply (spec_bind _ _ (fun w _ => w.(ws_archives) <> [])).
  { apply spec_kept_disk. intros w mx. eapply spec_weaken; [apply spec_kept_open|done|done]. }
  intros w. apply spec_modify. done.
Qed.

(** Reading the archives changes nothing. *)
Lemma spec_kept_archived id :
  spec (fun j => kept e j.(jj_disk)) (fun j => j.(jj_writer).(ws_archives) <> []) (archived_history id)
    (fun s _ => 1 <= s.(js_incompatible_records)).
Proof.
  unfold archived_history. eapply spec_bind; [apply spec_get|]. intros j0. cbv beta zeta.
  apply (spec_weaken _ _ (fun j => same_files j0.(jj_disk) j.(jj_disk) /\ j0.(jj_writer).(ws_archives) <> []) _ _
           (fun s _ => 1 <= s.(js_incompatible_records))); [|by intros j _ [? ->]|done].
  apply spec_pure. intros Hne. eapply (spec_bind _ _ (fun _ => any)).
  { apply spec_kept_disk. intros w mx. eapply spec_weaken; [apply (spec_read_chunks _ (kept_stable e) j0.(jj_disk))|done|done]. }
  intros s. apply spec_ret. intros j _ _. destruct (ws_archives (jj_writer j0)); [done|]. cbn. lia.
Qed.

(** The answer once the damaged file has been archived. *)
Lemma spec_kept_answer id now :
  spec (fun j => kept e j.(jj_disk)) any (sbind (reopen_writer now) (fun _ => archived_history id))
    (fun s j => 1 <= s.(js_incompatible_records)).
Proof. eapply spec_bind; [apply spec_kept_reopen|]. intros []. apply spec_kept_archived. Qed.
End Archives.

Section Disk.
Context `{RecordCodec, Sha2}.
Implicit Types (d : Disk) (j : JsonlJournal).

Lemma spec_any_disk {A} (P : JsonlJournal -> Prop) (m : DiskIO A) (Q : A -> JsonlJournal -> Prop) :
  (forall w mx, spec any (fun d => P (MkJsonlJournal d w mx)) m (fun a d => Q a (MkJsonlJournal d w mx))) ->
  spec any P (on_disk m) Q.
Proof.
  intros Hm [d w mx] r j' _ Hp. unfold on_disk. simpl. destruct (m d) as [r0 d'] eqn:E. intros [= <- <-].
  split; [done|]. destruct (Hm w mx d r0 d' I Hp E) as [_ HQ]. by destruct r0.
Qed.

Lemma spec_any_archived id :
  spec any (fun j => j.(jj_writer).(ws_archives) <> []) (archived_history id)
    (fun s _ => 1 <= s.(js_incompatible_records)).
Proof.
  unfold archived_history. eapply spec_bind; [apply spec_get|]. intros j0. cbv beta zeta.
  apply (spec_weaken _ _ (fun _ => True /\ j0.(jj_writer).(ws_archives) <> []) _ _
           (fun s _ => 1 <= s.(js_incompatible_records))); [|by intros j _ [? ->]|done].
  apply spec_pure. intros Hne. eapply (spec_bind _ _ (fun _ => any)).
  { apply spec_any_disk. intros w mx d r d' _ _ _. split; [done|]. by destruct r. }
  intros s. apply spec_ret. intros j _ _. destruct (ws_archives (jj_writer j0)); [done|]. cbn. lia.
Qed.
End Disk.

(** ** What the digests tell *)

Section Digests.
Context `{RecordCodecLaws, Sha2}.
Variable max_bytes : Z.

(** Somewhere in the bytes is a line that differs from one of these lines and has its
    digest. *)
Definition forged (ls : list bytes) (b : bytes) : Prop :=
  exists o n line l, l ∈ ls /\ read_at b o n = Some line /\ line <> l /\ sha256 line = sha256 l.

Lemma check_genuine ls b id o l r :
  (o, l) ∈ placed_of id 0 ls -> check_indexed b (IndexedRecord_new o l) id = Some r ->
  record_of_text l = Some r \/ forged ls b.
Proof.
  intros [Hin _]%placed_of_elem. apply placed_line in Hin. unfold check_indexed.
  destruct (read_at _ _ _) as [line|] eqn:Er; [|done]. cbn.
  destruct (negb (ends_with_newline line)); [done|]. cbn.
  destruct (bool_decide_reflect (sha256 line = sha256 l)) as [E|]; [|done]. cbn.
  destruct (decide (line = l)) as [->|Hne]; [|intros _; right; by exists o, (blen l), line, l].
  left. destruct (record_of_text l) as [r'|]; [|done]. cbn in *. by destruct (N.eqb _ _).
Qed.

Lemma check_all_genuine ls b id rs :
  check_all b ((fun p => IndexedRecord_new p.1 p.2) <$> placed_of id 0 ls) id = Some rs ->
  rs = of_command id (records_of_lines ls) \/ forged ls b.
Proof.
  rewrite <-(records_placed id 0 ls).
  assert (forall ps rs, (forall p, p ∈ ps -> p ∈ placed_of id 0 ls) ->
    check_all b ((fun p => IndexedRecord_new p.1 p.2) <$> ps) id = Some rs ->
    rs = omap (fun p => record_of_text p.2) ps \/ forged ls b) as Hgo; [|by apply Hgo].
  induction ps as [|[o l] ps IH]; intros rs' Hps; [intros [= <-]; by left|]. cbn [fmap list_fmap check_all fst snd].
  destruct (check_indexed b _ id) as [r|] eqn:Er; [|done]. cbn.
  destruct (check_all b _ id) as [rs0|] eqn:Ea; [|done]. cbn. intros [= <-].
  destruct (check_genuine ls b id o l r (Hps _ ltac:(left)) Er) as [El|]; [|by right]. rewrite El.
  destruct (IH rs0) as [->|]; [|done|by left|by right]. intros p Hp. apply Hps. by right.
Qed.

(** The file at the writer's handle has other bytes, and the same metadata. *)
Definition overwritten (j : JsonlJournal) (b : bytes) : JsonlJournal :=
  let ino := j.(jj_writer).(ws_file) in
  let i := inode_of j.(jj_disk) ino in
  j <| jj_disk := j.(jj_disk) <| dk_inodes := <[ino := MkInode b i.(in_links) i.(in_modified)]> j.(jj_disk).(dk_inodes) |> |>.

(** A refresh that sees the metadata it knows does nothing. *)
Lemma spec_unchanged_refresh d0 w0 mx now :
  at_path w0.(ws_identity) d0 -> unchanged w0 w0.(ws_identity) (inode_of d0 w0.(ws_identity)) = true ->
  spec any (fun j => during w0 d0 j /\ j.(jj_max_record_bytes) = mx) (refresh now)
    (fun _ j => during w0 d0 j /\ j.(jj_max_record_bytes) = mx).
Proof.
  intros Hp Hu. unfold refresh. eapply spec_bind; [apply spec_get|]. intros j0. cbv beta.
  set (P := fun j => during w0 d0 j /\ jj_max_record_bytes j = mx).
  apply (spec_weaken _ _ (fun j => P j /\ dk_path (jj_disk j0) = Some (Regular (ws_identity w0))) _ _ (fun _ => P));
    [| |done].
  2: { intros j _ [[[Ew Hs] Hm] ->]. split; [done|]. destruct Hs as (-> & _). exact Hp. }
  apply spec_pure. intros ->.
  assert (spec any P (on_disk disk_call) (fun _ => P)) as Hcall.
  { apply spec_any_disk. intros w m. apply spec_call; [apply any_stable|]. by intros d fs. }
  eapply (spec_bind _ _ (fun x j => P j /\ x = Some (Some (ws_identity w0)))).
  { apply spec_any_disk. intros w m.
    apply (spec_open_read any any_stable (fun d => P (MkJsonlJournal d w m)) (Some (Regular (ws_identity w0)))). by intros d fs. }
  intros x. cbv beta. apply spec_pure. intros ->. eapply spec_bind; [exact Hcall|]. intros [].
  eapply spec_bind; [apply spec_get|]. intros j1. cbv beta.
  apply (spec_weaken _ _ (fun j => P j /\ unchanged (jj_writer j1) (ws_identity w0) (inode_of (jj_disk j1) (ws_identity w0)) = true)
    _ _ (fun _ => P)); [| |done].
  2: { intros j _ [[[Ew Hs] Hm] ->]. split; [done|]. rewrite Ew. unfold inode_of. destruct Hs as (_ & _ & -> & _). exact Hu. }
  apply spec_pure. intros ->. eapply spec_bind; [exact Hcall|]. intros []. by apply spec_ret.
Qed.

(** A command that neither the archives nor the index know has no records. *)
Lemma spec_any_unknown w0 id :
  w0.(ws_archives) = [] -> w0.(ws_archived).(ai_offsets) !! id = None ->
  spec any (fun j => j.(jj_writer) = w0) (archived_history id) (fun s _ => s.(js_records) = []).
Proof.
  intros Ea Hn. unfold archived_history. eapply spec_bind; [apply spec_get|]. intros j0. cbv beta zeta.
  apply (spec_weaken _ _ (fun _ => True /\ j0.(jj_writer) = w0) _ _ (fun s _ => js_records s = []));
    [|by intros j _ [? ->]|done].
  apply spec_pure. intros ->. rewrite Hn, Ea. cbn [default chunk_by_path read_chunks].
  eapply (spec_bind _ _ (fun s _ => js_records s = [])); [|intros s; by apply spec_ret].
  apply spec_any_disk. intros w mx. by apply spec_ret.
Qed.

(** The answer of a journal whose file was overwritten after the index was made: it is
    what the file held before, or the file is now an archive, or there was an archive
    already; in the last two cases it is not clean. *)
Definition told (ls : list bytes) (b : bytes) (w0 : WriterState) id (s : JournalScan) (j : JsonlJournal) : Prop :=
  s.(js_records) = of_command id (records_of_lines ls)
  \/ (1 <= s.(js_incompatible_records)
      /\ (kept (Regular w0.(ws_identity)) j.(jj_disk) \/ w0.(ws_archives) <> []))
  \/ forged ls b.

Lemma damaged_archive P ls b w0 id now :
  (forall j, P j -> at_path w0.(ws_identity) j.(jj_disk)) ->
  spec any P (sbind (on_disk archive_damaged_journal) (fun _ => sbind (reopen_writer now) (fun _ => archived_history id)))
    (told ls b w0 id).
Proof.
  intros HP. eapply (spec_bind _ _ (fun _ j => kept (Regular w0.(ws_identity)) j.(jj_disk))).
  { apply spec_any_disk. intros w mx. eapply spec_weaken; [apply (spec_any_archive (Regular w0.(ws_identity)))| |done]. intros d _ Hd. exact (HP _ Hd). }
  intros [] j r j' _ Hk E. destruct (spec_kept_answer (Regular w0.(ws_identity)) id now j r j' Hk I E) as [Hk' Hr].
  split; [done|]. destruct r as [s|]; [|done]. right. left. auto.
Qed.

Lemma damaged_answer w0 d0 d1 ls id now :
  tidy max_bytes w0 d0 ls -> at_path w0.(ws_identity) d1 ->
  spec any (fun j => during w0 d1 j) (history_refreshed id now) (told ls (bytes_of d1 (ws_file w0)) w0 id).
Proof.
  intros T Hp. unfold history_refreshed. eapply spec_bind; [apply spec_get|]. intros j0. cbv beta zeta.
  set (R := told ls (bytes_of d1 (ws_file w0)) w0 id).
  apply (spec_weaken _ _ (fun j => during w0 d1 j /\ jj_writer j0 = w0) _ _ R); [|by intros j _ [[? ?] ->]|done].
  apply spec_pure. intros ->.
  assert (w0.(ws_archives) <> [] -> spec any (during w0 d1) (archived_history id) R) as Harch.
  { intros Hne. eapply spec_weaken; [apply spec_any_archived|by intros j _ [-> _]|intros s j _ ?; right; left; auto]. }
  destruct (bool_decide_reflect (is_Some (ai_offsets (ws_archived w0) !! id))) as [Hs|Hs].
  { apply Harch. intros En. rewrite (no_archives max_bytes w0 d0 ls id T En) in Hs. by destruct Hs. }
  apply eq_None_not_Some in Hs. destruct (ws_offsets w0 !! id) as [entries|] eqn:He.
  - eapply (spec_bind _ _ (fun x j => during w0 d1 j /\ x = check_all (bytes_of d1 (ws_file w0)) entries id)).
    { apply spec_any_disk. intros w mx. unfold read_indexed_records.
      eapply spec_bind; [apply spec_call; [apply any_stable|by intros ? ?]|]. intros [].
      intros d r d' _ [Ew Hd]. cbn in Ew, Hd. intros E.
      destruct (spec_read_entries any any_stable d1 _ entries id None [] d r d' I Hd E) as [_ Hr].
      split; [done|]. destruct r as [x|]; [|done]. destruct Hr as [Hsame ->]. split; [done|]. by destruct (check_all _ _ _). }
    intros x. cbv beta. apply spec_pure. intros ->. destruct (check_all _ entries id) as [rs|] eqn:Ec.
    + apply spec_ret. intros j _ _.
      destruct (check_all_genuine ls (bytes_of d1 (ws_file w0)) id rs) as [->|]; [|by left|by right; right].
      pose proof (td_index _ _ _ _ T id) as Hi. rewrite He in Hi. cbn in Hi. by subst entries.
    + apply damaged_archive. intros j [_ (Ep & _)]. unfold at_path. by rewrite Ep.
  - destruct (decide (ws_archives w0 = [])) as [En|En]; [|by apply Harch].
    eapply spec_weaken; [by apply (spec_any_unknown w0)|by intros j _ [? _]|].
    intros s j _ Es. left. by rewrite Es, (unindexed_none ls _ id (td_index _ _ _ _ T) He).
Qed.
End Digests.
