(* ===== verification/CommandJournalThms.v ===== *)
(** * What the command journal guarantees

    The journal over any sequence of calls, restarts at any point and any failure of an I/O
    call: an acknowledged record stays readable, an answer without a reservation is the
    file's, and bytes that change under the journal are not believed. *)

From S2P Require Import Prelude Text SkillTypes Receipt Ledger LedgerRun Json CommandJournal CommandLog CommandJournalInv CommandJournalSteps CommandJournalOps CommandJournalReads CommandJournalLaws CommandJournalDamage.
From Stdlib Require Import Ascii.

(** ** Runs *)

Inductive JournalCall :=
| CallOpen (now : Time)
| CallClose
| CallAppend (record : CommandRecord) (now : Time)
| CallHistory (id : CommandId) (now : Time)
| CallFaults (faults : list Fault).

Section Runs.
Context `{RecordCodec, Sha2}.
Variable max_bytes : Z.

Inductive JournalState := Closed (d : Disk) | Opened (j : JsonlJournal).

(** The journal and the records whose append has been acknowledged. *)
Record JournalWorld := MkJournalWorld {
  jw_state : JournalState;
  jw_acked : list CommandRecord;
}.

Definition world_start : JournalWorld := MkJournalWorld (Closed (MkDisk None [] ∅ 0 [])) [].

(** The record as the journal numbered it. *)
Definition numbered (record : CommandRecord) (j : JsonlJournal) : CommandRecord :=
  record <| cr_sequence := j.(jj_writer).(ws_next_sequence) - 1 |>.

Definition world_step (w : JournalWorld) (c : JournalCall) : JournalWorld :=
  match c, w.(jw_state) with
  | CallOpen now, Closed d =>
      match open_with_max_record_bytes now max_bytes d with
      | (Ok wr, d) => MkJournalWorld (Opened (MkJsonlJournal d wr max_bytes)) w.(jw_acked)
      | (Err _, d) => MkJournalWorld (Closed d) w.(jw_acked)
      end
  | CallClose, Opened j => MkJournalWorld (Closed j.(jj_disk)) w.(jw_acked)
  | CallAppend record now, Opened j =>
      match append_record record now j with
      | (Ok _, j) => MkJournalWorld (Opened j) (w.(jw_acked) ++ [numbered record j])
      | (Err _, j) => MkJournalWorld (Opened j) w.(jw_acked)
      end
  | CallHistory id now, Opened j => MkJournalWorld (Opened (history id now j).2) w.(jw_acked)
  | CallFaults fs, Closed d => MkJournalWorld (Closed (d <| dk_faults := fs |>)) w.(jw_acked)
  | CallFaults fs, Opened j =>
      MkJournalWorld (Opened (j <| jj_disk := j.(jj_disk) <| dk_faults := fs |> |>)) w.(jw_acked)
  | _, _ => w
  end.

Definition world_run (cs : list JournalCall) : JournalWorld := fold_left world_step cs world_start.
End Runs.

Section Invariant.
Context `{RecordCodecLaws, Sha2}.
Variable max_bytes : Z.
Hypothesis Hmax : 0 < max_bytes < u64_max.

Definition world_inv (w : JournalWorld) : Prop :=
  match w.(jw_state) with
  | Closed d => disk_inv max_bytes w.(jw_acked) d
  | Opened j => journal_ok max_bytes w.(jw_acked) free j
  end.

Lemma start_inv : world_inv world_start.
Proof.
  split; cbn.
  - by left.
  - by intros a ?%not_elem_of_nil.
  - intros ino [?|[name ?%not_elem_of_nil]]; done.
  - done.
  - constructor.
  - split; [intros ino; rewrite lookup_empty; by intros []|by intros name ?%not_elem_of_nil].
  - intros ino i. by rewrite lookup_empty.
  - by left.
Qed.

(** An acknowledged append, with the number that it got. *)
Lemma appended acked record now j j' :
  journal_ok max_bytes acked free j -> append_record record now j = (Ok tt, j') ->
  exists ls l, journal_ok max_bytes (acked ++ [numbered record j']) free j'
    /\ tidy max_bytes j'.(jj_writer) j'.(jj_disk) (ls ++ [l]) /\ record_of_text l = Some (numbered record j')
    /\ current j'.(jj_disk) j'.(jj_writer)
    /\ j'.(jj_writer).(ws_archived).(ai_offsets) !! record.(cr_command_id) = None.
Proof.
  intros Hj E. destruct (spec_append max_bytes Hmax acked free free record now ltac:(done) j (Ok tt) j' Hj Hj E) as [_ Hr].
  destruct Hr as (seq & ls & l & Hj' & T & Hl & Hc & Ha & Hn & _). exists ls, l. unfold numbered.
  assert (ws_next_sequence (jj_writer j') - 1 = seq) as -> by lia. done.
Qed.

Lemma journal_step_inv w c : world_inv w -> world_inv (world_step max_bytes w c).
Proof.
  destruct w as [[d|j] acked]; intros Hw; destruct c as [now| |record now|id now|fs]; cbn [world_step jw_state jw_acked]; try done.
  - destruct (open_with_max_record_bytes now max_bytes d) as [r d'] eqn:E.
    destruct (spec_open max_bytes Hmax acked free None now d r d') as [[D _ _] Hr]; [by split|done|done|].
    destruct r as [wr|e]; [|exact D]. split; [|done]. split; [exact D| |done]. by intros w [= <-].
  - by apply disk_inv_stable.
  - by destruct Hw as [[D _ _] _].
  - destruct (append_record record now j) as [r j'] eqn:E. destruct r as [[]|e].
    + by destruct (appended acked record now j j' Hw E) as (ls & l & Hj & _).
    + by destruct (spec_append max_bytes Hmax acked free free record now ltac:(done) j _ j' Hw Hw E).
  - destruct (history id now j) as [r j'] eqn:E.
    by destruct (spec_history max_bytes Hmax acked free id now j r j' Hw I E).
  - destruct Hw as [Hw Hx]. split; [|done]. by apply world_ok_stable.
Qed.

Lemma journal_run_inv cs : world_inv (world_run max_bytes cs).
Proof.
  unfold world_run. pose proof start_inv as Hw. revert Hw. generalize world_start.
  induction cs as [|c cs IH]; intros w Hw; [done|]. cbn [fold_left]. by apply IH, journal_step_inv.
Qed.

Lemma run_opened cs j acked :
  world_run max_bytes cs = MkJournalWorld (Opened j) acked -> journal_ok max_bytes acked free j.
Proof. intros E. pose proof (journal_run_inv cs) as Hw. by rewrite E in Hw. Qed.

(** ** Acknowledged records *)

(** C12: after any sequence of openings, closings, appends and reads, with any I/O calls
    failing and any writes cut short, [history] of a command answers only records of that
    command, and every record whose append was acknowledged is among them, in order.  An
    answer that reports neither a torn nor an incompatible record is exactly the command's
    records in the journal file, and no archive mentions the command. *)
Theorem acknowledged_records_are_kept cs j acked id now s j' :
  world_run max_bytes cs = MkJournalWorld (Opened j) acked ->
  history id now j = (Ok s, j') ->
  Forall (fun r => cr_command_id r = id) s.(js_records)
  /\ of_command id acked `sublist_of` s.(js_records)
  /\ (s.(js_torn) = false -> s.(js_incompatible_records) = 0 ->
      s.(js_records) = of_command id (records_of (bytes_of j'.(jj_disk) j'.(jj_writer).(ws_identity)))
      /\ archived_at max_bytes j'.(jj_disk) id = []).
Proof.
  intros E Hh. destruct (spec_history max_bytes Hmax acked free id now j (Ok s) j' (run_opened _ _ _ E) I Hh) as [_ [A B C]].
  split_and!; [done|done|]. intros Ht Hi. destruct (C Ht ltac:(lia)) as (ls & T & -> & Ha). split.
  - rewrite (td_bytes _ _ _ _ T), (records_of_whole max_bytes) by apply T. done.
  - unfold archived_at. rewrite (td_archived _ _ _ _ T). cbn [snd]. by rewrite Ha.
Qed.

(** An append that returns [Ok] is readable at once: when no I/O call fails, [history]
    answers without reservation, ends with the record under the sequence number the journal
    gave it, has every earlier acknowledged record of the command before it, and changes
    nothing.  In particular the command is in no archive: a command whose records were
    archived is never appended to again. *)
Theorem appended_record_reads_back cs j acked record now j' now' :
  world_run max_bytes cs = MkJournalWorld (Opened j) acked ->
  append_record record now j = (Ok tt, j') -> j'.(jj_disk).(dk_faults) = [] ->
  exists rs, history record.(cr_command_id) now' j'
             = (Ok (MkJournalScan (rs ++ [numbered record j']) false 0), j')
    /\ of_command record.(cr_command_id) acked `sublist_of` rs
    /\ archived_at max_bytes j'.(jj_disk) record.(cr_command_id) = [].
Proof.
  intros E Ha Hf. pose proof (run_opened _ _ _ E) as Hj.
  destruct (appended acked record now j j' Hj Ha) as (ls & l & Hj' & T & Hl & Hc & Hfree).
  set (id := cr_command_id record) in *.
  assert (archived_at max_bytes (jj_disk j') id = []) as Hnone
    by (unfold archived_at; rewrite (td_archived _ _ _ _ T); cbn [snd]; by rewrite Hfree).
  assert (of_command id (records_of_lines (ls ++ [l])) = of_command id (records_of_lines ls) ++ [numbered record j']) as Er.
  { unfold records_of_lines, of_command. rewrite omap_app, filter_app. f_equal. cbn [omap list_omap].
    rewrite Hl, filter_cons, decide_True; done. }
  assert (exists entries, ws_offsets (jj_writer j') !! id = Some entries) as [entries He].
  { destruct (ws_offsets (jj_writer j') !! id) as [es|] eqn:Eo; [by exists es|].
    rewrite (unindexed_none _ _ _ (td_index _ _ _ _ T) Eo) in Er. by destruct (of_command id (records_of_lines ls)). }
  exists (of_command id (records_of_lines ls)). rewrite <-Er. split_and!; [|..|done].
  - by apply (quiet_history max_bytes (acked ++ [numbered record j']) free) with entries.
  - destruct Hj' as [[D' _ _] _].
    pose proof (archived_none_current max_bytes Hmax _ _ _ _ id D' T Hfree) as Hs. rewrite Er in Hs.
    unfold of_command in Hs at 1. rewrite filter_app, filter_cons, decide_True in Hs by done.
    by apply sublist_app_inv_r in Hs.
Qed.

(** ** The abstract journal *)

Definition world_disk (w : JournalWorld) : Disk :=
  match w.(jw_state) with Closed d => d | Opened j => j.(jj_disk) end.
Definition world_held (w : JournalWorld) (id : CommandId) : History := holds max_bytes (world_disk w) id.

(** A step of the abstract journal, and whether it acknowledged a record. *)
Definition follows (c : JournalCall) (acknowledged : bool) (h h' : CommandId -> History) : Prop :=
  match c with
  | CallAppend record _ =>
      let id := record.(cr_command_id) in
      (forall id', id' <> id -> lapses (h id') (h' id'))
      /\ (extends record (h id) (h' id) \/ (acknowledged = false /\ lapses (h id) (h' id)))
  | _ => forall id, lapses (h id) (h' id)
  end.

Lemma forget_acked acked d : disk_inv max_bytes acked d -> disk_inv max_bytes [] d.
Proof. intros [A B C D E F G _]. split; try done. by left. Qed.

Lemma opened_ok acked j : journal_ok max_bytes acked free j -> jsonl_ok j.
Proof.
  intros [[D W X] Hm]. split; [by rewrite Hm|]. rewrite Hm. split; [|done]. split; [by eapply forget_acked|done|done].
Qed.

(** C36: every step of the journal is a step of the abstract journal: appending extends the
    history of its command by exactly the record, and may fail to be acknowledged though it
    took effect; nothing else ever changes a history but setting it aside, and a history
    that was set aside is never vouched for again. *)
Theorem journal_follows_the_log cs c :
  let w := world_run max_bytes cs in
  let w' := world_step max_bytes w c in
  follows c (length w.(jw_acked) <? length w'.(jw_acked))%nat (world_held w) (world_held w').
Proof.
  intros w w'. pose proof (journal_run_inv cs) as Hw. fold w in Hw. unfold w', world_held.
  destruct w as [[d|j] acked]; cbn [world_inv jw_state jw_acked] in Hw.
  - assert (world_ok max_bytes acked (fun id rs => holds max_bytes d id = Some rs) None d) as Hd by (by split).
    assert (forall d', world_ok max_bytes acked (fun id rs => holds max_bytes d id = Some rs) None d' ->
      forall id, lapses (holds max_bytes d id) (holds max_bytes d' id)) as Hl.
    { intros d' [_ _ X] id. destruct (holds max_bytes d' id) as [rs|] eqn:E; [|by right]. left. symmetry. by apply X. }
    destruct c as [now| |record now|id now|fs]; cbn [follows world_step jw_state jw_acked].
    + destruct (open_with_max_record_bytes now max_bytes d) as [r d'] eqn:E.
      destruct (spec_open max_bytes Hmax acked _ None now d r d' Hd I E) as [Hd' _]. destruct r; by apply Hl.
    + intros id. by left.
    + split; [by left|]. right. split; [apply Nat.ltb_irrefl|by left].
    + intros id'. by left.
    + by apply Hl, world_ok_stable.
  - pose proof (opened_ok acked j Hw) as Hok. pose proof (proj2 Hw) as Hm.
    assert (forall j', jsonl_ok j' -> jj_max_record_bytes j' = max_bytes ->
      forall id, jsonl_held j' id = holds max_bytes (jj_disk j') id) as Hheld.
    { intros j' _ Hm' id. unfold jsonl_held. by rewrite Hm'. }
    destruct c as [now| |record now|id now|fs]; cbn [follows world_step jw_state jw_acked].
    + intros id. by left.
    + intros id. by left.
    + destruct (append_record record now j) as [r j'] eqn:E.
      destruct (jsonl_append_law j record now r j' Hok E) as (Hok' & Ho & Hi).
      assert (jj_max_record_bytes j' = max_bytes) as Hm'.
      { destruct (spec_append max_bytes Hmax acked free free record now ltac:(done) j r j' Hw Hw E) as [[_ ?] _]. done. }
      rewrite !Hheld in Hi by done.
      destruct r as [[]|e]; (split; [intros id' Hne; specialize (Ho id' Hne); by rewrite !Hheld in Ho|]); destruct Hi as [Hi|[Hne Hi]]; [by left|done|by left|].
      right. split; [apply Nat.ltb_irrefl|done].
    + destruct (history id now j) as [r j'] eqn:E. cbn [snd].
      destruct (jsonl_history_law j id now r j' Hok E) as (Hok' & Ho & _).
      assert (jj_max_record_bytes j' = max_bytes) as Hm'.
      { by destruct (spec_history max_bytes Hmax acked free id now j r j' Hw I E) as [[_ ?] _]. }
      intros id'. specialize (Ho id'). by rewrite !Hheld in Ho.
    + intros id. by left.
Qed.

(** ** Damage *)

(** C38: when the bytes of the file of a journal that has seen it as it is are replaced
    behind its back, in a way that length, links and time of modification do not show, a history that is answered
    has exactly the records that the journal wrote for the command, or the answer says that
    records are missing and the damaged file has been archived, or there was an archive
    before; unless the new bytes contain a line that differs from one of the old lines and
    has its digest. *)
Theorem damage_is_never_believed cs j acked b id now s j' :
  world_run max_bytes cs = MkJournalWorld (Opened j) acked -> current j.(jj_disk) j.(jj_writer) ->
  let ino := j.(jj_writer).(ws_identity) in
  blen b = blen (bytes_of j.(jj_disk) ino) ->
  history id now (overwritten j b) = (Ok s, j') ->
  s.(js_records) = of_command id (records_of (bytes_of j.(jj_disk) ino))
  \/ (1 <= s.(js_incompatible_records)
      /\ (Regular ino ∈ j'.(jj_disk).(dk_archives).*2 \/ j.(jj_writer).(ws_archives) <> []))
  \/ forged (jsonl_lines (bytes_of j.(jj_disk) ino)).1 b.
Proof.
  intros E Hc ino Hb Hh. pose proof (run_opened _ _ _ E) as Hj.
  destruct (synced_tidy max_bytes acked free j Hj) as [ls T]; [split; [apply Hc|apply Hc]|].
  destruct Hc as (Hp & Hlen & Hmod). pose proof Hj as [[D W _] _]. pose proof (wo_handle _ _ _ (W _ eq_refl)) as Hw.
  unfold ino in *. rewrite (td_bytes _ _ _ _ T) in Hlen, Hb |- *.
  rewrite (records_of_whole max_bytes) by apply T.
  assert ((jsonl_lines (concat ls)).1 = ls) as El.
  { rewrite <-(app_nil_r (concat ls)), jsonl_lines_concat; [done| |constructor].
    apply (record_lines_shape max_bytes), T. }
  rewrite El. set (w0 := jj_writer j) in *. set (d1 := jj_disk (overwritten j b)).
  assert (inode_of d1 (ws_identity w0) = MkInode b 1 (in_modified (inode_of (jj_disk j) (ws_identity w0)))) as Hino.
  { unfold d1, overwritten. fold w0. rewrite Hw. unfold inode_of at 1. cbn. rewrite lookup_insert_eq. cbn.
    destruct (dv_dir _ _ _ D (ws_identity w0) (or_introl Hp)) as [i Ei]. unfold inode_of. rewrite Ei. cbn.
    by destruct (dv_files _ _ _ D _ _ Ei) as [_ ->]. }
  assert (unchanged w0 (ws_identity w0) (inode_of d1 (ws_identity w0)) = true) as Hun.
  { rewrite Hino. unfold unchanged. cbn. rewrite N.eqb_refl, Hlen, Hb, Z.eqb_refl. by rewrite bool_decide_eq_true_2. }
  assert (spec any (fun j => during w0 d1 j /\ jj_max_record_bytes j = max_bytes) (history id now)
    (told ls (bytes_of d1 (ws_file w0)) w0 id)) as Hspec.
  { unfold history. eapply spec_bind; [apply (spec_unchanged_refresh d1 w0 max_bytes); done|]. intros [].
    eapply spec_weaken; [by apply (damaged_answer max_bytes w0 (jj_disk j) d1 ls)|by intros ? _ [? _]|done]. }
  destruct (Hspec (overwritten j b) (Ok s) j' I) as [_ Ha]; [split; [done|apply Hj]|done|].
  rewrite Hw in Ha. unfold told, bytes_of in Ha. by rewrite Hino in Ha.
Qed.
End Invariant.

(** ** A concrete journal *)

Module SampleJournal.
#[local] Existing Instance SampleJson.sha.

Definition phases : list CommandPhase :=
  [PhaseAccepted; PhasePrepared; PhaseExecuting; PhaseResultPrepared; PhaseVerifying; PhaseRecovering;
   PhaseCompleted; PhaseFailed].

Definition phase_number (p : CommandPhase) : N :=
  match p with
  | PhaseAccepted => 0 | PhasePrepared => 1 | PhaseExecuting => 2 | PhaseResultPrepared => 3
  | PhaseVerifying => 4 | PhaseRecovering => 5 | PhaseCompleted => 6 | PhaseFailed => 7
  end%N.

Definition fields (r : CommandRecord) : list positive :=
  [encode r.(cr_sequence); encode r.(cr_recorded_at); encode r.(cr_command_id); encode (phase_number r.(cr_phase))].

Definition of_fields (l : list positive) : option CommandRecord :=
  match l with
  | [q; t; i; p] =>
      q ← decode q; t ← decode t; i ← decode i; p ← decode p;
      p ← phases !! N.to_nat p;
      Some (MkCommandRecord q t i p None None None)
  | _ => None
  end.

(** Records without a payload. *)
Definition read_record (b : bytes) : option CommandRecord :=
  match b with
  | c :: b => if Ascii.eqb c "R"%char then (p ← SampleJson.undigits b; l ← decode p; of_fields l) else None
  | [] => None
  end.

#[export] Instance codec : RecordCodec := {|
  record_text r :=
    match r.(cr_envelope), r.(cr_outcome), r.(cr_prepared_result) with
    | None, None, None => Ok ("R"%char :: SampleJson.digits (encode (fields r)))
    | _, _, _ => Err "payload"
    end;
  record_of_text := read_record;
  probe_sequence b := cr_sequence <$> read_record b;
  object_members _ := None;
  command_id_of_value _ := None;
|}.

Lemma digits_plain p : no_newline (SampleJson.digits p).
Proof. induction p; simpl; repeat constructor; done. Qed.

#[export] Instance codec_laws : RecordCodecLaws.
Proof.
  split; unfold record_text, codec; intros [q t i p [] [] []] b; cbn -[encode fields]; try done; intros [= <-].
  - split; [|done]. apply Forall_cons. split; [done|apply digits_plain].
  - cbn -[encode decode SampleJson.digits fields of_fields SampleJson.undigits]. rewrite SampleJson.undigits_of by done.
    cbn -[encode decode fields of_fields]. rewrite decode_encode. unfold fields, of_fields.
    cbn -[encode decode]. repeat (rewrite decode_encode; cbn -[encode decode]). by destruct p.
Qed.

Definition record (id : CommandId) (p : CommandPhase) : CommandRecord := MkCommandRecord 0 1 id p None None None.

Definition no_disk : Disk := MkDisk None [] ∅ 0 [].
Definition the_journal (w : JournalWorld) : JsonlJournal :=
  match w.(jw_state) with
  | Opened j => j
  | Closed d => MkJsonlJournal d (MkWriterState 0 0 0 0 None ∅ [] (MkArchiveIndex ∅ false 0)) 0
  end.
Definition is_opened (w : JournalWorld) : bool := match w.(jw_state) with Opened _ => true | Closed _ => false end.

Lemma opened_run w : is_opened w = true -> w = MkJournalWorld (Opened (the_journal w)) (jw_acked w).
Proof. destruct w as [[d|j] acked]; done. Qed.

(** The second append is cut short, and the journal is opened again. *)
Definition torn_calls : list JournalCall :=
  [CallOpen 1; CallAppend (record 7%N PhaseAccepted) 2;
   CallFaults (repeat IoOk 6%nat ++ [IoPartial 3%nat "power"]); CallAppend (record 7%N PhaseExecuting) 3;
   CallFaults []; CallClose; CallOpen 4].
Definition torn_world : JournalWorld := world_run 4096 torn_calls.

Definition torn_answer : JournalScan :=
  MkJournalScan [MkCommandRecord 0 1 7%N PhaseAccepted None None None] true 1.

Lemma torn_opened : is_opened torn_world = true.
Proof. by_eval. Qed.

Lemma torn_read : (history 7%N 5 (the_journal torn_world)).1 = Ok torn_answer.
Proof. by_eval. Qed.

Lemma limit_4096 : 0 < 4096 < u64_max.
Proof. by vm_compute. Qed.

Lemma acknowledged_records_are_kept_witness :
  of_command 7%N (jw_acked torn_world) `sublist_of` js_records torn_answer.
Proof.
  exact (proj1 (proj2 (acknowledged_records_are_kept 4096 limit_4096 torn_calls (the_journal torn_world)
    (jw_acked torn_world) 7%N 5 torn_answer _ (opened_run _ torn_opened) (pair_fst _ _ torn_read)))).
Defined.

(** One command is accepted and then executed. *)
Definition one_calls : list JournalCall := [CallOpen 1; CallAppend (record 7%N PhaseAccepted) 2].
Definition one_world : JournalWorld := world_run 4096 one_calls.
Definition executed : result unit JournalError * JsonlJournal :=
  append_record (record 7%N PhaseExecuting) 3 (the_journal one_world).

Lemma one_opened : is_opened one_world = true.
Proof. by_eval. Qed.
Lemma executed_ok : executed.1 = Ok tt.
Proof. by_eval. Qed.
Lemma executed_quiet : dk_faults (jj_disk executed.2) = [].
Proof. by_eval. Qed.

Lemma appended_record_reads_back_witness :
  exists rs, history 7%N 4 executed.2
             = (Ok (MkJournalScan (rs ++ [numbered (record 7%N PhaseExecuting) executed.2]) false 0), executed.2)
    /\ of_command 7%N (jw_acked one_world) `sublist_of` rs
    /\ archived_at 4096 (jj_disk executed.2) 7%N = [].
Proof.
  exact (appended_record_reads_back 4096 limit_4096 one_calls (the_journal one_world) (jw_acked one_world)
    (record 7%N PhaseExecuting) 3 executed.2 4 (opened_run _ one_opened) (pair_fst _ _ executed_ok) executed_quiet).
Defined.

Lemma journal_follows_the_log_witness :
  let w := world_run 4096 one_calls in
  let w' := world_step 4096 w (CallAppend (record 7%N PhaseExecuting) 3) in
  follows (CallAppend (record 7%N PhaseExecuting) 3) (length w.(jw_acked) <? length w'.(jw_acked))%nat
    (world_held 4096 w) (world_held 4096 w').
Proof. exact (journal_follows_the_log 4096 limit_4096 one_calls (CallAppend (record 7%N PhaseExecuting) 3)). Defined.

(** Two commands; the line of the second is then overwritten in place. *)
Definition two_calls : list JournalCall := one_calls ++ [CallAppend (record 9%N PhaseAccepted) 3].
Definition two_world : JournalWorld := world_run 4096 two_calls.
Definition two_bytes : bytes := bytes_of (jj_disk (the_journal two_world)) 0%N.
Definition scrawled : bytes :=
  let '(first, rest) := read_until 4096 two_bytes in first ++ repeat "X"%char (length rest).
Definition two_journal : JsonlJournal := overwritten (the_journal two_world) scrawled.

Definition is_current (j : JsonlJournal) : bool :=
  match j.(jj_disk).(dk_path), j.(jj_writer).(ws_modified) with
  | Some (Regular ino), Some t =>
      N.eqb ino j.(jj_writer).(ws_identity)
      && (j.(jj_writer).(ws_file_len) =? blen (bytes_of j.(jj_disk) j.(jj_writer).(ws_identity)))
      && (t =? (inode_of j.(jj_disk) j.(jj_writer).(ws_identity)).(in_modified))
  | _, _ => false
  end.

Lemma is_current_ok j : is_current j = true -> current j.(jj_disk) j.(jj_writer).
Proof.
  unfold is_current, current, at_path. destruct (dk_path _) as [[ino|]|]; [|done..].
  destruct (ws_modified _) as [t|]; [|done].
  intros [[->%N.eqb_eq El%Z.eqb_eq]%andb_prop ->%Z.eqb_eq]%andb_prop. done.
Qed.

Lemma two_opened : is_opened two_world = true.
Proof. by_eval. Qed.
Lemma two_current : is_current (the_journal two_world) = true.
Proof. by_eval. Qed.
Lemma scrawled_length :
  (blen scrawled =? blen (bytes_of (jj_disk (the_journal two_world)) (ws_identity (jj_writer (the_journal two_world))))) = true.
Proof. by_eval. Qed.

(** The command whose line is whole is answered; the other one's line is found damaged, and
    the answer says so. *)
Lemma two_read : (history 7%N 5 two_journal).1 = Ok (MkJournalScan [MkCommandRecord 0 1 7%N PhaseAccepted None None None] false 0).
Proof. by_eval. Qed.
Definition two_answer : JournalScan := MkJournalScan [] true 1.
Lemma damage_is_reported : (history 9%N 5 two_journal).1 = Ok two_answer.
Proof. by_eval. Qed.

Lemma damage_is_never_believed_witness :
  let j := the_journal two_world in
  let ino := ws_identity (jj_writer j) in
  js_records two_answer = of_command 9%N (records_of (bytes_of (jj_disk j) ino))
  \/ (1 <= js_incompatible_records two_answer
      /\ (Regular ino ∈ (dk_archives (jj_disk (history 9%N 5 two_journal).2)).*2 \/ ws_archives (jj_writer j) <> []))
  \/ forged (jsonl_lines (bytes_of (jj_disk j) ino)).1 scrawled.
Proof.
  exact (damage_is_never_believed 4096 limit_4096 two_calls (the_journal two_world) (jw_acked two_world) scrawled 9%N 5
    two_answer _ (opened_run _ two_opened) (is_current_ok _ two_current)
    (proj1 (Z.eqb_eq _ _) scrawled_length) (pair_fst _ _ damage_is_reported)).
Defined.

(** ** A sequence number used twice *)

(** The second append is written and synchronised, but reading the metadata fails; the third
    append is acknowledged; then the journal is opened again. *)
Definition repeat_calls : list JournalCall :=
  [CallOpen 1; CallAppend (record 7%N PhaseAccepted) 2;
   CallFaults (repeat IoOk 9%nat ++ [IoFails "metadata"]); CallAppend (record 7%N PhaseExecuting) 2;
   CallFaults []; CallAppend (record 7%N PhaseCompleted) 2].

(** When reading the metadata after a synchronised write fails and the file's time of
    modification has not advanced, the index and the length are up to date but the next
    sequence number is not: the next append is acknowledged under a number that the file
    already has, the journal answers without reservation until it is opened again, and then
    the whole file is set aside as damaged. *)
Theorem repeated_sequence_is_archived :
  let w := world_run 4096 repeat_calls in
  let answer := (history 7%N 5 (the_journal w)).1 in
  (cr_sequence <$> jw_acked w) = [0; 1]
  /\ match answer with
     | Ok s => Some (cr_sequence <$> js_records s, js_torn s, js_incompatible_records s)
     | Err _ => None
     end = Some ([0; 1; 1], false, 0)
  /\ let w' := world_run 4096 (repeat_calls ++ [CallClose; CallOpen 6]) in
     length (ws_archives (jj_writer (the_journal w'))) = 1%nat
     /\ (append_record (record 7%N PhaseFailed) 7 (the_journal w')).1 = Err UncertainCommand.
Proof. cbv zeta. split_and!; by_eval. Qed.
End SampleJournal.
