(* ===== verification/Checkpoint.v ===== *)
(** * Checkpoints and the decisions taken from them

    The checkpoints of [crates/bobby-browser-client/src/recovery.rs], the errors of
    [crates/checkpoint-store/src/lib.rs] and [crates/page-runtime/src/recovery.rs], and the
    evaluation of a checkpoint's invariants against evidence. *)

From S2P Require Import Prelude Text SkillTypes Receipt Ledger.

(** ** Equality of receipts *)

#[export] Instance PageEvidence_eq_dec : EqDecision PageEvidence.
Proof. solve_decision. Defined.
#[export] Instance Evidence_eq_dec : EqDecision Evidence.
Proof. solve_decision. Defined.
#[export] Instance ErrorCode_eq_dec : EqDecision ErrorCode.
Proof. solve_decision. Defined.
#[export] Instance ErrorLayer_eq_dec : EqDecision ErrorLayer.
Proof. solve_decision. Defined.
#[export] Instance CommandError_eq_dec : EqDecision CommandError.
Proof. solve_decision. Defined.
#[export] Instance CommandOutcome_eq_dec : EqDecision CommandOutcome.
Proof. solve_decision. Defined.
#[export] Instance RecoveryCommandIdentity_eq_dec : EqDecision RecoveryCommandIdentity.
Proof. solve_decision. Defined.
#[export] Instance RecoveryReceipt_eq_dec : EqDecision RecoveryReceipt.
Proof. solve_decision. Defined.

#[export] Instance eta_RecoveryReceipt : Eta RecoveryReceipt := fun r =>
  MkRecoveryReceipt (rr_idempotency_key r) (rr_identity r) (rr_state r) (rr_reservation_id r) (rr_decision r)
    (rr_command_outcome r) (rr_skill_outcome r) (rr_tactic_evidence r) (rr_outcome_sha256 r) (rr_recorded_at r).

(** ** Data *)

Definition MAX_RECOVERY_RECEIPTS : Z := 64.

Inductive CheckpointInvariant :=
| InvariantUrl (value : string)
| InvariantTitle (value : string)
| InvariantText (selector value : string).
#[export] Instance CheckpointInvariant_eq_dec : EqDecision CheckpointInvariant.
Proof. solve_decision. Defined.

Record RestartLineage := MkRestartLineage {
  rl_workflow_id : WorkflowId;
  rl_abandoned_attempt_id : AttemptId;
  rl_attempt_id : AttemptId;
  rl_reason : string;
}.
#[export] Instance RestartLineage_eq_dec : EqDecision RestartLineage.
Proof. solve_decision. Defined.

Inductive RecoveryDecision :=
| Resumed (checkpoint_id : CheckpointId) (attempt_id : AttemptId) (evidence : list Evidence)
| NeedsReconciliation (checkpoint_id : CheckpointId) (attempt_id : AttemptId) (reason : string)
    (evidence : list Evidence)
| Restarted (checkpoint_id : CheckpointId) (lineage : RestartLineage) (evidence : list Evidence).
#[export] Instance RecoveryDecision_eq_dec : EqDecision RecoveryDecision.
Proof. solve_decision. Defined.

Record RecoveryRecord := MkRecoveryRecord {
  rd_recorded_at : Time;
  rd_decision : RecoveryDecision;
}.
#[export] Instance RecoveryRecord_eq_dec : EqDecision RecoveryRecord.
Proof. solve_decision. Defined.

Record WorkflowCheckpoint := MkWorkflowCheckpoint {
  cp_schema_version : Z;
  cp_checkpoint_id : CheckpointId;
  cp_workflow_id : WorkflowId;
  cp_attempt_id : AttemptId;
  cp_session_id : SessionId;
  cp_page_id : PageId;
  cp_restart_url : string;
  cp_current_url : string;
  cp_cursor : option CommandId;
  cp_boundary_command_id : option CommandId;
  cp_recovery_class : CommandClass;
  cp_invariants : list CheckpointInvariant;
  cp_replayable_inputs : list string;
  cp_evidence : list Evidence;
  cp_recovery_history : list RecoveryRecord;
  cp_recovery_receipts : list RecoveryReceipt;
  cp_created_at : Time;
}.
#[export] Instance eta_WorkflowCheckpoint : Eta WorkflowCheckpoint := fun c =>
  MkWorkflowCheckpoint (cp_schema_version c) (cp_checkpoint_id c) (cp_workflow_id c) (cp_attempt_id c)
    (cp_session_id c) (cp_page_id c) (cp_restart_url c) (cp_current_url c) (cp_cursor c)
    (cp_boundary_command_id c) (cp_recovery_class c) (cp_invariants c) (cp_replayable_inputs c) (cp_evidence c)
    (cp_recovery_history c) (cp_recovery_receipts c) (cp_created_at c).

#[export] Instance WorkflowCheckpoint_eq_dec : EqDecision WorkflowCheckpoint.
Proof. solve_decision. Defined.

(** [WorkflowCheckpoint::SCHEMA_VERSION]. *)
Definition CHECKPOINT_SCHEMA_VERSION : Z := 1.

(** ** Errors *)

Inductive CheckpointStoreError :=
| StoreIoFailed (error : IoError)
| StoreSerialization (message : string)
| StoreNotFound (workflow_id : WorkflowId)
| UnsupportedSchema (actual expected : Z)
| SnapshotChanged
| IdentityChanged.

Inductive RecoveryError :=
| InvariantMismatch (message : string)
| RecoveryStore (error : CheckpointStoreError)
| WorkersUnavailable
| Browser (message : string)
| SessionMismatch
| CommandOutcomeMissing (id : CommandId).

(** ** Invariants *)

Definition shows (invariant : CheckpointInvariant) (item : Evidence) : bool :=
  match invariant, item with
  | InvariantUrl value, EvNavigation url _ => String.eqb url value
  | InvariantUrl value, EvInspection _ url _ _ _ => String.eqb url value
  | InvariantTitle value, EvNavigation _ title => String.eqb title value
  | InvariantTitle value, EvInspection _ _ title _ _ => String.eqb title value
  | InvariantText selector value, EvElement actual text =>
      String.eqb actual selector && bool_decide (text = Some value)
  | InvariantText selector value, EvInspection actual _ _ text _ =>
      bool_decide (actual = Some selector) && String.eqb text value
  | _, _ => false
  end.

Definition failure_text (invariant : CheckpointInvariant) : string :=
  match invariant with
  | InvariantUrl value => "URL invariant not observed: " +:+ value
  | InvariantTitle value => "title invariant not observed: " +:+ value
  | InvariantText selector value => "text invariant not observed for " +:+ selector +:+ ": " +:+ value
  end.

(** [evaluate_invariants]: the failures. *)
Fixpoint evaluate_invariants (invariants : list CheckpointInvariant) (evidence : list Evidence) : list string :=
  match invariants with
  | [] => []
  | invariant :: invariants =>
      (if existsb (shows invariant) evidence then [] else [failure_text invariant])
      ++ evaluate_invariants invariants evidence
  end.

(** [InvariantEvaluation::is_match]. *)
Definition is_match (failures : list string) : bool := match failures with [] => true | _ => false end.

(** [failures.join("; ")]. *)
Definition join_failures (failures : list string) : string := String.concat "; " failures.

Lemma evaluate_match invariants evidence :
  is_match (evaluate_invariants invariants evidence) = true
  <-> Forall (fun i => exists item, item ∈ evidence /\ shows i item = true) invariants.
Proof.
  induction invariants as [|i invariants IH]; cbn [evaluate_invariants]; [by split|].
  rewrite Forall_cons, <- IH. destruct (existsb (shows i) evidence) eqn:E; cbn.
  - apply existsb_exists in E as (item & Hin & Hs). apply list_elem_of_In in Hin. split; [|by intros [_ ?]].
    intros ?. split; [by exists item|done].
  - split; [done|]. intros [(item & Hin & Hs) _].
    assert (existsb (shows i) evidence = true) as E'; [|congruence].
    apply existsb_exists. exists item. split; [by apply list_elem_of_In|done].
Qed.
