(* ===== verification/CheckpointStore.v ===== *)
(** * The checkpoint store

    [crates/checkpoint-store/src/lib.rs] and the file replacement of
    [crates/durable-file/src/lib.rs]: one file per workflow, replaced as a whole, a second
    one for the skill decision that is being carried out, and an index by session that is
    rebuilt from the directory when its version has changed.

    A file is known by what its name says: the code writes and accepts only names that
    spell an identifier in its canonical form.  Any call of the file system may fail; the
    faults to come are part of the state.  Every change of a file gets a new time of change,
    and adding, renaming and removing a file changes the version of the directory.  The
    store's lock on a workflow makes an operation one step. *)

From S2P Require Import Prelude Text SkillTypes Receipt Ledger Json Checkpoint.
From Stdlib Require Import Ascii.

(** ** The directory *)

Inductive Name :=
| CheckpointFile (id : WorkflowId)
| IssuanceFile (id : WorkflowId)
| TemporaryFile (id : WorkflowId) (nonce : Uuid)
| OtherFile (n : N).
#[export] Instance Name_eq_dec : EqDecision Name.
Proof. solve_decision. Defined.
#[export] Program Instance Name_countable : Countable Name :=
  inj_countable'
    (fun x => match x with
              | CheckpointFile id => inl id
              | IssuanceFile id => inr (inl id)
              | TemporaryFile id nonce => inr (inr (inl (id, nonce)))
              | OtherFile n => inr (inr (inr n))
              end)
    (fun x : N + (N + (N * N + N)) =>
       match x with
       | inl id => CheckpointFile id
       | inr (inl id) => IssuanceFile id
       | inr (inr (inl (id, nonce))) => TemporaryFile id nonce
       | inr (inr (inr n)) => OtherFile n
       end) _.
Next Obligation. by intros []. Qed.

(** A link or a stream is special. *)
Inductive EntryKind := RegularFile | SpecialFile | DirectoryFile.
#[export] Instance EntryKind_eq_dec : EqDecision EntryKind.
Proof. solve_decision. Defined.

Record Entry := MkEntry {
  en_kind : EntryKind;
  en_bytes : bytes;
  en_links : Z;
  en_modified : option Time;
  en_changed : Time;
}.
#[export] Instance eta_Entry : Eta Entry := fun e =>
  MkEntry (en_kind e) (en_bytes e) (en_links e) (en_modified e) (en_changed e).

Record Directory := MkDirectory {
  kd_entries : gmap Name Entry;
  kd_version : Z;
  kd_clock : Time;
  kd_faults : list Fault;
}.
#[export] Instance eta_Directory : Eta Directory := fun d =>
  MkDirectory (kd_entries d) (kd_version d) (kd_clock d) (kd_faults d).

(** [std::io::ErrorKind::NotFound] and the rest. *)
Inductive FileError := MissingFile | FileFailed (error : IoError).

Definition DirIO (A : Type) : Type := ST Directory FileError A.

Definition dir_fault : DirIO Fault :=
  fun d => match d.(kd_faults) with
           | [] => (Ok IoOk, d)
           | f :: fs => (Ok f, d <| kd_faults := fs |>)
           end.

(** A call that changes nothing. *)
Definition dir_call : DirIO unit :=
  do f <- dir_fault;
  match f with
  | IoOk => sret tt
  | IoFails m | IoPartial _ m => sfail (FileFailed (DeviceError m))
  end.

(** The entries change: a name is added, replaced or removed. *)
Definition change_entries (f : Time -> gmap Name Entry -> gmap Name Entry) (d : Directory) : Directory :=
  let t := d.(kd_clock) + 1 in
  MkDirectory (f t d.(kd_entries)) (d.(kd_version) + 1) t d.(kd_faults).

(** [create_new]. *)
Definition create_new (name : Name) : DirIO unit :=
  dir_call ;;
  do d <- sget;
  match d.(kd_entries) !! name with
  | Some _ => sfail (FileFailed (DeviceError "file exists"))
  | None => smodify (change_entries (fun t => insert name (MkEntry RegularFile [] 1 (Some t) t)))
  end.

(** Bytes written to a new file, in place. *)
Definition fill_file (name : Name) (b : bytes) (d : Directory) : Directory :=
  let t := d.(kd_clock) + 1 in
  d <| kd_entries := alter (fun e => e <| en_bytes := b |> <| en_modified := Some t |> <| en_changed := t |>)
                       name d.(kd_entries) |> <| kd_clock := t |>.

Definition write_file (name : Name) (b : bytes) : DirIO unit :=
  do f <- dir_fault;
  match f with
  | IoOk => smodify (fill_file name b)
  | IoFails m => sfail (FileFailed (DeviceError m))
  | IoPartial n m => smodify (fill_file name (take n b)) ;; sfail (FileFailed (DeviceError m))
  end.

Definition rename_file (from to : Name) : DirIO unit :=
  dir_call ;;
  do d <- sget;
  match d.(kd_entries) !! from with
  | None => sfail MissingFile
  | Some e =>
      if bool_decide (en_kind <$> d.(kd_entries) !! to = Some DirectoryFile)
      then sfail (FileFailed (DeviceError "is a directory"))
      else smodify (change_entries (fun t m => <[to := e <| en_changed := t |>]> (delete from m)))
  end.

Definition remove_file (name : Name) : DirIO unit :=
  dir_call ;;
  do d <- sget;
  match d.(kd_entries) !! name with
  | None => sfail MissingFile
  | Some e =>
      if bool_decide (e.(en_kind) = DirectoryFile) then sfail (FileFailed (DeviceError "is a directory"))
      else smodify (change_entries (fun _ => delete name))
  end.

(** [File::open(directory)] and [sync_all]. *)
Definition sync_directory : DirIO unit := dir_call ;; dir_call.

(** A call whose failure the caller looks at. *)
Definition try {S E A} (m : ST S E A) : ST S E (result A E) := fun s =>
  let '(r, s') := m s in (Ok r, s').

(** ** durable-file *)

Definition bounded (max : Z) (b : bytes) : result bytes string :=
  if max <? blen b then Err "serialized data exceeds byte limit" else Ok b.

(** What follows the creation of the temporary file. *)
Definition publish_file (temporary destination : Name) (b : bytes) : DirIO unit :=
  write_file temporary b ;;
  dir_call ;;
  rename_file temporary destination ;;
  sync_directory.

Definition replace_exclusive (temporary destination : Name) (b : bytes) : DirIO unit :=
  create_new temporary ;;
  do r <- try (publish_file temporary destination b);
  match r with
  | Ok _ => sret tt
  | Err e => do _ <- try (remove_file temporary); sfail e
  end.

(** [read_regular_file]. *)
Definition read_regular_file (name : Name) (max_bytes : Z) : DirIO bytes :=
  dir_call ;;
  do d <- sget;
  match d.(kd_entries) !! name with
  | None => sfail MissingFile
  | Some e =>
      dir_call ;;
      slift (refuse_if (negb (bool_decide (e.(en_kind) = RegularFile)))
               (FileFailed (DataError "checkpoint storage entry must be a regular file"))) ;;
      slift (refuse_if (negb (e.(en_links) =? 1))
               (FileFailed (DataError "checkpoint storage entry must have exactly one hard link"))) ;;
      slift (refuse_if (max_bytes <? blen e.(en_bytes))
               (FileFailed (DataError "checkpoint storage entry exceeds byte limit"))) ;;
      dir_call ;;
      sret e.(en_bytes)
  end.

(** [metadata] and [symlink_metadata]. *)
Definition metadata (name : Name) : DirIO Entry :=
  dir_call ;;
  do d <- sget;
  slift (ok_or (d.(kd_entries) !! name) MissingFile).

Definition directory_version : DirIO Z :=
  dir_call ;;
  do d <- sget;
  sret d.(kd_version).

(** ** The index *)

Record FileVersion := MkFileVersion {
  fv_len : Z;
  fv_modified : option Time;
  fv_kind : EntryKind;
  fv_links : Z;
  fv_changed : Time;
}.
#[export] Instance FileVersion_eq_dec : EqDecision FileVersion.
Proof. solve_decision. Defined.

Definition FileVersion_from_metadata (e : Entry) : FileVersion :=
  MkFileVersion (blen e.(en_bytes)) e.(en_modified) e.(en_kind) e.(en_links) e.(en_changed).

Record CheckpointRef := MkCheckpointRef {
  rf_workflow_id : WorkflowId;
  rf_created_at : Time;
  rf_path : Name;
  rf_version : FileVersion;
}.
#[export] Instance CheckpointRef_eq_dec : EqDecision CheckpointRef.
Proof. solve_decision. Defined.

Record SessionIndex := MkSessionIndex {
  sx_directory_version : option Z;
  sx_sessions : gmap SessionId (list CheckpointRef);
  sx_rejected : gmap Name FileVersion;
}.
#[export] Instance eta_SessionIndex : Eta SessionIndex := fun x =>
  MkSessionIndex (sx_directory_version x) (sx_sessions x) (sx_rejected x).

Definition empty_index : SessionIndex := MkSessionIndex None ∅ ∅.

(** [sort_by_key(Reverse(created_at))]. *)
Definition newer_ref (a b : CheckpointRef) : Prop := b.(rf_created_at) <= a.(rf_created_at).
Definition newer (a b : WorkflowCheckpoint) : Prop := b.(cp_created_at) <= a.(cp_created_at).
#[export] Instance newer_ref_dec a b : Decision (newer_ref a b).
Proof. unfold newer_ref. apply _. Defined.
#[export] Instance newer_dec a b : Decision (newer a b).
Proof. unfold newer. apply _. Defined.

Definition ref_of (c : WorkflowCheckpoint) (path : Name) (e : Entry) : CheckpointRef :=
  MkCheckpointRef c.(cp_workflow_id) c.(cp_created_at) path (FileVersion_from_metadata e).

(** [SessionIndex::update]. *)
Definition index_update (c : WorkflowCheckpoint) (path : Name) (e : Entry) (x : SessionIndex) : SessionIndex :=
  let entries := default [] (x.(sx_sessions) !! c.(cp_session_id)) in
  let entries := filter (fun r => r.(rf_workflow_id) <> c.(cp_workflow_id)) entries ++ [ref_of c path e] in
  MkSessionIndex x.(sx_directory_version) (<[c.(cp_session_id) := merge_sort newer_ref entries]> x.(sx_sessions))
    (delete path x.(sx_rejected)).

Definition push_ref (session_id : SessionId) (r : CheckpointRef) (x : SessionIndex) : SessionIndex :=
  x <| sx_sessions := <[session_id := default [] (x.(sx_sessions) !! session_id) ++ [r]]> x.(sx_sessions) |>.

(** ** JSON

    A checkpoint or a skill decision as JSON, and back. *)
Class CheckpointCodec := {
  checkpoint_bytes : WorkflowCheckpoint -> result bytes string;
  checkpoint_of_bytes : bytes -> result WorkflowCheckpoint string;
  issuance_bytes : SkillIssuedDecision -> result bytes string;
  issuance_of_bytes : bytes -> result SkillIssuedDecision string;
}.

(** ** The store *)

Record CheckpointStore := MkCheckpointStore {
  ks_dir : Directory;
  ks_session_index : SessionIndex;
  ks_max_file_bytes : Z;
}.
#[export] Instance eta_CheckpointStore : Eta CheckpointStore := fun s =>
  MkCheckpointStore (ks_dir s) (ks_session_index s) (ks_max_file_bytes s).

Definition StoreIO (A : Type) : Type := ST CheckpointStore CheckpointStoreError A.

Definition io_error (e : FileError) : CheckpointStoreError :=
  match e with
  | MissingFile => StoreIoFailed (DeviceError "no such file")
  | FileFailed e => StoreIoFailed e
  end.

(** A call of the file system, with the [?] of the code. *)
Definition on_dir {A} (m : DirIO A) : StoreIO A := fun s =>
  let '(r, d) := m s.(ks_dir) in (map_err io_error r, s <| ks_dir := d |>).

(** The same where the code looks at the error. *)
Definition try_dir {A} (m : DirIO A) : StoreIO (result A FileError) := fun s =>
  let '(r, d) := m s.(ks_dir) in (Ok r, s <| ks_dir := d |>).

Definition DEFAULT_MAX_FILE_BYTES : Z := 64 * 1024 * 1024.

Definition open_with_max_file_bytes (d : Directory) (max_file_bytes : Z)
    : result CheckpointStore CheckpointStoreError * Directory :=
  if max_file_bytes =? 0
  then (Err (StoreIoFailed (DataError "checkpoint file byte limit must be positive")), d)
  else match dir_call d with
       | (Ok _, d) => (Ok (MkCheckpointStore d empty_index max_file_bytes), d)
       | (Err e, d) => (Err (io_error e), d)
       end.

Definition open (d : Directory) : result CheckpointStore CheckpointStoreError * Directory :=
  open_with_max_file_bytes d DEFAULT_MAX_FILE_BYTES.

Section Store.
Context `{Sha2, ReceiptCodec, CheckpointCodec}.

(** ** Checks *)

Definition validate_receipt (c : WorkflowCheckpoint) (r : RecoveryReceipt) : result unit CheckpointStoreError :=
  refuse_if (negb (N.eqb r.(rr_identity).(rci_workflow_id) c.(cp_workflow_id))
             || negb (N.eqb r.(rr_identity).(rci_session_id) c.(cp_session_id))) IdentityChanged ;?
  map_err StoreSerialization (RecoveryReceipt_validate r).

Definition validate_schema (c : WorkflowCheckpoint) : result unit CheckpointStoreError :=
  refuse_if (negb (c.(cp_schema_version) =? CHECKPOINT_SCHEMA_VERSION))
    (UnsupportedSchema c.(cp_schema_version) CHECKPOINT_SCHEMA_VERSION) ;?
  refuse_if (MAX_RECOVERY_RECEIPTS <? Z.of_nat (length c.(cp_recovery_receipts)))
    (StoreSerialization "checkpoint recovery receipts exceed their bound") ;?
  check_all (validate_receipt c) c.(cp_recovery_receipts).

Definition decode_checkpoint (b : bytes) (workflow_id : WorkflowId) : result WorkflowCheckpoint CheckpointStoreError :=
  let? c := map_err StoreSerialization (checkpoint_of_bytes b) in
  validate_schema c ;?
  refuse_if (negb (N.eqb c.(cp_workflow_id) workflow_id)) IdentityChanged ;?
  Ok c.

Definition checkpoint_digest (b : bytes) : Digest := sha256 b.

Definition checkpoint_authority_digest (c : WorkflowCheckpoint) : result Digest CheckpointStoreError :=
  let authority := c <| cp_recovery_history := [] |> <| cp_recovery_receipts := [] |> in
  let? b := map_err StoreSerialization (checkpoint_bytes authority) in
  Ok (checkpoint_digest b).

(** ** Reading *)

Definition read_bytes (workflow_id : WorkflowId) : StoreIO bytes :=
  do s <- sget;
  do r <- try_dir (read_regular_file (CheckpointFile workflow_id) s.(ks_max_file_bytes));
  slift (map_err (fun e => match e with MissingFile => StoreNotFound workflow_id | e => io_error e end) r).

Definition load (workflow_id : WorkflowId) : StoreIO WorkflowCheckpoint :=
  do b <- read_bytes workflow_id;
  slift (decode_checkpoint b workflow_id).

(** ** Writing *)

Definition write_unlocked (c : WorkflowCheckpoint) (nonce : Uuid) : StoreIO unit :=
  do before <- on_dir directory_version;
  do s <- sget;
  do b <- slift (map_err StoreSerialization
                   (let? b := checkpoint_bytes c in bounded s.(ks_max_file_bytes) b));
  let path := CheckpointFile c.(cp_workflow_id) in
  on_dir (replace_exclusive (TemporaryFile c.(cp_workflow_id) nonce) path b) ;;
  do s <- sget;
  if bool_decide (s.(ks_session_index).(sx_directory_version) = Some before) then
    do e <- on_dir (metadata path);
    smodify (fun s => s <| ks_session_index := index_update c path e s.(ks_session_index) |>) ;;
    do after <- on_dir directory_version;
    smodify (fun s => s <| ks_session_index := s.(ks_session_index) <| sx_directory_version := Some after |> |>)
  else
    smodify (fun s => s <| ks_session_index := s.(ks_session_index) <| sx_directory_version := None |> |>).

(** The session of a workflow's checkpoint does not change. *)
Definition check_existing (c : WorkflowCheckpoint) : StoreIO unit :=
  do r <- try (read_bytes c.(cp_workflow_id));
  match r with
  | Ok b =>
      do existing <- slift (decode_checkpoint b c.(cp_workflow_id));
      slift (refuse_if (negb (N.eqb existing.(cp_session_id) c.(cp_session_id))) IdentityChanged)
  | Err (StoreNotFound _) => sret tt
  | Err e => sfail e
  end.

Definition save (c : WorkflowCheckpoint) (nonce : Uuid) : StoreIO unit :=
  slift (validate_schema c) ;;
  check_existing c ;;
  write_unlocked c nonce.

(** ** Snapshots *)

Record LockedCheckpointSnapshot := MkLockedCheckpointSnapshot {
  lk_checkpoint : WorkflowCheckpoint;
  lk_authority_digest : Digest;
  lk_content_digest : Digest;
}.

Definition lock_snapshot (workflow_id : WorkflowId) : StoreIO LockedCheckpointSnapshot :=
  do b <- read_bytes workflow_id;
  do c <- slift (decode_checkpoint b workflow_id);
  do authority <- slift (checkpoint_authority_digest c);
  sret (MkLockedCheckpointSnapshot c authority (checkpoint_digest b)).

Definition verify_unchanged (k : LockedCheckpointSnapshot) : StoreIO unit :=
  do b <- read_bytes k.(lk_checkpoint).(cp_workflow_id);
  slift (refuse_if (negb (bool_decide (checkpoint_digest b = k.(lk_content_digest)))) SnapshotChanged).

(** The snapshot after the checkpoint was saved. *)
Definition save_if_unchanged (k : LockedCheckpointSnapshot) (c : WorkflowCheckpoint) (nonce : Uuid)
    : StoreIO LockedCheckpointSnapshot :=
  verify_unchanged k ;;
  slift (refuse_if (negb (N.eqb c.(cp_workflow_id) k.(lk_checkpoint).(cp_workflow_id))) SnapshotChanged) ;;
  slift (refuse_if (negb (N.eqb c.(cp_session_id) k.(lk_checkpoint).(cp_session_id))) IdentityChanged) ;;
  slift (validate_schema c) ;;
  write_unlocked c nonce ;;
  do b <- slift (map_err StoreSerialization (checkpoint_bytes c));
  do authority <- slift (checkpoint_authority_digest c);
  sret (MkLockedCheckpointSnapshot c authority (checkpoint_digest b)).

(** ** Removing *)

Definition index_remove (workflow_id : WorkflowId) (x : SessionIndex) : SessionIndex :=
  MkSessionIndex x.(sx_directory_version)
    (filter (fun p : SessionId * list CheckpointRef => p.2 <> [])
       (filter (fun r => r.(rf_workflow_id) <> workflow_id) <$> x.(sx_sessions)))
    (delete (CheckpointFile workflow_id) x.(sx_rejected)).

Definition remove (workflow_id : WorkflowId) : StoreIO unit :=
  do before <- on_dir directory_version;
  do r <- try_dir (remove_file (CheckpointFile workflow_id));
  match r with
  | Ok _ =>
      on_dir sync_directory ;;
      do s <- sget;
      if bool_decide (s.(ks_session_index).(sx_directory_version) = Some before) then
        smodify (fun s => s <| ks_session_index := index_remove workflow_id s.(ks_session_index) |>) ;;
        do after <- on_dir directory_version;
        smodify (fun s => s <| ks_session_index := s.(ks_session_index) <| sx_directory_version := Some after |> |>)
      else
        smodify (fun s => s <| ks_session_index := s.(ks_session_index) <| sx_directory_version := None |> |>)
  | Err MissingFile => sret tt
  | Err e => sfail (io_error e)
  end.

(** ** Skill decisions *)

Definition validate_skill_issuance_identity (workflow_id : WorkflowId) (i : SkillIssuedDecision)
    : result unit CheckpointStoreError :=
  match i.(si_command_identity) with
  | Some identity => refuse_if (negb (N.eqb identity.(ci_workflow_id) workflow_id)) IdentityChanged
  | None => Ok tt
  end.

(** [load_skill_issuance] and [read_skill_issuance_unlocked]. *)
Definition load_skill_issuance (workflow_id : WorkflowId) : StoreIO (option SkillIssuedDecision) :=
  do s <- sget;
  do r <- try_dir (read_regular_file (IssuanceFile workflow_id) s.(ks_max_file_bytes));
  match r with
  | Ok b =>
      do i <- slift (map_err StoreSerialization (issuance_of_bytes b));
      slift (validate_skill_issuance_identity workflow_id i) ;;
      sret (Some i)
  | Err MissingFile => sret None
  | Err e => sfail (io_error e)
  end.

Definition save_skill_issuance (workflow_id : WorkflowId) (i : SkillIssuedDecision) (nonce : Uuid) : StoreIO unit :=
  slift (validate_skill_issuance_identity workflow_id i) ;;
  do _ <- load_skill_issuance workflow_id;
  do s <- sget;
  do b <- slift (map_err StoreSerialization
                   (let? b := issuance_bytes i in bounded s.(ks_max_file_bytes) b));
  let temporary := TemporaryFile workflow_id nonce in
  do r <- try_dir (create_new temporary ;; publish_file temporary (IssuanceFile workflow_id) b);
  match r with
  | Ok _ => sret tt
  | Err e => do _ <- try_dir (remove_file temporary); sfail (io_error e)
  end.

Definition remove_skill_issuance (workflow_id : WorkflowId) : StoreIO unit :=
  do r <- try_dir (remove_file (IssuanceFile workflow_id));
  match r with
  | Ok _ => on_dir sync_directory
  | Err MissingFile => sret tt
  | Err e => sfail (io_error e)
  end.

(** ** Listing *)

(** A file that holds the checkpoint its name says. *)
Definition accepted (path : Name) (b : bytes) : option WorkflowCheckpoint :=
  match checkpoint_of_bytes b with
  | Ok c => if is_ok (validate_schema c) && bool_decide (path = CheckpointFile c.(cp_workflow_id))
            then Some c else None
  | Err _ => None
  end.

(** One entry of the directory, in a rebuild. *)
Definition rebuild_entry (name : Name) (x : SessionIndex) : StoreIO SessionIndex :=
  match name with
  | CheckpointFile _ =>
      do m <- try_dir (metadata name);
      match m with
      | Err _ => sret x
      | Ok e =>
          let rejected := x <| sx_rejected := <[name := FileVersion_from_metadata e]> x.(sx_rejected) |> in
          do s <- sget;
          do r <- try_dir (read_regular_file name s.(ks_max_file_bytes));
          sret (match r with
                | Ok b => match accepted name b with
                          | Some c => push_ref c.(cp_session_id) (ref_of c name e)
                                        (rejected <| sx_rejected := delete name rejected.(sx_rejected) |>)
                          | None => rejected
                          end
                | Err _ => rejected
                end)
      end
  | _ => sret x
  end.

Fixpoint rebuild_entries (names : list Name) (x : SessionIndex) : StoreIO SessionIndex :=
  match names with
  | [] => on_dir dir_call ;; sret x
  | name :: names =>
      on_dir dir_call ;;
      do x <- rebuild_entry name x;
      rebuild_entries names x
  end.

Definition rebuild_index (before : Z) : StoreIO unit :=
  on_dir dir_call ;;
  do s <- sget;
  do x <- rebuild_entries (map_to_list s.(ks_dir).(kd_entries)).*1 empty_index;
  do after <- on_dir directory_version;
  let sorted := merge_sort newer_ref <$> x.(sx_sessions) in
  let version := if before =? after then Some after else None in
  smodify (fun s => s <| ks_session_index := MkSessionIndex version sorted x.(sx_rejected) |>).

(** A file that was rejected may have been repaired in place. *)
Definition recheck_rejected (path : Name) (original : FileVersion) : StoreIO unit :=
  do m <- try_dir (metadata path);
  match m with
  | Err _ => sret tt
  | Ok e =>
      let version := FileVersion_from_metadata e in
      if bool_decide (is_Some version.(fv_modified)) && bool_decide (version = original) then sret tt else
      do s <- sget;
      do r <- try_dir (read_regular_file path s.(ks_max_file_bytes));
      let found := match r with Ok b => accepted path b | Err _ => None end in
      do s <- sget;
      if negb (bool_decide (s.(ks_session_index).(sx_rejected) !! path = Some original)) then sret tt
      else smodify (fun s => s <| ks_session_index :=
             match found with
             | Some c => index_update c path e s.(ks_session_index)
             | None => s.(ks_session_index) <| sx_rejected := <[path := version]> s.(ks_session_index).(sx_rejected) |>
             end |>)
  end.

Fixpoint recheck_all (rejected : list (Name * FileVersion)) : StoreIO unit :=
  match rejected with
  | [] => sret tt
  | (path, original) :: rejected => recheck_rejected path original ;; recheck_all rejected
  end.

(** The checkpoint of a candidate, when it still is of this session. *)
Definition of_candidate (session_id : SessionId) (r : CheckpointRef) (b : bytes) : option WorkflowCheckpoint :=
  match checkpoint_of_bytes b with
  | Ok c => if N.eqb c.(cp_session_id) session_id && N.eqb c.(cp_workflow_id) r.(rf_workflow_id)
               && is_ok (validate_schema c)
            then Some c else None
  | Err _ => None
  end.

Definition refresh_candidate (session_id : SessionId) (r : CheckpointRef) : StoreIO (option CheckpointRef) :=
  do m <- try_dir (metadata r.(rf_path));
  match m with
  | Err _ => sret None
  | Ok e =>
      let version := FileVersion_from_metadata e in
      if bool_decide (is_Some version.(fv_modified)) && bool_decide (version = r.(rf_version)) then sret None else
      do s <- sget;
      do x <- try_dir (read_regular_file r.(rf_path) s.(ks_max_file_bytes));
      sret (match x with
            | Ok b => (fun c => MkCheckpointRef r.(rf_workflow_id) c.(cp_created_at) r.(rf_path) version)
                        <$> of_candidate session_id r b
            | Err _ => None
            end)
  end.

(** The candidates, and those that were refreshed with what they were before. *)
Fixpoint refresh_candidates (session_id : SessionId) (candidates : list CheckpointRef)
    (refreshed : gmap WorkflowId (CheckpointRef * CheckpointRef))
    : StoreIO (list CheckpointRef * gmap WorkflowId (CheckpointRef * CheckpointRef)) :=
  match candidates with
  | [] => sret ([], refreshed)
  | r :: candidates =>
      do u <- refresh_candidate session_id r;
      let refreshed := match u with Some r' => <[r.(rf_workflow_id) := (r, r')]> refreshed | None => refreshed end in
      do rest <- refresh_candidates session_id candidates refreshed;
      sret (default r u :: rest.1, rest.2)
  end.

Definition store_refreshed (session_id : SessionId) (refreshed : gmap WorkflowId (CheckpointRef * CheckpointRef))
    (x : SessionIndex) : SessionIndex :=
  x <| sx_sessions := alter (fun entries =>
         merge_sort newer_ref ((fun r => match refreshed !! r.(rf_workflow_id) with
                                         | Some (original, updated) => if bool_decide (r = original) then updated else r
                                         | None => r
                                         end) <$> entries)) session_id x.(sx_sessions) |>.

Fixpoint collect (session_id : SessionId) (limit : nat) (candidates : list CheckpointRef)
    : StoreIO (list WorkflowCheckpoint) :=
  match limit, candidates with
  | 0%nat, _ | _, [] => sret []
  | S left_over, r :: candidates =>
      do s <- sget;
      do x <- try_dir (read_regular_file r.(rf_path) s.(ks_max_file_bytes));
      match (match x with Ok b => of_candidate session_id r b | Err _ => None end) with
      | Some c => do rest <- collect session_id left_over candidates; sret (c :: rest)
      | None => collect session_id limit candidates
      end
  end.

Definition list_for_session (session_id : SessionId) (limit : nat) : StoreIO (list WorkflowCheckpoint) :=
  match limit with
  | 0%nat => sret []
  | _ =>
      do before <- on_dir directory_version;
      do s <- sget;
      (if bool_decide (s.(ks_session_index).(sx_directory_version) = Some before) then sret tt
       else rebuild_index before) ;;
      do s <- sget;
      recheck_all (map_to_list s.(ks_session_index).(sx_rejected)) ;;
      do s <- sget;
      let candidates := default [] (s.(ks_session_index).(sx_sessions) !! session_id) in
      do x <- refresh_candidates session_id candidates ∅;
      let '(candidates, refreshed) := x in
      do candidates <-
        (if bool_decide (refreshed = ∅) then sret candidates
         else smodify (fun s => s <| ks_session_index := store_refreshed session_id refreshed s.(ks_session_index) |>) ;;
              sret (merge_sort newer_ref candidates));
      do found <- collect session_id limit candidates;
      sret (merge_sort newer found)
  end.
End Store.
