(* ===== verification/CheckpointStoreInv.v ===== *)
(** * What the operations of the checkpoint store do to its directory *)

From S2P Require Import Prelude Text SkillTypes Receipt Ledger Json Checkpoint CheckpointStore.

(** ** Reading *)

(** Only the faults to come have changed. *)
Definition quiet (d d' : Directory) : Prop :=
  d'.(kd_entries) = d.(kd_entries) /\ d'.(kd_version) = d.(kd_version) /\ d'.(kd_clock) = d.(kd_clock).

Lemma dir_quiet_refl d : quiet d d.
Proof. done. Qed.

Lemma quiet_trans d1 d2 d3 : quiet d1 d2 -> quiet d2 d3 -> quiet d1 d3.
Proof. intros (E1 & E2 & E3) (F1 & F2 & F3). split_and!; congruence. Qed.

(** The code reads this file. *)
Definition readable (max : Z) (e : Entry) : bool :=
  bool_decide (e.(en_kind) = RegularFile) && (e.(en_links) =? 1) && negb (max <? blen e.(en_bytes)).

Section Reading.
Variable d0 : Directory.
Abbreviation quietly := (fun (_ : FileError) d => quiet d0 d).

Lemma triple_dir_call : triple (quiet d0) dir_call (fun _ => quiet d0) quietly.
Proof.
  intros d r d' Hd. unfold dir_call, dir_fault, sbind.
  destruct (kd_faults d) as [|[|m|n m] fs]; intros [= <- <-]; exact Hd.
Qed.

Lemma triple_metadata name :
  triple (quiet d0) (metadata name) (fun e d => quiet d0 d /\ d0.(kd_entries) !! name = Some e) quietly.
Proof.
  unfold metadata. eapply triple_bind; [apply triple_dir_call|]. intros [].
  eapply triple_bind; [apply triple_get|]. intros d1. apply triple_lift. intros d [Hd ->].
  destruct Hd as (E & ? & ?). rewrite E. by destruct (kd_entries d0 !! name).
Qed.

Lemma triple_version :
  triple (quiet d0) directory_version (fun v d => quiet d0 d /\ v = d0.(kd_version)) quietly.
Proof.
  unfold directory_version. eapply triple_bind; [apply triple_dir_call|]. intros [].
  eapply triple_bind; [apply triple_get|]. intros d1. apply triple_ret. intros d [Hd ->]. split; [done|]. apply Hd.
Qed.

Lemma triple_read name max :
  triple (quiet d0) (read_regular_file name max)
    (fun b d => quiet d0 d /\ exists e, d0.(kd_entries) !! name = Some e /\ readable max e = true /\ b = e.(en_bytes))
    (fun error d => quiet d0 d /\ (error = MissingFile -> d0.(kd_entries) !! name = None)).
Proof.
  intros d r d' Hd. unfold read_regular_file, sbind at 1.
  destruct (dir_call d) as [[[]|x] d1] eqn:E1; pose proof (triple_dir_call _ _ _ Hd E1) as Hd1.
  2: { intros [= <- <-]. split; [done|]. intros ->. revert E1. unfold dir_call, dir_fault, sbind.
       destruct (kd_faults d) as [|[] ?]; done. }
  unfold sbind, sget. assert (kd_entries d1 = kd_entries d0) as -> by apply Hd1.
  destruct (kd_entries d0 !! name) as [e|] eqn:Ee; [|by intros [= <- <-]].
  destruct (dir_call d1) as [[[]|x] d2] eqn:E2; pose proof (triple_dir_call _ _ _ Hd1 E2) as Hd2.
  2: { intros [= <- <-]. split; [done|]. intros ->. revert E2. unfold dir_call, dir_fault, sbind.
       destruct (kd_faults d1) as [|[] ?]; done. }
  unfold slift, refuse_if. destruct (bool_decide_reflect (en_kind e = RegularFile)); [|by intros [= <- <-]].
  destruct (en_links e =? 1) eqn:El; [|by intros [= <- <-]].
  destruct (max <? blen (en_bytes e)) eqn:Em; [by intros [= <- <-]|]. cbn [negb].
  destruct (dir_call d2) as [[[]|x] d3] eqn:E3; pose proof (triple_dir_call _ _ _ Hd2 E3) as Hd3; intros [= <- <-].
  - split; [done|]. exists e. split_and!; [done| |done]. unfold readable. rewrite El, Em, bool_decide_eq_true_2; done.
  - split; [done|]. intros ->. revert E3. unfold dir_call, dir_fault, sbind. destruct (kd_faults d2) as [|[] ?]; done.
Qed.
End Reading.

(** ** Replacing a file *)

Definition holds_bytes (m : gmap Name Entry) (name : Name) (b : bytes) : Prop :=
  exists e, m !! name = Some e /\ e.(en_kind) = RegularFile /\ e.(en_links) = 1 /\ e.(en_bytes) = b.

(** The version tells whether names were added, replaced or removed. *)
Definition moved (d d' : Directory) : Prop :=
  d.(kd_version) <= d'.(kd_version) /\ (d'.(kd_version) = d.(kd_version) -> d'.(kd_entries) = d.(kd_entries)).

Lemma quiet_moved d d' : quiet d d' -> moved d d'.
Proof. intros (E & V & _). split; [lia|done]. Qed.

Lemma moved_trans d1 d2 d3 : moved d1 d2 -> moved d2 d3 -> moved d1 d3.
Proof. intros [V1 E1] [V2 E2]. split; [lia|]. intros V. rewrite E2, E1; [done|lia|lia]. Qed.

Section Replacing.
Variables (d0 : Directory) (temporary destination : Name) (b : bytes).
Hypothesis Hne : temporary <> destination.

(** Nothing but these two names changed, and the destination is as before or replaced as a
    whole. *)
Definition replaces (d : Directory) : Prop :=
  moved d0 d
  /\ (forall name, name <> temporary -> name <> destination -> d.(kd_entries) !! name = d0.(kd_entries) !! name)
  /\ (d.(kd_entries) !! destination = d0.(kd_entries) !! destination \/ holds_bytes d.(kd_entries) destination b).

Definition failed_replace (_ : FileError) (d : Directory) : Prop := replaces d.

Definition written_to (k : bytes -> Prop) (d : Directory) : Prop :=
  d0.(kd_version) < d.(kd_version) /\ exists e, d.(kd_entries) = <[temporary := e]> d0.(kd_entries)
    /\ e.(en_kind) = RegularFile /\ e.(en_links) = 1 /\ k e.(en_bytes).

Definition published (d : Directory) : Prop :=
  replaces d /\ holds_bytes d.(kd_entries) destination b /\ d0.(kd_version) < d.(kd_version).

Lemma quiet_replaces d : quiet d0 d -> replaces d.
Proof. intros Hd. split; [by apply quiet_moved|]. destruct Hd as (E & _). rewrite E. split; [done|by left]. Qed.

Lemma written_replaces k d : written_to k d -> replaces d.
Proof.
  intros (V & e & E & _). split; [split; lia|]. rewrite E. split.
  - intros name Hn _. by rewrite lookup_insert_ne.
  - left. by rewrite lookup_insert_ne.
Qed.

(** A call that changes nothing keeps what is said of the entries. *)
Lemma call_keeps (P : Directory -> Prop) :
  (forall d d', quiet d d' -> P d -> P d') -> triple P dir_call (fun _ => P) (fun _ => P).
Proof.
  intros HP d r d' Hd E. pose proof (triple_dir_call d d r d' (dir_quiet_refl d) E) as Hq.
  destruct r; by apply (HP d).
Qed.

Lemma written_quiet k d d' : quiet d d' -> written_to k d -> written_to k d'.
Proof. intros (E & V & _) (Hv & e & He). split; [lia|]. exists e. by rewrite E. Qed.

Lemma replaces_quiet d d' : quiet d d' -> replaces d -> replaces d'.
Proof.
  intros Hq (Hm & Ho & Hd). split; [eapply moved_trans; [done|by apply quiet_moved]|].
  destruct Hq as (E & _). by rewrite E.
Qed.

Lemma published_quiet d d' : quiet d d' -> published d -> published d'.
Proof.
  intros Hq (Hr & Hh & Hv). split; [by apply (replaces_quiet d)|]. destruct Hq as (E & V & _). by rewrite E, V.
Qed.

Lemma triple_create :
  triple (quiet d0) (create_new temporary) (fun _ => written_to (fun x => x = [])) failed_replace.
Proof.
  unfold create_new, failed_replace. eapply (triple_bind _ _ (fun _ => quiet d0)).
  { intros d r d' Hd E. pose proof (triple_dir_call d0 d r d' Hd E) as Hq. destruct r; [done|by apply quiet_replaces]. }
  intros []. eapply triple_bind; [apply triple_get|]. intros d1. intros d r d' [Hd ->].
  destruct (kd_entries d !! temporary) as [e|]; [intros [= <- <-]; by apply quiet_replaces|]. intros [= <- <-].
  destruct Hd as (E & V & _). split; [cbn; lia|]. eexists. cbn. by rewrite E.
Qed.

Lemma triple_write :
  triple (written_to (fun x => x = [])) (write_file temporary b) (fun _ => written_to (fun x => x = b)) failed_replace.
Proof.
  intros d r d' Hd. pose proof Hd as (V & e & E & Hk & Hl & _). unfold write_file, dir_fault, sbind.
  assert (forall fs c, written_to (fun x => x = c) (fill_file temporary c (d <| kd_faults := fs |>))) as Hfill.
  { intros fs c. split; [exact V|]. eexists. cbn. rewrite E, alter_insert_eq. split; [done|]. cbn. done. }
  destruct (kd_faults d) as [|[|m|n m] fs]; intros [= <- <-].
  - specialize (Hfill [] b). destruct Hfill as (V' & e' & E' & ?). split; [exact V'|]. by exists e'.
  - apply Hfill.
  - eapply written_replaces, (written_quiet _ d); [done|exact Hd].
  - eapply written_replaces, Hfill.
Qed.

Lemma triple_rename :
  triple (written_to (fun x => x = b)) (rename_file temporary destination) (fun _ => published) failed_replace.
Proof.
  unfold rename_file. eapply (triple_bind _ _ (fun _ => written_to (fun x => x = b))).
  { intros d r d' Hd E. pose proof (call_keeps _ (written_quiet (fun x => x = b)) d r d' Hd E) as Hw.
    destruct r; [done|]. by eapply written_replaces. }
  intros []. eapply triple_bind; [apply triple_get|]. intros d1. intros d r d' [Hd ->].
  pose proof Hd as (V & e & E & Hk & Hl & Hb). rewrite E, lookup_insert_eq.
  destruct (bool_decide _); [intros [= <- <-]; by eapply written_replaces|]. intros [= <- <-].
  assert (holds_bytes (kd_entries (change_entries (fun t m => <[destination := e <| en_changed := t |>]> (delete temporary m)) d))
            destination b) as Hh.
  { eexists. cbn. rewrite lookup_insert_eq. split; [done|]. cbn. done. }
  split; [|split; [done|cbn; lia]]. split; [split; cbn; lia|]. split; [|by right].
  intros name Ht Hn. cbn. rewrite lookup_insert_ne, lookup_delete_ne, E, lookup_insert_ne; done.
Qed.

Lemma triple_sync (P : Directory -> Prop) :
  (forall d d', quiet d d' -> P d -> P d') -> triple P sync_directory (fun _ => P) (fun _ => P).
Proof. intros HP. unfold sync_directory. eapply triple_bind; [by apply call_keeps|]. intros []. by apply call_keeps. Qed.

Lemma triple_publish_file :
  triple (written_to (fun x => x = [])) (publish_file temporary destination b) (fun _ => published) failed_replace.
Proof.
  unfold publish_file. eapply triple_bind; [apply triple_write|]. intros [].
  eapply (triple_bind _ _ (fun _ => written_to (fun x => x = b))).
  { intros d r d' Hd E. pose proof (call_keeps _ (written_quiet (fun x => x = b)) d r d' Hd E) as Hw.
    destruct r; [done|]. by eapply written_replaces. }
  intros []. eapply triple_bind; [apply triple_rename|]. intros [] d r d' Hd E.
  pose proof (triple_sync _ published_quiet d r d' Hd E) as Hp. destruct r; [done|]. apply Hp.
Qed.

(** The temporary file may stay or go. *)
Lemma remove_temporary d r d' : replaces d -> remove_file temporary d = (r, d') -> replaces d'.
Proof.
  intros Hd. unfold remove_file, sbind at 1. destruct (dir_call d) as [[[]|x] d1] eqn:E1;
    pose proof (triple_dir_call d d _ d1 (dir_quiet_refl d) E1) as Hq; apply (replaces_quiet d d1 Hq) in Hd;
    [|by intros [= <- <-]].
  unfold sbind, sget. destruct (kd_entries d1 !! temporary) as [e|]; [|by intros [= <- <-]].
  destruct (bool_decide _); intros [= <- <-]; [done|]. destruct Hd as (Hm & Ho & Hd). split.
  - destruct Hm as [V _]. split; cbn; lia.
  - cbn. split.
    + intros name Ht Hn. rewrite lookup_delete_ne by done. by apply Ho.
    + unfold holds_bytes. cbn. by rewrite lookup_delete_ne.
Qed.

Lemma triple_replace :
  triple (quiet d0) (replace_exclusive temporary destination b) (fun _ => published) failed_replace.
Proof.
  unfold replace_exclusive. eapply triple_bind; [apply triple_create|]. intros [] d r d' Hd. unfold sbind at 1, try.
  destruct (publish_file temporary destination b d) as [x d1] eqn:E1.
  pose proof (triple_publish_file d x d1 Hd E1) as Hp. destruct x as [[]|error]; [by intros [= <- <-]|].
  unfold sbind, try. destruct (remove_file temporary d1) as [y d2] eqn:E2. intros [= <- <-].
  by apply (remove_temporary d1 y).
Qed.
End Replacing.

(** ** Removing a file *)

Definition gone (d0 : Directory) (name : Name) (d : Directory) : Prop :=
  d.(kd_entries) = delete name d0.(kd_entries) /\ d0.(kd_version) < d.(kd_version).

Lemma gone_quiet d0 name d d' : quiet d d' -> gone d0 name d -> gone d0 name d'.
Proof. intros (E & V & _) [Hg Hv]. split; [by rewrite E|lia]. Qed.

Lemma gone_moved d0 name d : gone d0 name d -> moved d0 d.
Proof. intros [_ V]. split; lia. Qed.

Lemma triple_remove_file d0 name :
  triple (quiet d0) (remove_file name) (fun _ => gone d0 name)
    (fun e d => quiet d0 d /\ (e = MissingFile -> d0.(kd_entries) !! name = None)).
Proof.
  intros d r d' Hd. unfold remove_file, sbind at 1. destruct (dir_call d) as [[[]|x] d1] eqn:E1;
    pose proof (triple_dir_call d0 d _ d1 Hd E1) as Hq.
  2: { intros [= <- <-]. split; [done|]. intros ->. revert E1. unfold dir_call, dir_fault, sbind.
       destruct (kd_faults d) as [|[] ?]; done. }
  unfold sbind, sget. pose proof Hq as (E & V & _). rewrite E.
  destruct (kd_entries d0 !! name) as [e|]; [|by intros [= <- <-]].
  destruct (bool_decide _); intros [= <- <-]; [done|]. split; cbn; [by rewrite E|lia].
Qed.
