(* ===== verification/CheckpointStoreSteps.v ===== *)
(** * The operations of the checkpoint store, whatever call fails *)

From S2P Require Import Prelude Text SkillTypes Receipt Ledger Json Checkpoint CheckpointStore CheckpointStoreInv.

(** ** From the directory to the store *)

Definition at_dir (P : Directory -> Prop) (x : SessionIndex) (max : Z) (s : CheckpointStore) : Prop :=
  P s.(ks_dir) /\ s.(ks_session_index) = x /\ s.(ks_max_file_bytes) = max.

Section Lifting.
Context {A : Type} (P : Directory -> Prop) (m : DirIO A) (Q : A -> Directory -> Prop) (F : FileError -> Directory -> Prop).
Variables (x : SessionIndex) (max : Z) (G : CheckpointStoreError -> CheckpointStore -> Prop).
Hypothesis Hm : triple P m Q F.

Lemma triple_on_dir :
  (forall e s, at_dir (F e) x max s -> G (io_error e) s) ->
  triple (at_dir P x max) (on_dir m) (fun a => at_dir (Q a) x max) G.
Proof.
  intros HG s r s' (Hp & Hx & Hmax). unfold on_dir. destruct (m (ks_dir s)) as [y d] eqn:E. intros [= <- <-].
  pose proof (Hm _ _ _ Hp E) as Hy. destruct y as [a|e]; cbn [map_err].
  - by split.
  - apply HG. by split.
Qed.

Lemma triple_try_dir :
  triple (at_dir P x max) (try_dir m) (fun r => at_dir (match r with Ok a => Q a | Err e => F e end) x max) G.
Proof.
  intros s r s' (Hp & Hx & Hmax). unfold try_dir. destruct (m (ks_dir s)) as [y d] eqn:E. intros [= <- <-].
  pose proof (Hm _ _ _ Hp E) as Hy. by destruct y.
Qed.
End Lifting.

Lemma quiet_index (s : CheckpointStore) : at_dir (quiet s.(ks_dir)) s.(ks_session_index) s.(ks_max_file_bytes) s.
Proof. by split. Qed.

Section Store.
Context `{Sha2, ReceiptCodec, CheckpointCodec}.

(** What was written is read back. *)
Class CheckpointCodecLaws := {
  checkpoint_roundtrip c b : validate_schema c = Ok tt -> checkpoint_bytes c = Ok b -> checkpoint_of_bytes b = Ok c;
}.

(** The checkpoint that the store has for a workflow. *)
Definition entry_checkpoint (max : Z) (id : WorkflowId) (e : Entry) : option WorkflowCheckpoint :=
  if readable max e then match decode_checkpoint e.(en_bytes) id with Ok c => Some c | Err _ => None end else None.

Definition stored (s : CheckpointStore) (id : WorkflowId) : option WorkflowCheckpoint :=
  s.(ks_dir).(kd_entries) !! CheckpointFile id ≫= entry_checkpoint s.(ks_max_file_bytes) id.

Lemma decode_facts b id c :
  decode_checkpoint b id = Ok c ->
  checkpoint_of_bytes b = Ok c /\ validate_schema c = Ok tt /\ c.(cp_workflow_id) = id.
Proof.
  unfold decode_checkpoint. intros E. apply rbind_ok in E as (c' & Ec & E). apply rbind_unit_ok in E as [Ev E].
  apply rbind_unit_ok in E as [Ei E]. injection E as <-. apply refuse_if_ok, negb_false_iff, N.eqb_eq in Ei.
  apply map_err_ok in Ec. by split_and!.
Qed.

Lemma decode_valid b id c :
  checkpoint_of_bytes b = Ok c -> validate_schema c = Ok tt -> c.(cp_workflow_id) = id -> decode_checkpoint b id = Ok c.
Proof. intros Eb Ev <-. unfold decode_checkpoint. rewrite Eb. cbn. rewrite Ev. cbn. by rewrite N.eqb_refl. Qed.

Lemma stored_facts s id c : stored s id = Some c -> validate_schema c = Ok tt /\ c.(cp_workflow_id) = id.
Proof.
  unfold stored, entry_checkpoint. intros E. apply bind_Some in E as (e & _ & E). destruct (readable _ e); [|done].
  destruct (decode_checkpoint (en_bytes e) id) as [c'|] eqn:Ed; [|done]. injection E as <-. by apply decode_facts in Ed as (_ & ? & ?).
Qed.

(** ** Reading *)

Section Reads.
Variable s0 : CheckpointStore.
Definition same_store (s : CheckpointStore) : Prop :=
  at_dir (quiet s0.(ks_dir)) s0.(ks_session_index) s0.(ks_max_file_bytes) s.

Lemma same_stored s id : same_store s -> stored s id = stored s0 id.
Proof. intros ((E & _) & _ & Em). unfold stored. by rewrite E, Em. Qed.

Lemma triple_read_bytes id :
  triple same_store (read_bytes id)
    (fun b s => same_store s /\ exists e, s0.(ks_dir).(kd_entries) !! CheckpointFile id = Some e
       /\ readable s0.(ks_max_file_bytes) e = true /\ b = e.(en_bytes))
    (fun error s => same_store s /\ forall id', error = StoreNotFound id' -> s0.(ks_dir).(kd_entries) !! CheckpointFile id = None).
Proof.
  unfold read_bytes. eapply triple_bind; [apply triple_get|]. intros s1 s r s' [Hs ->]. revert s r s' Hs.
  intros s r s' Hs. unfold sbind. destruct (try_dir _ s) as [y s1] eqn:E.
  assert (ks_max_file_bytes s = ks_max_file_bytes s0) as Em by apply Hs. rewrite Em in E.
  pose proof (triple_try_dir _ _ _ _ _ _ (fun _ _ => False)
    (triple_read (ks_dir s0) (CheckpointFile id) (ks_max_file_bytes s0)) s y s1 Hs E) as Hy.
  destruct y as [[b|error]|]; [..|done]; unfold slift; cbn [map_err]; intros [= <- <-].
  - destruct Hy as ((Hq & e & ?) & Hx & Hmx). split; [by split|]. by exists e.
  - destruct Hy as ((Hq & Hm) & Hx & Hmx). split; [by split|]. intros id'. destruct error; [by intros _; apply Hm|done].
Qed.

Lemma triple_load id :
  triple same_store (load id) (fun c s => same_store s /\ stored s0 id = Some c) (fun _ => same_store).
Proof.
  unfold load. intros s r s' Hs. unfold sbind. destruct (read_bytes id s) as [y s1] eqn:E.
  pose proof (triple_read_bytes id s y s1 Hs E) as Hy. destruct y as [b|error]; [|intros [= <- <-]; apply Hy].
  destruct Hy as [Hs1 (e & Ee & Hr & ->)]. unfold slift. intros [= <- <-].
  destruct (decode_checkpoint (en_bytes e) id) as [c|] eqn:Ed; [|done]. split; [done|].
  unfold stored, entry_checkpoint. rewrite Ee. cbn. by rewrite Hr, Ed.
Qed.
End Reads.

(** ** Writing a checkpoint *)

Section Writes.
Variables (s0 : CheckpointStore) (c : WorkflowCheckpoint) (nonce : Uuid).
Abbreviation path := (CheckpointFile c.(cp_workflow_id)).
Abbreviation temporary := (TemporaryFile c.(cp_workflow_id) nonce).
Abbreviation d0 := s0.(ks_dir).
Abbreviation x0 := s0.(ks_session_index).

(** The index is as it was, out of date, or has the new checkpoint. *)
Definition index_follows (b : bytes) (s : CheckpointStore) : Prop :=
  let x := s.(ks_session_index) in
  x = x0 \/ x = x0 <| sx_directory_version := None |>
  \/ (x0.(sx_directory_version) = Some d0.(kd_version) /\ published d0 temporary path b s.(ks_dir) /\ exists e v,
        s.(ks_dir).(kd_entries) !! path = Some e /\ x = index_update c path e x0 <| sx_directory_version := v |>
        /\ (v = x0.(sx_directory_version) \/ v = Some s.(ks_dir).(kd_version))).

Definition wrote (P : bytes -> Directory -> Prop) (s : CheckpointStore) : Prop :=
  exists b, checkpoint_bytes c = Ok b /\ blen b <= s0.(ks_max_file_bytes) /\ P b s.(ks_dir)
    /\ s.(ks_max_file_bytes) = s0.(ks_max_file_bytes) /\ index_follows b s.

(** The operation failed before or after the file was replaced. *)
Definition interrupted (_ : CheckpointStoreError) (s : CheckpointStore) : Prop :=
  same_store s0 s \/ wrote (replaces d0 temporary path) s.

Lemma published_replaces b d : published d0 temporary path b d -> replaces d0 temporary path b d.
Proof. by intros [? _]. Qed.

Lemma bounded_ok max b b' : bounded max b = Ok b' -> b' = b /\ blen b <= max.
Proof. unfold bounded. destruct (Z.ltb_spec max (blen b)); [done|]. by intros [= <-]. Qed.

(** After the file was replaced the index is brought up to date. *)
Lemma triple_reindex b x (before : Z) :
  checkpoint_bytes c = Ok b -> blen b <= s0.(ks_max_file_bytes) -> before = d0.(kd_version) -> x = x0 ->
  triple (at_dir (published d0 temporary path b) x s0.(ks_max_file_bytes))
    (do s <- sget;
     if bool_decide (s.(ks_session_index).(sx_directory_version) = Some before) then
       do e <- on_dir (metadata path);
       smodify (fun s => s <| ks_session_index := index_update c path e s.(ks_session_index) |>) ;;
       do after <- on_dir directory_version;
       smodify (fun s => s <| ks_session_index := s.(ks_session_index) <| sx_directory_version := Some after |> |>)
     else
       smodify (fun s => s <| ks_session_index := s.(ks_session_index) <| sx_directory_version := None |> |>))
    (fun _ => wrote (published d0 temporary path)) interrupted.
Proof.
  intros Eb Hb -> ->. eapply triple_bind; [apply triple_get|]. intros s1.
  intros s r s' [(Hp & Hx & Hm) ->]. rewrite Hx.
  destruct (bool_decide_reflect (sx_directory_version x0 = Some (kd_version d0))) as [Hv|Hv].
  2: { intros [= <- <-]. exists b. cbn. rewrite Hx. split_and!; try done. by right; left. }
  unfold sbind at 1. destruct (on_dir (metadata path) s) as [y s2] eqn:E1.
  pose proof (triple_on_dir _ _ _ _ x0 (ks_max_file_bytes s0)
    (fun _ s2 => at_dir (quiet (ks_dir s)) x0 (ks_max_file_bytes s0) s2)
    (triple_metadata (ks_dir s) path) (fun e s H => H) s y s2) as Hy. cbn beta in Hy.
  specialize (Hy (conj (dir_quiet_refl _) (conj Hx Hm)) E1).
  destruct y as [e|error].
  2: { intros [= <- <-]. right. destruct Hy as (Hq & Hx2 & Hm2). exists b. split_and!; try done.
       - apply published_replaces. by apply (published_quiet _ _ _ _ (ks_dir s)).
       - left. by rewrite Hx2. }
  destruct Hy as ((Hq & Ee) & Hx2 & Hm2). unfold sbind, smodify.
  set (s3 := s2 <| ks_session_index := _ |>).
  destruct (on_dir directory_version s3) as [z s4] eqn:E2.
  pose proof (triple_on_dir _ _ _ _ (ks_session_index s3) (ks_max_file_bytes s0)
    (fun _ s4 => at_dir (quiet (ks_dir s3)) (ks_session_index s3) (ks_max_file_bytes s0) s4)
    (triple_version (ks_dir s3)) (fun e s H => H) s3 z s4) as Hz. cbn beta in Hz.
  specialize (Hz (conj (dir_quiet_refl _) (conj eq_refl Hm2)) E2).
  assert (forall s5, quiet (ks_dir s2) (ks_dir s5) -> published d0 temporary path b (ks_dir s5)
            /\ kd_entries (ks_dir s5) !! path = Some e) as H5.
  { intros s5 Hq5. assert (quiet (ks_dir s) (ks_dir s5)) as Hq' by by eapply quiet_trans.
    split; [by apply (published_quiet _ _ _ _ (ks_dir s))|]. destruct Hq' as (-> & _). done. }
  destruct z as [after|error]; intros [= <- <-].
  - destruct Hz as ((Hq4 & Ha) & Hx4 & Hm4). destruct (H5 s4 Hq4) as [Hp4 He4]. exists b. cbn. split_and!; try done.
    right; right. split; [done|]. split; [done|]. exists e, (Some after). split_and!; [done| |].
    + rewrite Hx4. cbn. by rewrite Hx2.
    + right. rewrite Ha. destruct Hq4 as (_ & V & _). cbn in V |- *. by rewrite V.
  - right. destruct Hz as (Hq4 & Hx4 & Hm4). destruct (H5 s4 Hq4) as [Hp4 He4]. exists b. split_and!; try done.
    { by apply published_replaces. }
    right; right. split; [done|]. split; [done|]. exists e, (sx_directory_version x0). split_and!; [done| |by left].
    rewrite Hx4. cbn. by rewrite Hx2.
Qed.

Lemma triple_write_unlocked :
  triple (same_store s0) (write_unlocked c nonce) (fun _ => wrote (published d0 temporary path)) interrupted.
Proof.
  unfold write_unlocked.
  eapply (triple_bind _ _ (fun v s => same_store s0 s /\ v = kd_version d0)).
  { eapply triple_weaken; [apply (triple_on_dir _ _ _ _ x0 (ks_max_file_bytes s0) (interrupted) (triple_version d0))|done|].
    - intros e s Hs. by left.
    - intros v s ((Hq & Hv) & ?). by split. }
  intros before. apply triple_pure. intros ->. eapply triple_bind; [apply triple_get|]. intros s1.
  eapply triple_weaken; [apply (triple_pure _ (ks_max_file_bytes s1 = ks_max_file_bytes s0) (same_store s0))| |exact (fun _ _ HQ => HQ)].
  2: { intros s [Hs ->]. split; [done|apply Hs]. }
  intros Em. rewrite Em.
  destruct (checkpoint_bytes c) as [b0|m] eqn:Eb; cbn [rbind map_err].
  2: { eapply triple_bind; [apply (triple_lift _ _ _ (fun _ _ => False)); intros s Hs; by left|]. by intros b s r s' []. }
  destruct (bounded (ks_max_file_bytes s0) b0) as [b|m] eqn:Ebd; cbn [map_err].
  2: { eapply triple_bind; [apply (triple_lift _ _ _ (fun _ _ => False)); intros s Hs; by left|]. by intros b s r s' []. }
  apply bounded_ok in Ebd as [-> Hlen].
  eapply (triple_bind _ _ (fun b s => same_store s0 s /\ b = b0)); [by apply triple_lift|].
  intros b. apply triple_pure. intros ->.
  eapply triple_bind; [apply (triple_on_dir _ _ _ _ x0 (ks_max_file_bytes s0) interrupted (triple_replace d0 temporary path b0 ltac:(done)))|].
  { intros e s (Hr & Hx & Hm). right. exists b0. split_and!; try done. by left. }
  intros []. by apply triple_reindex.
Qed.
End Writes.

Lemma same_refl s : same_store s s.
Proof. by split. Qed.

(** ** Saving *)

Section Saves.
Context `{!CheckpointCodecLaws}.
Variable s0 : CheckpointStore.

(** A checkpoint may be written: nothing is there, or one of the same session. *)
Definition admissible (c : WorkflowCheckpoint) : Prop :=
  match s0.(ks_dir).(kd_entries) !! CheckpointFile c.(cp_workflow_id) with
  | None => True
  | Some _ => exists c0, stored s0 c.(cp_workflow_id) = Some c0 /\ c0.(cp_session_id) = c.(cp_session_id)
  end.

(** Nothing happened, or a valid checkpoint was written in place of one of its session. *)
Definition saved_or_kept (c : WorkflowCheckpoint) (nonce : Uuid) (s : CheckpointStore) : Prop :=
  same_store s0 s
  \/ (validate_schema c = Ok tt /\ admissible c
      /\ wrote s0 c nonce (replaces s0.(ks_dir) (TemporaryFile c.(cp_workflow_id) nonce) (CheckpointFile c.(cp_workflow_id))) s).

Definition saved (c : WorkflowCheckpoint) (nonce : Uuid) (s : CheckpointStore) : Prop :=
  validate_schema c = Ok tt /\ admissible c
  /\ wrote s0 c nonce (published s0.(ks_dir) (TemporaryFile c.(cp_workflow_id) nonce) (CheckpointFile c.(cp_workflow_id))) s.

Lemma saved_kept c nonce s : saved c nonce s -> saved_or_kept c nonce s.
Proof.
  intros (Hv & Ha & b & ? & ? & Hp & ? & ?). right. split_and!; try done. exists b. split_and!; try done.
  by apply published_replaces.
Qed.

Lemma triple_write_valid c nonce :
  validate_schema c = Ok tt -> admissible c ->
  triple (same_store s0) (write_unlocked c nonce) (fun _ => saved c nonce) (fun _ => saved_or_kept c nonce).
Proof.
  intros Hv Ha s r s' Hs E. pose proof (triple_write_unlocked s0 c nonce s r s' Hs E) as Hr.
  destruct r as [[]|e]; [by split_and!|]. destruct Hr as [?|?]; [by left|by right].
Qed.

Lemma triple_check_existing c :
  triple (same_store s0) (check_existing c) (fun _ s => same_store s0 s /\ admissible c) (fun _ => same_store s0).
Proof.
  intros s r s' Hs. unfold check_existing, sbind at 1, try.
  destruct (read_bytes (cp_workflow_id c) s) as [y s1] eqn:E1.
  pose proof (triple_read_bytes s0 (cp_workflow_id c) s y s1 Hs E1) as Hy. destruct y as [b|error].
  - destruct Hy as [Hs1 (e & Ee & Hr & ->)]. unfold sbind, slift.
    destruct (decode_checkpoint (en_bytes e) (cp_workflow_id c)) as [c0|] eqn:Ed; [|by intros [= <- <-]].
    destruct (N.eqb_spec (cp_session_id c0) (cp_session_id c)); intros [= <- <-]; [|done]. split; [done|].
    unfold admissible. rewrite Ee. exists c0. split; [|done]. unfold stored, entry_checkpoint. rewrite Ee. cbn. by rewrite Hr, Ed.
  - destruct Hy as [Hs1 Hn]. destruct error; intros [= <- <-]; try done. split; [done|].
    unfold admissible. by rewrite (Hn _ eq_refl).
Qed.

Lemma triple_save c nonce :
  triple (same_store s0) (save c nonce) (fun _ => saved c nonce) (fun _ => saved_or_kept c nonce).
Proof.
  unfold save. eapply (triple_bind _ _ (fun _ s => same_store s0 s /\ validate_schema c = Ok tt)).
  { apply triple_lift. intros s Hs. destruct (validate_schema c) as [[]|]; [done|by left]. }
  intros []. apply triple_pure. intros Hv. eapply (triple_bind _ _ (fun _ s => same_store s0 s /\ admissible c)).
  { intros s r s' Hs E. pose proof (triple_check_existing c s r s' Hs E) as Hc. destruct r; [done|by left]. }
  intros []. apply triple_pure. intros Ha. by apply triple_write_valid.
Qed.

(** ** Snapshots *)

Lemma triple_lock id :
  triple (same_store s0) (lock_snapshot id)
    (fun k s => same_store s0 s /\ stored s0 id = Some k.(lk_checkpoint)) (fun _ => same_store s0).
Proof.
  intros s r s' Hs. unfold lock_snapshot, sbind. destruct (read_bytes id s) as [y s1] eqn:E1.
  pose proof (triple_read_bytes s0 id s y s1 Hs E1) as Hy. destruct y as [b|error]; [|intros [= <- <-]; apply Hy].
  destruct Hy as [Hs1 (e & Ee & Hr & ->)]. unfold slift.
  destruct (decode_checkpoint (en_bytes e) id) as [c|] eqn:Ed; [|by intros [= <- <-]].
  destruct (checkpoint_authority_digest c); intros [= <- <-]; [|done]. split; [done|]. cbn.
  unfold stored, entry_checkpoint. rewrite Ee. cbn. by rewrite Hr, Ed.
Qed.

Lemma triple_verify k : triple (same_store s0) (verify_unchanged k) (fun _ => same_store s0) (fun _ => same_store s0).
Proof.
  intros s r s' Hs. unfold verify_unchanged, sbind. destruct (read_bytes _ s) as [y s1] eqn:E1.
  pose proof (triple_read_bytes s0 _ s y s1 Hs E1) as Hy. destruct y as [b|error]; [|intros [= <- <-]; apply Hy].
  destruct Hy as [Hs1 _]. unfold slift, refuse_if. destruct (negb _); by intros [= <- <-].
Qed.

(** The snapshot is what the store has. *)
Definition current_snapshot (id : WorkflowId) (k : LockedCheckpointSnapshot) : Prop :=
  stored s0 id = Some k.(lk_checkpoint).

Lemma current_admissible id k c :
  current_snapshot id k -> c.(cp_workflow_id) = id -> c.(cp_session_id) = k.(lk_checkpoint).(cp_session_id) -> admissible c.
Proof.
  intros Hk Hid Hs. unfold admissible. rewrite Hid. destruct (kd_entries _ !! _); [|done]. by exists (lk_checkpoint k).
Qed.

Lemma triple_save_if_unchanged id k c nonce :
  current_snapshot id k ->
  triple (same_store s0) (save_if_unchanged k c nonce)
    (fun k' s => saved c nonce s /\ c.(cp_workflow_id) = id /\ k'.(lk_checkpoint) = c)
    (fun _ s => saved_or_kept c nonce s).
Proof.
  intros Hk. pose proof (stored_facts _ _ _ Hk) as [_ Hid]. unfold save_if_unchanged.
  eapply (triple_bind _ _ (fun _ => same_store s0)).
  { intros s r s' Hs E. pose proof (triple_verify k s r s' Hs E) as Hv. destruct r; [done|by left]. }
  intros []. eapply (triple_bind _ _ (fun _ s => same_store s0 s /\ cp_workflow_id c = id)).
  { apply triple_lift. intros s Hs. rewrite Hid. destruct (N.eqb_spec (cp_workflow_id c) id); cbn; [done|by left]. }
  intros []. apply triple_pure. intros Ew.
  eapply (triple_bind _ _ (fun _ s => same_store s0 s /\ cp_session_id c = cp_session_id (lk_checkpoint k))).
  { apply triple_lift. intros s Hs. destruct (N.eqb_spec (cp_session_id c) (cp_session_id (lk_checkpoint k))); cbn; [done|by left]. }
  intros []. apply triple_pure. intros Es.
  eapply (triple_bind _ _ (fun _ s => same_store s0 s /\ validate_schema c = Ok tt)).
  { apply triple_lift. intros s Hs. destruct (validate_schema c) as [[]|]; [done|by left]. }
  intros []. apply triple_pure. intros Hv.
  eapply triple_bind; [apply triple_write_valid; [done|by eapply current_admissible]|]. intros [].
  eapply (triple_bind _ _ (fun _ => saved c nonce)).
  { apply triple_lift. intros s Hs. destruct (map_err _ (checkpoint_bytes c)); [done|by apply saved_kept]. }
  intros b. eapply (triple_bind _ _ (fun _ => saved c nonce)).
  { apply triple_lift. intros s Hs. destruct (checkpoint_authority_digest c); [done|by apply saved_kept]. }
  intros a. by apply triple_ret.
Qed.

(** ** What a write leaves *)

Lemma written_decodes c max m b :
  validate_schema c = Ok tt -> checkpoint_bytes c = Ok b -> blen b <= max ->
  holds_bytes m (CheckpointFile c.(cp_workflow_id)) b ->
  m !! CheckpointFile c.(cp_workflow_id) ≫= entry_checkpoint max c.(cp_workflow_id) = Some c.
Proof.
  intros Hv Eb Hlen (e & -> & Hk & Hl & He). cbn. unfold entry_checkpoint, readable. rewrite Hk, Hl, He.
  rewrite bool_decide_eq_true_2 by done. destruct (Z.ltb_spec max (blen b)); [lia|]. cbn.
  by rewrite (decode_valid b (cp_workflow_id c) c (checkpoint_roundtrip c b Hv Eb) Hv eq_refl).
Qed.

Lemma saved_stored c nonce s : saved c nonce s -> stored s c.(cp_workflow_id) = Some c.
Proof.
  intros (Hv & _ & b & Eb & Hlen & (_ & Hh & _) & Hm & _). unfold stored. rewrite Hm. by apply (written_decodes c _ _ b).
Qed.

(** Other files stay, and the workflow's own is kept or replaced as a whole. *)
Lemma saved_or_kept_stored c nonce s :
  saved_or_kept c nonce s ->
  (forall name, name <> CheckpointFile c.(cp_workflow_id) -> name <> TemporaryFile c.(cp_workflow_id) nonce ->
     s.(ks_dir).(kd_entries) !! name = s0.(ks_dir).(kd_entries) !! name)
  /\ (forall id, id <> c.(cp_workflow_id) -> stored s id = stored s0 id)
  /\ (stored s c.(cp_workflow_id) = stored s0 c.(cp_workflow_id)
      \/ (stored s c.(cp_workflow_id) = Some c /\ validate_schema c = Ok tt /\ admissible c)).
Proof.
  intros [Hs|(Hv & Ha & b & Eb & Hlen & (_ & Ho & Hd) & Hm & _)].
  - split_and!; [|intros; by apply same_stored|left; by apply same_stored]. intros. by destruct Hs as ((-> & _) & _).
  - split_and!; [intros; by apply Ho| |].
    + intros id Hne. unfold stored. by rewrite Hm, Ho by congruence.
    + destruct Hd as [Hd|Hh]; [left; unfold stored; by rewrite Hm, Hd|right]. split_and!; [|done|done].
      unfold stored. rewrite Hm. by apply (written_decodes c _ _ b).
Qed.
End Saves.

(** ** Removing *)

Section Removes.
Variables (s0 : CheckpointStore) (id : WorkflowId).
Abbreviation d0 := s0.(ks_dir).
Abbreviation x0 := s0.(ks_session_index).

Definition index_drops (s : CheckpointStore) : Prop :=
  let x := s.(ks_session_index) in
  x = x0 \/ x = x0 <| sx_directory_version := None |>
  \/ (x0.(sx_directory_version) = Some d0.(kd_version) /\ gone d0 (CheckpointFile id) s.(ks_dir) /\ exists v,
        x = index_remove id x0 <| sx_directory_version := v |>
        /\ (v = x0.(sx_directory_version) \/ v = Some s.(ks_dir).(kd_version))).

Definition dropped (s : CheckpointStore) : Prop :=
  gone d0 (CheckpointFile id) s.(ks_dir) /\ s.(ks_max_file_bytes) = s0.(ks_max_file_bytes) /\ index_drops s.

Lemma triple_remove :
  triple (same_store s0) (remove id)
    (fun _ s => dropped s \/ (same_store s0 s /\ d0.(kd_entries) !! CheckpointFile id = None))
    (fun _ s => dropped s \/ same_store s0 s).
Proof.
  unfold remove. eapply (triple_bind _ _ (fun v s => same_store s0 s /\ v = kd_version d0)).
  { eapply triple_weaken; [apply (triple_on_dir _ _ _ _ x0 (ks_max_file_bytes s0) _ (triple_version d0))|done|].
    - intros e s Hs. by right.
    - intros v s ((Hq & Hv) & ?). by split. }
  intros before. apply triple_pure. intros ->.
  eapply triple_bind; [apply (triple_try_dir _ _ _ _ x0 (ks_max_file_bytes s0) _ (triple_remove_file d0 (CheckpointFile id)))|].
  intros [[]|error].
  2: { destruct error; [apply triple_ret|apply triple_fail].
       - intros s ((Hq & Hn) & Hx). right. split; [by split|by apply Hn].
       - intros s ((Hq & _) & Hx). right. by split. }
  eapply triple_bind.
  { apply (triple_on_dir _ _ _ _ x0 (ks_max_file_bytes s0) _ (triple_sync _ (gone_quiet d0 (CheckpointFile id)))).
    intros e s (Hg & Hx & Hm). left. split_and!; try done. by left. }
  intros []. eapply triple_bind; [apply triple_get|]. intros s1 s r s' [(Hg & Hx & Hm) ->]. rewrite Hx.
  destruct (bool_decide_reflect (sx_directory_version x0 = Some (kd_version d0))) as [Hv|Hv].
  2: { intros [= <- <-]. left. split_and!; try done. right; left. cbn. by rewrite Hx. }
  unfold sbind, smodify. set (s2 := s <| ks_session_index := _ |>).
  destruct (on_dir directory_version s2) as [z s3] eqn:E2.
  pose proof (triple_on_dir _ _ _ _ (ks_session_index s2) (ks_max_file_bytes s0)
    (fun _ s3 => at_dir (quiet (ks_dir s2)) (ks_session_index s2) (ks_max_file_bytes s0) s3)
    (triple_version (ks_dir s2)) (fun e s H => H) s2 z s3) as Hz. cbn beta in Hz.
  specialize (Hz (conj (dir_quiet_refl _) (conj eq_refl Hm)) E2).
  destruct z as [after|error]; intros [= <- <-].
  - destruct Hz as ((Hq & Ha) & Hx3 & Hm3). left. apply (gone_quiet _ _ _ _ Hq) in Hg. split_and!; try done.
    right; right. split_and!; try done. exists (Some after). split; [cbn; by rewrite Hx3; cbn; rewrite Hx|].
    right. rewrite Ha. destruct Hq as (_ & V & _). cbn in V |- *. by rewrite V.
  - destruct Hz as (Hq & Hx3 & Hm3). left. apply (gone_quiet _ _ _ _ Hq) in Hg. split_and!; try done.
    right; right. split_and!; try done. exists (sx_directory_version x0). split; [|by left].
    rewrite Hx3. cbn. by rewrite Hx.
Qed.

Lemma dropped_stored s : dropped s -> stored s id = None /\ forall id', id' <> id -> stored s id' = stored s0 id'.
Proof.
  intros ((E & _) & Hm & _). unfold stored. rewrite E, Hm, lookup_delete_eq. split; [done|].
  intros id' Hne. by rewrite lookup_delete_ne by congruence.
Qed.

(** ** Skill decisions *)

(** Nothing but the decision of this workflow has changed. *)
Definition elsewhere (s : CheckpointStore) : Prop :=
  moved d0 s.(ks_dir) /\ s.(ks_session_index) = x0 /\ s.(ks_max_file_bytes) = s0.(ks_max_file_bytes)
  /\ (forall name, name <> IssuanceFile id -> (forall nonce, name <> TemporaryFile id nonce) ->
        s.(ks_dir).(kd_entries) !! name = d0.(kd_entries) !! name).

Lemma same_elsewhere s : same_store s0 s -> elsewhere s.
Proof. intros (Hq & Hx & Hm). split_and!; try done; [by apply quiet_moved|]. by destruct Hq as (-> & _). Qed.

Lemma elsewhere_stored s id' : elsewhere s -> stored s id' = stored s0 id'.
Proof. intros (_ & _ & Hm & Ho). unfold stored. by rewrite Hm, Ho. Qed.

Lemma triple_load_issuance :
  triple (same_store s0) (load_skill_issuance id) (fun _ => same_store s0) (fun _ => same_store s0).
Proof.
  unfold load_skill_issuance. eapply triple_bind; [apply triple_get|]. intros s1 s r s' [Hs ->]. unfold sbind.
  destruct (try_dir _ s) as [y s1] eqn:E. assert (ks_max_file_bytes s = ks_max_file_bytes s0) as Em by apply Hs.
  rewrite Em in E.
  pose proof (triple_try_dir _ _ _ _ _ _ (fun _ _ => False)
    (triple_read (ks_dir s0) (IssuanceFile id) (ks_max_file_bytes s0)) s y s1 Hs E) as Hy.
  destruct y as [[b|error]|]; [..|done]; unfold slift.
  - assert (same_store s0 s1) as Hs1 by (destruct Hy as ((Hq & _) & ?); by split).
    destruct (issuance_of_bytes b) as [i|]; cbn; [|by intros [= <- <-]].
    destruct (validate_skill_issuance_identity id i) as [[]|]; by intros [= <- <-].
  - assert (same_store s0 s1) as Hs1 by (destruct Hy as ((Hq & _) & ?); by split).
    destruct error; by intros [= <- <-].
Qed.

Lemma replaced_elsewhere nonce b s :
  at_dir (replaces d0 (TemporaryFile id nonce) (IssuanceFile id) b) x0 s0.(ks_max_file_bytes) s -> elsewhere s.
Proof. intros ((Hm & Ho & _) & Hx & Hmx). split_and!; try done. intros name Hn Ht. by apply Ho. Qed.

Lemma triple_save_issuance i nonce :
  triple (same_store s0) (save_skill_issuance id i nonce)
    (fun _ s => elsewhere s /\ exists b, issuance_bytes i = Ok b /\ holds_bytes s.(ks_dir).(kd_entries) (IssuanceFile id) b)
    (fun _ => elsewhere).
Proof.
  unfold save_skill_issuance. eapply (triple_bind _ _ (fun _ => same_store s0)).
  { apply triple_lift. intros s Hs. destruct (validate_skill_issuance_identity id i) as [[]|]; [done|by apply same_elsewhere]. }
  intros []. eapply (triple_bind _ _ (fun _ => same_store s0)).
  { intros s r s' Hs E. pose proof (triple_load_issuance s r s' Hs E). destruct r; [done|by apply same_elsewhere]. }
  intros ?. eapply triple_bind; [apply triple_get|]. intros s1.
  eapply (triple_bind _ _ (fun b s => same_store s0 s /\ issuance_bytes i = Ok b)).
  { apply triple_lift. intros s [Hs ->]. destruct (issuance_bytes i) as [b0|]; cbn; [|by apply same_elsewhere].
    destruct (bounded _ b0) as [b|] eqn:Eb; cbn; [|by apply same_elsewhere]. apply bounded_ok in Eb as [-> _]. done. }
  intros b. apply triple_pure. intros Eb. cbv zeta.
  assert (TemporaryFile id nonce <> IssuanceFile id) as Hne by done.
  assert (triple (quiet d0) (create_new (TemporaryFile id nonce) ;; publish_file (TemporaryFile id nonce) (IssuanceFile id) b)
    (fun _ => published d0 (TemporaryFile id nonce) (IssuanceFile id) b)
    (failed_replace d0 (TemporaryFile id nonce) (IssuanceFile id) b)) as Hp.
  { eapply triple_bind; [by apply triple_create|]. intros []. by apply triple_publish_file. }
  eapply triple_bind; [apply (triple_try_dir _ _ _ _ x0 (ks_max_file_bytes s0) _ Hp)|]. intros [[]|error].
  - apply triple_ret. intros s ((Hr & Hh & _) & Hx & Hm). split; [|by exists b].
    by apply (replaced_elsewhere nonce b).
  - intros s r s' (Hr & Hx & Hm). unfold sbind, try_dir.
    destruct (remove_file (TemporaryFile id nonce) (ks_dir s)) as [y d] eqn:E. intros [= <- <-].
    apply (replaced_elsewhere nonce b). split; [|done]. exact (remove_temporary d0 _ _ b Hne (ks_dir s) y d Hr E).
Qed.

Lemma triple_remove_issuance :
  triple (same_store s0) (remove_skill_issuance id) (fun _ => elsewhere) (fun _ => elsewhere).
Proof.
  assert (forall s, at_dir (gone d0 (IssuanceFile id)) x0 (ks_max_file_bytes s0) s -> elsewhere s) as Hg.
  { intros s (Hg & Hx & Hm). split_and!; try done; [by eapply gone_moved|]. destruct Hg as [-> _].
    intros name Hn _. by rewrite lookup_delete_ne. }
  unfold remove_skill_issuance.
  eapply triple_bind; [apply (triple_try_dir _ _ _ _ x0 (ks_max_file_bytes s0) _ (triple_remove_file d0 (IssuanceFile id)))|].
  intros [[]|[]].
  - eapply triple_weaken;
      [apply (triple_on_dir _ _ _ _ x0 (ks_max_file_bytes s0) _ (triple_sync _ (gone_quiet d0 (IssuanceFile id))))|done|].
    + intros e. apply Hg.
    + intros a. apply Hg.
  - apply triple_ret. intros s ((Hq & _) & Hx). by apply same_elsewhere.
  - apply triple_fail. intros s ((Hq & _) & Hx). by apply same_elsewhere.
Qed.
End Removes.
End Store.
