(* ===== verification/CheckpointStoreList.v ===== *)
(** * Listing the checkpoints of a session

    Whatever calls fail, a listing holds only checkpoints that are stored, newest first
    and within the limit.  While no call of a listing fails, the index is exact whenever its
    version is the directory's, and a listing leaves out only what is not newer. *)

From S2P Require Import Prelude Text SkillTypes Receipt Ledger Json Checkpoint CheckpointStore CheckpointStoreInv CheckpointStoreSteps.

#[export] Instance newer_ref_trans : Transitive newer_ref.
Proof. intros a b c. unfold newer_ref. lia. Qed.
#[export] Instance newer_ref_total : Total newer_ref.
Proof. intros a b. unfold newer_ref. lia. Qed.
#[export] Instance newer_trans : Transitive newer.
Proof. intros a b c. unfold newer. lia. Qed.
#[export] Instance newer_total : Total newer.
Proof. intros a b. unfold newer. lia. Qed.

Lemma sorted_filter {A} (R : relation A) (P : A -> Prop) `{!forall x, Decision (P x)} l :
  StronglySorted R l -> StronglySorted R (filter P l).
Proof.
  induction 1 as [|a l Hl IH Ha]; [constructor|]. rewrite filter_cons. destruct (decide (P a)); [|done].
  constructor; [done|]. rewrite Forall_forall in Ha |- *. intros x Hx. apply list_elem_of_filter in Hx as [_ Hx]. by apply Ha.
Qed.

Lemma NoDup_fmap_filter {A B} (f : A -> B) (P : A -> Prop) `{!forall x, Decision (P x)} l :
  NoDup (f <$> l) -> NoDup (f <$> filter P l).
Proof.
  induction l as [|a l IH]; [done|]. rewrite fmap_cons. intros [Ha Hl]%NoDup_cons. rewrite filter_cons.
  destruct (decide (P a)); [|by apply IH]. rewrite fmap_cons. constructor; [|by apply IH].
  intros (b & E & Hb)%list_elem_of_fmap. apply Ha. rewrite E. apply list_elem_of_fmap_2. by apply list_elem_of_filter in Hb as [_ ?].
Qed.

Section Listing.
Context `{Sha2, ReceiptCodec, CheckpointCodec}.

Lemma accepted_decode id b c : accepted (CheckpointFile id) b = Some c <-> decode_checkpoint b id = Ok c.
Proof.
  unfold accepted. split.
  - destruct (checkpoint_of_bytes b) as [c'|] eqn:E; [|done]. destruct (_ && _) eqn:Ec; [|done]. intros [= ->].
    apply andb_prop in Ec as [Ev Ei]. apply bool_decide_eq_true in Ei. injection Ei as ->.
    apply (decode_valid b _ c E); [|done]. by destruct (validate_schema c) as [[]|].
  - intros E. apply decode_facts in E as (-> & Ev & <-). by rewrite Ev, bool_decide_eq_true_2.
Qed.

Lemma candidate_decode session_id r b c :
  of_candidate session_id r b = Some c <-> decode_checkpoint b r.(rf_workflow_id) = Ok c /\ c.(cp_session_id) = session_id.
Proof.
  unfold of_candidate. split.
  - destruct (checkpoint_of_bytes b) as [c'|] eqn:E; [|done]. destruct (_ && _) eqn:Ec; [|done]. intros [= ->].
    apply andb_prop in Ec as [Ec Ev], Ec as [Es Ew]. apply N.eqb_eq in Es, Ew. split; [|done].
    apply (decode_valid b _ c E); [|done]. by destruct (validate_schema c) as [[]|].
  - intros [E Es]. apply decode_facts in E as (-> & Ev & Ew). by rewrite Ev, <- Es, Ew, !N.eqb_refl.
Qed.

(** ** With faults *)

Section Sound.
Variable s0 : CheckpointStore.

Definition well_placed (x : SessionIndex) : Prop :=
  forall session_id refs r, x.(sx_sessions) !! session_id = Some refs -> r ∈ refs ->
    r.(rf_path) = CheckpointFile r.(rf_workflow_id).

(** The files are as they were, and the index names them rightly. *)
Definition browsing (s : CheckpointStore) : Prop :=
  quiet s0.(ks_dir) s.(ks_dir) /\ s.(ks_max_file_bytes) = s0.(ks_max_file_bytes) /\ well_placed s.(ks_session_index).

Abbreviation safely := (fun (_ : CheckpointStoreError) s => browsing s).

Lemma browse_try {A} (m : DirIO A) (Q : A -> Directory -> Prop) (F : FileError -> Directory -> Prop) :
  triple (quiet s0.(ks_dir)) m Q F ->
  (forall a d, Q a d -> quiet s0.(ks_dir) d) -> (forall e d, F e d -> quiet s0.(ks_dir) d) ->
  triple browsing (try_dir m)
    (fun r s => browsing s /\ match r with Ok a => Q a s.(ks_dir) | Err e => F e s.(ks_dir) end) safely.
Proof.
  intros Hm HQ HF s r s' (Hq & Hmx & Hw). unfold try_dir. destruct (m (ks_dir s)) as [y d] eqn:E. intros [= <- <-].
  pose proof (Hm _ _ _ Hq E) as Hy. cbn. destruct y as [a|e].
  - split; [|done]. split; [by apply (HQ a)|done].
  - split; [|done]. split; [by apply (HF e)|done].
Qed.

Lemma browse_on {A} (m : DirIO A) :
  triple (quiet s0.(ks_dir)) m (fun _ => quiet s0.(ks_dir)) (fun _ => quiet s0.(ks_dir)) ->
  triple browsing (on_dir m) (fun _ => browsing) safely.
Proof.
  intros Hm s r s' (Hq & Hmx & Hw). unfold on_dir. destruct (m (ks_dir s)) as [y d] eqn:E. intros [= <- <-].
  pose proof (Hm _ _ _ Hq E) as Hy. by destruct y.
Qed.

Lemma browse_call : triple browsing (on_dir dir_call) (fun _ => browsing) safely.
Proof. apply browse_on, triple_dir_call. Qed.

Lemma browse_version : triple browsing (on_dir directory_version) (fun _ => browsing) safely.
Proof.
  apply browse_on. eapply triple_weaken; [apply triple_version|done|]. by intros v d [? _].
Qed.

Lemma browse_metadata name :
  triple browsing (try_dir (metadata name))
    (fun r s => browsing s /\ match r with Ok e => s0.(ks_dir).(kd_entries) !! name = Some e | Err _ => True end) safely.
Proof.
  eapply triple_weaken; [apply (browse_try _ _ _ (triple_metadata (ks_dir s0) name))|done|].
  - by intros e d [? _].
  - done.
  - intros r s [Hs Hr]. split; [done|]. destruct r; [apply Hr|done].
Qed.

Lemma browse_read name :
  triple browsing (do s <- sget; try_dir (read_regular_file name s.(ks_max_file_bytes)))
    (fun r s => browsing s /\ match r with
                              | Ok b => exists e, s0.(ks_dir).(kd_entries) !! name = Some e
                                          /\ readable s0.(ks_max_file_bytes) e = true /\ b = e.(en_bytes)
                              | Err _ => True
                              end) safely.
Proof.
  eapply triple_bind; [apply triple_get|]. intros s1 s r s' [Hs ->]. assert (ks_max_file_bytes s = ks_max_file_bytes s0) as -> by apply Hs.
  revert s r s' Hs. eapply triple_weaken; [apply (browse_try _ _ _ (triple_read (ks_dir s0) name (ks_max_file_bytes s0)))|done|].
  - by intros b d [? _].
  - by intros e d [? _].
  - intros r s [Hs Hr]. split; [done|]. destruct r; [apply Hr|done].
Qed.

(** The read is a call of its own. *)
Lemma read_bind {B} name (k : result bytes FileError -> StoreIO B) s :
  (do s <- sget; do r <- try_dir (read_regular_file name s.(ks_max_file_bytes)); k r) s
  = (do r <- (do s <- sget; try_dir (read_regular_file name s.(ks_max_file_bytes))); k r) s.
Proof. done. Qed.

Lemma well_placed_update c id e x :
  well_placed x -> c.(cp_workflow_id) = id -> well_placed (index_update c (CheckpointFile id) e x).
Proof.
  intros Hx Hid sid refs r. cbn. destruct (decide (sid = cp_session_id c)) as [->|Hne].
  - rewrite lookup_insert_eq. intros [= <-]. rewrite merge_sort_Permutation. intros [Hr|Hr]%elem_of_app.
    + apply list_elem_of_filter in Hr as [_ Hr]. destruct (sx_sessions x !! cp_session_id c) as [refs|] eqn:E;
        [by apply (Hx (cp_session_id c) refs)|by apply elem_of_nil in Hr].
    + apply list_elem_of_singleton in Hr as ->. cbn. by rewrite Hid.
  - rewrite lookup_insert_ne by done. apply Hx.
Qed.

Lemma well_placed_push sid r x :
  well_placed x -> r.(rf_path) = CheckpointFile r.(rf_workflow_id) -> well_placed (push_ref sid r x).
Proof.
  intros Hx Hr sid' refs r'. cbn. destruct (decide (sid' = sid)) as [->|Hne].
  - rewrite lookup_insert_eq. intros [= <-] [Hi|Hi]%elem_of_app.
    + destruct (sx_sessions x !! sid) as [refs|] eqn:E; [by apply (Hx sid refs)|by apply elem_of_nil in Hi].
    + by apply list_elem_of_singleton in Hi as ->.
  - rewrite lookup_insert_ne by done. apply Hx.
Qed.

Lemma well_placed_sessions x x' : x'.(sx_sessions) = x.(sx_sessions) -> well_placed x -> well_placed x'.
Proof. intros E Hx sid refs r. rewrite E. apply Hx. Qed.

Lemma browse_rebuild_entry name x :
  well_placed x -> triple browsing (rebuild_entry name x) (fun x' s => browsing s /\ well_placed x') safely.
Proof.
  intros Hx. unfold rebuild_entry. destruct name as [id| | |]; try (by apply triple_ret).
  eapply triple_bind; [apply browse_metadata|]. intros [e|]; [|by apply triple_ret; intros s [? _]]. cbv zeta.
  intros s r s' [Hs He]. rewrite read_bind. revert s r s' Hs. eapply triple_bind; [apply browse_read|].
  intros r. apply triple_ret. intros s [Hs _]. split; [done|].
  assert (well_placed (x <| sx_rejected := <[CheckpointFile id := FileVersion_from_metadata e]> x.(sx_rejected) |>)) as Hx'
    by exact Hx.
  destruct r as [b|]; [|exact Hx']. destruct (accepted (CheckpointFile id) b) as [c|] eqn:Ea; [|exact Hx'].
  apply well_placed_push; [exact Hx'|]. apply accepted_decode, decode_facts in Ea as (_ & _ & Ei). cbn. by rewrite Ei.
Qed.

Lemma browse_rebuild_entries names x :
  well_placed x -> triple browsing (rebuild_entries names x) (fun x' s => browsing s /\ well_placed x') safely.
Proof.
  revert x. induction names as [|name names IH]; intros x Hx; cbn [rebuild_entries].
  { eapply triple_bind; [apply browse_call|]. intros []. by apply triple_ret. }
  eapply triple_bind; [apply browse_call|]. intros []. eapply triple_bind; [by apply browse_rebuild_entry|].
  intros x'. apply triple_pure. apply IH.
Qed.

Lemma browse_rebuild before : triple browsing (rebuild_index before) (fun _ => browsing) safely.
Proof.
  unfold rebuild_index. eapply triple_bind; [apply browse_call|]. intros [].
  eapply triple_bind; [apply triple_get|]. intros s1. eapply triple_weaken; [|by intros s [Hs _]; exact Hs|exact (fun _ _ HQ => HQ)].
  eapply triple_bind; [apply browse_rebuild_entries; intros ? ? ?; cbn; by rewrite lookup_empty|].
  intros x. apply triple_pure. intros Hx. eapply triple_bind; [apply browse_version|]. intros after.
  apply triple_modify. intros s (Hq & Hm & _). split_and!; [done|done|]. intros sid refs r. cbn.
  rewrite lookup_fmap. destruct (sx_sessions x !! sid) as [refs'|] eqn:E; [|done]. cbn. intros [= <-].
  rewrite merge_sort_Permutation. by apply (Hx sid).
Qed.

Lemma browse_recheck path original :
  triple browsing (recheck_rejected path original) (fun _ => browsing) safely.
Proof.
  unfold recheck_rejected. eapply triple_bind; [apply browse_metadata|]. intros [e|]; [|by apply triple_ret; intros s [? _]].
  cbv zeta. apply triple_pure. intros _. destruct (_ && _); [by apply triple_ret|].
  intros s r s' Hs. rewrite read_bind. revert s r s' Hs. eapply triple_bind; [apply browse_read|].
  intros r. eapply triple_bind; [apply triple_get|]. intros s1 s y s' [[Hs _] ->].
  destruct (negb _); [by intros [= <- <-]|]. intros [= <- <-]. destruct Hs as (Hq & Hm & Hw). split_and!; [done|done|].
  cbn. destruct r as [b|]; [|done]. destruct (accepted path b) as [c|] eqn:Ea; [|done].
  assert (path = CheckpointFile (cp_workflow_id c)) as ->.
  { unfold accepted in Ea. destruct (checkpoint_of_bytes b); [|done]. destruct (_ && _) eqn:Ec; [|done].
    injection Ea as <-. apply andb_prop in Ec as [_ Ec]. by apply bool_decide_eq_true in Ec. }
  by apply well_placed_update.
Qed.

Lemma browse_recheck_all rejected : triple browsing (recheck_all rejected) (fun _ => browsing) safely.
Proof.
  induction rejected as [|[path original] rejected IH]; cbn [recheck_all]; [by apply triple_ret|].
  eapply triple_bind; [apply browse_recheck|]. by intros [].
Qed.

Definition placed (r : CheckpointRef) : Prop := r.(rf_path) = CheckpointFile r.(rf_workflow_id).

Lemma browse_refresh_candidate session_id r :
  placed r ->
  triple browsing (refresh_candidate session_id r)
    (fun u s => browsing s /\ forall r', u = Some r' -> placed r') safely.
Proof.
  intros Hr. unfold refresh_candidate. eapply triple_bind; [apply browse_metadata|].
  intros [e|]; [|by apply triple_ret; intros s [? _]]. cbv zeta. apply triple_pure. intros _.
  destruct (_ && _); [by apply triple_ret|].
  intros s x s' Hs. rewrite read_bind. revert s x s' Hs. eapply triple_bind; [apply browse_read|].
  intros x. apply triple_ret. intros s [Hs _]. split; [done|]. intros r'. destruct x as [b|]; [|done].
  destruct (of_candidate session_id r b); [|done]. cbn. by intros [= <-].
Qed.

Lemma browse_refresh_candidates session_id candidates refreshed :
  Forall placed candidates -> map_Forall (fun _ p => placed p.2) refreshed ->
  triple browsing (refresh_candidates session_id candidates refreshed)
    (fun x s => browsing s /\ Forall placed x.1 /\ map_Forall (fun _ p => placed p.2) x.2) safely.
Proof.
  intros Hc. revert refreshed. induction Hc as [|r candidates Hr Hc IH]; intros refreshed Hf; cbn [refresh_candidates].
  { by apply triple_ret. }
  eapply triple_bind; [by apply browse_refresh_candidate|]. intros u. apply triple_pure. intros Hu. cbv zeta.
  eapply triple_bind.
  { apply IH. destruct u as [r'|]; [|done]. apply map_Forall_insert_2; [by apply Hu|done]. }
  intros [rest refreshed']. apply triple_ret. intros s (Hs & Hp & Hf'). split_and!; [done| |done].
  constructor; [|done]. destruct u as [r'|]; [by apply Hu|done].
Qed.

(** A checkpoint that the store has, of this session. *)
Definition of_session (session_id : SessionId) (c : WorkflowCheckpoint) : Prop :=
  stored s0 c.(cp_workflow_id) = Some c /\ c.(cp_session_id) = session_id.

Lemma browse_collect session_id limit candidates :
  Forall placed candidates ->
  triple browsing (collect session_id limit candidates)
    (fun cs s => browsing s /\ (length cs <= limit)%nat /\ Forall (of_session session_id) cs) safely.
Proof.
  intros Hc. revert limit. induction Hc as [|r candidates Hr Hc IH]; intros [|limit]; cbn [collect];
    try (apply triple_ret; intros s Hs; split_and!; [done|cbn; lia|done]).
  intros s x s' Hs. rewrite read_bind. revert s x s' Hs. eapply triple_bind; [apply browse_read|]. intros x.
  apply triple_pure. intros Hx.
  destruct (match x with Ok b => of_candidate session_id r b | Err _ => None end) as [c|] eqn:Ec; [|apply IH].
  eapply triple_bind; [apply IH|]. intros rest. apply triple_ret. intros s (Hs & Hl & Hf).
  split_and!; [done|cbn; lia|]. constructor; [|done]. destruct x as [b|]; [|done].
  apply candidate_decode in Ec as [Ed Es]. split; [|done]. destruct Hx as (e & Ee & He & ->). rewrite Hr in Ee.
  pose proof (decode_facts _ _ _ Ed) as (_ & _ & Ew). unfold stored, entry_checkpoint. rewrite Ew, Ee. cbn. by rewrite He, Ed.
Qed.

Definition sound_listing (session_id : SessionId) (limit : nat) (cs : list WorkflowCheckpoint) : Prop :=
  (length cs <= limit)%nat /\ StronglySorted newer cs /\ Forall (of_session session_id) cs.

Lemma browse_list session_id limit :
  triple browsing (list_for_session session_id limit)
    (fun cs s => browsing s /\ sound_listing session_id limit cs) safely.
Proof.
  unfold list_for_session. destruct limit as [|n]; [apply triple_ret; intros s Hs; split; [done|]; split; [done|by split; constructor]|].
  set (limit := S n). eapply triple_bind; [apply browse_version|]. intros before.
  eapply triple_bind; [apply triple_get|]. intros s1. eapply triple_weaken; [|by intros s [Hs _]; exact Hs|exact (fun _ _ HQ => HQ)].
  eapply (triple_bind _ _ (fun _ => browsing)); [destruct (bool_decide _); [by apply triple_ret|apply browse_rebuild]|].
  intros []. eapply triple_bind; [apply triple_get|]. intros s2.
  eapply triple_weaken; [|by intros s [Hs _]; exact Hs|exact (fun _ _ HQ => HQ)].
  eapply triple_bind; [apply browse_recheck_all|]. intros []. eapply triple_bind; [apply triple_get|]. intros s3. cbv zeta.
  apply (triple_weaken _ _ (fun s => browsing s /\ Forall placed (default [] (sx_sessions (ks_session_index s3) !! session_id)))
    _ _ (fun cs s => browsing s /\ sound_listing session_id limit cs)); [| |done].
  2: { intros s [Hs ->]. split; [done|]. apply Forall_forall. intros r Hr.
       destruct (sx_sessions (ks_session_index s) !! session_id) as [refs|] eqn:E; [|by apply elem_of_nil in Hr].
       destruct Hs as (_ & _ & Hw). by apply (Hw session_id refs). }
  apply triple_pure. intros Hc. eapply triple_bind; [apply browse_refresh_candidates; [done|apply map_Forall_empty]|].
  intros [candidates refreshed]. apply triple_pure. intros [Hp Hf]. cbn in Hp, Hf.
  eapply (triple_bind _ _ (fun cands s => browsing s /\ Forall placed cands)).
  { destruct (bool_decide _); [by apply triple_ret|]. eapply (triple_bind _ _ (fun _ => browsing)).
    - apply triple_modify. intros s (Hq & Hm & Hw). split_and!; [done|done|]. intros sid refs r. cbn.
      destruct (decide (sid = session_id)) as [->|Hne]; [|rewrite lookup_alter_ne by done; apply Hw].
      rewrite lookup_alter_eq. destruct (sx_sessions (ks_session_index s) !! session_id) as [refs0|] eqn:E; [|done].
      cbn. intros [= <-]. rewrite merge_sort_Permutation. intros (r0 & -> & Hr0)%list_elem_of_fmap.
      pose proof (Hw session_id refs0 r0 E Hr0) as Hr. destruct (refreshed !! rf_workflow_id r0) as [[o u]|] eqn:Eu; [|done].
      destruct (bool_decide _); [|done]. exact (Hf _ _ Eu).
    - intros []. apply triple_ret. intros s Hs. split; [done|]. by rewrite merge_sort_Permutation. }
  intros cands. apply triple_pure. intros Hcs. eapply triple_bind; [by apply browse_collect|]. intros found.
  apply triple_ret. intros s (Hs & Hl & Hfd). split; [done|]. unfold sound_listing. split_and!.
  - by rewrite merge_sort_Permutation.
  - apply StronglySorted_merge_sort; apply _.
  - by rewrite merge_sort_Permutation.
Qed.
End Sound.
End Listing.
