(* ===== verification/CheckpointStoreIndex.v ===== *)
(** * The session index is exact while its version is the directory's *)

From S2P Require Import Prelude Text SkillTypes Receipt Ledger Json Checkpoint CheckpointStore CheckpointStoreInv CheckpointStoreSteps CheckpointStoreList.

Section Index.
Context `{Sha2, ReceiptCodec, CheckpointCodec}.
Implicit Types (x : SessionIndex) (m : gmap Name Entry).

(** A file with the checkpoint it holds. *)
Definition filed (max : Z) (m : gmap Name Entry) (id : WorkflowId) (e : Entry) (c : WorkflowCheckpoint) : Prop :=
  m !! CheckpointFile id = Some e /\ entry_checkpoint max id e = Some c.

Lemma entry_workflow max id e c : entry_checkpoint max id e = Some c -> c.(cp_workflow_id) = id.
Proof.
  unfold entry_checkpoint. destruct (readable max e); [|done]. destruct (decode_checkpoint _ id) eqn:E; [|done].
  intros [= <-]. by apply decode_facts in E as (_ & _ & ?).
Qed.

(** What the index has of one session. *)
Record exact_refs (max : Z) (m : gmap Name Entry) (session_id : SessionId) (refs : list CheckpointRef) : Prop := MkExactRefs {
  er_nodup : NoDup (rf_workflow_id <$> refs);
  er_sorted : StronglySorted newer_ref refs;
  er_filed r : r ∈ refs ->
    exists id e c, filed max m id e c /\ c.(cp_session_id) = session_id /\ r = ref_of c (CheckpointFile id) e;
}.

Record exact (max : Z) (m : gmap Name Entry) (x : SessionIndex) : Prop := MkExact {
  ex_refs session_id refs : x.(sx_sessions) !! session_id = Some refs -> exact_refs max m session_id refs;
  ex_all id e c : filed max m id e c ->
    exists refs, x.(sx_sessions) !! c.(cp_session_id) = Some refs /\ ref_of c (CheckpointFile id) e ∈ refs;
  ex_rejected name v : x.(sx_rejected) !! name = Some v ->
    exists id e, name = CheckpointFile id /\ m !! name = Some e /\ v = FileVersion_from_metadata e
      /\ entry_checkpoint max id e = None;
}.

Definition index_ok (s : CheckpointStore) : Prop :=
  forall v, s.(ks_session_index).(sx_directory_version) = Some v ->
    v <= s.(ks_dir).(kd_version)
    /\ (v = s.(ks_dir).(kd_version) -> exact s.(ks_max_file_bytes) s.(ks_dir).(kd_entries) s.(ks_session_index)).

Lemma exact_version max m x v : exact max m (x <| sx_directory_version := v |>) <-> exact max m x.
Proof. split; intros [A B C]; by split. Qed.

(** An index that was not touched stays exact or is out of date. *)
Lemma index_ok_moved s s' :
  index_ok s -> moved s.(ks_dir) s'.(ks_dir) -> s'.(ks_max_file_bytes) = s.(ks_max_file_bytes) ->
  s'.(ks_session_index) = s.(ks_session_index) -> index_ok s'.
Proof.
  intros Hs [Hle Hsame] Hm Hx v. rewrite Hx, Hm. intros Hv. destruct (Hs v Hv) as [Hv' He]. split; [lia|].
  intros ->. rewrite Hsame by lia. apply He. lia.
Qed.

Lemma index_ok_none s : s.(ks_session_index).(sx_directory_version) = None -> index_ok s.
Proof. intros E v. by rewrite E. Qed.

Lemma index_ok_same s s' : same_store s s' -> index_ok s -> index_ok s'.
Proof. intros (Hq & Hx & Hm) Hs. apply (index_ok_moved s); try done. by apply quiet_moved. Qed.

(** ** A checkpoint is written *)

Section Update.
Variables (max : Z) (m m' : gmap Name Entry) (c : WorkflowCheckpoint) (e : Entry) (nonce : Uuid).
Abbreviation path := (CheckpointFile c.(cp_workflow_id)).
Hypothesis Hother : forall name, name <> TemporaryFile c.(cp_workflow_id) nonce -> name <> path -> m' !! name = m !! name.
Hypothesis He : m' !! path = Some e.
Hypothesis Hc : entry_checkpoint max c.(cp_workflow_id) e = Some c.
(** What was there is of the same session. *)
Hypothesis Hbefore : forall e0 c0, filed max m c.(cp_workflow_id) e0 c0 -> c0.(cp_session_id) = c.(cp_session_id).

Lemma filed_other id e' c' : id <> c.(cp_workflow_id) -> filed max m' id e' c' <-> filed max m id e' c'.
Proof. intros Hne. unfold filed. by rewrite Hother by congruence. Qed.

Lemma filed_new e' c' : filed max m' c.(cp_workflow_id) e' c' -> e' = e /\ c' = c.
Proof. intros [E E']. rewrite He in E. injection E as <-. rewrite Hc in E'. by injection E' as <-. Qed.

Lemma update_exact_refs refs :
  exact_refs max m c.(cp_session_id) refs ->
  exact_refs max m' c.(cp_session_id)
    (merge_sort newer_ref (filter (fun r => r.(rf_workflow_id) <> c.(cp_workflow_id)) refs ++ [ref_of c path e])).
Proof.
  intros [Hn Hs Hf]. set (kept := filter _ refs).
  assert (forall r, r ∈ kept -> r ∈ refs /\ rf_workflow_id r <> cp_workflow_id c) as Hk.
  { intros r Hr. apply list_elem_of_filter in Hr as [? ?]. done. }
  split.
  - rewrite merge_sort_Permutation, fmap_app. apply NoDup_app. split_and!.
    + by apply NoDup_fmap_filter.
    + intros w (r & -> & Hr)%list_elem_of_fmap Hw. apply list_elem_of_singleton in Hw. by apply (Hk r).
    + cbn. constructor; [by apply not_elem_of_nil|constructor].
  - apply StronglySorted_merge_sort; apply _.
  - intros r. rewrite merge_sort_Permutation. intros [Hr|Hr]%elem_of_app.
    + destruct (Hk r Hr) as [Hin Hw]. destruct (Hf r Hin) as (id & e' & c' & Hfl & Hsn & ->). exists id, e', c'.
      split_and!; try done. apply filed_other; [|done]. destruct Hfl as [_ Hc']. apply entry_workflow in Hc'. cbn in Hw. congruence.
    + apply list_elem_of_singleton in Hr as ->. exists (cp_workflow_id c), e, c. done.
Qed.

Lemma update_exact x : exact max m x -> exact max m' (index_update c path e x).
Proof.
  intros [Hrefs Hall Hrej]. split.
  - intros sid refs. cbn. destruct (decide (sid = cp_session_id c)) as [->|Hne].
    + rewrite lookup_insert_eq. intros [= <-]. apply update_exact_refs.
      destruct (sx_sessions x !! cp_session_id c) as [refs|] eqn:E; [by apply Hrefs|]. cbn.
      split; [constructor|constructor|]. by intros r ?%elem_of_nil.
    + rewrite lookup_insert_ne by done. intros E. destruct (Hrefs sid refs E) as [Hn Hs Hf]. split; [done|done|].
      intros r Hr. destruct (Hf r Hr) as (id & e' & c' & Hfl & Hsn & ->). exists id, e', c'. split_and!; try done.
      apply filed_other; [|done]. intros ->. apply Hne. rewrite <- Hsn. by apply (Hbefore e').
  - intros id e' c' Hfl. cbn. destruct (decide (id = cp_workflow_id c)) as [->|Hne].
    + apply filed_new in Hfl as [-> ->]. rewrite lookup_insert_eq. eexists. split; [done|].
      rewrite merge_sort_Permutation. apply elem_of_app. right. by left.
    + apply filed_other in Hfl; [|done]. destruct (Hall id e' c' Hfl) as (refs & E & Hr).
      destruct (decide (cp_session_id c' = cp_session_id c)) as [Es|Es].
      * rewrite Es, lookup_insert_eq. eexists. split; [done|]. rewrite merge_sort_Permutation. apply elem_of_app. left.
        rewrite <- Es, E. cbn. apply list_elem_of_filter. split; [|done]. cbn. destruct Hfl as [_ Hc'].
        apply entry_workflow in Hc'. congruence.
      * rewrite lookup_insert_ne by done. by exists refs.
  - intros name v. cbn. intros [Hne E]%lookup_delete_Some. destruct (Hrej name v E) as (id & e' & -> & Em & -> & En).
    exists id, e'. split_and!; try done. by rewrite Hother by congruence.
Qed.
End Update.

Lemma index_ok_saved `{!CheckpointCodecLaws} s0 c nonce s :
  index_ok s0 -> saved_or_kept s0 c nonce s -> index_ok s.
Proof.
  intros Hs0 [Hs|(Hv & Ha & b & Eb & Hlen & Hr & Hm & Hx)]; [by apply (index_ok_same s0)|].
  destruct Hx as [Hx|[Hx|(Hx0 & Hp & e & v & He & Hx & Hv')]].
  - apply (index_ok_moved s0); try done. apply Hr.
  - apply index_ok_none. by rewrite Hx.
  - destruct (Hs0 _ Hx0) as [_ Hex]. specialize (Hex eq_refl). destruct Hp as ((Hmv & Ho & _) & Hh & Hvs).
    assert (exact (ks_max_file_bytes s) (kd_entries (ks_dir s)) (ks_session_index s)) as Hexact.
    { rewrite Hx, Hm. apply exact_version. apply (update_exact _ (kd_entries (ks_dir s0)) _ c e nonce); try done.
      - destruct Hh as (e' & He' & Hk & Hl & Hb). rewrite He in He'. injection He' as <-.
        pose proof (written_decodes c (ks_max_file_bytes s0) (kd_entries (ks_dir s)) b Hv Eb Hlen) as Hd.
        rewrite He in Hd. apply Hd. by exists e.
      - intros e0 c0 [E0 E1]. unfold admissible in Ha. rewrite E0 in Ha. destruct Ha as (c1 & Hc1 & <-).
        unfold stored in Hc1. rewrite E0 in Hc1. cbn in Hc1. congruence. }
    intros w Hw. rewrite Hx in Hw. cbn in Hw. split; [|done]. destruct Hv' as [-> | ->]; [rewrite Hx0 in Hw|]; injection Hw as <-; lia.
Qed.

(** ** A checkpoint is removed *)

Lemma remove_exact max m id x : exact max m x -> exact max (delete (CheckpointFile id) m) (index_remove id x).
Proof.
  intros [Hrefs Hall Hrej].
  assert (forall id' e c, filed max (delete (CheckpointFile id) m) id' e c <-> id' <> id /\ filed max m id' e c) as Hfd.
  { intros id' e c. unfold filed. rewrite lookup_delete_Some. split; [intros [[? ?] ?]|intros [? [? ?]]]; split_and!; congruence. }
  split.
  - intros sid refs. cbn. intros [E Hne]%map_lookup_filter_Some. rewrite lookup_fmap in E.
    destruct (sx_sessions x !! sid) as [refs0|] eqn:E0; [|done]. cbn in E. injection E as <-.
    destruct (Hrefs sid refs0 E0) as [Hn Hs Hf]. split.
    + by apply NoDup_fmap_filter.
    + by apply sorted_filter.
    + intros r [Hw Hr]%list_elem_of_filter. destruct (Hf r Hr) as (id' & e & c & Hfl & Hsn & ->). exists id', e, c.
      split_and!; try done. apply Hfd. split; [|done]. destruct Hfl as [_ Hc]. apply entry_workflow in Hc. cbn in Hw. congruence.
  - intros id' e c [Hne Hfl]%Hfd. destruct (Hall id' e c Hfl) as (refs & E & Hr). cbn.
    assert (ref_of c (CheckpointFile id') e ∈ filter (fun r => rf_workflow_id r <> id) refs) as Hin.
    { apply list_elem_of_filter. split; [|done]. destruct Hfl as [_ Hc]. apply entry_workflow in Hc. cbn. congruence. }
    eexists. split; [|exact Hin]. apply map_lookup_filter_Some. rewrite lookup_fmap, E. split; [done|].
    cbn. intros E'. rewrite E' in Hin. by apply elem_of_nil in Hin.
  - intros name v. cbn. intros [Hne E]%lookup_delete_Some. destruct (Hrej name v E) as (id' & e & -> & Em & -> & En).
    exists id', e. split_and!; try done. by rewrite lookup_delete_ne by congruence.
Qed.

Lemma index_ok_dropped s0 id s : index_ok s0 -> dropped s0 id s -> index_ok s.
Proof.
  intros Hs0 (Hg & Hm & Hx). destruct Hx as [Hx|[Hx|(Hx0 & _ & v & Hx & Hv')]].
  - apply (index_ok_moved s0); try done. by eapply gone_moved.
  - apply index_ok_none. by rewrite Hx.
  - destruct (Hs0 _ Hx0) as [_ Hex]. specialize (Hex eq_refl). destruct Hg as [Eg Vg].
    assert (exact (ks_max_file_bytes s) (kd_entries (ks_dir s)) (ks_session_index s)) as Hexact.
    { rewrite Hx, Hm, Eg. by apply exact_version, remove_exact. }
    intros w Hw. rewrite Hx in Hw. cbn in Hw. split; [|done]. destruct Hv' as [-> | ->]; [rewrite Hx0 in Hw|]; injection Hw as <-; lia.
Qed.

(** ** A listing without faults *)

Section Calm.
Variable s : CheckpointStore.
Hypothesis Hcalm : s.(ks_dir).(kd_faults) = [].
Abbreviation m := s.(ks_dir).(kd_entries).
Abbreviation max := s.(ks_max_file_bytes).

Lemma calm_call : dir_call s.(ks_dir) = (Ok tt, s.(ks_dir)).
Proof. unfold dir_call, dir_fault, sbind. by rewrite Hcalm. Qed.

Lemma calm_on {A} (io : DirIO A) r : io s.(ks_dir) = (Ok r, s.(ks_dir)) -> on_dir io s = (Ok r, s).
Proof. intros E. unfold on_dir. rewrite E. by destruct s. Qed.

Lemma calm_try {A} (io : DirIO A) r : io s.(ks_dir) = (r, s.(ks_dir)) -> try_dir io s = (Ok r, s).
Proof. intros E. unfold try_dir. rewrite E. by destruct s. Qed.

Lemma calm_metadata name : try_dir (metadata name) s = (Ok (ok_or (m !! name) MissingFile), s).
Proof. apply calm_try. unfold metadata, sbind, sget, slift. by rewrite calm_call. Qed.

Lemma calm_version : on_dir directory_version s = (Ok s.(ks_dir).(kd_version), s).
Proof. apply calm_on. unfold directory_version, sbind. by rewrite calm_call. Qed.

Lemma calm_read name :
  exists y, try_dir (read_regular_file name max) s = (Ok y, s)
    /\ match m !! name with
       | Some e => if readable max e then y = Ok e.(en_bytes) else is_ok y = false
       | None => is_ok y = false
       end.
Proof.
  unfold try_dir, read_regular_file, sbind, sget, slift, refuse_if, readable. rewrite calm_call.
  destruct (m !! name) as [e|]; [|eexists; split; [by destruct s|done]]. rewrite calm_call.
  destruct (bool_decide (en_kind e = RegularFile)); cbn [negb andb]; [|eexists; split; [by destruct s|done]].
  destruct (en_links e =? 1); cbn [negb andb]; [|eexists; split; [by destruct s|done]].
  destruct (max <? blen (en_bytes e)); cbn [negb]; [eexists; split; [by destruct s|done]|].
  rewrite calm_call. eexists. split; [by destruct s|done].
Qed.

(** ** The rebuilt index *)

Definition rebuilt (name : Name) (x : SessionIndex) : SessionIndex :=
  match name with
  | CheckpointFile id =>
      match m !! name with
      | Some e =>
          let rejected := x <| sx_rejected := <[name := FileVersion_from_metadata e]> x.(sx_rejected) |> in
          match entry_checkpoint max id e with
          | Some c => push_ref c.(cp_session_id) (ref_of c name e)
                        (rejected <| sx_rejected := delete name rejected.(sx_rejected) |>)
          | None => rejected
          end
      | None => x
      end
  | _ => x
  end.

Lemma calm_rebuild_entry name x : rebuild_entry name x s = (Ok (rebuilt name x), s).
Proof.
  unfold rebuild_entry, rebuilt. destruct name as [id| | |]; try done. unfold sbind at 1. rewrite calm_metadata.
  destruct (m !! CheckpointFile id) as [e|] eqn:E; cbn [ok_or]; [|done]. unfold sbind, sget.
  destruct (calm_read (CheckpointFile id)) as (y & -> & Hy). rewrite E in Hy. unfold entry_checkpoint, sret.
  destruct (readable max e).
  - rewrite Hy. destruct (accepted (CheckpointFile id) (en_bytes e)) as [c|] eqn:Ea.
    + apply accepted_decode in Ea. by rewrite Ea.
    + destruct (decode_checkpoint (en_bytes e) id) as [c|] eqn:Ed; [|done].
      apply accepted_decode in Ed. congruence.
  - by destruct y.
Qed.

Lemma calm_rebuild_entries names x : rebuild_entries names x s = (Ok (fold_left (fun x name => rebuilt name x) names x), s).
Proof.
  revert x. induction names as [|name names IH]; intros x; cbn [rebuild_entries fold_left]; unfold sbind at 1;
    rewrite (calm_on dir_call tt calm_call); [done|]. unfold sbind. rewrite calm_rebuild_entry. apply IH.
Qed.

(** The index of the names seen so far. *)
Record seen (names : list Name) (x : SessionIndex) : Prop := MkSeen {
  se_refs session_id refs : x.(sx_sessions) !! session_id = Some refs ->
    NoDup (rf_workflow_id <$> refs)
    /\ forall r, r ∈ refs -> exists id e c, CheckpointFile id ∈ names /\ filed max m id e c
         /\ c.(cp_session_id) = session_id /\ r = ref_of c (CheckpointFile id) e;
  se_all id e c : CheckpointFile id ∈ names -> filed max m id e c ->
    exists refs, x.(sx_sessions) !! c.(cp_session_id) = Some refs /\ ref_of c (CheckpointFile id) e ∈ refs;
  se_rejected name v : x.(sx_rejected) !! name = Some v ->
    exists id e, name = CheckpointFile id /\ m !! name = Some e /\ v = FileVersion_from_metadata e
      /\ entry_checkpoint max id e = None;
}.

Lemma seen_more names name x :
  seen names x -> (forall id e c, name = CheckpointFile id -> ~ filed max m id e c) -> seen (names ++ [name]) x.
Proof.
  intros [A B C] Hno. split; [| |exact C].
  - intros sid refs E. destruct (A sid refs E) as [Hn Hr]. split; [done|]. intros r Hin.
    destruct (Hr r Hin) as (id & e & c & Hi & ?). exists id, e, c. split; [|done]. apply elem_of_app. by left.
  - intros id e c [Hin|Hin]%elem_of_app Hf; [by apply (B id)|]. apply list_elem_of_singleton in Hin.
    by destruct (Hno id e c (eq_sym Hin)).
Qed.

Lemma seen_push names id e c x :
  CheckpointFile id ∉ names -> filed max m id e c -> seen names x ->
  seen (names ++ [CheckpointFile id]) (push_ref c.(cp_session_id) (ref_of c (CheckpointFile id) e) x).
Proof.
  intros Hnot Hf [A B C]. pose proof Hf as [Em Ec]. pose proof (entry_workflow _ _ _ _ Ec) as Ew.
  assert (forall r0 refs sid, sx_sessions x !! sid = Some refs -> r0 ∈ refs ->
    exists id' e' c', CheckpointFile id' ∈ names ++ [CheckpointFile id] /\ filed max m id' e' c'
      /\ c'.(cp_session_id) = sid /\ r0 = ref_of c' (CheckpointFile id') e') as Hold.
  { intros r0 refs sid E Hin. destruct (A sid refs E) as [_ Hr]. destruct (Hr r0 Hin) as (id' & e' & c' & ? & ?).
    exists id', e', c'. split; [|done]. apply elem_of_app. by left. }
  split; [| |exact C].
  - intros sid refs. cbn. destruct (decide (sid = cp_session_id c)) as [->|Hne].
    2: { rewrite lookup_insert_ne by done. intros E. split; [by apply (A sid)|]. intros r Hr. by apply (Hold r refs). }
    rewrite lookup_insert_eq. intros [= <-]. destruct (sx_sessions x !! cp_session_id c) as [refs|] eqn:E; cbn [default].
    + destruct (A _ refs E) as [Hn Hr]. split.
      * rewrite fmap_app. apply NoDup_app. split_and!; [done| |cbn; constructor; [by apply not_elem_of_nil|constructor]].
        intros w (r & -> & Hin)%list_elem_of_fmap Hw. apply list_elem_of_singleton in Hw. cbn in Hw.
        destruct (Hr r Hin) as (id' & e' & c' & Hi & [_ Hc'] & _ & ->). cbn in Hw.
        apply entry_workflow in Hc'. apply Hnot. congruence.
      * intros r [Hin|Hin]%elem_of_app; [by apply (Hold r refs)|]. apply list_elem_of_singleton in Hin as ->.
        exists id, e, c. split_and!; try done. apply elem_of_app. right. by left.
    + split; [cbn; constructor; [by apply not_elem_of_nil|constructor]|]. intros r Hin.
      apply list_elem_of_singleton in Hin as ->. exists id, e, c. split_and!; try done. apply elem_of_app. right. by left.
  - intros id' e' c' Hin Hf'. cbn. destruct (decide (id' = id)) as [->|Hne].
    + destruct Hf' as [Em' Ec']. rewrite Em in Em'. injection Em' as <-. rewrite Ec in Ec'. injection Ec' as <-.
      rewrite lookup_insert_eq. eexists. split; [done|]. apply elem_of_app. right. by left.
    + apply elem_of_app in Hin as [Hin|Hin]; [|apply list_elem_of_singleton in Hin; congruence].
      destruct (B id' e' c' Hin Hf') as (refs & E & Hr).
      destruct (decide (cp_session_id c' = cp_session_id c)) as [Es|Es].
      * rewrite Es in E |- *. rewrite lookup_insert_eq, E. eexists. split; [done|]. apply elem_of_app. by left.
      * rewrite lookup_insert_ne by done. by exists refs.
Qed.

Lemma seen_rebuilt names name x : name ∉ names -> seen names x -> seen (names ++ [name]) (rebuilt name x).
Proof.
  intros Hnot Hx. unfold rebuilt. destruct name as [id| | |]; try (by apply seen_more).
  destruct (m !! CheckpointFile id) as [e|] eqn:E.
  2: { apply seen_more; [done|]. intros id' e c [= <-] [Hm _]. congruence. }
  destruct (entry_checkpoint max id e) as [c|] eqn:Ec; cbv zeta.
  - apply seen_push; [done|by split|]. destruct Hx as [A B C]. split; [exact A|exact B|]. cbn.
    intros name v. rewrite delete_insert_eq. intros [_ Hv]%lookup_delete_Some. by apply C.
  - apply seen_more.
    + destruct Hx as [A B C]. split; [exact A|exact B|]. cbn. intros name v. destruct (decide (name = CheckpointFile id)) as [->|Hne].
      * rewrite lookup_insert_eq. intros [= <-]. by exists id, e.
      * rewrite lookup_insert_ne by done. apply C.
    + intros id' e' c [= <-] [Hm Hc]. rewrite E in Hm. injection Hm as <-. congruence.
Qed.

Lemma seen_all names done_names x :
  NoDup (done_names ++ names) -> seen done_names x -> seen (done_names ++ names) (fold_left (fun x name => rebuilt name x) names x).
Proof.
  revert done_names x. induction names as [|name names IH]; intros dn x Hn Hx; cbn [fold_left]; [by rewrite app_nil_r|].
  replace (dn ++ name :: names) with ((dn ++ [name]) ++ names) in * by by rewrite <- app_assoc.
  apply IH; [done|]. apply seen_rebuilt; [|done]. apply NoDup_app in Hn as [Hn _]. apply NoDup_app in Hn as (_ & Hd & _).
  intros Hin. apply (Hd name Hin). by left.
Qed.
End Calm.

Implicit Types s : CheckpointStore.
Abbreviation calm s := (s.(ks_dir).(kd_faults) = []).
Abbreviation entries s := s.(ks_dir).(kd_entries).
Abbreviation index_exact s := (exact s.(ks_max_file_bytes) s.(ks_dir).(kd_entries) s.(ks_session_index)).

Lemma calm_rebuild s :
  calm s -> exists x, rebuild_index s.(ks_dir).(kd_version) s = (Ok tt, s <| ks_session_index := x |>)
    /\ x.(sx_directory_version) = Some s.(ks_dir).(kd_version) /\ exact s.(ks_max_file_bytes) (entries s) x.
Proof.
  intros Hc. unfold rebuild_index. unfold sbind at 1. rewrite (calm_on s Hc dir_call tt (calm_call s Hc)).
  unfold sbind at 1, sget. unfold sbind. rewrite (calm_rebuild_entries s Hc), (calm_version s Hc), Z.eqb_refl.
  eexists. split; [done|]. split; [done|]. set (names := (map_to_list (entries s)).*1).
  set (x := fold_left _ names empty_index).
  assert (seen s names x) as [A B C].
  { apply (seen_all s names []); [apply NoDup_fst_map_to_list|]. split; cbn.
    - intros ? ?. by rewrite lookup_empty.
    - by intros ? ? ? ?%elem_of_nil.
    - intros ? ?. by rewrite lookup_empty. }
  split; cbn.
  - intros sid refs. rewrite lookup_fmap. destruct (sx_sessions x !! sid) as [refs0|] eqn:E; [|done]. cbn. intros [= <-].
    destruct (A sid refs0 E) as [Hn Hr]. split; [by rewrite merge_sort_Permutation|apply StronglySorted_merge_sort; apply _|].
    intros r. rewrite merge_sort_Permutation. intros Hin. destruct (Hr r Hin) as (id & e & c & _ & ?). by exists id, e, c.
  - intros id e c Hf. destruct (B id e c) as (refs & E & Hr); [|done|].
    + destruct Hf as [Em _]. apply list_elem_of_fmap. exists (CheckpointFile id, e). split; [done|].
      by apply elem_of_map_to_list.
    + exists (merge_sort newer_ref refs). rewrite lookup_fmap, E. split; [done|]. by rewrite merge_sort_Permutation.
  - exact C.
Qed.

Lemma calm_recheck s path original :
  calm s -> index_exact s -> s.(ks_session_index).(sx_rejected) !! path = Some original ->
  recheck_rejected path original s = (Ok tt, s).
Proof.
  intros Hc [_ _ Hrej] Hp. destruct (Hrej path original Hp) as (id & e & -> & Em & -> & En).
  unfold recheck_rejected. unfold sbind at 1. rewrite (calm_metadata s Hc), Em. cbn [ok_or].
  destruct (_ && _); [done|]. unfold sbind, sget. destruct (calm_read s Hc (CheckpointFile id)) as (y & -> & Hy).
  rewrite Em in Hy. rewrite Hp, bool_decide_eq_true_2 by done. cbn [negb].
  assert (match y with Ok b => accepted (CheckpointFile id) b | Err _ => None end = None) as ->.
  { unfold entry_checkpoint in En. destruct (readable _ e); [|by destruct y]. rewrite Hy.
    destruct (accepted (CheckpointFile id) (en_bytes e)) as [c|] eqn:Ea; [|done]. apply accepted_decode in Ea. by rewrite Ea in En. }
  unfold smodify. cbn [is_ok]. f_equal. destruct s as [d [v sess rej] mx]. cbn in *. by rewrite insert_id.
Qed.

Lemma calm_recheck_all s l :
  calm s -> index_exact s -> (forall path v, (path, v) ∈ l -> s.(ks_session_index).(sx_rejected) !! path = Some v) ->
  recheck_all l s = (Ok tt, s).
Proof.
  intros Hc He. induction l as [|[path v] l IH]; intros Hl; cbn [recheck_all]; [done|]. unfold sbind.
  rewrite (calm_recheck s path v Hc He (Hl _ _ (list_elem_of_here _ _))). apply IH. intros p w Hin. apply Hl. by right.
Qed.

Lemma calm_load s id c : calm s -> stored s id = Some c -> load id s = (Ok c, s).
Proof.
  intros Hc Hst. unfold stored in Hst. apply bind_Some in Hst as (e & Em & Ee). unfold load, read_bytes, sbind, sget.
  destruct (calm_read s Hc (CheckpointFile id)) as (y & -> & Hy). rewrite Em in Hy. unfold entry_checkpoint in Ee.
  destruct (readable _ e); [|done]. rewrite Hy. unfold slift. cbn [map_err].
  destruct (decode_checkpoint (en_bytes e) id); [|done]. by injection Ee as ->.
Qed.

(** A reference of an exact index. *)
Definition names_it s (session_id : SessionId) (r : CheckpointRef) (c : WorkflowCheckpoint) : Prop :=
  exists id e, filed s.(ks_max_file_bytes) (entries s) id e c /\ c.(cp_session_id) = session_id
    /\ r = ref_of c (CheckpointFile id) e.

Lemma calm_candidate s session_id r c :
  calm s -> names_it s session_id r c ->
  exists y, try_dir (read_regular_file r.(rf_path) s.(ks_max_file_bytes)) s = (Ok y, s)
    /\ match y with Ok b => of_candidate session_id r b | Err _ => None end = Some c.
Proof.
  intros Hc (id & e & [Em Ee] & Hs & ->). cbn. destruct (calm_read s Hc (CheckpointFile id)) as (y & -> & Hy).
  exists y. split; [done|]. rewrite Em in Hy. pose proof (entry_workflow _ _ _ _ Ee) as Ew. unfold entry_checkpoint in Ee.
  destruct (readable _ e); [|done]. rewrite Hy. apply candidate_decode. split; [|done]. cbn. rewrite Ew.
  destruct (decode_checkpoint (en_bytes e) id); [|done]. by injection Ee as ->.
Qed.

Lemma calm_refresh s session_id refs refreshed :
  calm s -> Forall (fun r => exists c, names_it s session_id r c) refs ->
  exists refreshed', refresh_candidates session_id refs refreshed s = (Ok (refs, refreshed'), s)
    /\ forall w o u, refreshed' !! w = Some (o, u) -> refreshed !! w = Some (o, u) \/ u = o.
Proof.
  intros Hc Hr. revert refreshed. induction Hr as [|r refs (c & Hn) Hr IH]; intros refreshed; cbn [refresh_candidates].
  { exists refreshed. split; [done|by left]. }
  assert (exists u, refresh_candidate session_id r s = (Ok u, s) /\ (u = None \/ u = Some r)) as (u & Eu & Hu).
  { unfold refresh_candidate. unfold sbind at 1. rewrite (calm_metadata s Hc).
    destruct (calm_candidate s session_id r c Hc Hn) as (y & Ey & Hy). destruct Hn as (id & e & [Em Ee] & Hs & ->).
    cbn [rf_path ref_of]. rewrite Em. cbn [ok_or]. destruct (_ && _); [by exists None; auto|].
    unfold sbind, sget. cbn [rf_path ref_of] in Ey. rewrite Ey. destruct y as [b|]; [|done]. rewrite Hy.
    eexists. split; [done|]. by right. }
  unfold sbind at 1. rewrite Eu.
  destruct (IH (match u with Some r' => <[rf_workflow_id r := (r, r')]> refreshed | None => refreshed end)) as (refreshed' & E & Hf).
  unfold sbind. rewrite E. exists refreshed'. split; [by destruct Hu as [-> | ->]|]. intros w o v Hw.
  destruct (Hf w o v Hw) as [Hb|]; [|by right]. destruct Hu as [-> | ->]; [by left|].
  destruct (decide (w = rf_workflow_id r)) as [->|Hne]; [|rewrite lookup_insert_ne in Hb by done; by left].
  rewrite lookup_insert_eq in Hb. injection Hb as <- <-. by right.
Qed.

Lemma calm_collect s session_id limit refs :
  calm s -> Forall (fun r => exists c, names_it s session_id r c) refs ->
  exists cs, collect session_id limit refs s = (Ok cs, s) /\ Forall2 (names_it s session_id) (take limit refs) cs.
Proof.
  intros Hc Hr. revert limit. induction Hr as [|r refs (c & Hn) Hr IH]; intros [|limit]; cbn [collect take];
    try (by exists []; split; [|constructor]).
  destruct (calm_candidate s session_id r c Hc Hn) as (y & Ey & Hy). unfold sbind at 1, sget. unfold sbind at 1.
  rewrite Ey, Hy. destruct (IH limit) as (cs & Ecs & Hcs). unfold sbind. rewrite Ecs. exists (c :: cs). split; [done|]. by constructor.
Qed.

(** What a listing leaves out is not newer than what it holds. *)
Definition complete_listing s (session_id : SessionId) (limit : nat) (cs : list WorkflowCheckpoint) : Prop :=
  NoDup (cp_workflow_id <$> cs)
  /\ forall id c, stored s id = Some c -> c.(cp_session_id) = session_id ->
       c ∈ cs \/ (length cs = limit /\ Forall (fun c' => c.(cp_created_at) <= c'.(cp_created_at)) cs).

Lemma names_workflow s session_id r c : names_it s session_id r c -> rf_workflow_id r = cp_workflow_id c.
Proof. by intros (id & e & _ & _ & ->). Qed.

Lemma collected_complete s session_id limit refs cs :
  exact_refs s.(ks_max_file_bytes) (entries s) session_id refs ->
  (forall id e c, filed s.(ks_max_file_bytes) (entries s) id e c -> c.(cp_session_id) = session_id ->
     ref_of c (CheckpointFile id) e ∈ refs) ->
  Forall2 (names_it s session_id) (take limit refs) cs -> complete_listing s session_id limit cs.
Proof.
  intros [Hn Hs Hf] Hall Hcs. split.
  - assert (cp_workflow_id <$> cs = rf_workflow_id <$> take limit refs) as ->.
    { induction Hcs as [|r c l cs Hr _ IH]; [done|]. cbn. by rewrite IH, (names_workflow _ _ _ _ Hr). }
    rewrite <- (take_drop limit refs), fmap_app in Hn. by apply NoDup_app in Hn as [? _].
  - intros id c Hst Hsn. unfold stored in Hst. apply bind_Some in Hst as (e & Em & Ee).
    assert (ref_of c (CheckpointFile id) e ∈ refs) as Hin by (apply Hall; [by split|done]).
    rewrite <- (take_drop limit refs) in Hin. apply elem_of_app in Hin as [Hin|Hin].
    + left. apply list_elem_of_lookup in Hin as [i Hi]. destruct (Forall2_lookup_l _ _ _ _ _ Hcs Hi) as (c' & Hc' & id' & e' & [Em' Ee'] & _ & E).
      injection E as _ _ <- _. rewrite Em in Em'. injection Em' as <-. rewrite Ee in Ee'. injection Ee' as <-.
      by eapply list_elem_of_lookup_2.
    + right. rewrite <- (take_drop limit refs) in Hs.
      assert (length cs = limit) as Hlen.
      { rewrite <- (Forall2_length _ _ _ Hcs), length_take. assert (length (drop limit refs) <> 0%nat) as Hd.
        { intros E0. apply nil_length_inv in E0. rewrite E0 in Hin. by apply elem_of_nil in Hin. }
        rewrite length_drop in Hd. lia. }
      split; [done|]. apply Forall_forall. intros c' Hc'. apply list_elem_of_lookup in Hc' as [i Hi].
      destruct (Forall2_lookup_r _ _ _ _ _ Hcs Hi) as (r & Hr & id' & e' & _ & _ & ->).
      exact (StronglySorted_app_1_elem_of _ _ _ _ _ Hs (list_elem_of_lookup_2 _ _ _ Hr) Hin).
Qed.

Lemma complete_perm s session_id limit cs cs' :
  cs' ≡ₚ cs -> complete_listing s session_id limit cs -> complete_listing s session_id limit cs'.
Proof. intros Hp [Hn Hc]. split; [by rewrite Hp|]. intros id c. rewrite Hp. apply Hc. Qed.

Lemma exact_refs_sort max m session_id refs :
  exact_refs max m session_id refs -> exact_refs max m session_id (merge_sort newer_ref refs).
Proof.
  intros [Hn Hs Hf]. split; [by rewrite merge_sort_Permutation|apply StronglySorted_merge_sort; apply _|].
  intros r. rewrite merge_sort_Permutation. apply Hf.
Qed.

Lemma refreshed_exact max m session_id refreshed x :
  exact max m x -> (forall w o u, refreshed !! w = Some (o, u) -> u = o) ->
  exact max m (store_refreshed session_id refreshed x).
Proof.
  intros [Hrefs Hall Hrej] Hu.
  assert (forall refs : list CheckpointRef, (fun r : CheckpointRef => match refreshed !! r.(rf_workflow_id) with
    | Some (original, updated) => if bool_decide (r = original) then updated else r | None => r end) <$> refs = refs) as Hid.
  { intros refs. induction refs as [|r refs IH]; [done|]. cbn. rewrite IH. f_equal.
    destruct (refreshed !! rf_workflow_id r) as [[o u]|] eqn:E; [|done]. rewrite (Hu _ _ _ E).
    by destruct (bool_decide_reflect (r = o)). }
  split; [| |exact Hrej].
  - intros sid refs. cbn. destruct (decide (sid = session_id)) as [->|Hne]; [|rewrite lookup_alter_ne by done; apply Hrefs].
    rewrite lookup_alter_eq. destruct (sx_sessions x !! session_id) as [refs0|] eqn:E; [|done]. cbn. intros [= <-].
    rewrite Hid. by apply exact_refs_sort, Hrefs.
  - intros id e c Hf. destruct (Hall id e c Hf) as (refs & E & Hr). cbn.
    destruct (decide (cp_session_id c = session_id)) as [Es|Hne]; [|rewrite lookup_alter_ne by done; by exists refs].
    rewrite Es in E |- *. rewrite lookup_alter_eq, E. cbn. eexists. split; [done|]. by rewrite Hid, merge_sort_Permutation.
Qed.

(** The part of a listing that follows the index. *)
Lemma calm_from_index s session_id limit :
  calm s -> index_exact s ->
  exists cs x,
    (do s <- sget;
     let candidates := default [] (s.(ks_session_index).(sx_sessions) !! session_id) in
     do y <- refresh_candidates session_id candidates ∅;
     let '(candidates, refreshed) := y in
     do candidates <-
       (if bool_decide (refreshed = ∅) then sret candidates
        else smodify (fun s => s <| ks_session_index := store_refreshed session_id refreshed s.(ks_session_index) |>) ;;
             sret (merge_sort newer_ref candidates));
     do found <- collect session_id limit candidates;
     sret (merge_sort newer found)) s = (Ok cs, s <| ks_session_index := x |>)
    /\ x.(sx_directory_version) = s.(ks_session_index).(sx_directory_version)
    /\ exact s.(ks_max_file_bytes) (entries s) x /\ complete_listing s session_id limit cs.
Proof.
  intros Hc He. unfold sbind at 1, sget. cbv zeta. set (refs := default [] _).
  assert (exact_refs (ks_max_file_bytes s) (entries s) session_id refs) as Hrefs.
  { unfold refs. destruct (sx_sessions (ks_session_index s) !! session_id) as [refs0|] eqn:E; [by apply He|].
    split; [constructor|constructor|]. by intros r ?%elem_of_nil. }
  assert (forall id e c, filed (ks_max_file_bytes s) (entries s) id e c -> cp_session_id c = session_id ->
    ref_of c (CheckpointFile id) e ∈ refs) as Hall.
  { intros id e c Hf Es. destruct (ex_all _ _ _ He id e c Hf) as (refs0 & E & Hr). unfold refs. by rewrite <- Es, E. }
  assert (forall l, (forall r, r ∈ l -> r ∈ refs) -> Forall (fun r => exists c, names_it s session_id r c) l) as Hnames.
  { intros l Hl. apply Forall_forall. intros r Hr. destruct (er_filed _ _ _ _ Hrefs r (Hl r Hr)) as (id & e & c & ?).
    exists c, id, e. done. }
  destruct (calm_refresh s session_id refs ∅ Hc (Hnames refs (fun r Hr => Hr))) as (refreshed & Er & Hu).
  unfold sbind at 1. rewrite Er. destruct (bool_decide (refreshed = ∅)).
  - destruct (calm_collect s session_id limit refs Hc (Hnames refs (fun r Hr => Hr))) as (cs & Ecs & Hcs).
    unfold sbind, sret. rewrite Ecs. exists (merge_sort newer cs), (ks_session_index s).
    split; [by destruct s|]. split_and!; [done|done|]. eapply complete_perm; [apply merge_sort_Permutation|].
    by eapply collected_complete.
  - set (x := store_refreshed session_id refreshed (ks_session_index s)). set (s1 := s <| ks_session_index := x |>).
    assert (Forall (fun r => exists c, names_it s1 session_id r c) (merge_sort newer_ref refs)) as Hn1.
    { apply Hnames. intros r. by rewrite merge_sort_Permutation. }
    destruct (calm_collect s1 session_id limit (merge_sort newer_ref refs) Hc Hn1) as (cs & Ecs & Hcs).
    unfold sbind, smodify, sret. fold x. fold s1. rewrite Ecs. exists (merge_sort newer cs), x. split; [done|]. split_and!.
    + done.
    + apply refreshed_exact; [done|]. intros w o u Hw. destruct (Hu w o u Hw) as [Hb|]; [by rewrite lookup_empty in Hb|done].
    + eapply complete_perm; [apply merge_sort_Permutation|].
      eapply (collected_complete s _ _ (merge_sort newer_ref refs)); [by apply exact_refs_sort| |exact Hcs].
      intros id e c Hf Es. rewrite merge_sort_Permutation. by apply Hall.
Qed.

Lemma calm_list s session_id limit :
  calm s -> index_ok s ->
  exists cs s', list_for_session session_id limit s = (Ok cs, s') /\ s'.(ks_dir) = s.(ks_dir)
    /\ s'.(ks_max_file_bytes) = s.(ks_max_file_bytes) /\ index_ok s' /\ complete_listing s session_id limit cs.
Proof.
  intros Hc Hok. unfold list_for_session. destruct limit as [|n].
  { exists [], s. split_and!; try done. split; [constructor|]. intros id c _ _. right. split; [done|constructor]. }
  set (limit := S n).
  assert (exists x, x.(sx_directory_version) = Some (kd_version (ks_dir s)) /\ exact (ks_max_file_bytes s) (entries s) x
    /\ (do before <- on_dir directory_version; do s <- sget;
        if bool_decide (s.(ks_session_index).(sx_directory_version) = Some before) then sret tt else rebuild_index before) s
       = (Ok tt, s <| ks_session_index := x |>)) as (x & Hv & Hx & Ex).
  { unfold sbind at 1. rewrite (calm_version s Hc). unfold sbind, sget.
    destruct (bool_decide_reflect (sx_directory_version (ks_session_index s) = Some (kd_version (ks_dir s)))) as [Hv|Hv].
    - exists (ks_session_index s). destruct (Hok _ Hv) as [_ He]. split_and!; [done|by apply He|by destruct s].
    - destruct (calm_rebuild s Hc) as (x & E & ? & ?). by exists x. }
  set (s1 := s <| ks_session_index := x |>) in *.
  destruct (calm_from_index s1 session_id limit Hc Hx) as (cs & y & Ecs & Hy & Hye & Hcl).
  exists cs, (s1 <| ks_session_index := y |>). split_and!; [|done|done| |exact Hcl].
  - assert (forall A (K : StoreIO A),
      (do before <- on_dir directory_version; do s <- sget;
       (if bool_decide (s.(ks_session_index).(sx_directory_version) = Some before) then sret tt else rebuild_index before) ;;
       K) s = K s1) as HK.
    { intros A K. revert Ex. unfold sbind, sget. destruct (on_dir directory_version s) as [[before|] s2]; [|done].
      destruct (bool_decide _).
      - by intros [= <-].
      - destruct (rebuild_index before s2) as [[[]|] s3]; [|done]. by intros [= ->]. }
    etrans; [apply HK|]. unfold sbind at 1, sget. unfold sbind at 1. rewrite calm_recheck_all; [exact Ecs|done|exact Hx|].
    intros path v Hin. by apply elem_of_map_to_list in Hin.
  - intros v. cbn. rewrite Hy. cbn. rewrite Hv. intros [= <-]. split; [lia|]. intros _. exact Hye.
Qed.
End Index.
