(* ===== verification/CheckpointStoreCalm.v ===== *)
(** * Writing when no call fails

    A save and an update succeed when no call of the file system fails and what is written
    is valid and small enough. *)

From S2P Require Import Prelude Text SkillTypes Receipt Ledger Json Checkpoint CheckpointStore CheckpointStoreInv CheckpointStoreSteps CheckpointStoreIndex.

(** ** Files *)

Lemma calm_replace d temporary destination b :
  d.(kd_faults) = [] -> temporary <> destination -> d.(kd_entries) !! temporary = None ->
  en_kind <$> d.(kd_entries) !! destination <> Some DirectoryFile ->
  exists d', replace_exclusive temporary destination b d = (Ok tt, d')
    /\ d'.(kd_faults) = [] /\ is_Some (d'.(kd_entries) !! destination).
Proof.
  destruct d as [m v clock fs]. cbn. intros -> Hne Ht Hd.
  unfold replace_exclusive, publish_file, try, create_new, sbind, dir_call, dir_fault, sget, sret, smodify. cbn. rewrite Ht.
  unfold write_file, rename_file, sync_directory, sbind, dir_call, dir_fault, sget, smodify, fill_file, change_entries. cbn.
  rewrite lookup_alter_eq, lookup_insert_eq. cbn. rewrite lookup_alter_ne, lookup_insert_ne by done.
  rewrite bool_decide_eq_false_2 by done. cbn. eexists. split_and!; [done|done|]. cbn. rewrite lookup_insert_eq. by eexists.
Qed.

Section Calm.
Context `{Sha2, ReceiptCodec, CheckpointCodec}.

(** What is to be written is JSON within the limit, and its temporary name is free. *)
Definition can_write (s : CheckpointStore) (c : WorkflowCheckpoint) (nonce : Uuid) : Prop :=
  s.(ks_dir).(kd_faults) = [] /\ (exists b, checkpoint_bytes c = Ok b /\ blen b <= s.(ks_max_file_bytes))
  /\ s.(ks_dir).(kd_entries) !! TemporaryFile c.(cp_workflow_id) nonce = None
  /\ en_kind <$> s.(ks_dir).(kd_entries) !! CheckpointFile c.(cp_workflow_id) <> Some DirectoryFile.

Lemma calm_write s c nonce : can_write s c nonce -> exists s', write_unlocked c nonce s = (Ok tt, s').
Proof.
  intros (Hf & (b & Eb & Hlen) & Ht & Hd).
  destruct (calm_replace (ks_dir s) (TemporaryFile (cp_workflow_id c) nonce) (CheckpointFile (cp_workflow_id c)) b Hf ltac:(done) Ht Hd)
    as (d' & Er & Hf' & [e He]).
  unfold write_unlocked, sbind at 1. rewrite (calm_version s Hf). unfold sbind at 1, sget. unfold sbind at 1, slift. rewrite Eb.
  cbn [rbind]. unfold bounded. destruct (Z.ltb_spec (ks_max_file_bytes s) (blen b)); [lia|]. cbn [map_err].
  unfold sbind at 1, on_dir at 1. rewrite Er. cbn [map_err]. unfold sbind at 1. cbn.
  destruct (bool_decide _); [|by eexists]. unfold sbind, on_dir, metadata, directory_version, dir_call, dir_fault, sbind, sget, slift, smodify, sret.
  cbn. rewrite Hf'. cbn. rewrite He. cbn. rewrite Hf'. cbn. by eexists.
Qed.

Lemma calm_read_bytes s id c :
  s.(ks_dir).(kd_faults) = [] -> stored s id = Some c ->
  exists b, read_bytes id s = (Ok b, s) /\ decode_checkpoint b id = Ok c.
Proof.
  intros Hf Hst. unfold stored in Hst. apply bind_Some in Hst as (e & Em & Ee). unfold read_bytes, sbind, sget.
  destruct (calm_read s Hf (CheckpointFile id)) as (y & -> & Hy). rewrite Em in Hy. unfold entry_checkpoint in Ee.
  destruct (readable _ e); [|done]. rewrite Hy. exists (en_bytes e). split; [done|].
  destruct (decode_checkpoint (en_bytes e) id); [|done]. by injection Ee as ->.
Qed.

Lemma calm_read_missing s id :
  s.(ks_dir).(kd_faults) = [] -> s.(ks_dir).(kd_entries) !! CheckpointFile id = None ->
  read_bytes id s = (Err (StoreNotFound id), s).
Proof.
  intros Hf Hm. unfold read_bytes, sbind, sget, try_dir, read_regular_file, dir_call, dir_fault, sbind, sget, sret, sfail, slift.
  rewrite Hf. cbn. rewrite Hm. by destruct s.
Qed.

Lemma calm_save s c nonce :
  can_write s c nonce -> validate_schema c = Ok tt -> admissible s c -> exists s', save c nonce s = (Ok tt, s').
Proof.
  intros Hw Hv Ha. pose proof Hw as (Hf & _). destruct (calm_write s c nonce Hw) as [s' E]. exists s'.
  unfold save, sbind at 1, slift. rewrite Hv. unfold sbind. unfold check_existing, try, sbind at 1. unfold admissible in Ha.
  destruct (kd_entries (ks_dir s) !! CheckpointFile (cp_workflow_id c)) eqn:Ee.
  - destruct Ha as (c0 & Hc0 & Hsid). destruct (calm_read_bytes s _ c0 Hf Hc0) as (b & -> & Eb). unfold sbind, slift. rewrite Eb.
    rewrite Hsid, N.eqb_refl. exact E.
  - by rewrite (calm_read_missing s _ Hf Ee).
Qed.

Lemma calm_lock s id c a :
  s.(ks_dir).(kd_faults) = [] -> stored s id = Some c -> checkpoint_authority_digest c = Ok a ->
  exists b, lock_snapshot id s = (Ok (MkLockedCheckpointSnapshot c a (checkpoint_digest b)), s) /\ read_bytes id s = (Ok b, s).
Proof.
  intros Hf Hst Ea. destruct (calm_read_bytes s id c Hf Hst) as (b & Er & Ed). exists b. split; [|done].
  unfold lock_snapshot, sbind, slift. by rewrite Er, Ed, Ea.
Qed.

(** A snapshot of what the file holds. *)
Definition fresh_snapshot (s : CheckpointStore) (id : WorkflowId) (k : LockedCheckpointSnapshot) : Prop :=
  k.(lk_checkpoint).(cp_workflow_id) = id /\ exists b, read_bytes id s = (Ok b, s) /\ k.(lk_content_digest) = checkpoint_digest b.

Lemma calm_verify s id k : fresh_snapshot s id k -> verify_unchanged k s = (Ok tt, s).
Proof.
  intros (Hid & b & Er & Eb). unfold verify_unchanged, sbind. rewrite Hid, Er, Eb. by rewrite bool_decide_eq_true_2.
Qed.

Lemma calm_update s id k c nonce a :
  fresh_snapshot s id k -> c.(cp_workflow_id) = id -> c.(cp_session_id) = k.(lk_checkpoint).(cp_session_id) ->
  validate_schema c = Ok tt -> can_write s c nonce -> checkpoint_authority_digest c = Ok a ->
  exists k' s', save_if_unchanged k c nonce s = (Ok k', s').
Proof.
  intros Hk Hw Hs Hv Hcan Ea. destruct (calm_write s c nonce Hcan) as [s' E]. destruct Hcan as (_ & (b & Eb & _) & _).
  pose proof Hk as (Hid & _). unfold save_if_unchanged, sbind, slift. rewrite (calm_verify s id k Hk).
  rewrite Hw, Hid, Hs, !N.eqb_refl. cbn. rewrite Hv, E. unfold map_err. rewrite Eb, Ea. by do 2 eexists.
Qed.
End Calm.
