(* ===== verification/CheckpointStoreThms.v ===== *)
(** * What the checkpoint store guarantees

    A checkpoint is replaced as a whole or not at all, its session never changes, only
    [remove] makes it go away, and a listing is exact. *)

From S2P Require Import Prelude Text SkillTypes Receipt Ledger Json Checkpoint CheckpointStore CheckpointStoreInv CheckpointStoreSteps CheckpointStoreList CheckpointStoreIndex CheckpointStoreCalm.

(** ** Calls *)

Inductive StoreCall :=
| CallSave (c : WorkflowCheckpoint) (nonce : Uuid)
| CallUpdate (id : WorkflowId) (f : WorkflowCheckpoint -> WorkflowCheckpoint) (nonce : Uuid)
| CallLoad (id : WorkflowId)
| CallRemove (id : WorkflowId)
| CallSaveIssuance (id : WorkflowId) (i : SkillIssuedDecision) (nonce : Uuid)
| CallLoadIssuance (id : WorkflowId)
| CallRemoveIssuance (id : WorkflowId)
| CallList (session_id : SessionId) (limit : nat)
| CallReopen
| CallFaults (fs : list Fault).

Section Guarantees.
Context `{Sha2, ReceiptCodec, CheckpointCodec, !CheckpointCodecLaws}.

(** A holder of a snapshot writes a changed checkpoint. *)
Definition update (id : WorkflowId) (f : WorkflowCheckpoint -> WorkflowCheckpoint) (nonce : Uuid)
    : StoreIO LockedCheckpointSnapshot :=
  do k <- lock_snapshot id;
  save_if_unchanged k (f k.(lk_checkpoint)) nonce.

Definition store_step (call : StoreCall) (s : CheckpointStore) : CheckpointStore :=
  match call with
  | CallSave c nonce => (save c nonce s).2
  | CallUpdate id f nonce => (update id f nonce s).2
  | CallLoad id => (load id s).2
  | CallRemove id => (remove id s).2
  | CallSaveIssuance id i nonce => (save_skill_issuance id i nonce s).2
  | CallLoadIssuance id => (load_skill_issuance id s).2
  | CallRemoveIssuance id => (remove_skill_issuance id s).2
  | CallList session_id limit => (list_for_session session_id limit s).2
  | CallReopen => MkCheckpointStore s.(ks_dir) empty_index s.(ks_max_file_bytes)
  | CallFaults fs => s <| ks_dir := s.(ks_dir) <| kd_faults := fs |> |>
  end.

(** Reached by calls from any directory; in a careful run no call of a listing fails. *)
Inductive reached (careful : bool) : CheckpointStore -> Prop :=
| reached_open d max : reached careful (MkCheckpointStore d empty_index max)
| reached_step s call :
    reached careful s ->
    (forall session_id limit, careful = true -> call = CallList session_id limit -> s.(ks_dir).(kd_faults) = []) ->
    reached careful (store_step call s).

Lemma triple_result {S E A} (P : S -> Prop) (m : ST S E A) Q F (R : S -> Prop) s :
  triple P m Q F -> P s -> (forall a s, Q a s -> R s) -> (forall e s, F e s -> R s) -> R (m s).2.
Proof. intros Hm Hp HQ HF. destruct (m s) as [r s'] eqn:Em. pose proof (Hm s r s' Hp Em) as Hr. destruct r; eauto. Qed.

(** What a call may do to the files and the index. *)
Inductive effect (s : CheckpointStore) : StoreCall -> CheckpointStore -> Prop :=
| effect_same call s' : same_store s s' -> effect s call s'
| effect_saved c nonce s' : saved_or_kept s c nonce s' -> effect s (CallSave c nonce) s'
| effect_updated id f c0 nonce s' :
    stored s id = Some c0 -> (f c0).(cp_workflow_id) = id -> (f c0).(cp_session_id) = c0.(cp_session_id) ->
    saved_or_kept s (f c0) nonce s' -> effect s (CallUpdate id f nonce) s'
| effect_dropped id s' : dropped s id s' -> effect s (CallRemove id) s'
| effect_elsewhere call id s' : elsewhere s id s' -> effect s call s'
| effect_listed session_id limit s' : browsing s s' -> effect s (CallList session_id limit) s'
| effect_reopened : effect s CallReopen (MkCheckpointStore s.(ks_dir) empty_index s.(ks_max_file_bytes))
| effect_faults fs : effect s (CallFaults fs) (s <| ks_dir := s.(ks_dir) <| kd_faults := fs |> |>).

Lemma triple_update s0 id f nonce :
  triple (same_store s0) (update id f nonce)
    (fun k s => exists c0, stored s0 id = Some c0 /\ (f c0).(cp_workflow_id) = id
       /\ (f c0).(cp_session_id) = c0.(cp_session_id) /\ saved s0 (f c0) nonce s /\ k.(lk_checkpoint) = f c0)
    (fun _ => effect s0 (CallUpdate id f nonce)).
Proof.
  unfold update. eapply triple_bind.
  { intros s r s' Hs E. pose proof (triple_lock s0 id s r s' Hs E) as Hr. destruct r; [exact Hr|by apply effect_same]. }
  intros k. apply triple_pure. intros Hk. set (c := f (lk_checkpoint k)).
  pose proof (stored_facts _ _ _ Hk) as [_ Hid].
  intros s r s' Hs E. pose proof (triple_save_if_unchanged s0 id k c nonce Hk s r s' Hs E) as Hr.
  destruct (decide (cp_workflow_id c = id /\ cp_session_id c = cp_session_id (lk_checkpoint k))) as [[Ew Es]|Hne].
  - destruct r as [k'|].
    + destruct Hr as (Hsv & _ & Hk'). exists (lk_checkpoint k). done.
    + by apply (effect_updated s0 id f (lk_checkpoint k) nonce).
  - revert E. unfold save_if_unchanged, sbind at 1. destruct (verify_unchanged k s) as [[[]|] s1] eqn:Ev;
      pose proof (triple_verify s0 k s _ s1 Hs Ev) as Hv; [|intros [= <- <-]; by apply effect_same].
    unfold sbind, slift, refuse_if. rewrite Hid. destruct (N.eqb_spec (cp_workflow_id c) id); cbn [negb];
      [|intros [= <- <-]; by apply effect_same].
    destruct (N.eqb_spec (cp_session_id c) (cp_session_id (lk_checkpoint k))); cbn [negb];
      [by destruct Hne|intros [= <- <-]; by apply effect_same].
Qed.

Lemma step_effect s call : well_placed s.(ks_session_index) -> effect s call (store_step call s).
Proof.
  intros Hw. destruct call as [c nonce|id f nonce|id|id|id i nonce|id|id|sid limit| |fs]; cbn [store_step].
  - apply (triple_result _ _ _ _ _ _ (triple_save s c nonce) (same_refl s));
      [intros; by apply effect_saved, saved_kept|intros; by apply effect_saved].
  - apply (triple_result _ _ _ _ _ _ (triple_update s id f nonce) (same_refl s)).
    + intros k s' (c0 & ? & ? & ? & Hs & _). apply (effect_updated s id f c0); try done. by apply saved_kept.
    + done.
  - apply (triple_result _ _ _ _ _ _ (triple_load s id) (same_refl s)); [intros ? ? [? _]|intros]; by apply effect_same.
  - apply (triple_result _ _ _ _ _ _ (triple_remove s id) (same_refl s)).
    + intros _ s' [?|[? _]]; [by apply effect_dropped|by apply effect_same].
    + intros _ s' [?|?]; [by apply effect_dropped|by apply effect_same].
  - apply (triple_result _ _ _ _ _ _ (triple_save_issuance s id i nonce) (same_refl s));
      [intros ? ? [? _]|intros]; by apply (effect_elsewhere s _ id).
  - apply (triple_result _ _ _ _ _ _ (triple_load_issuance s id) (same_refl s)); intros; by apply effect_same.
  - apply (triple_result _ _ _ _ _ _ (triple_remove_issuance s id) (same_refl s)); intros; by apply (effect_elsewhere s _ id).
  - apply (triple_result _ _ _ _ _ _ (browse_list s sid limit)); [done|intros ? ? [? _]|intros]; by apply effect_listed.
  - apply effect_reopened.
  - apply effect_faults.
Qed.

Lemma effect_placed s call s' : well_placed s.(ks_session_index) -> effect s call s' -> well_placed s'.(ks_session_index).
Proof.
  assert (forall c nonce s', well_placed s.(ks_session_index) -> saved_or_kept s c nonce s' -> well_placed s'.(ks_session_index)) as Hsave.
  { intros c nonce s1 Hw [(_ & -> & _)|(_ & _ & b & _ & _ & _ & _ & Hx)]; [done|].
    destruct Hx as [-> |[-> |(_ & _ & e & v & _ & -> & _)]]; [done|done|]. by apply (well_placed_update c _ e). }
  intros Hw [call' s1 (_ & -> & _)|c nonce s1 Hs|id f c0 nonce s1 _ _ _ Hs|id s1 (_ & _ & Hx)|call' id s1 (_ & -> & _)|sid limit s1 (_ & _ & ?)| |fs];
    try done; try (by eapply Hsave).
  destruct Hx as [-> |[-> |(_ & _ & v & -> & _)]]; [done|done|]. intros sid refs r. cbn.
  intros [E _]%map_lookup_filter_Some. rewrite lookup_fmap in E. destruct (sx_sessions _ !! sid) as [refs0|] eqn:E0; [|done].
  cbn in E. injection E as <-. intros [_ Hr]%list_elem_of_filter. by apply (Hw sid refs0).
Qed.

Lemma reached_placed careful s : reached careful s -> well_placed s.(ks_session_index).
Proof.
  induction 1 as [d max|s call _ IH _].
  - intros sid refs r. cbn. by rewrite lookup_empty.
  - eapply effect_placed; [done|]. by apply step_effect.
Qed.

Lemma reached_index s : reached true s -> index_ok s.
Proof.
  induction 1 as [d max|s call Hr IH Hcalm]; [by apply index_ok_none|].
  assert ((exists sid limit, call = CallList sid limit) \/ ~ exists sid limit, call = CallList sid limit) as [(sid & limit & ->)|Hno].
  { destruct call; eauto; right; by intros (? & ? & ?). }
  { destruct (calm_list s sid limit (Hcalm sid limit eq_refl eq_refl) IH) as (cs & s' & E & _ & _ & Hok & _). cbn. by rewrite E. }
  pose proof (step_effect s call (reached_placed _ _ Hr)) as He.
  destruct He as [call' s1 Hs|c nonce s1 Hs|id f c0 nonce s1 _ _ _ Hs|id s1 Hs|call' id s1 (Hmv & Hx & Hm & _)|sid limit s1 _| |fs].
  - by apply (index_ok_same s).
  - by apply (index_ok_saved s c nonce).
  - by apply (index_ok_saved s (f c0) nonce).
  - by apply (index_ok_dropped s id).
  - by apply (index_ok_moved s).
  - destruct Hno. eauto.
  - by apply index_ok_none.
  - by apply (index_ok_moved s).
Qed.

(** ** Theorems *)

(** C33: whichever call of the file system fails, saving a checkpoint leaves every other
    file as it was and the workflow's own as it was or replaced as a whole; after a save
    that succeeds, loading reads the same checkpoint once no call fails; and a valid
    checkpoint of the workflow's session that fits is saved when no call fails. *)
Theorem save_is_atomic s c nonce r s' :
  save c nonce s = (r, s') ->
  (forall name, name <> CheckpointFile c.(cp_workflow_id) -> name <> TemporaryFile c.(cp_workflow_id) nonce ->
     s'.(ks_dir).(kd_entries) !! name = s.(ks_dir).(kd_entries) !! name)
  /\ (stored s' c.(cp_workflow_id) = stored s c.(cp_workflow_id) \/ stored s' c.(cp_workflow_id) = Some c)
  /\ (r = Ok tt -> exists s'', load c.(cp_workflow_id) (store_step (CallFaults []) s') = (Ok c, s''))
  /\ (can_write s c nonce -> validate_schema c = Ok tt -> admissible s c -> r = Ok tt).
Proof.
  intros E. pose proof (triple_save s c nonce s r s' (same_refl s) E) as Hr.
  assert (saved_or_kept s c nonce s') as Hk by (destruct r; [by apply saved_kept|done]).
  destruct (saved_or_kept_stored s c nonce s' Hk) as (Ho & _ & Hd). split_and!; [done|tauto| |].
  - intros ->. eexists. apply calm_load; [done|]. exact (saved_stored s c nonce s' Hr).
  - intros Hw Hv Ha. destruct (calm_save s c nonce Hw Hv Ha) as [s1 E1]. congruence.
Qed.

(** In every run, with failing calls and restarts, a stored checkpoint goes away only
    by [remove], is only replaced by the checkpoint a caller has written, and never
    changes its session. *)
Theorem checkpoint_session_is_fixed careful s call id c :
  reached careful s -> stored s id = Some c -> call <> CallRemove id ->
  exists c', stored (store_step call s) id = Some c' /\ c'.(cp_session_id) = c.(cp_session_id)
    /\ (c' = c \/ (exists nonce, call = CallSave c' nonce) \/ (exists f nonce, call = CallUpdate id f nonce /\ c' = f c)).
Proof.
  intros Hr Hst Hne. pose proof (step_effect s call (reached_placed _ _ Hr)) as He. remember (store_step call s) as s1.
  assert (forall s2, stored s2 id = stored s id -> exists c', stored s2 id = Some c' /\ c'.(cp_session_id) = c.(cp_session_id)
    /\ (c' = c \/ (exists nonce, call = CallSave c' nonce) \/ (exists f nonce, call = CallUpdate id f nonce /\ c' = f c))) as Hkept.
  { intros s2 E. exists c. rewrite E. auto. }
  clear Heqs1. destruct He as [call' s1 Hs|c1 nonce s1 Hs|id1 f c0 nonce s1 E0 Ew Es Hs|id1 s1 Hs|call' id1 s1 Hs|sid limit s1 Hs| |fs];
    try (by apply Hkept).
  - by apply Hkept, same_stored.
  - destruct (saved_or_kept_stored s c1 nonce s1 Hs) as (_ & Ho & Hd).
    destruct (decide (id = cp_workflow_id c1)) as [->|Hid]; [|by apply Hkept, Ho].
    destruct Hd as [Hd|(Hd & _ & Ha)]; [by apply Hkept|]. exists c1. split; [done|]. split; [|eauto].
    unfold admissible in Ha. pose proof Hst as Hst'. unfold stored in Hst'. destruct (kd_entries (ks_dir s) !! _); [|done].
    destruct Ha as (c2 & Hc2 & <-). congruence.
  - destruct (saved_or_kept_stored s (f c0) nonce s1 Hs) as (_ & Ho & Hd). rewrite Ew in *.
    destruct (decide (id = id1)) as [->|Hid]; [|by apply Hkept, Ho].
    rewrite E0 in Hst. injection Hst as ->. destruct Hd as [Hd|(Hd & _)]; [by apply Hkept|].
    exists (f c). split; [done|]. split; [done|]. right; right. by exists f, nonce.
  - destruct (dropped_stored s id1 s1 Hs) as [_ Ho]. apply Hkept, Ho. congruence.
  - by apply Hkept, (elsewhere_stored s id1).
  - apply Hkept. destruct Hs as ((E & _) & Em & _). unfold stored. by rewrite E, Em.
Qed.

(** C22: after any run in which no call of a listing failed, a listing without faults
    succeeds, holds each stored checkpoint of the session at most once and nothing else,
    newest first and within the limit, and leaves one out only when the limit is reached by
    checkpoints that are not older. *)
Theorem listing_is_exact s session_id limit :
  reached true s -> s.(ks_dir).(kd_faults) = [] ->
  exists cs s', list_for_session session_id limit s = (Ok cs, s')
    /\ (length cs <= limit)%nat /\ StronglySorted newer cs /\ NoDup (cp_workflow_id <$> cs)
    /\ (forall c, c ∈ cs -> stored s c.(cp_workflow_id) = Some c /\ c.(cp_session_id) = session_id)
    /\ (forall id c, stored s id = Some c -> c.(cp_session_id) = session_id ->
         c ∈ cs \/ (length cs = limit /\ Forall (fun c' => c.(cp_created_at) <= c'.(cp_created_at)) cs)).
Proof.
  intros Hr Hcalm. destruct (calm_list s session_id limit Hcalm (reached_index s Hr)) as (cs & s' & E & _ & _ & _ & Hn & Hc).
  assert (browsing s s) as Hb by (split_and!; [done|done|by eapply reached_placed]).
  pose proof (browse_list s session_id limit s _ s' Hb E) as (_ & Hlen & Hsort & Hf).
  exists cs, s'. split_and!; try done. intros c Hin. by eapply Forall_forall in Hf.
Qed.

(** Whatever calls fail, in the listing or before, a listing that is answered holds
    only stored checkpoints of the session, newest first and within the limit. *)
Theorem listing_is_sound s session_id limit cs s' :
  reached false s -> list_for_session session_id limit s = (Ok cs, s') ->
  (length cs <= limit)%nat /\ StronglySorted newer cs
  /\ forall c, c ∈ cs -> stored s c.(cp_workflow_id) = Some c /\ c.(cp_session_id) = session_id.
Proof.
  intros Hr E. assert (browsing s s) as Hb by (split_and!; [done|done|by eapply reached_placed]).
  pose proof (browse_list s session_id limit s _ s' Hb E) as (_ & Hlen & Hsort & Hf).
  split_and!; try done. intros c Hin. by eapply Forall_forall in Hf.
Qed.
End Guarantees.

(** ** A concrete store *)

Module SampleCheckpoints.
#[export] Existing Instance SampleJson.sha.
#[export] Instance receipts : ReceiptCodec :=
  {| outcome_json_sha256 _ _ _ := Ok "0123456789abcdef0123456789abcdef0123456789abcdef0123456789abcdef";
     receipt_json_len _ := Ok 1 |}.

(** Checkpoints of a table, written as their place. *)
Definition place_of (table : list WorkflowCheckpoint) (c : WorkflowCheckpoint) : option nat :=
  fst <$> list_find (fun c' => c' = c) table.

Definition table_codec (table : list WorkflowCheckpoint) : CheckpointCodec := {|
  checkpoint_bytes c := ok_or ((fun n => replicate n newline) <$> place_of table c) "unknown";
  checkpoint_of_bytes b := ok_or (table !! length b) "unknown";
  issuance_bytes _ := Err "unknown";
  issuance_of_bytes _ := Err "unknown";
|}.

Lemma table_roundtrip table c b :
  checkpoint_bytes (CheckpointCodec := table_codec table) c = Ok b ->
  checkpoint_of_bytes (CheckpointCodec := table_codec table) b = Ok c.
Proof.
  cbn. unfold place_of. destruct (list_find _ table) as [[n c']|] eqn:E; [|done]. cbn. intros [= <-].
  apply list_find_Some in E as (En & -> & _). by rewrite length_replicate, En.
Qed.

Definition checkpoint (id : WorkflowId) (session : SessionId) (created : Time) : WorkflowCheckpoint :=
  MkWorkflowCheckpoint 1 8%N id 2%N session 4%N "http://a" "http://a" None None Reconciliable [] [] [] [] [] created.

Definition table : list WorkflowCheckpoint :=
  [checkpoint 1%N 3%N 10; checkpoint 2%N 3%N 20; checkpoint 5%N 6%N 30].
#[export] Instance codec : CheckpointCodec := table_codec table.
#[export] Instance codec_laws : CheckpointCodecLaws.
Proof. split. intros c b _. apply table_roundtrip. Qed.

Definition empty_store : CheckpointStore := MkCheckpointStore (MkDirectory ∅ 0 0 []) empty_index 4096.
Definition saves : list StoreCall := [CallSave (checkpoint 1%N 3%N 10) 11%N; CallSave (checkpoint 2%N 3%N 20) 12%N].
Definition store : CheckpointStore := fold_left (fun s call => store_step call s) saves empty_store.

Lemma reached_store careful : reached careful store.
Proof. repeat (apply reached_step; [|done]). apply reached_open. Qed.

Lemma store_calm : kd_faults (ks_dir store) = [].
Proof. by_eval. Qed.

Lemma store_has : stored store 1%N = Some (checkpoint 1%N 3%N 10).
Proof. by_eval. Qed.

Lemma save_is_atomic_witness :
  let s' := (save (checkpoint 1%N 3%N 10) 11%N empty_store).2 in
  stored s' 1%N = stored empty_store 1%N \/ stored s' 1%N = Some (checkpoint 1%N 3%N 10).
Proof.
  exact (proj1 (proj2 (save_is_atomic empty_store (checkpoint 1%N 3%N 10) 11%N _ _ (surjective_pairing _)))).
Defined.

Lemma checkpoint_session_is_fixed_witness :
  exists c', stored (store_step (CallSave (checkpoint 5%N 6%N 30) 13%N) store) 1%N = Some c'
    /\ c'.(cp_session_id) = 3%N.
Proof.
  destruct (checkpoint_session_is_fixed true store (CallSave (checkpoint 5%N 6%N 30) 13%N) 1%N
    (checkpoint 1%N 3%N 10) (reached_store true) store_has) as (c' & E & Es & _); [discriminate|].
  exact (ex_intro _ c' (conj E Es)).
Defined.

Lemma listing_is_exact_witness :
  exists cs s', list_for_session 3%N 1 store = (Ok cs, s') /\ (length cs <= 1)%nat.
Proof.
  destruct (listing_is_exact store 3%N 1 (reached_store true) store_calm) as (cs & s' & E & Hl & _).
  exact (ex_intro _ cs (ex_intro _ s' (conj E Hl))).
Defined.

Lemma store_listed : (list_for_session 3%N 1 store).1 = Ok [checkpoint 2%N 3%N 20].
Proof. by_eval. Qed.

Lemma listing_is_sound_witness :
  forall c, c ∈ [checkpoint 2%N 3%N 20] -> stored store c.(cp_workflow_id) = Some c /\ c.(cp_session_id) = 3%N.
Proof.
  exact (proj2 (proj2 (listing_is_sound store 3%N 1 _ _ (reached_store false) (pair_fst _ _ store_listed)))).
Defined.

(** One read fails while the index is rebuilt, after a restart. *)
Definition faulty : list Fault := repeat IoOk 4%nat ++ [IoFails "interrupted"].
Definition interrupted_listing : CheckpointStore :=
  fold_left (fun s call => store_step call s)
    [CallSave (checkpoint 1%N 3%N 10) 11%N; CallReopen; CallFaults faulty; CallList 3%N 5; CallFaults []] empty_store.

(** A checkpoint that could not be read once stays hidden from listings, though it can be
    loaded. *)
Lemma unreadable_once_is_hidden :
  (list_for_session 3%N 5 interrupted_listing).1 = Ok []
  /\ (load 1%N interrupted_listing).1 = Ok (checkpoint 1%N 3%N 10).
Proof. split; by_eval. Qed.
End SampleCheckpoints.
