(* ===== verification/Recovery.v ===== *)
(** * The recovery coordinator

    [crates/page-runtime/src/recovery.rs]: what is done with a workflow's checkpoint after a
    browser was lost, and the receipts of recovered commands.

    A call of the worker pool is answered by a function of the calls before it, so every
    behaviour of a browser is covered; the calls are kept in the order they were made.
    Times, the new attempt and the names of temporary files are arguments.  The lock on the
    workflow makes an operation one step; metrics and log lines are left out. *)

From S2P Require Import Prelude Text SkillTypes Receipt Ledger Json Commands Checkpoint CheckpointStore.

(** ** The worker pool *)

Inductive BrowserCall :=
| InvalidateSession (session_id : SessionId)
| Lease (session_id : SessionId)
| OpenPage (lease : SessionId) (page_id : PageId)
| Navigate (lease : SessionId) (page_id : PageId) (command : NavigateCommand)
| Inspect (lease : SessionId) (page_id : PageId) (command : InspectCommand).

Class BrowserPool := {
  pool_answer : list BrowserCall -> BrowserCall -> result (list Evidence) CommandError;
}.

(** ** State *)

Record RecoveryCoordinator := MkRecoveryCoordinator {
  rc_store : CheckpointStore;
  rc_workers : option (list BrowserCall);
}.
#[export] Instance eta_RecoveryCoordinator : Eta RecoveryCoordinator := fun c =>
  MkRecoveryCoordinator (rc_store c) (rc_workers c).

Definition RecIO (A : Type) : Type := ST RecoveryCoordinator RecoveryError A.

(** A call of the store, with the [From] of its error. *)
Definition on_store {A} (m : StoreIO A) : RecIO A := fun c =>
  let '(r, s) := m c.(rc_store) in (map_err RecoveryStore r, c <| rc_store := s |>).

Definition browser_error (e : CommandError) : RecoveryError := Browser e.(ce_message).

Record PreparedRecovery := MkPreparedRecovery {
  pr_checkpoint : WorkflowCheckpoint;
  pr_lease : SessionId;
}.

(** [VerifiedRecoveryCheckpoint] wraps the snapshot. *)
Definition VerifiedRecoveryCheckpoint : Type := LockedCheckpointSnapshot.

Definition ensure_persisted_checkpoint_verified (c : WorkflowCheckpoint) : result unit RecoveryError :=
  let failures := evaluate_invariants c.(cp_invariants) c.(cp_evidence) in
  refuse_if (negb (is_match failures)) (InvariantMismatch (join_failures failures)).

Definition push_decision (decision : RecoveryDecision) (now : Time) (c : WorkflowCheckpoint) : WorkflowCheckpoint :=
  c <| cp_recovery_history := c.(cp_recovery_history) ++ [MkRecoveryRecord now decision] |>.

Definition decision_checkpoint_id (decision : RecoveryDecision) : CheckpointId :=
  match decision with
  | Resumed id _ _ | NeedsReconciliation id _ _ _ | Restarted id _ _ => id
  end.

Definition restart_decision (c : WorkflowCheckpoint) (attempt_id : AttemptId) (reason : string)
    (evidence : list Evidence) : RecoveryDecision :=
  Restarted c.(cp_checkpoint_id)
    (MkRestartLineage c.(cp_workflow_id) c.(cp_attempt_id) attempt_id reason) evidence.

Definition interactive_navigation (url : string) : NavigateCommand := MkNavigateCommand url Interactive 30000.
Definition inspect_selector (selector : option string) : InspectCommand := MkInspectCommand selector None false.

(** The selectors of the text invariants. *)
Definition text_selectors (invariants : list CheckpointInvariant) : list string :=
  omap (fun i => match i with InvariantText selector _ => Some selector | _ => None end) invariants.

(** The first receipt of a command. *)
Definition receipt_of (identity : RecoveryCommandIdentity) (receipts : list RecoveryReceipt) : option RecoveryReceipt :=
  List.find (fun r => bool_decide (r.(rr_identity) = identity)) receipts.

(** The first receipt of a command changes. *)
Fixpoint change_receipt (identity : RecoveryCommandIdentity) (f : RecoveryReceipt -> RecoveryReceipt)
    (receipts : list RecoveryReceipt) : list RecoveryReceipt :=
  match receipts with
  | [] => []
  | r :: receipts =>
      if bool_decide (r.(rr_identity) = identity) then f r :: receipts
      else r :: change_receipt identity f receipts
  end.

Definition transition_allowed (from to : RecoveryReceiptState) : bool :=
  match from, to with
  | Unresolved, PendingJournal | PendingJournal, Committed => true
  | _, _ => false
  end.

Section Coordinator.
Context `{Sha2, ReceiptCodec, CheckpointCodec, BrowserPool}.

(** [self.workers.ok_or(WorkersUnavailable)]. *)
Definition need_workers : RecIO unit :=
  do c <- sget;
  match c.(rc_workers) with Some _ => sret tt | None => sfail WorkersUnavailable end.

(** A call of the pool, with [map_err(browser_error)]. *)
Definition ask (call : BrowserCall) : RecIO (list Evidence) := fun c =>
  match c.(rc_workers) with
  | None => (Err WorkersUnavailable, c)
  | Some calls => (map_err browser_error (pool_answer calls call), c <| rc_workers := Some (calls ++ [call]) |>)
  end.

(** ** Skill decisions *)

Definition persist_skill_issuance (workflow_id : WorkflowId) (i : SkillIssuedDecision) (nonce : Uuid) : RecIO unit :=
  do identity <- slift (ok_or i.(si_command_identity) (InvariantMismatch "skill issuance lacks command identity"));
  slift (refuse_if (negb (N.eqb identity.(ci_workflow_id) workflow_id)
                    || negb (N.eqb identity.(ci_session_id) i.(si_session_id)))
           (InvariantMismatch "skill issuance authority does not match checkpoint workflow")) ;;
  on_store (save_skill_issuance workflow_id i nonce).

Definition coordinator_load_skill_issuance (workflow_id : WorkflowId) : RecIO (option SkillIssuedDecision) :=
  on_store (load_skill_issuance workflow_id).

Definition clear_skill_issuance (workflow_id : WorkflowId) : RecIO unit :=
  on_store (remove_skill_issuance workflow_id).

(** ** Checkpoints *)

Definition save_verified (c : WorkflowCheckpoint) (evidence : list Evidence) (nonce : Uuid) : RecIO WorkflowCheckpoint :=
  let failures := evaluate_invariants c.(cp_invariants) evidence in
  slift (refuse_if (negb (is_match failures)) (InvariantMismatch (join_failures failures))) ;;
  let c := c <| cp_evidence := evidence |> in
  on_store (save c nonce) ;;
  sret c.

Definition load_checkpoint (workflow_id : WorkflowId) : RecIO WorkflowCheckpoint := on_store (load workflow_id).

Definition lock_verified_checkpoint (workflow_id : WorkflowId) : RecIO VerifiedRecoveryCheckpoint :=
  do k <- on_store (lock_snapshot workflow_id);
  slift (ensure_persisted_checkpoint_verified k.(lk_checkpoint)) ;;
  sret k.

Definition checkpoint_session (workflow_id : WorkflowId) : RecIO SessionId :=
  do c <- load_checkpoint workflow_id;
  sret c.(cp_session_id).

Definition workflows_for_session (session_id : SessionId) (limit : nat) : RecIO (list WorkflowId) := fun c =>
  let '(r, s) := list_for_session session_id limit c.(rc_store) in
  (match r with Ok cs => Ok (cp_workflow_id <$> cs) | Err _ => Err WorkersUnavailable end, c <| rc_store := s |>).

(** ** Recovering *)

Definition stabilize_recovery_pool (session_id : SessionId) (replace_session : bool) : RecIO unit :=
  need_workers ;;
  if replace_session then do _ <- ask (InvalidateSession session_id); sret tt else sret tt.

Definition reattach_recovery_pool (c : WorkflowCheckpoint) : RecIO PreparedRecovery :=
  need_workers ;;
  do _ <- ask (Lease c.(cp_session_id));
  do _ <- ask (OpenPage c.(cp_session_id) c.(cp_page_id));
  sret (MkPreparedRecovery c c.(cp_session_id)).

Fixpoint inspect_selectors (lease : SessionId) (page_id : PageId) (selectors : list string) (evidence : list Evidence)
    : RecIO (list Evidence) :=
  match selectors with
  | [] => sret evidence
  | selector :: selectors =>
      do more <- ask (Inspect lease page_id (inspect_selector (Some selector)));
      inspect_selectors lease page_id selectors (evidence ++ more)
  end.

(** The evidence a page gives about a checkpoint. *)
Definition observe (lease : SessionId) (c : WorkflowCheckpoint) : RecIO (list Evidence) :=
  do evidence <- ask (Navigate lease c.(cp_page_id) (interactive_navigation c.(cp_current_url)));
  do more <- ask (Inspect lease c.(cp_page_id) (inspect_selector None));
  inspect_selectors lease c.(cp_page_id) (text_selectors c.(cp_invariants)) (evidence ++ more).

Definition decide_recovery (lease : SessionId) (c : WorkflowCheckpoint) (evidence : list Evidence)
    (attempt_id : AttemptId) : RecIO RecoveryDecision :=
  let failures := evaluate_invariants c.(cp_invariants) evidence in
  if is_match failures then sret (Resumed c.(cp_checkpoint_id) c.(cp_attempt_id) evidence)
  else if bool_decide (c.(cp_recovery_class) = Boundary) then
    sret (NeedsReconciliation c.(cp_checkpoint_id) c.(cp_attempt_id) (join_failures failures) evidence)
  else
    do restart_evidence <- ask (Navigate lease c.(cp_page_id) (interactive_navigation c.(cp_restart_url)));
    sret (restart_decision c attempt_id (join_failures failures) restart_evidence).

(** The decision, and the snapshot after it was recorded. *)
Definition complete_prepared_recovery (verified : VerifiedRecoveryCheckpoint) (prepared : PreparedRecovery)
    (attempt_id : AttemptId) (now : Time) (nonce : Uuid) : RecIO (RecoveryDecision * VerifiedRecoveryCheckpoint) :=
  on_store (verify_unchanged verified) ;;
  let c := prepared.(pr_checkpoint) in
  do evidence <- observe prepared.(pr_lease) c;
  do decision <- decide_recovery prepared.(pr_lease) c evidence attempt_id;
  do k <- on_store (save_if_unchanged verified (push_decision decision now c) nonce);
  sret (decision, k).

Definition recover_locked (verified : VerifiedRecoveryCheckpoint) (replace_session : bool)
    (attempt_id : AttemptId) (now : Time) (nonce : Uuid) : RecIO (RecoveryDecision * VerifiedRecoveryCheckpoint) :=
  on_store (verify_unchanged verified) ;;
  stabilize_recovery_pool verified.(lk_checkpoint).(cp_session_id) replace_session ;;
  do prepared <- reattach_recovery_pool verified.(lk_checkpoint);
  complete_prepared_recovery verified prepared attempt_id now nonce.

Definition recover (workflow_id : WorkflowId) (attempt_id : AttemptId) (now : Time) (nonce : Uuid) : RecIO RecoveryDecision :=
  do verified <- lock_verified_checkpoint workflow_id;
  do r <- recover_locked verified true attempt_id now nonce;
  sret r.1.

Definition recover_for_session (workflow_id : WorkflowId) (session_id : SessionId)
    (attempt_id : AttemptId) (now : Time) (nonce : Uuid) : RecIO RecoveryDecision :=
  do verified <- lock_verified_checkpoint workflow_id;
  slift (refuse_if (negb (N.eqb verified.(lk_checkpoint).(cp_session_id) session_id)) SessionMismatch) ;;
  do r <- recover_locked verified true attempt_id now nonce;
  sret r.1.

Definition recover_after_replacement (workflow_id : WorkflowId) (attempt_id : AttemptId) (now : Time) (nonce : Uuid)
    : RecIO RecoveryDecision :=
  do verified <- lock_verified_checkpoint workflow_id;
  do r <- recover_locked verified false attempt_id now nonce;
  sret r.1.

(** ** Restarting *)

Definition restart_reason : string := "restarted from reviewed durable boundary".

Definition restart_from_locked_boundary (verified : VerifiedRecoveryCheckpoint)
    (attempt_id : AttemptId) (now : Time) (nonce : Uuid) : RecIO (RecoveryDecision * VerifiedRecoveryCheckpoint) :=
  on_store (verify_unchanged verified) ;;
  let c := verified.(lk_checkpoint) in
  need_workers ;;
  do _ <- ask (InvalidateSession c.(cp_session_id));
  do _ <- ask (Lease c.(cp_session_id));
  do _ <- ask (OpenPage c.(cp_session_id) c.(cp_page_id));
  do evidence <- ask (Navigate c.(cp_session_id) c.(cp_page_id) (interactive_navigation c.(cp_restart_url)));
  let decision := restart_decision c attempt_id restart_reason evidence in
  do k <- on_store (save_if_unchanged verified (push_decision decision now c) nonce);
  sret (decision, k).

Definition restart_from_verified_boundary (workflow_id : WorkflowId) (attempt_id : AttemptId) (now : Time) (nonce : Uuid)
    : RecIO RecoveryDecision :=
  do verified <- lock_verified_checkpoint workflow_id;
  do r <- restart_from_locked_boundary verified attempt_id now nonce;
  sret r.1.

Definition prepare_restart_after_stabilization (c : WorkflowCheckpoint) (attempt_id : AttemptId) : RecIO RecoveryDecision :=
  do _ <- reattach_recovery_pool c;
  sret (restart_decision c attempt_id restart_reason []).

Definition prepare_restart_pool (c : WorkflowCheckpoint) (attempt_id : AttemptId) : RecIO RecoveryDecision :=
  stabilize_recovery_pool c.(cp_session_id) true ;;
  prepare_restart_after_stabilization c attempt_id.

Definition prepare_restart_from_locked_boundary (verified : VerifiedRecoveryCheckpoint) (attempt_id : AttemptId)
    : RecIO RecoveryDecision :=
  on_store (verify_unchanged verified) ;;
  prepare_restart_pool verified.(lk_checkpoint) attempt_id.

Definition record_locked_decision (verified : VerifiedRecoveryCheckpoint) (decision : RecoveryDecision)
    (now : Time) (nonce : Uuid) : RecIO VerifiedRecoveryCheckpoint :=
  let c := verified.(lk_checkpoint) in
  slift (refuse_if (negb (N.eqb (decision_checkpoint_id decision) c.(cp_checkpoint_id)))
           (InvariantMismatch "recovery decision checkpoint changed before persistence")) ;;
  on_store (save_if_unchanged verified (push_decision decision now c) nonce).

(** ** Receipts *)

Definition persist_recovery_receipt (receipt : RecoveryReceipt) (nonce : Uuid) : RecIO unit :=
  slift (map_err InvariantMismatch (RecoveryReceipt_validate receipt)) ;;
  do snapshot <- on_store (lock_snapshot receipt.(rr_identity).(rci_workflow_id));
  let c := snapshot.(lk_checkpoint) in
  match receipt_of receipt.(rr_identity) c.(cp_recovery_receipts) with
  | Some existing =>
      if bool_decide (existing = receipt) then sret tt
      else sfail (InvariantMismatch "recovery receipt payload is immutable")
  | None =>
      slift (refuse_if (negb (bool_decide (receipt.(rr_state) = Unresolved)))
               (InvariantMismatch "recovery receipt must start unresolved")) ;;
      do _ <- on_store (save_if_unchanged snapshot
                          (c <| cp_recovery_receipts := c.(cp_recovery_receipts) ++ [receipt] |>) nonce);
      sret tt
  end.

Definition transition_recovery_receipt (identity : RecoveryCommandIdentity) (state : RecoveryReceiptState)
    (nonce : Uuid) : RecIO unit :=
  do snapshot <- on_store (lock_snapshot identity.(rci_workflow_id));
  let c := snapshot.(lk_checkpoint) in
  do receipt <- slift (ok_or (receipt_of identity c.(cp_recovery_receipts))
                         (InvariantMismatch "recovery receipt disappeared"));
  slift (map_err InvariantMismatch (RecoveryReceipt_validate receipt)) ;;
  if bool_decide (receipt.(rr_state) = state) then sret tt else
  slift (refuse_if (negb (transition_allowed receipt.(rr_state) state))
           (InvariantMismatch "invalid recovery receipt state transition")) ;;
  do _ <- on_store (save_if_unchanged snapshot
                      (c <| cp_recovery_receipts := change_receipt identity (fun r => r <| rr_state := state |>)
                                                      c.(cp_recovery_receipts) |>) nonce);
  sret tt.
End Coordinator.
