(* ===== verification/RecoveryInv.v ===== *)
(** * How the coordinator's operations act

    Every operation, with failing calls of the file system and of the browser, either leaves
    the checkpoints alone or replaces one by a copy whose history and receipts have grown;
    what it asks of the browser is described call by call. *)

From S2P Require Import Prelude Text SkillTypes Receipt Ledger Json Commands Checkpoint CheckpointStore CheckpointStoreInv CheckpointStoreSteps CheckpointStoreList Recovery.

(** ** Receipts *)

(** [Unresolved], [PendingJournal], [Committed]. *)
Definition receipt_rank (state : RecoveryReceiptState) : Z :=
  match state with Unresolved => 0 | PendingJournal => 1 | Committed => 2 end.

(** The same receipt, in the same or a later state. *)
Definition advanced (r r' : RecoveryReceipt) : Prop :=
  r' = r <| rr_state := r'.(rr_state) |> /\ receipt_rank r.(rr_state) <= receipt_rank r'.(rr_state).

Lemma advanced_refl r : advanced r r.
Proof. by destruct r. Qed.

Lemma advanced_trans r1 r2 r3 : advanced r1 r2 -> advanced r2 r3 -> advanced r1 r3.
Proof. intros [E1 ?] [E2 ?]. split; [rewrite E2, E1; reflexivity|lia]. Qed.

Lemma advanced_identity r r' : advanced r r' -> rr_identity r' = rr_identity r.
Proof. by intros [-> _]. Qed.

(** Every receipt is kept, in its place, and new ones follow. *)
Definition receipts_advance (l l' : list RecoveryReceipt) : Prop :=
  exists kept new, l' = kept ++ new /\ Forall2 advanced l kept.

Lemma Forall2_advanced_refl l : Forall2 advanced l l.
Proof. induction l; constructor; auto using advanced_refl. Qed.

Lemma receipts_advance_refl l : receipts_advance l l.
Proof. exists l, []. rewrite app_nil_r. split; [done|apply Forall2_advanced_refl]. Qed.

Lemma receipts_advance_trans l1 l2 l3 : receipts_advance l1 l2 -> receipts_advance l2 l3 -> receipts_advance l1 l3.
Proof.
  intros (k1 & n1 & -> & F1) (k2 & n2 & -> & F2). apply Forall2_app_inv_l in F2 as (k3 & n3 & F3 & _ & ->).
  exists k3, (n3 ++ n2). rewrite app_assoc. split; [done|]. revert k3 F3. induction F1 as [|r r' l l' ? ? IH]; intros k3 F3.
  - by inversion_clear F3.
  - inversion_clear F3. constructor; [by eapply advanced_trans|by apply IH].
Qed.

Lemma receipt_of_None identity l : receipt_of identity l = None <-> identity ∉ rr_identity <$> l.
Proof.
  unfold receipt_of. induction l as [|r l IH]; cbn; [split; [intros _; apply not_elem_of_nil|done]|].
  case_bool_decide; [|rewrite IH]; rewrite not_elem_of_cons; naive_solver.
Qed.

Lemma receipt_of_Some identity l r : receipt_of identity l = Some r -> r ∈ l /\ rr_identity r = identity.
Proof.
  unfold receipt_of. intros [Hin E]%List.find_some. apply bool_decide_eq_true in E. by apply list_elem_of_In in Hin.
Qed.

Lemma change_identities identity f l :
  (forall r, rr_identity (f r) = rr_identity r) -> rr_identity <$> change_receipt identity f l = rr_identity <$> l.
Proof.
  intros Hf. induction l as [|r l IH]; [done|]. cbn [change_receipt]. case_bool_decide; rewrite !fmap_cons; [by rewrite Hf|by rewrite IH].
Qed.

Lemma change_advances identity state l r :
  receipt_of identity l = Some r -> transition_allowed r.(rr_state) state = true ->
  Forall2 advanced l (change_receipt identity (fun r => r <| rr_state := state |>) l).
Proof.
  unfold receipt_of. induction l as [|r0 l IH]; [done|]. cbn [List.find change_receipt].
  destruct (bool_decide (rr_identity r0 = identity)).
  - intros [= ->] Ht. constructor; [|apply Forall2_advanced_refl]. split; [by destruct r|].
    cbn. by destruct (rr_state r), state.
  - intros E Ht. constructor; [apply advanced_refl|by apply IH].
Qed.

(** ** What may happen to a checkpoint *)

(** Only history and receipts have changed: the history has grown, receipts have advanced
    and a command still has at most one of them. *)
Record grown (c c' : WorkflowCheckpoint) : Prop := MkGrown {
  grown_rest : c' = c <| cp_recovery_history := c'.(cp_recovery_history) |> <| cp_recovery_receipts := c'.(cp_recovery_receipts) |>;
  grown_history : exists records, c'.(cp_recovery_history) = c.(cp_recovery_history) ++ records;
  grown_receipts : receipts_advance c.(cp_recovery_receipts) c'.(cp_recovery_receipts);
  grown_unique : NoDup (rr_identity <$> c.(cp_recovery_receipts)) -> NoDup (rr_identity <$> c'.(cp_recovery_receipts));
}.

Lemma grown_refl c : grown c c.
Proof.
  split; [by destruct c|exists []; by rewrite app_nil_r|apply receipts_advance_refl|done].
Qed.

Lemma grown_trans c1 c2 c3 : grown c1 c2 -> grown c2 c3 -> grown c1 c3.
Proof.
  intros [E1 (h1 & H1) R1 U1] [E2 (h2 & H2) R2 U2]. split.
  - rewrite E2, E1. reflexivity.
  - exists (h1 ++ h2). by rewrite H2, H1, app_assoc.
  - by eapply receipts_advance_trans.
  - auto.
Qed.

Lemma grown_push decision now c : grown c (push_decision decision now c).
Proof. split; [by destruct c|by eexists|apply receipts_advance_refl|done]. Qed.

Lemma grown_receipt receipt c :
  receipt_of receipt.(rr_identity) c.(cp_recovery_receipts) = None ->
  grown c (c <| cp_recovery_receipts := c.(cp_recovery_receipts) ++ [receipt] |>).
Proof.
  intros Hn%receipt_of_None. split; [by destruct c|exists []; by rewrite app_nil_r| |].
  - exists (cp_recovery_receipts c), [receipt]. split; [done|apply Forall2_advanced_refl].
  - intros Hd. cbn. rewrite fmap_app. apply NoDup_app. split_and!; [done| |apply NoDup_singleton].
    intros x Hx ->%list_elem_of_singleton. done.
Qed.

Lemma grown_transition identity state c r :
  receipt_of identity c.(cp_recovery_receipts) = Some r -> transition_allowed r.(rr_state) state = true ->
  grown c (c <| cp_recovery_receipts := change_receipt identity (fun r => r <| rr_state := state |>) c.(cp_recovery_receipts) |>).
Proof.
  intros Hr Ht. split; [by destruct c|exists []; by rewrite app_nil_r| |].
  - eexists _, []. rewrite app_nil_r. split; [done|]. by eapply change_advances.
  - cbn. by rewrite change_identities.
Qed.

Lemma grown_workflow c c' : grown c c' -> c'.(cp_workflow_id) = c.(cp_workflow_id) /\ c'.(cp_session_id) = c.(cp_session_id).
Proof. by intros [-> _ _ _]. Qed.

(** ** What recovery asks of the browser *)

Definition opening (replace_session : bool) (c : WorkflowCheckpoint) : list BrowserCall :=
  (if replace_session then [InvalidateSession c.(cp_session_id)] else [])
  ++ [Lease c.(cp_session_id); OpenPage c.(cp_session_id) c.(cp_page_id)].

Definition selector_probe (c : WorkflowCheckpoint) (selector : string) : BrowserCall :=
  Inspect c.(cp_session_id) c.(cp_page_id) (inspect_selector (Some selector)).

Definition probes (c : WorkflowCheckpoint) : list BrowserCall :=
  [Navigate c.(cp_session_id) c.(cp_page_id) (interactive_navigation c.(cp_current_url));
   Inspect c.(cp_session_id) c.(cp_page_id) (inspect_selector None)]
  ++ (selector_probe c <$> text_selectors c.(cp_invariants)).

Definition restart_call (c : WorkflowCheckpoint) : BrowserCall :=
  Navigate c.(cp_session_id) c.(cp_page_id) (interactive_navigation c.(cp_restart_url)).

(** All the calls recovery may make. *)
Definition recovery_calls (replace_session : bool) (c : WorkflowCheckpoint) : list BrowserCall :=
  opening replace_session c ++ probes c
  ++ (if bool_decide (c.(cp_recovery_class) = Boundary) then [] else [restart_call c]).

Section Answers.
Context `{BrowserPool}.

(** The evidence that calls give, one after the other. *)
Fixpoint answers (before : list BrowserCall) (calls : list BrowserCall) : option (list Evidence) :=
  match calls with
  | [] => Some []
  | call :: calls =>
      match pool_answer before call with
      | Ok evidence => app evidence <$> answers (before ++ [call]) calls
      | Err _ => None
      end
  end.

Definition observed (c : WorkflowCheckpoint) (evidence : list Evidence) : Prop :=
  Forall (fun i => exists item, item ∈ evidence /\ shows i item = true) c.(cp_invariants).

(** The decision that evidence allows, and the calls after it was taken. *)
Definition verdict (c : WorkflowCheckpoint) (attempt_id : AttemptId) (evidence : list Evidence)
    (calls : list BrowserCall) (d : RecoveryDecision) (calls' : list BrowserCall) : Prop :=
  match d with
  | Resumed checkpoint_id attempt found =>
      observed c evidence /\ calls' = calls
      /\ checkpoint_id = c.(cp_checkpoint_id) /\ attempt = c.(cp_attempt_id) /\ found = evidence
  | NeedsReconciliation checkpoint_id attempt _ found =>
      ~ observed c evidence /\ c.(cp_recovery_class) = Boundary /\ calls' = calls
      /\ checkpoint_id = c.(cp_checkpoint_id) /\ attempt = c.(cp_attempt_id) /\ found = evidence
  | Restarted checkpoint_id lineage found =>
      ~ observed c evidence /\ c.(cp_recovery_class) <> Boundary /\ calls' = calls ++ [restart_call c]
      /\ checkpoint_id = c.(cp_checkpoint_id) /\ lineage.(rl_workflow_id) = c.(cp_workflow_id)
      /\ lineage.(rl_abandoned_attempt_id) = c.(cp_attempt_id) /\ lineage.(rl_attempt_id) = attempt_id
      /\ pool_answer calls (restart_call c) = Ok found
  end.
End Answers.

(** ** Triples *)

Section Acts.
Context `{Sha2, ReceiptCodec, CheckpointCodec, !CheckpointCodecLaws, BrowserPool}.
Variable s0 : CheckpointStore.
Variable w0 : option (list BrowserCall).
Variable allowed : BrowserCall -> Prop.

Definition start (w : option (list BrowserCall)) (c : RecoveryCoordinator) : Prop :=
  same_store s0 c.(rc_store) /\ c.(rc_workers) = w.

(** The files after an operation. *)
Inductive acted (s : CheckpointStore) : Prop :=
| acted_same : same_store s0 s -> acted s
| acted_grown id c c' nonce : stored s0 id = Some c -> grown c c' -> saved_or_kept s0 c' nonce s -> acted s
| acted_elsewhere id : elsewhere s0 id s -> acted s.

(** Only allowed calls were made. *)
Definition asked (w : option (list BrowserCall)) : Prop :=
  match w0, w with
  | Some calls, Some calls' => exists new, calls' = calls ++ new /\ Forall allowed new
  | None, None => True
  | _, _ => False
  end.

Definition stopped (_ : RecoveryError) (c : RecoveryCoordinator) : Prop :=
  acted c.(rc_store) /\ asked c.(rc_workers).

Lemma asked_start : asked w0.
Proof. unfold asked. destruct w0; [|done]. exists []. by rewrite app_nil_r. Qed.

Lemma asked_more calls call : asked (Some calls) -> allowed call -> asked (Some (calls ++ [call])).
Proof.
  unfold asked. destruct w0; [|done]. intros (new & -> & Hn) Hc. exists (new ++ [call]). split; [by rewrite app_assoc|].
  apply Forall_app. by repeat constructor.
Qed.

Lemma start_stopped w e c : asked w -> start w c -> stopped e c.
Proof. intros Ha [Hs <-]. split; [by apply acted_same|done]. Qed.

Lemma act_store {A} (m : StoreIO A) Q Fs w :
  triple (same_store s0) m Q Fs -> (forall e s, Fs e s -> acted s) -> asked w ->
  triple (start w) (on_store m) (fun a c => Q a c.(rc_store) /\ c.(rc_workers) = w) stopped.
Proof.
  intros Hm HF Ha c r c' [Hs Hw]. unfold on_store. destruct (m (rc_store c)) as [x s] eqn:E.
  pose proof (Hm _ _ _ Hs E) as Hx. intros [= <- <-]. destruct x; cbn; [done|]. split; [by eapply HF|by rewrite Hw].
Qed.

Lemma act_lift {A} (x : result A RecoveryError) w :
  asked w -> triple (start w) (slift x) (fun a c => start w c /\ x = Ok a) stopped.
Proof. intros Ha. apply triple_lift. intros c Hc. destruct x; [done|by eapply start_stopped]. Qed.

Lemma act_need w :
  asked w -> triple (start w) need_workers (fun _ c => start w c /\ exists calls, w = Some calls) stopped.
Proof.
  intros Ha c r c' [Hs Hw]. unfold need_workers, sbind, sget. rewrite Hw.
  destruct w as [calls|]; intros [= <- <-]; [split; [done|by exists calls]|by eapply start_stopped].
Qed.

Lemma act_ask calls call :
  asked (Some calls) -> allowed call ->
  triple (start (Some calls)) (ask call)
    (fun ev c => start (Some (calls ++ [call])) c /\ pool_answer calls call = Ok ev) stopped.
Proof.
  intros Ha Hc c r c' [Hs Hw]. unfold ask. rewrite Hw. intros [= <- <-].
  destruct (pool_answer calls call); cbn; [done|]. split; [by apply acted_same|by apply asked_more].
Qed.

Lemma act_verify k w : asked w -> triple (start w) (on_store (verify_unchanged k)) (fun _ => start w) stopped.
Proof. intros Ha. apply (act_store _ (fun _ => same_store s0) (fun _ => same_store s0)); [apply triple_verify|by constructor|done]. Qed.

Lemma act_lock id w :
  asked w ->
  triple (start w) (on_store (lock_snapshot id)) (fun k c => start w c /\ stored s0 id = Some k.(lk_checkpoint)) stopped.
Proof.
  intros Ha. eapply triple_weaken; [apply (act_store _ _ (fun _ => same_store s0) w (triple_lock s0 id));
    [by constructor|done]|done|]. intros k c ([? ?] & ?). by split; [split|].
Qed.

Lemma act_save id k c nonce w :
  stored s0 id = Some k.(lk_checkpoint) -> grown k.(lk_checkpoint) c -> asked w ->
  triple (start w) (on_store (save_if_unchanged k c nonce))
    (fun k' c' => (saved s0 c nonce c'.(rc_store) /\ k'.(lk_checkpoint) = c) /\ c'.(rc_workers) = w) stopped.
Proof.
  intros Hk Hg Ha. eapply triple_weaken; [apply (act_store _ _ _ w (triple_save_if_unchanged s0 id k c nonce Hk));
    [|done]|done|].
  - intros e s Hs. by eapply acted_grown.
  - intros k' c' ((? & _ & ?) & ?). done.
Qed.

Lemma act_lock_verified id w :
  asked w ->
  triple (start w) (lock_verified_checkpoint id)
    (fun k c => start w c /\ stored s0 id = Some k.(lk_checkpoint)
       /\ observed k.(lk_checkpoint) k.(lk_checkpoint).(cp_evidence)) stopped.
Proof.
  intros Ha. unfold lock_verified_checkpoint. eapply triple_bind; [by apply act_lock|]. intros k. apply triple_pure. intros Hk.
  eapply triple_bind; [by apply act_lift|]. intros []. apply triple_pure. intros Hv. apply triple_ret. intros c Hc.
  split_and!; [done|done|]. unfold ensure_persisted_checkpoint_verified in Hv.
  apply refuse_if_ok, negb_false_iff, evaluate_match in Hv. done.
Qed.

(** ** Recovering *)

Lemma act_selectors c selectors : forall calls evidence,
  asked (Some calls) -> Forall allowed (selector_probe c <$> selectors) ->
  triple (start (Some calls)) (inspect_selectors c.(cp_session_id) c.(cp_page_id) selectors evidence)
    (fun ev c' => start (Some (calls ++ (selector_probe c <$> selectors))) c'
       /\ exists more, answers calls (selector_probe c <$> selectors) = Some more /\ ev = evidence ++ more) stopped.
Proof.
  induction selectors as [|selector selectors IH]; intros calls evidence Ha Hall; cbn [inspect_selectors].
  - apply triple_ret. intros c' Hc. rewrite app_nil_r. split; [done|]. exists []. by rewrite app_nil_r.
  - rewrite fmap_cons in *. apply Forall_cons in Hall as [Hc Hall].
    eapply triple_bind; [by apply (act_ask _ (selector_probe c selector))|]. intros more. apply triple_pure. intros Hmore.
    eapply triple_weaken; [apply IH; [by apply asked_more|done]|done|].
    intros ev c' [Hs (more' & E & ->)]. rewrite <- app_assoc in Hs. split; [done|].
    exists (more ++ more'). cbn [answers]. rewrite Hmore, E. split; [done|]. by rewrite app_assoc.
Qed.

Lemma act_observe c calls :
  asked (Some calls) -> Forall allowed (probes c) ->
  triple (start (Some calls)) (observe c.(cp_session_id) c)
    (fun ev c' => start (Some (calls ++ probes c)) c' /\ answers calls (probes c) = Some ev) stopped.
Proof.
  intros Ha Hall. apply Forall_cons in Hall as [Hnav Hall]. apply Forall_cons in Hall as [Hins Hsel]. unfold observe.
  eapply triple_bind; [exact (act_ask _ _ Ha Hnav)|]. intros e1. apply triple_pure. intros E1.
  pose proof (asked_more _ _ Ha Hnav) as Ha1. pose proof (asked_more _ _ Ha1 Hins) as Ha2.
  eapply triple_bind; [exact (act_ask _ _ Ha1 Hins)|]. intros e2. apply triple_pure. intros E2.
  eapply triple_weaken; [exact (act_selectors _ _ _ _ Ha2 Hsel)|done|].
  intros ev c' [Hs (more & E & ->)]. rewrite <- !app_assoc in Hs. split; [done|].
  unfold probes. cbn [app answers]. rewrite E1, E2, E. cbn. by rewrite app_assoc.
Qed.

Lemma act_decide c evidence attempt_id calls :
  asked (Some calls) -> (c.(cp_recovery_class) <> Boundary -> allowed (restart_call c)) ->
  triple (start (Some calls)) (decide_recovery c.(cp_session_id) c evidence attempt_id)
    (fun d c' => exists calls', start (Some calls') c'
       /\ asked (Some calls') /\ verdict c attempt_id evidence calls d calls') stopped.
Proof.
  intros Ha Hr. unfold decide_recovery. pose proof (evaluate_match (cp_invariants c) evidence) as Hm.
  destruct (is_match _).
  { apply triple_ret. intros c' Hc. exists calls. cbn. split_and!; try done. by apply Hm. }
  assert (~ observed c evidence) as Hno by (intros Hx; by apply Hm in Hx).
  case_bool_decide as Hb.
  { apply triple_ret. intros c' Hc. exists calls. by cbn. }
  eapply triple_bind; [apply (act_ask _ (restart_call c)); [done|by apply Hr]|]. intros ev. apply triple_pure. intros Hev.
  apply triple_ret. intros c' Hc. eexists. split; [exact Hc|]. split; [apply asked_more; auto|]. by cbn.
Qed.

Lemma act_stabilize session_id replace w :
  asked w -> (replace = true -> allowed (InvalidateSession session_id)) ->
  triple (start w) (stabilize_recovery_pool session_id replace)
    (fun _ c => exists calls, start (Some (calls ++ (if replace then [InvalidateSession session_id] else []))) c
       /\ w = Some calls) stopped.
Proof.
  intros Ha Hc. unfold stabilize_recovery_pool. eapply triple_bind; [by apply act_need|]. intros []. apply triple_pure.
  intros [calls ->]. destruct replace.
  - eapply triple_bind; [apply act_ask; auto|]. intros ev. apply triple_pure. intros _. apply triple_ret. eauto.
  - apply triple_ret. intros c Hs. exists calls. by rewrite app_nil_r.
Qed.

Lemma act_reattach c calls :
  asked (Some calls) -> Forall allowed (opening false c) ->
  triple (start (Some calls)) (reattach_recovery_pool c)
    (fun p c' => start (Some (calls ++ opening false c)) c' /\ p = MkPreparedRecovery c c.(cp_session_id)) stopped.
Proof.
  intros Ha Hall. apply Forall_cons in Hall as [Hl Hall]. apply Forall_cons in Hall as [Ho _]. unfold reattach_recovery_pool.
  eapply triple_bind; [by apply act_need|]. intros []. apply triple_pure. intros _.
  eapply triple_bind; [by apply act_ask|]. intros e1. apply triple_pure. intros _.
  eapply triple_bind; [apply act_ask; [by apply asked_more|done]|]. intros e2. apply triple_pure. intros _.
  apply triple_ret. intros c' Hc. rewrite <- app_assoc in Hc. done.
Qed.

Lemma asked_app calls more : asked (Some calls) -> Forall allowed more -> asked (Some (calls ++ more)).
Proof.
  unfold asked. destruct w0; [|done]. intros (new & -> & Hn) Hm. exists (new ++ more). rewrite app_assoc. split; [done|].
  by apply Forall_app.
Qed.

(** A recovery that was completed. *)
Definition completed (c : WorkflowCheckpoint) (replace : bool) (attempt_id : AttemptId) (now : Time) (nonce : Uuid)
    (w : option (list BrowserCall)) (d : RecoveryDecision) (c' : RecoveryCoordinator) : Prop :=
  exists calls evidence calls', w = Some calls
    /\ answers (calls ++ opening replace c) (probes c) = Some evidence
    /\ verdict c attempt_id evidence (calls ++ opening replace c ++ probes c) d calls'
    /\ c'.(rc_workers) = Some calls' /\ asked (Some calls')
    /\ saved s0 (push_decision d now c) nonce c'.(rc_store).

Lemma act_recover_locked id k replace attempt_id now nonce w :
  stored s0 id = Some k.(lk_checkpoint) -> asked w -> Forall allowed (recovery_calls replace k.(lk_checkpoint)) ->
  triple (start w) (recover_locked k replace attempt_id now nonce)
    (fun r => completed k.(lk_checkpoint) replace attempt_id now nonce w r.1) stopped.
Proof.
  intros Hk Ha Hall. set (c := lk_checkpoint k) in *. unfold recovery_calls, opening in Hall.
  apply Forall_app in Hall as [Hop Hall]. apply Forall_app in Hop as [Hi Hop]. apply Forall_app in Hall as [Hp Hr].
  unfold recover_locked, complete_prepared_recovery. fold c.
  eapply triple_bind; [by apply act_verify|]. intros [].
  eapply triple_bind; [apply act_stabilize; [done|]|].
  { intros ->. by inversion Hi. }
  intros []. apply triple_ex. intros calls. apply triple_pure. intros ->. pose proof (asked_app _ _ Ha Hi) as Ha1.
  eapply triple_bind; [by apply act_reattach|]. intros p. apply triple_pure. intros ->. cbn [pr_checkpoint pr_lease].
  pose proof (asked_app _ _ Ha1 Hop) as Ha2. rewrite <- app_assoc in *. fold (opening replace c) in *.
  eapply triple_bind; [by apply act_verify|]. intros []. cbv zeta.
  eapply triple_bind; [by apply act_observe|]. intros ev. apply triple_pure. intros Hev.
  eapply triple_bind; [apply act_decide; [by apply asked_app|]|].
  { intros Hb. rewrite bool_decide_eq_false_2 in Hr by done. by inversion Hr. }
  intros d. apply triple_ex. intros calls'. apply triple_pure. intros [Ha' Hd].
  eapply triple_bind; [apply (act_save id); [done|apply grown_push|done]|]. intros k'. apply triple_ret.
  intros c' ([Hs _] & Hw). exists calls, ev, calls'. rewrite <- app_assoc in Hd. done.
Qed.

(** ** The other operations *)

Definition finished (c : RecoveryCoordinator) : Prop := acted c.(rc_store) /\ asked c.(rc_workers).

Lemma start_finished w c : asked w -> start w c -> finished c.
Proof. intros Ha [Hs <-]. split; [by apply acted_same|done]. Qed.

Lemma saved_finished id c c' nonce st w :
  stored s0 id = Some c -> grown c c' -> asked w ->
  saved s0 c' nonce st.(rc_store) -> st.(rc_workers) = w -> finished st.
Proof. intros Hk Hg Ha Hs <-. split; [|done]. eapply acted_grown; [done..|]. by apply saved_kept. Qed.

Lemma completed_finished id c replace attempt_id now nonce w d st :
  stored s0 id = Some c -> completed c replace attempt_id now nonce w d st -> finished st.
Proof.
  intros Hk (calls & ev & calls' & _ & _ & _ & Hw & Ha & Hs).
  eapply saved_finished; [done|apply grown_push|exact Ha|exact Hs|done].
Qed.

Lemma act_restart_locked id k attempt_id now nonce w :
  stored s0 id = Some k.(lk_checkpoint) -> asked w ->
  Forall allowed (opening true k.(lk_checkpoint) ++ [restart_call k.(lk_checkpoint)]) ->
  triple (start w) (restart_from_locked_boundary k attempt_id now nonce)
    (fun r st => exists calls found, w = Some calls /\ st.(rc_workers) = Some (calls ++ opening true k.(lk_checkpoint) ++ [restart_call k.(lk_checkpoint)])
       /\ r.1 = restart_decision k.(lk_checkpoint) attempt_id restart_reason found
       /\ saved s0 (push_decision r.1 now k.(lk_checkpoint)) nonce st.(rc_store) /\ finished st) stopped.
Proof.
  intros Hk Ha Hall. set (c := lk_checkpoint k) in *. apply Forall_cons in Hall as [Hi Hall].
  apply Forall_cons in Hall as [Hl Hall]. apply Forall_cons in Hall as [Ho Hall]. apply Forall_cons in Hall as [Hr _].
  unfold restart_from_locked_boundary. fold c. cbv zeta.
  eapply triple_bind; [by apply act_verify|]. intros [].
  eapply triple_bind; [by apply act_need|]. intros []. apply triple_pure. intros [calls ->].
  pose proof (asked_more _ _ Ha Hi) as Ha1. pose proof (asked_more _ _ Ha1 Hl) as Ha2.
  pose proof (asked_more _ _ Ha2 Ho) as Ha3. pose proof (asked_more _ _ Ha3 Hr) as Ha4.
  eapply triple_bind; [exact (act_ask _ _ Ha Hi)|]. intros e1. apply triple_pure. intros _.
  eapply triple_bind; [exact (act_ask _ _ Ha1 Hl)|]. intros e2. apply triple_pure. intros _.
  eapply triple_bind; [exact (act_ask _ _ Ha2 Ho)|]. intros e3. apply triple_pure. intros _.
  eapply triple_bind; [exact (act_ask _ _ Ha3 Hr)|]. intros found. apply triple_pure. intros _.
  eapply triple_bind; [apply (act_save id); [done|apply grown_push|done]|]. intros k'. apply triple_ret.
  intros st ([Hs _] & Hw). exists calls, found. cbn [fst]. split_and!; try done.
  - rewrite Hw. by rewrite <- !app_assoc.
  - by eapply saved_finished; [done|apply grown_push|..].
Qed.

Lemma act_prepare_restart c attempt_id w :
  asked w -> Forall allowed (opening true c) ->
  triple (start w) (prepare_restart_pool c attempt_id) (fun _ => finished) stopped.
Proof.
  intros Ha Hall. apply Forall_cons in Hall as [Hi Hall]. unfold prepare_restart_pool, prepare_restart_after_stabilization.
  eapply triple_bind; [by apply act_stabilize|]. intros []. apply triple_ex. intros calls. apply triple_pure. intros ->.
  pose proof (asked_more _ _ Ha Hi) as Ha1.
  eapply triple_bind; [by apply act_reattach|]. intros p. apply triple_pure. intros _. apply triple_ret.
  intros st Hst. eapply start_finished; [|exact Hst]. by apply asked_app.
Qed.

Lemma act_record id k decision now nonce w :
  stored s0 id = Some k.(lk_checkpoint) -> asked w ->
  triple (start w) (record_locked_decision k decision now nonce) (fun _ => finished) stopped.
Proof.
  intros Hk Ha. unfold record_locked_decision. cbv zeta. eapply triple_bind; [by apply act_lift|]. intros [].
  apply triple_pure. intros _. eapply triple_weaken; [apply (act_save id); [done|apply grown_push|done]|done|].
  intros k' st ([Hs _] & Hw). by eapply saved_finished; [done|apply grown_push|..].
Qed.

Lemma act_persist receipt nonce w :
  asked w -> triple (start w) (persist_recovery_receipt receipt nonce) (fun _ => finished) stopped.
Proof.
  intros Ha. unfold persist_recovery_receipt. eapply triple_bind; [by apply act_lift|]. intros []. apply triple_pure. intros _.
  eapply triple_bind; [by apply act_lock|]. intros k. apply triple_pure. intros Hk. cbv zeta.
  destruct (receipt_of _ _) as [existing|] eqn:Er.
  { case_bool_decide; [apply triple_ret|apply triple_fail]; intros; by eapply start_finished. }
  eapply triple_bind; [by apply act_lift|]. intros []. apply triple_pure. intros _.
  eapply triple_bind; [eapply act_save; [exact Hk|by apply grown_receipt|done]|]. intros k'. apply triple_ret.
  intros st ([Hs _] & Hw). by eapply saved_finished; [exact Hk|by apply grown_receipt|..].
Qed.

Lemma act_transition identity state nonce w :
  asked w -> triple (start w) (transition_recovery_receipt identity state nonce) (fun _ => finished) stopped.
Proof.
  intros Ha. unfold transition_recovery_receipt. eapply triple_bind; [by apply act_lock|]. intros k. apply triple_pure.
  intros Hk. cbv zeta. eapply triple_bind; [by apply act_lift|]. intros r. apply triple_pure. intros Hr%ok_or_ok.
  eapply triple_bind; [by apply act_lift|]. intros []. apply triple_pure. intros _.
  case_bool_decide; [apply triple_ret; intros; by eapply start_finished|].
  eapply triple_bind; [by apply act_lift|]. intros []. apply triple_pure. intros Ht%refuse_if_ok%negb_false_iff.
  eapply triple_bind; [eapply act_save; [exact Hk|by eapply grown_transition|done]|]. intros k'. apply triple_ret.
  intros st ([Hs _] & Hw). by eapply saved_finished; [exact Hk|by eapply grown_transition|..].
Qed.

Lemma act_persist_issuance id i nonce w :
  asked w -> triple (start w) (persist_skill_issuance id i nonce) (fun _ => finished) stopped.
Proof.
  intros Ha. unfold persist_skill_issuance. eapply triple_bind; [by apply act_lift|]. intros identity. apply triple_pure. intros _.
  eapply triple_bind; [by apply act_lift|]. intros []. apply triple_pure. intros _.
  eapply triple_weaken; [apply (act_store _ _ _ w (triple_save_issuance s0 id i nonce)); [|done]|done|].
  - intros e s Hs. by eapply acted_elsewhere.
  - intros [] st ([Hs _] & Hw). split; [by eapply acted_elsewhere|by rewrite Hw].
Qed.

Lemma act_clear_issuance id w :
  asked w -> triple (start w) (clear_skill_issuance id) (fun _ => finished) stopped.
Proof.
  intros Ha. eapply triple_weaken; [apply (act_store _ _ _ w (triple_remove_issuance s0 id)); [|done]|done|].
  - intros e s Hs. by eapply acted_elsewhere.
  - intros [] st (Hs & Hw). split; [by eapply acted_elsewhere|by rewrite Hw].
Qed.

Lemma act_load_issuance id w :
  asked w -> triple (start w) (coordinator_load_skill_issuance id) (fun _ => finished) stopped.
Proof.
  intros Ha. eapply triple_weaken; [apply (act_store _ _ _ w (triple_load_issuance s0 id)); [by constructor|done]|done|].
  intros o st Hs. by eapply start_finished.
Qed.

Lemma act_load id w : asked w -> triple (start w) (load_checkpoint id) (fun _ c => start w c) stopped.
Proof.
  intros Ha. eapply triple_weaken; [apply (act_store _ _ _ w (triple_load s0 id)); [by constructor|done]|done|].
  intros c st ([? _] & ?). done.
Qed.
End Acts.

Lemma start_now (c : RecoveryCoordinator) : start c.(rc_store) c.(rc_workers) c.
Proof. by split. Qed.
