(* ===== verification/RecoveryCalm.v ===== *)
(** * Recovery when nothing fails

    With a browser that answers and files that can be written, a recovery ends with a
    decision. *)

From S2P Require Import Prelude Text SkillTypes Receipt Ledger Json Commands Checkpoint CheckpointStore CheckpointStoreInv CheckpointStoreSteps CheckpointStoreIndex CheckpointStoreCalm Recovery RecoveryInv.

Section Calm.
Context `{Sha2, ReceiptCodec, CheckpointCodec, !CheckpointCodecLaws, BrowserPool}.
Variable s : CheckpointStore.
Hypothesis Hcalm : s.(ks_dir).(kd_faults) = [].
Hypothesis Hanswers : forall before call, exists evidence, pool_answer before call = Ok evidence.

Abbreviation at_calls calls := (MkRecoveryCoordinator s (Some calls)).

Lemma calm_ask calls call : exists evidence, ask call (at_calls calls) = (Ok evidence, at_calls (calls ++ [call])).
Proof. destruct (Hanswers calls call) as [ev E]. exists ev. unfold ask. cbn. by rewrite E. Qed.

Ltac run_ask :=
  match goal with
  | |- context [ask ?call (MkRecoveryCoordinator s (Some ?calls))] => destruct (calm_ask calls call) as [? ->]
  end.

Lemma calm_selectors c selectors : forall calls evidence,
  exists ev, inspect_selectors c.(cp_session_id) c.(cp_page_id) selectors evidence (at_calls calls)
    = (Ok ev, at_calls (calls ++ (selector_probe c <$> selectors))).
Proof.
  induction selectors as [|x selectors IH]; intros calls evidence; cbn [inspect_selectors].
  - exists evidence. by rewrite app_nil_r.
  - fold (selector_probe c x). unfold sbind. destruct (calm_ask calls (selector_probe c x)) as [ev ->].
    destruct (IH (calls ++ [selector_probe c x]) (evidence ++ ev)) as [ev' ->]. exists ev'. by rewrite <- app_assoc.
Qed.

Lemma calm_observe c calls :
  exists ev, observe c.(cp_session_id) c (at_calls calls) = (Ok ev, at_calls (calls ++ probes c)) /\ answers calls (probes c) = Some ev.
Proof.
  assert (exists ev, observe c.(cp_session_id) c (at_calls calls) = (Ok ev, at_calls (calls ++ probes c))) as [ev E].
  { unfold observe, sbind. do 2 run_ask.
    match goal with |- context [inspect_selectors _ _ ?l ?e (MkRecoveryCoordinator s (Some ?calls))] =>
      destruct (calm_selectors c l calls e) as [ev ->] end.
    exists ev. by rewrite <- !app_assoc. }
  exists ev. split; [done|].
  assert (Forall (fun _ => True) (probes c)) as Hall by (by apply Forall_forall).
  by destruct (act_observe s (Some calls) (fun _ => True) c calls (asked_start _ _) Hall _ _ _ (start_now (at_calls calls)) E) as [_ ?].
Qed.

Lemma calm_decide c evidence attempt_id calls :
  exists d calls', decide_recovery c.(cp_session_id) c evidence attempt_id (at_calls calls) = (Ok d, at_calls calls')
    /\ verdict c attempt_id evidence calls d calls'.
Proof.
  assert (exists d calls', decide_recovery c.(cp_session_id) c evidence attempt_id (at_calls calls) = (Ok d, at_calls calls'))
    as (d & calls' & E).
  { unfold decide_recovery. destruct (is_match _); [by do 2 eexists|]. case_bool_decide; [by do 2 eexists|].
    unfold sbind. run_ask. by do 2 eexists. }
  exists d, calls'. split; [done|].
  destruct (act_decide s (Some calls) (fun _ => True) c evidence attempt_id calls (asked_start _ _) (fun _ => I) _ _ _
    (start_now (at_calls calls)) E) as (calls1 & [_ [= ->]] & _ & Hd). done.
Qed.

(** What is left of a recovery when the session has been replaced. *)
Lemma calm_complete id k c attempt_id now nonce calls a :
  stored s id = Some c -> k.(lk_checkpoint) = c -> fresh_snapshot s id k -> checkpoint_authority_digest c = Ok a ->
  (forall evidence d calls', answers calls (probes c) = Some evidence ->
     verdict c attempt_id evidence (calls ++ probes c) d calls' -> can_write s (push_decision d now c) nonce) ->
  exists r st, complete_prepared_recovery k (MkPreparedRecovery c c.(cp_session_id)) attempt_id now nonce (at_calls calls) = (Ok r, st).
Proof.
  intros Hst Hk Hf Ea Hw. unfold complete_prepared_recovery, sbind, on_store. cbn [rc_store pr_checkpoint pr_lease].
  rewrite (calm_verify s id k Hf). cbn [map_err]. destruct (calm_observe c calls) as (ev & E & Hev).
  change (MkRecoveryCoordinator s (Some calls) <| rc_store := s |>) with (at_calls calls). rewrite E.
  destruct (calm_decide c ev attempt_id (calls ++ probes c)) as (d & calls' & -> & Hd).
  pose proof (stored_facts _ _ _ Hst) as [Hv Hid].
  assert (validate_schema (push_decision d now c) = Ok tt) as Hv' by exact Hv.
  assert (checkpoint_authority_digest (push_decision d now c) = Ok a) as Ea' by exact Ea.
  destruct (calm_update s id k (push_decision d now c) nonce a Hf Hid (f_equal cp_session_id (eq_sym Hk)) Hv' (Hw ev d calls' Hev Hd) Ea') as (k' & s' & E').
  cbn [rc_store]. rewrite E'. by do 2 eexists.
Qed.

Lemma calm_recover id c attempt_id now nonce calls a :
  stored s id = Some c -> observed c c.(cp_evidence) -> checkpoint_authority_digest c = Ok a ->
  (forall evidence d calls', answers (calls ++ opening true c) (probes c) = Some evidence ->
     verdict c attempt_id evidence (calls ++ opening true c ++ probes c) d calls' -> can_write s (push_decision d now c) nonce) ->
  exists d st, recover id attempt_id now nonce (at_calls calls) = (Ok d, st).
Proof.
  intros Hst Ho Ea Hw. destruct (calm_lock s id c a Hcalm Hst Ea) as (b & El & Eb).
  pose proof (stored_facts _ _ _ Hst) as [_ Hid].
  set (k := MkLockedCheckpointSnapshot c a (checkpoint_digest b)) in *.
  assert (fresh_snapshot s id k) as Hf by (split; [done|by exists b]).
  unfold recover, lock_verified_checkpoint, sbind at 1, on_store. unfold sbind at 1. cbn [rc_store]. rewrite El. cbn [map_err].
  unfold sbind at 1, slift. change (lk_checkpoint k) with c. assert (ensure_persisted_checkpoint_verified c = Ok tt) as ->.
  { unfold ensure_persisted_checkpoint_verified. apply evaluate_match in Ho. by rewrite Ho. }
  unfold sret at 1. unfold sbind at 1, recover_locked, sbind at 1, on_store. cbn [rc_store].
  change (rc_store (MkRecoveryCoordinator s (Some calls) <| rc_store := s |>)) with s. rewrite (calm_verify s id k Hf). cbn [map_err].
  unfold sbind at 1, stabilize_recovery_pool, need_workers, sbind, sget, sret. cbn [rc_workers].
  change (MkRecoveryCoordinator s (Some calls) <| rc_store := s |>) with (at_calls calls).
  change (at_calls calls <| rc_store := s |>) with (at_calls calls). cbn [rc_workers].
  change (lk_checkpoint k) with c. run_ask.
  unfold reattach_recovery_pool, need_workers, sbind, sget, sret. cbn [rc_workers].
  do 2 run_ask.
  rewrite <- !app_assoc. cbn [app].
  destruct (calm_complete id k c attempt_id now nonce (calls ++ opening true c) a Hst eq_refl Hf Ea) as ([d k'] & st & E).
  { intros ev d calls' Hev Hd. rewrite <- app_assoc in Hd. by eapply Hw. }
  unfold opening in E. cbn [app] in E. rewrite E. by do 2 eexists.
Qed.
End Calm.
