(* ===== verification/RecoveryThms.v ===== *)
(** * What recovery guarantees

    A decision is taken from what the browser shows and recorded before it is answered, a
    boundary is never replayed by recovery, and the receipts of recovered commands are kept
    and only advance. *)

From S2P Require Import Prelude Text SkillTypes Receipt Ledger Json Commands Checkpoint CheckpointStore CheckpointStoreInv CheckpointStoreSteps CheckpointStoreList CheckpointStoreIndex CheckpointStoreCalm CheckpointStoreThms Recovery RecoveryInv RecoveryCalm.

(** ** Calls *)

Inductive RecoveryCall :=
| CoSaveVerified (c : WorkflowCheckpoint) (evidence : list Evidence) (nonce : Uuid)
| CoLoad (id : WorkflowId)
| CoSession (id : WorkflowId)
| CoWorkflows (session_id : SessionId) (limit : nat)
| CoRecover (id : WorkflowId) (attempt_id : AttemptId) (now : Time) (nonce : Uuid)
| CoRecoverForSession (id : WorkflowId) (session_id : SessionId) (attempt_id : AttemptId) (now : Time) (nonce : Uuid)
| CoRecoverAfterReplacement (id : WorkflowId) (attempt_id : AttemptId) (now : Time) (nonce : Uuid)
| CoRestart (id : WorkflowId) (attempt_id : AttemptId) (now : Time) (nonce : Uuid)
| CoPrepareAndRecord (id : WorkflowId) (attempt_id : AttemptId) (now : Time) (nonce : Uuid)
| CoPersistReceipt (receipt : RecoveryReceipt) (nonce : Uuid)
| CoTransition (identity : RecoveryCommandIdentity) (state : RecoveryReceiptState) (nonce : Uuid)
| CoPersistIssuance (id : WorkflowId) (i : SkillIssuedDecision) (nonce : Uuid)
| CoLoadIssuance (id : WorkflowId)
| CoClearIssuance (id : WorkflowId)
| CoReopen
| CoFaults (fs : list Fault).

Section Guarantees.
Context `{Sha2, ReceiptCodec, CheckpointCodec, !CheckpointCodecLaws, BrowserPool}.

(** A skill prepares a restart with a snapshot it holds, and records the decision. *)
Definition prepare_and_record (id : WorkflowId) (attempt_id : AttemptId) (now : Time) (nonce : Uuid)
    : RecIO VerifiedRecoveryCheckpoint :=
  do k <- lock_verified_checkpoint id;
  do d <- prepare_restart_from_locked_boundary k attempt_id;
  record_locked_decision k d now nonce.

Definition on_files (f : CheckpointStore -> CheckpointStore) (c : RecoveryCoordinator) : RecoveryCoordinator :=
  c <| rc_store := f c.(rc_store) |>.

Definition recovery_step (call : RecoveryCall) (c : RecoveryCoordinator) : RecoveryCoordinator :=
  match call with
  | CoSaveVerified ck evidence nonce => (save_verified ck evidence nonce c).2
  | CoLoad id => (load_checkpoint id c).2
  | CoSession id => (checkpoint_session id c).2
  | CoWorkflows session_id limit => (workflows_for_session session_id limit c).2
  | CoRecover id a now nonce => (recover id a now nonce c).2
  | CoRecoverForSession id session_id a now nonce => (recover_for_session id session_id a now nonce c).2
  | CoRecoverAfterReplacement id a now nonce => (recover_after_replacement id a now nonce c).2
  | CoRestart id a now nonce => (restart_from_verified_boundary id a now nonce c).2
  | CoPrepareAndRecord id a now nonce => (prepare_and_record id a now nonce c).2
  | CoPersistReceipt receipt nonce => (persist_recovery_receipt receipt nonce c).2
  | CoTransition identity state nonce => (transition_recovery_receipt identity state nonce c).2
  | CoPersistIssuance id i nonce => (persist_skill_issuance id i nonce c).2
  | CoLoadIssuance id => (coordinator_load_skill_issuance id c).2
  | CoClearIssuance id => (clear_skill_issuance id c).2
  | CoReopen => on_files (store_step CallReopen) c
  | CoFaults fs => on_files (store_step (CallFaults fs)) c
  end.

Definition recovery_run (calls : list RecoveryCall) (c : RecoveryCoordinator) : RecoveryCoordinator :=
  fold_left (fun c call => recovery_step call c) calls c.

(** What a call does to the files. *)
Inductive recovery_effect (s : CheckpointStore) : RecoveryCall -> CheckpointStore -> Prop :=
| recovery_acted call s' : acted s s' -> recovery_effect s call s'
| recovery_replaced c evidence nonce s' :
    saved_or_kept s (c <| cp_evidence := evidence |>) nonce s' -> recovery_effect s (CoSaveVerified c evidence nonce) s'
| recovery_listed session_id limit s' : browsing s s' -> recovery_effect s (CoWorkflows session_id limit) s'
| recovery_other call store_call s' :
    (forall id, stored s' id = stored s id) -> effect s store_call s' -> recovery_effect s call s'.

(** *** One call *)

Definition anything (_ : BrowserCall) : Prop := True.

Lemma all_anything calls : Forall anything calls.
Proof. by apply Forall_forall. Qed.

Lemma act_result {A} (m : RecIO A) c (R : RecoveryCoordinator -> Prop) Q :
  triple (start c.(rc_store) c.(rc_workers)) m Q (stopped c.(rc_store) c.(rc_workers) anything) ->
  (forall a c', Q a c' -> R c') -> (forall e c', stopped c.(rc_store) c.(rc_workers) anything e c' -> R c') -> R (m c).2.
Proof. intros Hm HQ HF. exact (triple_result _ _ _ _ _ c Hm (start_now c) HQ HF). Qed.

(** A recovery of a verified checkpoint. *)
Definition recovered s0 w0 allowed (id : WorkflowId) (replace : bool) (attempt_id : AttemptId) (now : Time) (nonce : Uuid)
    (d : RecoveryDecision) (st : RecoveryCoordinator) : Prop :=
  exists c, stored s0 id = Some c /\ observed c c.(cp_evidence)
    /\ completed s0 w0 allowed c replace attempt_id now nonce w0 d st.

Section Recover.
Variables (s0 : CheckpointStore) (w0 : option (list BrowserCall)) (allowed : BrowserCall -> Prop).
Variables (id : WorkflowId) (attempt_id : AttemptId) (now : Time) (nonce : Uuid).

Lemma act_rest replace k :
  stored s0 id = Some k.(lk_checkpoint) -> observed k.(lk_checkpoint) k.(lk_checkpoint).(cp_evidence) ->
  Forall allowed (recovery_calls replace k.(lk_checkpoint)) ->
  triple (start s0 w0) (do r <- recover_locked k replace attempt_id now nonce; sret r.1)
    (recovered s0 w0 allowed id replace attempt_id now nonce) (stopped s0 w0 allowed).
Proof.
  intros Hk Ho Hall. eapply triple_bind; [by eapply (act_recover_locked s0 w0 allowed id); [|apply asked_start|]|].
  intros r. apply triple_ret. intros st Hc. by exists (lk_checkpoint k).
Qed.

Hypothesis Hallowed : forall c, stored s0 id = Some c -> Forall allowed (recovery_calls true c).

Lemma act_recover :
  triple (start s0 w0) (recover id attempt_id now nonce)
    (recovered s0 w0 allowed id true attempt_id now nonce) (stopped s0 w0 allowed).
Proof.
  unfold recover. eapply triple_bind; [by apply act_lock_verified, asked_start|]. intros k. apply triple_pure.
  intros [Hk Ho]. apply act_rest; auto.
Qed.

Lemma act_recover_for_session session_id :
  triple (start s0 w0) (recover_for_session id session_id attempt_id now nonce)
    (fun d st => recovered s0 w0 allowed id true attempt_id now nonce d st
       /\ exists c, stored s0 id = Some c /\ c.(cp_session_id) = session_id) (stopped s0 w0 allowed).
Proof.
  unfold recover_for_session. eapply triple_bind; [by apply act_lock_verified, asked_start|]. intros k. apply triple_pure.
  intros [Hk Ho]. eapply triple_bind; [by apply act_lift, asked_start|]. intros []. apply triple_pure.
  intros E%refuse_if_ok%negb_false_iff%N.eqb_eq. eapply triple_weaken; [apply act_rest; auto|done|].
  intros d st Hd. split; [done|]. eauto.
Qed.

Lemma act_recover_after_replacement :
  triple (start s0 w0) (recover_after_replacement id attempt_id now nonce)
    (recovered s0 w0 allowed id false attempt_id now nonce) (stopped s0 w0 allowed).
Proof.
  unfold recover_after_replacement. eapply triple_bind; [by apply act_lock_verified, asked_start|]. intros k. apply triple_pure.
  intros [Hk Ho]. apply act_rest; [done|done|]. specialize (Hallowed _ Hk). unfold recovery_calls, opening in *.
  cbn [app] in *. by inversion_clear Hallowed.
Qed.
End Recover.

Lemma recovered_finished s0 w0 allowed id replace a now nonce d st :
  recovered s0 w0 allowed id replace a now nonce d st -> finished s0 w0 allowed st.
Proof. intros (c & Hk & _ & Hc). by eapply completed_finished. Qed.

Lemma act_restart s0 w0 id a now nonce :
  triple (start s0 w0) (restart_from_verified_boundary id a now nonce) (fun _ => finished s0 w0 anything) (stopped s0 w0 anything).
Proof.
  unfold restart_from_verified_boundary. eapply triple_bind; [by apply act_lock_verified, asked_start|]. intros k.
  apply triple_pure. intros [Hk _]. eapply triple_bind; [by apply (act_restart_locked _ _ _ id); [|apply asked_start|apply all_anything]|].
  intros r. apply triple_ret. by intros st (? & ? & _ & _ & _ & _ & ?).
Qed.

Lemma act_prepare_and_record s0 w0 id a now nonce :
  triple (start s0 w0) (prepare_and_record id a now nonce) (fun _ => finished s0 w0 anything) (stopped s0 w0 anything).
Proof.
  unfold prepare_and_record, prepare_restart_from_locked_boundary, prepare_restart_pool, prepare_restart_after_stabilization.
  eapply triple_bind; [by apply act_lock_verified, asked_start|]. intros k. apply triple_pure. intros [Hk _].
  eapply (triple_bind _ _ (fun _ st => exists w, start s0 w st /\ asked w0 anything w)).
  { eapply triple_bind; [by apply act_verify, asked_start|]. intros [].
    eapply triple_bind; [by apply act_stabilize; [apply asked_start|]|]. intros []. apply triple_ex. intros calls. apply triple_pure.
    intros ->. assert (asked (Some calls) anything (Some (calls ++ [InvalidateSession (cp_session_id (lk_checkpoint k))]))) as Ha
      by (by apply asked_more; [apply asked_start|]).
    eapply triple_bind; [by apply act_reattach; [exact Ha|apply all_anything]|]. intros p. apply triple_pure. intros _.
    apply triple_ret. intros st Hst. eexists. split; [exact Hst|]. apply asked_app; [done|apply all_anything]. }
  intros d. apply triple_ex. intros w. apply triple_pure. intros Ha. by eapply act_record.
Qed.

Lemma act_save_verified c evidence nonce st :
  recovery_effect st.(rc_store) (CoSaveVerified c evidence nonce) (save_verified c evidence nonce st).2.(rc_store)
  /\ (save_verified c evidence nonce st).2.(rc_workers) = st.(rc_workers).
Proof.
  unfold save_verified, sbind, slift. cbv zeta. destruct (refuse_if _ _); [|split; [by apply recovery_acted, acted_same|done]].
  unfold on_store. destruct (save _ nonce (rc_store st)) as [r s] eqn:E.
  pose proof (triple_save _ _ _ _ _ _ (same_refl (rc_store st)) E) as Hs.
  assert (saved_or_kept (rc_store st) (c <| cp_evidence := evidence |>) nonce s) as Hk.
  { destruct r; [by apply saved_kept|done]. }
  destruct r; cbn; (split; [by apply recovery_replaced|done]).
Qed.

Lemma recovery_step_effect c call :
  well_placed c.(rc_store).(ks_session_index) -> recovery_effect c.(rc_store) call (recovery_step call c).(rc_store).
Proof.
  intros Hw.
  assert (forall A (m : RecIO A),
    triple (start c.(rc_store) c.(rc_workers)) m (fun _ => finished c.(rc_store) c.(rc_workers) anything)
      (stopped c.(rc_store) c.(rc_workers) anything) ->
    recovery_effect c.(rc_store) call (rc_store (m c).2)) as Hop.
  { intros A m Hm. eapply (act_result m c (fun st => recovery_effect (rc_store c) call (rc_store st)) _ Hm);
      [intros a st [Hs _]|intros e st [Hs _]]; by apply recovery_acted. }
  assert (asked c.(rc_workers) anything c.(rc_workers)) as Ha by apply asked_start.
  destruct call as [ck ev nonce|id|id|sid limit|id a now nonce|id sid a now nonce|id a now nonce|id a now nonce|id a now nonce|r nonce|identity state nonce|id i nonce|id|id| |fs];
    cbn [recovery_step].
  - apply act_save_verified.
  - apply Hop. eapply triple_weaken; [by apply act_load|done|]. intros. by eapply start_finished.
  - apply Hop. eapply triple_bind; [by apply act_load|]. intros ck. apply triple_ret. intros. by eapply start_finished.
  - unfold workflows_for_session. destruct (list_for_session sid limit (rc_store c)) as [r s] eqn:E.
    assert (browsing (rc_store c) (rc_store c)) as Hb by done.
    pose proof (browse_list (rc_store c) sid limit _ _ _ Hb E) as Hr. apply recovery_listed. destruct r; [by destruct Hr|done].
  - apply Hop. eapply triple_weaken; [by apply act_recover; intros; apply all_anything|done|]. intros. by eapply recovered_finished.
  - apply Hop. eapply triple_weaken; [by apply act_recover_for_session; intros; apply all_anything|done|]. intros d st [Hd _].
    by eapply recovered_finished.
  - apply Hop. eapply triple_weaken; [by apply act_recover_after_replacement; intros; apply all_anything|done|]. intros. by eapply recovered_finished.
  - apply Hop. apply act_restart.
  - apply Hop. apply act_prepare_and_record.
  - apply Hop. by apply act_persist.
  - apply Hop. by apply act_transition.
  - apply Hop. by apply act_persist_issuance.
  - apply Hop. by apply act_load_issuance.
  - apply Hop. by apply act_clear_issuance.
  - by eapply recovery_other; [|apply effect_reopened].
  - by eapply recovery_other; [|apply effect_faults].
Qed.

(** Every call of the coordinator is one of the store's. *)
Lemma recovery_store_effect s call s' : recovery_effect s call s' -> exists store_call, effect s store_call s'.
Proof.
  intros [call' s1 [Hs|id c c' nonce Hk Hg Hs|id Hs]|c ev nonce s1 Hs|sid limit s1 Hs|call' sc s1 _ Hs].
  - exists CallReopen. by apply effect_same.
  - exists (CallUpdate id (fun _ => c') nonce). destruct (grown_workflow _ _ Hg) as [Ew Es].
    pose proof (stored_facts _ _ _ Hk) as [_ Hid]. apply (effect_updated _ id (fun _ => c') c); congruence.
  - exists CallReopen. by apply (effect_elsewhere _ _ id).
  - eexists. by apply effect_saved.
  - exists (CallList sid limit). by apply effect_listed.
  - by exists sc.
Qed.

Lemma recovery_step_placed c call :
  well_placed c.(rc_store).(ks_session_index) -> well_placed (recovery_step call c).(rc_store).(ks_session_index).
Proof.
  intros Hw. destruct (recovery_store_effect _ _ _ (recovery_step_effect c call Hw)) as [sc He].
  by eapply effect_placed.
Qed.

(** Opened over any directory, with or without workers, and used in any way. *)
Definition coordinator_reached (c : RecoveryCoordinator) : Prop :=
  exists d max w calls, c = recovery_run calls (MkRecoveryCoordinator (MkCheckpointStore d empty_index max) w).

Lemma run_placed calls : forall c,
  well_placed c.(rc_store).(ks_session_index) -> well_placed (recovery_run calls c).(rc_store).(ks_session_index).
Proof. induction calls as [|call calls IH]; intros c Hw; [done|]. by apply IH, recovery_step_placed. Qed.

Lemma coordinator_placed c : coordinator_reached c -> well_placed c.(rc_store).(ks_session_index).
Proof. intros (d & max & w & calls & ->). apply run_placed. intros sid refs r. cbn. by rewrite lookup_empty. Qed.

Lemma grown_step c call id ck :
  well_placed c.(rc_store).(ks_session_index) -> stored c.(rc_store) id = Some ck ->
  (forall ck' evidence nonce, call = CoSaveVerified ck' evidence nonce -> ck'.(cp_workflow_id) <> id) ->
  exists ck', stored (recovery_step call c).(rc_store) id = Some ck' /\ grown ck ck'.
Proof.
  intros Hw Hst Hno. pose proof (recovery_step_effect c call Hw) as He.
  assert (forall s, stored s id = stored (rc_store c) id -> exists ck', stored s id = Some ck' /\ grown ck ck') as Hkept.
  { intros s ->. exists ck. split; [done|apply grown_refl]. }
  destruct He as [call' s1 [Hs|id1 c0 c1 nonce Hk Hg Hs|id1 Hs]|c1 ev nonce s1 Hs|sid limit s1 Hs|call' sc s1 Heq _].
  - by apply Hkept, same_stored.
  - destruct (saved_or_kept_stored _ _ _ _ Hs) as (_ & Ho & Hd). destruct (grown_workflow _ _ Hg) as [Ew _].
    pose proof (stored_facts _ _ _ Hk) as [_ Hid]. rewrite Ew, Hid in *.
    destruct (decide (id = id1)) as [->|Hne]; [|by apply Hkept, Ho]. destruct Hd as [Hd|(Hd & _)]; [by apply Hkept|].
    exists c1. split; [done|]. congruence.
  - by apply Hkept, (elsewhere_stored _ id1).
  - destruct (saved_or_kept_stored _ _ _ _ Hs) as (_ & Ho & _). apply Hkept, Ho.
    intros ->. by apply (Hno c1 ev nonce).
  - apply Hkept. destruct Hs as ((E & _) & Em & _). unfold stored. by rewrite E, Em.
  - by apply Hkept.
Qed.

Lemma grown_run calls : forall c id ck,
  well_placed c.(rc_store).(ks_session_index) -> stored c.(rc_store) id = Some ck ->
  (forall ck' evidence nonce, CoSaveVerified ck' evidence nonce ∈ calls -> ck'.(cp_workflow_id) <> id) ->
  exists ck', stored (recovery_run calls c).(rc_store) id = Some ck' /\ grown ck ck'.
Proof.
  induction calls as [|call calls IH]; intros c id ck Hw Hst Hno; [exists ck; split; [done|apply grown_refl]|].
  destruct (grown_step c call id ck Hw Hst) as (ck1 & Hst1 & Hg1).
  { intros ck' ev nonce ->. eapply Hno. by apply elem_of_cons; left. }
  destruct (IH (recovery_step call c) id ck1 (recovery_step_placed c call Hw) Hst1) as (ck2 & Hst2 & Hg2).
  { intros ck' ev nonce Hin. eapply Hno. by apply elem_of_cons; right. }
  exists ck2. split; [done|by eapply grown_trans].
Qed.

(** ** Theorems *)

(** C14: through any calls of the coordinator, with failing calls of files and browser and
    with restarts, until a new checkpoint is saved for the workflow: its checkpoint is kept
    and nothing in it changes but that its history grows and that receipts are added at the
    end; each receipt stays in its place, unchanged but for its state, which never goes
    back.  Where the receipts of the checkpoint have distinct identities (command with its
    class and digest, workflow, attempt, session and page together), they still have. *)
Theorem receipts_only_advance c calls id ck :
  coordinator_reached c -> stored c.(rc_store) id = Some ck ->
  (forall ck' evidence nonce, CoSaveVerified ck' evidence nonce ∈ calls -> ck'.(cp_workflow_id) <> id) ->
  exists ck', stored (recovery_run calls c).(rc_store) id = Some ck' /\ grown ck ck'.
Proof. intros Hr. by apply grown_run, coordinator_placed. Qed.

(** C31: a call of [recover] that answers a decision started from a stored checkpoint whose invariants its own
    evidence shows, asked the browser exactly the calls of the plan, and took the one
    decision that the evidence allows: it resumes exactly when every invariant was
    observed, it leaves a boundary to reconciliation, and it restarts anything else as a new
    attempt; and the checkpoint now ends with that decision. *)
Theorem recovery_decision_is_earned c id attempt_id now nonce calls d :
  c.(rc_workers) = Some calls -> (recover id attempt_id now nonce c).1 = Ok d ->
  let c' := recovery_step (CoRecover id attempt_id now nonce) c in
  exists ck evidence calls', stored c.(rc_store) id = Some ck /\ observed ck ck.(cp_evidence)
    /\ answers (calls ++ opening true ck) (probes ck) = Some evidence
    /\ verdict ck attempt_id evidence (calls ++ opening true ck ++ probes ck) d calls'
    /\ c'.(rc_workers) = Some calls'
    /\ stored c'.(rc_store) id = Some (push_decision d now ck).
Proof.
  intros Hw E%pair_fst c'. pose proof (act_recover (rc_store c) (rc_workers c) anything id attempt_id now nonce
    (fun _ _ => all_anything _) c _ c' (start_now c) E) as (ck & Hk & Ho & calls0 & ev & calls' & Hw0 & Hev & Hd & Hw' & _ & Hs).
  rewrite Hw in Hw0. injection Hw0 as <-. exists ck, ev, calls'. split_and!; try done.
  pose proof (saved_stored _ _ _ _ Hs) as Hst. pose proof (stored_facts _ _ _ Hk) as [_ Hid]. cbn in Hst. by rewrite Hid in Hst.
Qed.

(** C21: whatever fails and whatever the browser shows, recovering a workflow whose
    checkpoint is a boundary navigates nowhere but to the page the checkpoint was on: it is
    never sent back to the start to be done again. *)
Theorem boundary_is_not_restarted c id attempt_id now nonce calls ck call :
  c.(rc_workers) = Some calls -> stored c.(rc_store) id = Some ck -> ck.(cp_recovery_class) = Boundary ->
  call ∈ [CoRecover id attempt_id now nonce; CoRecoverForSession id ck.(cp_session_id) attempt_id now nonce;
          CoRecoverAfterReplacement id attempt_id now nonce] ->
  exists new, (recovery_step call c).(rc_workers) = Some (calls ++ new)
    /\ forall lease page command, Navigate lease page command ∈ new -> command.(nv_url) = ck.(cp_current_url).
Proof.
  intros Hw Hk Hb Hcall.
  set (allowed := fun b => match b with Navigate _ _ command => nv_url command = cp_current_url ck | _ => True end).
  assert (forall ck', stored (rc_store c) id = Some ck' -> Forall allowed (recovery_calls true ck')) as Hall.
  { intros ck' E. rewrite Hk in E. injection E as <-. unfold recovery_calls. rewrite bool_decide_eq_true_2 by done.
    rewrite app_nil_r. apply Forall_app. split; [by repeat constructor|]. apply Forall_app. split; [by repeat constructor|].
    apply Forall_fmap, Forall_forall. done. }
  assert (asked (rc_workers c) allowed (rc_workers (recovery_step call c))) as Ha.
  { assert (forall A (m : RecIO A) Q, triple (start c.(rc_store) c.(rc_workers)) m Q (stopped c.(rc_store) c.(rc_workers) allowed) ->
      (forall a st, Q a st -> finished c.(rc_store) c.(rc_workers) allowed st) ->
      asked (rc_workers c) allowed (rc_workers (m c).2)) as Hop.
    { intros A m Q Hm HQ. destruct (m c) as [r st] eqn:E. pose proof (Hm c r st (start_now c) E) as Hr.
      destruct r; [by apply HQ in Hr as [_ ?]|by destruct Hr]. }
    rewrite !elem_of_cons, elem_of_nil in Hcall. destruct Hcall as [-> |[-> |[-> |[]]]]; cbn [recovery_step].
    - eapply Hop; [by apply act_recover|]. intros. by eapply recovered_finished.
    - eapply Hop; [by apply act_recover_for_session|]. intros d st [Hd _]. by eapply recovered_finished.
    - eapply Hop; [by apply act_recover_after_replacement|]. intros. by eapply recovered_finished. }
  rewrite Hw in Ha. unfold asked in Ha. destruct (rc_workers (recovery_step call c)) as [calls'|]; [|done].
  destruct Ha as (new & -> & Hnew). exists new. split; [done|]. intros lease page command Hin.
  rewrite Forall_forall in Hnew. exact (Hnew _ Hin).
Qed.

(** C32: a recovery ends with a decision when nothing fails: the checkpoint is stored and its
    invariants are shown by its evidence, the browser answers every call, no call of the
    file system fails and the checkpoint with the decision can be written. *)
Theorem recovery_reaches_a_decision c id ck attempt_id now nonce calls a :
  c.(rc_workers) = Some calls -> stored c.(rc_store) id = Some ck -> observed ck ck.(cp_evidence) ->
  c.(rc_store).(ks_dir).(kd_faults) = [] -> (forall before call, exists evidence, pool_answer before call = Ok evidence) ->
  checkpoint_authority_digest ck = Ok a ->
  (forall evidence d calls', answers (calls ++ opening true ck) (probes ck) = Some evidence ->
     verdict ck attempt_id evidence (calls ++ opening true ck ++ probes ck) d calls' ->
     can_write c.(rc_store) (push_decision d now ck) nonce) ->
  exists d, (recover id attempt_id now nonce c).1 = Ok d
    /\ stored (recovery_step (CoRecover id attempt_id now nonce) c).(rc_store) id = Some (push_decision d now ck).
Proof.
  intros Hw Hst Ho Hf Hans Ea Hcan. destruct c as [s w]. cbn in *. subst w.
  destruct (calm_recover s Hf Hans id ck attempt_id now nonce calls a Hst Ho Ea Hcan) as (d & c' & E).
  exists d. cbn [recovery_step]. rewrite E. split; [done|].
  pose proof (act_recover s (Some calls) anything id attempt_id now nonce (fun _ _ => all_anything _) _ _ c'
    (start_now (MkRecoveryCoordinator s (Some calls))) E) as (ck' & Hk & _ & Hc). rewrite Hst in Hk. injection Hk as <-.
  destruct Hc as (? & ? & ? & _ & _ & _ & _ & _ & Hs). apply saved_stored in Hs.
  pose proof (stored_facts _ _ _ Hst) as [_ Hid]. cbn in Hs. by rewrite Hid in Hs.
Qed.
End Guarantees.

(** ** A concrete coordinator *)

Module SampleRecovery.
#[export] Existing Instances SampleJson.sha SampleCheckpoints.receipts.

Definition sha_text : string := "0123456789abcdef0123456789abcdef0123456789abcdef0123456789abcdef".
Definition identity : RecoveryCommandIdentity := MkRecoveryCommandIdentity 6%N 1%N 2%N 3%N None Boundary sha_text.
Definition receipt (state : RecoveryReceiptState) : RecoveryReceipt :=
  MkRecoveryReceipt 6%N identity state 7%N (MkSkillDecision ObserveAgain DeadlineExceeded "visible" 1 1 None None)
    (OutcomeCompleted 6%N []) (Stopped []) [] sha_text 5.

(** A boundary of workflow 1, alone and with a receipt. *)
Definition boundary (checkpoint_id : CheckpointId) (receipts : list RecoveryReceipt) : WorkflowCheckpoint :=
  MkWorkflowCheckpoint 1 checkpoint_id 1%N 2%N 3%N 4%N "http://a/start" "http://a/pay" None (Some 6%N) Boundary
    [] [] [] [] receipts 10.

Definition resumed : RecoveryDecision := Resumed 8%N 2%N [].

Definition table : list WorkflowCheckpoint :=
  [boundary 8%N []; boundary 8%N [receipt Unresolved]; boundary 8%N [receipt PendingJournal];
   push_decision resumed 20 (boundary 8%N []); boundary 9%N []].
#[export] Instance codec : CheckpointCodec := SampleCheckpoints.table_codec table.
#[export] Instance codec_laws : CheckpointCodecLaws.
Proof. split. intros c b _. apply SampleCheckpoints.table_roundtrip. Qed.
#[export] Instance pool : BrowserPool := {| pool_answer _ _ := Ok [] |}.

Definition coordinator (calls : list RecoveryCall) : RecoveryCoordinator :=
  recovery_run calls (MkRecoveryCoordinator SampleCheckpoints.empty_store (Some [])).
Definition saved_boundary : RecoveryCoordinator := coordinator [CoSaveVerified (boundary 8%N []) [] 11%N].
Definition with_receipt : RecoveryCoordinator :=
  coordinator [CoSaveVerified (boundary 8%N []) [] 11%N; CoPersistReceipt (receipt Unresolved) 12%N].

Lemma saved_boundary_has : stored saved_boundary.(rc_store) 1%N = Some (boundary 8%N []).
Proof. by_eval. Qed.

Lemma saved_boundary_workers : saved_boundary.(rc_workers) = Some [].
Proof. by_eval. Qed.

Lemma with_receipt_has : stored with_receipt.(rc_store) 1%N = Some (boundary 8%N [receipt Unresolved]).
Proof. by_eval. Qed.

Lemma receipts_only_advance_witness :
  exists ck', stored (recovery_run [CoTransition identity PendingJournal 13%N] with_receipt).(rc_store) 1%N = Some ck'
    /\ grown (boundary 8%N [receipt Unresolved]) ck'.
Proof.
  apply (receipts_only_advance with_receipt [CoTransition identity PendingJournal 13%N] 1%N); [|exact with_receipt_has|].
  - exists (MkDirectory ∅ 0 0 []), 4096, (Some []), [CoSaveVerified (boundary 8%N []) [] 11%N; CoPersistReceipt (receipt Unresolved) 12%N].
    reflexivity.
  - intros ck' evidence nonce Hin. apply list_elem_of_singleton in Hin. discriminate Hin.
Defined.

Lemma boundary_resumes : (recover 1%N 9%N 20 13%N saved_boundary).1 = Ok resumed.
Proof. by_eval. Qed.

Lemma recovery_decision_is_earned_witness :
  exists ck, stored saved_boundary.(rc_store) 1%N = Some ck
    /\ stored (recovery_step (CoRecover 1%N 9%N 20 13%N) saved_boundary).(rc_store) 1%N = Some (push_decision resumed 20 ck).
Proof.
  destruct (recovery_decision_is_earned saved_boundary 1%N 9%N 20 13%N [] resumed saved_boundary_workers boundary_resumes)
    as (ck & _ & _ & Hk & _ & _ & _ & _ & Hk').
  exact (ex_intro _ ck (conj Hk Hk')).
Defined.

Lemma boundary_is_not_restarted_witness :
  exists new, (recovery_step (CoRecover 1%N 9%N 20 13%N) saved_boundary).(rc_workers) = Some ([] ++ new)
    /\ forall lease page command, Navigate lease page command ∈ new -> command.(nv_url) = "http://a/pay".
Proof.
  exact (boundary_is_not_restarted saved_boundary 1%N 9%N 20 13%N [] (boundary 8%N []) (CoRecover 1%N 9%N 20 13%N)
    saved_boundary_workers saved_boundary_has eq_refl (list_elem_of_here _ _)).
Defined.

Lemma boundary_kind :
  en_kind <$> saved_boundary.(rc_store).(ks_dir).(kd_entries) !! CheckpointFile 1%N = Some RegularFile.
Proof. by_eval. Qed.

Lemma resumed_fits : can_write saved_boundary.(rc_store) (push_decision resumed 20 (boundary 8%N [])) 13%N.
Proof.
  split; [by_eval|]. split; [exists (replicate 3%nat newline); split; [by_eval|apply Z.leb_le; by_eval]|].
  split; [by_eval|]. change (cp_workflow_id _) with 1%N. by rewrite boundary_kind.
Qed.

Lemma recovery_reaches_a_decision_witness :
  exists d, (recover 1%N 9%N 20 13%N saved_boundary).1 = Ok d.
Proof.
  destruct (recovery_reaches_a_decision saved_boundary 1%N (boundary 8%N []) 9%N 20 13%N []
    (sha256 []) saved_boundary_workers saved_boundary_has) as (d & E & _).
  - constructor.
  - by_eval.
  - intros before call. exists []. reflexivity.
  - by_eval.
  - intros evidence d calls' Hev Hd. assert (evidence = []) as ->.
    { assert (Some evidence = Some (@nil Evidence)) as E by (rewrite <- Hev; reflexivity). congruence. }
    destruct d as [ck at' ev|ck at' reason ev|ck lineage ev]; [|exfalso; apply (proj1 Hd); constructor..].
    destruct Hd as (_ & _ & -> & -> & ->). exact resumed_fits.
  - exact (ex_intro _ d E).
Defined.

(** A new checkpoint of the workflow, as it is saved before the next boundary command, drops
    a receipt that is not resolved. *)
Lemma new_checkpoint_drops_receipts :
  (save_verified (boundary 9%N []) [] 14%N with_receipt).1 = Ok (boundary 9%N [])
  /\ stored (save_verified (boundary 9%N []) [] 14%N with_receipt).2.(rc_store) 1%N = Some (boundary 9%N []).
Proof. split; by_eval. Qed.
End SampleRecovery.
