(* ===== verification/Nodes.v ===== *)
(** * Named vision nodes

    [crates/node-registry/src/lib.rs] with [NodeConfig::is_local] of
    [crates/config/src/vision.rs]: a session names a node, and the registry resolves the name
    or declines.  Parsing an address, reading the environment and building an HTTP client are
    third-party code and parameters; a provider is known by what it was built from. *)

From S2P Require Import Prelude Text SkillTypes.

(** ** Configuration *)

Inductive NodeKind := VisionNode.
#[export] Instance NodeKind_eq_dec : EqDecision NodeKind.
Proof. solve_decision. Defined.

Record NodeConfig := MkNodeConfig {
  nc_kind : NodeKind;
  nc_endpoint_url : string;
  nc_token_env : option string;
  nc_timeout_ms : Z;
}.

Inductive VisionAuthKind :=
| AuthAdvertised | AuthOAuthAuthorizationCode | AuthOAuthDeviceCode | AuthEnvironment | AuthExistingSession | AuthNone.

(** [VisionAcpProfile]; the harness reads the rest. *)
Record VisionAcpProfile := MkVisionAcpProfile {
  va_command : string;
  va_args : list string;
  va_auth : VisionAuthKind;
}.

Record VisionConfig := MkVisionConfig {
  vc_endpoint_url : option string;
  vc_token_env : option string;
  vc_timeout_ms : Z;
  vc_acp_profiles : gmap string VisionAcpProfile;
}.

Record AppConfig := MkAppConfig {
  ac_nodes : gmap string NodeConfig;
  ac_vision : VisionConfig;
}.

(** [Url::parse] with [host_str], [std::env::var] and [HttpVisionAssist::new]. *)
Class NodeLib := {
  url_host : string -> option string;
  env_var : string -> option string;
  http_assist : string -> option string -> Z -> result unit string;
}.

(** ** The registry *)

Inductive NodeError :=
| NodeUnknown (name : string)
| NodeWrongKind (name : string) (configured requested : NodeKind)
| NodeUnreachable (name reason : string).

Record ResolvedNode := MkResolvedNode {
  rn_name : string;
  rn_kind : NodeKind;
  rn_is_local : bool;
}.

Record NodeRegistry := MkNodeRegistry {
  nr_nodes : gmap string NodeConfig;
  nr_acp_profiles : gmap string VisionAcpProfile;
}.

(** What page material is sent to. *)
Inductive VisionProvider :=
| HttpVision (name : string) (config : NodeConfig) (bearer : option string)
| AcpVision (name : string) (profile : VisionAcpProfile).

Definition LEGACY_VISION_NODE : string := "vision".

Definition has_dual_vision_config (c : AppConfig) : bool :=
  negb (bool_decide (c.(ac_nodes) = ∅)) && bool_decide (is_Some c.(ac_vision).(vc_endpoint_url)).

Definition from_config (c : AppConfig) : NodeRegistry :=
  if negb (bool_decide (c.(ac_nodes) = ∅)) then MkNodeRegistry c.(ac_nodes) c.(ac_vision).(vc_acp_profiles)
  else
    let nodes := match c.(ac_vision).(vc_endpoint_url) with
                 | Some url => {[LEGACY_VISION_NODE :=
                                   MkNodeConfig VisionNode url c.(ac_vision).(vc_token_env) c.(ac_vision).(vc_timeout_ms)]}
                 | None => ∅
                 end in
    MkNodeRegistry nodes c.(ac_vision).(vc_acp_profiles).

(** [names]: HTTP nodes first, each in the order of names. *)
Definition node_names (r : NodeRegistry) : list string :=
  (btree_entries r.(nr_nodes)).*1 ++ (btree_entries r.(nr_acp_profiles)).*1.

Definition registry_is_empty (r : NodeRegistry) : bool :=
  bool_decide (r.(nr_nodes) = ∅) && bool_decide (r.(nr_acp_profiles) = ∅).

Definition primary_http_vision_node (r : NodeRegistry) : option (string * NodeConfig) :=
  match r.(nr_nodes) !! LEGACY_VISION_NODE with
  | Some node =>
      if bool_decide (node.(nc_kind) = VisionNode) then Some (LEGACY_VISION_NODE, node)
      else List.find (fun p => bool_decide (p.2.(nc_kind) = VisionNode)) (btree_entries r.(nr_nodes))
  | None => List.find (fun p => bool_decide (p.2.(nc_kind) = VisionNode)) (btree_entries r.(nr_nodes))
  end.

Section Nodes.
Context `{NodeLib}.

Definition is_local (node : NodeConfig) : bool :=
  match url_host node.(nc_endpoint_url) with
  | Some host => String.eqb host "localhost" || String.eqb host "127.0.0.1" || String.eqb host "::1" || String.eqb host "[::1]"
  | None => false
  end.

Definition resolve_node (r : NodeRegistry) (name : string) (kind : NodeKind) : result ResolvedNode NodeError :=
  if bool_decide (is_Some (r.(nr_acp_profiles) !! name)) then Ok (MkResolvedNode name kind false)
  else
    let? node := ok_or (r.(nr_nodes) !! name) (NodeUnknown name) in
    refuse_if (negb (bool_decide (node.(nc_kind) = kind))) (NodeWrongKind name node.(nc_kind) kind) ;?
    Ok (MkResolvedNode name node.(nc_kind) (is_local node)).

Definition vision (r : NodeRegistry) (name : string) : result VisionProvider NodeError :=
  match r.(nr_acp_profiles) !! name with
  | Some profile => Ok (AcpVision name profile)
  | None =>
      let? _resolved := resolve_node r name VisionNode in
      let? node := ok_or (r.(nr_nodes) !! name) (NodeUnknown name) in
      let bearer := node.(nc_token_env) ≫= env_var in
      map_err (NodeUnreachable name) (http_assist node.(nc_endpoint_url) bearer node.(nc_timeout_ms)) ;?
      Ok (HttpVision name node bearer)
  end.

Definition local_vision_assist (r : NodeRegistry) : option VisionProvider :=
  match primary_http_vision_node r with
  | None => None
  | Some (name, _) =>
      match resolve_node r name VisionNode with
      | Ok node => if negb node.(rn_is_local) then None
                   else match vision r name with Ok p => Some p | Err _ => None end
      | Err _ => None
      end
  end.

Definition http_structured_extractor (r : NodeRegistry) : option VisionProvider :=
  match primary_http_vision_node r with
  | None => None
  | Some (name, node) =>
      let bearer := node.(nc_token_env) ≫= env_var in
      match http_assist node.(nc_endpoint_url) bearer node.(nc_timeout_ms) with
      | Ok _ => Some (HttpVision name node bearer)
      | Err _ => None
      end
  end.

Definition auth_strategy (r : NodeRegistry) (name : string) : result VisionAuthKind NodeError :=
  let? profile := ok_or (r.(nr_acp_profiles) !! name) (NodeUnknown name) in
  Ok profile.(va_auth).

(** ** What a session may name

    [NodeSelection] of [page-runtime/src/adaptive.rs] and [vision_node_selection] of
    [sdk-core/src/lib.rs]. *)
Inductive NodeSelection :=
| NotRequested
| ResolvedProvider (provider : VisionProvider)
| UnresolvedNode.

Definition vision_node_selection (r : NodeRegistry) (vision_node : option string) : NodeSelection :=
  match vision_node with
  | None => NotRequested
  | Some name => match vision r name with Ok p => ResolvedProvider p | Err _ => UnresolvedNode end
  end.

(** [NodeSelection::provider]: the provider an escalation goes to, given the process-wide one. *)
Definition selected_provider (s : NodeSelection) (installed : option VisionProvider) : option VisionProvider :=
  match s with
  | NotRequested => installed
  | ResolvedProvider p => Some p
  | UnresolvedNode => None
  end.

(** ** No fallback *)

(** The node a provider was built from. *)
Definition provider_node (p : VisionProvider) : string :=
  match p with HttpVision name _ _ | AcpVision name _ => name end.

Definition configured (r : NodeRegistry) (p : VisionProvider) : Prop :=
  match p with
  | AcpVision name profile => r.(nr_acp_profiles) !! name = Some profile
  | HttpVision name node bearer =>
      r.(nr_nodes) !! name = Some node /\ node.(nc_kind) = VisionNode /\ bearer = node.(nc_token_env) ≫= env_var
  end.

Lemma vision_configured r name p : vision r name = Ok p -> provider_node p = name /\ configured r p.
Proof.
  unfold vision. destruct (nr_acp_profiles r !! name) as [profile|] eqn:Ea; [by intros [= <-]|].
  unfold resolve_node. rewrite bool_decide_eq_false_2; [|rewrite Ea; by intros []].
  destruct (nr_nodes r !! name) as [node|] eqn:En; [|done]. cbn.
  case_bool_decide as Hk; [|done]. cbn. destruct (http_assist _ _ _); [|done]. intros [= <-]. done.
Qed.

(** A session that names a node gets the provider of that node and of no other; a name that
    is not configured, or cannot be reached, gets none. *)
Theorem named_node_or_none r name :
  match vision_node_selection r (Some name) with
  | ResolvedProvider p => provider_node p = name /\ configured r p
  | UnresolvedNode => True
  | NotRequested => False
  end
  /\ (r.(nr_nodes) !! name = None -> r.(nr_acp_profiles) !! name = None ->
      vision_node_selection r (Some name) = UnresolvedNode).
Proof.
  unfold vision_node_selection. split.
  - destruct (vision r name) as [p|] eqn:E; [|done]. by apply vision_configured.
  - intros Hn Ha. unfold vision, resolve_node. rewrite Ha, bool_decide_eq_false_2 by (by intros []). by rewrite Hn.
Qed.

Lemma primary_node r name node :
  primary_http_vision_node r = Some (name, node) -> r.(nr_nodes) !! name = Some node /\ node.(nc_kind) = VisionNode.
Proof.
  assert (List.find (fun p => bool_decide (p.2.(nc_kind) = VisionNode)) (btree_entries r.(nr_nodes)) = Some (name, node) ->
    r.(nr_nodes) !! name = Some node /\ node.(nc_kind) = VisionNode) as Hf.
  { intros [Hin%list_elem_of_In Hk%bool_decide_eq_true]%List.find_some. rewrite btree_entries_perm in Hin.
    by apply elem_of_map_to_list in Hin. }
  unfold primary_http_vision_node. destruct (nr_nodes r !! LEGACY_VISION_NODE) as [n|] eqn:E; [|done].
  case_bool_decide; [|done]. by intros [= <- <-].
Qed.

(** The provider that is used when a session names no node is on this machine. *)
Theorem unnamed_provider_is_local r p :
  local_vision_assist r = Some p ->
  exists name node bearer, p = HttpVision name node bearer /\ r.(nr_nodes) !! name = Some node /\ is_local node = true.
Proof.
  unfold local_vision_assist. destruct (primary_http_vision_node r) as [[name node]|] eqn:Ep; [|done].
  apply primary_node in Ep as [En Hk]. destruct (resolve_node r name VisionNode) as [x|] eqn:Er; [|done].
  destruct (rn_is_local x) eqn:El; [|done]. cbn. revert Er. unfold resolve_node.
  case_bool_decide as Ha; [by intros [= <-]|]. rewrite En. cbn. rewrite Hk. cbn. intros [= <-]. cbn in El.
  destruct (vision r name) as [p'|] eqn:Ev; [|done]. intros [= ->].
  apply vision_configured in Ev as [<- Hc]. destruct p as [n c b|n pr]; cbn in *.
  - destruct Hc as (Hc & _ & _). exists n, c, b. split_and!; congruence.
  - by destruct Ha.
Qed.
End Nodes.
