(* ===== verification/Executor.v ===== *)
(** * The command executor

    [PageRuntime::execute] and [PageRuntime::recover_command] of
    [crates/page-runtime/src/executor.rs] with [executor/admission.rs], [context.rs],
    [execution.rs] and [execution/*.rs]: a command is validated, three phases are written
    to the journal, then it is dispatched to the browser, a transport that died is
    recovered, and the result is prepared, verified and written.

    The journal is any [CommandLog].  The worker pool, the engines behind it, the direct
    HTTP path and the verifiers of single commands are the class [Workers]: any functions
    on a state, so that they may fail, time out or answer anything.  An early return of the
    code is an error of the monad.  The trace records what was written and what was asked
    of the workers; the code does not read it.  The context graph, promotion, metrics,
    observers and logging do not influence an outcome, but for the page generation that is
    added to the evidence ([wk_context]). *)

From S2P Require Import Prelude Text SkillTypes Receipt Ledger Json Nodes Commands CommandJournal CommandLog Checkpoint.
From Stdlib Require Import Ascii.

(** ** Data *)

Inductive PageMode := Document | InteractiveMode | Render.

Record PageState := MkPageState {
  ps_id : PageId;
  ps_session_id : SessionId;
  ps_url : option string;
  ps_mode : PageMode;
  ps_ready_state : string;
  ps_pending_requests : Z;
}.
#[export] Instance eta_PageState : Eta PageState := fun p =>
  MkPageState (ps_id p) (ps_session_id p) (ps_url p) (ps_mode p) (ps_ready_state p) (ps_pending_requests p).

(** Both halves must be open before a vision provider runs. *)
Record VisionGate := MkVisionGate {
  vg_session_ok : bool;
  vg_capability_ok : bool;
}.

Record SessionGate := MkSessionGate {
  sg_vision : VisionGate;
  sg_fingerprint : bool;
  sg_humanize : bool;
  sg_collect_training_data : bool;
  sg_vision_node : NodeSelection;
}.

Record AdaptiveFailure := MkAdaptiveFailure {
  af_error : CommandError;
  af_evidence : list Evidence;
}.

Record PendingArtifact := MkPendingArtifact {
  pa_artifact_id : string;
  pa_sha256 : string;
  pa_bytes : Z;
  pa_staging_id : option string;
}.

Record PreparedHttpResult := MkPreparedHttpResult {
  ph_state_version : Z;
  ph_state : JsonValue;
  ph_artifact : option PendingArtifact;
  ph_download : option PreparedDownload;
}.

Record AdaptiveExecution := MkAdaptiveExecution {
  ax_evidence : list Evidence;
  ax_prepared_http : option PreparedHttpResult;
}.
#[export] Instance eta_AdaptiveExecution : Eta AdaptiveExecution := fun x =>
  MkAdaptiveExecution (ax_evidence x) (ax_prepared_http x).

(** A leased worker, by its identity. *)
Definition WorkerLease : Type := N.

(** The worker pool, its workers and the adaptive engine.  [wk_execute] answers [None] when
    the deadline passed first. *)
Class Workers (W : Type) := {
  wk_lease : SessionId -> ST W CommandError WorkerLease;
  wk_set_fingerprint_enabled : WorkerLease -> bool -> ST W CommandError unit;
  wk_set_humanization_enabled : WorkerLease -> bool -> ST W CommandError unit;
  wk_inspect : WorkerLease -> PageId -> InspectCommand -> ST W CommandError (list Evidence);
  wk_execute : CommandEnvelope -> WorkerLease -> option PageState -> SessionGate
               -> ST W AdaptiveFailure (option AdaptiveExecution);
  wk_list_pages : WorkerLease -> ST W CommandError (list Evidence);
  wk_reconnect_live_process : WorkerLease -> ST W CommandError unit;
  wk_invalidate_session_if_worker : SessionId -> WorkerLease -> ST W CommandError unit;
  wk_open_page : WorkerLease -> PageId -> ST W CommandError unit;
  wk_navigate : WorkerLease -> PageId -> NavigateCommand -> ST W CommandError (list Evidence);
  wk_commit_http_state : WorkerLease -> PageId -> Z -> JsonValue -> ST W CommandError unit;
  wk_verify : WorkerLease -> CommandEnvelope -> PrimitiveCommand -> option string -> list Evidence
              -> ST W CommandError (list Evidence);
  wk_commit_artifact : PendingArtifact -> ST W string unit;
  wk_commit_download : PreparedDownload -> ST W CommandError unit;
  wk_discard_download : PreparedDownload -> ST W CommandError unit;
  wk_cleanup_download : PreparedDownload -> ST W CommandError unit;
  wk_finalize_prepared_download : PreparedDownload -> string -> Z -> ST W CommandError unit;
  wk_finalize_prepared_artifact : SessionId -> string -> string -> string -> Z -> ST W CommandError unit;
  wk_context : CommandEnvelope -> list Evidence -> ST W CommandError (option Z);
}.

(** What an execution did: a record handed to the journal and whether it was acknowledged,
    a dispatch of the command, or another call of the workers. *)
Inductive Action :=
| Wrote (record : CommandRecord) (acknowledged : bool)
| Dispatched (id : CommandId)
| Asked.

(** ** Failures *)

Definition internal_error (message : string) : CommandError :=
  MkCommandError CodeInternal message LayerPage false.
Definition validation_error (message : string) : CommandError :=
  MkCommandError CodeInvalidRequest message LayerWorkflow false.
Definition missing_page_error : CommandError :=
  MkCommandError CodeNotFound "runtime resource was not found" LayerWorkflow false.
Definition verification_error (message : string) : CommandError :=
  MkCommandError CodeVerificationFailed message LayerPage true.

Definition io_error_text (e : IoError) : string := match e with DeviceError m | DataError m => m | FuelExhausted => EmptyString end.

Definition JournalError_to_string (e : JournalError) : string :=
  match e with
  | JournalIo e => "journal I/O failed: " +:+ io_error_text e
  | JournalSerialization m => "journal serialization failed: " +:+ m
  | UncertainCommand => "command belongs to archived, uncertain journal history"
  end.

Definition journal_error (e : JournalError) : CommandError :=
  MkCommandError CodeJournalFailed (JournalError_to_string e) LayerJournal true.

Definition requires_reconciliation (e : CommandEnvelope) : bool :=
  bool_decide (RuntimeCommand_class e.(ev_command) = Boundary)
  || match e.(ev_command) with Primitive (DownloadUrl _) => true | _ => false end.

Definition is_pre_effect (e : CommandError) : bool :=
  match e.(ce_code) with
  | CodeInvalidRequest | CodeTargetNotFound | CodeTargetAmbiguous | CodeFrameNotFound
  | CodeShadowRootUnavailable | CodeIntentCompileFailed | CodeIntentActionMismatch
  | CodeHttpResponseTooLarge | CodeExpectedStatePreSatisfied => true
  | _ => false
  end.

Definition is_postcondition_failure (e : CommandError) : bool :=
  match e.(ce_code) with
  | CodeVerificationFailed | CodeVerificationCodeRequired | CodeWaitConditionTimedOut => true
  | _ => false
  end.

Definition is_transient_target_loss (e : CommandError) : bool :=
  match e.(ce_code) with CodeTargetDetached => true | _ => false end.

Definition FIREFOX_WORKER_CLOSED_MESSAGE : string := "Firefox companion worker is closed".
Definition BROWSER_GONE_MESSAGE : string :=
  "this session's browser is gone; create a new session and close this one".
Definition TARGET_GONE_MESSAGE : string :=
  "the browser target is gone (crashed or closed); re-list pages or recover the session before retrying".

Definition is_firefox_bidi_transport_dead (message : string) : bool :=
  contains "Firefox BiDi" message && negb (contains "client closed" message)
  && (contains "connection closed" message || contains "connection ended" message
      || contains "disconnected" message || contains "command channel closed" message
      || contains "command capacity closed" message || contains "response channel closed" message).

Definition is_closed_page_message (message : string) : bool :=
  contains "receiver is gone" message || contains "session closed" message
  || contains "Session with given id not found" message || contains "oneshot canceled" message
  || contains TARGET_GONE_MESSAGE message || is_firefox_bidi_transport_dead message.

Definition is_dead_worker_error (e : CommandError) : bool :=
  is_closed_page_message e.(ce_message) || String.eqb e.(ce_message) "browser worker is closed".

Definition with_message (e : CommandError) (message : string) : CommandError :=
  MkCommandError e.(ce_code) message e.(ce_layer) e.(ce_retryable).

Definition classify_failure (e : CommandEnvelope) (error : CommandError) (evidence : list Evidence)
    : CommandOutcome :=
  let id := e.(ev_command_id) in
  let error := if String.eqb error.(ce_message) FIREFOX_WORKER_CLOSED_MESSAGE
               then with_message error BROWSER_GONE_MESSAGE else error in
  if match error.(ce_code) with CodeNetworkPolicyDenied | CodePolicyDenied => true | _ => false end
  then OutcomePolicyDenied id error
  else if requires_reconciliation e && negb (is_pre_effect error) && negb (is_postcondition_failure error)
          && negb (is_transient_target_loss error)
  then OutcomeNeedsReconciliation id error evidence
  else if error.(ce_retryable) then OutcomeRetryableFailure id error
  else OutcomeFailed id error evidence.

Definition prepared_failure (e : CommandEnvelope) (error : CommandError) (evidence : list Evidence)
    : CommandOutcome :=
  OutcomeNeedsReconciliation e.(ev_command_id) error evidence.

Definition journal_failure (e : CommandEnvelope) (error : JournalError) (may_have_executed : bool)
    : CommandOutcome :=
  let command_error := journal_error error in
  if may_have_executed && requires_reconciliation e
  then OutcomeNeedsReconciliation e.(ev_command_id) command_error []
  else OutcomeRetryableFailure e.(ev_command_id) command_error.

Definition failed (e : CommandEnvelope) (error : CommandError) : CommandOutcome :=
  OutcomeFailed e.(ev_command_id) error [].

(** ** Records *)

Definition command_record (e : CommandEnvelope) (now : Time) (phase : CommandPhase)
    (stored : option CommandEnvelope) (outcome : option CommandOutcome) : CommandRecord :=
  MkCommandRecord 0 now e.(ev_command_id) phase stored outcome None.

Definition prepared_record (e : CommandEnvelope) (now : Time) (prepared : PreparedResult) : CommandRecord :=
  MkCommandRecord 0 now e.(ev_command_id) PhaseResultPrepared None None (Some prepared).

(** The landing path is not written down. *)
Definition without_landing_path (e : Evidence) : Evidence :=
  match e with
  | EvDownload filename path bytes sha256 _ => EvDownload filename path bytes sha256 None
  | e => e
  end.

Definition prepared_result (e : CommandEnvelope) (evidence : list Evidence) (p : PreparedHttpResult)
    : PreparedResult :=
  MkPreparedResult e.(ev_command_id) e.(ev_attempt_id) p.(ph_state_version) Null
    (without_landing_path <$> evidence)
    (pa_artifact_id <$> p.(ph_artifact)) (pa_sha256 <$> p.(ph_artifact)) (pa_bytes <$> p.(ph_artifact))
    (p.(ph_artifact) ≫= pa_staging_id) p.(ph_download).

Definition page_still_listed (evidence : list Evidence) (page_id : PageId) : bool :=
  existsb (fun item => match item with
                       | EvPages pages => existsb (fun entry => N.eqb entry.(pe_page_id) page_id) pages
                       | _ => false
                       end) evidence.

Definition reattach_evidence : Evidence :=
  EvConfiguration "cdpReattach"
    "websocket reset with the browser process still alive; reattached to the same process and page state is preserved".

Definition transient_target_loss_evidence (message : string) : Evidence :=
  EvConfiguration "transientTargetLoss" message.

Definition browser_revived_evidence (probe_error : option string) (reattach_error message : string) : Evidence :=
  let probe := match probe_error with Some m => "err: " +:+ m | None => "ok" end in
  EvConfiguration "browserRevived"
    ("probe: " +:+ probe +:+ " | reattach: " +:+ reattach_error +:+ " | original: " +:+ message).

(** Why the history of a command is not available. *)
Inductive RecoveryFailure := NoJournal | HistoryFailed (error : JournalError).

Definition unit_of {A} (o : option A) : option unit := (fun _ => tt) <$> o.

Section Executor.
Context {J W : Type} `{CommandLog J, Workers W, UrlLib, Decimal}.

(** ** State *)

Record PageRuntime := MkPageRuntime {
  rt_pages : gmap PageId PageState;
  rt_journal : option J;
  rt_workers : option W;
  rt_checkpoints : option (WorkflowId -> option WorkflowCheckpoint);
  rt_trace : list Action;
}.
#[export] Instance eta_PageRuntime : Eta PageRuntime := fun r =>
  MkPageRuntime (rt_pages r) (rt_journal r) (rt_workers r) (rt_checkpoints r) (rt_trace r).

(** A step of an execution; an error is the outcome of an early return. *)
Definition Run (A : Type) : Type := ST PageRuntime CommandOutcome A.

(** A call of the journal. *)
Definition append (record : CommandRecord) (now : Time) : Run (result unit JournalError) := fun r =>
  match r.(rt_journal) with
  | None => (Ok (Err UncertainCommand), r)
  | Some j =>
      let '(x, j') := log_append record now j in
      let acknowledged := match x with Ok _ => true | Err _ => false end in
      (Ok x, r <| rt_journal := Some j' |> <| rt_trace := r.(rt_trace) ++ [Wrote record acknowledged] |>)
  end.

(** A call of the workers, recorded as [a]. *)
Definition ask_as {A E} (a : Action) (m : ST W E A) (absent : E) : Run (result A E) := fun r =>
  match r.(rt_workers) with
  | None => (Ok (Err absent), r)
  | Some w =>
      let '(x, w') := m w in
      (Ok x, r <| rt_workers := Some w' |> <| rt_trace := r.(rt_trace) ++ [a] |>)
  end.

Definition no_workers : CommandError := internal_error "browser workers are not configured".
Definition ask {A} (m : ST W CommandError A) : Run (result A CommandError) := ask_as Asked m no_workers.

(** ** Pages *)

Definition get_page (id : PageId) : Run (option PageState) := do r <- sget; sret (r.(rt_pages) !! id).

Definition register_page_id (session_id : SessionId) (page_id : PageId) (url : string) : Run unit :=
  smodify (fun r => r <| rt_pages := <[page_id := MkPageState page_id session_id (Some url) Document "interactive" 0]>
                                       r.(rt_pages) |>).

Definition remove_page (page_id : PageId) : Run unit :=
  smodify (fun r => r <| rt_pages := delete page_id r.(rt_pages) |>).

(** A page under a new identity, before it has an address. *)
Definition register_page (session_id : SessionId) (fresh : PageId) : Run PageState :=
  let page := MkPageState fresh session_id None Document "created" 0 in
  smodify (fun r => r <| rt_pages := <[fresh := page]> r.(rt_pages) |>) ;; sret page.

(** All pages of a session at once; the identities that were removed. *)
Definition remove_session_pages (session_id : SessionId) : Run (gset PageId) :=
  do r <- sget;
  let gone := filter (fun p : PageId * PageState => p.2.(ps_session_id) = session_id) r.(rt_pages) in
  smodify (fun r => r <| rt_pages := r.(rt_pages) ∖ gone |>) ;; sret (dom gone).

(** [set_url]: nothing happens to a page that is not registered. *)
Definition set_url (id : PageId) (url ready_state : string) : Run unit :=
  smodify (fun r => r <| rt_pages := alter (fun p => p <| ps_url := Some url |> <| ps_ready_state := ready_state |>)
                                       id r.(rt_pages) |>).

(** ** Admission *)

Fixpoint has_duplicate (l : list ClickModifier) : bool :=
  match l with [] => false | x :: l => bool_decide (x ∈ l) || has_duplicate l end.

Definition supported_scheme (url : string) : bool :=
  String.prefix "http://" url || String.prefix "https://" url || String.prefix "data:" url.

Definition check_boundary (r : PageRuntime) (e : CommandEnvelope) (page_id : PageId) : result unit CommandError :=
  match r.(rt_checkpoints) with
  | None => Ok tt
  | Some load =>
      match load e.(ev_workflow_id) with
      | None => Err (validation_error "a verified pre-action checkpoint is required")
      | Some c =>
          refuse_if (negb (N.eqb c.(cp_attempt_id) e.(ev_attempt_id))
                     || negb (N.eqb c.(cp_session_id) e.(ev_session_id))
                     || negb (N.eqb c.(cp_page_id) page_id)
                     || negb (bool_decide (c.(cp_recovery_class) = Boundary))
                     || negb (bool_decide (c.(cp_boundary_command_id) = Some e.(ev_command_id))))
            (validation_error "boundary checkpoint does not match the command context")
      end
  end.

Definition validate_page_command (r : PageRuntime) (e : CommandEnvelope) : result unit CommandError :=
  match e.(ev_page_id) with
  | None => Err (validation_error "pageId is required for page commands")
  | Some page_id =>
      match r.(rt_pages) !! page_id with
      | None => Err missing_page_error
      | Some page =>
          refuse_if (negb (N.eqb page.(ps_session_id) e.(ev_session_id)))
            (validation_error "page does not belong to session") ;?
          match e.(ev_command) with
          | Primitive (Navigate c) =>
              refuse_if (negb (supported_scheme c.(nv_url)))
                (validation_error "navigation URL scheme is not supported")
          | Primitive (Click c) =>
              refuse_if (has_duplicate c.(ck_modifiers)) (validation_error "click modifiers must be unique")
          | _ => Ok tt
          end ;?
          if bool_decide (RuntimeCommand_class e.(ev_command) = Boundary) then check_boundary r e page_id else Ok tt
      end
  end.

Definition validate (r : PageRuntime) (e : CommandEnvelope) (now : Time) : result unit CommandError :=
  refuse_if (negb (e.(ev_schema_version) =? COMMAND_SCHEMA_VERSION))
    (validation_error "unsupported command schema version") ;?
  refuse_if (e.(ev_deadline) <=? now)
    (MkCommandError CodeDeadlineExceeded "command deadline has elapsed" LayerWorkflow false) ;?
  match e.(ev_command) with
  | Primitive ListPages => Ok tt
  | _ => validate_page_command r e
  end.

Definition admission_phases : list CommandPhase := [PhaseAccepted; PhasePrepared; PhaseExecuting].

Fixpoint admit_phases (e : CommandEnvelope) (now : Time) (phases : list CommandPhase) : Run unit :=
  match phases with
  | [] => sret tt
  | phase :: phases =>
      let stored := match phase with PhaseAccepted => Some (CommandEnvelope_journal_safe e) | _ => None end in
      do x <- append (command_record e now phase stored None) now;
      slift (map_err (fun error => journal_failure e error false) x) ;;
      admit_phases e now phases
  end.

Definition admit_command (e : CommandEnvelope) (now : Time) : Run unit :=
  do r <- sget;
  slift (map_err (failed e) (validate r e now)) ;;
  slift (ok_or (unit_of r.(rt_journal)) (failed e (internal_error "command journal is not configured"))) ;;
  slift (ok_or (unit_of r.(rt_workers)) (failed e no_workers)) ;;
  admit_phases e now admission_phases.

(** ** Failing *)

Definition finish_failure_durable (e : CommandEnvelope) (now : Time) (outcome : CommandOutcome)
    : Run (CommandOutcome * bool) :=
  do r <- sget;
  match r.(rt_journal) with
  | None => sret (outcome, false)
  | Some _ =>
      do x <- append (command_record e now PhaseFailed None (Some (CommandOutcome_journal_safe outcome))) now;
      sret (match x with
            | Ok _ => (outcome, true)
            | Err error => (journal_failure e error true, false)
            end)
  end.

(** [return self.finish_failure(..)]. *)
Definition finish_failure {A} (e : CommandEnvelope) (now : Time) (outcome : CommandOutcome) : Run A :=
  do x <- finish_failure_durable e now outcome;
  sfail x.1.

(** A call of the workers whose failure ends the command. *)
Definition ask_or_finish {A} (e : CommandEnvelope) (now : Time) (m : ST W CommandError A) : Run A :=
  do x <- ask m;
  match x with
  | Ok a => sret a
  | Err error => finish_failure e now (classify_failure e error [])
  end.

(** ** One attempt, and the recovery of its transport *)

Definition deadline_failure : AdaptiveFailure :=
  MkAdaptiveFailure
    (MkCommandError CodeDeadlineExceeded "command did not finish before its envelope deadline" LayerWorkflow true) [].

Definition attempt (e : CommandEnvelope) (gate : SessionGate) (lease : WorkerLease) (page : option PageState)
    : Run (result AdaptiveExecution AdaptiveFailure) :=
  do x <- ask_as (Dispatched e.(ev_command_id)) (wk_execute e lease page gate) (MkAdaptiveFailure no_workers []);
  sret (match x with
        | Ok (Some execution) => Ok execution
        | Ok None => Err deadline_failure
        | Err failure => Err failure
        end).

Section Attempt.
Variables (e : CommandEnvelope) (gate : SessionGate) (now : Time).

Definition finish {A} (failure : AdaptiveFailure) : Run A :=
  finish_failure e now (classify_failure e failure.(af_error) failure.(af_evidence)).

Definition retry (lease : WorkerLease) (page : PageState) (evidence : list Evidence)
    : Run (AdaptiveExecution * WorkerLease) :=
  do x <- attempt e gate lease (Some page);
  match x with
  | Ok execution => sret (execution <| ax_evidence := execution.(ax_evidence) ++ evidence |>, lease)
  | Err failure => finish failure
  end.

Definition replayable : bool := bool_decide (RuntimeCommand_class e.(ev_command) = Replayable).

Definition revive (failure : AdaptiveFailure) (lease : WorkerLease) (page : PageState)
    (probe_error : option string) (reattach_error : string) : Run (AdaptiveExecution * WorkerLease) :=
  do _ <- ask (wk_invalidate_session_if_worker e.(ev_session_id) lease);
  do revived <- ask (wk_lease e.(ev_session_id));
  match revived with
  | Err _ => finish failure
  | Ok revived =>
      do _ <- ask (wk_set_fingerprint_enabled revived gate.(sg_fingerprint));
      do _ <- ask (wk_set_humanization_enabled revived gate.(sg_humanize));
      do opened <- ask (wk_open_page revived page.(ps_id));
      match opened with
      | Err _ => finish failure
      | Ok _ =>
          match page.(ps_url) with
          | Some url =>
              do _ <- ask (wk_navigate revived page.(ps_id) (MkNavigateCommand url Interactive 15000)); sret tt
          | None => sret tt
          end ;;
          if replayable then retry revived page []
          else finish (MkAdaptiveFailure
            (MkCommandError CodeTargetDetached
               "the browser transport was lost and could not be reattached; a fresh browser was launched and the page reloaded to its last URL -- inspect current state and re-issue the command"
               LayerDriver false)
            (failure.(af_evidence)
             ++ [browser_revived_evidence probe_error reattach_error failure.(af_error).(ce_message)]))
      end
  end.

Definition after_reattach (failure : AdaptiveFailure) (lease : WorkerLease) (page : PageState)
    : Run (AdaptiveExecution * WorkerLease) :=
  do listed <- ask (wk_list_pages lease);
  let page_open := match listed with Ok evidence => page_still_listed evidence page.(ps_id) | Err _ => true end in
  if negb page_open then finish failure
  else if replayable then retry lease page [reattach_evidence]
  else
    let error := failure.(af_error) in
    finish (MkAdaptiveFailure
      (MkCommandError error.(ce_code)
         (error.(ce_message) +:+ " (CDP transport reset; reattached to the live browser — page state preserved, inspect before re-issuing)")
         error.(ce_layer) true)
      (failure.(af_evidence) ++ [reattach_evidence])).

Definition recover (failure : AdaptiveFailure) (lease : WorkerLease) (page : PageState)
    : Run (AdaptiveExecution * WorkerLease) :=
  do probe <- ask (wk_list_pages lease);
  match probe with
  | Ok evidence =>
      if negb (page_still_listed evidence page.(ps_id)) then finish failure
      else if replayable then retry lease page []
      else
        finish_failure e now (OutcomeFailed e.(ev_command_id)
          (MkCommandError CodeTargetDetached
             "transient target loss; the browser and page are intact -- re-resolve the target and re-issue the command"
             LayerDriver true)
          [transient_target_loss_evidence failure.(af_error).(ce_message)])
  | Err probe_error =>
      do x <- ask (wk_reconnect_live_process lease);
      match x with
      | Ok _ => after_reattach failure lease page
      | Err error => revive failure lease page (Some probe_error.(ce_message)) error.(ce_message)
      end
  end.

Definition run_with_deadline (lease : WorkerLease) (page_state : option PageState)
    : Run (AdaptiveExecution * WorkerLease) :=
  do x <- attempt e gate lease page_state;
  match x with
  | Ok execution => sret (execution, lease)
  | Err failure =>
      let browser_died := is_dead_worker_error failure.(af_error)
                          || (match page_state with Some _ => true | None => false end
                              && String.eqb failure.(af_error).(ce_message) "browser page is not open") in
      match (if browser_died then page_state else None) with
      | Some page => recover failure lease page
      | None => finish failure
      end
  end.
End Attempt.

(** ** Results *)

(** The prepared result is written before anything of it is published. *)
Definition durable_prepare (e : CommandEnvelope) (now : Time) (evidence : list Evidence)
    (p : PreparedHttpResult) : Run (result (option PreparedDownload) CommandError) :=
  do x <- append (prepared_record e now (prepared_result e evidence p)) now;
  match x with
  | Err error =>
      match p.(ph_download) with
      | Some pending => do _ <- ask (wk_discard_download pending); sret tt
      | None => sret tt
      end ;;
      sret (Err (journal_error error))
  | Ok _ =>
      do published <-
        match p.(ph_artifact) with
        | Some pending =>
            do y <- ask_as Asked (wk_commit_artifact pending) no_workers.(ce_message);
            sret (map_err (fun m => internal_error ("prepared artifact publication failed: " +:+ m)) y)
        | None => sret (Ok tt)
        end;
      match published with
      | Err error => sret (Err error)
      | Ok _ =>
          match p.(ph_download) with
          | Some pending =>
              do y <- ask (wk_commit_download pending);
              sret (match y with Ok _ => Ok (Some pending) | Err error => Err error end)
          | None => sret (Ok None)
          end
      end
  end.

Definition cleanup_committed_download (committed : option PreparedDownload) : Run unit :=
  match committed with
  | Some committed => do _ <- ask (wk_cleanup_download committed); sret tt
  | None => sret tt
  end.

(** [return] the outcome of a failure, cleaning up once it is durable. *)
Definition finish_and_cleanup {A} (e : CommandEnvelope) (now : Time) (outcome : CommandOutcome)
    (committed : option PreparedDownload) : Run A :=
  do x <- finish_failure_durable e now outcome;
  (if x.2 : bool then cleanup_committed_download committed else sret tt) ;;
  sfail x.1.

(** [page_id.expect("validated page id")]. *)
Definition default_page (page_id : option PageId) : PageId := default 0%N page_id.

(** Publishing a direct HTTP result; the downloads that were committed. *)
Definition publish_prepared (e : CommandEnvelope) (now : Time) (lease : WorkerLease)
    (execution : AdaptiveExecution) : Run (option PreparedDownload) :=
  match execution.(ax_prepared_http) with
  | None => sret None
  | Some p =>
      do x <- durable_prepare e now execution.(ax_evidence) p;
      match x with
      | Err error => sfail (prepared_failure e error execution.(ax_evidence))
      | Ok committed =>
          do y <- ask (wk_commit_http_state lease (default_page e.(ev_page_id)) p.(ph_state_version) p.(ph_state));
          match y with
          | Ok _ => sret committed
          | Err error => finish_and_cleanup e now (prepared_failure e error execution.(ax_evidence)) committed
          end
      end
  end.

Definition record_execution_context (e : CommandEnvelope) (evidence : list Evidence) : Run (list Evidence) :=
  match e.(ev_command), evidence with
  | Primitive (OpenPage _), EvPage page_id url _ :: _ => register_page_id e.(ev_session_id) page_id url
  | Primitive (ClickAndWaitForPopup _), EvPopup _ page_id url _ :: _ => register_page_id e.(ev_session_id) page_id url
  | Primitive (ClosePage page_id), _ => remove_page page_id
  | _, _ => sret tt
  end ;;
  match e.(ev_page_id) with
  | Some page_id =>
      do generation <- ask (wk_context e evidence);
      sret (match generation with
            | Ok (Some generation) => evidence ++ [EvPageGeneration page_id generation]
            | _ => evidence
            end)
  | None => sret evidence
  end.

Definition verify (e : CommandEnvelope) (lease : WorkerLease) (evidence : list Evidence)
    (typed_on : option string) : Run (result (list Evidence) CommandError) :=
  match e.(ev_command) with
  | Intent _ =>
      sret (if existsb (fun item => match item with EvIntentExecution _ => true | _ => false end) evidence
            then Ok evidence
            else Err (verification_error "intent command returned no execution record"))
  | Primitive command => ask (wk_verify lease e command typed_on evidence)
  end.

(** Where the text is typed, when Enter may move the page. *)
Definition has_enter (value : string) : bool :=
  existsb (fun c => Ascii.eqb c (ascii_of_nat 10) || Ascii.eqb c (ascii_of_nat 13))
    (String.list_ascii_of_string value).

Definition first_inspected_url (evidence : list Evidence) : option string :=
  head (omap (fun item => match item with EvInspection _ url _ _ _ => Some url | _ => None end) evidence).

Definition typed_on_url (e : CommandEnvelope) (lease : WorkerLease) : Run (option string) :=
  match e.(ev_command), e.(ev_page_id) with
  | Primitive (TypeText command), Some page_id =>
      if has_enter command.(tt_value) then
        do x <- ask (wk_inspect lease page_id (MkInspectCommand None None false));
        sret (match x with Ok evidence => first_inspected_url evidence | Err _ => None end)
      else sret None
  | _, _ => sret None
  end.

Definition page_state_of (e : CommandEnvelope) (now : Time) : Run (option PageState) :=
  match e.(ev_page_id) with
  | None => sret None
  | Some page_id =>
      do page <- get_page page_id;
      match page with
      | Some page => sret (Some page)
      | None => finish_failure e now (classify_failure e (internal_error "page disappeared before dispatch") [])
      end
  end.

(** The end of a command that the browser carried out. *)
Definition complete (e : CommandEnvelope) (now : Time) (lease : WorkerLease) (evidence : list Evidence)
    (typed_on : option string) (committed : option PreparedDownload) : Run CommandOutcome :=
  do x <- append (command_record e now PhaseVerifying None None) now;
  slift (map_err (fun error => journal_failure e error true) x) ;;
  do verified <- verify e lease evidence typed_on;
  match verified with
  | Ok evidence =>
      match e.(ev_command), evidence with
      | Primitive (Navigate _), EvNavigation url _ :: _ => set_url (default_page e.(ev_page_id)) url "interactive"
      | _, _ => sret tt
      end ;;
      let outcome := OutcomeCompleted e.(ev_command_id) evidence in
      do y <- append (command_record e now PhaseCompleted None (Some (CommandOutcome_journal_safe outcome))) now;
      match y with
      | Ok _ => cleanup_committed_download committed ;; sret outcome
      | Err error => sfail (journal_failure e error true)
      end
  | Err error => finish_and_cleanup e now (classify_failure e error []) committed
  end.

Definition execute_admitted (e : CommandEnvelope) (gate : SessionGate) (now : Time) : Run CommandOutcome :=
  do lease <- ask_or_finish e now (wk_lease e.(ev_session_id));
  do _ <- ask_or_finish e now (wk_set_fingerprint_enabled lease gate.(sg_fingerprint));
  do _ <- ask_or_finish e now (wk_set_humanization_enabled lease gate.(sg_humanize));
  do page_state <- page_state_of e now;
  do typed_on <- typed_on_url e lease;
  do ran <- run_with_deadline e gate now lease page_state;
  do committed <- publish_prepared e now ran.2 ran.1;
  do evidence <- record_execution_context e ran.1.(ax_evidence);
  complete e now ran.2 evidence typed_on committed.

Definition execute_with_session_gate (e : CommandEnvelope) (gate : SessionGate) (now : Time)
    (r : PageRuntime) : CommandOutcome * PageRuntime :=
  match (admit_command e now ;; execute_admitted e gate now) r with
  | (Ok outcome, r) | (Err outcome, r) => (outcome, r)
  end.

(** ** Recovery of a command *)

(** [records.iter().find_map] and [records.iter().rev().find_map]. *)
Definition find_map_first {A} (f : CommandRecord -> option A) (records : list CommandRecord) : option A :=
  head (omap f records).
Definition find_map_last {A} (f : CommandRecord -> option A) (records : list CommandRecord) : option A :=
  head (omap f (reverse records)).

Definition call_history (id : CommandId) (now : Time) : ST PageRuntime RecoveryFailure JournalScan := fun r =>
  match r.(rt_journal) with
  | None => (Err NoJournal, r)
  | Some j =>
      let '(x, j') := log_history id now j in
      (map_err HistoryFailed x, r <| rt_journal := Some j' |>)
  end.

Definition reservation (scan : JournalScan) : bool :=
  scan.(js_torn) || (0 <? scan.(js_incompatible_records)).

Definition needs_reconciliation (id : CommandId) (error : CommandError) (evidence : list Evidence)
    : Run CommandOutcome := sfail (OutcomeNeedsReconciliation id error evidence).

(** A command with a terminal record: what is left of a download is cleaned up. *)
Definition recover_terminal (records : list CommandRecord) (outcome : CommandOutcome) : Run CommandOutcome :=
  match find_map_last cr_prepared_result records ≫= pt_download with
  | Some download => do _ <- ask (wk_cleanup_download download); sret tt
  | None => sret tt
  end ;;
  sret outcome.

Definition finalize_download (id : CommandId) (prepared : PreparedResult) : Run unit :=
  match prepared.(pt_download) with
  | None => sret tt
  | Some download =>
      match prepared.(pt_artifact_sha256), prepared.(pt_artifact_bytes) with
      | None, _ =>
          sfail (OutcomeNeedsReconciliation id (internal_error "prepared download is missing its digest")
                   prepared.(pt_evidence))
      | _, None =>
          sfail (OutcomeNeedsReconciliation id (internal_error "prepared download is missing its byte count")
                   prepared.(pt_evidence))
      | Some sha256, Some bytes =>
          do x <- ask (wk_finalize_prepared_download download sha256 bytes);
          slift (map_err (fun error => OutcomeNeedsReconciliation id error prepared.(pt_evidence)) x)
      end
  end.

Definition finalize_artifact (id : CommandId) (records : list CommandRecord) (prepared : PreparedResult) : Run unit :=
  match prepared.(pt_artifact_id), prepared.(pt_artifact_staging_id), prepared.(pt_artifact_sha256),
        prepared.(pt_artifact_bytes) with
  | Some artifact_id, Some staging_id, Some sha256, Some bytes =>
      match ev_session_id <$> find_map_first cr_envelope records with
      | Some session_id =>
          do x <- ask (wk_finalize_prepared_artifact session_id artifact_id staging_id sha256 bytes);
          slift (map_err (fun error => OutcomeNeedsReconciliation id error prepared.(pt_evidence)) x)
      | None => sret tt
      end
  | _, _, _, _ => sret tt
  end.

Definition unproven_error : CommandError :=
  MkCommandError CodeHttpEquivalenceUnproven "durable prepared result requires deterministic finalization"
    LayerWorkflow false.

Definition recover_prepared (id : CommandId) (records : list CommandRecord) (prepared : PreparedResult)
    : Run CommandOutcome :=
  finalize_download id prepared ;;
  finalize_artifact id records prepared ;;
  needs_reconciliation id unproven_error prepared.(pt_evidence).

(** The class of the command, as its accepted record has it, and how far it came. *)
Definition may_have_reached_browser (records : list CommandRecord) : bool :=
  match find_map_first cr_envelope records with
  | Some envelope => negb (bool_decide (RuntimeCommand_class envelope.(ev_command) = Replayable))
  | None => false
  end
  && match cr_phase <$> last records with
     | Some PhaseExecuting | Some PhaseVerifying => true
     | _ => false
     end.

Definition recover_records (id : CommandId) (records : list CommandRecord) : Run CommandOutcome :=
  match find_map_last cr_outcome records with
  | Some outcome => recover_terminal records outcome
  | None =>
      match find_map_last cr_prepared_result records with
      | Some prepared => recover_prepared id records prepared
      | None =>
          if may_have_reached_browser records
          then needs_reconciliation id
                 (MkCommandError CodeInternal "durable non-replayable command may have reached the browser"
                    LayerWorkflow false) []
          else sret (OutcomeRetryableFailure id (internal_error "no durable prepared result exists"))
      end
  end.

Definition recover_command (id : CommandId) (now : Time) (r : PageRuntime) : CommandOutcome * PageRuntime :=
  match call_history id now r with
  | (Err NoJournal, r) => (OutcomeFailed id (internal_error "command journal is not configured") [], r)
  | (Err (HistoryFailed error), r) => (OutcomeNeedsReconciliation id (journal_error error) [], r)
  | (Ok scan, r) =>
      if reservation scan
      then (OutcomeNeedsReconciliation id
              (internal_error "command history was damaged and archived; reconciliation is required") [], r)
      else match recover_records id scan.(js_records) r with
           | (Ok outcome, r) | (Err outcome, r) => (outcome, r)
           end
  end.

(** ** What the journal says of a command *)

Definition whole_history (id : CommandId) (now : Time) : ST PageRuntime RecoveryError (list CommandRecord) := fun r =>
  match call_history id now r with
  | (Err NoJournal, r) => (Err WorkersUnavailable, r)
  | (Err (HistoryFailed _), r) => (Err (CommandOutcomeMissing id), r)
  | (Ok scan, r) => (if reservation scan then Err (CommandOutcomeMissing id) else Ok scan.(js_records), r)
  end.

Definition outcome_evidence (record : CommandRecord) : option (list Evidence) :=
  match record.(cr_outcome) with
  | Some (OutcomeCompleted _ evidence) | Some (OutcomeNeedsReconciliation _ _ evidence) => Some evidence
  | _ => None
  end.

Definition evidence_for_command (id : CommandId) (now : Time) : ST PageRuntime RecoveryError (list Evidence) :=
  do records <- whole_history id now;
  slift (ok_or (find_map_last outcome_evidence records) (CommandOutcomeMissing id)).

Definition command_session (id : CommandId) (now : Time) : ST PageRuntime RecoveryError SessionId :=
  do records <- whole_history id now;
  slift (ok_or (ev_session_id <$> find_map_first cr_envelope records) (CommandOutcomeMissing id)).
End Executor.
