(* ===== verification/ExecutorInv.v ===== *)
(** * What an execution may do, in which order

    The trace of an execution as runs of an automaton, the histories that the journal may
    then hold, and a triple for every part of the executor. *)

From S2P Require Import Prelude Text SkillTypes Receipt Ledger Json Commands CommandJournal CommandLog Checkpoint Executor.

(** ** The order of actions *)

Definition rank (p : CommandPhase) : nat :=
  match p with
  | PhaseAccepted => 1 | PhasePrepared => 2 | PhaseExecuting => 3 | PhaseResultPrepared => 4
  | PhaseVerifying => 5 | PhaseRecovering => 6 | PhaseCompleted => 7 | PhaseFailed => 7
  end.

(** How far an execution is: the last phase written, whether all writes were acknowledged,
    and how often the command was dispatched. *)
Record Progress := MkProgress {
  pg_rank : nat;
  pg_sound : bool;
  pg_dispatches : nat;
}.

Section Order.
Context `{UrlLib, Decimal} (e : CommandEnvelope).

Definition dispatch_limit : nat :=
  if bool_decide (RuntimeCommand_class e.(ev_command) = Replayable) then 2 else 1.

(** A record that the execution writes at its place. *)
Definition proper_record (r : CommandRecord) : bool :=
  N.eqb r.(cr_command_id) e.(ev_command_id)
  && match r.(cr_phase), r.(cr_envelope), r.(cr_outcome), r.(cr_prepared_result) with
     | PhaseAccepted, Some stored, None, None => true
     | PhasePrepared, None, None, None | PhaseExecuting, None, None, None | PhaseVerifying, None, None, None => true
     | PhaseResultPrepared, None, None, Some _ => true
     | PhaseCompleted, None, Some _, None | PhaseFailed, None, Some _, None => true
     | _, _, _, _ => false
     end.

Definition same_class (r : CommandRecord) : bool :=
  match r.(cr_envelope) with
  | Some stored => bool_decide (RuntimeCommand_class stored.(ev_command) = RuntimeCommand_class e.(ev_command))
  | None => true
  end.

(** The errors that do not say that an effect may have happened. *)
Definition spared (error : CommandError) : bool :=
  is_pre_effect error || is_postcondition_failure error || is_transient_target_loss error.

(** A retry is written down only where the command cannot have taken effect. *)
Definition honest (dispatches : nat) (o : option CommandOutcome) : bool :=
  match o with
  | Some (OutcomeRetryableFailure _ error) =>
      (dispatches =? 0)%nat || negb (requires_reconciliation e) || spared error
  | _ => true
  end.

(** The phase may follow: admission step by step, the rest in order. *)
Definition may_follow (last next : nat) : bool :=
  if (next <=? 3)%nat then (next =? last + 1)%nat else (3 <=? last)%nat && (last <? next)%nat.

Definition advance (s : Progress) (a : Action) : option Progress :=
  match a with
  | Wrote r acknowledged =>
      if s.(pg_sound) && proper_record r && same_class r && may_follow s.(pg_rank) (rank r.(cr_phase))
         && honest s.(pg_dispatches) r.(cr_outcome)
      then Some (MkProgress (rank r.(cr_phase)) acknowledged s.(pg_dispatches)) else None
  | Dispatched id =>
      if N.eqb id e.(ev_command_id) && s.(pg_sound) && (s.(pg_rank) =? 3)%nat && (s.(pg_dispatches) <? dispatch_limit)%nat
      then Some (MkProgress s.(pg_rank) true (S s.(pg_dispatches))) else None
  | Asked => if (4 <=? s.(pg_rank))%nat || ((s.(pg_rank) =? 3)%nat && s.(pg_sound)) then Some s else None
  end.

Lemma may_follow_later last next : (3 <= last)%nat -> (last < next)%nat -> may_follow last next = true.
Proof.
  intros Hl Hn. unfold may_follow. destruct (Nat.leb_spec next 3); [lia|].
  apply andb_true_intro. split; [by apply Nat.leb_le|by apply Nat.ltb_lt].
Qed.

Fixpoint progress (s : Progress) (tr : list Action) : option Progress :=
  match tr with
  | [] => Some s
  | a :: tr => s ← advance s a; progress s tr
  end.

Definition start : Progress := MkProgress 0 true 0.

Lemma progress_app s tr tr' : progress s (tr ++ tr') = progress s tr ≫= fun s => progress s tr'.
Proof. revert s. induction tr as [|a tr IH]; intros s; [done|]. simpl. destruct (advance s a); simpl; auto. Qed.

Lemma progress_snoc s tr a s' : progress s tr = Some s' -> progress s (tr ++ [a]) = advance s' a.
Proof. intros E. rewrite progress_app, E. simpl. by destruct (advance s' a). Qed.
End Order.

(** ** The histories a trace may leave *)

Inductive written : list Action -> list CommandRecord -> Prop :=
| written_nil : written [] []
| written_kept tr rs r acknowledged seq :
    written tr rs -> written (tr ++ [Wrote r acknowledged]) (rs ++ [with_sequence r seq])
| written_lost tr rs r : written tr rs -> written (tr ++ [Wrote r false]) rs
| written_other tr rs a : written tr rs -> (forall r b, a <> Wrote r b) -> written (tr ++ [a]) rs.

Section Steps.
Context {J W : Type} `{CommandLogLaws J, Workers W, UrlLib, Decimal}.
Abbreviation Runtime := (PageRuntime (J := J) (W := W)).
Variables (e : CommandEnvelope) (gate : SessionGate) (now : Time).
(** The trace and the history of the command before it is executed. *)
Variables (t0 : list Action) (h0 : History).
Implicit Types (r : Runtime) (s : Progress).
Abbreviation id := (e.(ev_command_id)).

(** The execution has come this far, and the journal holds what was written. *)
Definition at_state s r : Prop :=
  exists tr j, r.(rt_trace) = t0 ++ tr /\ progress e start tr = Some s
    /\ r.(rt_journal) = Some j /\ log_ok j
    /\ forall rs, log_held j id = Some rs -> exists rs0 rs', h0 = Some rs0 /\ rs = rs0 ++ rs' /\ written tr rs'.

(** An early return does not report success, and it offers a retry only where the command
    cannot have taken effect. *)
Definition ends s (o : CommandOutcome) : Prop :=
  match o with OutcomeCompleted _ _ => False | _ => honest e s.(pg_dispatches) (Some o) = true end.

Definition returns (o : CommandOutcome) r : Prop := exists s, at_state s r /\ ends s o.

(** ** Calls *)

Lemma at_state_pages s r f : at_state s r -> at_state s (r <| rt_pages := f |>).
Proof. intros (tr & j & A). by exists tr, j. Qed.

Lemma triple_append s record :
  s.(pg_sound) = true -> proper_record e record = true -> same_class e record = true ->
  may_follow s.(pg_rank) (rank record.(cr_phase)) = true -> honest e s.(pg_dispatches) record.(cr_outcome) = true ->
  triple (at_state s) (append record now)
    (fun x => at_state (MkProgress (rank record.(cr_phase)) (match x with Ok _ => true | Err _ => false end)
                          s.(pg_dispatches))) returns.
Proof.
  intros Hs Hp Hc Hf Hho r x r' (tr & j & Et & Hpr & Ej & Hok & Hw). unfold append. rewrite Ej.
  destruct (log_append record now j) as [y j'] eqn:E. intros [= <- <-]. cbn beta iota.
  destruct (log_append_law j record now y j' Hok E) as (Hok' & _ & Hh).
  assert (cr_command_id record = id) as Eid.
  { unfold proper_record in Hp. apply andb_prop in Hp as [Hp _]. by apply N.eqb_eq. }
  rewrite Eid in Hh. set (b := match y with Ok _ => true | Err _ => false end).
  exists (tr ++ [Wrote record b]), j'. cbn. split_and!; [by rewrite app_assoc, Et| |done|done|].
  - rewrite (progress_snoc e start tr _ s Hpr). cbn [advance]. by rewrite Hs, Hp, Hc, Hf, Hho.
  - intros rs Hrs. destruct Hh as [(rs1 & seq & Hb & Ha)|[Hne Hl]].
    + destruct (Hw _ Hb) as (rs0 & rs' & -> & -> & Hwr). rewrite Ha in Hrs. injection Hrs as <-.
      exists rs0, (rs' ++ [with_sequence record seq]). split_and!; [done|by rewrite app_assoc|by constructor].
    + rewrite Hrs in Hl. apply lapses_some in Hl. destruct (Hw _ Hl) as (rs0 & rs' & -> & -> & Hwr).
      exists rs0, rs'. split_and!; [done|done|].
      assert (b = false) as -> by (unfold b; destruct y as [[]|]; done). by constructor.
Qed.

Lemma at_state_action s s' r a (w : W) :
  advance e s a = Some s' -> (forall record b, a <> Wrote record b) -> at_state s r ->
  at_state s' (r <| rt_workers := Some w |> <| rt_trace := r.(rt_trace) ++ [a] |>).
Proof.
  intros Ha Hn (tr & j & Et & Hpr & Ej & Hok & Hw). exists (tr ++ [a]), j. cbn.
  split_and!; [by rewrite app_assoc, Et| |done|done|].
  - by rewrite (progress_snoc e start tr _ s Hpr).
  - intros rs Hrs. destruct (Hw _ Hrs) as (rs0 & rs' & ? & ? & ?). exists rs0, rs'. split_and!; [done|done|].
    by apply written_other.
Qed.

(** The workers may be asked from [Executing] on. *)
Definition engaged s : Prop := (4 <= s.(pg_rank))%nat \/ (s.(pg_rank) = 3%nat /\ s.(pg_sound) = true).

Lemma triple_ask_as {A X} s (m : ST W X A) absent :
  engaged s -> triple (at_state s) (ask_as Asked m absent) (fun _ => at_state s) returns.
Proof.
  intros Hs r x r' Hr. unfold ask_as. destruct (rt_workers r) as [w|]; [|by intros [= <- <-]].
  destruct (m w) as [y w']. intros [= <- <-]. eapply at_state_action; [|done|done]. cbn [advance].
  destruct Hs as [Hs|[-> ->]]; [|done]. apply Nat.leb_le in Hs. by rewrite Hs.
Qed.

Lemma triple_ask {A} s (m : ST W CommandError A) :
  engaged s -> triple (at_state s) (ask m) (fun _ => at_state s) returns.
Proof. apply triple_ask_as. Qed.

Lemma triple_dispatch n lease page :
  (n < dispatch_limit e)%nat ->
  triple (at_state (MkProgress 3 true n)) (attempt e gate lease page)
    (fun _ r => exists m, (m <= S n)%nat /\ at_state (MkProgress 3 true m) r) returns.
Proof.
  intros Hn. unfold attempt. eapply triple_bind; [|intros x; by apply triple_ret; exact (fun r Hr => Hr)].
  intros r x r' Hr. unfold ask_as. destruct (rt_workers r) as [w|]; [|intros [= <- <-]; exists n; split; [lia|done]].
  destruct (wk_execute e lease page gate w) as [y w']. intros [= <- <-]. exists (S n). split; [done|].
  eapply at_state_action; [|done|exact Hr]. cbn [advance pg_sound pg_rank pg_dispatches].
  rewrite N.eqb_refl. apply Nat.ltb_lt in Hn. by rewrite Hn.
Qed.

(** A record of the executor is at its place. *)
Ltac proper :=
  unfold proper_record, command_record, prepared_record;
  cbn [cr_command_id cr_phase cr_envelope cr_outcome cr_prepared_result]; rewrite N.eqb_refl.

(** ** Failing *)

Lemma classify_ends s error evidence : ends s (classify_failure e error evidence).
Proof.
  unfold classify_failure. set (er := if String.eqb _ _ then _ else error). clearbody er.
  destruct (match ce_code er with CodeNetworkPolicyDenied | CodePolicyDenied => true | _ => false end); [done|].
  unfold ends, honest, spared. destruct (requires_reconciliation e); cbn [andb negb].
  - destruct (is_pre_effect er) eqn:E1, (is_postcondition_failure er) eqn:E2, (is_transient_target_loss er) eqn:E3;
      cbn [andb negb]; try done; (destruct (ce_retryable er); [|done]); by rewrite E1, E2, E3, ?orb_true_r.
  - destruct (ce_retryable er); [|done]. by rewrite orb_true_r.
Qed.

Lemma journal_failure_ends s error b :
  b = true \/ s.(pg_dispatches) = 0%nat -> ends s (journal_failure e error b).
Proof.
  intros Hb. unfold ends, honest, journal_failure. destruct b; cbn [andb].
  - destruct (requires_reconciliation e); [done|]. by rewrite orb_true_r.
  - destruct Hb as [| ->]; done.
Qed.

Lemma journal_safe_honest s o : ends s o -> honest e s.(pg_dispatches) (Some (CommandOutcome_journal_safe o)) = true.
Proof. by destruct o. Qed.

Lemma triple_finish_durable s outcome :
  s.(pg_sound) = true -> (3 <= s.(pg_rank) < 7)%nat -> (forall s', ends s' outcome) ->
  triple (at_state s) (finish_failure_durable e now outcome)
    (fun x r => exists s', at_state s' r /\ engaged s' /\ ends s' x.1) returns.
Proof.
  intros Hs Hr Ho. unfold finish_failure_durable. eapply triple_bind; [apply triple_get|]. intros r0.
  apply (triple_weaken _ _ (fun r => at_state s r /\ is_Some (rt_journal r0)) _ _
    (fun x r => exists s', at_state s' r /\ engaged s' /\ ends s' x.1)); [| |done].
  2: { intros r [Hst ->]. split; [done|]. destruct Hst as (tr & j & _ & _ & -> & _). done. }
  apply triple_pure. intros [j ->].
  eapply triple_bind.
  { apply triple_append; [done| | | |].
    - by proper.
    - done.
    - apply may_follow_later; cbn; lia.
    - apply journal_safe_honest, Ho. }
  intros x. apply triple_ret. intros r Hst. eexists. split; [exact Hst|]. split; [left; cbn; lia|].
  destruct x; cbn [fst]; [apply Ho|]. apply journal_failure_ends. by left.
Qed.

Lemma triple_finish_failure {A} s outcome (Q : A -> Runtime -> Prop) :
  s.(pg_sound) = true -> (3 <= s.(pg_rank) < 7)%nat -> (forall s', ends s' outcome) ->
  triple (at_state s) (finish_failure e now outcome) Q returns.
Proof.
  intros Hs Hr Ho. unfold finish_failure. eapply triple_bind; [by apply triple_finish_durable|].
  intros x. apply triple_fail. intros r (s' & ? & _ & ?). by exists s'.
Qed.

Lemma triple_finish {A} s failure (Q : A -> Runtime -> Prop) :
  s.(pg_sound) = true -> (3 <= s.(pg_rank) < 7)%nat -> triple (at_state s) (finish e now failure) Q returns.
Proof. intros Hs Hr. apply triple_finish_failure; [done|done|]. intros s'. apply classify_ends. Qed.

Lemma triple_ask_or_finish {A} s (m : ST W CommandError A) :
  s.(pg_sound) = true -> (3 <= s.(pg_rank) < 7)%nat ->
  triple (at_state s) (ask_or_finish e now m) (fun _ => at_state s) returns.
Proof.
  intros Hs Hr. unfold ask_or_finish. eapply triple_bind.
  { apply triple_ask. destruct (decide (pg_rank s = 3%nat)); [by right|left; lia]. }
  intros [a|error]; [by apply triple_ret|]. apply triple_finish_failure; [done|done|]. intros s'. apply classify_ends.
Qed.

(** ** Admission *)

Lemma triple_admit : triple (at_state start) (admit_command e now) (fun _ => at_state (MkProgress 3 true 0)) returns.
Proof.
  unfold admit_command. eapply triple_bind; [apply triple_get|]. intros r0. cbv beta.
  assert (forall A (x : option A) error (m : Run unit),
    triple (at_state start) m (fun _ => at_state (MkProgress 3 true 0)) returns ->
    triple (at_state start) (slift (ok_or (unit_of x) (failed e error)) ;; m)
      (fun _ => at_state (MkProgress 3 true 0)) returns) as Hok.
  { intros A x error m Hm. eapply (triple_bind _ _ (fun _ => at_state start)); [|intros []; exact Hm].
    apply triple_lift. intros r Hr. destruct x; [done|]. by exists start. }
  eapply (triple_bind _ _ (fun _ => at_state start)).
  { apply triple_lift. intros r [Hr _]. destruct (validate r0 e now) as [[]|error]; [done|]. by exists start. }
  intros []. apply Hok, Hok. unfold admission_phases. cbn [admit_phases].
  eapply triple_bind.
  { apply triple_append; [done|by proper| |done|done]. cbn. rewrite bool_decide_eq_true_2; [done|]. apply journal_safe_class. }
  intros x. eapply (triple_bind _ _ (fun _ => at_state (MkProgress 1 true 0))).
  { apply triple_lift. intros r Hr. destruct x as [[]|error]; [done|]. eexists. split; [exact Hr|].
    apply journal_failure_ends. by right. }
  intros []. eapply triple_bind; [by apply triple_append; [|proper|..]|].
  intros x2. eapply (triple_bind _ _ (fun _ => at_state (MkProgress 2 true 0))).
  { apply triple_lift. intros r Hr. destruct x2 as [[]|error]; [done|]. eexists. split; [exact Hr|].
    apply journal_failure_ends. by right. }
  intros []. eapply triple_bind; [by apply triple_append; [|proper|..]|].
  intros x3. eapply (triple_bind _ _ (fun _ => at_state (MkProgress 3 true 0))); [|intros []; by apply triple_ret].
  apply triple_lift. intros r Hr. destruct x3 as [[]|error]; [done|]. eexists. split; [exact Hr|].
  apply journal_failure_ends. by right.
Qed.

(** ** Attempts *)

(** Executing, with at most so many dispatches. *)
Definition executing (n : nat) r : Prop := exists m, (m <= n)%nat /\ at_state (MkProgress 3 true m) r.

Lemma triple_executing {A} n (m : Run A) (Q : A -> Runtime -> Prop) :
  (forall k, (k <= n)%nat -> triple (at_state (MkProgress 3 true k)) m Q returns) -> triple (executing n) m Q returns.
Proof. intros Hm r x r' (k & Hk & Hr). by apply (Hm k). Qed.

Lemma executing_ask {A} n (m : ST W CommandError A) : triple (executing n) (ask m) (fun _ => executing n) returns.
Proof.
  apply triple_executing. intros k Hk. eapply triple_weaken; [apply (triple_ask (MkProgress 3 true k)); by right|done|].
  intros x r Hr. by exists k.
Qed.

Lemma executing_finish {A} n failure (Q : A -> Runtime -> Prop) :
  triple (executing n) (finish e now failure) Q returns.
Proof. apply triple_executing. intros k Hk. apply triple_finish; [done|cbn; lia]. Qed.

Lemma executing_retry lease page evidence :
  replayable e = true ->
  triple (executing 1) (retry e gate now lease page evidence) (fun _ => executing 2) returns.
Proof.
  intros Hr. unfold retry. eapply (triple_bind _ _ (fun _ => executing 2)).
  - apply triple_executing. intros k Hk. eapply triple_weaken; [apply (triple_dispatch k)|done|].
    + unfold dispatch_limit. unfold replayable in Hr. rewrite Hr. lia.
    + intros x r (m & Hm & Hst). exists m. split; [lia|done].
  - intros [execution|failure]; [by apply triple_ret|apply executing_finish].
Qed.

Ltac asking := eapply triple_bind; [apply executing_ask|].

Lemma triple_revive failure lease page probe_error reattach_error :
  triple (executing 1) (revive e gate now failure lease page probe_error reattach_error)
    (fun _ => executing 2) returns.
Proof.
  unfold revive. asking. intros ?. asking. intros [revived|error]; [|apply executing_finish].
  asking. intros ?. asking. intros ?. asking. intros [opened|error]; [|apply executing_finish].
  eapply (triple_bind _ _ (fun _ => executing 1)).
  { destruct (ps_url page); [|by apply triple_ret]. asking. intros x. by apply triple_ret. }
  intros []. destruct (replayable e) eqn:Hr; [by apply executing_retry|apply executing_finish].
Qed.

Lemma triple_after_reattach failure lease page :
  triple (executing 1) (after_reattach e gate now failure lease page) (fun _ => executing 2) returns.
Proof.
  unfold after_reattach. asking. intros listed. cbv beta zeta. destruct (negb _); [apply executing_finish|].
  destruct (replayable e) eqn:Hr; [by apply executing_retry|apply executing_finish].
Qed.

Lemma triple_recover failure lease page :
  triple (executing 1) (recover e gate now failure lease page) (fun _ => executing 2) returns.
Proof.
  unfold recover. asking. intros [evidence|probe_error].
  - destruct (negb _); [apply executing_finish|].
    destruct (replayable e) eqn:Hr; [by apply executing_retry|].
    apply triple_executing. intros k Hk. by apply triple_finish_failure; [|cbn; lia|].
  - asking. intros [[]|error]; [apply triple_after_reattach|apply triple_revive].
Qed.

Lemma triple_run lease page_state :
  triple (at_state (MkProgress 3 true 0)) (run_with_deadline e gate now lease page_state)
    (fun _ => executing 2) returns.
Proof.
  unfold run_with_deadline. eapply triple_bind.
  { apply triple_dispatch. unfold dispatch_limit. destruct (bool_decide _); lia. }
  intros [execution|failure]; cbv beta zeta.
  - apply triple_ret. intros r (m & Hm & Hr). exists m. split; [lia|done].
  - destruct (if _ || _ then page_state else None) as [page|]; [apply triple_recover|apply executing_finish].
Qed.

(** ** Results *)

(** Carried out: executing, or with a prepared result. *)
Definition carried r : Prop := exists k n, (k = 3 \/ k = 4)%nat /\ at_state (MkProgress k true n) r.

Lemma triple_durable_prepare n evidence p :
  triple (at_state (MkProgress 3 true n)) (durable_prepare e now evidence p)
    (fun x r => exists b, at_state (MkProgress 4 b n) r /\ (forall c, x = Ok c -> b = true)) returns.
Proof.
  unfold durable_prepare. eapply triple_bind; [by apply triple_append; [|proper|..]|].
  intros [[]|error]; cbn [rank cr_phase prepared_record].
  - eapply (triple_bind _ _ (fun _ => at_state (MkProgress 4 true n))).
    { destruct (ph_artifact p); [|by apply triple_ret].
      eapply triple_bind; [apply triple_ask_as; left; cbn; lia|]. intros y. by apply triple_ret. }
    intros [[]|error]; [|apply triple_ret; intros r Hr; by exists true].
    destruct (ph_download p); [|apply triple_ret; intros r Hr; by exists true].
    eapply triple_bind; [apply triple_ask; left; cbn; lia|]. intros y. apply triple_ret. intros r Hr. by exists true.
  - eapply (triple_bind _ _ (fun _ => at_state (MkProgress 4 false n))).
    { destruct (ph_download p); [|by apply triple_ret].
      eapply triple_bind; [apply triple_ask; left; cbn; lia|]. intros y. by apply triple_ret. }
    intros []. apply triple_ret. intros r Hr. by exists false.
Qed.

Lemma triple_cleanup s committed :
  engaged s -> triple (at_state s) (cleanup_committed_download committed) (fun _ => at_state s) returns.
Proof.
  intros Hs. unfold cleanup_committed_download. destruct committed; [|by apply triple_ret].
  eapply triple_bind; [by apply triple_ask|]. intros x. by apply triple_ret.
Qed.

Lemma triple_finish_and_cleanup {A} s outcome committed (Q : A -> Runtime -> Prop) :
  s.(pg_sound) = true -> (3 <= s.(pg_rank) < 7)%nat -> (forall s', ends s' outcome) ->
  triple (at_state s) (finish_and_cleanup e now outcome committed) Q returns.
Proof.
  intros Hs Hr Ho. unfold finish_and_cleanup. eapply triple_bind; [by apply triple_finish_durable|].
  intros [o durable]. cbn [fst snd]. intros r x r' (s' & Hst & Hen & Hend).
  revert r x r' Hst. apply (triple_bind _ _ (fun _ => at_state s')).
  - destruct durable; [by apply triple_cleanup|by apply triple_ret].
  - intros []. apply triple_fail. intros r Hst. by exists s'.
Qed.

Lemma triple_publish n lease execution :
  triple (at_state (MkProgress 3 true n)) (publish_prepared e now lease execution) (fun _ => carried) returns.
Proof.
  unfold publish_prepared. destruct (ax_prepared_http execution) as [p|].
  2: { apply triple_ret. intros r Hr. exists 3%nat, n. split; [by left|done]. }
  eapply triple_bind; [apply triple_durable_prepare|]. intros [committed|error].
  - apply (triple_weaken _ _ (at_state (MkProgress 4 true n)) _ _ (fun _ => carried)); [| |done].
    2: { intros r (b & Hr & Hb). by rewrite (Hb _ eq_refl) in Hr. }
    eapply triple_bind; [apply triple_ask; left; cbn; lia|]. intros [[]|error].
    + apply triple_ret. intros r Hr. exists 4%nat, n. split; [by right|done].
    + by apply triple_finish_and_cleanup; [|cbn; lia|].
  - apply triple_fail. intros r (b & Hr & _). eexists. by split; [exact Hr|].
Qed.

Lemma triple_carried {A} (m : Run A) (Q : A -> Runtime -> Prop) :
  (forall k n, (k = 3 \/ k = 4)%nat -> triple (at_state (MkProgress k true n)) m Q returns) ->
  triple carried m Q returns.
Proof. intros Hm r x r' (k & n & Hk & Hr). by apply (Hm k n). Qed.

Lemma triple_context evidence : triple carried (record_execution_context e evidence) (fun _ => carried) returns.
Proof.
  unfold record_execution_context. eapply (triple_bind _ _ (fun _ => carried)).
  - assert (forall f, triple carried (smodify (fun r => r <| rt_pages := f r |>)) (fun _ : unit => carried) returns) as Hp.
    { intros f. apply triple_modify. intros r (k & n & Hk & Hr). exists k, n. split; [done|by apply at_state_pages]. }
    assert (triple carried (sret tt) (fun _ : unit => carried) returns) as Hret by by apply triple_ret.
    destruct (ev_command e) as [[]|]; try exact Hret; try apply Hp;
      destruct evidence as [|[] evidence]; try exact Hret; apply Hp.
  - intros []. destruct (ev_page_id e); [|by apply triple_ret].
    eapply (triple_bind _ _ (fun _ => carried)); [|intros x; by apply triple_ret].
    apply triple_carried. intros k n Hk. eapply triple_weaken; [apply (triple_ask (MkProgress k true n))|done|].
    + destruct Hk as [-> | ->]; [by right|left; cbn; lia].
    + intros x r Hr. by exists k, n.
Qed.

(** ** The end *)

Lemma triple_page_state :
  triple (at_state (MkProgress 3 true 0)) (page_state_of e now) (fun _ => at_state (MkProgress 3 true 0)) returns.
Proof.
  unfold page_state_of. destruct (ev_page_id e) as [page_id|]; [|by apply triple_ret].
  eapply (triple_bind _ _ (fun _ => at_state (MkProgress 3 true 0))); [by intros r x r' Hr [= <- <-]|].
  intros [page|]; [by apply triple_ret|]. apply triple_finish_failure; [done|cbn; lia|]. intros s'. apply classify_ends.
Qed.

Lemma triple_typed_on lease :
  triple (at_state (MkProgress 3 true 0)) (typed_on_url e lease) (fun _ => at_state (MkProgress 3 true 0)) returns.
Proof.
  unfold typed_on_url.
  destruct (ev_command e) as [[]|], (ev_page_id e); try by apply triple_ret.
  destruct (has_enter _); [|by apply triple_ret].
  eapply triple_bind; [apply (triple_ask (MkProgress 3 true 0)); by right|]. intros x. by apply triple_ret.
Qed.

Definition completed_record (o : CommandOutcome) : CommandRecord :=
  command_record e now PhaseCompleted None (Some (CommandOutcome_journal_safe o)).

(** A completed command has its outcome in the journal. *)
Definition completed (o : CommandOutcome) r : Prop :=
  exists s tr evidence, at_state s r /\ r.(rt_trace) = t0 ++ tr
    /\ o = OutcomeCompleted id evidence /\ Wrote (completed_record o) true ∈ tr.

Lemma cleanup_extends committed r x r' :
  cleanup_committed_download committed r = (x, r') -> exists tr, r'.(rt_trace) = r.(rt_trace) ++ tr.
Proof.
  unfold cleanup_committed_download. destruct committed as [c|]; [|intros [= _ <-]; exists []; by rewrite app_nil_r].
  unfold sbind, ask, ask_as. destruct (rt_workers r) as [w|].
  - destruct (wk_cleanup_download c w) as [y w']. intros [= _ <-]. by exists [Asked].
  - intros [= _ <-]. exists []. by rewrite app_nil_r.
Qed.

Lemma triple_conclude n evidence committed :
  triple (at_state (MkProgress 5 true n))
    (do y <- append (completed_record (OutcomeCompleted id evidence)) now;
     match y with
     | Ok _ => cleanup_committed_download committed ;; sret (OutcomeCompleted id evidence)
     | Err error => sfail (journal_failure e error true)
     end) completed returns.
Proof.
  set (o := OutcomeCompleted id evidence). set (s := MkProgress 7 true n).
  apply (triple_bind _ _ (fun y r => match y with
    | Ok _ => at_state s r /\ exists tr, rt_trace r = t0 ++ tr /\ Wrote (completed_record o) true ∈ tr
    | Err _ => at_state (MkProgress 7 false n) r end)).
  - intros r x r' Hr E.
    pose proof (triple_append (MkProgress 5 true n) (completed_record o) eq_refl ltac:(by proper) eq_refl eq_refl eq_refl r x r' Hr E) as Ha.
    destruct Hr as (tr & j & Et & _ & Ej & _). revert E. unfold append. rewrite Ej.
    destruct (log_append _ now j) as [y j']. intros [= <- <-]. destruct y as [[]|error]; [|exact Ha].
    split; [exact Ha|]. exists (tr ++ [Wrote (completed_record o) true]). cbn. rewrite Et, app_assoc.
    split; [done|]. apply elem_of_app. right. by left.
  - intros [[]|error].
    + intros r x r' [Hr (tr & Et & Hin)]. unfold sbind.
      destruct (cleanup_committed_download committed r) as [y r1] eqn:Ec.
      pose proof (triple_cleanup s committed ltac:(left; cbn; lia) r y r1 Hr Ec) as Hc.
      destruct (cleanup_extends _ _ _ _ Ec) as [tr' Et']. destruct y as [[]|].
      * intros [= <- <-]. exists s, (tr ++ tr'), evidence. rewrite Et', Et, app_assoc. split_and!; try done.
        apply elem_of_app. by left.
      * by intros [= <- <-].
    + apply triple_fail. intros r Hr. eexists. split; [exact Hr|]. apply journal_failure_ends. by left.
Qed.

Lemma triple_complete lease evidence typed_on committed :
  triple carried (complete e now lease evidence typed_on committed) completed returns.
Proof.
  apply triple_carried. intros k n Hk. unfold complete. eapply triple_bind.
  { apply (triple_append (MkProgress k true n)); [done|by proper|done| |done]. apply may_follow_later; cbn; lia. }
  intros x. cbn [rank cr_phase command_record]. apply (triple_bind _ _ (fun _ => at_state (MkProgress 5 true n))).
  { apply triple_lift. intros r Hr. destruct x as [[]|error]; [done|]. eexists. split; [exact Hr|].
    apply journal_failure_ends. by left. }
  intros []. apply (triple_bind _ _ (fun _ => at_state (MkProgress 5 true n))).
  { unfold verify. destruct (ev_command e); [|by apply triple_ret].
    apply (triple_ask (MkProgress 5 true n)). left. cbn. lia. }
  intros [verified|error].
  - apply (triple_bind _ _ (fun _ => at_state (MkProgress 5 true n))); [|intros []; apply triple_conclude].
    assert (triple (at_state (MkProgress 5 true n)) (sret tt) (fun _ : unit => at_state (MkProgress 5 true n)) returns)
      as Hret by by apply triple_ret.
    destruct (ev_command e) as [[]|]; try exact Hret. destruct verified as [|[] verified]; try exact Hret.
    apply triple_modify. intros r. apply at_state_pages.
  - apply triple_finish_and_cleanup; [done|cbn; lia|]. intros s'. apply classify_ends.
Qed.

Lemma triple_execute :
  triple (at_state start) (admit_command e now ;; execute_admitted e gate now) completed returns.
Proof.
  eapply triple_bind; [apply triple_admit|]. intros []. unfold execute_admitted.
  eapply triple_bind; [apply (triple_ask_or_finish (MkProgress 3 true 0)); [done|cbn; lia]|]. intros lease.
  eapply triple_bind; [apply (triple_ask_or_finish (MkProgress 3 true 0)); [done|cbn; lia]|]. intros ?.
  eapply triple_bind; [apply (triple_ask_or_finish (MkProgress 3 true 0)); [done|cbn; lia]|]. intros ?.
  eapply triple_bind; [apply triple_page_state|]. intros page_state.
  eapply triple_bind; [apply triple_typed_on|]. intros typed_on.
  eapply triple_bind; [apply triple_run|]. intros ran.
  eapply triple_bind; [apply triple_executing; intros k Hk; apply triple_publish|]. intros committed.
  eapply triple_bind; [apply triple_context|]. intros evidence. apply triple_complete.
Qed.
End Steps.

(** ** What an execution does *)

Section Execution.
Context {J W : Type} `{CommandLogLaws J, Workers W, UrlLib, Decimal}.

Lemma execute_ok (e : CommandEnvelope) gate now (r : PageRuntime (J := J) (W := W)) j o r' :
  r.(rt_journal) = Some j -> log_ok j -> execute_with_session_gate e gate now r = (o, r') ->
  let h0 := log_held j e.(ev_command_id) in
  completed e now r.(rt_trace) h0 o r' \/ returns e r.(rt_trace) h0 o r'.
Proof.
  intros Ej Hok E h0. unfold execute_with_session_gate in E.
  assert (at_state e (rt_trace r) h0 start r) as Hr.
  { exists [], j. split_and!; [by rewrite app_nil_r|done|done|done|]. intros rs Hrs. exists rs, [].
    rewrite app_nil_r. split_and!; [done|done|constructor]. }
  destruct ((admit_command e now ;; execute_admitted e gate now) r) as [x r1] eqn:Ex.
  pose proof (triple_execute e gate now (rt_trace r) h0 r x r1 Hr Ex) as Ht.
  destruct x; injection E as <- <-; [by left|by right].
Qed.
End Execution.
