(* ===== verification/ExecutorThms.v ===== *)
(** * What the executor guarantees

    Nothing is asked of the browser before the journal has accepted the command, a command
    that is not replayable is dispatched once, and recovery after a crash does not offer a
    retry of a command that may have taken effect. *)

From S2P Require Import Prelude Text SkillTypes Receipt Ledger Json Nodes Commands CommandJournal CommandLog Checkpoint Executor ExecutorInv.

(** ** Traces *)

Definition dispatched (a : Action) : bool := match a with Dispatched _ => true | _ => false end.
Definition dispatches (tr : list Action) : nat := length (List.filter dispatched tr).

Section Traces.
Context `{UrlLib, Decimal} (e : CommandEnvelope).
Implicit Types (s : Progress) (tr : list Action).

Lemma progress_snoc_inv tr a s :
  progress e start (tr ++ [a]) = Some s -> exists s1, progress e start tr = Some s1 /\ advance e s1 a = Some s.
Proof.
  rewrite progress_app. destruct (progress e start tr) as [s1|]; [|done]. simpl.
  destruct (advance e s1 a) as [s2|] eqn:E; [|done]. intros [= <-]. by exists s1.
Qed.

Lemma advance_wrote s r b s' :
  advance e s (Wrote r b) = Some s' ->
  s' = MkProgress (rank r.(cr_phase)) b s.(pg_dispatches) /\ s.(pg_sound) = true /\ proper_record e r = true
  /\ same_class e r = true /\ may_follow s.(pg_rank) (rank r.(cr_phase)) = true
  /\ honest e s.(pg_dispatches) r.(cr_outcome) = true.
Proof.
  cbn [advance]. destruct (_ && _) eqn:E; [|done]. intros [= <-].
  apply andb_prop in E as [E ?], E as [E ?], E as [E ?], E as [E ?]. done.
Qed.

Lemma advance_dispatched s id s' :
  advance e s (Dispatched id) = Some s' ->
  s' = MkProgress 3 true (S s.(pg_dispatches)) /\ s.(pg_rank) = 3%nat /\ s.(pg_sound) = true
  /\ (s.(pg_dispatches) < dispatch_limit e)%nat.
Proof.
  cbn [advance]. destruct (_ && _) eqn:E; [|done].
  apply andb_prop in E as [E El], E as [E Er], E as [_ Es]. apply Nat.eqb_eq in Er. apply Nat.ltb_lt in El.
  intros [= <-]. by rewrite Er.
Qed.

Lemma advance_asked s s' : advance e s Asked = Some s' -> s' = s /\ engaged s.
Proof.
  cbn [advance]. destruct (_ || _) eqn:E; [|done]. intros [= <-]. split; [done|].
  apply orb_prop in E as [E|E]; [left; by apply Nat.leb_le|right].
  apply andb_prop in E as [E ?]. by apply Nat.eqb_eq in E.
Qed.

Lemma may_follow_inv last next : may_follow last next = true -> (last < next /\ (next <= S last \/ 3 <= last))%nat.
Proof.
  unfold may_follow. destruct (Nat.leb_spec next 3).
  - intros E. apply Nat.eqb_eq in E. lia.
  - intros E. apply andb_prop in E as [E1 E2]. apply Nat.leb_le in E1. apply Nat.ltb_lt in E2. lia.
Qed.

(** Phases that precede the point reached were acknowledged. *)
Lemma progress_acknowledged tr s p :
  progress e start tr = Some s -> (rank p <= 3)%nat ->
  (rank p < s.(pg_rank))%nat \/ (rank p = s.(pg_rank) /\ s.(pg_sound) = true) ->
  exists r, Wrote r true ∈ tr /\ r.(cr_phase) = p /\ r.(cr_command_id) = e.(ev_command_id).
Proof.
  revert s. induction tr as [|a tr IH] using rev_ind; intros s Hpr Hp Hr.
  { injection Hpr as <-. destruct p; cbn in *; lia. }
  apply progress_snoc_inv in Hpr as (s1 & Hpr & Ha).
  assert ((rank p < s1.(pg_rank))%nat \/ (rank p = s1.(pg_rank) /\ s1.(pg_sound) = true) ->
    exists r, Wrote r true ∈ tr ++ [a] /\ r.(cr_phase) = p /\ r.(cr_command_id) = e.(ev_command_id)) as Hbefore.
  { intros Hr1. destruct (IH _ Hpr Hp Hr1) as (r & ? & ?). exists r. split; [|done]. apply elem_of_app. by left. }
  destruct a as [r b|id|].
  - apply advance_wrote in Ha as (-> & Hs & Hpp & _ & Hf & _). cbn [pg_rank pg_sound] in Hr.
    apply may_follow_inv in Hf. destruct Hr as [Hr|[Hr ->]]; [apply Hbefore; destruct (decide (rank p = pg_rank s1)); [by right|left; lia]|].
    exists r. split_and!; [apply elem_of_app; right; by left| |].
    + destruct p, (cr_phase r); cbn in *; lia || done.
    + unfold proper_record in Hpp. apply andb_prop in Hpp as [Hpp _]. by apply N.eqb_eq.
  - apply advance_dispatched in Ha as (-> & Er & Es & _). cbn [pg_rank pg_sound] in Hr. apply Hbefore. by rewrite Er, Es.
  - apply advance_asked in Ha as [-> _]. by apply Hbefore.
Qed.

Lemma progress_dispatches tr s : progress e start tr = Some s -> dispatches tr = s.(pg_dispatches).
Proof.
  revert s. induction tr as [|a tr IH] using rev_ind; intros s Hpr; [by injection Hpr as <-|].
  apply progress_snoc_inv in Hpr as (s1 & Hpr & Ha). unfold dispatches in *.
  rewrite List.filter_app, length_app, (IH _ Hpr). destruct a as [r b|id|].
  - apply advance_wrote in Ha as [-> _]. cbn. lia.
  - apply advance_dispatched in Ha as [-> _]. cbn. lia.
  - apply advance_asked in Ha as [-> _]. cbn. lia.
Qed.

Lemma progress_limit tr s : progress e start tr = Some s -> (s.(pg_dispatches) <= dispatch_limit e)%nat.
Proof.
  revert s. induction tr as [|a tr IH] using rev_ind; intros s Hpr; [injection Hpr as <-; cbn; lia|].
  apply progress_snoc_inv in Hpr as (s1 & Hpr & Ha). specialize (IH _ Hpr). destruct a as [r b|id|].
  - by apply advance_wrote in Ha as [-> _].
  - apply advance_dispatched in Ha as (-> & _ & _ & ?). cbn. lia.
  - by apply advance_asked in Ha as [-> _].
Qed.

(** What was written is well formed, and not beyond the point reached. *)
Lemma progress_wrote tr s r b :
  progress e start tr = Some s -> Wrote r b ∈ tr ->
  proper_record e r = true /\ same_class e r = true /\ (rank r.(cr_phase) <= s.(pg_rank))%nat
  /\ ((rank r.(cr_phase) = 7)%nat -> honest e s.(pg_dispatches) r.(cr_outcome) = true).
Proof.
  revert s. induction tr as [|a tr IH] using rev_ind; intros s Hpr Hin; [by apply elem_of_nil in Hin|].
  apply progress_snoc_inv in Hpr as (s1 & Hpr & Ha). apply elem_of_app in Hin as [Hin|Hin].
  - destruct (IH _ Hpr Hin) as (? & ? & Hle & Hh). destruct a as [r' b'|id|].
    + apply advance_wrote in Ha as (-> & _ & _ & _ & Hf & _). apply may_follow_inv in Hf. split_and!; try done. cbn. lia.
    + apply advance_dispatched in Ha as (-> & Er & _). rewrite Er in Hle. split_and!; try done.
      intros E. rewrite E in Hle. lia.
    + by apply advance_asked in Ha as [-> _].
  - apply list_elem_of_singleton in Hin. subst a. apply advance_wrote in Ha as (-> & _ & ? & ? & _ & ?). by split_and!.
Qed.

(** ** Histories *)

Lemma written_from tr rs q : written tr rs -> q ∈ rs -> exists r b seq, Wrote r b ∈ tr /\ q = with_sequence r seq.
Proof.
  induction 1 as [|tr rs r b seq _ IH|tr rs r _ IH|tr rs a _ IH]; intros Hin; [by apply elem_of_nil in Hin| | |].
  - apply elem_of_app in Hin as [Hin|Hin].
    + destruct (IH Hin) as (r' & b' & seq' & ? & ?). exists r', b', seq'. split; [|done]. apply elem_of_app. by left.
    + apply list_elem_of_singleton in Hin. exists r, b, seq. split; [|done]. apply elem_of_app. right. by left.
  - destruct (IH Hin) as (r' & b' & seq' & ? & ?). exists r', b', seq'. split; [|done]. apply elem_of_app. by left.
  - destruct (IH Hin) as (r' & b' & seq' & ? & ?). exists r', b', seq'. split; [|done]. apply elem_of_app. by left.
Qed.

Lemma written_keeps tr rs r : written tr rs -> Wrote r true ∈ tr -> exists seq, with_sequence r seq ∈ rs.
Proof.
  induction 1 as [|tr rs r' b seq _ IH|tr rs r' _ IH|tr rs a _ IH Ha]; intros Hin; [by apply elem_of_nil in Hin| | |];
    apply elem_of_app in Hin as [Hin|Hin].
  - destruct (IH Hin) as [seq' ?]. exists seq'. apply elem_of_app. by left.
  - apply list_elem_of_singleton in Hin. injection Hin as -> <-. exists seq. apply elem_of_app. right. by left.
  - by apply IH.
  - by apply list_elem_of_singleton in Hin.
  - by apply IH.
  - apply list_elem_of_singleton in Hin. by destruct (Ha r true).
Qed.

(** From [Executing] on, the last record of the history says so. *)
Lemma written_last tr rs s :
  written tr rs -> progress e start tr = Some s -> engaged s ->
  exists q, last rs = Some q /\ proper_record e q = true /\ (3 <= rank q.(cr_phase))%nat.
Proof.
  intros Hw. revert s.
  induction Hw as [|tr rs r b seq _ IH|tr rs r _ IH|tr rs a _ IH Ha]; intros s Hpr Hs.
  { injection Hpr as <-. destruct Hs as [|[? _]]; cbn in *; lia. }
  all: apply progress_snoc_inv in Hpr as (s1 & Hpr & Hadv).
  - apply advance_wrote in Hadv as (-> & _ & Hp & _). exists (with_sequence r seq). rewrite last_snoc.
    split_and!; [done|done|]. cbn. destruct Hs as [Hs|[Hs _]]; cbn in Hs; lia.
  - apply advance_wrote in Hadv as (-> & Hs1 & _ & _ & Hf & _). apply may_follow_inv in Hf.
    destruct Hs as [Hs|[_ Hs]]; [|done]. cbn in Hs. apply (IH _ Hpr).
    destruct (decide (pg_rank s1 = 3%nat)); [by right|left; lia].
  - destruct a as [r b|id|]; [by destruct (Ha r b)| |].
    + apply advance_dispatched in Hadv as (-> & ? & ? & _). apply (IH _ Hpr). by right.
    + apply advance_asked in Hadv as [-> _]. by apply (IH _ Hpr).
Qed.

(** A terminal record that was acknowledged is the last one. *)
Lemma written_terminal tr rs s r :
  written tr rs -> progress e start tr = Some s -> Wrote r true ∈ tr -> rank r.(cr_phase) = 7%nat ->
  exists seq, last rs = Some (with_sequence r seq).
Proof.
  intros Hw. revert s.
  induction Hw as [|tr rs r' b seq _ IH|tr rs r' _ IH|tr rs a _ IH Ha]; intros s Hpr Hin Hr;
    [by apply elem_of_nil in Hin| | |];
    apply progress_snoc_inv in Hpr as (s1 & Hpr & Hadv); apply elem_of_app in Hin as [Hin|Hin].
  1, 3: apply advance_wrote in Hadv as (_ & _ & _ & _ & Hf & _); apply may_follow_inv in Hf;
    destruct (progress_wrote _ _ _ _ Hpr Hin) as (_ & _ & Hle & _);
    assert (rank (cr_phase r') <= 7)%nat by (destruct (cr_phase r'); cbn; lia); lia.
  - apply list_elem_of_singleton in Hin. injection Hin as -> <-. exists seq. by rewrite last_snoc.
  - by apply list_elem_of_singleton in Hin.
  - by apply (IH _ Hpr).
  - apply list_elem_of_singleton in Hin. by destruct (Ha r true).
Qed.

Lemma progress_engaged tr s : progress e start tr = Some s -> (0 < s.(pg_dispatches))%nat -> engaged s.
Proof.
  revert s. induction tr as [|a tr IH] using rev_ind; intros s Hpr Hd; [injection Hpr as <-; cbn in Hd; lia|].
  apply progress_snoc_inv in Hpr as (s1 & Hpr & Ha). destruct a as [r b|id|].
  - apply advance_wrote in Ha as (-> & _ & _ & _ & Hf & _). apply may_follow_inv in Hf.
    left. cbn. destruct (IH _ Hpr Hd) as [|[? _]]; lia.
  - apply advance_dispatched in Ha as [-> _]. by right.
  - apply advance_asked in Ha as [-> ?]. done.
Qed.
End Traces.

(** ** Searching a history *)

Lemma find_first_elem {A} (f : CommandRecord -> option A) rs a :
  find_map_first f rs = Some a -> exists q, q ∈ rs /\ f q = Some a.
Proof. unfold find_map_first. intros E. apply head_Some_elem_of in E. by apply list_elem_of_omap in E. Qed.

Lemma find_first_some {A} (f : CommandRecord -> option A) rs q a :
  q ∈ rs -> f q = Some a -> is_Some (find_map_first f rs).
Proof.
  intros Hin Hf. unfold find_map_first. destruct (omap f rs) eqn:E; [|done].
  assert (a ∈ omap f rs) as Ha by (apply list_elem_of_omap; eauto). by rewrite E, elem_of_nil in Ha.
Qed.

Lemma find_last_elem {A} (f : CommandRecord -> option A) rs a :
  find_map_last f rs = Some a -> exists q, q ∈ rs /\ f q = Some a.
Proof. intros E. destruct (find_first_elem f _ _ E) as (q & Hq & ?). exists q. by rewrite <- elem_of_reverse. Qed.

Lemma find_last_none {A} (f : CommandRecord -> option A) rs q : find_map_last f rs = None -> q ∈ rs -> f q = None.
Proof.
  intros E Hin. destruct (f q) eqn:Ef; [|done]. apply elem_of_reverse in Hin.
  destruct (find_first_some f _ _ _ Hin Ef) as [x Hx]. unfold find_map_last in E. unfold find_map_first in Hx. congruence.
Qed.

Lemma find_last_last {A} (f : CommandRecord -> option A) rs q a :
  last rs = Some q -> f q = Some a -> find_map_last f rs = Some a.
Proof.
  intros Hl Hf. apply last_Some in Hl as [l ->]. unfold find_map_last. rewrite reverse_snoc. cbn. by rewrite Hf.
Qed.

(** ** Recovering a command *)

Definition reconcile (id : CommandId) (o : CommandOutcome) : Prop :=
  exists error evidence, o = OutcomeNeedsReconciliation id error evidence.

Section Recovery.
Context {J W : Type} `{CommandLogLaws J, Workers W, UrlLib, Decimal}.
Implicit Types (r : PageRuntime (J := J) (W := W)).

Lemma ask_any {A E} (m : ST W E A) absent (F : CommandOutcome -> PageRuntime (J := J) (W := W) -> Prop) :
  triple (fun _ => True) (ask_as Asked m absent) (fun _ _ => True) F.
Proof. intros r x r' _. unfold ask_as. destruct (rt_workers r) as [w|]; [destruct (m w)|]; by intros [= <- <-]. Qed.

Lemma finalize_reconciles {A} (m : ST W CommandError A) id evidence :
  triple (fun _ => True)
    (do x <- ask m; slift (map_err (fun error => OutcomeNeedsReconciliation id error evidence) x))
    (fun _ _ => True) (fun o (_ : PageRuntime (J := J) (W := W)) => reconcile id o).
Proof.
  eapply triple_bind; [apply ask_any|]. intros x. apply triple_lift. intros r _. destruct x; [done|]. by eexists _, _.
Qed.

Lemma prepared_reconciles id records prepared :
  triple (fun _ => True) (recover_prepared id records prepared) (fun _ _ => False)
    (fun o (_ : PageRuntime (J := J) (W := W)) => reconcile id o).
Proof.
  unfold recover_prepared. eapply (triple_bind _ _ (fun _ _ => True)).
  { unfold finalize_download. destruct (pt_download prepared); [|by apply triple_ret].
    destruct (pt_artifact_sha256 prepared), (pt_artifact_bytes prepared);
      try (apply triple_fail; by eexists _, _). apply finalize_reconciles. }
  intros []. eapply (triple_bind _ _ (fun _ _ => True)).
  { unfold finalize_artifact.
    destruct (pt_artifact_id prepared), (pt_artifact_staging_id prepared), (pt_artifact_sha256 prepared),
      (pt_artifact_bytes prepared); try by apply triple_ret.
    destruct (ev_session_id <$> _); [|by apply triple_ret]. apply finalize_reconciles. }
  intros []. apply triple_fail. by eexists _, _.
Qed.

(** A terminal record is the answer. *)
Lemma recover_outcome id records outcome r x r' :
  find_map_last cr_outcome records = Some outcome -> recover_records id records r = (x, r') -> x = Ok outcome.
Proof.
  intros E. unfold recover_records. rewrite E. unfold recover_terminal, sbind, ask, ask_as.
  destruct (find_map_last cr_prepared_result records ≫= pt_download); [|by intros [= <- _]].
  destruct (rt_workers r) as [w|]; [destruct (wk_cleanup_download p w)|]; by intros [= <- _].
Qed.

(** Without one, a command that was being carried out is to be reconciled. *)
Lemma recover_executing id records r x r' :
  find_map_last cr_outcome records = None ->
  (find_map_last cr_prepared_result records = None -> may_have_reached_browser records = true) ->
  recover_records id records r = (x, r') -> exists o, x = Err o /\ reconcile id o.
Proof.
  intros E Hm. unfold recover_records. rewrite E. destruct (find_map_last cr_prepared_result records) as [p|].
  - intros Ep. pose proof (prepared_reconciles id records p r x r' I Ep) as Hp. destruct x; [done|]. by eexists.
  - rewrite Hm by done. intros [= <- _]. eexists. split; [done|]. by eexists _, _.
Qed.

(** An answer of [recover_command] that is not a reconciliation comes from the history. *)
Lemma recover_command_from id now r j o r' :
  r.(rt_journal) = Some j -> log_ok j -> recover_command id now r = (o, r') ->
  reconcile id o
  \/ exists records r1 x, log_held j id = Some records /\ recover_records id records r1 = (x, r')
       /\ (x = Ok o \/ x = Err o).
Proof.
  intros Ej Hok. unfold recover_command, call_history. rewrite Ej.
  destruct (log_history id now j) as [y j'] eqn:Eh.
  destruct (log_history_law j id now y j' Hok Eh) as (_ & Hl & Hc).
  destruct y as [scan|error]; cbn [map_err]; [|intros [= <- _]; left; by eexists _, _].
  destruct (reservation scan) eqn:Er; [intros [= <- _]; left; by eexists _, _|].
  intros E. right. apply orb_false_elim in Er as [Et Ei].
  specialize (Hl id). rewrite (Hc scan eq_refl) in Hl by (split; [done|by apply Z.ltb_ge]).
  apply lapses_some in Hl. destruct (recover_records id _ _) as [x r2] eqn:E2.
  exists (js_records scan), (r <| rt_journal := Some j' |>), x. split; [done|].
  destruct x; injection E as -> ->; auto.
Qed.
End Recovery.

Section Reached.
Context `{UrlLib, Decimal} (e : CommandEnvelope).

(** The class of the command can be read off what was written. *)
Lemma written_class tr rs s :
  written tr rs -> progress e start tr = Some s -> engaged s ->
  exists stored, find_map_first cr_envelope rs = Some stored
    /\ RuntimeCommand_class stored.(ev_command) = RuntimeCommand_class e.(ev_command).
Proof.
  intros Hw Hpr Hs. destruct (progress_acknowledged e tr s PhaseAccepted Hpr) as (r & Hin & Hph & _).
  { cbn. lia. }
  { left. destruct Hs as [|[-> _]]; cbn; lia. }
  destruct (written_keeps tr rs r Hw Hin) as [seq Hq].
  destruct (progress_wrote e tr s r true Hpr Hin) as (Hp & _).
  assert (is_Some (cr_envelope r)) as [stored Hst].
  { unfold proper_record in Hp. rewrite Hph in Hp. apply andb_prop in Hp as [_ Hp]. by destruct (cr_envelope r). }
  destruct (find_first_some cr_envelope rs _ stored Hq Hst) as [first Hf]. exists first. split; [done|].
  destruct (find_first_elem _ _ _ Hf) as (q & Hqin & Hqe).
  destruct (written_from tr rs q Hw Hqin) as (r' & b & seq' & Hin' & ->).
  destruct (progress_wrote e tr s r' b Hpr Hin') as (_ & Hc & _). unfold same_class in Hc. cbn in Hqe.
  rewrite Hqe in Hc. by apply bool_decide_eq_true in Hc.
Qed.

Lemma written_reached tr rs s :
  written tr rs -> progress e start tr = Some s -> engaged s -> RuntimeCommand_class e.(ev_command) <> Replayable ->
  find_map_last cr_outcome rs = None -> find_map_last cr_prepared_result rs = None -> may_have_reached_browser rs = true.
Proof.
  intros Hw Hpr Hs Hc Ho Hp. unfold may_have_reached_browser.
  destruct (written_class tr rs s Hw Hpr Hs) as (stored & -> & ->). rewrite bool_decide_eq_false_2 by done.
  destruct (written_last e tr rs s Hw Hpr Hs) as (q & Hl & Hq & Hr). rewrite Hl. cbn.
  assert (q ∈ rs) as Hin by (apply last_Some_elem_of in Hl; done).
  apply (find_last_none _ _ _ Ho) in Hin as Hqo. apply (find_last_none _ _ _ Hp) in Hin as Hqp.
  unfold proper_record in Hq. rewrite Hqo, Hqp in Hq. apply andb_prop in Hq as [_ Hq].
  destruct (cr_phase q), (cr_envelope q); cbn in *; done || lia.
Qed.
End Reached.

(** A failed verification is classified as retryable, for a boundary command too. *)
Lemma verification_failure_is_retryable `{UrlLib, Decimal} e message evidence :
  String.eqb message FIREFOX_WORKER_CLOSED_MESSAGE = false ->
  classify_failure e (verification_error message) evidence
  = OutcomeRetryableFailure e.(ev_command_id) (verification_error message).
Proof. intros E. unfold classify_failure. cbn [ce_message verification_error]. rewrite E. cbn. by rewrite !andb_false_r. Qed.

(** ** Pages of a session *)

Lemma session_pages_removed {J W} session_id (r : PageRuntime (J := J) (W := W)) :
  let '(x, r') := remove_session_pages session_id r in
  forall id page,
    r'.(rt_pages) !! id = Some page <-> r.(rt_pages) !! id = Some page /\ page.(ps_session_id) <> session_id.
Proof.
  cbn. intros id page. rewrite lookup_difference_Some, map_lookup_filter_None. split.
  - intros [Hp [Hn|Hn]]; [congruence|]. split; [done|]. intros E. by apply (Hn page Hp).
  - intros [Hp Hn]. split; [done|]. right. intros p Hp' E. cbn in E. congruence.
Qed.

(** ** The guarantees *)

Section Guarantees.
Context {J W : Type} `{CommandLogLaws J, Workers W, UrlLib, Decimal}.
Abbreviation Runtime := (PageRuntime (J := J) (W := W)).

Definition runtime_ok (r : Runtime) : Prop := forall j, r.(rt_journal) = Some j -> log_ok j.

Lemma execute_unjournaled e gate now (r : Runtime) o r' :
  r.(rt_journal) = None -> execute_with_session_gate e gate now r = (o, r') ->
  exists error, o = failed e error /\ r' = r.
Proof.
  intros Ej. unfold execute_with_session_gate, admit_command, sbind, sget, slift.
  destruct (validate r e now) as [[]|error]; cbn; [rewrite Ej; cbn|]; intros [= <- <-]; by eexists.
Qed.

Lemma execute_invalid e gate now (r : Runtime) error :
  validate r e now = Err error -> execute_with_session_gate e gate now r = (failed e error, r).
Proof. intros E. unfold execute_with_session_gate, admit_command, sbind, sget, slift. by rewrite E. Qed.

Lemma validate_admits e now (r : Runtime) :
  validate r e now = Ok tt ->
  e.(ev_schema_version) = COMMAND_SCHEMA_VERSION /\ now < e.(ev_deadline)
  /\ (e.(ev_command) <> Primitive ListPages ->
      exists page_id page, e.(ev_page_id) = Some page_id /\ r.(rt_pages) !! page_id = Some page
        /\ page.(ps_session_id) = e.(ev_session_id)
        /\ (RuntimeCommand_class e.(ev_command) = Boundary -> check_boundary r e page_id = Ok tt)).
Proof.
  unfold validate. destruct (Z.eqb_spec (ev_schema_version e) COMMAND_SCHEMA_VERSION); [|done]. cbn [negb refuse_if].
  destruct (Z.leb_spec (ev_deadline e) now); [done|]. cbn [refuse_if]. intros E. split_and!; [done|lia|]. intros Hc.
  assert (validate_page_command r e = Ok tt) as Ep by (destruct (ev_command e) as [[]|]; done). clear E.
  unfold validate_page_command in Ep. destruct (ev_page_id e) as [page_id|]; [|done].
  destruct (rt_pages r !! page_id) as [page|] eqn:Hl; [|done].
  destruct (N.eqb_spec (ps_session_id page) (ev_session_id e)) as [Hss|]; [|done]. cbn [negb refuse_if] in Ep.
  exists page_id, page. split; [done|]. split; [done|]. split; [exact Hss|]. intros Hb. rewrite (bool_decide_eq_true_2 _ Hb) in Ep.
  destruct (match ev_command e with Primitive (Navigate _) => _ | _ => _ end); by destruct (check_boundary r e page_id) as [[]|].
Qed.

(** The trace of an execution, and the retries it offers. *)
Lemma execute_trace e gate now (r : Runtime) o r' :
  runtime_ok r -> execute_with_session_gate e gate now r = (o, r') ->
  exists tr s, r'.(rt_trace) = r.(rt_trace) ++ tr /\ progress e start tr = Some s
    /\ honest e s.(pg_dispatches) (Some o) = true.
Proof.
  intros Hr E. destruct (rt_journal r) as [j|] eqn:Ej.
  - destruct (execute_ok e gate now r j o r' Ej (Hr j Ej) E) as [(s & tr & ev & (tr' & j' & Et & Hp & _) & _ & -> & _)|(s & (tr & j' & Et & Hp & _) & He)].
    + by exists tr', s.
    + exists tr, s. split_and!; [done|done|]. by destruct o.
  - destruct (execute_unjournaled e gate now r o r' Ej E) as (error & -> & ->). exists [], start.
    by rewrite app_nil_r.
Qed.

(** C8: whatever the workers answer and whichever journal writes fail, an execution asks
    nothing of the worker pool and dispatches nothing to the browser before records of the
    phases Accepted, Prepared and Executing of this command were acknowledged by the
    journal. *)
Theorem effects_follow_the_journal e gate now (r : Runtime) o r' :
  runtime_ok r -> execute_with_session_gate e gate now r = (o, r') ->
  exists tr, r'.(rt_trace) = r.(rt_trace) ++ tr /\
    forall before a after, tr = before ++ a :: after -> (forall record b, a <> Wrote record b) ->
    forall phase, phase ∈ admission_phases ->
    exists record, Wrote record true ∈ before /\ record.(cr_phase) = phase
      /\ record.(cr_command_id) = e.(ev_command_id).
Proof.
  intros Hr E. destruct (execute_trace e gate now r o r' Hr E) as (tr & s & Et & Hp & _). exists tr. split; [done|].
  intros before a after -> Ha phase Hph. rewrite progress_app in Hp.
  destruct (progress e start before) as [s1|] eqn:E1; [|done]. cbn in Hp.
  destruct (advance e s1 a) as [s2|] eqn:E2; [|done].
  assert (engaged s1) as Hs.
  { destruct a as [record b|id|]; [by destruct (Ha record b)| |by apply advance_asked in E2 as [_ ?]].
    apply advance_dispatched in E2 as (_ & ? & ? & _). by right. }
  assert (rank phase <= 3)%nat as Hle.
  { unfold admission_phases in Hph. rewrite !elem_of_cons, elem_of_nil in Hph. by destruct Hph as [->|[->|[->|[]]]]; cbn; lia. }
  apply (progress_acknowledged e before s1 phase E1 Hle).
  destruct (decide (rank phase = 3%nat)), Hs as [|[? ?]]; [left; lia|right; split; [lia|done]|left; lia|left; lia].
Qed.

(** C9: an execution dispatches a command to the browser at most once, and at most twice if
    it is replayable, however often the transport is lost, reattached or revived. *)
Theorem dispatched_at_most_once e gate now (r : Runtime) o r' :
  runtime_ok r -> execute_with_session_gate e gate now r = (o, r') ->
  (dispatches r'.(rt_trace) <= dispatches r.(rt_trace) + if replayable e then 2 else 1)%nat.
Proof.
  intros Hr E. destruct (execute_trace e gate now r o r' Hr E) as (tr & s & -> & Hp & _).
  unfold dispatches at 1. rewrite List.filter_app, length_app. fold (dispatches (rt_trace r)) (dispatches tr).
  rewrite (progress_dispatches e tr s Hp). pose proof (progress_limit e tr s Hp) as Hl.
  unfold dispatch_limit in Hl. unfold replayable. lia.
Qed.

(** C37: an execution that dispatched a command which has to be reconciled, a boundary
    command or a download, offers a retry only on an error that is raised before the
    effect, on a failed postcondition or on a detached target. *)
Theorem retries_are_offered_safely e gate now (r : Runtime) id error r' :
  runtime_ok r -> requires_reconciliation e = true ->
  execute_with_session_gate e gate now r = (OutcomeRetryableFailure id error, r') ->
  (dispatches r.(rt_trace) < dispatches r'.(rt_trace))%nat ->
  is_pre_effect error || is_postcondition_failure error || is_transient_target_loss error = true.
Proof.
  intros Hr Hq E. destruct (execute_trace e gate now r _ r' Hr E) as (tr & s & -> & Hp & Hh).
  unfold dispatches at 2. rewrite List.filter_app, length_app. fold (dispatches (rt_trace r)) (dispatches tr).
  rewrite (progress_dispatches e tr s Hp). intros Hd. unfold honest in Hh. rewrite Hq in Hh. cbn in Hh.
  rewrite orb_false_r in Hh. apply orb_prop in Hh as [Hh|Hh]; [apply Nat.eqb_eq in Hh; lia|done].
Qed.

(** C10: once an execution has answered that the command is completed, recovery of the
    command answers the same outcome without what the journal redacts, or asks for
    reconciliation.  It does so at any later time and in this or another process, whatever
    was done with the journal in between, any number of restarts, reads and records of
    other commands included, as long as no further record of this command was appended. *)
Theorem completed_command_is_replayed e gate now (r : Runtime) id evidence r1 j calls later (r2 : Runtime) answer r3 :
  runtime_ok r -> execute_with_session_gate e gate now r = (OutcomeCompleted id evidence, r1) ->
  r1.(rt_journal) = Some j -> forallb (spares e.(ev_command_id)) calls = true ->
  r2.(rt_journal) = Some (log_run calls j) -> recover_command e.(ev_command_id) later r2 = (answer, r3) ->
  reconcile e.(ev_command_id) answer
  \/ answer = CommandOutcome_journal_safe (OutcomeCompleted e.(ev_command_id) evidence).
Proof.
  intros Hr E Ej1 Hs Ej2 Ea. destruct (rt_journal r) as [j0|] eqn:Ej.
  2: { by destruct (execute_unjournaled e gate now r _ r1 Ej E) as (? & ? & _). }
  destruct (execute_ok e gate now r j0 _ r1 Ej (Hr j0 Ej) E) as [(s & tr & ev & Hst & Et & Eo & Hin)|(s & _ & [])].
  injection Eo as -> <-. destruct Hst as (tr' & j' & Et' & Hp & Ej' & Hok & Hw).
  rewrite Et in Et'. apply app_inv_head in Et' as <-. rewrite Ej1 in Ej'. injection Ej' as <-.
  destruct (log_run_spares _ calls j Hok Hs) as [Hok2 Hl].
  destruct (recover_command_from _ _ _ _ _ _ Ej2 Hok2 Ea) as [?|(records & r' & y & Hh & Hrec & Hy)]; [by left|right].
  rewrite Hh in Hl. apply lapses_some in Hl.
  destruct (Hw _ Hl) as (rs0 & rs' & _ & -> & Hwr).
  destruct (written_terminal e tr rs' s _ Hwr Hp Hin eq_refl) as [seq Hlast].
  assert (last (rs0 ++ rs') = Some (with_sequence (completed_record e now (OutcomeCompleted (ev_command_id e) evidence)) seq)) as Hl'.
  { rewrite last_app, Hlast. done. }
  pose proof (recover_outcome _ _ _ _ _ _ (find_last_last cr_outcome _ _ _ Hl' eq_refl) Hrec) as ->.
  by destruct Hy as [[= <-]|].
Qed.

(** An execution that left any trace was of the supported schema and before its
    deadline, its page belongs to the session, and a boundary command ran under a
    checkpoint of the same attempt, session, page and command when checkpoints are kept. *)
Theorem admitted_commands_are_valid e gate now (r : Runtime) o r' :
  execute_with_session_gate e gate now r = (o, r') -> r'.(rt_trace) <> r.(rt_trace) ->
  e.(ev_schema_version) = COMMAND_SCHEMA_VERSION /\ now < e.(ev_deadline)
  /\ (e.(ev_command) <> Primitive ListPages ->
      exists page_id page, e.(ev_page_id) = Some page_id /\ r.(rt_pages) !! page_id = Some page
        /\ page.(ps_session_id) = e.(ev_session_id)
        /\ (RuntimeCommand_class e.(ev_command) = Boundary -> forall load, r.(rt_checkpoints) = Some load ->
            exists c, load e.(ev_workflow_id) = Some c /\ c.(cp_attempt_id) = e.(ev_attempt_id)
              /\ c.(cp_session_id) = e.(ev_session_id) /\ c.(cp_page_id) = page_id
              /\ c.(cp_recovery_class) = Boundary /\ c.(cp_boundary_command_id) = Some e.(ev_command_id))).
Proof.
  intros E Ht. destruct (validate r e now) as [[]|error] eqn:Ev.
  2: { rewrite (execute_invalid e gate now r error Ev) in E. by injection E as _ <-. }
  apply validate_admits in Ev as (Hs & Hd & Hp). split_and!; [done|done|]. intros Hc. specialize (Hp Hc).
  destruct Hp as (page_id & page & Hid & Hl & Hss & Hb). exists page_id, page. split_and!; try done.
  intros Hcl load Hload. specialize (Hb Hcl). unfold check_boundary in Hb. rewrite Hload in Hb.
  destruct (load (ev_workflow_id e)) as [c|]; [|done]. exists c. apply refuse_if_ok in Hb.
  repeat apply orb_false_elim in Hb as [Hb ?].
  repeat match goal with X : negb _ = false |- _ => apply negb_false_iff in X end.
  repeat match goal with X : bool_decide _ = true |- _ => apply bool_decide_eq_true in X | X : (_ =? _)%N = true |- _ => apply N.eqb_eq in X end.
  by split_and!.
Qed.
End Guarantees.

Section Crash.
Context {J W : Type} `{CommandLogLaws J, Workers W, UrlLib, Decimal}.

(** C1: a command that is not replayable, and of which the journal holds no record yet, is
    executed by a process that may die after any number of journal writes, and had been
    dispatched to the browser.  Afterwards, and after any further calls on the journal
    (restarts, reads, records of other commands) that append no record of this command,
    [recover_command] asks for reconciliation, or answers an outcome that the execution
    itself had recorded.  Where the command is a boundary command or a download, that
    outcome offers a retry only on an error that the browser raises before the effect, on a
    failed check of a postcondition or on a lost target; the last two leave it open whether
    there was an effect. *)
Theorem interrupted_command_is_not_retried e gate now n j (r : PageRuntime (J := Crashing J) (W := W)) o r1 c
    calls later (r2 : PageRuntime (J := J) (W := W)) answer r3 :
  r.(rt_journal) = Some (MkCrashing n j) -> log_ok j ->
  (forall rs, log_held j e.(ev_command_id) = Some rs -> rs = []) -> r.(rt_trace) = [] ->
  RuntimeCommand_class e.(ev_command) <> Replayable ->
  execute_with_session_gate e gate now r = (o, r1) -> (0 < dispatches r1.(rt_trace))%nat ->
  r1.(rt_journal) = Some c -> forallb (spares e.(ev_command_id)) calls = true ->
  r2.(rt_journal) = Some (log_run calls c.(cw_journal)) -> recover_command e.(ev_command_id) later r2 = (answer, r3) ->
  reconcile e.(ev_command_id) answer
  \/ (exists record b, Wrote record b ∈ r1.(rt_trace) /\ record.(cr_outcome) = Some answer)
     /\ (requires_reconciliation e = true -> forall id error, answer = OutcomeRetryableFailure id error ->
         is_pre_effect error || is_postcondition_failure error || is_transient_target_loss error = true).
Proof.
  intros Ej Hok Hfresh Ht Hc E Hd Ej1 Hsp Ej2 Ea.
  assert (exists s, at_state e [] (log_held j (ev_command_id e)) s r1) as (s & tr & c' & Et & Hp & Ej' & Hok' & Hw).
  { assert (log_ok (MkCrashing n j)) as Hokc by exact Hok.
    destruct (execute_ok e gate now r _ o r1 Ej Hokc E) as [(s & tr & ev & Hst & _)|(s & Hst & _)];
      rewrite Ht in Hst; by exists s. }
  rewrite Ej1 in Ej'. injection Ej' as <-. cbn in Et. rewrite Et in *. rewrite (progress_dispatches e tr s Hp) in Hd.
  pose proof (progress_engaged e tr s Hp Hd) as Hs.
  destruct (log_run_spares _ calls c.(cw_journal) Hok' Hsp) as [Hok2 Hl].
  destruct (recover_command_from _ _ _ _ _ _ Ej2 Hok2 Ea) as [?|(records & r' & y & Hh & Hrec & Hy)]; [by left|].
  rewrite Hh in Hl. apply lapses_some in Hl.
  destruct (Hw _ Hl) as (rs0 & rs & Hrs0 & -> & Hwr). rewrite (Hfresh _ Hrs0) in Hrec. cbn in Hrec.
  destruct (find_map_last cr_outcome rs) as [outcome|] eqn:Eo.
  - right. pose proof (recover_outcome _ _ _ _ _ _ Eo Hrec) as ->. destruct Hy as [[= <-]|]; [|done].
    destruct (find_last_elem _ _ _ Eo) as (q & Hq & Hqo).
    destruct (written_from tr rs q Hwr Hq) as (record & b & seq & Hin & ->). cbn in Hqo.
    split; [by exists record, b|]. intros Hrq id error ->.
    destruct (progress_wrote e tr s record b Hp Hin) as (Hpp & _ & _ & Hh7).
    assert (rank (cr_phase record) = 7%nat) as H7.
    { unfold proper_record in Hpp. rewrite Hqo in Hpp. apply andb_prop in Hpp as [_ Hpp].
      by destruct (cr_phase record), (cr_envelope record). }
    specialize (Hh7 H7). rewrite Hqo in Hh7. unfold honest in Hh7. rewrite Hrq in Hh7. cbn in Hh7.
    rewrite orb_false_r in Hh7. apply orb_prop in Hh7 as [Hh7|Hh7]; [apply Nat.eqb_eq in Hh7; lia|done].
  - left. destruct (recover_executing _ _ _ _ _ Eo (written_reached e tr rs s Hwr Hp Hs Hc Eo) Hrec) as (o' & -> & ?).
    by destruct Hy as [|[= ->]].
Qed.
End Crash.

(** ** A concrete executor

    The journal of the executor's own tests, a list of records, and workers that answer
    every call. *)

Module SampleExecutor.
Definition ListJournal : Type := list CommandRecord.

Definition of_id (id : CommandId) (j : ListJournal) : list CommandRecord :=
  List.filter (fun r => N.eqb r.(cr_command_id) id) j.

#[export] Instance list_log : CommandLog ListJournal := {
  log_append record _ := fun j => (Ok tt, j ++ [with_sequence record (Z.of_nat (length j))]);
  log_history id _ := fun j => (Ok (MkJournalScan (of_id id j) false 0), j);
  log_reopen _ := fun j => (Ok tt, j);
}.

#[export] Program Instance list_log_laws : CommandLogLaws ListJournal := {
  log_ok _ := True;
  log_held j id := Some (of_id id j);
}.
Next Obligation.
  cbn. intros j record now r j' _ [= <- <-]. unfold of_id. split; [done|]. split.
  - intros id Hne. left. rewrite List.filter_app. cbn. destruct (N.eqb_spec (cr_command_id record) id); [done|].
    by rewrite app_nil_r.
  - left. eexists _, _. split; [done|]. rewrite List.filter_app. cbn. by rewrite N.eqb_refl.
Qed.
Next Obligation.
  cbn. intros j id now r j' _ [= <- <-]. split_and!; [done|by left|]. by intros s [= <-].
Qed.
Next Obligation.
  cbn. intros j now r j' _ [= <- <-]. split; [done|]. by left.
Qed.

#[export] Instance sample_url : UrlLib := fun text => Some text.
#[export] Instance sample_decimal : Decimal := {| decimal := fun _ => "0" |}.

Definition answer {A} (a : A) : ST unit CommandError A := sret a.

(** The browser carries out every command; a click with an expected URL finds no
    button. *)
Definition run_command (e : CommandEnvelope) : result (option AdaptiveExecution) AdaptiveFailure :=
  match e.(ev_command) with
  | Primitive (Click c) =>
      match c.(ck_expected_url) with
      | Some _ => Err (MkAdaptiveFailure (MkCommandError CodeTargetNotFound "no such button" LayerDriver true) [])
      | None => Ok (Some (MkAdaptiveExecution [] None))
      end
  | _ => Ok (Some (MkAdaptiveExecution [] None))
  end.

#[export] Instance sample_workers : Workers unit := {
  wk_lease _ := answer 1%N;
  wk_set_fingerprint_enabled _ _ := answer tt;
  wk_set_humanization_enabled _ _ := answer tt;
  wk_inspect _ _ _ := answer [];
  wk_execute e _ _ _ := fun w => (run_command e, w);
  wk_list_pages _ := answer [];
  wk_reconnect_live_process _ := answer tt;
  wk_invalidate_session_if_worker _ _ := answer tt;
  wk_open_page _ _ := answer tt;
  wk_navigate _ _ _ := answer [];
  wk_commit_http_state _ _ _ _ := answer tt;
  wk_verify _ _ _ _ evidence := answer evidence;
  wk_commit_artifact _ := sret tt;
  wk_commit_download _ := answer tt;
  wk_discard_download _ := answer tt;
  wk_cleanup_download _ := answer tt;
  wk_finalize_prepared_download _ _ _ := answer tt;
  wk_finalize_prepared_artifact _ _ _ _ _ := answer tt;
  wk_context _ _ := answer (Some 4);
}.

Definition click (expected : option string) : CommandEnvelope :=
  MkCommandEnvelope 2 7%N 1%N 2%N 3%N (Some 4%N) 100
    (Primitive (Click (MkClickCommand "button" None true expected []))).
Definition gate : SessionGate := MkSessionGate (MkVisionGate false false) false false false NotRequested.

Definition page : PageState := MkPageState 4%N 3%N (Some "http://a") Document "interactive" 0.
Definition checkpoint : WorkflowCheckpoint :=
  MkWorkflowCheckpoint 1 8%N 1%N 2%N 3%N 4%N "http://a" "http://a" None (Some 7%N) Boundary [] [] [] [] [] 4.

Definition runtime {J} (j : J) : PageRuntime (J := J) (W := unit) :=
  MkPageRuntime {[4%N := page]} (Some j) (Some tt) (Some (fun _ => Some checkpoint)) [].

Definition clicked := execute_with_session_gate (click None) gate 5 (runtime ([] : ListJournal)).
Definition missed := execute_with_session_gate (click (Some "http://b")) gate 5 (runtime ([] : ListJournal)).

(** The process dies after its third write. *)
Definition crashed := execute_with_session_gate (click None) gate 5 (runtime (MkCrashing 3 ([] : ListJournal))).

Definition journal_of {J} (r : PageRuntime (J := J) (W := unit)) (none : J) : J := default none r.(rt_journal).
Definition recovered (j : ListJournal) := recover_command 7%N 9 (runtime j).

(** Another command is accepted, the journal is read and the process restarts twice. *)
Definition interlude : list LogCall :=
  [LogAppend (MkCommandRecord 0 6 8%N PhaseAccepted None None None) 6; LogHistory 7%N 7; LogReopen 8; LogReopen 9].

Lemma lawful (j : ListJournal) : runtime_ok (runtime j).
Proof. done. Qed.

Lemma has_journal {J} (r : PageRuntime (J := J) (W := unit)) none :
  bool_decide (is_Some r.(rt_journal)) = true -> r.(rt_journal) = Some (journal_of r none).
Proof. unfold journal_of. by destruct (rt_journal r). Qed.

Lemma effects_follow_the_journal_witness :
  exists tr, rt_trace clicked.2 = [] ++ tr /\
    forall before a after, tr = before ++ a :: after -> (forall record b, a <> Wrote record b) ->
    forall phase, phase ∈ admission_phases ->
    exists record, Wrote record true ∈ before /\ record.(cr_phase) = phase /\ record.(cr_command_id) = 7%N.
Proof. exact (effects_follow_the_journal (click None) gate 5 (runtime []) _ _ (lawful []) (surjective_pairing clicked)). Defined.

Lemma dispatched_at_most_once_witness : (dispatches (rt_trace clicked.2) <= 1)%nat.
Proof. exact (dispatched_at_most_once (click None) gate 5 (runtime []) _ _ (lawful []) (surjective_pairing clicked)). Defined.

Definition no_button : CommandError := MkCommandError CodeTargetNotFound "no such button" LayerDriver true.

Lemma missed_retryable : missed.1 = OutcomeRetryableFailure 7%N no_button.
Proof. by_eval. Qed.
Lemma missed_dispatched : (0 <? dispatches (rt_trace missed.2))%nat = true.
Proof. by_eval. Qed.

Lemma retries_are_offered_safely_witness :
  is_pre_effect no_button || is_postcondition_failure no_button || is_transient_target_loss no_button = true.
Proof.
  exact (retries_are_offered_safely (click (Some "http://b")) gate 5 (runtime []) 7%N no_button missed.2 (lawful [])
    eq_refl (pair_fst _ _ missed_retryable) (proj1 (Nat.ltb_lt _ _) missed_dispatched)).
Defined.

Definition clicked_evidence : list Evidence := [EvPageGeneration 4%N 4].
Lemma clicked_completed : clicked.1 = OutcomeCompleted 7%N clicked_evidence.
Proof. by_eval. Qed.
Lemma clicked_journal : bool_decide (is_Some (rt_journal clicked.2)) = true.
Proof. by_eval. Qed.

Definition much_later : ListJournal := log_run interlude (journal_of clicked.2 []).

Lemma completed_command_is_replayed_witness :
  reconcile 7%N (recovered much_later).1
  \/ (recovered much_later).1 = CommandOutcome_journal_safe (OutcomeCompleted 7%N clicked_evidence).
Proof.
  exact (completed_command_is_replayed (click None) gate 5 (runtime []) 7%N clicked_evidence clicked.2
    (journal_of clicked.2 []) interlude 9 (runtime much_later) _ _
    (lawful []) (pair_fst _ _ clicked_completed) (has_journal _ _ clicked_journal) eq_refl eq_refl
    (surjective_pairing _)).
Defined.

Lemma clicked_replayed : (recovered much_later).1 = OutcomeCompleted 7%N clicked_evidence.
Proof. by_eval. Qed.

Lemma clicked_traced : (0 <? length (rt_trace clicked.2))%nat = true.
Proof. by_eval. Qed.

Lemma traced (tr : list Action) : (0 <? length tr)%nat = true -> tr <> [].
Proof. by destruct tr. Qed.

Lemma admitted_commands_are_valid_witness :
  ev_schema_version (click None) = COMMAND_SCHEMA_VERSION /\ 5 < 100.
Proof.
  destruct (admitted_commands_are_valid (click None) gate 5 (runtime ([] : ListJournal)) _ _
    (surjective_pairing clicked) (traced _ clicked_traced)) as (Hs & Hd & _). exact (conj Hs Hd).
Defined.

Lemma crashed_dispatched : (0 <? dispatches (rt_trace crashed.2))%nat = true.
Proof. by_eval. Qed.
Lemma crashed_journal : bool_decide (is_Some (rt_journal crashed.2)) = true.
Proof. by_eval. Qed.

Definition crash_left : ListJournal := log_run interlude (cw_journal (journal_of crashed.2 (MkCrashing 0 []))).

Lemma interrupted_command_is_not_retried_witness :
  reconcile 7%N (recovered crash_left).1
  \/ (exists record b, Wrote record b ∈ rt_trace crashed.2 /\ record.(cr_outcome) = Some (recovered crash_left).1)
     /\ (true = true -> forall id error, (recovered crash_left).1 = OutcomeRetryableFailure id error ->
         is_pre_effect error || is_postcondition_failure error || is_transient_target_loss error = true).
Proof.
  refine (interrupted_command_is_not_retried (click None) gate 5 3 ([] : ListJournal) (runtime (MkCrashing 3 []))
    crashed.1 crashed.2 (journal_of crashed.2 (MkCrashing 0 [])) interlude 9 (runtime crash_left) _ _
    eq_refl I _ eq_refl _ (surjective_pairing crashed) (proj1 (Nat.ltb_lt _ _) crashed_dispatched)
    (has_journal _ _ crashed_journal) eq_refl eq_refl (surjective_pairing _)).
  - by intros rs [= <-].
  - done.
Defined.

(** What the crash left is to be reconciled. *)
Lemma crashed_reconciles :
  match (recovered crash_left).1 with OutcomeNeedsReconciliation id _ _ => Some id | _ => None end = Some 7%N.
Proof. by_eval. Qed.
End SampleExecutor.
