(* ===== verification/WorkerPool.v ===== *)
(** * The worker pool

    [WorkerPool] of [crates/worker-pool/src/lib.rs]: leases of browser workers, at most
    [max_active] in use at once, one gate per session that leases share and cleanup takes
    alone, workers launched once per entry, and launches that are abandoned, time out or are
    reaped.

    The state holds the tasks of the pool with the point each has reached; a step of a task is
    the code between two waits.  A gate is an [Arc] that lives as long as a task refers to
    it; who holds it, who holds a permit and who initializes an entry can be read off the
    tasks.  What the factory and the browsers answer, when a caller goes away and when a
    deadline passes is given by the labels.  [we_session], [wp_launched] and [wp_ended] are
    there for the statements only.  Log lines and passive observation are left out. *)

From S2P Require Import Prelude Text SkillTypes Receipt Ledger Json Commands CommandJournal CommandLog Executor.

Abbreviation TaskId := nat.
Abbreviation GateId := nat.
Abbreviation EntryId := nat.
Definition WorkerId : Type := Uuid.

Inductive LeasePhase :=
| LeaseGate (g : GateId)
| LeasePermit (g : GateId)
| LeaseEntry (g : GateId)
| LeaseCell (g : GateId) (e : EntryId)
| LeaseLaunch (g : GateId) (e : EntryId)
| LeaseTerminate (g : GateId) (e : EntryId) (w : WorkerId)
| LeaseFail (g : GateId) (e : EntryId) (error : CommandError)
| LeaseRelease (g : GateId) (e : EntryId) (error : CommandError)
| LeaseReady (g : GateId) (e : EntryId) (w : WorkerId).

(** [release_session], [invalidate_session], [invalidate_session_if_worker],
    [replace_session] and [wait_for_session_stable]. *)
Inductive CleanKind :=
| Releasing
| Invalidating
| InvalidatingIf (w : WorkerId)
| Replacing
| Stabilizing.

Inductive CleanPhase :=
| CleanGate (g : GateId)
| CleanHeld (g : GateId)
| CleanEnding (g : GateId) (w : WorkerId)
| CleanFactory (g : GateId) (r : result unit CommandError).

Inductive ReapPhase :=
| ReapWaiting
| ReapAborting
| ReapAborted
| ReapGate (g : GateId)
| ReapHeld (g : GateId)
| ReapRelease (g : GateId).

(** [cancelled] is the flag the launch looks at: its caller went away or gave up. *)
Inductive PoolTask :=
| Leasing (session : SessionId) (cancelled : bool) (ph : LeasePhase)
| Cleaning (session : SessionId) (kind : CleanKind) (ph : CleanPhase)
| Reaping (session : SessionId) (launch : TaskId) (e : EntryId) (ph : ReapPhase).

Record WorkerEntry := MkWorkerEntry {
  we_session : SessionId;
  we_worker : option WorkerId;
}.

Inductive PoolAnswer :=
| LeaseAnswer (r : result WorkerId CommandError)
| CleanAnswer (r : result unit CommandError).

Record WorkerPool := MkWorkerPool {
  wp_max_active : Z;
  wp_launch_timeout : Z;
  wp_entries : gmap SessionId EntryId;
  wp_cells : gmap EntryId WorkerEntry;
  wp_gates : gmap SessionId GateId;
  wp_tasks : gmap TaskId PoolTask;
  wp_next : nat;
  wp_launched : gset WorkerId;
  wp_ended : gset WorkerId;
  wp_answers : gmap TaskId PoolAnswer;
}.
#[export] Instance eta_WorkerPool : Eta WorkerPool := fun p =>
  MkWorkerPool (wp_max_active p) (wp_launch_timeout p) (wp_entries p) (wp_cells p) (wp_gates p) (wp_tasks p) (wp_next p)
    (wp_launched p) (wp_ended p) (wp_answers p).

(** Durations are in nanoseconds; [None] is a failed assertion. *)
Definition with_timeouts (max_active lease_launch_timeout : Z) : option WorkerPool :=
  if (0 <? max_active) && negb (lease_launch_timeout =? 0)
  then Some (MkWorkerPool max_active lease_launch_timeout ∅ ∅ ∅ ∅ 0 ∅ ∅ ∅) else None.

Definition DEFAULT_LEASE_LAUNCH_TIMEOUT : Z := 45 * 10 ^ 9.
Definition pool_new (max_active : Z) : option WorkerPool := with_timeouts max_active DEFAULT_LEASE_LAUNCH_TIMEOUT.

(** ** Errors *)

Definition resource_error (message : string) : CommandError := MkCommandError CodeResourceExhausted message LayerDriver true.

Definition replacement_timeout_error : CommandError :=
  MkCommandError CodeDeadlineExceeded "browser worker replacement cleanup exceeded its deadline" LayerDriver true.

Definition lease_launch_deadline_error `{Decimal} (timeout : Z) : CommandError :=
  MkCommandError CodeBrowserLaunchFailed
    ("browser worker launch exceeded its " +:+ decimal (Z.max (timeout / 10 ^ 9) 1) +:+
     "s outer deadline before factory.launch completed; run `bobby doctor` for companion/BiDi readiness") LayerDriver true.

Definition replacement_refused : CommandError :=
  MkCommandError CodePolicyDenied "no browser worker satisfies the requested replacement preference" LayerDriver false.

(** ** What a task holds *)

Definition lease_gate (ph : LeasePhase) : GateId :=
  match ph with
  | LeaseGate g | LeasePermit g | LeaseEntry g | LeaseCell g _ | LeaseLaunch g _ | LeaseTerminate g _ _ | LeaseFail g _ _ | LeaseRelease g _ _
  | LeaseReady g _ _ => g
  end.

Definition clean_gate (ph : CleanPhase) : GateId :=
  match ph with CleanGate g | CleanHeld g | CleanEnding g _ | CleanFactory g _ => g end.

Definition reap_gate (ph : ReapPhase) : option GateId :=
  match ph with ReapWaiting | ReapAborting | ReapAborted => None | ReapGate g | ReapHeld g | ReapRelease g => Some g end.

Definition task_session (t : PoolTask) : SessionId :=
  match t with Leasing s _ _ | Cleaning s _ _ | Reaping s _ _ _ => s end.

(** The gate a task refers to; as a reader; as the only one. *)
Definition task_gate (t : PoolTask) : option GateId :=
  match t with
  | Leasing _ _ ph => Some (lease_gate ph)
  | Cleaning _ _ ph => Some (clean_gate ph)
  | Reaping _ _ _ ph => reap_gate ph
  end.

Definition task_reads (t : PoolTask) : option GateId :=
  match t with
  | Leasing _ _ (LeaseGate _) => None
  | Leasing _ _ ph => Some (lease_gate ph)
  | _ => None
  end.

Definition task_writes (t : PoolTask) : option GateId :=
  match t with
  | Cleaning _ _ (CleanGate _) => None
  | Cleaning _ _ ph => Some (clean_gate ph)
  | Reaping _ _ _ (ReapHeld g) | Reaping _ _ _ (ReapRelease g) => Some g
  | _ => None
  end.

Definition holds_permit (t : PoolTask) : bool :=
  match t with
  | Leasing _ _ (LeaseGate _) | Leasing _ _ (LeasePermit _) => false
  | Leasing _ _ _ => true
  | _ => false
  end.

(** The entry a lease works with; the one it initializes. *)
Definition task_entry (t : PoolTask) : option EntryId :=
  match t with
  | Leasing _ _ (LeaseCell _ e) | Leasing _ _ (LeaseLaunch _ e) | Leasing _ _ (LeaseTerminate _ e _)
  | Leasing _ _ (LeaseFail _ e _) | Leasing _ _ (LeaseReady _ e _) => Some e
  | _ => None
  end.

Definition task_launches (t : PoolTask) : option EntryId :=
  match t with Leasing _ _ (LeaseLaunch _ e) | Leasing _ _ (LeaseTerminate _ e _) => Some e | _ => None end.

Definition some_task (f : PoolTask -> bool) (p : WorkerPool) : bool := existsb f (map_to_list p.(wp_tasks)).*2.

Definition alive (g : GateId) (p : WorkerPool) : bool := some_task (fun t => bool_decide (task_gate t = Some g)) p.
Definition can_read (g : GateId) (p : WorkerPool) : bool :=
  negb (some_task (fun t => bool_decide (task_writes t = Some g)) p).
Definition can_write (g : GateId) (p : WorkerPool) : bool :=
  negb (some_task (fun t => bool_decide (task_writes t = Some g) || bool_decide (task_reads t = Some g)) p).
Definition launching (e : EntryId) (p : WorkerPool) : bool :=
  some_task (fun t => bool_decide (task_launches t = Some e)) p.

Definition in_use (p : WorkerPool) : nat := size (filter (fun it => holds_permit it.2 = true) p.(wp_tasks)).
Definition free_permit (p : WorkerPool) : bool := Z.of_nat (in_use p) <? p.(wp_max_active).

Definition worker_of (e : EntryId) (p : WorkerPool) : option WorkerId := p.(wp_cells) !! e ≫= we_worker.

Definition active_workers (p : WorkerPool) : nat :=
  length (List.filter (fun se => bool_decide (is_Some (worker_of se.2 p))) (map_to_list p.(wp_entries))).

(** ** Steps *)

Definition set_task (id : TaskId) (t : PoolTask) (p : WorkerPool) : WorkerPool := p <| wp_tasks := <[id := t]> p.(wp_tasks) |>.
Definition end_task (id : TaskId) (p : WorkerPool) : WorkerPool := p <| wp_tasks := delete id p.(wp_tasks) |>.

(** A caller is answered once. *)
Definition answer (id : TaskId) (a : PoolAnswer) (p : WorkerPool) : WorkerPool :=
  match p.(wp_answers) !! id with
  | Some _ => p
  | None => p <| wp_answers := <[id := a]> p.(wp_answers) |>
  end.

(** [session_gate]: the gate of the session while anyone holds it, else a new one; gates
    nobody holds are forgotten. *)
Definition session_gate (s : SessionId) (p : WorkerPool) : GateId * WorkerPool :=
  let new := (p.(wp_next), p <| wp_next := S p.(wp_next) |>
                             <| wp_gates := <[s := p.(wp_next)]> (filter (fun sg => alive sg.2 p = true) p.(wp_gates)) |>) in
  match p.(wp_gates) !! s with
  | Some g => if alive g p then (g, p) else new
  | None => new
  end.

(** A new task. *)
Definition spawn (t : PoolTask) (p : WorkerPool) : WorkerPool :=
  p <| wp_next := S p.(wp_next) |> <| wp_tasks := <[p.(wp_next) := t]> p.(wp_tasks) |>.

Inductive FactoryAnswer :=
| NoAnswer
| LaunchedWorker (w : WorkerId)
| LaunchFailed (error : CommandError)
| CallEnded (r : result unit CommandError).

(** The worker is there: the caller has its lease, or is gone. *)
Definition leased (id : TaskId) (s : SessionId) (cancelled : bool) (g : GateId) (e : EntryId) (w : WorkerId) (p : WorkerPool)
    : WorkerPool :=
  if cancelled then end_task id p else answer id (LeaseAnswer (Ok w)) (set_task id (Leasing s false (LeaseReady g e w)) p).

Definition lease_step (id : TaskId) (s : SessionId) (cancelled : bool) (ph : LeasePhase) (a : FactoryAnswer) (p : WorkerPool)
    : option WorkerPool :=
  let to ph := set_task id (Leasing s cancelled ph) in
  match ph with
  | LeaseGate g => if can_read g p then Some (to (LeasePermit g) p) else None
  | LeasePermit g => if free_permit p then Some (to (LeaseEntry g) p) else None
  | LeaseEntry g =>
      Some (match p.(wp_entries) !! s with
            | Some e => to (LeaseCell g e) p
            | None =>
                to (LeaseCell g p.(wp_next))
                  (p <| wp_next := S p.(wp_next) |>
                     <| wp_entries := <[s := p.(wp_next)]> p.(wp_entries) |>
                     <| wp_cells := <[p.(wp_next) := MkWorkerEntry s None]> p.(wp_cells) |>)
            end)
  | LeaseCell g e =>
      match worker_of e p with
      | Some w => Some (leased id s cancelled g e w p)
      | None => if launching e p then None else Some (to (LeaseLaunch g e) p)
      end
  | LeaseLaunch g e =>
      match a with
      | LaunchedWorker w =>
          if bool_decide (w ∈ p.(wp_launched)) then None else
          let p := p <| wp_launched := {[w]} ∪ p.(wp_launched) |> in
          if cancelled
          then Some (to (LeaseTerminate g e w) (p <| wp_ended := {[w]} ∪ p.(wp_ended) |>))
          else Some (leased id s cancelled g e w (p <| wp_cells := <[e := MkWorkerEntry s (Some w)]> p.(wp_cells) |>))
      | LaunchFailed error => Some (to (LeaseFail g e error) p)
      | _ => None
      end
  | LeaseTerminate g e _ =>
      match a with
      | CallEnded _ => Some (to (LeaseFail g e (resource_error "worker launch caller was cancelled")) p)
      | _ => None
      end
  | LeaseFail g e error =>
      Some (to (LeaseRelease g e error)
              (if bool_decide (p.(wp_entries) !! s = Some e) then p <| wp_entries := delete s p.(wp_entries) |> else p))
  | LeaseRelease g e error =>
      Some (if cancelled then end_task id p else answer id (LeaseAnswer (Err error)) (end_task id p))
  | LeaseReady _ _ _ => None
  end.

(** The worker a cleanup is to end; [None] when it does not apply. *)
Definition clean_target (s : SessionId) (kind : CleanKind) (p : WorkerPool) : option (option WorkerId) :=
  let found := p.(wp_entries) !! s ≫= (fun e => worker_of e p) in
  match kind with
  | Releasing | Invalidating | Replacing => Some found
  | InvalidatingIf w => if bool_decide (found = Some w) then Some found else None
  | Stabilizing => None
  end.

Definition clean_step (id : TaskId) (s : SessionId) (kind : CleanKind) (ph : CleanPhase) (a : FactoryAnswer) (p : WorkerPool)
    : option WorkerPool :=
  let to ph := set_task id (Cleaning s kind ph) in
  match ph with
  | CleanGate g => if can_write g p then Some (to (CleanHeld g) p) else None
  | CleanHeld g =>
      Some (match clean_target s kind p with
            | None => answer id (CleanAnswer (Ok tt)) (end_task id p)
            | Some target =>
                let p := p <| wp_entries := delete s p.(wp_entries) |> in
                match target with
                | Some w => to (CleanEnding g w) (p <| wp_ended := {[w]} ∪ p.(wp_ended) |>)
                | None => to (CleanFactory g (Ok tt)) p
                end
            end)
  | CleanEnding g w =>
      match a with
      | CallEnded r =>
          Some (match kind, r with
                | Replacing, Err error => answer id (CleanAnswer (Err error)) (end_task id p)
                | _, _ => to (CleanFactory g r) p
                end)
      | _ => None
      end
  | CleanFactory g r =>
      match a with
      | CallEnded replaced =>
          Some (answer id (CleanAnswer (match kind with Replacing => replaced | _ => r end)) (end_task id p))
      | _ => None
      end
  end.

Definition reap_step (id : TaskId) (s : SessionId) (launch : TaskId) (e : EntryId) (ph : ReapPhase) (p : WorkerPool)
    : option WorkerPool :=
  let to ph := set_task id (Reaping s launch e ph) in
  match ph with
  | ReapWaiting => if bool_decide (is_Some (p.(wp_tasks) !! launch)) then None else Some (end_task id p)
  | ReapAborting => Some (to ReapAborted (end_task launch p))
  | ReapAborted => let '(g, p) := session_gate s p in Some (to (ReapGate g) p)
  | ReapGate g => if can_write g p then Some (to (ReapHeld g) p) else None
  | ReapHeld g =>
      Some (if bool_decide (p.(wp_entries) !! s = Some e) && bool_decide (worker_of e p = None)
            then to (ReapRelease g) (p <| wp_entries := delete s p.(wp_entries) |>)
            else end_task id p)
  | ReapRelease g => Some (end_task id p)
  end.

Section Labels.
Context `{Decimal}.

Inductive PoolLabel :=
| PlLease (s : SessionId)
| PlClean (s : SessionId) (kind : CleanKind)
| PlReplace (s : SessionId) (can_select : bool)
| PlStep (id : TaskId) (a : FactoryAnswer)
| PlDrop (id : TaskId)
| PlCancel (id : TaskId)
| PlTimeout (id : TaskId)
| PlGrace (id : TaskId)
| PlReplaceTimeout (id : TaskId).

Definition pool_step (l : PoolLabel) (p : WorkerPool) : option WorkerPool :=
  match l with
  | PlLease s => let '(g, p) := session_gate s p in Some (spawn (Leasing s false (LeaseGate g)) p)
  | PlClean s kind =>
      match kind with
      | Replacing => None
      | _ => let '(g, p) := session_gate s p in Some (spawn (Cleaning s kind (CleanGate g)) p)
      end
  | PlReplace s can_select =>
      if can_select
      then let '(g, p) := session_gate s p in Some (spawn (Cleaning s Replacing (CleanGate g)) p)
      else Some (answer p.(wp_next) (CleanAnswer (Err replacement_refused)) (p <| wp_next := S p.(wp_next) |>))
  | PlStep id a =>
      match p.(wp_tasks) !! id with
      | Some (Leasing s cancelled ph) => lease_step id s cancelled ph a p
      | Some (Cleaning s kind ph) => clean_step id s kind ph a p
      | Some (Reaping s launch e ph) => reap_step id s launch e ph p
      | None => None
      end
  | PlDrop id =>
      match p.(wp_tasks) !! id with
      | Some (Leasing _ _ (LeaseReady _ _ _)) => Some (end_task id p)
      | _ => None
      end
  | PlCancel id =>
      match p.(wp_tasks) !! id with
      | Some (Leasing _ false (LeaseGate _)) | Some (Leasing _ false (LeasePermit _)) | Some (Leasing _ false (LeaseEntry _)) =>
          Some (end_task id p)
      | Some (Leasing _ false (LeaseReady _ _ _)) => None
      | Some (Leasing s false ph) => Some (set_task id (Leasing s true ph) p)
      | Some (Cleaning _ Stabilizing (CleanGate _)) => Some (end_task id p)
      | _ => None
      end
  | PlTimeout id =>
      match p.(wp_tasks) !! id with
      | Some (Leasing s false (LeaseCell _ e as ph)) | Some (Leasing s false (LeaseLaunch _ e as ph))
      | Some (Leasing s false (LeaseTerminate _ e _ as ph)) | Some (Leasing s false (LeaseFail _ e _ as ph)) | Some (Leasing s false (LeaseRelease _ e _ as ph)) =>
          Some (spawn (Reaping s id e ReapWaiting)
                  (answer id (LeaseAnswer (Err (lease_launch_deadline_error p.(wp_launch_timeout))))
                     (set_task id (Leasing s true ph) p)))
      | _ => None
      end
  | PlGrace id =>
      match p.(wp_tasks) !! id with
      | Some (Reaping s launch e ReapWaiting) =>
          if bool_decide (is_Some (p.(wp_tasks) !! launch))
          then Some (set_task id (Reaping s launch e ReapAborting) p) else None
      | _ => None
      end
  | PlReplaceTimeout id =>
      match p.(wp_tasks) !! id with
      | Some (Cleaning _ Replacing _) => Some (answer id (CleanAnswer (Err replacement_timeout_error)) p)
      | _ => None
      end
  end.

Fixpoint pool_run (ls : list PoolLabel) (p : WorkerPool) : option WorkerPool :=
  match ls with [] => Some p | l :: ls => pool_step l p ≫= pool_run ls end.
End Labels.
