(* ===== verification/WorkerPoolInv.v ===== *)
(** * What a worker pool keeps

    The invariant of [WorkerPool]: gates belong to one session each and exclude cleanup from
    leases, an entry has one initializer, the worker of an entry that the pool or a lease
    refers to has not been ended, and the permits suffice.  One lemma per way a step changes
    the pool, then every step. *)

From S2P Require Import Prelude Text SkillTypes Receipt Ledger Json Commands CommandJournal CommandLog Executor WorkerPool.

Implicit Types (p q : WorkerPool) (t u : PoolTask) (s : SessionId) (id j : TaskId).

(** ** Looking through the tasks *)

Lemma some_task_spec (f : PoolTask -> bool) p :
  some_task f p = true <-> exists id t, p.(wp_tasks) !! id = Some t /\ f t = true.
Proof.
  unfold some_task. rewrite existsb_exists. split.
  - intros (t & Hin & Hf). apply list_elem_of_In, list_elem_of_fmap in Hin as ([id t'] & -> & Hin).
    apply elem_of_map_to_list in Hin. eauto.
  - intros (id & t & Ht & Hf). exists t. split; [|done]. apply list_elem_of_In, list_elem_of_fmap.
    exists (id, t). split; [done|]. by apply elem_of_map_to_list.
Qed.

Lemma some_task_false (f : PoolTask -> bool) p id t : some_task f p = false -> p.(wp_tasks) !! id = Some t -> f t = false.
Proof.
  intros Hs Ht. destruct (f t) eqn:Hf; [|done].
  assert (some_task f p = true) by (apply some_task_spec; eauto). congruence.
Qed.

Lemma alive_spec g p : alive g p = true <-> exists id t, p.(wp_tasks) !! id = Some t /\ task_gate t = Some g.
Proof. unfold alive. rewrite some_task_spec. by setoid_rewrite bool_decide_eq_true. Qed.

Lemma can_read_spec g p id t : can_read g p = true -> p.(wp_tasks) !! id = Some t -> task_writes t <> Some g.
Proof. intros Hc%negb_true_iff Ht. pose proof (some_task_false _ _ _ _ Hc Ht) as Hf. by apply bool_decide_eq_false in Hf. Qed.

Lemma can_write_spec g p id t :
  can_write g p = true -> p.(wp_tasks) !! id = Some t -> task_writes t <> Some g /\ task_reads t <> Some g.
Proof.
  intros Hc%negb_true_iff Ht. pose proof (some_task_false _ _ _ _ Hc Ht) as Hf.
  apply orb_false_iff in Hf as [Hw%bool_decide_eq_false Hr%bool_decide_eq_false]. done.
Qed.

Lemma launching_spec e p id t : launching e p = false -> p.(wp_tasks) !! id = Some t -> task_launches t <> Some e.
Proof. intros Hc Ht. pose proof (some_task_false _ _ _ _ Hc Ht) as Hf. by apply bool_decide_eq_false in Hf. Qed.

(** ** The invariant *)

(** The launch behind a lease whose caller was answered goes on without it. *)
Definition detached (t : PoolTask) : Prop :=
  match t with
  | Leasing _ true (LeaseCell _ _) | Leasing _ true (LeaseLaunch _ _) | Leasing _ true (LeaseTerminate _ _ _)
  | Leasing _ true (LeaseFail _ _ _) | Leasing _ true (LeaseRelease _ _ _) => True
  | _ => False
  end.

(** What a task relies on. *)
Record TaskOk (p : WorkerPool) (t : PoolTask) : Prop := {
  to_gate g : task_gate t = Some g -> p.(wp_gates) !! task_session t = Some g;
  to_entry e : task_entry t = Some e ->
    exists c, p.(wp_cells) !! e = Some c /\ c.(we_session) = task_session t /\
              forall w, c.(we_worker) = Some w -> w ∉ p.(wp_ended);
  to_ready s c g e w : t = Leasing s c (LeaseReady g e w) -> worker_of e p = Some w;
  to_launch e : task_launches t = Some e -> worker_of e p = None;
}.

(** What two tasks leave each other. *)
Definition excludes (t u : PoolTask) : Prop :=
  (forall g, task_writes t = Some g -> task_writes u <> Some g /\ task_reads u <> Some g) /\
  (forall e, task_launches t = Some e -> task_launches u <> Some e).

Record PoolInv (p : WorkerPool) : Prop := {
  pi_tasks id t : p.(wp_tasks) !! id = Some t -> TaskOk p t;
  pi_pairs id t j u : p.(wp_tasks) !! id = Some t -> p.(wp_tasks) !! j = Some u -> id <> j -> excludes t u;
  pi_reaped id s launch e ph u : p.(wp_tasks) !! id = Some (Reaping s launch e ph) ->
    ph = ReapWaiting \/ ph = ReapAborting -> p.(wp_tasks) !! launch = Some u -> detached u;
  pi_reap_ids id s launch e ph : p.(wp_tasks) !! id = Some (Reaping s launch e ph) -> (launch < p.(wp_next))%nat;
  pi_active : 0 < p.(wp_max_active);
  pi_permits : Z.of_nat (in_use p) <= p.(wp_max_active);
  pi_ids id t : p.(wp_tasks) !! id = Some t -> (id < p.(wp_next))%nat;
  pi_gate_ids s g : p.(wp_gates) !! s = Some g -> (g < p.(wp_next))%nat;
  pi_gates s s' g : p.(wp_gates) !! s = Some g -> p.(wp_gates) !! s' = Some g -> s = s';
  pi_cell_ids e c : p.(wp_cells) !! e = Some c -> (e < p.(wp_next))%nat;
  pi_entries s e : p.(wp_entries) !! s = Some e ->
    exists c, p.(wp_cells) !! e = Some c /\ c.(we_session) = s /\ forall w, c.(we_worker) = Some w -> w ∉ p.(wp_ended);
  pi_workers e w : worker_of e p = Some w -> w ∈ p.(wp_launched);
  pi_worker_once e e' w : worker_of e p = Some w -> worker_of e' p = Some w -> e = e';
  pi_ended : p.(wp_ended) ⊆ p.(wp_launched);
}.

(** ** One lemma per way to change the pool *)

(** [t'] holds no more than [t] did. *)
Definition narrows (t' t : PoolTask) : Prop :=
  (forall g, task_writes t' = Some g -> task_writes t = Some g) /\
  (forall g, task_reads t' = Some g -> task_reads t = Some g) /\
  (forall e, task_launches t' = Some e -> task_launches t = Some e).

(** A reaper keeps its launch; a detached launch stays one. *)
Definition follows (t' t : PoolTask) : Prop :=
  (detached t -> detached t') /\
  match t' with
  | Reaping _ launch _ ph' =>
      exists s e ph, t = Reaping s launch e ph /\
        (ph' = ReapWaiting \/ ph' = ReapAborting -> ph = ReapWaiting \/ ph = ReapAborting)
  | _ => True
  end.

Lemma excludes_narrows t' t u : narrows t' t -> excludes t u -> excludes u t -> excludes t' u /\ excludes u t'.
Proof. unfold narrows, excludes. naive_solver. Qed.

Lemma in_use_dom p : in_use p = size (dom (filter (fun it => holds_permit it.2 = true) p.(wp_tasks))).
Proof. by rewrite size_dom. Qed.

Lemma in_use_set id t t' p :
  p.(wp_tasks) !! id = Some t -> (in_use (set_task id t' p) <= in_use p + (if holds_permit t' && negb (holds_permit t) then 1 else 0))%nat.
Proof.
  intros Ht. rewrite !in_use_dom. cbn.
  set (A := dom (filter _ p.(wp_tasks))).
  assert (Hsub : dom (filter (fun it => holds_permit it.2 = true) (<[id:=t']> p.(wp_tasks))) ⊆
                 A ∪ (if holds_permit t' && negb (holds_permit t) then {[id]} else ∅)).
  { intros k [v [Hk Hv]%map_lookup_filter_Some]%elem_of_dom. cbn in Hv.
    apply lookup_insert_Some in Hk as [[<- <-]|[Hne Hk]].
    - rewrite Hv. destruct (holds_permit t) eqn:Hp; cbn; [|set_solver]. apply elem_of_union_l, elem_of_dom.
      exists t. by apply map_lookup_filter_Some.
    - apply elem_of_union_l, elem_of_dom. exists v. by apply map_lookup_filter_Some. }
  etrans; [by apply subseteq_size|]. rewrite size_union_alt. etrans; [apply Nat.add_le_mono_l, subseteq_size, subseteq_difference_l; reflexivity|].
  case_match; [rewrite size_singleton|rewrite size_empty]; lia.
Qed.

Lemma set_task_inv id t t' p :
  PoolInv p -> p.(wp_tasks) !! id = Some t -> TaskOk p t' ->
  (forall j u, p.(wp_tasks) !! j = Some u -> id <> j -> excludes t' u /\ excludes u t') ->
  (holds_permit t' = true -> holds_permit t = true \/ free_permit p = true) ->
  follows t' t -> PoolInv (set_task id t' p).
Proof.
  intros Hp Ht Hok Hex Hpermit [Hdet Hreap].
  constructor; cbn; try apply Hp.
  - intros j u [[<- <-]|[Hne Hu]]%lookup_insert_Some; [destruct Hok|destruct (pi_tasks _ Hp _ _ Hu)]; by constructor.
  - intros i v j u [[<- <-]|[Hne Hv]]%lookup_insert_Some [[<- <-]|[Hne' Hu]]%lookup_insert_Some Hij; try done.
    + by apply (Hex _ _ Hu).
    + by apply (Hex _ _ Hv).
    + by eapply (pi_pairs _ Hp).
  - intros i s launch e ph u [[<- ->]|[Hne Hv]]%lookup_insert_Some Hph [[<- <-]|[Hne' Hu]]%lookup_insert_Some.
    + destruct Hreap as (s' & e' & ph' & -> & Hph'). by destruct (pi_reaped _ Hp _ _ _ _ _ _ Ht (Hph' Hph) Ht).
    + destruct Hreap as (s' & e' & ph' & -> & Hph'). by apply (pi_reaped _ Hp _ _ _ _ _ _ Ht (Hph' Hph) Hu).
    + by apply Hdet, (pi_reaped _ Hp _ _ _ _ _ _ Hv Hph).
    + by eapply (pi_reaped _ Hp).
  - intros i s launch e ph [[<- ->]|[Hne Hv]]%lookup_insert_Some; [|by eapply (pi_reap_ids _ Hp)].
    destruct Hreap as (s' & e' & ph' & -> & _). by eapply (pi_reap_ids _ Hp).
  - pose proof (in_use_set id t t' p Ht) as Hu. pose proof (pi_permits _ Hp). unfold free_permit in Hpermit.
    destruct (holds_permit t'), (holds_permit t); cbn in Hu; lia.
  - intros j u [[<- <-]|[Hne Hu]]%lookup_insert_Some; by eapply (pi_ids _ Hp).
Qed.

Lemma narrow_task_inv id t t' p :
  PoolInv p -> p.(wp_tasks) !! id = Some t -> TaskOk p t' -> narrows t' t ->
  (holds_permit t' = true -> holds_permit t = true \/ free_permit p = true) ->
  follows t' t -> PoolInv (set_task id t' p).
Proof.
  intros Hp Ht Hok Hn Hpermit Hf. apply (set_task_inv _ t); try done.
  intros j u Hu Hne. apply (excludes_narrows t' t); [done| |]; by eapply (pi_pairs _ Hp).
Qed.

Lemma in_use_end id p : (in_use (end_task id p) <= in_use p)%nat.
Proof.
  rewrite !in_use_dom. apply subseteq_size. cbn. intros k [v [Hk Hv]%map_lookup_filter_Some]%elem_of_dom.
  apply lookup_delete_Some in Hk as [_ Hk]. apply elem_of_dom. exists v. by apply map_lookup_filter_Some.
Qed.

Lemma end_task_inv id p : PoolInv p -> PoolInv (end_task id p).
Proof.
  intros Hp. pose proof (in_use_end id p). constructor; cbn; try apply Hp.
  - intros j u [Hne Hu]%lookup_delete_Some. destruct (pi_tasks _ Hp _ _ Hu). by constructor.
  - intros i v j u [_ Hv]%lookup_delete_Some [_ Hu]%lookup_delete_Some Hij. by eapply (pi_pairs _ Hp).
  - intros i s launch e ph u [_ Hv]%lookup_delete_Some Hph [_ Hu]%lookup_delete_Some. by eapply (pi_reaped _ Hp).
  - intros i s launch e ph [_ Hv]%lookup_delete_Some. by eapply (pi_reap_ids _ Hp).
  - pose proof (pi_permits _ Hp). lia.
  - intros j u [_ Hu]%lookup_delete_Some. by eapply (pi_ids _ Hp).
Qed.

Lemma in_use_spawn t p : p.(wp_tasks) !! p.(wp_next) = None -> holds_permit t = false -> in_use (spawn t p) = in_use p.
Proof.
  intros Hn Ht. unfold in_use. cbn. rewrite map_filter_insert_False by (cbn; by rewrite Ht).
  by rewrite delete_id.
Qed.

Lemma spawn_inv t p :
  PoolInv p -> TaskOk p t -> task_writes t = None -> task_reads t = None -> task_launches t = None -> holds_permit t = false ->
  (forall s launch e ph, t = Reaping s launch e ph ->
     (launch < p.(wp_next))%nat /\ forall u, p.(wp_tasks) !! launch = Some u -> detached u) ->
  PoolInv (spawn t p).
Proof.
  intros Hp Hok Hw Hr Hl Hpm Hreap.
  assert (Hfresh : p.(wp_tasks) !! p.(wp_next) = None).
  { destruct (p.(wp_tasks) !! p.(wp_next)) eqn:Hn; [|done]. apply (pi_ids _ Hp) in Hn. lia. }
  pose proof (in_use_spawn t p Hfresh Hpm) as Hin.
  constructor; cbn; try apply Hp.
  - intros j u [[<- <-]|[Hne Hu]]%lookup_insert_Some; [destruct Hok|destruct (pi_tasks _ Hp _ _ Hu)]; by constructor.
  - intros i v j u [[<- <-]|[Hne Hv]]%lookup_insert_Some [[<- <-]|[Hne' Hu]]%lookup_insert_Some Hij; try done.
    + unfold excludes. rewrite Hw, Hl. done.
    + unfold excludes. rewrite Hw, Hl, Hr. done.
    + by eapply (pi_pairs _ Hp).
  - intros i s launch e ph u [[<- ->]|[Hne Hv]]%lookup_insert_Some Hph [[Heq <-]|[Hne' Hu]]%lookup_insert_Some.
    + subst. destruct (Hreap _ _ _ _ eq_refl). lia.
    + by apply (Hreap _ _ _ _ eq_refl).
    + apply (pi_reap_ids _ Hp) in Hv. lia.
    + by eapply (pi_reaped _ Hp).
  - intros i s launch e ph [[<- ->]|[Hne Hv]]%lookup_insert_Some; [destruct (Hreap _ _ _ _ eq_refl)|apply (pi_reap_ids _ Hp) in Hv]; lia.
  - rewrite Hin. apply Hp.
  - intros j u [[<- <-]|[Hne Hu]]%lookup_insert_Some; [|apply (pi_ids _ Hp) in Hu]; lia.
  - intros s g Hg%(pi_gate_ids _ Hp). lia.
  - intros e c Hc%(pi_cell_ids _ Hp). lia.
Qed.

Lemma answer_inv id a p : PoolInv p -> PoolInv (answer id a p).
Proof.
  intros Hp. unfold answer. case_match; [done|]. constructor; cbn; try apply Hp.
  intros j t Ht. destruct (pi_tasks _ Hp _ _ Ht). by constructor.
Qed.

(** A new gate for a session that nobody has a gate of. *)
Definition new_gate (s : SessionId) (p : WorkerPool) : WorkerPool :=
  p <| wp_next := S p.(wp_next) |>
    <| wp_gates := <[s := p.(wp_next)]> (filter (fun sg => alive sg.2 p = true) p.(wp_gates)) |>.

Lemma new_gate_inv s p :
  PoolInv p -> (forall id t g, p.(wp_tasks) !! id = Some t -> task_gate t = Some g -> task_session t <> s) ->
  PoolInv (new_gate s p).
Proof.
  intros Hp Hfree.
  assert (Hlk : forall s' g, (new_gate s p).(wp_gates) !! s' = Some g ->
                (s' = s /\ g = p.(wp_next)) \/ p.(wp_gates) !! s' = Some g).
  { intros s' g. cbn. intros [[<- <-]|[Hne [Hg _]%map_lookup_filter_Some]]%lookup_insert_Some; auto. }
  constructor; try apply Hp.
  - intros id t Ht. destruct (pi_tasks _ Hp _ _ Ht) as [Hg He Hr Hl]. constructor; [|exact He|exact Hr|exact Hl].
    intros g Hgt. cbn. rewrite lookup_insert_ne by (intros ->; by eapply Hfree).
    apply map_lookup_filter_Some. split; [by apply Hg|]. apply alive_spec. eauto.
  - intros id s' launch e ph Hv%(pi_reap_ids _ Hp). cbn. lia.
  - intros id t Ht%(pi_ids _ Hp). cbn. lia.
  - intros s' g [[_ ->]|Hg%(pi_gate_ids _ Hp)]%Hlk; cbn; lia.
  - intros s1 s2 g [[-> ->]|Hg1]%Hlk [[-> Heq]|Hg2]%Hlk; try done.
    + apply (pi_gate_ids _ Hp) in Hg2. lia.
    + subst. apply (pi_gate_ids _ Hp) in Hg1. lia.
    + by eapply (pi_gates _ Hp).
  - intros e c Hc%(pi_cell_ids _ Hp). cbn. lia.
Qed.

Lemma session_gate_spec s p g q :
  PoolInv p -> session_gate s p = (g, q) -> PoolInv q /\ q.(wp_gates) !! s = Some g /\ (q = p \/ q = new_gate s p).
Proof.
  intros Hp. unfold session_gate. fold (new_gate s p).
  assert (Hn : forall g0, p.(wp_gates) !! s = g0 -> (forall g1, g0 = Some g1 -> alive g1 p = false) -> PoolInv (new_gate s p)).
  { intros g0 Hg Ha. apply new_gate_inv; [done|]. intros id t g1 Ht Hg1 <-.
    pose proof (to_gate _ _ (pi_tasks _ Hp _ _ Ht) _ Hg1) as Hg'. rewrite Hg' in Hg.
    assert (alive g1 p = true) by (apply alive_spec; eauto). rewrite (Ha g1) in *; done. }
  destruct (p.(wp_gates) !! s) as [g0|] eqn:Hg; [destruct (alive g0 p) eqn:Ha|]; intros [= <- <-].
  - by auto.
  - split; [|split; [cbn; by rewrite lookup_insert_eq|by right]]. eapply Hn; [done|]. congruence.
  - split; [|split; [cbn; by rewrite lookup_insert_eq|by right]]. eapply Hn; [done|]. congruence.
Qed.

Lemma drop_entry_inv s p : PoolInv p -> PoolInv (p <| wp_entries := delete s p.(wp_entries) |>).
Proof.
  intros Hp. constructor; cbn; try apply Hp.
  - intros id t Ht. destruct (pi_tasks _ Hp _ _ Ht). by constructor.
  - intros s' e [_ He]%lookup_delete_Some. by apply Hp.
Qed.

(** The pool with an empty entry for [s]. *)
Definition add_entry (s : SessionId) (p : WorkerPool) : WorkerPool :=
  p <| wp_next := S p.(wp_next) |> <| wp_entries := <[s := p.(wp_next)]> p.(wp_entries) |>
    <| wp_cells := <[p.(wp_next) := MkWorkerEntry s None]> p.(wp_cells) |>.

Lemma worker_of_cells e p c : p.(wp_cells) !! e = Some c -> worker_of e p = c.(we_worker).
Proof. unfold worker_of. by intros ->. Qed.

Lemma worker_of_add e s p : PoolInv p -> worker_of e (add_entry s p) = worker_of e p.
Proof.
  intros Hp. unfold worker_of.
  change (wp_cells (add_entry s p)) with (<[p.(wp_next) := MkWorkerEntry s None]> p.(wp_cells)).
  destruct (decide (p.(wp_next) = e)) as [<-|Hne]; [|by rewrite lookup_insert_ne].
  rewrite lookup_insert_eq. destruct (wp_cells p !! wp_next p) as [c|] eqn:Hc; [|reflexivity].
  apply (pi_cell_ids _ Hp) in Hc. lia.
Qed.

Lemma cell_kept e s p c : PoolInv p -> p.(wp_cells) !! e = Some c -> (add_entry s p).(wp_cells) !! e = Some c.
Proof.
  intros Hp Hc. pose proof (pi_cell_ids _ Hp _ _ Hc) as Hlt.
  apply lookup_insert_Some. right. split; [|done]. intros Heq. apply (Nat.lt_irrefl e). by rewrite Heq in Hlt.
Qed.

Lemma add_entry_inv s p : PoolInv p -> PoolInv (add_entry s p).
Proof.
  intros Hp. constructor; try apply Hp.
  - intros id t Ht. destruct (pi_tasks _ Hp _ _ Ht) as [Hg He Hr Hl]. constructor; [exact Hg| | |].
    + intros e (c & Hc & Hs & Hw)%He. exists c. split; [by apply cell_kept|done].
    + intros. rewrite worker_of_add by done. eauto.
    + intros. rewrite worker_of_add by done. eauto.
  - intros id s' launch e ph Hv%(pi_reap_ids _ Hp). cbn. lia.
  - intros id t Ht%(pi_ids _ Hp). cbn. lia.
  - intros s' g Hg%(pi_gate_ids _ Hp). cbn. lia.
  - intros e c. cbn. intros [[<- <-]|[_ Hc%(pi_cell_ids _ Hp)]]%lookup_insert_Some; lia.
  - intros s' e. cbn. intros [[<- <-]|[_ He]]%lookup_insert_Some.
    + exists (MkWorkerEntry s None). by rewrite lookup_insert_eq.
    + destruct (pi_entries _ Hp _ _ He) as (c & Hc & Hs & Hw). exists c. split; [by apply (cell_kept _ s)|done].
  - intros e w. rewrite worker_of_add by done. apply Hp.
  - intros e e' w. rewrite !worker_of_add by done. apply Hp.
Qed.

(** A worker that neither the pool nor a lease refers to is ended. *)
Lemma end_worker_inv w p :
  PoolInv p -> w ∈ p.(wp_launched) ->
  (forall s e, p.(wp_entries) !! s = Some e -> worker_of e p <> Some w) ->
  (forall id t e, p.(wp_tasks) !! id = Some t -> task_entry t = Some e -> worker_of e p <> Some w) ->
  PoolInv (p <| wp_ended := {[w]} ∪ p.(wp_ended) |>).
Proof.
  intros Hp Hw Hentries Htasks.
  assert (Hkeep : forall e c, p.(wp_cells) !! e = Some c -> worker_of e p <> Some w ->
    (forall w', c.(we_worker) = Some w' -> w' ∉ p.(wp_ended)) -> forall w', c.(we_worker) = Some w' -> w' ∉ {[w]} ∪ p.(wp_ended)).
  { intros e c Hc Hne Hend w' Hw'. rewrite (worker_of_cells _ _ _ Hc), Hw' in Hne. pose proof (Hend _ Hw'). set_solver. }
  constructor; cbn; try apply Hp.
  - intros id t Ht. destruct (pi_tasks _ Hp _ _ Ht) as [Hg He Hr Hl]. constructor; [exact Hg| |exact Hr|exact Hl].
    intros e Het. destruct (He _ Het) as (c & Hc & Hs & Hend). exists c. split; [done|]. split; [done|]. eapply Hkeep; eauto.
  - intros s e Hes. destruct (pi_entries _ Hp _ _ Hes) as (c & Hc & Hs & Hend). exists c. split; [done|]. split; [done|]. eapply Hkeep; eauto.
  - pose proof (pi_ended _ Hp). set_solver.
Qed.

Lemma launched_inv w p : PoolInv p -> PoolInv (p <| wp_launched := {[w]} ∪ p.(wp_launched) |>).
Proof.
  intros Hp. constructor; cbn; try apply Hp.
  - intros id t Ht. destruct (pi_tasks _ Hp _ _ Ht). by constructor.
  - intros e w' Hw%(pi_workers _ Hp). set_solver.
  - pose proof (pi_ended _ Hp). set_solver.
Qed.

(** A new worker for an empty entry that nobody initializes any more. *)
Definition fill (e : EntryId) (c : WorkerEntry) (p : WorkerPool) : WorkerPool := p <| wp_cells := <[e := c]> p.(wp_cells) |>.

Lemma worker_of_fill e e' c p : worker_of e' (fill e c p) = if decide (e = e') then c.(we_worker) else worker_of e' p.
Proof. unfold worker_of. cbn. case_decide; subst; [by rewrite lookup_insert_eq|by rewrite lookup_insert_ne]. Qed.

Lemma fill_inv e s w p :
  PoolInv p -> (exists c, p.(wp_cells) !! e = Some c /\ c.(we_session) = s) ->
  w ∈ p.(wp_launched) -> w ∉ p.(wp_ended) -> worker_of e p = None -> (forall e', worker_of e' p <> Some w) ->
  (forall id t, p.(wp_tasks) !! id = Some t -> task_launches t <> Some e) -> PoolInv (fill e (MkWorkerEntry s (Some w)) p).
Proof.
  intros Hp (c0 & Hc0 & Hs0) Hw Hend Hnone Hnew Hlaunch.
  set (q := fill _ _ p).
  assert (Hcell : forall e' c, p.(wp_cells) !! e' = Some c -> (forall w', c.(we_worker) = Some w' -> w' ∉ p.(wp_ended)) ->
    exists c', q.(wp_cells) !! e' = Some c' /\ c'.(we_session) = c.(we_session) /\
               forall w', c'.(we_worker) = Some w' -> w' ∉ p.(wp_ended)).
  { intros e' c Hc Hc'. cbn. destruct (decide (e = e')) as [<-|Hne].
    - exists (MkWorkerEntry s (Some w)). rewrite lookup_insert_eq. simplify_eq. split_and!; [done|done|]. by intros w' [= <-].
    - exists c. by rewrite lookup_insert_ne. }
  constructor; try apply Hp.
  - intros id t Ht. destruct (pi_tasks _ Hp _ _ Ht) as [Hg He Hr Hl]. constructor; [exact Hg| | |].
    + intros e' (c & Hc & Hs & Hc')%He. destruct (Hcell _ _ Hc Hc') as (c' & ? & ? & ?). exists c'. split_and!; [done|congruence|done].
    + intros s' b g e' w' ->. unfold q. rewrite worker_of_fill. specialize (Hr _ _ _ _ _ eq_refl). case_decide; [congruence|done].
    + intros e' He'. unfold q. rewrite worker_of_fill. case_decide; [subst; by destruct (Hlaunch _ _ Ht)|by apply Hl].
  - intros e' c'. cbn. intros [[<- <-]|[_ Hc]]%lookup_insert_Some; by eapply (pi_cell_ids _ Hp).
  - intros s' e' (c & Hc & Hs & Hc')%(pi_entries _ Hp). destruct (Hcell _ _ Hc Hc') as (c' & ? & ? & ?). exists c'. split_and!; [done|congruence|done].
  - intros e' w'. unfold q. rewrite worker_of_fill. case_decide; [by intros [= <-]|apply Hp].
  - intros e1 e2 w'. unfold q. rewrite !worker_of_fill. repeat case_decide; subst; cbn; try done.
    + intros [= <-] Hw'. by destruct (Hnew _ Hw').
    + intros Hw' [= <-]. by destruct (Hnew _ Hw').
    + apply Hp.
Qed.

(** ** Every step *)

Ltac task_ok Hok :=
  constructor; cbn; intros; simplify_eq;
  first [by eapply (to_gate _ _ Hok) | by eapply (to_entry _ _ Hok) | by eapply (to_ready _ _ Hok) | by eapply (to_launch _ _ Hok) | idtac].

Ltac keep_task Hp Ht :=
  let Hok := fresh "Hok" in
  pose proof (pi_tasks _ Hp _ _ Ht) as Hok;
  eapply (narrow_task_inv _ _ _ _ Hp Ht);
  [task_ok Hok | repeat split; cbn; congruence | cbn; auto | split; [cbn; try done; by repeat case_match
    | cbn; first [done | do 3 eexists; split; [reflexivity | naive_solver]]]].

Lemma lease_enters_inv id s c g p :
  PoolInv p -> p.(wp_tasks) !! id = Some (Leasing s c (LeaseGate g)) -> can_read g p = true ->
  PoolInv (set_task id (Leasing s c (LeasePermit g)) p).
Proof.
  intros Hp Ht Hr. pose proof (pi_tasks _ Hp _ _ Ht) as Hok.
  eapply (set_task_inv _ _ _ _ Hp Ht); [task_ok Hok| |done|split; [by destruct c|done]].
  intros j u Hu Hne. pose proof (can_read_spec _ _ _ _ Hr Hu). split; split; cbn; try done.
  intros g' Hg'. split; [done|]. congruence.
Qed.

Lemma lease_launches_inv id s c g e p :
  PoolInv p -> p.(wp_tasks) !! id = Some (Leasing s c (LeaseCell g e)) -> worker_of e p = None -> launching e p = false ->
  PoolInv (set_task id (Leasing s c (LeaseLaunch g e)) p).
Proof.
  intros Hp Ht Hw Hl. pose proof (pi_tasks _ Hp _ _ Ht) as Hok.
  eapply (set_task_inv _ _ _ _ Hp Ht); [by task_ok Hok| |by auto|split; [by destruct c|done]].
  intros j u Hu Hne. pose proof (launching_spec _ _ _ _ Hl Hu).
  destruct (pi_pairs _ Hp _ _ _ _ Ht Hu Hne) as [Hw1 _], (pi_pairs _ Hp _ _ _ _ Hu Ht (not_eq_sym Hne)) as [Hw2 _].
  split; split; try done; cbn; congruence.
Qed.

Lemma cleanup_enters_inv id t t' g p :
  PoolInv p -> p.(wp_tasks) !! id = Some t -> can_write g p = true -> TaskOk p t' -> follows t' t ->
  task_writes t' = Some g -> task_reads t' = None -> task_launches t' = None -> holds_permit t' = false ->
  PoolInv (set_task id t' p).
Proof.
  intros Hp Ht Hc Hok Hf Hw Hr Hl Hpm. eapply (set_task_inv _ _ _ _ Hp Ht); [done| |congruence|done].
  intros j u Hu Hne. destruct (can_write_spec _ _ _ _ Hc Hu). unfold excludes. rewrite Hw, Hr, Hl.
  split; split; try done; [|intros g' Hg'; split; [congruence|done]]. by intros g' [= <-].
Qed.

(** Nobody uses the entries of a session whose gate is held alone. *)
Lemma cleaned_alone id t g p j u e :
  PoolInv p -> p.(wp_tasks) !! id = Some t -> task_writes t = Some g -> task_gate t = Some g ->
  p.(wp_tasks) !! j = Some u -> task_entry u = Some e -> task_session u <> task_session t.
Proof.
  intros Hp Ht Hw Hg Hu He Hs. assert (Hr : task_reads u = task_gate u) by (by destruct u as [? ? []| |]).
  assert (exists g', task_gate u = Some g') as [g' Hg'] by (destruct u as [? ? []| |]; try done; eexists; reflexivity).
  pose proof (to_gate _ _ (pi_tasks _ Hp _ _ Ht) _ Hg). pose proof (to_gate _ _ (pi_tasks _ Hp _ _ Hu) _ Hg').
  assert (g' = g) as -> by congruence.
  destruct (decide (id = j)) as [->|Hne]; [by destruct t as [? ? []| |]; simplify_eq|].
  destruct (pi_pairs _ Hp _ _ _ _ Ht Hu Hne) as [Hx _]. destruct (Hx _ Hw). congruence.
Qed.

Lemma launch_done_inv id s g e w p :
  PoolInv p -> p.(wp_tasks) !! id = Some (Leasing s false (LeaseLaunch g e)) -> w ∉ p.(wp_launched) ->
  PoolInv (set_task id (Leasing s false (LeaseReady g e w)) (fill e (MkWorkerEntry s (Some w)) (p <| wp_launched := {[w]} ∪ p.(wp_launched) |>))).
Proof.
  intros Hp Ht Hw. set (p1 := p <| wp_launched := _ |>). set (p2 := set_task id (Leasing s false (LeaseCell g e)) p1).
  assert (Hp1 : PoolInv p1) by by apply launched_inv.
  assert (Hp2 : PoolInv p2) by (keep_task Hp1 Ht).
  assert (Ht2 : p2.(wp_tasks) !! id = Some (Leasing s false (LeaseCell g e))) by (cbn; by rewrite lookup_insert_eq).
  pose proof (pi_tasks _ Hp1 _ _ Ht) as Hok.
  destruct (to_entry _ _ Hok e eq_refl) as (c & Hc & Hs & _). pose proof (to_launch _ _ Hok e eq_refl) as Hnone.
  assert (Hp3 : PoolInv (fill e (MkWorkerEntry s (Some w)) p2)).
  { apply fill_inv; try done.
    - by exists c.
    - cbn. set_solver.
    - cbn. intros Hin%(pi_ended _ Hp). done.
    - intros e' Hw'. by apply (pi_workers _ Hp) in Hw'.
    - intros j u. cbn. intros [[<- <-]|[Hne Hu]]%lookup_insert_Some; [done|].
      destruct (pi_pairs _ Hp _ _ _ _ Ht Hu Hne) as [_ Hx]. by apply Hx. }
  assert (Heq : forall t', set_task id t' (fill e (MkWorkerEntry s (Some w)) p1) = set_task id t' (fill e (MkWorkerEntry s (Some w)) p2)).
  { intros t'. unfold set_task. cbn. by rewrite insert_insert_eq. }
  rewrite Heq. keep_task Hp3 Ht2. rewrite worker_of_fill. by case_decide.
Qed.

Lemma finds_entry_inv id s c g e p :
  PoolInv p -> p.(wp_tasks) !! id = Some (Leasing s c (LeaseEntry g)) -> p.(wp_entries) !! s = Some e ->
  PoolInv (set_task id (Leasing s c (LeaseCell g e)) p).
Proof. intros Hp Ht He. keep_task Hp Ht. by apply (pi_entries _ Hp). Qed.

Lemma leased_inv id s c g e w p :
  PoolInv p -> p.(wp_tasks) !! id = Some (Leasing s c (LeaseCell g e)) -> worker_of e p = Some w -> PoolInv (leased id s c g e w p).
Proof.
  intros Hp Ht Hw. unfold leased. destruct c; [by apply end_task_inv|]. apply answer_inv. by keep_task Hp Ht.
Qed.

Lemma lease_step_inv id s c ph a p q :
  PoolInv p -> p.(wp_tasks) !! id = Some (Leasing s c ph) -> lease_step id s c ph a p = Some q -> PoolInv q.
Proof.
  intros Hp Ht. destruct ph as [g|g|g|g e|g e|g e w|g e err|g e err|g e w]; cbn [lease_step].
  - destruct (can_read g p) eqn:Hr; [|done]. intros [= <-]. by apply lease_enters_inv.
  - destruct (free_permit p) eqn:Hf; [|done]. intros [= <-]. keep_task Hp Ht.
  - intros [= <-]. destruct (p.(wp_entries) !! s) as [e|] eqn:He; [by apply finds_entry_inv|].
    apply (finds_entry_inv _ _ _ _ _ (add_entry s p)); [by apply add_entry_inv|done|cbn; by rewrite lookup_insert_eq].
  - destruct (worker_of e p) as [w|] eqn:Hw; [intros [= <-]; by apply leased_inv|].
    destruct (launching e p) eqn:Hl; [done|]. intros [= <-]. by apply lease_launches_inv.
  - destruct a as [|w|err|r]; try done; [|intros [= <-]; keep_task Hp Ht].
    case_bool_decide as Hin; [done|]. destruct c; intros [= <-].
    + pose proof (launched_inv w p Hp) as Hp1.
      assert (Hp2 : PoolInv (p <| wp_launched := {[w]} ∪ p.(wp_launched) |> <| wp_ended := {[w]} ∪ p.(wp_ended) |>)).
      { apply (end_worker_inv _ _ Hp1); [cbn; set_solver| |].
        - intros s' e' _ Hw'. by apply (pi_workers _ Hp) in Hw'.
        - intros i t e' _ _ Hw'. by apply (pi_workers _ Hp) in Hw'. }
      keep_task Hp2 Ht.
    + apply answer_inv. by apply (launch_done_inv _ _ _ _ _ _ Hp Ht).
  - destruct a; try done. intros [= <-]. keep_task Hp Ht.
  - intros [= <-]. case_bool_decide; [|keep_task Hp Ht]. pose proof (drop_entry_inv s p Hp) as Hp1. keep_task Hp1 Ht.
  - intros [= <-]. destruct c; [by apply end_task_inv|]. by apply answer_inv, end_task_inv.
  - done.
Qed.

Lemma clean_step_inv id s kind ph a p q :
  PoolInv p -> p.(wp_tasks) !! id = Some (Cleaning s kind ph) -> clean_step id s kind ph a p = Some q -> PoolInv q.
Proof.
  intros Hp Ht. destruct ph as [g|g|g w|g r]; cbn [clean_step].
  - destruct (can_write g p) eqn:Hc; [|done]. intros [= <-]. pose proof (pi_tasks _ Hp _ _ Ht) as Hok.
    eapply cleanup_enters_inv; try done. task_ok Hok.
  - intros [= <-]. destruct (clean_target s kind p) as [target|] eqn:Htg; [|by apply answer_inv, end_task_inv].
    pose proof (drop_entry_inv s p Hp) as Hp1. destruct target as [w|]; [|keep_task Hp1 Ht].
    assert (exists e, p.(wp_entries) !! s = Some e /\ worker_of e p = Some w) as (e & He & Hw).
    { destruct kind; cbn in Htg; try done; try case_bool_decide; simplify_eq;
        destruct (p.(wp_entries) !! s) as [e|]; try done; by exists e. }
    destruct (pi_entries _ Hp _ _ He) as (c & Hc & Hs & _).
    assert (Hp2 : PoolInv (p <| wp_entries := delete s p.(wp_entries) |> <| wp_ended := {[w]} ∪ p.(wp_ended) |>)).
    { apply (end_worker_inv _ _ Hp1).
      - by apply (pi_workers _ Hp e).
      - cbn. intros s' e' [Hne He']%lookup_delete_Some Hw'. pose proof (pi_worker_once _ Hp _ _ _ Hw Hw') as <-.
        destruct (pi_entries _ Hp _ _ He') as (c' & Hc' & Hs' & _). congruence.
      - intros j u e' Hu He' Hw'. pose proof (pi_worker_once _ Hp _ _ _ Hw Hw') as <-.
        destruct (to_entry _ _ (pi_tasks _ Hp _ _ Hu) _ He') as (c' & Hc' & Hs' & _).
        apply (cleaned_alone id _ g p j u e Hp Ht eq_refl eq_refl Hu He'). cbn. congruence. }
    keep_task Hp2 Ht.
  - destruct a as [| | |r]; try done. intros [= <-].
    destruct kind, r; solve [by apply answer_inv, end_task_inv | keep_task Hp Ht].
  - destruct a; try done. intros [= <-]. by apply answer_inv, end_task_inv.
Qed.

Lemma reap_step_inv id s launch e ph p q :
  PoolInv p -> p.(wp_tasks) !! id = Some (Reaping s launch e ph) -> reap_step id s launch e ph p = Some q -> PoolInv q.
Proof.
  intros Hp Ht. destruct ph as [| | |g|g|g]; cbn [reap_step].
  - case_bool_decide; [done|]. intros [= <-]. by apply end_task_inv.
  - intros [= <-]. pose proof (end_task_inv launch _ Hp) as Hp1.
    assert (launch <> id) as Hne by (intros ->; by destruct (pi_reaped _ Hp _ _ _ _ _ _ Ht (or_intror eq_refl) Ht)).
    assert (Ht1 : (end_task launch p).(wp_tasks) !! id = Some (Reaping s launch e ReapAborting)) by (cbn; by rewrite lookup_delete_ne).
    keep_task Hp1 Ht1.
  - destruct (session_gate s p) as [g p1] eqn:Hg. intros [= <-]. destruct (session_gate_spec _ _ _ _ Hp Hg) as (Hp1 & Hgate & Hq).
    assert (Ht1 : p1.(wp_tasks) !! id = Some (Reaping s launch e ReapAborted)) by (by destruct Hq as [-> | ->]).
    keep_task Hp1 Ht1. congruence.
  - destruct (can_write g p) eqn:Hc; [|done]. intros [= <-]. pose proof (pi_tasks _ Hp _ _ Ht) as Hok.
    eapply cleanup_enters_inv; try done; [task_ok Hok|]. split; [done|]. do 3 eexists. split; [done|]. naive_solver.
  - intros [= <-]. destruct (_ && _); [|by apply end_task_inv]. pose proof (drop_entry_inv s p Hp) as Hp1. keep_task Hp1 Ht.
  - intros [= <-]. by apply end_task_inv.
Qed.

Lemma bump_inv p : PoolInv p -> PoolInv (p <| wp_next := S p.(wp_next) |>).
Proof.
  intros Hp. constructor; cbn; try apply Hp.
  - intros id t Ht. destruct (pi_tasks _ Hp _ _ Ht). by constructor.
  - intros id s launch e ph Hv%(pi_reap_ids _ Hp). lia.
  - intros id t Ht%(pi_ids _ Hp). lia.
  - intros s g Hg%(pi_gate_ids _ Hp). lia.
  - intros e c Hc%(pi_cell_ids _ Hp). lia.
Qed.

Lemma enter_inv (t : GateId -> PoolTask) s p g q :
  PoolInv p -> session_gate s p = (g, q) -> (t g = Leasing s false (LeaseGate g) \/ exists kind, t g = Cleaning s kind (CleanGate g)) ->
  PoolInv (spawn (t g) q).
Proof.
  intros Hp Hg Ht. destruct (session_gate_spec _ _ _ _ Hp Hg) as (Hq & Hgate & _).
  destruct Ht as [-> | [kind ->]]; (apply spawn_inv; try done; constructor; cbn; congruence).
Qed.

Lemma timeout_inv id s ph e d p :
  PoolInv p -> p.(wp_tasks) !! id = Some (Leasing s false ph) -> detached (Leasing s true ph) ->
  PoolInv (spawn (Reaping s id e ReapWaiting) (answer id d (set_task id (Leasing s true ph) p))).
Proof.
  intros Hp Ht Hd.
  assert (Hp1 : PoolInv (set_task id (Leasing s true ph) p)).
  { pose proof (pi_tasks _ Hp _ _ Ht) as Hok. eapply (narrow_task_inv _ _ _ _ Hp Ht); 
    [destruct ph; try done; task_ok Hok | destruct ph; repeat split; cbn; congruence | destruct ph; cbn; auto | by destruct ph]. }
  pose proof (answer_inv id d _ Hp1) as Hp2.
  assert (Ha : forall r, (answer id d r).(wp_next) = r.(wp_next) /\ (answer id d r).(wp_tasks) = r.(wp_tasks)).
  { intros r. unfold answer. by case_match. }
  apply spawn_inv; [done|by constructor|done..|].
  intros s' launch e' ph' [= <- <- <- <-]. destruct (Ha (set_task id (Leasing s true ph) p)) as [-> ->].
  cbn. split; [by apply (pi_ids _ Hp _ _ Ht)|]. rewrite lookup_insert_eq. by intros u [= <-].
Qed.

Section Steps.
Context `{Decimal}.

Lemma pool_step_inv l p q : PoolInv p -> pool_step l p = Some q -> PoolInv q.
Proof.
  intros Hp. destruct l as [s|s kind|s b|id a|id|id|id|id|id]; cbn [pool_step].
  - destruct (session_gate s p) as [g p1] eqn:Hg. intros [= <-].
    apply (enter_inv (fun g => Leasing s false (LeaseGate g)) s p g p1 Hp Hg). by left.
  - destruct (session_gate s p) as [g p1] eqn:Hg. destruct kind; try done; intros [= <-];
      (eapply (enter_inv (fun g => Cleaning s _ (CleanGate g)) s p g p1 Hp Hg); right; eexists; reflexivity).
  - destruct b.
    + destruct (session_gate s p) as [g p1] eqn:Hg. intros [= <-].
      apply (enter_inv (fun g => Cleaning s Replacing (CleanGate g)) s p g p1 Hp Hg). right. eexists. reflexivity.
    + intros [= <-]. by apply answer_inv, bump_inv.
  - destruct (p.(wp_tasks) !! id) as [[s c ph|s kind ph|s launch e ph]|] eqn:Ht; [| | |done].
    + by apply lease_step_inv.
    + by apply clean_step_inv.
    + by apply reap_step_inv.
  - repeat case_match; intros; simplify_eq. by apply end_task_inv.
  - destruct (p.(wp_tasks) !! id) as [[s [] ph|s kind ph|]|] eqn:Ht; try done.
    + destruct ph; intros; simplify_eq; solve [by apply end_task_inv | keep_task Hp Ht].
    + repeat case_match; intros; simplify_eq. by apply end_task_inv.
  - destruct (p.(wp_tasks) !! id) as [[s [] ph|s kind ph|]|] eqn:Ht; try done.
    destruct ph; intros; simplify_eq; by apply timeout_inv.
  - destruct (p.(wp_tasks) !! id) as [[| |s launch e []]|] eqn:Ht; try done. case_bool_decide; [|done]. intros [= <-]. keep_task Hp Ht.
  - repeat case_match; intros; simplify_eq. by apply answer_inv.
Qed.

Lemma pool_run_inv ls p q : PoolInv p -> pool_run ls p = Some q -> PoolInv q.
Proof.
  revert p. induction ls as [|l ls IH]; cbn; intros p Hp; [by intros [= <-]|].
  intros (p1 & Hl & Hrun)%bind_Some. eapply IH; [|done]. by eapply pool_step_inv.
Qed.

Lemma with_timeouts_inv n d p : with_timeouts n d = Some p -> PoolInv p.
Proof.
  unfold with_timeouts. destruct (0 <? n) eqn:Hn; [|done]. destruct (negb _); [|done]. intros [= <-]. apply Z.ltb_lt in Hn.
  constructor; cbn; try done; try (intros *; rewrite ?lookup_empty; done); try set_solver.
  - unfold in_use. cbn. rewrite map_filter_empty, map_size_empty. lia.
Qed.

End Steps.
