(* ===== verification/WorkerPoolThms.v ===== *)
(** * What a worker pool promises

    Over every run of [WorkerPool], whatever the factory answers and whoever goes away: a
    leased worker is alive and its session is not being cleaned up, some task can always go
    on, and as long as no launch fails on an entry somebody else has taken over, the pool
    knows every worker it launched.  The last section shows what such a takeover leads to. *)

From S2P Require Import Prelude Text SkillTypes Receipt Ledger Json Commands CommandJournal CommandLog Executor WorkerPool WorkerPoolInv.

Implicit Types (p q : WorkerPool) (t u : PoolTask) (s : SessionId) (id j : TaskId).

Section Pool.
Context `{Decimal}.

(** A pool of capacity [n] that has come to [p]. *)
Definition pool_reaches (n d : Z) (p : WorkerPool) : Prop :=
  exists p0 ls, with_timeouts n d = Some p0 /\ pool_run ls p0 = Some p.

Lemma reaches_inv n d p : pool_reaches n d p -> PoolInv p.
Proof. intros (p0 & ls & Hnew & Hrun). eapply pool_run_inv; [|done]. by eapply with_timeouts_inv. Qed.

(** ** The capacity does not change *)

Lemma session_gate_active s p g q : session_gate s p = (g, q) -> q.(wp_max_active) = p.(wp_max_active).
Proof. unfold session_gate. repeat case_match; by intros [= <- <-]. Qed.

Lemma answer_active id a p : (answer id a p).(wp_max_active) = p.(wp_max_active).
Proof. unfold answer. by case_match. Qed.

Lemma leased_active id s c g e w p : (leased id s c g e w p).(wp_max_active) = p.(wp_max_active).
Proof. unfold leased. destruct c; [done|]. by rewrite answer_active. Qed.

Lemma step_active l p q : pool_step l p = Some q -> q.(wp_max_active) = p.(wp_max_active).
Proof.
  destruct l; cbn [pool_step]; unfold lease_step, clean_step, reap_step;
    repeat (case_match; try done; simplify_eq); intros; simplify_eq;
    rewrite ?answer_active, ?leased_active; try done;
    try (match goal with Hg : session_gate _ _ = _ |- _ => by rewrite <- (session_gate_active _ _ _ _ Hg) end).
  all: cbn; rewrite ?answer_active; done.
Qed.

Lemma reaches_active n d p : pool_reaches n d p -> p.(wp_max_active) = n.
Proof.
  intros (p0 & ls & Hnew & Hrun). assert (Hn : p0.(wp_max_active) = n).
  { unfold with_timeouts in Hnew. case_match; by simplify_eq. }
  rewrite <- Hn. clear Hnew Hn. revert p0 Hrun. induction ls as [|l ls IH]; cbn; intros p0; [by intros [= <-]|].
  intros (p1 & Hl & Hrun)%bind_Some. rewrite (IH _ Hrun). by eapply step_active.
Qed.

(** ** Leases *)

(** C18: while a lease of a worker is out, the pool has not ended that worker, no cleanup and
    no reaper has the session to itself, no lease of another session has that worker, and no
    more than [n] leases and launches are going on. *)
Theorem leased_worker_is_live n d p id s c g e w :
  pool_reaches n d p -> p.(wp_tasks) !! id = Some (Leasing s c (LeaseReady g e w)) ->
  (w ∈ p.(wp_launched) /\ w ∉ p.(wp_ended)) /\
  (forall j u, p.(wp_tasks) !! j = Some u -> task_session u = s -> task_writes u = None) /\
  (forall j s' c' g' e', p.(wp_tasks) !! j = Some (Leasing s' c' (LeaseReady g' e' w)) -> s' = s) /\
  Z.of_nat (in_use p) <= n.
Proof.
  intros Hr Ht. pose proof (reaches_inv _ _ _ Hr) as Hp. pose proof (pi_tasks _ Hp _ _ Ht) as Hok.
  pose proof (to_ready _ _ Hok _ _ _ _ _ eq_refl) as Hw. destruct (to_entry _ _ Hok _ eq_refl) as (cell & Hc & Hs & Hend).
  split_and!.
  - by apply (pi_workers _ Hp e).
  - apply Hend. by rewrite <- (worker_of_cells _ _ _ Hc).
  - intros j u Hu Hsu. destruct (task_writes u) as [g'|] eqn:Hg'; [|done].
    assert (task_gate u = Some g') by (by destruct u as [|? ? []|? ? ? []]).
    by destruct (cleaned_alone j u g' p id _ e Hp Hu Hg' ltac:(done) Ht eq_refl).
  - intros j s' c' g' e' Hj. pose proof (pi_tasks _ Hp _ _ Hj) as Hok'.
    pose proof (pi_worker_once _ Hp _ _ _ Hw (to_ready _ _ Hok' _ _ _ _ _ eq_refl)) as <-.
    destruct (to_entry _ _ Hok' _ eq_refl) as (cell' & Hc' & Hs' & _). cbn in *. congruence.
  - rewrite <- (reaches_active _ _ _ Hr). apply Hp.
Qed.

(** ** Progress *)

Definition waits_at_gate (t : PoolTask) : bool :=
  match t with Leasing _ _ (LeaseGate _) | Cleaning _ _ (CleanGate _) | Reaping _ _ _ (ReapGate _) => true | _ => false end.

(** The task can go on, given the answer it waits for; a lease that is out can be dropped. *)
Definition can_go (id : TaskId) (p : WorkerPool) : Prop :=
  (exists a q, pool_step (PlStep id a) p = Some q) \/ exists q, pool_step (PlDrop id) p = Some q.

Lemma step_go id t a p q : p.(wp_tasks) !! id = Some t ->
  match t with
  | Leasing s c ph => lease_step id s c ph a p
  | Cleaning s kind ph => clean_step id s kind ph a p
  | Reaping s launch e ph => reap_step id s launch e ph p
  end = Some q -> can_go id p.
Proof. intros Ht Hq. left. exists a, q. cbn. by rewrite Ht. Qed.

Lemma entered_goes p id t : PoolInv p -> p.(wp_tasks) !! id = Some t -> is_Some (task_entry t) ->
  exists j u, p.(wp_tasks) !! j = Some u /\ waits_at_gate u = false /\ can_go j p.
Proof.
  intros Hp Ht [e He]. destruct t as [s c [| | |g e'|g e'|g e' w|g e' err| |g e' w]| |]; simplify_eq/=.
  - destruct (worker_of e p) as [w|] eqn:Hw.
    { exists id. eexists. split_and!; [done..|]. apply (step_go _ _ NoAnswer _ (leased id s c g e w p) Ht). cbn. by rewrite Hw. }
    destruct (launching e p) eqn:Hl.
    + apply some_task_spec in Hl as (j & u & Hu & He%bool_decide_eq_true). exists j, u.
      destruct u as [s' c' [| | | |g' e'|g' e' w| | |]| |]; simplify_eq/=; split_and!; try done.
      * eapply (step_go _ _ (LaunchFailed replacement_timeout_error) _ _ Hu). reflexivity.
      * eapply (step_go _ _ (CallEnded (Ok tt)) _ _ Hu). reflexivity.
    + exists id. eexists. split_and!; [done..|]. eapply (step_go _ _ NoAnswer _ _ Ht). cbn. by rewrite Hw, Hl.
  - exists id. eexists. split_and!; [done..|]. eapply (step_go _ _ (LaunchFailed replacement_timeout_error) _ _ Ht). reflexivity.
  - exists id. eexists. split_and!; [done..|]. eapply (step_go _ _ (CallEnded (Ok tt)) _ _ Ht). reflexivity.
  - exists id. eexists. split_and!; [done..|]. eapply (step_go _ _ NoAnswer _ _ Ht). reflexivity.
  - exists id. eexists. split_and!; [done..|]. right. cbn. rewrite Ht. by eexists.
Qed.

Lemma permit_goes p id t : PoolInv p -> p.(wp_tasks) !! id = Some t -> holds_permit t = true ->
  exists j u, p.(wp_tasks) !! j = Some u /\ waits_at_gate u = false /\ can_go j p.
Proof.
  intros Hp Ht Hpm. destruct (task_entry t) as [e|] eqn:He; [by apply (entered_goes p id t)|].
  exists id, t. destruct t as [s c []| |]; try done; split_and!; try done;
    eapply (step_go _ _ NoAnswer _ _ Ht); reflexivity.
Qed.

Lemma inside_goes p id t : PoolInv p -> p.(wp_tasks) !! id = Some t -> waits_at_gate t = false ->
  exists j u, p.(wp_tasks) !! j = Some u /\ waits_at_gate u = false /\ can_go j p.
Proof.
  intros Hp Ht Hg. destruct t as [s c ph|s kind ph|s launch e ph].
  - destruct (holds_permit (Leasing s c ph)) eqn:Hpm; [by apply (permit_goes p id _ Hp Ht)|].
    destruct ph as [g|g| | | | | | |]; try done. destruct (free_permit p) eqn:Hf.
    { exists id. eexists. split_and!; [done..|]. eapply (step_go _ _ NoAnswer _ _ Ht). cbn. by rewrite Hf. }
    destruct (decide (filter (fun it => holds_permit it.2 = true) p.(wp_tasks) = ∅)) as [Hn|Hn].
    + unfold free_permit, in_use in Hf. rewrite Hn, map_size_empty in Hf. apply Z.ltb_ge in Hf. pose proof (pi_active _ Hp). lia.
    + apply map_choose in Hn as (j & u & [Hu Hpu]%map_lookup_filter_Some). by apply (permit_goes p j u).
  - exists id. eexists. split_and!; [done..|].
    destruct ph; try done; eapply (step_go _ _ (CallEnded (Ok tt)) _ _ Ht); reflexivity.
  - assert (ph = ReapWaiting \/ ph <> ReapWaiting) as [-> | Hph] by (destruct ph; auto; by right).
    + destruct (p.(wp_tasks) !! launch) as [u|] eqn:Hu.
      * pose proof (pi_reaped _ Hp _ _ _ _ _ _ Ht (or_introl eq_refl) Hu) as Hd.
        apply (permit_goes p launch u Hp Hu). by destruct u as [? [] []| |].
      * exists id. eexists. split_and!; [done..|]. eapply (step_go _ _ NoAnswer _ _ Ht). cbn. by rewrite Hu.
    + exists id. eexists. split_and!; [done..|].
      destruct (session_gate s p) as [g q] eqn:Hsg.
      destruct ph; try done; eapply (step_go _ _ NoAnswer _ _ Ht); cbn; rewrite ?Hsg; reflexivity.
Qed.

(** C30: a pool with tasks is never stuck: some task inside a gate can go on, or every task is
    waiting at a gate and nobody holds any, so each of them may enter, whoever is first. *)
Theorem pool_never_stuck n d p :
  pool_reaches n d p ->
  (exists id t, p.(wp_tasks) !! id = Some t /\ waits_at_gate t = false /\ can_go id p) \/
  (forall id t, p.(wp_tasks) !! id = Some t -> waits_at_gate t = true /\ can_go id p).
Proof.
  intros Hr. pose proof (reaches_inv _ _ _ Hr) as Hp.
  destruct (some_task (fun t => negb (waits_at_gate t)) p) eqn:Hi.
  { left. apply some_task_spec in Hi as (id & t & Ht & Hg%negb_true_iff). by apply (inside_goes p id t). }
  right. assert (Hall : forall id t, p.(wp_tasks) !! id = Some t -> waits_at_gate t = true).
  { intros id t Ht. by apply negb_false_iff, (some_task_false _ _ _ _ Hi Ht). }
  assert (Hopen : forall g, can_read g p = true /\ can_write g p = true).
  { intros g. unfold can_read, can_write. split; apply negb_true_iff, not_true_iff_false; intros (id & t & Ht & Hw)%some_task_spec;
      pose proof (Hall _ _ Ht); by destruct t as [? ? []|? ? []|? ? ? []]. }
  intros id t Ht. pose proof (Hall _ _ Ht) as Hg. split; [done|].
  destruct t as [s c [g| | | | | | | |]|s kind [g| | |]|s launch e [| | |g| |]]; try done;
    destruct (Hopen g) as [Hrd Hwr]; eapply (step_go _ _ NoAnswer _ _ Ht); cbn; rewrite ?Hrd, ?Hwr; reflexivity.
Qed.

(** ** Workers the pool knows *)

(** When a launch fails, nobody else works with its entry, and nobody initialized it since. *)
Definition fails_alone (l : PoolLabel) (p : WorkerPool) : bool :=
  match l with
  | PlStep id _ =>
      match p.(wp_tasks) !! id with
      | Some (Leasing _ _ (LeaseFail _ e _)) =>
          bool_decide (map_Forall (fun j u => j <> id -> task_entry u <> Some e) p.(wp_tasks)) && bool_decide (worker_of e p = None)
      | _ => true
      end
  | _ => true
  end.

Fixpoint alone_run (ls : list PoolLabel) (p : WorkerPool) : option WorkerPool :=
  match ls with
  | [] => Some p
  | l :: ls => if fails_alone l p then pool_step l p ≫= alone_run ls else None
  end.

(** A lease works with the entry of its session; a worker that was not ended is in one. *)
Record Kept (p : WorkerPool) : Prop := {
  ke_entry id t e : p.(wp_tasks) !! id = Some t -> task_entry t = Some e -> p.(wp_entries) !! task_session t = Some e;
  ke_known w : w ∈ p.(wp_launched) -> w ∈ p.(wp_ended) \/ exists s e, p.(wp_entries) !! s = Some e /\ worker_of e p = Some w;
}.

Lemma kept_set id t p : Kept p -> (forall e, task_entry t = Some e -> p.(wp_entries) !! task_session t = Some e) -> Kept (set_task id t p).
Proof.
  intros [He Hk] Ht. constructor; [|exact Hk]. cbn. intros j u e [[<- <-]|[_ Hu]]%lookup_insert_Some; eauto.
Qed.

Lemma kept_end id p : Kept p -> Kept (end_task id p).
Proof. intros [He Hk]. constructor; [|exact Hk]. cbn. intros j u e [_ Hu]%lookup_delete_Some; eauto. Qed.

Lemma kept_spawn t p : Kept p -> task_entry t = None -> Kept (spawn t p).
Proof. intros [He Hk] Ht. constructor; [|exact Hk]. cbn. intros j u e [[<- <-]|[_ Hu]]%lookup_insert_Some; [congruence|eauto]. Qed.

Lemma kept_answer id a p : Kept p -> Kept (answer id a p).
Proof. intros [He Hk]. unfold answer. case_match; by constructor. Qed.

Lemma kept_gate s p g q : session_gate s p = (g, q) -> Kept p -> Kept q.
Proof. unfold session_gate. intros Hg [He Hk]. repeat case_match; simplify_eq; by constructor. Qed.

(** An entry is dropped that no lease works with and whose worker, if any, is ended. *)
Lemma kept_drop s p q :
  Kept p -> q.(wp_entries) = delete s p.(wp_entries) -> q.(wp_cells) = p.(wp_cells) -> q.(wp_launched) = p.(wp_launched) ->
  p.(wp_ended) ⊆ q.(wp_ended) ->
  (forall j u e, q.(wp_tasks) !! j = Some u -> task_entry u = Some e -> p.(wp_tasks) !! j = Some u /\ task_session u <> s) ->
  (forall e w, p.(wp_entries) !! s = Some e -> worker_of e p = Some w -> w ∈ q.(wp_ended)) -> Kept q.
Proof.
  intros [He Hk] Hentries Hcells Hl Hend Htasks Hw. unfold worker_of in *. constructor; unfold worker_of.
  - intros j u e Hu Hue. destruct (Htasks _ _ _ Hu Hue) as [Hu' Hne]. rewrite Hentries, lookup_delete_ne by done. eauto.
  - intros w. rewrite Hl, Hcells, Hentries. intros [Hin|(s' & e & Hs' & Hw')]%Hk; [left; set_solver|].
    destruct (decide (s' = s)) as [->|Hne]; [left; eauto|]. right. exists s', e. by rewrite lookup_delete_ne.
Qed.

Lemma kept_set_drop s id t p q :
  Kept p -> (forall j u e, j <> id -> p.(wp_tasks) !! j = Some u -> task_entry u = Some e -> task_session u <> s) -> task_entry t = None ->
  q.(wp_tasks) = <[id := t]> p.(wp_tasks) -> q.(wp_entries) = delete s p.(wp_entries) -> q.(wp_cells) = p.(wp_cells) ->
  q.(wp_launched) = p.(wp_launched) -> p.(wp_ended) ⊆ q.(wp_ended) ->
  (forall e w, p.(wp_entries) !! s = Some e -> worker_of e p = Some w -> w ∈ q.(wp_ended)) -> Kept q.
Proof.
  intros Hk Hfree Ht Htasks Hentries Hcells Hl Hend Hw. eapply (kept_drop s p); try done.
  rewrite Htasks. intros j u e [[<- <-]|[Hne Hu]]%lookup_insert_Some Hue; [congruence|]. split; [done|]. by eapply Hfree.
Qed.

Lemma kept_add s p : PoolInv p -> Kept p -> p.(wp_entries) !! s = None -> Kept (add_entry s p).
Proof.
  intros Hp [He Hk] Hs. constructor.
  - intros id t e Ht Hte. pose proof (He _ _ _ Ht Hte). cbn. rewrite lookup_insert_ne; [done|]. congruence.
  - intros w [Hin|(s' & e & Hs' & Hw)]%Hk; [by left|]. right. exists s', e. rewrite worker_of_add by done. split; [|done].
    cbn. rewrite lookup_insert_ne; [done|]. congruence.
Qed.

Lemma kept_launch id s g e w p :
  Kept p -> p.(wp_tasks) !! id = Some (Leasing s false (LeaseLaunch g e)) -> worker_of e p = None ->
  Kept (set_task id (Leasing s false (LeaseReady g e w)) (fill e (MkWorkerEntry s (Some w)) (p <| wp_launched := {[w]} ∪ p.(wp_launched) |>))).
Proof.
  intros [He Hk] Ht Hnone. pose proof (He _ _ _ Ht eq_refl) as Hes. constructor.
  - cbn. intros j u e' [[<- <-]|[_ Hu]]%lookup_insert_Some; [|eauto]. by intros [= <-].
  - set (p1 := p <| wp_launched := _ |>).
    assert (Hw : forall e', worker_of e' (set_task id (Leasing s false (LeaseReady g e w)) (fill e (MkWorkerEntry s (Some w)) p1)) =
                            if decide (e = e') then Some w else worker_of e' p) by (intros e'; exact (worker_of_fill e e' (MkWorkerEntry s (Some w)) p1)).
    intros w' [<-%elem_of_singleton|Hin]%elem_of_union.
    + right. exists s, e. rewrite Hw. by case_decide.
    + apply Hk in Hin as [Hin|(s' & e' & Hs' & Hw')]; [by left|]. right. exists s', e'. rewrite Hw. case_decide; [congruence|done].
Qed.

Lemma kept_leased id s c g e w p :
  Kept p -> p.(wp_tasks) !! id = Some (Leasing s c (LeaseCell g e)) -> Kept (leased id s c g e w p).
Proof.
  intros Hk Ht. unfold leased. destruct c; [by apply kept_end|]. apply kept_answer, kept_set; [done|].
  intros e' [= <-]. by apply (ke_entry _ Hk _ _ _ Ht).
Qed.

Lemma kept_lease_step id s c ph a p q :
  PoolInv p -> Kept p -> p.(wp_tasks) !! id = Some (Leasing s c ph) -> fails_alone (PlStep id a) p = true ->
  lease_step id s c ph a p = Some q -> Kept q.
Proof.
  intros Hp Hk Ht. pose proof (fun e => ke_entry _ Hk _ _ e Ht) as He.
  destruct ph as [g|g|g|g e|g e|g e w|g e err|g e err|g e w]; cbn [lease_step fails_alone]; rewrite Ht; intros Halone.
  - destruct (can_read g p); [|done]. intros [= <-]. by apply kept_set.
  - destruct (free_permit p); [|done]. intros [= <-]. by apply kept_set.
  - intros [= <-]. destruct (p.(wp_entries) !! s) as [e|] eqn:Hes.
    + apply kept_set; [done|]. by intros e' [= <-].
    + apply (kept_set _ _ (add_entry s p)); [by apply kept_add|]. cbn. intros e' [= <-]. by rewrite lookup_insert_eq.
  - destruct (worker_of e p) as [w|]; [intros [= <-]; by apply kept_leased|].
    destruct (launching e p); [done|]. intros [= <-]. apply kept_set; [done|]. by apply He.
  - destruct a as [|w|err|r]; try done; [|intros [= <-]; apply kept_set; [done|]; by apply He].
    case_bool_decide as Hin; [done|]. destruct c; intros [= <-].
    + apply kept_set; [|by apply He]. constructor; [apply Hk|]. cbn. intros w' [->%elem_of_singleton|[Hw|Hw]%(ke_known _ Hk)]%elem_of_union.
      * left. set_solver.
      * left. set_solver.
      * by right.
    + apply kept_answer. apply (kept_launch _ _ _ _ _ _ Hk Ht). by apply (to_launch _ _ (pi_tasks _ Hp _ _ Ht)).
  - destruct a; try done. intros [= <-]. apply kept_set; [done|]. by apply He.
  - apply andb_true_iff in Halone as [Hf%bool_decide_eq_true Hw%bool_decide_eq_true]. intros [= <-].
    pose proof (He _ eq_refl) as Hes. cbn in Hes. rewrite bool_decide_true by done.
    eapply (kept_set_drop s id (Leasing s c (LeaseRelease g e err)) p _ Hk);
      [|done|reflexivity|reflexivity|done|done|done|intros e' w' He' Hw'; assert (e' = e) by congruence; congruence].
    intros j u e' Hne Hu Hue Hs. pose proof (ke_entry _ Hk _ _ _ Hu Hue) as Hu'. rewrite Hs in Hu'.
    apply (Hf _ _ Hu Hne). congruence.
  - intros [= <-]. destruct c; [by apply kept_end|]. by apply kept_answer, kept_end.
  - done.
Qed.

Lemma kept_clean_step id s kind ph a p q :
  PoolInv p -> Kept p -> p.(wp_tasks) !! id = Some (Cleaning s kind ph) -> clean_step id s kind ph a p = Some q -> Kept q.
Proof.
  intros Hp Hk Ht. destruct ph as [g|g|g w|g r]; cbn [clean_step].
  - destruct (can_write g p); [|done]. intros [= <-]. by apply kept_set.
  - intros [= <-]. destruct (clean_target s kind p) as [target|] eqn:Htg; [|by apply kept_answer, kept_end].
    assert (Hfree : forall j u e, j <> id -> p.(wp_tasks) !! j = Some u -> task_entry u = Some e -> task_session u <> s).
    { intros j u e _ Hu Hue. by apply (cleaned_alone id _ g p j u e Hp Ht eq_refl eq_refl Hu). }
    assert (Hfound : target = p.(wp_entries) !! s ≫= (fun e => worker_of e p)).
    { destruct kind; cbn in Htg; try done; try case_bool_decide; congruence. }
    destruct target as [w|].
    + eapply (kept_set_drop s id (Cleaning s kind (CleanEnding g w)) p _ Hk Hfree);
        [done|reflexivity|reflexivity|done|done|cbn; set_solver|].
      cbn. intros e w' He Hw'. rewrite He in Hfound. cbn in Hfound. assert (w' = w) as -> by congruence. set_solver.
    + eapply (kept_set_drop s id (Cleaning s kind (CleanFactory g (Ok tt))) p _ Hk Hfree);
        [done|reflexivity|reflexivity|done|done|done|].
      intros e w' He Hw'. rewrite He in Hfound. cbn in Hfound. congruence.
  - destruct a as [| | |r]; try done. intros [= <-]. destruct kind, r; solve [by apply kept_answer, kept_end | by apply kept_set].
  - destruct a; try done. intros [= <-]. by apply kept_answer, kept_end.
Qed.

Lemma kept_reap_step id s launch e ph p q :
  PoolInv p -> Kept p -> p.(wp_tasks) !! id = Some (Reaping s launch e ph) -> reap_step id s launch e ph p = Some q -> Kept q.
Proof.
  intros Hp Hk Ht. destruct ph as [| | |g|g|g]; cbn [reap_step].
  - case_bool_decide; [done|]. intros [= <-]. by apply kept_end.
  - intros [= <-]. apply kept_set; [by apply kept_end|done].
  - destruct (session_gate s p) as [g p1] eqn:Hg. intros [= <-]. apply kept_set; [by eapply kept_gate|done].
  - destruct (can_write g p); [|done]. intros [= <-]. by apply kept_set.
  - intros [= <-]. destruct (_ && _) eqn:Hb; [|by apply kept_end].
    apply andb_true_iff in Hb as [He%bool_decide_eq_true Hw%bool_decide_eq_true].
    eapply (kept_set_drop s id (Reaping s launch e (ReapRelease g)) p _ Hk);
      [|done|reflexivity|reflexivity|done|done|done|intros e' w' He' Hw'; assert (e' = e) by congruence; congruence].
    intros j u e' _ Hu Hue. by apply (cleaned_alone id _ g p j u e' Hp Ht eq_refl eq_refl Hu).
  - intros [= <-]. by apply kept_end.
Qed.

Lemma kept_step l p q : PoolInv p -> Kept p -> fails_alone l p = true -> pool_step l p = Some q -> Kept q.
Proof.
  intros Hp Hk Hf. destruct l as [s|s kind|s b|id a|id|id|id|id|id]; cbn [pool_step].
  - destruct (session_gate s p) as [g p1] eqn:Hg. intros [= <-]. apply kept_spawn; [by eapply kept_gate|done].
  - destruct (session_gate s p) as [g p1] eqn:Hg. destruct kind; try done; intros [= <-]; (apply kept_spawn; [by eapply kept_gate|done]).
  - destruct b.
    + destruct (session_gate s p) as [g p1] eqn:Hg. intros [= <-]. apply kept_spawn; [by eapply kept_gate|done].
    + intros [= <-]. apply kept_answer. destruct Hk. by constructor.
  - destruct (p.(wp_tasks) !! id) as [[s c ph|s kind ph|s launch e ph]|] eqn:Ht; [| | |done].
    + by apply kept_lease_step.
    + by apply kept_clean_step.
    + by apply kept_reap_step.
  - repeat case_match; intros; simplify_eq. by apply kept_end.
  - destruct (p.(wp_tasks) !! id) as [[s [] ph|s kind ph|]|] eqn:Ht; try done.
    + destruct ph; intros; simplify_eq; first [by apply kept_end | apply kept_set; [done|]; cbn; intros; simplify_eq; by apply (ke_entry _ Hk _ _ _ Ht)].
    + repeat case_match; intros; simplify_eq. by apply kept_end.
  - destruct (p.(wp_tasks) !! id) as [[s [] ph|s kind ph|]|] eqn:Ht; try done.
    destruct ph; intros; simplify_eq; (apply kept_spawn; [|done]; apply kept_answer, kept_set; [done|]; cbn; intros; simplify_eq; by apply (ke_entry _ Hk _ _ _ Ht)).
  - destruct (p.(wp_tasks) !! id) as [[| |s launch e []]|] eqn:Ht; try done. case_bool_decide; [|done]. intros [= <-]. by apply kept_set.
  - repeat case_match; intros; simplify_eq. by apply kept_answer.
Qed.

Lemma alone_run_kept ls p q : PoolInv p -> Kept p -> alone_run ls p = Some q -> PoolInv q /\ Kept q.
Proof.
  revert p. induction ls as [|l ls IH]; cbn; intros p Hp Hk; [by intros [= <-]|].
  destruct (fails_alone l p) eqn:Hf; [|done]. intros (p1 & Hl & Hrun)%bind_Some.
  apply (IH p1); [by eapply pool_step_inv|by eapply kept_step|done].
Qed.

Lemma kept_new n d p : with_timeouts n d = Some p -> Kept p.
Proof. unfold with_timeouts. case_match; [|done]. intros [= <-]. constructor; cbn; [intros *; by rewrite lookup_empty|set_solver]. Qed.

(** C19: as long as every launch that fails fails alone, the pool knows its workers: one it has
    not ended is the worker of a session's entry, where the next lease, a release or an
    invalidation of that session finds it, and every lease that is out is a lease of the worker
    of its session's entry. *)
Theorem no_worker_is_lost n d p0 ls p :
  with_timeouts n d = Some p0 -> alone_run ls p0 = Some p ->
  (forall w, w ∈ p.(wp_launched) -> w ∉ p.(wp_ended) -> exists s e, p.(wp_entries) !! s = Some e /\ worker_of e p = Some w) /\
  (forall id s c g e w, p.(wp_tasks) !! id = Some (Leasing s c (LeaseReady g e w)) ->
     p.(wp_entries) !! s = Some e /\ worker_of e p = Some w).
Proof.
  intros Hnew Hrun. destruct (alone_run_kept ls p0 p) as [Hp Hk]; [by eapply with_timeouts_inv|by eapply kept_new|done|].
  split.
  - intros w Hin Hend. by destruct (ke_known _ Hk w Hin).
  - intros id s c g e w Ht. split; [by apply (ke_entry _ Hk _ _ _ Ht)|]. by apply (to_ready _ _ (pi_tasks _ Hp _ _ Ht) s c g).
Qed.
End Pool.

(** ** Sample runs *)

Module SamplePool.
#[export] Instance pool_decimal : Decimal := {| decimal := fun _ => "0" |}.

Definition session : SessionId := 1%N.
Definition fresh_pool : WorkerPool := MkWorkerPool 4 DEFAULT_LEASE_LAUNCH_TIMEOUT ∅ ∅ ∅ ∅ 0 ∅ ∅ ∅.
Definition steps (id : TaskId) (k : nat) : list PoolLabel := repeat (PlStep id NoAnswer) k.

Definition ran {A} (o : option A) : bool := match o with Some _ => true | None => false end.

Lemma runs_to {A} (d : A) (o : option A) : ran o = true -> o = Some (default d o).
Proof. by destruct o. Qed.

(** One lease, from the gate to the worker. *)
Definition first_lease : list PoolLabel := PlLease session :: (steps 1 4 ++ [PlStep 1 (LaunchedWorker 11%N)]).
Definition leased_pool : WorkerPool := default fresh_pool (pool_run first_lease fresh_pool).

Lemma first_lease_runs : pool_run first_lease fresh_pool = Some leased_pool.
Proof. apply runs_to. by_eval. Qed.

Definition alone_pool : WorkerPool := default fresh_pool (alone_run first_lease fresh_pool).

Lemma first_lease_alone : alone_run first_lease fresh_pool = Some alone_pool.
Proof. apply runs_to. by_eval. Qed.

Lemma alone_lease_out : alone_pool.(wp_tasks) !! 1%nat = Some (Leasing session false (LeaseReady 0 2 11%N)).
Proof. by_eval. Qed.

Lemma first_lease_out : leased_pool.(wp_tasks) !! 1%nat = Some (Leasing session false (LeaseReady 0 2 11%N)).
Proof. by_eval. Qed.

Lemma leased_reached : pool_reaches 4 DEFAULT_LEASE_LAUNCH_TIMEOUT leased_pool.
Proof. exists fresh_pool, first_lease. split; [reflexivity|exact first_lease_runs]. Qed.

Lemma leased_worker_is_live_witness : 11%N ∉ leased_pool.(wp_ended) /\ Z.of_nat (in_use leased_pool) <= 4.
Proof.
  destruct (leased_worker_is_live 4 DEFAULT_LEASE_LAUNCH_TIMEOUT leased_pool 1%nat session false 0 2 11%N leased_reached first_lease_out)
    as ([_ Hlive] & _ & _ & Hcap).
  exact (conj Hlive Hcap).
Defined.

Lemma pool_never_stuck_witness :
  (exists id t, leased_pool.(wp_tasks) !! id = Some t /\ waits_at_gate t = false /\ can_go id leased_pool) \/
  (forall id t, leased_pool.(wp_tasks) !! id = Some t -> waits_at_gate t = true /\ can_go id leased_pool).
Proof. exact (pool_never_stuck 4 DEFAULT_LEASE_LAUNCH_TIMEOUT leased_pool leased_reached). Defined.

Lemma no_worker_is_lost_witness : alone_pool.(wp_entries) !! session = Some 2%nat /\ worker_of 2 alone_pool = Some 11%N.
Proof.
  destruct (no_worker_is_lost 4 DEFAULT_LEASE_LAUNCH_TIMEOUT fresh_pool first_lease alone_pool eq_refl first_lease_alone) as [_ Hout].
  exact (Hout 1%nat session false 0%nat 2%nat 11%N alone_lease_out).
Defined.

(** Two leases of one session.  The first launch fails; the second takes the entry over before
    the first removes it from the pool.  A third lease starts a second worker, and releasing
    the session ends only that one. *)
Definition takeover : list PoolLabel :=
  [PlLease session; PlLease session] ++ steps 1 4 ++ steps 2 3 ++
  [PlStep 1 (LaunchFailed replacement_timeout_error); PlStep 2 NoAnswer] ++ steps 1 2 ++ [PlStep 2 (LaunchedWorker 11%N)].
Definition third_lease : list PoolLabel := PlLease session :: (steps 4 4 ++ [PlStep 4 (LaunchedWorker 12%N)]).
Definition release : list PoolLabel :=
  [PlDrop 2; PlDrop 4; PlClean session Releasing; PlStep 7 NoAnswer; PlStep 7 NoAnswer; PlStep 7 (CallEnded (Ok tt)); PlStep 7 (CallEnded (Ok tt))].

Definition two_workers : WorkerPool := default fresh_pool (pool_run (takeover ++ third_lease) fresh_pool).
Definition released : WorkerPool := default fresh_pool (pool_run release two_workers).

Lemma takeover_loses_worker :
  (ran (pool_run (takeover ++ third_lease) fresh_pool),
   two_workers.(wp_tasks) !! 2%nat, two_workers.(wp_tasks) !! 4%nat) =
  (true, Some (Leasing session false (LeaseReady 0 3 11%N)), Some (Leasing session false (LeaseReady 0 5 12%N))) /\
  (ran (pool_run release two_workers),
   map_to_list released.(wp_tasks), map_to_list released.(wp_entries), released.(wp_answers) !! 7%nat,
   bool_decide (11%N ∈ released.(wp_launched)), bool_decide (11%N ∈ released.(wp_ended))) =
  (true, [], [], Some (CleanAnswer (Ok tt)), true, false).
Proof. split; by_eval. Qed.
End SamplePool.
