(* ===== verification/RuntimeService.v ===== *)
(** * Sessions and the runtime service

    [crates/session-manager/src/lib.rs] and the part of [RuntimeService]
    ([crates/sdk-core/src/lib.rs]) that decides what a session may do: its policy, the gates a
    command passes before it is executed, and the checkpoint that is saved before a boundary
    command.

    Pages, workers and the execution of a command are the class [ServicePages]; [Executor]
    models [execute_with_session_gate].  What the service handed to an execution is kept in
    [sv_executions].  New identities and the clock are arguments.  The response byte counter,
    the in-flight counter, metrics and log lines are left out. *)

From S2P Require Import Prelude Text SkillTypes Receipt Ledger Json Nodes Commands CommandJournal CommandLog Checkpoint CheckpointStore Recovery Executor.

(** ** Data *)

Record ExecutionPolicy := MkExecutionPolicy {
  xp_javascript_evaluation : bool;
  xp_vision_assist : bool;
  xp_fingerprint : bool;
  xp_humanize : bool;
  xp_password_manager : bool;
  xp_vision_node : option string;
}.
#[export] Instance eta_ExecutionPolicy : Eta ExecutionPolicy := fun p =>
  MkExecutionPolicy (xp_javascript_evaluation p) (xp_vision_assist p) (xp_fingerprint p) (xp_humanize p)
    (xp_password_manager p) (xp_vision_node p).
#[export] Instance ExecutionPolicy_eq_dec : EqDecision ExecutionPolicy.
Proof. solve_decision. Defined.

Definition ExecutionPolicy_default : ExecutionPolicy := MkExecutionPolicy false false false false false None.

Record CreateSessionRequest := MkCreateSessionRequest {
  cs_profile : string;
  cs_proxy : option string;
  cs_execution_policy : ExecutionPolicy;
  cs_zigzagzig : bool;
}.
#[export] Instance eta_CreateSessionRequest : Eta CreateSessionRequest := fun r =>
  MkCreateSessionRequest (cs_profile r) (cs_proxy r) (cs_execution_policy r) (cs_zigzagzig r).

Record SessionState := MkSessionState {
  ses_id : SessionId;
  ses_profile : string;
  ses_proxy : option string;
  ses_page_ids : list PageId;
  ses_created_at : Time;
  ses_last_used_at : Time;
  ses_execution_policy : ExecutionPolicy;
  ses_zigzagzig : bool;
}.
#[export] Instance eta_SessionState : Eta SessionState := fun s =>
  MkSessionState (ses_id s) (ses_profile s) (ses_proxy s) (ses_page_ids s) (ses_created_at s) (ses_last_used_at s)
    (ses_execution_policy s) (ses_zigzagzig s).

Inductive RuntimeError :=
| RtNotFound (detail : string)
| RtInvalidRequest (detail : string)
| RtEngineUnreachable (detail : string)
| RtInternal (detail : string).

(** ** What the service asks of pages and workers

    [pg_execute] is [execute_with_session_gate], [pg_ladder] is [execute_with_zigzagzig];
    releasing a session may fail or time out, and the caller does not look. *)
Class ServicePages (W : Type) := {
  pg_lease : SessionId -> ST W CommandError unit;
  pg_release_session : SessionId -> W -> W;
  pg_open_browser : SessionId -> ST W RuntimeError PageState;
  pg_get : PageId -> W -> result PageState RuntimeError;
  pg_remove_session_pages : SessionId -> W -> list PageId * W;
  pg_forget_all : list PageId -> W -> W;
  pg_commands_for : PageId -> W -> list CommandId;
  pg_evidence_for_command : CommandId -> ST W RecoveryError (list Evidence);
  pg_command_session : CommandId -> ST W RecoveryError SessionId;
  pg_execute : CommandEnvelope -> SessionGate -> Time -> W -> CommandOutcome * W;
  pg_ladder : CommandEnvelope -> SessionGate -> Time -> ST W CommandError CommandOutcome;
}.

(** ** Session policy *)

(** [SessionManager::create]: a zigzagzig session has every capability forced on. *)
Definition session_policy (req : CreateSessionRequest) : ExecutionPolicy :=
  if req.(cs_zigzagzig)
  then req.(cs_execution_policy) <| xp_javascript_evaluation := true |> <| xp_vision_assist := true |>
         <| xp_fingerprint := true |> <| xp_humanize := true |>
  else req.(cs_execution_policy).

Definition session_of_request (req : CreateSessionRequest) (id : SessionId) (now : Time) : SessionState :=
  MkSessionState id req.(cs_profile) req.(cs_proxy) [] now now (session_policy req) req.(cs_zigzagzig).

Definition lease_error (e : CommandError) : RuntimeError :=
  match e.(ce_code) with
  | CodeBrowserLaunchFailed | CodeDeadlineExceeded =>
      RtEngineUnreachable
        ("browser launch failed: " +:+ e.(ce_message) +:+
         "; run `bobby doctor` -- check Firefox BiDi endpoint readiness and companion bind (configured may be ephemeral 127.0.0.1:0; install default is 127.0.0.1:9876)")
  | _ => RtInternal e.(ce_message)
  end.

Definition policy_denied (e : CommandEnvelope) (message : string) : CommandOutcome :=
  OutcomePolicyDenied e.(ev_command_id) (MkCommandError CodePolicyDenied message LayerWorkflow false).

Definition is_javascript (c : RuntimeCommand) : bool :=
  match c with Primitive (EvaluateJavaScript _) => true | _ => false end.

(** [VisionGate] of a command: intents, and the primitives of a zigzagzig session. *)
Definition vision_gate (c : RuntimeCommand) (policy : ExecutionPolicy) (zigzagzig vision_capability_ok one_shot_session_ok : bool)
    : VisionGate :=
  match c with
  | Intent _ => MkVisionGate (policy.(xp_vision_assist) || one_shot_session_ok) vision_capability_ok
  | Primitive _ => if zigzagzig then MkVisionGate policy.(xp_vision_assist) vision_capability_ok
                   else MkVisionGate false false
  end.

Definition closed_page (e : CommandEnvelope) : option (SessionId * PageId) :=
  match e.(ev_command) with
  | Primitive (Commands.ClosePage page_id) => Some (e.(ev_session_id), page_id)
  | _ => None
  end.

Definition is_completed (o : CommandOutcome) : bool := match o with OutcomeCompleted _ _ => true | _ => false end.

Section Service.
Context {W : Type} `{Sha2, ReceiptCodec, CheckpointCodec, BrowserPool, NodeLib, !ServicePages W}.

Record RuntimeService := MkRuntimeService {
  sv_sessions : gmap SessionId SessionState;
  sv_session_workers : bool;
  sv_pages : W;
  sv_recovery : option RecoveryCoordinator;
  sv_workers : bool;
  sv_nodes : NodeRegistry;
  sv_vision_provider_configured : bool;
  sv_vision_assist_profiles : list string;
  sv_collect_training_data : bool;
  sv_executions : list (CommandEnvelope * SessionGate);
}.
#[export] Instance eta_RuntimeService : Eta RuntimeService := fun s =>
  MkRuntimeService (sv_sessions s) (sv_session_workers s) (sv_pages s) (sv_recovery s) (sv_workers s) (sv_nodes s)
    (sv_vision_provider_configured s) (sv_vision_assist_profiles s) (sv_collect_training_data s) (sv_executions s).

Definition Svc (A : Type) : Type := ST RuntimeService RuntimeError A.

(** A call of pages or workers. *)
Definition on_pages {A E} (m : ST W E A) : ST RuntimeService E A := fun s =>
  let '(r, w) := m s.(sv_pages) in (r, s <| sv_pages := w |>).

(** ** SessionManager *)

Definition manager_create (req : CreateSessionRequest) (id : SessionId) (now : Time) : Svc SessionState :=
  let session := session_of_request req id now in
  do s <- sget;
  (if s.(sv_session_workers)
   then fun s => let '(r, s) := on_pages (pg_lease id) s in (map_err lease_error r, s)
   else sret tt) ;;
  smodify (fun s => s <| sv_sessions := <[id := session]> s.(sv_sessions) |>) ;;
  sret session.

Definition manager_get (id : SessionId) (s : RuntimeService) : result SessionState RuntimeError :=
  ok_or (s.(sv_sessions) !! id) (RtNotFound "session").

Definition manager_delete (id : SessionId) : Svc unit :=
  do s <- sget;
  if negb (bool_decide (is_Some (s.(sv_sessions) !! id))) then sfail (RtNotFound "session") else
  (if s.(sv_session_workers)
   then smodify (fun s => s <| sv_pages := pg_release_session id s.(sv_pages) |>)
   else sret tt) ;;
  smodify (fun s => s <| sv_sessions := delete id s.(sv_sessions) |>).

Definition manager_list (s : RuntimeService) : list SessionState := (map_to_list s.(sv_sessions)).*2.

Definition manager_add_page (id : SessionId) (page_id : PageId) (now : Time) : Svc unit :=
  do s <- sget;
  do session <- slift (manager_get id s);
  smodify (fun s => s <| sv_sessions :=
    <[id := session <| ses_page_ids := session.(ses_page_ids) ++ [page_id] |> <| ses_last_used_at := now |>]> s.(sv_sessions) |>).

Definition manager_remove_page (id : SessionId) (page_id : PageId) (now : Time) : Svc unit :=
  do s <- sget;
  do session <- slift (manager_get id s);
  smodify (fun s => s <| sv_sessions :=
    <[id := session <| ses_page_ids := filter (fun p => p <> page_id) session.(ses_page_ids) |>
                    <| ses_last_used_at := now |>]> s.(sv_sessions) |>).

(** ** RuntimeService *)

(** A listed profile runs with vision assist. *)
Definition profile_request (s : RuntimeService) (req : CreateSessionRequest) : CreateSessionRequest :=
  if s.(sv_vision_provider_configured) && bool_decide (req.(cs_profile) ∈ s.(sv_vision_assist_profiles))
  then req <| cs_execution_policy := req.(cs_execution_policy) <| xp_vision_assist := true |> |> else req.

Definition service_create_session (req : CreateSessionRequest) (id : SessionId) (now : Time) : Svc SessionState :=
  do s <- sget;
  let req := profile_request s req in
  slift (refuse_if (req.(cs_execution_policy).(xp_vision_assist) && negb s.(sv_vision_provider_configured))
           (RtInvalidRequest "executionPolicy.visionAssist requires a configured vision provider; run `bobby vision connect` and start with managed vision enabled")) ;;
  manager_create req id now.

Definition service_open_page (session_id : SessionId) (now : Time) : Svc PageState :=
  do s <- sget;
  do _ <- slift (manager_get session_id s);
  do page <- on_pages (pg_open_browser session_id);
  manager_add_page page.(ps_session_id) page.(ps_id) now ;;
  sret page.

(** ** Executing a command *)

Definition policy_of (id : SessionId) (s : RuntimeService) : ExecutionPolicy :=
  match s.(sv_sessions) !! id with Some session => session.(ses_execution_policy) | None => ExecutionPolicy_default end.

Definition zigzagzig_of (id : SessionId) (s : RuntimeService) : bool :=
  match s.(sv_sessions) !! id with Some session => session.(ses_zigzagzig) | None => false end.

Definition session_gate (e : CommandEnvelope) (vision_capability_ok one_shot_session_ok : bool) (s : RuntimeService)
    : SessionGate :=
  let policy := policy_of e.(ev_session_id) s in
  MkSessionGate
    (vision_gate e.(ev_command) policy (zigzagzig_of e.(ev_session_id) s) vision_capability_ok one_shot_session_ok)
    policy.(xp_fingerprint) policy.(xp_humanize) s.(sv_collect_training_data)
    (vision_node_selection s.(sv_nodes) policy.(xp_vision_node)).

Definition ladder_ready (e : CommandEnvelope) (s : RuntimeService) : bool :=
  zigzagzig_of e.(ev_session_id) s && bool_decide (is_Some e.(ev_page_id)) && bool_decide (is_Some s.(sv_recovery))
  && s.(sv_workers).

(** What runs the command, with the gate. *)
Definition run_gated (e : CommandEnvelope) (gate : SessionGate) (now : Time) (s : RuntimeService)
    : CommandOutcome * RuntimeService :=
  let ready := ladder_ready e s in
  let s := s <| sv_executions := s.(sv_executions) ++ [(e, gate)] |> in
  if ready then
    let '(r, s) := on_pages (pg_ladder e gate now) s in
    (match r with Ok outcome => outcome | Err error => OutcomeFailed e.(ev_command_id) error [] end, s)
  else
    let '(outcome, w) := pg_execute e gate now s.(sv_pages) in (outcome, s <| sv_pages := w |>).

Definition submit_with_vision_grant (e : CommandEnvelope) (vision_capability_ok one_shot_session_ok : bool) (now : Time)
    (s : RuntimeService) : CommandOutcome * RuntimeService :=
  if is_javascript e.(ev_command) && negb (policy_of e.(ev_session_id) s).(xp_javascript_evaluation)
  then (policy_denied e "javascript evaluation is not permitted for this session", s)
  else if uses_password_manager e.(ev_command) && negb (policy_of e.(ev_session_id) s).(xp_password_manager)
  then (policy_denied e "password manager fill is not permitted for this session; start it with executionPolicy.passwordManager", s)
  else
    let '(outcome, s) := run_gated e (session_gate e vision_capability_ok one_shot_session_ok s) now s in
    match closed_page e with
    | Some (session_id, page_id) =>
        if is_completed outcome then (outcome, (manager_remove_page session_id page_id now s).2) else (outcome, s)
    | None => (outcome, s)
    end.

(** *** With a checkpoint of its own *)

(** Evidence of the commands on the page; a command without any is passed over. *)
Fixpoint collect_evidence (ids : list CommandId) : Svc (list Evidence) :=
  match ids with
  | [] => sret []
  | id :: ids => fun s =>
      let '(r, s) := on_pages (pg_evidence_for_command id) s in
      let items := match r with Ok items => items | Err _ => [] end in
      (do rest <- collect_evidence ids; sret (items ++ rest)) s
  end.

Definition auto_checkpoint (e : CommandEnvelope) (page_id : PageId) (url : string) (checkpoint_id : CheckpointId) (now : Time)
    : WorkflowCheckpoint :=
  MkWorkflowCheckpoint CHECKPOINT_SCHEMA_VERSION checkpoint_id e.(ev_workflow_id) e.(ev_attempt_id) e.(ev_session_id)
    page_id url url None (Some e.(ev_command_id)) Boundary [] [] [] [] [] now.

(** A call of the recovery coordinator. *)
Definition on_recovery {A} (r : RecoveryCoordinator) (m : RecIO A) : ST RuntimeService RecoveryError A := fun s =>
  let '(x, r) := m r in (x, s <| sv_recovery := Some r |>).

Section Errors.
Variable recovery_text : RecoveryError -> string.

Definition submit_with_auto_checkpoint (e : CommandEnvelope) (vision_capability_ok one_shot_session_ok : bool)
    (checkpoint_id : CheckpointId) (nonce : Uuid) (now : Time) : Svc (CommandOutcome * CheckpointId) :=
  do s <- sget;
  do recovery <- slift (ok_or s.(sv_recovery) (RtInternal "recovery is unavailable"));
  do page_id <- slift (ok_or e.(ev_page_id) (RtNotFound "page"));
  do page <- slift (pg_get page_id s.(sv_pages));
  let url := default EmptyString page.(ps_url) in
  do evidence <- collect_evidence (pg_commands_for page_id s.(sv_pages));
  do saved <- (fun s => let '(r, s) := on_recovery recovery
                                         (save_verified (auto_checkpoint e page_id url checkpoint_id now) evidence nonce) s in
                        (map_err (fun error => RtInternal ("checkpoint save failed: " +:+ recovery_text error)) r, s));
  do outcome <- (fun s => let '(outcome, s) := submit_with_vision_grant e vision_capability_ok one_shot_session_ok now s in
                          (Ok outcome, s));
  sret (outcome, saved.(cp_checkpoint_id)).
End Errors.

(** *** Recovery, when it is configured *)

Definition with_recovery {A} (m : RecIO A) : ST RuntimeService RecoveryError A :=
  do s <- sget;
  match s.(sv_recovery) with
  | None => sfail WorkersUnavailable
  | Some r => on_recovery r m
  end.

Definition checkpoint_with_evidence (c : WorkflowCheckpoint) (evidence : list Evidence) (nonce : Uuid)
    : ST RuntimeService RecoveryError WorkflowCheckpoint := with_recovery (save_verified c evidence nonce).

(** Evidence of the named commands; one without evidence fails the whole. *)
Fixpoint resolve_evidence (refs : list CommandId) : ST RuntimeService RecoveryError (list Evidence) :=
  match refs with
  | [] => sret []
  | id :: refs => do items <- on_pages (pg_evidence_for_command id); do rest <- resolve_evidence refs; sret (items ++ rest)
  end.

Definition service_checkpoint (c : WorkflowCheckpoint) (refs : list CommandId) (nonce : Uuid)
    : ST RuntimeService RecoveryError WorkflowCheckpoint :=
  do evidence <- resolve_evidence refs; checkpoint_with_evidence c evidence nonce.

Definition recovery_session (workflow_id : WorkflowId) : ST RuntimeService RecoveryError SessionId :=
  with_recovery (checkpoint_session workflow_id).

Definition recovery_status (workflow_id : WorkflowId)
    : ST RuntimeService RecoveryError (WorkflowId * WorkflowCheckpoint * list RecoveryReceipt) :=
  do c <- with_recovery (load_checkpoint workflow_id);
  sret (workflow_id, c, c.(cp_recovery_receipts)).

Definition service_workflows_for_session (session_id : SessionId) (limit : nat)
    : ST RuntimeService RecoveryError (list WorkflowId) := with_recovery (workflows_for_session session_id limit).

Definition service_recover (workflow_id : WorkflowId) (attempt_id : AttemptId) (now : Time) (nonce : Uuid)
    : ST RuntimeService RecoveryError RecoveryDecision := with_recovery (Recovery.recover workflow_id attempt_id now nonce).

Definition service_recover_for_session (workflow_id : WorkflowId) (session_id : SessionId) (attempt_id : AttemptId)
    (now : Time) (nonce : Uuid) : ST RuntimeService RecoveryError RecoveryDecision :=
  with_recovery (recover_for_session workflow_id session_id attempt_id now nonce).
End Service.
Arguments RuntimeService : clear implicits.
