(* ===== verification/RuntimeServiceThms.v ===== *)
(** * What a session was granted is what its commands run with

    A service is run by a list of calls.  Every execution it handed out carries the gate of
    the policy its session was created with, and a boundary command that brings its own
    checkpoint runs only once that checkpoint is stored. *)

From S2P Require Import Prelude Text SkillTypes Receipt Ledger Json Nodes Commands CommandJournal CommandLog Checkpoint CheckpointStore CheckpointStoreInv CheckpointStoreSteps CheckpointStoreThms Recovery RecoveryThms Executor ExecutorThms RuntimeService.

Section Service.
Context {W : Type} `{Sha2, ReceiptCodec, CheckpointCodec, !CheckpointCodecLaws, BrowserPool, NodeLib, !ServicePages W}.
Variable recovery_text : RecoveryError -> string.
Implicit Types s : RuntimeService W.

(** ** Calls *)

(** [ScPages] is whatever pages and workers do by themselves. *)
Inductive ServiceCall :=
| ScCreate (req : CreateSessionRequest) (id : SessionId) (now : Time)
| ScDelete (id : SessionId)
| ScOpenPage (session_id : SessionId) (now : Time)
| ScSubmit (e : CommandEnvelope) (vision_capability_ok one_shot_session_ok : bool) (now : Time)
| ScAuto (e : CommandEnvelope) (vision_capability_ok one_shot_session_ok : bool) (id : CheckpointId) (nonce : Uuid) (now : Time)
| ScCheckpoint (c : WorkflowCheckpoint) (refs : list CommandId) (nonce : Uuid)
| ScRecover (workflow_id : WorkflowId) (session_id : SessionId) (attempt_id : AttemptId) (now : Time) (nonce : Uuid)
| ScPages (w : W).

Definition service_step (call : ServiceCall) (s : RuntimeService W) : RuntimeService W :=
  match call with
  | ScCreate req id now => (service_create_session req id now s).2
  | ScDelete id => (manager_delete id s).2
  | ScOpenPage session_id now => (service_open_page session_id now s).2
  | ScSubmit e v o now => (submit_with_vision_grant e v o now s).2
  | ScAuto e v o id nonce now => (submit_with_auto_checkpoint recovery_text e v o id nonce now s).2
  | ScCheckpoint c refs nonce => (service_checkpoint c refs nonce s).2
  | ScRecover workflow_id session_id attempt_id now nonce =>
      (service_recover_for_session workflow_id session_id attempt_id now nonce s).2
  | ScPages w => s <| sv_pages := w |>
  end.

Definition service_run (calls : list ServiceCall) (s : RuntimeService W) : RuntimeService W :=
  foldl (fun s call => service_step call s) s calls.

(** ** What a call leaves alone *)

(** What a session may do. *)
Definition session_rights (ses : SessionState) : SessionId * ExecutionPolicy * bool :=
  (ses.(ses_id), ses.(ses_execution_policy), ses.(ses_zigzagzig)).

Record settings_kept (s s' : RuntimeService W) : Prop := MkSettingsKept {
  kept_nodes : s'.(sv_nodes) = s.(sv_nodes);
  kept_vision : s'.(sv_vision_provider_configured) = s.(sv_vision_provider_configured);
  kept_profiles : s'.(sv_vision_assist_profiles) = s.(sv_vision_assist_profiles);
}.

Lemma settings_refl s : settings_kept s s.
Proof. by split. Qed.

Lemma settings_trans s1 s2 s3 : settings_kept s1 s2 -> settings_kept s2 s3 -> settings_kept s1 s3.
Proof. intros [] []. split; congruence. Qed.

(** No execution, and no session gains or loses a right. *)
Record silent (s s' : RuntimeService W) : Prop := MkSilent {
  silent_settings : settings_kept s s';
  silent_rights : session_rights <$> s'.(sv_sessions) = session_rights <$> s.(sv_sessions);
  silent_executions : s'.(sv_executions) = s.(sv_executions);
}.

Lemma silent_refl s : silent s s.
Proof. split; auto using settings_refl. Qed.

Lemma silent_trans s1 s2 s3 : silent s1 s2 -> silent s2 s3 -> silent s1 s3.
Proof. intros [? ? ?] [? ? ?]. split; [by eapply settings_trans|congruence..]. Qed.

#[local] Instance silent_preorder : PreOrder silent.
Proof. split; [exact silent_refl|exact silent_trans]. Qed.

Lemma silent_pages s w : silent s (s <| sv_pages := w |>).
Proof. by repeat split. Qed.

Lemma silent_on_pages {A E} (m : ST W E A) s : silent s (on_pages m s).2.
Proof. unfold on_pages. destruct (m _). by apply silent_pages. Qed.

Lemma silent_on_recovery {A} r (m : RecIO A) s : silent s (on_recovery r m s).2.
Proof. unfold on_recovery. destruct (m r). by repeat split. Qed.

Lemma silent_bind {E A B} (m : ST (RuntimeService W) E A) (f : A -> ST (RuntimeService W) E B) s :
  silent s (m s).2 -> (forall a s, silent s (f a s).2) -> silent s (sbind m f s).2.
Proof.
  intros Hm Hf. unfold sbind. destruct (m s) as [[a|e] s1]; [|done]. cbn in Hm. etransitivity; [exact Hm|apply Hf].
Qed.

Lemma silent_with_recovery {A} (m : RecIO A) s : silent s (with_recovery m s).2.
Proof.
  apply silent_bind; [reflexivity|]. intros st s1. destruct (sv_recovery st); [apply silent_on_recovery|reflexivity].
Qed.

Lemma silent_touch s id ses ses' :
  s.(sv_sessions) !! id = Some ses -> session_rights ses' = session_rights ses ->
  silent s (s <| sv_sessions := <[id := ses']> s.(sv_sessions) |>).
Proof.
  intros E Er. split; [by split| |done]. cbn. rewrite fmap_insert, Er. apply insert_id.
  by rewrite lookup_fmap, E.
Qed.

Lemma silent_add_page id page now s : silent s (manager_add_page id page now s).2.
Proof.
  unfold manager_add_page, manager_get, sbind, sget, slift, smodify. cbn.
  destruct (sv_sessions s !! id) as [ses|] eqn:E; [|reflexivity]. by apply (silent_touch s id ses).
Qed.

Lemma silent_remove_page id page now s : silent s (manager_remove_page id page now s).2.
Proof.
  unfold manager_remove_page, manager_get, sbind, sget, slift, smodify. cbn.
  destruct (sv_sessions s !! id) as [ses|] eqn:E; [|reflexivity]. by apply (silent_touch s id ses).
Qed.

Lemma silent_collect ids s : silent s (collect_evidence ids s).2.
Proof.
  revert s. induction ids as [|id ids IH]; intros s; [reflexivity|]. cbn.
  pose proof (silent_on_pages (pg_evidence_for_command id) s) as Hp.
  destruct (on_pages _ s) as [r s1]. cbn in Hp. etransitivity; [exact Hp|].
  apply silent_bind; [apply IH|reflexivity].
Qed.

Lemma silent_resolve ids s : silent s (resolve_evidence ids s).2.
Proof.
  revert s. induction ids as [|id ids IH]; intros s; [reflexivity|]. cbn.
  apply silent_bind; [apply silent_on_pages|]. intros items s1. apply silent_bind; [apply IH|reflexivity].
Qed.

(** ** Executions *)

(** What a policy allows a command and its gate. *)
Record within (nodes : NodeRegistry) (policy : ExecutionPolicy) (one_shot vision_capability : bool)
    (e : CommandEnvelope) (gate : SessionGate) : Prop := MkWithin {
  within_javascript : is_javascript e.(ev_command) = true -> policy.(xp_javascript_evaluation) = true;
  within_password_manager : uses_password_manager e.(ev_command) = true -> policy.(xp_password_manager) = true;
  within_fingerprint : gate.(sg_fingerprint) = policy.(xp_fingerprint);
  within_humanize : gate.(sg_humanize) = policy.(xp_humanize);
  within_vision : gate.(sg_vision).(vg_session_ok) = true -> policy.(xp_vision_assist) = true \/ one_shot = true;
  within_capability : gate.(sg_vision).(vg_capability_ok) = true -> vision_capability = true;
  within_node : gate.(sg_vision_node) = vision_node_selection nodes policy.(xp_vision_node);
}.

(** The sessions keep their rights, and at most this command is executed, within its policy. *)
Definition executes (e : CommandEnvelope) (one_shot vision_capability : bool) (s s' : RuntimeService W) : Prop :=
  silent s s' \/
  exists gate, within s.(sv_nodes) (policy_of e.(ev_session_id) s) one_shot vision_capability e gate
    /\ silent (s <| sv_executions := s.(sv_executions) ++ [(e, gate)] |>) s'.

Lemma gate_within e v o s :
  is_javascript e.(ev_command) && negb (policy_of e.(ev_session_id) s).(xp_javascript_evaluation) = false ->
  uses_password_manager e.(ev_command) && negb (policy_of e.(ev_session_id) s).(xp_password_manager) = false ->
  within s.(sv_nodes) (policy_of e.(ev_session_id) s) o v e (session_gate e v o s).
Proof.
  intros Hj Hp. split; try done.
  - intros E. rewrite E in Hj. by destruct (xp_javascript_evaluation _).
  - intros E. rewrite E in Hp. by destruct (xp_password_manager _).
  - cbn. unfold vision_gate. destruct (ev_command e); [destruct (zigzagzig_of _ _); cbn; auto; done|].
    cbn. intros [?|?]%orb_true_iff; auto.
  - cbn. unfold vision_gate. by destruct (ev_command e); [destruct (zigzagzig_of _ _)|].
Qed.

Lemma silent_run_gated e gate now s :
  silent (s <| sv_executions := s.(sv_executions) ++ [(e, gate)] |>) (run_gated e gate now s).2.
Proof.
  unfold run_gated. cbv zeta. destruct (ladder_ready e s).
  - pose proof (silent_on_pages (pg_ladder e gate now) (s <| sv_executions := s.(sv_executions) ++ [(e, gate)] |>)) as Hs.
    destruct (on_pages _ _) as [r s1]. exact Hs.
  - destruct (pg_execute _ _ _ _) as [o w]. apply silent_pages.
Qed.

Lemma submit_executes e v o now s : executes e o v s (submit_with_vision_grant e v o now s).2.
Proof.
  unfold submit_with_vision_grant.
  destruct (is_javascript _ && _) eqn:Hj; [by left|]. destruct (uses_password_manager _ && _) eqn:Hp; [by left|].
  right. exists (session_gate e v o s). split; [by apply gate_within|].
  pose proof (silent_run_gated e (session_gate e v o s) now s) as Hr.
  destruct (run_gated e (session_gate e v o s) now s) as [outcome s1]. cbn in Hr.
  destruct (closed_page e) as [[id page]|]; [|exact Hr]. destruct (is_completed outcome); [|exact Hr].
  etransitivity; [exact Hr|apply silent_remove_page].
Qed.

Lemma silent_policy s s' id : silent s s' -> policy_of id s' = policy_of id s.
Proof.
  intros [_ Hr _]. assert ((session_rights <$> s'.(sv_sessions)) !! id = (session_rights <$> s.(sv_sessions)) !! id) as E
    by by rewrite Hr. rewrite !lookup_fmap in E. unfold policy_of.
  destruct (sv_sessions s' !! id), (sv_sessions s !! id); try done. by injection E.
Qed.

Lemma executes_after e v o s s1 s2 : silent s s1 -> executes e o v s1 s2 -> executes e o v s s2.
Proof.
  intros Hs [Hq|(gate & Hw & Hq)]; [left; by etransitivity|]. right. exists gate.
  rewrite (silent_policy s s1 _ Hs), (kept_nodes s s1 (silent_settings s s1 Hs)) in Hw. split; [done|].
  destruct Hs as [Hk Hr He], Hq as [Hk2 Hr2 He2]. cbn in *. split; cbn in *; [|congruence|congruence].
  destruct Hk, Hk2. split; cbn in *; congruence.
Qed.

(** ** A checkpoint of its own *)

(** The call up to the submission: nothing is executed, and what it hands on is the stored
    checkpoint of the command. *)
Definition prepares (e : CommandEnvelope) (s s1 : RuntimeService W) (c : WorkflowCheckpoint) (page_id : PageId) : Prop :=
  silent s s1 /\ e.(ev_page_id) = Some page_id
  /\ exists r, s1.(sv_recovery) = Some r /\ stored r.(rc_store) e.(ev_workflow_id) = Some c
  /\ c.(cp_attempt_id) = e.(ev_attempt_id) /\ c.(cp_session_id) = e.(ev_session_id) /\ c.(cp_page_id) = page_id
  /\ c.(cp_recovery_class) = Boundary /\ c.(cp_boundary_command_id) = Some e.(ev_command_id).

Lemma save_verified_stored c evidence nonce r c' r' :
  save_verified c evidence nonce r = (Ok c', r') ->
  c' = c <| cp_evidence := evidence |> /\ stored r'.(rc_store) c.(cp_workflow_id) = Some c'.
Proof.
  unfold save_verified. cbv zeta. rewrite !sbind_ok. intros (u & r1 & E1 & E2).
  unfold slift in E1. simplify_eq. apply sbind_ok in E2 as (u2 & r2 & E2 & E3). unfold sret in E3. simplify_eq.
  split; [done|]. unfold on_store in E2. destruct (save _ _ _) as [x st] eqn:Es. destruct x as [[]|]; [|done].
  simplify_eq. cbn. exact (saved_stored _ _ _ _ (triple_save _ _ _ _ _ _ (same_refl _) Es)).
Qed.

Lemma auto_checkpoint_run e v o id nonce now s r s' :
  submit_with_auto_checkpoint recovery_text e v o id nonce now s = (r, s') ->
  match r with
  | Err _ => silent s s'
  | Ok (outcome, saved) => exists s1 c page_id, prepares e s s1 c page_id /\ saved = c.(cp_checkpoint_id)
      /\ submit_with_vision_grant e v o now s1 = (outcome, s')
  end.
Proof.
  unfold submit_with_auto_checkpoint, sbind, sget, slift. cbv zeta.
  destruct (sv_recovery s) as [rc|] eqn:Er; cbn [ok_or]; [|by intros [= <- <-]].
  destruct (ev_page_id e) as [page_id|] eqn:Ep; cbn [ok_or]; [|by intros [= <- <-]].
  destruct (pg_get page_id (sv_pages s)) as [page|]; [|by intros [= <- <-]].
  pose proof (silent_collect (pg_commands_for page_id (sv_pages s)) s) as Hc.
  destruct (collect_evidence _ s) as [[evidence|err] s1]; cbn in Hc; [|by intros [= <- <-]].
  set (c := auto_checkpoint e page_id (default EmptyString (ps_url page)) id now).
  pose proof (silent_on_recovery rc (save_verified c evidence nonce) s1) as Hr.
  unfold on_recovery in *. destruct (save_verified c evidence nonce rc) as [[c'|err] r1] eqn:Es; cbn in Hr |- *;
    [|intros [= <- <-]; by etransitivity].
  apply save_verified_stored in Es as [-> Hst].
  destruct (submit_with_vision_grant _ _ _ _ _) as [outcome s2] eqn:Eo. intros [= <- <-].
  eexists _, (c <| cp_evidence := evidence |>), page_id. split_and!; [|reflexivity|exact Eo]. split; [by etransitivity|]. split; [done|].
  exists r1. by split_and!.
Qed.

(** ** Every call *)

(** What one call may do to the rights of sessions and to the executions. *)
Definition call_effect (call : ServiceCall) (s s' : RuntimeService W) : Prop :=
  match call with
  | ScSubmit e v o _ | ScAuto e v o _ _ _ => executes e o v s s'
  | ScCreate req id now => silent s s' \/
      exists s1, silent s s1 /\ s' = s1 <| sv_sessions :=
        <[id := session_of_request (profile_request s req) id now]> s1.(sv_sessions) |>
  | ScDelete id => silent s s' \/ exists s1, silent s s1 /\ s' = s1 <| sv_sessions := delete id s1.(sv_sessions) |>
  | _ => silent s s'
  end.

Lemma create_effect req id now s : call_effect (ScCreate req id now) s (service_create_session req id now s).2.
Proof.
  unfold service_create_session, manager_create, sbind, sget, slift, sret, smodify. cbv zeta.
  destruct (refuse_if _ _); [|by left]. destruct (sv_session_workers s); [|right; by exists s].
  pose proof (silent_on_pages (pg_lease id) s) as Hl.
  destruct (on_pages _ s) as [[[]|err] s1]; cbn in Hl |- *; [right; by exists s1|by left].
Qed.

Lemma delete_effect id s : call_effect (ScDelete id) s (manager_delete id s).2.
Proof.
  unfold manager_delete, sbind, sget, slift, sret, smodify, sfail. case_bool_decide; cbn; [|by left].
  right. destruct (sv_session_workers s); cbn; [|by exists s]. exists (s <| sv_pages := pg_release_session id s.(sv_pages) |>).
  split; [apply silent_pages|reflexivity].
Qed.

Lemma service_call_effect call s : call_effect call s (service_step call s).
Proof.
  destruct call; cbn [service_step call_effect].
  - apply create_effect.
  - apply delete_effect.
  - unfold service_open_page. apply silent_bind; [reflexivity|]. intros st s1. apply silent_bind; [reflexivity|].
    intros ses s2. apply silent_bind; [apply silent_on_pages|]. intros page s3.
    apply silent_bind; [apply silent_add_page|reflexivity].
  - apply submit_executes.
  - destruct (submit_with_auto_checkpoint _ _ _ _ _ _ _ _) as [r s'] eqn:E. apply auto_checkpoint_run in E. cbn.
    destruct r as [[outcome saved]|err]; [|by left]. destruct E as (s1 & c & page_id & (Hs & _) & _ & E).
    eapply executes_after; [exact Hs|]. pose proof (submit_executes e vision_capability_ok one_shot_session_ok now s1) as Hx.
    by rewrite E in Hx.
  - unfold service_checkpoint. apply silent_bind; [apply silent_resolve|]. intros ev s1. apply silent_with_recovery.
  - apply silent_with_recovery.
  - apply silent_pages.
Qed.

(** ** Granted rights *)

(** The policy of a request that created the session. *)
Definition created (s0 : RuntimeService W) (calls : list ServiceCall) (id : SessionId) (policy : ExecutionPolicy) : Prop :=
  exists req now, ScCreate req id now ∈ calls /\ policy = session_policy (profile_request s0 req).

(** What a session may do after the calls: what it was created with, if it exists; the
    default if it does not. *)
Definition granted (s0 : RuntimeService W) (calls : list ServiceCall) (id : SessionId) (policy : ExecutionPolicy) : Prop :=
  match (service_run calls s0).(sv_sessions) !! id with
  | Some _ => created s0 calls id policy
  | None => policy = ExecutionPolicy_default
  end.

(** The call asks for an execution. *)
Definition requests_run (call : ServiceCall) (e : CommandEnvelope) (one_shot vision_capability : bool) : Prop :=
  match call with
  | ScSubmit e' v o _ | ScAuto e' v o _ _ _ => e' = e /\ v = vision_capability /\ o = one_shot
  | _ => False
  end.

(** An execution that one of the calls asked for, within what the session was granted then. *)
Definition justified (s0 : RuntimeService W) (calls : list ServiceCall) (x : CommandEnvelope * SessionGate) : Prop :=
  exists before call after policy one_shot vision_capability,
    calls = before ++ call :: after /\ requests_run call x.1 one_shot vision_capability
    /\ granted s0 before x.1.(ev_session_id) policy
    /\ within s0.(sv_nodes) policy one_shot vision_capability x.1 x.2.

Record accounted (s0 : RuntimeService W) (calls : list ServiceCall) (s : RuntimeService W) : Prop := MkAccounted {
  accounted_settings : settings_kept s0 s;
  accounted_rights : forall id x, (session_rights <$> s.(sv_sessions)) !! id = Some x -> x.1.1 = id /\ created s0 calls id x.1.2;
  accounted_executions : Forall (justified s0 calls) s.(sv_executions);
}.

Lemma created_more s0 calls call id policy : created s0 calls id policy -> created s0 (calls ++ [call]) id policy.
Proof. intros (req & now & Hin & ?). exists req, now. split; [set_solver|done]. Qed.

Lemma justified_more s0 calls call x : justified s0 calls x -> justified s0 (calls ++ [call]) x.
Proof.
  intros (before & c & after & p & o & v & -> & Hrest). exists before, c, (after ++ [call]), p, o, v.
  split; [by rewrite <- app_assoc|done].
Qed.

Lemma accounted_more s0 calls call s : accounted s0 calls s -> accounted s0 (calls ++ [call]) s.
Proof.
  intros [Hs Hr He]. split; [done| |].
  - intros id x E. destruct (Hr id x E) as [? ?]. split; [done|by apply created_more].
  - eapply Forall_impl; [exact He|]. intros x. apply justified_more.
Qed.

Lemma accounted_silent s0 calls s s' : accounted s0 calls s -> silent s s' -> accounted s0 calls s'.
Proof.
  intros [Hs Hr He] [Hk Hr' He']. split; [by eapply settings_trans|by rewrite Hr'|by rewrite He'].
Qed.

Lemma accounted_policy s0 calls id :
  accounted s0 calls (service_run calls s0) -> granted s0 calls id (policy_of id (service_run calls s0)).
Proof.
  intros [_ Hr _]. specialize (Hr id). rewrite lookup_fmap in Hr. unfold granted, policy_of.
  destruct (sv_sessions _ !! id) as [ses|]; [|done]. exact (proj2 (Hr _ eq_refl)).
Qed.

Lemma accounted_executes s0 calls call s' e o v :
  accounted s0 calls (service_run calls s0) -> requests_run call e o v -> executes e o v (service_run calls s0) s' ->
  accounted s0 (calls ++ [call]) s'.
Proof.
  intros Ha Hsub [Hq|(gate & Hw & Hq)]; [by eapply accounted_silent; [apply accounted_more|]|]. eapply accounted_silent; [|exact Hq].
  pose proof (accounted_policy s0 calls (ev_session_id e) Ha) as Hg. apply (accounted_more _ _ call) in Ha as [[Hk1 Hk2 Hk3] Hr He].
  split; [by split|done|]. cbn. apply Forall_app. split; [done|]. apply Forall_singleton.
  rewrite Hk1 in Hw. by exists calls, call, [], (policy_of (ev_session_id e) (service_run calls s0)), o, v.
Qed.

Lemma accounted_step s0 calls call :
  accounted s0 calls (service_run calls s0) -> accounted s0 (calls ++ [call]) (service_step call (service_run calls s0)).
Proof.
  intros Ha0. pose proof (service_call_effect call (service_run calls s0)) as Hc. pose proof (accounted_settings _ _ _ Ha0) as [Hk1 Hk2 Hk3].
  pose proof (accounted_more _ _ call _ Ha0) as Ha.
  destruct call; cbn [call_effect] in Hc; try (by eapply accounted_silent).
  - destruct Hc as [Hc|(s1 & Hs & ->)]; [by eapply accounted_silent|]. apply (accounted_silent _ _ _ s1) in Ha; [|done].
    destruct Ha as [Hk Hr He]. split; [by destruct Hk|cbn|done].
    intros i x. rewrite fmap_insert, lookup_insert. case_decide as Ei; [|apply Hr]. intros [= <-]. subst i. cbn. split; [done|].
    exists req, now. split; [set_solver|]. unfold profile_request. by rewrite Hk2, Hk3.
  - destruct Hc as [Hc|(s1 & Hs & ->)]; [by eapply accounted_silent|]. apply (accounted_silent _ _ _ s1) in Ha; [|done].
    destruct Ha as [Hk Hr He]. split; [by destruct Hk|cbn|done].
    intros i x. rewrite fmap_delete. intros [_ E]%lookup_delete_Some. by apply Hr.
  - by eapply accounted_executes.
  - by eapply accounted_executes.
Qed.

Lemma accounted_run s0 calls :
  s0.(sv_sessions) = ∅ -> s0.(sv_executions) = [] -> accounted s0 calls (service_run calls s0).
Proof.
  intros Es Ee. induction calls as [|call calls IH] using rev_ind.
  - split; [apply settings_refl| |cbn; rewrite Ee; constructor]. intros id x. cbn. by rewrite Es, fmap_empty.
  - unfold service_run. rewrite foldl_app. by apply accounted_step.
Qed.


(** An executor that reads the checkpoints of the service accepts the command as a boundary. *)
Definition boundary_ready (J V : Type) s (e : CommandEnvelope) : Prop :=
  exists rc page_id, s.(sv_recovery) = Some rc /\ e.(ev_page_id) = Some page_id
  /\ forall rt : @PageRuntime J V, rt.(rt_checkpoints) = Some (stored rc.(rc_store)) -> check_boundary rt e page_id = Ok tt.

(** C17: a command that brings its own checkpoint is submitted only after a checkpoint that
    names this command, attempt, session and page has been stored, so that the check of the
    executor accepts it; when the checkpoint cannot be saved nothing is executed. *)
Theorem auto_checkpoint_protects {J V : Type} e v o id nonce now s r s' :
  submit_with_auto_checkpoint recovery_text e v o id nonce now s = (r, s') ->
  match r with
  | Err _ => s'.(sv_executions) = s.(sv_executions)
  | Ok (outcome, _) => exists s1, s1.(sv_executions) = s.(sv_executions) /\ boundary_ready J V s1 e
      /\ submit_with_vision_grant e v o now s1 = (outcome, s')
  end.
Proof.
  intros E. apply auto_checkpoint_run in E. destruct r as [[outcome saved]|err]; [|apply E].
  destruct E as (s1 & c & page_id & (Hs & Hp & rc & Er & Est & Ea & Ess & Epg & Ec & Eb) & _ & E).
  exists s1. split_and!; [apply Hs| |done]. exists rc, page_id. split_and!; [done|done|].
  intros rt Hrt. unfold check_boundary. rewrite Hrt, Est, Ea, Ess, Epg, Ec, Eb, !N.eqb_refl.
  by rewrite !bool_decide_eq_true_2.
Qed.

End Service.

(** ** A service over the executor *)

Module SampleService.
#[export] Existing Instances SampleJson.sha SampleCheckpoints.receipts SampleExecutor.list_log
  SampleExecutor.sample_url SampleExecutor.sample_decimal SampleExecutor.sample_workers SampleRecovery.pool.

Definition Pages : Type := @PageRuntime SampleExecutor.ListJournal unit.

#[export] Instance nodes_lib : NodeLib := {| url_host _ := None; env_var _ := None; http_assist _ _ _ := Ok tt |}.

#[export] Instance pages : ServicePages Pages := {
  pg_lease _ := sret tt;
  pg_release_session _ w := w;
  pg_open_browser _ := sfail (RtInternal "no browser");
  pg_get id w := ok_or (w.(rt_pages) !! id) (RtNotFound "page");
  pg_remove_session_pages _ w := ([], w);
  pg_forget_all _ w := w;
  pg_commands_for _ _ := [];
  pg_evidence_for_command id := evidence_for_command id 5;
  pg_command_session id := command_session id 5;
  pg_execute := execute_with_session_gate;
  pg_ladder e gate now := fun w => let '(o, w) := execute_with_session_gate e gate now w in (Ok o, w);
}.

#[export] Instance codec : CheckpointCodec := SampleCheckpoints.table_codec [SampleExecutor.checkpoint].
#[export] Instance codec_laws : CheckpointCodecLaws.
Proof. split. intros c b _. apply SampleCheckpoints.table_roundtrip. Qed.

Definition text (_ : RecoveryError) : string := "failed".
Definition service : RuntimeService Pages :=
  MkRuntimeService ∅ true (SampleExecutor.runtime []) (Some (MkRecoveryCoordinator SampleCheckpoints.empty_store (Some []))) true
    (MkNodeRegistry ∅ ∅) false [] false [].

Definition request : CreateSessionRequest :=
  MkCreateSessionRequest "default" None (ExecutionPolicy_default <| xp_fingerprint := true |>) false.
Definition sample_calls : list (@ServiceCall Pages) :=
  [ScCreate request 3%N 1; ScAuto (SampleExecutor.click None) false false 8%N 11%N 4].
Definition sample_gate : SessionGate := MkSessionGate (MkVisionGate false false) true false false NotRequested.

Lemma sample_executed : (service_run text sample_calls service).(sv_executions) = [(SampleExecutor.click None, sample_gate)].
Proof. by_eval. Qed.


Definition auto_run := submit_with_auto_checkpoint text (SampleExecutor.click None) false false 8%N 11%N 4 service.

Lemma auto_run_ok : auto_run.1 = Ok (OutcomeCompleted 7%N [EvPageGeneration 4%N 4], 8%N).
Proof. by_eval. Qed.

Lemma auto_checkpoint_protects_witness :
  exists s1 : RuntimeService Pages, boundary_ready SampleExecutor.ListJournal unit s1 (SampleExecutor.click None).
Proof.
  assert (auto_run = (Ok (OutcomeCompleted 7%N [EvPageGeneration 4%N 4], 8%N), auto_run.2)) as E
    by (rewrite <- auto_run_ok; exact (surjective_pairing _)).
  destruct (auto_checkpoint_protects (J := SampleExecutor.ListJournal) (V := unit) text (SampleExecutor.click None) false false 8%N 11%N 4 service _ _ E)
    as (s1 & _ & Hb & _).
  exact (ex_intro _ s1 Hb).
Defined.
End SampleService.
