(* ===== verification/Job.v ===== *)
(** * Jobs

    [crates/task-scheduler/src/job.rs], the configuration and result types of
    [lib.rs], the resolution types of
    [crates/bobby-browser-client/src/job_resolution.rs], the status answer the broker
    builds ([crates/broker/src/routes.rs]) and the check the client runs on it
    ([crates/bobby-browser-client/src/jobs.rs]).

    A [serde_json::Value] is known by its JSON text.  The clock and the generated
    identifier are arguments.  [Uuid::parse_str] belongs to the [uuid] crate and is the
    parameter [uuid_parses]. *)

From S2P Require Import Prelude Text SkillTypes Ledger.
From Stdlib Require Import Ascii.

Definition Value : Type := string.
Definition JobId : Type := string.
Definition PrincipalId : Type := Uuid.

Class UuidLib := {
  uuid_parses : string -> bool;
}.

(** The client's [JobId::parse]. *)
Definition JobId_parse `{UuidLib} (value : string) : option JobId :=
  match strip_prefix "job_" value with
  | Some suffix => if uuid_parses suffix then Some value else None
  | None => None
  end.

Inductive JobPriority := Low | Normal | High | Critical.
Inductive JobStatus :=
| Pending | Running | JobCompleted | JobFailed | JobCancelled | ReconciliationRequired | Resolved.

#[export] Instance JobPriority_eq_dec : EqDecision JobPriority.
Proof. solve_decision. Defined.
#[export] Instance JobPriority_countable : Countable JobPriority.
Proof.
  refine {| encode p := match p with Low => 1 | Normal => 2 | High => 3 | Critical => 4 end%positive;
            decode n := match n with 1 => Some Low | 2 => Some Normal | 3 => Some High
                               | 4 => Some Critical | _ => None end%positive |}.
  by intros [].
Defined.
#[export] Instance JobStatus_eq_dec : EqDecision JobStatus.
Proof. solve_decision. Defined.

(** [impl Display for JobStatus], also [status_wire] of the broker. *)
Definition status_text (s : JobStatus) : string :=
  match s with
  | Pending => "pending"
  | Running => "running"
  | JobCompleted => "completed"
  | JobFailed => "failed"
  | JobCancelled => "cancelled"
  | ReconciliationRequired => "reconciliationRequired"
  | Resolved => "resolved"
  end.

Definition priority_wire (p : JobPriority) : string :=
  match p with
  | Low => "low" | Normal => "normal" | High => "high" | Critical => "critical"
  end.

(** ** Operator resolutions *)

Inductive JobResolutionDecision := EffectObserved | EffectAbsent.
#[export] Instance JobResolutionDecision_eq_dec : EqDecision JobResolutionDecision.
Proof. solve_decision. Defined.

Record JobResolutionRequest := MkJobResolutionRequest {
  jq_decision : JobResolutionDecision;
  jq_evidence_sha256 : string;
}.

Definition JobResolutionRequest_validate (r : JobResolutionRequest) : result unit string :=
  refuse_if (negb (slen r.(jq_evidence_sha256) =? 64)
             || negb (str_forallb resolution_hex r.(jq_evidence_sha256)))
    "evidenceSha256 must be a lowercase SHA-256 digest".

Record JobResolutionReceipt := MkJobResolutionReceipt {
  jr_job_id : string;
  jr_decision : JobResolutionDecision;
  jr_evidence_sha256 : string;
  jr_actor : PrincipalId;
  jr_resolved_at : Time;
  jr_provenance : string;
}.
#[export] Instance JobResolutionReceipt_eq_dec : EqDecision JobResolutionReceipt.
Proof. solve_decision. Defined.

Definition JobResolutionReceipt_validate `{UuidLib} (r : JobResolutionReceipt)
    : result unit string :=
  let? id := ok_or (JobId_parse r.(jr_job_id)) "invalid resolution job identifier" in
  JobResolutionRequest_validate
    (MkJobResolutionRequest r.(jr_decision) r.(jr_evidence_sha256)) ;?
  refuse_if (negb (String.eqb r.(jr_provenance) "operatorAttested"))
    "invalid resolution provenance".

(** ** Jobs *)

Record JobResult := MkJobResult {
  jres_job_id : JobId;
  jres_success : bool;
  jres_output : option Value;
  jres_error : option string;
  jres_completed_at : Time;
}.
#[export] Instance JobResult_eq_dec : EqDecision JobResult.
Proof. solve_decision. Defined.

Record Job := MkJob {
  job_resolution_pending : bool;
  job_resolution : option JobResolutionReceipt;
  job_id : JobId;
  job_name : string;
  job_priority : JobPriority;
  job_status : JobStatus;
  job_payload : Value;
  job_created_at : Time;
  job_started_at : option Time;
  job_completed_at : option Time;
  job_retry_count : Z;
  job_max_retries : Z;
  job_result : option JobResult;
  job_error : option string;
  job_timeout_ms : option Z;
  job_correlation_id : option string;
  job_owner : option PrincipalId;
}.
#[export] Instance eta_Job : Eta Job := fun j =>
  MkJob (job_resolution_pending j) (job_resolution j) (job_id j) (job_name j) (job_priority j)
    (job_status j) (job_payload j) (job_created_at j) (job_started_at j) (job_completed_at j)
    (job_retry_count j) (job_max_retries j) (job_result j) (job_error j) (job_timeout_ms j)
    (job_correlation_id j) (job_owner j).
#[export] Instance Job_eq_dec : EqDecision Job.
Proof. solve_decision. Defined.

Definition Job_new (id : JobId) (now : Time) (name : string) (payload : Value)
    (priority : JobPriority) : Job :=
  MkJob false None id name priority Pending payload now None None 0 3 None None None None None.

Definition with_max_retries (j : Job) (retries : Z) : Job := j <| job_max_retries := retries |>.
Definition with_priority (j : Job) (p : JobPriority) : Job := j <| job_priority := p |>.
Definition with_timeout_ms (j : Job) (ms : Z) : Job := j <| job_timeout_ms := Some ms |>.
Definition with_correlation_id (j : Job) (c : string) : Job := j <| job_correlation_id := Some c |>.
Definition with_owner (j : Job) (o : PrincipalId) : Job := j <| job_owner := Some o |>.

Definition job_start (now : Time) (j : Job) : Job :=
  j <| job_status := Running |> <| job_started_at := Some now |>.

Definition job_complete (now : Time) (r : JobResult) (j : Job) : Job :=
  j <| job_status := JobCompleted |> <| job_completed_at := Some now |>
    <| job_result := Some r |> <| job_error := None |>.

Definition job_fail (now : Time) (error : string) (j : Job) : Job :=
  j <| job_status := JobFailed |> <| job_completed_at := Some now |>
    <| job_error := Some error |>.

Definition job_cancel (now : Time) (j : Job) : Job :=
  j <| job_status := JobCancelled |> <| job_completed_at := Some now |>.

Definition require_reconciliation (reason : string) (j : Job) : Job :=
  j <| job_status := ReconciliationRequired |> <| job_result := None |>
    <| job_completed_at := None |> <| job_error := Some reason |>.

Definition has_valid_resolution `{UuidLib} (j : Job) : bool :=
  match j.(job_resolution) with
  | Some receipt =>
      is_ok (JobResolutionReceipt_validate receipt)
      && bool_decide (j.(job_status) = Resolved)
      && bool_decide (receipt.(jr_job_id) = j.(job_id))
      && bool_decide (j.(job_owner) = Some receipt.(jr_actor))
      && bool_decide (j.(job_completed_at) = Some receipt.(jr_resolved_at))
      && negb (bool_decide (is_Some j.(job_result)))
      && negb (bool_decide (is_Some j.(job_error)))
  | None => negb (bool_decide (j.(job_status) = Resolved))
  end.

Definition can_retry (j : Job) : bool :=
  (j.(job_retry_count) <? j.(job_max_retries))
  && (bool_decide (j.(job_status) = JobFailed) || bool_decide (j.(job_status) = Pending)).

(** A [u32] addition; it leaves the range only when the count is [u32::MAX]. *)
Definition increment_retry (j : Job) : Job := j <| job_retry_count := j.(job_retry_count) + 1 |>.

Definition prepare_retry (j : Job) : Job :=
  increment_retry j <| job_status := Pending |> <| job_started_at := None |>
    <| job_completed_at := None |> <| job_error := None |> <| job_result := None |>.

Record JobConfig := MkJobConfig {
  jc_name : string;
  jc_payload : Value;
  jc_priority : JobPriority;
  jc_max_retries : Z;
  jc_timeout : option Z;
  jc_correlation_id : option string;
  jc_owner : option PrincipalId;
}.

Definition JobConfig_new (name : string) (payload : Value) : JobConfig :=
  MkJobConfig name payload Normal 3 None None None.

(** The capabilities of [crates/bobby-browser-client/src/auth.rs]. *)
Inductive Capability :=
| SessionRead | SessionWrite | PageRead | PageWrite | BrowserMutate | NetworkEgress
| FileUpload | FileDownload | JavascriptEvaluate | IntentExecute | VisionAssist
| ArtifactRead | ContextRead | ArtifactCapture | RecoveryRead | RecoveryWrite
| JobSubmit | JobRead | JobCancel | AuthorityAdmin | BrowserFingerprint | BrowserHumanize.
#[export] Instance Capability_eq_dec : EqDecision Capability.
Proof. solve_decision. Defined.

Inductive JobError :=
| ResolutionUncertain
| Integrity
| Timeout (millis : Z)
| ErrCancelled
| Execution (message : string)
| QueueFull
| ConcurrencyExceeded
| NotFound (id : JobId)
| Store (message : string)
| AdmissionUncertain (id : JobId) (message : string)
| MissingCapability (capability : Capability)
| DrainTimeout.

(** ** Scheduler configuration *)

Record SchedulerConfig := MkSchedulerConfig {
  sc_max_concurrent_jobs : Z;
  sc_max_queue_size : Z;
  sc_max_retries : Z;
  sc_retry_backoff_base_ms : Z;
  sc_retry_backoff_max_ms : Z;
  sc_job_timeout_ms : Z;
  sc_max_output_bytes : Z;
  sc_drain_timeout_ms : Z;
  sc_retained_terminal_jobs : Z;
  sc_journal_path : option string;
}.
#[export] Instance eta_SchedulerConfig : Eta SchedulerConfig := fun c =>
  MkSchedulerConfig (sc_max_concurrent_jobs c) (sc_max_queue_size c) (sc_max_retries c)
    (sc_retry_backoff_base_ms c) (sc_retry_backoff_max_ms c) (sc_job_timeout_ms c)
    (sc_max_output_bytes c) (sc_drain_timeout_ms c) (sc_retained_terminal_jobs c)
    (sc_journal_path c).

Definition SchedulerConfig_default : SchedulerConfig :=
  MkSchedulerConfig 10 1000 3 1000 60000 300000 (64 * 1024) 30000 1024 None.

(** ** The status answer and the client's check *)

(** The client's view of [job_status_response job]; the optional output of a result is
    sent as [null] when it is missing. *)
Record JobStatusResponse := MkJobStatusResponse {
  jsr_resolution : option JobResolutionReceipt;
  jsr_id : string;
  jsr_name : string;
  jsr_priority : string;
  jsr_status : JobStatus;
  jsr_payload : Value;
  jsr_created_at : Time;
  jsr_started_at : option Time;
  jsr_completed_at : option Time;
  jsr_retry_count : Z;
  jsr_max_retries : Z;
  jsr_result : option JobResult;
  jsr_error : option string;
  jsr_timeout_ms : option Z;
  jsr_correlation_id : option string;
}.

Definition null_output (r : JobResult) : JobResult :=
  MkJobResult (jres_job_id r) (jres_success r) (Some (default "null" (jres_output r)))
    (jres_error r) (jres_completed_at r).

Definition job_status_response (j : Job) : JobStatusResponse :=
  MkJobStatusResponse j.(job_resolution) j.(job_id) j.(job_name) (priority_wire j.(job_priority))
    j.(job_status) j.(job_payload) j.(job_created_at) j.(job_started_at) j.(job_completed_at)
    j.(job_retry_count) j.(job_max_retries) (null_output <$> j.(job_result)) j.(job_error)
    j.(job_timeout_ms) j.(job_correlation_id).

(** [str::trim().is_empty()]: only Unicode white space, on UTF-8 bytes. *)
Fixpoint is_blank (s : string) : bool :=
  match s with
  | EmptyString => true
  | String a s' =>
      if in_range 9 13 a || (code a =? 32) then is_blank s' else
      match s' with
      | EmptyString => false
      | String b s'' =>
          if (code a =? 194) && ((code b =? 133) || (code b =? 160)) then is_blank s'' else
          match s'' with
          | EmptyString => false
          | String c s''' =>
              if ((code a =? 225) && (code b =? 154) && (code c =? 128))
                 || ((code a =? 226) && (code b =? 128)
                     && (in_range 128 138 c || (code c =? 168) || (code c =? 169)
                         || (code c =? 175)))
                 || ((code a =? 226) && (code b =? 129) && (code c =? 159))
                 || ((code a =? 227) && (code b =? 128) && (code c =? 128))
              then is_blank s''' else false
          end
      end
  end.

Definition nonempty (o : option string) : bool :=
  match o with Some e => negb (String.eqb e "") | None => false end.

Definition none_is {A} (o : option A) : bool := match o with None => true | Some _ => false end.
Definition some_is {A} (o : option A) : bool := match o with None => false | Some _ => true end.

(** The lifecycle table of [JobStatusResponse::validate]. *)
Definition lifecycle_ok (r : JobStatusResponse) : bool :=
  match r.(jsr_status) with
  | ReconciliationRequired =>
      none_is r.(jsr_completed_at) && none_is r.(jsr_result) && nonempty r.(jsr_error)
  | Resolved =>
      some_is r.(jsr_completed_at) && none_is r.(jsr_result) && none_is r.(jsr_error)
      && some_is r.(jsr_resolution)
  | Pending =>
      none_is r.(jsr_started_at) && none_is r.(jsr_completed_at) && none_is r.(jsr_result)
      && none_is r.(jsr_error)
  | Running =>
      some_is r.(jsr_started_at) && none_is r.(jsr_completed_at) && none_is r.(jsr_result)
      && none_is r.(jsr_error)
  | JobCompleted =>
      some_is r.(jsr_started_at) && some_is r.(jsr_completed_at)
      && match r.(jsr_result) with
         | Some res => res.(jres_success) && none_is res.(jres_error)
         | None => false
         end
      && none_is r.(jsr_error)
  | JobFailed =>
      some_is r.(jsr_started_at) && some_is r.(jsr_completed_at)
      && match r.(jsr_result) with
         | Some res => negb res.(jres_success) && nonempty res.(jres_error)
         | None => true
         end
      && nonempty r.(jsr_error)
  | JobCancelled =>
      some_is r.(jsr_completed_at) && none_is r.(jsr_result) && none_is r.(jsr_error)
  end.

Definition JobStatusResponse_validate `{UuidLib} (r : JobStatusResponse) : result unit string :=
  refuse_if (is_blank r.(jsr_name) || (r.(jsr_max_retries) <? r.(jsr_retry_count)))
    "job status response violates bounded fields" ;?
  refuse_if match r.(jsr_result) with
            | Some res => negb (String.eqb res.(jres_job_id) r.(jsr_id))
            | None => false
            end "job result identifier does not match its status" ;?
  match r.(jsr_resolution) with
  | Some receipt =>
      JobResolutionReceipt_validate receipt ;?
      refuse_if (negb (bool_decide (r.(jsr_status) = Resolved))
                 || negb (String.eqb receipt.(jr_job_id) r.(jsr_id))
                 || negb (bool_decide (r.(jsr_completed_at) = Some receipt.(jr_resolved_at))))
        "resolution receipt does not match its job status"
  | None => Ok tt
  end ;?
  refuse_if (negb (lifecycle_ok r)) "job status response violates lifecycle invariants".

Definition SubmitJobRequest_validate (name : string) : result unit string :=
  refuse_if (is_blank name) "job name must not be empty".
