(* ===== verification/JobQueue.v ===== *)
(** * The priority queue of jobs

    [crates/task-scheduler/src/queue.rs].  The [BTreeMap<JobPriority, VecDeque<Job>>] is a
    [gmap] visited in the order of the priorities.  [calculate_backoff] draws a random
    number and computes in floating point; its result is the parameter [backoff]. *)

From S2P Require Import Prelude Text SkillTypes Ledger Job.

(** [#[derive(Ord)]]: the order of declaration. *)
Definition priorities : list JobPriority := [Low; Normal; High; Critical].

Record RetryConfig := MkRetryConfig {
  rt_max_retries : Z;
  rt_backoff_base_ms : Z;
  rt_backoff_max_ms : Z;
}.
Definition RetryConfig_default : RetryConfig := MkRetryConfig 3 1000 60000.

(** [RetryConfig::calculate_backoff]: a duration in milliseconds. *)
Class Backoff := {
  calculate_backoff : RetryConfig -> Z -> Z;
}.

Record JobQueue := MkJobQueue {
  q_jobs : gmap JobPriority (list Job);
  q_max_size : Z;
  q_retry_config : RetryConfig;
}.
#[export] Instance eta_JobQueue : Eta JobQueue := fun q =>
  MkJobQueue (q_jobs q) (q_max_size q) (q_retry_config q).

Definition JobQueue_new (max_size : Z) : JobQueue := MkJobQueue ∅ max_size RetryConfig_default.

Definition with_retry_config (q : JobQueue) (c : RetryConfig) : JobQueue :=
  q <| q_retry_config := c |>.

(** [self.jobs.iter()]. *)
Definition q_entries (q : JobQueue) : list (JobPriority * list Job) :=
  omap (fun p => (fun l => (p, l)) <$> q.(q_jobs) !! p) priorities.

Definition q_flatten (q : JobQueue) : list Job := concat (q_entries q).*2.

Definition q_len (q : JobQueue) : Z := Z.of_nat (sum_list (length <$> (q_entries q).*2)).
Definition q_is_empty (q : JobQueue) : bool := bool_decide (q.(q_jobs) = ∅).

Definition q_prepare (id : JobId) (now : Time) (config : JobConfig) (q : JobQueue)
    : result Job JobError :=
  refuse_if (q.(q_max_size) <=? q_len q) QueueFull ;?
  let job := with_max_retries
               (Job_new id now config.(jc_name) config.(jc_payload) config.(jc_priority))
               config.(jc_max_retries) in
  let job := match config.(jc_timeout) with
             | Some timeout => job <| job_timeout_ms := Some timeout |>
             | None => job
             end in
  let job := match config.(jc_correlation_id) with
             | Some c => job <| job_correlation_id := Some c |>
             | None => job
             end in
  Ok (job <| job_owner := config.(jc_owner) |>).

Definition q_requeue (job : Job) (q : JobQueue) : result JobQueue JobError :=
  refuse_if (q.(q_max_size) <=? q_len q) QueueFull ;?
  let deque := default [] (q.(q_jobs) !! job.(job_priority)) in
  Ok (q <| q_jobs := <[job.(job_priority) := deque ++ [job]]> q.(q_jobs) |>).

Definition q_submit (id : JobId) (now : Time) (config : JobConfig) (q : JobQueue)
    : result (Job * JobQueue) JobError :=
  let? job := q_prepare id now config q in
  let? q' := q_requeue job q in
  Ok (job, q').

(** [iter().find_map(|(priority, jobs)| jobs.iter().position(p))]. *)
Fixpoint find_position (p : Job -> bool) (entries : list (JobPriority * list Job))
    : option (JobPriority * nat * Job) :=
  match entries with
  | [] => None
  | (priority, jobs) :: rest =>
      match list_find (fun j => p j = true) jobs with
      | Some (index, job) => Some (priority, index, job)
      | None => find_position p rest
      end
  end.

(** [jobs.remove(index)] on the deque of a priority; an empty deque is dropped. *)
Definition q_remove (priority : JobPriority) (index : nat) (q : JobQueue) : JobQueue :=
  let jobs := delete index (default [] (q.(q_jobs) !! priority)) in
  q <| q_jobs := match jobs with
                 | [] => delete priority q.(q_jobs)
                 | _ => <[priority := jobs]> q.(q_jobs)
                 end |>.

Definition is_pending (j : Job) : bool := bool_decide (j.(job_status) = Pending).

Definition next_job (now : Time) (q : JobQueue) : option (Job * JobQueue) :=
  match find_position is_pending (reverse (q_entries q)) with
  | Some (priority, index, job) => Some (job_start now job, q_remove priority index q)
  | None => None
  end.

Definition is_id (id : JobId) (j : Job) : bool := bool_decide (j.(job_id) = id).

(** Writes through [values_mut().flatten().find(..)]. *)
Definition q_replace (priority : JobPriority) (index : nat) (job : Job) (q : JobQueue) : JobQueue :=
  q <| q_jobs := alter (fun jobs => <[index := job]> jobs) priority q.(q_jobs) |>.

Definition q_complete_job (now : Time) (id : JobId) (r : JobResult) (q : JobQueue)
    : result JobQueue JobError :=
  match find_position (is_id id) (q_entries q) with
  | Some (priority, index, job) => Ok (q_replace priority index (job_complete now r job) q)
  | None => Err (NotFound id)
  end.

Definition q_retry_job `{Backoff} (now : Time) (id : JobId) (q : JobQueue)
    : result Z JobError * JobQueue :=
  match find_position (is_id id) (q_entries q) with
  | Some (priority, index, job) =>
      if can_retry job then
        let job' := prepare_retry job in
        (Ok (calculate_backoff q.(q_retry_config) job'.(job_retry_count)),
         q_replace priority index job' q)
      else
        (Err (Execution "max retries exceeded"),
         q_replace priority index (job_fail now "max retries exceeded" job) q)
  | None => (Err (NotFound id), q)
  end.

Definition finished_error (id : JobId) (status : JobStatus) : JobError :=
  Execution ("job " +:+ id +:+ " already finished with status " +:+ status_text status).

Definition q_cancel_job (now : Time) (id : JobId) (q : JobQueue) : result Job JobError * JobQueue :=
  match find_position (is_id id) (q_entries q) with
  | Some (priority, index, job) =>
      match job.(job_status) with
      | JobCompleted | JobFailed | JobCancelled | ReconciliationRequired | Resolved =>
          (Err (finished_error id job.(job_status)), q)
      | Pending | Running => (Ok (job_cancel now job), q_remove priority index q)
      end
  | None => (Err (NotFound id), q)
  end.

Definition q_pending_count (q : JobQueue) : Z :=
  Z.of_nat (length (filter (fun j => j.(job_status) = Pending) (q_flatten q))).

Record QueueStats := MkQueueStats {
  qs_total : Z; qs_pending : Z; qs_running : Z; qs_completed : Z; qs_failed : Z; qs_cancelled : Z;
}.

Definition count_status (s : JobStatus) (l : list Job) : Z :=
  Z.of_nat (length (filter (fun j => j.(job_status) = s) l)).

Definition q_stats (q : JobQueue) : QueueStats :=
  let l := q_flatten q in
  MkQueueStats (q_len q) (count_status Pending l) (count_status Running l)
    (count_status JobCompleted l) (count_status JobFailed l) (count_status JobCancelled l).

(** ** The queue as one list, in the order it is served *)

Definition deque (q : JobQueue) (p : JobPriority) : list Job := default [] (q.(q_jobs) !! p).

Definition q_view (q : JobQueue) : list Job :=
  deque q Critical ++ deque q High ++ deque q Normal ++ deque q Low.

(** Every job waits under its own priority and no deque is empty. *)
Definition queue_wf (q : JobQueue) : Prop :=
  map_Forall (fun p l => l <> [] /\ Forall (fun j => j.(job_priority) = p) l) q.(q_jobs).

Definition rank (p : JobPriority) : nat :=
  match p with Low => 0 | Normal => 1 | High => 2 | Critical => 3 end.

(** The served order of a list: a new job goes behind every job of at least its
    priority. *)
Fixpoint enqueue (j : Job) (l : list Job) : list Job :=
  match l with
  | [] => [j]
  | x :: l' => if (rank j.(job_priority) <=? rank x.(job_priority))%nat
               then x :: enqueue j l' else j :: x :: l'
  end.

(** The first job that passes, and the list without it. *)
Fixpoint take_first (p : Job -> bool) (l : list Job) : option (Job * list Job) :=
  match l with
  | [] => None
  | x :: l' => if p x then Some (x, l') else
               match take_first p l' with
               | Some (y, rest) => Some (y, x :: rest)
               | None => None
               end
  end.

(** ** Facts *)

Lemma take_first_app p l1 l2 :
  take_first p (l1 ++ l2) =
  match take_first p l1 with
  | Some (y, rest) => Some (y, rest ++ l2)
  | None => match take_first p l2 with
            | Some (y, rest) => Some (y, l1 ++ rest)
            | None => None
            end
  end.
Proof.
  induction l1 as [|x l1 IH]; simpl; [by destruct (take_first p l2) as [[]|]|].
  destruct (p x); [done|]. rewrite IH.
  destruct (take_first p l1) as [[]|]; [done|]. by destruct (take_first p l2) as [[]|].
Qed.

Lemma take_first_find p l :
  take_first p l = (fun x => (x.2, delete x.1 l)) <$> list_find (fun j => p j = true) l.
Proof.
  induction l as [|x l IH]; simpl; [done|]. rewrite IH.
  destruct (p x); simpl; [done|].
  by destruct (list_find (fun j => p j = true) l) as [[]|].
Qed.

(** The entries of a list of priorities, read through [deque]. *)
Lemma find_position_omap p q ps :
  find_position p (omap (fun pr => (fun l => (pr, l)) <$> q.(q_jobs) !! pr) ps) =
  (fix go ps := match ps with
                | [] => None
                | pr :: ps' => match list_find (fun j => p j = true) (deque q pr) with
                               | Some (i, j) => Some (pr, i, j)
                               | None => go ps'
                               end
                end) ps.
Proof.
  unfold deque. induction ps as [|pr ps IH]; simpl; [done|].
  destruct (q_jobs q !! pr); simpl; [|exact IH].
  destruct (list_find _ l) as [[]|]; [done|exact IH].
Qed.

Lemma q_entries_reverse q :
  reverse (q_entries q) =
  omap (fun pr => (fun l => (pr, l)) <$> q.(q_jobs) !! pr) [Critical; High; Normal; Low].
Proof.
  unfold q_entries, priorities. simpl.
  by destruct (q_jobs q !! Low), (q_jobs q !! Normal), (q_jobs q !! High), (q_jobs q !! Critical).
Qed.

Lemma q_len_view q : q_len q = Z.of_nat (length (q_view q)).
Proof.
  unfold q_len, q_view, deque, q_entries, priorities. simpl.
  destruct (q_jobs q !! Low), (q_jobs q !! Normal), (q_jobs q !! High), (q_jobs q !! Critical);
    simpl; rewrite ?length_app; simpl; rewrite ?length_app; simpl; lia.
Qed.

Lemma q_flatten_view q : q_flatten q ≡ₚ q_view q.
Proof.
  unfold q_flatten, q_view, deque, q_entries, priorities. simpl.
  destruct (q_jobs q !! Low), (q_jobs q !! Normal), (q_jobs q !! High), (q_jobs q !! Critical);
    simpl; rewrite ?app_nil_r; solve_Permutation.
Qed.

Lemma deque_remove q pr i pr' :
  deque (q_remove pr i q) pr' =
  if decide (pr' = pr) then delete i (deque q pr) else deque q pr'.
Proof.
  unfold deque, q_remove. cbn [set_field q_jobs].
  destruct (delete i (default [] (q_jobs q !! pr))) as [|x l] eqn:E; case_decide as Hd; subst.
  - by rewrite lookup_delete_eq.
  - by rewrite lookup_delete_ne by congruence.
  - by rewrite lookup_insert_eq.
  - by rewrite lookup_insert_ne by congruence.
Qed.

Lemma queue_wf_remove q pr i : queue_wf q -> queue_wf (q_remove pr i q).
Proof.
  intros Hw. unfold queue_wf, q_remove. cbn [set_field q_jobs].
  destruct (delete i (default [] (q_jobs q !! pr))) as [|x l] eqn:E.
  - by apply map_Forall_delete.
  - apply map_Forall_insert_2; [|done]. split; [done|]. rewrite <-E.
    destruct (q_jobs q !! pr) as [d|] eqn:Ed; simpl in *; [|by destruct i].
    apply Forall_delete. by apply (Hw _ _ Ed).
Qed.

(** What [find_position] returns is in its deque. *)
Lemma find_position_deque p q ps pr i j :
  find_position p (omap (fun pr => (fun l => (pr, l)) <$> q.(q_jobs) !! pr) ps) = Some (pr, i, j) ->
  deque q pr !! i = Some j /\ p j = true.
Proof.
  rewrite find_position_omap. induction ps as [|pr' ps IH]; [done|].
  destruct (list_find _ (deque q pr')) as [[i' j']|] eqn:E; [|exact IH].
  intros [= <- <- <-]. apply list_find_Some in E as (? & ? & _). done.
Qed.

Lemma delete_split {A} (l : list A) i x :
  l !! i = Some x -> exists l1 l2, l = l1 ++ x :: l2 /\ delete i l = l1 ++ l2.
Proof.
  intros Hi. exists (take i l), (drop (S i) l).
  split; [symmetry; by apply take_drop_middle|apply delete_take_drop].
Qed.

(** Removing a job from its deque removes that occurrence from the served order. *)
Lemma q_remove_view q pr i j :
  deque q pr !! i = Some j ->
  exists l1 l2, q_view q = l1 ++ j :: l2 /\ q_view (q_remove pr i q) = l1 ++ l2.
Proof.
  intros (l1 & l2 & E & Ed)%delete_split. unfold q_view. rewrite !deque_remove.
  destruct pr; repeat (case_decide; [|]); try congruence; rewrite ?Ed, ?E; rewrite <-?app_assoc.
  - exists (deque q Critical ++ deque q High ++ deque q Normal ++ l1), l2. by rewrite <-!app_assoc.
  - exists (deque q Critical ++ deque q High ++ l1), (l2 ++ deque q Low). by rewrite <-!app_assoc.
  - exists (deque q Critical ++ l1), (l2 ++ deque q Normal ++ deque q Low). by rewrite <-!app_assoc.
  - exists l1, (l2 ++ deque q High ++ deque q Normal ++ deque q Low). done.
Qed.

Lemma enqueue_behind j l1 l2 :
  Forall (fun x => (rank j.(job_priority) <= rank x.(job_priority))%nat) l1 ->
  enqueue j (l1 ++ l2) = l1 ++ enqueue j l2.
Proof.
  induction 1 as [|x l1 Hx _ IH]; simpl; [done|].
  apply Nat.leb_le in Hx. by rewrite Hx, IH.
Qed.

Lemma enqueue_before j l :
  Forall (fun x => (rank x.(job_priority) < rank j.(job_priority))%nat) l -> enqueue j l = j :: l.
Proof.
  destruct 1 as [|x l Hx _]; simpl; [done|]. apply Nat.leb_gt in Hx. by rewrite Hx.
Qed.

Lemma deque_priority q pr : queue_wf q -> Forall (fun j => j.(job_priority) = pr) (deque q pr).
Proof.
  intros Hw. unfold deque. destruct (q_jobs q !! pr) as [l|] eqn:E; simpl; [|constructor].
  by apply (Hw _ _ E).
Qed.

Lemma q_requeue_ok j q q' :
  q_requeue j q = Ok q' <->
  Z.of_nat (length (q_view q)) < q.(q_max_size)
  /\ q' = q <| q_jobs := <[job_priority j := deque q (job_priority j) ++ [j]]> q.(q_jobs) |>.
Proof.
  unfold q_requeue. rewrite rbind_unit_ok, refuse_if_ok, q_len_view, Z.leb_gt. unfold deque.
  naive_solver.
Qed.

Lemma deque_insert q pr l pr' :
  deque (q <| q_jobs := <[pr := l]> q.(q_jobs) |>) pr' = if decide (pr' = pr) then l else deque q pr'.
Proof.
  unfold deque. cbn [set_field q_jobs]. case_decide as Hd; subst;
    [by rewrite lookup_insert_eq|by rewrite lookup_insert_ne by congruence].
Qed.

Lemma requeue_view j q q' :
  queue_wf q -> q_requeue j q = Ok q' -> q_view q' = enqueue j (q_view q) /\ queue_wf q'.
Proof.
  intros Hw [_ ->]%q_requeue_ok. split.
  - pose proof (fun pr => deque_priority q pr Hw) as Hd.
    assert (Hge : forall pr, (rank (job_priority j) <= rank pr)%nat ->
      Forall (fun x => (rank j.(job_priority) <= rank x.(job_priority))%nat) (deque q pr)).
    { intros pr Hr. eapply Forall_impl; [apply Hd|]. by intros x ->. }
    assert (Hlt : forall pr, (rank pr < rank (job_priority j))%nat ->
      Forall (fun x => (rank x.(job_priority) < rank j.(job_priority))%nat) (deque q pr)).
    { intros pr Hr. eapply Forall_impl; [apply Hd|]. by intros x ->. }
    assert (Hc : job_priority j = Low \/ job_priority j = Normal \/ job_priority j = High
                 \/ job_priority j = Critical) by (destruct (job_priority j); auto).
    unfold q_view. rewrite !deque_insert.
    destruct Hc as [Ep|[Ep|[Ep|Ep]]];
      repeat (case_decide; [|]); try congruence; rewrite ?Ep, <-?app_assoc;
      rewrite !enqueue_behind by (apply Hge; rewrite Ep; simpl; lia); repeat f_equal.
    + rewrite <-(app_nil_r (deque q Low)) at 2.
      by rewrite enqueue_behind by (apply Hge; rewrite Ep; simpl; lia).
    + rewrite enqueue_before; [done|]. apply Hlt. rewrite Ep. simpl; lia.
    + rewrite enqueue_before; [done|].
      apply Forall_app; split; apply Hlt; rewrite Ep; simpl; lia.
    + rewrite enqueue_before; [done|].
      rewrite !Forall_app; split_and!; apply Hlt; rewrite Ep; simpl; lia.
  - unfold queue_wf. cbn [set_field q_jobs]. apply map_Forall_insert_2; [|done].
    split; [by destruct (deque q (job_priority j))|]. apply Forall_app. split; [|by repeat constructor].
    by apply deque_priority.
Qed.

Lemma next_job_take now q :
  match take_first is_pending (q_view q) with
  | None => next_job now q = None
  | Some (j, rest) => exists q', next_job now q = Some (job_start now j, q')
      /\ q_view q' = rest /\ (queue_wf q -> queue_wf q') /\ q'.(q_max_size) = q.(q_max_size)
      /\ q'.(q_retry_config) = q.(q_retry_config)
  end.
Proof.
  unfold next_job. rewrite q_entries_reverse, find_position_omap.
  unfold q_view at 1. rewrite !take_first_app, !take_first_find.
  assert (Hrem : forall pr i j rest, deque q pr !! i = Some j ->
    q_view (q_remove pr i q) = rest ->
    exists q', Some (job_start now j, q_remove pr i q) = Some (job_start now j, q')
      /\ q_view q' = rest /\ (queue_wf q -> queue_wf q') /\ q'.(q_max_size) = q.(q_max_size)
      /\ q'.(q_retry_config) = q.(q_retry_config)).
  { intros pr i j rest Hl <-. eexists. split_and!; eauto using queue_wf_remove. }
  assert (Hf : forall pr i j, list_find (fun j => is_pending j = true) (deque q pr) = Some (i, j) ->
    deque q pr !! i = Some j) by (intros ??? (? & _)%list_find_Some; done).
  destruct (list_find _ (deque q Critical)) as [[i j]|] eqn:E1; simpl.
  { eapply Hrem; [eauto|]. unfold q_view. rewrite !deque_remove. by repeat (case_decide; [|]). }
  destruct (list_find _ (deque q High)) as [[i j]|] eqn:E2; simpl.
  { eapply Hrem; [eauto|]. unfold q_view. rewrite !deque_remove. by repeat (case_decide; [|]). }
  destruct (list_find _ (deque q Normal)) as [[i j]|] eqn:E3; simpl.
  { eapply Hrem; [eauto|]. unfold q_view. rewrite !deque_remove. by repeat (case_decide; [|]). }
  destruct (list_find _ (deque q Low)) as [[i j]|] eqn:E4; simpl; [|done].
  eapply Hrem; [eauto|]. unfold q_view. rewrite !deque_remove. by repeat (case_decide; [|]).
Qed.

Lemma take_first_spec p l x rest :
  take_first p l = Some (x, rest) ->
  exists l1 l2, l = l1 ++ x :: l2 /\ rest = l1 ++ l2 /\ p x = true
    /\ Forall (fun y => p y = false) l1.
Proof.
  revert x rest. induction l as [|y l IH]; intros x rest; simpl; [done|].
  destruct (p y) eqn:Ey; [intros [= -> ->]; exists [], rest; auto|].
  destruct (take_first p l) as [[z r]|]; [|done]. intros [= <- <-].
  destruct (IH _ _ eq_refl) as (l1 & l2 & -> & -> & Hp & Hl).
  exists (y :: l1), l2. auto.
Qed.

(** The served order goes from the highest priority down. *)
Lemma q_view_sorted q :
  queue_wf q ->
  StronglySorted (fun a b => (rank b.(job_priority) <= rank a.(job_priority))%nat) (q_view q).
Proof.
  intros Hw. pose proof (fun pr => deque_priority q pr Hw) as Hd.
  assert (Hs : forall pr,
    StronglySorted (fun a b => (rank b.(job_priority) <= rank a.(job_priority))%nat) (deque q pr)).
  { intros pr. induction (Hd pr) as [|x l Hx Hl IH]; constructor; [done|].
    eapply Forall_impl; [exact Hl|]. intros y Hy. simpl. by rewrite Hx, Hy. }
  assert (Hx : forall pr x, x ∈ deque q pr -> job_priority x = pr).
  { intros pr x Hin. specialize (Hd pr). by eapply Forall_forall in Hd. }
  unfold q_view. repeat (apply StronglySorted_app_2; [|done|]); [..|done];
    intros x y Hx1 Hy1; apply Hx in Hx1; rewrite ?elem_of_app in Hy1;
    destruct_or? Hy1; apply Hx in Hy1; rewrite Hx1, Hy1; simpl; lia.
Qed.

(** [next_job] hands out the pending job that comes first in the served order, with
    its start recorded, and removes exactly that job: no pending job of a higher priority
    and no older pending job of the same priority is passed over. *)
Theorem next_job_serves_highest_fifo now q j' q' :
  queue_wf q -> next_job now q = Some (j', q') ->
  exists j l1 l2, q_view q = l1 ++ j :: l2 /\ q_view q' = l1 ++ l2 /\ j' = job_start now j
    /\ j.(job_status) = Pending
    /\ Forall (fun x => x.(job_status) <> Pending) l1
    /\ Forall (fun x => (rank x.(job_priority) <= rank j.(job_priority))%nat) l2
    /\ queue_wf q'.
Proof.
  intros Hw Hn. pose proof (next_job_take now q) as Ht.
  destruct (take_first is_pending (q_view q)) as [[j rest]|] eqn:E; [|congruence].
  destruct Ht as (q1 & Heq & <- & Hw1 & _). rewrite Hn in Heq. injection Heq as -> ->.
  apply take_first_spec in E as (l1 & l2 & Hv & Hr & Hp & Hl). exists j, l1, l2.
  pose proof (q_view_sorted q Hw) as Hs. rewrite Hv in Hs.
  apply StronglySorted_app_1_r in Hs. inversion Hs as [|? ? _ Hle]; subst.
  split_and!; auto.
  - by apply bool_decide_eq_true in Hp.
  - eapply Forall_impl; [exact Hl|]. intros x Hx. by apply bool_decide_eq_false in Hx.
Qed.

(** ** Bounds *)

Section QueueSteps.
Context `{Backoff}.

Inductive queue_step (q : JobQueue) : JobQueue -> Prop :=
| qs_submit id now c j q' : q_submit id now c q = Ok (j, q') -> queue_step q q'
| qs_requeue j q' : q_requeue j q = Ok q' -> queue_step q q'
| qs_next now j q' : next_job now q = Some (j, q') -> queue_step q q'
| qs_complete now id r q' : q_complete_job now id r q = Ok q' -> queue_step q q'
| qs_retry now id r q' : q_retry_job now id q = (r, q') -> queue_step q q'
| qs_cancel now id r q' : q_cancel_job now id q = (r, q') -> queue_step q q'.

Definition queue_inv (q : JobQueue) : Prop :=
  queue_wf q /\ Z.of_nat (length (q_view q)) <= q.(q_max_size).

Lemma enqueue_length j l : length (enqueue j l) = S (length l).
Proof. induction l as [|x l IH]; simpl; [done|]. case_match; simpl; by rewrite ?IH. Qed.

Lemma requeue_inv j q q' : q_requeue j q = Ok q' -> queue_inv q -> queue_inv q'.
Proof.
  intros Hr [Hw _]. destruct (requeue_view _ _ _ Hw Hr) as [Hv Hw'].
  split; [done|]. rewrite Hv, enqueue_length. apply q_requeue_ok in Hr as [Hl ->].
  cbn [set_field q_max_size]. lia.
Qed.

Lemma remove_inv q pr i j : deque q pr !! i = Some j -> queue_inv q -> queue_inv (q_remove pr i q).
Proof.
  intros Hj [Hw Hl]. split; [by apply queue_wf_remove|].
  destruct (q_remove_view _ _ _ _ Hj) as (l1 & l2 & Hv & ->). rewrite Hv in Hl.
  cbn [q_remove set_field q_max_size]. rewrite length_app in *. simpl in Hl. lia.
Qed.

Lemma deque_replace q pr i j pr' :
  deque (q_replace pr i j q) pr' =
  if decide (pr' = pr) then <[i := j]> (deque q pr) else deque q pr'.
Proof.
  unfold deque, q_replace. cbn [set_field q_jobs]. case_decide as Hd; subst.
  - rewrite lookup_alter_eq. by destruct (q_jobs q !! pr).
  - by rewrite lookup_alter_ne by congruence.
Qed.

Lemma replace_inv q pr i j j' :
  deque q pr !! i = Some j -> j'.(job_priority) = j.(job_priority) ->
  queue_inv q -> queue_inv (q_replace pr i j' q).
Proof.
  intros Hj Hp [Hw Hl]. pose proof (deque_priority q pr Hw) as Hd. split.
  - intros pr' l Hlk. unfold q_replace in Hlk. cbn [set_field q_jobs] in Hlk.
    apply lookup_alter_Some in Hlk as [(-> & l0 & Hl0 & ->)|[Hne Hlk]]; [|by apply (Hw pr')].
    destruct (Hw _ _ Hl0) as [Hne Hf].
    split; [intros E; apply (f_equal length) in E; rewrite length_insert in E; by destruct l0|].
    apply Forall_insert; [done|]. rewrite Hp.
    unfold deque in Hj. rewrite Hl0 in Hj. by eapply (Forall_lookup_1 _ _ _ _ Hf).
  - cbn [q_replace set_field q_max_size]. etransitivity; [|exact Hl]. unfold q_view.
    rewrite !deque_replace, !length_app. apply Nat2Z.inj_le.
    repeat (case_decide; subst); try congruence; rewrite ?length_insert; lia.
Qed.

(** No operation lets the queue grow past its limit, leave an empty deque behind or
    file a job under another priority. *)
Theorem queue_stays_bounded q q' : queue_step q q' -> queue_inv q -> queue_inv q'.
Proof.
  intros [id now c j q1 Hs|j q1 Hr|now j q1 Hn|now id r q1 Hc|now id r q1 Hr|now id r q1 Hc] Hi.
  - unfold q_submit in Hs. apply rbind_ok in Hs as (j0 & _ & Hs).
    apply rbind_ok in Hs as (q2 & Hr & [= <- <-]). eauto using requeue_inv.
  - eauto using requeue_inv.
  - unfold next_job in Hn. rewrite q_entries_reverse in Hn.
    destruct (find_position _ _) as [[[pr i] j0]|] eqn:E; [|done]. injection Hn as _ <-.
    apply find_position_deque in E as [Hj _]. eauto using remove_inv.
  - unfold q_complete_job, q_entries in Hc.
    destruct (find_position _ _) as [[[pr i] j0]|] eqn:E; [|done]. injection Hc as <-.
    apply find_position_deque in E as [Hj _]. by eapply replace_inv.
  - unfold q_retry_job, q_entries in Hr.
    destruct (find_position _ _) as [[[pr i] j0]|] eqn:E; [|by injection Hr as _ <-].
    apply find_position_deque in E as [Hj _].
    destruct (can_retry j0); injection Hr as _ <-; by eapply replace_inv.
  - unfold q_cancel_job, q_entries in Hc.
    destruct (find_position _ _) as [[[pr i] j0]|] eqn:E; [|by injection Hc as _ <-].
    apply find_position_deque in E as [Hj _].
    destruct (job_status j0); injection Hc as _ <-; eauto using remove_inv.
Qed.

End QueueSteps.

(** ** A concrete queue *)

Definition queued (id : JobId) (p : JobPriority) : Job := Job_new id 0 "echo" "null" p.
Definition demo_queue : JobQueue :=
  MkJobQueue (<[Critical := [queued "job_c" Critical]]> {[ Low := [queued "job_a" Low] ]}) 2
    RetryConfig_default.

Lemma demo_queue_inv : queue_inv demo_queue.
Proof.
  split; [|vm_compute; discriminate].
  apply map_Forall_insert_2; [by repeat constructor|]. apply map_Forall_singleton.
  by repeat constructor.
Qed.

Lemma next_job_serves_highest_fifo_witness :
  exists q', next_job 5 demo_queue = Some (job_start 5 (queued "job_c" Critical), q')
    /\ queue_wf q'.
Proof.
  eexists. split; [vm_compute; reflexivity|].
  edestruct (next_job_serves_highest_fifo 5 demo_queue) as (j & l1 & l2 & _ & _ & _ & _ & _ & _ & Hw);
    [apply demo_queue_inv|vm_compute; reflexivity|exact Hw].
Defined.

#[local] Instance demo_backoff : Backoff := {| calculate_backoff := fun c _ => c.(rt_backoff_base_ms) |}.

Lemma queue_stays_bounded_witness :
  q_requeue (queued "job_b" Low) demo_queue = Err QueueFull
  /\ queue_inv (q_cancel_job 1 "job_a" demo_queue).2.
Proof.
  split; [reflexivity|]. apply (queue_stays_bounded demo_queue); [|apply demo_queue_inv].
  apply (qs_cancel _ 1 "job_a" (q_cancel_job 1 "job_a" demo_queue).1).
  by destruct (q_cancel_job 1 "job_a" demo_queue).
Defined.
