(* ===== verification/JobStore.v ===== *)
(** * Job stores

    The [JobStore] trait and the in-memory store of
    [crates/task-scheduler/src/store.rs].  The trait is the class [JobStore]; what the
    scheduler may rely on is the class [JobStoreLaws], stated on an abstract view, the
    map from identifiers to jobs.  A [HashMap] is a [gmap]; the order in which it is
    visited is unspecified in Rust and is some fixed order here, and the laws do not
    depend on it. *)

From S2P Require Import Prelude Text SkillTypes Ledger Job.

Inductive StoreError :=
| StoreIntegrity
| StoreIo (e : IoError)
| StoreSerialization (message : string).

(** [impl Display], through [#[error(..)]]. *)
Definition io_error_text (e : IoError) : string :=
  match e with
  | DeviceError m | DataError m => m
  | FuelExhausted => ""
  end.

Definition store_error_text (e : StoreError) : string :=
  match e with
  | StoreIntegrity => "job journal integrity requires repair before mutation"
  | StoreIo e => "store I/O failed: " +:+ io_error_text e
  | StoreSerialization m => "store serialization failed: " +:+ m
  end.

Inductive JobEvent :=
| EvSubmitted | EvStarted | EvCompleted | EvFailed | EvRetried | EvCancelled | EvRecovered
| EvResolved.
#[export] Instance JobEvent_eq_dec : EqDecision JobEvent.
Proof. solve_decision. Defined.

(** [{event:?}]. *)
Definition event_debug (ev : JobEvent) : string :=
  match ev with
  | EvSubmitted => "Submitted" | EvStarted => "Started" | EvCompleted => "Completed"
  | EvFailed => "Failed" | EvRetried => "Retried" | EvCancelled => "Cancelled"
  | EvRecovered => "Recovered" | EvResolved => "Resolved"
  end.

Definition JobEvent_from_status (s : JobStatus) : JobEvent :=
  match s with
  | Pending => EvRetried
  | Running => EvStarted
  | JobCompleted => EvCompleted
  | JobFailed => EvFailed
  | JobCancelled => EvCancelled
  | ReconciliationRequired => EvRecovered
  | Resolved => EvResolved
  end.

(** ** The trait and its laws *)

Class JobStore (S : Type) := {
  st_integrity_issue : S -> option string;
  st_put : Time -> Job -> ST S StoreError unit;
  st_get : JobId -> ST S StoreError (option Job);
  st_update : Time -> Job -> JobEvent -> ST S StoreError unit;
  st_pending : ST S StoreError (list Job);
  st_load_all : ST S StoreError (list Job);
  st_prune_terminal : Time -> Z -> ST S StoreError unit;
}.

Definition terminal (s : JobStatus) : bool :=
  match s with
  | JobCompleted | JobFailed | JobCancelled | Resolved => true
  | Pending | Running | ReconciliationRequired => false
  end.

Definition terminal_jobs (m : gmap JobId Job) : list (JobId * Job) :=
  filter (fun x => terminal x.2.(job_status) = true) (map_to_list m).

(** Every job is filed under its own identifier. *)
Definition by_id (m : gmap JobId Job) : Prop := map_Forall (fun id j => j.(job_id) = id) m.

Class JobStoreLaws (S : Type) `{JobStore S} := {
  st_view : S -> gmap JobId Job;
  law_put now j s r s' : st_put now j s = (r, s') ->
    st_view s' = <[j.(job_id) := j]> (st_view s) \/ (is_ok r = false /\ st_view s' = st_view s);
  law_update now j ev s r s' : st_update now j ev s = (r, s') ->
    st_view s' = <[j.(job_id) := j]> (st_view s) \/ (is_ok r = false /\ st_view s' = st_view s);
  law_get id s r s' : st_get id s = (r, s') ->
    s' = s /\ (forall o, r = Ok o -> o = st_view s !! id);
  law_load_all s l s' : st_load_all s = (Ok l, s') -> s' = s /\ l ≡ₚ (map_to_list (st_view s)).*2;
  law_pending s l s' : st_pending s = (Ok l, s') ->
    s' = s /\ l ≡ₚ filter (fun j => j.(job_status) = Pending) (map_to_list (st_view s)).*2;
}.

(** ** Retention *)

(** [Option]'s order: [None] first. *)
Definition time_key_le (a b : option Time) : bool :=
  match a, b with
  | None, _ => true
  | Some _, None => false
  | Some x, Some y => x <=? y
  end.

Definition job_key_le (key : Job -> option Time) (a b : JobId * Job) : Prop :=
  time_key_le (key a.2) (key b.2) = true.
#[export] Instance job_key_le_dec key a b : Decision (job_key_le key a b) :=
  decide (time_key_le (key a.2) (key b.2) = true).

Definition remove_all (l : list (JobId * Job)) (m : gmap JobId Job) : gmap JobId Job :=
  foldr (fun x m => delete x.1 m) m l.

(** The terminal jobs beyond [retained], oldest first. *)
Definition excess_terminal (key : Job -> option Time) (retained : Z) (m : gmap JobId Job)
    : list (JobId * Job) :=
  let terminal := terminal_jobs m in
  let excess := saturating_sub (Z.of_nat (length terminal)) retained in
  take (Z.to_nat excess) (merge_sort (job_key_le key) terminal).

Definition prune_oldest (key : Job -> option Time) (retained : Z) (m : gmap JobId Job)
    : gmap JobId Job :=
  remove_all (excess_terminal key retained m) m.

(** The key of both stores: when the job ended, or when it was created. *)
Definition store_key (j : Job) : option Time :=
  Some (default j.(job_created_at) j.(job_completed_at)).

(** ** The in-memory store *)

Definition MemoryJobStore : Type := gmap JobId Job.
Definition MemoryJobStore_new : MemoryJobStore := ∅.

Definition memory_put (now : Time) (job : Job) : ST MemoryJobStore StoreError unit :=
  smodify (fun jobs => <[job.(job_id) := job]> jobs).

Definition memory_get (id : JobId) : ST MemoryJobStore StoreError (option Job) :=
  do jobs <- sget; sret (jobs !! id).

Definition memory_update (now : Time) (job : Job) (event : JobEvent)
    : ST MemoryJobStore StoreError unit :=
  smodify (fun jobs => <[job.(job_id) := job]> jobs).

Definition memory_pending : ST MemoryJobStore StoreError (list Job) :=
  do jobs <- sget; sret (filter (fun j => j.(job_status) = Pending) (map_to_list jobs).*2).

Definition memory_load_all : ST MemoryJobStore StoreError (list Job) :=
  do jobs <- sget; sret (map_to_list jobs).*2.

Definition memory_prune_terminal (now : Time) (retained : Z) : ST MemoryJobStore StoreError unit :=
  smodify (prune_oldest store_key retained).

#[export] Instance memory_store : JobStore MemoryJobStore := {|
  st_integrity_issue := fun _ => None;
  st_put := memory_put;
  st_get := memory_get;
  st_update := memory_update;
  st_pending := memory_pending;
  st_load_all := memory_load_all;
  st_prune_terminal := memory_prune_terminal;
|}.

#[export] Instance memory_store_laws : JobStoreLaws MemoryJobStore.
Proof.
  refine {| st_view := fun s : MemoryJobStore => s : gmap JobId Job |}.
  - intros now j s r s' [= <- <-]. auto.
  - intros now j ev s r s' [= <- <-]. auto.
  - intros id s r s' [= <- <-]. split; [done|]. intros o Ho. injection Ho as <-. done.
  - intros s l s' [= <- <-]. done.
  - intros s l s' [= <- <-]. done.
Defined.

(** ** Facts about retention *)

Lemma remove_all_lookup l m id :
  remove_all l m !! id = if decide (id ∈ l.*1) then None else m !! id.
Proof.
  induction l as [|x l IH]; cbn [remove_all foldr]; [by rewrite decide_False by set_solver|].
  rewrite fmap_cons. destruct (decide (id = x.1)) as [->|Hne].
  - rewrite lookup_delete_eq, decide_True by set_solver. done.
  - rewrite lookup_delete_ne by congruence. fold (remove_all l m). rewrite IH.
    repeat case_decide; try done; exfalso; set_solver.
Qed.

Lemma terminal_jobs_elem m id j :
  (id, j) ∈ terminal_jobs m <-> m !! id = Some j /\ terminal j.(job_status) = true.
Proof.
  unfold terminal_jobs. rewrite list_elem_of_filter, elem_of_map_to_list. simpl. tauto.
Qed.

Lemma NoDup_terminal_ids m : NoDup (terminal_jobs m).*1.
Proof.
  unfold terminal_jobs. pose proof (NoDup_fst_map_to_list m) as Hn.
  induction (map_to_list m) as [|x l IH]; [constructor|]. simpl in Hn.
  inversion Hn as [|?? Hx Hl]; subst. rewrite filter_cons. case_decide; [|by apply IH].
  simpl. constructor; [|by apply IH]. intros (y & Hy & Hin)%list_elem_of_fmap.
  apply list_elem_of_filter in Hin as [_ Hin]. apply Hx. rewrite Hy.
  by apply list_elem_of_fmap_2.
Qed.

Lemma time_key_le_total a b : time_key_le a b = true \/ time_key_le b a = true.
Proof. destruct a, b; simpl; auto. lia. Qed.
Lemma time_key_le_trans a b c :
  time_key_le a b = true -> time_key_le b c = true -> time_key_le a c = true.
Proof. destruct a, b, c; simpl; auto; try done. lia. Qed.

#[local] Instance job_key_le_total key : Total (job_key_le key).
Proof. intros a b. apply time_key_le_total. Qed.
#[local] Instance job_key_le_trans key : Transitive (job_key_le key).
Proof. intros a b c. apply time_key_le_trans. Qed.

Lemma excess_terminal_elem key retained m id :
  id ∈ (excess_terminal key retained m).*1 ->
  exists j, m !! id = Some j /\ terminal j.(job_status) = true.
Proof.
  intros ((id', j) & -> & Hin)%list_elem_of_fmap. simpl. exists j.
  apply terminal_jobs_elem.
  apply elem_of_take in Hin as (i & Hi & _). apply list_elem_of_lookup_2 in Hi.
  by rewrite merge_sort_Permutation in Hi.
Qed.

(** What pruning keeps: everything that is not terminal, and the jobs it does not list. *)
Lemma prune_oldest_lookup key retained m id j :
  prune_oldest key retained m !! id = Some j <->
  m !! id = Some j /\ (id ∉ (excess_terminal key retained m).*1).
Proof.
  unfold prune_oldest. rewrite remove_all_lookup. case_decide; naive_solver.
Qed.

Lemma prune_keeps_live key retained m id j :
  m !! id = Some j -> terminal j.(job_status) = false ->
  prune_oldest key retained m !! id = Some j.
Proof.
  intros Hm Ht. apply prune_oldest_lookup. split; [done|].
  intros (j' & Hj & Ht')%excess_terminal_elem. congruence.
Qed.

Lemma prune_oldest_subseteq key retained m : prune_oldest key retained m ⊆ m.
Proof. apply map_subseteq_spec. intros id j [? _]%prune_oldest_lookup. done. Qed.

Lemma prune_by_id key retained m : by_id m -> by_id (prune_oldest key retained m).
Proof. intros Hb id j [Hj _]%prune_oldest_lookup. by apply Hb. Qed.

(** The terminal jobs split at the excess; what is left is the rest of the sorted list. *)
Lemma prune_terminal_rest key retained m :
  terminal_jobs (prune_oldest key retained m) ≡ₚ
  drop (Z.to_nat (saturating_sub (Z.of_nat (length (terminal_jobs m))) retained))
    (merge_sort (job_key_le key) (terminal_jobs m)).
Proof.
  set (n := Z.to_nat _). set (sorted := merge_sort _ _).
  assert (Hp : sorted ≡ₚ terminal_jobs m) by apply merge_sort_Permutation.
  assert (Hn : NoDup sorted.*1) by (rewrite Hp; apply NoDup_terminal_ids).
  rewrite <-(take_drop n sorted), fmap_app in Hn. apply NoDup_app in Hn as (Hn1 & Hd & Hn2).
  apply NoDup_Permutation.
  - apply (NoDup_fmap_1 fst), NoDup_terminal_ids.
  - by apply (NoDup_fmap_1 fst).
  - intros [id j]. rewrite terminal_jobs_elem, prune_oldest_lookup.
    change (excess_terminal key retained m) with (take n sorted).
    assert (Hin : (id, j) ∈ sorted <-> m !! id = Some j /\ terminal (job_status j) = true)
      by (rewrite Hp; apply terminal_jobs_elem).
    rewrite <-(take_drop n sorted), elem_of_app in Hin. split.
    + intros [[Hm Hnot] Ht]. destruct (proj2 Hin (conj Hm Ht)) as [Hx|Hx]; [|done].
      destruct Hnot. by apply (list_elem_of_fmap_2 fst _ (id, j)).
    + intros Hx. destruct (proj1 Hin (or_intror Hx)) as [Hm Ht]. split; [split; [done|]|done].
      intros Hnot. eapply Hd; [exact Hnot|]. by apply (list_elem_of_fmap_2 fst _ (id, j)).
Qed.

(** Pruning keeps every pending, running and uncertain job, leaves at most
    [retained] terminal jobs, drops none while they fit, and never drops a job that ended
    later than one it keeps. *)
Theorem prune_retains_newest key retained m :
  0 <= retained ->
  let m' := prune_oldest key retained m in
  m' ⊆ m
  /\ (forall id j, m !! id = Some j -> terminal j.(job_status) = false -> m' !! id = Some j)
  /\ Z.of_nat (length (terminal_jobs m'))
     = Z.min retained (Z.of_nat (length (terminal_jobs m)))
  /\ (forall id j id' j', m !! id = Some j -> m' !! id = None ->
        m' !! id' = Some j' -> terminal j'.(job_status) = true ->
        time_key_le (key j) (key j') = true).
Proof.
  intros Hr m'. split_and!.
  - apply prune_oldest_subseteq.
  - intros id j. apply prune_keeps_live.
  - unfold m'. rewrite (Permutation_length (prune_terminal_rest key retained m)), length_drop.
    rewrite (Permutation_length (merge_sort_Permutation _ _)). unfold saturating_sub. lia.
  - intros id j id' j' Hj Hnone Hj' Ht'.
    assert (Hin : (id', j') ∈ terminal_jobs m') by by apply terminal_jobs_elem.
    unfold m' in Hin. rewrite (prune_terminal_rest key retained m) in Hin.
    assert (Hex : id ∈ (excess_terminal key retained m).*1).
    { destruct (decide (id ∈ (excess_terminal key retained m).*1)); [done|].
      assert (m' !! id = Some j) by (by apply prune_oldest_lookup). congruence. }
    apply list_elem_of_fmap in Hex as ((id0, j0) & -> & Hex). simpl in *.
    assert (j0 = j) as ->.
    { unfold excess_terminal in Hex. apply elem_of_take in Hex as (i & Hi & _).
      apply list_elem_of_lookup_2 in Hi. rewrite merge_sort_Permutation in Hi.
      apply terminal_jobs_elem in Hi as [Hi _]. congruence. }
    assert (Hs : StronglySorted (job_key_le key) (merge_sort (job_key_le key) (terminal_jobs m))).
    { apply (StronglySorted_merge_sort (job_key_le key)). }
    rewrite <-(take_drop (Z.to_nat (saturating_sub (Z.of_nat (length (terminal_jobs m))) retained))
      (merge_sort (job_key_le key) (terminal_jobs m))) in Hs.
    exact (StronglySorted_app_1_elem_of _ _ _ _ _ Hs Hex Hin).
Qed.

(** Two finished jobs and a pending one, one of them to be kept. *)
Definition ended (id : JobId) (at_ : Time) : Job :=
  job_complete at_ (MkJobResult id true None None at_) (job_start 0 (Job_new id 0 "echo" "null" Normal)).
Definition demo_jobs : gmap JobId Job :=
  <["job_old" := ended "job_old" 1]> (<["job_new" := ended "job_new" 2]>
    {[ "job_p" := Job_new "job_p" 0 "echo" "null" Normal ]}).

Lemma prune_retains_newest_witness :
  let m' := prune_oldest store_key 1 demo_jobs in
  m' !! "job_old" = None /\ Z.of_nat (length (terminal_jobs m')) = 1
  /\ m' !! "job_p" = demo_jobs !! "job_p".
Proof.
  intros m'. destruct (prune_retains_newest store_key 1 demo_jobs) as (_ & Hl & Hn & _); [lia|].
  split_and!; [vm_compute; reflexivity|exact Hn|].
  apply (Hl "job_p" (Job_new "job_p" 0 "echo" "null" Normal)); vm_compute; reflexivity.
Defined.
