(* ===== verification/JournalStore.v ===== *)
(** * The durable job store

    [JournalJobStore] of [crates/task-scheduler/src/store.rs]: an append-only JSONL file,
    its in-memory index, recovery at open, compaction and retention.

    The state holds the disk (the file at the path, the archived files, the file behind
    the writer's handle once another file has taken the path) and a list of faults: each
    I/O call takes the next one, and an empty list means that everything succeeds.  A
    partial write leaves a prefix of its bytes.  JSON text belongs to [serde_json]: the
    codec is a parameter, and its laws say that the text of a record parses back, is not
    empty and has no newline.  [spawn] and the locks make every operation one step. *)

From S2P Require Import Prelude Text SkillTypes Ledger Job JobStore.
From Stdlib Require Import Ascii.

Definition JOURNAL_SCHEMA_VERSION : Z := 1.
Definition COMPACT_THRESHOLD : Z := 4096.
Definition COMPACT_RETAINED_TERMINAL : Z := 1024.

Record JournalRecord := MkJournalRecord {
  jrec_schema_version : Z;
  jrec_sequence : Z;
  jrec_recorded_at : Time;
  jrec_event : JobEvent;
  jrec_job : Job;
}.

(** [#[serde(skip)]] on the resolution latch. *)
Definition unlatched (j : Job) : Job := j <| job_resolution_pending := false |>.
Definition unlatched_record (r : JournalRecord) : JournalRecord :=
  MkJournalRecord (jrec_schema_version r) (jrec_sequence r) (jrec_recorded_at r) (jrec_event r)
    (unlatched (jrec_job r)).

(** [serde_json::to_vec] and [serde_json::from_slice] on journal records. *)
Class JobCodec := {
  encode_record : JournalRecord -> result bytes string;
  decode_record : bytes -> option JournalRecord;
}.

Class JobCodecLaws `{JobCodec} := {
  codec_total r : is_ok (encode_record r) = true;
  codec_roundtrip r b : encode_record r = Ok b -> decode_record b = Some (unlatched_record r);
  codec_one_line r b : encode_record r = Ok b -> no_newline b /\ b <> [];
}.

(** ** The disk *)

Record JournalJobStore := MkJournalJobStore {
  jn_file : option bytes;
  jn_archives : list bytes;
  jn_orphan : option bytes;
  jn_faults : list Fault;
  jn_index : gmap JobId Job;
  jn_next_sequence : Z;
  jn_recovered_torn_tail : bool;
}.
#[export] Instance eta_JournalJobStore : Eta JournalJobStore := fun s =>
  MkJournalJobStore (jn_file s) (jn_archives s) (jn_orphan s) (jn_faults s) (jn_index s)
    (jn_next_sequence s) (jn_recovered_torn_tail s).

Definition IO (A : Type) : Type := ST JournalJobStore StoreError A.

Definition next_fault : IO Fault :=
  fun s => match s.(jn_faults) with
           | [] => (Ok IoOk, s)
           | f :: fs => (Ok f, s <| jn_faults := fs |>)
           end.

(** An I/O call that changes no file content. *)
Definition io : IO unit :=
  do f <- next_fault;
  match f with
  | IoOk => sret tt
  | IoFails m | IoPartial _ m => sfail (StoreIo (DeviceError m))
  end.

(** Keeps the error of a computation as a value. *)
Definition attempt {A} (m : IO A) : IO (result A StoreError) :=
  fun s => let '(r, s') := m s in (Ok r, s').

(** Bytes appended through the writer's handle. *)
Definition writer_append (b : bytes) (s : JournalJobStore) : JournalJobStore :=
  match s.(jn_orphan) with
  | Some o => s <| jn_orphan := Some (o ++ b) |>
  | None => s <| jn_file := Some (default [] s.(jn_file) ++ b) |>
  end.

Definition file_write_all (b : bytes) : IO unit :=
  do f <- next_fault;
  match f with
  | IoOk => smodify (writer_append b)
  | IoFails m => sfail (StoreIo (DeviceError m))
  | IoPartial n m => smodify (writer_append (take n b)) ;; sfail (StoreIo (DeviceError m))
  end.

(** ** Scanning *)

Record JobDecoder := MkJobDecoder {
  jd_latest : gmap JobId Job;
  jd_records : Z;
}.

Definition event_matches (event : JobEvent) (status : JobStatus) : bool :=
  bool_decide (event = JobEvent_from_status status)
  || (bool_decide (event = EvSubmitted) && bool_decide (status = Pending)).

Section Decoder.
Context `{UuidLib, JobCodec}.

Definition JobDecoder_decode (ln : JsonlLine) : ST JobDecoder IoError (PreparedRecord JournalRecord) :=
  let body := take (length ln.(ln_bytes) - 1) ln.(ln_bytes) in
  match body with
  | [] => sret (MkPreparedRecord Skip None)
  | _ =>
      smodify (fun d => MkJobDecoder d.(jd_latest) (d.(jd_records) + 1)) ;;
      sret match decode_record body with
           | None => MkPreparedRecord (Rejected None Decode) None
           | Some record =>
               let issue :=
                 if negb (record.(jrec_schema_version) =? JOURNAL_SCHEMA_VERSION) then Some Schema
                 else if negb (has_valid_resolution record.(jrec_job))
                         || negb (event_matches record.(jrec_event) record.(jrec_job).(job_status))
                 then Some LedgerInvalidState else None in
               MkPreparedRecord
                 match issue with
                 | Some kind => Rejected (Some record.(jrec_sequence)) kind
                 | None => Accepted (Some record.(jrec_sequence))
                 end (Some record)
           end
  end.

Definition JobDecoder_apply (collect_jobs : bool) (ln : JsonlLine)
    (prepared : PreparedRecord JournalRecord) (verdict : SequenceVerdict)
    : ST JobDecoder IoError ScanControl :=
  smodify (fun d =>
    if collect_jobs && bool_decide (verdict = Valid) then
      match prepared.(pr_record) with
      | Some record => MkJobDecoder (<[record.(jrec_job).(job_id) := record.(jrec_job)]> d.(jd_latest))
                         d.(jd_records)
      | None => d
      end
    else d) ;;
  sret Continue.

Definition job_decoder (collect_jobs : bool) : LedgerDecoder JobDecoder JournalRecord :=
  MkLedgerDecoder JobDecoder_decode (JobDecoder_apply collect_jobs).

Record Scan := MkScan {
  scn_jobs : list Job;
  scn_torn_tail : bool;
  scn_max_sequence : option Z;
  scn_incompatible_records : Z;
  scn_exists : bool;
  scn_bytes : Z;
  scn_records : Z;
}.
Definition Scan_default : Scan := MkScan [] false None 0 false 0 0.

Definition scan_options : ScanOptions := MkScanOptions u64_max Increasing.

(** The scan of one reader. *)
Definition scan_reader (collect_jobs : bool) (r : Reader) : result Scan StoreError :=
  match scan_jsonl (job_decoder collect_jobs) scan_options r (MkJobDecoder ∅ 0) with
  | (Err e, _) => Err (StoreIo e)
  | (Ok health, d) =>
      Ok (MkScan (map_to_list d.(jd_latest)).*2 (0 <? issue_count health TornTail)
            health.(lh_max_observed_sequence) health.(lh_incompatible_records) true
            health.(lh_bytes_observed) d.(jd_records))
  end.

Definition scan_path (collect_jobs : bool) : IO Scan :=
  io ;;
  do s <- sget;
  match s.(jn_file) with
  | None => sret Scan_default
  | Some b =>
      do f <- next_fault;
      slift (scan_reader collect_jobs
               match f with
               | IoOk => MkReader b None
               | IoFails m => MkReader [] (Some m)
               | IoPartial n m => MkReader (take n b) (Some m)
               end)
  end.

(** ** Compaction *)

Definition created_le (a b : Job) : Prop := a.(job_created_at) <= b.(job_created_at).
#[export] Instance created_le_dec a b : Decision (created_le a b) :=
  decide (a.(job_created_at) <= b.(job_created_at)).

(** The lines of a snapshot, each written with its own call. *)
Fixpoint snapshot_lines (now : Time) (sequence : Z) (jobs : list Job) : IO bytes :=
  match jobs with
  | [] => sret []
  | job :: rest =>
      do line <- slift (map_err StoreSerialization
        (encode_record (MkJournalRecord JOURNAL_SCHEMA_VERSION sequence now
           (JobEvent_from_status job.(job_status)) job)));
      io ;;
      do more <- snapshot_lines now (sequence + 1) rest;
      sret (line ++ [newline] ++ more)
  end.

(** The path now names another file; the writer keeps the old one. *)
Definition replace_file (b : bytes) (s : JournalJobStore) : JournalJobStore :=
  s <| jn_orphan := match s.(jn_orphan) with Some o => Some o | None => s.(jn_file) end |>
    <| jn_file := Some b |>.

Definition compact_journal (now : Time) (jobs : list Job) : IO unit :=
  io ;;
  do content <- snapshot_lines now 0 (merge_sort created_le jobs);
  io ;;
  io ;; smodify (replace_file content) ;;
  io ;; io.

(** Reopens the path for appending; it must exist. *)
Definition reopen : IO unit :=
  io ;;
  do s <- sget;
  match s.(jn_file) with
  | Some _ => smodify (fun s => s <| jn_orphan := None |>)
  | None => sfail (StoreIo (DataError "journal file not found"))
  end.

(** ** Appending *)

Definition values (m : gmap JobId Job) : list Job := (map_to_list m).*2.

(** The end of [append]: publish a snapshot once the file has grown far beyond it. *)
Definition compact_if_due (now : Time) : IO unit :=
  do s <- sget;
  if Z.of_nat (size s.(jn_index)) + COMPACT_THRESHOLD <=? s.(jn_next_sequence) then
    do outcome <- attempt (compact_journal now (values s.(jn_index)));
    reopen ;;
    do scan <- scan_path false;
    do seq <- slift (ok_or (match scan.(scn_max_sequence) with
                            | Some m => checked_add m 1
                            | None => None
                            end) StoreIntegrity);
    smodify (fun s => s <| jn_next_sequence := seq |>) ;;
    slift outcome
  else sret tt.

Definition journal_append (now : Time) (event : JobEvent) (job : Job) : IO unit :=
  do s <- sget;
  do next <- slift (ok_or (checked_add s.(jn_next_sequence) 1) StoreIntegrity);
  do line <- slift (map_err StoreSerialization
    (encode_record (MkJournalRecord JOURNAL_SCHEMA_VERSION s.(jn_next_sequence) now event job)));
  file_write_all (line ++ [newline]) ;;
  io ;;
  io ;;
  smodify (fun s => s <| jn_next_sequence := next |>
                      <| jn_index := <[job.(job_id) := job]> s.(jn_index) |>) ;;
  compact_if_due now.

Definition journal_put (now : Time) (job : Job) : IO unit :=
  journal_append now
    (if bool_decide (job.(job_status) = Pending) then EvSubmitted
     else JobEvent_from_status job.(job_status)) job.

Definition journal_update (now : Time) (job : Job) (event : JobEvent) : IO unit :=
  journal_append now event job.

Definition journal_get (id : JobId) : IO (option Job) :=
  do s <- sget; sret (s.(jn_index) !! id).

Definition journal_pending : IO (list Job) :=
  do s <- sget; sret (filter (fun j => j.(job_status) = Pending) (values s.(jn_index))).

Definition journal_load_all : IO (list Job) := do s <- sget; sret (values s.(jn_index)).

(** Collects jobs into a map; a later one wins. *)
Definition collect_by_id (jobs : list Job) : gmap JobId Job :=
  fold_left (fun m j => <[j.(job_id) := j]> m) jobs ∅.

Definition journal_prune_terminal (now : Time) (retained : Z) : IO unit :=
  do s <- sget;
  if Z.of_nat (length (excess_terminal store_key retained s.(jn_index))) =? 0 then sret tt
  else
    do outcome <- attempt (compact_journal now
                             (values (prune_oldest store_key retained s.(jn_index))));
    reopen ;;
    do scan <- scan_path true;
    smodify (fun s => s <| jn_next_sequence := default 0 (match scan.(scn_max_sequence) with
                                                          | Some m => checked_add m 1
                                                          | None => None
                                                          end) |>
                        <| jn_index := collect_by_id scan.(scn_jobs) |>) ;;
    slift outcome.

(** ** Opening *)

Definition archive_damaged_journal : IO unit :=
  io ;;
  smodify (fun s => s <| jn_archives := s.(jn_archives) ++ option_list s.(jn_file) |>
                      <| jn_file := None |>) ;;
  io.

Definition DAMAGED_REASON : string :=
  "job history was damaged and archived; reconciliation required".
Definition INTERRUPTED_REASON : string :=
  "execution interrupted; outcome must be reconciled".

Definition recover_job (damaged : bool) (j : Job) : Job :=
  let j := if damaged then require_reconciliation DAMAGED_REASON (j <| job_resolution := None |>)
           else if bool_decide (j.(job_status) = Running)
           then require_reconciliation INTERRUPTED_REASON j else j in
  if bool_decide (j.(job_status) = ReconciliationRequired)
  then require_reconciliation (default "uncertain execution" j.(job_error)) j else j.

(** The jobs whose recovery is journaled: the interrupted ones of an intact history. *)
Definition recovered_jobs (damaged : bool) (jobs : list Job) : list Job :=
  if damaged then []
  else require_reconciliation INTERRUPTED_REASON <$> filter (fun j => j.(job_status) = Running) jobs.

Fixpoint append_all (now : Time) (event : JobEvent) (jobs : list Job) : IO unit :=
  match jobs with
  | [] => sret tt
  | j :: rest => journal_append now event j ;; append_all now event rest
  end.

Definition scan_damaged (scan : Scan) : bool :=
  scan.(scn_torn_tail) || (0 <? scan.(scn_incompatible_records))
  || bool_decide (scan.(scn_max_sequence) = Some u64_max).

Definition above_threshold (m : option Z) : bool :=
  match m with Some sequence => COMPACT_THRESHOLD <=? sequence | None => false end.

(** The sequence to go on with, after a snapshot when the history is damaged or long. *)
Definition publish_index (now : Time) (damaged : bool) (max_sequence : option Z)
    (index : gmap JobId Job) : IO Z :=
  if damaged then
    compact_journal now (values index) ;; sret (Z.of_nat (size index))
  else if above_threshold max_sequence then
    let kept := prune_oldest store_key COMPACT_RETAINED_TERMINAL index in
    smodify (fun s => s <| jn_index := kept |>) ;;
    compact_journal now (values kept) ;; sret (Z.of_nat (size kept))
  else sret (default 0 (match max_sequence with
                        | Some m => checked_add m 1
                        | None => None
                        end)).

Definition journal_open (now : Time) : IO unit :=
  io ;;
  do scan <- scan_path true;
  let damaged := scan_damaged scan in
  (if damaged then archive_damaged_journal else sret tt) ;;
  let index := collect_by_id (recover_job damaged <$> scan.(scn_jobs)) in
  smodify (fun s => s <| jn_index := index |>) ;;
  do next_sequence <- publish_index now damaged scan.(scn_max_sequence) index;
  io ;;
  smodify (fun s => s <| jn_file := Some (default [] s.(jn_file)) |>
                      <| jn_orphan := None |>
                      <| jn_next_sequence := next_sequence |>
                      <| jn_recovered_torn_tail := scan.(scn_torn_tail) |>) ;;
  append_all now EvRecovered (recovered_jobs damaged scan.(scn_jobs)).

(** [JournalJobStore::inspect]: the same scan, nothing written. *)
Definition journal_inspect : IO Scan := scan_path false.

#[export] Instance journal_store : JobStore JournalJobStore := {|
  st_integrity_issue := fun _ => None;
  st_put := journal_put;
  st_get := journal_get;
  st_update := journal_update;
  st_pending := journal_pending;
  st_load_all := journal_load_all;
  st_prune_terminal := journal_prune_terminal;
|}.

End Decoder.

(** ** What an operation leaves alone *)

(** [keeps f m]: running [m] does not change the part [f] of the state. *)
Definition keeps {A B} (f : JournalJobStore -> B) (m : IO A) : Prop := forall s, f (m s).2 = f s.

Lemma keeps_bind {A B C} (f : JournalJobStore -> C) (m : IO A) (k : A -> IO B) :
  keeps f m -> (forall a, keeps f (k a)) -> keeps f (sbind m k).
Proof.
  intros Hm Hk s. unfold sbind. specialize (Hm s). destruct (m s) as [[a|e] s']; [|done].
  simpl in Hm. by rewrite Hk.
Qed.

Lemma keeps_ret {A C} (f : JournalJobStore -> C) (a : A) : keeps f (sret a).
Proof. by intros s. Qed.
Lemma keeps_fail {A C} (f : JournalJobStore -> C) e : keeps (A := A) f (sfail e).
Proof. by intros s. Qed.
Lemma keeps_lift {A C} (f : JournalJobStore -> C) (r : result A StoreError) : keeps f (slift r).
Proof. by intros s. Qed.
Lemma keeps_get {C} (f : JournalJobStore -> C) : keeps f sget.
Proof. by intros s. Qed.
Lemma keeps_attempt {A C} (f : JournalJobStore -> C) (m : IO A) : keeps f m -> keeps f (attempt m).
Proof. intros Hm s. unfold attempt. specialize (Hm s). by destruct (m s). Qed.
Lemma keeps_modify {C} (f : JournalJobStore -> C) g :
  (forall s, f (g s) = f s) -> keeps f (smodify g).
Proof. intros Hg s. apply Hg. Qed.

Create HintDb keeps.
#[export] Hint Resolve keeps_bind keeps_ret keeps_fail keeps_lift keeps_get keeps_attempt : keeps.

(** A part of the state that does not include the pending faults. *)
Definition fault_blind {C} (f : JournalJobStore -> C) : Prop :=
  forall s fs, f (s <| jn_faults := fs |>) = f s.

Lemma keeps_next_fault {C} (f : JournalJobStore -> C) : fault_blind f -> keeps f next_fault.
Proof. intros Hf s. unfold next_fault. destruct (jn_faults s); [done|]. apply Hf. Qed.

Lemma keeps_io {C} (f : JournalJobStore -> C) : fault_blind f -> keeps f io.
Proof. intros Hf. apply keeps_bind; [by apply keeps_next_fault|]. intros []; auto with keeps. Qed.

Lemma keeps_write {C} (f : JournalJobStore -> C) b :
  fault_blind f -> (forall b s, f (writer_append b s) = f s) -> keeps f (file_write_all b).
Proof.
  intros Hf Hw. apply keeps_bind; [by apply keeps_next_fault|].
  intros []; auto using keeps_modify with keeps.
Qed.

Lemma blind_index : fault_blind jn_index. Proof. done. Qed.
Lemma blind_archives : fault_blind jn_archives. Proof. done. Qed.
Lemma blind_file : fault_blind jn_file. Proof. done. Qed.
#[export] Hint Resolve keeps_next_fault keeps_io keeps_write blind_index blind_archives blind_file : keeps.

Lemma writer_append_index b s : jn_index (writer_append b s) = jn_index s.
Proof. unfold writer_append. by destruct (jn_orphan s). Qed.
Lemma writer_append_archives b s : jn_archives (writer_append b s) = jn_archives s.
Proof. unfold writer_append. by destruct (jn_orphan s). Qed.
#[export] Hint Resolve writer_append_index writer_append_archives : keeps.

Section Facts.
Context `{UuidLib, JobCodec}.

Lemma keeps_scan {C} (f : JournalJobStore -> C) c : fault_blind f -> keeps f (scan_path c).
Proof.
  intros Hf. apply keeps_bind; [auto with keeps|]. intros _. apply keeps_bind; [auto with keeps|].
  intros s. destruct (jn_file s); auto with keeps.
Qed.

Lemma keeps_snapshot {C} (f : JournalJobStore -> C) now seq jobs :
  fault_blind f -> keeps f (snapshot_lines now seq jobs).
Proof. intros Hf. revert seq. induction jobs as [|j jobs IH]; intros seq; simpl; auto 10 with keeps. Qed.

Lemma keeps_compact {C} (f : JournalJobStore -> C) now jobs :
  fault_blind f -> (forall b s, f (replace_file b s) = f s) -> keeps f (compact_journal now jobs).
Proof.
  intros Hf Hr. unfold compact_journal.
  auto 20 using keeps_snapshot, keeps_modify with keeps.
Qed.

Lemma keeps_reopen {C} (f : JournalJobStore -> C) :
  fault_blind f -> (forall s o, f (s <| jn_orphan := o |>) = f s) -> keeps f reopen.
Proof.
  intros Hf Ho. unfold reopen. repeat (apply keeps_bind; [auto with keeps|intros ?]).
  destruct (jn_file _); auto using keeps_modify with keeps.
Qed.
#[local] Hint Resolve keeps_scan keeps_compact keeps_reopen : keeps.

Lemma keeps_compact_if_due {C} (f : JournalJobStore -> C) now :
  fault_blind f -> (forall b s, f (replace_file b s) = f s) ->
  (forall s o, f (s <| jn_orphan := o |>) = f s) ->
  (forall s n, f (s <| jn_next_sequence := n |>) = f s) -> keeps f (compact_if_due now).
Proof.
  intros Hf Hr Ho Hn. unfold compact_if_due. apply keeps_bind; [auto with keeps|]. intros s.
  destruct (_ <=? _); auto 20 using keeps_modify with keeps.
Qed.

(** A bind that fails early, or goes on from a state with the same index and archives. *)
Lemma bind_keeping {A B} (m : IO A) (k : A -> IO B) s r s' :
  sbind m k s = (r, s') -> keeps jn_index m -> keeps jn_archives m ->
  (is_ok r = false /\ jn_index s' = jn_index s /\ jn_archives s' = jn_archives s)
  \/ exists a s1, k a s1 = (r, s') /\ jn_index s1 = jn_index s /\ jn_archives s1 = jn_archives s.
Proof.
  intros Hb Hi Ha. unfold sbind in Hb. specialize (Hi s). specialize (Ha s).
  destruct (m s) as [[a|e] s1]; simpl in *; [right; eauto|]. injection Hb as <- <-. auto.
Qed.

(** An append files the job in the index or fails without touching it; the archives
    never change. *)
Lemma journal_append_index now ev j s r s' :
  journal_append now ev j s = (r, s') ->
  (jn_index s' = <[j.(job_id) := j]> (jn_index s) \/ (is_ok r = false /\ jn_index s' = jn_index s))
  /\ jn_archives s' = jn_archives s.
Proof.
  intros Hx. unfold journal_append in Hx.
  repeat (apply bind_keeping in Hx as [(? & -> & ->)|(? & ? & Hx & <- & <-)];
    [by auto| |solve [auto with keeps]..]).
  unfold sbind, smodify in Hx.
  match type of Hx with compact_if_due now ?x = _ =>
    pose proof (keeps_compact_if_due jn_index now blind_index ltac:(done) ltac:(done) ltac:(done) x) as Hi;
    pose proof (keeps_compact_if_due jn_archives now blind_archives ltac:(done) ltac:(done) ltac:(done) x) as Ha
  end.
  rewrite Hx in Hi, Ha. simpl in Hi, Ha. rewrite Hi, Ha. auto.
Qed.

#[export] Instance journal_store_laws : JobStoreLaws JournalJobStore.
Proof.
  refine {| st_view := jn_index |}.
  - intros now j s r s' Hp. by apply journal_append_index in Hp as [? _].
  - intros now j ev s r s' Hp. by apply journal_append_index in Hp as [? _].
  - intros id s r s' [= <- <-]. split; [done|]. intros o Ho. by injection Ho as <-.
  - intros s l s' [= <- <-]. done.
  - intros s l s' [= <- <-]. done.
Defined.

(** ** Opening never resumes an interrupted job *)

(** A device that fails at the end of the bytes makes the scan fail. *)
Lemma read_failing_reader b m max :
  blen b < u64_max -> max = u64_max ->
  exists x r', read_jsonl_line_buffered (MkReader b (Some m)) max = (x, r') /\
    (x = Err (DeviceError m) \/ exists line, x = Ok (Complete line)).
Proof.
  intros Hb ->. unfold read_jsonl_line_buffered. cbn [rd_bytes rd_fails].
  change (saturating_add u64_max 1) with u64_max.
  destruct (read_until u64_max b) as [line rest] eqn:E. apply read_until_app in E. subst b.
  rewrite blen_app in Hb. pose proof (blen_nonneg rest). unfold hit_end.
  destruct (ends_with_newline line) eqn:En; simpl.
  - eexists _, _. split; [done|]. right. exists line.
    destruct (Z.eqb_spec (blen line) 0) as [Hz|Hz].
    { destruct line; [done|unfold blen in Hz; simpl in Hz; lia]. }
    replace (u64_max <? blen line) with false by lia. done.
  - replace (blen line <? u64_max) with true by lia. eauto.
Qed.

Lemma scan_failing_reader collect b m fuel h d :
  blen b < u64_max -> exists e d',
  scan_loop (job_decoder collect) scan_options fuel (MkReader b (Some m)) None h d = (Err e, d').
Proof.
  revert b h d. induction fuel as [|fuel IH]; intros b h d Hb; [eauto|]. cbn [scan_loop].
  destruct (read_failing_reader b m (so_max_line_bytes scan_options) Hb eq_refl)
    as (x & r' & E & Hx). rewrite E.
  destruct Hx as [->|[line ->]]; [eauto|].
  apply read_line_consumes in E as (Hbb & Hl & Hf). cbn [rd_bytes rd_fails] in Hbb, Hf.
  destruct r' as [b' f']. cbn [rd_bytes rd_fails] in *. subst b f'.
  rewrite blen_app in Hb.
  destruct (ld_decode _ _ d) as [[p|e] d1]; [|eauto].
  destruct (observe_line _ _ _ _ _) as [h' v]. cbn [ld_apply job_decoder JobDecoder_apply].
  unfold sbind, smodify, sret. apply IH. lia.
Qed.

Lemma blen_take n b : blen (take n b) <= blen b.
Proof. unfold blen. rewrite length_take. lia. Qed.

Lemma scan_path_ok collect s scan s1 :
  scan_path collect s = (Ok scan, s1) ->
  (forall b, jn_file s = Some b -> blen b < u64_max) ->
  s1 = s <| jn_faults := jn_faults s1 |>
  /\ match jn_file s with
     | None => scan = Scan_default
     | Some b => scan_reader collect (MkReader b None) = Ok scan
     end.
Proof.
  intros Hs Hb.
  pose proof (keeps_scan (fun s => s <| jn_faults := [] |>) collect (fun _ _ => eq_refl) s) as Hk.
  rewrite Hs in Hk. cbn [snd] in Hk. split.
  { destruct s, s1; cbn in *. by injection Hk as -> -> -> -> -> ->. }
  unfold scan_path in Hs. unfold sbind at 1 in Hs.
  pose proof (keeps_io jn_file blind_file s) as Hf.
  destruct (io s) as [[[]|e] s2]; [|done]. cbn [snd] in Hf.
  unfold sbind at 1, sget in Hs. rewrite Hf in Hs.
  destruct (jn_file s) as [b|] eqn:Eb; [|by injection Hs as <- <-].
  specialize (Hb b eq_refl). unfold sbind at 1 in Hs.
  destruct (next_fault s2) as [[f|e] s3] eqn:En; [|done].
  unfold slift in Hs. injection Hs as Hs _.
  assert (Hbad : forall b' m, blen b' < u64_max -> exists e, scan_reader collect (MkReader b' (Some m)) = Err e).
  { intros b' m Hb'. unfold scan_reader, scan_jsonl, Ledger.scan.
    destruct (scan_failing_reader collect b' m (length b' + 2) health_start (MkJobDecoder ∅ 0) Hb')
      as (e & d' & He). cbn [rd_bytes]. rewrite He. eauto. }
  destruct f as [|m|n m]; [done|..].
  - by destruct (Hbad [] m) as [e He]; [done|]; congruence.
  - destruct (Hbad (take n b) m) as [e He]; [|congruence]. pose proof (blen_take n b). lia.
Qed.

(** What recovery turns a job into. *)
Lemma recover_job_status damaged j :
  (recover_job damaged j).(job_id) = j.(job_id)
  /\ (recover_job damaged j).(job_status) <> Running
  /\ (damaged = true -> (recover_job damaged j).(job_status) = ReconciliationRequired
        /\ (recover_job damaged j).(job_result) = None
        /\ (recover_job damaged j).(job_resolution) = None).
Proof.
  unfold recover_job. destruct damaged; [done|]. destruct (bool_decide_reflect (job_status j = Running)).
  - done.
  - case_bool_decide; naive_solver.
Qed.

Lemma collect_by_id_Forall (P : Job -> Prop) jobs (m : gmap JobId Job) :
  Forall P jobs -> map_Forall (fun _ => P) m ->
  map_Forall (fun _ => P) (fold_left (fun m j => <[j.(job_id) := j]> m) jobs m).
Proof.
  intros Hj. revert m. induction Hj as [|j jobs Hj _ IH]; intros m Hm; simpl; [done|].
  apply IH. by apply map_Forall_insert_2.
Qed.

Lemma append_all_index (P : Job -> Prop) now ev jobs s r s' :
  append_all now ev jobs s = (r, s') -> Forall P jobs -> map_Forall (fun _ => P) (jn_index s) ->
  map_Forall (fun _ => P) (jn_index s') /\ jn_archives s' = jn_archives s.
Proof.
  intros Hx Hj. revert s Hx. induction Hj as [|j jobs Hp _ IH]; intros s Hx Hi; simpl in Hx.
  { injection Hx as <- <-. done. }
  unfold sbind in Hx. destruct (journal_append now ev j s) as [[[]|e] s1] eqn:E;
    apply journal_append_index in E as [Ei Ea].
  - destruct Ei as [Ei|[Hf _]]; [|done]. apply IH in Hx as [? ->]; [done|].
    rewrite Ei. by apply map_Forall_insert_2.
  - injection Hx as <- <-. split; [|done].
    destruct Ei as [-> | [_ ->]]; [by apply map_Forall_insert_2|done].
Qed.

Lemma map_Forall_keys_subseteq (P : Job -> Prop) (m m' : gmap JobId Job) :
  m' ⊆ m -> map_Forall (fun _ => P) m -> map_Forall (fun _ => P) m'.
Proof. intros Hs Hm id j Hj. eapply Hm, lookup_weaken; eauto. Qed.

Lemma compact_keeps_index now jobs s r s' :
  compact_journal now jobs s = (r, s') ->
  jn_index s' = jn_index s /\ jn_archives s' = jn_archives s.
Proof.
  intros Hc. pose proof (keeps_compact jn_index now jobs blind_index (fun _ _ => eq_refl) s) as Hi.
  pose proof (keeps_compact jn_archives now jobs blind_archives (fun _ _ => eq_refl) s) as Ha.
  by rewrite Hc in Hi, Ha.
Qed.

Lemma publish_index_keeps now damaged m index s n s' :
  publish_index now damaged m index s = (Ok n, s') -> jn_index s = index ->
  jn_index s' ⊆ index /\ jn_archives s' = jn_archives s.
Proof.
  intros Hp Hi. unfold publish_index in Hp.
  destruct damaged; [|destruct (above_threshold m)].
  - apply sbind_ok in Hp as ([] & s1 & Hc & Hp). injection Hp as _ <-.
    apply compact_keeps_index in Hc as [-> ->]. by rewrite Hi.
  - apply sbind_ok in Hp as ([] & s1 & Hm & Hp). injection Hm as <-.
    apply sbind_ok in Hp as ([] & s2 & Hc & Hp). injection Hp as _ <-.
    apply compact_keeps_index in Hc as [-> ->]. split; [apply prune_oldest_subseteq|done].
  - injection Hp as _ <-. by rewrite Hi.
Qed.

(** The steps of a successful open. *)
Lemma journal_open_ok now s s' :
  journal_open now s = (Ok tt, s') ->
  (forall b, jn_file s = Some b -> blen b < u64_max) ->
  exists scan sa index',
    match jn_file s with
    | None => scan = Scan_default
    | Some b => scan_reader true (MkReader b None) = Ok scan
    end
    /\ jn_index sa = index'
    /\ index' ⊆ collect_by_id (recover_job (scan_damaged scan) <$> scan.(scn_jobs))
    /\ jn_archives sa = jn_archives s ++ (if scan_damaged scan then option_list (jn_file s) else [])
    /\ append_all now EvRecovered (recovered_jobs (scan_damaged scan) scan.(scn_jobs)) sa
       = (Ok tt, s').
Proof.
  intros Ho Hb. unfold journal_open in Ho.
  apply sbind_ok in Ho as ([] & s1 & H1 & Ho).
  pose proof (keeps_io jn_file blind_file s) as Hf1.
  pose proof (keeps_io jn_archives blind_archives s) as Ha1.
  rewrite H1 in Hf1, Ha1. cbn [snd] in Hf1, Ha1.
  apply sbind_ok in Ho as (scan & s2 & H2 & Ho).
  apply scan_path_ok in H2 as [Es2 Hscan]; [|by rewrite Hf1]. rewrite Hf1 in Hscan.
  apply sbind_ok in Ho as ([] & s3 & H3 & Ho).
  apply sbind_ok in Ho as ([] & s4 & H4 & Ho). injection H4 as <-.
  apply sbind_ok in Ho as (nseq & s5 & H5 & Ho).
  apply publish_index_keeps in H5 as [Hi5 Ha5]; [|done].
  apply sbind_ok in Ho as ([] & s6 & H6 & Ho).
  pose proof (keeps_io jn_index blind_index s5) as Hi6.
  pose proof (keeps_io jn_archives blind_archives s5) as Ha6.
  rewrite H6 in Hi6, Ha6. cbn [snd] in Hi6, Ha6.
  apply sbind_ok in Ho as ([] & s7 & H7 & Ho). injection H7 as <-.
  eexists scan, _, _. split_and!; [exact Hscan|reflexivity| | |exact Ho].
  - cbn [set_field jn_index]. by rewrite Hi6.
  - cbn [set_field jn_archives] in Ha5 |- *. rewrite Ha6, Ha5.
    destruct (scan_damaged scan).
    + unfold archive_damaged_journal in H3. apply sbind_ok in H3 as ([] & sb & Hb1 & H3).
      apply sbind_ok in H3 as ([] & sc & Hb2 & H3). injection Hb2 as <-.
      pose proof (keeps_io jn_archives blind_archives s2) as Hk2.
      pose proof (keeps_io jn_file blind_file s2) as Hk3. rewrite Hb1 in Hk2, Hk3.
      match type of H3 with io ?x = _ => pose proof (keeps_io jn_archives blind_archives x) as Hk4 end.
      rewrite H3 in Hk4. cbn in Hk2, Hk3, Hk4. rewrite Hk4, Hk2, Hk3, Es2. cbn. by rewrite Ha1, Hf1.
    + injection H3 as <-. rewrite Es2. cbn. by rewrite Ha1, app_nil_r.
Qed.

(** Opening a journal never resumes work that may have had an effect.  Whatever the
    bytes of the file and whichever I/O calls fail, when [open] succeeds no job of the
    store is running; and when the scan found damage, every job awaits reconciliation
    without a result or resolution, and the damaged bytes are kept in an archive. *)
Theorem journal_open_never_resumes now s s' :
  journal_open now s = (Ok tt, s') ->
  (forall b, jn_file s = Some b -> blen b < u64_max) ->
  map_Forall (fun _ j => j.(job_status) <> Running) (jn_index s')
  /\ (forall b scan, jn_file s = Some b -> scan_reader true (MkReader b None) = Ok scan ->
        scan_damaged scan = true ->
        map_Forall (fun _ j => j.(job_status) = ReconciliationRequired
                       /\ j.(job_result) = None /\ j.(job_resolution) = None) (jn_index s')
        /\ b ∈ jn_archives s').
Proof.
  intros Ho Hb. apply journal_open_ok in Ho as (scan & sa & ix & Hscan & Hix & Hsub & Harch & Ho);
    [|done].
  assert (Hgen : forall P : Job -> Prop, (forall j, P (recover_job (scan_damaged scan) j)) ->
    Forall P (recovered_jobs (scan_damaged scan) scan.(scn_jobs)) ->
    map_Forall (fun _ => P) (jn_index s') /\ jn_archives s' = jn_archives sa).
  { intros P HP HR. eapply append_all_index; [exact Ho|done|]. rewrite Hix.
    eapply map_Forall_keys_subseteq; [exact Hsub|].
    apply collect_by_id_Forall; [|apply map_Forall_empty].
    apply Forall_fmap, Forall_true. intros j. apply HP. }
  split.
  - apply (Hgen (fun j => job_status j <> Running)).
    + intros j. apply recover_job_status.
    + unfold recovered_jobs. destruct (scan_damaged scan); [constructor|].
      apply Forall_fmap, Forall_true. by intros j.
  - intros b scan' Hfb Hs' Hd. rewrite Hfb in Hscan, Harch. rewrite Hscan in Hs'.
    injection Hs' as <-. rewrite Hd in *.
    destruct (Hgen (fun j => job_status j = ReconciliationRequired /\ job_result j = None
      /\ job_resolution j = None)) as [Hm Ha].
    + intros j. by apply (recover_job_status true).
    + constructor.
    + split; [exact Hm|]. rewrite Ha, Harch. set_solver.
Qed.
End Facts.

(** ** Durability *)

Section Durability.
Context `{UuidLib, JobCodecLaws}.

Definition acceptable (ev : JobEvent) (j : Job) : Prop :=
  has_valid_resolution j = true /\ event_matches ev j.(job_status) = true.

Definition latest (rs : list JournalRecord) : gmap JobId Job :=
  fold_left (fun m r => <[r.(jrec_job).(job_id) := unlatched r.(jrec_job)]> m) rs ∅.

(** The line of a record. *)
Definition is_line (r : JournalRecord) (l : bytes) : Prop :=
  exists b, encode_record r = Ok b /\ l = b ++ [newline].

Definition good_record (r : JournalRecord) : Prop :=
  r.(jrec_schema_version) = JOURNAL_SCHEMA_VERSION /\ acceptable r.(jrec_event) r.(jrec_job).

(** The writer is attached to a file that holds the records, numbered from zero. *)
Record journal_file (s : JournalJobStore) (rs : list JournalRecord) : Prop := MkJournalFile {
  js_orphan : jn_orphan s = None;
  js_faults : jn_faults s = [];
  js_file : exists ls, jn_file s = Some (concat ls) /\ Forall2 is_line rs ls;
  js_good : Forall good_record rs;
  js_sequences : jrec_sequence <$> rs = seqZ 0 (Z.of_nat (length rs));
  js_next : jn_next_sequence s = Z.of_nat (length rs);
}.

Lemma io_faultless s : jn_faults s = [] -> io s = (Ok tt, s).
Proof. intros Hf. unfold io, sbind, next_fault. by rewrite Hf. Qed.

Lemma write_faultless b s : jn_faults s = [] -> file_write_all b s = (Ok tt, writer_append b s).
Proof. intros Hf. unfold file_write_all, sbind, next_fault. by rewrite Hf. Qed.

Lemma latest_snoc rs r :
  latest (rs ++ [r]) = <[r.(jrec_job).(job_id) := unlatched r.(jrec_job)]> (latest rs).
Proof. unfold latest. by rewrite fold_left_app. Qed.

Lemma append_file now ev j s rs :
  journal_file s rs -> acceptable ev j ->
  Z.of_nat (length rs) + 1 < Z.of_nat (size (<[j.(job_id) := j]> (jn_index s))) + COMPACT_THRESHOLD ->
  Z.of_nat (length rs) < u64_max ->
  exists s', journal_append now ev j s = (Ok tt, s')
    /\ journal_file s' (rs ++ [MkJournalRecord JOURNAL_SCHEMA_VERSION (Z.of_nat (length rs)) now ev j])
    /\ jn_index s' = <[j.(job_id) := j]> (jn_index s).
Proof.
  intros [Ho Hf (ls & Hfile & Hls) Hg Hseq Hnext] Hacc Hsize Hmax.
  unfold journal_append. unfold sbind at 1, sget. rewrite Hnext.
  unfold sbind at 1, slift at 1, checked_add.
  destruct (Z.leb_spec (Z.of_nat (length rs) + 1) u64_max); [|lia]. cbn [ok_or].
  set (rec := MkJournalRecord _ _ _ _ _). destruct (proj1 (is_ok_true _) (codec_total rec)) as [b Hb].
  unfold sbind at 1, slift at 1. rewrite Hb. cbn [map_err].
  unfold sbind at 1. rewrite write_faultless by done.
  unfold writer_append. rewrite Ho, Hfile. cbn [default].
  unfold sbind at 1. rewrite io_faultless by done.
  unfold sbind at 1. rewrite io_faultless by done.
  unfold sbind at 1, smodify. unfold compact_if_due, sbind at 1, sget.
  cbn [set_field jn_index jn_next_sequence].
  match goal with |- context [if ?c then _ else _] => replace c with false by lia end.
  eexists. split; [reflexivity|]. cbn [set_field jn_index]. split; [|done].
  constructor; cbn [set_field jn_orphan jn_faults jn_file jn_next_sequence jn_index]; auto.
  - exists (ls ++ [b ++ [newline]]). split; [by rewrite concat_app; cbn; rewrite app_nil_r|].
    apply Forall2_app; [done|]. repeat constructor. exists b. done.
  - apply Forall_app. split; [done|]. apply Forall_singleton. split; [done|exact Hacc].
  - rewrite fmap_app, Hseq, length_app. cbn [length fmap list_fmap jrec_sequence].
    replace (Z.of_nat (length rs + 1)) with (Z.of_nat (length rs) + 1) by lia.
    rewrite <-seqZ_snoc by lia. done.
  - rewrite length_app. cbn [length]. lia.
Qed.

(** A health report without an issue, after the records below [k]. *)
Definition clean (h : LedgerHealth) (k : Z) : Prop :=
  h.(lh_issue_counts) = replicate 8 0 /\ h.(lh_incompatible_records) = 0
  /\ h.(lh_max_observed_sequence) = if k =? 0 then None else Some (k - 1).

Lemma observe_clean h k n o (r : JournalRecord) :
  clean h k -> 0 <= k < u64_max ->
  exists h', observe_line Increasing h (MkPreparedRecord (Accepted (Some k)) (Some r)) n o = (h', Valid)
    /\ clean h' (k + 1).
Proof.
  intros (Hc & Hi & Hm) Hk. unfold observe_line. cbn [pr_record pr_observation observe].
  assert (Hv : sequence_valid Increasing (h <| lh_decoded_records := saturating_add h.(lh_decoded_records) 1 |>)
    (Some k) = true).
  { cbn [sequence_valid set_field lh_max_observed_sequence]. rewrite Hm.
    destruct (Z.eqb_spec k 0); [done|]. apply Z.ltb_lt. lia. }
  rewrite Hv. cbn [negb].
  replace (k =? u64_max) with false by lia. cbn [andb orb].
  rewrite bool_decide_eq_true_2 by eauto. cbn [andb is_sequenced negb].
  eexists. split; [reflexivity|]. unfold clean.
  cbn [set_field lh_issue_counts lh_incompatible_records lh_max_observed_sequence].
  split_and!; [done|done|]. rewrite Hm. destruct (Z.eqb_spec k 0), (Z.eqb_spec (k + 1) 0);
    cbn [option_max]; f_equal; lia.
Qed.

Lemma has_valid_resolution_unlatched j : has_valid_resolution (unlatched j) = has_valid_resolution j.
Proof. done. Qed.

Lemma decode_line r b d o n :
  good_record r -> encode_record r = Ok b ->
  JobDecoder_decode (MkJsonlLine o n (b ++ [newline])) d
  = (Ok (MkPreparedRecord (Accepted (Some r.(jrec_sequence))) (Some (unlatched_record r))),
     MkJobDecoder d.(jd_latest) (d.(jd_records) + 1)).
Proof.
  intros (Hs & Hres & Hev) Hb. destruct (codec_one_line _ _ Hb) as [_ Hne].
  unfold JobDecoder_decode. cbn [ln_bytes]. rewrite length_app. cbn [length].
  replace (length b + 1 - 1)%nat with (length b) by lia. rewrite take_app_length.
  rewrite (codec_roundtrip _ _ Hb). destruct b as [|c b]; [done|].
  unfold sbind, smodify, sret. cbn [unlatched_record jrec_schema_version jrec_job jrec_event jrec_sequence].
  rewrite Hs, has_valid_resolution_unlatched, Hres. cbn [unlatched set_field job_status].
  rewrite Hev. done.
Qed.

Lemma apply_valid ln o r d :
  JobDecoder_apply true ln (MkPreparedRecord o (Some r)) Valid d
  = (Ok Continue, MkJobDecoder (<[r.(jrec_job).(job_id) := r.(jrec_job)]> d.(jd_latest)) d.(jd_records)).
Proof. done. Qed.

Lemma scan_records rs ls k fuel h d :
  Forall2 is_line rs ls -> Forall good_record rs ->
  jrec_sequence <$> rs = seqZ k (Z.of_nat (length rs)) -> 0 <= k ->
  k + Z.of_nat (length rs) < u64_max -> blen (concat ls) < u64_max -> clean h k ->
  (length (concat ls) < fuel)%nat ->
  exists h' d', scan_loop (job_decoder true) scan_options fuel (MkReader (concat ls) None) None h d
    = (Ok h', d')
    /\ clean h' (k + Z.of_nat (length rs))
    /\ d'.(jd_latest) = fold_left (fun m r => <[r.(jrec_job).(job_id) := unlatched r.(jrec_job)]> m)
                          rs d.(jd_latest).
Proof.
  intros Hl. revert k fuel h d.
  induction Hl as [|r l rs ls (b & Hb & ->) Hl IH];
    intros k [|fuel] h d Hg Hseq Hk Hmax Hlen Hc Hf; try (cbn in Hf; lia).
  - cbn [scan_loop concat]. rewrite read_last by (try done; constructor). cbn.
    eexists _, _. split; [reflexivity|]. rewrite Z.add_0_r. done.
  - inversion Hg as [|?? Hr Hg']; subst.
    destruct (codec_one_line _ _ Hb) as [Hnn _].
    cbn [concat] in *. rewrite <-app_assoc in *. cbn [app] in *.
    rewrite blen_app in Hlen. assert (E : blen (newline :: concat ls) = 1 + blen (concat ls))
      by (unfold blen; cbn [length]; lia). rewrite E in Hlen.
    pose proof (blen_nonneg b). pose proof (blen_nonneg (concat ls)).
    cbn [scan_loop]. rewrite read_complete by (try done; cbn; lia).
    cbn [ld_decode job_decoder]. rewrite (decode_line _ _ _ _ _ Hr Hb).
    rewrite seqZ_cons in Hseq by (cbn; lia). cbn [fmap list_fmap] in Hseq.
    injection Hseq as Hk0 Hseq. rewrite Hk0. cbn [length] in *.
    cbn [so_sequence_rule scan_options].
    match goal with |- context [observe_line Increasing ?h1 _ ?n ?o] =>
      destruct (observe_clean h1 k n o (unlatched_record r)) as (h2 & Ho & Hc2); [exact Hc|lia|] end.
    rewrite Ho. cbn [ld_apply job_decoder]. rewrite apply_valid.
    destruct (IH (k + 1) fuel h2
      (MkJobDecoder (<[job_id (jrec_job r) := unlatched (jrec_job r)]> (jd_latest d)) (jd_records d + 1)))
      as (h' & d' & Hs & Hc' & Hd); [done| |lia|lia|lia|exact Hc2| |].
    { rewrite Hseq. f_equal; lia. }
    { rewrite length_app in Hf. cbn [length] in Hf. lia. }
    exists h', d'. split; [exact Hs|]. split; [|exact Hd].
    replace (k + Z.of_nat (S (length rs))) with (k + 1 + Z.of_nat (length rs)) by lia. done.
Qed.

Lemma size_insert_le (m : gmap JobId Job) id j : (size m <= size (<[id := j]> m))%nat.
Proof.
  destruct (m !! id) eqn:E; [rewrite map_size_insert_Some by eauto; lia|].
  rewrite map_size_insert_None by done. lia.
Qed.

(** Journaling a list of jobs, one record each. *)
Fixpoint run_updates (us : list (Time * JobEvent * Job)) : IO unit :=
  match us with
  | [] => sret tt
  | (now, ev, j) :: us' => journal_update now j ev ;; run_updates us'
  end.

Lemma run_updates_file us s rs :
  journal_file s rs -> Forall (fun u => acceptable u.1.2 u.2) us ->
  Z.of_nat (length rs + length us) < Z.of_nat (size (jn_index s)) + COMPACT_THRESHOLD ->
  Z.of_nat (length rs + length us) < u64_max ->
  exists s' recs, run_updates us s = (Ok tt, s') /\ journal_file s' (rs ++ recs)
    /\ length recs = length us
    /\ jn_index s' = fold_left (fun m j => <[j.(job_id) := j]> m) us.*2 (jn_index s)
    /\ jrec_job <$> recs = us.*2.
Proof.
  intros Hf Hu. revert s rs Hf. induction Hu as [|[[now ev] j] us Ha _ IH]; intros s rs Hf Hs Hm.
  { exists s, []. rewrite app_nil_r. done. }
  cbn [length] in *. simpl in Ha. cbn [run_updates]. unfold sbind, journal_update.
  pose proof (size_insert_le (jn_index s) (job_id j) j) as Hle.
  destruct (append_file now ev j s rs Hf Ha) as (s1 & Ho & Hf1 & Hi); [lia|lia|].
  rewrite Ho. destruct (IH s1 _ Hf1) as (s2 & recs & Hr & Hf2 & Hlen & Hi2 & Hj).
  - rewrite length_app, Hi. cbn [length]. lia.
  - rewrite length_app. cbn [length]. lia.
  - rewrite <-app_assoc in Hf2. eexists s2, _. split_and!; [exact Hr|exact Hf2|..]; cbn.
    + by rewrite Hlen.
    + by rewrite Hi2, Hi.
    + by rewrite Hj.
Qed.

Lemma append_all_run now ev js : append_all now ev js = run_updates ((fun j => (now, ev, j)) <$> js).
Proof. induction js as [|j js IH]; simpl; [done|]. by rewrite IH. Qed.

(** What is left of the store after the process ends. *)
Definition crash (s : JournalJobStore) : JournalJobStore :=
  MkJournalJobStore (jn_file s) (jn_archives s) None (jn_faults s) ∅ 0 false.

Definition empty_disk : JournalJobStore := MkJournalJobStore None [] None [] ∅ 0 false.

Lemma collect_by_id_recover f (m : gmap JobId Job) :
  by_id m -> (forall j, (f j).(job_id) = j.(job_id)) ->
  collect_by_id (f <$> values m) = f <$> m.
Proof.
  intros Hb Hf. unfold collect_by_id, values. rewrite <-(list_to_map_to_list m) at 2.
  assert (Hall : Forall (fun x => x.2.(job_id) = x.1) (map_to_list m)).
  { apply Forall_forall. intros [id j] Hin%elem_of_map_to_list. by apply Hb. }
  pose proof (NoDup_fst_map_to_list m) as Hn.
  cut (forall acc : gmap JobId Job, (forall id, id ∈ (map_to_list m).*1 -> acc !! id = None) ->
    fold_left (fun m j => <[j.(job_id) := j]> m) (f <$> (map_to_list m).*2) acc
    = (f <$> (list_to_map (map_to_list m) : gmap JobId Job)) ∪ acc).
  { intros Hc. rewrite Hc; [by rewrite map_union_empty|]. intros id _. apply lookup_empty. }
  induction Hall as [|[id j] l Hj _ IH]; intros acc Hacc; cbn in *; [by rewrite fmap_empty, map_empty_union|].
  inversion Hn as [|?? Hnot Hn']; subst. rewrite Hf. rewrite IH; [|done|].
  - rewrite fmap_insert, <-insert_union_r.
    + by rewrite insert_union_l.
    + rewrite lookup_fmap, not_elem_of_list_to_map_1; [done|]. exact Hnot.
  - intros id' Hid. rewrite lookup_insert_ne; [apply Hacc; by right|]. intros <-. done.
Qed.

Lemma latest_by_id rs : by_id (latest rs).
Proof.
  unfold latest. cut (forall m : gmap JobId Job, by_id m -> by_id (fold_left
    (fun m r => <[r.(jrec_job).(job_id) := unlatched r.(jrec_job)]> m) rs m)).
  { intros Hc. apply Hc, map_Forall_empty. }
  induction rs as [|r rs IH]; intros m Hm; cbn; [done|]. apply IH. by apply map_Forall_insert_2.
Qed.

(** Writing again what the map already holds changes nothing. *)
Lemma fold_insert_same (js : list Job) (m : gmap JobId Job) :
  Forall (fun j => m !! j.(job_id) = Some j) js ->
  fold_left (fun m j => <[j.(job_id) := j]> m) js m = m.
Proof. induction 1 as [|j js Hj _ IH]; cbn; [done|]. by rewrite insert_id. Qed.

Lemma recover_running j :
  j.(job_status) = Running -> require_reconciliation INTERRUPTED_REASON j = recover_job false j.
Proof.
  intros Hr. unfold recover_job. rewrite (bool_decide_eq_true_2 (job_status j = Running)) by done.
  cbv zeta. rewrite bool_decide_eq_true_2 by done. done.
Qed.

Lemma recovered_acceptable j :
  acceptable EvRecovered (require_reconciliation INTERRUPTED_REASON j)
  <-> j.(job_resolution) = None.
Proof.
  unfold acceptable, has_valid_resolution. cbn [require_reconciliation set_field job_resolution job_status].
  destruct (job_resolution j) as [r|]; [|done]. split; [|done]. intros [Hx _].
  rewrite !andb_true_iff, !bool_decide_eq_true in Hx. naive_solver.
Qed.

Lemma latest_size rs : (size (latest rs) <= length rs)%nat.
Proof.
  induction rs as [|r rs IH] using rev_ind; [done|]. rewrite latest_snoc, length_app. cbn [length].
  rewrite map_size_insert. destruct (latest rs !! job_id (jrec_job r)); cbn; lia.
Qed.

Lemma good_latest rs :
  Forall good_record rs ->
  map_Forall (fun _ j => has_valid_resolution j = true) (latest rs).
Proof.
  intros Hg. unfold latest. generalize (map_Forall_empty (K := JobId) (M := gmap JobId)
    (fun _ (j : Job) => has_valid_resolution j = true)).
  generalize (∅ : gmap JobId Job). induction Hg as [|r rs (_ & Hv & _) _ IH]; intros m Hm; cbn; [done|].
  apply IH. by apply map_Forall_insert_2.
Qed.

(** The scan of a well-formed file reads every job back and finds nothing wrong. *)
Lemma scan_reader_file rs ls :
  Forall2 is_line rs ls -> Forall good_record rs ->
  jrec_sequence <$> rs = seqZ 0 (Z.of_nat (length rs)) ->
  Z.of_nat (length rs) < COMPACT_THRESHOLD -> blen (concat ls) < u64_max ->
  exists scan, scan_reader true (MkReader (concat ls) None) = Ok scan
    /\ scan.(scn_jobs) = values (latest rs) /\ scan_damaged scan = false
    /\ above_threshold scan.(scn_max_sequence) = false
    /\ default 0 (match scan.(scn_max_sequence) with
                  | Some m => checked_add m 1
                  | None => None
                  end) = Z.of_nat (length rs).
Proof.
  intros Hl Hg Hseq Hn Hb. unfold COMPACT_THRESHOLD in Hn.
  destruct (scan_records rs ls 0 (length (concat ls) + 2) health_start (MkJobDecoder ∅ 0))
    as (h & d & Hs & (Hc & Hi & Hm) & Hd); try done; try (unfold u64_max; lia).
  unfold scan_reader, scan_jsonl, Ledger.scan. cbn [rd_bytes]. rewrite Hs.
  eexists. split; [reflexivity|]. cbn [scn_jobs scn_max_sequence].
  unfold scan_damaged. cbn [scn_torn_tail scn_incompatible_records scn_max_sequence].
  unfold issue_count. rewrite Hc, Hi, Hm, Hd. cbn [jd_latest]. split; [done|].
  rewrite Z.add_0_l. change (default 0 (replicate 8 0 !! kind_index TornTail)) with 0. cbn [Z.ltb orb].
  unfold above_threshold, COMPACT_THRESHOLD, checked_add.
  destruct (Z.eqb_spec (Z.of_nat (length rs)) 0) as [->|Hne].
  { split; [by rewrite bool_decide_eq_false_2|done]. }
  split_and!.
  - rewrite orb_false_l. apply bool_decide_eq_false. intros [= He]. unfold u64_max in He. lia.
  - lia.
  - destruct (Z.leb_spec (Z.of_nat (length rs) - 1 + 1) u64_max) as [?|Hx]; [cbn; lia|unfold u64_max in Hx; lia].
Qed.

Lemma open_file now s rs :
  journal_file s rs -> Z.of_nat (length rs) < COMPACT_THRESHOLD ->
  (forall b, jn_file s = Some b -> blen b < u64_max) ->
  exists s', journal_open now (crash s) = (Ok tt, s')
    /\ jn_index s' = recover_job false <$> latest rs.
Proof.
  intros [Ho Hf (ls & Hfile & Hls) Hg Hseq Hnext] Hn Hb. specialize (Hb _ Hfile).
  destruct (scan_reader_file rs ls Hls Hg Hseq Hn Hb) as (scan & Hs & Hjobs & Hdam & Hthr & Hns).
  unfold journal_open. unfold sbind at 1. rewrite io_faultless by done.
  unfold sbind at 1. unfold scan_path. unfold sbind at 1. rewrite io_faultless by done.
  unfold sbind at 1, sget. unfold crash. cbn [jn_file jn_archives jn_faults]. rewrite Hfile.
  unfold sbind at 1, next_fault. cbn [jn_faults]. rewrite Hf. unfold slift. rewrite Hs, Hdam.
  unfold sbind at 1, sret at 1. unfold sbind at 1, smodify at 1.
  unfold publish_index. rewrite Hthr, Hns. unfold sbind at 1, sret at 1.
  unfold sbind at 1. rewrite io_faultless by done. unfold sbind at 1, smodify at 1.
  cbn [set_field jn_file jn_index jn_archives jn_orphan jn_faults jn_next_sequence jn_recovered_torn_tail default].
  rewrite append_all_run, Hjobs.
  assert (Hid : forall j, (recover_job false j).(job_id) = j.(job_id)) by (intros j; apply recover_job_status).
  rewrite (collect_by_id_recover _ _ (latest_by_id rs) Hid).
  set (js := recovered_jobs false (values (latest rs))).
  assert (Hjs : Forall (fun j => exists j0, j = recover_job false j0 /\ job_status j0 = Running
                          /\ latest rs !! job_id j0 = Some j0) js).
  { unfold js, recovered_jobs. apply Forall_fmap. apply Forall_forall. intros j0 Hj0.
    apply list_elem_of_filter in Hj0 as [Hr Hin]. exists j0. split; [by apply recover_running|].
    split; [done|]. unfold values in Hin. apply list_elem_of_fmap in Hin as ([id j1] & -> & Hin).
    apply elem_of_map_to_list in Hin. simpl. by rewrite (latest_by_id rs _ _ Hin). }
  assert (Hlen : (length js <= size (latest rs))%nat).
  { unfold js, recovered_jobs. rewrite length_fmap. etransitivity; [apply length_filter|].
    unfold values. by rewrite length_fmap, length_map_to_list. }
  match goal with |- context [run_updates _ ?sa] =>
    destruct (run_updates_file ((fun j => (now, EvRecovered, j)) <$> js) sa rs)
      as (s' & recs & Hrun & _ & _ & Hi & _) end.
  - constructor; cbn; eauto.
  - apply Forall_fmap. eapply Forall_impl; [exact Hjs|]. intros j (j0 & -> & Hr & Hl0). simpl.
    rewrite <-(recover_running j0 Hr). apply recovered_acceptable.
    pose proof (good_latest rs Hg _ _ Hl0) as Hv. unfold has_valid_resolution in Hv.
    destruct (job_resolution j0); [|done].
    rewrite !andb_true_iff, !bool_decide_eq_true in Hv.
    destruct Hv as [[[[[[_ Hst] _] _] _] _] _]. congruence.
  - cbn [jn_index]. rewrite length_fmap, map_size_fmap. lia.
  - rewrite length_fmap. unfold u64_max, COMPACT_THRESHOLD in *.
    pose proof (latest_size rs). lia.
  - exists s'. split; [exact Hrun|]. rewrite Hi. cbn [jn_index].
    rewrite <-list_fmap_compose. apply fold_insert_same.
    rewrite list_fmap_id. eapply Forall_impl; [exact Hjs|].
    intros j (j0 & -> & _ & Hl0). by rewrite Hid, lookup_fmap, Hl0.
Qed.

Lemma open_empty now :
  exists s0, journal_open now empty_disk = (Ok tt, s0) /\ journal_file s0 [] /\ jn_index s0 = ∅.
Proof.
  exists (MkJournalJobStore (Some []) [] None [] ∅ 0 false).
  split; [vm_compute; reflexivity|]. split; [|done]. constructor; try done. exists []. done.
Qed.

Lemma latest_collect rs : latest rs = unlatched <$> collect_by_id (jrec_job <$> rs).
Proof.
  unfold collect_by_id, latest.
  cut (forall m : gmap JobId Job,
    fold_left (fun m r => <[r.(jrec_job).(job_id) := unlatched r.(jrec_job)]> m) rs (unlatched <$> m)
    = unlatched <$> fold_left (fun m j => <[j.(job_id) := j]> m) (jrec_job <$> rs) m).
  { intros Hc. rewrite <-Hc. by rewrite fmap_empty. }
  induction rs as [|r rs IH]; intros m; cbn; [done|]. by rewrite <-IH, fmap_insert.
Qed.

(** C13: what the journal acknowledged survives the process.  After a fresh open and any
    sequence of fewer than 4096 updates whose events match their jobs, all acknowledged,
    the store lists the last state of every job; and opening the journal again after the
    process ended lists the same jobs, with those that were running turned over to
    reconciliation and nothing else changed (the in-memory latch apart). *)
Theorem journal_reopen_restores_jobs t0 t1 us :
  Forall (fun u => acceptable u.1.2 u.2) us ->
  Z.of_nat (length us) < COMPACT_THRESHOLD ->
  exists s0 s1, journal_open t0 empty_disk = (Ok tt, s0) /\ run_updates us s0 = (Ok tt, s1)
    /\ jn_index s1 = collect_by_id us.*2
    /\ ((forall b, jn_file s1 = Some b -> blen b < u64_max) ->
        exists s2, journal_open t1 (crash s1) = (Ok tt, s2)
          /\ jn_index s2 = recover_job false <$> (unlatched <$> jn_index s1)).
Proof.
  intros Hu Hn. destruct (open_empty t0) as (s0 & Ho & Hf & Hi).
  destruct (run_updates_file us s0 [] Hf Hu) as (s1 & recs & Hr & Hf1 & Hlen & Hi1 & Hj).
  { rewrite Hi, map_size_empty. cbn. lia. }
  { unfold u64_max, COMPACT_THRESHOLD in *. cbn. lia. }
  exists s0, s1. split_and!; [done|done|by rewrite Hi1, Hi|]. intros Hb.
  destruct (open_file t1 s1 recs) as (s2 & Ho2 & Hi2); [exact Hf1|lia|done|].
  exists s2. split; [done|]. by rewrite Hi2, latest_collect, Hj, Hi1, Hi.
Qed.
End Durability.

(** ** A concrete codec

    Records as binary numbers: enough to run the store and to discharge the codec's
    laws. *)

#[export] Instance JobStatus_countable : Countable JobStatus.
Proof.
  refine (inj_countable' (fun s => match s with Pending => 0 | Running => 1 | JobCompleted => 2
      | JobFailed => 3 | JobCancelled => 4 | ReconciliationRequired => 5 | Resolved => 6 end%nat)
    (fun n => match n with O => Pending | 1 => Running | 2 => JobCompleted | 3 => JobFailed
      | 4 => JobCancelled | 5 => ReconciliationRequired | _ => Resolved end%nat) _). by intros [].
Defined.
#[export] Instance JobEvent_countable : Countable JobEvent.
Proof.
  refine (inj_countable' (fun s => match s with EvSubmitted => 0 | EvStarted => 1 | EvCompleted => 2
      | EvFailed => 3 | EvRetried => 4 | EvCancelled => 5 | EvRecovered => 6 | EvResolved => 7 end%nat)
    (fun n => match n with O => EvSubmitted | 1 => EvStarted | 2 => EvCompleted | 3 => EvFailed
      | 4 => EvRetried | 5 => EvCancelled | 6 => EvRecovered | _ => EvResolved end%nat) _). by intros [].
Defined.
#[export] Instance JobResolutionDecision_countable : Countable JobResolutionDecision.
Proof.
  refine (inj_countable' (fun s => match s with EffectObserved => true | EffectAbsent => false end)
    (fun b : bool => if b then EffectObserved else EffectAbsent) _). by intros [].
Defined.
#[export] Instance JobResolutionReceipt_countable : Countable JobResolutionReceipt.
Proof.
  refine (inj_countable' (fun r => (jr_job_id r, jr_decision r, jr_evidence_sha256 r, jr_actor r,
                                    jr_resolved_at r, jr_provenance r))
    (fun '(a, b, c, d, e, f) => MkJobResolutionReceipt a b c d e f) _). by intros [].
Defined.
#[export] Instance JobResult_countable : Countable JobResult.
Proof.
  refine (inj_countable' (fun r => (jres_job_id r, jres_success r, jres_output r, jres_error r,
                                    jres_completed_at r))
    (fun '(a, b, c, d, e) => MkJobResult a b c d e) _). by intros [].
Defined.

(** The fields of a record, each as a number. *)
Definition record_fields (r : JournalRecord) : list positive :=
  let j := jrec_job r in
  [ encode (jrec_schema_version r); encode (jrec_sequence r); encode (jrec_recorded_at r);
    encode (jrec_event r); encode (job_resolution j); encode (job_id j); encode (job_name j);
    encode (job_priority j); encode (job_status j); encode (job_payload j);
    encode (job_created_at j); encode (job_started_at j); encode (job_completed_at j);
    encode (job_retry_count j); encode (job_max_retries j); encode (job_result j);
    encode (job_error j); encode (job_timeout_ms j); encode (job_correlation_id j);
    encode (job_owner j) ].

Definition fields_record (l : list positive) : option JournalRecord :=
  match l with
  | [v; q; t; ev; re; i; n; pr; st; pa; cr; sa; ca; rc; mr; rs; er; tm; co; ow] =>
      v ← decode v; q ← decode q; t ← decode t; ev ← decode ev; re ← decode re; i ← decode i;
      n ← decode n; pr ← decode pr; st ← decode st; pa ← decode pa; cr ← decode cr;
      sa ← decode sa; ca ← decode ca; rc ← decode rc; mr ← decode mr; rs ← decode rs;
      er ← decode er; tm ← decode tm; co ← decode co; ow ← decode ow;
      Some (MkJournalRecord v q t ev
              (MkJob false re i n pr st pa cr sa ca rc mr rs er tm co ow))
  | _ => None
  end.

Lemma fields_roundtrip r : fields_record (record_fields r) = Some (unlatched_record r).
Proof.
  unfold record_fields, fields_record. rewrite !decode_encode. cbn [mbind option_bind].
  by destruct r as [? ? ? ? []].
Qed.

(** A number as a line of the digits 0 and 1, lowest first. *)
Fixpoint digits (p : positive) : bytes :=
  match p with
  | xH => []
  | xO p => "0"%char :: digits p
  | xI p => "1"%char :: digits p
  end.
Fixpoint undigits (b : bytes) : positive :=
  match b with
  | [] => xH
  | c :: b => if Ascii.eqb c "1" then xI (undigits b) else xO (undigits b)
  end.

Lemma undigits_digits p : undigits (digits p) = p.
Proof. induction p; cbn; by rewrite ?IHp. Qed.
Lemma digits_one_line p : no_newline (digits p).
Proof. induction p; cbn; constructor; done. Qed.

#[export] Instance binary_codec : JobCodec := {|
  encode_record r := Ok ("#"%char :: digits (positives_flatten (record_fields r)));
  decode_record b := match b with
                     | c :: b => if Ascii.eqb c "#" then
                                   positives_unflatten (undigits b) ≫= fields_record
                                 else None
                     | [] => None
                     end;
|}.

#[export] Instance binary_codec_laws : JobCodecLaws.
Proof.
  split.
  - done.
  - intros r b [= <-]. cbn [decode_record binary_codec].
    change (Ascii.eqb "#" "#") with true. cbv iota.
    rewrite undigits_digits, positives_unflatten_flatten. apply fields_roundtrip.
  - intros r b [= <-]. split; [|done]. constructor; [done|apply digits_one_line].
Qed.

(** ** Concrete runs *)

#[export] Instance demo_uuid : UuidLib := {| uuid_parses := fun s => slen s =? 4 |}.

Definition demo_job (id : JobId) : Job := Job_new id 1 "echo" "null" Normal.
Definition demo_updates : list (Time * JobEvent * Job) :=
  [ (1, EvSubmitted, demo_job "job_0001"); (2, EvSubmitted, demo_job "job_0002");
    (3, EvStarted, job_start 3 (demo_job "job_0001")) ].

Definition opened (s : JournalJobStore) : JournalJobStore := (journal_open 0 s).2.

Lemma journal_reopen_restores_jobs_witness :
  Forall (fun u => acceptable u.1.2 u.2) demo_updates /\
  exists s1, run_updates demo_updates (opened empty_disk) = (Ok tt, s1)
    /\ jn_index s1 !! "job_0001" = Some (job_start 3 (demo_job "job_0001")).
Proof.
  assert (Ha : Forall (fun u => acceptable u.1.2 u.2) demo_updates) by (repeat constructor).
  split; [exact Ha|].
  destruct (journal_reopen_restores_jobs 0 9 demo_updates Ha) as (s0 & s1 & Ho & Hr & Hi & _);
    [reflexivity|].
  exists s1. unfold opened. rewrite Ho. split; [exact Hr|]. rewrite Hi. vm_compute. reflexivity.
Defined.

(** A file cut off inside a line. *)
Definition torn_disk : JournalJobStore :=
  let s := (run_updates demo_updates (opened empty_disk)).2 in
  empty_disk <| jn_file := Some (removelast (default [] (jn_file s))) |>.

Lemma journal_open_never_resumes_witness :
  exists s', journal_open 7 torn_disk = (Ok tt, s')
    /\ map_Forall (fun _ j => j.(job_status) <> Running) (jn_index s').
Proof.
  assert (Hok : is_ok (journal_open 7 torn_disk).1 = true) by (vm_compute; reflexivity).
  assert (Hbd : (blen (default [] (jn_file torn_disk)) <? u64_max) = true) by (vm_compute; reflexivity).
  destruct (journal_open 7 torn_disk) as [[[]|e] s'] eqn:E.
  - exists s'. split; [reflexivity|].
    apply (journal_open_never_resumes 7 torn_disk s' E).
    intros b Hb. rewrite Hb in Hbd. exact (proj1 (Z.ltb_lt _ _) Hbd).
  - exfalso. exact (Bool.diff_false_true Hok).
Defined.

(** The store opened on an empty disk whose next write stops after three bytes. *)
Definition filling_disk : JournalJobStore :=
  opened empty_disk <| jn_faults := [IoPartial 3 "no space left on device"] |>.
Definition after_torn := journal_put 1 (demo_job "job_0001") filling_disk.
Definition after_good := journal_put 2 (demo_job "job_0002") after_torn.2.
Definition after_restart := journal_open 3 (crash after_good.2).

(** A failed append does not take its partial bytes back, and the next append writes
    behind them.  The second job is acknowledged and listed, yet after a restart the
    store holds no job at all: its record shares a line with the torn one. *)
Theorem torn_append_loses_the_next_record :
  is_ok after_torn.1 = false
  /\ after_good.1 = Ok tt /\ jn_index after_good.2 !! "job_0002" = Some (demo_job "job_0002")
  /\ after_restart.1 = Ok tt /\ jn_index after_restart.2 = ∅.
Proof. split_and!; vm_compute; reflexivity. Qed.
