(* ===== verification/Lifecycle.v ===== *)
(** * The life of one job

    The shape of a job in each status, that every transition of
    [crates/task-scheduler/src/job.rs] the scheduler performs keeps it, and how it
    relates to the check the client runs on a status answer
    ([crates/bobby-browser-client/src/jobs.rs]). *)

From S2P Require Import Prelude Text SkillTypes Ledger Job.

Section Lifecycle.
Context `{UuidLib}.

(** What each status says about the other fields. *)
Definition life_ok (j : Job) : Prop :=
  match j.(job_status) with
  | Pending => j.(job_started_at) = None /\ j.(job_completed_at) = None
      /\ j.(job_result) = None /\ j.(job_error) = None
  | Running => is_Some j.(job_started_at) /\ j.(job_completed_at) = None
      /\ j.(job_result) = None /\ j.(job_error) = None
  | JobCompleted => is_Some j.(job_started_at) /\ is_Some j.(job_completed_at)
      /\ j.(job_error) = None
      /\ exists r, j.(job_result) = Some r /\ r.(jres_success) = true /\ r.(jres_error) = None
  | JobFailed => is_Some j.(job_completed_at)
      /\ match j.(job_result) with
         | Some r => is_Some j.(job_started_at) /\ r.(jres_success) = false
                     /\ r.(jres_error) = j.(job_error) /\ is_Some j.(job_error)
         | None => nonempty j.(job_error) = true
         end
  | JobCancelled => is_Some j.(job_completed_at) /\ j.(job_result) = None /\ j.(job_error) = None
  | ReconciliationRequired => j.(job_completed_at) = None /\ j.(job_result) = None
      /\ nonempty j.(job_error) = true
  | Resolved => is_Some j.(job_completed_at) /\ j.(job_result) = None /\ j.(job_error) = None
      /\ is_Some j.(job_resolution)
  end.

Record job_sound (j : Job) : Prop := MkJobSound {
  snd_retry : 0 <= j.(job_retry_count) <= j.(job_max_retries);
  snd_bound : j.(job_max_retries) <= u32_max;
  snd_id : is_Some (JobId_parse j.(job_id));
  snd_result : forall r, j.(job_result) = Some r -> r.(jres_job_id) = j.(job_id);
  snd_resolution : has_valid_resolution j = true;
  snd_latch : j.(job_resolution_pending) = true -> j.(job_status) = ReconciliationRequired;
  snd_life : life_ok j;
}.

(** A job that is not resolved carries no receipt. *)
Lemma no_receipt j :
  has_valid_resolution j = true -> j.(job_status) <> Resolved -> j.(job_resolution) = None.
Proof.
  unfold has_valid_resolution. destruct (job_resolution j) as [r|]; [|done].
  rewrite !andb_true_iff, !bool_decide_eq_true. intros [[[[[[_ Hs] _] _] _] _] _] Hn. done.
Qed.

Lemma no_receipt_valid j :
  j.(job_resolution) = None -> j.(job_status) <> Resolved -> has_valid_resolution j = true.
Proof.
  unfold has_valid_resolution. intros -> Hn. by rewrite bool_decide_eq_false_2.
Qed.

Lemma still_valid j j' :
  has_valid_resolution j = true -> j.(job_status) <> Resolved ->
  j'.(job_resolution) = j.(job_resolution) -> j'.(job_status) <> Resolved ->
  has_valid_resolution j' = true.
Proof. intros Hv Hs Hr Hs'. apply no_receipt_valid; [|done]. rewrite Hr. by apply no_receipt. Qed.

(** ** Transitions keep the shape *)

Lemma sound_new id now config_name payload priority retries timeout cid owner :
  is_Some (JobId_parse id) -> 0 <= retries <= u32_max ->
  job_sound (with_max_retries (Job_new id now config_name payload priority) retries
               <| job_timeout_ms := timeout |> <| job_correlation_id := cid |>
               <| job_owner := owner |>).
Proof. intros Hid Hr. constructor; cbn; try done; lia. Qed.

Lemma sound_start now j : job_sound j -> j.(job_status) = Pending -> job_sound (job_start now j).
Proof.
  intros [??? Hr Hv Hl Hlife] Hs. unfold life_ok in Hlife. rewrite Hs in Hlife.
  constructor; cbn; try done.
  - apply (still_valid j); [done|congruence|done|done].
  - intros Hp. specialize (Hl Hp). congruence.
  - unfold life_ok. cbn. naive_solver.
Qed.

(** Undoing a start that could not be made durable gives the job back. *)
Lemma unstart now j :
  job_sound j -> j.(job_status) = Pending ->
  job_start now j <| job_status := Pending |> <| job_started_at := None |> = j.
Proof.
  intros [_ _ _ _ _ _ Hlife] Hs. unfold life_ok in Hlife. rewrite Hs in Hlife.
  destruct Hlife as [Hst _]. destruct j; cbn in *. by subst.
Qed.

Lemma sound_complete now r j :
  job_sound j -> j.(job_status) = Running -> r.(jres_success) = true -> r.(jres_error) = None ->
  r.(jres_job_id) = j.(job_id) -> job_sound (job_complete now r j).
Proof.
  intros [??? Hr Hv Hl Hlife] Hs Hok He Hid. unfold life_ok in Hlife. rewrite Hs in Hlife.
  constructor; cbn; try done.
  - by intros r' [= <-].
  - apply (still_valid j); [done|congruence|done|done].
  - intros Hp. specialize (Hl Hp). congruence.
  - unfold life_ok. cbn. naive_solver.
Qed.

Lemma sound_failed_run now r e j :
  job_sound j -> j.(job_status) = Running -> r.(jres_success) = false -> r.(jres_error) = Some e ->
  r.(jres_job_id) = j.(job_id) -> job_sound (job_fail now e j <| job_result := Some r |>).
Proof.
  intros [??? Hr Hv Hl Hlife] Hs Hok He Hid. unfold life_ok in Hlife. rewrite Hs in Hlife.
  constructor; cbn; try done.
  - by intros r' [= <-].
  - apply (still_valid j); [done|congruence|done|done].
  - intros Hp. specialize (Hl Hp). congruence.
  - unfold life_ok. cbn. naive_solver.
Qed.

Lemma sound_retry j : job_sound j -> can_retry j = true -> j.(job_status) = JobFailed ->
  job_sound (prepare_retry j).
Proof.
  intros [??? Hr Hv Hl Hlife] Hc Hs. unfold can_retry in Hc. apply andb_true_iff in Hc as [Hlt _].
  constructor; cbn; try done; [lia| |].
  - apply (still_valid j); [done|congruence|done|done].
  - intros Hp. specialize (Hl Hp). congruence.
Qed.

Lemma sound_requeue_failed now e j :
  job_sound j -> j.(job_status) = Pending -> e <> "" -> job_sound (job_fail now e j).
Proof.
  intros [??? Hr Hv Hl Hlife] Hs He. unfold life_ok in Hlife. rewrite Hs in Hlife.
  destruct Hlife as (_ & _ & Hres & _).
  constructor; cbn; try done.
  - apply (still_valid j); [done|congruence|done|done].
  - intros Hp. specialize (Hl Hp). congruence.
  - unfold life_ok. cbn. rewrite Hres. split; [eauto|]. cbn. destruct (String.eqb_spec e ""); done.
Qed.

Lemma sound_cancel now j : job_sound j -> j.(job_status) = Pending -> job_sound (job_cancel now j).
Proof.
  intros [??? Hr Hv Hl Hlife] Hs. unfold life_ok in Hlife. rewrite Hs in Hlife.
  constructor; cbn; try done.
  - apply (still_valid j); [done|congruence|done|done].
  - intros Hp. specialize (Hl Hp). congruence.
  - unfold life_ok. cbn. naive_solver.
Qed.

Lemma sound_reconcile reason j :
  job_sound j -> j.(job_status) <> Resolved -> reason <> "" ->
  job_sound (require_reconciliation reason j).
Proof.
  intros [??? Hr Hv Hl Hlife] Hs He. constructor; cbn; try done.
  - apply (still_valid j); done.
  - unfold life_ok. cbn. destruct (String.eqb_spec reason ""); done.
Qed.

Lemma sound_latched j :
  job_sound j -> j.(job_status) = ReconciliationRequired ->
  job_sound (j <| job_resolution_pending := true |>).
Proof. intros [??? Hr Hv Hl Hlife] Hs. constructor; done. Qed.

(** The receipt of a valid request. *)
Definition receipt_for (id : JobId) (actor : PrincipalId) (now : Time) (input : JobResolutionRequest)
    : JobResolutionReceipt :=
  MkJobResolutionReceipt id input.(jq_decision) input.(jq_evidence_sha256) actor now
    "operatorAttested".

Definition resolved_with (r : JobResolutionReceipt) (now : Time) (j : Job) : Job :=
  j <| job_resolution_pending := false |> <| job_status := Resolved |>
    <| job_completed_at := Some now |> <| job_result := None |> <| job_error := None |>
    <| job_resolution := Some r |>.

Lemma sound_resolved now actor input j :
  job_sound j -> j.(job_owner) = Some actor -> JobResolutionRequest_validate input = Ok tt ->
  job_sound (resolved_with (receipt_for j.(job_id) actor now input) now j).
Proof.
  intros [Hret Hb [id Hid] Hr Hv Hl Hlife] Ho Hval.
  constructor; cbn [resolved_with set_field job_retry_count job_max_retries job_id job_result
    job_resolution_pending job_status]; try done.
  - unfold has_valid_resolution. cbn. unfold JobResolutionReceipt_validate. cbn.
    rewrite Hid. cbn. destruct input. cbn in *. rewrite Hval. cbn.
    rewrite Ho. by rewrite !bool_decide_eq_true_2.
Qed.

(** ** What the client makes of it *)

(** The status answer of a sound job passes the client's check, unless its name is
    blank or it failed without ever having been started or with an empty message. *)
Theorem client_accepts_sound_jobs j :
  job_sound j -> is_blank j.(job_name) = false ->
  (j.(job_status) = JobFailed -> is_Some j.(job_started_at) /\ nonempty j.(job_error) = true) ->
  JobStatusResponse_validate (job_status_response j) = Ok tt.
Proof.
  intros [Hret Hb Hid Hr Hv Hl Hlife] Hn Hf. unfold JobStatusResponse_validate.
  apply rbind_unit_ok. split.
  { apply refuse_if_ok. cbn. rewrite Hn. lia. }
  apply rbind_unit_ok. split.
  { apply refuse_if_ok. cbn. destruct (job_result j) as [r|] eqn:Er; [|done]. cbn.
    rewrite (Hr _ eq_refl), String.eqb_refl. done. }
  apply rbind_unit_ok. split.
  { cbn. destruct (job_resolution j) as [r|] eqn:Er; [|done]. unfold has_valid_resolution in Hv.
    rewrite Er, !andb_true_iff, !bool_decide_eq_true in Hv.
    destruct Hv as [[[[[[Hok Hs] Hji] _] Hca] _] _]. apply is_ok_unit in Hok.
    apply rbind_unit_ok. split; [done|]. apply refuse_if_ok.
    rewrite Hs, Hca, Hji, String.eqb_refl. by rewrite !bool_decide_eq_true_2. }
  apply refuse_if_ok, negb_false_iff. unfold lifecycle_ok, life_ok in *. cbn [job_status_response
    jsr_status jsr_completed_at jsr_result jsr_error jsr_started_at jsr_resolution].
  destruct (job_status j) eqn:Es.
  - destruct Hlife as (-> & -> & -> & ->). done.
  - destruct Hlife as ([? ->] & -> & -> & ->). done.
  - destruct Hlife as ([? ->] & [? ->] & -> & r & -> & Hok & He). cbn. by rewrite Hok, He.
  - destruct (Hf eq_refl) as [[? ->] Hne]. destruct Hlife as [[? ->] Hres]. cbn. rewrite Hne.
    destruct (job_result j) as [r|]; [|done]. cbn. destruct Hres as (_ & -> & -> & _).
    by rewrite Hne.
  - destruct Hlife as ([? ->] & -> & ->). done.
  - destruct Hlife as (-> & -> & ->). done.
  - destruct Hlife as ([? ->] & -> & -> & [? ->]). done.
Qed.
End Lifecycle.

(** ** Concrete jobs *)

#[local] Instance life_uuid : UuidLib := {| uuid_parses := fun s => slen s =? 4 |}.

Definition life_job : Job := Job_new "job_0001" 1 "echo" "null" Normal.

Lemma life_job_sound : job_sound life_job.
Proof.
  constructor; done || (exists "job_0001"; reflexivity).
Qed.

Lemma client_accepts_sound_jobs_witness :
  JobStatusResponse_validate (job_status_response life_job) = Ok tt.
Proof.
  apply (client_accepts_sound_jobs life_job life_job_sound); [reflexivity|discriminate].
Defined.

(** A job that fails because its retry no longer fits the queue has lost the time
    it was started, since the retry had cleared it; the scheduler stores it as failed,
    and the client refuses its status as a violation of the lifecycle. *)
Theorem requeue_failure_is_refused_by_the_client :
  let started := job_start 2 life_job in
  let failed := job_fail 3 "boom" started
                  <| job_result := Some (MkJobResult "job_0001" false None (Some "boom") 3) |> in
  let retried := prepare_retry failed in
  let final := job_fail 9 "requeue failed: queue is full" retried in
  can_retry failed = true /\ job_sound final
  /\ JobStatusResponse_validate (job_status_response final)
     = Err "job status response violates lifecycle invariants".
Proof.
  intros started failed retried final. split; [reflexivity|]. split; [|vm_compute; reflexivity].
  apply sound_requeue_failed; [|done|done]. apply sound_retry; [|done|done].
  apply sound_failed_run; [|done..]. apply sound_start; [apply life_job_sound|done].
Qed.
