(* ===== verification/Scheduler.v ===== *)
(** * The job scheduler

    [crates/task-scheduler/src/scheduler.rs], over any job store.  Each operation holds
    the transition lock or the queue lock while it changes shared state, so an operation
    is one step; the steps of different tasks interleave freely.  The state adds to the
    fields of [JobScheduler] the tasks that run a handler and the retries that wait for
    their backoff.  What a handler returns, and whether it was late, is an argument of
    the step that finishes it. *)

From S2P Require Import Prelude Text SkillTypes Ledger Job JobQueue JobStore.

(** The fixed part of the [JobHandler] trait. *)
Record JobHandler := MkJobHandler {
  jh_required_capabilities : list Capability;
  jh_safe_to_retry : bool;
}.

Definition NETWORK_EGRESS : list Capability := [NetworkEgress].

(** [register_builtin_handlers] of [handlers.rs]. *)
Definition register_handler (name : string) (h : JobHandler) (m : gmap string JobHandler)
    : gmap string JobHandler := <[name := h]> m.

Definition register_builtin_handlers (m : gmap string JobHandler) : gmap string JobHandler :=
  register_handler "http_fetch" (MkJobHandler NETWORK_EGRESS true)
  (register_handler "http_wait" (MkJobHandler NETWORK_EGRESS true)
  (register_handler "http_probe" (MkJobHandler NETWORK_EGRESS true)
  (register_handler "sleep" (MkJobHandler [] true)
  (register_handler "echo" (MkJobHandler [] true) m)))).

(** ** The output bound *)

(** [OutputCounter::write]: the bytes written so far, or the refusal. *)
Definition counter_write (written limit : Z) (chunk : string) : option Z :=
  if limit <? saturating_add written (slen chunk) then None else Some (written + slen chunk).

(** [serde_json::to_writer] hands the text to the writer in chunks. *)
Fixpoint write_chunks (written limit : Z) (chunks : list string) : option Z :=
  match chunks with
  | [] => Some written
  | c :: rest => match counter_write written limit c with
                 | Some written' => write_chunks written' limit rest
                 | None => None
                 end
  end.

Class JsonWriter := {
  json_chunks : Value -> list string;
}.

Definition output_within_bound `{JsonWriter} (output : Value) (limit : Z) : bool :=
  match write_chunks 0 limit (json_chunks output) with Some _ => true | None => false end.

Section Scheduler.
Context {S : Type} `{JobStore S} `{UuidLib} `{JsonWriter} `{Decimal}.

Record JobScheduler := MkJobScheduler {
  sd_config : SchedulerConfig;
  sd_queue : JobQueue;
  sd_store : S;
  sd_permits : Z;
  sd_handlers : gmap string JobHandler;
  sd_registry : gmap JobId Job;
  sd_admission_issue : option string;
  sd_shutdown : bool;
  sd_tasks : gmap JobId Job;
  sd_timers : list Job;
  sd_total_submitted : Z;
  sd_total_completed : Z;
  sd_total_failed : Z;
  sd_total_retried : Z;
  sd_active_jobs : Z;
}.
#[export] Instance eta_JobScheduler : Eta JobScheduler := fun s =>
  MkJobScheduler (sd_config s) (sd_queue s) (sd_store s) (sd_permits s) (sd_handlers s)
    (sd_registry s) (sd_admission_issue s) (sd_shutdown s) (sd_tasks s) (sd_timers s)
    (sd_total_submitted s) (sd_total_completed s) (sd_total_failed s) (sd_total_retried s)
    (sd_active_jobs s).

Definition Sched (A : Type) : Type := ST JobScheduler JobError A.

Definition with_store (config : SchedulerConfig) (store : S) : JobScheduler :=
  MkJobScheduler config
    (with_retry_config (JobQueue_new config.(sc_max_queue_size))
       (MkRetryConfig config.(sc_max_retries) config.(sc_retry_backoff_base_ms)
          config.(sc_retry_backoff_max_ms)))
    store (Z.max config.(sc_max_concurrent_jobs) 1) ∅ ∅ None false ∅ [] 0 0 0 0 0.

(** A store call; its error stays a value. *)
Definition call {A} (m : ST S StoreError A) : Sched (result A StoreError) :=
  fun s => let '(r, st) := m s.(sd_store) in (Ok r, s <| sd_store := st |>).

Definition store_err (e : StoreError) : JobError := Store (store_error_text e).
Definition store_err_for_job (id : JobId) (e : StoreError) : JobError :=
  Store ("job " +:+ id +:+ ": " +:+ store_error_text e).

Definition set_job (j : Job) : Sched unit :=
  smodify (fun s => s <| sd_registry := <[j.(job_id) := j]> s.(sd_registry) |>).

Definition put_queue (q : JobQueue) : Sched unit := smodify (fun s => s <| sd_queue := q |>).

(** ** Retention *)

Definition sched_prune_terminal : Sched unit :=
  smodify (fun s => s <| sd_registry :=
    prune_oldest job_completed_at s.(sd_config).(sc_retained_terminal_jobs) s.(sd_registry) |>).

Definition prune_store_terminal (now : Time) : Sched unit :=
  do s <- sget;
  do r <- call (st_prune_terminal now s.(sd_config).(sc_retained_terminal_jobs));
  sret tt.

(** ** Admission *)

Definition integrity_issue (s : JobScheduler) : option string := st_integrity_issue s.(sd_store).

(** [OnceLock::set]: the first reason stays. *)
Definition deny_admission (reason : string) : Sched unit :=
  smodify (fun s => s <| sd_admission_issue :=
    match s.(sd_admission_issue) with Some r => Some r | None => Some reason end |>).

Definition submit (now : Time) (id : JobId) (config : JobConfig) : Sched JobId :=
  do s <- sget;
  slift (refuse_if (some_is (integrity_issue s) || some_is s.(sd_admission_issue)) Integrity) ;;
  do job <- slift (q_prepare id now config s.(sd_queue));
  do r <- call (st_put now job);
  slift (map_err (fun e => AdmissionUncertain job.(job_id) (store_error_text e)) r) ;;
  do s <- sget;
  do q <- slift (q_requeue job s.(sd_queue));
  put_queue q ;;
  set_job job ;;
  smodify (fun s => s <| sd_total_submitted := s.(sd_total_submitted) + 1 |>) ;;
  sret job.(job_id).

Definition submit_authorized (now : Time) (id : JobId) (config : JobConfig)
    (capabilities : list Capability) : Sched JobId :=
  do s <- sget;
  slift match s.(sd_handlers) !! config.(jc_name) with
        | Some handler =>
            match List.find (fun c => negb (bool_decide (c ∈ capabilities)))
                    handler.(jh_required_capabilities) with
            | Some required => Err (MissingCapability required)
            | None => Ok tt
            end
        | None => Ok tt
        end ;;
  submit now id config.

(** ** Hydration *)

Fixpoint hydrate_jobs (jobs : list Job) : Sched unit :=
  match jobs with
  | [] => sret tt
  | job :: rest =>
      set_job job ;;
      smodify (fun s => s <| sd_total_submitted := s.(sd_total_submitted) + 1 |>) ;;
      smodify (fun s => match job.(job_status) with
                        | JobCompleted => s <| sd_total_completed := s.(sd_total_completed) + 1 |>
                        | JobFailed => s <| sd_total_failed := s.(sd_total_failed) + 1 |>
                        | _ => s
                        end) ;;
      (if is_pending job then
         do s <- sget;
         do q <- slift (q_requeue job s.(sd_queue));
         put_queue q
       else sret tt) ;;
      hydrate_jobs rest
  end.

Definition hydrate (now : Time) : Sched unit :=
  do s <- sget;
  do r <- call (st_prune_terminal now s.(sd_config).(sc_retained_terminal_jobs));
  slift (map_err store_err r) ;;
  do r <- call st_load_all;
  do jobs <- slift (map_err store_err r);
  hydrate_jobs jobs.

(** ** Persisting a transition *)

Definition persist_or_reconcile (now : Time) (snapshot : Job) (event : JobEvent) : Sched bool :=
  do r <- call (st_update now snapshot event);
  match r with
  | Ok _ => sret true
  | Err error =>
      do s <- sget;
      match s.(sd_registry) !! snapshot.(job_id) with
      | None => sret false
      | Some job =>
          let unresolved := require_reconciliation
            (event_debug event +:+ " persistence uncertain: " +:+ store_error_text error) job in
          set_job unresolved ;;
          do ignored <- call (st_update now unresolved EvRecovered);
          sret false
      end
  end.

(** A terminal state was recorded: apply retention on both sides. *)
Definition retain (now : Time) : Sched unit := sched_prune_terminal ;; prune_store_terminal now.

(** ** Finishing *)

Definition finish_job (now : Time) (id : JobId) (r : JobResult) (timed_out : bool)
    : Sched (option Job) :=
  do s <- sget;
  match s.(sd_registry) !! id with
  | None => sret None
  | Some job =>
      if negb (bool_decide (job.(job_status) = Running)) then sret None
      else if timed_out then
        let job := require_reconciliation "handler timed out; effect may have occurred" job in
        set_job job ;;
        do ok <- persist_or_reconcile now job EvRecovered;
        sret None
      else if r.(jres_success) then
        let job := job_complete now r job in
        set_job job ;;
        do ok <- persist_or_reconcile now job EvCompleted;
        if negb ok then sret None else
        retain now ;;
        smodify (fun s => s <| sd_total_completed := s.(sd_total_completed) + 1 |>) ;;
        sret None
      else
        let job := job_fail now (default "job failed" r.(jres_error)) job <| job_result := Some r |> in
        let replay_safe := match s.(sd_handlers) !! job.(job_name) with
                           | Some handler => handler.(jh_safe_to_retry)
                           | None => false
                           end in
        if negb (can_retry job) || negb replay_safe then
          set_job job ;;
          do ok <- persist_or_reconcile now job EvFailed;
          if negb ok then sret None else
          retain now ;;
          smodify (fun s => s <| sd_total_failed := s.(sd_total_failed) + 1 |>) ;;
          sret None
        else
          let job := prepare_retry job in
          set_job job ;;
          do ok <- persist_or_reconcile now job EvRetried;
          if negb ok then sret None else
          smodify (fun s => s <| sd_total_retried := s.(sd_total_retried) + 1 |>) ;;
          sret (Some job)
  end.

(** [PermitGuard::drop]. *)
Definition release_permit (id : JobId) : Sched unit :=
  smodify (fun s => s <| sd_permits := s.(sd_permits) + 1 |>
                      <| sd_active_jobs := s.(sd_active_jobs) - 1 |>
                      <| sd_tasks := delete id s.(sd_tasks) |>).

Definition requeue_after_backoff (now : Time) (requeue_job : Job) : Sched unit :=
  do s <- sget;
  if s.(sd_shutdown) then sret tt else
  match s.(sd_registry) !! requeue_job.(job_id) with
  | None => sret tt
  | Some job =>
      if negb (is_pending job) then sret tt else
      set_job requeue_job ;;
      match q_requeue requeue_job s.(sd_queue) with
      | Err e =>
          let job := job_fail now "requeue failed: queue is full" requeue_job in
          set_job job ;;
          do ok <- persist_or_reconcile now job EvFailed;
          if negb ok then sret tt else
          prune_store_terminal now ;;
          smodify (fun s => s <| sd_total_failed := s.(sd_total_failed) + 1 |>)
      | Ok q => put_queue q
      end
  end.

(** ** Executing *)

Definition execute_job (now : Time) (outcome : result Value string) (job : Job) (s : JobScheduler)
    : JobResult :=
  let failed e := MkJobResult job.(job_id) false None (Some e) now in
  match s.(sd_handlers) !! job.(job_name) with
  | None => failed ("no handler registered for job: " +:+ job.(job_name))
  | Some _ =>
      match outcome with
      | Ok output =>
          if output_within_bound output s.(sd_config).(sc_max_output_bytes)
          then MkJobResult job.(job_id) true (Some output) None now
          else failed ("job output exceeds " +:+ decimal s.(sd_config).(sc_max_output_bytes)
                       +:+ " bytes")
      | Err e => failed e
      end
  end.

(** The body of a spawned task, from the end of its handler on: [None] is a timeout. *)
Definition task_done (now : Time) (id : JobId) (outcome : option (result Value string))
    : Sched unit :=
  do s <- sget;
  match s.(sd_tasks) !! id with
  | None => sret tt
  | Some job =>
      let '(r, timed_out) :=
        match outcome with
        | Some outcome => (execute_job now outcome job s, false)
        | None => (MkJobResult id false None (Some "job timeout") now, true)
        end in
      do retry <- finish_job now id r timed_out;
      release_permit id ;;
      match retry with
      | Some job => smodify (fun s => s <| sd_timers := s.(sd_timers) ++ [job] |>)
      | None => sret tt
      end
  end.

(** The backoff of the [i]-th waiting retry is over, or shutdown ended it. *)
Definition timer_done (now : Time) (i : nat) : Sched unit :=
  do s <- sget;
  match s.(sd_timers) !! i with
  | None => sret tt
  | Some job =>
      smodify (fun s => s <| sd_timers := delete i s.(sd_timers) |>) ;;
      if s.(sd_shutdown) then sret tt else requeue_after_backoff now job
  end.

(** ** Aborting and cancelling *)

Definition ABORT_REASON : string := "shutdown interrupted handler; effect may have occurred".

Fixpoint abort_jobs (now : Time) (jobs : list Job) : Sched unit :=
  match jobs with
  | [] => sret tt
  | job :: rest =>
      (if bool_decide (job.(job_status) = Running) then
         let job := require_reconciliation ABORT_REASON job in
         set_job job ;;
         do ignored <- call (st_update now job EvRecovered);
         sret tt
       else sret tt) ;;
      abort_jobs now rest
  end.

(** Every handler is aborted, which drops its permit guard. *)
Definition abort_all_running (now : Time) : Sched unit :=
  smodify (fun s => s <| sd_permits := s.(sd_permits) + Z.of_nat (size s.(sd_tasks)) |>
                      <| sd_active_jobs := s.(sd_active_jobs) - Z.of_nat (size s.(sd_tasks)) |>
                      <| sd_tasks := ∅ |>) ;;
  do s <- sget;
  abort_jobs now (map_to_list s.(sd_registry)).*2.

Definition CANCEL_REASON : string := "running job cancelled; handler effect may have occurred".

Definition cancel_job (now : Time) (id : JobId) : Sched unit :=
  do s <- sget;
  do job <- slift (ok_or (s.(sd_registry) !! id) (NotFound id));
  match job.(job_status) with
  | JobCompleted | JobFailed | JobCancelled | Resolved =>
      sfail (finished_error id job.(job_status))
  | Pending =>
      let snapshot := job_cancel now job in
      do r <- call (st_update now snapshot EvCancelled);
      slift (map_err (store_err_for_job id) r) ;;
      put_queue (q_cancel_job now id s.(sd_queue)).2 ;;
      set_job snapshot ;;
      retain now
  | Running =>
      let job := require_reconciliation CANCEL_REASON job in
      set_job job ;;
      (if bool_decide (is_Some (s.(sd_tasks) !! id)) then release_permit id else sret tt) ;;
      do r <- call (st_update now job EvRecovered);
      slift (map_err (store_err_for_job id) r)
  | ReconciliationRequired =>
      sfail (Execution ("job " +:+ id +:+ " requires reconciliation before cancellation"))
  end.

(** ** The run loop: one attempt to start a job *)

(** The durable start of a job that was taken from the queue. *)
Definition start_task (now : Time) (job : Job) : Sched unit :=
  do r <- call (st_update now job EvStarted);
  match r with
  | Err e =>
      let job := job <| job_status := Pending |> <| job_started_at := None |> in
      do s <- sget;
      (if bool_decide (is_Some (s.(sd_registry) !! job.(job_id))) then set_job job else sret tt) ;;
      do q <- slift (q_requeue job s.(sd_queue));
      put_queue q ;;
      abort_all_running now ;;
      sfail (store_err_for_job job.(job_id) e)
  | Ok _ =>
      smodify (fun s => s <| sd_active_jobs := s.(sd_active_jobs) + 1 |>
                          <| sd_permits := s.(sd_permits) - 1 |>
                          <| sd_tasks := <[job.(job_id) := job]> s.(sd_tasks) |>)
  end.

Definition start_next (now : Time) : Sched unit :=
  do s <- sget;
  if s.(sd_shutdown) || (s.(sd_permits) <=? 0) then sret tt else
  match next_job now s.(sd_queue) with
  | None => sret tt
  | Some (job, q) =>
      put_queue q ;;
      match s.(sd_registry) !! job.(job_id) with
      | Some registered =>
          if bool_decide (registered.(job_status) = JobCancelled) then sret tt
          else
            let job := job_start now registered in
            set_job job ;;
            start_task now job
      | None => start_task now (job_start now job)
      end
  end.

Definition request_shutdown : Sched unit := smodify (fun s => s <| sd_shutdown := true |>).

(** ** Operator resolution *)

Definition resolve_job (now : Time) (id : JobId) (actor : PrincipalId)
    (input : JobResolutionRequest) : Sched JobResolutionReceipt :=
  slift (map_err Execution (JobResolutionRequest_validate input)) ;;
  do s <- sget;
  do job <- slift (ok_or (s.(sd_registry) !! id) (NotFound id));
  slift (refuse_if (negb (bool_decide (job.(job_owner) = Some actor))) (NotFound id)) ;;
  slift (refuse_if (job.(job_resolution_pending) || negb (has_valid_resolution job))
           ResolutionUncertain) ;;
  match job.(job_resolution) with
  | Some receipt =>
      if bool_decide (receipt.(jr_actor) = actor)
         && bool_decide (receipt.(jr_decision) = input.(jq_decision))
         && String.eqb receipt.(jr_evidence_sha256) input.(jq_evidence_sha256)
      then sret receipt
      else sfail (Execution "job resolution conflicts with its durable receipt")
  | None =>
      slift (refuse_if (negb (bool_decide (job.(job_status) = ReconciliationRequired)))
               (Execution "only reconciliation-required jobs can be resolved")) ;;
      slift (refuse_if (some_is (integrity_issue s)) ResolutionUncertain) ;;
      set_job (job <| job_resolution_pending := true |>) ;;
      let receipt := MkJobResolutionReceipt id input.(jq_decision) input.(jq_evidence_sha256)
                       actor now "operatorAttested" in
      let snapshot := job <| job_resolution_pending := false |> <| job_status := Resolved |>
                          <| job_completed_at := Some now |> <| job_result := None |>
                          <| job_error := None |> <| job_resolution := Some receipt |> in
      do r <- call (st_update now snapshot EvResolved);
      slift (map_err (fun _ => ResolutionUncertain) r) ;;
      set_job snapshot ;;
      retain now ;;
      sret receipt
  end.

(** ** Reading *)

Definition get_job (id : JobId) : Sched (option Job) :=
  do s <- sget;
  match s.(sd_registry) !! id with
  | Some job => sret (Some job)
  | None => do r <- call (st_get id); sret match r with Ok o => o | Err _ => None end
  end.

Record SchedulerStats := MkSchedulerStats {
  st_total_submitted : Z; st_total_completed : Z; st_total_failed : Z; st_total_retried : Z;
  st_active_jobs : Z; st_queued_jobs : Z;
}.

Definition stats (s : JobScheduler) : SchedulerStats :=
  MkSchedulerStats s.(sd_total_submitted) s.(sd_total_completed) s.(sd_total_failed)
    s.(sd_total_retried) s.(sd_active_jobs) (q_stats s.(sd_queue)).(qs_pending).

End Scheduler.
Arguments JobScheduler : clear implicits.
