(* ===== verification/SchedulerInv.v ===== *)
(** * The scheduler's invariant

    Steps of the scheduler as a relation, and the invariant that ties the registry, the
    ready queue, the running tasks and the waiting retries together.  The identifiers
    handed out so far are part of the state: [Uuid::new_v4] does not repeat one. *)

From S2P Require Import Prelude Text SkillTypes Ledger Job JobQueue JobStore Lifecycle Scheduler.

Definition ids (l : list Job) : list JobId := job_id <$> l.

Section Core.
Context `{UuidLib}.

(** The invariant on the parts that matter.  Inside an operation one job, the [hole], may
    still have a task although its registry entry has moved on. *)
Record core_inv (used : gset JobId) (hole : option JobId) (reg : gmap JobId Job) (q : JobQueue)
    (tasks : gmap JobId Job) (timers : list Job) (permits active limit : Z) : Prop := MkCoreInv {
  ci_by_id : by_id reg;
  ci_sound : map_Forall (fun _ => job_sound) reg;
  ci_used : forall id, is_Some (reg !! id) \/ id ∈ ids timers -> id ∈ used;
  ci_queue : queue_inv q;
  ci_queued : Forall (fun j => reg !! j.(job_id) = Some j /\ j.(job_status) = Pending) (q_view q);
  ci_nodup : NoDup (ids (q_view q ++ timers));
  ci_timers : Forall (fun j => j.(job_status) = Pending /\
    (reg !! j.(job_id) = Some j
     \/ forall j', reg !! j.(job_id) = Some j' -> terminal j'.(job_status) = true)) timers;
  ci_tasks : forall id, hole <> Some id -> forall j,
    tasks !! id = Some j <-> reg !! id = Some j /\ j.(job_status) = Running;
  ci_hole : forall id, hole = Some id -> is_Some (tasks !! id)
    /\ (id ∉ ids (q_view q ++ timers))
    /\ forall j, reg !! id = Some j -> j.(job_status) <> Running;
  ci_permits : permits + Z.of_nat (size tasks) = limit /\ 0 <= permits
    /\ active = Z.of_nat (size tasks);
}.

Lemma elem_of_ids j l : j ∈ l -> job_id j ∈ ids l.
Proof. apply list_elem_of_fmap_2. Qed.

Lemma ids_elem id l : id ∈ ids l -> exists j, j ∈ l /\ job_id j = id.
Proof. intros (j & -> & Hj)%list_elem_of_fmap. eauto. Qed.

Lemma ids_app l k : ids (l ++ k) = ids l ++ ids k.
Proof. apply fmap_app. Qed.

(** In a registry the jobs come with their own keys. *)
Lemma ids_of_map (m : gmap JobId Job) : by_id m -> ids (map_to_list m).*2 = (map_to_list m).*1.
Proof.
  intros Hby. unfold ids. rewrite <-list_fmap_compose. apply list_fmap_ext. intros i [id j] Hij. cbn.
  apply Hby, elem_of_map_to_list. by eapply list_elem_of_lookup_2.
Qed.

(** A job whose entry is not pending is not queued, and it waits for no retry unless its
    entry is terminal. *)
Lemma not_pending_unqueued used hole reg q tasks timers p a l k j :
  core_inv used hole reg q tasks timers p a l -> reg !! k = Some j -> j.(job_status) <> Pending ->
  (k ∉ ids (q_view q)) /\ (terminal j.(job_status) = false -> k ∉ ids timers).
Proof.
  intros Hi Hk Hs. destruct Hi as [_ _ _ _ Hq _ Ht _ _ _]. split.
  - intros (x & Hx & <-)%ids_elem. rewrite Forall_forall in Hq. destruct (Hq _ Hx). congruence.
  - intros Hterm (x & Hx & <-)%ids_elem. rewrite Forall_forall in Ht.
    destruct (Ht _ Hx) as [Hp [Heq|Hall]]; [congruence|]. specialize (Hall _ Hk). congruence.
Qed.

(** Replacing the entry of a job that is in nobody's hands. *)
Lemma core_set used hole reg q tasks timers p a l k j j' :
  core_inv used hole reg q tasks timers p a l -> reg !! k = Some j ->
  j'.(job_id) = k -> job_sound j' -> j'.(job_status) <> Running ->
  (hole = Some k \/ j.(job_status) <> Running) ->
  (k ∉ ids (q_view q)) -> (k ∈ ids timers -> terminal j'.(job_status) = true) ->
  core_inv used hole (<[k := j']> reg) q tasks timers p a l.
Proof.
  intros [Hb Hso Hu Hqi Hq Hn Ht Hta Hh Hp] Hk Hid Hsnd Hnr Hhole Hnq Hnt.
  constructor; try done.
  - by apply map_Forall_insert_2.
  - by apply map_Forall_insert_2.
  - intros id [[x Hx]|Hx]; apply Hu; [|by right]. left.
    destruct (decide (id = k)) as [->|]; [eauto|rewrite lookup_insert_ne in Hx by done; eauto].
  - rewrite Forall_forall in Hq |- *. intros x Hx. destruct (Hq _ Hx) as [Hr Hpd].
    rewrite lookup_insert_ne; [done|]. intros ->. by apply Hnq, elem_of_ids.
  - rewrite Forall_forall in Ht |- *. intros x Hx. destruct (Ht _ Hx) as [Hpd Hor]. split; [done|].
    destruct (decide (job_id x = k)) as [He|Hne].
    + right. intros y Hy. rewrite He, lookup_insert_eq in Hy. injection Hy as <-.
      apply Hnt. rewrite <-He. by apply elem_of_ids.
    + by rewrite lookup_insert_ne.
  - intros id Hne x. destruct (decide (id = k)) as [->|Hnk].
    + destruct Hhole as [->|Hj]; [done|]. rewrite (Hta k Hne), lookup_insert_eq, Hk.
      split; intros [[= <-] Hr]; congruence.
    + rewrite lookup_insert_ne by done. by apply Hta.
  - intros id He. destruct (Hh id He) as (? & ? & Hnr'). split_and!; [done|done|].
    intros x. destruct (decide (id = k)) as [->|]; [|rewrite lookup_insert_ne by done; apply Hnr'].
    rewrite lookup_insert_eq. by intros [= <-].
Qed.

(** Moving a running job on opens the hole. *)
Lemma core_open used reg q tasks timers p a l k j j' :
  core_inv used None reg q tasks timers p a l -> reg !! k = Some j -> j.(job_status) = Running ->
  j'.(job_id) = k -> job_sound j' -> j'.(job_status) <> Running ->
  core_inv used (Some k) (<[k := j']> reg) q tasks timers p a l.
Proof.
  intros Hi Hk Hs Hid Hsnd Hnr.
  destruct (not_pending_unqueued _ _ _ _ _ _ _ _ _ _ _ Hi Hk) as [Hnq Hnt]; [congruence|].
  specialize (Hnt ltac:(by rewrite Hs)). destruct Hi as [Hb Hso Hu Hqi Hq Hn Ht Hta Hh Hp].
  constructor; try done.
  - by apply map_Forall_insert_2.
  - by apply map_Forall_insert_2.
  - intros id [[x Hx]|Hx]; apply Hu; [|by right]. left.
    destruct (decide (id = k)) as [->|]; [eauto|rewrite lookup_insert_ne in Hx by done; eauto].
  - rewrite Forall_forall in Hq |- *. intros x Hx. destruct (Hq _ Hx) as [Hr Hpd].
    rewrite lookup_insert_ne; [done|]. intros ->. by apply Hnq, elem_of_ids.
  - rewrite Forall_forall in Ht |- *. intros x Hx. destruct (Ht _ Hx) as [Hpd Hor]. split; [done|].
    rewrite lookup_insert_ne; [done|]. intros ->. by apply Hnt, elem_of_ids.
  - intros id Hne x. rewrite lookup_insert_ne by congruence. by apply Hta.
  - intros id [= <-]. split_and!.
    + exists j. by apply Hta.
    + rewrite ids_app, elem_of_app. tauto.
    + intros x. rewrite lookup_insert_eq. by intros [= <-].
Qed.

(** The task of the hole ends and gives its permit back. *)
Lemma core_close used reg q tasks timers p a l k :
  core_inv used (Some k) reg q tasks timers p a l ->
  core_inv used None reg q (delete k tasks) timers (p + 1) (a - 1) l.
Proof.
  intros [Hb Hso Hu Hqi Hq Hn Ht Hta Hh (Hp1 & Hp2 & Hp3)].
  destruct (Hh k eq_refl) as ([t Htk] & _ & Hnr). constructor; try done.
  - intros id _ x. destruct (decide (id = k)) as [->|Hne].
    + rewrite lookup_delete_eq. split; [done|]. intros [Hx Hrun]. by destruct (Hnr _ Hx).
    + rewrite lookup_delete_ne by done. apply Hta. congruence.
  - assert (Hsz : size tasks = S (size (delete k tasks))).
    { rewrite map_size_delete_Some by eauto.
      assert (size tasks <> 0%nat); [|lia]. intros Hz%map_size_empty_inv. by rewrite Hz in Htk. }
    rewrite Hsz in *. lia.
Qed.

(** A retry starts to wait for its backoff. *)
Lemma core_wait used reg q tasks timers p a l k j :
  core_inv used None reg q tasks timers p a l -> reg !! k = Some j -> j.(job_status) = Pending ->
  (k ∉ ids (q_view q ++ timers)) ->
  core_inv used None reg q tasks (timers ++ [j]) p a l.
Proof.
  intros [Hb Hso Hu Hqi Hq Hn Ht Hta Hh Hp] Hk Hs Hnot. pose proof (Hb _ _ Hk) as Hid.
  constructor; try done.
  - intros id [Hx|Hx]; apply Hu; [by left|]. rewrite ids_app, elem_of_app in Hx.
    destruct Hx as [Hx|Hx]; [by right|]. left. apply ids_elem in Hx as (x & Hx & <-).
    apply list_elem_of_singleton in Hx as ->. rewrite Hid. eauto.
  - rewrite app_assoc, ids_app. apply NoDup_app. split; [done|]. split.
    + intros x Hx1 Hx2. apply ids_elem in Hx2 as (y & Hy & <-).
      apply list_elem_of_singleton in Hy as ->. rewrite Hid in Hx1. done.
    + apply NoDup_singleton.
  - apply Forall_app. split; [done|]. apply Forall_singleton. split; [done|]. left. by rewrite Hid.
Qed.

(** Retention drops terminal entries only. *)
Lemma core_prune used hole reg q tasks timers p a l key n :
  core_inv used hole reg q tasks timers p a l ->
  core_inv used hole (prune_oldest key n reg) q tasks timers p a l.
Proof.
  intros [Hb Hso Hu Hqi Hq Hn Ht Hta Hh Hp].
  assert (Hlive : forall id j, terminal (job_status j) = false ->
    prune_oldest key n reg !! id = Some j <-> reg !! id = Some j).
  { intros id j Hj. split; [by intros [? _]%prune_oldest_lookup|]. intros ?. by apply prune_keeps_live. }
  constructor; try done.
  - by apply prune_by_id.
  - intros id j [Hj _]%prune_oldest_lookup. by apply (Hso id).
  - intros id [[x [Hx _]%prune_oldest_lookup]|Hx]; apply Hu; [left; eauto|by right].
  - eapply Forall_impl; [exact Hq|]. intros x [Hx Hpd]. split; [|done]. apply Hlive; [by rewrite Hpd|done].
  - eapply Forall_impl; [exact Ht|]. intros x [Hpd [Hx|Hx]]; (split; [done|]).
    + left. apply Hlive; [by rewrite Hpd|done].
    + right. intros y [Hy _]%prune_oldest_lookup. eauto.
  - intros id Hne x. rewrite (Hta id Hne). split; intros [Hx Hr]; (split; [|done]);
      apply (Hlive id x); [by rewrite Hr|done|by rewrite Hr|done].
  - intros id He. destruct (Hh id He) as (? & ? & Hnr). split_and!; [done|done|].
    intros y [Hy _]%prune_oldest_lookup. eauto.
Qed.

Lemma enqueue_perm j l : enqueue j l ≡ₚ j :: l.
Proof.
  induction l as [|x l IH]; simpl; [done|]. case_match; [|done].
  rewrite IH. apply Permutation_swap.
Qed.

Lemma core_enqueue used hole reg q q' tasks timers p a l k j :
  core_inv used hole reg q tasks timers p a l -> reg !! k = Some j -> j.(job_status) = Pending ->
  (k ∉ ids (q_view q ++ timers)) -> hole <> Some k -> q_requeue j q = Ok q' ->
  core_inv used hole reg q' tasks timers p a l.
Proof.
  intros [Hb Hso Hu Hqi Hq Hn Ht Hta Hh Hp] Hk Hs Hnot Hnh Hr. pose proof (Hb _ _ Hk) as Hid.
  pose proof (requeue_inv _ _ _ Hr Hqi) as Hqi'.
  destruct (requeue_view _ _ _ (proj1 Hqi) Hr) as [Hv _].
  assert (Hperm : ids (q_view q' ++ timers) ≡ₚ k :: ids (q_view q ++ timers)).
  { rewrite Hv. unfold ids. rewrite enqueue_perm. cbn. by rewrite Hid. }
  constructor; try done.
  - rewrite Hv, enqueue_perm. constructor; [by rewrite Hid|done].
  - rewrite Hperm. by constructor.
  - intros id He. destruct (Hh id He) as (? & ? & ?). split_and!; [done| |done].
    rewrite Hperm, not_elem_of_cons. split; [congruence|done].
Qed.

Lemma core_dequeue used hole reg q q' tasks timers p a l l1 x l2 :
  core_inv used hole reg q tasks timers p a l ->
  q_view q = l1 ++ x :: l2 -> q_view q' = l1 ++ l2 -> queue_inv q' ->
  core_inv used hole reg q' tasks timers p a l
  /\ (job_id x ∉ ids (q_view q' ++ timers)) /\ reg !! job_id x = Some x
  /\ x.(job_status) = Pending.
Proof.
  intros [Hb Hso Hu Hqi Hq Hn Ht Hta Hh Hp] Hv Hv' Hqi'.
  assert (Hperm : ids (q_view q ++ timers) ≡ₚ job_id x :: ids (q_view q' ++ timers)).
  { rewrite Hv, Hv'. unfold ids. rewrite <-!app_assoc. cbn [app].
    by rewrite <-Permutation_middle. }
  rewrite Hv, Forall_app, Forall_cons in Hq. destruct Hq as (Hq1 & [Hx Hxs] & Hq2).
  pose proof Hn as Hn'. rewrite Hperm in Hn'. apply NoDup_cons in Hn' as [Hnot Hnd].
  split_and!; try done. constructor; try done.
  - rewrite Hv'. by apply Forall_app.
  - intros id He. destruct (Hh id He) as (? & Hni & ?). split_and!; [done| |done].
    rewrite Hperm, not_elem_of_cons in Hni. tauto.
Qed.

Lemma core_new used reg q tasks timers p a l j :
  core_inv used None reg q tasks timers p a l -> (j.(job_id) ∉ used) -> job_sound j ->
  j.(job_status) <> Running ->
  core_inv ({[ j.(job_id) ]} ∪ used) None (<[j.(job_id) := j]> reg) q tasks timers p a l
  /\ (j.(job_id) ∉ ids (q_view q ++ timers)).
Proof.
  intros [Hb Hso Hu Hqi Hq Hn Ht Hta Hh Hp] Hfresh Hsnd Hs.
  assert (Hnone : reg !! job_id j = None).
  { destruct (reg !! job_id j) eqn:E; [|done]. destruct Hfresh. apply Hu. left. eauto. }
  assert (Hnot : job_id j ∉ ids (q_view q ++ timers)).
  { rewrite ids_app, elem_of_app. intros [Hx|Hx]; [|by apply Hfresh, Hu; right].
    apply ids_elem in Hx as (x & Hx & He). rewrite Forall_forall in Hq. destruct (Hq _ Hx). congruence. }
  split; [|done]. constructor; try done.
  - by apply map_Forall_insert_2.
  - by apply map_Forall_insert_2.
  - intros id [[x Hx]|Hx]; [|set_solver]. destruct (decide (id = job_id j)) as [->|]; [set_solver|].
    rewrite lookup_insert_ne in Hx by done. apply elem_of_union_r, Hu. left. eauto.
  - rewrite Forall_forall in Hq |- *. intros x Hx. destruct (Hq _ Hx) as [Hr Hpd].
    rewrite lookup_insert_ne; [done|]. intros He. congruence.
  - rewrite Forall_forall in Ht |- *. intros x Hx. destruct (Ht _ Hx) as [Hpd Hor]. split; [done|].
    rewrite lookup_insert_ne; [done|]. intros He. apply Hnot. rewrite ids_app, elem_of_app. right.
    rewrite He. by apply elem_of_ids.
  - intros id Hne x. destruct (decide (id = job_id j)) as [->|Hnk].
    + rewrite (Hta _ Hne), lookup_insert_eq, Hnone.
      split; [intros [[=] _]|intros [[= <-] Hr]; congruence].
    + rewrite lookup_insert_ne by done. by apply Hta.
Qed.

(** A pending job that nobody else holds gets a task. *)
Lemma core_run used reg q tasks timers p a l k j j' :
  core_inv used None reg q tasks timers p a l -> reg !! k = Some j -> j.(job_status) = Pending ->
  (k ∉ ids (q_view q ++ timers)) -> 0 < p -> j'.(job_id) = k -> job_sound j' ->
  j'.(job_status) = Running ->
  core_inv used None (<[k := j']> reg) q (<[k := j']> tasks) timers (p - 1) (a + 1) l.
Proof.
  intros [Hb Hso Hu Hqi Hq Hn Ht Hta Hh (Hp1 & Hp2 & Hp3)] Hk Hs Hnot Hpos Hid Hsnd Hrun.
  assert (Htk : tasks !! k = None).
  { destruct (tasks !! k) eqn:E; [|done]. apply Hta in E as [E ?]; [|done]. congruence. }
  constructor; try done.
  - by apply map_Forall_insert_2.
  - by apply map_Forall_insert_2.
  - intros id [[x Hx]|Hx]; apply Hu; [|by right]. left.
    destruct (decide (id = k)) as [->|]; [eauto|rewrite lookup_insert_ne in Hx by done; eauto].
  - rewrite Forall_forall in Hq |- *. intros x Hx. destruct (Hq _ Hx) as [Hr Hpd].
    rewrite lookup_insert_ne; [done|]. intros ->. apply Hnot. rewrite ids_app, elem_of_app. left.
    by apply elem_of_ids.
  - rewrite Forall_forall in Ht |- *. intros x Hx. destruct (Ht _ Hx) as [Hpd Hor]. split; [done|].
    rewrite lookup_insert_ne; [done|]. intros ->. apply Hnot. rewrite ids_app, elem_of_app. right.
    by apply elem_of_ids.
  - intros id Hne x. destruct (decide (id = k)) as [->|Hnk].
    + rewrite !lookup_insert_eq. split; [intros [= <-]; done|intros [[= <-] _]; done].
    + rewrite !lookup_insert_ne by done. by apply Hta.
  - rewrite map_size_insert_None by done. lia.
Qed.

(** What [abort_all_running] makes of an entry. *)
Definition aborted (j : Job) : Job :=
  if bool_decide (j.(job_status) = Running) then require_reconciliation ABORT_REASON j else j.

Lemma aborted_facts j :
  (aborted j).(job_id) = j.(job_id) /\ (job_sound j -> job_sound (aborted j))
  /\ (aborted j).(job_status) <> Running
  /\ (j.(job_status) <> Running -> aborted j = j).
Proof.
  unfold aborted. case_bool_decide as Hs; [|done]. split_and!; try done.
  intros Hj. by apply sound_reconcile; [|rewrite Hs|].
Qed.

Lemma core_abort used reg q tasks timers p a l :
  core_inv used None reg q tasks timers p a l ->
  core_inv used None (aborted <$> reg) q ∅ timers (p + Z.of_nat (size tasks))
    (a - Z.of_nat (size tasks)) l.
Proof.
  intros [Hb Hso Hu Hqi Hq Hn Ht Hta Hh (Hp1 & Hp2 & Hp3)]. constructor; try done.
  - intros id j. rewrite lookup_fmap_Some. intros (j0 & <- & Hj0).
    rewrite (proj1 (aborted_facts j0)). by apply Hb.
  - intros id j. rewrite lookup_fmap_Some. intros (j0 & <- & Hj0).
    apply aborted_facts, (Hso _ _ Hj0).
  - intros id [[x Hx]|Hx]; apply Hu; [|by right]. left.
    rewrite lookup_fmap_Some in Hx. destruct Hx as (? & _ & ?). eauto.
  - eapply Forall_impl; [exact Hq|]. intros x [Hx Hs]. split; [|done].
    rewrite lookup_fmap, Hx. cbn. f_equal. apply aborted_facts. congruence.
  - eapply Forall_impl; [exact Ht|]. intros x [Hs [Hx|Hx]]; (split; [done|]).
    + left. rewrite lookup_fmap, Hx. cbn. f_equal. apply aborted_facts. congruence.
    + right. intros y. rewrite lookup_fmap_Some. intros (y0 & <- & Hy0). specialize (Hx _ Hy0).
      destruct (aborted_facts y0) as (_ & _ & _ & Hsame). rewrite Hsame; [done|].
      by destruct (job_status y0).
  - intros id _ j. rewrite lookup_empty, lookup_fmap_Some. split; [done|].
    intros [(j0 & <- & _) Hr]. by destruct (aborted_facts j0) as (_ & _ & [] & _).
  - rewrite map_size_empty. lia.
Qed.

(** The [i]-th waiting retry is taken out. *)
Lemma core_fire used reg q tasks timers p a l i j :
  core_inv used None reg q tasks timers p a l -> timers !! i = Some j ->
  core_inv used None reg q tasks (delete i timers) p a l
  /\ (job_id j ∉ ids (q_view q ++ delete i timers)) /\ j.(job_status) = Pending
  /\ (forall j', reg !! job_id j = Some j' -> j'.(job_status) = Pending -> j' = j).
Proof.
  intros [Hb Hso Hu Hqi Hq Hn Ht Hta Hh Hp] Hl. apply delete_split in Hl as (l1 & l2 & -> & ->).
  assert (Hperm : ids (q_view q ++ l1 ++ j :: l2) ≡ₚ job_id j :: ids (q_view q ++ l1 ++ l2)).
  { unfold ids. rewrite <-(Permutation_middle l1 l2 j), <-Permutation_middle. done. }
  pose proof Hn as Hn'. rewrite Hperm in Hn'. apply NoDup_cons in Hn' as [Hnot Hnd].
  rewrite Forall_app, Forall_cons in Ht. destruct Ht as (Ht1 & [Hs Hor] & Ht2).
  split_and!; [|done|done|].
  - constructor; try done; [|by apply Forall_app].
    intros id [Hx|Hx]; apply Hu; [by left|right]. revert Hx.
    rewrite !ids_app, !elem_of_app. intros [|]; [by left|right]. by apply list_elem_of_further.
  - intros j' Hj' Hs'. destruct Hor as [He|Hall]; [congruence|].
    specialize (Hall _ Hj'). by rewrite Hs' in Hall.
Qed.

Lemma list_find_view p q :
  find_position p (q_entries q) = None -> Forall (fun j => p j = false) (q_view q).
Proof.
  unfold q_entries. rewrite find_position_omap. cbn [priorities]. intros Hn.
  assert (Hd : forall l, list_find (fun j => p j = true) l = None -> Forall (fun j => p j = false) l).
  { intros l Hl. apply list_find_None in Hl. eapply Forall_impl; [exact Hl|].
    intros x Hx. by apply not_true_iff_false. }
  unfold q_view. rewrite !Forall_app.
  destruct (list_find _ (deque q Low)) as [[]|] eqn:E1; [done|].
  destruct (list_find _ (deque q Normal)) as [[]|] eqn:E2; [done|].
  destruct (list_find _ (deque q High)) as [[]|] eqn:E3; [done|].
  destruct (list_find _ (deque q Critical)) as [[]|] eqn:E4; [done|]. auto.
Qed.

(** Cancelling in the queue takes the job out, if it waits there. *)
Lemma core_cancel used reg q tasks timers p a l now k :
  core_inv used None reg q tasks timers p a l ->
  core_inv used None reg (q_cancel_job now k q).2 tasks timers p a l
  /\ (k ∉ ids (q_view (q_cancel_job now k q).2)).
Proof.
  intros Hi. unfold q_cancel_job.
  destruct (find_position (is_id k) (q_entries q)) as [[[pr i] j]|] eqn:E.
  - apply find_position_deque in E as [Hd Hk%bool_decide_eq_true].
    destruct (q_remove_view _ _ _ _ Hd) as (l1 & l2 & Hv & Hv').
    pose proof (remove_inv _ _ _ _ Hd (ci_queue _ _ _ _ _ _ _ _ _ Hi)) as Hqi.
    destruct (core_dequeue _ _ _ _ _ _ _ _ _ _ _ _ _ Hi Hv Hv' Hqi) as (Hi' & Hnot & Hr & Hs).
    rewrite Hs. cbn [snd]. split; [done|]. rewrite ids_app, elem_of_app in Hnot. subst k. tauto.
  - cbn [snd]. split; [done|]. intros (x & Hx & <-)%ids_elem. apply list_find_view in E.
    rewrite Forall_forall in E. specialize (E _ Hx). by apply bool_decide_eq_false in E.
Qed.

Lemma core_used used used' hole reg q tasks timers p a l :
  core_inv used hole reg q tasks timers p a l -> used ⊆ used' ->
  core_inv used' hole reg q tasks timers p a l.
Proof. intros [Hb Hso Hu Hqi Hq Hn Ht Hta Hh Hp] Hsub. constructor; try done. auto. Qed.
End Core.

(** ** How one entry of the registry may change in a step *)

Definition same_request (j j' : Job) : Prop :=
  j'.(job_id) = j.(job_id) /\ j'.(job_name) = j.(job_name) /\ j'.(job_payload) = j.(job_payload)
  /\ j'.(job_priority) = j.(job_priority) /\ j'.(job_owner) = j.(job_owner)
  /\ j'.(job_max_retries) = j.(job_max_retries) /\ j'.(job_created_at) = j.(job_created_at).

Definition replay_safe (handlers : gmap string JobHandler) (j : Job) : bool :=
  match handlers !! j.(job_name) with
  | Some handler => handler.(jh_safe_to_retry)
  | None => false
  end.

(** The transitions of the lifecycle, with what each one requires. *)
Definition moves (handlers : gmap string JobHandler) (j j' : Job) : Prop :=
  same_request j j' /\
  match j.(job_status), j'.(job_status) with
  | Pending, (Running | JobCancelled | JobFailed | ReconciliationRequired)
  | Running, (JobCompleted | JobFailed) => j'.(job_retry_count) = j.(job_retry_count)
  | Running, ReconciliationRequired =>
      j.(job_retry_count) <= j'.(job_retry_count) <= j.(job_retry_count) + 1
  | Running, Pending =>
      j'.(job_retry_count) = j.(job_retry_count) + 1 /\ replay_safe handlers j = true
  | ReconciliationRequired, ReconciliationRequired => True
  | ReconciliationRequired, Resolved =>
      exists r, j'.(job_resolution) = Some r /\ j.(job_owner) = Some r.(jr_actor)
  | _, _ => False
  end.

(** The identifiers a step may introduce. *)
Class NewIds := new_id : JobId -> Prop.

(** Those that were not handed out before. *)
Definition since (used : gset JobId) : NewIds := fun id => id ∉ used.

Section Evolution.
Context `{NewIds}.

Inductive evolves (handlers : gmap string JobHandler) : option Job -> option Job -> Prop :=
| ev_same o : evolves handlers o o
| ev_new j : new_id j.(job_id) -> j.(job_status) = Pending -> evolves handlers None (Some j)
| ev_move j j' : moves handlers j j' -> evolves handlers (Some j) (Some j')
| ev_gone j : terminal j.(job_status) = true -> evolves handlers (Some j) None
| ev_move_gone j j' : moves handlers j j' -> terminal j'.(job_status) = true ->
    evolves handlers (Some j) None.

Definition evolve_map (handlers : gmap string JobHandler) (m m' : gmap JobId Job) : Prop :=
  forall id, evolves handlers (m !! id) (m' !! id).

Lemma evolve_refl h m : evolve_map h m m.
Proof. intros id. constructor. Qed.

(** One entry replaced, from the state the step started in. *)
Lemma evolve_insert h m m1 k j j' :
  evolve_map h m m1 -> m !! k = Some j -> moves h j j' -> evolve_map h m (<[k := j']> m1).
Proof.
  intros He Hk Hm id. destruct (decide (id = k)) as [->|Hne].
  - rewrite Hk, lookup_insert_eq. by constructor.
  - rewrite lookup_insert_ne by done. apply He.
Qed.

Lemma evolve_restore h m m1 k j :
  evolve_map h m m1 -> m !! k = Some j -> evolve_map h m (<[k := j]> m1).
Proof.
  intros He Hk id. destruct (decide (id = k)) as [->|Hne].
  - rewrite Hk, lookup_insert_eq. constructor.
  - rewrite lookup_insert_ne by done. apply He.
Qed.

Lemma evolve_new h m m1 j :
  evolve_map h m m1 -> m !! j.(job_id) = None -> new_id j.(job_id) -> j.(job_status) = Pending ->
  evolve_map h m (<[j.(job_id) := j]> m1).
Proof.
  intros He Hk Hn Hs id. destruct (decide (id = job_id j)) as [->|Hne].
  - rewrite Hk, lookup_insert_eq. by constructor.
  - rewrite lookup_insert_ne by done. apply He.
Qed.

Lemma evolve_prune h m m1 key n : evolve_map h m m1 -> evolve_map h m (prune_oldest key n m1).
Proof.
  intros He id. specialize (He id). destruct (prune_oldest key n m1 !! id) as [j|] eqn:E.
  - apply prune_oldest_lookup in E as [E _]. by rewrite E in He.
  - destruct (m1 !! id) as [j|] eqn:E1; [|done].
    assert (Ht : terminal (job_status j) = true).
    { destruct (terminal (job_status j)) eqn:Et; [done|].
      rewrite (prune_keeps_live key n m1 id j E1 Et) in E. done. }
    revert He. generalize (m !! id). intros o He.
    inversion He as [o'|j0 Hn Hs|j0 j1 Hm|j0 Hg|j0 j1 Hm Hg]; subst.
    + by apply ev_gone.
    + by rewrite Hs in Ht.
    + by eapply ev_move_gone.
Qed.

End Evolution.

(** ** Symbolic execution *)

Section Wp.
Context {S : Type} `{JobStore S} `{UuidLib} `{JsonWriter} `{Decimal}.

Definition wp {A} (m : Sched A) (Q : result A JobError -> JobScheduler S -> Prop) (s : JobScheduler S) : Prop :=
  Q (m s).1 (m s).2.

Lemma wp_bind {A B} (m : Sched A) (k : A -> Sched B) Q (s : JobScheduler S) :
  wp m (fun r s' => match r with Ok a => wp (k a) Q s' | Err e => Q (Err e) s' end) s ->
  wp (sbind m k) Q s.
Proof. unfold wp, sbind. by destruct (m s) as [[a|e] s']. Qed.

Lemma wp_call {A} (m : ST S StoreError A) Q (s : JobScheduler S) :
  (forall r x, m s.(sd_store) = (r, x) -> Q (Ok r) (s <| sd_store := x |>)) -> wp (call m) Q s.
Proof. intros HQ. unfold wp, call. destruct (m (sd_store s)) as [r x] eqn:E. by apply HQ. Qed.

Lemma wp_conseq {A} (m : Sched A) Q Q' (s : JobScheduler S) :
  wp m Q s -> (forall r s', Q r s' -> Q' r s') -> wp m Q' s.
Proof. intros Hm HQ. by apply HQ. Qed.

Lemma wp_run {A} (m : Sched A) Q (s s' : JobScheduler S) r : m s = (r, s') -> wp m Q s -> Q r s'.
Proof. unfold wp. by intros ->. Qed.

Lemma wp_persist now snap ev Q (s : JobScheduler S) :
  (forall x, Q (Ok true) (s <| sd_store := x |>)) ->
  (forall x, s.(sd_registry) !! snap.(job_id) = None -> Q (Ok false) (s <| sd_store := x |>)) ->
  (forall x job reason, s.(sd_registry) !! snap.(job_id) = Some job -> reason <> "" ->
     let j' := require_reconciliation reason job in
     Q (Ok false) (s <| sd_registry := <[j'.(job_id) := j']> s.(sd_registry) |>
                     <| sd_store := x |>)) ->
  wp (persist_or_reconcile now snap ev) Q s.
Proof.
  intros Ha Hb Hc. unfold persist_or_reconcile. apply wp_bind, wp_call. intros [u|error] x _; [apply Ha|].
  apply wp_bind. unfold wp at 1, sget. cbn [fst snd].
  cbn [set_field sd_registry].
  destruct (sd_registry s !! job_id snap) as [job|] eqn:E; [|by apply Hb].
  apply wp_bind. unfold wp at 1, set_job, smodify. cbn [fst snd].
  apply wp_bind, wp_call. intros r y _. unfold wp, sret. cbn [fst snd].
  apply (Hc y job); [done|]. by destruct ev.
Qed.

Lemma wp_get Q (s : JobScheduler S) : Q (Ok s) s -> wp sget Q s.
Proof. done. Qed.
Lemma wp_ret {A} (a : A) Q (s : JobScheduler S) : Q (Ok a) s -> wp (sret a) Q s.
Proof. done. Qed.
Lemma wp_fail {A} e Q (s : JobScheduler S) : Q (Err e) s -> wp (A := A) (sfail e) Q s.
Proof. done. Qed.
Lemma wp_lift {A} (r : result A JobError) Q (s : JobScheduler S) : Q r s -> wp (slift r) Q s.
Proof. done. Qed.
Lemma wp_modify f Q (s : JobScheduler S) : Q (Ok tt) (f s) -> wp (smodify f) Q s.
Proof. done. Qed.

End Wp.

Ltac wp1 :=
  lazymatch goal with
  | |- wp (sbind _ _) _ _ => apply wp_bind
  | |- wp sget _ _ => apply wp_get
  | |- wp (sret _) _ _ => apply wp_ret
  | |- wp (sfail _) _ _ => apply wp_fail
  | |- wp (slift _) _ _ => apply wp_lift
  | |- wp (smodify _) _ _ => apply wp_modify
  | |- wp (set_job _) _ _ => apply wp_modify
  | |- wp (put_queue _) _ _ => apply wp_modify
  | |- wp (call _) _ _ => apply wp_call; intros ? ? ?
  end; cbv beta iota.
Ltac wps := repeat wp1.

(** ** The invariant of a scheduler *)

Section Invariant.
Context {S : Type} `{JobStore S} `{UuidLib} `{JsonWriter} `{Decimal} `{NewIds}.

Definition inv_at (used : gset JobId) (hole : option JobId) (s : JobScheduler S) : Prop :=
  core_inv used hole s.(sd_registry) s.(sd_queue) s.(sd_tasks) s.(sd_timers) s.(sd_permits)
    s.(sd_active_jobs) (Z.max s.(sd_config).(sc_max_concurrent_jobs) 1).

Definition sched_inv (used : gset JobId) (s : JobScheduler S) : Prop := inv_at used None s.

(** The invariant holds again, and every entry moved as the lifecycle allows. *)
Definition post (used : gset JobId) (hole : option JobId) (s0 s : JobScheduler S) : Prop :=
  inv_at used hole s
  /\ evolve_map s0.(sd_handlers) s0.(sd_registry) s.(sd_registry)
  /\ (s.(sd_handlers) = s0.(sd_handlers) /\ s.(sd_config) = s0.(sd_config)).

Lemma post_refl used s : sched_inv used s -> post used None s s.
Proof. intros Hi. split; [exact Hi|]. split; [apply evolve_refl|done]. Qed.

(** Store calls do not touch any of it. *)
Lemma post_store used hole s0 s x :
  post used hole s0 s -> post used hole s0 (s <| sd_store := x |>).
Proof. intros Hp. exact Hp. Qed.

Lemma post_prune used hole s0 s :
  post used hole s0 s ->
  post used hole s0 (s <| sd_registry := prune_oldest job_completed_at
    s.(sd_config).(sc_retained_terminal_jobs) s.(sd_registry) |>).
Proof.
  intros (Hi & He & Hh). split; [|split; [|done]].
  - exact (core_prune _ _ _ _ _ _ _ _ _ _ _ Hi).
  - by apply evolve_prune.
Qed.

Lemma wp_retain used hole s0 now s (Q : result unit JobError -> JobScheduler S -> Prop) :
  post used hole s0 s ->
  (forall s', post used hole s0 s' -> Q (Ok tt) s') -> wp (retain now) Q s.
Proof.
  intros Hp HQ. unfold retain, sched_prune_terminal, prune_store_terminal. wps.
  apply HQ, post_store. by apply post_prune.
Qed.

(** A new entry [j1] of the running job [j], before and after its persistence turned out
    to be uncertain. *)
Record successor (handlers : gmap string JobHandler) (j j1 : Job) : Prop := MkSuccessor {
  su_sound : job_sound j1;
  su_live : j1.(job_status) <> Running /\ j1.(job_status) <> Resolved;
  su_moves : moves handlers j j1;
  su_retry : j.(job_retry_count) <= j1.(job_retry_count) <= j.(job_retry_count) + 1;
}.

Lemma successor_reconciled h j j1 reason :
  successor h j j1 -> j.(job_status) = Running -> reason <> "" ->
  successor h j (require_reconciliation reason j1).
Proof.
  intros [Hs [Hl1 Hl2] [Hm _] Hr] Hj He. constructor; try done.
  - by apply sound_reconcile.
  - split; [done|]. cbn. by rewrite Hj.
Qed.

Lemma running_moved used s id j j1 :
  sched_inv used s -> s.(sd_registry) !! id = Some j -> j.(job_status) = Running ->
  successor s.(sd_handlers) j j1 ->
  post used (Some id) s (s <| sd_registry := <[id := j1]> s.(sd_registry) |>).
Proof.
  intros Hi Hj Hr [Hs [Hl _] Hm _]. pose proof (ci_by_id _ _ _ _ _ _ _ _ _ Hi _ _ Hj) as Hid.
  destruct Hm as [[Hid1 Hreq] Hst]. split; [|split; [|done]].
  - eapply (core_open _ _ _ _ _ _ _ _ _ _ _ Hi Hj Hr); [congruence|done|done].
  - eapply evolve_insert; [apply evolve_refl|exact Hj|]. by split.
Qed.

Lemma hole_moved used s0 s id j j1 :
  post used (Some id) s0 s -> s0.(sd_registry) !! id = Some j -> is_Some (s.(sd_registry) !! id) ->
  successor s0.(sd_handlers) j j1 -> j.(job_id) = id ->
  post used (Some id) s0 (s <| sd_registry := <[id := j1]> s.(sd_registry) |>).
Proof.
  intros (Hi & He & Hh) Hj [j0 Hj0] [Hs [Hl _] Hm _] Hid. destruct Hm as [[Hid1 Hreq] Hst].
  destruct (ci_hole _ _ _ _ _ _ _ _ _ Hi id eq_refl) as (_ & Hnot & _).
  rewrite ids_app, elem_of_app in Hnot. split; [|split; [|done]].
  - eapply (core_set _ _ _ _ _ _ _ _ _ _ _ _ Hi Hj0); [congruence|done|done|by left|tauto|].
    intros Hin. destruct Hnot. by right.
  - eapply evolve_insert; [exact He|exact Hj|]. by split.
Qed.

(** Persisting a successor of a running job, whatever the store answers. *)
Lemma wp_persist_running used s id j j1 now ev (Q : result bool JobError -> JobScheduler S -> Prop) :
  sched_inv used s -> s.(sd_registry) !! id = Some j -> j.(job_status) = Running ->
  successor s.(sd_handlers) j j1 ->
  (forall s', post used (Some id) s s' -> s'.(sd_registry) !! id = Some j1 -> Q (Ok true) s') ->
  (forall s', post used (Some id) s s' -> Q (Ok false) s') ->
  wp (persist_or_reconcile now j1 ev) Q
    (s <| sd_registry := <[id := j1]> s.(sd_registry) |>).
Proof.
  intros Hi Hj Hr Hsu HQ1 HQ2. pose proof (ci_by_id _ _ _ _ _ _ _ _ _ Hi _ _ Hj) as Hid.
  pose proof (running_moved _ _ _ _ _ Hi Hj Hr Hsu) as Hp.
  destruct (su_moves _ _ _ Hsu) as [[Hid1 _] _].
  assert (Hlk : <[id := j1]> (sd_registry s) !! job_id j1 = Some j1)
    by (rewrite Hid1, Hid; apply lookup_insert_eq).
  apply wp_persist.
  - intros x. apply HQ1; [by apply post_store|cbn; apply lookup_insert_eq].
  - intros x Hn. change (<[id := j1]> (sd_registry s) !! job_id j1 = None) in Hn. congruence.
  - intros x job reason Hjob Hne.
    change (<[id := j1]> (sd_registry s) !! job_id j1 = Some job) in Hjob.
    rewrite Hlk in Hjob. injection Hjob as <-. cbn zeta.
    apply HQ2, post_store.
    pose proof (hole_moved used s (s <| sd_registry := <[id := j1]> s.(sd_registry) |>) id j
      (require_reconciliation reason j1) Hp Hj) as Hm.
    change (job_id (require_reconciliation reason j1)) with (job_id j1). rewrite Hid1, Hid.
    apply Hm; [exists j1; apply lookup_insert_eq|by apply successor_reconciled|done].
Qed.
End Invariant.
