(* ===== verification/SchedulerSteps.v ===== *)
(** * The scheduler's operations keep its invariant

    For every operation of [Scheduler]: the invariant holds again, every registry entry
    moved as the lifecycle allows, and no handler registration changed.  The operations
    are then the steps of a transition system. *)

From S2P Require Import Prelude Text SkillTypes Ledger Job JobQueue JobStore Lifecycle Scheduler SchedulerInv.

Section Steps.
Context {S : Type} `{JobStore S} `{UuidLib} `{JsonWriter} `{Decimal} `{NewIds}.

Lemma post_close used s0 (s : JobScheduler S) id :
  post used (Some id) s0 s ->
  post used None s0 (s <| sd_permits := s.(sd_permits) + 1 |>
                       <| sd_active_jobs := s.(sd_active_jobs) - 1 |>
                       <| sd_tasks := delete id s.(sd_tasks) |>).
Proof.
  intros (Hi & He & Hh). split; [|split; [exact He|exact Hh]].
  exact (core_close _ _ _ _ _ _ _ _ _ Hi).
Qed.

Lemma post_wait used s0 (s : JobScheduler S) id j :
  post used None s0 s -> s.(sd_registry) !! id = Some j -> j.(job_status) = Pending ->
  (id ∉ ids (q_view s.(sd_queue) ++ s.(sd_timers))) ->
  post used None s0 (s <| sd_timers := s.(sd_timers) ++ [j] |>).
Proof.
  intros (Hi & He & Hh) Hj Hs Hnot. split; [|split; [exact He|exact Hh]].
  exact (core_wait _ _ _ _ _ _ _ _ _ _ Hi Hj Hs Hnot).
Qed.

(** The results a handler's end can produce. *)
Definition result_for (id : JobId) (r : JobResult) : Prop :=
  r.(jres_job_id) = id /\
  (if r.(jres_success) then r.(jres_error) = None else is_Some r.(jres_error)).

Lemma execute_result now outcome j (s : JobScheduler S) :
  result_for j.(job_id) (execute_job now outcome j s).
Proof. unfold execute_job. repeat case_match; split; cbn; eauto. Qed.

(** How a running job can go on when its handler ends. *)
Lemma successor_timeout h j reason :
  job_sound j -> j.(job_status) = Running -> reason <> "" ->
  successor h j (require_reconciliation reason j).
Proof.
  intros Hs Hr Hne. constructor; [apply sound_reconcile; congruence|done| |cbn; lia].
  split; [done|]. cbn. rewrite Hr. lia.
Qed.

Lemma successor_complete h j now r :
  job_sound j -> j.(job_status) = Running -> result_for j.(job_id) r -> r.(jres_success) = true ->
  successor h j (job_complete now r j).
Proof.
  intros Hs Hr [Hid He] Hok. rewrite Hok in He.
  constructor; [by apply sound_complete|done| |cbn; lia]. split; [done|]. cbn. by rewrite Hr.
Qed.

Definition failed_run (now : Time) (r : JobResult) (j : Job) : Job :=
  job_fail now (default "job failed" r.(jres_error)) j <| job_result := Some r |>.

Lemma sound_failed_with now j r :
  job_sound j -> j.(job_status) = Running -> result_for j.(job_id) r -> r.(jres_success) = false ->
  job_sound (failed_run now r j).
Proof.
  intros Hs Hr [Hid He] Hok. rewrite Hok in He. destruct He as [e He]. unfold failed_run.
  rewrite He. by apply sound_failed_run.
Qed.

Lemma successor_failed h j now r :
  job_sound j -> j.(job_status) = Running -> result_for j.(job_id) r -> r.(jres_success) = false ->
  successor h j (failed_run now r j).
Proof.
  intros Hs Hr Hres Hok. constructor; [by apply sound_failed_with|done| |cbn; lia].
  split; [done|]. cbn. by rewrite Hr.
Qed.

Lemma successor_retry h j now r :
  job_sound j -> j.(job_status) = Running -> result_for j.(job_id) r -> r.(jres_success) = false ->
  can_retry (failed_run now r j) = true -> replay_safe h j = true ->
  successor h j (prepare_retry (failed_run now r j)).
Proof.
  intros Hs Hr Hres Hok Hc Hsafe.
  constructor; [apply sound_retry; [by apply sound_failed_with|done|done]|done| |cbn; lia].
  split; [done|]. cbn. by rewrite Hr.
Qed.

(** Everything [finish_job] can do to a job that runs. *)
Lemma wp_finish used s id j r timed_out now (Q : result (option Job) JobError -> JobScheduler S -> Prop) :
  sched_inv used s -> s.(sd_registry) !! id = Some j -> j.(job_status) = Running ->
  result_for id r ->
  (forall s', post used (Some id) s s' -> Q (Ok None) s') ->
  (forall s' j', post used (Some id) s s' -> s'.(sd_registry) !! id = Some j' ->
     j'.(job_status) = Pending -> Q (Ok (Some j')) s') ->
  wp (finish_job now id r timed_out) Q s.
Proof.
  intros Hi Hj Hr Hres HN HS. pose proof (ci_by_id _ _ _ _ _ _ _ _ _ Hi _ _ Hj) as Hid.
  pose proof (ci_sound _ _ _ _ _ _ _ _ _ Hi _ _ Hj) as Hso. cbn beta in Hso, Hid.
  rewrite <-Hid in Hres.
  assert (HP : forall j1 ev Q', successor s.(sd_handlers) j j1 ->
    (forall s', post used (Some id) s s' -> s'.(sd_registry) !! id = Some j1 -> Q' (Ok true) s') ->
    (forall s', post used (Some id) s s' -> Q' (Ok false) s') ->
    wp (persist_or_reconcile now j1 ev) Q'
      (s <| sd_registry := <[job_id j1 := j1]> s.(sd_registry) |>)).
  { intros j1 ev Q' Hsu. destruct (su_moves _ _ _ Hsu) as [[-> _] _]. rewrite Hid.
    intros ??. by eapply wp_persist_running. }
  unfold finish_job. wps. rewrite Hj, (bool_decide_eq_true_2 _ Hr). cbn [negb]. destruct timed_out.
  { wps. apply HP; [by apply successor_timeout|..]; intros; wps; auto. }
  destruct (jres_success r) eqn:Eok.
  { wps. apply HP; [by apply successor_complete| |by intros; cbn [negb]; wps; auto].
    intros s' Hp Hl. cbn [negb]. wps. eapply wp_retain; [exact Hp|]. intros s2 Hp2. wps.
    apply HN. exact Hp2. }
  change (job_fail now (default "job failed" (jres_error r)) j <| job_result := Some r |>)
    with (failed_run now r j).
  change (match sd_handlers s !! job_name (failed_run now r j) with
          | Some handler => jh_safe_to_retry handler | None => false end)
    with (replay_safe (sd_handlers s) j).
  destruct (negb (can_retry (failed_run now r j)) || negb (replay_safe (sd_handlers s) j)) eqn:Ec.
  { wps. apply HP; [by apply successor_failed| |by intros; cbn [negb]; wps; auto].
    intros s' Hp Hl. cbn [negb]. wps. eapply wp_retain; [exact Hp|]. intros s2 Hp2. wps.
    apply HN. exact Hp2. }
  apply orb_false_iff in Ec as [Ec1%negb_false_iff Ec2%negb_false_iff].
  wps. apply HP; [by apply successor_retry| |by intros; cbn [negb]; wps; auto].
  intros s' Hp Hl. cbn [negb]. wps. apply HS; [exact Hp|exact Hl|reflexivity].
Qed.

(** ** The end of a task *)

Lemma task_running used (s : JobScheduler S) id job :
  sched_inv used s -> s.(sd_tasks) !! id = Some job ->
  s.(sd_registry) !! id = Some job /\ job.(job_status) = Running /\ job.(job_id) = id.
Proof.
  intros Hi Ht. apply (ci_tasks _ _ _ _ _ _ _ _ _ Hi) in Ht as [Hj Hr]; [|done].
  split_and!; [done|done|]. exact (ci_by_id _ _ _ _ _ _ _ _ _ Hi _ _ Hj).
Qed.

Lemma task_done_post used (s : JobScheduler S) now id outcome :
  sched_inv used s -> wp (task_done now id outcome) (fun _ => post used None s) s.
Proof.
  intros Hi. unfold task_done. wps. destruct (sd_tasks s !! id) as [job|] eqn:Ht;
    [|wps; by apply post_refl].
  destruct (task_running _ _ _ _ Hi Ht) as (Hj & Hr & Hid).
  assert (Hfin : forall r late, result_for id r ->
    wp (finish_job now id r late) (fun a s' => match a with
      | Ok retry => wp (release_permit id ;;
          match retry with
          | Some job => smodify (fun s => s <| sd_timers := s.(sd_timers) ++ [job] |>)
          | None => sret tt
          end) (fun _ => post used None s) s'
      | Err _ => post used None s s'
      end) s).
  { intros r late Hres. eapply wp_finish; [done..| |].
    - intros s' Hp. unfold release_permit. wps. by apply post_close.
    - intros s' j' Hp Hj' Hs'. unfold release_permit. wps.
      apply (post_wait used s _ id); [by apply post_close|done|done|].
      destruct Hp as (Hi' & _). by destruct (ci_hole _ _ _ _ _ _ _ _ _ Hi' id eq_refl) as (_ & ? & _). }
  destruct outcome as [outcome|]; wps; apply Hfin.
  - rewrite <-Hid at 1. apply execute_result.
  - split; cbn; eauto.
Qed.

(** ** Jobs in nobody's hands *)

Lemma post_set used s0 (s : JobScheduler S) k j0 j j' :
  post used None s0 s -> s0.(sd_registry) !! k = Some j0 -> s.(sd_registry) !! k = Some j ->
  job_sound j' -> j'.(job_status) <> Running -> j.(job_status) <> Running ->
  (k ∉ ids (q_view s.(sd_queue))) ->
  (k ∈ ids s.(sd_timers) -> terminal j'.(job_status) = true) ->
  j0.(job_id) = k -> moves s0.(sd_handlers) j0 j' ->
  post used None s0 (s <| sd_registry := <[k := j']> s.(sd_registry) |>).
Proof.
  intros (Hi & He & Hh) Hj0 Hj Hs Hr Hr' Hq Ht Hid Hm. pose proof Hm as [[Hid' _] _].
  split; [|split; [|exact Hh]].
  - eapply (core_set _ _ _ _ _ _ _ _ _ _ _ _ Hi Hj); [congruence|done..|by right|done|done].
  - by eapply evolve_insert.
Qed.

(** A pending job that left the queue is recorded as failed, whatever the store answers. *)
Lemma fail_pending_post used s0 s k j now reason :
  post used None s0 s -> s0.(sd_registry) !! k = Some j -> s.(sd_registry) !! k = Some j ->
  j.(job_status) = Pending -> (k ∉ ids (q_view s.(sd_queue) ++ s.(sd_timers))) -> reason <> "" ->
  wp (persist_or_reconcile now (job_fail now reason j) EvFailed)
    (fun r s' => is_ok r = true /\ post used None s0 s')
    (s <| sd_registry := <[k := job_fail now reason j]> s.(sd_registry) |>).
Proof.
  intros Hp Hj0 Hj Hs Hnot Hne. rewrite ids_app, elem_of_app in Hnot.
  pose proof (ci_by_id _ _ _ _ _ _ _ _ _ (proj1 Hp) _ _ Hj) as Hid.
  pose proof (ci_sound _ _ _ _ _ _ _ _ _ (proj1 Hp) _ _ Hj) as Hso. cbn beta in Hid, Hso.
  assert (Hf : job_sound (job_fail now reason j)) by by apply sound_requeue_failed.
  assert (Hp1 : post used None s0 (s <| sd_registry := <[k := job_fail now reason j]> s.(sd_registry) |>)).
  { apply (post_set used s0 s k j j); try done; [congruence|tauto|]. split; [done|]. cbn. by rewrite Hs. }
  apply wp_persist.
  - intros x. split; [done|]. by apply post_store.
  - intros x _. split; [done|]. by apply post_store.
  - intros x job why Hjob Hwhy. split; [done|]. apply post_store.
    change (<[k := job_fail now reason j]> (sd_registry s) !! job_id j = Some job) in Hjob.
    rewrite Hid, lookup_insert_eq in Hjob. injection Hjob as <-.
    pose proof (post_set used s0 (s <| sd_registry := <[k := job_fail now reason j]> s.(sd_registry) |>)
      k j (job_fail now reason j) (require_reconciliation why (job_fail now reason j)) Hp1 Hj0) as Hm.
    change (job_id (require_reconciliation why (job_fail now reason j))) with (job_id j). rewrite Hid.
    apply Hm; [apply lookup_insert_eq|by apply sound_reconcile|done|done|cbn; tauto|cbn; tauto|done|].
    split; [done|]. cbn. by rewrite Hs.
Qed.

Lemma post_enqueue used s0 (s : JobScheduler S) k j q :
  post used None s0 s -> s.(sd_registry) !! k = Some j -> j.(job_status) = Pending ->
  (k ∉ ids (q_view s.(sd_queue) ++ s.(sd_timers))) -> q_requeue j s.(sd_queue) = Ok q ->
  post used None s0 (s <| sd_queue := q |>).
Proof.
  intros (Hi & He & Hh) Hj Hs Hnot Hq. split; [|split; [exact He|exact Hh]].
  by eapply (core_enqueue _ _ _ _ _ _ _ _ _ _ _ _ Hi Hj Hs Hnot).
Qed.

(** ** The end of a backoff *)

Lemma requeue_post used s0 s now j :
  post used None s0 s -> s0.(sd_registry) = s.(sd_registry) ->
  (job_id j ∉ ids (q_view s.(sd_queue) ++ s.(sd_timers))) ->
  (forall j', s.(sd_registry) !! job_id j = Some j' -> j'.(job_status) = Pending -> j' = j) ->
  wp (requeue_after_backoff now j) (fun _ => post used None s0) s.
Proof.
  intros Hp Hreg Hnot Hsame. unfold requeue_after_backoff. wps.
  destruct (sd_shutdown s); [by wps|].
  destruct (sd_registry s !! job_id j) as [j'|] eqn:Hj; [|by wps].
  destruct (is_pending j') eqn:Hpe; cbn [negb]; [|by wps]. apply bool_decide_eq_true in Hpe.
  pose proof (Hsame _ eq_refl Hpe) as ->. wps.
  assert (Hback : post used None s0 (s <| sd_registry := <[job_id j := j]> s.(sd_registry) |>)).
  { rewrite insert_id by done. by destruct s. }
  destruct (q_requeue j (sd_queue s)) as [q|e] eqn:Hq; wps.
  - eapply (post_enqueue used s0 (s <| sd_registry := <[job_id j := j]> s.(sd_registry) |>));
      [exact Hback|apply lookup_insert_eq|done|exact Hnot|exact Hq].
  - set (s1 := s <| sd_registry := <[job_id j := j]> s.(sd_registry) |>) in *.
    eapply wp_conseq.
    { apply (fail_pending_post used s0 s1 (job_id j) j); try done; [congruence|apply lookup_insert_eq]. }
    intros [[]|?] s' [Hok Hp']; [|by wps|done]. cbn [negb]. unfold prune_store_terminal. wps.
    exact Hp'.
Qed.

Lemma timer_done_post used s now i :
  sched_inv used s -> wp (timer_done now i) (fun _ => post used None s) s.
Proof.
  intros Hi. unfold timer_done. wps. destruct (sd_timers s !! i) as [j|] eqn:Ht;
    [|wps; by apply post_refl].
  destruct (core_fire _ _ _ _ _ _ _ _ _ _ Hi Ht) as (Hi' & Hnot & Hs & Hsame). wps.
  assert (Hp : post used None s (s <| sd_timers := delete i s.(sd_timers) |>)).
  { split; [exact Hi'|]. split; [apply evolve_refl|done]. }
  destruct (sd_shutdown s); [by wps|]. by apply requeue_post.
Qed.

(** ** Cancelling *)

Lemma cancel_pending_post used (s : JobScheduler S) now id j :
  sched_inv used s -> s.(sd_registry) !! id = Some j -> j.(job_status) = Pending ->
  post used None s (s <| sd_queue := (q_cancel_job now id s.(sd_queue)).2 |>
                      <| sd_registry := <[id := job_cancel now j]> s.(sd_registry) |>).
Proof.
  intros Hi Hj Hs. destruct (core_cancel _ _ _ _ _ _ _ _ now id Hi) as [Hi' Hnot].
  pose proof (ci_by_id _ _ _ _ _ _ _ _ _ Hi _ _ Hj) as Hid.
  pose proof (ci_sound _ _ _ _ _ _ _ _ _ Hi _ _ Hj) as Hso. cbn beta in Hid, Hso.
  revert Hi' Hnot. generalize (q_cancel_job now id s.(sd_queue)).2 as q. intros q Hi' Hnot.
  pose (s1 := s <| sd_queue := q |>).
  refine (post_set used s s1 id j j (job_cancel now j) _ Hj Hj _ _ _ Hnot _ Hid _).
  - split; [exact Hi'|]. split; [apply evolve_refl|split; reflexivity].
  - by apply sound_cancel.
  - discriminate.
  - congruence.
  - intros _. reflexivity.
  - split; [done|]. cbn. by rewrite Hs.
Qed.

Lemma cancel_job_post used (s : JobScheduler S) now id :
  sched_inv used s -> wp (cancel_job now id) (fun _ => post used None s) s.
Proof.
  intros Hi. unfold cancel_job. wps.
  destruct (sd_registry s !! id) as [j|] eqn:Hj; cbn [ok_or]; [|by apply post_refl].
  pose proof (ci_by_id _ _ _ _ _ _ _ _ _ Hi _ _ Hj) as Hid.
  pose proof (ci_sound _ _ _ _ _ _ _ _ _ Hi _ _ Hj) as Hso. cbn beta in Hid, Hso.
  destruct (job_status j) eqn:Hs; wps; try by apply post_refl.
  - destruct r as [u|e]; cbn [map_err]; [|by apply post_store, post_refl]. wps.
    change (job_id (job_cancel now j)) with (job_id j). rewrite Hid.
    eapply wp_retain; [|by intros s' Hp].
    change (post used None s ((s <| sd_queue := (q_cancel_job now id s.(sd_queue)).2 |>
      <| sd_registry := <[id := job_cancel now j]> s.(sd_registry) |>) <| sd_store := x |>)).
    by apply post_store, cancel_pending_post.
  - pose proof (successor_timeout s.(sd_handlers) j CANCEL_REASON Hso Hs ltac:(done)) as Hsu.
    pose proof (running_moved _ _ _ _ _ Hi Hj Hs Hsu) as Hp.
    change (job_id (require_reconciliation CANCEL_REASON j)) with (job_id j). rewrite Hid.
    rewrite bool_decide_eq_true_2; [|exists j; by apply (ci_tasks _ _ _ _ _ _ _ _ _ Hi)].
    unfold release_permit. wps.
    destruct r as [u|e]; cbn [map_err]; apply post_store; exact (post_close _ _ _ _ Hp).
Qed.

(** ** Aborting *)

Lemma abort_one (reg m : gmap JobId Job) j jobs :
  reg !! j.(job_id) = Some j -> (j.(job_id) ∉ ids jobs) ->
  (forall id, m !! id = if decide (id ∈ ids jobs) then aborted <$> <[job_id j := aborted j]> reg !! id
                        else <[job_id j := aborted j]> reg !! id) ->
  forall id, m !! id = if decide (id ∈ ids (j :: jobs)) then aborted <$> reg !! id else reg !! id.
Proof.
  intros Hj Hnot Hm id. rewrite Hm. destruct (decide (id = job_id j)) as [->|Hne].
  - rewrite decide_False by done. rewrite decide_True by (by apply list_elem_of_here).
    by rewrite lookup_insert_eq, Hj.
  - rewrite lookup_insert_ne by congruence.
    change (ids (j :: jobs)) with (job_id j :: ids jobs).
    destruct (decide (id ∈ ids jobs)) as [Hin|Hin].
    + by rewrite decide_True by (by apply list_elem_of_further).
    + rewrite decide_False; [done|]. rewrite elem_of_cons. tauto.
Qed.

Lemma wp_abort_jobs now jobs Q (s : JobScheduler S) :
  Forall (fun j => s.(sd_registry) !! j.(job_id) = Some j) jobs -> NoDup (ids jobs) ->
  (forall m x, (forall id, m !! id = if decide (id ∈ ids jobs) then aborted <$> s.(sd_registry) !! id
                                     else s.(sd_registry) !! id) ->
     Q (Ok tt) (s <| sd_registry := m |> <| sd_store := x |>)) ->
  wp (abort_jobs now jobs) Q s.
Proof.
  revert s. induction jobs as [|j jobs IH]; intros s Hreg Hnd HQ; cbn [abort_jobs].
  { wps. specialize (HQ s.(sd_registry) s.(sd_store) ltac:(done)). by destruct s. }
  apply Forall_cons in Hreg as [Hj Hreg]. cbn in Hnd. apply NoDup_cons in Hnd as [Hnot Hnd].
  assert (Hfar : Forall (fun x => <[job_id j := aborted j]> s.(sd_registry) !! x.(job_id) = Some x) jobs).
  { rewrite Forall_forall in Hreg |- *. intros x Hx. rewrite lookup_insert_ne; [by apply Hreg|].
    intros He. apply Hnot. rewrite He. by apply elem_of_ids. }
  pose proof (fun m => abort_one s.(sd_registry) m j jobs Hj Hnot) as Hone.
  assert (Ha : aborted j = if bool_decide (job_status j = Running)
      then require_reconciliation ABORT_REASON j else j) by reflexivity.
  rewrite Ha in Hfar, Hone. case_bool_decide as Hr; wps.
  - apply IH; [exact Hfar|done|]. intros m y Hm. exact (HQ m y (Hone m Hm)).
  - rewrite insert_id in Hone by done. apply IH; [done..|]. intros m y Hm. exact (HQ m y (Hone m Hm)).
Qed.

(** Every running job of the registry is left for reconciliation. *)
Lemma wp_abort_all used s0 s now (Q : result unit JobError -> JobScheduler S -> Prop) :
  post used None s0 s -> s.(sd_registry) = s0.(sd_registry) ->
  (forall s', post used None s0 s' -> Q (Ok tt) s') -> wp (abort_all_running now) Q s.
Proof.
  intros (Hi & He & Hh) Hreg HQ. unfold abort_all_running. wps.
  pose proof (ci_by_id _ _ _ _ _ _ _ _ _ Hi) as Hby.
  pose proof (ids_of_map _ Hby) as Hids.
  apply wp_abort_jobs; cbn [set_field sd_registry].
  - apply Forall_forall. intros j ([id j'] & -> & Hj)%list_elem_of_fmap. cbn.
    apply elem_of_map_to_list in Hj. by rewrite (Hby _ _ Hj).
  - rewrite Hids. apply NoDup_fst_map_to_list.
  - intros m x Hm. apply HQ, post_store.
    assert (m = aborted <$> s.(sd_registry)) as ->.
    { apply map_eq. intros id. rewrite Hm, lookup_fmap, Hids. case_decide as Hin; [done|].
      destruct (sd_registry s !! id) as [j|] eqn:E; [|done]. destruct Hin.
      apply elem_of_map_to_list in E. by apply (list_elem_of_fmap_2 fst) in E. }
    split; [exact (core_abort _ _ _ _ _ _ _ _ Hi)|]. split; [|exact Hh].
    intros id. cbn [set_field sd_registry]. rewrite lookup_fmap, Hreg.
    destruct (sd_registry s0 !! id) as [j|] eqn:E; [|constructor]. cbn. unfold aborted.
    case_bool_decide as Hr; [|constructor]. apply ev_move. split; [done|]. cbn. rewrite Hr. lia.
Qed.

(** ** Starting *)

Lemma post_run used s0 (s : JobScheduler S) k j j' :
  post used None s0 s -> s0.(sd_registry) !! k = Some j -> s.(sd_registry) !! k = Some j ->
  j.(job_status) = Pending -> (k ∉ ids (q_view s.(sd_queue) ++ s.(sd_timers))) ->
  0 < s.(sd_permits) -> job_sound j' -> j'.(job_status) = Running -> j.(job_id) = k ->
  moves s0.(sd_handlers) j j' ->
  post used None s0 (s <| sd_registry := <[k := j']> s.(sd_registry) |>
                       <| sd_active_jobs := s.(sd_active_jobs) + 1 |>
                       <| sd_permits := s.(sd_permits) - 1 |>
                       <| sd_tasks := <[k := j']> s.(sd_tasks) |>).
Proof.
  intros (Hi & He & Hh) Hj0 Hj Hs Hnot Hp Hso Hr Hid Hm. pose proof Hm as [[Hid' _] _].
  split; [|split; [|exact Hh]].
  - refine (core_run _ _ _ _ _ _ _ _ _ _ _ Hi Hj Hs Hnot Hp _ Hso Hr). congruence.
  - by eapply evolve_insert.
Qed.

(** Putting the old entry back undoes the change of the registry. *)
Lemma restore_entry (s : JobScheduler S) x k j j' :
  s.(sd_registry) !! k = Some j ->
  (s <| sd_registry := <[k := j']> s.(sd_registry) |> <| sd_store := x |>)
    <| sd_registry := <[k := j]> (s <| sd_registry := <[k := j']> s.(sd_registry) |>
                                    <| sd_store := x |>).(sd_registry) |>
  = s <| sd_store := x |>.
Proof.
  intros Hj. destruct s. cbn in *. by rewrite insert_insert_eq, insert_id.
Qed.

Lemma start_task_post used s0 s now j :
  post used None s0 s -> s.(sd_registry) = s0.(sd_registry) ->
  s.(sd_registry) !! job_id j = Some j -> j.(job_status) = Pending ->
  (job_id j ∉ ids (q_view s.(sd_queue) ++ s.(sd_timers))) -> 0 < s.(sd_permits) ->
  wp (start_task now (job_start now j)) (fun _ => post used None s0)
    (s <| sd_registry := <[job_id j := job_start now j]> s.(sd_registry) |>).
Proof.
  intros Hq Hreg Hj Hs Hnot Hp. pose proof (ci_sound _ _ _ _ _ _ _ _ _ (proj1 Hq) _ _ Hj) as Hso.
  cbn beta in Hso. pose proof Hj as Hj0. rewrite Hreg in Hj0.
  unfold start_task. wps. apply (post_store used None s0 _ x) in Hq. destruct r as [u|e]; wps.
  - refine (post_run used s0 _ (job_id j) j (job_start now j) Hq Hj0 Hj Hs Hnot Hp _ _ _ _); try done.
    + by apply sound_start.
    + split; [done|]. cbn. by rewrite Hs.
  - rewrite unstart by done. rewrite bool_decide_eq_true_2 by (eexists; apply lookup_insert_eq). wps.
    rewrite restore_entry by done.
    change (sd_queue (s <| sd_registry := <[job_id j := job_start now j]> (sd_registry s) |>
      <| sd_store := x |>)) with (sd_queue s).
    destruct (q_requeue j (sd_queue s)) as [q'|e'] eqn:Er; [|exact Hq]. wps.
    apply (wp_abort_all used s0); [|done|intros s' Hp'; by wps].
    exact (post_enqueue used s0 _ (job_id j) j q' Hq Hj Hs Hnot Er).
Qed.

Lemma start_next_post used s now :
  sched_inv used s -> wp (start_next now) (fun _ => post used None s) s.
Proof.
  intros Hi. unfold start_next. wps.
  destruct (sd_shutdown s || (sd_permits s <=? 0)) eqn:Eg; [wps; by apply post_refl|].
  apply orb_false_iff in Eg as [_ Hpos%Z.leb_gt].
  pose proof (next_job_take now (sd_queue s)) as Ht.
  destruct (take_first is_pending (q_view (sd_queue s))) as [[j rest]|] eqn:Et;
    [|rewrite Ht; wps; by apply post_refl].
  destruct Ht as (q & -> & Hv & Hwf & Hmax & _).
  apply take_first_spec in Et as (l1 & l2 & Hv1 & -> & Hpe & _).
  destruct (ci_queue _ _ _ _ _ _ _ _ _ Hi) as [Hw Hlen].
  assert (Hqi : queue_inv q).
  { split; [auto|]. rewrite Hv, Hmax. rewrite Hv1 in Hlen. rewrite length_app in *. cbn in Hlen. lia. }
  destruct (core_dequeue _ _ _ _ _ _ _ _ _ _ _ _ _ Hi Hv1 Hv Hqi) as (Hi' & Hnot & Hj & Hs).
  wps. change (job_id (job_start now j)) with (job_id j). rewrite Hj, Hs, bool_decide_eq_false_2 by done.
  wps. apply (start_task_post used s (s <| sd_queue := q |>) now j); try done. split; [exact Hi'|]. split; [apply evolve_refl|done].
Qed.

(** ** Operator resolution *)

Lemma reconciling_free used (s : JobScheduler S) id j :
  sched_inv used s -> s.(sd_registry) !! id = Some j -> j.(job_status) = ReconciliationRequired ->
  (id ∉ ids (q_view s.(sd_queue))) /\ (id ∉ ids s.(sd_timers)).
Proof.
  intros Hi Hj Hs.
  destruct (not_pending_unqueued _ _ _ _ _ _ _ _ _ _ _ Hi Hj) as [Hq Ht]; [congruence|].
  split; [done|]. apply Ht. by rewrite Hs.
Qed.

Lemma resolve_job_post used s now id actor input :
  sched_inv used s -> wp (resolve_job now id actor input) (fun _ => post used None s) s.
Proof.
  intros Hi. pose proof (post_refl _ _ Hi) as Hsame. unfold resolve_job. wps.
  destruct (JobResolutionRequest_validate input) as [[]|e] eqn:Hval; cbn [map_err]; [|done]. wps.
  destruct (sd_registry s !! id) as [j|] eqn:Hj; cbn [ok_or]; [|done]. wps.
  pose proof (ci_by_id _ _ _ _ _ _ _ _ _ Hi _ _ Hj) as Hid.
  pose proof (ci_sound _ _ _ _ _ _ _ _ _ Hi _ _ Hj) as Hso. cbn beta in Hid, Hso. subst id.
  destruct (bool_decide (job_owner j = Some actor)) eqn:Ho; cbn [negb refuse_if]; [|done].
  apply bool_decide_eq_true in Ho. wps.
  destruct (job_resolution_pending j || negb (has_valid_resolution j)); cbn [refuse_if]; [done|]. wps.
  destruct (job_resolution j) as [receipt|]; [case_match; by wps|]. wps.
  destruct (bool_decide (job_status j = ReconciliationRequired)) eqn:Hs; cbn [negb refuse_if]; [|done].
  apply bool_decide_eq_true in Hs. wps. destruct (some_is (integrity_issue s)); cbn [refuse_if]; [done|].
  destruct (reconciling_free _ _ _ _ Hi Hj Hs) as [Hnq Hnt].
  wps. change (job_id (j <| job_resolution_pending := true |>)) with (job_id j).
  set (s1 := s <| sd_registry := <[job_id j := j <| job_resolution_pending := true |>]> s.(sd_registry) |>).
  assert (Hp : post used None s s1).
  { apply (post_set used s s (job_id j) j j); try done; [by apply sound_latched|cbn; by rewrite Hs|congruence|].
    split; [done|]. cbn. by rewrite Hs. }
  apply (post_store used None s s1 x) in Hp. destruct r as [u|e]; cbn [map_err]; [|done]. wps.
  eapply wp_retain; [|intros s' Hp'; by wps].
  pose proof (sound_resolved now actor input j Hso Ho Hval) as Hres.
  refine (post_set used s (s1 <| sd_store := x |>) (job_id j) j (j <| job_resolution_pending := true |>)
    (resolved_with (receipt_for (job_id j) actor now input) now j) Hp Hj _ Hres _ _ Hnq _ eq_refl _);
    try done; [apply lookup_insert_eq|cbn; by rewrite Hs|].
  split; [done|]. cbn. rewrite Hs. eauto.
Qed.

(** ** Admission *)

Definition config_ok (config : JobConfig) : Prop := 0 <= config.(jc_max_retries) <= u32_max.

Lemma prepare_new id now config q job :
  is_Some (JobId_parse id) -> config_ok config -> q_prepare id now config q = Ok job ->
  job.(job_id) = id /\ job.(job_status) = Pending /\ job_sound job.
Proof.
  unfold q_prepare, config_ok. intros Hid Hc [_ Hjob]%rbind_unit_ok. revert Hjob.
  destruct (jc_timeout config), (jc_correlation_id config); cbn zeta; intros [= <-];
    (split; [done|]); (split; [done|]); constructor; cbn; try done; lia.
Qed.

Lemma post_used used used' s0 (s : JobScheduler S) :
  post used None s0 s -> used ⊆ used' -> post used' None s0 s.
Proof. intros (Hi & He & Hh) Hsub. split; [by eapply core_used|done]. Qed.

Lemma submit_post used s now id config :
  sched_inv used s -> (id ∉ used) -> new_id id -> is_Some (JobId_parse id) -> config_ok config ->
  wp (submit now id config) (fun _ => post ({[ id ]} ∪ used) None s) s.
Proof.
  intros Hi Hfresh Hnew Hid Hc.
  pose proof (post_used _ ({[ id ]} ∪ used) _ _ (post_refl _ _ Hi) ltac:(set_solver)) as Hsame.
  unfold submit. wps. destruct (some_is _ || some_is _); cbn [refuse_if]; [done|]. wps.
  destruct (q_prepare id now config (sd_queue s)) as [job|e] eqn:Hprep; [|done]. wps.
  destruct (prepare_new _ _ _ _ _ Hid Hc Hprep) as (<- & Hs & Hso).
  destruct r as [u|e]; cbn [map_err]; [|by apply post_store]. wps.
  change (sd_queue (s <| sd_store := x |>)) with (sd_queue s).
  destruct (q_requeue job (sd_queue s)) as [q|e] eqn:Hq; [|by apply post_store]. wps.
  destruct (core_new _ _ _ _ _ _ _ _ _ Hi Hfresh Hso ltac:(congruence)) as [Hi' Hnot].
  assert (Hnone : sd_registry s !! job_id job = None).
  { destruct (sd_registry s !! job_id job) eqn:E; [|done]. destruct Hfresh.
    apply (ci_used _ _ _ _ _ _ _ _ _ Hi). left. eauto. }
  split; [|split; [by apply evolve_new; [apply evolve_refl|..]|done]].
  refine (core_enqueue _ _ _ _ _ _ _ _ _ _ (job_id job) job Hi' _ Hs Hnot _ Hq); [|done].
  apply lookup_insert_eq.
Qed.

Lemma submit_authorized_post used s now id config capabilities :
  sched_inv used s -> (id ∉ used) -> new_id id -> is_Some (JobId_parse id) -> config_ok config ->
  wp (submit_authorized now id config capabilities) (fun _ => post ({[ id ]} ∪ used) None s) s.
Proof.
  intros Hi Hfresh Hnew Hid Hc. pose proof (submit_post used s now id config Hi Hfresh Hnew Hid Hc) as Hsub.
  pose proof (post_used _ ({[ id ]} ∪ used) _ _ (post_refl _ _ Hi) ltac:(set_solver)) as Hsame.
  unfold submit_authorized. wps. by destruct (sd_handlers s !! jc_name config) as [h|];
    [destruct (List.find _ _)|].
Qed.

End Steps.

(** ** The transition system *)

Section Transitions.
Context {S : Type} `{JobStore S} `{UuidLib} `{JsonWriter} `{Decimal}.

(** One step: an operation somebody calls, the end of a task, of a backoff, or a turn of
    the run loop.  [used] are the identifiers handed out so far. *)
Inductive sched_step (used : gset JobId) (s : JobScheduler S) : gset JobId -> JobScheduler S -> Prop :=
| step_submit now id config r s' :
    (id ∉ used) -> is_Some (JobId_parse id) -> config_ok config ->
    submit now id config s = (r, s') -> sched_step used s ({[ id ]} ∪ used) s'
| step_submit_authorized now id config caps r s' :
    (id ∉ used) -> is_Some (JobId_parse id) -> config_ok config ->
    submit_authorized now id config caps s = (r, s') -> sched_step used s ({[ id ]} ∪ used) s'
| step_start now r s' : start_next now s = (r, s') -> sched_step used s used s'
| step_task now id outcome r s' : task_done now id outcome s = (r, s') -> sched_step used s used s'
| step_timer now i r s' : timer_done now i s = (r, s') -> sched_step used s used s'
| step_cancel now id r s' : cancel_job now id s = (r, s') -> sched_step used s used s'
| step_resolve now id actor input r s' :
    resolve_job now id actor input s = (r, s') -> sched_step used s used s'
| step_abort now r s' : abort_all_running now s = (r, s') -> sched_step used s used s'
| step_shutdown r s' : request_shutdown s = (r, s') -> sched_step used s used s'
| step_deny reason r s' : deny_admission reason s = (r, s') -> sched_step used s used s'
| step_read id r s' : get_job id s = (r, s') -> sched_step used s used s'.

Definition step_ok (used used' : gset JobId) (s s' : JobScheduler S) : Prop :=
  let _ := since used in post used' None s s'.

Lemma step_post used s used' s' :
  sched_step used s used' s' -> sched_inv used s -> step_ok used used' s s'.
Proof.
  intros Hstep Hi. unfold step_ok. pose (new := since used). fold new.
  pose proof (post_refl used s Hi) as Hsame.
  assert (Hrun : forall {A} (m : Sched A) u r s', m s = (r, s') ->
    wp m (fun _ => post u None s) s -> post u None s s') by (unfold wp; by intros A m u r s2 ->).
  destruct Hstep as [now id config r s' Hf Hid Hc Hm|now id config caps r s' Hf Hid Hc Hm
    |now r s' Hm|now id out r s' Hm|now i r s' Hm|now id r s' Hm|now id actor input r s' Hm
    |now r s' Hm|r s' Hm|reason r s' Hm|id r s' Hm]; apply (Hrun _ _ _ _ _ Hm).
  - by apply submit_post.
  - by apply submit_authorized_post.
  - by apply start_next_post.
  - by apply task_done_post.
  - by apply timer_done_post.
  - by apply cancel_job_post.
  - by apply resolve_job_post.
  - by apply (wp_abort_all used s).
  - unfold request_shutdown. wps. exact Hsame.
  - unfold deny_admission. wps. exact Hsame.
  - unfold get_job. wps. destruct (sd_registry s !! id); wps; [done|]. by apply post_store.
Qed.

Lemma step_used used s used' s' : sched_step used s used' s' -> used ⊆ used'.
Proof. intros Hstep. destruct Hstep; set_solver. Qed.

Inductive sched_steps (used : gset JobId) (s : JobScheduler S) : gset JobId -> JobScheduler S -> Prop :=
| steps_refl : sched_steps used s used s
| steps_next used1 s1 used2 s2 : sched_steps used s used1 s1 -> sched_step used1 s1 used2 s2 ->
    sched_steps used s used2 s2.

(** What a sequence of steps keeps, one step at a time. *)
Lemma steps_inv used s used' s' :
  sched_steps used s used' s' -> sched_inv used s ->
  sched_inv used' s' /\ s'.(sd_handlers) = s.(sd_handlers) /\ s'.(sd_config) = s.(sd_config)
  /\ used ⊆ used'.
Proof.
  induction 1 as [|u1 s1 u2 s2 _ IH Hstep]; intros Hi; [done|]. destruct (IH Hi) as (Hi1 & Hh & Hc & Hu).
  destruct (step_post _ _ _ _ Hstep Hi1) as (Hi2 & _ & Hh2 & Hc2).
  split_and!; [exact Hi2|congruence|congruence|]. pose proof (step_used _ _ _ _ Hstep). set_solver.
Qed.

(** Induction along a run for a property of one registry entry. *)
Lemma steps_entry (P : option Job -> Prop) id used s used' s' :
  sched_steps used s used' s' -> sched_inv used s -> id ∈ used ->
  (forall u, id ∈ u -> forall o o', (let _ := since u in evolves s.(sd_handlers) o o') ->
     (forall j, o' = Some j -> j.(job_id) = id) -> P o -> P o') ->
  P (s.(sd_registry) !! id) -> P (s'.(sd_registry) !! id).
Proof.
  induction 1 as [|u1 s1 u2 s2 Hrun IH Hstep]; intros Hi Hin Hev HP; [done|].
  destruct (steps_inv _ _ _ _ Hrun Hi) as (Hi1 & Hh & _ & Hu).
  destruct (step_post _ _ _ _ Hstep Hi1) as (Hi2 & He & _).
  apply (Hev u1 ltac:(set_solver) (sd_registry s1 !! id)); [|..|by apply IH].
  - rewrite <-Hh. apply He.
  - intros j Hj. exact (ci_by_id _ _ _ _ _ _ _ _ _ Hi2 _ _ Hj).
Qed.
End Transitions.
