(* ===== verification/SchedulerThms.v ===== *)
(** * What the scheduler guarantees

    Theorems about every run of the transition system of [SchedulerSteps], about single
    operations over a store that keeps the laws of [JobStore], and about restarting. *)

From S2P Require Import Prelude Text SkillTypes Ledger Job JobQueue JobStore Lifecycle Scheduler SchedulerInv SchedulerSteps.

Section Runs.
Context {S : Type} `{JobStore S} `{UuidLib} `{JsonWriter} `{Decimal}.

(** A new scheduler with its handlers registered. *)
Definition boot (config : SchedulerConfig) (handlers : gmap string JobHandler) (store : S)
    : JobScheduler S := with_store config store <| sd_handlers := handlers |>.

Lemma boot_inv config handlers store :
  0 <= config.(sc_max_queue_size) -> sched_inv ∅ (boot config handlers store).
Proof.
  intros Hq. constructor; try done.
  - intros id [[j Hj]|Hin]; [done|]. cbn in Hin. by apply elem_of_nil in Hin.
  - cbn. apply NoDup_nil_2.
  - intros id _ j. cbn. by rewrite !lookup_empty; split; [|intros [? _]].
  - change (sd_permits (boot config handlers store)) with (Z.max config.(sc_max_concurrent_jobs) 1).
    change (sd_tasks (boot config handlers store)) with (∅ : gmap JobId Job).
    change (sd_config (boot config handlers store)) with config. rewrite map_size_empty.
    split_and!; [lia|lia|done].
Qed.

(** C25: at every point of every run, the jobs of the registry are filed under their own
    identifier and have the shape their status demands; every queued job is the pending
    job of the registry under its identifier; and no job is queued twice, or queued while
    it also waits for its backoff. *)
Theorem scheduler_stays_consistent config handlers store used s :
  0 <= config.(sc_max_queue_size) -> sched_steps ∅ (boot config handlers store) used s ->
  map_Forall (fun id j => j.(job_id) = id /\ job_sound j) s.(sd_registry)
  /\ Forall (fun j => s.(sd_registry) !! j.(job_id) = Some j /\ j.(job_status) = Pending)
       (q_view s.(sd_queue))
  /\ NoDup (ids (q_view s.(sd_queue) ++ s.(sd_timers)))
  /\ queue_inv s.(sd_queue).
Proof.
  intros Hq Hrun. destruct (steps_inv _ _ _ _ Hrun (boot_inv _ _ _ Hq)) as (Hi & _).
  destruct Hi as [Hb Hso _ Hqi Hqd Hn _ _ _ _]. split_and!; try done.
  intros id j Hj. split; [exact (Hb _ _ Hj)|exact (Hso _ _ Hj)].
Qed.

(** C28: at every point of every run the tasks are exactly the running jobs of the
    registry, there are never more of them than the configuration allows, and the
    counter of active jobs agrees with them. *)
Theorem concurrency_bounded config handlers store used s :
  0 <= config.(sc_max_queue_size) -> sched_steps ∅ (boot config handlers store) used s ->
  (forall id j, s.(sd_tasks) !! id = Some j <->
     s.(sd_registry) !! id = Some j /\ j.(job_status) = Running)
  /\ Z.of_nat (size s.(sd_tasks)) <= Z.max config.(sc_max_concurrent_jobs) 1
  /\ s.(sd_active_jobs) = Z.of_nat (size s.(sd_tasks))
  /\ s.(sd_permits) = Z.max config.(sc_max_concurrent_jobs) 1 - s.(sd_active_jobs).
Proof.
  intros Hq Hrun. destruct (steps_inv _ _ _ _ Hrun (boot_inv _ _ _ Hq)) as (Hi & _ & Hc & _).
  destruct Hi as [_ _ _ _ _ _ _ Hta _ (Hp1 & Hp2 & Hp3)]. rewrite Hc in Hp1.
  change (sd_config (boot config handlers store)) with config in Hp1.
  split_and!; [by intros id; apply Hta|lia|lia|lia].
Qed.

(** Every entry of the registry changed as one step of the lifecycle allows. *)
Definition follows_lifecycle (used : gset JobId) (s s' : JobScheduler S) : Prop :=
  forall id, @evolves (since used) s.(sd_handlers) (s.(sd_registry) !! id) (s'.(sd_registry) !! id).

(** In one step every entry of the registry stays, moves along the lifecycle, is
    dropped once terminal, or appears as a new pending job; a job goes back to pending
    only if its handler may be replayed, and is resolved only for its owner. *)
Theorem step_follows_lifecycle used s used' s' :
  sched_inv used s -> sched_step used s used' s' ->
  sched_inv used' s' /\ follows_lifecycle used s s'.
Proof.
  intros Hi Hstep. destruct (step_post _ _ _ _ Hstep Hi) as (Hi' & He & _). split; [exact Hi'|exact He].
Qed.

Definition settled (o : option Job) : Prop :=
  match o with
  | None => True
  | Some j => j.(job_status) = ReconciliationRequired \/ terminal j.(job_status) = true
  end.

Lemma settled_stays (new : NewIds) h id o o' :
  @evolves new h o o' -> (forall j, o' = Some j -> j.(job_id) = id) -> ~ new_id id ->
  settled o -> settled o'.
Proof.
  intros Hev Hid Hn Hs. destruct Hev as [o|j Hnew Hp|j j' [_ Hm]|j Ht|j j' Hm Ht]; cbn in *; try done.
  - by rewrite (Hid _ eq_refl) in Hnew.
  - destruct (job_status j), (job_status j'); cbn in *; try done; auto; by destruct Hs.
Qed.

(** C3: a job that ended, or whose effect is uncertain, never runs again: whatever
    happens afterwards, its identifier stays settled and has no task and no place in the
    queue. *)
Theorem settled_jobs_never_run_again used s used' s' id :
  sched_inv used s -> sched_steps used s used' s' -> id ∈ used ->
  settled (s.(sd_registry) !! id) ->
  settled (s'.(sd_registry) !! id) /\ s'.(sd_tasks) !! id = None
  /\ (id ∉ ids (q_view s'.(sd_queue))).
Proof.
  intros Hi Hrun Hin Hs.
  assert (Hs' : settled (s'.(sd_registry) !! id)).
  { apply (steps_entry settled id _ _ _ _ Hrun Hi Hin); [|done].
    intros u Hu o o' Hev Hid. apply (settled_stays _ _ id _ _ Hev Hid). intros Hnew. by apply Hnew. }
  destruct (steps_inv _ _ _ _ Hrun Hi) as (Hi' & _). split; [done|]. split.
  - destruct (sd_tasks s' !! id) as [j|] eqn:E; [|done].
    apply (ci_tasks _ _ _ _ _ _ _ _ _ Hi') in E as [Hj Hr]; [|done]. rewrite Hj in Hs'.
    cbn in Hs'. rewrite Hr in Hs'. by destruct Hs'.
  - intros (j & Hj & <-)%ids_elem. pose proof (ci_queued _ _ _ _ _ _ _ _ _ Hi') as Hq.
    rewrite Forall_forall in Hq. destruct (Hq _ Hj) as [Hr Hp]. rewrite Hr in Hs'. cbn in Hs'.
    rewrite Hp in Hs'. by destruct Hs'.
Qed.

Definition running_or_past (j : Job) (o : option Job) : Prop :=
  o = Some j \/ settled o.

Lemma unsafe_stays (new : NewIds) h id j o o' :
  j.(job_status) = Running -> replay_safe h j = false ->
  @evolves new h o o' -> (forall j, o' = Some j -> j.(job_id) = id) -> ~ new_id id ->
  running_or_past j o -> running_or_past j o'.
Proof.
  intros Hr Hu Hev Hid Hn [->|Hs]; [|right; by eapply settled_stays].
  inversion Hev as [|?|j0 j' [_ Hm]|j0 Ht|]; subst; [by left| |by right|by right].
  right. cbn. rewrite Hr in Hm. destruct (job_status j'); cbn; try done; auto.
  destruct Hm as [_ Hm]. congruence.
Qed.

(** C4: a job whose handler is not safe to retry, or is not registered, is dispatched
    at most once: from the moment it runs, it is either still that same run, or settled
    for good. *)
Theorem unsafe_jobs_run_at_most_once used s used' s' id j :
  sched_inv used s -> sched_steps used s used' s' ->
  s.(sd_registry) !! id = Some j -> j.(job_status) = Running ->
  replay_safe s.(sd_handlers) j = false ->
  s'.(sd_registry) !! id = Some j \/ settled (s'.(sd_registry) !! id).
Proof.
  intros Hi Hrun Hj Hr Hu.
  assert (Hin : id ∈ used) by (apply (ci_used _ _ _ _ _ _ _ _ _ Hi); left; eauto).
  apply (steps_entry (running_or_past j) id _ _ _ _ Hrun Hi Hin); [|by left].
  intros u Huse o o' Hev Hid. apply (unsafe_stays _ _ id _ _ _ Hr Hu Hev Hid). intros Hnew.
  by apply Hnew.
Qed.
End Runs.

(** ** Durability *)

Section Durable.
Context {S : Type} `{JobStoreLaws S} `{UuidLib} `{JsonWriter} `{Decimal}.

Lemma update_recorded now j ev (s s' : S) u :
  st_update now j ev s = (Ok u, s') -> st_view s' !! j.(job_id) = Some j.
Proof.
  intros [Hv|[Hok _]]%law_update; [|done]. rewrite Hv. apply lookup_insert_eq.
Qed.

Lemma abort_jobs_tasks now jobs (s : JobScheduler S) :
  wp (abort_jobs now jobs) (fun _ s' => s'.(sd_tasks) = s.(sd_tasks)) s.
Proof.
  revert s. induction jobs as [|j jobs IH]; intros s; cbn [abort_jobs]; [done|].
  case_bool_decide; wps; eapply wp_conseq; [apply IH|done|apply IH|done].
Qed.

Lemma abort_clears_tasks now (s : JobScheduler S) :
  wp (abort_all_running now) (fun _ s' => s'.(sd_tasks) = ∅) s.
Proof. unfold abort_all_running. wps. eapply wp_conseq; [apply abort_jobs_tasks|]. by intros r s' ->. Qed.

(** [j] is the start, at [now], of the job the registry held as pending under [id]. *)
Definition start_of (s : JobScheduler S) (now : Time) (id : JobId) (j : Job) : Prop :=
  exists j0, s.(sd_registry) !! id = Some j0 /\ j0.(job_status) = Pending /\ j = job_start now j0.

(** A handler is started only after the start has been recorded: when a turn of the
    run loop ends with a new task, the store holds that very job as running, and the job
    was pending in the registry before. *)
Theorem start_is_recorded_first used s now r s' id j :
  sched_inv used s -> start_next now s = (r, s') ->
  s'.(sd_tasks) !! id = Some j -> s.(sd_tasks) !! id = None ->
  st_view s'.(sd_store) !! id = Some j /\ start_of s now id j.
Proof.
  intros Hi Hrun Htask Hnone. revert Htask.
  assert (Hw : wp (start_next now) (fun _ s' => s'.(sd_tasks) !! id = Some j ->
    st_view s'.(sd_store) !! id = Some j /\ start_of s now id j) s);
    [|unfold wp in Hw; by rewrite Hrun in Hw].
  clear Hrun r s'. unfold start_next. wps.
  destruct (sd_shutdown s || (sd_permits s <=? 0)); [wps; congruence|].
  pose proof (next_job_take now (sd_queue s)) as Ht.
  destruct (take_first is_pending (q_view (sd_queue s))) as [[j0 rest]|] eqn:Et;
    [|rewrite Ht; wps; congruence].
  destruct Ht as (q & -> & _). apply take_first_spec in Et as (l1 & l2 & Hv & _).
  pose proof (ci_queued _ _ _ _ _ _ _ _ _ Hi) as Hq. rewrite Hv, Forall_app, Forall_cons in Hq.
  destruct Hq as (_ & [Hj0 Hs0] & _). wps.
  change (job_id (job_start now j0)) with (job_id j0).
  rewrite Hj0, Hs0, bool_decide_eq_false_2 by done. unfold start_task. wps.
  destruct r as [u|e]; wps.
  - match goal with Hu : st_update _ _ _ _ = _ |- _ => apply update_recorded in Hu as Hrec end.
    cbn [set_field sd_tasks sd_store]. destruct (decide (id = job_id j0)) as [->|Hne].
    + change (job_id (job_start now j0)) with (job_id j0). rewrite lookup_insert_eq.
      intros [= <-]. split; [exact Hrec|unfold start_of; eauto].
    + change (job_id (job_start now j0)) with (job_id j0). rewrite lookup_insert_ne by congruence.
      congruence.
  - case_bool_decide; wps; cbn [set_field sd_queue];
      (destruct (q_requeue _ _) as [q'|e']; [|cbn [set_field sd_tasks]; congruence]); wps;
      (eapply wp_conseq; [apply abort_clears_tasks|]; intros [[]|?] s' Hs'; wps; rewrite Hs';
       by rewrite lookup_empty).
Qed.

(** The job [submit] makes of a configuration. *)
Definition accepted (id : JobId) (config : JobConfig) (j : Job) : Prop :=
  j.(job_id) = id /\ j.(job_status) = Pending /\ j.(job_retry_count) = 0
  /\ j.(job_name) = config.(jc_name) /\ j.(job_payload) = config.(jc_payload)
  /\ j.(job_priority) = config.(jc_priority) /\ j.(job_owner) = config.(jc_owner)
  /\ j.(job_max_retries) = config.(jc_max_retries) /\ j.(job_timeout_ms) = config.(jc_timeout)
  /\ j.(job_correlation_id) = config.(jc_correlation_id).

Lemma prepare_accepted id now config q j :
  q_prepare id now config q = Ok j -> accepted id config j.
Proof.
  unfold q_prepare. intros [_ Hj]%rbind_unit_ok. revert Hj.
  destruct (jc_timeout config) eqn:Et, (jc_correlation_id config) eqn:Ec; cbn zeta; intros [= <-];
    unfold accepted; cbn; by rewrite Et, Ec.
Qed.

Definition submit_outcome (s : JobScheduler S) (id : JobId) (config : JobConfig)
    (r : result JobId JobError) (s' : JobScheduler S) : Prop :=
  match r with
  | Ok id' => id' = id /\ integrity_issue s = None /\ s.(sd_admission_issue) = None
      /\ exists j, accepted id config j
      /\ st_view s'.(sd_store) !! id = Some j
      /\ s'.(sd_registry) = <[id := j]> s.(sd_registry)
      /\ q_view s'.(sd_queue) = enqueue j (q_view s.(sd_queue))
  | Err _ => s'.(sd_registry) = s.(sd_registry) /\ s'.(sd_queue) = s.(sd_queue)
      /\ s'.(sd_tasks) = s.(sd_tasks)
  end.

(** C35: an accepted job is durable and queued: when [submit] answers with an
    identifier, no integrity issue was known, and the store and the registry hold the
    same new pending job under it, queued behind every job of at least its priority; a
    refusal leaves the registry, the queue and the tasks as they were. *)
Theorem submit_is_durable s now id config r s' :
  queue_wf s.(sd_queue) -> submit now id config s = (r, s') -> submit_outcome s id config r s'.
Proof.
  intros Hw Hrun. apply (wp_run _ _ _ _ _ Hrun). clear Hrun r s'. unfold submit. wps.
  destruct (integrity_issue s) eqn:Ei; [done|]. destruct (sd_admission_issue s) eqn:Ea; [done|].
  cbn [some_is orb refuse_if]. wps.
  destruct (q_prepare id now config (sd_queue s)) as [j|e] eqn:Hp; [|done].
  apply prepare_accepted in Hp as Hacc. destruct (Hacc) as [Hid _]. wps.
  destruct r as [u|e]; cbn [map_err]; [|done]. wps.
  change (sd_queue (s <| sd_store := x |>)) with (sd_queue s).
  destruct (q_requeue j (sd_queue s)) as [q|e] eqn:Hq; [|done]. wps.
  split; [done|]. split; [done|]. split; [done|]. exists j. split_and!; [done| | |].
  - match goal with Hu : st_put _ _ _ = _ |- _ => apply law_put in Hu as [Hv|[Hok _]]; [|done] end.
    cbn [set_field sd_store]. rewrite Hv, Hid. apply lookup_insert_eq.
  - cbn [set_field sd_registry]. by rewrite Hid.
  - cbn [set_field sd_queue]. by apply (requeue_view _ _ _ Hw Hq).
Qed.

End Durable.

(** ** Operator resolution *)

Section Resolution.
Context {S : Type} `{JobStore S} `{UuidLib} `{JsonWriter} `{Decimal}.

Definition same_request_as (input : JobResolutionRequest) (r : JobResolutionReceipt) : bool :=
  bool_decide (r.(jr_decision) = input.(jq_decision))
  && String.eqb r.(jr_evidence_sha256) input.(jq_evidence_sha256).

(** An entry that carries a receipt. *)
Record holds_receipt (actor : PrincipalId) (r : JobResolutionReceipt) (j : Job) : Prop := MkHolds {
  hr_receipt : j.(job_resolution) = Some r;
  hr_valid : has_valid_resolution j = true;
  hr_free : j.(job_resolution_pending) = false;
  hr_owner : j.(job_owner) = Some actor;
  hr_actor : r.(jr_actor) = actor;
}.

Lemma resolved_answers (s : JobScheduler S) id j r actor now input :
  s.(sd_registry) !! id = Some j -> holds_receipt actor r j ->
  resolve_job now id actor input s =
  match JobResolutionRequest_validate input with
  | Err e => (Err (Execution e), s)
  | Ok _ => if same_request_as input r then (Ok r, s)
            else (Err (Execution "job resolution conflicts with its durable receipt"), s)
  end.
Proof.
  intros Hj [Hr Hv Hf Ho Ha]. unfold resolve_job, sbind, slift, sget, sret, sfail.
  destruct (JobResolutionRequest_validate input) as [[]|e]; cbn [map_err]; [|done].
  rewrite Hj. cbn [ok_or]. rewrite (bool_decide_eq_true_2 _ Ho), Hf, Hv, Hr. cbn [negb orb refuse_if].
  rewrite (bool_decide_eq_true_2 _ Ha). cbn [andb]. fold (same_request_as input r).
  by destruct (same_request_as input r).
Qed.

Lemma resolve_ok used (s : JobScheduler S) now id actor input :
  sched_inv used s ->
  wp (resolve_job now id actor input) (fun a s' => forall r, a = Ok r ->
    JobResolutionRequest_validate input = Ok tt
    /\ (exists j, s.(sd_registry) !! id = Some j /\ j.(job_owner) = Some actor)
    /\ r.(jr_job_id) = id /\ r.(jr_actor) = actor /\ same_request_as input r = true
    /\ (forall j, s'.(sd_registry) !! id = Some j -> holds_receipt actor r j)) s.
Proof.
  intros Hi. unfold resolve_job. wps.
  destruct (JobResolutionRequest_validate input) as [[]|e] eqn:Hval; cbn [map_err]; [|done]. wps.
  destruct (sd_registry s !! id) as [j|] eqn:Hj; cbn [ok_or]; [|done]. wps.
  pose proof (ci_by_id _ _ _ _ _ _ _ _ _ Hi _ _ Hj) as Hid.
  pose proof (ci_sound _ _ _ _ _ _ _ _ _ Hi _ _ Hj) as Hso. cbn beta in Hid, Hso. subst id.
  destruct (bool_decide (job_owner j = Some actor)) eqn:Ho; cbn [negb refuse_if]; [|done].
  apply bool_decide_eq_true in Ho. wps.
  destruct (job_resolution_pending j) eqn:Hf; cbn [orb refuse_if]; [done|].
  destruct (has_valid_resolution j) eqn:Hv; cbn [negb refuse_if]; [|done]. wps.
  destruct (job_resolution j) as [receipt|] eqn:Hr.
  - destruct (bool_decide (jr_actor receipt = actor)) eqn:Ha; cbn [andb]; [|by wps].
    fold (same_request_as input receipt).
    destruct (same_request_as input receipt) eqn:Hsame; [|by wps]. wps.
    apply bool_decide_eq_true in Ha. intros r [= <-]. split_and!; eauto.
    + unfold has_valid_resolution in Hv. rewrite Hr, !andb_true_iff, !bool_decide_eq_true in Hv.
      by destruct Hv as [[[[[[_ _] Hji] _] _] _] _].
    + intros j' [= <-]%(eq_trans (eq_sym Hj)). by constructor.
  - wps. destruct (bool_decide (job_status j = ReconciliationRequired)) eqn:Hs; cbn [negb refuse_if];
      [|done]. wps. destruct (some_is (integrity_issue s)); cbn [refuse_if]; [done|]. wps.
    destruct r as [u|e]; cbn [map_err]; [|done].
    unfold retain, sched_prune_terminal, prune_store_terminal. wps.
    intros r' [= <-]. split_and!; eauto.
    + unfold same_request_as. cbn. by rewrite bool_decide_eq_true_2, String.eqb_refl.
    + intros j' Hj'. apply prune_oldest_lookup in Hj' as [Hj' _].
      set (j1 := resolved_with (receipt_for (job_id j) actor now input) now j).
      assert (Hl : forall m : gmap JobId Job, <[job_id j := j1]> m !! job_id j = Some j1)
        by (intros m; apply lookup_insert_eq).
      assert (j1 = j') as <- by (injection (eq_trans (eq_sym (Hl _)) Hj'); done).
      destruct (sound_resolved now actor input j Hso Ho Hval). by constructor.
Qed.

(** The receipt repeats the request. *)
Definition answers (id : JobId) (actor : PrincipalId) (input : JobResolutionRequest)
    (r : JobResolutionReceipt) : Prop :=
  r.(jr_job_id) = id /\ r.(jr_actor) = actor /\ r.(jr_decision) = input.(jq_decision)
  /\ r.(jr_evidence_sha256) = input.(jq_evidence_sha256).

(** A resolution is answered only to the owner of the job, repeats the request, and
    is idempotent: as long as the registry still holds the job, the same request gets
    the same receipt again, whenever it is repeated, and changes nothing; any other
    decision or evidence is refused. *)
Theorem resolve_is_owned_and_idempotent used s now id actor input r s' :
  sched_inv used s -> resolve_job now id actor input s = (Ok r, s') ->
  (exists j, s.(sd_registry) !! id = Some j /\ j.(job_owner) = Some actor)
  /\ answers id actor input r
  /\ (is_Some (s'.(sd_registry) !! id) -> forall now' input',
        (input' = input -> resolve_job now' id actor input' s' = (Ok r, s'))
        /\ (input' <> input -> is_ok (resolve_job now' id actor input' s').1 = false)).
Proof.
  intros Hi Hrun. pose proof (resolve_ok used s now id actor input Hi) as Hw.
  unfold wp in Hw. rewrite Hrun in Hw. cbn [fst snd] in Hw.
  destruct (Hw r eq_refl) as (Hval & Hj & Hid & Ha & Hsame & Hall). pose proof Hsame as Hs2.
  apply andb_true_iff in Hs2 as [Hd%bool_decide_eq_true He%String.eqb_eq].
  split; [done|]. split; [done|]. intros [j' Hj'] now' input'.
  rewrite (resolved_answers s' id j' r actor now' input' Hj' (Hall _ Hj')). split.
  - intros ->. by rewrite Hval, Hsame.
  - intros Hne. destruct (JobResolutionRequest_validate input'); [|done].
    destruct (same_request_as input' r) eqn:E; [|done]. destruct Hne.
    apply andb_true_iff in E as [Hd'%bool_decide_eq_true He'%String.eqb_eq].
    destruct input, input'. cbn in *. congruence.
Qed.
End Resolution.

(** ** Restarting *)

Section Hydration.
Context {S : Type} `{JobStoreLaws S} `{UuidLib} `{JsonWriter} `{Decimal}.

Definition restorable (j : Job) : Prop := job_sound j /\ j.(job_status) <> Running.

(** What is in the state after the [jobs] were put into it. *)
Record hydrated (jobs : list Job) (used : gset JobId) (s s' : JobScheduler S) : Prop := MkHydrated {
  hy_inv : sched_inv (list_to_set (ids jobs) ∪ used) s';
  hy_registry : forall id j, s'.(sd_registry) !! id = Some j <->
    s.(sd_registry) !! id = Some j \/ (j ∈ jobs /\ j.(job_id) = id);
  hy_queue : q_view s'.(sd_queue) ≡ₚ
    filter (fun j => j.(job_status) = Pending) jobs ++ q_view s.(sd_queue);
  hy_rest : s'.(sd_store) = s.(sd_store) /\ s'.(sd_tasks) = s.(sd_tasks)
    /\ s'.(sd_timers) = s.(sd_timers);
}.

(** One job put into the registry and, if it is pending, into the queue. *)
Lemma hydrate_one used (s : JobScheduler S) j q :
  sched_inv used s -> (j.(job_id) ∉ used) -> restorable j ->
  (if is_pending j then q_requeue j s.(sd_queue) = Ok q else q = s.(sd_queue)) ->
  hydrated [j] used s (s <| sd_registry := <[job_id j := j]> s.(sd_registry) |> <| sd_queue := q |>).
Proof.
  intros Hi Hf [Hso Hr] Hq. destruct (core_new _ _ _ _ _ _ _ _ _ Hi Hf Hso Hr) as [Hi' Hnot].
  assert (Hnone : sd_registry s !! job_id j = None).
  { destruct (sd_registry s !! job_id j) eqn:E; [|done]. destruct Hf.
    apply (ci_used _ _ _ _ _ _ _ _ _ Hi). left. eauto. }
  assert (Hreg : forall id x, <[job_id j := j]> (sd_registry s) !! id = Some x <->
    sd_registry s !! id = Some x \/ (x ∈ [j] /\ job_id x = id)).
  { intros id x. rewrite lookup_insert_Some, list_elem_of_singleton.
    destruct (decide (job_id j = id)) as [<-|]; [rewrite Hnone|]; naive_solver. }
  assert (Hu : (list_to_set (ids [j]) ∪ used : gset JobId) = {[ job_id j ]} ∪ used).
  { cbn. by rewrite (union_empty_r_L {[ job_id j ]}). }
  unfold is_pending in Hq. case_bool_decide as Hp.
  - constructor; [rewrite Hu| |cbn|done].
    + refine (core_enqueue _ _ _ _ _ _ _ _ _ _ (job_id j) j Hi' _ Hp Hnot _ Hq); [|done].
      apply lookup_insert_eq.
    + exact Hreg.
    + rewrite decide_True by done. destruct (requeue_view _ _ _ (proj1 (ci_queue _ _ _ _ _ _ _ _ _ Hi)) Hq)
        as [-> _]. apply enqueue_perm.
  - subst q. constructor; [rewrite Hu; exact Hi'|exact Hreg| |done].
    cbn. by rewrite decide_False.
Qed.

Lemma hydrated_trans j jobs used s s1 s2 :
  hydrated [j] used s s1 -> hydrated jobs (list_to_set (ids [j]) ∪ used) s1 s2 ->
  hydrated (j :: jobs) used s s2.
Proof.
  intros [_ Hr1 Hq1 Hx1] [Hi Hr2 Hq2 Hx2]. constructor.
  - replace (list_to_set (ids (j :: jobs)) ∪ used : gset JobId)
      with (list_to_set (ids jobs) ∪ (list_to_set (ids [j]) ∪ used) : gset JobId);
      [exact Hi|]. cbn. set_solver.
  - intros id x. rewrite Hr2, Hr1, !elem_of_cons, elem_of_nil. naive_solver.
  - rewrite Hq2, Hq1, app_assoc. f_equiv. rewrite (filter_cons _ j jobs). cbn.
    case_decide; cbn; [by rewrite <-Permutation_cons_append|by rewrite app_nil_r].
  - destruct Hx1 as (? & ? & ?), Hx2 as (? & ? & ?). split_and!; congruence.
Qed.

Lemma hydrated_refl used s : sched_inv used s -> hydrated [] used s s.
Proof.
  intros Hi. constructor; [|intros id j; by rewrite elem_of_nil; tauto|done|done].
  cbn. by rewrite (union_empty_l_L used).
Qed.

Lemma hydrate_jobs_ok jobs : forall used (s : JobScheduler S),
  sched_inv used s -> NoDup (ids jobs) -> Forall restorable jobs ->
  Forall (fun j => j.(job_id) ∉ used) jobs ->
  wp (hydrate_jobs jobs) (fun r s' => is_ok r = true -> hydrated jobs used s s') s.
Proof.
  induction jobs as [|j jobs IH]; intros used s Hi Hnd Hso Hf; cbn [hydrate_jobs].
  { wps. intros _. by apply hydrated_refl. }
  apply Forall_cons in Hso as [Hj Hso]. apply Forall_cons in Hf as [Hfj Hf].
  change (ids (j :: jobs)) with (job_id j :: ids jobs) in Hnd. apply NoDup_cons in Hnd as [Hnot Hnd].
  assert (Hnext : forall s1, hydrated [j] used s s1 ->
    wp (hydrate_jobs jobs) (fun r s' => is_ok r = true -> hydrated (j :: jobs) used s s') s1).
  { intros s1 Hh. eapply wp_conseq.
    - apply (IH (list_to_set (ids [j]) ∪ used)); [apply Hh|done|done|].
      rewrite Forall_forall in Hf |- *. intros x Hx [Hin|Hin]%elem_of_union; [|by apply (Hf _ Hx)].
      apply elem_of_list_to_set, list_elem_of_singleton in Hin. apply Hnot. rewrite <-Hin.
      by apply elem_of_ids.
    - intros r s2 Hok Hr. by apply (hydrated_trans j jobs used s s1 s2 Hh), Hok. }
  pose proof (fun q => hydrate_one used s j q Hi Hfj Hj) as Hone.
  wps. destruct (is_pending j) eqn:Hp; wps.
  - apply bool_decide_eq_true in Hp. rewrite Hp. cbn [set_field sd_queue].
    destruct (q_requeue j (sd_queue s)) as [q|e] eqn:Hq; [|done]. wps. apply Hnext.
    destruct (Hone q eq_refl) as [Hi1 Hr1 Hq1 Hx1]. constructor; [exact Hi1|exact Hr1|exact Hq1|exact Hx1].
  - apply Hnext. destruct (Hone _ eq_refl) as [Hi1 Hr1 Hq1 Hx1].
    destruct (job_status j); (constructor; [exact Hi1|exact Hr1|exact Hq1|exact Hx1]).
Qed.

Lemma hydrate_jobs_store jobs : forall s : JobScheduler S,
  wp (hydrate_jobs jobs) (fun _ s' => s'.(sd_store) = s.(sd_store)) s.
Proof.
  induction jobs as [|j jobs IH]; intros s; cbn [hydrate_jobs]; [done|]. wps.
  destruct (is_pending j); wps; [destruct (q_requeue _ _); wps|];
    try (eapply wp_conseq; [apply IH|]; intros r s' ->); by destruct (job_status j).
Qed.

(** Hydration reads the store, and then puts what it read into the state. *)
Lemma hydrate_reads config handlers store now s' :
  hydrate now (boot config handlers store) = (Ok tt, s') ->
  exists jobs st, jobs ≡ₚ (map_to_list (st_view st)).*2 /\ s'.(sd_store) = st
    /\ hydrate_jobs jobs (boot config handlers st) = (Ok tt, s').
Proof.
  unfold hydrate, sbind, sget, call, slift.
  change (sd_store (boot config handlers store)) with store.
  change (sd_config (boot config handlers store)) with config.
  destruct (st_prune_terminal now (sc_retained_terminal_jobs config) store) as [[u|e] st1];
    cbn [map_err]; [|done].
  change (sd_store (boot config handlers store <| sd_store := st1 |>)) with st1.
  destruct (st_load_all st1) as [[jobs|e] st2] eqn:El; cbn [map_err]; [|done].
  apply law_load_all in El as [-> Hp].
  change (boot config handlers store <| sd_store := st1 |> <| sd_store := st1 |>)
    with (boot config handlers st1). intros Hrun. exists jobs, st1. split; [done|]. split; [|done].
  pose proof (hydrate_jobs_store jobs (boot config handlers st1)) as Hw. unfold wp in Hw.
  by rewrite Hrun in Hw.
Qed.

(** Hydration restores what the store holds.  When it succeeds, over a store of
    well-formed jobs none of which is running (what opening a journal leaves), the
    registry is exactly the store's content, the queue holds exactly its pending jobs,
    nothing runs, and the scheduler's invariant holds. *)
Theorem hydrate_restores_the_store config handlers store now s' :
  0 <= config.(sc_max_queue_size) ->
  hydrate now (boot config handlers store) = (Ok tt, s') ->
  by_id (st_view s'.(sd_store)) -> map_Forall (fun _ => restorable) (st_view s'.(sd_store)) ->
  s'.(sd_registry) = st_view s'.(sd_store)
  /\ q_view s'.(sd_queue) ≡ₚ filter (fun j => j.(job_status) = Pending)
       (map_to_list (st_view s'.(sd_store))).*2
  /\ s'.(sd_tasks) = ∅ /\ sched_inv (dom (st_view s'.(sd_store))) s'.
Proof.
  intros Hq Hrun Hby Hso. apply hydrate_reads in Hrun as (jobs & st & Hp & Hst & Hrun).
  rewrite Hst in *. set (view := st_view st) in *.
  assert (Hin : forall id j, (j ∈ jobs /\ job_id j = id) <-> view !! id = Some j).
  { intros id j. rewrite Hp, list_elem_of_fmap. split.
    - intros [([id' j'] & -> & Hj%elem_of_map_to_list) <-]. cbn. by rewrite (Hby _ _ Hj).
    - intros Hj. split; [|exact (Hby _ _ Hj)]. exists (id, j). by rewrite elem_of_map_to_list. }
  assert (Hids : ids jobs ≡ₚ (map_to_list view).*1).
  { rewrite <-(ids_of_map _ Hby). unfold ids. by rewrite Hp. }
  pose proof (hydrate_jobs_ok jobs ∅ (boot config handlers st) (boot_inv _ _ _ Hq)) as Hw.
  unfold wp in Hw. rewrite Hrun in Hw. destruct Hw as [Hi Hr Hqv (Hs & Ht & _)].
  - rewrite Hids. apply NoDup_fst_map_to_list.
  - apply Forall_forall. intros j Hj. apply (Hso (job_id j)), Hin. done.
  - apply Forall_forall. intros j Hj. set_solver.
  - done.
  - split_and!.
    + apply map_eq. intros id. apply option_eq. intros j. cbn [snd] in Hr. rewrite Hr, <-Hin.
      split; [intros [Hx|?]; [done|done]|by right].
    + cbn [snd] in Hqv. rewrite Hqv, Hp. cbn. by rewrite app_nil_r.
    + exact Ht.
    + replace (dom view) with (list_to_set (ids jobs) ∪ ∅ : gset JobId); [exact Hi|].
      apply set_eq. intros id. rewrite elem_of_union, elem_of_list_to_set, Hids, elem_of_dom.
      rewrite list_elem_of_fmap. split.
      * intros [([id' j] & -> & Hj%elem_of_map_to_list)|]; [cbn; eauto|set_solver].
      * intros [j Hj]. left. exists (id, j). by rewrite elem_of_map_to_list.
Qed.
End Hydration.

(** ** The output bound *)

Section Output.
Context {S : Type} `{JobStore S} `{UuidLib} `{JsonWriter} `{Decimal}.

Fixpoint total_length (chunks : list string) : Z :=
  match chunks with [] => 0 | c :: rest => slen c + total_length rest end.

Lemma total_length_nonneg chunks : 0 <= total_length chunks.
Proof. induction chunks as [|c chunks IH]; cbn [total_length]; [lia|]. pose proof (slen_nonneg c). lia. Qed.

Lemma write_chunks_total chunks written limit :
  0 <= written <= limit -> limit < u64_max ->
  write_chunks written limit chunks =
  if written + total_length chunks <=? limit then Some (written + total_length chunks) else None.
Proof.
  intros Hw Hl. revert written Hw. induction chunks as [|c chunks IH]; intros written Hw; cbn [write_chunks total_length].
  - replace (written + 0 <=? limit) with true by lia. f_equal. lia.
  - pose proof (total_length_nonneg chunks). unfold counter_write, saturating_add.
    pose proof (slen_nonneg c).
    destruct (Z.ltb_spec limit (Z.min (written + slen c) u64_max)).
    + replace (written + (slen c + total_length chunks) <=? limit) with false by lia. done.
    + rewrite IH by lia. by rewrite Z.add_assoc.
Qed.

(** A handler's end counts as a success exactly when the handler is registered,
    returned a value, and the JSON text of that value, however it is cut into writes, is
    at most [max_output_bytes] long. *)
Theorem success_needs_bounded_output now outcome job (s : JobScheduler S) :
  0 <= s.(sd_config).(sc_max_output_bytes) < u64_max ->
  (execute_job now outcome job s).(jres_success) = true <->
  is_Some (s.(sd_handlers) !! job.(job_name))
  /\ exists v, outcome = Ok v /\ total_length (json_chunks v) <= s.(sd_config).(sc_max_output_bytes).
Proof.
  intros Hl. unfold execute_job, output_within_bound.
  destruct (sd_handlers s !! job_name job) as [h|]; cbn [jres_success].
  - destruct outcome as [v|e]; cbn [jres_success]; [|naive_solver].
    rewrite write_chunks_total by lia. rewrite Z.add_0_l.
    destruct (Z.leb_spec (total_length (json_chunks v)) (sc_max_output_bytes (sd_config s)));
      cbn [jres_success]; [naive_solver|].
    split; [done|]. intros (_ & v' & [= <-] & ?). lia.
  - split; [done|]. by intros ([? ?] & _).
Qed.
End Output.
