(* ===== verification/SchedulerRuns.v ===== *)
(** * Concrete runs of the scheduler

    A scheduler over the in-memory store, with one permit and room for one queued job,
    that shows the theorems of [SchedulerThms] at work, and what restarting does to a
    retry that waits while the queue is full. *)

From S2P Require Import Prelude Text SkillTypes Ledger Job JobQueue JobStore Lifecycle Scheduler SchedulerInv SchedulerSteps SchedulerThms.

#[local] Instance run_uuid : UuidLib := {| uuid_parses := fun s => slen s =? 4 |}.
#[local] Instance run_json : JsonWriter := {| json_chunks := fun v => [v] |}.
#[local] Instance run_decimal : Decimal := {| decimal := fun _ => "0" |}.

Definition run_config : SchedulerConfig :=
  SchedulerConfig_default <| sc_max_concurrent_jobs := 1 |> <| sc_max_queue_size := 1 |>.

(** The built-in handlers and one that must not be replayed. *)
Definition run_handlers : gmap string JobHandler :=
  register_builtin_handlers {[ "deploy" := MkJobHandler [] false ]}.

Definition operator : PrincipalId := 7%N.

Definition run_job (name : string) : JobConfig :=
  MkJobConfig name "null" Normal 3 None None (Some operator).

Definition digest : string := "0123456789abcdef0123456789abcdef0123456789abcdef0123456789abcdef".
Definition attest : JobResolutionRequest := MkJobResolutionRequest EffectObserved digest.

(** A job is submitted, started, cancelled while it runs, and resolved. *)
Definition run_new : JobScheduler MemoryJobStore := boot run_config run_handlers ∅.
Definition run_submitted : JobScheduler MemoryJobStore :=
  (submit 1 "job_0001" (run_job "deploy") run_new).2.
Definition run_started : JobScheduler MemoryJobStore := (start_next 2 run_submitted).2.
Definition run_cancelled : JobScheduler MemoryJobStore := (cancel_job 3 "job_0001" run_started).2.
Definition run_resolved : JobScheduler MemoryJobStore :=
  (resolve_job 4 "job_0001" operator attest run_cancelled).2.

Definition run_ids : gset JobId := {[ "job_0001" ]} ∪ ∅.

Lemma config_fits : 0 <= run_config.(sc_max_queue_size).
Proof. vm_compute. discriminate. Qed.

Lemma step_submitted : sched_step ∅ run_new run_ids run_submitted.
Proof.
  apply (step_submit ∅ run_new 1 "job_0001" (run_job "deploy")
    (submit 1 "job_0001" (run_job "deploy") run_new).1).
  - set_solver.
  - exists "job_0001". reflexivity.
  - split; vm_compute; discriminate.
  - unfold run_submitted. apply surjective_pairing.
Qed.

Lemma step_started : sched_step run_ids run_submitted run_ids run_started.
Proof. apply (step_start _ _ 2 (start_next 2 run_submitted).1), surjective_pairing. Qed.

Lemma step_cancelled : sched_step run_ids run_started run_ids run_cancelled.
Proof.
  apply (step_cancel _ _ 3 "job_0001" (cancel_job 3 "job_0001" run_started).1), surjective_pairing.
Qed.

Lemma run_to_start : sched_steps ∅ run_new run_ids run_started.
Proof. eauto using steps_refl, steps_next, step_submitted, step_started. Qed.

Lemma run_started_inv : sched_inv run_ids run_started.
Proof. apply (steps_inv _ _ _ _ run_to_start), boot_inv, config_fits. Qed.

Lemma run_cancelled_inv : sched_inv run_ids run_cancelled.
Proof. apply (step_post _ _ _ _ step_cancelled run_started_inv). Qed.

Lemma run_submitted_inv : sched_inv run_ids run_submitted.
Proof. apply (step_post _ _ _ _ step_submitted), boot_inv, config_fits. Qed.

Lemma scheduler_stays_consistent_witness :
  map_Forall (fun id j => j.(job_id) = id /\ job_sound j) run_started.(sd_registry).
Proof.
  apply (scheduler_stays_consistent run_config run_handlers (∅ : MemoryJobStore) run_ids run_started
    config_fits run_to_start).
Defined.

Lemma concurrency_bounded_witness :
  Z.of_nat (size run_started.(sd_tasks)) <= 1 /\ run_started.(sd_active_jobs) = 1.
Proof.
  destruct (concurrency_bounded run_config run_handlers (∅ : MemoryJobStore) run_ids run_started
    config_fits run_to_start) as (_ & Hle & _ & _).
  split; [exact Hle|vm_compute; reflexivity].
Defined.

Lemma step_follows_lifecycle_witness : sched_inv run_ids run_cancelled.
Proof. apply (step_follows_lifecycle _ _ _ _ run_started_inv step_cancelled). Defined.

Definition run_again : JobScheduler MemoryJobStore := (start_next 9 run_cancelled).2.
Definition run_failed : JobScheduler MemoryJobStore :=
  (task_done 3 "job_0001" (Some (Err "boom")) run_started).2.
Definition running_job : Job :=
  default (Job_new "" 0 "" "" Low) (run_started.(sd_registry) !! "job_0001").

Lemma settled_jobs_never_run_again_witness : run_again.(sd_tasks) !! "job_0001" = None.
Proof.
  apply (settled_jobs_never_run_again run_ids run_cancelled run_ids run_again "job_0001"
    run_cancelled_inv).
  - eapply steps_next; [apply steps_refl|].
    apply (step_start _ _ 9 (start_next 9 run_cancelled).1), surjective_pairing.
  - set_solver.
  - vm_compute. left. reflexivity.
Defined.

Lemma unsafe_jobs_run_at_most_once_witness :
  run_failed.(sd_registry) !! "job_0001" = Some running_job
  \/ settled (run_failed.(sd_registry) !! "job_0001").
Proof.
  apply (unsafe_jobs_run_at_most_once run_ids run_started run_ids run_failed "job_0001" running_job
    run_started_inv).
  - eapply steps_next; [apply steps_refl|].
    apply (step_task _ _ 3 "job_0001" (Some (Err "boom"))
      (task_done 3 "job_0001" (Some (Err "boom")) run_started).1), surjective_pairing.
  - vm_compute. reflexivity.
  - vm_compute. reflexivity.
  - vm_compute. reflexivity.
Defined.

Lemma start_is_recorded_first_witness :
  run_started.(sd_store) !! "job_0001" = Some running_job.
Proof.
  destruct (start_is_recorded_first run_ids run_submitted 2 (start_next 2 run_submitted).1 run_started
    "job_0001" running_job run_submitted_inv) as [Hrec _];
    [apply surjective_pairing|vm_compute; reflexivity|vm_compute; reflexivity|exact Hrec].
Defined.

Lemma submit_is_durable_witness :
  submit_outcome run_new "job_0001" (run_job "deploy") (Ok "job_0001") run_submitted.
Proof.
  apply (submit_is_durable run_new 1 "job_0001" (run_job "deploy")); [done|vm_compute; reflexivity].
Defined.

Lemma resolve_is_owned_and_idempotent_witness :
  exists r, resolve_job 9 "job_0001" operator attest run_resolved = (Ok r, run_resolved).
Proof.
  destruct (resolve_job 4 "job_0001" operator attest run_cancelled) as [[r|e] s'] eqn:E;
    [|exfalso; apply (f_equal (fun x => is_ok x.1)) in E; vm_compute in E; discriminate].
  exists r. assert (run_resolved = s') as -> by (unfold run_resolved; by rewrite E).
  destruct (resolve_is_owned_and_idempotent run_ids run_cancelled 4 "job_0001" operator attest r s'
    run_cancelled_inv E) as (_ & _ & Hagain).
  apply Hagain; [|done]. apply (f_equal snd) in E. cbn [snd] in E. rewrite <-E.
  eexists. vm_compute. reflexivity.
Defined.

(** A store that holds one pending job. *)
Definition kept_job : Job := Job_new "job_0001" 1 "echo" "null" Normal.
Definition kept_store : MemoryJobStore := {[ "job_0001" := kept_job ]}.
Definition run_hydrated : JobScheduler MemoryJobStore :=
  (hydrate 5 (boot run_config run_handlers kept_store)).2.

Lemma kept_restorable : restorable kept_job.
Proof. split; [|done]. constructor; done || (exists "job_0001"; reflexivity). Qed.

Lemma hydrate_restores_the_store_witness :
  run_hydrated.(sd_registry) = kept_store /\ q_view run_hydrated.(sd_queue) ≡ₚ [kept_job].
Proof.
  assert (Hst : run_hydrated.(sd_store) = kept_store) by (vm_compute; reflexivity).
  destruct (hydrate_restores_the_store run_config run_handlers kept_store 5 run_hydrated config_fits)
    as (Hr & Hq & _).
  - vm_compute. reflexivity.
  - rewrite Hst. apply map_Forall_singleton. reflexivity.
  - rewrite Hst. apply map_Forall_singleton. exact kept_restorable.
  - rewrite Hst in Hr, Hq. split; [exact Hr|exact Hq].
Defined.

Lemma success_needs_bounded_output_witness :
  (execute_job 3 (Ok "1234") kept_job run_new).(jres_success) = true.
Proof.
  apply (success_needs_bounded_output 3 (Ok "1234") kept_job run_new).
  - split; vm_compute; congruence.
  - split; [eexists; vm_compute; reflexivity|].
    exists "1234". split; [done|]. vm_compute. discriminate.
Defined.

(** ** A restart that cannot succeed *)

(** A job fails and waits for its retry, which frees its place in the queue; a second
    job takes that place. *)
Definition full_scheduler : JobScheduler MemoryJobStore :=
  let s1 := (submit 1 "job_0001" (run_job "echo") run_new).2 in
  let s2 := (start_next 2 s1).2 in
  let s3 := (task_done 3 "job_0001" (Some (Err "boom")) s2).2 in
  (submit 4 "job_0002" (run_job "echo") s3).2.

(** The bound on the queue does not count retries that wait for their backoff, but
    hydration queues them: a scheduler that accepted both of these jobs within its limit
    cannot be hydrated again from its own store under the same configuration. *)
Theorem waiting_retry_blocks_restart :
  (submit 4 "job_0002" (run_job "echo")
     (task_done 3 "job_0001" (Some (Err "boom"))
        (start_next 2 (submit 1 "job_0001" (run_job "echo") run_new).2).2).2).1 = Ok "job_0002"
  /\ (hydrate 9 (boot run_config run_handlers full_scheduler.(sd_store))).1 = Err QueueFull.
Proof. split; vm_compute; reflexivity. Qed.
