(* ===== verification/Interface.v ===== *)
(** * The interface types

    [crates/bobby-browser-client/src/interface.rs] and [auth.rs]: versions, idempotency
    keys, cursors, request contexts, the operations of the interface with the capabilities
    they need, capability sets and interface errors. *)

From S2P Require Import Prelude Text SkillTypes Receipt Job.
From Stdlib Require Import Ascii.

Definition CURRENT_INTERFACE_VERSION : string := "2026-08-19".
Definition CorrelationId : Type := Uuid.
Definition IdempotencyKey : Type := string.
Definition EventCursor : Type := Z.
Definition EventCursor_ZERO : EventCursor := 0.

Inductive InterfaceVersion := CurrentVersion.

Inductive InterfaceValidationError :=
| UnsupportedInterfaceVersion (value : string)
| InvalidIdempotencyKey
| ExpiredDeadline.

Definition InterfaceVersion_try_from (value : string)
    : result InterfaceVersion InterfaceValidationError :=
  if bool_decide (value = CURRENT_INTERFACE_VERSION) then Ok CurrentVersion
  else Err (UnsupportedInterfaceVersion value).

Definition InterfaceVersion_serialize (v : InterfaceVersion) : string := CURRENT_INTERFACE_VERSION.

(** [(0x20..=0x7e).contains(byte)]. *)
Definition printable (c : ascii) : bool :=
  (0x20 <=? Z.of_N (N_of_ascii c)) && (Z.of_N (N_of_ascii c) <=? 0x7e).

Definition IdempotencyKey_try_from (value : string)
    : result IdempotencyKey InterfaceValidationError :=
  if negb ((1 <=? slen value) && (slen value <=? 128)) || negb (str_forallb printable value)
  then Err InvalidIdempotencyKey else Ok value.

Definition IdempotencyKey_serialize (key : IdempotencyKey) : string := key.

(** ** Capabilities *)

Definition Capability_ALL : list Capability :=
  [SessionRead; SessionWrite; PageRead; PageWrite; BrowserMutate; NetworkEgress; FileUpload;
   FileDownload; JavascriptEvaluate; IntentExecute; VisionAssist; ArtifactRead; ContextRead;
   ArtifactCapture; RecoveryRead; RecoveryWrite; JobSubmit; JobRead; JobCancel; AuthorityAdmin;
   BrowserFingerprint; BrowserHumanize].

Definition Capability_as_str (c : Capability) : string :=
  match c with
  | SessionRead => "session:read"
  | SessionWrite => "session:write"
  | PageRead => "page:read"
  | PageWrite => "page:write"
  | BrowserMutate => "browser:mutate"
  | NetworkEgress => "network:egress"
  | FileUpload => "file:upload"
  | FileDownload => "file:download"
  | JavascriptEvaluate => "javascript:evaluate"
  | IntentExecute => "intent:execute"
  | VisionAssist => "vision:assist"
  | ArtifactRead => "artifact:read"
  | ContextRead => "context:read"
  | ArtifactCapture => "artifact:capture"
  | RecoveryRead => "recovery:read"
  | RecoveryWrite => "recovery:write"
  | JobSubmit => "job:submit"
  | JobRead => "job:read"
  | JobCancel => "job:cancel"
  | AuthorityAdmin => "authority:admin"
  | BrowserFingerprint => "browser:fingerprint"
  | BrowserHumanize => "browser:humanize"
  end.

(** The parse table; the error is [UnknownCapability] with the text. *)
Definition Capability_from_str (value : string) : result Capability string :=
  if bool_decide (value = "session:read") then Ok SessionRead
  else if bool_decide (value = "session:write") then Ok SessionWrite
  else if bool_decide (value = "page:read") then Ok PageRead
  else if bool_decide (value = "page:write") then Ok PageWrite
  else if bool_decide (value = "browser:mutate") then Ok BrowserMutate
  else if bool_decide (value = "network:egress") then Ok NetworkEgress
  else if bool_decide (value = "file:upload") then Ok FileUpload
  else if bool_decide (value = "file:download") then Ok FileDownload
  else if bool_decide (value = "javascript:evaluate") then Ok JavascriptEvaluate
  else if bool_decide (value = "intent:execute") then Ok IntentExecute
  else if bool_decide (value = "vision:assist") then Ok VisionAssist
  else if bool_decide (value = "artifact:read") then Ok ArtifactRead
  else if bool_decide (value = "context:read") then Ok ContextRead
  else if bool_decide (value = "artifact:capture") then Ok ArtifactCapture
  else if bool_decide (value = "recovery:read") then Ok RecoveryRead
  else if bool_decide (value = "recovery:write") then Ok RecoveryWrite
  else if bool_decide (value = "job:submit") then Ok JobSubmit
  else if bool_decide (value = "job:read") then Ok JobRead
  else if bool_decide (value = "job:cancel") then Ok JobCancel
  else if bool_decide (value = "authority:admin") then Ok AuthorityAdmin
  else if bool_decide (value = "browser:fingerprint") then Ok BrowserFingerprint
  else if bool_decide (value = "browser:humanize") then Ok BrowserHumanize
  else Err value.

Lemma Capability_from_as_str c : Capability_from_str (Capability_as_str c) = Ok c.
Proof. by destruct c. Qed.

#[export] Instance Capability_countable : Countable Capability.
Proof.
  refine (inj_countable Capability_as_str
            (fun s => match Capability_from_str s with Ok c => Some c | Err _ => None end) _).
  intros c. by rewrite Capability_from_as_str.
Defined.

Definition CapabilitySet : Type := gset Capability.
Definition CapabilitySet_new (l : list Capability) : CapabilitySet := list_to_set l.
Definition CapabilitySet_contains (s : CapabilitySet) (c : Capability) : bool := bool_decide (c ∈ s).

(** Serialization: the wire strings in lexical order; deserialization refuses a repeated
    capability. *)
Definition cap_le (a b : Capability) : Prop :=
  str_leb (Capability_as_str a) (Capability_as_str b) = true.
#[export] Instance cap_le_dec a b : Decision (cap_le a b) :=
  decide (str_leb (Capability_as_str a) (Capability_as_str b) = true).

Definition CapabilitySet_serialize (s : CapabilitySet) : list string :=
  Capability_as_str <$> merge_sort cap_le (elements s).

Inductive CapabilitySetError := UnknownCapability (text : string) | DuplicateCapability.

Fixpoint verify_capabilities (verified : CapabilitySet) (l : list Capability)
    : result CapabilitySet CapabilitySetError :=
  match l with
  | [] => Ok verified
  | c :: l' => if bool_decide (c ∈ verified) then Err DuplicateCapability
               else verify_capabilities ({[c]} ∪ verified) l'
  end.

Fixpoint parse_capabilities (l : list string) : result (list Capability) CapabilitySetError :=
  match l with
  | [] => Ok []
  | s :: l' => let? c := map_err UnknownCapability (Capability_from_str s) in
               let? cs := parse_capabilities l' in Ok (c :: cs)
  end.

Definition CapabilitySet_deserialize (l : list string) : result CapabilitySet CapabilitySetError :=
  let? cs := parse_capabilities l in verify_capabilities ∅ cs.

(** ** Operations *)

Inductive InterfaceOperation :=
| RuntimeInfo | CreateSession | ReadSession | DeleteSession | OpenPage | ReadPage | ClosePage
| SubmitCommand | CreateCheckpoint | ReadCheckpoint | RecoverWorkflow | ReadArtifact
| ReadContext | CaptureArtifact | SubscribeEvents | SubmitJob | ReadJob | CancelJob | ResolveJob
| IssuePrincipal | RevokePrincipal.
#[export] Instance InterfaceOperation_eq_dec : EqDecision InterfaceOperation.
Proof. solve_decision. Defined.

Definition InterfaceOperation_ALL : list InterfaceOperation :=
  [RuntimeInfo; CreateSession; ReadSession; DeleteSession; OpenPage; ReadPage; ClosePage;
   SubmitCommand; CreateCheckpoint; ReadCheckpoint; RecoverWorkflow; ReadArtifact; ReadContext;
   CaptureArtifact; SubscribeEvents; SubmitJob; ReadJob; CancelJob; ResolveJob; IssuePrincipal;
   RevokePrincipal].

Definition InterfaceOperation_as_str (o : InterfaceOperation) : string :=
  match o with
  | RuntimeInfo => "runtimeInfo"
  | CreateSession => "createSession"
  | ReadSession => "readSession"
  | DeleteSession => "deleteSession"
  | OpenPage => "openPage"
  | ReadPage => "readPage"
  | ClosePage => "closePage"
  | SubmitCommand => "submitCommand"
  | CreateCheckpoint => "createCheckpoint"
  | ReadCheckpoint => "readCheckpoint"
  | RecoverWorkflow => "recoverWorkflow"
  | ReadArtifact => "readArtifact"
  | ReadContext => "readContext"
  | CaptureArtifact => "captureArtifact"
  | SubscribeEvents => "subscribeEvents"
  | SubmitJob => "submitJob"
  | ReadJob => "readJob"
  | CancelJob => "cancelJob"
  | ResolveJob => "resolveJob"
  | IssuePrincipal => "issuePrincipal"
  | RevokePrincipal => "revokePrincipal"
  end.

Definition required (o : InterfaceOperation) : list Capability :=
  match o with
  | RuntimeInfo => [SessionRead]
  | CreateSession => [SessionWrite]
  | ReadSession => [SessionRead]
  | DeleteSession => [SessionWrite]
  | OpenPage => [PageWrite]
  | ReadPage => [PageRead]
  | ClosePage => [PageWrite]
  | SubmitCommand => [BrowserMutate]
  | CreateCheckpoint => [RecoveryWrite]
  | ReadCheckpoint => [RecoveryRead]
  | RecoverWorkflow => [RecoveryWrite]
  | ReadArtifact => [ArtifactRead]
  | ReadContext => [ContextRead]
  | CaptureArtifact => [ArtifactCapture]
  | SubscribeEvents => [SessionRead]
  | SubmitJob => [JobSubmit]
  | ReadJob => [JobRead]
  | CancelJob => [JobCancel]
  | ResolveJob => [JobRead; JobCancel; AuthorityAdmin]
  | IssuePrincipal => [AuthorityAdmin]
  | RevokePrincipal => [AuthorityAdmin]
  end.

Definition CapabilitySet_allows (s : CapabilitySet) (o : InterfaceOperation) : bool :=
  forallb (CapabilitySet_contains s) (required o).

(** ** Requests and errors *)

Record RequestContext := MkRequestContext {
  rc_correlation_id : CorrelationId;
  rc_principal_id : PrincipalId;
  rc_capabilities : CapabilitySet;
  rc_deadline : Time;
  rc_idempotency_key : option IdempotencyKey;
}.

Definition validate_at (ctx : RequestContext) (dispatch_time : Time)
    : result unit InterfaceValidationError :=
  refuse_if (ctx.(rc_deadline) <=? dispatch_time) ExpiredDeadline.

Inductive InterfaceErrorCode :=
| IfInvalidRequest | IfUnsupportedInterfaceVersion | IfInvalidIdempotencyKey
| IfIdempotencyConflict | IfDeadlineExceeded | IfAuthenticationFailed | IfTokenExpired
| IfMissingCapability | IfMalformedScope | IfArtifactDenied | IfUnsupportedOperation | IfNotFound
| IfResourceExhausted | IfEngineUnreachable | IfInternal.
#[export] Instance InterfaceErrorCode_eq_dec : EqDecision InterfaceErrorCode.
Proof. solve_decision. Defined.

Record InterfaceError := MkInterfaceError {
  ie_code : InterfaceErrorCode;
  ie_layer : ErrorLayer;
  ie_message : string;
  ie_correlation_id : CorrelationId;
  ie_command_id : option CommandId;
  ie_retryable : bool;
  ie_retry_after_ms : option Z;
  ie_reconciliation_required : bool;
  ie_required_capability : option Capability;
}.

(** ** Facts *)

Lemma Capability_from_str_ok s c : Capability_from_str s = Ok c -> s = Capability_as_str c.
Proof.
  unfold Capability_from_str. intros E.
  repeat (destruct (bool_decide (s = _)) eqn:Hs in E;
          [apply bool_decide_eq_true in Hs; injection E as <-; exact Hs|clear Hs]).
  discriminate E.
Qed.

Lemma parse_capabilities_as_str cs : parse_capabilities (Capability_as_str <$> cs) = Ok cs.
Proof.
  induction cs as [|c cs IH]; [done|]. simpl.
  change (list_fmap _ _ Capability_as_str cs) with (Capability_as_str <$> cs).
  by rewrite Capability_from_as_str, IH.
Qed.

Lemma verify_capabilities_ok v l :
  NoDup l -> (forall c, c ∈ l -> c ∉ v) -> verify_capabilities v l = Ok (list_to_set l ∪ v).
Proof.
  intros Hl. revert v. induction Hl as [|c l Hc Hl IH]; intros v Hv; simpl.
  { f_equal. set_solver. }
  rewrite bool_decide_eq_false_2 by set_solver.
  rewrite IH; [f_equal; set_solver|]. intros d Hd. specialize (Hv d). set_solver.
Qed.

Lemma verify_capabilities_dup v l s :
  verify_capabilities v l = Ok s -> NoDup l /\ s = list_to_set l ∪ v.
Proof.
  revert v. induction l as [|c l IH]; intros v; simpl.
  { intros [= <-]. split; [constructor|set_solver]. }
  case_bool_decide as Hc; [done|]. intros H. pose proof H as H'. apply IH in H as [Hl ->].
  split; [|set_solver]. constructor; [|done]. intros Hin.
  enough (forall v, c ∈ v -> c ∈ l -> is_ok (verify_capabilities v l) = false) as Hx.
  { specialize (Hx ({[c]} ∪ v) ltac:(set_solver) Hin). by rewrite H' in Hx. }
  clear. induction l as [|d l IHl]; intros v Hv Hin; [by apply not_elem_of_nil in Hin|]. simpl.
  case_bool_decide as Hd; [done|].
  apply elem_of_cons in Hin as [->|Hin]; [done|]. apply IHl; set_solver.
Qed.

(** A capability set survives the wire: what is written is read back as the same set, and
    a list is accepted only if it names known capabilities, none of them twice. *)
Theorem capability_set_roundtrip (s : CapabilitySet) (l : list string) :
  CapabilitySet_deserialize (CapabilitySet_serialize s) = Ok s
  /\ (is_ok (CapabilitySet_deserialize l) = true <->
      exists cs, l = Capability_as_str <$> cs /\ NoDup cs).
Proof.
  unfold CapabilitySet_deserialize. split.
  - unfold CapabilitySet_serialize. rewrite parse_capabilities_as_str. simpl.
    rewrite verify_capabilities_ok.
    + f_equal. apply set_eq. intros c. rewrite elem_of_union, elem_of_list_to_set.
      rewrite merge_sort_Permutation, elem_of_elements. set_solver.
    + rewrite merge_sort_Permutation. apply NoDup_elements.
    + intros ? _. apply not_elem_of_empty.
  - rewrite is_ok_true. split.
    + intros (cs & H). apply rbind_ok in H as (ds & Hp & Hv). exists ds.
      apply verify_capabilities_dup in Hv as [Hn _]. split; [|done]. clear Hn cs.
      revert ds Hp. induction l as [|x l IH]; intros ds Hp; simpl in Hp; [by inv_res|].
      apply rbind_ok in Hp as (c & Hc & Hp). apply rbind_ok in Hp as (cs & Hcs & Hp). inv_res.
      apply map_err_ok, Capability_from_str_ok in Hc as ->. by rewrite (IH _ Hcs).
    + intros (cs & -> & Hn). rewrite parse_capabilities_as_str. simpl.
      rewrite verify_capabilities_ok; [eauto|done|]. intros ? _. apply not_elem_of_empty.
Qed.

Lemma CapabilitySet_allows_spec s o :
  CapabilitySet_allows s o = true <-> Forall (fun c => c ∈ s) (required o).
Proof.
  unfold CapabilitySet_allows. rewrite forallb_forall, Forall_forall.
  split; intros H c Hc; [apply (bool_decide_eq_true_1 (c ∈ s)), H; by apply list_elem_of_In
                        |apply bool_decide_eq_true_2, H; by apply list_elem_of_In].
Qed.
