(* ===== verification/Authority.v ===== *)
(** * Who may do what

    [crates/interface-core/src/auth.rs] (bearer tokens and the handles they give),
    [AuthorizationGuard] of [lib.rs] and [session_ownership.rs].

    A handle shares its revocation flag with the record it came from
    ([Arc<AtomicBool>]): the flags live in the store and both hold the flag's index, so
    revoking a record reaches every handle made from it.  SHA-256, base64 and the random
    source are third-party code: a digest is the parameter [Sha2], and a minted bearer is
    an argument ([None] when the random source fails). *)

From S2P Require Import Prelude Text SkillTypes Receipt Job Interface Ledger Json.
From Stdlib Require Import Ascii.

(** ** Bearer tokens *)

Definition FlagId : Type := nat.

Record AuthorityRecord := MkAuthorityRecord {
  ar_token_hash : Digest;
  ar_principal_id : PrincipalId;
  ar_capabilities : CapabilitySet;
  ar_expires_at : Time;
  ar_revoked : FlagId;
}.

Record AuthorityStore := MkAuthorityStore {
  as_records : list AuthorityRecord;
  as_capacity : Z;
  as_flags : list bool;
}.
#[export] Instance eta_AuthorityStore : Eta AuthorityStore := fun s =>
  MkAuthorityStore (as_records s) (as_capacity s) (as_flags s).

Record CapabilityHandle := MkCapabilityHandle {
  ch_principal_id : PrincipalId;
  ch_capabilities : CapabilitySet;
  ch_expires_at : Time;
  ch_revoked : FlagId;
}.

Definition AuthorityStore_with_capacity (capacity : Z) : AuthorityStore :=
  MkAuthorityStore [] capacity [].
Definition AuthorityStore_default : AuthorityStore := AuthorityStore_with_capacity 1024.

(** [revoked.load(Ordering::Acquire)]. *)
Definition flag_set (s : AuthorityStore) (f : FlagId) : bool := default false (s.(as_flags) !! f).

Definition authentication_error (correlation : CorrelationId) : InterfaceError :=
  MkInterfaceError IfAuthenticationFailed LayerInterface "authentication failed" correlation
    None false None false None.

Definition authority_exhausted_error (correlation : CorrelationId) : InterfaceError :=
  MkInterfaceError IfResourceExhausted LayerInterface "authority capacity exhausted" correlation
    None false None false None.

Definition capability_handle (record : AuthorityRecord) : CapabilityHandle :=
  MkCapabilityHandle record.(ar_principal_id) record.(ar_capabilities) record.(ar_expires_at)
    record.(ar_revoked).

Definition record_live (now : Time) (s : AuthorityStore) (r : AuthorityRecord) : bool :=
  (now <? r.(ar_expires_at)) && negb (flag_set s r.(ar_revoked)).

Section Tokens.
Context `{Sha2}.
Variable correlation : CorrelationId.

Definition enroll_hash (now : Time) (token_hash : Digest) (principal_id : PrincipalId)
    (capabilities : list Capability) (expires_at : Time)
    : ST AuthorityStore InterfaceError CapabilityHandle :=
  if expires_at <=? now then sfail (authentication_error correlation)
  else
    smodify (fun s => s <| as_records := filter (fun r => record_live now s r = true)
                                           s.(as_records) |>) ;;
    do s <- sget;
    if s.(as_capacity) <=? Z.of_nat (length s.(as_records))
    then sfail (authority_exhausted_error correlation)
    else
      let record := MkAuthorityRecord token_hash principal_id (CapabilitySet_new capabilities)
                      expires_at (length s.(as_flags)) in
      sput (s <| as_records := s.(as_records) ++ [record] |>
              <| as_flags := s.(as_flags) ++ [false] |>) ;;
      sret (capability_handle record).

Definition bearer_hash (bearer : string) : Digest := sha256 (String.list_ascii_of_string bearer).

(** [issue]: the bearer is returned once, the store keeps its hash. *)
Definition issue (now : Time) (minted : option string) (principal_id : PrincipalId)
    (capabilities : list Capability) (expires_at : Time)
    : ST AuthorityStore InterfaceError string :=
  match minted with
  | None => sfail (authentication_error correlation)
  | Some bearer =>
      do _handle <- enroll_hash now (bearer_hash bearer) principal_id capabilities expires_at;
      sret bearer
  end.

Definition MAX_AUTHENTICATION_INPUT_BYTES : Z := 4096.

(** The loop over the records keeps the first whose hash is equal. *)
Definition match_record (records : list AuthorityRecord) (candidate_hash : Digest)
    : option AuthorityRecord :=
  fold_left (fun matched record =>
    if bool_decide (record.(ar_token_hash) = candidate_hash) && bool_decide (matched = None)
    then Some record else matched) records None.

Definition authenticate (bearer : string) (now : Time) (s : AuthorityStore)
    : result CapabilityHandle InterfaceError :=
  let input_within_bound := slen bearer <=? MAX_AUTHENTICATION_INPUT_BYTES in
  let candidate_hash := if input_within_bound then bearer_hash bearer else sha256 [] in
  match match_record s.(as_records) candidate_hash with
  | None => Err (authentication_error correlation)
  | Some record =>
      if negb input_within_bound || flag_set s record.(ar_revoked)
         || (record.(ar_expires_at) <=? now)
      then Err (authentication_error correlation)
      else Ok (capability_handle record)
  end.

Definition verify (now : Time) (bearer : string) (s : AuthorityStore)
    : result CapabilityHandle InterfaceError := authenticate bearer now s.

Definition revoke (principal : PrincipalId) (s : AuthorityStore) : AuthorityStore :=
  fold_left (fun s r => if bool_decide (r.(ar_principal_id) = principal)
                        then s <| as_flags := <[r.(ar_revoked) := true]> s.(as_flags) |> else s)
    s.(as_records) s.
End Tokens.

(** [CapabilityHandle::context]. *)
Definition handle_context (h : CapabilityHandle) (correlation : CorrelationId) (deadline : Time)
    (key : option IdempotencyKey) : RequestContext :=
  MkRequestContext correlation h.(ch_principal_id) h.(ch_capabilities) deadline key.

Definition handle_allows (h : CapabilityHandle) (c : Capability) : bool :=
  CapabilitySet_contains h.(ch_capabilities) c.

Definition is_invalid_at (s : AuthorityStore) (h : CapabilityHandle) (now : Time) : bool :=
  (h.(ch_expires_at) <=? now) || flag_set s h.(ch_revoked).

Definition is_valid_at (s : AuthorityStore) (h : CapabilityHandle) (now : Time) : bool :=
  negb (is_invalid_at s h now).

(** ** The guard *)

Definition interface_error (ctx : RequestContext) (code : InterfaceErrorCode) (message : string)
    (required_capability : option Capability) : InterfaceError :=
  MkInterfaceError code LayerInterface message ctx.(rc_correlation_id) None false None false
    required_capability.

Section Guard.
Variable s : AuthorityStore.
Variable authority : CapabilityHandle.
Variable now : Time.

Definition guard_validate (ctx : RequestContext) : result unit InterfaceError :=
  refuse_if (negb (is_ok (validate_at ctx now)))
    (interface_error ctx IfDeadlineExceeded "request deadline exceeded" None) ;?
  refuse_if (is_invalid_at s authority now
             || negb (bool_decide (ctx.(rc_principal_id) = authority.(ch_principal_id))))
    (interface_error ctx IfAuthenticationFailed "authentication failed" None).

Definition require_capability (ctx : RequestContext) (capability : Capability)
    : result unit InterfaceError :=
  refuse_if (negb (handle_allows authority capability)
             || negb (CapabilitySet_contains ctx.(rc_capabilities) capability))
    (interface_error ctx IfMissingCapability "required capability is missing" (Some capability)).

Definition authorize (ctx : RequestContext) (operation : InterfaceOperation)
    : result unit InterfaceError :=
  guard_validate ctx ;? check_all (require_capability ctx) (required operation).
End Guard.

(** ** Facts about the store *)

Lemma match_record_spec records hash r :
  match_record records hash = Some r -> r ∈ records /\ r.(ar_token_hash) = hash.
Proof.
  unfold match_record.
  enough (forall acc, fold_left (fun matched record =>
      if bool_decide (ar_token_hash record = hash) && bool_decide (matched = None)
      then Some record else matched) records acc = Some r ->
    acc = Some r \/ r ∈ records /\ ar_token_hash r = hash) as Hx.
  { intros E. by apply Hx in E as [?|?]. }
  induction records as [|r0 records IH]; intros acc E; simpl in E; [by left|].
  apply IH in E as [E|[Hin Hr]]; [|right; split; [by right|done]].
  destruct (bool_decide (ar_token_hash r0 = hash)) eqn:H0; simpl in E; [|by left].
  case_bool_decide; [|by left]. apply bool_decide_eq_true in H0. simplify_eq.
  right. split; [by left|done].
Qed.

Definition set_flag (fs : list bool) (r : AuthorityRecord) (principal : PrincipalId) : list bool :=
  if bool_decide (r.(ar_principal_id) = principal) then <[r.(ar_revoked) := true]> fs else fs.

Lemma revoke_flags principal s :
  revoke principal s
  = s <| as_flags := fold_left (fun fs r => set_flag fs r principal) s.(as_records) s.(as_flags) |>.
Proof.
  unfold revoke. generalize (as_records s). intros l. revert s.
  induction l as [|r l IH]; intros s; simpl; [by destruct s|].
  rewrite IH. replace (set_flag (as_flags s) r principal)
    with (as_flags (if bool_decide (ar_principal_id r = principal)
                    then s <| as_flags := <[ar_revoked r := true]> (as_flags s) |> else s))
    by (unfold set_flag; by case_bool_decide).
  case_bool_decide; by destruct s.
Qed.

Lemma set_flags_mono l principal fs :
  length (fold_left (fun fs r => set_flag fs r principal) l fs) = length fs
  /\ forall f, fs !! f = Some true ->
     fold_left (fun fs r => set_flag fs r principal) l fs !! f = Some true.
Proof.
  revert fs. induction l as [|r l IH]; intros fs; simpl; [done|].
  destruct (IH (set_flag fs r principal)) as [H1 H2]. split.
  - rewrite H1. unfold set_flag. case_bool_decide; [by rewrite length_insert|done].
  - intros f Hf. apply H2. unfold set_flag. case_bool_decide; [|done].
    destruct (decide (f = ar_revoked r)) as [->|]; [|by rewrite list_lookup_insert_ne].
    apply list_lookup_insert_eq. by eapply lookup_lt_Some.
Qed.

Lemma set_flags_hit l principal fs r :
  r ∈ l -> r.(ar_principal_id) = principal -> (r.(ar_revoked) < length fs)%nat ->
  fold_left (fun fs r => set_flag fs r principal) l fs !! r.(ar_revoked) = Some true.
Proof.
  intros Hin Hp. revert fs. induction Hin as [r l|r r0 l Hin IH]; intros fs Hlt; simpl.
  - apply set_flags_mono. unfold set_flag. rewrite bool_decide_eq_true_2 by done.
    by apply list_lookup_insert_eq.
  - apply IH; [done|]. unfold set_flag. case_bool_decide; [by rewrite length_insert|done].
Qed.

Lemma flag_set_true s f : flag_set s f = true <-> s.(as_flags) !! f = Some true.
Proof. unfold flag_set. destruct (_ !! f) as [[]|]; naive_solver. Qed.

(** ** Runs of the authority *)

(** A store with the latest time that a call has read from the clock, and every handle that
    was ever given out. *)
Record AuthorityWorld := MkAuthorityWorld {
  aw_store : AuthorityStore;
  aw_latest : Time;
  aw_handles : list CapabilityHandle;
}.

Section Runs.
Context `{Sha2}.

(** Enrolments, authentications and revocations in any order; the clock may be set back
    between them. *)
Inductive authority_step (w : AuthorityWorld) : AuthorityWorld -> Prop :=
| step_enroll correlation now hash principal caps expires r s' :
    enroll_hash correlation now hash principal caps expires w.(aw_store) = (r, s') ->
    authority_step w (MkAuthorityWorld s' (Z.max w.(aw_latest) now)
      (match r with Ok h => h :: w.(aw_handles) | Err _ => w.(aw_handles) end))
| step_authenticate correlation now bearer :
    authority_step w (MkAuthorityWorld w.(aw_store) (Z.max w.(aw_latest) now)
      (match authenticate correlation bearer now w.(aw_store) with
       | Ok h => h :: w.(aw_handles) | Err _ => w.(aw_handles) end))
| step_revoke principal :
    authority_step w (MkAuthorityWorld (revoke principal w.(aw_store)) w.(aw_latest) w.(aw_handles)).

Definition authority_start (capacity : Z) (now : Time) : AuthorityWorld :=
  MkAuthorityWorld (AuthorityStore_with_capacity capacity) now [].

(** A handle is out of date, revoked, or made from a record the store still holds. *)
Definition handle_tracked (w : AuthorityWorld) (h : CapabilityHandle) : Prop :=
  (h.(ch_revoked) < length w.(aw_store).(as_flags))%nat
  /\ (is_invalid_at w.(aw_store) h w.(aw_latest) = true
      \/ exists r, r ∈ w.(aw_store).(as_records) /\ capability_handle r = h).

Record authority_inv (w : AuthorityWorld) : Prop := MkAuthorityInv {
  ai_handles : Forall (handle_tracked w) w.(aw_handles);
  ai_flags : Forall (fun r => (r.(ar_revoked) < length w.(aw_store).(as_flags))%nat)
               w.(aw_store).(as_records);
  ai_bound : Z.of_nat (length w.(aw_store).(as_records)) <= Z.max 0 w.(aw_store).(as_capacity);
}.

(** What no step takes back: flags stay set. *)
Definition authority_le (w w' : AuthorityWorld) : Prop :=
  w.(aw_latest) <= w'.(aw_latest)
  /\ (length w.(aw_store).(as_flags) <= length w'.(aw_store).(as_flags))%nat
  /\ (forall f, w.(aw_store).(as_flags) !! f = Some true ->
                w'.(aw_store).(as_flags) !! f = Some true)
  /\ forall h, h ∈ w.(aw_handles) -> h ∈ w'.(aw_handles).

#[export] Instance authority_le_preorder : PreOrder authority_le.
Proof.
  split; [intros w; split_and!; auto with lia|].
  intros a b c (? & ? & ? & ?) (? & ? & ? & ?). split_and!; auto with lia.
Qed.

Lemma invalid_mono w w' h :
  authority_le w w' -> is_invalid_at w.(aw_store) h w.(aw_latest) = true ->
  is_invalid_at w'.(aw_store) h w'.(aw_latest) = true.
Proof.
  intros (? & _ & Hf & _). unfold is_invalid_at. rewrite !orb_true_iff, !flag_set_true.
  intros [?|?]; [left; lia|right; auto].
Qed.

Lemma invalid_later now now' s h : now <= now' -> is_invalid_at s h now = true -> is_invalid_at s h now' = true.
Proof. intros Hn. unfold is_invalid_at. rewrite !orb_true_iff. intros [?|?]; [left; lia|by right]. Qed.

Lemma Forall_filter_l {A} (P Q : A -> Prop) `{forall x, Decision (P x)} l :
  Forall Q l -> Forall Q (filter P l).
Proof. rewrite !Forall_forall. intros Hl x [_ Hx]%list_elem_of_filter. auto. Qed.

(** The three shapes of a store change. *)
Lemma enroll_hash_cases correlation now hash principal caps expires s r s' :
  enroll_hash correlation now hash principal caps expires s = (r, s') ->
  let live := filter (fun r => record_live now s r = true) s.(as_records) in
  (is_ok r = false /\ s' = s)
  \/ (is_ok r = false /\ s' = s <| as_records := live |>)
  \/ exists rec, r = Ok (capability_handle rec) /\ rec.(ar_revoked) = length s.(as_flags)
     /\ rec.(ar_principal_id) = principal
     /\ Z.of_nat (length live) < s.(as_capacity)
     /\ s' = s <| as_records := live ++ [rec] |> <| as_flags := s.(as_flags) ++ [false] |>.
Proof.
  unfold enroll_hash. destruct (expires <=? now); [intros [= <- <-]; by left|].
  unfold sbind, smodify, sget, sfail, sput, sret. cbn -[filter Z.of_nat].
  destruct (Z.leb_spec (as_capacity s)
    (Z.of_nat (length (filter (fun r => record_live now s r = true) (as_records s)))));
    intros [= <- <-]; right; [by left|right].
  eexists. split; [reflexivity|]. split; [done|]. split; [done|]. split; [lia|done].
Qed.

Lemma authority_step_le w w' : authority_step w w' -> authority_le w w'.
Proof.
  intros [? now ? ? ? ? r s' E|? now bearer|principal].
  - apply enroll_hash_cases in E as [(Hr & ->)|[(Hr & ->)|(rec & -> & _ & _ & _ & ->)]];
      split_and!; simpl; try done; try (destruct r; [discriminate Hr|]; done); try lia.
    + rewrite length_app. lia.
    + intros f Hf. by apply lookup_app_l_Some.
    + intros h Hh. by right.
  - split_and!; simpl; try done; [lia|]. intros h Hh. destruct (authenticate _ _ _ _); [by right|done].
  - rewrite revoke_flags.
    pose proof (set_flags_mono (as_records (aw_store w)) principal (as_flags (aw_store w))) as [Hl Hf].
    split_and!; simpl; try done. by rewrite Hl.
Qed.

Lemma tracked_mono w w' h :
  authority_le w w' ->
  (forall r, r ∈ w.(aw_store).(as_records) -> r ∈ w'.(aw_store).(as_records)
             \/ is_invalid_at w'.(aw_store) (capability_handle r) w'.(aw_latest) = true) ->
  handle_tracked w h -> handle_tracked w' h.
Proof.
  intros Hle Hr (Hlt & Hh). split; [destruct Hle as (_ & ? & _); lia|].
  destruct Hh as [Hi|(r & Hin & <-)]; [left; by eapply invalid_mono|].
  destruct (Hr r Hin) as [?|?]; eauto.
Qed.

(** A record that the retention drops is expired or revoked. *)
Lemma dropped_invalid now s r :
  r ∈ s.(as_records) ->
  r ∈ filter (fun r => record_live now s r = true) s.(as_records)
  \/ is_invalid_at s (capability_handle r) now = true.
Proof.
  intros Hin. destruct (record_live now s r) eqn:E.
  - left. by apply list_elem_of_filter.
  - right. unfold record_live in E. unfold is_invalid_at. simpl.
    destruct (flag_set s (ar_revoked r)); [by rewrite orb_true_r|]. rewrite orb_false_r.
    rewrite andb_true_r in E. lia.
Qed.

Lemma authority_inv_step w w' : authority_inv w -> authority_step w w' -> authority_inv w'.
Proof.
  intros [Hh Hf Hb] Hs. pose proof (authority_step_le _ _ Hs) as Hle.
  assert (forall w', authority_le w w' ->
    (forall r, r ∈ w.(aw_store).(as_records) -> r ∈ w'.(aw_store).(as_records)
               \/ is_invalid_at w'.(aw_store) (capability_handle r) w'.(aw_latest) = true) ->
    Forall (handle_tracked w') w.(aw_handles)) as Hkeep.
  { intros w1 H1 H2. eapply Forall_impl; [exact Hh|]. intros h. by apply tracked_mono. }
  destruct Hs as [? now ? ? ? ? r s' E|? now bearer|principal].
  - apply enroll_hash_cases in E as [(Hr & ->)|[(Hr & ->)|(rec & -> & Hrev & _ & Hcap & ->)]].
    + destruct r; [discriminate Hr|]. split; simpl; [|done..]. apply Hkeep; [done|]. simpl. auto.
    + destruct r; [discriminate Hr|]. split; simpl.
      * apply Hkeep; [done|]. simpl. intros r0 Hr0.
        destruct (dropped_invalid now (aw_store w) r0 Hr0) as [?|Hi]; [by left|right; apply (invalid_later now); [lia|done]].
      * by apply Forall_filter_l.
      * pose proof (length_filter (fun r => record_live now (aw_store w) r = true)
                      (as_records (aw_store w))). lia.
    + split; simpl.
      * constructor.
        -- split; simpl; [rewrite length_app, Hrev; simpl; lia|]. right. exists rec.
           split; [|done]. apply elem_of_app. right. by left.
        -- apply Hkeep; [done|]. simpl. intros r0 Hr0.
           destruct (dropped_invalid now (aw_store w) r0 Hr0) as [?|Hi];
             [left; by apply elem_of_app; left|right].
           apply (invalid_later now); [lia|].
           eapply (invalid_mono (MkAuthorityWorld (aw_store w) now (aw_handles w)) (MkAuthorityWorld _ now _)); [|exact Hi].
           destruct Hle as (_ & ? & ? & ?). split_and!; simpl; try done.
      * apply Forall_app. split; [|constructor; [rewrite length_app, Hrev; simpl; lia|constructor]].
        apply Forall_filter_l. eapply Forall_impl; [exact Hf|]. intros ? ?. simpl in *.
        rewrite length_app. lia.
      * rewrite length_app. simpl. lia.
  - destruct (authenticate _ _ _ _) as [h|] eqn:E; split; simpl; try done.
    2: { apply Hkeep; [done|]. simpl. auto. }
    constructor; [|apply Hkeep; [done|]; simpl; auto].
    unfold authenticate in E. destruct (match_record _ _) as [r|] eqn:Em; [|done].
    destruct (_ || _); [done|]. injection E as <-. apply match_record_spec in Em as [Hin _].
    split; [|right; by exists r]. simpl. by apply (proj1 (Forall_forall _ _) Hf).
  - rewrite revoke_flags in Hle |- *. split; simpl; [|..|done].
    + apply Hkeep; [done|]. simpl. auto.
    + by rewrite (proj1 (set_flags_mono _ _ _)).
Qed.

Lemma authority_inv_start capacity now : authority_inv (authority_start capacity now).
Proof. split; simpl; [constructor..|lia]. Qed.

Lemma authority_run_inv w w' :
  authority_inv w -> rtc authority_step w w' -> authority_inv w' /\ authority_le w w'.
Proof.
  intros Hw H1. induction H1 as [w|w1 w2 w3 Hs _ IH]; [done|].
  pose proof (authority_step_le _ _ Hs). apply (authority_inv_step _ _ Hw) in Hs.
  destruct (IH Hs) as [? ?]. split; [done|]. by etrans.
Qed.

(** A tracked handle of a revoked principal is invalid right after the revocation. *)
Lemma revoke_invalidates w principal h :
  authority_inv w -> handle_tracked w h -> h.(ch_principal_id) = principal ->
  is_invalid_at (revoke principal w.(aw_store)) h w.(aw_latest) = true.
Proof.
  intros [_ Hf _] (_ & [Hi|(r & Hin & <-)]) Hp.
  - eapply (invalid_mono w (MkAuthorityWorld _ (aw_latest w) (aw_handles w))); [|exact Hi].
    by apply authority_step_le, step_revoke.
  - unfold is_invalid_at. apply orb_true_iff. right. apply flag_set_true. rewrite revoke_flags. simpl.
    apply set_flags_hit; [done|done|]. by apply (proj1 (Forall_forall _ _) Hf).
Qed.

(** Every record of the principal is revoked, so a later one must have been enrolled later. *)
Lemma authenticate_unrevoked correlation bearer now w h :
  authority_inv w -> authenticate correlation bearer now w.(aw_store) = Ok h ->
  exists r, r ∈ w.(aw_store).(as_records) /\ h = capability_handle r
            /\ flag_set w.(aw_store) h.(ch_revoked) = false /\ now < h.(ch_expires_at)
            /\ slen bearer <= MAX_AUTHENTICATION_INPUT_BYTES
            /\ r.(ar_token_hash) = bearer_hash bearer.
Proof.
  intros _. unfold authenticate.
  destruct (match_record _ _) as [r|] eqn:Em; [|done]. apply match_record_spec in Em as [Hin Hh].
  destruct (Z.leb_spec (slen bearer) MAX_AUTHENTICATION_INPUT_BYTES); simpl in *; [|done].
  destruct (flag_set _ _) eqn:Ef; simpl; [done|]. destruct (Z.leb_spec (ar_expires_at r) now); [done|].
  intros [= <-]. by exists r.
Qed.

(** C39: revocation is final, on a clock that may be set back.  Once a principal is revoked,
    no handle it was ever given authorizes anything, whatever enrolments, authentications
    and revocations follow and at whatever time, if the handle had not expired at any time
    that was read before the revocation.  A handle that had (the store may have forgotten
    its record then) authorizes nothing at or after these times.  And a bearer that
    authenticates as that principal again was enrolled after the revocation. *)
Theorem revocation_is_final capacity now0 w w' principal correlation bearer h ctx operation now :
  rtc authority_step (authority_start capacity now0) w ->
  rtc authority_step
    (MkAuthorityWorld (revoke principal w.(aw_store)) w.(aw_latest) w.(aw_handles)) w' ->
  (h ∈ w.(aw_handles) -> h.(ch_principal_id) = principal ->
   w.(aw_latest) < h.(ch_expires_at) \/ w.(aw_latest) <= now ->
   is_ok (authorize w'.(aw_store) h now ctx operation) = false)
  /\ (authenticate correlation bearer now w'.(aw_store) = Ok h ->
      h.(ch_principal_id) = principal ->
      exists r, r ∈ w'.(aw_store).(as_records) /\ h = capability_handle r
                /\ r.(ar_token_hash) = bearer_hash bearer
                /\ r ∉ w.(aw_store).(as_records)).
Proof.
  intros Hw Hw'.
  apply authority_run_inv in Hw as [Iw _]; [|apply authority_inv_start].
  assert (authority_inv (MkAuthorityWorld (revoke principal (aw_store w)) (aw_latest w)
                           (aw_handles w))) as Ir by (by eapply authority_inv_step, step_revoke).
  pose proof (authority_run_inv _ _ Ir Hw') as [Iw' Hle].
  split.
  - intros Hin Hp Hnow.
    assert (handle_tracked w h) as Ht by (by apply (proj1 (Forall_forall _ _) (ai_handles _ Iw))).
    pose proof (revoke_invalidates w principal h Iw Ht Hp) as Hi.
    assert (is_invalid_at (aw_store w') h now = true) as Hi'.
    { destruct Hle as (_ & _ & Hf & _). unfold is_invalid_at in *. rewrite orb_true_iff, flag_set_true in *.
      destruct Hi as [Hi|Hi]; [left; lia|right; by apply Hf]. }
    unfold authorize, guard_validate. rewrite Hi'. simpl. by destruct (negb _).
  - intros Ha Hp. apply authenticate_unrevoked in Ha as (r & Hin & -> & Hf & _ & _ & Hh); [|done].
    exists r. split_and!; try done. intros Hold.
    enough (flag_set (aw_store w') (ch_revoked (capability_handle r)) = true) by congruence.
    apply flag_set_true, Hle. simpl. rewrite revoke_flags. simpl.
    apply set_flags_hit; [done|done|]. by apply (proj1 (Forall_forall _ _) (ai_flags _ Iw)).
Qed.

(** The guard lets an operation through exactly when the request is on time, the handle
    is neither expired nor revoked and belongs to the caller, and every capability the
    operation needs is granted both by the handle and by the request. *)
Theorem authorize_exact s h now ctx operation :
  authorize s h now ctx operation = Ok tt <->
    now < ctx.(rc_deadline) /\ is_valid_at s h now = true
    /\ ctx.(rc_principal_id) = h.(ch_principal_id)
    /\ Forall (fun c => c ∈ h.(ch_capabilities) /\ c ∈ ctx.(rc_capabilities)) (required operation).
Proof.
  unfold authorize, guard_validate, require_capability, is_valid_at, validate_at.
  rewrite !rbind_unit_ok, !refuse_if_ok, check_all_ok.
  rewrite negb_false_iff, is_ok_unit, refuse_if_ok, orb_false_iff, !negb_false_iff, bool_decide_eq_true.
  rewrite negb_true_iff. setoid_rewrite refuse_if_ok. unfold handle_allows, CapabilitySet_contains.
  setoid_rewrite orb_false_iff. setoid_rewrite negb_false_iff. setoid_rewrite bool_decide_eq_true.
  rewrite Z.leb_gt. tauto.
Qed.
End Runs.

(** ** A concrete run *)

Module SampleAuthority.
Import SampleJson.

Definition enrolled (now : Time) (bearer : string) (w : AuthorityWorld) : AuthorityWorld :=
  let '(r, s') := enroll_hash 1%N now (bearer_hash bearer) 7%N [SessionRead] 100 w.(aw_store) in
  MkAuthorityWorld s' (Z.max w.(aw_latest) now) (match r with Ok h => h :: w.(aw_handles) | Err _ => w.(aw_handles) end).

Lemma enrolled_step now bearer w : authority_step w (enrolled now bearer w).
Proof. unfold enrolled. destruct (enroll_hash _ _ _ _ _ _ _) as [r s'] eqn:E. by eapply step_enroll. Qed.

(** The clock is set back from 5 to 2 after the revocation. *)
Definition w1 : AuthorityWorld := enrolled 5 "alpha" (authority_start 4 0).
Definition w2 : AuthorityWorld :=
  enrolled 2 "beta" (MkAuthorityWorld (revoke 7%N w1.(aw_store)) w1.(aw_latest) w1.(aw_handles)).
Definition old_handle : CapabilityHandle :=
  MkCapabilityHandle 7%N (CapabilitySet_new [SessionRead]) 100 0%nat.
Definition new_handle : CapabilityHandle :=
  MkCapabilityHandle 7%N (CapabilitySet_new [SessionRead]) 100 1%nat.
Definition request : RequestContext := handle_context old_handle 9%N 50 None.

Lemma revocation_is_final_witness :
  is_ok (authorize w1.(aw_store) old_handle 3 request ReadSession) = true
  /\ is_ok (authorize w2.(aw_store) old_handle 3 request ReadSession) = false
  /\ exists r, r ∈ w2.(aw_store).(as_records) /\ new_handle = capability_handle r
               /\ r.(ar_token_hash) = bearer_hash "beta" /\ r ∉ w1.(aw_store).(as_records).
Proof.
  pose proof (rtc_once (R := authority_step) _ _ (enrolled_step 5 "alpha" (authority_start 4 0))) as R1.
  pose proof (rtc_once (R := authority_step) _ _
    (enrolled_step 2 "beta" (MkAuthorityWorld (revoke 7%N w1.(aw_store)) w1.(aw_latest) w1.(aw_handles)))) as R2.
  split; [by vm_compute|]. split.
  - refine (proj1 (revocation_is_final 4 0 w1 w2 7%N 1%N "beta" old_handle request ReadSession 3 R1 R2) _ eq_refl _);
      [left|]. left. by vm_compute.
  - refine (proj2 (revocation_is_final 4 0 w1 w2 7%N 1%N "beta" new_handle request ReadSession 3 R1 R2) _ eq_refl). by vm_compute.
Defined.
End SampleAuthority.
