(* ===== verification/SessionOwnership.v ===== *)
(** * Session ownership

    [crates/interface-core/src/session_ownership.rs]: which principal owns which session,
    with reservations that hold a slot while a session is being created.

    The registry, its recorder and every reservation share one locked state; an operation
    is one step.  A lock that is poisoned (a panic while it was held) is part of the
    state, since every operation looks at it first. *)

From S2P Require Import Prelude Text SkillTypes Job.

Record RegistryState := MkRegistryState {
  rs_capacity : Z;
  rs_owners : gmap SessionId PrincipalId;
  rs_reservations : gmap Z PrincipalId;
  rs_next_reservation_id : Z;
  rs_fail_next_finalize : bool;
  rs_poisoned : bool;
}.
#[export] Instance eta_RegistryState : Eta RegistryState := fun s =>
  MkRegistryState (rs_capacity s) (rs_owners s) (rs_reservations s) (rs_next_reservation_id s)
    (rs_fail_next_finalize s) (rs_poisoned s).

Inductive SessionOwnershipRecordError :=
| CapacityExhausted | OwnershipConflict | FinalizeFailed | Poisoned.

(** [SessionOwnershipReservation]: the slot it holds and whether it still does. *)
Record Reservation := MkReservation {
  sor_reservation_id : Z;
  sor_active : bool;
}.

Definition Own (A : Type) : Type := ST RegistryState SessionOwnershipRecordError A.

(** [SessionOwnershipRegistry::bounded]; a capacity of zero panics. *)
Definition bounded (capacity : Z) : option RegistryState :=
  if 0 <? capacity then Some (MkRegistryState capacity ∅ ∅ 1 false false) else None.

Definition owns_session (s : RegistryState) (principal : PrincipalId) (session : SessionId) : bool :=
  if s.(rs_poisoned) then false
  else match s.(rs_owners) !! session with
       | Some owner => bool_decide (owner = principal)
       | None => false
       end.

Definition owns_authenticated_session (s : RegistryState) (principal : PrincipalId)
    (session : SessionId) : bool :=
  if s.(rs_poisoned) then false
  else match s.(rs_owners) !! session with
       | Some owner => bool_decide (owner = principal)
       | None => false
       end.

Definition write_lock : Own RegistryState :=
  fun s => if s.(rs_poisoned) then (Err Poisoned, s) else (Ok s, s).

Definition slots_used (s : RegistryState) : Z :=
  Z.of_nat (size s.(rs_owners)) + Z.of_nat (size s.(rs_reservations)).

Definition reserve (principal : PrincipalId) : Own Reservation :=
  do state <- write_lock;
  if state.(rs_capacity) <=? slots_used state then sfail CapacityExhausted
  else
    let reservation_id := state.(rs_next_reservation_id) in
    do next <- slift (ok_or (checked_add reservation_id 1) CapacityExhausted);
    sput (state <| rs_next_reservation_id := next |>
                <| rs_reservations := <[reservation_id := principal]> state.(rs_reservations) |>) ;;
    sret (MkReservation reservation_id true).

Definition record_authenticated_session (principal : PrincipalId) (session : SessionId) : Own unit :=
  do state <- write_lock;
  match state.(rs_owners) !! session with
  | Some owner => if bool_decide (owner = principal) then sret tt else sfail OwnershipConflict
  | None =>
      if state.(rs_capacity) <=? slots_used state then sfail CapacityExhausted
      else sput (state <| rs_owners := <[session := principal]> state.(rs_owners) |>)
  end.

Definition release_authenticated_session (principal : PrincipalId) (session : SessionId)
    (s : RegistryState) : RegistryState :=
  if s.(rs_poisoned) then s
  else if bool_decide (s.(rs_owners) !! session = Some principal)
       then s <| rs_owners := delete session s.(rs_owners) |> else s.

Definition inject_finalize_failure_once_for_test (s : RegistryState) : RegistryState :=
  if s.(rs_poisoned) then s else s <| rs_fail_next_finalize := true |>.

(** [Drop for SessionOwnershipReservation]. *)
Definition drop_reservation (r : Reservation) (s : RegistryState) : RegistryState :=
  if negb r.(sor_active) || s.(rs_poisoned) then s
  else s <| rs_reservations := delete r.(sor_reservation_id) s.(rs_reservations) |>.

(** [finalize] consumes the reservation: what it leaves active is dropped. *)
Definition finalize (r : Reservation) (session : SessionId) : Own unit :=
  fun s =>
  match write_lock s with
  | (Err e, s) => (Err e, drop_reservation r s)
  | (Ok state, _) =>
      match state.(rs_reservations) !! r.(sor_reservation_id) with
      | None => (Err FinalizeFailed, drop_reservation r state)
      | Some principal =>
          let state := state <| rs_reservations :=
                                  delete r.(sor_reservation_id) state.(rs_reservations) |> in
          if state.(rs_fail_next_finalize)
          then (Err FinalizeFailed, state <| rs_fail_next_finalize := false |>)
          else match state.(rs_owners) !! session with
               | Some owner =>
                   (if bool_decide (owner = principal) then Ok tt else Err OwnershipConflict, state)
               | None => (Ok tt, state <| rs_owners := <[session := principal]> state.(rs_owners) |>)
               end
      end
  end.

(** ** Runs

    The state together with the reservations that are held (a value of Rust is used once). *)

Record OwnWorld := MkOwnWorld {
  ow_state : RegistryState;
  ow_held : list (Z * PrincipalId);
}.

Inductive own_step (w : OwnWorld) : OwnWorld -> Prop :=
| own_reserve principal r s' :
    reserve principal w.(ow_state) = (Ok r, s') ->
    own_step w (MkOwnWorld s' ((r.(sor_reservation_id), principal) :: w.(ow_held)))
| own_reserve_refused principal e s' :
    reserve principal w.(ow_state) = (Err e, s') -> own_step w (MkOwnWorld s' w.(ow_held))
| own_record principal session r s' :
    record_authenticated_session principal session w.(ow_state) = (r, s') ->
    own_step w (MkOwnWorld s' w.(ow_held))
| own_release principal session :
    own_step w (MkOwnWorld (release_authenticated_session principal session w.(ow_state)) w.(ow_held))
| own_finalize id principal held session r s' :
    w.(ow_held) ≡ₚ (id, principal) :: held ->
    finalize (MkReservation id true) session w.(ow_state) = (r, s') ->
    own_step w (MkOwnWorld s' held)
| own_drop id principal held :
    w.(ow_held) ≡ₚ (id, principal) :: held ->
    own_step w (MkOwnWorld (drop_reservation (MkReservation id true) w.(ow_state)) held)
| own_inject :
    own_step w (MkOwnWorld (inject_finalize_failure_once_for_test w.(ow_state)) w.(ow_held)).

(** The reservations of the state are exactly those held, the slots stay within the
    capacity, and identifiers to come are new. *)
Record own_inv (w : OwnWorld) : Prop := MkOwnInv {
  oi_held : w.(ow_state).(rs_poisoned) = false;
  oi_nodup : NoDup w.(ow_held).*1;
  oi_exact : w.(ow_state).(rs_reservations) = list_to_map w.(ow_held);
  oi_bound : slots_used w.(ow_state) <= w.(ow_state).(rs_capacity);
  oi_fresh : forall id, is_Some (w.(ow_state).(rs_reservations) !! id) ->
                        id < w.(ow_state).(rs_next_reservation_id);
}.

Lemma slots_insert_owner s session principal :
  s.(rs_owners) !! session = None ->
  slots_used (s <| rs_owners := <[session := principal]> s.(rs_owners) |>) = slots_used s + 1.
Proof. intros H. unfold slots_used. simpl. rewrite map_size_insert_None by done. lia. Qed.

Lemma slots_delete_owner s session :
  slots_used (s <| rs_owners := delete session s.(rs_owners) |>) <= slots_used s.
Proof.
  unfold slots_used. simpl. destruct (rs_owners s !! session) eqn:E.
  - rewrite map_size_delete_Some by eauto. lia.
  - rewrite delete_id by done. lia.
Qed.

Lemma slots_delete_reservation s id p :
  s.(rs_reservations) !! id = Some p ->
  slots_used (s <| rs_reservations := delete id s.(rs_reservations) |>) = slots_used s - 1.
Proof.
  intros E. unfold slots_used. simpl.
  assert (size (<[id := p]> (delete id (rs_reservations s))) = S (size (delete id (rs_reservations s))))
    as H by (apply map_size_insert_None, lookup_delete_eq).
  rewrite insert_delete_eq, insert_id in H by done. lia.
Qed.

Lemma held_split w id p held :
  own_inv w -> w.(ow_held) ≡ₚ (id, p) :: held ->
  w.(ow_state).(rs_reservations) !! id = Some p /\ NoDup held.*1
  /\ delete id w.(ow_state).(rs_reservations) = list_to_map held.
Proof.
  intros [_ Hn He _ _] Hp.
  assert (NoDup ((id, p) :: held).*1) as Hn' by (by rewrite <-Hp).
  assert (rs_reservations (ow_state w) = list_to_map ((id, p) :: held)) as E.
  { rewrite He. by apply list_to_map_proper. }
  csimpl in *. apply NoDup_cons in Hn' as [Hi Hn']. rewrite E. simpl. split_and!.
  - apply lookup_insert_eq.
  - done.
  - rewrite delete_insert_eq, delete_id; [done|]. by apply not_elem_of_list_to_map.
Qed.

Ltac own_unfold H :=
  unfold reserve, record_authenticated_session, write_lock, sbind, slift, sfail, sput, sret in H.

Lemma finalize_cases w id p held session r s' :
  own_inv w -> w.(ow_held) ≡ₚ (id, p) :: held ->
  finalize (MkReservation id true) session w.(ow_state) = (r, s') ->
  exists owners flag,
    s' = w.(ow_state) <| rs_reservations := list_to_map held |> <| rs_owners := owners |>
                      <| rs_fail_next_finalize := flag |>
    /\ (owners = w.(ow_state).(rs_owners)
        \/ (w.(ow_state).(rs_owners) !! session = None
            /\ owners = <[session := p]> w.(ow_state).(rs_owners) /\ r = Ok tt)).
Proof.
  intros I Hp. destruct (held_split _ _ _ _ I Hp) as (Hl & _ & Hd).
  unfold finalize, write_lock. rewrite (oi_held _ I). simpl. rewrite Hl, Hd.
  destruct (rs_fail_next_finalize (ow_state w)) eqn:Hf.
  - intros [= <- <-]. eexists _, _. split; [|by left]. by destruct (ow_state w).
  - destruct (rs_owners (ow_state w) !! session) eqn:Ho; intros [= <- <-]; eexists _, false.
    + split; [|by left]. destruct (ow_state w); simpl in *. by subst.
    + split; [|right; split_and!; done]. destruct (ow_state w); simpl in *. by subst.
Qed.

Lemma own_inv_step w w' : own_inv w -> own_step w w' -> own_inv w'.
Proof.
  intros I Hs. pose proof I as [Hpo Hn He Hb Hf].
  destruct Hs as [p r s' E|p e s' E|p session r s' E|p session|id p held session r s' Hp E
                 |id p held Hp|].
  - own_unfold E. rewrite Hpo in E. destruct (Z.leb_spec (rs_capacity (ow_state w)) (slots_used (ow_state w)));
      [done|]. unfold checked_add in E. destruct (_ <=? u64_max); simpl in E; [|done].
    injection E as <- <-.
    assert (rs_reservations (ow_state w) !! rs_next_reservation_id (ow_state w) = None) as Hfr.
    { apply eq_None_not_Some. intros Hx. apply Hf in Hx. lia. }
    split; simpl; try done.
    + csimpl. constructor; [|done]. rewrite He in Hfr.
      intros Hin. by apply not_elem_of_list_to_map in Hfr.
    + by rewrite He.
    + unfold slots_used in *. simpl. rewrite map_size_insert_None by done. lia.
    + intros id. destruct (decide (id = rs_next_reservation_id (ow_state w))) as [->|];
        [lia|]. rewrite lookup_insert_ne by done. intros Hx. apply Hf in Hx. lia.
  - own_unfold E. rewrite Hpo in E. destruct (rs_capacity (ow_state w) <=? slots_used (ow_state w));
      [injection E as <- <-; by split|].
    destruct (checked_add _ _); simpl in E; [done|]. injection E as <- <-. by split.
  - own_unfold E. rewrite Hpo in E. destruct (rs_owners (ow_state w) !! session) eqn:Ho.
    { case_bool_decide; injection E as <- <-; by split. }
    destruct (Z.leb_spec (rs_capacity (ow_state w)) (slots_used (ow_state w)));
      injection E as <- <-; [by split|]. split; simpl; try done.
    pose proof (slots_insert_owner (ow_state w) session p Ho) as Hi.
    unfold slots_used in *. simpl in *. lia.
  - unfold release_authenticated_session. rewrite Hpo. case_bool_decide; [|by split].
    split; simpl; try done. pose proof (slots_delete_owner (ow_state w) session).
    unfold slots_used in *. simpl in *. lia.
  - destruct (held_split _ _ _ _ I Hp) as (Hl & Hnd & Hd).
    destruct (finalize_cases _ _ _ _ _ _ _ I Hp E) as (owners & flag & -> & Ho).
    pose proof (slots_delete_reservation _ _ _ Hl) as Hsl. rewrite Hd in Hsl.
    split; simpl; try done.
    + unfold slots_used in *. simpl in *. destruct Ho as [->|(Hnone & -> & _)]; [lia|].
      rewrite map_size_insert_None by done. lia.
    + rewrite <-Hd. intros i Hi. apply Hf. destruct Hi as [q [_ Hq]%lookup_delete_Some]. by exists q.
  - destruct (held_split _ _ _ _ I Hp) as (Hl & Hnd & Hd). unfold drop_reservation. rewrite Hpo. simpl.
    pose proof (slots_delete_reservation _ _ _ Hl) as Hsl. split; simpl; try done;
      [unfold slots_used in *; simpl in *; lia|].
    intros i Hi. apply Hf. destruct Hi as [q [_ Hq]%lookup_delete_Some]. by exists q.
  - unfold inject_finalize_failure_once_for_test. rewrite Hpo. by split.
Qed.

Definition own_start (s : RegistryState) : OwnWorld := MkOwnWorld s [].

Lemma own_inv_start capacity s : bounded capacity = Some s -> own_inv (own_start s).
Proof.
  unfold bounded. destruct (Z.ltb_spec 0 capacity); [|done]. intros [= <-].
  split; simpl; [done|apply NoDup_nil_2|done|unfold slots_used; simpl; rewrite !map_size_empty; lia|].
  intros id Hx. rewrite lookup_empty in Hx. by destruct Hx.
Qed.

Lemma own_run_inv w w' : own_inv w -> rtc own_step w w' -> own_inv w'.
Proof. intros Hw H. induction H as [|w1 w2 w3 Hs _ IH]; [done|]. by apply IH, (own_inv_step w1). Qed.

(** The slot a reservation holds is kept for it: however full the registry has become in
    the meantime, finalizing a held reservation for a new session succeeds and makes its
    principal the owner; and owners together with reservations never exceed the
    capacity. *)
Theorem reserved_slot_is_kept capacity s w id principal held session :
  bounded capacity = Some s -> rtc own_step (own_start s) w ->
  w.(ow_held) ≡ₚ (id, principal) :: held ->
  w.(ow_state).(rs_owners) !! session = None -> w.(ow_state).(rs_fail_next_finalize) = false ->
  exists s', finalize (MkReservation id true) session w.(ow_state) = (Ok tt, s')
             /\ owns_session s' principal session = true
             /\ slots_used w.(ow_state) <= w.(ow_state).(rs_capacity)
             /\ slots_used s' = slots_used w.(ow_state).
Proof.
  intros Hb Hr Hp Ho Hf. pose proof (own_run_inv _ _ (own_inv_start _ _ Hb) Hr) as I.
  destruct (held_split _ _ _ _ I Hp) as (Hl & _ & Hd).
  pose proof (slots_delete_reservation _ _ _ Hl) as Hs.
  pose proof (oi_bound _ I) as Hbound.
  unfold finalize, write_lock, owns_session. rewrite (oi_held _ I). simpl. rewrite Hl, Hf, Ho.
  eexists. split; [reflexivity|]. simpl. rewrite (oi_held _ I), lookup_insert_eq.
  rewrite bool_decide_eq_true_2 by done. split; [done|].
  unfold slots_used in *. simpl in *. rewrite map_size_insert_None by done. lia.
Qed.

(** No operation takes a session from its owner: after any step the owner is the same,
    except that the owner's own release leaves the session without one. *)
Theorem ownership_never_moves w w' session principal :
  own_inv w -> own_step w w' -> w.(ow_state).(rs_owners) !! session = Some principal ->
  w'.(ow_state).(rs_owners) !! session = Some principal
  \/ (w'.(ow_state) = release_authenticated_session principal session w.(ow_state)
      /\ w'.(ow_state).(rs_owners) !! session = None).
Proof.
  intros I Hs Ho. pose proof (oi_held _ I) as Hpo.
  destruct Hs as [p r s' E|p e s' E|p s1 r s' E|p s1|id p held s1 r s' Hp E|id p held Hp|]; simpl.
  - left. own_unfold E. rewrite Hpo in E. destruct (_ <=? _); [done|].
    destruct (checked_add _ _); simpl in E; [|done]. by injection E as _ <-.
  - left. own_unfold E. rewrite Hpo in E. destruct (_ <=? _); [by injection E as _ <-|].
    destruct (checked_add _ _); simpl in E; [done|]. by injection E as _ <-.
  - left. own_unfold E. rewrite Hpo in E. destruct (rs_owners (ow_state w) !! s1) eqn:Ho1.
    { case_bool_decide; by injection E as _ <-. }
    destruct (_ <=? _); injection E as _ <-; [done|]. simpl.
    rewrite lookup_insert_ne by congruence. done.
  - unfold release_authenticated_session. rewrite Hpo. case_bool_decide as Hc; [|by left].
    destruct (decide (s1 = session)) as [->|].
    + right. assert (p = principal) as -> by congruence. rewrite bool_decide_eq_true_2 by done.
      split; [done|]. simpl. apply lookup_delete_eq.
    + left. simpl. by rewrite lookup_delete_ne.
  - left. destruct (finalize_cases _ _ _ _ _ _ _ I Hp E) as (owners & flag & -> & [->|(Hn & -> & _)]);
      simpl; [done|]. rewrite lookup_insert_ne by congruence. done.
  - left. unfold drop_reservation. by destruct (_ || _).
  - left. unfold inject_finalize_failure_once_for_test. by destruct (rs_poisoned _).
Qed.

(** ** A concrete registry: two slots, one owned and one reserved *)

Module SampleOwnership.
Definition s0 : RegistryState := MkRegistryState 2 ∅ ∅ 1 false false.
Definition after {A} (m : Own A) (s : RegistryState) : RegistryState := (m s).2.
Definition w1 : OwnWorld := MkOwnWorld (after (reserve 5%N) s0) [(1, 5%N)].
Definition w2 : OwnWorld :=
  MkOwnWorld (after (record_authenticated_session 6%N 40%N) w1.(ow_state)) w1.(ow_held).

Lemma run : rtc own_step (own_start s0) w2.
Proof.
  apply (rtc_l _ _ w1).
  - apply (own_reserve (own_start s0) 5%N (MkReservation 1 true) w1.(ow_state)). by vm_compute.
  - apply rtc_once, (own_record w1 6%N 40%N (Ok tt) w2.(ow_state)). by vm_compute.
Qed.

Lemma reserved_slot_is_kept_witness :
  slots_used w2.(ow_state) = w2.(ow_state).(rs_capacity)
  /\ exists s', finalize (MkReservation 1 true) 41%N w2.(ow_state) = (Ok tt, s')
                /\ owns_session s' 5%N 41%N = true
                /\ slots_used w2.(ow_state) <= w2.(ow_state).(rs_capacity)
                /\ slots_used s' = slots_used w2.(ow_state).
Proof.
  split; [by vm_compute|].
  refine (reserved_slot_is_kept 2 s0 w2 1 5%N [] 41%N _ run _ _ _); by vm_compute.
Defined.

Lemma ownership_never_moves_witness :
  let w3 := MkOwnWorld (release_authenticated_session 6%N 40%N w2.(ow_state)) w2.(ow_held) in
  w3.(ow_state).(rs_owners) !! 40%N = Some 6%N
  \/ (w3.(ow_state) = release_authenticated_session 6%N 40%N w2.(ow_state)
      /\ w3.(ow_state).(rs_owners) !! 40%N = None).
Proof.
  intros w3. refine (ownership_never_moves w2 w3 40%N 6%N _ _ _).
  - refine (own_run_inv _ _ (own_inv_start 2 s0 _) run). reflexivity.
  - apply own_release.
  - by vm_compute.
Defined.
End SampleOwnership.
