(* ===== verification/ArtifactStore.v ===== *)
(** * The artifact store

    [crates/artifact-store/src/lib.rs]: screenshots, downloads and other captured bytes, each
    in a directory of its own with a manifest.  An artifact is written to a staging
    directory, checked, and published by a rename.

    A session's directory holds directories known by what their names say: an artifact's
    identifier, or an identifier and the staging one's (neither contains a dot).  Any call of
    the file system may fail; the faults to come are part of the state.  A future that is
    dropped behaves as if its next call had failed, since its guards run either way.
    Identifiers made by [Uuid::new_v4] are arguments. *)

From S2P Require Import Prelude Text SkillTypes Ledger Json Commands Job.
From Stdlib Require Import Ascii.

Inductive ArtifactError :=
| ArtNotFound
| ArtTooLarge
| ArtInvalidPng
| ArtInvalidMetadata
| ArtStorage (error : IoError).

Record ArtifactRecord := MkArtifactRecord {
  art_id : string;
  art_page_id : PageId;
  art_media_type : string;
  art_width : Z;
  art_height : Z;
  art_bytes : Z;
  art_sha256 : string;
}.
#[export] Instance eta_ArtifactRecord : Eta ArtifactRecord := fun r =>
  MkArtifactRecord (art_id r) (art_page_id r) (art_media_type r) (art_width r) (art_height r) (art_bytes r) (art_sha256 r).

Record ArtifactManifest := MkArtifactManifest {
  mf_filename : string;
  mf_media_type : string;
  mf_page_id : PageId;
  mf_bytes : Z;
  mf_sha256 : string;
}.

Record ArtifactStore := MkArtifactStore {
  ast_root_parent : bool;
  ast_max_bytes : Z;
  ast_max_dimension : Z;
}.

(** ** The disk *)

Inductive DirName :=
| Published (artifact_id : string)
| Staging (artifact_id staging_id : string)
| OtherDir (n : N).
#[export] Instance DirName_eq_dec : EqDecision DirName.
Proof. solve_decision. Defined.
#[export] Program Instance DirName_countable : Countable DirName :=
  inj_countable'
    (fun x => match x with
              | Published a => inl a
              | Staging a s => inr (inl (a, s))
              | OtherDir n => inr (inr n)
              end)
    (fun x : string + (string * string + N) =>
       match x with
       | inl a => Published a
       | inr (inl (a, s)) => Staging a s
       | inr (inr n) => OtherDir n
       end) _.
Next Obligation. by intros []. Qed.

Abbreviation Files := (gmap string bytes).

Inductive DirEntry :=
| RealDir (files : Files)
| NotDir.

Record Disk := MkDisk {
  dk_sessions : gmap SessionId (gmap DirName DirEntry);
  dk_faults : list Fault;
}.
#[export] Instance eta_Disk : Eta Disk := fun d => MkDisk (dk_sessions d) (dk_faults d).

(** [std::io::ErrorKind::NotFound] and the rest. *)
Inductive DiskError := Missing | DiskFailed (error : IoError).

Definition DiskIO (A : Type) : Type := ST Disk DiskError A.
Definition ArtIO (A : Type) : Type := ST Disk ArtifactError A.

Definition entry (s : SessionId) (n : DirName) (d : Disk) : option DirEntry := d.(dk_sessions) !! s ≫= (fun m => m !! n).

Definition set_entry (s : SessionId) (n : DirName) (e : DirEntry) (d : Disk) : Disk :=
  d <| dk_sessions := <[s := <[n := e]> (default ∅ (d.(dk_sessions) !! s))]> d.(dk_sessions) |>.

Definition del_entry (s : SessionId) (n : DirName) (d : Disk) : Disk :=
  d <| dk_sessions := <[s := delete n (default ∅ (d.(dk_sessions) !! s))]> d.(dk_sessions) |>.

Definition disk_fault {E} : ST Disk E Fault :=
  fun d => match d.(dk_faults) with
           | [] => (Ok IoOk, d)
           | f :: fs => (Ok f, d <| dk_faults := fs |>)
           end.

(** A call that changes nothing. *)
Definition disk_call : DiskIO unit :=
  do f <- disk_fault;
  match f with
  | IoOk => sret tt
  | IoFails m | IoPartial _ m => sfail (DiskFailed (DeviceError m))
  end.

Definition sync_directory : DiskIO unit := disk_call ;; disk_call.

(** [exists] and [is_dir]: an error is no. *)
Definition path_test {E} (f : option DirEntry -> bool) (s : SessionId) (n : DirName) : ST Disk E bool :=
  do x <- disk_fault;
  do d <- sget;
  sret (match x with IoOk => f (entry s n d) | _ => false end).

Definition exists_ {E} : SessionId -> DirName -> ST Disk E bool := path_test (fun e => match e with Some _ => true | None => false end).
Definition is_dir {E} : SessionId -> DirName -> ST Disk E bool :=
  path_test (fun e => match e with Some (RealDir _) => true | _ => false end).

(** [create_dir_all] of the session's directory; [create_dir] in it. *)
Definition create_session_dir (s : SessionId) : DiskIO unit :=
  disk_call ;;
  smodify (fun d => match d.(dk_sessions) !! s with
                    | Some _ => d
                    | None => d <| dk_sessions := <[s := ∅]> d.(dk_sessions) |>
                    end).

Definition create_dir (s : SessionId) (n : DirName) : DiskIO unit :=
  disk_call ;;
  do d <- sget;
  match entry s n d with
  | Some _ => sfail (DiskFailed (DeviceError "file exists"))
  | None => smodify (set_entry s n (RealDir ∅))
  end.

(** [create_new]. *)
Definition create_file (s : SessionId) (n : DirName) (name : string) : DiskIO unit :=
  disk_call ;;
  do d <- sget;
  match entry s n d with
  | Some (RealDir files) =>
      match files !! name with
      | Some _ => sfail (DiskFailed (DeviceError "file exists"))
      | None => smodify (set_entry s n (RealDir (<[name := []]> files)))
      end
  | Some NotDir => sfail (DiskFailed (DeviceError "not a directory"))
  | None => sfail Missing
  end.

Definition fill_file (s : SessionId) (n : DirName) (name : string) (b : bytes) (d : Disk) : Disk :=
  match entry s n d with
  | Some (RealDir files) => set_entry s n (RealDir (<[name := b]> files)) d
  | _ => d
  end.

Definition write_all (s : SessionId) (n : DirName) (name : string) (b : bytes) : DiskIO unit :=
  do f <- disk_fault;
  match f with
  | IoOk => smodify (fill_file s n name b)
  | IoFails m => sfail (DiskFailed (DeviceError m))
  | IoPartial k m => smodify (fill_file s n name (take k b)) ;; sfail (DiskFailed (DeviceError m))
  end.

Definition read_file (s : SessionId) (n : DirName) (name : string) : DiskIO bytes :=
  disk_call ;;
  do d <- sget;
  match entry s n d with
  | Some (RealDir files) => slift (ok_or (files !! name) Missing)
  | Some NotDir => sfail (DiskFailed (DeviceError "not a directory"))
  | None => sfail Missing
  end.

(** A directory is moved over nothing, or over an empty directory. *)
Definition rename_dir (s : SessionId) (from to : DirName) : DiskIO unit :=
  disk_call ;;
  do d <- sget;
  match entry s from d with
  | None => sfail Missing
  | Some e =>
      match entry s to d with
      | None => smodify (fun d => set_entry s to e (del_entry s from d))
      | Some (RealDir files) =>
          if bool_decide (files = ∅) then smodify (fun d => set_entry s to e (del_entry s from d))
          else sfail (DiskFailed (DeviceError "directory not empty"))
      | Some NotDir => sfail (DiskFailed (DeviceError "not a directory"))
      end
  end.

(** It may stop after some of the files. *)
Definition remove_dir_all (s : SessionId) (n : DirName) : DiskIO unit :=
  do f <- disk_fault;
  do d <- sget;
  match entry s n d with
  | None => sfail Missing
  | Some NotDir => sfail (DiskFailed (DeviceError "not a directory"))
  | Some (RealDir files) =>
      match f with
      | IoOk => smodify (del_entry s n)
      | IoFails m => sfail (DiskFailed (DeviceError m))
      | IoPartial k m =>
          smodify (set_entry s n (RealDir (list_to_map (drop k (map_to_list files))))) ;; sfail (DiskFailed (DeviceError m))
      end
  end.

(** A call whose failure the caller looks at. *)
Definition tries {S E F A} (m : ST S E A) : ST S F (result A E) := fun s =>
  let '(r, s') := m s in (Ok r, s').

Definition with_error {S E F A} (f : E -> F) (m : ST S E A) : ST S F A := fun s =>
  let '(r, s') := m s in (map_err f r, s').

Definition storage_error (e : DiskError) : ArtifactError :=
  match e with
  | Missing => ArtStorage (DeviceError "no such file")
  | DiskFailed e => ArtStorage e
  end.

Definition read_error (e : DiskError) : ArtifactError :=
  match e with Missing => ArtNotFound | e => storage_error e end.

Definition storing {A} (m : DiskIO A) : ArtIO A := with_error storage_error m.
Definition reading {A} (m : DiskIO A) : ArtIO A := with_error read_error m.

(** ** Names and headers *)

(** [hex::encode]. *)
Definition hex_digit (n : Z) : ascii := ascii_of_nat (Z.to_nat (if n <? 10 then n + 48 else n + 87)).
Fixpoint hex_encode (l : list Z) : string :=
  match l with
  | [] => ""
  | b :: l => String (hex_digit (b / 16)) (String (hex_digit (b mod 16)) (hex_encode l))
  end.

Definition valid_extension (extension : string) : bool :=
  negb (slen extension =? 0) && (slen extension <=? 10) && str_forallb is_ascii_alphanumeric extension.

Definition manifest_name (artifact_id : string) : string := artifact_id +:+ ".json".
Definition payload_name (artifact_id extension : string) : string := artifact_id +:+ "." +:+ extension.

(** The extension in a manifest's file name. *)
Definition extension_of (artifact_id filename : string) : option string :=
  match strip_prefix (artifact_id +:+ ".") filename with
  | Some extension => if valid_extension extension then Some extension else None
  | None => None
  end.

(** [safe_extension] of [crates/page-runtime/src/adaptive.rs], for a download's file name. *)
Fixpoint after_last_dot (s : string) : option string :=
  match s with
  | EmptyString => None
  | String c s =>
      match after_last_dot s with
      | Some x => Some x
      | None => if Ascii.eqb c "."%char then Some s else None
      end
  end.

Definition safe_extension (filename : string) : string :=
  match after_last_dot filename with
  | Some ext => if negb (slen ext =? 0) && (slen ext <=? 16) && str_forallb is_ascii_alphanumeric ext then ext else "bin"
  | None => "bin"
  end.

Definition byte_at (b : bytes) (i : nat) : Z := default 0 ((fun c => Z.of_nat (nat_of_ascii c)) <$> b !! i).
Definition u32_be (b : bytes) (i : nat) : Z :=
  ((byte_at b i * 256 + byte_at b (i + 1)) * 256 + byte_at b (i + 2)) * 256 + byte_at b (i + 3).

Definition PNG_SIGNATURE : list Z := [137; 80; 78; 71; 13; 10; 26; 10].

Definition png_dimensions (b : bytes) : result (Z * Z) ArtifactError :=
  if (blen b <? 24) || negb (bool_decide (byte_at b <$> seq 0 8 = PNG_SIGNATURE))
     || negb (bool_decide (byte_at b <$> seq 12 4 = [73; 72; 68; 82])) then Err ArtInvalidPng
  else
    let width := u32_be b 16 in
    let height := u32_be b 20 in
    if (width =? 0) || (height =? 0) then Err ArtInvalidPng else Ok (width, height).

(** JSON of a manifest. *)
Class ManifestCodec := {
  manifest_bytes : ArtifactManifest -> result bytes string;
  manifest_of_bytes : bytes -> option ArtifactManifest;
}.

Section Store.
Context `{Sha2, UuidLib, ManifestCodec}.

Definition sha256_hex (b : bytes) : string := hex_encode (sha256 b).

Definition valid_artifact_id (artifact_id : string) : bool :=
  uuid_parses artifact_id || ((slen artifact_id =? 64) && str_forallb is_ascii_hexdigit artifact_id).

(** ** Checking and publishing *)

Definition read_manifest (s : SessionId) (n : DirName) (artifact_id : string) : ArtIO ArtifactManifest :=
  do b <- reading (read_file s n (manifest_name artifact_id));
  slift (ok_or (manifest_of_bytes b) ArtInvalidMetadata).

Definition validate_directory (s : SessionId) (n : DirName) (artifact_id expected_sha256 : string) (expected_bytes : Z) : ArtIO unit :=
  do manifest <- read_manifest s n artifact_id;
  slift (refuse_if (negb (bool_decide (manifest.(mf_sha256) = expected_sha256)) || negb (manifest.(mf_bytes) =? expected_bytes))
           ArtInvalidMetadata) ;;
  do extension <- slift (ok_or (extension_of artifact_id manifest.(mf_filename)) ArtInvalidMetadata);
  do b <- reading (read_file s n (payload_name artifact_id extension));
  slift (refuse_if (negb (blen b =? expected_bytes) || negb (bool_decide (sha256_hex b = expected_sha256))) ArtInvalidMetadata).

Definition publish_staging (s : SessionId) (staging final_path : DirName) (artifact_id sha : string) (bytes_ : Z) : ArtIO unit :=
  validate_directory s staging artifact_id sha bytes_ ;;
  do r <- tries (rename_dir s staging final_path);
  match r with
  | Ok _ => storing sync_directory
  | Err error =>
      do there <- is_dir s final_path;
      if there : bool then
        validate_directory s final_path artifact_id sha bytes_ ;;
        do x <- tries (remove_dir_all s staging);
        match x with
        | Ok _ => storing sync_directory
        | Err Missing => sret tt
        | Err error => sfail (storage_error error)
        end
      else sfail (storage_error error)
  end.

(** ** Pending artifacts *)

Record PendingArtifact := MkPendingArtifact {
  pa_record : ArtifactRecord;
  pa_session : SessionId;
  pa_path : option DirName;
  pa_final_path : option DirName;
  pa_staging_id : option string;
}.

(** [Drop]. *)
Definition drop_pending (p : PendingArtifact) : ArtIO unit :=
  match p.(pa_path) with
  | Some path => do _ <- tries (remove_dir_all p.(pa_session) path); sret tt
  | None => sret tt
  end.

Definition commit (p : PendingArtifact) : ArtIO ArtifactRecord :=
  match p.(pa_path), p.(pa_final_path) with
  | Some staging, Some final_path =>
      do r <- tries (publish_staging p.(pa_session) staging final_path p.(pa_record).(art_id) p.(pa_record).(art_sha256)
                       p.(pa_record).(art_bytes));
      match r with
      | Ok _ => sret p.(pa_record)
      | Err error => drop_pending p ;; sfail error
      end
  | _, _ => sret p.(pa_record)
  end.

Definition write_synced (s : SessionId) (n : DirName) (name : string) (b : bytes) : ArtIO unit :=
  storing (create_file s n name) ;; storing (write_all s n name b) ;; storing disk_call.

(** What is written into the staging directory. *)
Definition stage (s : SessionId) (staging : DirName) (artifact_id filename : string) (b manifest : bytes) : ArtIO unit :=
  write_synced s staging filename b ;;
  write_synced s staging (manifest_name artifact_id) manifest ;;
  storing sync_directory ;;
  storing sync_directory.

Section Puts.
Variable store : ArtifactStore.

(** The directories above an artifact. *)
Definition prepare_directories (s : SessionId) : ArtIO unit :=
  storing disk_call ;;
  storing sync_directory ;;
  (if store.(ast_root_parent) then storing sync_directory else sret tt) ;;
  storing (create_session_dir s) ;;
  storing sync_directory ;;
  storing sync_directory.

Definition put_pending_addressed (s : SessionId) (page : PageId) (media_type extension : string) (b : bytes) (max_bytes : Z)
    (content_addressed : bool) (new_id staging_id : string) : ArtIO PendingArtifact :=
  slift (refuse_if (Z.min store.(ast_max_bytes) max_bytes <? blen b) ArtTooLarge) ;;
  slift (refuse_if ((slen media_type =? 0) || (255 <? slen media_type) || negb (valid_extension extension)) ArtInvalidMetadata) ;;
  let sha := sha256_hex b in
  let artifact_id := if content_addressed then sha else new_id in
  let filename := payload_name artifact_id extension in
  do manifest <- slift (map_err (fun e => ArtStorage (DataError e))
                          (manifest_bytes (MkArtifactManifest filename media_type page (blen b) sha)));
  prepare_directories s ;;
  let record := MkArtifactRecord artifact_id page media_type 0 0 (blen b) sha in
  do there <- exists_ s (Published artifact_id);
  if there : bool then
    validate_directory s (Published artifact_id) artifact_id sha (blen b) ;;
    sret (MkPendingArtifact record s None None None)
  else
    let staging := Staging artifact_id staging_id in
    storing (create_dir s staging) ;;
    do r <- tries (stage s staging artifact_id filename b manifest);
    match r with
    | Ok _ => sret (MkPendingArtifact record s (Some staging) (Some (Published artifact_id)) (Some staging_id))
    | Err error => do _ <- tries (remove_dir_all s staging); sfail error
    end.

Definition put_pending (s : SessionId) (page : PageId) (media_type extension : string) (b : bytes) (max_bytes : Z)
    (new_id staging_id : string) : ArtIO PendingArtifact :=
  put_pending_addressed s page media_type extension b max_bytes true new_id staging_id.

Definition put (s : SessionId) (page : PageId) (media_type extension : string) (b : bytes) (max_bytes : Z)
    (new_id staging_id : string) : ArtIO ArtifactRecord :=
  do p <- put_pending_addressed s page media_type extension b max_bytes true new_id staging_id;
  commit p.

Definition put_png (s : SessionId) (page : PageId) (b : bytes) (new_id staging_id : string) : ArtIO ArtifactRecord :=
  do dims <- slift (png_dimensions b);
  slift (refuse_if ((store.(ast_max_dimension) <? dims.1) || (store.(ast_max_dimension) <? dims.2)) ArtTooLarge) ;;
  do p <- put_pending_addressed s page "image/png" "png" b store.(ast_max_bytes) false new_id staging_id;
  do record <- commit p;
  sret (record <| art_width := dims.1 |> <| art_height := dims.2 |>).
End Puts.

(** ** Reading and finishing *)

Definition get (s : SessionId) (artifact_id : string) : ArtIO bytes :=
  slift (refuse_if (negb (valid_artifact_id artifact_id)) ArtNotFound) ;;
  do b <- reading (read_file s (Published artifact_id) (manifest_name artifact_id));
  do manifest <- slift (ok_or (manifest_of_bytes b) ArtNotFound);
  do extension <- slift (ok_or (extension_of artifact_id manifest.(mf_filename)) ArtNotFound);
  reading (read_file s (Published artifact_id) (payload_name artifact_id extension)).

Definition finalize_staged (s : SessionId) (artifact_id staging_id expected_sha256 : string) (expected_bytes : Z) : ArtIO unit :=
  slift (refuse_if (negb (valid_artifact_id artifact_id) || negb (uuid_parses staging_id)) ArtNotFound) ;;
  let staging := Staging artifact_id staging_id in
  let final_path := Published artifact_id in
  do there <- is_dir s final_path;
  if there : bool then
    validate_directory s final_path artifact_id expected_sha256 expected_bytes ;;
    do staged <- is_dir s staging;
    if staged : bool then storing (remove_dir_all s staging) ;; storing sync_directory else sret tt
  else
    do manifest <- read_manifest s staging artifact_id;
    slift (refuse_if (negb (bool_decide (manifest.(mf_sha256) = expected_sha256)) || negb (manifest.(mf_bytes) =? expected_bytes))
             ArtInvalidMetadata) ;;
    publish_staging s staging final_path artifact_id manifest.(mf_sha256) manifest.(mf_bytes).

(** ** Opening *)

Definition valid_staging_directory_name (n : DirName) : bool :=
  match n with Staging artifact staging => valid_artifact_id artifact && uuid_parses staging | _ => false end.

Definition sweep_child (s : SessionId) (child : DirName * DirEntry) : DiskIO unit :=
  match child.2 with
  | RealDir _ => if valid_staging_directory_name child.1 then do _ <- tries (remove_dir_all s child.1); sret tt else sret tt
  | NotDir => sret tt
  end.

Fixpoint for_each {A} (f : A -> DiskIO unit) (l : list A) : DiskIO unit :=
  match l with [] => sret tt | x :: l => f x ;; for_each f l end.

(** A session's directory that cannot be read is skipped. *)
Definition sweep_session (session : SessionId * gmap DirName DirEntry) : DiskIO unit :=
  do r <- tries disk_call;
  match (r : result unit DiskError) with
  | Ok _ => for_each (sweep_child session.1) (map_to_list session.2)
  | Err _ => sret tt
  end.

Definition sweep_orphaned_staging : DiskIO unit :=
  do r <- tries disk_call;
  match (r : result unit DiskError) with
  | Ok _ => do d <- sget; for_each sweep_session (map_to_list d.(dk_sessions))
  | Err _ => sret tt
  end.

(** [ArtifactStore::new]. *)
Definition store_new (root_parent : bool) (max_bytes max_dimension : Z) (d : Disk) : ArtifactStore * Disk :=
  (MkArtifactStore root_parent max_bytes max_dimension, (sweep_orphaned_staging d).2).
End Store.
