(* ===== verification/ArtifactStoreThms.v ===== *)
(** * What the artifact store promises

    Whatever calls of the file system fail and wherever the process dies: a published
    artifact is whole and stays as it is, and what was stored is read back.  A staged artifact
    can be published later, unless the store was opened in between; two kinds of artifact can
    not be stored at all. *)

From S2P Require Import Prelude Text SkillTypes Ledger Json Commands Job ArtifactStore.
From Stdlib Require Import Ascii.

(** ** Entries *)

Lemma entry_set s n e d s' n' :
  entry s' n' (set_entry s n e d) = if decide (s = s' /\ n = n') then Some e else entry s' n' d.
Proof.
  unfold entry. cbn. destruct (decide (s = s')) as [<-|Hs].
  - rewrite lookup_insert_eq. cbn. destruct (decide (n = n')) as [<-|Hn].
    + rewrite lookup_insert_eq. by rewrite decide_True.
    + rewrite lookup_insert_ne by done. rewrite decide_False by naive_solver. by destruct (d.(dk_sessions) !! s).
  - rewrite lookup_insert_ne by done. by rewrite decide_False by naive_solver.
Qed.

Lemma entry_del s n d s' n' :
  entry s' n' (del_entry s n d) = if decide (s = s' /\ n = n') then None else entry s' n' d.
Proof.
  unfold entry. cbn. destruct (decide (s = s')) as [<-|Hs].
  - rewrite lookup_insert_eq. cbn. destruct (decide (n = n')) as [<-|Hn].
    + rewrite lookup_delete_eq. by rewrite decide_True.
    + rewrite lookup_delete_ne by done. rewrite decide_False by naive_solver. by destruct (d.(dk_sessions) !! s).
  - rewrite lookup_insert_ne by done. by rewrite decide_False by naive_solver.
Qed.

(** ** Calls that leave the directories alone *)

Definition quiet {E A} (m : ST Disk E A) : Prop := forall d, (m d).2.(dk_sessions) = d.(dk_sessions).

Lemma quiet_bind {E A B} (m : ST Disk E A) (k : A -> ST Disk E B) : quiet m -> (forall a, quiet (k a)) -> quiet (sbind m k).
Proof.
  intros Hm Hk d. unfold sbind. specialize (Hm d). destruct (m d) as [[a|e] d1]; cbn in *; [|done]. by rewrite Hk.
Qed.

Lemma quiet_ret {E A} (a : A) : quiet (sret a : ST Disk E A).
Proof. done. Qed.
Lemma quiet_fail {E A} (e : E) : quiet (sfail e : ST Disk E A).
Proof. done. Qed.
Lemma quiet_lift {E A} (r : result A E) : quiet (slift r).
Proof. done. Qed.
Lemma quiet_get {E} : quiet (sget : ST Disk E Disk).
Proof. done. Qed.
Lemma quiet_fault {E} : quiet (disk_fault : ST Disk E Fault).
Proof. intros d. unfold disk_fault. by case_match. Qed.
Lemma quiet_with {E F A} (f : E -> F) (m : ST Disk E A) : quiet m -> quiet (with_error f m).
Proof. intros Hm d. unfold with_error. specialize (Hm d). by destruct (m d). Qed.
Lemma quiet_tries {E F A} (m : ST Disk E A) : quiet m -> quiet (tries m : ST Disk F (result A E)).
Proof. intros Hm d. unfold tries. specialize (Hm d). by destruct (m d). Qed.

Create HintDb art discriminated.
#[export] Hint Resolve quiet_bind quiet_ret quiet_fail quiet_lift quiet_get quiet_fault quiet_with quiet_tries : art.

Lemma quiet_disk_call : quiet disk_call.
Proof. apply quiet_bind; [apply quiet_fault|]. intros []; auto with art. Qed.
Lemma quiet_test {E} f s n : quiet (path_test f s n : ST Disk E bool).
Proof. unfold path_test. auto with art. Qed.
#[export] Hint Resolve quiet_disk_call quiet_test : art.
Lemma quiet_sync : quiet sync_directory.
Proof. apply quiet_bind; auto with art. Qed.
Lemma quiet_read s n name : quiet (read_file s n name).
Proof. apply quiet_bind; [auto with art|]. intros _. apply quiet_bind; [auto with art|]. intros d. repeat case_match; auto with art. Qed.
#[export] Hint Resolve quiet_sync quiet_read : art.

Lemma entry_same s n d d' : d'.(dk_sessions) = d.(dk_sessions) -> entry s n d' = entry s n d.
Proof. unfold entry. by intros ->. Qed.

Lemma quiet_entry {E A} (m : ST Disk E A) d r d' s n : quiet m -> m d = (r, d') -> entry s n d' = entry s n d.
Proof. intros Hm Hd. apply entry_same. specialize (Hm d). by rewrite Hd in Hm. Qed.

Lemma with_ok {S E F A} (f : E -> F) (m : ST S E A) s a s' : with_error f m s = (Ok a, s') -> m s = (Ok a, s').
Proof. unfold with_error. destruct (m s) as [[]]; cbn; congruence. Qed.

Lemma read_ok s n name d b d' :
  read_file s n name d = (Ok b, d') -> exists files, entry s n d = Some (RealDir files) /\ files !! name = Some b.
Proof.
  unfold read_file. intros ([] & d1 & Hc & Hr)%sbind_ok. apply sbind_ok in Hr as (d2 & d3 & Hg & Hr). injection Hg as <- <-.
  rewrite (quiet_entry _ _ _ _ _ _ quiet_disk_call Hc) in Hr. destruct (entry s n d) as [[files|]|]; try done.
  apply slift_ok in Hr as [Hr _]. apply ok_or_ok in Hr. eauto.
Qed.

Section Store.
Context `{Sha2, UuidLib, ManifestCodec}.

Lemma quiet_manifest s n id : quiet (read_manifest s n id).
Proof. unfold read_manifest, reading. auto with art. Qed.

Lemma quiet_validate s n id sha len : quiet (validate_directory s n id sha len).
Proof. unfold validate_directory, reading. pose proof (quiet_manifest s n id). auto 10 with art. Qed.

(** ** Whole artifacts *)

(** A directory whose manifest says what its payload is. *)
Definition valid_files (id sha : string) (len : Z) (files : Files) : Prop :=
  exists mb m ext b,
    files !! manifest_name id = Some mb /\ manifest_of_bytes mb = Some m /\ m.(mf_sha256) = sha /\ m.(mf_bytes) = len /\
    extension_of id m.(mf_filename) = Some ext /\ files !! payload_name id ext = Some b /\ blen b = len /\ sha256_hex b = sha.

Lemma validate_directory_ok s n id sha len d d' :
  validate_directory s n id sha len d = (Ok tt, d') -> exists files, entry s n d = Some (RealDir files) /\ valid_files id sha len files.
Proof.
  unfold validate_directory. intros (m & d1 & Hm & Hr)%sbind_ok.
  pose proof (quiet_entry _ _ _ _ s n (quiet_manifest s n id) Hm) as E1.
  unfold read_manifest in Hm. apply sbind_ok in Hm as (mb & d2 & Hread & Hm). apply with_ok, read_ok in Hread as (files & He & Hmb).
  apply slift_ok in Hm as [Hm%ok_or_ok _].
  apply sbind_ok in Hr as ([] & d3 & Hck & Hr). apply slift_ok in Hck as [Hck ->]. apply refuse_if_ok, orb_false_iff in Hck as [Hsha Hlen].
  apply negb_false_iff, bool_decide_eq_true in Hsha. apply negb_false_iff, Z.eqb_eq in Hlen.
  apply sbind_ok in Hr as (ext & d4 & Hext & Hr). apply slift_ok in Hext as [Hext%ok_or_ok ->].
  apply sbind_ok in Hr as (b & d5 & Hread & Hck). apply with_ok, read_ok in Hread as (files' & He' & Hb).
  apply slift_ok in Hck as [Hck _]. apply refuse_if_ok, orb_false_iff in Hck as [Hbl Hsb].
  apply negb_false_iff, Z.eqb_eq in Hbl. apply negb_false_iff, bool_decide_eq_true in Hsb.
  rewrite E1, He in He'. injection He' as <-. exists files. split; [done|]. exists mb, m, ext, b. done.
Qed.

Definition Whole (d : Disk) : Prop :=
  forall s id e, entry s (Published id) d = Some e -> exists files sha len, e = RealDir files /\ valid_files id sha len files.

Definition kept (d d' : Disk) : Prop := forall s id e, entry s (Published id) d = Some e -> entry s (Published id) d' = Some e.

Lemma kept_refl d : kept d d.
Proof. by intros s id e. Qed.
#[local] Hint Resolve kept_refl : core.

(** From a disk whose artifacts are whole and that satisfies [P], the call leaves them as they
    are, and all of them whole. *)
Definition good {E A} (P : Disk -> Prop) (m : ST Disk E A) (Q : A -> Disk -> Prop) : Prop :=
  forall d r d', Whole d -> P d -> m d = (r, d') -> Whole d' /\ kept d d' /\ match r with Ok a => Q a d' | Err _ => True end.

Lemma good_bind {E A B} P (m : ST Disk E A) (k : A -> ST Disk E B) Q R :
  good P m Q -> (forall a, good (Q a) (k a) R) -> good P (sbind m k) R.
Proof.
  intros Hm Hk d r d' Hw Hp. unfold sbind. destruct (m d) as [[a|e] d1] eqn:E1; intros E2.
  - destruct (Hm _ _ _ Hw Hp E1) as (Hw1 & K1 & Hq). destruct (Hk a _ _ _ Hw1 Hq E2) as (Hw2 & K2 & Hr).
    split; [done|]. split; [|done]. intros s id x Hx. by apply K2, K1.
  - injection E2 as <- <-. destruct (Hm _ _ _ Hw Hp E1) as (Hw1 & K1 & _). done.
Qed.

Lemma good_quiet {E A} P (m : ST Disk E A) :
  quiet m -> (forall d d', d'.(dk_sessions) = d.(dk_sessions) -> P d -> P d') -> good P m (fun _ => P).
Proof.
  intros Hm HP d r d' Hw Hp E1. assert (Hs : d'.(dk_sessions) = d.(dk_sessions)) by (specialize (Hm d); by rewrite E1 in Hm).
  assert (Hp' : P d') by by apply (HP d). split; [|split].
  - intros s id e. rewrite (entry_same _ _ d d' Hs). apply Hw.
  - intros s id e. by rewrite (entry_same _ _ d d' Hs).
  - by destruct r.
Qed.

Lemma good_weaken {E A} P P' (m : ST Disk E A) Q Q' :
  good P' m Q' -> (forall d, P d -> P' d) -> (forall a d, Q' a d -> Q a d) -> good P m Q.
Proof.
  intros Hm HP HQ d r d' Hw Hp E1. destruct (Hm _ _ _ Hw (HP _ Hp) E1) as (? & ? & Hr). destruct r; naive_solver.
Qed.

Lemma good_pre {E A} P P' (m : ST Disk E A) Q : good P' m Q -> (forall d, P d -> P' d) -> good P m Q.
Proof. intros Hm HP. by apply (good_weaken _ P' _ _ Q). Qed.

Lemma good_with {E F A} P (f : E -> F) (m : ST Disk E A) Q : good P m Q -> good P (with_error f m) Q.
Proof.
  intros Hm d r d' Hw Hp. unfold with_error. destruct (m d) as [r1 d1] eqn:E1. intros [= <- <-].
  destruct (Hm _ _ _ Hw Hp E1) as (? & ? & Hr). by destruct r1.
Qed.

Lemma good_tries {E F A} P (m : ST Disk E A) Q :
  good P m Q -> good P (tries m : ST Disk F _) (fun r d => match r with Ok a => Q a d | Err _ => True end).
Proof.
  intros Hm d r d' Hw Hp. unfold tries. destruct (m d) as [r1 d1] eqn:E1. intros [= <- <-]. exact (Hm _ _ _ Hw Hp E1).
Qed.

Lemma good_modify {E} (P : Disk -> Prop) f (Q : unit -> Disk -> Prop) :
  (forall d, Whole d -> P d -> Whole (f d) /\ kept d (f d) /\ Q tt (f d)) -> good P (smodify f : ST Disk E unit) Q.
Proof. intros Hf d r d' Hw Hp. unfold smodify. intros [= <- <-]. by apply Hf. Qed.

Lemma good_ret {E A} (P : Disk -> Prop) (a : A) : good P (sret a : ST Disk E A) (fun x d => x = a /\ P d).
Proof. intros d r d' Hw Hp. intros [= <- <-]. done. Qed.

Lemma good_fail {E A} P (e : E) Q : good P (sfail e : ST Disk E A) Q.
Proof. intros d r d' Hw Hp. intros [= <- <-]. done. Qed.

Lemma good_lift {E A} (P : Disk -> Prop) (x : result A E) : good P (slift x) (fun a d => x = Ok a /\ P d).
Proof. intros d r d' Hw Hp. unfold slift. intros [= <- <-]. split; [done|]. split; [done|by destruct x]. Qed.

Lemma good_get {E} (P : Disk -> Prop) : good P (sget : ST Disk E Disk) (fun a d => a = d /\ P d).
Proof. intros d r d' Hw Hp. intros [= <- <-]. done. Qed.

(** ** The operations *)

(** Facts about the directories, not about the faults to come. *)
Definition steady (P : Disk -> Prop) : Prop := forall d d', d'.(dk_sessions) = d.(dk_sessions) -> P d -> P d'.

Definition anything (d : Disk) : Prop := True.

Lemma steady_anything : steady anything.
Proof. done. Qed.

Lemma good_any {E A} (m : ST Disk E A) : quiet m -> good anything m (fun _ => anything).
Proof. intros Hm. by apply good_quiet. Qed.

(** What happens to staging directories does not matter. *)
Definition staging_only (f : Disk -> Disk) : Prop :=
  forall d s id, entry s (Published id) (f d) = entry s (Published id) d.

Lemma staging_set s a st e : staging_only (set_entry s (Staging a st) e).
Proof. intros d s' id. rewrite entry_set. case_decide; [naive_solver|done]. Qed.

Lemma staging_del s a st : staging_only (del_entry s (Staging a st)).
Proof. intros d s' id. rewrite entry_del. case_decide; [naive_solver|done]. Qed.

Lemma good_staging {E} (f : Disk -> Disk) : staging_only f -> good anything (smodify f : ST Disk E unit) (fun _ => anything).
Proof.
  intros Hf. apply good_modify. intros d Hw _. split_and!; [|by intros s id e; rewrite Hf|done].
  intros s id e. rewrite Hf. apply Hw.
Qed.

Lemma good_remove s a st : good anything (remove_dir_all s (Staging a st)) (fun _ => anything).
Proof.
  eapply good_bind; [apply good_any, quiet_fault|]. intros f.
  eapply good_bind; [apply good_any, quiet_get|]. intros d. destruct (entry s (Staging a st) d) as [[files|]|]; [|apply good_fail..].
  destruct f; [apply good_staging, staging_del|apply good_fail|].
  eapply good_bind; [apply good_staging, staging_set|]. intros ?. apply good_fail.
Qed.

Lemma good_create_dir s a st : good anything (create_dir s (Staging a st)) (fun _ => anything).
Proof.
  eapply good_bind; [apply good_any, quiet_disk_call|]. intros ?. eapply good_bind; [apply good_any, quiet_get|]. intros d.
  case_match; [apply good_fail|]. apply good_staging, staging_set.
Qed.

Lemma good_write_synced s a st name b : good anything (write_synced s (Staging a st) name b) (fun _ => anything).
Proof.
  unfold write_synced, storing. apply (good_bind _ _ _ (fun _ => anything)).
  { apply good_with. eapply good_bind; [apply good_any, quiet_disk_call|]. intros ?. eapply good_bind; [apply good_any, quiet_get|]. intros d.
    repeat case_match; [apply good_fail|apply good_staging, staging_set|apply good_fail..]. }
  intros ?. apply (good_bind _ _ _ (fun _ => anything)); [apply good_with|intros ?; apply good_with, good_any, quiet_disk_call].
  assert (Hfill : forall b', staging_only (fill_file s (Staging a st) name b')).
  { intros b' d s' id. unfold fill_file. repeat case_match; [apply staging_set|done..]. }
  eapply good_bind; [apply good_any, quiet_fault|]. intros []; [by apply good_staging|apply good_fail|].
  eapply good_bind; [by apply good_staging|]. intros ?. apply good_fail.
Qed.

Lemma good_session_dir s : good anything (create_session_dir s) (fun _ => anything).
Proof.
  eapply good_bind; [apply good_any, quiet_disk_call|]. intros ?. apply good_staging. intros d s' id.
  destruct (d.(dk_sessions) !! s) as [m|] eqn:Hs; [done|]. unfold entry. cbn.
  destruct (decide (s = s')) as [<-|Hne]; [rewrite lookup_insert_eq, Hs; cbn; apply lookup_empty|by rewrite lookup_insert_ne].
Qed.

(** An artifact that was published for these bytes. *)
Definition published (s : SessionId) (id sha : string) (len : Z) (d : Disk) : Prop :=
  exists files, entry s (Published id) d = Some (RealDir files) /\ valid_files id sha len files.

Lemma published_kept s id sha len d d' : kept d d' -> published s id sha len d -> published s id sha len d'.
Proof. intros Hk (files & He & Hv). exists files. split; [by apply Hk|done]. Qed.

Lemma good_validate s id n sha len :
  good anything (validate_directory s n id sha len)
    (fun _ d => exists files, entry s n d = Some (RealDir files) /\ valid_files id sha len files).
Proof.
  intros d r d' Hw Hp E1. destruct (good_any _ (quiet_validate s n id sha len) _ _ _ Hw Hp E1) as (Hw' & Hk & _).
  split; [done|]. split; [done|]. destruct r as [[]|]; [|done]. rewrite (quiet_entry _ _ _ _ s n (quiet_validate s n id sha len) E1).
  by eapply validate_directory_ok.
Qed.

(** Moving a checked directory over nothing publishes it. *)
Lemma good_rename s id st sha len :
  good (fun d => exists files, entry s (Staging id st) d = Some (RealDir files) /\ valid_files id sha len files)
    (rename_dir s (Staging id st) (Published id)) (fun _ => published s id sha len).
Proof.
  eapply good_bind; [eapply (good_quiet _ _ quiet_disk_call)|].
  { intros d d' Hs (files & He & Hv). exists files. by rewrite (entry_same _ _ d d' Hs). }
  intros ?. eapply good_bind; [apply good_get|]. intros d.
  intros d0 r d' Hw [-> (files & He & Hv)]. rewrite He.
  destruct (entry s (Published id) d0) as [e|] eqn:Hf.
  { destruct (Hw _ _ _ Hf) as (files' & sha' & len' & -> & Hv'). rewrite bool_decide_false; [by intros [= <- <-]|].
    intros ->. destruct Hv' as (mb & _ & _ & _ & Hmb & _). by rewrite lookup_empty in Hmb. }
  assert (Hother : forall s' id', entry s' (Published id') (set_entry s (Published id) (RealDir files) (del_entry s (Staging id st) d0)) =
                   if decide (s = s' /\ Published id = Published id') then Some (RealDir files) else entry s' (Published id') d0).
  { intros s' id'. rewrite entry_set. case_decide; [done|]. apply staging_del. }
  intros [= <- <-]. split_and!.
  - intros s' id' e'. rewrite Hother. case_decide as Hc; [destruct Hc as [<- [= <-]]; intros [= <-]; eauto|apply Hw].
  - intros s' id' e' He'. rewrite Hother. case_decide as Hc; [destruct Hc as [<- [= <-]]; congruence|done].
  - exists files. split; [|done]. rewrite Hother. by rewrite decide_True.
Qed.

Lemma good_frame {E A} s id sha len (m : ST Disk E A) Q :
  good anything m Q -> good (published s id sha len) m (fun a d => published s id sha len d /\ Q a d).
Proof.
  intros Hm d r d' Hw Hp E1. destruct (Hm _ _ _ Hw I E1) as (Hw' & Hk & Hr). split; [done|]. split; [done|].
  destruct r; [|done]. split; [by eapply published_kept|done].
Qed.

Lemma good_publish s id st sha len :
  good anything (publish_staging s (Staging id st) (Published id) id sha len) (fun _ => published s id sha len).
Proof.
  unfold publish_staging. eapply good_bind; [apply good_validate|]. intros ?.
  eapply good_bind; [apply good_tries, good_rename|]. intros [[]|err].
  { eapply good_weaken; [apply good_frame, good_with, good_any, quiet_sync|done|]. by intros ? d [Hp _]. }
  eapply good_bind; [eapply good_weaken; [apply good_any, quiet_test|done|done]|]. intros []; [|apply good_fail].
  apply (good_bind _ _ _ (fun _ => published s id sha len)); [apply good_validate|]. intros ?.
  eapply good_bind; [apply good_frame, good_tries, good_remove|]. intros [[]|[|e]]; [| |apply good_fail].
  - eapply good_weaken; [apply good_frame, good_with, good_any, quiet_sync|by intros ? [? _]|]. by intros ? d [Hp _].
  - eapply good_weaken; [apply (good_ret (published s id sha len))|by intros ? [? _]|]. by intros ? d [_ Hp].
Qed.

(** A pending artifact is published already, or will be from its staging directory. *)
Definition PendingOk (p : PendingArtifact) (d : Disk) : Prop :=
  match p.(pa_path), p.(pa_final_path) with
  | None, None => published p.(pa_session) p.(pa_record).(art_id) p.(pa_record).(art_sha256) p.(pa_record).(art_bytes) d
  | Some (Staging a _), Some (Published a') => a = p.(pa_record).(art_id) /\ a' = p.(pa_record).(art_id)
  | _, _ => False
  end.

Lemma pending_kept p d d' : kept d d' -> PendingOk p d -> PendingOk p d'.
Proof. intros Hk. unfold PendingOk. repeat case_match; try done. by apply published_kept. Qed.

Lemma good_drop p : good (PendingOk p) (drop_pending p) (fun _ => anything).
Proof.
  unfold drop_pending, PendingOk. destruct p as [r s path final st]; cbn. destruct path as [[|a st'|]|]; cycle 1.
  - destruct final as [[]|]; try (intros ? ? ? ? []; fail).
    eapply good_weaken; [eapply good_bind; [apply good_tries, good_remove|]; intros ?;
      eapply good_weaken; [apply (good_ret anything)|done|done]|done|done].
  - by intros ? ? ? ? [].
  - eapply good_weaken; [apply (good_ret anything)|done|done].
  - by intros ? ? ? ? [].
Qed.

Definition record_published (s : SessionId) (r : ArtifactRecord) : Disk -> Prop :=
  published s r.(art_id) r.(art_sha256) r.(art_bytes).

Lemma good_commit p : good (PendingOk p) (commit p) (fun r d => r = p.(pa_record) /\ record_published p.(pa_session) r d).
Proof.
  unfold commit, record_published. destruct p as [r s path final st]; cbn.
  destruct path as [[|a st'|]|], final as [[a'| |]|]; try (by intros ? ? ? ? []).
  - intros d r0 d' Hw [Ha Ha'] E1. unfold PendingOk in Ha, Ha'. cbn in Ha, Ha'. subst a a'. revert d r0 d' Hw E1.
    enough (Hg : good anything
      (do r0 <- tries (publish_staging s (Staging r.(art_id) st') (Published r.(art_id)) r.(art_id) r.(art_sha256) r.(art_bytes));
       match r0 with
       | Ok _ => sret r
       | Err error => drop_pending (MkPendingArtifact r s (Some (Staging r.(art_id) st')) (Some (Published r.(art_id))) st) ;; sfail error
       end) (fun r0 d => r0 = r /\ published s r0.(art_id) r0.(art_sha256) r0.(art_bytes) d)).
    { intros d r0 d' Hw. by apply Hg. }
    eapply good_bind; [apply good_tries, good_publish|]. intros [[]|err].
    + eapply good_weaken; [apply (good_ret (published s r.(art_id) r.(art_sha256) r.(art_bytes)))|done|]. by intros ? d [-> Hp].
    + eapply good_bind; [|intros ?; apply good_fail]. eapply good_weaken; [apply good_drop| |done]. intros d _. done.
  - eapply good_weaken; [apply (good_ret (published s r.(art_id) r.(art_sha256) r.(art_bytes)))|done|]. by intros ? d [-> Hp].
Qed.

Lemma good_stage s a st id filename b mb : good anything (stage s (Staging a st) id filename b mb) (fun _ => anything).
Proof.
  unfold stage, storing. eapply good_bind; [apply good_write_synced|]. intros ?. eapply good_bind; [apply good_write_synced|]. intros ?.
  eapply good_bind; [apply good_with, good_any, quiet_sync|]. intros ?. apply good_with, good_any, quiet_sync.
Qed.

Lemma good_prepare store s : good anything (prepare_directories store s) (fun _ => anything).
Proof.
  unfold prepare_directories, storing. eapply good_bind; [apply good_with, good_any, quiet_disk_call|]. intros ?.
  eapply good_bind; [apply good_with, good_any, quiet_sync|]. intros ?.
  eapply good_bind; [destruct (ast_root_parent store); apply good_any; auto with art|]. intros ?.
  eapply good_bind; [apply good_with, good_session_dir|]. intros ?.
  eapply good_bind; [apply good_with, good_any, quiet_sync|]. intros ?. apply good_with, good_any, quiet_sync.
Qed.

(** The identifier an artifact gets. *)
Definition id_for (content_addressed : bool) (new_id : string) (b : bytes) : string :=
  if content_addressed then sha256_hex b else new_id.

Lemma good_put_pending store s page mt ext b max ca nid st :
  good anything (put_pending_addressed store s page mt ext b max ca nid st)
    (fun p d => PendingOk p d /\ p.(pa_session) = s /\
       p.(pa_record) = MkArtifactRecord (id_for ca nid b) page mt 0 0 (blen b) (sha256_hex b)).
Proof.
  unfold put_pending_addressed. fold (id_for ca nid b). eapply good_bind; [apply good_any, quiet_lift|]. intros ?.
  eapply good_bind; [apply good_any, quiet_lift|]. intros ?. eapply good_bind; [apply good_any, quiet_lift|]. intros mb.
  eapply good_bind; [apply good_prepare|]. intros ?. eapply good_bind; [apply good_any, quiet_test|]. intros [].
  - apply (good_bind _ _ _ (fun _ => published s (id_for ca nid b) (sha256_hex b) (blen b))); [apply good_validate|]. intros ?.
    eapply good_weaken; [apply (good_ret (published s (id_for ca nid b) (sha256_hex b) (blen b)))|done|]. by intros p d [-> Hp].
  - eapply good_bind; [apply good_with, good_create_dir|]. intros ?. eapply good_bind; [apply good_tries, good_stage|]. intros [[]|err].
    + eapply good_weaken; [apply (good_ret anything)|done|]. by intros p d [-> _].
    + eapply good_bind; [eapply good_pre; [apply good_tries, good_remove|done]|]. intros ?. apply good_fail.
Qed.

Lemma good_put store s page mt ext b max nid st :
  good anything (put store s page mt ext b max nid st)
    (fun r d => r = MkArtifactRecord (sha256_hex b) page mt 0 0 (blen b) (sha256_hex b) /\ record_published s r d).
Proof.
  eapply good_bind; [apply good_put_pending|]. intros p. intros d r d' Hw (Hp & Hs & Hr) E1.
  destruct (good_commit p _ _ _ Hw Hp E1) as (Hw' & Hk & Hq). split; [done|]. split; [done|]. destruct r; [|done].
  destruct Hq as [-> Hq]. rewrite Hr, Hs in *. done.
Qed.

Lemma good_put_png store s page b nid st :
  good anything (put_png store s page b nid st) (fun r d => r.(art_id) = nid /\ r.(art_sha256) = sha256_hex b /\ record_published s r d).
Proof.
  unfold put_png. eapply good_bind; [apply good_any, quiet_lift|]. intros dims. eapply good_bind; [apply good_any, quiet_lift|]. intros ?.
  eapply good_bind; [apply good_put_pending|]. intros p.
  apply (good_bind _ _ _ (fun r d => (r.(art_id) = nid /\ r.(art_sha256) = sha256_hex b) /\ record_published s r d)).
  - intros d r d' Hw (Hp & Hs & Hr) E1. destruct (good_commit p _ _ _ Hw Hp E1) as (Hw' & Hk & Hq). split; [done|]. split; [done|].
    destruct r; [|done]. destruct Hq as [-> Hq]. rewrite Hr, Hs in *. done.
  - intros r d r' d' Hw [[Hid Hsha] Hp]. intros [= <- <-]. done.
Qed.

Lemma good_finalize s id st sha len : good anything (finalize_staged s id st sha len) (fun _ => published s id sha len).
Proof.
  unfold finalize_staged. eapply good_bind; [apply good_any, quiet_lift|]. intros ?.
  eapply good_bind; [apply good_any, quiet_test|]. intros [].
  - apply (good_bind _ _ _ (fun _ => published s id sha len)); [apply good_validate|]. intros ?.
    eapply good_bind; [apply good_frame, good_any, quiet_test|]. intros [].
    + eapply good_bind; [eapply good_pre; [apply good_frame, good_with, good_remove|by intros d [? _]]|]. intros ?.
      eapply good_weaken; [apply good_frame, good_with, good_any, quiet_sync|by intros d [? _]|]. by intros ? d [? _].
    + eapply good_weaken; [apply (good_ret (published s id sha len))|by intros d [? _]|by intros ? d [_ ?]].
  - eapply good_bind; [apply good_any, quiet_manifest|]. intros m. eapply good_bind; [apply good_lift|]. intros [].
    intros d r d' Hw [Hck _]. apply refuse_if_ok, orb_false_iff in Hck as [Hsha Hlen].
    apply negb_false_iff, bool_decide_eq_true in Hsha as ->. apply negb_false_iff, Z.eqb_eq in Hlen as ->. by apply good_publish.
Qed.

Lemma good_for_each {A} (f : A -> DiskIO unit) l : (forall x, good anything (f x) (fun _ => anything)) -> good anything (for_each f l) (fun _ => anything).
Proof.
  intros Hf. induction l as [|x l IH]; cbn; [eapply good_weaken; [apply (good_ret anything)|done|done]|].
  eapply good_bind; [apply Hf|]. by intros ?.
Qed.

Lemma good_sweep : good anything sweep_orphaned_staging (fun _ => anything).
Proof.
  assert (Hret : forall E, good anything (sret tt : ST Disk E unit) (fun _ => anything)) by (intros; apply good_any, quiet_ret).
  eapply good_bind; [apply good_any, quiet_tries, quiet_disk_call|]. intros []; [|apply Hret].
  eapply good_bind; [apply good_any, quiet_get|]. intros d. apply good_for_each. intros [s m]. unfold sweep_session.
  eapply good_bind; [apply good_any, quiet_tries, quiet_disk_call|]. intros []; [|apply Hret].
  apply good_for_each. intros [[x|x st|x] [files|]]; cbn; try apply Hret. case_match; [|apply Hret].
  eapply good_bind; [apply good_tries, good_remove|]. intros ?. eapply good_pre; [apply Hret|done].
Qed.

(** ** Runs *)

Record ArtWorld := MkArtWorld {
  aw_disk : Disk;
  aw_pending : list PendingArtifact;
}.

(** What a process does with its stores; [OpCrash] ends it with its pending artifacts where
    they are, [OpFaults] says which calls will fail. *)
Inductive ArtOp :=
| OpNew (root_parent : bool) (max_bytes max_dimension : Z)
| OpPut (store : ArtifactStore) (s : SessionId) (page : PageId) (media_type extension : string) (b : bytes) (max : Z) (new_id staging_id : string)
| OpPng (store : ArtifactStore) (s : SessionId) (page : PageId) (b : bytes) (new_id staging_id : string)
| OpPending (store : ArtifactStore) (s : SessionId) (page : PageId) (media_type extension : string) (b : bytes) (max : Z) (new_id staging_id : string)
| OpCommit (i : nat)
| OpDrop (i : nat)
| OpFinalize (s : SessionId) (artifact_id staging_id sha : string) (len : Z)
| OpCrash
| OpFaults (faults : list Fault).

Definition art_step (op : ArtOp) (w : ArtWorld) : ArtWorld :=
  let '(MkArtWorld d ps) := w in
  match op with
  | OpNew parent max_bytes max_dimension => MkArtWorld (store_new parent max_bytes max_dimension d).2 ps
  | OpPut store s page mt ext b max nid st => MkArtWorld (put store s page mt ext b max nid st d).2 ps
  | OpPng store s page b nid st => MkArtWorld (put_png store s page b nid st d).2 ps
  | OpPending store s page mt ext b max nid st =>
      let '(r, d) := put_pending store s page mt ext b max nid st d in
      MkArtWorld d (match r with Ok p => ps ++ [p] | Err _ => ps end)
  | OpCommit i => match ps !! i with Some p => MkArtWorld (commit p d).2 (delete i ps) | None => w end
  | OpDrop i => match ps !! i with Some p => MkArtWorld (drop_pending p d).2 (delete i ps) | None => w end
  | OpFinalize s id st sha len => MkArtWorld (finalize_staged s id st sha len d).2 ps
  | OpCrash => MkArtWorld d []
  | OpFaults fs => MkArtWorld (d <| dk_faults := fs |>) ps
  end.

Definition art_run (ops : list ArtOp) (w : ArtWorld) : ArtWorld := fold_left (fun w op => art_step op w) ops w.

Definition empty_disk : ArtWorld := MkArtWorld (MkDisk ∅ []) [].

Definition ArtInv (w : ArtWorld) : Prop := Whole w.(aw_disk) /\ Forall (fun p => PendingOk p w.(aw_disk)) w.(aw_pending).

Lemma good_step {E A} (m : ST Disk E A) Q d ps :
  good anything m Q -> ArtInv (MkArtWorld d ps) -> ArtInv (MkArtWorld (m d).2 ps) /\ kept d (m d).2.
Proof.
  intros Hm [Hw Hps]. destruct (m d) as [r d'] eqn:E1. destruct (Hm _ _ _ Hw I E1) as (Hw' & Hk & _).
  split; [split; [done|]|done]. eapply Forall_impl; [exact Hps|]. intros p. by apply pending_kept.
Qed.

Lemma pending_step {A} p (m : ArtIO A) Q d ps i :
  ps !! i = Some p -> good (PendingOk p) m Q -> ArtInv (MkArtWorld d ps) ->
  ArtInv (MkArtWorld (m d).2 (delete i ps)) /\ kept d (m d).2.
Proof.
  intros Hi Hm [Hw Hps]. destruct (m d) as [r d'] eqn:E1. cbn in Hps.
  destruct (Hm _ _ _ Hw (proj1 (Forall_lookup _ _) Hps _ _ Hi) E1) as (Hw' & Hk & _). split; [split; [done|]|done]. cbn.
  apply Forall_delete. eapply Forall_impl; [exact Hps|]. intros q. by apply pending_kept.
Qed.

Lemma art_step_inv op w : ArtInv w -> ArtInv (art_step op w) /\ kept w.(aw_disk) (art_step op w).(aw_disk).
Proof.
  destruct w as [d ps]. intros Hi. destruct op as [rp mb md|store s page mt ext b max nid st|store s page b nid st|store s page mt ext b max nid st|i|i|s id st sha len| |fs]; cbn [art_step aw_disk].
  - by apply (good_step sweep_orphaned_staging (fun _ => anything)); [apply good_sweep|].
  - by eapply good_step; [apply good_put|].
  - by eapply good_step; [apply good_put_png|].
  - destruct Hi as [Hw Hps]. unfold put_pending. destruct (put_pending_addressed _ _ _ _ _ _ _ _ _ _ d) as [r d'] eqn:E1.
    destruct (good_put_pending _ _ _ _ _ _ _ _ _ _ _ _ _ Hw I E1) as (Hw' & Hk & Hr). split; [|done]. split; [done|]. cbn.
    assert (Hps' : Forall (fun p => PendingOk p d') ps) by (eapply Forall_impl; [exact Hps|]; intros q; by apply pending_kept).
    destruct r as [p|]; [|done]. apply Forall_app. split; [done|]. apply Forall_singleton. apply Hr.
  - destruct (ps !! i) as [p|] eqn:Hp; [|done]. by eapply pending_step; [|apply good_commit|].
  - destruct (ps !! i) as [p|] eqn:Hp; [|done]. by eapply pending_step; [|apply good_drop|].
  - by eapply good_step; [apply good_finalize|].
  - split; [split; [apply Hi|by apply Forall_nil]|done].
  - split; [exact Hi|by intros s id e].
Qed.

Lemma art_run_inv ops w : ArtInv w -> ArtInv (art_run ops w) /\ kept w.(aw_disk) (art_run ops w).(aw_disk).
Proof.
  revert w. induction ops as [|op ops IH]; intros w Hi; [done|]. destruct (art_step_inv op w Hi) as [Hi1 Hk1].
  destruct (IH _ Hi1) as [Hi2 Hk2]. split; [done|]. intros s id e He. by apply Hk2, Hk1.
Qed.

Lemma empty_inv : ArtInv empty_disk.
Proof. split; [|done]. intros s id e. unfold entry. cbn. by rewrite lookup_empty. Qed.

(** Whatever calls fail and whenever the process dies, what stands under an artifact's name
    is a directory whose manifest can be read and whose payload has the length and the digest
    the manifest says. *)
Theorem published_is_whole ops s id e :
  entry s (Published id) (art_run ops empty_disk).(aw_disk) = Some e -> exists files sha len, e = RealDir files /\ valid_files id sha len files.
Proof. apply (proj1 (art_run_inv ops _ empty_inv)). Qed.

(** ** Reading back *)

Lemma call_calm d : d.(dk_faults) = [] -> disk_call d = (Ok tt, d).
Proof. unfold disk_call, sbind, disk_fault. by intros ->. Qed.

Lemma read_calm s n name files b d :
  d.(dk_faults) = [] -> entry s n d = Some (RealDir files) -> files !! name = Some b -> read_file s n name d = (Ok b, d).
Proof. intros Hc He Hf. unfold read_file, sbind. rewrite (call_calm _ Hc). cbn. by rewrite He, Hf. Qed.

Lemma get_published s id sha len d :
  d.(dk_faults) = [] -> valid_artifact_id id = true -> published s id sha len d ->
  exists b, get s id d = (Ok b, d) /\ blen b = len /\ sha256_hex b = sha.
Proof.
  intros Hc Hid (files & He & mb & m & ext & b & Hmb & Hm & _ & _ & Hext & Hb & Hlen & Hsha). exists b. split; [|done].
  unfold get, reading, with_error, sbind. rewrite Hid. cbn.
  rewrite (read_calm _ _ _ _ _ _ Hc He Hmb). cbn. rewrite Hm. cbn. rewrite Hext. cbn. by rewrite (read_calm _ _ _ _ _ _ Hc He Hb).
Qed.

(** A digest has 32 bytes. *)
Class Sha2Digest := sha256_is_digest : forall b, length (sha256 b) = 32%nat /\ Forall (fun x => 0 <= x < 256) (sha256 b).

Lemma hex_digit_ok n : 0 <= n < 16 -> is_ascii_hexdigit (hex_digit n) = true.
Proof.
  intros Hn. assert (Hall : forallb (fun k => is_ascii_hexdigit (hex_digit (Z.of_nat k))) (seq 0 16) = true) by reflexivity.
  rewrite forallb_forall in Hall. rewrite <- (Z2Nat.id n) by lia. apply Hall, in_seq. lia.
Qed.

Lemma hex_encode_ok l : Forall (fun x => 0 <= x < 256) l ->
  slen (hex_encode l) = 2 * Z.of_nat (length l) /\ str_forallb is_ascii_hexdigit (hex_encode l) = true.
Proof.
  unfold slen. induction 1 as [|x l Hx _ [IH1 IH2]]; [done|]. cbn [hex_encode str_forallb length String.length].
  rewrite !hex_digit_ok by (pose proof (Z.div_lt_upper_bound x 16 16); pose proof (Z.div_pos x 16); pose proof (Z.mod_pos_bound x 16); lia).
  split; [lia|done].
Qed.

Lemma sha_is_valid_id `{!Sha2Digest} b : valid_artifact_id (sha256_hex b) = true.
Proof.
  unfold valid_artifact_id, sha256_hex. destruct (sha256_is_digest b) as [Hl Hf]. destruct (hex_encode_ok _ Hf) as [Hs Hh].
  rewrite Hs, Hl, Hh. by rewrite orb_true_r.
Qed.

(** C26: bytes whose storing was acknowledged are read back, with their length and digest, after
    anything the store did before and does later, failed calls, openings and crashes included. *)
Theorem stored_artifact_reads_back `{!Sha2Digest} ops store s page mt ext b max nid st r d later :
  put store s page mt ext b max nid st (art_run ops empty_disk).(aw_disk) = (Ok r, d) ->
  let d' := (art_run (later ++ [OpFaults []]) (MkArtWorld d (art_run ops empty_disk).(aw_pending))).(aw_disk) in
  exists b', get s r.(art_id) d' = (Ok b', d') /\ blen b' = blen b /\ sha256_hex b' = sha256_hex b /\ r.(art_sha256) = sha256_hex b.
Proof.
  intros Hput d'. destruct (art_run_inv ops _ empty_inv) as [[Hw Hps] _].
  destruct (good_put _ _ _ _ _ _ _ _ _ _ _ _ Hw I Hput) as (Hw1 & Hk1 & -> & Hp).
  assert (Hi : ArtInv (MkArtWorld d (art_run ops empty_disk).(aw_pending))).
  { split; [done|]. eapply Forall_impl; [exact Hps|]. intros q. by apply pending_kept. }
  destruct (art_run_inv (later ++ [OpFaults []]) _ Hi) as [_ Hk2].
  assert (Hcalm : d'.(dk_faults) = []).
  { unfold d', art_run. rewrite fold_left_app. cbn. by destruct (fold_left _ later _). }
  apply (published_kept _ _ _ _ _ d' Hk2) in Hp. cbn in Hp |- *.
  destruct (get_published _ _ _ _ _ Hcalm (sha_is_valid_id b) Hp) as (b' & Hget & Hlen & Hsha). by exists b'.
Qed.

(** ** What is staged *)

Lemma create_file_ok s n name d d' :
  create_file s n name d = (Ok tt, d') ->
  exists files, entry s n d = Some (RealDir files) /\ files !! name = None /\ entry s n d' = Some (RealDir (<[name := []]> files)).
Proof.
  unfold create_file. intros ([] & d1 & Hc & Hr)%sbind_ok. apply sbind_ok in Hr as (d2 & d3 & Hg & Hr). injection Hg as <- <-.
  pose proof (quiet_entry _ _ _ _ s n quiet_disk_call Hc) as He. rewrite He in Hr.
  destruct (entry s n d) as [[files|]|]; try done. destruct (files !! name) eqn:Hf; [done|]. injection Hr as <-.
  exists files. split_and!; [done..|]. rewrite entry_set. by rewrite decide_True.
Qed.

Lemma write_all_ok s n name b files d d' :
  write_all s n name b d = (Ok tt, d') -> entry s n d = Some (RealDir files) -> entry s n d' = Some (RealDir (<[name := b]> files)).
Proof.
  unfold write_all. intros (f & d1 & Hc & Hr)%sbind_ok He. pose proof (quiet_entry _ _ _ _ s n quiet_fault Hc) as He1. rewrite He in He1.
  destruct f as [| |k m]; [|done|].
  - injection Hr as <-. unfold fill_file. rewrite He1, entry_set. by rewrite decide_True.
  - apply sbind_ok in Hr as (? & ? & _ & ?). done.
Qed.

Lemma write_synced_ok s n name b d d' :
  write_synced s n name b d = (Ok tt, d') ->
  exists files, entry s n d = Some (RealDir files) /\ files !! name = None /\ entry s n d' = Some (RealDir (<[name := b]> files)).
Proof.
  unfold write_synced. intros ([] & d1 & Hc%with_ok & Hr)%sbind_ok. apply sbind_ok in Hr as ([] & d2 & Hw%with_ok & Hs%with_ok).
  destruct (create_file_ok _ _ _ _ _ Hc) as (files & He & Hf & He1). exists files. split_and!; [done..|].
  rewrite (quiet_entry _ _ _ _ s n quiet_disk_call Hs). rewrite (write_all_ok _ _ _ _ _ _ _ Hw He1). by rewrite insert_insert_eq.
Qed.

Lemma stage_ok s n id filename b mb files d d' :
  stage s n id filename b mb d = (Ok tt, d') -> entry s n d = Some (RealDir files) ->
  filename <> manifest_name id /\ entry s n d' = Some (RealDir (<[manifest_name id := mb]> (<[filename := b]> files))).
Proof.
  unfold stage. intros ([] & d1 & Hw1 & Hr)%sbind_ok He. apply sbind_ok in Hr as ([] & d2 & Hw2 & Hr).
  apply sbind_ok in Hr as ([] & d3 & Hs1%with_ok & Hs2%with_ok).
  destruct (write_synced_ok _ _ _ _ _ _ Hw1) as (f1 & He1 & _ & He2). destruct (write_synced_ok _ _ _ _ _ _ Hw2) as (f2 & He3 & Hn & He4).
  simplify_eq. split; [intros ->; by rewrite lookup_insert_eq in Hn|].
  by rewrite (quiet_entry _ _ _ _ s n quiet_sync Hs2), (quiet_entry _ _ _ _ s n quiet_sync Hs1).
Qed.

Lemma create_dir_ok s n d d' : create_dir s n d = (Ok tt, d') -> entry s n d' = Some (RealDir ∅).
Proof.
  unfold create_dir. intros ([] & d1 & Hc & Hr)%sbind_ok. apply sbind_ok in Hr as (d2 & d3 & Hg & Hr). injection Hg as <- <-.
  case_match; [done|]. injection Hr as <-. rewrite entry_set. by rewrite decide_True.
Qed.

(** What a pending artifact has in its staging directory. *)
Lemma pending_staged store s page mt ext b max ca nid st d p d' :
  put_pending_addressed store s page mt ext b max ca nid st d = (Ok p, d') -> is_Some p.(pa_staging_id) ->
  let id := id_for ca nid b in
  payload_name id ext <> manifest_name id /\ valid_extension ext = true /\ p.(pa_staging_id) = Some st /\
  exists mb, manifest_bytes (MkArtifactManifest (payload_name id ext) mt page (blen b) (sha256_hex b)) = Ok mb /\
    entry s (Staging id st) d' = Some (RealDir (<[manifest_name id := mb]> (<[payload_name id ext := b]> ∅))).
Proof.
  unfold put_pending_addressed. fold (id_for ca nid b). intros ([] & d1 & _ & Hr)%sbind_ok Hst. cbv zeta.
  apply sbind_ok in Hr as ([] & d2 & Hck & Hr). apply slift_ok in Hck as [Hck _]. apply refuse_if_ok, orb_false_iff in Hck as [_ Hext%negb_false_iff].
  apply sbind_ok in Hr as (mb & d3 & Hm & Hr). apply slift_ok in Hm as [Hm%map_err_ok _].
  apply sbind_ok in Hr as ([] & d4 & _ & Hr). apply sbind_ok in Hr as (there & d5 & _ & Hr). destruct there.
  - apply sbind_ok in Hr as ([] & d6 & _ & Hr). injection Hr as <- <-. by destruct Hst.
  - apply sbind_ok in Hr as ([] & d6 & Hc%with_ok & Hr). apply create_dir_ok in Hc.
    unfold tries, sbind in Hr. destruct (stage _ _ _ _ _ _ d6) as [[[]|e] d7] eqn:Hs; [|by destruct (remove_dir_all _ _ d7)].
    injection Hr as <- <-. destruct (stage_ok _ _ _ _ _ _ _ _ _ Hs Hc) as [Hne He]. split_and!; [done..|]. by exists mb.
Qed.

(** A payload with the extension [json] has the name of the manifest. *)
Lemma json_is_never_staged store s page mt b max ca nid st d p d' :
  put_pending_addressed store s page mt "json" b max ca nid st d = (Ok p, d') -> p.(pa_staging_id) = None.
Proof.
  intros Hp. destruct (p.(pa_staging_id)) eqn:Hst; [|done]. destruct (pending_staged _ _ _ _ _ _ _ _ _ _ _ _ _ Hp) as [Hne _]; [by rewrite Hst|].
  by destruct Hne.
Qed.

Lemma session_dir_entry s d s' n : entry s' n (create_session_dir s d).2 = entry s' n d.
Proof.
  unfold create_session_dir, sbind. destruct (disk_call d) as [[[]|e] d1] eqn:Hc; cbn;
    rewrite <- (quiet_entry _ _ _ _ s' n quiet_disk_call Hc); [|done].
  destruct (d1.(dk_sessions) !! s) as [m|] eqn:Hs; [done|]. unfold entry. cbn.
  destruct (decide (s = s')) as [<-|Hne]; [rewrite lookup_insert_eq, Hs; cbn; apply lookup_empty|by rewrite lookup_insert_ne].
Qed.

Lemma prepare_entry store s d d' s' n : prepare_directories store s d = (Ok tt, d') -> entry s' n d' = entry s' n d.
Proof.
  unfold prepare_directories. intros ([] & d1 & K1%with_ok & Hr)%sbind_ok. apply sbind_ok in Hr as ([] & d2 & K2%with_ok & Hr).
  apply sbind_ok in Hr as ([] & d3 & K3 & Hr). apply sbind_ok in Hr as ([] & d4 & K4%with_ok & Hr).
  apply sbind_ok in Hr as ([] & d5 & K5%with_ok & K6%with_ok).
  rewrite (quiet_entry _ _ _ _ _ _ quiet_sync K6), (quiet_entry _ _ _ _ _ _ quiet_sync K5).
  pose proof (session_dir_entry s d3 s' n) as E4. rewrite K4 in E4. cbn in E4. rewrite E4.
  assert (entry s' n d3 = entry s' n d2) as ->.
  { destruct (ast_root_parent store); [|by injection K3 as <-]. apply with_ok in K3. exact (quiet_entry _ _ _ _ _ _ quiet_sync K3). }
  by rewrite (quiet_entry _ _ _ _ _ _ quiet_sync K2), (quiet_entry _ _ _ _ _ _ quiet_disk_call K1).
Qed.

Lemma pending_published store s page mt ext b max ca nid st d p d' :
  put_pending_addressed store s page mt ext b max ca nid st d = (Ok p, d') -> p.(pa_staging_id) = None ->
  is_Some (entry s (Published (id_for ca nid b)) d).
Proof.
  unfold put_pending_addressed. fold (id_for ca nid b). intros ([] & d1 & K1 & Hr)%sbind_ok Hst. apply slift_ok in K1 as [_ ->].
  apply sbind_ok in Hr as ([] & d2 & K2 & Hr). apply slift_ok in K2 as [_ ->].
  apply sbind_ok in Hr as (mb & d3 & K3 & Hr). apply slift_ok in K3 as [_ ->].
  apply sbind_ok in Hr as ([] & d4 & K4 & Hr). apply sbind_ok in Hr as (there & d5 & K5 & Hr). destruct there.
  - apply sbind_ok in Hr as ([] & d6 & K6 & _). apply validate_directory_ok in K6 as (files & He & _).
    rewrite (quiet_entry _ _ _ _ _ _ (quiet_test _ _ _) K5), (prepare_entry _ _ _ _ _ _ K4) in He. by rewrite He.
  - apply sbind_ok in Hr as ([] & d6 & _ & Hr). unfold tries, sbind in Hr.
    destruct (stage _ _ _ _ _ _ d6) as [[[]|e] d7]; [|by destruct (remove_dir_all _ _ d7)]. by injection Hr as <- <-.
Qed.

(** An artifact with that extension is refused. *)
Lemma json_is_never_stored store s page mt b max nid st d :
  entry s (Published (sha256_hex b)) d = None -> is_ok (put store s page mt "json" b max nid st d).1 = false.
Proof.
  intros Hn. unfold put, sbind. destruct (put_pending_addressed _ _ _ _ _ _ _ _ _ _ d) as [[p|e] d1] eqn:Hp; [|done].
  pose proof (pending_published _ _ _ _ _ _ _ _ _ _ _ _ _ Hp (json_is_never_staged _ _ _ _ _ _ _ _ _ _ _ _ Hp)) as [e He].
  cbn in He. congruence.
Qed.

(** ** Opening the store *)

(** Directories only go away. *)
Definition shrinks (d d' : Disk) : Prop := forall s n, entry s n d' = entry s n d \/ entry s n d' = None.

Lemma shrinks_trans d1 d2 d3 : shrinks d1 d2 -> shrinks d2 d3 -> shrinks d1 d3.
Proof. intros K1 K2 s n. destruct (K1 s n), (K2 s n); intuition congruence. Qed.

Lemma shrinks_refl d : shrinks d d.
Proof. by left. Qed.

Lemma sweep_child_calm s child d : d.(dk_faults) = [] ->
  exists d', sweep_child s child d = (Ok tt, d') /\ d'.(dk_faults) = [] /\ shrinks d d' /\
    (forall files, child.2 = RealDir files -> valid_staging_directory_name child.1 = true ->
       (forall e, entry s child.1 d = Some e -> e = child.2) -> entry s child.1 d' = None).
Proof.
  intros Hc. destruct child as [n e]. unfold sweep_child. cbn.
  destruct e as [files|]; [|exists d; split_and!; [done|done|apply shrinks_refl|done]].
  destruct (valid_staging_directory_name n) eqn:Hv; [|exists d; split_and!; [done|done|apply shrinks_refl|done]].
  unfold tries, sbind, remove_dir_all, sbind, disk_fault. rewrite Hc. cbn.
  destruct (entry s n d) as [[f|]|] eqn:He; cbn.
  - exists (del_entry s n d). split_and!; [done|done| |].
    + intros s' n'. rewrite entry_del. case_decide; auto.
    + intros. rewrite entry_del. by rewrite decide_True.
  - exists d. split_and!; [done|done|apply shrinks_refl|]. intros fs _ _ Hx. by specialize (Hx _ eq_refl).
  - exists d. split_and!; [done|done|apply shrinks_refl|done].
Qed.

Lemma for_each_calm {A} (f : A -> DiskIO unit) (gone : A -> Disk -> Prop) l d d0 :
  (forall x d d', shrinks d d' -> gone x d -> gone x d') ->
  (forall x d, x ∈ l -> d.(dk_faults) = [] -> exists d', f x d = (Ok tt, d') /\ d'.(dk_faults) = [] /\ shrinks d d') ->
  (forall x d1 d', x ∈ l -> shrinks d d1 -> d1.(dk_faults) = [] -> f x d1 = (Ok tt, d') -> gone x d') ->
  shrinks d d0 -> d0.(dk_faults) = [] ->
  exists d', for_each f l d0 = (Ok tt, d') /\ d'.(dk_faults) = [] /\ shrinks d0 d' /\ forall x, x ∈ l -> gone x d'.
Proof.
  intros Hmono. revert d0. induction l as [|x l IH]; intros d0 Hstep Hgone Hd Hc.
  - exists d0. split_and!; [done|done|apply shrinks_refl|]. intros x Hx. by apply elem_of_nil in Hx.
  - destruct (Hstep x d0 (list_elem_of_here _ _) Hc) as (d1 & E1 & Hc1 & Hs1).
    destruct (IH d1) as (d2 & E2 & Hc2 & Hs2 & Hg2);
      [intros y d' Hy; apply Hstep; by right|intros y d' d'' Hy; apply Hgone; by right|by eapply shrinks_trans|done|].
    exists d2. cbn. unfold sbind. rewrite E1. split_and!; [done|done|by eapply shrinks_trans|].
    intros y [->|Hy]%elem_of_cons; [|by apply Hg2]. eapply Hmono; [exact Hs2|]. eapply (Hgone x d0); [by left|done..].
Qed.

Lemma sweep_session_calm d s m d1 :
  d.(dk_sessions) !! s = Some m -> shrinks d d1 -> d1.(dk_faults) = [] ->
  exists d', sweep_session (s, m) d1 = (Ok tt, d') /\ d'.(dk_faults) = [] /\ shrinks d1 d' /\
    forall n files, m !! n = Some (RealDir files) -> valid_staging_directory_name n = true -> entry s n d' = None.
Proof.
  intros Hm Hd Hc. unfold sweep_session, tries, sbind. rewrite (call_calm _ Hc). cbn.
  destruct (for_each_calm (sweep_child s)
    (fun c D => forall files, c.2 = RealDir files -> valid_staging_directory_name c.1 = true -> entry s c.1 D = None) (map_to_list m) d d1)
    as (d' & E1 & Hc' & Hs' & Hg); try done.
  - intros c D D' Hs Hg files Hf Hv. destruct (Hs s c.1) as [-> | ->]; eauto.
  - intros c D _ HD. destruct (sweep_child_calm s c D HD) as (D' & ? & ? & ? & _). eauto.
  - intros [n e] D D' Hin Hs HD E1 files Hf Hv. cbn in Hf. subst e. destruct (sweep_child_calm s (n, RealDir files) D HD) as (D2 & E2 & _ & _ & Hg).
    rewrite E1 in E2. injection E2 as <-. apply (Hg files); [done..|]. cbn. intros e' He'. apply elem_of_map_to_list in Hin.
    destruct (Hs s n) as [Heq|Heq]; rewrite Heq in He'; [|done]. unfold entry in He'. rewrite Hm in He'. cbn in He'. congruence.
  - exists d'. split_and!; try done. intros n files Hn Hv. apply (Hg (n, RealDir files) ltac:(by apply elem_of_map_to_list) files eq_refl Hv).
Qed.

Lemma sweep_calm d : d.(dk_faults) = [] ->
  exists d', sweep_orphaned_staging d = (Ok tt, d') /\ d'.(dk_faults) = [] /\ shrinks d d' /\
    forall s n files, entry s n d = Some (RealDir files) -> valid_staging_directory_name n = true -> entry s n d' = None.
Proof.
  intros Hc. unfold sweep_orphaned_staging, tries, sbind. rewrite (call_calm _ Hc). cbn.
  destruct (for_each_calm sweep_session
    (fun sm D => forall n files, sm.2 !! n = Some (RealDir files) -> valid_staging_directory_name n = true -> entry sm.1 n D = None)
    (map_to_list d.(dk_sessions)) d d) as (d' & E1 & Hc' & Hs' & Hg); try done.
  - intros sm D D' Hs Hg n files Hn Hv. destruct (Hs sm.1 n) as [-> | ->]; eauto.
  - intros [s m] D Hin HD. apply elem_of_map_to_list in Hin.
    assert (Hany : exists d', sweep_session (s, m) D = (Ok tt, d') /\ d'.(dk_faults) = [] /\ shrinks D d').
    { unfold sweep_session, tries, sbind. rewrite (call_calm _ HD). cbn.
      destruct (for_each_calm (sweep_child s) (fun _ _ => True) (map_to_list m) D D) as (d' & ? & ? & ? & _); try done.
      - intros c D1 _ HD1. destruct (sweep_child_calm s c D1 HD1) as (D' & ? & ? & ? & _). eauto.
      - apply shrinks_refl.
      - eauto. }
    done.
  - intros [s m] D D' Hin Hs HD E1. apply elem_of_map_to_list in Hin.
    destruct (sweep_session_calm d s m D Hin Hs HD) as (D2 & E2 & _ & _ & Hg). rewrite E1 in E2. by injection E2 as <-.
  - apply shrinks_refl.
  - exists d'. split_and!; try done. intros s n files He Hv. unfold entry in He. destruct (d.(dk_sessions) !! s) as [m|] eqn:Hm; [|done].
    apply (Hg (s, m) ltac:(by apply elem_of_map_to_list) n files He Hv).
Qed.

Lemma validate_calm s n id sha len files d :
  d.(dk_faults) = [] -> entry s n d = Some (RealDir files) -> valid_files id sha len files ->
  validate_directory s n id sha len d = (Ok tt, d).
Proof.
  intros Hc He (mb & m & ext & b & Hmb & Hm & Hsha & Hlen & Hext & Hb & Hbl & Hbs).
  unfold validate_directory, read_manifest, reading, with_error, sbind, slift. rewrite (read_calm _ _ _ _ _ _ Hc He Hmb). cbn.
  rewrite Hm. cbn. rewrite Hsha, Hlen, bool_decide_true, Z.eqb_refl by done. cbn. rewrite Hext. cbn.
  rewrite (read_calm _ _ _ _ _ _ Hc He Hb). cbn. rewrite Hbl, Hbs, Z.eqb_refl, bool_decide_true by done. done.
Qed.

Lemma is_dir_calm {E} s n d : d.(dk_faults) = [] ->
  (is_dir s n : ST Disk E bool) d = (Ok (match entry s n d with Some (RealDir _) => true | _ => false end), d).
Proof. intros Hc. unfold is_dir, path_test, sbind, disk_fault. by rewrite Hc. Qed.

Lemma publish_calm s id st sha len files d :
  d.(dk_faults) = [] -> entry s (Staging id st) d = Some (RealDir files) -> valid_files id sha len files -> entry s (Published id) d = None ->
  exists d', publish_staging s (Staging id st) (Published id) id sha len d = (Ok tt, d') /\ published s id sha len d'.
Proof.
  intros Hc He Hv Hn. unfold publish_staging, tries, sbind at 1. rewrite (validate_calm _ _ _ _ _ _ _ Hc He Hv).
  unfold rename_dir, sbind. rewrite (call_calm _ Hc). cbn. rewrite He, Hn. cbn.
  set (d' := set_entry s (Published id) (RealDir files) (del_entry s (Staging id st) d)).
  assert (Hc' : d'.(dk_faults) = []) by done. exists d'. split.
  - unfold storing, with_error, sync_directory, sbind. by rewrite !(call_calm _ Hc').
  - exists files. split; [|done]. unfold d'. rewrite entry_set. by rewrite decide_True.
Qed.

(** A manifest is read back as it was written. *)
Class ManifestCodecLaws := manifest_roundtrip : forall m b, manifest_bytes m = Ok b -> manifest_of_bytes b = Some m.

Lemma extension_of_payload id ext : valid_extension ext = true -> extension_of id (payload_name id ext) = Some ext.
Proof.
  intros Hv. unfold extension_of, payload_name.
  assert (strip_prefix (id +:+ ".") (id +:+ "." +:+ ext) = Some ext) as ->; [|by rewrite Hv].
  apply strip_prefix_spec. by rewrite str_app_assoc.
Qed.

Lemma staged_files_valid `{!ManifestCodecLaws} id ext mt page b mb :
  payload_name id ext <> manifest_name id -> valid_extension ext = true ->
  manifest_bytes (MkArtifactManifest (payload_name id ext) mt page (blen b) (sha256_hex b)) = Ok mb ->
  valid_files id (sha256_hex b) (blen b) (<[manifest_name id := mb]> (<[payload_name id ext := b]> ∅)).
Proof.
  intros Hne Hv Hm. exists mb, (MkArtifactManifest (payload_name id ext) mt page (blen b) (sha256_hex b)), ext, b.
  rewrite lookup_insert_eq, (manifest_roundtrip _ _ Hm). cbn. rewrite extension_of_payload by done.
  rewrite lookup_insert_ne by done. by rewrite lookup_insert_eq.
Qed.

(** Where no call fails and the artifact is not published yet: an artifact that was staged
    can be published from its record by a later call, with no more than its identifiers; but
    opening the store again on the same directory removes it, and that call then answers
    that there is no such artifact. *)
Theorem staged_until_reopened `{!Sha2Digest, !ManifestCodecLaws} store s page mt ext b max nid st d p d1 rp mb md :
  put_pending store s page mt ext b max nid st d = (Ok p, d1) -> p.(pa_staging_id) = Some st -> uuid_parses st = true ->
  d1.(dk_faults) = [] -> entry s (Published (sha256_hex b)) d1 = None ->
  (exists d2, finalize_staged s (sha256_hex b) st (sha256_hex b) (blen b) d1 = (Ok tt, d2) /\
     published s (sha256_hex b) (sha256_hex b) (blen b) d2) /\
  (finalize_staged s (sha256_hex b) st (sha256_hex b) (blen b) (store_new rp mb md d1).2).1 = Err ArtNotFound.
Proof.
  intros Hp Hst Huuid Hc Hn. unfold put_pending in Hp. destruct (pending_staged _ _ _ _ _ _ _ _ _ _ _ _ _ Hp) as (Hne & Hext & _ & mbytes & Hm & He); [by rewrite Hst|].
  cbn in Hne, Hm, He. pose proof (staged_files_valid _ _ _ _ _ _ Hne Hext Hm) as Hv. pose proof (sha_is_valid_id b) as Hid. split.
  - destruct (publish_calm _ _ _ _ _ _ _ Hc He Hv Hn) as (d2 & E2 & Hp2). exists d2. split; [|done].
    unfold finalize_staged, sbind. rewrite Hid, Huuid. cbn [negb orb refuse_if slift]. rewrite (is_dir_calm _ _ _ Hc), Hn.
    unfold read_manifest, reading, with_error, sbind. rewrite (read_calm _ _ _ _ mbytes _ Hc He) by by rewrite lookup_insert_eq.
    cbn -[publish_staging]. rewrite (manifest_roundtrip _ _ Hm). cbn -[publish_staging].
    rewrite bool_decide_true, Z.eqb_refl by done. exact E2.
  - destruct (sweep_calm d1 Hc) as (d2 & E2 & Hc2 & Hs2 & Hgone). unfold store_new. rewrite E2. cbn [snd].
    assert (Hgs : entry s (Staging (sha256_hex b) st) d2 = None) by (eapply Hgone; [exact He|]; cbn; by rewrite Hid, Huuid).
    assert (Hgp : entry s (Published (sha256_hex b)) d2 = None) by (destruct (Hs2 s (Published (sha256_hex b))); congruence).
    unfold finalize_staged, sbind. rewrite Hid, Huuid. cbn [negb orb refuse_if slift]. rewrite (is_dir_calm _ _ _ Hc2), Hgp.
    unfold read_manifest, reading, with_error, read_file, sbind. rewrite (call_calm _ Hc2). cbn. by rewrite Hgs.
Qed.
End Store.

(** ** Extensions of downloads *)

(** An extension of more than ten bytes is refused, though [safe_extension] of the page runtime
    passes up to sixteen on. *)
Lemma long_extension_is_refused `{Sha2, UuidLib, ManifestCodec} store s page mt filename b max nid st d :
  10 < slen (safe_extension filename) -> is_ok (put_pending store s page mt (safe_extension filename) b max nid st d).1 = false.
Proof.
  intros Hl. unfold put_pending, put_pending_addressed, sbind, slift. destruct (refuse_if _ ArtTooLarge); [|done].
  assert (valid_extension (safe_extension filename) = false) as ->; [|by rewrite orb_true_r].
  unfold valid_extension. destruct (slen (safe_extension filename) <=? 10) eqn:Hx; [apply Z.leb_le in Hx; lia|by rewrite andb_false_r].
Qed.

(** ** Sample runs *)

Module SampleArtifacts.
#[export] Instance sha : Sha2 := fun b => repeat (blen b mod 256) 32.
#[export] Instance sha_digest : Sha2Digest.
Proof.
  intros b. split; [apply repeat_length|]. apply Forall_forall. intros x Hx%list_elem_of_In%repeat_spec. subst.
  apply Z.mod_pos_bound. lia.
Qed.
#[export] Instance uuids : UuidLib := {| uuid_parses s := String.eqb s "staging" |}.

Definition session : SessionId := 1%N.
Definition content : bytes := ["a"; "b"]%char.
Definition id : string := sha256_hex content.
Definition manifest : ArtifactManifest := MkArtifactManifest (payload_name id "txt") "text/plain" 5%N 2 id.

#[export] Instance manifest_eq_dec : EqDecision ArtifactManifest.
Proof. solve_decision. Defined.
#[export] Instance codec : ManifestCodec := {|
  manifest_bytes m := if bool_decide (m = manifest) then Ok ["m"%char] else Err "no room";
  manifest_of_bytes b := if bool_decide (b = ["m"%char]) then Some manifest else None
|}.
#[export] Instance codec_laws : ManifestCodecLaws.
Proof. intros m b. cbn. case_bool_decide; [|done]. intros [= <-]. subst. by rewrite bool_decide_true. Qed.

Definition store : ArtifactStore := MkArtifactStore true 100 100.
Definition put_it := put store session 5%N "text/plain" "txt" content 100 "n" "staging".
Definition stage_it := put_pending store session 5%N "text/plain" "txt" content 100 "n" "staging".

Definition broken : list ArtOp := [OpFaults [IoFails "full"]].

Lemma put_it_ok : (put_it (art_run [] empty_disk).(aw_disk)).1 = Ok (MkArtifactRecord id 5%N "text/plain" 0 0 2 id).
Proof. by_eval. Qed.

Lemma stored_artifact_reads_back_witness :
  let d := (art_run (broken ++ [OpFaults []]) (MkArtWorld (put_it (art_run [] empty_disk).(aw_disk)).2 [])).(aw_disk) in
  exists b', get session id d = (Ok b', d) /\ blen b' = 2.
Proof.
  pose proof (pair_fst _ _ put_it_ok) as E.
  destruct (stored_artifact_reads_back [] store session 5%N "text/plain" "txt" content 100 "n" "staging" _ _ broken E) as (b' & Hget & Hlen & _).
  exact (ex_intro _ b' (conj Hget Hlen)).
Defined.

Definition staged : Disk := (stage_it (art_run [] empty_disk).(aw_disk)).2.
Definition pending : PendingArtifact :=
  MkPendingArtifact (MkArtifactRecord id 5%N "text/plain" 0 0 2 id) session (Some (Staging id "staging")) (Some (Published id)) (Some "staging").

Lemma stage_it_ok : (stage_it (art_run [] empty_disk).(aw_disk)).1 = Ok pending.
Proof. by_eval. Qed.

Lemma staged_calm : staged.(dk_faults) = [].
Proof. by_eval. Qed.
Lemma staged_unpublished : entry session (Published id) staged = None.
Proof. by_eval. Qed.

Lemma staged_until_reopened_witness :
  (finalize_staged session id "staging" id 2 (store_new true 100 100 staged).2).1 = Err ArtNotFound.
Proof.
  pose proof (pair_fst _ _ stage_it_ok) as E.
  exact (proj2 (staged_until_reopened store session 5%N "text/plain" "txt" content 100 "n" "staging" _ _ _ true 100 100 E eq_refl eq_refl staged_calm staged_unpublished)).
Defined.

(** The two extensions that are lost. *)
Lemma downloads_refused :
  (safe_extension "site.webmanifest", slen (safe_extension "site.webmanifest"),
   is_ok (put store session 5%N "text/plain" (safe_extension "data.json") content 100 "n" "staging" (art_run [] empty_disk).(aw_disk)).1) =
  ("webmanifest", 11, false).
Proof. by_eval. Qed.

Definition put_op : ArtOp := OpPut store session 5%N "text/plain" "txt" content 100 "n" "staging".

Lemma published_entry : match entry session (Published id) (art_run [put_op] empty_disk).(aw_disk) with Some _ => true | None => false end = true.
Proof. by_eval. Qed.

Lemma published_is_whole_witness :
  exists files sha len, entry session (Published id) (art_run [put_op] empty_disk).(aw_disk) = Some (RealDir files) /\ valid_files id sha len files.
Proof.
  destruct (entry session (Published id) (art_run [put_op] empty_disk).(aw_disk)) as [e|] eqn:E.
  - destruct (published_is_whole [put_op] session id e E) as (files & sha & len & He & Hv).
    exact (ex_intro _ files (ex_intro _ sha (ex_intro _ len (conj (f_equal Some He) Hv)))).
  - pose proof published_entry as Hp. rewrite E in Hp. discriminate Hp.
Defined.
End SampleArtifacts.
