(* ===== verification/ArtifactReader.v ===== *)
(** * Reading artifacts

    [ArtifactReader] of [crates/interface-core/src/artifacts.rs]: an artifact is registered for
    the principal that owns its session, and read back by that principal only, after its
    manifest and payload were checked.  Records of who owns what lie in a directory of their
    own beside the sessions', under a quota and a lock; the lock makes an operation one step.

    The ownership directory knows a file by what its name says: the record of a reference, a
    temporary file, a record under a name that is no identifier, a record put aside.  The file
    system is that of [ArtifactStore], whose faults it shares; a file or directory that is a
    link is not opened and counts as missing here. *)

From S2P Require Import Prelude Text SkillTypes Receipt Ledger Json Commands Job Interface Authority SessionOwnership ArtifactStore.
From Stdlib Require Import Ascii.

Record ArtifactReference := MkArtifactReference {
  arf_reference_id : Uuid;
  arf_artifact_id : string;
  arf_sha256 : string;
  arf_bytes : Z;
  arf_media_type : string;
}.
#[export] Instance ArtifactReference_eq_dec : EqDecision ArtifactReference.
Proof. solve_decision. Defined.

Record OwnershipMetadata := MkOwnershipMetadata {
  om_principal_id : PrincipalId;
  om_session_id : SessionId;
  om_reference : ArtifactReference;
  om_committed_path : SessionId * string * string;
}.
#[export] Instance OwnershipMetadata_eq_dec : EqDecision OwnershipMetadata.
Proof. solve_decision. Defined.

Record ArtifactContent := MkArtifactContent {
  ac_media_type : string;
  ac_bytes : bytes;
}.

Record ArtifactOwnershipLimits := MkArtifactOwnershipLimits {
  ol_max_records : Z;
  ol_max_bytes : Z;
}.

Record OwnershipUsage := MkOwnershipUsage {
  ou_records : Z;
  ou_bytes : Z;
}.

Record VerifiedArtifact := MkVerifiedArtifact {
  va_committed_path : SessionId * string * string;
  va_media_type : string;
  va_bytes : bytes;
}.

Inductive BoundaryError := Denied.

Definition MAX_OWNERSHIP_BYTES : Z := 64 * 1024.
Definition MAX_MANIFEST_BYTES : Z := 64 * 1024.
Definition MAX_CONCURRENT_ARTIFACT_READS : Z := 8.

(** ** The disk *)

Inductive OwnName :=
| RecordOf (reference_id : Uuid)
| TemporaryOf (reference_id : Uuid)
| ForeignRecord (n : N)
| QuarantinedRecord (reference_id : Uuid)
| QuarantinedForeign (n : N).
#[export] Instance OwnName_eq_dec : EqDecision OwnName.
Proof. solve_decision. Defined.
#[export] Program Instance OwnName_countable : Countable OwnName :=
  inj_countable'
    (fun x => match x with
              | RecordOf r => inl (inl r)
              | TemporaryOf r => inl (inr r)
              | ForeignRecord n => inr (inl n)
              | QuarantinedRecord r => inr (inr (inl r))
              | QuarantinedForeign n => inr (inr (inr n))
              end)
    (fun x : (N + N) + (N + (N + N)) =>
       match x with
       | inl (inl r) => RecordOf r
       | inl (inr r) => TemporaryOf r
       | inr (inl n) => ForeignRecord n
       | inr (inr (inl r)) => QuarantinedRecord r
       | inr (inr (inr n)) => QuarantinedForeign n
       end) _.
Next Obligation. by intros [].  Qed.

(** The ownership directory is there or not. *)
Record ReaderDisk := MkReaderDisk {
  rk_disk : Disk;
  rk_own : option (gmap OwnName bytes);
}.
#[export] Instance eta_ReaderDisk : Eta ReaderDisk := fun d => MkReaderDisk (rk_disk d) (rk_own d).

Definition RdIO (A : Type) : Type := ST ReaderDisk BoundaryError A.

(** A call of the file system; every failure is [Denied]. *)
Definition rd_disk {E A} (m : ST Disk E A) : RdIO A := fun d =>
  let '(r, x) := m d.(rk_disk) in (map_err (fun _ => Denied) r, d <| rk_disk := x |>).

(** The same where the code looks at the outcome. *)
Definition rd_try {A} (m : DiskIO A) : RdIO (result A DiskError) := fun d =>
  let '(r, x) := m d.(rk_disk) in (Ok r, d <| rk_disk := x |>).

Definition rd_call : RdIO unit := rd_disk disk_call.

Definition own_files (d : ReaderDisk) : gmap OwnName bytes := default ∅ d.(rk_own).
(** Only done in the directory that was opened. *)
Definition set_own (f : gmap OwnName bytes -> gmap OwnName bytes) : RdIO unit :=
  smodify (fun d => d <| rk_own := Some (f (own_files d)) |>).

(** Metadata and the bytes, at most [max] of them. *)
Definition bounded_file (b : bytes) (max : Z) : RdIO bytes :=
  rd_call ;;
  slift (refuse_if (max <? blen b) Denied) ;;
  rd_call ;;
  sret b.

(** ** Checks *)

Definition valid_sha256 (value : string) : bool := (slen value =? 64) && str_forallb is_ascii_hexdigit value.

(** The JSON the reader writes and reads, and the text its reference identifiers are made of. *)
Class ReaderCodec := {
  committed_of_bytes : bytes -> option ArtifactManifest;
  ownership_bytes : OwnershipMetadata -> result bytes string;
  ownership_of_bytes : bytes -> option OwnershipMetadata;
  reference_key : PrincipalId -> SessionId -> string -> result bytes string;
}.

(** [Uuid::from_bytes]. *)
Definition uuid_from_bytes (l : list Z) : Uuid := fold_left (fun n b => (n * 256 + Z.to_N b)%N) l 0%N.

Section Reader.
Context `{Sha2, UuidLib, ReaderCodec}.

Definition deterministic_reference_id (principal : PrincipalId) (session : SessionId) (artifact_id : string) : result Uuid BoundaryError :=
  let? key := map_err (fun _ => Denied) (reference_key principal session artifact_id) in
  Ok (uuid_from_bytes (take 16 (sha256 key))).

Definition authenticated_for (authority : AuthorityStore) (handle : CapabilityHandle) (ctx : RequestContext) (capability : Capability)
    (now : Time) : bool :=
  is_ok (validate_at ctx now) && negb (is_invalid_at authority handle now)
  && bool_decide (ctx.(rc_principal_id) = handle.(ch_principal_id)) && handle_allows handle capability
  && CapabilitySet_contains ctx.(rc_capabilities) capability.

Definition artifact_denied (ctx : RequestContext) : InterfaceError :=
  MkInterfaceError IfArtifactDenied LayerInterface "artifact access denied" ctx.(rc_correlation_id) None false None false None.

Definition artifact_overloaded (ctx : RequestContext) : InterfaceError :=
  MkInterfaceError IfResourceExhausted LayerInterface "artifact read capacity exhausted" ctx.(rc_correlation_id) None true (Some 25) false None.

(** ** Committed artifacts *)

(** [openat] of a directory, and of a file in it. *)
Definition open_artifact_dir (s : SessionId) (artifact_id : string) : RdIO (gmap string bytes) :=
  rd_call ;; rd_call ;; rd_call ;;
  do d <- sget;
  match entry s (Published artifact_id) d.(rk_disk) with
  | Some (RealDir files) => sret files
  | _ => sfail Denied
  end.

Definition open_file (files : gmap string bytes) (name : string) : RdIO bytes :=
  rd_call ;; slift (ok_or (files !! name) Denied).

Definition read_committed_artifact (s : SessionId) (artifact_id expected_sha256 : string) (expected_bytes : Z)
    (expected_media_type : option string) (max_read_bytes : Z) : RdIO VerifiedArtifact :=
  slift (refuse_if (negb (valid_artifact_id artifact_id) || negb (valid_sha256 expected_sha256) || (max_read_bytes <? expected_bytes)
                    || match expected_media_type with Some mt => (slen mt =? 0) || (255 <? slen mt) | None => false end) Denied) ;;
  do files <- open_artifact_dir s artifact_id;
  do manifest_file <- open_file files (manifest_name artifact_id);
  do manifest_bytes <- bounded_file manifest_file MAX_MANIFEST_BYTES;
  do manifest <- slift (ok_or (committed_of_bytes manifest_bytes) Denied);
  do extension <- slift (ok_or (extension_of artifact_id manifest.(mf_filename)) Denied);
  slift (refuse_if ((slen manifest.(mf_media_type) =? 0) || (255 <? slen manifest.(mf_media_type))
                    || negb (bool_decide (manifest.(mf_sha256) = expected_sha256)) || negb (manifest.(mf_bytes) =? expected_bytes)
                    || match expected_media_type with Some mt => negb (bool_decide (manifest.(mf_media_type) = mt)) | None => false end) Denied) ;;
  do payload_file <- open_file files (payload_name artifact_id extension);
  do b <- bounded_file payload_file expected_bytes;
  slift (refuse_if (negb (blen b =? expected_bytes) || negb (bool_decide (sha256_hex b = expected_sha256))) Denied) ;;
  sret (MkVerifiedArtifact (s, artifact_id, payload_name artifact_id extension) manifest.(mf_media_type) b).

(** ** Ownership records *)

(** Without [create], the directory has to be there. *)
Definition open_ownership_directory (create : bool) : RdIO unit :=
  rd_call ;;
  (if create then rd_call ;; smodify (fun d => d <| rk_own := Some (own_files d) |>) else sret tt) ;;
  rd_call ;;
  do d <- sget;
  slift (refuse_if (match d.(rk_own) with Some _ => false | None => true end) Denied).

(** The lock file: opened, looked at and locked. *)
Definition open_locked_ownership_directory : RdIO unit :=
  open_ownership_directory true ;; rd_call ;; rd_call ;; rd_call.

Definition read_ownership_from_directory (reference_id : Uuid) : RdIO (option (OwnershipMetadata * Z)) :=
  rd_call ;;
  do d <- sget;
  match own_files d !! RecordOf reference_id with
  | None => sret None
  | Some file =>
      rd_call ;;
      do b <- bounded_file file MAX_OWNERSHIP_BYTES;
      do ownership <- slift (ok_or (ownership_of_bytes b) Denied);
      do id <- slift (deterministic_reference_id ownership.(om_principal_id) ownership.(om_session_id)
                        ownership.(om_reference).(arf_artifact_id));
      slift (refuse_if (negb (N.eqb ownership.(om_reference).(arf_reference_id) reference_id) || negb (N.eqb id reference_id)
                        || negb (valid_artifact_id ownership.(om_reference).(arf_artifact_id))
                        || negb (valid_sha256 ownership.(om_reference).(arf_sha256))) Denied) ;;
      sret (Some (ownership, blen file))
  end.

Definition read_ownership (reference_id : Uuid) : RdIO OwnershipMetadata :=
  open_ownership_directory false ;;
  do r <- read_ownership_from_directory reference_id;
  slift (ok_or (fst <$> r) Denied).

(** A record is put aside, if that works. *)
Definition quarantined_name (name : OwnName) : OwnName :=
  match name with RecordOf r => QuarantinedRecord r | ForeignRecord n => QuarantinedForeign n | n => n end.

Definition quarantine (name : OwnName) : RdIO unit :=
  do r <- rd_try disk_call;
  match r with
  | Ok _ =>
      set_own (fun m => match m !! name with Some b => <[quarantined_name name := b]> (delete name m) | None => m end)
  | Err _ => sret tt
  end.

(** One entry of the directory. *)
Definition scan_entry (limits : ArtifactOwnershipLimits) (usage : OwnershipUsage) (name : OwnName) : RdIO OwnershipUsage :=
  match name with
  | QuarantinedRecord _ | QuarantinedForeign _ => sret usage
  | TemporaryOf _ => rd_call ;; set_own (delete name) ;; sret usage
  | ForeignRecord _ => quarantine name ;; sret usage
  | RecordOf reference_id =>
      do r <- (fun d => let '(r, d') := read_ownership_from_directory reference_id d in (Ok r, d'));
      match r with
      | Ok (Some (_, b)) =>
          do records <- slift (ok_or (checked_add usage.(ou_records) 1) Denied);
          do total <- slift (ok_or (checked_add usage.(ou_bytes) b) Denied);
          slift (refuse_if ((limits.(ol_max_records) <? records) || (limits.(ol_max_bytes) <? total)) Denied) ;;
          sret (MkOwnershipUsage records total)
      | Ok None => sret usage
      | Err _ => quarantine name ;; sret usage
      end
  end.

Fixpoint scan_entries (limits : ArtifactOwnershipLimits) (usage : OwnershipUsage) (names : list OwnName) : RdIO OwnershipUsage :=
  match names with
  | [] => sret usage
  | name :: names => do usage <- scan_entry limits usage name; scan_entries limits usage names
  end.

Definition scan_ownership_usage_locked (limits : ArtifactOwnershipLimits) : RdIO OwnershipUsage :=
  rd_call ;;
  do d <- sget;
  scan_entries limits (MkOwnershipUsage 0 0) (map_to_list (own_files d)).*1.

Definition scan_ownership_usage (limits : ArtifactOwnershipLimits) : RdIO OwnershipUsage :=
  rd_call ;; open_locked_ownership_directory ;; scan_ownership_usage_locked limits.

(** The record is written to a temporary file and renamed. *)
Definition write_ownership (reference_id : Uuid) (b : bytes) : RdIO unit :=
  do f <- (fun d => let '(r, x) := disk_fault (E := BoundaryError) d.(rk_disk) in (r, d <| rk_disk := x |>));
  match f with
  | IoOk => set_own (<[TemporaryOf reference_id := b]>)
  | IoFails _ => sfail Denied
  | IoPartial k _ => set_own (<[TemporaryOf reference_id := take k b]>) ;; sfail Denied
  end ;;
  rd_call ;;
  rd_call ;;
  set_own (fun m => <[RecordOf reference_id := b]> (delete (TemporaryOf reference_id) m)) ;;
  rd_call.

Definition persist_ownership (ownership : OwnershipMetadata) (limits : ArtifactOwnershipLimits) : RdIO OwnershipUsage :=
  do b <- slift (map_err (fun _ => Denied) (ownership_bytes ownership));
  slift (refuse_if (MAX_OWNERSHIP_BYTES <? blen b) Denied) ;;
  open_locked_ownership_directory ;;
  do usage <- scan_ownership_usage_locked limits;
  let reference_id := ownership.(om_reference).(arf_reference_id) in
  do existing <- read_ownership_from_directory reference_id;
  match existing with
  | Some (existing, _) => if bool_decide (existing = ownership) then sret usage else sfail Denied
  | None =>
      do records <- slift (ok_or (checked_add usage.(ou_records) 1) Denied);
      do total <- slift (ok_or (checked_add usage.(ou_bytes) (blen b)) Denied);
      slift (refuse_if ((limits.(ol_max_records) <? records) || (limits.(ol_max_bytes) <? total)) Denied) ;;
      rd_call ;;
      set_own (delete (TemporaryOf reference_id)) ;;
      rd_call ;;
      set_own (<[TemporaryOf reference_id := []]>) ;;
      do r <- (fun d => let '(r, d') := write_ownership reference_id b d in (Ok r, d'));
      match r with
      | Ok _ => sret (MkOwnershipUsage records total)
      | Err _ =>
          do x <- rd_try disk_call;
          match x with Ok _ => set_own (delete (TemporaryOf reference_id)) ;; sfail Denied | Err _ => sfail Denied end
      end
  end.

(** ** The reader *)

Record ArtifactReader := MkArtifactReader {
  rdr_max_read_bytes : Z;
  rdr_limits : ArtifactOwnershipLimits;
}.

(** [new_inner]; [None] is a failed assertion. *)
Definition reader_new (max_read_bytes : Z) (limits : ArtifactOwnershipLimits) (d : ReaderDisk)
    : option (result ArtifactReader BoundaryError * ReaderDisk) :=
  if (0 <? max_read_bytes) && (0 <? limits.(ol_max_records)) && (0 <? limits.(ol_max_bytes))
  then Some ((do _ <- scan_ownership_usage limits; sret (MkArtifactReader max_read_bytes limits)) d) else None.

Section Calls.
Variable reader : ArtifactReader.
Variable authority : AuthorityStore.
Variable owners : RegistryState.
Variable now : Time.

Definition register (handle : CapabilityHandle) (ctx : RequestContext) (s : SessionId) (record : ArtifactRecord)
    (d : ReaderDisk) : result ArtifactReference InterfaceError * ReaderDisk :=
  if negb (authenticated_for authority handle ctx ArtifactCapture now) || negb (owns_session owners ctx.(rc_principal_id) s)
  then (Err (artifact_denied ctx), d)
  else
    let '(r, d') :=
      (do verified <- read_committed_artifact s record.(art_id) record.(art_sha256) record.(art_bytes) None reader.(rdr_max_read_bytes);
       do reference_id <- slift (deterministic_reference_id ctx.(rc_principal_id) s record.(art_id));
       let reference := MkArtifactReference reference_id record.(art_id) record.(art_sha256) record.(art_bytes) verified.(va_media_type) in
       do _ <- persist_ownership (MkOwnershipMetadata ctx.(rc_principal_id) s reference verified.(va_committed_path)) reader.(rdr_limits);
       sret reference) d in
    (map_err (fun _ => artifact_denied ctx) r, d').

(** [in_flight] reads hold a permit. *)
Definition read (handle : CapabilityHandle) (ctx : RequestContext) (s : SessionId) (reference : ArtifactReference) (in_flight : Z)
    (d : ReaderDisk) : result ArtifactContent InterfaceError * ReaderDisk :=
  if negb (authenticated_for authority handle ctx ArtifactRead now) then (Err (artifact_denied ctx), d)
  else if MAX_CONCURRENT_ARTIFACT_READS <=? in_flight then (Err (artifact_overloaded ctx), d)
  else
    let '(r, d') :=
      (do ownership <- read_ownership reference.(arf_reference_id);
       slift (refuse_if (negb (bool_decide (ownership.(om_principal_id) = ctx.(rc_principal_id)))
                         || negb (bool_decide (ownership.(om_session_id) = s))
                         || negb (bool_decide (ownership.(om_reference) = reference))) Denied) ;;
       do verified <- read_committed_artifact s reference.(arf_artifact_id) reference.(arf_sha256) reference.(arf_bytes)
                        (Some reference.(arf_media_type)) reader.(rdr_max_read_bytes);
       slift (refuse_if (negb (bool_decide (ownership.(om_committed_path) = verified.(va_committed_path)))) Denied) ;;
       sret (MkArtifactContent verified.(va_media_type) verified.(va_bytes))) d in
    (map_err (fun _ => artifact_denied ctx) r, d').
End Calls.
End Reader.
