(* ===== verification/ArtifactReaderThms.v ===== *)
(** * Who reads which artifact

    Over every run of the artifact store and the reader beside it: an artifact is read only by
    a principal that owned its session when it was registered, whole and within the bound, and
    what was registered stays readable as long as no call fails while records are scanned. *)

From S2P Require Import Prelude Text SkillTypes Receipt Ledger Json Commands Job Interface Authority SessionOwnership ArtifactStore ArtifactStoreThms ArtifactReader.
From Stdlib Require Import Ascii.

(** A principal, a session it owned, an artifact of that session. *)
Abbreviation Grant := (PrincipalId * SessionId * string)%type.

Section Reader.
Context `{Sha2, UuidLib, ReaderCodec}.

(** An ownership record is read back as it was written. *)
Class ReaderCodecLaws := ownership_roundtrip : forall o b, ownership_bytes o = Ok b -> ownership_of_bytes b = Some o.

Definition grant_of (o : OwnershipMetadata) : Grant := (o.(om_principal_id), o.(om_session_id), o.(om_reference).(arf_artifact_id)).

(** ** Every record was granted *)

Definition OwnInv (grants : list Grant) (d : ReaderDisk) : Prop :=
  forall rid file, own_files d !! RecordOf rid = Some file ->
    exists o, ownership_bytes o = Ok file /\ o.(om_reference).(arf_reference_id) = rid /\ grant_of o ∈ grants.

(** A call that adds no record and leaves the sessions' directories alone. *)
Definition tame {A} (grants : list Grant) (m : RdIO A) : Prop :=
  forall d, OwnInv grants d -> OwnInv grants (m d).2 /\ (m d).2.(rk_disk).(dk_sessions) = d.(rk_disk).(dk_sessions).

Lemma tame_bind {A B} gr (m : RdIO A) (k : A -> RdIO B) : tame gr m -> (forall a, tame gr (k a)) -> tame gr (sbind m k).
Proof.
  intros Hm Hk d Hi. unfold sbind. specialize (Hm d Hi). destruct (m d) as [[a|e] d1]; cbn in *; [|done].
  destruct Hm as [Hi1 Hs1]. destruct (Hk a d1 Hi1) as [Hi2 Hs2]. split; [done|]. congruence.
Qed.
Lemma tame_ret {A} gr (a : A) : tame gr (sret a).
Proof. done. Qed.
Lemma tame_fail {A} gr e : tame gr (sfail e : RdIO A).
Proof. done. Qed.
Lemma tame_lift {A} gr (r : result A BoundaryError) : tame gr (slift r).
Proof. done. Qed.
Lemma tame_get gr : tame gr sget.
Proof. done. Qed.
Lemma tame_disk {E A} gr (m : ST Disk E A) : quiet m -> tame gr (rd_disk m).
Proof. intros Hm d Hi. unfold rd_disk. specialize (Hm (rk_disk d)). by destruct (m (rk_disk d)). Qed.
Lemma tame_try {A} gr (m : DiskIO A) : quiet m -> tame gr (rd_try m).
Proof. intros Hm d Hi. unfold rd_try. specialize (Hm (rk_disk d)). by destruct (m (rk_disk d)). Qed.
Lemma tame_call gr : tame gr rd_call.
Proof. apply tame_disk, quiet_disk_call. Qed.
Lemma tame_outcome {A} gr (m : RdIO A) : tame gr m -> tame gr (fun d => let '(r, d') := m d in (Ok r, d') : result (result A BoundaryError) BoundaryError * _).
Proof. intros Hm d Hi. specialize (Hm d Hi). by destruct (m d). Qed.

(** No record that was not there. *)
Lemma tame_own gr f : (forall m rid b, f m !! RecordOf rid = Some b -> m !! RecordOf rid = Some b) -> tame gr (set_own f).
Proof.
  intros Hf d Hi. split; [|done]. intros rid file Hr%Hf. by apply Hi.
Qed.

Create HintDb rdr discriminated.
Hint Resolve tame_bind tame_ret tame_fail tame_lift tame_get tame_call tame_try tame_outcome quiet_disk_call : rdr.

Lemma tame_bounded gr b max : tame gr (bounded_file b max).
Proof. unfold bounded_file. auto 8 with rdr. Qed.
Hint Resolve tame_bounded : rdr.

Lemma tame_committed gr s id sha len mt max : tame gr (read_committed_artifact s id sha len mt max).
Proof.
  unfold read_committed_artifact, open_artifact_dir, open_file. apply tame_bind; [auto with rdr|]. intros _.
  apply tame_bind; [|auto 20 with rdr]. do 3 (apply tame_bind; [auto with rdr|intros _]). apply tame_bind; [auto with rdr|]. intros d.
  repeat case_match; auto with rdr.
Qed.

Lemma tame_open gr create : tame gr (open_ownership_directory create).
Proof.
  unfold open_ownership_directory. apply tame_bind; [auto with rdr|]. intros _. apply tame_bind; [|auto 10 with rdr].
  destruct create; [|auto with rdr]. apply tame_bind; [auto with rdr|]. intros _ d Hi. split; [|done]. intros rid file. cbn. apply Hi.
Qed.

Lemma tame_locked gr : tame gr open_locked_ownership_directory.
Proof. unfold open_locked_ownership_directory. pose proof (tame_open gr true). auto 10 with rdr. Qed.

Lemma tame_from gr rid : tame gr (read_ownership_from_directory rid).
Proof.
  unfold read_ownership_from_directory. apply tame_bind; [auto with rdr|]. intros _. apply tame_bind; [auto with rdr|]. intros d.
  case_match; auto 20 with rdr.
Qed.

Lemma tame_quarantine gr n : (exists r, n = RecordOf r) \/ (exists r, n = ForeignRecord r) -> tame gr (quarantine n).
Proof.
  intros Hn. unfold quarantine. apply tame_bind; [auto with rdr|]. intros [[]|]; [|auto with rdr]. apply tame_own. intros m rid b.
  destruct (m !! n) as [x|]; [|done]. rewrite lookup_insert_ne by (destruct Hn as [[? ->]|[? ->]]; done).
  by intros [_ ?]%lookup_delete_Some.
Qed.

Lemma tame_delete gr rid : tame gr (set_own (delete (TemporaryOf rid))).
Proof. apply tame_own. by intros m r b [_ ?]%lookup_delete_Some. Qed.

Lemma tame_temporary gr rid b : tame gr (set_own (<[TemporaryOf rid := b]>)).
Proof. apply tame_own. intros m r x. by rewrite lookup_insert_ne. Qed.
Hint Resolve tame_from tame_delete tame_temporary tame_locked : rdr.

Lemma tame_entry gr limits u n : tame gr (scan_entry limits u n).
Proof.
  destruct n as [r|r|n|r|n]; cbn; auto with rdr.
  - apply tame_bind; [apply tame_outcome; auto with rdr|]. intros [[[o b]|]|]; auto 10 with rdr.
    apply tame_bind; [apply tame_quarantine; eauto|]. auto with rdr.
  - apply tame_bind; [apply tame_quarantine; eauto|]. auto with rdr.
Qed.

Lemma tame_scan gr limits : tame gr (scan_ownership_usage_locked limits).
Proof.
  unfold scan_ownership_usage_locked. apply tame_bind; [auto with rdr|]. intros _. apply tame_bind; [auto with rdr|]. intros d.
  generalize (MkOwnershipUsage 0 0). induction (map_to_list (own_files d)).*1 as [|n l IH]; intros u; cbn; [auto with rdr|].
  apply tame_bind; [apply tame_entry|]. done.
Qed.

Lemma tame_write gr o b :
  ownership_bytes o = Ok b -> grant_of o ∈ gr -> tame gr (write_ownership o.(om_reference).(arf_reference_id) b).
Proof.
  intros Hb Hg. unfold write_ownership. apply tame_bind.
  { intros d Hi. unfold disk_fault. by destruct (dk_faults (rk_disk d)). }
  intros f. apply tame_bind; [destruct f; auto with rdr|]. intros _. apply tame_bind; [auto with rdr|]. intros _.
  apply tame_bind; [auto with rdr|]. intros _. apply tame_bind; [|auto with rdr]. intros d Hi. split; [|done]. intros rid file.
  change (own_files _) with (<[RecordOf o.(om_reference).(arf_reference_id) := b]> (delete (TemporaryOf o.(om_reference).(arf_reference_id)) (own_files d))).
  intros [[[= <-] <-]|[_ [_ Hr]%lookup_delete_Some]]%lookup_insert_Some; [by exists o|]. by apply Hi.
Qed.

Lemma tame_known {A B} gr (a : A) (k : A -> RdIO B) : tame gr (k a) -> tame gr (sbind (slift (Ok a)) k).
Proof. done. Qed.

Lemma tame_persist gr o limits : grant_of o ∈ gr -> tame gr (persist_ownership o limits).
Proof.
  intros Hg. unfold persist_ownership. destruct (ownership_bytes o) as [b|e] eqn:Hb; [|done]. apply tame_known.
  pose proof (tame_scan gr limits). pose proof (tame_write gr o b Hb Hg).
  apply tame_bind; [auto with rdr|]. intros _. apply tame_bind; [auto with rdr|]. intros _. apply tame_bind; [done|]. intros u.
  apply tame_bind; [auto with rdr|]. intros [[o' n]|]; [case_match; auto with rdr|].
  do 2 (apply tame_bind; [auto with rdr|intros ?]). do 5 (apply tame_bind; [auto with rdr|intros _]).
  apply tame_bind; [by apply tame_outcome|]. intros []; [auto with rdr|]. apply tame_bind; [auto with rdr|]. intros []; auto with rdr.
Qed.

(** ** Runs *)

Record ReaderWorld := MkReaderWorld {
  rw_disk : ReaderDisk;
  rw_pending : list PendingArtifact;
  rw_grants : list Grant;
}.

Definition may_register (authority : AuthorityStore) (owners : RegistryState) (now : Time) (handle : CapabilityHandle) (ctx : RequestContext)
    (s : SessionId) : bool :=
  authenticated_for authority handle ctx ArtifactCapture now && owns_session owners ctx.(rc_principal_id) s.

Context `{!ManifestCodec}.

(** What the store does, and what callers ask of the reader with the authority and the owners
    of the moment.  A registration that passes the guard is noted. *)
Inductive ReaderOp :=
| RoStore (op : ArtOp)
| RoNew (limits : ArtifactOwnershipLimits)
| RoRegister (reader : ArtifactReader) (authority : AuthorityStore) (owners : RegistryState) (now : Time) (handle : CapabilityHandle)
    (ctx : RequestContext) (s : SessionId) (record : ArtifactRecord)
| RoRead (reader : ArtifactReader) (authority : AuthorityStore) (now : Time) (handle : CapabilityHandle) (ctx : RequestContext)
    (s : SessionId) (reference : ArtifactReference) (in_flight : Z).

Definition rd_step (op : ReaderOp) (w : ReaderWorld) : ReaderWorld :=
  let '(MkReaderWorld d ps gr) := w in
  match op with
  | RoStore op =>
      let '(MkArtWorld x ps) := art_step op (MkArtWorld d.(rk_disk) ps) in MkReaderWorld (d <| rk_disk := x |>) ps gr
  | RoNew limits => MkReaderWorld (scan_ownership_usage limits d).2 ps gr
  | RoRegister reader authority owners now handle ctx s record =>
      MkReaderWorld (register reader authority owners now handle ctx s record d).2 ps
        (if may_register authority owners now handle ctx s then gr ++ [(ctx.(rc_principal_id), s, record.(art_id))] else gr)
  | RoRead reader authority now handle ctx s reference in_flight =>
      MkReaderWorld (read reader authority now handle ctx s reference in_flight d).2 ps gr
  end.

Definition rd_run (ops : list ReaderOp) (w : ReaderWorld) : ReaderWorld := fold_left (fun w op => rd_step op w) ops w.

Definition rd_empty : ReaderWorld := MkReaderWorld (MkReaderDisk (MkDisk ∅ []) None) [] [].

Definition ReaderInv (w : ReaderWorld) : Prop :=
  ArtInv (MkArtWorld w.(rw_disk).(rk_disk) w.(rw_pending)) /\ OwnInv w.(rw_grants) w.(rw_disk).

Lemma own_inv_more gr gr' d : gr ⊆ gr' -> OwnInv gr d -> OwnInv gr' d.
Proof. intros Hs Hi rid file (o & ? & ? & ?)%Hi. exists o. split_and!; [done..|]. set_solver. Qed.

Lemma art_inv_same d d' ps : d'.(dk_sessions) = d.(dk_sessions) -> ArtInv (MkArtWorld d ps) -> ArtInv (MkArtWorld d' ps).
Proof.
  intros Hs [Hw Hp]. assert (Hk : kept d d') by (intros s id e; by rewrite (entry_same _ _ _ _ Hs)). split.
  - intros s id e. cbn. rewrite (entry_same _ _ _ _ Hs). apply Hw.
  - eapply Forall_impl; [exact Hp|]. intros p. by apply pending_kept.
Qed.

Lemma tame_step {A} gr (m : RdIO A) d ps : tame gr m -> ReaderInv (MkReaderWorld d ps gr) -> ReaderInv (MkReaderWorld (m d).2 ps gr).
Proof. intros Hm [Ha Ho]. destruct (Hm d Ho) as [Ho' Hs]. split; [by eapply art_inv_same|done]. Qed.

Lemma tame_register gr reader authority owners now handle ctx s record d :
  (ctx.(rc_principal_id), s, record.(art_id)) ∈ gr -> OwnInv gr d ->
  let d' := (register reader authority owners now handle ctx s record d).2 in OwnInv gr d' /\ d'.(rk_disk).(dk_sessions) = d.(rk_disk).(dk_sessions).
Proof.
  intros Hg Hi. unfold register. case_match; [done|].
  match goal with |- context [let '(_, _) := ?m d in _] => assert (Ht : tame gr m) end.
  { apply tame_bind; [apply tame_committed|]. intros v. apply tame_bind; [auto with rdr|]. intros rid.
    apply tame_bind; [by apply tame_persist|auto with rdr]. }
  specialize (Ht d Hi). destruct (sbind _ _ d). exact Ht.
Qed.

Lemma tame_read gr reader authority now handle ctx s reference k d :
  OwnInv gr d ->
  let d' := (read reader authority now handle ctx s reference k d).2 in OwnInv gr d' /\ d'.(rk_disk).(dk_sessions) = d.(rk_disk).(dk_sessions).
Proof.
  intros Hi. unfold read. case_match; [done|]. case_match; [done|].
  match goal with |- context [let '(_, _) := ?m d in _] => assert (Ht : tame gr m) end.
  { unfold read_ownership. apply tame_bind; [apply tame_bind; [apply tame_open|]; auto with rdr|]. intros o. apply tame_bind; [auto with rdr|]. intros _.
    apply tame_bind; [apply tame_committed|]. auto with rdr. }
  specialize (Ht d Hi). destruct (sbind _ _ d). exact Ht.
Qed.

Lemma rd_step_inv op w : ReaderInv w -> ReaderInv (rd_step op w) /\ kept w.(rw_disk).(rk_disk) (rd_step op w).(rw_disk).(rk_disk).
Proof.
  destruct w as [d ps gr]. intros Hi.
  assert (Hsame : forall d', d'.(dk_sessions) = d.(rk_disk).(dk_sessions) -> kept d.(rk_disk) d') by (intros d' Hs s id e; by rewrite (entry_same _ _ _ _ Hs)).
  destruct op as [op|limits|reader authority owners now handle ctx s record|reader authority now handle ctx s reference k]; cbn [rd_step rw_disk].
  - destruct Hi as [Ha Ho]. destruct (art_step_inv op _ Ha) as [Ha' Hk]. destruct (art_step op _) as [x ps']. split; [split; done|done].
  - assert (Ht : tame gr (scan_ownership_usage limits)).
    { unfold scan_ownership_usage. pose proof (tame_scan gr limits). auto with rdr. }
    split; [by apply tame_step|]. apply Hsame, (Ht d). apply Hi.
  - unfold may_register. destruct (authenticated_for _ _ _ _ _ && owns_session _ _ _) eqn:Hg.
    + destruct Hi as [Ha Ho]. set (gr' := gr ++ _).
      destruct (tame_register gr' reader authority owners now handle ctx s record d) as [Ho' Hs]; [set_solver|by apply (own_inv_more gr); [set_solver|]|].
      split; [split; [by eapply art_inv_same|done]|by apply Hsame].
    + unfold register. rewrite <- negb_andb, Hg. cbn. split; [exact Hi|by apply Hsame].
  - destruct Hi as [Ha Ho]. destruct (tame_read gr reader authority now handle ctx s reference k d Ho) as [Ho' Hs].
    split; [split; [by eapply art_inv_same|done]|by apply Hsame].
Qed.

Lemma rd_run_inv ops w : ReaderInv w -> ReaderInv (rd_run ops w) /\ kept w.(rw_disk).(rk_disk) (rd_run ops w).(rw_disk).(rk_disk).
Proof.
  revert w. induction ops as [|op ops IH]; intros w Hi; [split; [done|apply kept_refl]|]. destruct (rd_step_inv op w Hi) as [Hi1 Hk1].
  destruct (IH _ Hi1) as [Hi2 Hk2]. split; [done|]. intros s id e He. by apply Hk2, Hk1.
Qed.

Lemma rd_empty_inv : ReaderInv rd_empty.
Proof. split; [apply empty_inv|]. intros rid file. unfold own_files. cbn. by rewrite lookup_empty. Qed.

(** ** What a successful read has seen *)

Lemma disk_ok {E A} (m : ST Disk E A) d a d' : rd_disk m d = (Ok a, d') -> exists x, m d.(rk_disk) = (Ok a, x) /\ d' = d <| rk_disk := x |>.
Proof. unfold rd_disk. destruct (m (rk_disk d)) as [[]]; cbn; [|done]. intros [= <- <-]. eauto. Qed.

(** Nothing on disk changes but the faults to come. *)
Definition alike (d d' : ReaderDisk) : Prop := d'.(rk_disk).(dk_sessions) = d.(rk_disk).(dk_sessions) /\ d'.(rk_own) = d.(rk_own).

Definition peeks {A} (m : RdIO A) : Prop := forall d, alike d (m d).2.

Lemma peeks_bind {A B} (m : RdIO A) (k : A -> RdIO B) : peeks m -> (forall a, peeks (k a)) -> peeks (sbind m k).
Proof.
  intros Hm Hk d. unfold sbind. specialize (Hm d). destruct (m d) as [[a|e] d1]; cbn in *; [|done].
  destruct Hm as [Hs1 Ho1]. destruct (Hk a d1) as [Hs2 Ho2]. split; congruence.
Qed.
Lemma peeks_lift {A} (r : result A BoundaryError) : peeks (slift r).
Proof. done. Qed.
Lemma peeks_ret {A} (a : A) : peeks (sret a).
Proof. done. Qed.
Lemma peeks_get : peeks sget.
Proof. done. Qed.
Lemma peeks_fail {A} e : peeks (sfail e : RdIO A).
Proof. done. Qed.
Lemma peeks_call : peeks rd_call.
Proof.
  intros d. unfold rd_call, rd_disk. pose proof (quiet_disk_call (rk_disk d)) as Hq. by destruct (disk_call (rk_disk d)).
Qed.
Hint Resolve peeks_bind peeks_lift peeks_ret peeks_get peeks_fail peeks_call : rdr.

Lemma peeks_then {A} (m : RdIO A) d a d' : peeks m -> m d = (Ok a, d') -> alike d d'.
Proof. intros Hm E1. specialize (Hm d). by rewrite E1 in Hm. Qed.

(** A directory that holds the artifact a reference speaks of. *)
Definition committed (id sha : string) (len : Z) (mt ext : string) (b : bytes) (files : Files) : Prop :=
  exists mb m,
    (files !! manifest_name id = Some mb /\ blen mb <= MAX_MANIFEST_BYTES /\ committed_of_bytes mb = Some m) /\
    (extension_of id m.(mf_filename) = Some ext /\ m.(mf_media_type) = mt /\ m.(mf_sha256) = sha /\ m.(mf_bytes) = len) /\
    (files !! payload_name id ext = Some b /\ blen b = len /\ sha256_hex b = sha).

Definition media_ok (mt : string) : bool := negb ((slen mt =? 0) || (255 <? slen mt)).

Lemma bounded_file_ok b max d b' d' : bounded_file b max d = (Ok b', d') -> b' = b /\ blen b <= max /\ alike d d'.
Proof.
  intros E1. assert (Hl : peeks (bounded_file b max)) by (unfold bounded_file; auto 10 with rdr). pose proof (peeks_then _ _ _ _ Hl E1) as Ha.
  unfold bounded_file in E1. apply sbind_ok in E1 as ([] & d1 & _ & E1). apply sbind_ok in E1 as ([] & d2 & Hc & E1).
  apply slift_ok in Hc as [Hc _]. apply refuse_if_ok, Z.ltb_ge in Hc. apply sbind_ok in E1 as ([] & d3 & _ & E1). by injection E1 as <- <-.
Qed.

Lemma open_file_ok files name d b d' : open_file files name d = (Ok b, d') -> files !! name = Some b.
Proof. unfold open_file. intros ([] & d1 & _ & E1)%sbind_ok. by apply slift_ok in E1 as [E1%ok_or_ok _]. Qed.

Lemma open_dir_ok s id d files d' : open_artifact_dir s id d = (Ok files, d') -> entry s (Published id) d.(rk_disk) = Some (RealDir files).
Proof.
  unfold open_artifact_dir. intros ([] & d1 & K1 & E1)%sbind_ok. apply sbind_ok in E1 as ([] & d2 & K2 & E1). apply sbind_ok in E1 as ([] & d3 & K3 & E1).
  apply sbind_ok in E1 as (d4 & d5 & Hg & E1). injection Hg as <- <-.
  pose proof (peeks_then _ _ _ _ peeks_call K1) as [S1 _]. pose proof (peeks_then _ _ _ _ peeks_call K2) as [S2 _]. pose proof (peeks_then _ _ _ _ peeks_call K3) as [S3 _].
  rewrite (entry_same _ _ d.(rk_disk) d3.(rk_disk)) in E1 by congruence. destruct (entry _ _ _) as [[f|]|]; try done. by injection E1 as <- <-.
Qed.

Lemma committed_ok s id sha len mt max d v d' :
  read_committed_artifact s id sha len mt max d = (Ok v, d') ->
  (valid_artifact_id id = true /\ valid_sha256 sha = true /\ len <= max /\ media_ok v.(va_media_type) = true /\ (forall x, mt = Some x -> v.(va_media_type) = x)) /\
  exists files ext, entry s (Published id) d.(rk_disk) = Some (RealDir files) /\ committed id sha len v.(va_media_type) ext v.(va_bytes) files /\
    v.(va_committed_path) = (s, id, payload_name id ext).
Proof.
  unfold read_committed_artifact. intros ([] & d1 & Hc & E1)%sbind_ok. apply slift_ok in Hc as [Hc ->]. apply refuse_if_ok in Hc.
  apply orb_false_iff in Hc as [Hc _]. apply orb_false_iff in Hc as [Hc Hmax%Z.ltb_ge]. apply orb_false_iff in Hc as [Hid%negb_false_iff Hsha%negb_false_iff].
  apply sbind_ok in E1 as (files & d2 & Hfiles%open_dir_ok & E1). apply sbind_ok in E1 as (mf & d3 & Hmf%open_file_ok & E1).
  apply sbind_ok in E1 as (mb & d4 & Hmb & E1). apply bounded_file_ok in Hmb as (-> & Hmb & _).
  apply sbind_ok in E1 as (m & d5 & Hm & E1). apply slift_ok in Hm as [Hm%ok_or_ok ->].
  apply sbind_ok in E1 as (ext & d6 & Hext & E1). apply slift_ok in Hext as [Hext%ok_or_ok ->].
  apply sbind_ok in E1 as ([] & d7 & Hc & E1). apply slift_ok in Hc as [Hc ->]. apply refuse_if_ok in Hc.
  apply orb_false_iff in Hc as [Hc Hmt]. apply orb_false_iff in Hc as [Hc Hlen%negb_false_iff%Z.eqb_eq].
  apply orb_false_iff in Hc as [Hmedia Hs%negb_false_iff%bool_decide_eq_true].
  apply sbind_ok in E1 as (pf & d8 & Hpf%open_file_ok & E1). apply sbind_ok in E1 as (b & d9 & Hb & E1). apply bounded_file_ok in Hb as (-> & Hb & _).
  apply sbind_ok in E1 as ([] & d10 & Hc & E1). apply slift_ok in Hc as [Hc ->]. apply refuse_if_ok, orb_false_iff in Hc as [Hbl%negb_false_iff%Z.eqb_eq Hbs%negb_false_iff%bool_decide_eq_true].
  injection E1 as <- <-. cbn. split.
  - split_and!; [done..|by unfold media_ok; rewrite Hmedia|]. intros x ->. by apply negb_false_iff, bool_decide_eq_true in Hmt.
  - exists files, ext. split_and!; [done| |done]. exists mf, m. done.
Qed.

(** A file that is the record [o] of the reference [rid]. *)
Definition accepted (rid : Uuid) (o : OwnershipMetadata) (file : bytes) : Prop :=
  blen file <= MAX_OWNERSHIP_BYTES /\ ownership_of_bytes file = Some o /\ o.(om_reference).(arf_reference_id) = rid /\
  deterministic_reference_id o.(om_principal_id) o.(om_session_id) o.(om_reference).(arf_artifact_id) = Ok rid /\
  valid_artifact_id o.(om_reference).(arf_artifact_id) = true /\ valid_sha256 o.(om_reference).(arf_sha256) = true.

Lemma peeks_bounded b max : peeks (bounded_file b max).
Proof. unfold bounded_file. auto 10 with rdr. Qed.
Hint Resolve peeks_bounded : rdr.

Lemma peeks_from rid : peeks (read_ownership_from_directory rid).
Proof.
  unfold read_ownership_from_directory. apply peeks_bind; [auto with rdr|]. intros _. apply peeks_bind; [auto with rdr|]. intros d.
  case_match; auto 20 with rdr.
Qed.

Lemma own_files_alike d d' : alike d d' -> own_files d' = own_files d.
Proof. intros [_ Ho]. unfold own_files. by rewrite Ho. Qed.

Lemma from_ok rid d r d' :
  read_ownership_from_directory rid d = (Ok r, d') ->
  match r with
  | Some (o, n) => exists file, own_files d !! RecordOf rid = Some file /\ accepted rid o file
  | None => own_files d !! RecordOf rid = None
  end.
Proof.
  unfold read_ownership_from_directory. intros ([] & d1 & K1 & E1)%sbind_ok. apply sbind_ok in E1 as (d2 & d3 & Hg & E1). injection Hg as <- <-.
  rewrite (own_files_alike _ _ (peeks_then _ _ _ _ peeks_call K1)) in E1. destruct (own_files d !! RecordOf rid) as [file|] eqn:Hf.
  2: by injection E1 as <- <-.
  apply sbind_ok in E1 as ([] & d4 & _ & E1). apply sbind_ok in E1 as (b & d5 & Hb & E1). apply bounded_file_ok in Hb as (-> & Hb & _).
  apply sbind_ok in E1 as (o & d6 & Ho & E1). apply slift_ok in Ho as [Ho%ok_or_ok ->].
  apply sbind_ok in E1 as (id & d7 & Hid & E1). apply slift_ok in Hid as [Hid ->].
  apply sbind_ok in E1 as ([] & d8 & Hc & E1). apply slift_ok in Hc as [Hc ->]. apply refuse_if_ok in Hc.
  apply orb_false_iff in Hc as [Hc Hv2%negb_false_iff]. apply orb_false_iff in Hc as [Hc Hv1%negb_false_iff].
  apply orb_false_iff in Hc as [Hr%negb_false_iff%N.eqb_eq Hd%negb_false_iff%N.eqb_eq]. injection E1 as <- <-.
  exists file. split; [done|]. subst id. done.
Qed.

Lemma peeks_open_existing : peeks (open_ownership_directory false).
Proof. unfold open_ownership_directory. auto 10 with rdr. Qed.

Lemma read_ownership_ok rid d o d' :
  read_ownership rid d = (Ok o, d') -> alike d d' /\ exists file, own_files d !! RecordOf rid = Some file /\ accepted rid o file.
Proof.
  unfold read_ownership. intros ([] & d1 & K1 & E1)%sbind_ok. apply sbind_ok in E1 as (r & d2 & K2 & E1).
  apply slift_ok in E1 as [E1%ok_or_ok ->]. pose proof (peeks_then _ _ _ _ peeks_open_existing K1) as A1.
  pose proof (peeks_then _ _ _ _ (peeks_from _) K2) as A2. apply from_ok in K2. destruct r as [[o' n]|]; [|done].
  injection E1 as ->. rewrite (own_files_alike _ _ A1) in K2. split; [|done]. destruct A1, A2. split; congruence.
Qed.

(** C20: whoever reads an artifact holds a valid handle with the right to read, and registered that
    artifact when it had the right to capture and owned the session; it is given exactly the
    bytes its reference speaks of, within the reader's bound. *)
Theorem artifact_is_read_by_its_owner `{!ReaderCodecLaws} ops reader authority now handle ctx s reference k c d' :
  read reader authority now handle ctx s reference k (rd_run ops rd_empty).(rw_disk) = (Ok c, d') ->
  authenticated_for authority handle ctx ArtifactRead now = true /\
  (ctx.(rc_principal_id), s, reference.(arf_artifact_id)) ∈ (rd_run ops rd_empty).(rw_grants) /\
  (blen c.(ac_bytes) = reference.(arf_bytes) /\ reference.(arf_bytes) <= reader.(rdr_max_read_bytes)) /\
  sha256_hex c.(ac_bytes) = reference.(arf_sha256) /\ c.(ac_media_type) = reference.(arf_media_type).
Proof.
  destruct (rd_run_inv ops _ rd_empty_inv) as [[_ Hown] _]. set (d := (rd_run ops rd_empty).(rw_disk)) in *. unfold read.
  destruct (authenticated_for _ _ _ _ _); cbn [negb]; [|done]. case_match; [done|].
  destruct (sbind _ _ d) as [[c'|e] d1] eqn:E1; cbn; [|done]. intros [= -> ->].
  apply sbind_ok in E1 as (o & d2 & Ho & E1). apply read_ownership_ok in Ho as (Ha & file & Hf & Hacc).
  apply sbind_ok in E1 as ([] & d3 & Hc & E1). apply slift_ok in Hc as [Hc ->]. apply refuse_if_ok in Hc.
  apply orb_false_iff in Hc as [Hc Href%negb_false_iff%bool_decide_eq_true].
  apply orb_false_iff in Hc as [Hp%negb_false_iff%bool_decide_eq_true Hs%negb_false_iff%bool_decide_eq_true].
  apply sbind_ok in E1 as (v & d4 & Hv & E1). apply committed_ok in Hv as ((_ & _ & Hmax & _ & Hmt) & files & ext & _ & (mb & m & _ & _ & _ & Hlen & Hsha) & _).
  apply sbind_ok in E1 as ([] & d5 & _ & E1). injection E1 as <- <-. cbn.
  destruct (Hown _ _ Hf) as (o' & Hb & _ & Hgrant). destruct Hacc as (_ & Hparse & _). rewrite (ownership_roundtrip _ _ Hb) in Hparse. injection Hparse as ->.
  split_and!; try done; [|by apply Hmt]. unfold grant_of in Hgrant. by rewrite Hp, Hs, Href in Hgrant.
Qed.

(** ** Records are kept while no call fails *)

Definition calm (d : ReaderDisk) : Prop := d.(rk_disk).(dk_faults) = [].

Definition own_kept (d d' : ReaderDisk) : Prop :=
  forall rid o file, own_files d !! RecordOf rid = Some file -> accepted rid o file -> own_files d' !! RecordOf rid = Some file.

Definition keeps {A} (P : ReaderDisk -> Prop) (m : RdIO A) (Q : A -> ReaderDisk -> Prop) : Prop :=
  forall d r d', calm d -> P d -> m d = (r, d') -> calm d' /\ own_kept d d' /\ match r with Ok a => Q a d' | Err _ => True end.

Lemma holds_bind {A B} P (m : RdIO A) (k : A -> RdIO B) Q R : keeps P m Q -> (forall a, keeps (Q a) (k a) R) -> keeps P (sbind m k) R.
Proof.
  intros Hm Hk d r d' Hc Hp. unfold sbind. destruct (m d) as [[a|e] d1] eqn:E1; intros E2.
  - destruct (Hm _ _ _ Hc Hp E1) as (Hc1 & K1 & Hq). destruct (Hk a _ _ _ Hc1 Hq E2) as (Hc2 & K2 & Hr).
    split; [done|]. split; [|done]. intros rid o file Hf Ha. eauto.
  - injection E2 as <- <-. destruct (Hm _ _ _ Hc Hp E1) as (Hc1 & K1 & _). done.
Qed.

Definition any (d : ReaderDisk) : Prop := True.

Lemma holds_ret {A} P (a : A) : keeps P (sret a) (fun _ => P).
Proof. intros d r d' Hc Hp. intros [= <- <-]. split; [done|]. split; [|done]. by intros rid o file. Qed.
Lemma holds_fail {A} P e Q : keeps P (sfail e : RdIO A) Q.
Proof. intros d r d' Hc Hp. intros [= <- <-]. split; [done|]. split; [|done]. by intros rid o file. Qed.
Lemma holds_lift {A} P (x : result A BoundaryError) : keeps P (slift x) (fun _ => P).
Proof. intros d r d' Hc Hp. unfold slift. intros [= <- <-]. split; [done|]. split; [by intros rid o file|by destruct x]. Qed.
Lemma holds_get P : keeps P sget (fun _ => P).
Proof. intros d r d' Hc Hp. intros [= <- <-]. split; [done|]. split; [|done]. by intros rid o file. Qed.

Lemma call_is_calm d : calm d -> rd_call d = (Ok tt, d).
Proof. intros Hc. unfold rd_call, rd_disk. rewrite (call_calm _ Hc). cbn. by destruct d. Qed.

Lemma holds_call P : keeps P rd_call (fun _ => P).
Proof. intros d r d' Hc Hp. rewrite (call_is_calm _ Hc). intros [= <- <-]. split; [done|]. split; [|done]. by intros rid o file. Qed.

Lemma holds_try P : keeps P (rd_try disk_call) (fun _ => P).
Proof.
  intros d r d' Hc Hp. unfold rd_try. rewrite (call_calm _ Hc). intros [= <- <-]. destruct d. split; [done|]. split; [|done]. by intros rid o file.
Qed.

Lemma holds_pre {A} P P' (m : RdIO A) Q : keeps P' m Q -> (forall d, P d -> P' d) -> keeps P m Q.
Proof. intros Hm HP d r d' Hc Hp. eauto. Qed.

Lemma holds_post {A} P (m : RdIO A) Q Q' : keeps P m Q' -> (forall a d, Q' a d -> Q a d) -> keeps P m Q.
Proof. intros Hm HQ d r d' Hc Hp E1. destruct (Hm _ _ _ Hc Hp E1) as (? & ? & ?). destruct r; naive_solver. Qed.

(** Records are left alone. *)
Lemma holds_own (P : ReaderDisk -> Prop) f :
  (forall m rid, f m !! RecordOf rid = m !! RecordOf rid) -> (forall d d', (forall rid, own_files d' !! RecordOf rid = own_files d !! RecordOf rid) -> P d -> P d') ->
  keeps P (set_own f) (fun _ => P).
Proof.
  intros Hf HP d r d' Hc Hp. unfold set_own, smodify. intros [= <- <-].
  assert (Heq : forall rid, own_files (d <| rk_own := Some (f (own_files d)) |>) !! RecordOf rid = own_files d !! RecordOf rid) by (intros rid; apply Hf).
  split; [done|]. split; [intros rid o file; by rewrite Heq|]. by eapply HP.
Qed.

Lemma holds_any_own f : (forall m rid, f m !! RecordOf rid = m !! RecordOf rid) -> keeps any (set_own f) (fun _ => any).
Proof. intros Hf. by apply holds_own. Qed.

Hint Resolve holds_ret holds_fail holds_lift holds_get holds_call holds_try : rdr.

Ltac k_step := first [eapply holds_bind; [solve [auto with rdr]|intros ?] | solve [auto with rdr]].

Lemma bounded_calm b max d : calm d -> blen b <= max -> bounded_file b max d = (Ok b, d).
Proof.
  intros Hc Hb. unfold bounded_file, sbind. rewrite (call_is_calm _ Hc). cbn.
  assert ((max <? blen b) = false) as -> by (by apply Z.ltb_ge). cbn. by rewrite (call_is_calm _ Hc).
Qed.

Lemma holds_bounded P b max : keeps P (bounded_file b max) (fun _ => P).
Proof. unfold bounded_file. do 3 k_step. apply holds_ret. Qed.
Hint Resolve holds_bounded : rdr.

Lemma from_calm rid o file d :
  calm d -> own_files d !! RecordOf rid = Some file -> accepted rid o file ->
  read_ownership_from_directory rid d = (Ok (Some (o, blen file)), d).
Proof.
  intros Hc Hf (Hl & Ho & Hr & Hd & Hv1 & Hv2). unfold read_ownership_from_directory, sbind. rewrite (call_is_calm _ Hc). cbn.
  rewrite Hf, (call_is_calm _ Hc), (bounded_calm _ _ _ Hc Hl). cbn. rewrite Ho. cbn. rewrite Hd. cbn. by rewrite Hr, N.eqb_refl, Hv1, Hv2.
Qed.

Lemma holds_from (P : ReaderDisk -> Prop) rid :
  (forall d d', alike d d' -> P d -> P d') ->
  keeps P (read_ownership_from_directory rid) (fun r d => P d /\ (r = None -> own_files d !! RecordOf rid = None)).
Proof.
  intros HP d r d' Hc Hp E1. assert (Ha : alike d d') by (pose proof (peeks_from rid d) as Hl; by rewrite E1 in Hl).
  assert (Hc' : calm d').
  { assert (Hk : keeps any (read_ownership_from_directory rid) (fun _ => any)).
    { unfold read_ownership_from_directory. do 2 k_step. case_match; repeat k_step. }
    by apply (Hk d r d' Hc I E1). }
  split; [done|]. split; [intros x o file; by rewrite (own_files_alike _ _ Ha)|]. destruct r as [r|]; [|done]. split; [by eapply HP|]. intros ->.
  rewrite (own_files_alike _ _ Ha). exact (from_ok _ _ _ _ E1).
Qed.

Lemma holds_quarantine n :
  (exists r, n = RecordOf r) \/ (exists r, n = ForeignRecord r) ->
  keeps (fun d => forall rid o file, n = RecordOf rid -> own_files d !! RecordOf rid = Some file -> ~ accepted rid o file) (quarantine n) (fun _ => any).
Proof.
  intros Hn. unfold quarantine. eapply holds_bind; [apply holds_try|]. intros [[]|]; [|eapply holds_post; [apply holds_ret|done]].
  intros d r d' Hc Hp. unfold set_own, smodify. intros [= <- <-]. split; [done|]. split; [|done].
  intros rid o file Hf Ha. pose proof (fun E => Hp rid o file E Hf Ha) as Hne. revert Hf. unfold own_files. cbn. fold (own_files d).
  generalize (own_files d). intros m Hf. destruct (m !! n) as [x|]; [|done]. rewrite lookup_insert_ne by (destruct Hn as [[? ->]|[? ->]]; done). by rewrite lookup_delete_ne.
Qed.

Lemma holds_outcome {A} P (m : RdIO A) Q :
  keeps P m Q -> keeps P (fun d => let '(r, d') := m d in (Ok r, d') : result (result A BoundaryError) BoundaryError * _)
    (fun r d => match r with Ok a => Q a d | Err _ => True end).
Proof.
  intros Hm d r d' Hc Hp. destruct (m d) as [r1 d1] eqn:E1. intros [= <- <-]. exact (Hm _ _ _ Hc Hp E1).
Qed.

Lemma holds_entry limits u n : keeps any (scan_entry limits u n) (fun _ => any).
Proof.
  destruct n as [rid|r|n|r|n]; cbn [scan_entry]; [| | |apply holds_ret..].
  - intros d r d' Hc _. destruct (read_ownership_from_directory rid d) as [x d1] eqn:E1. unfold sbind at 1. rewrite E1. cbn iota beta. intros E2.
    assert (H1' : calm d1 /\ own_kept d d1).
    { destruct (holds_from any rid (fun _ _ _ _ => I) _ _ _ Hc I E1) as (? & ? & _). done. }
    destruct H1' as [Hc1 K1].
    assert (Hk : keeps (fun y => y = d1) (match x with
      | Ok (Some (_, b)) =>
          do records <- slift (ok_or (checked_add u.(ou_records) 1) Denied);
          do total <- slift (ok_or (checked_add u.(ou_bytes) b) Denied);
          slift (refuse_if ((limits.(ol_max_records) <? records) || (limits.(ol_max_bytes) <? total)) Denied) ;;
          sret (MkOwnershipUsage records total)
      | Ok None => sret u
      | Err _ => quarantine (RecordOf rid) ;; sret u
      end) (fun _ => any)).
    { destruct x as [[[o b]|]|e].
      - do 3 (eapply holds_bind; [apply holds_lift|intros ?]). eapply holds_post; [apply holds_ret|done].
      - eapply holds_post; [apply holds_ret|done].
      - eapply holds_bind; [|intros ?; eapply holds_post; [apply holds_ret|done]].
        eapply holds_pre; [apply holds_quarantine; eauto|]. intros y -> rid' o file [= <-] Hf Ha.
        pose proof (peeks_from rid d) as Hl. rewrite E1 in Hl. cbn in Hl. rewrite (own_files_alike _ _ Hl) in Hf.
        rewrite (from_calm _ _ _ _ Hc Hf Ha) in E1. done. }
    destruct (Hk d1 r d' Hc1 eq_refl E2) as (Hc2 & K2 & _). split; [done|]. split; [|by destruct r]. intros rid' o file Hf Ha. eauto.
  - eapply holds_bind; [apply holds_call|]. intros ?. eapply holds_bind; [apply holds_any_own|intros ?; apply holds_ret].
    intros m rid. by rewrite lookup_delete_ne.
  - eapply holds_bind; [|intros ?; apply holds_ret]. eapply holds_pre; [apply holds_quarantine; eauto|]. done.
Qed.

Lemma holds_scan limits : keeps any (scan_ownership_usage_locked limits) (fun _ => any).
Proof.
  unfold scan_ownership_usage_locked. do 2 k_step.
  generalize (MkOwnershipUsage 0 0). induction (map_to_list (own_files a0)).*1 as [|n l IH]; intros u; cbn [scan_entries]; [apply holds_ret|].
  eapply holds_bind; [apply holds_entry|]. done.
Qed.

Lemma holds_open create : keeps any (open_ownership_directory create) (fun _ => any).
Proof.
  unfold open_ownership_directory. k_step. eapply (holds_bind _ _ _ (fun _ => any)); [|intros ?; repeat k_step].
  destruct create; [|apply holds_ret]. k_step. intros d r d' Hc Hp. unfold smodify. intros [= <- <-]. split; [done|]. split; [|done].
  by intros rid o file.
Qed.

Lemma holds_locked : keeps any open_locked_ownership_directory (fun _ => any).
Proof. unfold open_locked_ownership_directory. eapply holds_bind; [apply holds_open|]. intros ?. repeat k_step. Qed.

Lemma holds_new limits : keeps any (scan_ownership_usage limits) (fun _ => any).
Proof.
  unfold scan_ownership_usage. k_step. eapply holds_bind; [apply holds_locked|]. intros ?. apply holds_scan.
Qed.

(** No record of that reference. *)
Definition absent (rid : Uuid) (d : ReaderDisk) : Prop := own_files d !! RecordOf rid = None.

Lemma holds_absent rid f : (forall m r, f m !! RecordOf r = m !! RecordOf r) -> keeps (absent rid) (set_own f) (fun _ => absent rid).
Proof. intros Hf. apply holds_own; [done|]. intros d d' Hd. unfold absent. by rewrite Hd. Qed.

Lemma holds_write rid b : keeps (absent rid) (write_ownership rid b) (fun _ => any).
Proof.
  unfold write_ownership. apply (holds_bind _ _ _ (fun f d => absent rid d)).
  { intros d r d' Hc Hp. unfold disk_fault. unfold calm in Hc. rewrite Hc. intros [= <- <-]. destruct d. split; [done|]. split; [by intros x o file|done]. }
  intros f. apply (holds_bind _ _ _ (fun _ => absent rid)).
  { assert (Ht : forall x, keeps (absent rid) (set_own (<[TemporaryOf rid := x]>)) (fun _ => absent rid)).
    { intros x. apply holds_absent. intros m r. by rewrite lookup_insert_ne. }
    destruct f; [apply Ht|apply holds_fail|]. eapply holds_bind; [apply Ht|]. intros ?. apply holds_fail. }
  intros ?. do 2 k_step. apply (holds_bind _ _ _ (fun _ => any)); [|intros ?; k_step].
  intros d r d' Hc Hp. unfold set_own, smodify. intros [= <- <-]. split; [done|]. split; [|done]. intros rid' o file Hf Ha.
  unfold absent in Hp. unfold own_files. cbn. fold (own_files d).
  rewrite lookup_insert_ne by congruence. by rewrite lookup_delete_ne.
Qed.

Lemma holds_persist o limits : keeps any (persist_ownership o limits) (fun _ => any).
Proof.
  unfold persist_ownership. do 2 k_step. eapply holds_bind; [apply holds_locked|]. intros ?. eapply holds_bind; [apply holds_scan|]. intros u.
  eapply holds_bind; [by apply (holds_from any)|]. intros [[o' n]|].
  { case_match; [eapply holds_post; [apply holds_ret|done]|apply holds_fail]. }
  set (rid := o.(om_reference).(arf_reference_id)). eapply (holds_pre _ (absent rid)); [|by intros d [_ Hd]; apply Hd].
  do 4 (k_step). eapply holds_bind; [apply holds_absent; intros; by rewrite lookup_delete_ne|]. intros ?. k_step.
  eapply holds_bind; [apply holds_absent; intros; by rewrite lookup_insert_ne|]. intros ?.
  eapply holds_bind; [apply holds_outcome, holds_write|]. intros [[]|]; [apply holds_ret|].
  eapply (holds_pre _ any); [|done]. k_step. case_match; [|apply holds_fail].
  eapply holds_bind; [apply holds_any_own; intros; by rewrite lookup_delete_ne|]. intros ?. apply holds_fail.
Qed.

Lemma holds_committed s id sha len mt max : keeps any (read_committed_artifact s id sha len mt max) (fun _ => any).
Proof.
  unfold read_committed_artifact, open_artifact_dir, open_file. k_step.
  eapply (holds_bind _ _ _ (fun _ => any)). { do 4 k_step. repeat case_match; [apply holds_ret|apply holds_fail..]. }
  intros files. eapply (holds_bind _ _ _ (fun _ => any)); [repeat k_step|]. intros ?. do 4 k_step.
  eapply (holds_bind _ _ _ (fun _ => any)); [repeat k_step|]. intros ?. repeat k_step.
Qed.

(** The directories of sessions do not matter to records. *)
Lemma register_keeps reader authority owners now handle ctx s record d :
  calm d -> let d' := (register reader authority owners now handle ctx s record d).2 in own_kept d d'.
Proof.
  intros Hc. unfold register. case_match; [by intros rid o file|].
  match goal with |- context [let '(_, _) := ?m d in _] => assert (Ht : keeps any m (fun _ => any)) end.
  { eapply holds_bind; [apply holds_committed|]. intros v. k_step. eapply holds_bind; [apply holds_persist|]. intros ?. k_step. }
  destruct (sbind _ _ d) as [r d'] eqn:E1. exact (proj1 (proj2 (Ht d r d' Hc I E1))).
Qed.

Lemma read_keeps reader authority now handle ctx s reference k d :
  calm d -> let d' := (read reader authority now handle ctx s reference k d).2 in own_kept d d'.
Proof.
  intros Hc. unfold read. case_match; [by intros rid o file|]. case_match; [by intros rid o file|].
  match goal with |- context [let '(_, _) := ?m d in _] => assert (Ht : keeps any m (fun _ => any)) end.
  { eapply (holds_bind _ _ _ (fun _ => any)).
    - unfold read_ownership. eapply holds_bind; [apply holds_open|]. intros ?. eapply holds_bind; [by apply (holds_from any)|]. intros ?.
      eapply holds_post; [apply holds_lift|done].
    - intros o. k_step. eapply holds_bind; [apply holds_committed|]. intros v. repeat k_step. }
  destruct (sbind _ _ d) as [r d'] eqn:E1. exact (proj1 (proj2 (Ht d r d' Hc I E1))).
Qed.

(** No call fails while the reader works; the store's own calls may. *)
Definition calm_disk (d : ReaderDisk) : ReaderDisk := d <| rk_disk := d.(rk_disk) <| dk_faults := [] |> |>.

Definition careful_step (op : ReaderOp) (w : ReaderWorld) : ReaderWorld :=
  match op with
  | RoStore _ => rd_step op w
  | _ => rd_step op (MkReaderWorld (calm_disk w.(rw_disk)) w.(rw_pending) w.(rw_grants))
  end.

Definition careful_run (ops : list ReaderOp) (w : ReaderWorld) : ReaderWorld := fold_left (fun w op => careful_step op w) ops w.

Lemma careful_step_inv op w :
  ReaderInv w -> ReaderInv (careful_step op w) /\ kept w.(rw_disk).(rk_disk) (careful_step op w).(rw_disk).(rk_disk) /\
                 own_kept w.(rw_disk) (careful_step op w).(rw_disk).
Proof.
  intros Hi. destruct w as [d ps gr]. set (w' := MkReaderWorld (calm_disk d) ps gr).
  assert (Hi' : ReaderInv w') by exact Hi. assert (Hc : calm (calm_disk d)) by done.
  destruct op as [op|limits|reader authority owners now handle ctx s record|reader authority now handle ctx s reference k]; cbn [careful_step rw_disk rw_pending rw_grants].
  - destruct (rd_step_inv (RoStore op) _ Hi) as [Hi1 K1]. split; [done|]. split; [done|].
    unfold rd_step. destruct (art_step op (MkArtWorld d.(rk_disk) ps)). by intros rid o file.
  - destruct (rd_step_inv (RoNew limits) _ Hi') as [Hi1 K1]. split; [done|]. split; [exact K1|].
    change (own_kept (calm_disk d) (scan_ownership_usage limits (calm_disk d)).2).
    destruct (scan_ownership_usage limits (calm_disk d)) as [r d'] eqn:E1. exact (proj1 (proj2 (holds_new limits _ _ _ Hc I E1))).
  - destruct (rd_step_inv (RoRegister reader authority owners now handle ctx s record) _ Hi') as [Hi1 K1]. split; [done|]. split; [exact K1|].
    exact (register_keeps reader authority owners now handle ctx s record _ Hc).
  - destruct (rd_step_inv (RoRead reader authority now handle ctx s reference k) _ Hi') as [Hi1 K1]. split; [done|]. split; [exact K1|].
    exact (read_keeps reader authority now handle ctx s reference k _ Hc).
Qed.

Lemma careful_run_inv ops w :
  ReaderInv w -> ReaderInv (careful_run ops w) /\ kept w.(rw_disk).(rk_disk) (careful_run ops w).(rw_disk).(rk_disk) /\
                 own_kept w.(rw_disk) (careful_run ops w).(rw_disk).
Proof.
  revert w. induction ops as [|op ops IH]; intros w Hi; [split; [done|]; split; [apply kept_refl|by intros rid o file]|].
  destruct (careful_step_inv op w Hi) as (Hi1 & Hk1 & Ho1). destruct (IH _ Hi1) as (Hi2 & Hk2 & Ho2).
  split; [done|]. split; [intros s id e He; by apply Hk2, Hk1|]. intros rid o file Hf Ha. eauto.
Qed.

(** ** Reading back what was registered *)

Lemma outcome_ok {A} (m : RdIO A) d r d' :
  (fun d => let '(r, d') := m d in (Ok r, d') : result (result A BoundaryError) BoundaryError * ReaderDisk) d = (Ok r, d') -> m d = (r, d').
Proof. cbn. destruct (m d). by intros [= <- <-]. Qed.

Lemma write_ok rid b d d' : write_ownership rid b d = (Ok tt, d') -> own_files d' !! RecordOf rid = Some b.
Proof.
  unfold write_ownership. intros (f & d1 & _ & E1)%sbind_ok. apply sbind_ok in E1 as ([] & d2 & _ & E1). apply sbind_ok in E1 as ([] & d3 & _ & E1).
  apply sbind_ok in E1 as ([] & d4 & _ & E1). apply sbind_ok in E1 as ([] & d5 & Hs & E1). injection Hs as <-.
  rewrite (own_files_alike _ _ (peeks_then _ _ _ _ peeks_call E1)). unfold own_files. cbn. by rewrite lookup_insert_eq.
Qed.

Lemma persist_ok `{!ReaderCodecLaws} o limits d u d' :
  persist_ownership o limits d = (Ok u, d') ->
  deterministic_reference_id o.(om_principal_id) o.(om_session_id) o.(om_reference).(arf_artifact_id) = Ok o.(om_reference).(arf_reference_id) ->
  valid_artifact_id o.(om_reference).(arf_artifact_id) = true -> valid_sha256 o.(om_reference).(arf_sha256) = true ->
  exists file, own_files d' !! RecordOf o.(om_reference).(arf_reference_id) = Some file /\ accepted o.(om_reference).(arf_reference_id) o file.
Proof.
  unfold persist_ownership. intros (b & d1 & Hb & E1)%sbind_ok Hid Hv1 Hv2. apply slift_ok in Hb as [Hb%map_err_ok ->].
  apply sbind_ok in E1 as ([] & d2 & Hl & E1). apply slift_ok in Hl as [Hl _]. apply refuse_if_ok, Z.ltb_ge in Hl.
  apply sbind_ok in E1 as ([] & d3 & _ & E1). apply sbind_ok in E1 as (us & d4 & _ & E1). apply sbind_ok in E1 as (ex & d5 & Hex & E1).
  pose proof (peeks_then _ _ _ _ (peeks_from _) Hex) as Ha. apply from_ok in Hex. destruct ex as [[o' n]|].
  - case_bool_decide; [|done]. injection E1 as <- <-. subst o'. destruct Hex as (file & Hf & Hacc). exists file.
    by rewrite (own_files_alike _ _ Ha).
  - do 2 (apply sbind_ok in E1 as (? & ? & _ & E1)). do 5 (apply sbind_ok in E1 as ([] & ? & _ & E1)).
    apply sbind_ok in E1 as (r & d12 & Hw & E1). apply outcome_ok in Hw. destruct r as [[]|e].
    + injection E1 as <- <-. exists b. split; [by apply (write_ok _ _ _ _ Hw)|]. split; [done|]. split; [by apply ownership_roundtrip|]. done.
    + apply sbind_ok in E1 as (y & d13 & _ & E1). destruct y; [|done]. by apply sbind_ok in E1 as (? & ? & _ & E1).
Qed.

Lemma open_existing_calm d : calm d -> is_Some d.(rk_own) -> open_ownership_directory false d = (Ok tt, d).
Proof.
  intros Hc [m Hm]. unfold open_ownership_directory, sbind. rewrite (call_is_calm _ Hc). cbn. rewrite (call_is_calm _ Hc). cbn. by rewrite Hm.
Qed.

Lemma committed_calm s id sha len mt ext b max files d :
  calm d -> entry s (Published id) d.(rk_disk) = Some (RealDir files) -> committed id sha len mt ext b files ->
  valid_artifact_id id = true -> valid_sha256 sha = true -> len <= max -> media_ok mt = true ->
  read_committed_artifact s id sha len (Some mt) max d = (Ok (MkVerifiedArtifact (s, id, payload_name id ext) mt b), d).
Proof.
  intros Hc He (mb & m & (Hmb & Hml & Hm) & (Hext & <- & <- & <-) & (Hb & Hbl & Hbs)) Hid Hsha Hmax Hmedia.
  unfold media_ok in Hmedia. apply negb_true_iff in Hmedia. unfold read_committed_artifact, sbind at 1. rewrite Hid, Hsha, Hmedia.
  assert ((max <? mf_bytes m) = false) as -> by (by apply Z.ltb_ge). cbn [negb orb refuse_if slift].
  unfold open_artifact_dir, open_file, sbind. rewrite !(call_is_calm _ Hc). cbn. rewrite He. cbn. rewrite (call_is_calm _ Hc), Hmb. cbn.
  rewrite (bounded_calm _ _ _ Hc Hml), Hm. cbn. rewrite Hext. cbn. rewrite Hmedia, !bool_decide_true, Z.eqb_refl by done. cbn.
  rewrite (call_is_calm _ Hc), Hb. cbn. rewrite (bounded_calm _ _ _ Hc) by lia. rewrite Hbl, Z.eqb_refl, bool_decide_true by done. done.
Qed.

(** What a successful registration has seen and left. *)
Lemma register_ok `{!ReaderCodecLaws} reader authority owners now handle ctx s record d reference :
  (register reader authority owners now handle ctx s record d).1 = Ok reference ->
  exists o file files ext b,
    (own_files (register reader authority owners now handle ctx s record d).2 !! RecordOf reference.(arf_reference_id) = Some file /\
     accepted reference.(arf_reference_id) o file) /\
    (o.(om_principal_id) = ctx.(rc_principal_id) /\ o.(om_session_id) = s /\ o.(om_reference) = reference /\
     o.(om_committed_path) = (s, reference.(arf_artifact_id), payload_name reference.(arf_artifact_id) ext)) /\
    entry s (Published reference.(arf_artifact_id)) d.(rk_disk) = Some (RealDir files) /\
    committed reference.(arf_artifact_id) reference.(arf_sha256) reference.(arf_bytes) reference.(arf_media_type) ext b files /\
    valid_artifact_id reference.(arf_artifact_id) = true /\ valid_sha256 reference.(arf_sha256) = true /\
    reference.(arf_bytes) <= reader.(rdr_max_read_bytes) /\ media_ok reference.(arf_media_type) = true /\
    reference.(arf_artifact_id) = record.(art_id) /\ reference.(arf_sha256) = record.(art_sha256) /\ reference.(arf_bytes) = record.(art_bytes).
Proof.
  unfold register. destruct (negb _ || negb _); [done|]. destruct (sbind _ _ d) as [[r|e] d1] eqn:E1; [|done]. cbn. intros [= ->].
  apply sbind_ok in E1 as (v & d3 & Hv & E1). apply committed_ok in Hv as ((Hid & Hsha & Hmax & Hmedia & _) & files & ext & He & Hcom & Hpath).
  apply sbind_ok in E1 as (rid & d4 & Hrid & E1). apply slift_ok in Hrid as [Hrid ->]. apply sbind_ok in E1 as (u & d5 & Hp & E1).
  injection E1 as <- <-. apply persist_ok in Hp as (file & Hf & Hacc); [|done..]. cbn in *. eexists _, file, files, ext, (va_bytes v).
  split; [split; [exact Hf|exact Hacc]|]. by rewrite Hpath.
Qed.

(** C27: a registered artifact is read back by the principal it was registered for, with the
    digest and length it was registered with, after anything the store and the reader do later,
    as long as no call fails while the reader goes through the records. *)
Theorem registered_artifact_reads_back `{!ReaderCodecLaws} ops reader authority owners now handle ctx s record reference later
    authority' now' handle' ctx' k :
  let w := rd_run ops rd_empty in
  (register reader authority owners now handle ctx s record w.(rw_disk)).1 = Ok reference ->
  let d := calm_disk (careful_run later (rd_step (RoRegister reader authority owners now handle ctx s record) w)).(rw_disk) in
  authenticated_for authority' handle' ctx' ArtifactRead now' = true -> ctx'.(rc_principal_id) = ctx.(rc_principal_id) ->
  k < MAX_CONCURRENT_ARTIFACT_READS ->
  exists c, read reader authority' now' handle' ctx' s reference k d = (Ok c, d) /\
    sha256_hex c.(ac_bytes) = record.(art_sha256) /\ blen c.(ac_bytes) = record.(art_bytes).
Proof.
  intros w Hreg d Hauth Hprin Hk. destruct (rd_run_inv ops _ rd_empty_inv) as [Hi _]. fold w in Hi.
  set (op := RoRegister reader authority owners now handle ctx s record) in *. destruct (rd_step_inv op w Hi) as [Hi1 K0].
  destruct (careful_run_inv later _ Hi1) as (_ & Hkept & Hown).
  assert (Hd1 : (rd_step op w).(rw_disk) = (register reader authority owners now handle ctx s record w.(rw_disk)).2) by (by destruct w).
  set (d2 := (careful_run later (rd_step op w)).(rw_disk)) in *. rewrite Hd1 in Hown, K0, Hkept.
  destruct (register_ok reader authority owners now handle ctx s record w.(rw_disk) reference Hreg)
    as (o & file & files & ext & b & (Hf & Hacc) & (Hop & Hos & Hor & Hopath) & He & Hcom & Hfacts).
  apply (Hown _ _ _ Hf) in Hacc as Hf2. apply K0, Hkept in He.
  assert (Hc : calm d) by done. assert (Hex : is_Some d.(rk_own)).
  { unfold d. cbn. fold d2. unfold own_files in Hf2. destruct (rk_own d2); [by eexists|]. cbn in Hf2. by rewrite lookup_empty in Hf2. }
  destruct Hfacts as (Hid & Hsha & Hmax & Hmedia & Haid & Hasha & Hlen).
  exists (MkArtifactContent reference.(arf_media_type) b). destruct Hcom as (mb & m & Hm1 & Hm2 & Hm3).
  split; [|by rewrite <- Hasha, <- Hlen; destruct Hm3 as (_ & ? & ?)].
  unfold read. rewrite Hauth. cbn [negb]. assert ((MAX_CONCURRENT_ARTIFACT_READS <=? k) = false) as -> by (apply Z.leb_gt; lia).
  unfold read_ownership, sbind at 1 2. rewrite (open_existing_calm _ Hc Hex). unfold sbind at 1.
  rewrite (from_calm _ o file d Hc Hf2 Hacc). cbn [fst fmap option_fmap option_map ok_or slift].
  unfold sbind at 1. rewrite !bool_decide_true by congruence. cbn [negb orb refuse_if slift].
  unfold sbind at 1. rewrite (committed_calm s _ _ _ _ ext b _ files d Hc He) by (try done; by exists mb, m).
  unfold sbind. cbn [va_committed_path va_media_type va_bytes]. by rewrite bool_decide_true.
Qed.
End Reader.

(** ** Sample runs *)

Module SampleReader.
Import SampleArtifacts.

Definition principal : PrincipalId := 9%N.
Definition reference : ArtifactReference := MkArtifactReference 0%N id id 2 "text/plain".
Definition ownership : OwnershipMetadata := MkOwnershipMetadata principal session reference (session, id, payload_name id "txt").

#[export] Instance reader_codec : ReaderCodec := {|
  committed_of_bytes := manifest_of_bytes;
  ownership_bytes o := if bool_decide (o = ownership) then Ok ["o"%char] else Err "no room";
  ownership_of_bytes b := if bool_decide (b = ["o"%char]) then Some ownership else None;
  reference_key _ _ _ := Ok []
|}.
#[export] Instance reader_codec_laws : ReaderCodecLaws.
Proof. intros o b. cbn. case_bool_decide; [|done]. intros [= <-]. subst. by rewrite bool_decide_true. Qed.

Definition reader : ArtifactReader := MkArtifactReader 1000 (MkArtifactOwnershipLimits 10 1000).
Definition capabilities : CapabilitySet := CapabilitySet_new [ArtifactRead; ArtifactCapture].
Definition handle : CapabilityHandle := MkCapabilityHandle principal capabilities 100 0%nat.
Definition context : RequestContext := MkRequestContext 7%N principal capabilities 50 None.
Definition owners : RegistryState := MkRegistryState 4 {[session := principal]} ∅ 1 false false.
Definition record : ArtifactRecord := MkArtifactRecord id 5%N "text/plain" 0 0 2 id.
Definition stored : list ReaderOp := [RoStore put_op].
Definition register_op : ReaderOp := RoRegister reader AuthorityStore_default owners 1 handle context session record.

Lemma registered :
  (register reader AuthorityStore_default owners 1 handle context session record (rd_run stored rd_empty).(rw_disk)).1 = Ok reference.
Proof. by_eval. Qed.

Lemma registered_artifact_reads_back_witness :
  let d := calm_disk (careful_run [RoNew (MkArtifactOwnershipLimits 10 1000)] (rd_step register_op (rd_run stored rd_empty))).(rw_disk) in
  exists c, read reader AuthorityStore_default 2 handle context session reference 0 d = (Ok c, d) /\ blen c.(ac_bytes) = 2.
Proof.
  assert (Hauth : authenticated_for AuthorityStore_default handle context ArtifactRead 2 = true) by by_eval.
  destruct (registered_artifact_reads_back stored reader AuthorityStore_default owners 1 handle context session record reference
              [RoNew (MkArtifactOwnershipLimits 10 1000)] AuthorityStore_default 2 handle context 0 registered Hauth eq_refl eq_refl)
    as (c & Hr & _ & Hl).
  exact (ex_intro _ c (conj Hr Hl)).
Defined.

Lemma read_it :
  (read reader AuthorityStore_default 2 handle context session reference 0 (rd_run (stored ++ [register_op]) rd_empty).(rw_disk)).1 =
  Ok (MkArtifactContent "text/plain" content).
Proof. by_eval. Qed.

Lemma artifact_is_read_by_its_owner_witness : (principal, session, id) ∈ (rd_run (stored ++ [register_op]) rd_empty).(rw_grants).
Proof.
  pose proof (pair_fst _ _ read_it) as E.
  exact (proj1 (proj2 (artifact_is_read_by_its_owner (stored ++ [register_op]) reader AuthorityStore_default 2 handle context session reference 0 _ _ E))).
Defined.

(** A record whose reading fails once while the records are looked through is put aside, and its
    artifact can no longer be read. *)
Definition one_failure : ReaderWorld :=
  rd_run (stored ++ [register_op; RoStore (OpFaults (repeat IoOk 8 ++ [IoFails "busy"])); RoNew (MkArtifactOwnershipLimits 10 1000); RoStore (OpFaults [])]) rd_empty.

Lemma unreadable_record_is_put_aside :
  is_ok (read reader AuthorityStore_default 2 handle context session reference 0 one_failure.(rw_disk)).1 = false.
Proof. by_eval. Qed.
End SampleReader.
