(* ===== verification/ContextStore.v ===== *)
(** * The context store

    [crates/context-store/src/lib.rs] and [limits.rs]: what was learned about the forms of a
    site, one file per site, with a bounded cache of sites in memory.  Changes are buffered as
    dirty sites until they are flushed; a clean site may be evicted; records that were not
    verified for too long are pruned when they are read and by a sweep.

    Every operation that changes the cache holds the lock [flushing] and is one step.  A file
    is known by the site key its name encodes.  Any call of the file system may fail; the
    faults to come are part of the state.  A directory is listed at once.  How many bytes a value occupies in memory is a
    parameter.  The lock file, log lines and reports are left out. *)

From S2P Require Import Prelude Ledger.
From Stdlib Require Import Ascii.

(** ** What is remembered *)

Inductive RecordSource := Observed | VisionPromoted.

Record IntentStats := MkIntentStats {
  is_success_count : Z;
  is_failure_count : Z;
  is_last_verified_day : option Z;
  is_source : option RecordSource;
}.

Record ControlContext := MkControlContext {
  cc_role : string;
  cc_accessible_name : string;
  cc_ordinal : option Z;
  cc_form_membership : string;
  cc_intents : gmap string IntentStats;
}.
#[export] Instance eta_ControlContext : Eta ControlContext := fun c =>
  MkControlContext (cc_role c) (cc_accessible_name c) (cc_ordinal c) (cc_form_membership c) (cc_intents c).

Record LabelContext := MkLabelContext {
  lc_role : string;
  lc_accessible_name : string;
  lc_ordinal : option Z;
  lc_stats : IntentStats;
}.

(** A form is the list of its controls. *)
Record FormContext := MkFormContext { fc_controls : list ControlContext }.

Record PageContext := MkPageContext {
  pc_forms : gmap string FormContext;
  pc_labels : gmap string LabelContext;
}.

Record ChallengeStats := MkChallengeStats {
  ch_success_count : Z;
  ch_failure_count : Z;
  ch_last_verified_day : option Z;
}.

Record SiteContext := MkSiteContext {
  sc_pages : gmap string PageContext;
  sc_challenges : gmap string ChallengeStats;
}.

Definition SiteContext_default : SiteContext := MkSiteContext ∅ ∅.

Definition SCHEMA_VERSION : Z := 1.
Definition MAX_LABEL_BYTES : Z := 128.

(** Days since the epoch, from seconds. *)
Definition day_since_epoch (timestamp : Z) : Z := (Z.max timestamp 0 / 86400) mod 2 ^ 32.

(** [LabelContext::trusted]. *)
Definition trusted (l : LabelContext) : bool :=
  match l.(lc_stats).(is_last_verified_day) with
  | Some _ => l.(lc_stats).(is_failure_count) <? l.(lc_stats).(is_success_count)
  | None => false
  end.

(** ** Retention *)

Definition retained (cutoff : Z) (stats : IntentStats) : bool :=
  match stats.(is_last_verified_day) with Some day => cutoff <=? day | None => false end.

Definition has_retained_context (site : SiteContext) (cutoff : Z) : bool :=
  negb (bool_decide (site.(sc_challenges) = ∅))
  || existsb (fun page =>
       existsb (fun label => retained cutoff label.(lc_stats)) (map_to_list page.(pc_labels)).*2
       || existsb (fun form =>
            existsb (fun control => existsb (retained cutoff) (map_to_list control.(cc_intents)).*2) form.(fc_controls))
            (map_to_list page.(pc_forms)).*2)
     (map_to_list site.(sc_pages)).*2.

(** A part that is left empty goes away. *)
Definition prune_control (cutoff : Z) (c : ControlContext) : option ControlContext :=
  let intents := filter (fun ks => retained cutoff ks.2 = true) c.(cc_intents) in
  if bool_decide (intents = ∅) then None else Some (c <| cc_intents := intents |>).

Definition prune_form (cutoff : Z) (f : FormContext) : option FormContext :=
  match omap (prune_control cutoff) f.(fc_controls) with [] => None | controls => Some (MkFormContext controls) end.

Definition prune_page (cutoff : Z) (p : PageContext) : option PageContext :=
  let forms := omap (prune_form cutoff) p.(pc_forms) in
  let labels := filter (fun kl => retained cutoff kl.2.(lc_stats) = true) p.(pc_labels) in
  if bool_decide (forms = ∅) && bool_decide (labels = ∅) then None else Some (MkPageContext forms labels).

Definition prune (cutoff : Z) (site : SiteContext) : SiteContext :=
  MkSiteContext (omap (prune_page cutoff) site.(sc_pages)) site.(sc_challenges).

Fixpoint sum_of {A} (f : A -> Z) (l : list A) : Z := match l with [] => 0 | x :: l => f x + sum_of f l end.

Definition expired (cutoff : Z) (stats : IntentStats) : Z := if retained cutoff stats then 0 else 1.

(** How many records pruning drops. *)
Definition expired_in (cutoff : Z) (site : SiteContext) : Z :=
  sum_of (fun page =>
    sum_of (fun form => sum_of (fun c => sum_of (expired cutoff) (map_to_list c.(cc_intents)).*2) form.(fc_controls)) (map_to_list page.(pc_forms)).*2
    + sum_of (fun label => expired cutoff label.(lc_stats)) (map_to_list page.(pc_labels)).*2)
  (map_to_list site.(sc_pages)).*2.

(** The pruned site, how many records were dropped, and whether anything changed. *)
Definition prune_site (site : SiteContext) (cutoff : Z) : SiteContext * Z * bool :=
  let pruned := prune cutoff site in
  let dropped := expired_in cutoff site in
  (pruned, dropped, negb (dropped =? 0) || negb (bool_decide (size site.(sc_pages) = size pruned.(sc_pages)))).

Definition is_empty (site : SiteContext) : bool := bool_decide (site.(sc_pages) = ∅) && bool_decide (site.(sc_challenges) = ∅).

(** ** Limits *)

Record ContextLimits := MkContextLimits {
  cl_max_file_bytes : Z;
  cl_max_site_records : Z;
  cl_max_resident_sites : Z;
  cl_max_resident_bytes : Z;
}.

Definition ContextLimits_default : ContextLimits := MkContextLimits (2 * 1024 * 1024) 16384 256 (64 * 1024 * 1024).

Definition limits_validate (l : ContextLimits) : bool :=
  negb ((l.(cl_max_file_bytes) =? 0) || (l.(cl_max_site_records) =? 0) || (l.(cl_max_resident_sites) =? 0) || (l.(cl_max_resident_bytes) =? 0)).

Definition page_records (page : PageContext) : Z :=
  Z.of_nat (size page.(pc_forms)) + Z.of_nat (size page.(pc_labels))
  + sum_of (fun form => Z.of_nat (length form.(fc_controls)) + sum_of (fun c => Z.of_nat (size c.(cc_intents))) form.(fc_controls))
      (map_to_list page.(pc_forms)).*2.

(** [check_site]; no site has enough records for the sums to saturate. *)
Definition check_site (l : ContextLimits) (site : SiteContext) : result unit string :=
  refuse_if (existsb (fun page => existsb (fun key => MAX_LABEL_BYTES <? slen key) (map_to_list page.(pc_labels)).*1) (map_to_list site.(sc_pages)).*2)
    "context label exceeds byte limit" ;?
  refuse_if (l.(cl_max_site_records) <?
             Z.of_nat (size site.(sc_pages)) + Z.of_nat (size site.(sc_challenges)) + sum_of page_records (map_to_list site.(sc_pages)).*2)
    "context site exceeds structural record limit".

(** JSON of a site's file: the schema, the site key and the site. *)
Class SiteCodec := {
  envelope_bytes : Z -> string -> SiteContext -> bytes;
  envelope_of_bytes : bytes -> option (Z * string * SiteContext);
}.

(** Bytes in memory: of a site, of an entry of the cache, of an entry of the dirty map. *)
Class SiteSizes := {
  site_bytes : SiteContext -> Z;
  site_node : Z;
  dirty_node : Z;
}.

Section Store.
Context `{SiteCodec, SiteSizes}.

Definition check_envelope (l : ContextLimits) (key : string) (site : SiteContext) : result unit string :=
  check_site l site ;?
  refuse_if (l.(cl_max_file_bytes) <? blen (envelope_bytes SCHEMA_VERSION key site)) "context site exceeds file byte limit".

(** ** The cache *)

Record CachedSite := MkCachedSite {
  cs_site : SiteContext;
  cs_bytes : Z;
  cs_last_used : Z;
}.

Definition CachedSite_new (key : string) (site : SiteContext) : CachedSite :=
  MkCachedSite site (saturating_add (saturating_add (site_bytes site) (slen key)) site_node) 0.

(** A file that is not regular is never read. *)
Inductive CtxFile := RegularSite (b : bytes) | SpecialSite.

Record ContextStore := MkContextStore {
  cx_limits : ContextLimits;
  cx_files : gmap string CtxFile;
  cx_faults : list Fault;
  cx_sites : gmap string CachedSite;
  cx_dirty : gmap string Z;
  cx_revision : Z;
  cx_evictions : Z;
  cx_rejected_updates : Z;
  cx_clock : Z;
  cx_retention_cutoff : option Z;
}.
#[export] Instance eta_ContextStore : Eta ContextStore := fun s =>
  MkContextStore (cx_limits s) (cx_files s) (cx_faults s) (cx_sites s) (cx_dirty s) (cx_revision s) (cx_evictions s)
    (cx_rejected_updates s) (cx_clock s) (cx_retention_cutoff s).

(** [StoreState::bytes]. *)
Definition state_bytes (s : ContextStore) : Z :=
  saturating_add
    (fold_left saturating_add (cs_bytes <$> (map_to_list s.(cx_sites)).*2) (Z.min (Z.of_nat (size s.(cx_dirty)) * dirty_node) u64_max))
    (fold_left saturating_add (slen <$> (map_to_list s.(cx_dirty)).*1) 0).

Definition resident_count (key : string) (s : ContextStore) : Z :=
  Z.of_nat (size s.(cx_sites))
  + Z.of_nat (length (List.filter (fun k => bool_decide (s.(cx_sites) !! k = None)) (map_to_list s.(cx_dirty)).*1))
  + (if bool_decide (s.(cx_sites) !! key = None) && bool_decide (s.(cx_dirty) !! key = None) then 1 else 0).

Definition wanted_bytes (key : string) (bytes_ : Z) (dirty : bool) (s : ContextStore) : Z :=
  let old := match s.(cx_sites) !! key with Some c => c.(cs_bytes) | None => 0 end in
  let extra := if dirty && bool_decide (s.(cx_dirty) !! key = None) then saturating_add dirty_node (slen key) else 0 in
  saturating_add (saturating_add (saturating_sub (state_bytes s) old) bytes_) extra.

Definition fits (key : string) (bytes_ : Z) (dirty : bool) (s : ContextStore) : bool :=
  (wanted_bytes key bytes_ dirty s <=? s.(cx_limits).(cl_max_resident_bytes))
  && (resident_count key s <=? s.(cx_limits).(cl_max_resident_sites)).

(** [min_by_key]: the first of the least. *)
Fixpoint least {A} (f : A -> Z) (l : list A) : option A :=
  match l with
  | [] => None
  | x :: l => match least f l with
              | Some y => if f y <? f x then Some y else Some x
              | None => Some x
              end
  end.

Definition victim (key : string) (s : ContextStore) : option string :=
  fst <$> least (fun kc => kc.2.(cs_last_used))
            (List.filter (fun kc => negb (bool_decide (kc.1 = key)) && bool_decide (s.(cx_dirty) !! kc.1 = None)) (btree_entries s.(cx_sites))).

(** Every turn evicts a site, so the number of sites bounds the turns. *)
Fixpoint make_room_loop (fuel : nat) (key : string) (bytes_ : Z) (dirty : bool) (s : ContextStore) : bool * ContextStore :=
  if fits key bytes_ dirty s then (true, s)
  else match fuel, victim key s with
       | S fuel, Some v =>
           make_room_loop fuel key bytes_ dirty
             (s <| cx_sites := delete v s.(cx_sites) |> <| cx_evictions := saturating_add s.(cx_evictions) 1 |>)
       | _, _ => (false, s)
       end.

Definition make_room (key : string) (bytes_ : Z) (dirty : bool) (s : ContextStore) : bool * ContextStore :=
  make_room_loop (size s.(cx_sites)) key bytes_ dirty s.

(** [StoreState::insert], [get] and [mark_dirty]. *)
Definition state_insert (key : string) (entry : CachedSite) (s : ContextStore) : ContextStore :=
  let clock := wrapping_add s.(cx_clock) 1 in
  s <| cx_clock := clock |>
    <| cx_sites := <[key := MkCachedSite entry.(cs_site) entry.(cs_bytes) clock]> s.(cx_sites) |>.

(** What retention leaves visible of a site. *)
Definition visible (cutoff : option Z) (site : SiteContext) : option SiteContext :=
  match cutoff with
  | None => Some site
  | Some c => let site := prune c site in if is_empty site then None else Some site
  end.

Definition state_get (key : string) (s : ContextStore) : option SiteContext * ContextStore :=
  let clock := wrapping_add s.(cx_clock) 1 in
  let s := s <| cx_clock := clock |> in
  match s.(cx_sites) !! key with
  | None => (None, s)
  | Some entry =>
      (visible s.(cx_retention_cutoff) entry.(cs_site),
       s <| cx_sites := <[key := MkCachedSite entry.(cs_site) entry.(cs_bytes) clock]> s.(cx_sites) |>)
  end.

Definition mark_dirty (key : string) (s : ContextStore) : ContextStore :=
  let revision := wrapping_add s.(cx_revision) 1 in
  s <| cx_revision := revision |> <| cx_dirty := <[key := revision]> s.(cx_dirty) |>.

(** ** Files *)

Inductive ContextStoreError :=
| CxIo (error : IoError)
| CxSerialization (error : string)
| AlreadyLocked
| LockUnusable (reason : string)
| CxResourceLimit (reason : string)
| CxUnsupportedSchema (actual expected : Z).

Definition CxIO (A : Type) : Type := ST ContextStore ContextStoreError A.

Definition cx_fault : CxIO Fault :=
  fun s => match s.(cx_faults) with
           | [] => (Ok IoOk, s)
           | f :: fs => (Ok f, s <| cx_faults := fs |>)
           end.

Definition cx_call : CxIO unit :=
  do f <- cx_fault;
  match f with IoOk => sret tt | IoFails m | IoPartial _ m => sfail (CxIo (DeviceError m)) end.

Definition cx_try {A} (m : CxIO A) : CxIO (result A ContextStoreError) := fun s =>
  let '(r, s') := m s in (Ok r, s').

(** [decode_envelope] of a file named for [key]. *)
Definition decode_envelope (l : ContextLimits) (key : string) (b : bytes) : option SiteContext :=
  match envelope_of_bytes b with
  | Some (schema, site_key, site) =>
      if (schema =? SCHEMA_VERSION) && is_ok (check_site l site) && bool_decide (site_key = key) then Some site else None
  | None => None
  end.

(** What a file says, if it can be read. *)
Definition file_site (l : ContextLimits) (key : string) (f : CtxFile) : option SiteContext :=
  match f with
  | RegularSite b => if l.(cl_max_file_bytes) <? blen b then None else decode_envelope l key b
  | SpecialSite => None
  end.

Definition load_envelope (key : string) : CxIO SiteContext :=
  cx_call ;;
  do s <- sget;
  match s.(cx_files) !! key with
  | None => sfail (CxIo (DeviceError "no such file"))
  | Some f =>
      cx_call ;; cx_call ;;
      slift (ok_or (file_site s.(cx_limits) key f) (CxIo (DataError "context site cannot be loaded")))
  end.

(** [durable_file::replace_exclusive]: the temporary file, then the rename and the directory. *)
Definition write_site (key : string) (site : SiteContext) : CxIO unit :=
  do s <- sget;
  slift (map_err (fun _ => CxResourceLimit "site file or structure limit") (check_envelope s.(cx_limits) key site)) ;;
  cx_call ;; cx_call ;; cx_call ;; cx_call ;;
  smodify (fun s => s <| cx_files := <[key := RegularSite (envelope_bytes SCHEMA_VERSION key site)]> s.(cx_files) |>) ;;
  cx_call ;; cx_call.

Definition remove_site_file (key : string) : CxIO unit :=
  cx_call ;;
  smodify (fun s => s <| cx_files := delete key s.(cx_files) |>) ;;
  cx_call ;; cx_call.

(** ** Flushing *)

(** The change is no longer pending, unless there is a newer one. *)
Definition settle (key : string) (revision : Z) (s : ContextStore) : ContextStore :=
  if bool_decide (s.(cx_dirty) !! key = Some revision) then s <| cx_dirty := delete key s.(cx_dirty) |> else s.

Definition flush_key (key : string) : CxIO bool :=
  do s <- sget;
  match s.(cx_dirty) !! key with
  | None => sret true
  | Some revision =>
      do r <- cx_try (match s.(cx_sites) !! key with
                      | Some entry => write_site key entry.(cs_site)
                      | None => remove_site_file key
                      end);
      match r with
      | Ok _ => smodify (settle key revision) ;; sret true
      | Err _ => sret false
      end
  end.

(** The keys that failed. *)
Fixpoint flush_keys (keys : list string) : CxIO (list string) :=
  match keys with
  | [] => sret []
  | key :: keys => do ok <- flush_key key; do failed <- flush_keys keys; sret (if ok : bool then failed else key :: failed)
  end.

Definition flush_locked : CxIO (list string) := do s <- sget; flush_keys (map_to_list s.(cx_dirty)).*1.

(** ** Operations *)

(** [site]; what is looked up before the lock is taken is looked up again under it. *)
Definition site (key : string) : CxIO (option SiteContext) := fun s =>
  match state_get key s with
  | (Some found, s) => (Ok (Some found), s)
  | (None, s) =>
      match s.(cx_dirty) !! key with
      | Some _ => (Ok None, s)
      | None =>
          match load_envelope key s with
          | (Err _, s) => (Ok None, s)
          | (Ok loaded, s) =>
              match visible s.(cx_retention_cutoff) loaded with
              | None => (Ok None, s)
              | Some seen =>
                  let entry := CachedSite_new key seen in
                  let '(room, s) := make_room key entry.(cs_bytes) false s in
                  (Ok (Some seen), if room : bool then state_insert key entry s else s)
              end
          end
      end
  end.

Definition reject_update : CxIO bool :=
  smodify (fun s => s <| cx_rejected_updates := saturating_add s.(cx_rejected_updates) 1 |>) ;; sret false.

(** What an update starts from. *)
Definition update_base (key : string) : CxIO (option SiteContext) := fun s =>
  let dirty := s.(cx_dirty) !! key in
  match state_get key s with
  | (Some found, s) => (Ok (Some found), s)
  | (None, s) =>
      match dirty with
      | Some _ => (Ok (Some SiteContext_default), s)
      | None =>
          match cx_call s with
          | (Err _, s) => (Ok None, s)
          | (Ok _, s) =>
              match s.(cx_files) !! key with
              | None => (Ok (Some SiteContext_default), s)
              | Some _ =>
                  match load_envelope key s with
                  | (Ok loaded, s) => (Ok (Some loaded), s)
                  | (Err _, s) => (Ok None, s)
                  end
              end
          end
      end
  end.

(** Room for a dirty site: by eviction, or after writing what is dirty. *)
Definition find_room (key : string) (bytes_ : Z) : CxIO bool := fun s =>
  match make_room key bytes_ true s with
  | (true, s) => (Ok true, s)
  | (false, s) => let '(_, s) := flush_locked s in let '(room, s) := make_room key bytes_ true s in (Ok room, s)
  end.

(** [update_site]; whether the update was taken is for the statements only. *)
Definition update_site (key : string) (update : SiteContext -> SiteContext) : CxIO bool :=
  do base <- update_base key;
  match base with
  | None => reject_update
  | Some base =>
      do s <- sget;
      let new := update (match s.(cx_retention_cutoff) with Some c => prune c base | None => base end) in
      if negb (is_ok (check_envelope s.(cx_limits) key new)) then reject_update else
      let entry := CachedSite_new key new in
      if s.(cx_limits).(cl_max_resident_bytes) <? saturating_add (saturating_add entry.(cs_bytes) dirty_node) (slen key) then reject_update else
      do room <- find_room key entry.(cs_bytes);
      if room : bool then smodify (fun s => mark_dirty key (state_insert key entry s)) ;; sret true else reject_update
  end.

Definition upsert_site (key : string) (site : SiteContext) : CxIO bool := update_site key (fun _ => site).

Definition count_challenge (kind : string) (success : bool) (today : Z) (site : SiteContext) : SiteContext :=
  let stats := default (MkChallengeStats 0 0 None) (site.(sc_challenges) !! kind) in
  let stats := if success
               then MkChallengeStats (saturating_add stats.(ch_success_count) 1) stats.(ch_failure_count) (Some today)
               else MkChallengeStats stats.(ch_success_count) (saturating_add stats.(ch_failure_count) 1) stats.(ch_last_verified_day) in
  MkSiteContext site.(sc_pages) (<[kind := stats]> site.(sc_challenges)).

Definition record_challenge (key kind : string) (success : bool) (today : Z) : CxIO bool :=
  update_site key (count_challenge kind success today).

(** [max_by_key]: the last of the greatest. *)
Fixpoint greatest {A} (f : A -> Z) (best : option A) (l : list A) : option A :=
  match l with
  | [] => best
  | x :: l => greatest f (match best with Some b => if f x <? f b then Some b else Some x | None => Some x end) l
  end.

Definition challenge_prior (key : string) : CxIO (option (string * ChallengeStats)) :=
  do found <- site key;
  sret (match found with
        | None => None
        | Some found => greatest (fun ks => ks.2.(ch_success_count) + ks.2.(ch_failure_count)) None (btree_entries found.(sc_challenges))
        end).

Definition forget (key : string) : CxIO unit :=
  cx_call ;;
  do s <- sget;
  match s.(cx_files) !! key with
  | None => smodify (fun s => s <| cx_sites := delete key s.(cx_sites) |> <| cx_dirty := delete key s.(cx_dirty) |>)
  | Some _ =>
      do room <- find_room key 0;
      if room : bool then
        smodify (fun s => mark_dirty key (s <| cx_sites := delete key s.(cx_sites) |>)) ;;
        do s <- sget;
        remove_site_file key ;;
        smodify (settle key s.(cx_revision))
      else sfail (CxResourceLimit "cannot buffer erasure; dirty updates preserved")
  end.

(** ** The sweep *)

(** A site in memory. *)
Definition sweep_resident (cutoff : Z) (key : string) : CxIO Z :=
  do s <- sget;
  match s.(cx_sites) !! key with
  | None => sret 0
  | Some entry =>
      let '(site, removed, changed) := prune_site entry.(cs_site) cutoff in
      if negb changed && negb (is_empty site) && bool_decide (s.(cx_dirty) !! key = None) then sret removed
      else if is_empty site then
        remove_site_file key ;;
        smodify (fun s => s <| cx_sites := delete key s.(cx_sites) |> <| cx_dirty := delete key s.(cx_dirty) |>) ;;
        sret removed
      else
        write_site key site ;;
        let entry := CachedSite_new key site in
        smodify (fun s =>
          let s := s <| cx_dirty := delete key s.(cx_dirty) |> in
          let '(room, s) := make_room key entry.(cs_bytes) false s in
          if room : bool then state_insert key entry s else s <| cx_sites := delete key s.(cx_sites) |>) ;;
        sret removed
  end.

(** A file whose site is not in memory. *)
Definition sweep_file (cutoff : Z) (key : string) : CxIO Z :=
  cx_call ;;
  do r <- cx_try (load_envelope key);
  match r with
  | Err _ => sret 0
  | Ok loaded =>
      do s <- sget;
      match s.(cx_sites) !! key with
      | Some _ => sret 0
      | None =>
          let '(site, removed, changed) := prune_site loaded cutoff in
          if is_empty site then remove_site_file key ;; sret removed
          else if changed : bool then write_site key site ;; sret removed else sret removed
      end
  end.

Fixpoint sweep_each (f : string -> CxIO Z) (keys : list string) : CxIO Z :=
  match keys with
  | [] => sret 0
  | key :: keys => do n <- f key; do m <- sweep_each f keys; sret (n + m)
  end.

Definition sweep (ttl_days today : Z) : CxIO Z :=
  let cutoff := saturating_sub today ttl_days in
  smodify (fun s => s <| cx_retention_cutoff := Some cutoff |>) ;;
  do s <- sget;
  do n <- sweep_each (sweep_resident cutoff) (map_to_list s.(cx_sites)).*1;
  cx_call ;;
  do s <- sget;
  do m <- sweep_each (sweep_file cutoff) (map_to_list s.(cx_files)).*1;
  do failed <- flush_locked;
  match failed with
  | [] => sret (n + m)
  | key :: _ => sfail (CxIo (DataError ("retention persistence failed for " +:+ key)))
  end.

(** ** Opening and listing *)

Definition open_file_into (key : string) : CxIO unit :=
  cx_call ;;
  do r <- cx_try (load_envelope key);
  match r with
  | Err _ => sret tt
  | Ok site =>
      smodify (fun s =>
        let entry := CachedSite_new key site in
        let '(room, s) := make_room key entry.(cs_bytes) false s in
        if room : bool then state_insert key entry s else s)
  end.

Fixpoint open_files (keys : list string) : CxIO unit :=
  match keys with [] => sret tt | key :: keys => open_file_into key ;; open_files keys end.

Definition open_with_limits (limits : ContextLimits) (files : gmap string CtxFile) (faults : list Fault) : result ContextStore ContextStoreError :=
  if negb (limits_validate limits) then Err (CxResourceLimit "context limits must be positive")
  else match (cx_call ;; cx_call ;; open_files (map_to_list files).*1) (MkContextStore limits files faults ∅ ∅ 0 0 0 0 None) with
       | (Ok _, s) => Ok s
       | (Err e, _) => Err e
       end.

(** [open_with_limits_and_ttl]. *)
Definition open_with_limits_and_ttl (limits : ContextLimits) (files : gmap string CtxFile) (faults : list Fault) (ttl_days today : Z) :
  result ContextStore ContextStoreError :=
  let? store := open_with_limits limits files faults in
  match sweep ttl_days today store with
  | (Ok _, store) => Ok store
  | (Err e, _) => Err e
  end.

Record ContextUsage := MkContextUsage {
  cu_resident_sites : Z;
  cu_resident_bytes : Z;
  cu_pending_changes : Z;
  cu_evictions : Z;
  cu_rejected_updates : Z;
}.

Definition usage (s : ContextStore) : ContextUsage :=
  MkContextUsage (Z.of_nat (size s.(cx_sites))) (state_bytes s) (Z.of_nat (size s.(cx_dirty))) s.(cx_evictions) s.(cx_rejected_updates).

(** Keys of the files that are not superseded, and of what is in memory. *)
Fixpoint list_files (keys : list string) : CxIO (gset string) :=
  match keys with
  | [] => sret ∅
  | key :: keys =>
      do entry <- cx_try cx_call;
      if negb (is_ok entry) then sret ∅ else
      do r <- cx_try (load_envelope key);
      do s <- sget;
      do rest <- list_files keys;
      sret (match r with
            | Ok site =>
                if match s.(cx_retention_cutoff) with Some c => negb (has_retained_context site c) | None => false end
                then rest else {[key]} ∪ rest
            | Err _ => rest
            end)
  end.

Definition list_directory : CxIO (gset string) :=
  do opened <- cx_try cx_call;
  do s <- sget;
  if is_ok opened then list_files (map_to_list s.(cx_files)).*1 else sret ∅.

Definition list_sites : CxIO (gset string) :=
  do found <- list_directory;
  do s <- sget;
  sret ((found ∖ dom s.(cx_dirty))
        ∪ dom (filter (fun kc => match s.(cx_retention_cutoff) with
                                 | Some c => has_retained_context kc.2.(cs_site) c
                                 | None => true
                                 end = true) s.(cx_sites))).
End Store.
