(* ===== verification/ContextView.v ===== *)
(** * What a site looks like

    Pruning is idempotent and agrees with the test that decides which sites are listed.  The
    view of a site is what is retained of it, wherever it is kept; filling and emptying the
    cache leaves every view as it is. *)

From S2P Require Import Prelude Ledger ContextStore.
From Stdlib Require Import Ascii.

(** ** Pruning *)

Lemma retained_later c1 c2 stats : c1 <= c2 -> retained c2 stats = true -> retained c1 stats = true.
Proof. unfold retained. case_match; [|done]. rewrite !Z.leb_le. lia. Qed.

Lemma filter_later {V} (P : V -> IntentStats) c1 c2 (m : gmap string V) :
  c1 <= c2 ->
  filter (fun kv => retained c2 (P kv.2) = true) (filter (fun kv => retained c1 (P kv.2) = true) m)
  = filter (fun kv => retained c2 (P kv.2) = true) m.
Proof.
  intros Hc. apply map_eq. intros k. apply option_eq. intros v. rewrite !map_lookup_filter_Some. cbn.
  pose proof (retained_later c1 c2 (P v) Hc). naive_solver.
Qed.

Lemma list_omap_later {A} (f g : A -> option A) (l : list A) :
  (forall x, g x = f x ≫= g) -> omap g (omap f l) = omap g l.
Proof.
  intros Hfg. induction l as [|x l IH]; [done|]. cbn. rewrite (Hfg x).
  destruct (f x) as [y|]; cbn; [|done]. by rewrite IH.
Qed.

Lemma map_omap_later {A} (f g : A -> option A) (m : gmap string A) :
  (forall x, g x = f x ≫= g) -> omap g (omap f m) = omap g m.
Proof.
  intros Hfg. apply map_eq. intros k. rewrite !lookup_omap. destruct (m !! k) as [x|]; [|done]. cbn. by rewrite (Hfg x).
Qed.

Lemma prune_control_later c1 c2 c : c1 <= c2 -> prune_control c2 c = prune_control c1 c ≫= prune_control c2.
Proof.
  intros Hc. unfold prune_control. pose proof (filter_later id c1 c2 (cc_intents c) Hc) as Hf. unfold id in Hf. cbn in Hf.
  case_bool_decide as E2; case_bool_decide as E1; cbn; try done.
  - rewrite Hf. by rewrite bool_decide_eq_true_2.
  - by rewrite E1, map_filter_empty in Hf.
  - rewrite Hf. by rewrite bool_decide_eq_false_2.
Qed.

Lemma prune_form_later c1 c2 f : c1 <= c2 -> prune_form c2 f = prune_form c1 f ≫= prune_form c2.
Proof.
  intros Hc. unfold prune_form.
  pose proof (list_omap_later (prune_control c1) (prune_control c2) (fc_controls f) (fun c => prune_control_later c1 c2 c Hc)) as Hl.
  rewrite <- Hl. by destruct (omap (prune_control c1) (fc_controls f)).
Qed.

Lemma prune_page_later c1 c2 p : c1 <= c2 -> prune_page c2 p = prune_page c1 p ≫= prune_page c2.
Proof.
  intros Hc. unfold prune_page.
  pose proof (map_omap_later (prune_form c1) (prune_form c2) (pc_forms p) (fun f => prune_form_later c1 c2 f Hc)) as Hm.
  pose proof (filter_later lc_stats c1 c2 (pc_labels p) Hc) as Hf. rewrite <- Hm, <- Hf.
  destruct (bool_decide (omap (prune_form c1) (pc_forms p) = ∅) && _) eqn:E; [|done].
  apply andb_true_iff in E as [E1%bool_decide_eq_true E2%bool_decide_eq_true]. rewrite E1, E2, map_filter_empty, omap_empty.
  by rewrite bool_decide_eq_true_2.
Qed.

(** Pruning twice is pruning at the later day. *)
Lemma prune_later c1 c2 site : c1 <= c2 -> prune c2 (prune c1 site) = prune c2 site.
Proof. intros Hc. unfold prune. cbn. by rewrite (map_omap_later _ _ _ (fun p => prune_page_later c1 c2 p Hc)). Qed.

Lemma prune_default c : prune c SiteContext_default = SiteContext_default.
Proof. unfold prune. cbn. by rewrite omap_empty. Qed.

Lemma is_empty_default site : is_empty site = true -> site = SiteContext_default.
Proof. unfold is_empty. rewrite andb_true_iff, !bool_decide_eq_true. by destruct site; cbn; intros [-> ->]. Qed.

(** ** The test for retained context *)

Lemma existsb_values {V} (P : V -> bool) (m : gmap string V) :
  existsb P (map_to_list m).*2 = true <-> exists k v, m !! k = Some v /\ P v = true.
Proof.
  rewrite existsb_exists. split.
  - intros (v & Hv & Hp). apply list_elem_of_In, list_elem_of_fmap in Hv as ([k w] & -> & Hk). apply elem_of_map_to_list in Hk. eauto.
  - intros (k & v & Hk & Hp). exists v. split; [|done]. apply list_elem_of_In, list_elem_of_fmap. exists (k, v).
    split; [done|]. by apply elem_of_map_to_list.
Qed.

Lemma map_nonempty {V} (m : gmap string V) : m <> ∅ <-> exists k v, m !! k = Some v.
Proof.
  split; [intros (k & v & Hk)%map_choose; eauto|]. intros (k & v & Hk) ->. by rewrite lookup_empty in Hk.
Qed.

Lemma map_omap_nonempty {A B} (f : A -> option B) (m : gmap string A) :
  omap f m <> ∅ <-> exists k v, m !! k = Some v /\ is_Some (f v).
Proof.
  rewrite map_nonempty. setoid_rewrite lookup_omap_Some. unfold is_Some. naive_solver.
Qed.

Lemma map_filter_nonempty {V} (P : string * V -> Prop) `{forall x, Decision (P x)} (m : gmap string V) :
  filter P m <> ∅ <-> exists k v, m !! k = Some v /\ P (k, v).
Proof. rewrite map_nonempty. setoid_rewrite map_lookup_filter_Some. naive_solver. Qed.

Lemma list_omap_nonempty {A B} (f : A -> option B) (l : list A) : omap f l <> [] <-> exists x, In x l /\ is_Some (f x).
Proof.
  induction l as [|x l IH]; cbn; [naive_solver|]. destruct (f x) eqn:E; cbn.
  - split; [|done]. exists x. rewrite E. eauto.
  - rewrite IH. split; intros (y & Hy & Hs); [eauto|]. destruct Hy as [<- | Hy]; [by rewrite E in Hs; destruct Hs|eauto].
Qed.

Lemma prune_control_some c k : is_Some (prune_control c k) <-> existsb (retained c) (map_to_list k.(cc_intents)).*2 = true.
Proof.
  rewrite existsb_values. unfold prune_control. case_bool_decide as E.
  - split; [by intros []|]. intros Hx. exfalso. revert E. apply map_filter_nonempty. naive_solver.
  - split; [|done]. intros _. apply map_filter_nonempty in E. naive_solver.
Qed.

Lemma prune_form_some c f :
  is_Some (prune_form c f) <-> existsb (fun k => existsb (retained c) (map_to_list k.(cc_intents)).*2) f.(fc_controls) = true.
Proof.
  transitivity (omap (prune_control c) (fc_controls f) <> []).
  - unfold prune_form. case_match; split; done.
  - rewrite list_omap_nonempty, existsb_exists. setoid_rewrite prune_control_some. done.
Qed.

Lemma prune_page_some c p :
  is_Some (prune_page c p) <->
  existsb (fun label => retained c label.(lc_stats)) (map_to_list p.(pc_labels)).*2
  || existsb (fun form => existsb (fun k => existsb (retained c) (map_to_list k.(cc_intents)).*2) form.(fc_controls)) (map_to_list p.(pc_forms)).*2
  = true.
Proof.
  rewrite orb_true_iff, !existsb_values. setoid_rewrite <- prune_form_some. rewrite <- map_omap_nonempty.
  rewrite <- (map_filter_nonempty (fun kl => retained c kl.2.(lc_stats) = true)). unfold prune_page.
  do 2 case_bool_decide; cbn; split; try naive_solver; by intros [].
Qed.

(** The context a site must still have to be listed is what pruning leaves of it. *)
Lemma has_retained_iff_visible site c : has_retained_context site c = bool_decide (is_Some (visible (Some c) site)).
Proof.
  apply eq_true_iff_eq. rewrite bool_decide_eq_true. unfold has_retained_context. rewrite orb_true_iff, existsb_values.
  setoid_rewrite <- prune_page_some. rewrite <- map_omap_nonempty, negb_true_iff, bool_decide_eq_false. cbn. unfold is_empty. cbn.
  do 2 case_bool_decide; cbn; split; try naive_solver; by intros [].
Qed.

Lemma visible_later c1 c2 site : c1 <= c2 -> visible (Some c1) site ≫= visible (Some c2) = visible (Some c2) site.
Proof.
  intros Hc. cbn. rewrite <- (prune_later c1 c2 site Hc). destruct (is_empty (prune c1 site)) eqn:E; cbn; [|done].
  rewrite (is_empty_default _ E), prune_default. done.
Qed.

Lemma visible_visible c site : visible c site ≫= visible c = visible c site.
Proof. destruct c as [c|]; [|done]. apply visible_later. lia. Qed.

(** A sweep never moves the cutoff back while the clock does not go back. *)
Definition cutoff_le (c : option Z) (c' : Z) : Prop := match c with Some c => c <= c' | None => True end.

Lemma visible_cutoff_le c c' site : cutoff_le c c' -> visible c site ≫= visible (Some c') = visible (Some c') site.
Proof. destruct c as [c|]; [|done]. apply visible_later. Qed.

(** ** What is stored of a site *)

Section View.
Context `{SiteCodec, SiteSizes}.

Definition file_view (s : ContextStore) (key : string) : option SiteContext :=
  (s.(cx_files) !! key ≫= file_site s.(cx_limits) key) ≫= visible s.(cx_retention_cutoff).

(** What a site looks like: from memory; if it is not there and no erasure is pending, from
    its file. *)
Definition view (s : ContextStore) (key : string) : option SiteContext :=
  match s.(cx_sites) !! key with
  | Some e => visible s.(cx_retention_cutoff) e.(cs_site)
  | None => match s.(cx_dirty) !! key with Some _ => None | None => file_view s key end
  end.

(** A clean site in memory looks like its file. *)
Definition coherent (s : ContextStore) : Prop :=
  forall key e, s.(cx_sites) !! key = Some e -> s.(cx_dirty) !! key = None ->
    visible s.(cx_retention_cutoff) e.(cs_site) = file_view s key.

(** Nothing was seen to happen. *)
Record unseen (s s' : ContextStore) : Prop := {
  un_limits : s'.(cx_limits) = s.(cx_limits);
  un_cutoff : s'.(cx_retention_cutoff) = s.(cx_retention_cutoff);
  un_coherent : coherent s';
  un_view : forall k, view s' k = view s k;
}.

Lemma unseen_refl s : coherent s -> unseen s s.
Proof. by constructor. Qed.

Lemma unseen_trans s1 s2 s3 : unseen s1 s2 -> unseen s2 s3 -> unseen s1 s3.
Proof. intros [L1 C1 _ V1] [L2 C2 Hc V2]. constructor; [congruence|congruence|done|]. intros k. by rewrite V2, V1. Qed.

Lemma file_view_same s s' k :
  s'.(cx_files) !! k = s.(cx_files) !! k -> s'.(cx_limits) = s.(cx_limits) -> s'.(cx_retention_cutoff) = s.(cx_retention_cutoff) ->
  file_view s' k = file_view s k.
Proof. unfold file_view. by intros -> -> ->. Qed.

(** Only what is kept of one site changed. *)
Definition only_at (key : string) (s s' : ContextStore) : Prop :=
  s'.(cx_limits) = s.(cx_limits) /\ s'.(cx_retention_cutoff) = s.(cx_retention_cutoff) /\
  forall k, k <> key -> s'.(cx_sites) !! k = s.(cx_sites) !! k /\ s'.(cx_dirty) !! k = s.(cx_dirty) !! k /\ s'.(cx_files) !! k = s.(cx_files) !! k.

Lemma only_at_trans key s1 s2 s3 : only_at key s1 s2 -> only_at key s2 s3 -> only_at key s1 s3.
Proof.
  intros (L1 & C1 & K1) (L2 & C2 & K2). split; [congruence|]. split; [congruence|]. intros k Hk.
  destruct (K1 k Hk) as (<- & <- & <-). by apply K2.
Qed.

Lemma only_at_view key s s' k : only_at key s s' -> k <> key -> view s' k = view s k.
Proof.
  intros (L & C & K) Hk. destruct (K k Hk) as (Es & Ed & Ef). unfold view. rewrite Es, Ed, C. by rewrite (file_view_same s s' k Ef L C).
Qed.

Lemma only_at_coherent key s s' :
  only_at key s s' -> coherent s ->
  (forall e, s'.(cx_sites) !! key = Some e -> s'.(cx_dirty) !! key = None -> visible s'.(cx_retention_cutoff) e.(cs_site) = file_view s' key) ->
  coherent s'.
Proof.
  intros (L & C & K) Hc Hkey k e. destruct (decide (k = key)) as [->|Hk]; [apply Hkey|].
  destruct (K k Hk) as (-> & -> & Ef). rewrite C, (file_view_same s s' k Ef L C). apply Hc.
Qed.

Lemma unseen_at key s s' :
  only_at key s s' -> coherent s ->
  (forall e, s'.(cx_sites) !! key = Some e -> s'.(cx_dirty) !! key = None -> visible s'.(cx_retention_cutoff) e.(cs_site) = file_view s' key) ->
  view s' key = view s key -> unseen s s'.
Proof.
  intros Ho Hc Hkey Hv. pose proof Ho as (L & C & _). constructor; [done|done|by eapply only_at_coherent|].
  intros k. destruct (decide (k = key)) as [->|Hk]; [done|by eapply only_at_view].
Qed.

Lemma unseen_same s s' :
  s'.(cx_limits) = s.(cx_limits) -> s'.(cx_retention_cutoff) = s.(cx_retention_cutoff) ->
  s'.(cx_sites) = s.(cx_sites) -> s'.(cx_dirty) = s.(cx_dirty) -> s'.(cx_files) = s.(cx_files) ->
  coherent s -> unseen s s'.
Proof.
  intros L C Es Ed Ef Hc. constructor; [done|done| |].
  - intros k e. rewrite Es, Ed, C. rewrite (file_view_same s s' k) by congruence. apply Hc.
  - intros k. unfold view. rewrite Es, Ed, C. by rewrite (file_view_same s s' k) by congruence.
Qed.

(** ** Making room *)

Lemma least_elem {A} (f : A -> Z) (l : list A) x : least f l = Some x -> In x l.
Proof.
  revert x. induction l as [|y l IH]; intros x; cbn; [done|]. destruct (least f l) as [z|]; [|naive_solver].
  case_match; intros [= <-]; eauto.
Qed.

Lemma victim_clean key s v : victim key s = Some v -> v <> key /\ s.(cx_dirty) !! v = None /\ is_Some (s.(cx_sites) !! v).
Proof.
  unfold victim. intros ([k c] & Hl & ->)%fmap_Some. apply least_elem, filter_In in Hl as [Hin Hb]. cbn in *.
  apply list_elem_of_In in Hin. rewrite btree_entries_perm in Hin. apply elem_of_map_to_list in Hin.
  apply andb_true_iff in Hb as [Hk%negb_true_iff%bool_decide_eq_false Hd%bool_decide_eq_true]. by rewrite Hin.
Qed.

Definition evict (v : string) (s : ContextStore) : ContextStore :=
  s <| cx_sites := delete v s.(cx_sites) |> <| cx_evictions := saturating_add s.(cx_evictions) 1 |>.

Lemma evict_unseen v s : coherent s -> s.(cx_dirty) !! v = None -> unseen s (evict v s).
Proof.
  intros Hc Hd. apply (unseen_at v); [|done| |].
  - split; [done|]. split; [done|]. intros k Hk. cbn. by rewrite lookup_delete_ne.
  - intros e. cbn. by rewrite lookup_delete_eq.
  - unfold view. cbn. rewrite lookup_delete_eq, Hd. destruct (s.(cx_sites) !! v) as [e|] eqn:E; [|done]. by rewrite (Hc v e).
Qed.

(** What making room for a site leaves alone. *)
Record roomed (key : string) (s s' : ContextStore) : Prop := {
  rm_unseen : unseen s s';
  rm_files : s'.(cx_files) = s.(cx_files);
  rm_dirty : s'.(cx_dirty) = s.(cx_dirty);
  rm_key : s'.(cx_sites) !! key = s.(cx_sites) !! key;
  rm_sites : s'.(cx_sites) ⊆ s.(cx_sites);
  rm_faults : s'.(cx_faults) = s.(cx_faults);
}.

Lemma make_room_loop_roomed fuel key n d s b s' : coherent s -> make_room_loop fuel key n d s = (b, s') -> roomed key s s'.
Proof.
  revert s. induction fuel as [|fuel IH]; intros s Hc; cbn.
  all: destruct (fits key n d s); [by intros [= <- <-]; constructor; auto using unseen_refl|].
  { by intros [= <- <-]; constructor; auto using unseen_refl. }
  destruct (victim key s) as [v|] eqn:Ev; [|by intros [= <- <-]; constructor; auto using unseen_refl].
  apply victim_clean in Ev as (Hk & Hd & _). fold (evict v s). intros Hr. pose proof (evict_unseen v s Hc Hd) as Hu.
  destruct (IH _ (un_coherent _ _ Hu) Hr) as [U F D K S A]. constructor; [by eapply unseen_trans|done|done| | |done].
  - rewrite K. cbn. by rewrite lookup_delete_ne.
  - etransitivity; [exact S|]. apply delete_subseteq.
Qed.

Lemma make_room_roomed key n d s b s' : coherent s -> make_room key n d s = (b, s') -> roomed key s s'.
Proof. apply make_room_loop_roomed. Qed.

Lemma make_room_fits key n d s s' : make_room key n d s = (true, s') -> fits key n d s' = true.
Proof.
  unfold make_room. generalize (size (cx_sites s)). intros fuel. revert s. induction fuel as [|fuel IH]; intros s; cbn.
  - by destruct (fits key n d s) eqn:E; intros [= <-].
  - destruct (fits key n d s) eqn:E; [by intros [= <-]|]. destruct (victim key s); [apply IH|done].
Qed.

(** A clean site that looks like its file may be cached. *)
Lemma insert_unseen key entry s :
  coherent s -> s.(cx_dirty) !! key = None -> visible s.(cx_retention_cutoff) entry.(cs_site) = file_view s key ->
  unseen s (state_insert key entry s).
Proof.
  intros Hc Hd He. apply (unseen_at key); [|done| |].
  - split; [done|]. split; [done|]. intros k Hk. cbn. by rewrite lookup_insert_ne.
  - intros e. cbn. rewrite lookup_insert_eq. by intros [= <-].
  - unfold view. cbn. rewrite lookup_insert_eq. cbn. rewrite He. destruct (s.(cx_sites) !! key) as [e|] eqn:E; [|by rewrite Hd].
    by rewrite (Hc key e).
Qed.

Lemma get_unseen key s r s' : coherent s -> state_get key s = (r, s') ->
  unseen s s' /\ s'.(cx_files) = s.(cx_files) /\ s'.(cx_dirty) = s.(cx_dirty) /\ s'.(cx_faults) = s.(cx_faults) /\
  match r with
  | Some found => view s key = Some found
  | None => s.(cx_sites) !! key = None \/ view s key = None
  end.
Proof.
  intros Hc. unfold state_get. cbn. destruct (s.(cx_sites) !! key) as [e|] eqn:E; intros [= <- <-]; cbn.
  - assert (Hv : view s key = visible s.(cx_retention_cutoff) e.(cs_site)) by (unfold view; by rewrite E).
    split; [|by repeat split; rewrite Hv; case_match; auto].
    apply (unseen_at key); [|done| |].
    + split; [done|]. split; [done|]. intros k Hk. cbn. by rewrite lookup_insert_ne.
    + intros e'. cbn. rewrite lookup_insert_eq. intros [= <-] Hd. cbn. by apply Hc.
    + rewrite Hv. unfold view. cbn. by rewrite lookup_insert_eq.
  - split; [|by auto]. by apply unseen_same.
Qed.
End View.
