(* ===== verification/ContextOps.v ===== *)
(** * The operations of the context store, as changes of what is seen

    Loading, evicting, writing and flushing leave every view as it is, whatever calls of the
    file system fail; an update, an erasure and a sweep change the views as they promise. *)

From S2P Require Import Prelude Ledger ContextStore ContextView.
From Stdlib Require Import Ascii.

(** JSON reads back what was written. *)
Class SiteCodecLaws `{SiteCodec} : Prop := {
  envelope_roundtrip schema key site : envelope_of_bytes (envelope_bytes schema key site) = Some (schema, key, site);
}.

Section Ops.
Context `{SiteCodec, SiteSizes, !SiteCodecLaws}.

(** ** Calls that only use up faults *)

Definition reads {A} (m : CxIO A) : Prop := forall s, exists fs, (m s).2 = s <| cx_faults := fs |> /\ (s.(cx_faults) = [] -> fs = []).

Lemma reads_ret {A} (a : A) : reads (sret a).
Proof. intros s. exists s.(cx_faults). by destruct s. Qed.
Lemma reads_fail {A} e : reads (sfail e : CxIO A).
Proof. intros s. exists s.(cx_faults). by destruct s. Qed.
Lemma reads_lift {A} (x : result A _) : reads (slift x).
Proof. intros s. exists s.(cx_faults). by destruct s. Qed.
Lemma reads_get : reads (sget : CxIO ContextStore).
Proof. intros s. exists s.(cx_faults). by destruct s. Qed.

Lemma reads_bind {A B} (m : CxIO A) (k : A -> CxIO B) : reads m -> (forall a, reads (k a)) -> reads (sbind m k).
Proof.
  intros Hm Hk s. unfold sbind. destruct (Hm s) as (fs & E & Hn). destruct (m s) as [[a|e] s1]; cbn in *; [|eauto].
  destruct (Hk a s1) as (fs' & E' & Hn'). exists fs'. rewrite E', E. split; [done|]. intros Hz. apply Hn'. rewrite E. cbn. auto.
Qed.

Lemma reads_fault : reads cx_fault.
Proof.
  intros s. unfold cx_fault. destruct (cx_faults s) as [|f fs] eqn:E; cbn; [exists []|exists fs; naive_solver].
  split; [|done]. rewrite <- E. by destruct s.
Qed.

Lemma reads_try {A} (m : CxIO A) : reads m -> reads (cx_try m).
Proof. intros Hm s. unfold cx_try. specialize (Hm s). by destruct (m s). Qed.

Create HintDb ctx discriminated.
#[local] Hint Resolve reads_ret reads_fail reads_lift reads_get reads_bind reads_fault reads_try : ctx.

Lemma reads_call : reads cx_call.
Proof. apply reads_bind; [auto with ctx|]. intros []; auto with ctx. Qed.
#[local] Hint Resolve reads_call : ctx.

Lemma reads_load key : reads (load_envelope key).
Proof. unfold load_envelope. apply reads_bind; [auto with ctx|]. intros _. apply reads_bind; [auto with ctx|]. intros s. case_match; auto with ctx. Qed.
#[local] Hint Resolve reads_load : ctx.

Lemma reads_run {A} (m : CxIO A) s r s' : reads m -> m s = (r, s') -> exists fs, s' = s <| cx_faults := fs |>.
Proof. intros Hm E. destruct (Hm s) as (fs & Es & _). rewrite E in Es. eauto. Qed.

Lemma reads_unseen {A} (m : CxIO A) s r s' : reads m -> coherent s -> m s = (r, s') -> unseen s s'.
Proof. intros Hm Hc E. destruct (reads_run m s r s' Hm E) as (fs & ->). by apply unseen_same. Qed.

Lemma cx_call_calm s : s.(cx_faults) = [] -> cx_call s = (Ok tt, s).
Proof. intros E. unfold cx_call, sbind, cx_fault. by rewrite E. Qed.

(** What a file says is what was read of it. *)
Lemma load_ok key s site s' : load_envelope key s = (Ok site, s') -> s.(cx_files) !! key ≫= file_site s.(cx_limits) key = Some site.
Proof.
  unfold load_envelope. intros ([] & s1 & E1 & Hr)%sbind_ok. destruct (reads_run _ _ _ _ reads_call E1) as (fs & ->).
  apply sbind_ok in Hr as (? & ? & [= <- <-] & Hr). cbn in Hr. destruct (s.(cx_files) !! key) as [f|]; [|done]. cbn.
  apply sbind_ok in Hr as ([] & s2 & _ & Hr). apply sbind_ok in Hr as ([] & s3 & _ & Hr). apply slift_ok in Hr as [Hr _].
  by apply ok_or_ok in Hr.
Qed.

Lemma load_calm key s : s.(cx_faults) = [] ->
  exists r, load_envelope key s = (r, s) /\ match r with Ok site => Some site | Err _ => None end = s.(cx_files) !! key ≫= file_site s.(cx_limits) key.
Proof.
  intros E. unfold load_envelope, sbind at 1. rewrite cx_call_calm by done. unfold sbind at 1. cbn.
  destruct (s.(cx_files) !! key) as [f|]; cbn; [|eauto]. unfold sbind. rewrite !cx_call_calm by done. unfold slift.
  destruct (file_site _ _ _); cbn; eauto.
Qed.

(** ** Writing and removing a file *)

Record rewrote (key : string) (v : option CtxFile) (s : ContextStore) (ok : bool) (s' : ContextStore) : Prop := {
  rw_only : only_at key s s';
  rw_sites : s'.(cx_sites) = s.(cx_sites);
  rw_dirty : s'.(cx_dirty) = s.(cx_dirty);
  rw_key : s'.(cx_files) !! key = s.(cx_files) !! key \/ s'.(cx_files) !! key = v;
  rw_ok : ok = true -> s'.(cx_files) !! key = v;
  rw_faults : s.(cx_faults) = [] -> s'.(cx_faults) = [];
}.

(** The whole call, whatever calls of the file system fail. *)
Definition rewriter (key : string) (v : option CtxFile) (m : CxIO unit) : Prop :=
  forall s r s', m s = (r, s') -> rewrote key v s (is_ok r) s'.

Lemma rewriter_call key v m : rewriter key v m -> rewriter key v (cx_call ;; m).
Proof.
  intros Hm s r s'. unfold sbind. destruct (reads_call s) as (fs & E & Hn). destruct (cx_call s) as [[[]|e] s1]; cbn in *; subst s1.
  - intros E2%Hm. destruct E2 as [(L & C & K) S D F O A]. constructor; try done. intros Hz. apply A. cbn. auto.
  - intros [= <- <-]. constructor; try done; by auto.
Qed.

Lemma rewriter_change key v (after : CxIO unit) (f : gmap string CtxFile -> gmap string CtxFile) :
  reads after -> (forall files, f files !! key = v) -> (forall files k, k <> key -> f files !! k = files !! k) ->
  rewriter key v (smodify (fun s => s <| cx_files := f s.(cx_files) |>) ;; after).
Proof.
  intros Ha Hv Ho s r s'. unfold sbind, smodify. intros E. destruct (Ha (s <| cx_files := f s.(cx_files) |>)) as (fs & Es & Hn).
  rewrite E in Es. cbn in Es. subst s'. constructor; cbn; auto. split; [done|]. split; [done|]. intros k Hk. cbn. by rewrite Ho.
Qed.

Lemma remove_rewrites key : rewriter key None (remove_site_file key).
Proof.
  apply rewriter_call, rewriter_change; [auto with ctx|intros; apply lookup_delete_eq|].
  intros files k Hk. by rewrite lookup_delete_ne.
Qed.

Lemma write_rewrites key site s r s' :
  write_site key site s = (r, s') ->
  let file := RegularSite (envelope_bytes SCHEMA_VERSION key site) in
  (s' = s /\ is_ok r = false) \/ (check_envelope s.(cx_limits) key site = Ok tt /\ rewrote key (Some file) s (is_ok r) s').
Proof.
  unfold write_site. unfold sbind at 1, sget at 1. unfold sbind at 1, slift at 1.
  destruct (check_envelope (cx_limits s) key site) as [[]|e]; cbn; [|by intros [= <- <-]; auto]. intros E. right. split; [done|]. revert E.
  do 4 apply rewriter_call. apply rewriter_change; [auto with ctx|intros; apply lookup_insert_eq|].
  intros files k Hk. by rewrite lookup_insert_ne.
Qed.

(** What passed the limits is read back. *)
Lemma written_reads_back l key site :
  check_envelope l key site = Ok tt -> file_site l key (RegularSite (envelope_bytes SCHEMA_VERSION key site)) = Some site.
Proof.
  unfold check_envelope. intros [Hs Hb%refuse_if_ok]%rbind_unit_ok. cbn. rewrite Hb. unfold decode_envelope.
  rewrite envelope_roundtrip, Hs. cbn. by rewrite bool_decide_eq_true_2.
Qed.

(** A file may be rewritten while its site is dirty, or as what it looks like. *)
Lemma rewrote_unseen key v s ok s' :
  coherent s -> rewrote key v s ok s' ->
  is_Some (s.(cx_dirty) !! key) \/ (v ≫= file_site s.(cx_limits) key) ≫= visible s.(cx_retention_cutoff) = view s key ->
  unseen s s'.
Proof.
  intros Hc [Ho S D F _ _] Hv. pose proof Ho as (L & C & _).
  assert (Hf : s.(cx_dirty) !! key = None -> view s key = file_view s key).
  { intros Hd. unfold view. destruct (s.(cx_sites) !! key) as [e|] eqn:E; [by apply Hc|by rewrite Hd]. }
  assert (Hf' : s.(cx_dirty) !! key = None -> file_view s' key = view s key).
  { intros Hd. destruct Hv as [[? Hv]|Hv]; [congruence|]. unfold file_view. rewrite L, C.
    destruct F as [-> | ->]; [by rewrite Hf|done]. }
  apply (unseen_at key); [done|done| |].
  - intros e. rewrite S, D, C. intros E Hd. rewrite Hf' by done. unfold view. by rewrite E.
  - unfold view at 1. rewrite S, D, C. destruct (s.(cx_sites) !! key) as [e|] eqn:E; [unfold view; by rewrite E|].
    destruct (s.(cx_dirty) !! key) eqn:Ed; [unfold view; by rewrite E, Ed|]. by apply Hf'.
Qed.

(** What looks like its file need not be dirty. *)
Lemma clean_unseen key s : coherent s -> view s key = file_view s key -> unseen s (s <| cx_dirty := delete key s.(cx_dirty) |>).
Proof.
  intros Hc Hv. apply (unseen_at key); [|done| |].
  - split; [done|]. split; [done|]. intros k Hk. cbn. by rewrite lookup_delete_ne.
  - intros e. cbn. intros E _. change (file_view _ key) with (file_view s key). rewrite <- Hv. unfold view. by rewrite E.
  - unfold view at 1. cbn. rewrite lookup_delete_eq. change (file_view _ key) with (file_view s key).
    destruct (s.(cx_sites) !! key) eqn:E; [unfold view; by rewrite E|done].
Qed.

Lemma settle_unseen key rev s : coherent s -> view s key = file_view s key -> unseen s (settle key rev s).
Proof. intros Hc Hv. unfold settle. case_match; [by apply clean_unseen|by apply unseen_refl]. Qed.

(** ** Calls that cannot be seen *)

Definition hidden {A} (P : ContextStore -> Prop) (m : CxIO A) (Q : A -> ContextStore -> Prop) : Prop :=
  forall s r s', coherent s -> P s -> m s = (r, s') -> unseen s s' /\ match r with Ok a => Q a s' | Err _ => True end.

Definition anything {A} (_ : A) (_ : ContextStore) : Prop := True.

Lemma hidden_bind {A B} P (m : CxIO A) (k : A -> CxIO B) Q R : hidden P m Q -> (forall a, hidden (Q a) (k a) R) -> hidden P (sbind m k) R.
Proof.
  intros Hm Hk s r s' Hc Hp. unfold sbind. destruct (m s) as [[a|e] s1] eqn:E; intros E2.
  - destruct (Hm _ _ _ Hc Hp E) as [U Hq]. destruct (Hk a _ _ _ (un_coherent _ _ U) Hq E2) as [U2 Hr]. split; [by eapply unseen_trans|done].
  - injection E2 as <- <-. by destruct (Hm _ _ _ Hc Hp E).
Qed.

Lemma hidden_reads {A} P (m : CxIO A) : reads m -> hidden P m anything.
Proof. intros Hm s r s' Hc _ E. split; [by eapply reads_unseen|by case_match]. Qed.

Lemma hidden_ret {A} (P : ContextStore -> Prop) (Q : A -> ContextStore -> Prop) a : (forall s, P s -> Q a s) -> hidden P (sret a) Q.
Proof. intros Hq s r s' Hc Hp [= <- <-]. auto using unseen_refl. Qed.

Lemma write_unseen key site s r s' :
  coherent s -> write_site key site s = (r, s') ->
  is_Some (s.(cx_dirty) !! key) \/ visible s.(cx_retention_cutoff) site = view s key ->
  unseen s s' /\ s'.(cx_sites) = s.(cx_sites) /\ s'.(cx_dirty) = s.(cx_dirty)
  /\ match r with Ok _ => file_view s' key = visible s.(cx_retention_cutoff) site | Err _ => True end.
Proof.
  intros Hc E Hv. destruct (write_rewrites key site s r s' E) as [[-> Hr] | [Hk Hw]]; [by destruct r; auto using unseen_refl|].
  pose proof (written_reads_back _ _ _ Hk) as Hb. split.
  - eapply rewrote_unseen; [done|exact Hw|]. cbn [mbind option_bind]. by rewrite Hb.
  - destruct Hw as [(L & C & _) S D _ Hok _]. do 2 (split; [done|]). destruct r; [|done]. unfold file_view. rewrite Hok, L, C by done.
    cbn [mbind option_bind]. by rewrite Hb.
Qed.

Lemma remove_unseen key s r s' :
  coherent s -> remove_site_file key s = (r, s') -> is_Some (s.(cx_dirty) !! key) \/ view s key = None ->
  unseen s s' /\ s'.(cx_sites) = s.(cx_sites) /\ s'.(cx_dirty) = s.(cx_dirty)
  /\ match r with Ok _ => file_view s' key = None | Err _ => True end.
Proof.
  intros Hc E%remove_rewrites Hv. split.
  - eapply rewrote_unseen; [done|exact E|]. cbn. destruct Hv; auto.
  - destruct E as [_ S D _ Hok _]. do 2 (split; [done|]). destruct r; [|done]. unfold file_view. by rewrite Hok.
Qed.

Lemma flush_key_hidden key : hidden (fun _ => True) (flush_key key) anything.
Proof.
  intros s r s' Hc _. unfold flush_key. unfold sbind at 1, sget at 1.
  destruct (s.(cx_dirty) !! key) as [rev|] eqn:Ed; [|intros [= <- <-]; split; [by apply unseen_refl|done]].
  unfold sbind at 1, cx_try.
  destruct (s.(cx_sites) !! key) as [e|] eqn:Es.
  - destruct (write_site key (cs_site e) s) as [w s1] eqn:Ew. apply write_unseen in Ew as (U & S1 & D1 & Hw); [|done|left; rewrite Ed; by eexists].
    destruct w as [[]|]; intros [= <- <-]; [|done]. split; [|done]. eapply unseen_trans; [exact U|]. apply settle_unseen; [apply U|].
    rewrite Hw, (un_view _ _ U). unfold view. by rewrite Es.
  - destruct (remove_site_file key s) as [w s1] eqn:Ew. apply remove_unseen in Ew as (U & S1 & D1 & Hw); [|done|left; rewrite Ed; by eexists].
    destruct w as [[]|]; intros [= <- <-]; [|done]. split; [|done]. eapply unseen_trans; [exact U|]. apply settle_unseen; [apply U|].
    rewrite Hw, (un_view _ _ U). unfold view. by rewrite Es, Ed.
Qed.

Lemma flush_keys_hidden keys : hidden (fun _ => True) (flush_keys keys) anything.
Proof.
  induction keys as [|key keys IH]; cbn; [by apply hidden_ret|].
  eapply hidden_bind; [apply flush_key_hidden|]. intros ok. eapply hidden_bind; [intros s r s' Hc _; by apply IH|]. intros failed. by apply hidden_ret.
Qed.

Lemma flush_hidden : hidden (fun _ => True) flush_locked anything.
Proof. intros s r s' Hc _. unfold flush_locked, sbind, sget. by apply flush_keys_hidden. Qed.

Lemma find_room_hidden key n s r s' :
  coherent s -> find_room key n s = (r, s') -> unseen s s' /\ exists room, r = Ok room /\ (room = true -> fits key n true s' = true).
Proof.
  intros Hc. unfold find_room. destruct (make_room key n true s) as [[] s1] eqn:E1.
  - intros [= <- <-]. split; [apply (make_room_roomed _ _ _ _ _ _ Hc E1)|]. apply make_room_fits in E1. eauto.
  - pose proof (rm_unseen _ _ _ (make_room_roomed _ _ _ _ _ _ Hc E1)) as U1. destruct (flush_locked s1) as [f s2] eqn:E2.
    destruct (flush_hidden _ _ _ (un_coherent _ _ U1) I E2) as [U2 _]. destruct (make_room key n true s2) as [room s3] eqn:E3.
    pose proof (rm_unseen _ _ _ (make_room_roomed _ _ _ _ _ _ (un_coherent _ _ U2) E3)) as U3. intros [= <- <-].
    split; [eapply unseen_trans; [exact U1|by eapply unseen_trans]|]. exists room. split; [done|]. intros ->. by apply make_room_fits in E3.
Qed.

(** ** The operations *)

(** What is not dirty and not in memory, or not visible there, is what its file says. *)
Lemma view_is_file key s : coherent s -> s.(cx_dirty) !! key = None -> s.(cx_sites) !! key = None \/ view s key = None -> view s key = file_view s key.
Proof.
  intros Hc Hd Hn. unfold view in *. destruct (s.(cx_sites) !! key) as [e|] eqn:E; [by apply Hc|by rewrite Hd].
Qed.

Lemma dirty_is_none key s : is_Some (s.(cx_dirty) !! key) -> s.(cx_sites) !! key = None \/ view s key = None -> view s key = None.
Proof. intros [v Hd] [Hn|]; [|done]. unfold view. by rewrite Hn, Hd. Qed.

(** A file that was read is what its site looks like. *)
Lemma loaded_view key s loaded s' :
  coherent s -> load_envelope key s = (Ok loaded, s') -> s.(cx_dirty) !! key = None -> s.(cx_sites) !! key = None \/ view s key = None ->
  view s key = visible s.(cx_retention_cutoff) loaded.
Proof. intros Hc E%load_ok Hd Hn. rewrite (view_is_file key s Hc Hd Hn). unfold file_view. by rewrite E. Qed.

Lemma visible_fixed c site found : visible c site = Some found -> visible c found = Some found.
Proof. intros E. pose proof (visible_visible c site) as V. by rewrite E in V. Qed.

Lemma site_exact key s r s' :
  coherent s -> site key s = (r, s') ->
  unseen s s' /\ exists o, r = Ok o /\ (o = view s key \/ o = None /\ s.(cx_faults) <> []).
Proof.
  intros Hc. unfold site. destruct (state_get key s) as [g s1] eqn:Eg. pose proof Eg as Eg'.
  apply get_unseen in Eg as (U1 & F1 & D1 & A1 & Hg); [|done]. destruct g as [found|]; [intros [= <- <-]; eauto|].
  destruct (s1.(cx_dirty) !! key) as [v|] eqn:Ed.
  { intros [= <- <-]. split; [done|]. exists None. split; [done|]. left. symmetry. apply dirty_is_none; [|done]. rewrite <- D1, Ed. eauto. }
  assert (Hg1 : s1.(cx_sites) !! key = None \/ view s1 key = None).
  { rewrite (un_view _ _ U1). destruct Hg as [Hg|Hg]; [left|by right]. unfold state_get in Eg'. cbn in Eg'. rewrite Hg in Eg'.
    by injection Eg' as <-. }
  destruct (load_envelope key s1) as [[loaded|e] s2] eqn:El; pose proof (reads_unseen _ _ _ _ (reads_load key) (un_coherent _ _ U1) El) as U2.
  2:{ intros [= <- <-]. split; [by eapply unseen_trans|]. exists None. split; [done|]. destruct (s.(cx_faults)) eqn:Ef; [left|by right].
      rewrite <- (un_view _ _ U1), (view_is_file key s1 (un_coherent _ _ U1) Ed Hg1). unfold file_view.
      destruct (load_calm key s1) as (r1 & Er & Hr); [by rewrite A1|]. rewrite El in Er. injection Er as <- _. by rewrite <- Hr. }
  pose proof (loaded_view key s1 loaded s2 (un_coherent _ _ U1) El Ed Hg1) as Hv.
  assert (U12 : unseen s s2) by by eapply unseen_trans.
  rewrite (un_cutoff _ _ U2). rewrite (un_view _ _ U1) in Hv. destruct (visible (cx_retention_cutoff s1) loaded) as [seen|] eqn:Es.
  2:{ intros [= <- <-]. eauto. }
  destruct (make_room key _ false s2) as [room s3] eqn:Em. pose proof (make_room_roomed _ _ _ _ _ _ (un_coherent _ _ U12) Em) as [U3 F3 D3 K3 _ _].
  intros [= <- <-]. split; [|by eauto]. assert (U13 : unseen s s3) by by eapply unseen_trans.
  destruct room; [|done]. eapply unseen_trans; [exact U13|]. apply insert_unseen; [apply U13| |]; cbn.
  - rewrite D3. destruct (reads_run _ _ _ _ (reads_load key) El) as (fs & ->). done.
  - rewrite (un_cutoff _ _ U3), (un_cutoff _ _ U2). unfold file_view. rewrite F3, (un_limits _ _ U3), (un_cutoff _ _ U3), (un_cutoff _ _ U2).
    destruct (reads_run _ _ _ _ (reads_load key) El) as (fs & ->). cbn. rewrite (load_ok _ _ _ _ El). cbn. rewrite Es.
    by apply visible_fixed in Es.
Qed.

(** The view of one site changed. *)
Record changed (key : string) (o : option SiteContext) (s s' : ContextStore) : Prop := {
  cg_limits : s'.(cx_limits) = s.(cx_limits);
  cg_cutoff : s'.(cx_retention_cutoff) = s.(cx_retention_cutoff);
  cg_coherent : coherent s';
  cg_key : view s' key = o;
  cg_other : forall k, k <> key -> view s' k = view s k;
}.

Lemma unseen_changed key o s s1 s2 : unseen s s1 -> changed key o s1 s2 -> changed key o s s2.
Proof. intros [L C _ V] []. constructor; [congruence|congruence|done|done|]. intros k Hk. rewrite <- V. auto. Qed.

Lemma changed_unseen key o s s1 s2 : changed key o s s1 -> unseen s1 s2 -> changed key o s s2.
Proof. intros [] [L C Hc V]. constructor; [congruence|congruence|done|by rewrite V|]. intros k Hk. rewrite V. auto. Qed.

Definition pruned (c : option Z) (site : SiteContext) : SiteContext := match c with Some c => prune c site | None => site end.

Lemma pruned_visible c site : pruned c site = default SiteContext_default (visible c site).
Proof. destruct c as [c|]; [|done]. cbn. destruct (is_empty (prune c site)) eqn:E; cbn; [by apply is_empty_default|done]. Qed.

Lemma pruned_default c : pruned c SiteContext_default = SiteContext_default.
Proof. destruct c as [c|]; [apply prune_default|done]. Qed.

Lemma view_visible key s found : view s key = Some found -> visible s.(cx_retention_cutoff) found = Some found.
Proof.
  unfold view, file_view. destruct (s.(cx_sites) !! key); [apply visible_fixed|]. destruct (s.(cx_dirty) !! key); [done|].
  destruct (_ ≫= file_site _ _); [apply visible_fixed|done].
Qed.

(** An update starts from what is seen. *)
Lemma update_base_spec key s r s' :
  coherent s -> update_base key s = (r, s') ->
  unseen s s' /\ exists o, r = Ok o /\
    match o with Some base => pruned s.(cx_retention_cutoff) base = default SiteContext_default (view s key) | None => True end.
Proof.
  intros Hc. unfold update_base. destruct (state_get key s) as [g s1] eqn:Eg. pose proof Eg as Eg'.
  apply get_unseen in Eg as (U1 & F1 & D1 & A1 & Hg); [|done]. destruct g as [found|].
  { intros [= <- <-]. split; [done|]. eexists. split; [reflexivity|]. cbn beta iota. rewrite pruned_visible, Hg. by rewrite (view_visible key s found). }
  destruct (s.(cx_dirty) !! key) as [v|] eqn:Ed.
  { intros [= <- <-]. split; [done|]. eexists. split; [reflexivity|]. cbn beta iota. rewrite pruned_default, (dirty_is_none key s); eauto. }
  assert (Hg1 : s1.(cx_sites) !! key = None \/ view s1 key = None).
  { rewrite (un_view _ _ U1). destruct Hg as [Hg|Hg]; [left|by right]. unfold state_get in Eg'. cbn in Eg'. rewrite Hg in Eg'.
    by injection Eg' as <-. }
  destruct (cx_call s1) as [[[]|e] s2] eqn:E2; pose proof (reads_unseen _ _ _ _ reads_call (un_coherent _ _ U1) E2) as U2.
  2:{ intros [= <- <-]. split; [by eapply unseen_trans|by exists None]. }
  assert (U12 : unseen s s2) by by eapply unseen_trans. destruct (reads_run _ _ _ _ reads_call E2) as (fs & ->).
  set (s2 := s1 <| cx_faults := fs |>) in *. change (s2.(cx_files)) with (s1.(cx_files)). rewrite <- D1 in Ed.
  change (view s1 key) with (view s2 key) in Hg1. change (s1.(cx_sites)) with (s2.(cx_sites)) in Hg1.
  rewrite <- (un_view _ _ U12), <- (un_cutoff _ _ U12). destruct (s1.(cx_files) !! key) as [f|] eqn:Ef.
  - destruct (load_envelope key s2) as [[loaded|e] s3] eqn:El; pose proof (reads_unseen _ _ _ _ (reads_load key) (un_coherent _ _ U12) El) as U3.
    + intros [= <- <-]. split; [by eapply unseen_trans|]. eexists. split; [reflexivity|]. cbn beta iota. rewrite pruned_visible.
      by rewrite (loaded_view key s2 loaded s3 (un_coherent _ _ U12) El Ed Hg1).
    + intros [= <- <-]. split; [by eapply unseen_trans|by exists None].
  - intros [= <- <-]. split; [done|]. eexists. split; [reflexivity|]. cbn beta iota. rewrite pruned_default, (view_is_file key s2 (un_coherent _ _ U12) Ed Hg1).
    unfold file_view. change (s2.(cx_files)) with (s1.(cx_files)). by rewrite Ef.
Qed.

Lemma reject_unseen s r s' : coherent s -> reject_update s = (r, s') -> r = Ok false /\ unseen s s'.
Proof. intros Hc [= <- <-]. split; [done|]. by apply unseen_same. Qed.

Lemma insert_dirty_changed key entry s :
  coherent s -> changed key (visible s.(cx_retention_cutoff) entry.(cs_site)) s (mark_dirty key (state_insert key entry s)).
Proof.
  intros Hc. set (s' := mark_dirty key (state_insert key entry s)).
  assert (Ho : only_at key s s').
  { split; [done|]. split; [done|]. intros k Hk. cbn. by rewrite !lookup_insert_ne. }
  constructor; [done|done| | |].
  - eapply only_at_coherent; [exact Ho|done|]. intros e. cbn. by rewrite !lookup_insert_eq.
  - unfold view. cbn. by rewrite lookup_insert_eq.
  - intros k Hk. by eapply only_at_view.
Qed.

(** An update is refused and changes nothing, or it applies to what is seen. *)
Lemma update_site_spec key f s r s' :
  coherent s -> update_site key f s = (r, s') ->
  (r = Ok false /\ unseen s s') \/
  (r = Ok true /\ changed key (visible s.(cx_retention_cutoff) (f (default SiteContext_default (view s key)))) s s').
Proof.
  intros Hc. unfold update_site. unfold sbind at 1. destruct (update_base key s) as [r1 s1] eqn:E1.
  destruct (update_base_spec _ _ _ _ Hc E1) as (U1 & o & -> & Hb).
  assert (Hrej : forall s2 r2 s3, unseen s s2 -> reject_update s2 = (r2, s3) -> (r2 = Ok false /\ unseen s s3)).
  { intros s2 r2 s3 U2 Er. apply reject_unseen in Er as [-> Er]; [|apply U2]. split; [done|by eapply unseen_trans]. }
  destruct o as [base|]; [|intros E; left; by eapply Hrej].
  unfold sbind at 1, sget at 1. fold (pruned (cx_retention_cutoff s1) base). rewrite (un_cutoff _ _ U1), Hb. set (new := f _).
  case_match; [intros E; left; by eapply Hrej|]. case_match; [intros E; left; by eapply Hrej|].
  unfold sbind at 1. destruct (find_room _ _ s1) as [r2 s2] eqn:E2. destruct (find_room_hidden _ _ _ _ _ (un_coherent _ _ U1) E2) as (U2 & room & -> & _).
  assert (U12 : unseen s s2) by by eapply unseen_trans.
  destruct room; [|intros E; left; by eapply Hrej]. intros [= <- <-]. right. split; [done|]. eapply unseen_changed; [exact U12|].
  rewrite <- (un_cutoff _ _ U12). apply (insert_dirty_changed key (CachedSite_new key new)). apply U12.
Qed.

(** Forgetting a site erases it, even when the file cannot be removed yet; or it changes
    nothing, and says so. *)
Lemma forget_spec key s r s' :
  coherent s -> forget key s = (r, s') -> changed key None s s' \/ (is_ok r = false /\ unseen s s').
Proof.
  intros Hc. unfold forget. unfold sbind at 1. destruct (cx_call s) as [[[]|e] s1] eqn:E1; pose proof (reads_unseen _ _ _ _ reads_call Hc E1) as U1.
  2:{ intros [= <- <-]. by right. }
  unfold sbind at 1, sget at 1. destruct (s1.(cx_files) !! key) as [f|] eqn:Ef.
  - unfold sbind at 1. destruct (find_room key 0 s1) as [r2 s2] eqn:E2. destruct (find_room_hidden _ _ _ _ _ (un_coherent _ _ U1) E2) as (U2 & room & -> & _).
    assert (U12 : unseen s s2) by by eapply unseen_trans.
    destruct room; [|intros [= <- <-]; by right]. unfold sbind at 1, smodify at 1. set (s3 := mark_dirty key _).
    assert (Ho : only_at key s2 s3).
    { split; [done|]. split; [done|]. intros k Hk. cbn. by rewrite lookup_insert_ne, lookup_delete_ne. }
    assert (Hch : changed key None s s3).
    { eapply unseen_changed; [exact U12|]. constructor; [done|done| | |].
      - eapply only_at_coherent; [exact Ho|apply U12|]. intros e. cbn. by rewrite lookup_delete_eq.
      - unfold view. cbn. by rewrite lookup_delete_eq, lookup_insert_eq.
      - intros k Hk. by eapply only_at_view. }
    unfold sbind, sget. destruct (remove_site_file key s3) as [r4 s4] eqn:E4.
    destruct (remove_unseen _ _ _ _ (cg_coherent _ _ _ _ Hch) E4) as (U4 & _ & _ & Hf); [right; by apply Hch|].
    pose proof (changed_unseen _ _ _ _ _ Hch U4) as Hch4. destruct r4 as [[]|]; intros [= <- <-]; left; [|done].
    eapply changed_unseen; [exact Hch4|]. apply settle_unseen; [apply U4|]. by rewrite Hf, (cg_key _ _ _ _ Hch4).
  - intros [= <- <-]. left. eapply unseen_changed; [exact U1|]. set (s2 := s1 <| cx_sites := delete key s1.(cx_sites) |> <| cx_dirty := delete key s1.(cx_dirty) |>).
    assert (Ho : only_at key s1 s2).
    { split; [done|]. split; [done|]. intros k Hk. cbn. by rewrite !lookup_delete_ne. }
    constructor; [done|done| | |].
    + eapply only_at_coherent; [exact Ho|apply U1|]. intros e. cbn. by rewrite lookup_delete_eq.
    + unfold view, file_view. cbn. by rewrite !lookup_delete_eq, Ef.
    + intros k Hk. by eapply only_at_view.
Qed.

(** ** The sweep *)

Lemma sweep_resident_hidden c key : hidden (fun s => s.(cx_retention_cutoff) = Some c) (sweep_resident c key) anything.
Proof.
  intros s r s' Hc Hcut. unfold sweep_resident. unfold sbind at 1, sget at 1.
  destruct (s.(cx_sites) !! key) as [e|] eqn:Es; [|intros [= <- <-]; split; [by apply unseen_refl|done]].
  assert (Hv : view s key = visible (Some c) e.(cs_site)) by (unfold view; by rewrite Es, Hcut).
  unfold prune_site. set (pr := prune c (cs_site e)). cbv zeta.
  assert (Hp : visible (Some c) pr = visible (Some c) e.(cs_site)).
  { cbn. unfold pr. by rewrite prune_later. }
  destruct (negb _ && negb (is_empty pr) && _); [intros [= <- <-]; split; [by apply unseen_refl|done]|].
  destruct (is_empty pr) eqn:Ee.
  - unfold sbind at 1. destruct (remove_site_file key s) as [r1 s1] eqn:E1.
    assert (Hn : view s key = None) by (rewrite Hv; cbn; fold pr; by rewrite Ee).
    apply remove_unseen in E1 as (U1 & S1 & D1 & Hf); [|done|by right].
    destruct r1 as [[]|]; intros [= <- <-]; [|done]. split; [|done]. eapply unseen_trans; [exact U1|].
    apply (unseen_at key); [|apply U1| |].
    + split; [done|]. split; [done|]. intros k Hk. cbn. by rewrite !lookup_delete_ne.
    + intros e'. cbn. by rewrite lookup_delete_eq.
    + rewrite (un_view _ _ U1), Hn. unfold view. cbn. rewrite !lookup_delete_eq. exact Hf.
  - unfold sbind at 1. destruct (write_site key pr s) as [r1 s1] eqn:E1.
    apply write_unseen in E1 as (U1 & S1 & D1 & Hf); [|done|right; by rewrite Hcut, Hp].
    destruct r1 as [[]|]; [|intros [= <- <-]; by split]. unfold sbind, smodify, sret. cbv zeta. set (s2 := s1 <| cx_dirty := delete key s1.(cx_dirty) |>).
    assert (Hv1 : view s1 key = file_view s1 key) by (by rewrite (un_view _ _ U1), Hf, Hcut, Hp).
    assert (U2 : unseen s s2) by (eapply unseen_trans; [exact U1|]; by apply clean_unseen; [apply U1|]).
    destruct (make_room key _ false s2) as [room s3] eqn:E3. pose proof (make_room_roomed _ _ _ _ _ _ (un_coherent _ _ U2) E3) as [U3 F3 D3 K3 _ _].
    intros [= <- <-]. split; [|done]. assert (U13 : unseen s s3) by by eapply unseen_trans. eapply unseen_trans; [exact U13|]. destruct room.
    + apply insert_unseen; [apply U13| |]; [rewrite D3; cbn; apply lookup_delete_eq|]. cbn. rewrite (un_cutoff _ _ U13), Hcut, Hp, <- Hv, <- (un_view _ _ U1), Hv1.
      symmetry. apply file_view_same; [by rewrite F3|..]; by rewrite ?(un_limits _ _ U3), ?(un_cutoff _ _ U3).
    + assert (Hd : s3.(cx_dirty) !! key = None) by (rewrite D3; apply lookup_delete_eq).
      pose proof (evict_unseen key s3 (un_coherent _ _ U13) Hd) as U4. eapply unseen_trans; [exact U4|]. apply unseen_same; try done. apply U4.
Qed.

Lemma sweep_file_hidden c key : hidden (fun s => s.(cx_retention_cutoff) = Some c) (sweep_file c key) anything.
Proof.
  intros s r s' Hc Hcut. unfold sweep_file. unfold sbind at 1.
  destruct (cx_call s) as [[[]|e] s1] eqn:E1; pose proof (reads_unseen _ _ _ _ reads_call Hc E1) as U1; [|by intros [= <- <-]].
  unfold sbind at 1, cx_try.
  destruct (load_envelope key s1) as [[loaded|e] s2] eqn:E2; pose proof (reads_unseen _ _ _ _ (reads_load key) (un_coherent _ _ U1) E2) as U2.
  2:{ intros [= <- <-]. split; [by eapply unseen_trans|done]. }
  assert (U12 : unseen s s2) by by eapply unseen_trans. apply load_ok in E2 as El. destruct (reads_run _ _ _ _ (reads_load key) E2) as (fs & Ef).
  unfold sbind at 1, sget at 1. destruct (s2.(cx_sites) !! key) as [e|] eqn:Es; [intros [= <- <-]; by split|].
  unfold prune_site. set (pr := prune c loaded). cbv zeta.
  assert (Hcut2 : s2.(cx_retention_cutoff) = Some c) by by rewrite (un_cutoff _ _ U12).
  assert (Hp : visible (Some c) pr = visible (Some c) loaded) by (cbn; unfold pr; by rewrite prune_later).
  assert (Hv : is_Some (s2.(cx_dirty) !! key) \/ view s2 key = visible (Some c) pr).
  { unfold view. rewrite Es. destruct (s2.(cx_dirty) !! key); [left; by eexists|right]. unfold file_view. rewrite Hcut2, Hp, Ef. cbn. by rewrite El. }
  destruct (is_empty pr) eqn:Ee; [|case_match].
  - unfold sbind. destruct (remove_site_file key s2) as [r3 s3] eqn:E3. apply remove_unseen in E3 as (U3 & _); [|apply U12|].
    + intros E. assert (s' = s3) as -> by (destruct r3; by injection E). split; [by eapply unseen_trans|by destruct r].
    + destruct Hv as [?|Hv]; [by left|right]. rewrite Hv, Hp. cbn. fold pr. by rewrite Ee.
  - unfold sbind. destruct (write_site key pr s2) as [r3 s3] eqn:E3. apply write_unseen in E3 as (U3 & _); [|apply U12|].
    + intros E. assert (s' = s3) as -> by (destruct r3; by injection E). split; [by eapply unseen_trans|by destruct r].
    + rewrite Hcut2. destruct Hv; auto.
  - intros [= <- <-]. by split.
Qed.

Lemma hidden_cutoff {A} c (m : CxIO A) :
  hidden (fun s => s.(cx_retention_cutoff) = Some c) m anything ->
  hidden (fun s => s.(cx_retention_cutoff) = Some c) m (fun _ s => s.(cx_retention_cutoff) = Some c).
Proof.
  intros Hm s r s' Hc Hcut E. destruct (Hm _ _ _ Hc Hcut E) as [U _]. split; [done|]. case_match; [|done]. by rewrite (un_cutoff _ _ U).
Qed.

Lemma sweep_each_hidden c f keys :
  (forall key, hidden (fun s => s.(cx_retention_cutoff) = Some c) (f key) anything) ->
  hidden (fun s => s.(cx_retention_cutoff) = Some c) (sweep_each f keys) (fun _ s => s.(cx_retention_cutoff) = Some c).
Proof.
  intros Hf. induction keys as [|key keys IH]; cbn; [by apply hidden_ret|].
  eapply hidden_bind; [apply hidden_cutoff, Hf|]. intros n. eapply hidden_bind; [apply IH|]. intros m. by apply hidden_ret.
Qed.

(** The cutoff hides what has expired, whatever becomes of the files. *)
Record swept (c : Z) (s s' : ContextStore) : Prop := {
  sw_limits : s'.(cx_limits) = s.(cx_limits);
  sw_cutoff : s'.(cx_retention_cutoff) = Some c;
  sw_coherent : coherent s';
  sw_view : forall k, view s' k = view s k ≫= visible (Some c);
}.

Lemma set_cutoff_swept c s : coherent s -> cutoff_le s.(cx_retention_cutoff) c -> swept c s (s <| cx_retention_cutoff := Some c |>).
Proof.
  intros Hc Hle. set (s' := s <| cx_retention_cutoff := Some c |>).
  assert (Hf : forall k, file_view s' k = file_view s k ≫= visible (Some c)).
  { intros k. unfold file_view, s'. cbn [cx_files cx_limits cx_retention_cutoff]. destruct (_ ≫= file_site _ k) as [site|]; [|done].
    cbn [mbind option_bind]. by rewrite visible_cutoff_le. }
  constructor; [done|done| |].
  - intros k e Es Hd. rewrite Hf, <- (Hc k e Es Hd). change (cx_retention_cutoff s') with (Some c). by rewrite visible_cutoff_le.
  - intros k. unfold view. change (cx_sites s') with (cx_sites s). change (cx_dirty s') with (cx_dirty s). change (cx_retention_cutoff s') with (Some c).
    destruct (s.(cx_sites) !! k); [by rewrite visible_cutoff_le|]. by destruct (s.(cx_dirty) !! k); [|apply Hf].
Qed.

Lemma sweep_spec ttl today s r s' :
  coherent s -> cutoff_le s.(cx_retention_cutoff) (saturating_sub today ttl) -> sweep ttl today s = (r, s') ->
  swept (saturating_sub today ttl) s s'.
Proof.
  intros Hc Hle. unfold sweep. set (c := saturating_sub today ttl) in *. unfold sbind at 1, smodify at 1. set (s0 := s <| cx_retention_cutoff := _ |>).
  pose proof (set_cutoff_swept c s Hc Hle) as [L0 C0 H0' V0]. fold s0 in L0, C0, H0', V0. intros E.
  assert (U : unseen s0 s').
  { revert E. assert (Hrun : hidden (fun s => s.(cx_retention_cutoff) = Some c)
      (do s <- sget; do n <- sweep_each (sweep_resident c) (map_to_list s.(cx_sites)).*1; cx_call ;; do s <- sget;
       do m <- sweep_each (sweep_file c) (map_to_list s.(cx_files)).*1; do failed <- flush_locked;
       match failed with [] => sret (n + m) | key :: _ => sfail (CxIo (DataError ("retention persistence failed for " +:+ key))) end) anything).
    2:{ intros E. by destruct (Hrun s0 r s' H0' C0 E). }
    eapply hidden_bind; [apply hidden_cutoff, hidden_reads, reads_get|]. intros s1.
    eapply hidden_bind; [apply sweep_each_hidden, sweep_resident_hidden|]. intros n.
    eapply hidden_bind; [apply hidden_cutoff, hidden_reads, reads_call|]. intros [].
    eapply hidden_bind; [apply hidden_cutoff, hidden_reads, reads_get|]. intros s2.
    eapply hidden_bind; [apply sweep_each_hidden, sweep_file_hidden|]. intros m.
    eapply hidden_bind; [apply hidden_cutoff; intros ? ? ? ? _; by apply flush_hidden|]. intros [|k ks]; [by apply hidden_ret|].
    apply hidden_reads, reads_fail. }
  destruct U as [L C Hu V]. constructor; [congruence|congruence|done|]. intros k. by rewrite V.
Qed.

(** ** Listing *)

Lemma file_kept_iff s key site :
  s.(cx_files) !! key ≫= file_site s.(cx_limits) key = Some site ->
  match s.(cx_retention_cutoff) with Some c => negb (has_retained_context site c) | None => false end = false <-> is_Some (file_view s key).
Proof.
  intros E. unfold file_view. rewrite E. destruct (s.(cx_retention_cutoff)) as [c|]; [|split; [by eexists|done]].
  rewrite negb_false_iff, has_retained_iff_visible. apply bool_decide_eq_true.
Qed.

Lemma list_files_spec keys s r s' :
  list_files keys s = (r, s') ->
  exists found fs, r = Ok found /\ s' = s <| cx_faults := fs |>
    /\ (forall k, k ∈ found -> is_Some (file_view s k))
    /\ (s.(cx_faults) = [] -> forall k, k ∈ keys -> is_Some (file_view s k) -> k ∈ found).
Proof.
  revert s r s'. induction keys as [|key keys IH]; intros s r s'.
  { intros [= <- <-]. exists ∅, s.(cx_faults). split; [done|]. split; [by destruct s|]. split; set_solver. }
  cbn. unfold sbind at 1, cx_try at 1. destruct (cx_call s) as [c s0] eqn:Ec.
  assert (Hcalm : s.(cx_faults) = [] -> is_ok c = true /\ s0 = s) by (intros Hz; rewrite cx_call_calm in Ec by done; by injection Ec as <- <-).
  destruct (reads_run _ _ _ _ reads_call Ec) as (fs0 & ->).
  destruct (is_ok c); cbn [negb].
  2:{ intros [= <- <-]. exists ∅, fs0. split; [done|]. split; [done|]. split; [set_solver|]. intros Hz. by destruct (Hcalm Hz). }
  set (s0 := s <| cx_faults := fs0 |>) in *. assert (Hz0 : s.(cx_faults) = [] -> s0.(cx_faults) = []) by (intros Hz; by destruct (Hcalm Hz) as [_ ->]).
  unfold sbind at 1, cx_try. destruct (load_envelope key s0) as [l s1] eqn:El.
  destruct (reads_load key s0) as (fs & Es & Hn). rewrite El in Es. cbn [snd] in Es. subst s1. unfold sbind at 1, sget at 1, sbind at 1.
  destruct (list_files keys _) as [r2 s2] eqn:E2. apply IH in E2 as (rest & fs2 & -> & -> & Hin & Hall). intros [= <- <-].
  eexists _, fs2. split; [reflexivity|]. split; [done|].
  change (forall k, k ∈ rest -> is_Some (file_view s0 k)) in Hin.
  change (fs = [] -> forall k, k ∈ keys -> is_Some (file_view s0 k) -> k ∈ rest) in Hall.
  change (file_view s) with (file_view s0). split.
  - intros k. destruct l as [site|]; [|apply Hin]. apply load_ok, file_kept_iff, proj1 in El. change (cx_retention_cutoff s0) with (cx_retention_cutoff s) in El. revert El.
    generalize (match s.(cx_retention_cutoff) with Some c => negb (has_retained_context site c) | None => false end). intros [] El; [apply Hin|].
    rewrite elem_of_union, elem_of_singleton. intros [-> |Hk]; [by apply El|by apply Hin].
  - intros Hz%Hz0 k Hk Hv. specialize (Hall (Hn Hz)). destruct (load_calm key s0 Hz) as (r & Er & Hr). rewrite El in Er. injection Er as <- _.
    apply elem_of_cons in Hk as [-> |Hk].
    + destruct l as [site|].
      * symmetry in Hr. apply file_kept_iff, proj2 in Hr. change (cx_retention_cutoff s0) with (cx_retention_cutoff s) in Hr. rewrite (Hr Hv). set_solver.
      * exfalso. unfold file_view in Hv. rewrite <- Hr in Hv. by destruct Hv.
    + specialize (Hall k Hk Hv). destruct l; [|done]. destruct (match s.(cx_retention_cutoff) with Some _ => _ | None => _ end); set_solver.
Qed.

Lemma list_directory_spec s r s' :
  list_directory s = (r, s') ->
  exists found fs, r = Ok found /\ s' = s <| cx_faults := fs |>
    /\ (forall k, k ∈ found -> is_Some (file_view s k))
    /\ (s.(cx_faults) = [] -> forall k, is_Some (file_view s k) -> k ∈ found).
Proof.
  unfold list_directory. unfold sbind at 1, cx_try at 1. destruct (cx_call s) as [c s0] eqn:Ec. unfold sbind at 1, sget at 1.
  assert (Hcalm : s.(cx_faults) = [] -> is_ok c = true /\ s0 = s) by (intros Hz; rewrite cx_call_calm in Ec by done; by injection Ec as <- <-).
  destruct (reads_run _ _ _ _ reads_call Ec) as (fs0 & ->). destruct (is_ok c).
  - intros (found & fs & -> & -> & Hin & Hall)%list_files_spec. exists found, fs. split; [done|]. split; [done|]. split; [exact Hin|].
    intros Hz k Hv. destruct (Hcalm Hz) as [_ E]. apply Hall; [by rewrite E| |exact Hv]. unfold file_view in Hv. cbn.
    destruct (s.(cx_files) !! k) as [f|] eqn:Ef; [|by destruct Hv]. apply list_elem_of_fmap. exists (k, f). split; [done|]. by apply elem_of_map_to_list.
  - intros [= <- <-]. exists ∅, fs0. split; [done|]. split; [done|]. split; [set_solver|]. intros Hz. by destruct (Hcalm Hz).
Qed.

(** Only sites that can be seen are listed; all of them, unless a call fails. *)
Lemma list_sites_exact s r s' :
  coherent s -> list_sites s = (r, s') ->
  unseen s s' /\ exists found, r = Ok found
    /\ (forall k, k ∈ found -> is_Some (view s k)) /\ (s.(cx_faults) = [] -> forall k, is_Some (view s k) -> k ∈ found).
Proof.
  intros Hc. unfold list_sites. unfold sbind at 1. destruct (list_directory s) as [r1 s1] eqn:E1.
  apply list_directory_spec in E1 as (found & fs & -> & -> & Hin & Hall). intros [= <- <-]. split; [by apply unseen_same|].
  assert (Hfil : forall k, k ∈ dom (filter (fun kc => match s.(cx_retention_cutoff) with Some c => has_retained_context kc.2.(cs_site) c | None => true end = true) s.(cx_sites))
                 <-> exists e, s.(cx_sites) !! k = Some e /\ is_Some (visible s.(cx_retention_cutoff) e.(cs_site))).
  { intros k. rewrite elem_of_dom. unfold is_Some at 1. setoid_rewrite map_lookup_filter_Some. cbn [snd].
    destruct (s.(cx_retention_cutoff)) as [c|]; [|naive_solver eauto]. setoid_rewrite has_retained_iff_visible. setoid_rewrite bool_decide_eq_true. done. }
  eexists. split; [reflexivity|]. cbn [cx_retention_cutoff cx_sites cx_dirty]. split.
  - intros k [Hk|Hk]%elem_of_union.
    + apply elem_of_difference in Hk as [Hk Hd%not_elem_of_dom]. apply Hin in Hk. unfold view.
      destruct (s.(cx_sites) !! k) as [e|] eqn:Es; [by rewrite (Hc k e)|]. cbn in Hd. by rewrite Hd.
    + apply Hfil in Hk as (e & Es & Hv). unfold view. by rewrite Es.
  - intros Hz k Hk. apply elem_of_union. unfold view in Hk. destruct (s.(cx_sites) !! k) as [e|] eqn:Es; [right; apply Hfil; eauto|left].
    destruct (s.(cx_dirty) !! k) eqn:Ed; [by destruct Hk|]. apply elem_of_difference. split; [|by apply not_elem_of_dom].
    by apply Hall.
Qed.

(** ** Opening *)

Lemma open_file_hidden key :
  hidden (fun s => s.(cx_dirty) = ∅) (open_file_into key) (fun _ s => s.(cx_dirty) = ∅).
Proof.
  intros s r s' Hc Hd. unfold open_file_into. unfold sbind at 1.
  destruct (cx_call s) as [[[]|e] s1] eqn:E1; pose proof (reads_unseen _ _ _ _ reads_call Hc E1) as U1; [|by intros [= <- <-]].
  destruct (reads_run _ _ _ _ reads_call E1) as (fs & ->). unfold sbind, cx_try.
  destruct (load_envelope key _) as [[loaded|e] s2] eqn:E2; pose proof (reads_unseen _ _ _ _ (reads_load key) (un_coherent _ _ U1) E2) as U2.
  2:{ destruct (reads_run _ _ _ _ (reads_load key) E2) as (fs2 & ->). intros [= <- <-]. split; [by eapply unseen_trans|done]. }
  apply load_ok in E2 as El. destruct (reads_run _ _ _ _ (reads_load key) E2) as (fs2 & ->). assert (U12 := unseen_trans _ _ _ U1 U2). cbn in El.
  set (s2 := s <| cx_faults := fs |> <| cx_faults := fs2 |>) in *. unfold smodify. cbv beta zeta.
  destruct (make_room key (cs_bytes (CachedSite_new key loaded)) false s2) as [room s3] eqn:E3. intros [= <- <-].
  pose proof (make_room_roomed _ _ _ _ _ _ (un_coherent _ _ U12) E3) as [U3 F3 D3 _ _ _]. assert (U13 := unseen_trans _ _ _ U12 U3).
  destruct room; [|by rewrite D3]. split; [|by cbn; rewrite D3]. eapply unseen_trans; [exact U13|].
  apply insert_unseen; [apply U13|rewrite D3; cbn; rewrite Hd; apply lookup_empty|].
  unfold file_view. rewrite F3, (un_limits _ _ U3), (un_cutoff _ _ U3). cbn. by rewrite El.
Qed.

Lemma open_files_hidden keys : hidden (fun s => s.(cx_dirty) = ∅) (open_files keys) (fun _ s => s.(cx_dirty) = ∅).
Proof.
  induction keys as [|key keys IH]; cbn; [by apply hidden_ret|]. eapply hidden_bind; [apply open_file_hidden|]. intros []. apply IH.
Qed.

Lemma hidden_dirty (m : CxIO unit) : reads m -> hidden (fun s => s.(cx_dirty) = ∅) m (fun _ s => s.(cx_dirty) = ∅).
Proof.
  intros Hm s r s' Hc Hd E. split; [by eapply reads_unseen|]. destruct (reads_run _ _ _ _ Hm E) as (fs & ->). by destruct r.
Qed.

(** A store that was just opened shows what the files say. *)
Lemma open_spec limits files faults s :
  open_with_limits limits files faults = Ok s ->
  coherent s /\ s.(cx_limits) = limits /\ s.(cx_retention_cutoff) = None /\ forall k, view s k = files !! k ≫= file_site limits k.
Proof.
  unfold open_with_limits. case_match; [done|]. set (s0 := MkContextStore limits files faults ∅ ∅ 0 0 0 0 None).
  assert (Hc : coherent s0) by (intros k e; cbn; by rewrite lookup_empty).
  destruct ((_ ;; _) s0) as [[[]|] s1] eqn:E; [|done]. intros [= ->].
  assert (Hh : hidden (fun s => s.(cx_dirty) = ∅) (cx_call ;; cx_call ;; open_files (map_to_list files).*1) (fun _ s => s.(cx_dirty) = ∅)).
  { eapply hidden_bind; [apply hidden_dirty, reads_call|]. intros []. eapply hidden_bind; [apply hidden_dirty, reads_call|].
    intros []. apply open_files_hidden. }
  destruct (Hh s0 _ _ Hc eq_refl E) as [[L C Hs V] _]. split; [done|]. split; [done|]. split; [done|].
  intros k. rewrite V. unfold view, file_view. cbn. rewrite !lookup_empty. cbn. destruct (files !! k) as [f|]; cbn; [|done]. by destruct (file_site limits k f).
Qed.
End Ops.
