(* ===== verification/ContextBounds.v ===== *)
(** * The cache of the context store stays within its limits

    The number of sites in memory or pending, and the bytes they are counted with, never
    exceed the limits of the store: room is made before a site is cached, and nothing else
    adds one. *)

From S2P Require Import Prelude Ledger ContextStore ContextView ContextOps.
From Stdlib Require Import Ascii.

(** ** Sums over maps *)

Definition msum {V} (f : string -> V -> Z) (m : gmap string V) : Z := sum_of (fun kv => f kv.1 kv.2) (map_to_list m).

Lemma sum_of_perm {A} (f : A -> Z) l l' : l ≡ₚ l' -> sum_of f l = sum_of f l'.
Proof. induction 1; cbn; lia. Qed.

Lemma sum_of_pos {A} (f : A -> Z) l : (forall x, In x l -> 0 <= f x) -> 0 <= sum_of f l.
Proof. induction l as [|x l IH]; cbn; [lia|]. intros Hp. pose proof (Hp x (or_introl eq_refl)). specialize (IH (fun y Hy => Hp y (or_intror Hy))). lia. Qed.

Section Sums.
Context {V : Type} (f : string -> V -> Z).

Lemma msum_empty : msum f ∅ = 0.
Proof. unfold msum. by rewrite map_to_list_empty. Qed.

Lemma msum_fresh (m : gmap string V) k v : m !! k = None -> msum f (<[k := v]> m) = f k v + msum f m.
Proof. intros Hk. unfold msum. by rewrite (sum_of_perm _ _ _ (map_to_list_insert m k v Hk)). Qed.

Lemma msum_delete (m : gmap string V) k v : m !! k = Some v -> msum f m = f k v + msum f (delete k m).
Proof. intros Hk. rewrite <- (insert_delete_id m k v Hk) at 1. apply msum_fresh, lookup_delete_eq. Qed.

Lemma msum_insert (m : gmap string V) k v : msum f (<[k := v]> m) = f k v + msum f (delete k m).
Proof. rewrite (msum_delete _ k v) by apply lookup_insert_eq. by rewrite delete_insert_eq. Qed.

Lemma msum_pos (m : gmap string V) : map_Forall (fun k v => 0 <= f k v) m -> 0 <= msum f m.
Proof.
  intros Hp. apply sum_of_pos. intros [k v] Hk%list_elem_of_In%elem_of_map_to_list. by apply (Hp k v).
Qed.

Lemma msum_subseteq (m m' : gmap string V) : map_Forall (fun k v => 0 <= f k v) m' -> m ⊆ m' -> msum f m <= msum f m'.
Proof.
  revert m'. induction m as [|k v m Hk IH] using map_ind; intros m' Hp Hs.
  - rewrite msum_empty. by apply msum_pos.
  - rewrite msum_fresh by done. assert (Hv : m' !! k = Some v) by (eapply lookup_weaken; [apply lookup_insert_eq|done]).
    rewrite (msum_delete m' k v Hv). assert (msum f m <= msum f (delete k m')); [|lia]. apply IH.
    + by apply map_Forall_delete.
    + apply map_subseteq_spec. intros j w Hj. assert (k <> j) by congruence. rewrite lookup_delete_ne by done.
      eapply lookup_weaken; [|exact Hs]. by rewrite lookup_insert_ne.
Qed.
End Sums.

Lemma fold_saturating {A} (f : A -> Z) (l : list A) a :
  0 <= a <= u64_max -> (forall x, In x l -> 0 <= f x) -> fold_left saturating_add (f <$> l) a = Z.min (a + sum_of f l) u64_max.
Proof.
  revert a. induction l as [|x l IH]; cbn; intros a Ha Hp; [lia|]. pose proof (Hp x (or_introl eq_refl)).
  assert (0 <= sum_of f l) by (apply sum_of_pos; auto). rewrite IH; [|unfold saturating_add, u64_max in *; lia|auto]. unfold saturating_add. lia.
Qed.

(** Bytes are not negative. *)
Class SiteSizesLaws `{SiteSizes} : Prop := {
  site_bytes_pos site : 0 <= site_bytes site;
  site_node_pos : 0 <= site_node;
  dirty_node_pos : 0 <= dirty_node;
}.

Section Bounds.
Context `{SiteCodec, SiteSizes, !SiteSizesLaws}.

Definition total_bytes (s : ContextStore) : Z := msum (fun _ c => c.(cs_bytes)) s.(cx_sites) + msum (fun k _ => dirty_node + slen k) s.(cx_dirty).

Definition residents (s : ContextStore) : gset string := dom s.(cx_sites) ∪ dom s.(cx_dirty).

Definition sized (s : ContextStore) : Prop := map_Forall (fun _ c => 0 <= c.(cs_bytes)) s.(cx_sites).

Lemma slen_pos k : 0 <= slen k.
Proof. unfold slen. lia. Qed.

Lemma sum_of_node (l : list (string * Z)) :
  sum_of (fun kv => dirty_node + slen kv.1) l = Z.of_nat (length l) * dirty_node + sum_of (fun kv => slen kv.1) l.
Proof. induction l as [|x l IH]; cbn -[Z.mul]; [lia|]. rewrite IH. lia. Qed.

Lemma state_bytes_total s : sized s -> state_bytes s = Z.min (total_bytes s) u64_max.
Proof.
  intros Hs. unfold state_bytes, total_bytes, msum. rewrite sum_of_node, length_map_to_list, <- !list_fmap_compose.
  pose proof dirty_node_pos as Hd.
  rewrite (fold_saturating (cs_bytes ∘ snd)), (fold_saturating (slen ∘ fst)).
  - unfold saturating_add, compose.
    assert (0 <= sum_of (fun x : string * CachedSite => cs_bytes x.2) (map_to_list (cx_sites s))) by (apply (msum_pos (fun _ c => cs_bytes c)); exact Hs).
    assert (0 <= sum_of (fun x : string * Z => slen x.1) (map_to_list (cx_dirty s))) by (apply sum_of_pos; intros; apply slen_pos).
    unfold u64_max in *. lia.
  - unfold u64_max. lia.
  - intros x _. apply slen_pos.
  - assert (0 <= Z.of_nat (size (cx_dirty s)) * dirty_node) by nia. unfold u64_max. lia.
  - intros [k c] Hk%list_elem_of_In%elem_of_map_to_list. by apply (Hs k c).
Qed.

Lemma resident_count_size key s : resident_count key s = Z.of_nat (size ({[key]} ∪ residents s)).
Proof.
  unfold resident_count, residents.
  assert (Hd : length (List.filter (fun k => bool_decide (s.(cx_sites) !! k = None)) (map_to_list s.(cx_dirty)).*1) = size (dom s.(cx_dirty) ∖ dom s.(cx_sites))).
  { rewrite <- (size_list_to_set (C := gset string) (List.filter _ _)).
    - f_equal. apply set_eq. intros k. rewrite elem_of_list_to_set, elem_of_difference, list_elem_of_In, filter_In, <- list_elem_of_In, bool_decide_eq_true.
      rewrite not_elem_of_dom, elem_of_dom, list_elem_of_fmap. split.
      + intros [([k' v] & -> & Hk%elem_of_map_to_list) Hn]. by split; [eexists|].
      + intros [[v Hv] Hn]. split; [|done]. exists (k, v). split; [done|]. by apply elem_of_map_to_list.
    - apply NoDup_ListNoDup, List.NoDup_filter, NoDup_ListNoDup, NoDup_fst_map_to_list. }
  rewrite Hd. assert (Hu : size (dom s.(cx_sites) ∪ dom s.(cx_dirty)) = (size s.(cx_sites) + size (dom s.(cx_dirty) ∖ dom s.(cx_sites)))%nat).
  { rewrite size_union_alt. by rewrite size_dom. }
  rewrite <- Nat2Z.inj_add, <- Hu. destruct (decide (key ∈ dom s.(cx_sites) ∪ dom s.(cx_dirty))) as [Hk|Hk].
  - assert (Hx : {[key]} ∪ (dom s.(cx_sites) ∪ dom s.(cx_dirty)) = dom s.(cx_sites) ∪ dom s.(cx_dirty)) by set_solver.
    rewrite Hx. case_match eqn:E; [|lia]. exfalso.
    apply andb_true_iff in E as [E1%bool_decide_eq_true E2%bool_decide_eq_true]. apply not_elem_of_dom in E1, E2. set_solver.
  - assert (Hx : ({[key]} : gset string) ## dom s.(cx_sites) ∪ dom s.(cx_dirty)) by set_solver.
    rewrite (size_union _ _ Hx), size_singleton. case_match eqn:E; [lia|]. exfalso.
    apply not_elem_of_union in Hk as [E1%not_elem_of_dom E2%not_elem_of_dom]. by rewrite E1, E2, !bool_decide_eq_true_2 in E.
Qed.

(** ** The limits *)

Record within (s : ContextStore) : Prop := {
  wi_sized : sized s;
  wi_bytes : Z.min (total_bytes s) u64_max <= s.(cx_limits).(cl_max_resident_bytes);
  wi_sites : Z.of_nat (size (residents s)) <= s.(cx_limits).(cl_max_resident_sites);
}.

Lemma node_pos (m : gmap string Z) : map_Forall (fun k (_ : Z) => 0 <= dirty_node + slen k) m.
Proof. intros k v _. pose proof dirty_node_pos. pose proof (slen_pos k). lia. Qed.

Lemma within_less s s' :
  within s -> s'.(cx_limits) = s.(cx_limits) -> s'.(cx_sites) ⊆ s.(cx_sites) -> s'.(cx_dirty) ⊆ s.(cx_dirty) -> within s'.
Proof.
  intros [Hs Hb Hn] L S D. constructor.
  - intros k c Hk. apply (Hs k c). by eapply lookup_weaken.
  - rewrite L. pose proof (msum_subseteq _ _ _ Hs S). pose proof (msum_subseteq _ _ _ (node_pos _) D). unfold total_bytes in *. lia.
  - rewrite L. etransitivity; [|exact Hn]. apply inj_le, subseteq_size. unfold residents.
    pose proof (subseteq_dom _ _ S). pose proof (subseteq_dom _ _ D). set_solver.
Qed.

Lemma within_same s s' : within s -> s'.(cx_limits) = s.(cx_limits) -> s'.(cx_sites) = s.(cx_sites) -> s'.(cx_dirty) = s.(cx_dirty) -> within s'.
Proof. intros Hw L S D. by apply (within_less s); rewrite ?S, ?D. Qed.

Lemma within_room key n d s b s' : within s -> make_room key n d s = (b, s') -> within s'.
Proof.
  unfold make_room. generalize (size (cx_sites s)). intros fuel. revert s. induction fuel as [|fuel IH]; intros s Hw; cbn.
  - by destruct (fits key n d s); intros [= <- <-].
  - destruct (fits key n d s); [by intros [= <- <-]|]. destruct (victim key s) as [v|]; [|by intros [= <- <-]].
    apply IH. eapply within_less; [exact Hw|done|apply delete_subseteq|done].
Qed.

Definition change_dirty (key : string) (d : bool) (rev : Z) (dirty : gmap string Z) : gmap string Z :=
  if d then <[key := rev]> dirty else dirty.

Lemma total_dirty key d rev (dirty : gmap string Z) :
  msum (fun k _ => dirty_node + slen k) (change_dirty key d rev dirty)
  = msum (fun k (_ : Z) => dirty_node + slen k) dirty + (if d && bool_decide (dirty !! key = None) then dirty_node + slen key else 0).
Proof.
  destruct d; cbn; [|lia]. case_bool_decide as E; [rewrite msum_fresh by done; lia|]. destruct (dirty !! key) as [v|] eqn:Ev; [|done].
  rewrite msum_insert, (msum_delete _ dirty key v Ev). lia.
Qed.

(** Room was made for what is then put there. *)
Lemma within_placed key n d rev s s' :
  within s -> fits key n d s = true -> 0 <= n -> s'.(cx_limits) = s.(cx_limits) ->
  s'.(cx_dirty) = change_dirty key d rev s.(cx_dirty) ->
  sized s' -> msum (fun _ c => c.(cs_bytes)) s'.(cx_sites) <= msum (fun _ c => c.(cs_bytes)) (delete key s.(cx_sites)) + n ->
  dom s'.(cx_sites) ⊆ {[key]} ∪ dom s.(cx_sites) -> within s'.
Proof.
  intros [Hs Hb Hn] Hf Hpos L D Hs' Hm Hdom. unfold fits in Hf. apply andb_true_iff in Hf as [Hw%Z.leb_le Hc%Z.leb_le]. constructor; [done| |].
  - rewrite L. unfold wanted_bytes in Hw. rewrite (state_bytes_total s Hs) in Hw.
    pose proof (total_dirty key d rev s.(cx_dirty)) as Ht. rewrite <- D in Ht. pose proof dirty_node_pos. pose proof (slen_pos key).
    pose proof (msum_pos _ _ (node_pos s.(cx_dirty))).
    assert (Hold : msum (fun _ c => c.(cs_bytes)) s.(cx_sites)
                   = match s.(cx_sites) !! key with Some c => c.(cs_bytes) | None => 0 end + msum (fun _ c => c.(cs_bytes)) (delete key s.(cx_sites))).
    { destruct (s.(cx_sites) !! key) as [c|] eqn:E; [by apply (msum_delete (fun _ c => c.(cs_bytes)) _ key c)|]. by rewrite delete_id. }
    assert (0 <= match s.(cx_sites) !! key with Some c => c.(cs_bytes) | None => 0 end) by (destruct (s.(cx_sites) !! key) eqn:E; [by apply (Hs key)|lia]).
    assert (0 <= msum (fun _ c => c.(cs_bytes)) (delete key s.(cx_sites))) by (apply (msum_pos (fun _ c => c.(cs_bytes))), map_Forall_delete, Hs).
    unfold total_bytes, saturating_add, saturating_sub in *. revert Ht Hw. destruct (d && _); unfold u64_max in *; lia.
  - rewrite L. etransitivity; [|exact Hc]. rewrite resident_count_size. apply inj_le, subseteq_size. unfold residents in *. rewrite D.
    destruct d; cbn; rewrite ?dom_insert_L; set_solver.
Qed.

Lemma entry_bytes_pos key site : 0 <= (CachedSite_new key site).(cs_bytes).
Proof.
  pose proof (site_bytes_pos site). pose proof site_node_pos. pose proof (slen_pos key). cbn. unfold saturating_add, u64_max. lia.
Qed.

Lemma within_insert key entry d rev s s' :
  within s -> fits key entry.(cs_bytes) d s = true -> 0 <= entry.(cs_bytes) -> s'.(cx_limits) = s.(cx_limits) ->
  s'.(cx_dirty) = change_dirty key d rev s.(cx_dirty) -> s'.(cx_sites) = (state_insert key entry s).(cx_sites) -> within s'.
Proof.
  intros Hw Hf Hp L D S. eapply (within_placed key entry.(cs_bytes) d rev s); try done; rewrite ?S; cbn.
  - unfold sized. rewrite S. apply map_Forall_insert_2; [done|apply Hw].
  - rewrite msum_insert. cbn. lia.
  - rewrite dom_insert_L. set_solver.
Qed.

(** ** Every operation *)

Definition bounded {A} (m : CxIO A) : Prop := forall s, within s -> within (m s).2.

Lemma bounded_bind {A B} (m : CxIO A) (k : A -> CxIO B) : bounded m -> (forall a, bounded (k a)) -> bounded (sbind m k).
Proof. intros Hm Hk s Hw. unfold sbind. specialize (Hm s Hw). destruct (m s) as [[a|e] s1]; [by apply Hk|done]. Qed.

Lemma bounded_reads {A} (m : CxIO A) : reads m -> bounded m.
Proof. intros Hm s Hw. destruct (Hm s) as (fs & -> & _). by apply (within_same s). Qed.

Lemma bounded_try {A} (m : CxIO A) : bounded m -> bounded (cx_try m).
Proof. intros Hm s Hw. unfold cx_try. specialize (Hm s Hw). by destruct (m s). Qed.

Lemma bounded_get {B} (k : ContextStore -> CxIO B) : (forall s, within s -> within (k s s).2) -> bounded (sbind sget k).
Proof. intros Hk s Hw. by apply Hk. Qed.

Lemma bounded_rewriter key v m : rewriter key v m -> bounded m.
Proof.
  intros Hm s Hw. destruct (m s) as [r s'] eqn:E. apply Hm in E as [(L & _) S D _ _ _]. by apply (within_same s).
Qed.

Lemma bounded_write key site : bounded (write_site key site).
Proof.
  intros s Hw. destruct (write_site key site s) as [r s'] eqn:E. apply write_rewrites in E as [[-> _]|[_ [(L & _) S D _ _ _]]]; [done|].
  by apply (within_same s).
Qed.

Lemma bounded_clean key : bounded (smodify (fun s => s <| cx_dirty := delete key s.(cx_dirty) |>)).
Proof. intros s Hw. eapply within_less; [exact Hw|done|done|apply delete_subseteq]. Qed.

Lemma bounded_settle key rev : bounded (smodify (settle key rev)).
Proof. intros s Hw. cbn. unfold settle. case_match; [by apply (bounded_clean key s)|done]. Qed.

Lemma bounded_flush_key key : bounded (flush_key key).
Proof.
  apply bounded_get. intros s Hw. destruct (s.(cx_dirty) !! key); [|done]. apply bounded_bind; [| |done].
  - apply bounded_try. case_match; [apply bounded_write|eapply bounded_rewriter, remove_rewrites].
  - intros []; [|apply bounded_reads, reads_ret]. apply bounded_bind; [apply bounded_settle|intros; apply bounded_reads, reads_ret].
Qed.

Lemma bounded_flush : bounded flush_locked.
Proof.
  apply bounded_get. intros s0. assert (Hk : forall keys, bounded (flush_keys keys)); [|by apply Hk].
  induction keys as [|key keys IH]; cbn; [apply bounded_reads, reads_ret|].
  apply bounded_bind; [apply bounded_flush_key|]. intros ok. apply bounded_bind; [apply IH|]. intros. apply bounded_reads, reads_ret.
Qed.

Lemma find_room_within key n s r s' :
  within s -> find_room key n s = (r, s') -> within s' /\ (r = Ok true -> fits key n true s' = true).
Proof.
  intros Hw. unfold find_room. destruct (make_room key n true s) as [[] s1] eqn:E1; pose proof (within_room _ _ _ _ _ _ Hw E1) as W1.
  - intros [= <- <-]. split; [done|]. intros _. by apply make_room_fits in E1.
  - pose proof (bounded_flush s1 W1) as W2. destruct (flush_locked s1) as [f s2]. destruct (make_room key n true s2) as [room s3] eqn:E3.
    intros [= <- <-]. split; [by eapply within_room|]. intros [= ->]. by apply make_room_fits in E3.
Qed.

(** Caching a clean site, where there is room. *)
Definition cache_clean (key : string) (entry : CachedSite) (other : ContextStore -> ContextStore) (s : ContextStore) : ContextStore :=
  let '(room, s) := make_room key entry.(cs_bytes) false s in if room : bool then state_insert key entry s else other s.

Lemma within_cache key site other s : (forall s, within s -> within (other s)) -> within s -> within (cache_clean key (CachedSite_new key site) other s).
Proof.
  intros Ho Hw. unfold cache_clean. destruct (make_room key _ false s) as [[] s1] eqn:E; [|by eapply Ho, within_room].
  eapply (within_insert key (CachedSite_new key site) false 0 s1); try done; [by eapply within_room|by apply make_room_fits in E|apply entry_bytes_pos].
Qed.

Lemma within_touch key s : within s -> within (state_get key s).2.
Proof.
  intros Hw. unfold state_get. cbn. destruct (s.(cx_sites) !! key) as [e|] eqn:E; cbn; [|by apply (within_same s)].
  destruct Hw as [Hs Hb Hn]. constructor; cbn.
  - apply map_Forall_insert_2; [|done]. by apply (Hs key e).
  - unfold total_bytes in *. cbn. rewrite msum_insert. cbn. by rewrite <- (msum_delete (fun _ c => c.(cs_bytes)) _ key e E).
  - unfold residents in *. cbn. rewrite dom_insert_L, (subseteq_union_1_L {[key]}); [done|]. apply singleton_subseteq_l, elem_of_dom. by rewrite E.
Qed.

Lemma bounded_site key : bounded (site key).
Proof.
  intros s Hw. unfold site. pose proof (within_touch key s Hw) as W1. destruct (state_get key s) as [[found|] s1]; [done|]. cbn in W1.
  destruct (s1.(cx_dirty) !! key); [done|]. pose proof (bounded_reads _ (reads_load key) s1 W1) as W2.
  destruct (load_envelope key s1) as [[loaded|e] s2]; [|done]. cbn in W2. destruct (visible _ loaded) as [seen|]; [|done].
  pose proof (within_cache key seen id s2 (fun _ w => w) W2) as W3. unfold cache_clean in W3. cbv zeta in *.
  by destruct (make_room key _ false s2) as [[] s3].
Qed.

Lemma bounded_update_base key : bounded (update_base key).
Proof.
  intros s Hw. unfold update_base. pose proof (within_touch key s Hw) as W1. destruct (state_get key s) as [[found|] s1]; [done|]. cbn in W1.
  destruct (s.(cx_dirty) !! key); [done|]. pose proof (bounded_reads _ reads_call s1 W1) as W2. destruct (cx_call s1) as [[]s2]; [|done]. cbn in W2.
  destruct (s2.(cx_files) !! key); [|done]. pose proof (bounded_reads _ (reads_load key) s2 W2) as W3. by destruct (load_envelope key s2) as [[] s3].
Qed.

Lemma bounded_reject : bounded reject_update.
Proof. intros s Hw. by apply (within_same s). Qed.

Lemma bounded_update key f : bounded (update_site key f).
Proof.
  apply bounded_bind; [apply bounded_update_base|]. intros [base|]; [|apply bounded_reject]. apply bounded_get. intros s Hw. cbv zeta.
  set (new := f _). clearbody new. case_match; [by apply bounded_reject|]. case_match; [by apply bounded_reject|]. unfold sbind at 1.
  destruct (find_room key _ s) as [r s1] eqn:E. apply find_room_within in E as [W1 Hf]; [|done]. destruct r as [[]|]; [|by apply bounded_reject|done].
  eapply (within_insert key _ true (wrapping_add s1.(cx_revision) 1) s1); [done|by apply Hf|apply entry_bytes_pos|done..].
Qed.

Lemma bounded_forget key : bounded (forget key).
Proof.
  apply bounded_bind; [apply bounded_reads, reads_call|]. intros []. apply bounded_get. intros s Hw. destruct (s.(cx_files) !! key).
  - unfold sbind at 1. destruct (find_room key 0 s) as [r s1] eqn:E. apply find_room_within in E as [W1 Hf]; [|done]. destruct r as [[]|]; [|done|done].
    unfold sbind at 1, smodify at 1. set (s2 := mark_dirty key _).
    assert (W2 : within s2).
    { eapply (within_placed key 0 true (wrapping_add s1.(cx_revision) 1) s1); [done|by apply Hf|done|done|done| | |]; cbn.
      - apply map_Forall_delete, W1.
      - lia.
      - rewrite dom_delete_L. set_solver. }
    unfold sbind at 1, sget at 1. revert W2. apply bounded_bind; [eapply bounded_rewriter, remove_rewrites|]. intros []. apply bounded_settle.
  - eapply within_less; [exact Hw|done|apply delete_subseteq|apply delete_subseteq].
Qed.

Lemma bounded_sweep_each f keys : (forall key, bounded (f key)) -> bounded (sweep_each f keys).
Proof.
  intros Hf. induction keys as [|key keys IH]; cbn; [apply bounded_reads, reads_ret|].
  apply bounded_bind; [apply Hf|]. intros n. apply bounded_bind; [apply IH|]. intros. apply bounded_reads, reads_ret.
Qed.

Lemma bounded_sweep_resident c key : bounded (sweep_resident c key).
Proof.
  apply bounded_get. intros s Hw. destruct (s.(cx_sites) !! key) as [e|]; [|done]. destruct (prune_site _ _) as [[pr n] ch]. cbv zeta.
  case_match; [done|]. case_match.
  - apply bounded_bind; [eapply bounded_rewriter, remove_rewrites| |done]. intros []. apply bounded_bind; [|intros; apply bounded_reads, reads_ret].
    intros s1 W1. eapply within_less; [exact W1|done|apply delete_subseteq|apply delete_subseteq].
  - apply bounded_bind; [apply bounded_write| |done]. intros []. apply bounded_bind; [|intros; apply bounded_reads, reads_ret].
    intros s1 W1. apply (bounded_clean key) in W1. cbn in W1.
    apply (within_cache key pr (fun s => s <| cx_sites := delete key s.(cx_sites) |>)); [|done].
    intros s2 W2. eapply within_less; [exact W2|done|apply delete_subseteq|done].
Qed.

Lemma bounded_sweep_file c key : bounded (sweep_file c key).
Proof.
  apply bounded_bind; [apply bounded_reads, reads_call|]. intros []. apply bounded_bind; [apply bounded_reads, reads_try, reads_load|].
  intros [loaded|]; [|apply bounded_reads, reads_ret]. apply bounded_get. intros s Hw. destruct (s.(cx_sites) !! key); [done|].
  destruct (prune_site _ _) as [[pr n] ch]. case_match; [|case_match; [|done]]; apply bounded_bind; try done.
  - eapply bounded_rewriter, remove_rewrites.
  - intros. apply bounded_reads, reads_ret.
  - apply bounded_write.
  - intros. apply bounded_reads, reads_ret.
Qed.

Lemma bounded_sweep ttl today : bounded (sweep ttl today).
Proof.
  unfold sweep. apply bounded_bind; [intros s Hw; by apply (within_same s)|]. intros [].
  apply bounded_bind; [apply bounded_reads, reads_get|]. intros s1. apply bounded_bind; [apply bounded_sweep_each, bounded_sweep_resident|]. intros n.
  apply bounded_bind; [apply bounded_reads, reads_call|]. intros []. apply bounded_bind; [apply bounded_reads, reads_get|]. intros s2.
  apply bounded_bind; [apply bounded_sweep_each, bounded_sweep_file|]. intros m. apply bounded_bind; [apply bounded_flush|].
  intros [|k ks]; apply bounded_reads; [apply reads_ret|apply reads_fail].
Qed.

Lemma bounded_list keys : bounded (list_files keys).
Proof.
  apply bounded_reads. induction keys as [|key keys IH]; cbn; [apply reads_ret|]. apply reads_bind; [apply reads_try, reads_call|]. intros c.
  destruct (is_ok c); cbn; [|apply reads_ret]. apply reads_bind; [apply reads_try, reads_load|]. intros r.
  apply reads_bind; [apply reads_get|]. intros s. apply reads_bind; [apply IH|]. intros rest. apply reads_ret.
Qed.

Lemma bounded_list_sites : bounded list_sites.
Proof.
  apply bounded_bind; [|intros found].
  { apply bounded_bind; [apply bounded_reads, reads_try, reads_call|]. intros c. apply bounded_bind; [apply bounded_reads, reads_get|]. intros s.
    destruct (is_ok c); [apply bounded_list|apply bounded_reads, reads_ret]. }
  apply bounded_bind; [apply bounded_reads, reads_get|]. intros s1. apply bounded_reads, reads_ret.
Qed.

Lemma bounded_open_file key : bounded (open_file_into key).
Proof.
  apply bounded_bind; [apply bounded_reads, reads_call|]. intros []. apply bounded_bind; [apply bounded_reads, reads_try, reads_load|].
  intros [loaded|]; [|apply bounded_reads, reads_ret]. intros s Hw. by apply (within_cache key loaded id s).
Qed.

Lemma open_within limits files faults s :
  0 <= limits.(cl_max_resident_bytes) -> 0 <= limits.(cl_max_resident_sites) -> open_with_limits limits files faults = Ok s -> within s.
Proof.
  intros Hb Hn. unfold open_with_limits. case_match; [done|]. set (s0 := MkContextStore limits files faults ∅ ∅ 0 0 0 0 None).
  assert (W0 : within s0).
  { constructor; [apply map_Forall_empty| |]; unfold total_bytes, residents; cbn; rewrite ?msum_empty; [unfold u64_max; cbn; lia|].
    rewrite !dom_empty_L, union_empty_l_L, size_empty. done. }
  assert (Hw : bounded (cx_call ;; cx_call ;; open_files (map_to_list files).*1)).
  { do 2 (apply bounded_bind; [apply bounded_reads, reads_call|intros []]). generalize (map_to_list files).*1. intros keys.
    induction keys as [|key keys IH]; cbn; [apply bounded_reads, reads_ret|]. apply bounded_bind; [apply bounded_open_file|]. by intros []. }
  specialize (Hw s0 W0). destruct ((_ ;; _) s0) as [[[]|] s1]; [|done]. by intros [= <-].
Qed.
End Bounds.
