(* ===== verification/ContextSweep.v ===== *)
(** * What a sweep leaves

    A sweep that succeeds leaves no expired record in memory, and none in the file of a site
    that is not in memory.  It trusts the cache for the others: a site that was pruned when it
    was loaded is in memory without the records its file still has, and no sweep writes it. *)

From S2P Require Import Prelude Ledger ContextStore ContextView ContextOps.
From Stdlib Require Import Ascii.

(** ** Pruning drops what is expired *)

Lemma sum_of_zero {A} (f : A -> Z) l : (forall x, In x l -> f x = 0) -> sum_of f l = 0.
Proof. induction l as [|x l IH]; cbn; [done|]. intros Hz. rewrite IH by auto. rewrite Hz; auto. Qed.

Lemma in_values {V} (m : gmap string V) v : In v (map_to_list m).*2 -> exists k, m !! k = Some v.
Proof. intros ([k w] & -> & Hk)%list_elem_of_In%list_elem_of_fmap. apply elem_of_map_to_list in Hk. eauto. Qed.

Lemma expired_retained c stats : retained c stats = true -> expired c stats = 0.
Proof. unfold expired. by intros ->. Qed.

Lemma expired_prune c site : expired_in c (prune c site) = 0.
Proof.
  apply sum_of_zero. intros page (k & Hk)%in_values. cbn in Hk. apply lookup_omap_Some in Hk as (p & Hp & _).
  unfold prune_page in Hp. case_match; [done|]. injection Hp as <-. cbn. rewrite !sum_of_zero; [done| |].
  - intros label (kl & Hl)%in_values. apply map_lookup_filter_Some in Hl as [_ Hl]. by apply expired_retained.
  - intros form (kf & Hf)%in_values. apply lookup_omap_Some in Hf as (f & Hf & _). apply sum_of_zero. intros control Hc.
    unfold prune_form in Hf. assert (Hin : In control (omap (prune_control c) (fc_controls f))) by (case_match; [done|]; injection Hf as <-; done).
    apply list_elem_of_In, list_elem_of_omap in Hin as (ctl & _ & Hctl). unfold prune_control in Hctl. case_match; [done|]. injection Hctl as <-.
    apply sum_of_zero. intros stats (ks & Hst)%in_values. cbn in Hst. apply map_lookup_filter_Some in Hst as [_ Hst]. by apply expired_retained.
Qed.

Lemma unchanged_expired c site pr n : prune_site site c = (pr, n, false) -> expired_in c site = 0.
Proof. intros [= _ _ [E%negb_false_iff%Z.eqb_eq _]%orb_false_iff]. done. Qed.

(** ** The loops of a sweep *)

Section Sweep.
Context `{SiteCodec, SiteSizes}.

Lemma make_room_frame key n d s b s' :
  make_room key n d s = (b, s') ->
  s'.(cx_sites) ⊆ s.(cx_sites) /\ s'.(cx_limits) = s.(cx_limits) /\ s'.(cx_faults) = s.(cx_faults).
Proof.
  unfold make_room. generalize (size (cx_sites s)). intros fuel. revert s. induction fuel as [|fuel IH]; intros s; cbn.
  - by destruct (fits key n d s); intros [= <- <-].
  - destruct (fits key n d s); [by intros [= <- <-]|]. destruct (victim key s) as [v|]; [|by intros [= <- <-]].
    intros (S & L & F)%IH. split; [|done]. etransitivity; [exact S|]. apply delete_subseteq.
Qed.

(** No record of the site in memory has expired. *)
Definition fresh (c : Z) (s : ContextStore) (key : string) : Prop := forall e, s.(cx_sites) !! key = Some e -> expired_in c e.(cs_site) = 0.

(** No record of the file has expired. *)
Definition file_fresh (c : Z) (s : ContextStore) (key : string) : Prop :=
  forall site, s.(cx_files) !! key ≫= file_site s.(cx_limits) key = Some site -> expired_in c site = 0.

Lemma sweep_resident_fresh c key s n s' :
  sweep_resident c key s = (Ok n, s') ->
  fresh c s' key /\ (forall k, k <> key -> fresh c s k -> fresh c s' k) /\ (s.(cx_faults) = [] -> s'.(cx_faults) = []).
Proof.
  unfold sweep_resident. unfold sbind at 1, sget at 1. destruct (s.(cx_sites) !! key) as [e|] eqn:Es.
  2:{ intros [= _ <-]. split; [|done]. intros e. congruence. }
  destruct (prune_site (cs_site e) c) as [[pr m] ch] eqn:Ep. cbv iota.
  destruct (negb ch && negb (is_empty pr) && _) eqn:Eu.
  { intros [= _ <-]. split; [|done]. intros e' He. rewrite Es in He. injection He as <-. apply andb_true_iff in Eu as [[Eu _]%andb_true_iff _].
    apply negb_true_iff in Eu as ->. by apply unchanged_expired in Ep. }
  injection Ep as <- _ _. destruct (is_empty _).
  - intros ([] & s1 & E1 & E)%sbind_ok. apply remove_rewrites in E1 as [_ S _ _ _ F]. injection E as _ <-. unfold fresh. cbn. rewrite S. split.
    + intros e'. by rewrite lookup_delete_eq.
    + split; [|done]. intros k Hk. by rewrite lookup_delete_ne.
  - intros ([] & s1 & E1 & E)%sbind_ok. apply write_rewrites in E1 as [[_ ?]|[_ [_ S _ _ _ F]]]; [done|]. unfold sbind, smodify, sret in E. cbv zeta in E.
    set (s2 := s1 <| cx_dirty := delete key s1.(cx_dirty) |>) in E. destruct (make_room key _ false s2) as [room s3] eqn:Em. injection E as _ <-.
    apply make_room_frame in Em as (S3 & _ & F3). change (cx_sites s2) with (cx_sites s1) in S3. rewrite S in S3. change (cx_faults s2) with (cx_faults s1) in F3.
    assert (Ho : forall k e', k <> key -> s3.(cx_sites) !! k = Some e' -> s.(cx_sites) !! k = Some e') by (intros; by eapply lookup_weaken).
    unfold fresh. destruct room; cbn; (split; [|split; [|intros Hz; rewrite F3; auto]]).
    + intros e'. rewrite lookup_insert_eq. intros [= <-]. apply expired_prune.
    + intros k Hk Hf e'. rewrite lookup_insert_ne by done. eauto.
    + intros e'. by rewrite lookup_delete_eq.
    + intros k Hk Hf e'. rewrite lookup_delete_ne by done. eauto.
Qed.

Lemma sweep_residents_fresh c keys s n s' :
  sweep_each (sweep_resident c) keys s = (Ok n, s') -> (forall k, k ∈ keys \/ fresh c s k) ->
  (forall k, fresh c s' k) /\ (s.(cx_faults) = [] -> s'.(cx_faults) = []).
Proof.
  revert s n. induction keys as [|key keys IH]; intros s n; cbn.
  - intros [= _ <-] Hf. split; [|done]. intros k. destruct (Hf k) as [Hk|]; [set_solver|done].
  - intros (m & s1 & E1 & E)%sbind_ok Hf. apply sbind_ok in E as (m' & s2 & E2 & [= _ <-]).
    apply sweep_resident_fresh in E1 as (Hkey & Hoth & Hn). apply IH in E2 as [Hall Hn2]; [auto|].
    intros k. destruct (decide (k = key)) as [->|Hk]; [by right|]. destruct (Hf k) as [Hin|Hin]; [left; set_solver|right; auto].
Qed.

Context `{!SiteCodecLaws}.

Lemma sweep_file_fresh c key s n s' :
  s.(cx_faults) = [] -> sweep_file c key s = (Ok n, s') ->
  s'.(cx_sites) = s.(cx_sites) /\ s'.(cx_faults) = [] /\ s'.(cx_limits) = s.(cx_limits) /\
  (s.(cx_sites) !! key = None -> file_fresh c s' key) /\ (forall k, k <> key -> s'.(cx_files) !! k = s.(cx_files) !! k).
Proof.
  intros Hz. unfold sweep_file. unfold sbind at 1. rewrite cx_call_calm by done. unfold sbind at 1, cx_try.
  destruct (load_calm key s Hz) as (r & -> & Hr). destruct r as [loaded|e].
  2:{ intros [= _ <-]. repeat split; try done. intros _ site Hs. congruence. }
  unfold sbind at 1, sget at 1. destruct (s.(cx_sites) !! key) as [e|] eqn:Es; [intros [= _ <-]; by repeat split|].
  destruct (prune_site loaded c) as [[pr m] ch] eqn:Ep. cbv iota. destruct (is_empty pr); [|destruct ch].
  - intros ([] & s1 & E1 & [= _ <-])%sbind_ok. apply remove_rewrites in E1 as [(L & _ & O) S _ _ Hok F].
    repeat split; [by rewrite S|by apply F|done| |by intros; apply O]. intros _ site. by rewrite Hok.
  - injection Ep as <- _ _. intros ([] & s1 & E1 & [= _ <-])%sbind_ok. apply write_rewrites in E1 as [[_ ?]|[Hck [(L & _ & O) S _ _ Hok F]]]; [done|].
    repeat split; [by rewrite S|by apply F|done| |by intros; apply O]. intros _ site. rewrite Hok, L by done. cbn [mbind option_bind].
    rewrite (written_reads_back _ _ _ Hck). intros [= <-]. apply expired_prune.
  - intros [= _ <-]. repeat split; try done. intros _ site Hs. rewrite <- Hr in Hs. injection Hs as <-. by apply unchanged_expired in Ep.
Qed.

Lemma sweep_files_fresh c keys s n s' :
  s.(cx_faults) = [] -> sweep_each (sweep_file c) keys s = (Ok n, s') ->
  (forall k, k ∈ keys \/ s.(cx_sites) !! k <> None \/ file_fresh c s k) ->
  s'.(cx_sites) = s.(cx_sites) /\ s'.(cx_limits) = s.(cx_limits) /\ forall k, s.(cx_sites) !! k = None -> file_fresh c s' k.
Proof.
  revert s n. induction keys as [|key keys IH]; intros s n Hz; cbn.
  - intros [= _ <-] Hf. repeat split; try done. intros k Hk. destruct (Hf k) as [?|[?|?]]; [set_solver|done|done].
  - intros (m & s1 & E1 & E)%sbind_ok Hf. apply sbind_ok in E as (m' & s2 & E2 & [= _ <-]).
    apply sweep_file_fresh in E1 as (S & Hz1 & L & Hkey & Hoth); [|done]. apply IH in E2 as (S2 & L2 & Hall); [|done|].
    + rewrite S2, L2, S, L in *. done.
    + intros k. rewrite S. destruct (decide (k = key)) as [->|Hk].
      * right. destruct (s.(cx_sites) !! key) eqn:Es; [by left|right; auto].
      * destruct (Hf k) as [Hin|[Hin|Hin]]; [left; set_solver|by auto|]. right. right. unfold file_fresh. by rewrite Hoth, L.
Qed.

Lemma flush_key_fresh c key s ok s' :
  flush_key key s = (Ok ok, s') ->
  s'.(cx_sites) = s.(cx_sites) /\ forall k, s.(cx_sites) !! k = None -> file_fresh c s k -> file_fresh c s' k.
Proof.
  unfold flush_key. unfold sbind at 1, sget at 1. destruct (s.(cx_dirty) !! key); [|by intros [= _ <-]]. unfold sbind at 1, cx_try.
  destruct (s.(cx_sites) !! key) as [e|] eqn:Es.
  - destruct (write_site key (cs_site e) s) as [r s1] eqn:E1. assert (Hk : s1.(cx_sites) = s.(cx_sites) /\ forall k, s.(cx_sites) !! k = None -> file_fresh c s k -> file_fresh c s1 k).
    { apply write_rewrites in E1 as [[-> _]|[_ [(L & _ & O) S _ _ _ _]]]; [done|]. split; [done|]. intros k Hk. unfold file_fresh.
      destruct (O k) as (_ & _ & ->); [congruence|]. by rewrite L. }
    destruct r; intros [= _ <-]; [unfold settle; case_match|]; exact Hk.
  - destruct (remove_site_file key s) as [r s1] eqn:E1. assert (Hk : s1.(cx_sites) = s.(cx_sites) /\ forall k, s.(cx_sites) !! k = None -> file_fresh c s k -> file_fresh c s1 k).
    { apply remove_rewrites in E1 as [(L & _ & O) S _ F _ _]. split; [done|]. intros k Hk. unfold file_fresh. rewrite L.
      destruct (decide (k = key)) as [->|Hne]; [|by destruct (O k Hne) as (_ & _ & ->)]. by destruct F as [-> | ->]. }
    destruct r; intros [= _ <-]; [unfold settle; case_match|]; exact Hk.
Qed.

Lemma flush_keys_fresh c keys s failed s' :
  flush_keys keys s = (Ok failed, s') ->
  s'.(cx_sites) = s.(cx_sites) /\ forall k, s.(cx_sites) !! k = None -> file_fresh c s k -> file_fresh c s' k.
Proof.
  revert s failed. induction keys as [|key keys IH]; intros s failed; cbn; [by intros [= _ <-]|].
  intros (ok & s1 & E1 & E)%sbind_ok. apply sbind_ok in E as (f & s2 & E2 & [= _ <-]).
  destruct (flush_key_fresh c key s ok s1 E1) as [S1 K1]. apply IH in E2 as [S2 K2]. rewrite S2, S1 in *. split; [done|]. auto.
Qed.

(** A site as it is kept: in memory, or else in its file. *)
Definition kept_as (s : ContextStore) (key : string) (site : SiteContext) : Prop :=
  match s.(cx_sites) !! key with
  | Some e => e.(cs_site) = site
  | None => s.(cx_files) !! key ≫= file_site s.(cx_limits) key = Some site
  end.

(** C34: a sweep that succeeds, with no call of the file system failing, leaves no expired
    record: neither in a site that is in memory, nor in the file of one that is not. *)
Theorem sweep_leaves_nothing_expired ttl today s n s' key site :
  s.(cx_faults) = [] -> sweep ttl today s = (Ok n, s') -> kept_as s' key site -> expired_in (saturating_sub today ttl) site = 0.
Proof.
  intros Hz. unfold sweep. set (c := saturating_sub today ttl). intros ([] & s0 & [= <-] & E)%sbind_ok.
  apply sbind_ok in E as (sa & ? & [= <- <-] & E). apply sbind_ok in E as (n1 & s1 & E1 & E).
  apply sweep_residents_fresh in E1 as [Hf1 Hz1].
  2:{ intros k. unfold fresh. cbn. destruct (s.(cx_sites) !! k) as [e|] eqn:Es; [left|by right]. apply list_elem_of_fmap. exists (k, e).
      split; [done|]. by apply elem_of_map_to_list. }
  specialize (Hz1 Hz). apply sbind_ok in E as ([] & s2 & E2 & E). rewrite cx_call_calm in E2 by done. injection E2 as <-.
  apply sbind_ok in E as (sb & ? & [= <- <-] & E). apply sbind_ok in E as (n2 & s3 & E3 & E).
  apply sweep_files_fresh in E3 as (S3 & L3 & Hf3); [|done|].
  2:{ intros k. destruct (s1.(cx_files) !! k) as [f|] eqn:Ef; [left|right; right; intros site'; by rewrite Ef]. apply list_elem_of_fmap. exists (k, f).
      split; [done|]. by apply elem_of_map_to_list. }
  apply sbind_ok in E as (failed & s4 & E4 & E). assert (s' = s4) as -> by (destruct failed; [by injection E|done]).
  unfold flush_locked in E4. apply sbind_ok in E4 as (sc & ? & [= <- <-] & E4). apply (flush_keys_fresh c) in E4 as [S4 K4].
  unfold kept_as. rewrite S4, S3. destruct (s1.(cx_sites) !! key) as [e|] eqn:Es; [intros <-; by apply (Hf1 key e)|].
  rewrite S3 in K4. by apply K4, Hf3.
Qed.
End Sweep.
