(* ===== verification/ContextStoreThms.v ===== *)
(** * What the context store promises

    The cache, its evictions, the buffered writes and failing calls of the file system cannot
    be seen: the store behaves as one map from site keys to what is still retained of them,
    which updates, erasures and sweeps change and nothing else.  What a flush wrote is there
    when the store is opened again; the cache stays within its limits; a sweep leaves no
    expired record behind, except in the file of a site it finds in memory. *)

From S2P Require Import Prelude Ledger Json ContextStore ContextView ContextOps ContextBounds ContextSweep.
From Stdlib Require Import Ascii.

(** ** The specification: a map *)

Record Memory := MkMemory {
  me_cutoff : option Z;
  me_site : string -> option SiteContext;
}.

Definition same (m m' : Memory) : Prop := m'.(me_cutoff) = m.(me_cutoff) /\ forall k, m'.(me_site) k = m.(me_site) k.

#[export] Instance same_equivalence : Equivalence same.
Proof.
  split; [done|intros m m' [E V]; by split; auto|]. intros m1 m2 m3 [E V] [E' V']. split; [congruence|]. intros k. by rewrite V'.
Qed.

#[export] Instance me_cutoff_proper : Proper (same ==> eq) me_cutoff.
Proof. by intros m m' [E _]. Qed.

#[export] Instance me_site_proper : Proper (same ==> eq ==> eq) me_site.
Proof. by intros m m' [_ V] k _ <-. Qed.

Definition put (key : string) (o : option SiteContext) (m m' : Memory) : Prop :=
  m'.(me_cutoff) = m.(me_cutoff) /\ m'.(me_site) key = o /\ forall k, k <> key -> m'.(me_site) k = m.(me_site) k.

Inductive CxOp :=
| CxSite (key : string)
| CxUpdate (key : string) (update : SiteContext -> SiteContext)
| CxForget (key : string)
| CxFlush
| CxSweep (ttl_days today : Z)
| CxListSites.

Inductive CxAnswer :=
| AnSite (r : result (option SiteContext) ContextStoreError)
| AnUpdated (r : result bool ContextStoreError)
| AnForgot (r : result unit ContextStoreError)
| AnFlushed (r : result (list string) ContextStoreError)
| AnSwept (r : result Z ContextStoreError)
| AnListed (r : result (gset string) ContextStoreError).

(** What a map may answer, and what it then is.  Where a call of the file system fails, a
    site may be missed; an update may be refused, which leaves the map as it is. *)
Definition allowed (calm : bool) (op : CxOp) (an : CxAnswer) (m m' : Memory) : Prop :=
  match op, an with
  | CxSite key, AnSite r => same m m' /\ exists o, r = Ok o /\ (o = m.(me_site) key \/ o = None /\ calm = false)
  | CxUpdate key f, AnUpdated r =>
      r = Ok false /\ same m m' \/
      r = Ok true /\ put key (visible m.(me_cutoff) (f (default SiteContext_default (m.(me_site) key)))) m m'
  | CxForget key, AnForgot r => put key None m m' \/ is_ok r = false /\ same m m'
  | CxFlush, AnFlushed _ => same m m'
  | CxSweep ttl today, AnSwept _ =>
      let c := saturating_sub today ttl in
      m'.(me_cutoff) = Some c /\ forall k, m'.(me_site) k = m.(me_site) k ≫= visible (Some c)
  | CxListSites, AnListed r =>
      same m m' /\ exists found, r = Ok found /\ (forall k, k ∈ found -> is_Some (m.(me_site) k))
        /\ (calm = true -> forall k, is_Some (m.(me_site) k) -> k ∈ found)
  | _, _ => False
  end.

#[export] Instance put_proper key : Proper (eq ==> same ==> same ==> iff) (put key).
Proof.
  intros o _ <- m1 m2 [E V] m1' m2' [E' V']. unfold put. rewrite E, E', V'. setoid_rewrite V. by setoid_rewrite V'.
Qed.

#[export] Instance allowed_proper calm op an : Proper (same ==> same ==> iff) (allowed calm op an).
Proof.
  intros m1 m2 Hm m1' m2' Hm'. destruct op, an; cbn; try done.
  - rewrite Hm, Hm'. by setoid_rewrite Hm.
  - by rewrite Hm, Hm'.
  - by rewrite Hm, Hm'.
  - by rewrite Hm, Hm'.
  - rewrite Hm'. setoid_rewrite Hm. by setoid_rewrite Hm'.
  - rewrite Hm, Hm'. by setoid_rewrite Hm.
Qed.

(** A history the map can have. *)
Inductive follows : list CxOp -> list (bool * CxAnswer) -> Memory -> Memory -> Prop :=
| follows_nil m m' : same m m' -> follows [] [] m m'
| follows_cons op ops calm an ans m m1 m' :
    allowed calm op an m m1 -> follows ops ans m1 m' -> follows (op :: ops) ((calm, an) :: ans) m m'.

(** The day a sweep is told never moves the cutoff back. *)
Fixpoint forward (c : option Z) (ops : list CxOp) : Prop :=
  match ops with
  | [] => True
  | CxSweep ttl today :: ops => cutoff_le c (saturating_sub today ttl) /\ forward (Some (saturating_sub today ttl)) ops
  | _ :: ops => forward c ops
  end.

Section Store.
Context `{SiteCodec, SiteSizes}.

Definition run_op (op : CxOp) (s : ContextStore) : CxAnswer * ContextStore :=
  match op with
  | CxSite key => let '(r, s) := site key s in (AnSite r, s)
  | CxUpdate key f => let '(r, s) := update_site key f s in (AnUpdated r, s)
  | CxForget key => let '(r, s) := forget key s in (AnForgot r, s)
  | CxFlush => let '(r, s) := flush_locked s in (AnFlushed r, s)
  | CxSweep ttl today => let '(r, s) := sweep ttl today s in (AnSwept r, s)
  | CxListSites => let '(r, s) := list_sites s in (AnListed r, s)
  end.

(** Each answer comes with whether a call could still fail. *)
Fixpoint run_ops (ops : list CxOp) (s : ContextStore) : list (bool * CxAnswer) * ContextStore :=
  match ops with
  | [] => ([], s)
  | op :: ops =>
      let calm := match s.(cx_faults) with [] => true | _ => false end in
      let '(an, s) := run_op op s in let '(ans, s) := run_ops ops s in ((calm, an) :: ans, s)
  end.

Definition memory (s : ContextStore) : Memory := MkMemory s.(cx_retention_cutoff) (view s).

Context `{!SiteCodecLaws}.

Lemma unseen_memory s s' : unseen s s' -> same (memory s) (memory s').
Proof. by intros []. Qed.

Lemma changed_memory key o s s' : changed key o s s' -> put key o (memory s) (memory s').
Proof. by intros []. Qed.

Definition next_cutoff (op : CxOp) (c : option Z) : option Z :=
  match op with CxSweep ttl today => Some (saturating_sub today ttl) | _ => c end.

(** Every operation is one the map can do. *)
Lemma run_op_allowed op s an s' :
  coherent s -> match op with CxSweep ttl today => cutoff_le s.(cx_retention_cutoff) (saturating_sub today ttl) | _ => True end ->
  run_op op s = (an, s') ->
  coherent s' /\ s'.(cx_limits) = s.(cx_limits) /\ s'.(cx_retention_cutoff) = next_cutoff op s.(cx_retention_cutoff)
  /\ allowed (match s.(cx_faults) with [] => true | _ => false end) op an (memory s) (memory s').
Proof.
  intros Hc Hle. destruct op as [key|key f|key| |ttl today|]; cbn [run_op next_cutoff allowed].
  - destruct (site key s) as [r s1] eqn:E. intros [= <- <-]. destruct (site_exact _ _ _ _ Hc E) as (U & o & -> & Ho).
    do 3 (split; [apply U|]). split; [by apply unseen_memory|]. exists o. split; [done|]. destruct Ho as [Ho|(Ho & Hf)]; [by left|right].
    split; [done|]. by case_match.
  - destruct (update_site key f s) as [r s1] eqn:E. intros [= <- <-].
    destruct (update_site_spec _ _ _ _ _ Hc E) as [(-> & U)|(-> & U)]; do 3 (split; [apply U|]).
    + left. split; [done|by apply unseen_memory].
    + right. split; [done|by apply changed_memory].
  - destruct (forget key s) as [r s1] eqn:E. intros [= <- <-]. destruct (forget_spec _ _ _ _ Hc E) as [U|[Hr U]]; do 3 (split; [apply U|]).
    + left. by apply changed_memory.
    + right. split; [done|by apply unseen_memory].
  - destruct (flush_locked s) as [r s1] eqn:E. intros [= <- <-]. destruct (flush_hidden _ _ _ Hc I E) as [U _].
    do 3 (split; [apply U|]). by apply unseen_memory.
  - destruct (sweep ttl today s) as [r s1] eqn:E. intros [= <- <-]. by apply sweep_spec in E as [L C Hs V].
  - destruct (list_sites s) as [r s1] eqn:E. intros [= <- <-]. destruct (list_sites_exact _ _ _ Hc E) as (U & found & -> & Hin & Hall).
    do 3 (split; [apply U|]). split; [by apply unseen_memory|]. exists found. split; [done|]. split; [done|].
    intros Hcalm. apply Hall. by case_match.
Qed.

Lemma run_ops_follow ops s ans s' :
  coherent s -> forward s.(cx_retention_cutoff) ops -> run_ops ops s = (ans, s') ->
  coherent s' /\ s'.(cx_limits) = s.(cx_limits) /\ follows ops ans (memory s) (memory s').
Proof.
  revert s ans s'. induction ops as [|op ops IH]; intros s ans s' Hc Hf; cbn [run_ops].
  { intros [= <- <-]. split; [done|]. split; [done|]. by apply follows_nil. }
  destruct (run_op op s) as [an s1] eqn:E. destruct (run_ops ops s1) as [ans1 s2] eqn:E2. intros [= <- <-].
  apply run_op_allowed in E as (Hc1 & L1 & Hcut & Ha); [|done|by destruct op; cbn in Hf; try done; destruct Hf].
  destruct (IH s1 ans1 s2 Hc1) as (Hc2 & L2 & Hfol); [|done|].
  { rewrite Hcut. destruct op; cbn in *; try done. by destruct Hf. }
  split; [done|]. split; [congruence|]. by eapply follows_cons.
Qed.

Lemma follows_from ops ans m0 m m' : same m0 m -> follows ops ans m m' -> follows ops ans m0 m'.
Proof.
  intros Hs Hf. destruct Hf as [m m' Hm|op ops calm an ans m m1 m' Ha Hf]; [apply follows_nil; by rewrite Hs|].
  eapply follows_cons; [|exact Hf]. by rewrite Hs.
Qed.

(** C24: the context store is a map from site keys to what is retained of them, as long as
    no sweep is told a cutoff day before that of an earlier one (the store does not enforce
    this; [moved_back_cutoff_shows_again] is a history without it).  Whatever is evicted
    from the cache, is still buffered, or fails in the file system, a history of its
    operations is one of the map: a read answers what the map holds (or nothing, where calls
    may fail), an update applies to what the map holds or is refused and changes nothing, an
    erasure that succeeds erases even if the file is still there, one that fails erases or
    changes nothing, a flush changes nothing, a sweep hides what has expired even if it
    fails, and the listing is the domain of the map (a part of it, where calls may
    fail). *)
Theorem context_store_is_a_map limits files faults ops s ans s' :
  open_with_limits limits files faults = Ok s -> forward None ops -> run_ops ops s = (ans, s') ->
  follows ops ans (MkMemory None (fun k => files !! k ≫= file_site limits k)) (memory s').
Proof.
  intros (Hc & _ & C & V)%open_spec Hf E. rewrite <- C in Hf. destruct (run_ops_follow _ _ _ _ Hc Hf E) as (_ & _ & Hfol).
  eapply follows_from; [|exact Hfol]. split; [done|]. intros k. apply V.
Qed.

(** ** What was flushed *)

Lemma flush_key_dirty key s ok s' :
  flush_key key s = (Ok ok, s') -> s'.(cx_dirty) = if ok : bool then delete key s.(cx_dirty) else s.(cx_dirty).
Proof.
  unfold flush_key. unfold sbind at 1, sget at 1. destruct (s.(cx_dirty) !! key) eqn:Ed; [|by intros [= <- <-]; rewrite delete_id].
  unfold sbind at 1, cx_try. assert (Hrw : exists r s1, match s.(cx_sites) !! key with Some entry => write_site key entry.(cs_site) | None => remove_site_file key end s = (r, s1)
    /\ s1.(cx_dirty) = s.(cx_dirty)).
  { destruct (s.(cx_sites) !! key) as [e|].
    - destruct (write_site key _ s) as [r s1] eqn:E. exists r, s1. split; [done|]. by apply write_rewrites in E as [[-> _]|[_ []]].
    - destruct (remove_site_file key s) as [r s1] eqn:E. exists r, s1. split; [done|]. by apply remove_rewrites in E as []. }
  destruct Hrw as (r & s1 & -> & D). destruct r; intros [= <- <-]; [|done]. unfold settle. rewrite D, Ed, bool_decide_eq_true_2 by done. done.
Qed.

Lemma flush_keys_dirty keys s s' : flush_keys keys s = (Ok [], s') -> forall k, k ∈ keys \/ s.(cx_dirty) !! k = None -> s'.(cx_dirty) !! k = None.
Proof.
  revert s. induction keys as [|key keys IH]; intros s; cbn; [intros [= <-] k [Hk|Hk]; [set_solver|done]|].
  intros (ok & s1 & E1 & E)%sbind_ok k Hk. apply sbind_ok in E as (f & s2 & E2 & E). destruct ok; [|done]. injection E as -> ->.
  apply flush_key_dirty in E1. apply (IH _ E2). rewrite E1. destruct (decide (k = key)) as [->|Hne]; [right; apply lookup_delete_eq|].
  destruct Hk as [Hk|Hk]; [left; set_solver|right]. by rewrite lookup_delete_ne.
Qed.

(** C29: a flush that reports no failure has made everything durable: after any history in
    which no sweep is told a cutoff day before that of an earlier one, the store that is
    opened from the files shows, site by site, what was seen before the flush, once it is
    pruned at the same cutoff. *)
Theorem flushed_is_durable limits files faults ops s ans s1 s2 faults' s3 :
  open_with_limits limits files faults = Ok s -> forward None ops -> run_ops ops s = (ans, s1) ->
  flush_locked s1 = (Ok [], s2) -> open_with_limits limits s2.(cx_files) faults' = Ok s3 ->
  forall key, (memory s3).(me_site) key ≫= visible s1.(cx_retention_cutoff) = (memory s1).(me_site) key.
Proof.
  intros (Hc & L0 & C0 & _)%open_spec Hf E Efl (_ & _ & _ & V3)%open_spec key. cbn. rewrite <- C0 in Hf.
  destruct (run_ops_follow _ _ _ _ Hc Hf E) as (Hc1 & L1 & _). destruct (flush_hidden _ _ _ Hc1 I Efl) as [U _].
  assert (Hd : s2.(cx_dirty) !! key = None).
  { unfold flush_locked in Efl. apply sbind_ok in Efl as (? & ? & [= <- <-] & Efl). apply (flush_keys_dirty _ _ _ Efl).
    destruct (s1.(cx_dirty) !! key) as [v|] eqn:Ed; [left|by right]. apply list_elem_of_fmap. exists (key, v). split; [done|]. by apply elem_of_map_to_list. }
  rewrite V3, <- (un_view _ _ U), <- (un_cutoff _ _ U). assert (Hv : view s2 key = file_view s2 key).
  { unfold view. destruct (s2.(cx_sites) !! key) as [e|] eqn:Es; [by apply U|by rewrite Hd]. }
  rewrite Hv. unfold file_view. by rewrite (un_limits _ _ U), L1, L0.
Qed.

(** ** The cache *)

Context `{!SiteSizesLaws}.

Lemma bounded_op op s : within s -> within (run_op op s).2.
Proof.
  intros Hw. destruct op as [key|key f|key| |ttl today|]; cbn [run_op].
  - pose proof (bounded_site key s Hw). by destruct (site key s).
  - pose proof (bounded_update key f s Hw). by destruct (update_site key f s).
  - pose proof (bounded_forget key s Hw). by destruct (forget key s).
  - pose proof (bounded_flush s Hw). by destruct (flush_locked s).
  - pose proof (bounded_sweep ttl today s Hw). by destruct (sweep ttl today s).
  - pose proof (bounded_list_sites s Hw). by destruct (list_sites s).
Qed.

Lemma run_ops_within ops s ans s' : within s -> run_ops ops s = (ans, s') -> within s'.
Proof.
  revert s ans. induction ops as [|op ops IH]; intros s ans Hw; cbn; [by intros [= _ <-]|].
  pose proof (bounded_op op s Hw) as W1. destruct (run_op op s) as [an s1]. destruct (run_ops ops s1) eqn:E. intros [= _ <-]. by eapply IH.
Qed.

(** Whatever happens to it, the cache holds no more sites and pending changes than its
    limit, and no more bytes. *)
Theorem cache_within_limits limits files faults ops s ans s' :
  0 <= limits.(cl_max_resident_bytes) -> 0 <= limits.(cl_max_resident_sites) ->
  open_with_limits limits files faults = Ok s -> run_ops ops s = (ans, s') ->
  Z.of_nat (size (dom s'.(cx_sites) ∪ dom s'.(cx_dirty))) <= s'.(cx_limits).(cl_max_resident_sites)
  /\ state_bytes s' <= s'.(cx_limits).(cl_max_resident_bytes).
Proof.
  intros Hb Hn Ho Hr. apply open_within in Ho; [|done|done]. pose proof (run_ops_within _ _ _ _ Ho Hr) as Hw.
  split; [apply Hw|]. rewrite state_bytes_total by apply Hw. apply Hw.
Qed.
End Store.

(** ** Sample runs *)

Module SampleContext.
#[export] Instance RecordSource_eq_dec : EqDecision RecordSource.
Proof. solve_decision. Defined.
#[export] Instance RecordSource_countable : Countable RecordSource.
Proof.
  refine (inj_countable' (fun s => match s with Observed => true | VisionPromoted => false end) (fun b : bool => if b then Observed else VisionPromoted) _).
  by intros [].
Defined.
#[export] Instance IntentStats_eq_dec : EqDecision IntentStats.
Proof. solve_decision. Defined.
#[export] Instance IntentStats_countable : Countable IntentStats.
Proof.
  refine (inj_countable' (fun s => (is_success_count s, is_failure_count s, is_last_verified_day s, is_source s)) (fun '(a, b, c, d) => MkIntentStats a b c d) _).
  by intros [].
Defined.
#[export] Instance ControlContext_eq_dec : EqDecision ControlContext.
Proof. solve_decision. Defined.
#[export] Instance ControlContext_countable : Countable ControlContext.
Proof.
  refine (inj_countable' (fun c => (cc_role c, cc_accessible_name c, cc_ordinal c, cc_form_membership c, cc_intents c))
            (fun '(a, b, c, d, e) => MkControlContext a b c d e) _).
  by intros [].
Defined.
#[export] Instance LabelContext_eq_dec : EqDecision LabelContext.
Proof. solve_decision. Defined.
#[export] Instance LabelContext_countable : Countable LabelContext.
Proof.
  refine (inj_countable' (fun c => (lc_role c, lc_accessible_name c, lc_ordinal c, lc_stats c)) (fun '(a, b, c, d) => MkLabelContext a b c d) _).
  by intros [].
Defined.
#[export] Instance FormContext_eq_dec : EqDecision FormContext.
Proof. solve_decision. Defined.
#[export] Instance FormContext_countable : Countable FormContext.
Proof. refine (inj_countable' fc_controls MkFormContext _). by intros []. Defined.
#[export] Instance PageContext_eq_dec : EqDecision PageContext.
Proof. solve_decision. Defined.
#[export] Instance PageContext_countable : Countable PageContext.
Proof. refine (inj_countable' (fun p => (pc_forms p, pc_labels p)) (fun '(a, b) => MkPageContext a b) _). by intros []. Defined.
#[export] Instance ChallengeStats_eq_dec : EqDecision ChallengeStats.
Proof. solve_decision. Defined.
#[export] Instance ChallengeStats_countable : Countable ChallengeStats.
Proof.
  refine (inj_countable' (fun s => (ch_success_count s, ch_failure_count s, ch_last_verified_day s)) (fun '(a, b, c) => MkChallengeStats a b c) _).
  by intros [].
Defined.
#[export] Instance SiteContext_eq_dec : EqDecision SiteContext.
Proof. solve_decision. Defined.
#[export] Instance SiteContext_countable : Countable SiteContext.
Proof. refine (inj_countable' (fun p => (sc_pages p, sc_challenges p)) (fun '(a, b) => MkSiteContext a b) _). by intros []. Defined.

Definition verified (day : Z) : LabelContext := MkLabelContext "button" "Go" None (MkIntentStats 1 0 (Some day) (Some VisionPromoted)).
Definition failed : LabelContext := MkLabelContext "button" "No" None (MkIntentStats 0 1 None None).

Definition two_labels : SiteContext := MkSiteContext {["/" := MkPageContext ∅ {["go" := verified 100; "no" := failed]}]} ∅.
Definition one_label : SiteContext := MkSiteContext {["/" := MkPageContext ∅ {["go" := verified 100]}]} ∅.

(** Sites that are used here have short names; any other site is written in binary. *)
#[export] Instance codec : SiteCodec := {|
  envelope_bytes schema key site :=
    if bool_decide (schema = SCHEMA_VERSION /\ site = two_labels) then "2"%char :: String.list_ascii_of_string key
    else if bool_decide (schema = SCHEMA_VERSION /\ site = one_label) then "1"%char :: String.list_ascii_of_string key
    else "#"%char :: SampleJson.digits (encode (schema, key, site));
  envelope_of_bytes b :=
    match b with
    | c :: b =>
        if Ascii.eqb c "2" then Some (SCHEMA_VERSION, String.string_of_list_ascii b, two_labels)
        else if Ascii.eqb c "1" then Some (SCHEMA_VERSION, String.string_of_list_ascii b, one_label)
        else SampleJson.undigits b ≫= decode
    | [] => None
    end;
|}.

#[export] Instance codec_laws : SiteCodecLaws.
Proof.
  constructor. intros schema key site. cbn. case_bool_decide as E2; [destruct E2 as [-> ->]; cbn; by rewrite String.string_of_list_ascii_of_string|].
  case_bool_decide as E1; [destruct E1 as [-> ->]; cbn; by rewrite String.string_of_list_ascii_of_string|]. cbn.
  rewrite <- (app_nil_r (SampleJson.digits _)), SampleJson.undigits_of by done. cbn. by rewrite decode_encode.
Qed.

#[export] Instance sizes : SiteSizes := {| site_bytes _ := 10; site_node := 1; dirty_node := 1 |}.
#[export] Instance sizes_laws : SiteSizesLaws.
Proof. constructor; cbn; lia. Qed.

(** One site at a time in memory. *)
Definition limits : ContextLimits := MkContextLimits 100 100 1 100.

Definition opened : ContextStore := MkContextStore limits ∅ [] ∅ ∅ 0 0 0 0 None.
Lemma store_opens : open_with_limits limits ∅ [] = Ok opened.
Proof. by_eval. Qed.

(** A site whose page has a failed label is written, evicted and loaded again. *)
Definition shielding : list CxOp :=
  [CxSweep 30 100; CxUpdate "a" (fun _ => two_labels); CxFlush; CxUpdate "b" (fun _ => one_label); CxFlush; CxSite "a"].

Definition file_of (s : ContextStore) (key : string) : option SiteContext := s.(cx_files) !! key ≫= file_site s.(cx_limits) key.

Definition after : ContextStore := (run_ops shielding opened).2.

(** The sweep reports success, and the file keeps a record that was never verified: the site
    that is in memory was pruned when it was loaded, so the sweep has nothing to write. *)
Lemma shielded_file_keeps_expired :
  let '(r, s') := sweep 30 101 after in
  r = Ok 0 /\ expired_in 71 <$> file_of s' "a" = Some 1.
Proof.
  assert (E : ((sweep 30 101 after).1, expired_in 71 <$> file_of (sweep 30 101 after).2 "a") = (Ok 0, Some 1)) by by_eval.
  destruct (sweep 30 101 after) as [r s']. cbn in E. injection E as -> ->. done.
Qed.

(** Without a failure, a record that a sweep has hidden is shown again by a sweep with an
    earlier cutoff: the site in memory was pruned when it was loaded, and its file was not. *)
Definition turned_back : list CxOp :=
  [CxSweep 0 130; CxUpdate "a" (fun _ => two_labels); CxFlush; CxUpdate "b" (fun _ => one_label); CxFlush; CxSite "a";
   CxUpdate "b" (fun _ => one_label); CxFlush; CxSweep 30 100; CxSite "a"].

Definition site_answers (ans : list (bool * CxAnswer)) : list (option SiteContext) :=
  omap (fun x => match x.2 with AnSite (Ok o) => Some o | _ => None end) ans.

Lemma moved_back_cutoff_shows_again : site_answers (run_ops turned_back opened).1 = [None; Some one_label].
Proof. by_eval. Qed.

Lemma shielding_forward : forward None shielding.
Proof. by repeat split. Qed.

Lemma context_store_is_a_map_witness :
  follows shielding (run_ops shielding opened).1 (MkMemory None (fun k => (∅ : gmap string CtxFile) !! k ≫= file_site limits k)) (memory after)
  /\ (memory after).(me_site) "a" = Some one_label.
Proof.
  split; [|by_eval]. apply (context_store_is_a_map limits ∅ [] shielding opened); [exact store_opens|exact shielding_forward|]. apply surjective_pairing.
Defined.

Lemma after_flushes : (flush_locked after).1 = Ok [].
Proof. by_eval. Qed.

Lemma after_reopens : is_ok (open_with_limits limits (flush_locked after).2.(cx_files) []) = true.
Proof. by_eval. Qed.

Lemma flushed_is_durable_witness :
  exists s3, open_with_limits limits (flush_locked after).2.(cx_files) [] = Ok s3
    /\ (memory s3).(me_site) "a" ≫= visible after.(cx_retention_cutoff) = (memory after).(me_site) "a".
Proof.
  pose proof after_reopens as Ho. apply is_ok_true in Ho as (s3 & E). exists s3. split; [exact E|].
  exact (flushed_is_durable limits ∅ [] shielding opened (run_ops shielding opened).1 after (flush_locked after).2 [] s3
           store_opens shielding_forward (surjective_pairing _) (pair_fst _ _ after_flushes) E "a").
Defined.

Lemma cache_within_limits_witness :
  Z.of_nat (size (dom after.(cx_sites) ∪ dom after.(cx_dirty))) <= after.(cx_limits).(cl_max_resident_sites)
  /\ state_bytes after <= after.(cx_limits).(cl_max_resident_bytes).
Proof.
  exact (cache_within_limits limits ∅ [] shielding opened (run_ops shielding opened).1 after ltac:(done) ltac:(done) store_opens (surjective_pairing _)).
Defined.

Lemma after_sweeps : (sweep 30 101 after).1 = Ok 0.
Proof. by_eval. Qed.

Lemma after_sweeps_b : kept_as (sweep 30 101 after).2 "b" one_label.
Proof.
  assert (Es : (sweep 30 101 after).2.(cx_sites) !! "b" = None) by by_eval.
  assert (Ef : file_of (sweep 30 101 after).2 "b" = Some one_label) by by_eval. unfold kept_as. rewrite Es. exact Ef.
Qed.

Lemma sweep_leaves_nothing_expired_witness : kept_as (sweep 30 101 after).2 "b" one_label /\ expired_in (saturating_sub 101 30) one_label = 0.
Proof.
  split; [exact after_sweeps_b|]. assert (Ef : after.(cx_faults) = []) by by_eval.
  exact (sweep_leaves_nothing_expired 30 101 after 0 (sweep 30 101 after).2 "b" one_label Ef (pair_fst _ _ after_sweeps) after_sweeps_b).
Defined.
End SampleContext.
