(* ===== verification/Events.v ===== *)
(** * Event fan-out

    [crates/interface-core/src/events.rs]: the bounded event store, cursor reads per
    principal, the wake-up of waiting readers and the sanitizing of payloads.

    An append pushes under the lock and notifies after it, so the two are steps of their
    own; [es_pushed] and [es_notified] count them.  A [Notified] future taken when the
    count was [g] is ready once the count has passed [g] ([notify_waiters] reaches every
    future taken before the call). *)

From S2P Require Import Prelude Text SkillTypes Job Interface Ledger Json.
From Stdlib Require Import Ascii.

Definition MAX_EVENT_KIND_BYTES : Z := 128.
Definition MAX_EVENT_PAYLOAD_BYTES : Z := 16 * 1024.
Definition MAX_EVENT_PAYLOAD_NODES : Z := 1024.
Definition MAX_PAYLOAD_DEPTH : Z := 8.
Definition MAX_PAYLOAD_ENTRIES : nat := 64.
Definition MAX_PAYLOAD_KEY_BYTES : Z := 128.
Definition MAX_PAYLOAD_STRING_BYTES : Z := 4096.

(** ** Truncation and redaction *)

(** A UTF-8 continuation byte, [0x80..=0xBF]. *)
Definition continuation (c : ascii) : bool :=
  (0x80 <=? Z.of_N (N_of_ascii c)) && (Z.of_N (N_of_ascii c) <? 0xC0).

(** [str::is_char_boundary]. *)
Definition is_char_boundary (s : string) (i : nat) : bool :=
  (i =? 0)%nat ||
  match String.get i s with
  | Some c => negb (continuation c)
  | None => (i =? String.length s)%nat
  end.

(** The loop that walks back to a boundary. *)
Fixpoint boundary_at_or_before (s : string) (i : nat) : nat :=
  if is_char_boundary s i then i
  else match i with O => O | S i' => boundary_at_or_before s i' end.

Definition truncate_utf8 (value : string) (max_bytes : Z) : string :=
  if max_bytes <? slen value
  then String.substring 0 (boundary_at_or_before value (Z.to_nat max_bytes)) value
  else value.

Definition SENSITIVE_NEEDLES : list string :=
  ["authorization"; "cookie"; "credential"; "password"; "secret"; "token"].

Definition is_sensitive_key (key : string) : bool :=
  let normalized := to_ascii_lowercase key in
  existsb (fun needle => contains needle normalized) SENSITIVE_NEEDLES.

(** [Map::entry(key).or_insert(value)]. *)
Fixpoint map_or_insert {V} (k : string) (v : V) (m : list (string * V)) : list (string * V) :=
  match m with
  | [] => [(k, v)]
  | (k', v') :: m' => if bool_decide (k = k') then (k', v') :: m' else (k', v') :: map_or_insert k v m'
  end.

Definition TRUNCATED : JsonValue := JString "[TRUNCATED]".
Definition REDACTED : JsonValue := JString "[REDACTED]".

Section Members.
Variable sanitize : JsonValue -> Z -> JsonValue * Z.

(** The loop over the first [room] elements of an array, while nodes remain. *)
Fixpoint sanitize_items (room : nat) (l : list JsonValue) (remaining : Z)
    : list JsonValue * Z :=
  match room, l with
  | S room', x :: l' =>
      if remaining =? 0 then ([], remaining)
      else
        let '(x', remaining) := sanitize x remaining in
        let '(rest, remaining) := sanitize_items room' l' remaining in
        (x' :: rest, remaining)
  | _, _ => ([], remaining)
  end.

(** The loop over the first [room] members of an object. *)
Fixpoint sanitize_members (room : nat) (l : list (string * JsonValue))
    (acc : list (string * JsonValue)) (remaining : Z) : list (string * JsonValue) * Z :=
  match room, l with
  | S room', (key, x) :: l' =>
      if remaining =? 0 then (acc, remaining)
      else
        let '(x', remaining) :=
          if is_sensitive_key key then (REDACTED, remaining - 1) else sanitize x remaining in
        sanitize_members room' l' (map_or_insert (truncate_utf8 key MAX_PAYLOAD_KEY_BYTES) x' acc)
          remaining
  | _, _ => (acc, remaining)
  end.
End Members.

(** The value and the nodes that remain. *)
Fixpoint sanitize_value (value : JsonValue) (depth remaining_nodes : Z) : JsonValue * Z :=
  if remaining_nodes =? 0 then (TRUNCATED, remaining_nodes)
  else
    let remaining := remaining_nodes - 1 in
    if MAX_PAYLOAD_DEPTH <=? depth then (TRUNCATED, remaining)
    else match value with
    | JString s => (JString (truncate_utf8 s MAX_PAYLOAD_STRING_BYTES), remaining)
    | Array values =>
        let '(retained, remaining) :=
          sanitize_items (fun x => sanitize_value x (depth + 1)) MAX_PAYLOAD_ENTRIES values
            remaining in
        (Array retained, remaining)
    | Object members =>
        let '(retained, remaining) :=
          sanitize_members (fun x => sanitize_value x (depth + 1)) MAX_PAYLOAD_ENTRIES members []
            remaining in
        (Object retained, remaining)
    | Null | JBool _ | Number _ => (value, remaining)
    end.

Definition sanitize_payload `{JsonLib} (value : JsonValue) : JsonValue :=
  let '(value, _) := sanitize_value value 0 MAX_EVENT_PAYLOAD_NODES in
  if match to_vec value with
     | Ok bytes => MAX_EVENT_PAYLOAD_BYTES <? blen bytes
     | Err _ => true
     end
  then Object [("truncated", JBool true)] else value.

(** ** The store *)

Record Event := MkEvent {
  ev_cursor : EventCursor;
  ev_kind : string;
  ev_payload : JsonValue;
}.

Definition Event_new (kind : string) (payload : JsonValue) : Event :=
  MkEvent EventCursor_ZERO kind payload.

Record EventBatch := MkEventBatch {
  eb_events : list Event;
  eb_latest_available : EventCursor;
}.

Inductive EventGapReason := HistoryLost | InvalidLimit | InvalidCursor.

Record EventGap := MkEventGap {
  eg_reason : EventGapReason;
  eg_earliest_available : EventCursor;
}.

Record StoredEvent := MkStoredEvent {
  se_audience : option PrincipalId;
  se_event : Event;
}.

Record EventState := MkEventState {
  es_capacity : Z;
  es_next_cursor : Z;
  es_retained : list StoredEvent;
  es_pushed : Z;
  es_notified : Z;
}.
#[export] Instance eta_EventState : Eta EventState := fun s =>
  MkEventState (es_capacity s) (es_next_cursor s) (es_retained s) (es_pushed s) (es_notified s).

(** [EventStore::new]; a capacity of zero panics. *)
Definition EventStore_new (capacity : Z) : option EventState :=
  if 0 <? capacity then Some (MkEventState capacity 1 [] 0 0) else None.

Section Store.
Context `{JsonLib}.

(** What is stored for an event: its kind and payload bounded, the next cursor. *)
Definition stored_event (audience : option PrincipalId) (event : Event) (state : EventState)
    : StoredEvent :=
  MkStoredEvent audience
    (MkEvent state.(es_next_cursor) (truncate_utf8 event.(ev_kind) MAX_EVENT_KIND_BYTES)
       (sanitize_payload event.(ev_payload))).

(** The part of [append_inner] under the lock; [None] is the panic of an exhausted cursor
    space. *)
Definition append_push (audience : option PrincipalId) (event : Event) (state : EventState)
    : option (EventCursor * EventState) :=
  let cursor := state.(es_next_cursor) in
  match checked_add cursor 1 with
  | None => None
  | Some next =>
      let retained := if Z.of_nat (length state.(es_retained)) =? state.(es_capacity)
                      then tail state.(es_retained) else state.(es_retained) in
      Some (cursor, state <| es_next_cursor := next |>
        <| es_retained := retained ++ [stored_event audience event state] |>
        <| es_pushed := state.(es_pushed) + 1 |>)
  end.

Definition append (event : Event) : EventState -> option (EventCursor * EventState) :=
  append_push None event.
Definition append_for (principal : PrincipalId) (event : Event)
    : EventState -> option (EventCursor * EventState) := append_push (Some principal) event.

(** [notify_waiters], after the lock is released. *)
Definition notify_waiters (state : EventState) : EventState :=
  state <| es_notified := state.(es_notified) + 1 |>.

Definition latest_cursor (state : EventState) : EventCursor :=
  saturating_sub state.(es_next_cursor) 1.

Inductive ReadDecision :=
| Return (r : result EventBatch EventGap)
| Wait.

Definition for_principal (principal : option PrincipalId) (stored : StoredEvent) : bool :=
  match principal with
  | None => true
  | Some p => bool_decide (stored.(se_audience) = Some p)
  end.

Definition read_decision (state : EventState) (principal : option PrincipalId)
    (cursor : EventCursor) (limit : Z) : ReadDecision :=
  let latest := match last state.(es_retained) with
                | Some stored => stored.(se_event).(ev_cursor) | None => EventCursor_ZERO end in
  let earliest := match head state.(es_retained) with
                  | Some stored => stored.(se_event).(ev_cursor) | None => EventCursor_ZERO end in
  if latest <? cursor then Return (Err (MkEventGap InvalidCursor earliest))
  else if saturating_add cursor 1 <? earliest then Return (Err (MkEventGap HistoryLost earliest))
  else
    let start := Z.min (saturating_sub (saturating_add cursor 1) earliest)
                   (Z.of_nat (length state.(es_retained))) in
    let events := se_event <$>
      take (Z.to_nat limit)
        (filter (fun stored => for_principal principal stored = true)
           (drop (Z.to_nat start) state.(es_retained))) in
    match events with
    | [] => Wait
    | _ => Return (Ok (MkEventBatch events latest))
    end.

(** [read_after] and [read_after_for] as the steps of their loop: take a [Notified]
    future, look under the lock, then return or wait for the future. *)
Inductive ReaderPhase :=
| Registering
| Inspecting (notified : Z)
| Blocked (notified : Z)
| Answered (r : result EventBatch EventGap).

Definition read_start (limit : Z) : ReaderPhase :=
  if limit =? 0 then Answered (Err (MkEventGap InvalidLimit EventCursor_ZERO)) else Registering.

Definition reader_step (principal : option PrincipalId) (cursor : EventCursor) (limit : Z)
    (state : EventState) (phase : ReaderPhase) : ReaderPhase :=
  match phase with
  | Registering => Inspecting state.(es_notified)
  | Inspecting g =>
      match read_decision state principal cursor (Z.min limit state.(es_capacity)) with
      | Return r => Answered r
      | Wait => Blocked g
      end
  | Blocked g => if g <? state.(es_notified) then Registering else Blocked g
  | Answered r => Answered r
  end.
End Store.

(** ** The store keeps the end of the history *)

Definition event_of (cursor : Z) (stored : StoredEvent) : Prop :=
  stored.(se_event).(ev_cursor) = cursor.

(** What was ever appended, in order: the event at position [i] has cursor [i + 1], and the
    store retains as many of the last ones as it has room for. *)
Record holds_history (hist : list StoredEvent) (s : EventState) : Prop := MkHoldsHistory {
  hh_capacity : 0 < s.(es_capacity);
  hh_next : s.(es_next_cursor) = Z.of_nat (length hist) + 1;
  hh_bound : s.(es_next_cursor) <= u64_max;
  hh_cursors : forall i x, hist !! i = Some x -> event_of (Z.of_nat i + 1) x;
  hh_retained : s.(es_retained) = drop (length hist - Z.to_nat s.(es_capacity)) hist;
}.

(** The number of events that a store of this capacity has let go, whoever they were for. *)
Definition evicted (hist : list StoredEvent) (capacity : Z) : nat := (length hist - Z.to_nat capacity)%nat.

Definition earliest_cursor (hist : list StoredEvent) (capacity : Z) : Z :=
  if decide (hist = []) then 0 else Z.of_nat (evicted hist capacity) + 1.

(** What a read means: the first [limit] events of the reader after the cursor, unless the
    cursor is from the future or an event after it, the reader's or not, was let go. *)
Definition read_spec (hist : list StoredEvent) (capacity : Z) (principal : option PrincipalId)
    (cursor limit : Z) : ReadDecision :=
  if Z.of_nat (length hist) <? cursor
  then Return (Err (MkEventGap InvalidCursor (earliest_cursor hist capacity)))
  else if cursor <? Z.of_nat (evicted hist capacity)
  then Return (Err (MkEventGap HistoryLost (earliest_cursor hist capacity)))
  else match se_event <$> take (Z.to_nat limit)
               (filter (fun x => for_principal principal x = true) (drop (Z.to_nat cursor) hist)) with
       | [] => Wait
       | events => Return (Ok (MkEventBatch events (Z.of_nat (length hist))))
       end.

Section History.
Context `{JsonLib}.

Lemma holds_history_new capacity s : EventStore_new capacity = Some s -> holds_history [] s.
Proof.
  unfold EventStore_new. destruct (Z.ltb_spec 0 capacity); [|done]. intros [= <-].
  split; simpl; try done.
Qed.

Lemma tail_drop_1 {A} (l : list A) : drop 1 l = tail l.
Proof. destruct l; [done|]. apply drop_0. Qed.

Lemma append_push_history hist s audience event c s' :
  holds_history hist s -> append_push audience event s = Some (c, s') ->
  c = s.(es_next_cursor) /\ holds_history (hist ++ [stored_event audience event s]) s'
  /\ s'.(es_capacity) = s.(es_capacity) /\ s'.(es_pushed) = s.(es_pushed) + 1
  /\ s'.(es_notified) = s.(es_notified).
Proof.
  intros [Hc Hn Hb Hx Hr]. unfold append_push, checked_add.
  destruct (Z.leb_spec (es_next_cursor s + 1) u64_max); [|done]. intros [= <- <-].
  split; [done|]. split; [|done]. split; simpl; [done|rewrite length_app; simpl; lia|lia| |].
  - intros i x Hi. apply lookup_app_Some in Hi as [Hi|[Hi Hl]]; [by apply Hx|].
    apply list_lookup_singleton_Some in Hl as [? <-]. unfold event_of. simpl. lia.
  - rewrite Hr, length_drop, length_app. simpl.
    destruct (Z.eqb_spec (Z.of_nat (length hist - (length hist - Z.to_nat (es_capacity s))))
                (es_capacity s)).
    + rewrite drop_app_le by lia. f_equal.
      rewrite <-(tail_drop_1 (drop _ hist)), drop_drop. f_equal. lia.
    + rewrite drop_app_le by lia. f_equal. f_equal. lia.
Qed.

(** The first and the last cursor of a store that holds the history. *)
Lemma last_cursor hist s :
  holds_history hist s ->
  match last s.(es_retained) with
  | Some stored => stored.(se_event).(ev_cursor) | None => EventCursor_ZERO end
  = Z.of_nat (length hist).
Proof.
  intros [Hc _ _ Hx Hr]. rewrite Hr, last_lookup, length_drop, lookup_drop.
  destruct hist as [|y hist'] eqn:E; [done|]. rewrite <-E in *.
  assert (length hist <> 0)%nat by (by rewrite E).
  replace (_ + _)%nat with (length hist - 1)%nat by lia.
  destruct (lookup_lt_is_Some_2 hist (length hist - 1)) as [x Hi]; [lia|].
  rewrite Hi. apply Hx in Hi. unfold event_of in Hi. lia.
Qed.

Lemma first_cursor hist s :
  holds_history hist s ->
  match head s.(es_retained) with
  | Some stored => stored.(se_event).(ev_cursor) | None => EventCursor_ZERO end
  = earliest_cursor hist s.(es_capacity).
Proof.
  intros [Hc _ _ Hx Hr]. unfold earliest_cursor. rewrite Hr, head_lookup, lookup_drop.
  case_decide as E; [by subst|]. assert (length hist <> 0)%nat by (by destruct hist).
  destruct (lookup_lt_is_Some_2 hist (evicted hist s.(es_capacity))) as [x Hi]; [unfold evicted; lia|].
  unfold evicted in *. rewrite Nat.add_0_r, Hi. by apply Hx in Hi.
Qed.

(** A read of a store that holds the end of a history is a read of the history. *)
Lemma read_of_history hist s principal cursor limit :
  holds_history hist s -> 0 <= cursor ->
  read_decision s principal cursor limit = read_spec hist s.(es_capacity) principal cursor limit.
Proof.
  intros Hh Hcur. unfold read_decision, read_spec.
  rewrite (last_cursor hist) by done. rewrite (first_cursor hist) by done.
  pose proof Hh as [Hc Hn Hb Hx Hr].
  destruct (Z.ltb_spec (Z.of_nat (length hist)) cursor) as [|Hle]; [done|].
  assert (saturating_add cursor 1 = cursor + 1) as -> by (unfold saturating_add; lia).
  unfold earliest_cursor. case_decide as E.
  { subst hist. unfold evicted. simpl in *. rewrite Hr, !drop_nil.
    destruct (Z.ltb_spec (cursor + 1) 0); [lia|].
    destruct (Z.ltb_spec cursor (Z.of_nat (0 - Z.to_nat (es_capacity s)))); [lia|].
    by rewrite filter_nil, take_nil. }
  destruct (Z.ltb_spec (cursor + 1) (Z.of_nat (evicted hist s.(es_capacity)) + 1)),
    (Z.ltb_spec cursor (Z.of_nat (evicted hist s.(es_capacity)))); try lia; [done|].
  replace (drop (Z.to_nat (Z.min _ _)) (es_retained s)) with (drop (Z.to_nat cursor) hist);
    [by destruct (se_event <$> _)|].
  rewrite Hr, length_drop, drop_drop. unfold saturating_sub, evicted in *. f_equal. lia.
Qed.

(** Appends and their notifications, in the order in which they take the lock. *)
Inductive EventCall :=
| Push (audience : option PrincipalId) (event : Event)
| Notify.

Fixpoint event_run (calls : list EventCall) (s : EventState) : option EventState :=
  match calls with
  | [] => Some s
  | Push audience event :: calls =>
      match append_push audience event s with Some (_, s') => event_run calls s' | None => None end
  | Notify :: calls => event_run calls (notify_waiters s)
  end.

(** The events that the calls publish, numbered on from [next]: for whom each one is, its
    kind cut to its bound and its payload sanitized. *)
Fixpoint published (next : Z) (calls : list EventCall) : list StoredEvent :=
  match calls with
  | [] => []
  | Push audience event :: calls =>
      MkStoredEvent audience (MkEvent next (truncate_utf8 event.(ev_kind) MAX_EVENT_KIND_BYTES)
        (sanitize_payload event.(ev_payload))) :: published (next + 1) calls
  | Notify :: calls => published next calls
  end.

Lemma event_run_history calls hist s s' :
  holds_history hist s -> event_run calls s = Some s' ->
  holds_history (hist ++ published s.(es_next_cursor) calls) s' /\ s'.(es_capacity) = s.(es_capacity).
Proof.
  revert hist s. induction calls as [|[audience event|] calls IH]; intros hist s Hh; cbn [event_run published].
  - intros [= <-]. by rewrite app_nil_r.
  - destruct (append_push audience event s) as [[c s1]|] eqn:E; [|done]. intros Er.
    pose proof (append_push_history _ _ _ _ _ _ Hh E) as (_ & Hh1 & Hc & _).
    destruct (IH _ _ Hh1 Er) as [Hh' ->]. split; [|done].
    rewrite <-app_assoc in Hh'. assert (es_next_cursor s1 = es_next_cursor s + 1) as Hn.
    { rewrite (hh_next _ _ Hh1), (hh_next _ _ Hh), length_app. cbn. lia. }
    by rewrite Hn in Hh'.
  - intros Er. apply (IH hist (notify_waiters s)); [|done]. by destruct Hh.
Qed.

Lemma run_holds capacity s0 calls s :
  EventStore_new capacity = Some s0 -> event_run calls s0 = Some s -> holds_history (published 1 calls) s.
Proof.
  intros En Er. pose proof (holds_history_new capacity s0 En) as Hh.
  destruct (event_run_history calls [] s0 s Hh Er) as [Hh' _]. by rewrite (hh_next _ _ Hh) in Hh'.
Qed.

(** C23: a read of the store is a read of everything ever appended to it, in order, each
    event under its cursor, with its audience, its kind cut and its payload sanitized: it
    returns exactly the first events after the cursor that are addressed to the reader, and
    waits while there are none.  It reports an invalid cursor exactly when the cursor lies
    after the last event, and lost history exactly when an event after the cursor, whoever
    it was for, is not among the last ones the store has room for. *)
Theorem read_refines_history capacity s0 calls s principal cursor limit :
  EventStore_new capacity = Some s0 -> event_run calls s0 = Some s -> 0 <= cursor ->
  read_decision s principal cursor limit = read_spec (published 1 calls) capacity principal cursor limit.
Proof.
  intros En Er Hc. pose proof (holds_history_new capacity s0 En) as Hh.
  destruct (event_run_history calls [] s0 s Hh Er) as [Hh' Hcap]. rewrite (hh_next _ _ Hh) in Hh'.
  unfold EventStore_new in En. destruct (0 <? capacity); [|done]. injection En as <-.
  rewrite (read_of_history _ s principal cursor limit Hh' Hc). by rewrite Hcap.
Qed.
End History.

(** ** Subscribers *)

Section Subscribers.
Context `{JsonLib}.
Variable principal : option PrincipalId.

(** A subscriber that resumes after the last event it was given, while others append; it
    begins at some cursor of a store that has been used already. *)
Inductive subscription (from : Z) : list StoredEvent -> EventState -> list Event -> Z -> Prop :=
| sub_start capacity s0 calls s :
    EventStore_new capacity = Some s0 -> event_run calls s0 = Some s ->
    0 <= from -> from <= Z.of_nat (length (published 1 calls)) ->
    subscription from (published 1 calls) s [] from
| sub_append hist s got cursor audience event c s' :
    subscription from hist s got cursor -> append_push audience event s = Some (c, s') ->
    subscription from (hist ++ published (Z.of_nat (length hist) + 1) [Push audience event]) s' got cursor
| sub_notify hist s got cursor :
    subscription from hist s got cursor -> subscription from hist (notify_waiters s) got cursor
| sub_read hist s got cursor limit batch e :
    subscription from hist s got cursor ->
    read_decision s principal cursor limit = Return (Ok batch) ->
    last batch.(eb_events) = Some e ->
    subscription from hist s (got ++ batch.(eb_events)) e.(ev_cursor).

Definition wanted (x : StoredEvent) : Prop := for_principal principal x = true.
#[local] Instance wanted_dec x : Decision (wanted x) := decide (for_principal principal x = true).

(** The reader's events among positions [a] to [b] of the history. *)
Definition segment (hist : list StoredEvent) (a b : Z) : list Event :=
  se_event <$> filter wanted (drop (Z.to_nat a) (take (Z.to_nat b) hist)).

Lemma segment_app hist a b c :
  0 <= a <= b -> b <= c -> segment hist a b ++ segment hist b c = segment hist a c.
Proof.
  intros Ha Hb. unfold segment. rewrite <-fmap_app, <-filter_app. do 2 f_equal.
  rewrite !skipn_firstn_comm.
  replace (take (Z.to_nat c - Z.to_nat a) (drop (Z.to_nat a) hist))
    with (take ((Z.to_nat b - Z.to_nat a) + (Z.to_nat c - Z.to_nat b)) (drop (Z.to_nat a) hist))
    by (f_equal; lia).
  rewrite <-take_take_drop, drop_drop. do 3 f_equal. lia.
Qed.

Lemma segment_extend hist x a b :
  b <= Z.of_nat (length hist) -> segment (hist ++ [x]) a b = segment hist a b.
Proof. intros Hb. unfold segment. rewrite take_app_le by lia. done. Qed.

(** The first [n] elements that satisfy a predicate are those of a prefix that ends with
    the last of them. *)
Lemma take_filter_prefix {A} (P : A -> Prop) `{forall x, Decision (P x)} n (l : list A) e :
  last (take n (filter P l)) = Some e ->
  exists k, l !! k = Some e /\ filter P (take (S k) l) = take n (filter P l).
Proof.
  revert n. induction l as [|x l IH]; intros n; [by rewrite filter_nil, take_nil|].
  rewrite filter_cons. case_decide as Hx.
  - destruct n as [|n]; [done|]. simpl. intros Hl.
    destruct (take n (filter P l)) as [|y t] eqn:Et.
    + simpl in Hl. injection Hl as ->. exists 0%nat. split; [done|].
      simpl. by rewrite filter_cons_True, take_0, filter_nil.
    + assert (last (take n (filter P l)) = Some e) as Hl' by (by rewrite Et).
      destruct (IH n Hl') as (k & Hk & Ek). exists (S k). split; [done|].
      change (take (S (S k)) (x :: l)) with (x :: take (S k) l).
      by rewrite filter_cons_True, Ek, Et.
  - intros Hl. destruct (IH n Hl) as (k & Hk & Ek). exists (S k). split; [done|].
    change (take (S (S k)) (x :: l)) with (x :: take (S k) l).
    by rewrite filter_cons_False.
Qed.

Lemma read_segment hist s cursor limit batch e :
  holds_history hist s -> 0 <= cursor ->
  read_decision s principal cursor limit = Return (Ok batch) ->
  last batch.(eb_events) = Some e ->
  cursor < e.(ev_cursor) <= Z.of_nat (length hist)
  /\ batch.(eb_events) = segment hist cursor e.(ev_cursor).
Proof.
  intros Hh Hc. rewrite (read_of_history hist) by done. unfold read_spec.
  destruct (Z.ltb_spec (Z.of_nat (length hist)) cursor); [done|].
  destruct (_ <? _); [done|].
  destruct (se_event <$> _) as [|e0 es] eqn:Ee; [done|]. intros [= <-]. simpl. rewrite <-Ee.
  rewrite fmap_last. destruct (last (take _ _)) as [x|] eqn:Hl; [|done]. intros [= <-].
  apply (take_filter_prefix wanted) in Hl as (k & Hk & Ek).
  rewrite lookup_drop in Hk. pose proof (hh_cursors _ _ Hh _ _ Hk) as Hcur. unfold event_of in Hcur.
  apply lookup_lt_Some in Hk. split; [lia|]. unfold segment.
  f_equal. rewrite skipn_firstn_comm.
  replace (Z.to_nat _ - Z.to_nat cursor)%nat with (S k) by lia. symmetry. exact Ek.
Qed.

(** C40: a subscriber that resumes from the last event it was given has received, over any
    number of reads that answered events and whatever was appended and evicted between them,
    exactly the events addressed to it, as they were published, from where it began up to
    its cursor, in order, none lost and none repeated. *)
Theorem subscriber_misses_nothing from hist s got cursor :
  subscription from hist s got cursor ->
  from <= cursor <= Z.of_nat (length hist)
  /\ got = segment hist from cursor.
Proof.
  intros Hsub.
  enough (0 <= from /\ holds_history hist s /\ from <= cursor <= Z.of_nat (length hist)
          /\ got = segment hist from cursor) by tauto.
  induction Hsub as [capacity s0 calls s En Er H0 Hl|hist s got cursor audience event c s' _ IH Ha
                    |hist s got cursor _ IH|hist s got cursor limit batch e _ IH Hr Hl].
  - split_and!; try done; [by apply (run_holds capacity s0)|]. unfold segment. rewrite skipn_firstn_comm, Nat.sub_diag, take_0, filter_nil. done.
  - destruct IH as (? & Hh & ? & ->). rewrite length_app. simpl.
    pose proof (append_push_history _ _ _ _ _ _ Hh Ha) as (_ & Hh' & _).
    unfold stored_event in Hh'. rewrite (hh_next _ _ Hh) in Hh'. cbn [published].
    split_and!; try done; try lia. rewrite segment_extend by lia. done.
  - destruct IH as (? & [] & ? & ->). split; [done|]. split; [by split|]. done.
  - destruct IH as (H0 & Hh & Hc & ->).
    assert (0 <= cursor) as H1 by lia.
    destruct (read_segment _ _ _ _ _ _ Hh H1 Hr Hl) as [Hb ->].
    split_and!; try done; try lia. apply segment_app; lia.
Qed.
End Subscribers.

(** ** Waiting readers *)

Section Wakeup.
Context `{JsonLib}.
Variable principal : option PrincipalId.
Variable cursor limit : Z.

(** Appends, their notifications and the steps of one reader, in any order. *)
Inductive wake_step : EventState * ReaderPhase -> EventState * ReaderPhase -> Prop :=
| wake_push s ph audience event c s' :
    append_push audience event s = Some (c, s') -> wake_step (s, ph) (s', ph)
| wake_notify s ph :
    s.(es_notified) < s.(es_pushed) -> wake_step (s, ph) (notify_waiters s, ph)
| wake_reader s ph : wake_step (s, ph) (s, reader_step principal cursor limit s ph).

(** What the reader would be told now. *)
Definition decision (s : EventState) : ReadDecision :=
  read_decision s principal cursor (Z.min limit s.(es_capacity)).

Definition wake_inv (w : EventState * ReaderPhase) : Prop :=
  w.1.(es_notified) <= w.1.(es_pushed)
  /\ match w.2 with
     | Registering | Answered _ => True
     | Inspecting g => g <= w.1.(es_notified)
     | Blocked g => g <= w.1.(es_notified) /\ (decision w.1 <> Wait -> g < w.1.(es_pushed))
     end.

Lemma append_push_counts audience event s c s' :
  append_push audience event s = Some (c, s') ->
  s'.(es_pushed) = s.(es_pushed) + 1 /\ s'.(es_notified) = s.(es_notified).
Proof. unfold append_push. destruct (checked_add _ _); [|done]. by intros [= <- <-]. Qed.

Lemma wake_inv_step w w' : wake_inv w -> wake_step w w' -> wake_inv w'.
Proof.
  unfold wake_inv. intros [Hn Hp] Hs.
  destruct Hs as [s ph audience event c s' E|s ph Hlt|s ph]; simpl in *.
  - apply append_push_counts in E as [-> ->]. split; [lia|]. destruct ph; try done. lia.
  - split; [lia|]. destruct ph as [|g|g|]; try done; [lia|]. split; [lia|]. exact (proj2 Hp).
  - split; [done|]. destruct ph as [|g|g|]; simpl; [lia| |by destruct (g <? _)|done].
    destruct (read_decision _ _ _ _) eqn:E; [done|]. split; [done|]. intros Hd. by destruct Hd.
Qed.

(** No wake-up is lost.  Whenever a reader is blocked although the store now has an
    answer for it, a notification it will see is still to come or has arrived; once the
    notifications of all appends are delivered, the reader goes on and returns that
    answer. *)
Theorem blocked_reader_is_answered s g :
  forall s0 ph0, s0.(es_notified) <= s0.(es_pushed) -> ph0 = read_start limit ->
  rtc wake_step (s0, ph0) (s, Blocked g) -> decision s <> Wait ->
  (s.(es_notified) < s.(es_pushed)
   \/ Nat.iter 3 (reader_step principal cursor limit s) (Blocked g)
      = match decision s with Return r => Answered r | Wait => Blocked g end)
  /\ g < s.(es_pushed).
Proof.
  intros s0 ph0 H0 -> Hr Hd.
  assert (wake_inv (s, Blocked g)) as [Hn [Hg Hb]].
  { assert (wake_inv (s0, read_start limit)) as Hi.
    { split; [done|]. unfold read_start. by destruct (limit =? 0). }
    clear Hd. remember (s, Blocked g) as w eqn:Ew. clear Ew.
    induction Hr as [|w1 w2 w3 Hs _ IH]; [done|]. by apply IH, (wake_inv_step w1). }
  simpl in *. specialize (Hb Hd). split; [|done].
  destruct (Z.lt_ge_cases (es_notified s) (es_pushed s)); [by left|right].
  cbn [Nat.iter nat_rect reader_step]. replace (g <? es_notified s) with true by lia.
  cbn [reader_step]. change (read_decision _ _ _ _) with (decision s). by destruct (decision s).
Qed.
End Wakeup.

(** ** What a stored payload can contain *)

Lemma boundary_le s i : (boundary_at_or_before s i <= i)%nat.
Proof. induction i as [|i IH]; simpl; [by destruct (is_char_boundary s 0)|].
  destruct (is_char_boundary s (S i)); lia. Qed.

Lemma boundary_is_boundary s i : is_char_boundary s (boundary_at_or_before s i) = true.
Proof.
  induction i as [|i IH]; cbn [boundary_at_or_before]; [done|].
  destruct (is_char_boundary s (S i)) eqn:E; done.
Qed.

Lemma substring_prefix n s :
  exists rest, s = String.substring 0 n s +:+ rest
               /\ String.length (String.substring 0 n s) = Nat.min n (String.length s).
Proof.
  revert n. induction s as [|c s IH]; intros [|n]; simpl; try by (eexists; split; reflexivity).
  destruct (IH n) as (rest & E & L). exists rest. rewrite str_app_cons, <-E. by rewrite L.
Qed.

(** Truncation keeps a prefix, within the bound, that ends at a character boundary. *)
Lemma truncate_utf8_spec s max :
  0 <= max ->
  exists rest, s = truncate_utf8 s max +:+ rest
    /\ slen (truncate_utf8 s max) <= max
    /\ is_char_boundary s (String.length (truncate_utf8 s max)) = true.
Proof.
  intros Hm. unfold truncate_utf8, slen. destruct (Z.ltb_spec max (Z.of_nat (String.length s))).
  - destruct (substring_prefix (boundary_at_or_before s (Z.to_nat max)) s) as (rest & E & L).
    pose proof (boundary_le s (Z.to_nat max)). exists rest. rewrite L.
    rewrite Nat.min_l by lia. split_and!; [done|lia|apply boundary_is_boundary].
  - exists "". rewrite str_app_nil_r. split_and!; [done|lia|].
    unfold is_char_boundary. apply orb_true_iff. right.
    assert (String.get (String.length s) s = None) as ->; [|by apply Nat.eqb_eq].
    clear. induction s; simpl; auto.
Qed.

Lemma contains_app pat a b : contains pat a = true -> contains pat (a +:+ b) = true.
Proof.
  rewrite !contains_spec. intros (x & y & ->). exists x, (y +:+ b). by rewrite !str_app_assoc.
Qed.

Lemma lowercase_app a b :
  to_ascii_lowercase (a +:+ b) = to_ascii_lowercase a +:+ to_ascii_lowercase b.
Proof. unfold to_ascii_lowercase. induction a as [|c a IH]; simpl; [done|]. by rewrite str_app_cons, IH. Qed.

(** A key whose kept part looks sensitive is sensitive. *)
Lemma sensitive_truncated key max :
  0 <= max -> is_sensitive_key (truncate_utf8 key max) = true -> is_sensitive_key key = true.
Proof.
  intros Hm. destruct (truncate_utf8_spec key max Hm) as (rest & E & _).
  unfold is_sensitive_key. rewrite !existsb_exists. intros (needle & Hin & Hc). exists needle.
  split; [done|]. rewrite E, lowercase_app. by apply contains_app.
Qed.

Fixpoint node_count (value : JsonValue) : Z :=
  1 + match value with
      | Array values => fold_right Z.add 0 (List.map node_count values)
      | Object members => fold_right Z.add 0 (List.map (fun p => node_count p.2) members)
      | _ => 0
      end.

(** Bounded strings, keys, entries and depth; distinct keys; nothing under a sensitive key. *)
Inductive clean : Z -> JsonValue -> Prop :=
| clean_null d : clean d Null
| clean_bool d b : clean d (JBool b)
| clean_number d n : clean d (Number n)
| clean_string d s : slen s <= MAX_PAYLOAD_STRING_BYTES -> clean d (JString s)
| clean_array d l :
    d < MAX_PAYLOAD_DEPTH -> (length l <= MAX_PAYLOAD_ENTRIES)%nat ->
    Forall (clean (d + 1)) l -> clean d (Array l)
| clean_object d m :
    d < MAX_PAYLOAD_DEPTH -> (length m <= MAX_PAYLOAD_ENTRIES)%nat -> NoDup m.*1 ->
    Forall (fun p => slen p.1 <= MAX_PAYLOAD_KEY_BYTES
                     /\ (is_sensitive_key p.1 = true -> p.2 = REDACTED)
                     /\ clean (d + 1) p.2) m ->
    clean d (Object m).

Lemma node_count_pos v : 1 <= node_count v.
Proof.
  induction v as [|b|n|s|l IH|m IH] using JsonValue_ind_nested; simpl; try lia.
  - enough (0 <= fold_right Z.add 0 (List.map node_count l)) by lia. induction IH; simpl; lia.
  - enough (0 <= fold_right Z.add 0 (List.map (fun p => node_count p.2) m)) by lia.
    induction IH; simpl; lia.
Qed.

Definition sum_nodes (l : list JsonValue) : Z := fold_right Z.add 0 (List.map node_count l).

(** What [sanitize_value] promises for one value, with [remaining] nodes to spend. *)
Definition spends (d : Z) (sanitize : JsonValue -> Z -> JsonValue * Z) (x : JsonValue) : Prop :=
  forall remaining x' left, 0 < remaining -> sanitize x remaining = (x', left) ->
    clean d x' /\ 0 <= left /\ node_count x' <= remaining - left.

Lemma sanitize_items_ok d f room l remaining l' left :
  Forall (spends d f) l -> 0 <= remaining -> sanitize_items f room l remaining = (l', left) ->
  Forall (clean d) l' /\ (length l' <= room)%nat /\ 0 <= left
  /\ sum_nodes l' <= remaining - left.
Proof.
  intros Hl. revert room remaining l' left.
  induction Hl as [|x l Hx Hl IH]; intros room remaining l' left Hr E; destruct room; simpl in E;
    try (injection E as <- <-; unfold sum_nodes; simpl; split_and!; [constructor|lia..]).
  destruct (Z.eqb_spec remaining 0);
    [injection E as <- <-; unfold sum_nodes; simpl; split_and!; [constructor|lia..]|].
  destruct (f x remaining) as [x' r1] eqn:Ef. apply Hx in Ef as (Hc & Hr1 & Hn); [|lia].
  destruct (sanitize_items f room l r1) as [rest r2] eqn:Eg. injection E as <- <-.
  apply IH in Eg as (? & ? & ? & ?); [|done]. unfold sum_nodes in *. simpl.
  split_and!; [by constructor|lia..].
Qed.

Definition clean_member (d : Z) (p : string * JsonValue) : Prop :=
  slen p.1 <= MAX_PAYLOAD_KEY_BYTES /\ (is_sensitive_key p.1 = true -> p.2 = REDACTED)
  /\ clean d p.2.

Lemma map_or_insert_ok (P : string * JsonValue -> Prop) k v m :
  NoDup m.*1 -> Forall P m -> P (k, v) ->
  NoDup (map_or_insert k v m).*1 /\ Forall P (map_or_insert k v m)
  /\ (length (map_or_insert k v m) <= S (length m))%nat
  /\ sum_nodes (map_or_insert k v m).*2 <= sum_nodes m.*2 + node_count v
  /\ (forall k', k' ∈ (map_or_insert k v m).*1 -> k' = k \/ k' ∈ m.*1).
Proof.
  intros Hn Hm Hk. pose proof (node_count_pos v). induction m as [|[k' v'] m IH]; simpl.
  { unfold sum_nodes. simpl. split_and!; [constructor; [apply not_elem_of_nil|constructor]
      |by constructor|lia|lia|]. intros k' [->|?]%elem_of_cons; [by left|by right]. }
  csimpl in *. apply NoDup_cons in Hn as [Hn0 Hn]. apply Forall_cons in Hm as [Hm0 Hm].
  case_bool_decide as E; unfold sum_nodes in *; csimpl.
  - split_and!; [by constructor|by constructor|lia|lia|]. auto.
  - destruct (IH Hn Hm) as (H1 & H2 & H3 & H4 & H5). split_and!.
    + constructor; [|done]. intros [->|?]%H5; done.
    + by constructor.
    + lia.
    + simpl in *. lia.
    + intros k0 [->|Hk0]%elem_of_cons; [right; by left|].
      destruct (H5 k0 Hk0) as [?|?]; [by left|right; by right].
Qed.

Lemma sanitize_members_ok d f room l acc remaining m left :
  Forall (fun p => spends d f p.2) l -> 0 <= remaining ->
  NoDup acc.*1 -> Forall (clean_member d) acc ->
  sanitize_members f room l acc remaining = (m, left) ->
  NoDup m.*1 /\ Forall (clean_member d) m /\ (length m <= length acc + room)%nat /\ 0 <= left
  /\ sum_nodes m.*2 <= sum_nodes acc.*2 + (remaining - left).
Proof.
  intros Hl. revert room acc remaining.
  induction Hl as [|[k x] l Hx Hl IH]; intros room acc remaining Hr Hn Ha E; destruct room;
    simpl in E; try (injection E as <- <-; split_and!; [done|done|lia..]).
  destruct (Z.eqb_spec remaining 0); [injection E as <- <-; split_and!; [done|done|lia..]|].
  destruct (if is_sensitive_key k then _ else _) as [x' r1] eqn:Ef.
  assert (clean_member d (truncate_utf8 k MAX_PAYLOAD_KEY_BYTES, x') /\ 0 <= r1
          /\ node_count x' <= remaining - r1) as (Hc & Hr1 & Hnc).
  { destruct (truncate_utf8_spec k MAX_PAYLOAD_KEY_BYTES ltac:(done)) as (rest & _ & Hlen & _).
    destruct (is_sensitive_key k) eqn:Ek.
    - injection Ef as <- <-. split_and!; [|lia|simpl; lia]. split_and!; [done|done|]. by constructor.
    - apply Hx in Ef as (Hc & ? & ?); [|lia]. split_and!; [|done|done]. split_and!; [done| |done].
      simpl. intros Hs. apply sensitive_truncated in Hs; [congruence|done]. }
  destruct (map_or_insert_ok _ _ _ _ Hn Ha Hc) as (H1 & H2 & H3 & H4 & _).
  apply IH in E as (? & ? & ? & ? & ?); [|done..]. split_and!; [done|done|lia..].
Qed.

Lemma sanitize_value_ok v : forall d, spends d (fun x => sanitize_value x d) v.
Proof.
  induction v as [|b|n|s|l IH|m IH] using JsonValue_ind_nested; intros d rem v' left Hr E;
    cbn [sanitize_value] in E; destruct (Z.eqb_spec rem 0); try lia;
    (destruct (Z.leb_spec MAX_PAYLOAD_DEPTH d) as [|Hd];
     [injection E as <- <-; split_and!; [by constructor|lia|simpl; lia]|]);
    try (injection E as <- <-; split_and!; [by constructor|lia|simpl; lia]).
  - injection E as <- <-.
    destruct (truncate_utf8_spec s MAX_PAYLOAD_STRING_BYTES ltac:(done)) as (rest & _ & Hl & _).
    split_and!; [by constructor|lia|simpl; lia].
  - destruct (sanitize_items _ _ l (rem - 1)) as [l' r'] eqn:Ei. injection E as <- <-.
    apply (sanitize_items_ok (d + 1)) in Ei as (Hc & Hlen & Hl & Hn);
      [|eapply Forall_impl; [exact IH|]; intros x Hx; apply Hx|lia].
    split_and!; [by constructor|lia|]. simpl. unfold sum_nodes in Hn. lia.
  - destruct (sanitize_members _ _ m [] (rem - 1)) as [m' r'] eqn:Ei. injection E as <- <-.
    apply (sanitize_members_ok (d + 1)) in Ei as (Hn & Hc & Hlen & Hl & Hs);
      [|eapply Forall_impl; [exact IH|]; intros x Hx; apply Hx|lia|constructor|constructor].
    split_and!; [by constructor|lia|]. simpl. unfold sum_nodes in Hs.
    change (m'.*2) with (List.map snd m') in Hs. rewrite List.map_map in Hs. simpl in Hs. lia.
Qed.

(** Whatever an event carries, what the store keeps is bounded and redacted: at most 1024
    nodes, 8 levels, 64 entries per container, 128 bytes per key and 4096 per string, keys
    distinct, and the value of every key that looks like a credential replaced; and its text
    has at most 16 KiB, or the payload is the fixed marker. *)
Theorem stored_payload_is_bounded `{JsonLib} v :
  clean 0 (sanitize_payload v) /\ node_count (sanitize_payload v) <= MAX_EVENT_PAYLOAD_NODES
  /\ (sanitize_payload v = Object [("truncated", JBool true)]
      \/ exists b, to_vec (sanitize_payload v) = Ok b /\ blen b <= MAX_EVENT_PAYLOAD_BYTES).
Proof.
  unfold sanitize_payload. destruct (sanitize_value v 0 MAX_EVENT_PAYLOAD_NODES) as [v' left] eqn:E.
  apply sanitize_value_ok in E as (Hc & Hl & Hn); [|done].
  assert (clean 0 (Object [("truncated", JBool true)])) as Hm.
  { constructor; [done|simpl; unfold MAX_PAYLOAD_ENTRIES; lia
      |apply (bool_decide_unpack _); by vm_compute|].
    constructor; [|constructor]. split_and!; [done|by vm_compute|constructor]. }
  destruct (to_vec v') as [b|] eqn:Ev; [|split_and!; [done|done|by left]].
  destruct (Z.ltb_spec MAX_EVENT_PAYLOAD_BYTES (blen b)); [split_and!; [done|done|by left]|].
  split_and!; [done|lia|right; eauto].
Qed.

(** ** A concrete store: room for two events *)

Module SampleEvents.
Import SampleJson.

Definition s0 : EventState := MkEventState 2 1 [] 0 0.
Definition note (p : option PrincipalId) (kind : string) (s : EventState) : EventState :=
  match append_push p (Event_new kind Null) s with Some (_, s') => s' | None => s end.
Definition s1 : EventState := note (Some 1%N) "a" s0.
Definition s2 : EventState := note (Some 2%N) "b" s1.
Definition s3 : EventState := note (Some 1%N) "c" s2.
Definition stored (p : PrincipalId) (n : Z) (kind : string) : StoredEvent :=
  MkStoredEvent (Some p) (MkEvent n kind Null).
Definition hist2 : list StoredEvent := [stored 1%N 1 "a"; stored 2%N 2 "b"].
Definition hist3 : list StoredEvent := hist2 ++ [stored 1%N 3 "c"].

Definition noted2 : list EventCall := [Push (Some 1%N) (Event_new "a" Null); Push (Some 2%N) (Event_new "b" Null)].
Lemma noted2_run : event_run noted2 s0 = Some s2.
Proof. by_eval. Qed.

Definition noted : list EventCall :=
  [Push (Some 1%N) (Event_new "a" Null); Notify; Push (Some 2%N) (Event_new "b" Null);
   Push (Some 1%N) (Event_new "c" Null); Notify].
Definition s3' : EventState := notify_waiters (notify_waiters s3).

Lemma noted_run : event_run noted s0 = Some s3'.
Proof. by_eval. Qed.

Lemma read_refines_history_witness :
  read_decision s3' (Some 1%N) 1 10 = read_spec (published 1 noted) 2 (Some 1%N) 1 10
  /\ read_decision s3' (Some 1%N) 1 10 = Return (Ok (MkEventBatch [MkEvent 3 "c" Null] 3))
  /\ read_decision s3' (Some 2%N) 0 10 = Return (Err (MkEventGap HistoryLost 2)).
Proof.
  split; [|by vm_compute].
  refine (read_refines_history 2 s0 noted s3' (Some 1%N) 1 10 eq_refl noted_run _). lia.
Defined.

Lemma subscriber_misses_nothing_witness :
  0 <= 3 <= 3
  /\ [MkEvent 1 "a" Null; MkEvent 3 "c" Null] = segment (Some 1%N) hist3 0 3.
Proof.
  refine (subscriber_misses_nothing (Some 1%N) 0 hist3 s3 _ 3 _).
  refine (sub_read (Some 1%N) 0 hist3 s3 [MkEvent 1 "a" Null] 1 5
            (MkEventBatch [MkEvent 3 "c" Null] 3) (MkEvent 3 "c" Null) _ _ eq_refl);
    [|by vm_compute].
  refine (sub_append (Some 1%N) 0 hist2 s2 [MkEvent 1 "a" Null] 1 (Some 1%N) (Event_new "c" Null)
            3 s3 _ _); [|by vm_compute].
  refine (sub_read (Some 1%N) 0 hist2 s2 [] 0 5
            (MkEventBatch [MkEvent 1 "a" Null] 2) (MkEvent 1 "a" Null) _ _ eq_refl);
    [|by vm_compute].
  refine (sub_start (Some 1%N) 0 2 s0 noted2 s2 eq_refl noted2_run _ _); [lia|vm_compute; discriminate].
Defined.

(** A reader of principal 1 that had seen everything waits, and the third append with its
    notifications wakes it. *)
Lemma blocked_reader_is_answered_witness :
  (s3.(es_notified) < s3.(es_pushed)
   \/ Nat.iter 3 (reader_step (Some 1%N) 1 5 s3) (Blocked 0)
      = match decision (Some 1%N) 1 5 s3 with Return r => Answered r | Wait => Blocked 0 end)
  /\ 0 < s3.(es_pushed).
Proof.
  refine (blocked_reader_is_answered (Some 1%N) 1 5 s3 0 s2 (read_start 5) _ eq_refl _ _);
    [by vm_compute| |by vm_compute].
  apply (rtc_l _ _ (s2, Inspecting 0)); [exact (wake_reader (Some 1%N) 1 5 s2 Registering)|].
  apply (rtc_l _ _ (s2, Blocked 0)); [exact (wake_reader (Some 1%N) 1 5 s2 (Inspecting 0))|].
  apply rtc_once. apply (wake_push _ _ _ s2 (Blocked 0) (Some 1%N) (Event_new "c" Null) 3 s3).
  by vm_compute.
Defined.
End SampleEvents.
