(* ===== verification/Idempotency.v ===== *)
(** * The idempotency store

    [crates/interface-core/src/idempotency.rs]: reservations of idempotency keys, the
    outcomes they retain and their durable record.

    The store's state is under one lock; every scope that holds it is one step.  A call of
    [reserve] alternates between such scopes and waiting on a watch channel, so it is a
    phase that steps can advance ([reserve_step]).  A watch channel is a version and the
    last value sent; a receiver remembers the version it has seen, and a channel is closed
    once no reservation holds its sender.  The durable log is the class [DurableLog]; its
    implementation is in [IdempotencyLedger].  [HashMap] iteration uses the order of
    [map_to_list].  Identifiers, the clock and the answers of [resolve] (the journal that
    knows a retained outcome) are arguments. *)

From S2P Require Import Prelude Text SkillTypes Receipt Job Interface Ledger Json.

Definition Key : Type := PrincipalId * IdempotencyKey.

(** ** Outcomes *)

Class RetainedOutcome (O : Type) := {
  releases_reservation : O -> bool;
  safety_relevant : O -> bool;
  uncertain : O -> bool;
  durable_value : O -> result JsonValue IoError;
}.

(** The text of a [Uuid] in JSON. *)
Class UuidText := uuid_text : Uuid -> string.

Definition outcome_releases (outcome : CommandOutcome) : bool :=
  match outcome with
  | OutcomeRetryableFailure _ _ | OutcomeResourceExhausted _ _ _ | OutcomePolicyDenied _ _ => true
  | OutcomeFailed _ error _ => error.(ce_retryable)
  | _ => false
  end.

#[export] Instance RetainedOutcome_command `{UuidText} : RetainedOutcome CommandOutcome := {|
  releases_reservation := outcome_releases;
  safety_relevant o := match o with OutcomeCompleted _ _ => false | _ => true end;
  uncertain o := match o with OutcomeNeedsReconciliation _ _ _ => true | _ => false end;
  durable_value o := Ok (JString (uuid_text (command_outcome_id o)));
|}.

Inductive SessionCheckpointOutcome (SessionState WorkflowCheckpoint : Type) :=
| OutSession (s : SessionState)
| OutCheckpoint (c : WorkflowCheckpoint).
Arguments OutSession {_ _} _.
Arguments OutCheckpoint {_ _} _.

(** [serde_json::to_value] of a session or checkpoint outcome. *)
Class ToValue (A : Type) := to_value : A -> result JsonValue IoError.

#[export] Instance RetainedOutcome_session {A B} `{ToValue (SessionCheckpointOutcome A B)}
    : RetainedOutcome (SessionCheckpointOutcome A B) := {|
  releases_reservation _ := false;
  safety_relevant _ := false;
  uncertain _ := false;
  durable_value := to_value;
|}.

(** ** Entries *)

Definition ChannelId : Type := nat.

Inductive EntryState (O : Type) :=
| Reserved (generation : Z) (changed : ChannelId)
| Retained (outcome : O) (safety : bool)
| UnresolvedEntry.
Arguments Reserved {O} _ _.
Arguments Retained {O} _ _.
Arguments UnresolvedEntry {O}.

Record Entry (O : Type) := MkEntry {
  en_key : IdempotencyKey;
  en_operation : InterfaceOperation;
  en_sha256 : Digest;
  en_state : EntryState O;
  en_expires_at : option Time;
  en_last_used : Z;
}.
Arguments MkEntry {O} _ _ _ _ _ _.
Arguments en_key {O} _.
Arguments en_operation {O} _.
Arguments en_sha256 {O} _.
Arguments en_state {O} _.
Arguments en_expires_at {O} _.
Arguments en_last_used {O} _.
#[export] Instance eta_Entry O : Eta (Entry O) := fun e =>
  MkEntry (en_key e) (en_operation e) (en_sha256 e) (en_state e) (en_expires_at e)
    (en_last_used e).

Inductive ReservationUpdate (O : Type) :=
| UpPending
| UpReplay (outcome : O)
| UpReleased
| UpUnresolved.
Arguments UpPending {O}.
Arguments UpReplay {O} _.
Arguments UpReleased {O}.
Arguments UpUnresolved {O}.

Record Channel (O : Type) := MkChannel {
  wc_version : Z;
  wc_value : ReservationUpdate O;
}.
Arguments MkChannel {O} _ _.
Arguments wc_version {O} _.
Arguments wc_value {O} _.

Inductive DurableState :=
| DurReserved
| DurUnresolved
| DurRetained (value : JsonValue).

Record DurableEntry := MkDurableEntry {
  de_principal_id : PrincipalId;
  de_key : IdempotencyKey;
  de_operation : InterfaceOperation;
  de_sha256 : Digest;
  de_expires_at : option Time;
  de_last_used : Z;
  de_state : DurableState;
}.
#[export] Instance eta_DurableEntry : Eta DurableEntry := fun e =>
  MkDurableEntry (de_principal_id e) (de_key e) (de_operation e) (de_sha256 e) (de_expires_at e)
    (de_last_used e) (de_state e).

Definition durable_key (e : DurableEntry) : Key := (e.(de_principal_id), e.(de_key)).

(** The writer of the durable log ([durable::Journal]). *)
Class DurableLog (P : Type) := {
  needs_checkpoint : P -> bool;
  log_checkpoint : list DurableEntry -> ST P IoError unit;
  log_append : list DurableEntry -> list Key -> ST P IoError unit;
}.

Record StoreState (O : Type) := MkStoreState {
  ss_entries : gmap PrincipalId (list (Entry O));
  ss_sequence : Z;
  ss_dirty : gset Key;
  ss_channels : list (Channel O);
}.
Arguments MkStoreState {O} _ _ _ _.
Arguments ss_entries {O} _.
Arguments ss_sequence {O} _.
Arguments ss_dirty {O} _.
Arguments ss_channels {O} _.
#[export] Instance eta_StoreState O : Eta (StoreState O) := fun s =>
  MkStoreState (ss_entries s) (ss_sequence s) (ss_dirty s) (ss_channels s).

Definition StoreState_default {O} : StoreState O := MkStoreState ∅ 0 ∅ [].

(** The store and what its clones share: the state, the log and whether a write of it has
    failed. *)
Record IdempotencyStore (O P : Type) := MkIdempotencyStore {
  is_per_principal_capacity : Z;
  is_global_capacity : Z;
  is_ttl : Z;
  is_state : StoreState O;
  is_durable : option P;
  is_failed : bool;
  is_integrity_issue : option string;
}.
Arguments MkIdempotencyStore {O P} _ _ _ _ _ _ _.
Arguments is_per_principal_capacity {O P} _.
Arguments is_global_capacity {O P} _.
Arguments is_ttl {O P} _.
Arguments is_state {O P} _.
Arguments is_durable {O P} _.
Arguments is_failed {O P} _.
Arguments is_integrity_issue {O P} _.
#[export] Instance eta_IdempotencyStore O P : Eta (IdempotencyStore O P) := fun s =>
  MkIdempotencyStore (is_per_principal_capacity s) (is_global_capacity s) (is_ttl s) (is_state s)
    (is_durable s) (is_failed s) (is_integrity_issue s).

Record IdempotencyPermit := MkIdempotencyPermit {
  ip_principal_id : PrincipalId;
  ip_key : IdempotencyKey;
  ip_operation : InterfaceOperation;
  ip_sha256 : Digest;
  ip_generation : Z;
  ip_correlation_id : CorrelationId;
  ip_durable : bool;
}.
#[export] Instance IdempotencyPermit_eq_dec : EqDecision IdempotencyPermit.
Proof. solve_decision. Defined.

Inductive IdempotencyReservation (O : Type) :=
| Acquired (permit : IdempotencyPermit)
| Replay (outcome : O).
Arguments Acquired {O} _.
Arguments Replay {O} _.

(** ** Errors *)

Definition idempotency_error (code : InterfaceErrorCode) (message : string)
    (correlation_id : CorrelationId) (retryable : bool) (retry_after_ms : option Z)
    (reconciliation_required : bool) : InterfaceError :=
  MkInterfaceError code LayerInterface message correlation_id None retryable retry_after_ms
    reconciliation_required None.

Definition conflict_error (correlation_id : CorrelationId) : InterfaceError :=
  idempotency_error IfIdempotencyConflict "idempotency key conflicts with a retained request"
    correlation_id false None false.

Definition unresolved_error (correlation_id : CorrelationId) : InterfaceError :=
  idempotency_error IfIdempotencyConflict
    "idempotency outcome is unresolved; inspect the authoritative operation before retrying"
    correlation_id false None true.

Definition persistence_error (correlation_id : CorrelationId) (error : IoError) : InterfaceError :=
  idempotency_error IfInternal "idempotency state could not be durably recorded"
    correlation_id false None true.

Definition deadline_error (correlation_id : CorrelationId) : InterfaceError :=
  idempotency_error IfDeadlineExceeded
    "request deadline exceeded while awaiting idempotent result" correlation_id false None false.

Definition resource_exhausted_error (correlation_id : CorrelationId) : InterfaceError :=
  idempotency_error IfResourceExhausted "idempotency capacity exhausted"
    correlation_id true (Some 1000) false.

(** [canonicalization_error]; the correlation identifier is new. *)
Definition canonicalization_error (correlation_id : CorrelationId) : InterfaceError :=
  idempotency_error IfInvalidRequest "request cannot be canonicalized" correlation_id false None
    false.

(** ** Eviction and expiry *)

Section Buckets.
Context {O : Type}.
Abbreviation entry := (Entry O).
Abbreviation state := (StoreState O).

(** [entry.expires_at.is_some_and(|at| at <= now)]. *)
Definition expired (now : Time) (e : entry) : bool :=
  match e.(en_expires_at) with Some t => t <=? now | None => false end.

(** The bucket of one principal replaced, a key marked for writing, the next use. *)
Definition set_bucket (principal : PrincipalId) (b : list entry) (s : state) : state :=
  s <| ss_entries := <[principal := b]> s.(ss_entries) |>.
Definition mark_dirty (k : Key) (s : state) : state := s <| ss_dirty := {[k]} ∪ s.(ss_dirty) |>.
Definition bump_sequence (s : state) : state :=
  s <| ss_sequence := wrapping_add s.(ss_sequence) 1 |>.

Definition nonempty (b : list entry) : bool := match b with [] => false | _ => true end.

Definition remove_empty_buckets (s : state) : state :=
  s <| ss_entries := filter (fun pb => nonempty pb.2 = true) s.(ss_entries) |>.

(** The keys of the entries that satisfy a predicate, of a bucket and of a store. *)
Definition bucket_keys (f : entry -> bool) (pb : PrincipalId * list entry) : list Key :=
  (fun e => (pb.1, en_key e)) <$> filter (fun e => f e = true) pb.2.
Definition keys_where (f : entry -> bool) (entries : gmap PrincipalId (list entry)) : gset Key :=
  list_to_set (concat (bucket_keys f <$> map_to_list entries)).

Definition cleanup_expired (now : Time) (s : state) : state :=
  remove_empty_buckets
    (s <| ss_dirty := keys_where (expired now) s.(ss_entries) ∪ s.(ss_dirty) |>
       <| ss_entries := (fun b => filter (fun e => expired now e = false) b) <$> s.(ss_entries) |>).

Definition entry_is_evictable (e : entry) : bool :=
  match e.(en_state) with Retained _ false => true | _ => false end.

(** [Iterator::min_by_key]: the first of the elements with the least key. *)
Definition min_by_key {A} (f : A -> Z) (l : list A) : option A :=
  fold_left (fun best x => match best with
                           | None => Some x
                           | Some y => if f x <? f y then Some x else Some y
                           end) l None.

(** [remove_oldest_evictable]: the entry's position and key. *)
Definition oldest_evictable (entries : list entry) : option (nat * IdempotencyKey) :=
  (fun ie : nat * entry => (ie.1, ie.2.(en_key)))
    <$> min_by_key (fun ie : nat * entry => ie.2.(en_last_used))
          (filter (fun ie => entry_is_evictable ie.2 = true) (imap pair entries)).

Definition remove_oldest_evictable (entries : list entry) : option (IdempotencyKey * list entry) :=
  match oldest_evictable entries with
  | Some (index, key) => Some (key, delete index entries)
  | None => None
  end.

(** The loop of [make_principal_room]: the bucket and the keys it lost.  One iteration
    removes an entry, so the length of the bucket is fuel enough. *)
Fixpoint evict_principal (fuel : nat) (capacity : Z) (entries : list entry)
    : list entry * list IdempotencyKey :=
  match fuel with
  | 0%nat => (entries, [])
  | S fuel' =>
      if Z.of_nat (length entries) <? capacity then (entries, [])
      else match remove_oldest_evictable entries with
           | None => (entries, [])
           | Some (key, rest) =>
               let '(rest, keys) := evict_principal fuel' capacity rest in (rest, key :: keys)
           end
  end.

Definition make_principal_room (principal : PrincipalId) (capacity : Z) (s : state) : state :=
  match s.(ss_entries) !! principal with
  | None => s
  | Some entries =>
      let '(entries, keys) := evict_principal (length entries) capacity entries in
      remove_empty_buckets
        (s <| ss_entries := <[principal := entries]> s.(ss_entries) |>
           <| ss_dirty := list_to_set ((fun k => (principal, k)) <$> keys) ∪ s.(ss_dirty) |>)
  end.

Definition entry_count (entries : gmap PrincipalId (list entry)) : nat :=
  sum_list ((fun pb : PrincipalId * list entry => length pb.2) <$> map_to_list entries).

(** The candidate of [make_global_room]: the least recently used evictable entry of all
    buckets, as its bucket and position. *)
Definition bucket_candidates (pb : PrincipalId * list entry) : list (Z * PrincipalId * nat) :=
  (fun ie : nat * entry => (ie.2.(en_last_used), pb.1, ie.1))
    <$> filter (fun ie => entry_is_evictable ie.2 = true) (imap pair pb.2).
Definition global_candidate (entries : gmap PrincipalId (list entry)) : option (PrincipalId * nat) :=
  (fun c : Z * PrincipalId * nat => (c.1.2, c.2))
    <$> min_by_key (fun c : Z * PrincipalId * nat => c.1.1)
          (concat (bucket_candidates <$> map_to_list entries)).

Fixpoint evict_global (fuel : nat) (capacity : Z) (s : state) : state :=
  match fuel with
  | 0%nat => s
  | S fuel' =>
      if Z.of_nat (entry_count s.(ss_entries)) <? capacity then s
      else match global_candidate s.(ss_entries) with
           | None => s
           | Some (principal, index) =>
               let s :=
                 match s.(ss_entries) !! principal with
                 | None => s
                 | Some entries =>
                     match entries !! index with
                     | None => s
                     | Some e =>
                         mark_dirty (principal, e.(en_key))
                           (set_bucket principal (delete index entries) s)
                     end
                 end in
               evict_global fuel' capacity (remove_empty_buckets s)
           end
  end.

Definition make_global_room (capacity : Z) (s : state) : state :=
  evict_global (entry_count s.(ss_entries)) capacity s.

(** ** Watch channels *)

Definition bucket_of (s : state) (principal : PrincipalId) : list entry :=
  default [] (s.(ss_entries) !! principal).

(** [watch::channel(Pending)]. *)
Definition new_channel (s : state) : ChannelId * state :=
  (length s.(ss_channels), s <| ss_channels := s.(ss_channels) ++ [MkChannel 0 UpPending] |>).

(** [Sender::send_replace]. *)
Definition send_replace (ch : ChannelId) (u : ReservationUpdate O) (s : state) : state :=
  s <| ss_channels := alter (fun c => MkChannel (c.(wc_version) + 1) u) ch s.(ss_channels) |>.

Definition channel_version (s : state) (ch : ChannelId) : Z :=
  match s.(ss_channels) !! ch with Some c => c.(wc_version) | None => 0 end.

Definition holds_sender (ch : ChannelId) (e : entry) : bool :=
  match e.(en_state) with Reserved _ c => bool_decide (c = ch) | _ => false end.

(** Every sender of the channel is gone. *)
Definition channel_closed (s : state) (ch : ChannelId) : bool :=
  forallb (fun pb => forallb (fun e => negb (holds_sender ch e)) pb.2) (map_to_list s.(ss_entries)).

(** ** Reservations that end without an outcome *)

Definition matches_permit (key : IdempotencyKey) (operation : InterfaceOperation) (sha : Digest)
    (generation : Z) (e : entry) : Prop :=
  e.(en_key) = key /\ e.(en_operation) = operation /\ e.(en_sha256) = sha
  /\ match e.(en_state) with Reserved g _ => g = generation | _ => False end.
#[export] Instance matches_permit_dec key operation sha generation e :
  Decision (matches_permit key operation sha generation e).
Proof. unfold matches_permit. destruct (en_state e); apply _. Defined.

Definition entry_channel (e : entry) : option ChannelId :=
  match e.(en_state) with Reserved _ ch => Some ch | _ => None end.

Definition abandon_entry (principal : PrincipalId) (key : IdempotencyKey)
    (operation : InterfaceOperation) (sha : Digest) (generation : Z) (s : state) : state :=
  let '(s, changed) :=
    match list_find (matches_permit key operation sha generation) (bucket_of s principal) with
    | Some (index, e) =>
        (set_bucket principal (delete index (bucket_of s principal)) s, entry_channel e)
    | None => (s, None)
    end in
  let s := remove_empty_buckets s in
  match changed with
  | Some ch => send_replace ch UpReleased (mark_dirty (principal, key) s)
  | None => s
  end.

Definition unresolve_entry (principal : PrincipalId) (key : IdempotencyKey)
    (operation : InterfaceOperation) (sha : Digest) (generation : Z) (s : state) : state :=
  match list_find (matches_permit key operation sha generation) (bucket_of s principal) with
  | Some (index, e) =>
      let s := set_bucket principal
                 (<[index := e <| en_state := UnresolvedEntry |>]> (bucket_of s principal)) s in
      match entry_channel e with
      | Some ch => send_replace ch UpUnresolved (mark_dirty (principal, key) s)
      | None => s
      end
  | None => s
  end.
End Buckets.

(** ** The store *)

Definition with_global_capacity {O P} (per_principal_capacity global_capacity ttl : Z)
    : IdempotencyStore O P :=
  MkIdempotencyStore per_principal_capacity global_capacity ttl StoreState_default None false None.

(** [usize::saturating_mul] (64-bit targets). *)
Definition saturating_mul (a b : Z) : Z := Z.min (a * b) u64_max.

Definition IdempotencyStore_new {O P} (per_principal_capacity ttl : Z) : IdempotencyStore O P :=
  with_global_capacity per_principal_capacity (saturating_mul per_principal_capacity 64) ttl.

Definition IdempotencyStore_default {O P} : IdempotencyStore O P :=
  with_global_capacity 256 4096 (minutes 15).

Section Store.
Context {O P : Type} `{RetainedOutcome O, DurableLog P, JsonLib}.
Abbreviation store := (IdempotencyStore O P).
Abbreviation entry := (Entry O).
Abbreviation state := (StoreState O).

Definition Idem (A : Type) : Type := ST store InterfaceError A.

Definition integrity_issue (s : store) : option string :=
  match s.(is_integrity_issue) with
  | Some issue => Some issue
  | None => match s.(is_durable) with
            | Some _ => if s.(is_failed) then Some "ledgerWriteFailed" else None
            | None => None
            end
  end.

Definition ensure_writable (correlation_id : CorrelationId) : Idem unit :=
  fun s => match integrity_issue s with
           | Some _ =>
               let e := unresolved_error correlation_id in
               (Err (MkInterfaceError (ie_code e) (ie_layer e)
                       "durable idempotency history requires repair before mutation"
                       (ie_correlation_id e) (ie_command_id e) (ie_retryable e)
                       (ie_retry_after_ms e) (ie_reconciliation_required e)
                       (ie_required_capability e)), s)
           | None => (Ok tt, s)
           end.

Definition MAX_DURABLE_VALUE_BYTES : Z := 64 * 1024.

Definition durable_state (st : EntryState O) : result DurableState IoError :=
  match st with
  | Reserved _ _ => Ok DurReserved
  | UnresolvedEntry => Ok DurUnresolved
  | Retained outcome _ =>
      let? value := durable_value outcome in
      let? bytes := map_err DataError (to_vec value) in
      if MAX_DURABLE_VALUE_BYTES <? blen bytes
      then Err (DataError "idempotency outcome exceeds durable bound")
      else Ok (DurRetained value)
  end.

Definition durable_entry (principal_id : PrincipalId) (e : entry) : result DurableEntry IoError :=
  let? st := durable_state e.(en_state) in
  Ok (MkDurableEntry principal_id e.(en_key) e.(en_operation) e.(en_sha256) e.(en_expires_at)
        e.(en_last_used) st).

(** [collect::<io::Result<Vec<_>>>()]. *)
Fixpoint collect {A} (l : list (result A IoError)) : result (list A) IoError :=
  match l with
  | [] => Ok []
  | r :: l' => let? a := r in let? rest := collect l' in Ok (a :: rest)
  end.

(** Every entry of the store, bucket by bucket. *)
Definition all_entries (s : state) : list (PrincipalId * entry) :=
  concat ((fun pb : PrincipalId * list entry => (fun e => (pb.1, e)) <$> pb.2)
            <$> map_to_list s.(ss_entries)).

Definition find_key (key : IdempotencyKey) (b : list entry) : option entry :=
  snd <$> list_find (fun e => en_key e = key) b.

(** The loop over the dirty keys: the entries to write and the keys to remove. *)
Fixpoint changes_of (s : state) (dirty : list Key) : result (list DurableEntry * list Key) IoError :=
  match dirty with
  | [] => Ok ([], [])
  | (principal, key) :: rest =>
      match find_key key (bucket_of s principal) with
      | Some e =>
          let? d := durable_entry principal e in
          let? more := changes_of s rest in
          Ok (d :: more.1, more.2)
      | None => let? more := changes_of s rest in Ok (more.1, (principal, key) :: more.2)
      end
  end.

Definition set_state (f : state -> state) (s : store) : store := s <| is_state := f s.(is_state) |>.

Definition clear_dirty (s : state) : state := s <| ss_dirty := ∅ |>.

Definition persist_locked : ST store IoError unit :=
  fun s =>
  match integrity_issue s with
  | Some _ => (Err (DataError "durable idempotency history requires repair"), s)
  | None =>
      match s.(is_durable) with
      | None => (Ok tt, set_state clear_dirty s)
      | Some log =>
          let write (m : ST P IoError unit) : result unit IoError * store :=
            match m log with
            | (Ok _, log) => (Ok tt, set_state clear_dirty (s <| is_durable := Some log |>))
            | (Err e, log) => (Err e, s <| is_durable := Some log |> <| is_failed := true |>)
            end in
          if needs_checkpoint log then
            match collect ((fun pe => durable_entry pe.1 pe.2) <$> all_entries s.(is_state)) with
            | Err e => (Err e, s)
            | Ok entries => write (log_checkpoint entries)
            end
          else
            match changes_of s.(is_state) (elements s.(is_state).(ss_dirty)) with
            | Err e => (Err e, s)
            | Ok ([], []) => (Ok tt, s)
            | Ok (updates, removes) => write (log_append updates removes)
            end
      end
  end.

(** *** Reserving *)

Record ReserveArgs := MkReserveArgs {
  ra_principal_id : PrincipalId;
  ra_key : IdempotencyKey;
  ra_operation : InterfaceOperation;
  ra_sha256 : Digest;
  ra_deadline : Time;
  ra_correlation_id : CorrelationId;
}.

(** A subscribed receiver: its channel and the version it has seen. *)
Record Receiver := MkReceiver {
  rx_channel : ChannelId;
  rx_seen : Z;
}.

Inductive ReservePhase :=
| Starting (now : Time)
| Looking (now : Time)
| Subscribed (receiver : Receiver)
| Waiting (receiver : Receiver)
| Acquiring (now : Time)
| Finished (r : result (IdempotencyReservation O) InterfaceError).

(** The first scope of the loop: look for the key, move its entry to the end of its bucket. *)
Definition reserve_lookup (args : ReserveArgs) (now : Time) (s : state) : ReservePhase * state :=
  let s := bump_sequence (cleanup_expired now s) in
  let last_used := s.(ss_sequence) in
  let principal := args.(ra_principal_id) in
  match s.(ss_entries) !! principal with
  | None => (Acquiring now, s)
  | Some entries =>
      match list_find (fun e => en_key e = args.(ra_key)) entries with
      | None => (Acquiring now, s)
      | Some (index, e) =>
          let put (e : entry) : state := set_bucket principal (delete index entries ++ [e]) s in
          if negb (bool_decide (e.(en_operation) = args.(ra_operation)))
             || negb (bool_decide (e.(en_sha256) = args.(ra_sha256)))
          then
            let unknown := match e.(en_state) with
                           | UnresolvedEntry => true
                           | Retained outcome _ => uncertain outcome
                           | Reserved _ _ => false
                           end in
            (Finished (Err (if unknown then unresolved_error args.(ra_correlation_id)
                            else conflict_error args.(ra_correlation_id))), put e)
          else
            let s' := mark_dirty (principal, args.(ra_key))
                        (put (e <| en_last_used := last_used |>)) in
            match e.(en_state) with
            | Reserved _ ch => (Subscribed (MkReceiver ch (channel_version s' ch)), s')
            | Retained outcome _ => (Finished (Ok (Replay outcome)), s')
            | UnresolvedEntry => (Finished (Err (unresolved_error args.(ra_correlation_id))), s')
            end
      end
  end.

(** One poll of the wait: the channel first, then the timer. *)
Definition reserve_poll (args : ReserveArgs) (receiver : Receiver) (utc_now : Time) (s : state)
    : ReservePhase :=
  let ch := receiver.(rx_channel) in
  if negb (channel_version s ch =? receiver.(rx_seen)) || channel_closed s ch then
    match (match s.(ss_channels) !! ch with Some c => c.(wc_value) | None => UpPending end) with
    | UpReplay outcome => Finished (Ok (Replay outcome))
    | UpUnresolved => Finished (Err (unresolved_error args.(ra_correlation_id)))
    | UpReleased | UpPending => Looking utc_now
    end
  else if args.(ra_deadline) <=? utc_now
  then Finished (Err (deadline_error args.(ra_correlation_id)))
  else Waiting receiver.

Definition unresolve_found (key : IdempotencyKey) (b : list entry) : list entry :=
  match list_find (fun e => en_key e = key) b with
  | Some (index, e) => <[index := e <| en_state := UnresolvedEntry |>]> b
  | None => b
  end.

(** The spawned transaction that takes the key; [None] when another call has it by now. *)
Definition reserve_acquire (args : ReserveArgs) (now : Time) : Idem (option IdempotencyPermit) :=
  let principal := args.(ra_principal_id) in
  ensure_writable args.(ra_correlation_id) ;;
  smodify (set_state (cleanup_expired now)) ;;
  do s <- sget;
  if existsb (fun e => bool_decide (en_key e = args.(ra_key))) (bucket_of s.(is_state) principal)
  then sret None
  else
    smodify (set_state (fun st => make_global_room s.(is_global_capacity)
                          (make_principal_room principal s.(is_per_principal_capacity) st))) ;;
    do s <- sget;
    let st := s.(is_state) in
    if (s.(is_per_principal_capacity) =? 0) || (s.(is_global_capacity) =? 0)
       || (s.(is_per_principal_capacity) <=? Z.of_nat (length (bucket_of st principal)))
       || (s.(is_global_capacity) <=? Z.of_nat (entry_count st.(ss_entries)))
    then sfail (resource_exhausted_error args.(ra_correlation_id))
    else
      let st := bump_sequence st in
      let generation := st.(ss_sequence) in
      let '(changed, st) := new_channel st in
      let e := MkEntry args.(ra_key) args.(ra_operation) args.(ra_sha256)
                 (Reserved generation changed) None generation in
      sput (s <| is_state := mark_dirty (principal, args.(ra_key))
                               (set_bucket principal (bucket_of st principal ++ [e]) st) |>) ;;
      fun s =>
      match persist_locked s with
      | (Err error, s) =>
          (Err (persistence_error args.(ra_correlation_id) error),
           set_state (fun st => match st.(ss_entries) !! principal with
                                | Some b => set_bucket principal (unresolve_found args.(ra_key) b) st
                                | None => st
                                end) s)
      | (Ok _, s) =>
          (Ok (Some (MkIdempotencyPermit principal args.(ra_key) args.(ra_operation)
                       args.(ra_sha256) generation args.(ra_correlation_id)
                       (bool_decide (is_Some s.(is_durable))))), s)
      end.

(** One step of a call of [reserve]; [utc_now] is read where the code reads it. *)
Definition reserve_step (args : ReserveArgs) (utc_now : Time) (ph : ReservePhase) (s : store)
    : ReservePhase * store :=
  match ph with
  | Starting now =>
      match ensure_writable args.(ra_correlation_id) s with
      | (Err e, s) => (Finished (Err e), s)
      | (Ok _, s) => (Looking now, s)
      end
  | Looking now =>
      let '(ph, st) := reserve_lookup args now s.(is_state) in (ph, s <| is_state := st |>)
  | Subscribed receiver =>
      (* [remaining.to_std()] fails on a negative duration. *)
      if args.(ra_deadline) - utc_now <? 0
      then (Finished (Err (deadline_error args.(ra_correlation_id))), s)
      else (Waiting receiver, s)
  | Waiting receiver => (reserve_poll args receiver utc_now s.(is_state), s)
  | Acquiring now =>
      match reserve_acquire args now s with
      | (Err e, s) => (Finished (Err e), s)
      | (Ok (Some permit), s) => (Finished (Ok (Acquired permit)), s)
      | (Ok None, s) => (Looking now, s)
      end
  | Finished r => (Finished r, s)
  end.

(** *** Finishing, abandoning, dropping *)

(** [Drop for IdempotencyPermit], on a permit that is still armed. *)
Definition drop_permit (permit : IdempotencyPermit) (s : store) : store :=
  set_state (fun st =>
    (if permit.(ip_durable) then unresolve_entry else abandon_entry)
      permit.(ip_principal_id) permit.(ip_key) permit.(ip_operation) permit.(ip_sha256)
      permit.(ip_generation) st) s.

(** The entry a failed write leaves for the key of a permit. *)
Definition unresolved_for (permit : IdempotencyPermit) : entry :=
  MkEntry permit.(ip_key) permit.(ip_operation) permit.(ip_sha256) UnresolvedEntry None
    permit.(ip_generation).

(** What [finish_inner] makes of the bucket when the outcome could not be written. *)
Definition tombstone (permit : IdempotencyPermit) (b : list entry) : list entry :=
  match list_find (fun e => en_key e = permit.(ip_key)) b with
  | Some (index, e) =>
      <[index := e <| en_state := UnresolvedEntry |> <| en_expires_at := None |>]> b
  | None => b ++ [unresolved_for permit]
  end.

Definition finish_inner (permit : IdempotencyPermit) (outcome : O) (now : Time) : Idem unit :=
  fun s =>
  match ensure_writable permit.(ip_correlation_id) s with
  | (Err e, s) => (Err e, drop_permit permit s)
  | (Ok _, s) =>
      let st := s.(is_state) in
      let principal := permit.(ip_principal_id) in
      let conflict := Err (conflict_error permit.(ip_correlation_id)) in
      match st.(ss_entries) !! principal with
      | None => (conflict, s)
      | Some entries =>
          match list_find (fun e => en_key e = permit.(ip_key)) entries with
          | None => (conflict, s)
          | Some (index, e) =>
              match e.(en_state) with
              | Reserved g changed =>
                  if negb (bool_decide (e.(en_operation) = permit.(ip_operation)))
                     || negb (bool_decide (e.(en_sha256) = permit.(ip_sha256)))
                     || negb (g =? permit.(ip_generation))
                  then (conflict, s <| is_state :=
                                         set_bucket principal (delete index entries ++ [e]) st |>)
                  else
                    let releases := releases_reservation outcome in
                    let update := if releases then UpReleased else UpReplay outcome in
                    let rest := delete index entries in
                    let st :=
                      if releases then set_bucket principal rest st
                      else
                        let safety := safety_relevant outcome in
                        let st := bump_sequence st in
                        let e := e <| en_last_used := st.(ss_sequence) |>
                                   <| en_expires_at := if safety then None
                                                       else Some (now + s.(is_ttl)) |>
                                   <| en_state := Retained outcome safety |> in
                        set_bucket principal (rest ++ [e]) st in
                    let st := remove_empty_buckets (mark_dirty (principal, permit.(ip_key)) st) in
                    match persist_locked (s <| is_state := st |>) with
                    | (Err error, s) =>
                        (Err (persistence_error permit.(ip_correlation_id) error),
                         set_state (fun st => send_replace changed UpUnresolved
                           (set_bucket principal (tombstone permit (bucket_of st principal)) st)) s)
                    | (Ok _, s) => (Ok tt, set_state (send_replace changed update) s)
                    end
              | Retained _ _ | UnresolvedEntry =>
                  (conflict, s <| is_state :=
                                    set_bucket principal (delete index entries ++ [e]) st |>)
              end
          end
      end
  end.

Definition finish (permit : IdempotencyPermit) (outcome : O) (now : Time) : Idem unit :=
  finish_inner permit outcome now.

Definition abandon_inner (permit : IdempotencyPermit) (s : store) : store :=
  let principal := permit.(ip_principal_id) in
  let s := set_state (abandon_entry principal permit.(ip_key) permit.(ip_operation)
                        permit.(ip_sha256) permit.(ip_generation)) s in
  match persist_locked s with
  | (Ok _, s) => s
  | (Err _, s) =>
      set_state (fun st => set_bucket principal
                             (bucket_of st principal ++ [unresolved_for permit]) st) s
  end.

Definition abandon (permit : IdempotencyPermit) (s : store) : store := abandon_inner permit s.

(** *** Opening a durable store *)

(** One entry read back: what [resolve] answers for a retained reference decides, and what
    is not known becomes unresolved. *)
Definition restore_state (resolve : JsonValue -> result (option O) IoError) (d : DurableState)
    : EntryState O :=
  match d with
  | DurReserved | DurUnresolved => UnresolvedEntry
  | DurRetained value =>
      match resolve value with
      | Ok (Some outcome) => Retained outcome (safety_relevant outcome)
      | Ok None | Err _ => UnresolvedEntry
      end
  end.

Definition keeps_forever (st : EntryState O) : bool :=
  match st with UnresolvedEntry | Retained _ true => true | _ => false end.

(** The body of the loop: the state and whether protection must be written back. *)
Definition restore_entry (resolve : JsonValue -> result (option O) IoError) (now : Time)
    (acc : state * bool) (d : DurableEntry) : state * bool :=
  let '(st, protect) := acc in
  let identity := durable_key d in
  if match d.(de_expires_at) with Some t => t <=? now | None => false end
  then (mark_dirty identity st, protect)
  else
    let restored := restore_state resolve d.(de_state) in
    let had_expiry := bool_decide (is_Some d.(de_expires_at)) in
    let forever := keeps_forever restored in
    let st := if forever && had_expiry then mark_dirty identity st else st in
    let e := MkEntry d.(de_key) d.(de_operation) d.(de_sha256) restored
               (if forever then None else d.(de_expires_at)) d.(de_last_used) in
    (set_bucket d.(de_principal_id) (bucket_of st d.(de_principal_id) ++ [e]) st
        <| ss_sequence := Z.max st.(ss_sequence) d.(de_last_used) |>,
     protect || (forever && had_expiry)).

(** [open_durable], given what [Persistence::open] returned. *)
Definition open_durable (resolve : JsonValue -> result (option O) IoError) (now : Time)
    (opened : P * result (list DurableEntry) string) : store :=
  let '(log, loaded) := opened in
  let s : store := (IdempotencyStore_default : store) <| is_durable := Some log |> in
  match loaded with
  | Err issue => s <| is_integrity_issue := Some issue |>
  | Ok entries =>
      let '(st, protect) := fold_left (restore_entry resolve now) entries (StoreState_default, false) in
      let s := s <| is_state := st |> in
      if protect then
        match persist_locked s with
        | (Ok _, s) => s
        | (Err _, s) => s <| is_integrity_issue := Some "ledgerWriteFailed" |>
        end
      else s
  end.
End Store.

#[global] Arguments set_bucket : simpl never.
#[global] Arguments mark_dirty : simpl never.
#[global] Arguments bump_sequence : simpl never.
#[global] Arguments cleanup_expired : simpl never.
#[global] Arguments send_replace : simpl never.
#[global] Arguments remove_empty_buckets : simpl never.
#[global] Arguments bucket_of : simpl never.
