(* ===== verification/IdempotencyInv.v ===== *)
(** * The invariant of the idempotency store

    The store seen as a map from keys to entries ([entry_at]): what each helper does to
    it, the invariant that ties reserved entries to the permits that are out, and that
    every operation keeps it. *)

From S2P Require Import Prelude Text SkillTypes Receipt Job Interface Ledger Json Idempotency.

Section View.
Context {O : Type}.
Abbreviation entry := (Entry O).
Abbreviation state := (StoreState O).
Implicit Types (s : state) (k : Key) (e : entry) (l b : list entry).

Definition entry_at s k : option entry := find_key k.2 (bucket_of s k.1).

Definition keys_unique s : Prop := forall p, NoDup (en_key <$> bucket_of s p).

(** ** One bucket *)

Lemma find_key_cons key e l :
  find_key key (e :: l) = if decide (en_key e = key) then Some e else find_key key l.
Proof.
  unfold find_key. simpl. case_decide; [done|].
  by destruct (list_find _ l) as [[]|].
Qed.

Lemma find_key_Some key l e :
  NoDup (en_key <$> l) -> find_key key l = Some e <-> e ∈ l /\ en_key e = key.
Proof.
  induction l as [|x l IH]; intros Hn.
  { split; [done|]. by intros [?%not_elem_of_nil _]. }
  csimpl in Hn. apply NoDup_cons in Hn as [Hx Hn]. rewrite find_key_cons, elem_of_cons.
  case_decide as E.
  - split; [intros [= ->]; auto|]. intros [[->|Hin] Hk]; [done|].
    destruct Hx. rewrite E, <-Hk. by apply list_elem_of_fmap_2.
  - rewrite IH by done. split; [intros [? ?]; auto|]. intros [[->|?] ?]; [done|auto].
Qed.

Lemma find_key_Some' key l e : find_key key l = Some e -> en_key e = key.
Proof.
  induction l as [|x l IH]; [done|]. rewrite find_key_cons. case_decide; [|auto]. by intros [= <-].
Qed.

Lemma find_key_perm key l l' :
  NoDup (en_key <$> l) -> l ≡ₚ l' -> find_key key l = find_key key l'.
Proof.
  intros Hn Hp. assert (NoDup (en_key <$> l')) as Hn' by (by rewrite <-Hp).
  apply option_eq. intros e. rewrite !find_key_Some by done. by rewrite Hp.
Qed.

Lemma find_key_None key l : find_key key l = None <-> key ∉ en_key <$> l.
Proof.
  induction l as [|x l IH]; [split; [intros _; apply not_elem_of_nil|done]|].
  rewrite find_key_cons. csimpl. rewrite not_elem_of_cons. case_decide; naive_solver.
Qed.

Lemma list_find_key key l index e :
  list_find (fun e => en_key e = key) l = Some (index, e) ->
  find_key key l = Some e /\ l !! index = Some e /\ en_key e = key /\ l ≡ₚ e :: delete index l.
Proof.
  intros E. unfold find_key. rewrite E. apply list_find_Some in E as (Hl & Hk & _).
  split_and!; [done|done|done|]. by apply delete_Permutation.
Qed.

Lemma list_find_key_None key l :
  list_find (fun e => en_key e = key) l = None -> find_key key l = None.
Proof. intros E. unfold find_key. by rewrite E. Qed.

Lemma insert_perm l index e e' :
  l !! index = Some e -> <[index := e']> l ≡ₚ e' :: delete index l.
Proof.
  intros Hl. assert (<[index := e']> l !! index = Some e') as Hi.
  { apply list_lookup_insert_eq. by eapply lookup_lt_Some. }
  assert (delete index (<[index := e']> l) = delete index l) as Hd.
  { clear. revert index. induction l as [|x l IH]; intros [|index]; try done.
    change (x :: delete index (<[index := e']> l) = x :: delete index l). by rewrite IH. }
  by rewrite (delete_Permutation _ _ _ Hi), Hd.
Qed.

(** ** Changing one bucket *)

Lemma bucket_of_insert s p b q :
  bucket_of (set_bucket p b s) q = if decide (p = q) then b else bucket_of s q.
Proof.
  unfold bucket_of. simpl. case_decide as E; [subst; by rewrite lookup_insert_eq|].
  by rewrite lookup_insert_ne.
Qed.

Lemma bucket_of_remove_empty s p : bucket_of (remove_empty_buckets s) p = bucket_of s p.
Proof.
  unfold bucket_of, remove_empty_buckets. simpl. rewrite map_lookup_filter.
  destruct (ss_entries s !! p) as [[|e b]|]; simpl; try done.
Qed.

Lemma entry_at_remove_empty s k : entry_at (remove_empty_buckets s) k = entry_at s k.
Proof. unfold entry_at. by rewrite bucket_of_remove_empty. Qed.

Lemma keys_unique_remove_empty s : keys_unique (remove_empty_buckets s) <-> keys_unique s.
Proof. unfold keys_unique. by setoid_rewrite bucket_of_remove_empty. Qed.

(** [s'] has the buckets of [s] except that of [p], which is [b] up to order. *)
Definition rebucket s s' (p : PrincipalId) b : Prop :=
  bucket_of s' p ≡ₚ b /\ forall q, q <> p -> bucket_of s' q = bucket_of s q.

Lemma rebucket_insert s p b b' :
  b' ≡ₚ b -> rebucket s (set_bucket p b' s) p b.
Proof.
  intros Hp. split; [by rewrite bucket_of_insert, decide_True|].
  intros q Hq. by rewrite bucket_of_insert, decide_False.
Qed.

(** The entry of one key is replaced, the others are kept. *)
Definition updates s s' k (o : option entry) : Prop :=
  entry_at s' k = o /\ forall k', k' <> k -> entry_at s' k' = entry_at s k'.

Lemma rebucket_unique s s' p b :
  keys_unique s -> rebucket s s' p b -> NoDup (en_key <$> b) -> keys_unique s'.
Proof.
  intros Hu [Hp Hq] Hb q. destruct (decide (q = p)) as [->|]; [by rewrite Hp|].
  rewrite Hq by done. apply Hu.
Qed.

Lemma rebucket_replace s s' p e e' rest :
  keys_unique s -> bucket_of s p ≡ₚ e :: rest -> rebucket s s' p (e' :: rest) ->
  en_key e' = en_key e -> keys_unique s' /\ updates s s' (p, en_key e) (Some e').
Proof.
  intros Hu Hb Hr Hk. pose proof (Hu p) as Hn. rewrite Hb in Hn. csimpl in Hn.
  assert (keys_unique s') as Hu'.
  { eapply rebucket_unique; [done|exact Hr|]. csimpl. by rewrite Hk. }
  split; [done|]. destruct Hr as [Hp Hq]. split.
  - apply find_key_Some; [apply Hu'|]. simpl. split; [rewrite Hp; by left|done].
  - intros [q kk] Hne. unfold entry_at. simpl. destruct (decide (q = p)) as [->|]; [|by rewrite Hq].
    rewrite (find_key_perm _ _ _ (Hu p) Hb), (find_key_perm _ _ _ (Hu' p) Hp), !find_key_cons.
    rewrite !decide_False by congruence. done.
Qed.

Lemma rebucket_remove s s' p e rest :
  keys_unique s -> bucket_of s p ≡ₚ e :: rest -> rebucket s s' p rest ->
  keys_unique s' /\ updates s s' (p, en_key e) None.
Proof.
  intros Hu Hb Hr. pose proof (Hu p) as Hn. rewrite Hb in Hn. csimpl in Hn.
  apply NoDup_cons in Hn as [Hx Hn].
  assert (keys_unique s') as Hu' by (by eapply rebucket_unique).
  split; [done|]. destruct Hr as [Hp Hq]. split.
  - apply find_key_None. simpl. by rewrite Hp.
  - intros [q kk] Hne. unfold entry_at. simpl. destruct (decide (q = p)) as [->|]; [|by rewrite Hq].
    rewrite (find_key_perm _ _ _ (Hu p) Hb), (find_key_perm _ _ _ (Hu' p) Hp), find_key_cons.
    rewrite decide_False by congruence. done.
Qed.

Lemma rebucket_add s s' p e :
  keys_unique s -> rebucket s s' p (e :: bucket_of s p) -> entry_at s (p, en_key e) = None ->
  keys_unique s' /\ updates s s' (p, en_key e) (Some e).
Proof.
  intros Hu Hr Hnone. apply find_key_None in Hnone. simpl in Hnone.
  assert (keys_unique s') as Hu'.
  { eapply rebucket_unique; [done|exact Hr|]. csimpl. constructor; [done|apply Hu]. }
  split; [done|]. destruct Hr as [Hp Hq]. split.
  - apply find_key_Some; [apply Hu'|]. simpl. split; [rewrite Hp; by left|done].
  - intros [q kk] Hne. unfold entry_at. simpl. destruct (decide (q = p)) as [->|]; [|by rewrite Hq].
    rewrite (find_key_perm _ _ _ (Hu' p) Hp), find_key_cons, decide_False by congruence. done.
Qed.

(** ** Counting *)

Lemma entry_count_insert (m : gmap PrincipalId (list entry)) p b :
  m !! p = None -> entry_count (<[p := b]> m) = (length b + entry_count m)%nat.
Proof.
  intros Hp. unfold entry_count. rewrite (map_to_list_insert m p b Hp). done.
Qed.

Lemma entry_count_delete (m : gmap PrincipalId (list entry)) p :
  entry_count m = (length (default [] (m !! p)) + entry_count (delete p m))%nat.
Proof.
  destruct (m !! p) as [b|] eqn:E; simpl; [|by rewrite delete_id].
  rewrite <-(insert_delete_id m p b) at 1 by done.
  by rewrite entry_count_insert by (apply lookup_delete_eq).
Qed.

Lemma entry_count_le (m' m : gmap PrincipalId (list entry)) :
  (forall p, (length (default [] (m' !! p)) <= length (default [] (m !! p)))%nat) ->
  (entry_count m' <= entry_count m)%nat.
Proof.
  revert m. induction m' as [|p b m' Hp IH] using map_ind; intros m Hle; 
    [unfold entry_count; rewrite map_to_list_empty; simpl; lia|].
  rewrite entry_count_insert by done. rewrite (entry_count_delete m p).
  specialize (Hle p) as Hb. rewrite lookup_insert_eq in Hb. simpl in Hb.
  enough (entry_count m' <= entry_count (delete p m))%nat by lia. apply IH. intros q.
  destruct (decide (q = p)) as [->|]; [rewrite Hp; simpl; lia|].
  specialize (Hle q). rewrite lookup_insert_ne in Hle by done. by rewrite lookup_delete_ne.
Qed.

Lemma entry_count_add s p b :
  entry_count (<[p := b]> s.(ss_entries)) = (length b + entry_count (delete p s.(ss_entries)))%nat.
Proof.
  rewrite (entry_count_delete _ p), lookup_insert_eq. simpl. by rewrite delete_insert_eq.
Qed.

(** ** Losing entries *)

(** [s'] is [s] without some entries that satisfy [P], all of them marked dirty. *)
Record sheds (P : entry -> Prop) s s' : Prop := MkSheds {
  sh_sub : forall p, bucket_of s' p `sublist_of` bucket_of s p;
  sh_entry : forall k, entry_at s' k = entry_at s k
                       \/ exists e, entry_at s k = Some e /\ P e /\ entry_at s' k = None
                                    /\ k ∈ s'.(ss_dirty);
  sh_dirty : s.(ss_dirty) ⊆ s'.(ss_dirty);
  sh_marked : forall k, k ∈ s'.(ss_dirty) -> k ∈ s.(ss_dirty) \/ is_Some (entry_at s k);
  sh_channels : s'.(ss_channels) = s.(ss_channels);
  sh_sequence : s'.(ss_sequence) = s.(ss_sequence);
}.

Lemma sheds_refl P s : sheds P s s.
Proof. split; auto. Qed.

Lemma sheds_trans P s1 s2 s3 : sheds P s1 s2 -> sheds P s2 s3 -> sheds P s1 s3.
Proof.
  intros [A1 A2 A3 A6 A4 A5] [B1 B2 B3 B6 B4 B5].
  split; [intros p; etrans; [apply B1|apply A1]| |by etrans| |congruence|congruence].
  2: { intros k Hk. destruct (B6 k Hk) as [Hk'|[e He]]; [by apply A6|right].
       destruct (A2 k) as [<-|(f & F & _)]; [by exists e|by exists f]. }
  intros k. destruct (B2 k) as [E|(e & E & He & En & Hd)], (A2 k) as [F|(f & F & Hf & Fn & Hd')].
  - left. congruence.
  - right. exists f. split_and!; [done|done|congruence|set_solver].
  - right. exists e. split_and!; [congruence|done..].
  - congruence.
Qed.

Lemma sheds_weaken (P Q : entry -> Prop) s s' :
  (forall e, P e -> Q e) -> sheds P s s' -> sheds Q s s'.
Proof.
  intros HPQ [A1 A2 A3 A6 A4 A5]. split; try done. intros k.
  destruct (A2 k) as [?|(e & ? & ? & ? & ?)]; [by left|right]. exists e. auto.
Qed.

Lemma sheds_remove_empty P s s' : sheds P s s' -> sheds P s (remove_empty_buckets s').
Proof.
  intros [A1 A2 A3 A6 A4 A5]. split; try done.
  - intros p. by rewrite bucket_of_remove_empty.
  - intros k. by rewrite entry_at_remove_empty.
Qed.

Lemma sheds_unique P s s' : sheds P s s' -> keys_unique s -> keys_unique s'.
Proof.
  intros Hs Hu p. eapply sublist_NoDup; [apply (Hu p)|].
  pose proof (sh_sub _ _ _ Hs p) as Hsub. induction Hsub; csimpl; by constructor.
Qed.

Lemma sheds_length P s s' p :
  sheds P s s' -> (length (bucket_of s' p) <= length (bucket_of s p))%nat.
Proof. intros Hs. apply sublist_length, (sh_sub _ _ _ Hs). Qed.

Lemma sheds_count P s s' :
  sheds P s s' -> (entry_count s'.(ss_entries) <= entry_count s.(ss_entries))%nat.
Proof. intros Hs. apply entry_count_le. intros p. exact (sheds_length _ _ _ p Hs). Qed.

(** An entry that is found afterwards was there before. *)
Lemma sheds_lookup P s s' k e : sheds P s s' -> entry_at s' k = Some e -> entry_at s k = Some e.
Proof. intros Hs E. destruct (sh_entry _ _ _ Hs k) as [?|(? & ? & ? & ? & ?)]; congruence. Qed.

(** An entry that must stay stays. *)
Lemma sheds_keeps P s s' k e :
  sheds P s s' -> entry_at s k = Some e -> ~ P e -> entry_at s' k = Some e.
Proof. intros Hs E HP. destruct (sh_entry _ _ _ Hs k) as [?|(? & ? & ? & ? & ?)]; congruence. Qed.

(** Deleting one entry and marking it dirty. *)
Lemma sheds_delete (P : entry -> Prop) s p index e :
  keys_unique s -> bucket_of s p !! index = Some e -> P e ->
  sheds P s (mark_dirty (p, e.(en_key)) (set_bucket p (delete index (bucket_of s p)) s)).
Proof.
  intros Hu Hl HP. set (s1 := set_bucket p (delete index (bucket_of s p)) s).
  assert (rebucket s s1 p (delete index (bucket_of s p))) as Hr by (by apply rebucket_insert).
  pose proof (delete_Permutation _ _ _ Hl) as Hp.
  destruct (rebucket_remove _ _ _ _ _ Hu Hp Hr) as [_ [Hn Ho]].
  assert (entry_at s (p, en_key e) = Some e) as Hat
    by (apply find_key_Some; [apply Hu|]; split; [by eapply list_elem_of_lookup_2|done]).
  split; simpl; [| |set_solver| |done|done].
  - intros q. change (bucket_of s1 q `sublist_of` bucket_of s q). unfold s1. rewrite bucket_of_insert.
    case_decide; [subst; apply sublist_delete|done].
  - intros k. destruct (decide (k = (p, en_key e))) as [->|Hne]; [right|left; exact (Ho k Hne)].
    exists e. split_and!; [done|done|exact Hn|set_solver].
  - intros k [->%elem_of_singleton|?]%elem_of_union; [right; by exists e|by left].
Qed.
End View.

Section Shedding.
Context {O : Type}.
Abbreviation entry := (Entry O).
Abbreviation state := (StoreState O).
Implicit Types (s : state) (k : Key) (e : entry) (l b : list entry).

Lemma find_key_filter key (Q : entry -> Prop) `{forall e, Decision (Q e)} l :
  NoDup (en_key <$> l) ->
  find_key key (filter Q l) = match find_key key l with
                              | Some e => if decide (Q e) then Some e else None
                              | None => None
                              end.
Proof.
  induction l as [|x l IH]; intros Hn; [done|]. csimpl in Hn. apply NoDup_cons in Hn as [Hx Hn].
  rewrite filter_cons, find_key_cons. destruct (decide (Q x)) as [HQ|HQ].
  - rewrite find_key_cons. case_decide; [by rewrite decide_True|auto].
  - rewrite IH by done. case_decide as E; [|done]. rewrite decide_False by done.
    destruct (find_key key l) as [y|] eqn:Ey; [|done].
    apply find_key_Some in Ey as [Hy Hk]; [|done]. destruct Hx. rewrite E, <-Hk.
    by apply list_elem_of_fmap_2.
Qed.

Lemma keys_where_spec (f : entry -> bool) (m : gmap PrincipalId (list entry)) (k : Key) :
  k ∈ keys_where f m <-> exists e, e ∈ default [] (m !! k.1) /\ f e = true /\ en_key e = k.2.
Proof.
  unfold keys_where, bucket_keys. rewrite elem_of_list_to_set, list_elem_of_In, in_concat.
  setoid_rewrite <-list_elem_of_In. split.
  - intros (ks & Hks & Hk). apply list_elem_of_fmap in Hks as ([p b] & -> & Hin).
    apply elem_of_map_to_list in Hin. apply list_elem_of_fmap in Hk as (e & -> & He).
    apply list_elem_of_filter in He as [Hf He]. exists e. simpl in *. by rewrite Hin.
  - intros (e & He & Hf & Hk). destruct (m !! k.1) as [b|] eqn:E; [|by apply not_elem_of_nil in He].
    exists ((fun e => (k.1, en_key e)) <$> filter (fun e => f e = true) b). split.
    + apply list_elem_of_fmap. exists (k.1, b). split; [done|]. by apply elem_of_map_to_list.
    + apply list_elem_of_fmap. exists e. split; [destruct k; by simplify_eq/=|].
      by apply list_elem_of_filter.
Qed.

Lemma cleanup_sheds now s :
  keys_unique s -> sheds (fun e => expired now e = true) s (cleanup_expired now s).
Proof.
  intros Hu. unfold cleanup_expired. apply sheds_remove_empty.
  set (s1 := s <| ss_dirty := _ |> <| ss_entries := _ |>).
  assert (forall p, bucket_of s1 p = filter (fun e => expired now e = false) (bucket_of s p)) as Hb.
  { intros p. unfold s1, bucket_of. simpl. rewrite lookup_fmap. by destruct (ss_entries s !! p). }
  split; try done.
  - intros p. rewrite Hb. apply sublist_filter.
  - intros k. unfold entry_at. rewrite Hb, find_key_filter by apply Hu.
    destruct (find_key k.2 (bucket_of s k.1)) as [e|] eqn:E; [|by left].
    case_decide as Hx; [by left|right]. apply not_false_is_true in Hx.
    exists e. split_and!; [done|done|done|]. simpl. apply elem_of_union_l, keys_where_spec. exists e.
    apply find_key_Some in E as [? ?]; [|apply Hu]. done.
  - simpl. set_solver.
  - simpl. intros k [Hk|?]%elem_of_union; [right|by left]. apply keys_where_spec in Hk as (e & He & _ & Hk).
    exists e. apply find_key_Some; [apply Hu|done].
Qed.

Lemma min_by_key_elem {A} (f : A -> Z) (l : list A) x : min_by_key f l = Some x -> x ∈ l.
Proof.
  unfold min_by_key.
  enough (forall acc, fold_left (fun best x => match best with
      | None => Some x | Some y => if f x <? f y then Some x else Some y end) l acc = Some x ->
    acc = Some x \/ x ∈ l) as Hx by (intros E; by apply Hx in E as [?|?]).
  induction l as [|y l IH]; intros acc E; simpl in E; [by left|].
  apply IH in E as [E|?]; [|right; by right].
  destruct acc as [z|]; [|simplify_eq; right; by left].
  destruct (f y <? f z); simplify_eq; [right; by left|by left].
Qed.

Lemma oldest_evictable_spec l index key :
  oldest_evictable l = Some (index, key) ->
  exists e, l !! index = Some e /\ entry_is_evictable e = true /\ en_key e = key.
Proof.
  unfold oldest_evictable. destruct (min_by_key _ _) as [[i e]|] eqn:E; [|done].
  intros [= <- <-]. apply min_by_key_elem, list_elem_of_filter in E as [He Hin].
  apply elem_of_lookup_imap_1 in Hin as (j & y & Ey & Hl). injection Ey as -> ->. by exists y.
Qed.

Lemma sheds_same P s s' :
  (forall p, bucket_of s' p = bucket_of s p) -> s'.(ss_dirty) = s.(ss_dirty) ->
  s'.(ss_channels) = s.(ss_channels) -> s'.(ss_sequence) = s.(ss_sequence) -> sheds P s s'.
Proof.
  intros Hb Hd Hc Hq. split; rewrite ?Hd; try done; [| |auto].
  - intros p. by rewrite Hb.
  - intros k. left. unfold entry_at. by rewrite Hb.
Qed.

Definition evictable e : Prop := entry_is_evictable e = true.

Lemma evict_principal_sheds fuel cap p s b' (keys : list IdempotencyKey) :
  keys_unique s -> evict_principal fuel cap (bucket_of s p) = (b', keys) ->
  sheds evictable s (s <| ss_entries := <[p := b']> s.(ss_entries) |>
                       <| ss_dirty := list_to_set ((fun key => (p, key)) <$> keys) ∪ s.(ss_dirty) |>).
Proof.
  revert s b' keys. induction fuel as [|fuel IH]; intros s b' keys Hu E; simpl in E.
  all: assert (forall b' (keys : list IdempotencyKey), (bucket_of s p, []) = (b', keys) ->
    sheds evictable s (s <| ss_entries := <[p := b']> s.(ss_entries) |>
      <| ss_dirty := list_to_set ((fun k : IdempotencyKey => (p, k)) <$> keys) ∪ s.(ss_dirty) |>)) as Hstop.
  1,3: intros ? ? [= <- <-]; apply sheds_same; try done; [|simpl; apply set_eq; set_solver];
    intros q; change (bucket_of (set_bucket p (bucket_of s p) s) q = bucket_of s q); rewrite bucket_of_insert; case_decide; by subst.
  { by apply Hstop. }
  destruct (_ <? _); [by apply Hstop|].
  unfold remove_oldest_evictable in E. destruct (oldest_evictable _) as [[index key]|] eqn:Eo;
    [|by apply Hstop].
  apply oldest_evictable_spec in Eo as (e & Hl & He & <-). clear Hstop.
  set (s1 := mark_dirty (p, e.(en_key)) (set_bucket p (delete index (bucket_of s p)) s)).
  assert (sheds evictable s s1) as H1 by (by apply sheds_delete).
  assert (bucket_of s1 p = delete index (bucket_of s p)) as Hb1.
  { unfold s1, bucket_of. simpl. by rewrite lookup_insert_eq. }
  destruct (evict_principal fuel cap (delete index (bucket_of s p))) as [b1 keys1] eqn:E1.
  injection E as <- <-. rewrite <-Hb1 in E1.
  apply IH in E1; [|by eapply sheds_unique].
  eapply sheds_trans; [exact H1|].
  match goal with |- sheds _ _ ?t => match type of E1 with sheds _ _ ?t' =>
    replace t with t'; [exact E1|] end end.
  unfold s1. destruct s. simpl. f_equal; [apply insert_insert_eq|]. apply set_eq. set_solver.
Qed.

Lemma make_principal_room_sheds p cap s :
  keys_unique s -> sheds evictable s (make_principal_room p cap s).
Proof.
  intros Hu. unfold make_principal_room. destruct (ss_entries s !! p) as [b|] eqn:Eb;
    [|apply sheds_refl].
  destruct (evict_principal (length b) cap b) as [b' keys] eqn:E. apply sheds_remove_empty.
  assert (bucket_of s p = b) as Hb by (unfold bucket_of; by rewrite Eb). rewrite <-Hb in E.
  by apply evict_principal_sheds in E.
Qed.

Lemma global_candidate_spec (m : gmap PrincipalId (list entry)) p index :
  global_candidate m = Some (p, index) ->
  exists b e, m !! p = Some b /\ b !! index = Some e /\ entry_is_evictable e = true.
Proof.
  unfold global_candidate. destruct (min_by_key _ _) as [[[u q] i]|] eqn:E; [|done].
  intros [= <- <-]. apply min_by_key_elem in E. rewrite list_elem_of_In, in_concat in E.
  destruct E as (cs & Hcs & Hc). apply list_elem_of_In in Hcs, Hc.
  apply list_elem_of_fmap in Hcs as ([p b] & -> & Hin). apply elem_of_map_to_list in Hin.
  unfold bucket_candidates in Hc. apply list_elem_of_fmap in Hc as ([j e] & [= -> -> ->] & He).
  apply list_elem_of_filter in He as [He Hj].
  apply elem_of_lookup_imap_1 in Hj as (j' & y & Ey & Hl). injection Ey as -> ->. eauto.
Qed.

Lemma make_global_room_sheds cap s :
  keys_unique s -> sheds evictable s (make_global_room cap s).
Proof.
  unfold make_global_room. generalize (entry_count (ss_entries s)) as fuel. intros fuel.
  revert s. induction fuel as [|fuel IH]; intros s Hu; simpl; [apply sheds_refl|].
  destruct (_ <? _); [apply sheds_refl|].
  destruct (global_candidate _) as [[p index]|] eqn:E; [|apply sheds_refl].
  apply global_candidate_spec in E as (b & e & Hb & Hl & He). rewrite Hb, Hl.
  set (s1 := mark_dirty (p, e.(en_key)) (set_bucket p (delete index b) s)).
  assert (sheds evictable s (remove_empty_buckets s1)) as H1.
  { apply sheds_remove_empty. unfold s1. assert (bucket_of s p = b) as Hbk by (unfold bucket_of; by rewrite Hb).
    rewrite <-Hbk in Hl |- *. by apply sheds_delete. }
  eapply sheds_trans; [exact H1|]. apply IH. by eapply sheds_unique.
Qed.
End Shedding.

(** ** Permits and reserved entries *)

Definition permit_key (pm : IdempotencyPermit) : Key := (pm.(ip_principal_id), pm.(ip_key)).

Section Invariant.
Context {O : Type}.
Abbreviation entry := (Entry O).
Abbreviation state := (StoreState O).
Implicit Types (s : state) (k : Key) (e : entry) (pm : IdempotencyPermit).

Definition is_reserved e : Prop := exists g c, e.(en_state) = Reserved g c.

(** The entry is the reservation that the permit stands for, on channel [c]. *)
Definition reserved_for pm e (c : ChannelId) : Prop :=
  e.(en_operation) = pm.(ip_operation) /\ e.(en_sha256) = pm.(ip_sha256)
  /\ e.(en_state) = Reserved pm.(ip_generation) c.

(** An entry that may be dropped has an ordinary outcome; every other one never expires. *)
Definition lasting e : Prop := evictable e \/ e.(en_expires_at) = None.

Record state_inv s (permits : list IdempotencyPermit) : Prop := MkStateInv {
  si_unique : keys_unique s;
  si_permits : NoDup (permit_key <$> permits);
  si_reserved : forall k e, entry_at s k = Some e -> is_reserved e -> k ∈ permit_key <$> permits;
  si_held : forall pm, pm ∈ permits -> exists e c, entry_at s (permit_key pm) = Some e
                                                   /\ reserved_for pm e c;
  si_lasting : forall k e, entry_at s k = Some e -> lasting e;
  si_pending : forall k e g c, entry_at s k = Some e -> e.(en_state) = Reserved g c ->
                 s.(ss_channels) !! c = Some (MkChannel 0 UpPending);
  si_senders : forall k k' e e' g g' c, entry_at s k = Some e -> entry_at s k' = Some e' ->
                 e.(en_state) = Reserved g c -> e'.(en_state) = Reserved g' c -> k = k';
}.

Lemma state_inv_ext s s' permits :
  s'.(ss_entries) = s.(ss_entries) -> s'.(ss_channels) = s.(ss_channels) ->
  state_inv s permits -> state_inv s' permits.
Proof.
  intros He Hc [A B C D E F G].
  assert (forall k, entry_at s' k = entry_at s k) as Ha.
  { intros k. unfold entry_at, bucket_of. by rewrite He. }
  split; [intros p; unfold bucket_of; rewrite He; apply A|done|..].
  - intros k e. rewrite Ha. apply C.
  - intros pm. rewrite Ha. apply D.
  - intros k e. rewrite Ha. apply E.
  - intros k e g c. rewrite Ha, Hc. apply F.
  - intros k k' e e' g g' c. rewrite !Ha. apply G.
Qed.

Lemma evictable_not_reserved e : evictable e -> ~ is_reserved e.
Proof. unfold evictable, entry_is_evictable. intros Hv (g & c & E). by rewrite E in Hv. Qed.

Lemma expired_lasting now e : lasting e -> expired now e = true -> evictable e.
Proof. intros [?|E]; [done|]. unfold expired. by rewrite E. Qed.

Lemma state_inv_sheds s s' permits :
  sheds evictable s s' -> state_inv s permits -> state_inv s' permits.
Proof.
  intros Hs [A B C D E F G].
  assert (forall k e, entry_at s' k = Some e -> entry_at s k = Some e) as Hl
    by (intros k e; by apply (sheds_lookup evictable)).
  split; [by eapply sheds_unique|done|by eauto|..].
  - intros pm Hpm. destruct (D pm Hpm) as (e & c & He & Hr). exists e, c. split; [|done].
    eapply sheds_keeps; [done|done|]. intros Hv. apply (evictable_not_reserved e Hv).
    destruct Hr as (_ & _ & Hr). by eexists _, _.
  - eauto.
  - intros k e g c He Hr. rewrite (sh_channels _ _ _ Hs). eauto.
  - eauto 10.
Qed.

Lemma state_inv_cleanup now s permits :
  state_inv s permits -> sheds evictable s (cleanup_expired now s).
Proof.
  intros I. pose proof (cleanup_sheds now s (si_unique _ _ I)) as [A1 A2 A3 A6 A4 A5].
  split; try done. intros k. destruct (A2 k) as [?|(e & He & Hx & ? & ?)]; [by left|right].
  exists e. split_and!; try done. by eapply expired_lasting, Hx; eapply si_lasting.
Qed.

(** An entry keeps its state, its operation and its expiry. *)
Lemma state_inv_touch s s' permits k e e' :
  state_inv s permits -> keys_unique s' -> updates s s' k (Some e') -> entry_at s k = Some e ->
  e'.(en_state) = e.(en_state) -> e'.(en_operation) = e.(en_operation) ->
  e'.(en_sha256) = e.(en_sha256) -> e'.(en_expires_at) = e.(en_expires_at) ->
  s'.(ss_channels) = s.(ss_channels) -> state_inv s' permits.
Proof.
  intros [A B C D E F G] Hu [Hk Ho] He Es Eo Eh Ex Ec.
  assert (forall k1 e1, entry_at s' k1 = Some e1 -> exists e2, entry_at s k1 = Some e2
            /\ e1.(en_state) = e2.(en_state) /\ e1.(en_expires_at) = e2.(en_expires_at)) as Hb.
  { intros k1 e1 H1. destruct (decide (k1 = k)) as [->|Hne]; [|rewrite Ho in H1 by done; eauto].
    exists e. rewrite Hk in H1. by simplify_eq. }
  split; [done|done|..].
  - intros k1 e1 H1 (g & c & Hr). destruct (Hb _ _ H1) as (e2 & H2 & E2 & _).
    apply (C k1 e2 H2). exists g, c. congruence.
  - intros pm Hpm. destruct (D pm Hpm) as (e0 & c & H0 & (? & ? & ?)).
    destruct (decide (permit_key pm = k)) as [Hx|Hne]; [|exists e0, c; by rewrite Ho].
    rewrite Hx in H0 |- *. exists e', c. rewrite Hk. split; [done|].
    assert (e0 = e) as -> by congruence. unfold reserved_for. split_and!; congruence.
  - intros k1 e1 H1. destruct (Hb _ _ H1) as (e2 & H2 & E2 & X2).
    destruct (E k1 e2 H2) as [Hv|Hn]; [left|right; congruence].
    unfold evictable, entry_is_evictable in *. by rewrite E2.
  - intros k1 e1 g c H1 Hr. destruct (Hb _ _ H1) as (e2 & H2 & E2 & _). rewrite Ec.
    apply (F k1 e2 g c); congruence.
  - intros k1 k2 e1 e2 g1 g2 c H1 H2 R1 R2.
    destruct (Hb _ _ H1) as (f1 & F1 & E1 & _), (Hb _ _ H2) as (f2 & F2 & E2 & _).
    apply (G k1 k2 f1 f2 g1 g2 c); congruence.
Qed.

(** A permit is used up and its entry becomes [o], which is no reservation. *)
Lemma state_inv_release s s' permits permits' pm e c o :
  state_inv s permits -> permits ≡ₚ pm :: permits' ->
  entry_at s (permit_key pm) = Some e -> reserved_for pm e c ->
  keys_unique s' -> updates s s' (permit_key pm) o ->
  (forall e', o = Some e' -> ~ is_reserved e' /\ lasting e') ->
  (forall c', c' <> c -> s'.(ss_channels) !! c' = s.(ss_channels) !! c') ->
  state_inv s' permits'.
Proof.
  intros [A B C D E F G] Hp He Hr Hu [Hk Ho] Hnew Hc.
  rewrite Hp in B. csimpl in B. apply NoDup_cons in B as [Bn B].
  assert (forall k1 e1, k1 <> permit_key pm -> entry_at s' k1 = Some e1 -> entry_at s k1 = Some e1)
    as Hb by (intros k1 e1 Hne H1; by rewrite Ho in H1).
  assert (forall k1 e1, entry_at s' k1 = Some e1 -> is_reserved e1 -> k1 <> permit_key pm) as Hne.
  { intros k1 e1 H1 R1 ->. rewrite Hk in H1. by destruct (Hnew _ H1). }
  split; [done|done|..].
  - intros k1 e1 H1 R1. pose proof (Hne _ _ H1 R1) as Hx.
    specialize (C k1 e1 (Hb _ _ Hx H1) R1). rewrite Hp in C. csimpl in C.
    by apply elem_of_cons in C as [?|?].
  - intros pm1 Hpm1. assert (permit_key pm1 <> permit_key pm) as Hx.
    { intros Hx. apply Bn. rewrite <-Hx. by apply list_elem_of_fmap_2. }
    rewrite Ho by done. apply D. rewrite Hp. by right.
  - intros k1 e1 H1. destruct (decide (k1 = permit_key pm)) as [->|Hx]; [|eauto].
    rewrite Hk in H1. by destruct (Hnew _ H1).
  - intros k1 e1 g c1 H1 R1. assert (is_reserved e1) as R1' by (by exists g, c1).
    pose proof (Hne _ _ H1 R1') as Hx. rewrite Hc; [eauto|]. intros ->.
    apply Hx. destruct Hr as (_ & _ & Hr). eapply G; [|exact He|exact R1|exact Hr]. eauto.
  - intros k1 k2 e1 e2 g1 g2 c1 H1 H2 R1 R2.
    assert (k1 <> permit_key pm) by (eapply Hne; [exact H1|by exists g1, c1]).
    assert (k2 <> permit_key pm) by (eapply Hne; [exact H2|by exists g2, c1]). eauto.
Qed.

(** A new entry under a key that had none, on a channel that is new. *)
Lemma state_inv_add s s' permits k e :
  state_inv s permits -> keys_unique s' -> updates s s' k (Some e) -> entry_at s k = None ->
  lasting e -> s'.(ss_channels) = s.(ss_channels) ++ [MkChannel 0 UpPending] ->
  (~ is_reserved e -> state_inv s' permits)
  /\ (forall pm, permit_key pm = k -> reserved_for pm e (length s.(ss_channels)) ->
      state_inv s' (pm :: permits)).
Proof.
  intros [A B C D E F G] Hu [Hk Ho] Hnone Hl Hc.
  assert (forall k1 e1, entry_at s k1 = Some e1 -> k1 <> k) as Hne by (intros ? ? ? ->; congruence).
  assert (forall k1 e1, k1 <> k -> entry_at s' k1 = Some e1 -> entry_at s k1 = Some e1)
    as Hb by (intros k1 e1 Hx H1; by rewrite Ho in H1).
  assert (forall k1 e1 g c, entry_at s k1 = Some e1 -> e1.(en_state) = Reserved g c ->
            s'.(ss_channels) !! c = Some (MkChannel 0 UpPending) /\ c <> length s.(ss_channels)) as Hold.
  { intros k1 e1 g c H1 R1. pose proof (F _ _ _ _ H1 R1) as Hf. rewrite Hc.
    split; [by apply lookup_app_l_Some|]. apply lookup_lt_Some in Hf. lia. }
  assert (forall pm, pm ∈ permits -> exists e c, entry_at s' (permit_key pm) = Some e
            /\ reserved_for pm e c) as Hheld.
  { intros pm Hpm. destruct (D pm Hpm) as (e0 & c & H0 & Hr). exists e0, c. split; [|done].
    rewrite Ho; [done|by eapply Hne]. }
  assert (forall k1 e1, entry_at s' k1 = Some e1 -> lasting e1) as Hlast.
  { intros k1 e1 H1. destruct (decide (k1 = k)) as [->|Hx]; [congruence|eauto]. }
  split.
  - intros Hnr.
    assert (forall k1 e1, entry_at s' k1 = Some e1 -> is_reserved e1 -> entry_at s k1 = Some e1) as Hb'.
    { intros k1 e1 H1 R1. apply Hb; [|done]. intros ->. congruence. }
    split; try done.
    + intros k1 e1 H1 R1. eauto.
    + intros k1 e1 g c H1 R1. eapply Hold; [apply Hb'; [done|by exists g, c]|done].
    + intros k1 k2 e1 e2 g1 g2 c H1 H2 R1 R2.
      eapply G; [apply Hb'; [exact H1|by exists g1, c]|apply Hb'; [exact H2|by exists g2, c]|done..].
  - intros pm Hpk Hr. split; try done.
    + csimpl. constructor; [|done]. intros Hin. apply list_elem_of_fmap in Hin as (pm' & E' & Hin').
      destruct (D pm' Hin') as (e0 & c & H0 & _). congruence.
    + intros k1 e1 H1 R1. csimpl. destruct (decide (k1 = k)) as [->|Hx]; [rewrite Hpk; left|].
      right. eauto.
    + intros pm1 [->|Hpm1]%elem_of_cons; [|by apply Hheld]. exists e, (length (ss_channels s)).
      by rewrite Hpk.
    + intros k1 e1 g c H1 R1. destruct (decide (k1 = k)) as [->|Hx]; [|eapply Hold; eauto].
      assert (e1 = e) as -> by congruence. destruct Hr as (_ & _ & Hr). rewrite Hr in R1.
      injection R1 as <- <-. rewrite Hc. by rewrite lookup_app_r, Nat.sub_diag by lia.
    + intros k1 k2 e1 e2 g1 g2 c H1 H2 R1 R2. destruct Hr as (_ & _ & Hr).
      destruct (decide (k1 = k)) as [->|X1], (decide (k2 = k)) as [->|X2]; try done.
      * assert (e1 = e) as -> by congruence. rewrite Hr in R1. injection R1 as <- <-.
        by destruct (proj2 (Hold k2 e2 g2 _ (Hb _ _ X2 H2) R2)).
      * assert (e2 = e) as -> by congruence. rewrite Hr in R2. injection R2 as <- <-.
        by destruct (proj2 (Hold k1 e1 g1 _ (Hb _ _ X1 H1) R1)).
      * eauto.
Qed.
End Invariant.
