(* ===== verification/DurableLog.v ===== *)
(** * What the idempotency store relies on in its durable log

    The contract between [IdempotencyStore] and [durable::Journal]: a log has a content, a
    map from keys to entries that opening it again would give, and [None] when it cannot be
    read back.  A write that succeeds changes the content as asked; one that fails leaves
    the old content, the new one or an unreadable log.  The store's theorems are proved
    against these laws, and [IdempotencyLedger] proves them of the file format. *)

From S2P Require Import Prelude Text SkillTypes Receipt Job Interface Ledger Json Idempotency.

Definition to_map (es : list DurableEntry) : gmap Key DurableEntry :=
  list_to_map ((fun d => (durable_key d, d)) <$> es).

(** The content after a change: the removals, then the updates in order. *)
Definition apply_change (m : gmap Key DurableEntry) (updates : list DurableEntry)
    (removes : list Key) : gmap Key DurableEntry :=
  fold_left (fun m d => <[durable_key d := d]> m) updates
    (fold_left (fun m k => delete k m) removes m).

Definition valid_key (key : IdempotencyKey) : Prop := IdempotencyKey_try_from key = Ok key.

Record change_valid (m : gmap Key DurableEntry) (updates : list DurableEntry)
    (removes : list Key) : Prop := MkChangeValid {
  cv_distinct : NoDup (removes ++ (durable_key <$> updates));
  cv_present : forall k, k ∈ removes -> is_Some (m !! k);
  cv_keys : forall k, k ∈ removes ++ (durable_key <$> updates) -> valid_key k.2;
  cv_size : Z.of_nat (size (apply_change m updates removes)) <= 4096;
}.

Definition keyed (m : gmap Key DurableEntry) : Prop :=
  forall k d, m !! k = Some d -> durable_key d = k.

Class DurableLogLaws (P : Type) `{DurableLog P} := {
  log_view : P -> option (gmap Key DurableEntry);
  (** The writer is at the end of what the log holds. *)
  log_ok : P -> Prop;
  (** The entries fit in one line of the log. *)
  log_fits : list DurableEntry -> Prop;
  (** [Persistence::open] of an existing log at a time. *)
  log_open : Time -> P -> option (P * result (list DurableEntry) string);

  checkpoint_ok log es log' :
    NoDup (durable_key <$> es) -> log_fits es -> log_checkpoint es log = (Ok tt, log') ->
    log_ok log' /\ log_view log' = Some (to_map es);
  checkpoint_err log es e log' :
    NoDup (durable_key <$> es) -> log_fits es -> log_checkpoint es log = (Err e, log') ->
    log_view log' = None \/ log_view log' = log_view log \/ log_view log' = Some (to_map es);
  append_ok log m updates removes log' :
    log_ok log -> needs_checkpoint log = false -> log_view log = Some m ->
    change_valid m updates removes -> log_append updates removes log = (Ok tt, log') ->
    log_ok log' /\ log_view log' = Some (apply_change m updates removes);
  append_err log m updates removes e log' :
    log_ok log -> needs_checkpoint log = false -> log_view log = Some m ->
    change_valid m updates removes -> log_append updates removes log = (Err e, log') ->
    log_view log' = None \/ log_view log' = Some m
    \/ log_view log' = Some (apply_change m updates removes);
  open_ok now log log' es :
    log_open now log = Some (log', Ok es) ->
    log_ok log' /\ exists m, log_view log = Some m /\ log_view log' = Some m /\ keyed m
                             /\ es ≡ₚ (map_to_list m).*2;
  open_err now log log' issue :
    log_open now log = Some (log', Err issue) -> log_view log' = log_view log;
}.

(** ** Looking up in a changed content *)

Lemma to_map_lookup es k d :
  NoDup (durable_key <$> es) -> to_map es !! k = Some d <-> d ∈ es /\ durable_key d = k.
Proof.
  intros Hn. unfold to_map. rewrite <-elem_of_list_to_map.
  - rewrite list_elem_of_fmap. split; [intros (x & [= -> ->] & ?); auto|].
    intros [? <-]. by exists d.
  - by rewrite <-list_fmap_compose.
Qed.

Lemma removes_lookup (removes : list Key) (m : gmap Key DurableEntry) k :
  fold_left (fun m k => delete k m) removes m !! k
  = if decide (k ∈ removes) then None else m !! k.
Proof.
  revert m. induction removes as [|r rs IH]; intros m; cbn [fold_left].
  { by rewrite decide_False by apply not_elem_of_nil. }
  rewrite IH. destruct (decide (k ∈ rs)); [by rewrite decide_True by (by right)|].
  destruct (decide (k = r)) as [->|Hne].
  - rewrite decide_True by left. apply lookup_delete_eq.
  - rewrite decide_False by (by rewrite elem_of_cons; intros [?|?]). by rewrite lookup_delete_ne.
Qed.

Lemma updates_lookup (updates : list DurableEntry) (m : gmap Key DurableEntry) k :
  NoDup (durable_key <$> updates) ->
  (forall d, d ∈ updates -> durable_key d = k ->
     fold_left (fun m d => <[durable_key d := d]> m) updates m !! k = Some d)
  /\ (k ∉ durable_key <$> updates ->
     fold_left (fun m d => <[durable_key d := d]> m) updates m !! k = m !! k).
Proof.
  revert m. induction updates as [|u us IH]; intros m Hn; simpl; [split; [set_solver|done]|].
  csimpl in *. apply NoDup_cons in Hn as [Hu Hn]. destruct (IH (<[durable_key u := u]> m) Hn) as [H1 H2].
  split.
  - intros d [->|Hd]%elem_of_cons Hk; [|by apply H1].
    rewrite H2 by (by rewrite <-Hk). by rewrite Hk, lookup_insert_eq.
  - rewrite not_elem_of_cons. intros [Hne Hk]. by rewrite H2, lookup_insert_ne.
Qed.

(** A key is updated, removed, or as before. *)
Lemma apply_change_lookup m updates removes k :
  NoDup (removes ++ (durable_key <$> updates)) ->
  (forall d, d ∈ updates -> durable_key d = k -> apply_change m updates removes !! k = Some d)
  /\ (k ∈ removes -> apply_change m updates removes !! k = None)
  /\ (k ∉ removes -> k ∉ durable_key <$> updates -> apply_change m updates removes !! k = m !! k).
Proof.
  intros (Hr & Hd & Hu)%NoDup_app. unfold apply_change.
  destruct (updates_lookup updates (fold_left (fun m k => delete k m) removes m) k Hu) as [H1 H2].
  split_and!; [done|..].
  - intros Hk. rewrite H2 by (by apply Hd). by rewrite removes_lookup, decide_True.
  - intros Hk Hku. by rewrite H2, removes_lookup, decide_False.
Qed.

Lemma apply_change_keyed m updates removes :
  NoDup (removes ++ (durable_key <$> updates)) -> keyed m -> keyed (apply_change m updates removes).
Proof.
  intros Hn Hm k d Hl. destruct (apply_change_lookup m updates removes k Hn) as (H1 & H2 & H3).
  destruct (decide (k ∈ durable_key <$> updates)) as [Hu|Hu].
  - apply list_elem_of_fmap in Hu as (x & -> & Hx). rewrite (H1 x Hx eq_refl) in Hl. by simplify_eq.
  - destruct (decide (k ∈ removes)); [rewrite H2 in Hl by done; done|].
    rewrite H3 in Hl by done. eauto.
Qed.
