(* ===== verification/IdempotencySteps.v ===== *)
(** * What the operations of the idempotency store do

    One specification per operation, on the map from keys to entries: which keys may
    change, how, and what is written to the durable log.  They carry the invariant of
    [IdempotencyInv] through every step and give the theorems of [IdempotencyThms]. *)

From S2P Require Import Prelude Text SkillTypes Receipt Job Interface Ledger Json Idempotency IdempotencyInv DurableLog.

Definition args_key (args : ReserveArgs) : Key := (args.(ra_principal_id), args.(ra_key)).

Section Specs.
Context {O P : Type} `{RetainedOutcome O, DurableLog P, JsonLib}.
Abbreviation store := (IdempotencyStore O P).
Abbreviation entry := (Entry O).
Abbreviation state := (StoreState O).
Implicit Types (s : store) (st : state) (k : Key) (e : entry) (pm : IdempotencyPermit).

Lemma find_split st k index e :
  list_find (fun e => en_key e = k.2) (bucket_of st k.1) = Some (index, e) ->
  entry_at st k = Some e /\ bucket_of st k.1 !! index = Some e /\ en_key e = k.2
  /\ bucket_of st k.1 ≡ₚ e :: delete index (bucket_of st k.1).
Proof. intros E. apply list_find_key in E as (? & ? & ? & ?). done. Qed.

Lemma find_none st k :
  list_find (fun e => en_key e = k.2) (bucket_of st k.1) = None -> entry_at st k = None.
Proof. intros E. by apply list_find_key_None in E. Qed.

Lemma bucket_some st p b : st.(ss_entries) !! p = Some b -> bucket_of st p = b.
Proof. intros E. unfold bucket_of. by rewrite E. Qed.

Lemma entry_at_no_bucket st p key : st.(ss_entries) !! p = None -> entry_at st (p, key) = None.
Proof. intros E. unfold entry_at, bucket_of. simpl. by rewrite E. Qed.

(** Moving the entry found under a key to the end of its bucket, changed to [e']. *)
Lemma move_to_end st p key index e e' :
  keys_unique st -> list_find (fun e => en_key e = key) (bucket_of st p) = Some (index, e) ->
  en_key e' = en_key e ->
  let st' := set_bucket p (delete index (bucket_of st p) ++ [e']) st in
  keys_unique st' /\ updates st st' (p, key) (Some e').
Proof.
  intros Hu E Hk st'. apply (find_split st (p, key)) in E as (_ & _ & Hek & Hp). simpl in Hek, Hp.
  assert (rebucket st st' p (e' :: delete index (bucket_of st p))) as Hr.
  { apply rebucket_insert. by rewrite Permutation_app_comm. }
  destruct (rebucket_replace _ _ _ _ _ _ Hu Hp Hr Hk) as [? Hup]. by rewrite Hek in Hup.
Qed.

(** *** Looking up *)

Definition same_identity (args : ReserveArgs) e : bool :=
  bool_decide (e.(en_operation) = args.(ra_operation))
  && bool_decide (e.(en_sha256) = args.(ra_sha256)).

(** The answer for an entry that is there. *)
Definition lookup_answer (args : ReserveArgs) (channels : list (Channel O)) e : ReservePhase :=
  if same_identity args e then
    match e.(en_state) with
    | Reserved _ ch => Subscribed (MkReceiver ch (match channels !! ch with
                                                  | Some c => c.(wc_version) | None => 0 end))
    | Retained outcome _ => Finished (Ok (Replay outcome))
    | UnresolvedEntry => Finished (Err (unresolved_error args.(ra_correlation_id)))
    end
  else
    Finished (Err (if match e.(en_state) with
                      | UnresolvedEntry => true
                      | Retained outcome _ => uncertain outcome
                      | Reserved _ _ => false
                      end
                   then unresolved_error args.(ra_correlation_id)
                   else conflict_error args.(ra_correlation_id))).

(** The same entry, except perhaps when it was last used. *)
Definition touched e e' : Prop :=
  e'.(en_key) = e.(en_key) /\ e'.(en_state) = e.(en_state)
  /\ e'.(en_operation) = e.(en_operation) /\ e'.(en_sha256) = e.(en_sha256)
  /\ e'.(en_expires_at) = e.(en_expires_at).

Lemma reserve_lookup_spec args now st ph st' :
  keys_unique st -> reserve_lookup args now st = (ph, st') ->
  let st1 := cleanup_expired now st in
  let k := args_key args in
  keys_unique st' /\ st'.(ss_channels) = st.(ss_channels)
  /\ match entry_at st1 k with
     | None => ph = Acquiring now /\ st'.(ss_entries) = st1.(ss_entries)
               /\ st'.(ss_dirty) = st1.(ss_dirty)
     | Some e => ph = lookup_answer args st.(ss_channels) e
                 /\ exists e', touched e e' /\ updates st1 st' k (Some e')
                 /\ (e' = e /\ st'.(ss_dirty) = st1.(ss_dirty)
                     \/ st'.(ss_dirty) = {[k]} ∪ st1.(ss_dirty))
     end.
Proof.
  intros Hu0. unfold reserve_lookup.
  pose proof (cleanup_sheds now st Hu0) as Hsh. pose proof (sheds_unique _ _ _ Hsh Hu0) as Hu1.
  rewrite <-(sh_channels _ _ _ Hsh). clear Hsh Hu0. generalize dependent (cleanup_expired now st).
  intros st1 Hu1. cbv zeta. change (ss_entries (bump_sequence st1)) with (ss_entries st1).
  destruct (ss_entries st1 !! ra_principal_id args) as [b|] eqn:Eb.
  2: { intros [= <- <-]. unfold args_key. by rewrite (entry_at_no_bucket st1). }
  apply bucket_some in Eb. subst b.
  destruct (list_find _ _) as [[index e]|] eqn:Ef.
  2: { intros [= <- <-]. apply (find_none st1 (args_key args)) in Ef. by rewrite Ef. }
  pose proof (find_split st1 (args_key args) index e Ef) as (-> & _).
  unfold lookup_answer, same_identity. rewrite <-negb_andb.
  assert (keys_unique (bump_sequence st1)) as Hu2 by exact Hu1.
  destruct (bool_decide (en_operation e = _) && bool_decide (en_sha256 e = _)); cbn [negb].
  - pose (e1 := e <| en_last_used := ss_sequence (bump_sequence st1) |>).
    pose proof (move_to_end (bump_sequence st1) _ _ index e e1 Hu2 Ef eq_refl) as [Hu' Hup].
    destruct (en_state e) as [g ch| |] eqn:Es; intros [= <- <-];
      (split; [exact Hu'|]); (split; [done|]); (split; [done|]); exists e1;
      (split; [done|]); (split; [exact Hup|]); by right.
  - pose proof (move_to_end (bump_sequence st1) _ _ index e e Hu2 Ef eq_refl) as [Hu' Hup].
    intros [= <- <-]. split; [exact Hu'|]. split; [done|]. split; [done|].
    exists e. split; [done|]. split; [exact Hup|]. by left.
Qed.

(** *** Writing the log *)

Lemma elem_all_entries st p e : (p, e) ∈ all_entries st <-> e ∈ bucket_of st p.
Proof.
  unfold all_entries, bucket_of. rewrite list_elem_of_In, in_concat.
  setoid_rewrite <-list_elem_of_In. split.
  - intros (l & Hl & Hin). apply list_elem_of_fmap in Hl as ([q b] & -> & Hb).
    apply elem_of_map_to_list in Hb. apply list_elem_of_fmap in Hin as (x & [= -> ->] & Hx).
    simpl. by rewrite Hb.
  - intros Hin. destruct (ss_entries st !! p) as [b|] eqn:E; [|by apply not_elem_of_nil in Hin].
    exists ((fun e => (p, e)) <$> b). split.
    + apply list_elem_of_fmap. exists (p, b). split; [done|]. by apply elem_of_map_to_list.
    + by apply list_elem_of_fmap_2.
Qed.

Lemma all_entries_at st p e :
  keys_unique st -> (p, e) ∈ all_entries st <-> entry_at st (p, en_key e) = Some e.
Proof.
  intros Hu. rewrite elem_all_entries. unfold entry_at. rewrite find_key_Some by apply Hu. naive_solver.
Qed.

Definition entry_key (pe : PrincipalId * entry) : Key := (pe.1, en_key pe.2).

Lemma all_entries_nodup st : keys_unique st -> NoDup (entry_key <$> all_entries st).
Proof.
  intros Hu. unfold all_entries.
  assert (Forall (fun pb : PrincipalId * list entry => NoDup (en_key <$> pb.2))
            (map_to_list (ss_entries st))) as Hb.
  { apply Forall_forall. intros [p b] Hin%elem_of_map_to_list. specialize (Hu p).
    by rewrite (bucket_some _ _ _ Hin) in Hu. }
  pose proof (NoDup_fst_map_to_list (ss_entries st)) as Hn.
  induction (map_to_list (ss_entries st)) as [|[p b] l IH]; [apply NoDup_nil_2|].
  csimpl in *. apply NoDup_cons in Hn as [Hp Hn]. apply Forall_cons in Hb as [Hb Hbs].
  rewrite fmap_app. apply NoDup_app. split_and!; [|..|by apply IH].
  - rewrite <-list_fmap_compose. apply (NoDup_fmap_2_strong (fun key => (p, key))) in Hb; [|naive_solver].
    by rewrite <-list_fmap_compose in Hb.
  - intros k Hk Hk'. apply list_elem_of_fmap in Hk as ([q e] & -> & Hk).
    apply list_elem_of_fmap in Hk as (x & [= -> ->] & _).
    apply list_elem_of_fmap in Hk' as ([q e'] & [= <- _] & Hk').
    apply list_elem_of_In, in_concat in Hk' as (c & Hc & He').
    apply list_elem_of_In, list_elem_of_fmap in Hc as ([q b'] & -> & Hq).
    apply list_elem_of_In, list_elem_of_fmap in He' as (y & [= <- _] & _).
    apply Hp. by apply (list_elem_of_fmap_2 fst) in Hq.
Qed.

Lemma all_entries_length st : length (all_entries st) = entry_count st.(ss_entries).
Proof.
  unfold all_entries, entry_count. induction (map_to_list (ss_entries st)) as [|[p b] l IH]; [done|].
  csimpl. rewrite length_app, length_fmap. simpl. by rewrite IH.
Qed.

Lemma collect_ok {A B} (f : A -> result B IoError) l bs :
  collect (f <$> l) = Ok bs -> Forall2 (fun a b => f a = Ok b) l bs.
Proof.
  revert bs. induction l as [|a l IH]; intros bs E; simpl in E; [by simplify_eq|].
  apply rbind_ok in E as (b & Hb & E). apply rbind_ok in E as (rest & Hr & E). inv_res.
  constructor; [done|]. by apply IH.
Qed.

Lemma durable_entry_ok p e d :
  durable_entry p e = Ok d ->
  durable_key d = (p, en_key e) /\ d.(de_expires_at) = e.(en_expires_at)
  /\ durable_state e.(en_state) = Ok d.(de_state).
Proof. unfold durable_entry. intros E. apply rbind_ok in E as (ds & Hs & E). inv_res. done. Qed.

(** The entries written for the dirty keys and the keys removed. *)
Lemma changes_of_ok st dirty us rs :
  changes_of st dirty = Ok (us, rs) ->
  (forall d, d ∈ us -> durable_key d ∈ dirty
             /\ exists e, entry_at st (durable_key d) = Some e
                          /\ durable_entry (durable_key d).1 e = Ok d)
  /\ (forall k, k ∈ rs -> k ∈ dirty /\ entry_at st k = None)
  /\ (forall k e, k ∈ dirty -> entry_at st k = Some e ->
        exists d, d ∈ us /\ durable_key d = k /\ durable_entry k.1 e = Ok d)
  /\ (forall k, k ∈ dirty -> entry_at st k = None -> k ∈ rs)
  /\ (NoDup dirty -> NoDup (rs ++ (durable_key <$> us))).
Proof.
  revert us rs. induction dirty as [|[p key] dirty IH]; intros us rs E; cbn [changes_of] in E.
  { injection E as <- <-. split_and!; try (intros; by set_solver). }
  change (find_key key (bucket_of st p)) with (entry_at st (p, key)) in E.
  destruct (entry_at st (p, key)) as [e|] eqn:Ef.
  - apply rbind_ok in E as (d & Hd & E). apply rbind_ok in E as ([us' rs'] & Hm & E). inv_res.
    destruct (IH _ _ Hm) as (H1' & H2' & H3' & H4' & H5'). clear IH. cbn [fst snd].
    assert (durable_key d = (p, key)) as Hk.
    { apply durable_entry_ok in Hd as (-> & _). apply find_key_Some' in Ef as ->. done. }
    split_and!.
    + intros d0 [->|Hin]%elem_of_cons; [|destruct (H1' d0 Hin) as (? & ?); split; [by right|done]].
      rewrite Hk. split; [by left|]. eauto.
    + intros k Hin. destruct (H2' k Hin). split; [by right|done].
    + intros k e0 [->|Hin]%elem_of_cons He.
      * assert (e0 = e) as -> by congruence. exists d. split_and!; [by left|done..].
      * destruct (H3' k e0 Hin He) as (d0 & ? & ? & ?). exists d0. split_and!; [by right|done..].
    + intros k [->|Hin]%elem_of_cons He; [congruence|by apply H4'].
    + intros [Hn1 Hn2]%NoDup_cons. specialize (H5' Hn2). csimpl.
      rewrite <-Permutation_middle. constructor; [|done]. rewrite Hk, elem_of_app.
      intros [Hin|Hin]; [by destruct (H2' _ Hin)|].
      apply list_elem_of_fmap in Hin as (x & Ex & Hx). apply Hn1. rewrite Ex. by apply H1'.
  - apply rbind_ok in E as ([us' rs'] & Hm & E). inv_res.
    destruct (IH _ _ Hm) as (H1' & H2' & H3' & H4' & H5'). clear IH. cbn [fst snd].
    split_and!.
    + intros d0 Hin. destruct (H1' d0 Hin) as (? & ?); split; [by right|done].
    + intros k [->|Hin]%elem_of_cons; [split; [by left|done]|].
      destruct (H2' k Hin). split; [by right|done].
    + intros k e0 [->|Hin]%elem_of_cons He; [congruence|by apply H3'].
    + intros k [->|Hin]%elem_of_cons He; [by left|right; by apply H4'].
    + intros [Hn1 Hn2]%NoDup_cons. specialize (H5' Hn2). simpl. constructor; [|done].
      rewrite elem_of_app. intros [Hin|Hin]; [by destruct (H2' _ Hin)|].
      apply list_elem_of_fmap in Hin as (x & Ex & Hx). apply Hn1. rewrite Ex. by apply H1'.
Qed.

(** The write a store asks of its log. *)
Inductive asks st (log : P) : ST P IoError unit -> Prop :=
| asks_checkpoint es :
    needs_checkpoint log = true ->
    collect ((fun pe => durable_entry pe.1 pe.2) <$> all_entries st) = Ok es ->
    asks st log (log_checkpoint es)
| asks_append us rs :
    needs_checkpoint log = false -> changes_of st (elements st.(ss_dirty)) = Ok (us, rs) ->
    asks st log (log_append us rs).

Lemma persist_cases s r s' :
  persist_locked s = (r, s') ->
  (is_ok r = false /\ s' = s)
  \/ (r = Ok tt /\ integrity_issue s = None /\ s.(is_durable) = None /\ s' = set_state clear_dirty s)
  \/ (r = Ok tt /\ integrity_issue s = None /\ is_Some s.(is_durable)
      /\ s.(is_state).(ss_dirty) = ∅ /\ s' = s)
  \/ exists log m log', s.(is_durable) = Some log /\ integrity_issue s = None
       /\ asks s.(is_state) log m /\ m log = (r, log')
       /\ s' = match r with
               | Ok _ => set_state clear_dirty (s <| is_durable := Some log' |>)
               | Err _ => s <| is_durable := Some log' |> <| is_failed := true |>
               end.
Proof.
  unfold persist_locked. destruct (integrity_issue s) eqn:Ei; [intros [= <- <-]; by left|].
  destruct (is_durable s) as [log|] eqn:Ed; [|intros [= <- <-]; right; left; done].
  destruct (needs_checkpoint log) eqn:En.
  - destruct (collect _) as [es|] eqn:Ec; [|intros [= <- <-]; by left].
    destruct (log_checkpoint es log) as [[[]|e] log'] eqn:Ew; intros [= <- <-];
      right; right; right; exists log, (log_checkpoint es), log'; (split_and!; try done);
      by constructor.
  - destruct (changes_of _ _) as [[us rs]|] eqn:Ec; [|intros [= <- <-]; by left].
    assert (match us, rs with [], [] => (Ok tt, s) | _, _ =>
              match log_append us rs log with
              | (Ok _, log) => (Ok tt, set_state clear_dirty (s <| is_durable := Some log |>))
              | (Err e, log) => (Err e, s <| is_durable := Some log |> <| is_failed := true |>)
              end end = (r, s') ->
            (us = [] /\ rs = [] /\ r = Ok tt /\ s' = s)
            \/ match log_append us rs log with
               | (Ok _, log) => (Ok tt, set_state clear_dirty (s <| is_durable := Some log |>))
               | (Err e, log) => (Err e, s <| is_durable := Some log |> <| is_failed := true |>)
               end = (r, s')) as Hc.
    { destruct us, rs; try (by right). intros [= <- <-]. by left. }
    intros E. apply Hc in E as [(-> & -> & -> & ->)|E]; clear Hc.
    + right; right; left. split_and!; try done.
      apply changes_of_ok in Ec as (_ & _ & H3' & H4' & _). apply set_eq. intros k.
      rewrite <-elem_of_elements. split; [|by intros ?%not_elem_of_empty].
      intros Hk. destruct (entry_at (is_state s) k) as [e|] eqn:Ee.
      * destruct (H3' k e Hk Ee) as (d & Hd & _). by apply not_elem_of_nil in Hd.
      * specialize (H4' k Hk Ee). by apply not_elem_of_nil in H4'.
    + right; right; right. exists log, (log_append us rs).
      destruct (log_append us rs log) as [[[]|e] log'] eqn:Ew; injection E as <- <-;
        exists log'; (split_and!; try done); by constructor.
Qed.

(** Persisting changes neither the entries nor the configuration. *)
Definition same_frame s s' : Prop :=
  s'.(is_state).(ss_entries) = s.(is_state).(ss_entries)
  /\ s'.(is_state).(ss_channels) = s.(is_state).(ss_channels)
  /\ s'.(is_state).(ss_sequence) = s.(is_state).(ss_sequence)
  /\ s'.(is_per_principal_capacity) = s.(is_per_principal_capacity)
  /\ s'.(is_global_capacity) = s.(is_global_capacity)
  /\ s'.(is_ttl) = s.(is_ttl) /\ s'.(is_integrity_issue) = s.(is_integrity_issue)
  /\ (is_Some s'.(is_durable) <-> is_Some s.(is_durable)).

Lemma persist_frame s r s' : persist_locked s = (r, s') -> same_frame s s'.
Proof.
  intros E. unfold same_frame.
  apply persist_cases in E as [(_ & ->)|[(_ & _ & _ & ->)|[(_ & _ & _ & _ & ->)|E]]];
    [by split_and!..|].
  destruct E as (log & m & log' & Hd & _ & _ & _ & ->).
  destruct r; simpl; rewrite Hd; split_and!; done || (by split).
Qed.
End Specs.

(** ** The durable log follows the store *)

(** What a line of the log has to have room for. *)
Definition storable `{JsonLib} (d : DurableEntry) : Prop :=
  valid_key d.(de_key)
  /\ match d.(de_state) with
     | DurRetained v => exists b, to_vec v = Ok b /\ blen b <= MAX_DURABLE_VALUE_BYTES
     | DurReserved | DurUnresolved => d.(de_expires_at) = None
     end.

(** The entries of a store within its bounds. *)
Record full_store `{JsonLib} (es : list DurableEntry) : Prop := MkFullStore {
  fs_count : Z.of_nat (length es) <= 4096;
  fs_principal : forall p, Z.of_nat (length (filter (fun d => de_principal_id d = p) es)) <= 256;
  fs_keys : NoDup (durable_key <$> es);
  fs_storable : Forall storable es;
}.

(** A line of the log has room for a full store. *)
Class RoomyLog (P : Type) `{DurableLogLaws P, JsonLib} := {
  log_roomy es : full_store es -> log_fits es;
}.

Section Durable.
Context {O P : Type} `{RetainedOutcome O, DurableLogLaws P, JsonLib, !RoomyLog P}.
Abbreviation store := (IdempotencyStore O P).
Abbreviation entry := (Entry O).
Abbreviation state := (StoreState O).
Implicit Types (s : store) (st : state) (k : Key) (e : entry) (m : gmap Key DurableEntry).

Definition keys_valid st : Prop := forall k e, entry_at st k = Some e -> valid_key k.2.

(** Between writes: a key that is not dirty is in the log exactly if it is in the store, and
    a key that was dropped is still in the log. *)
Record presynced m st : Prop := MkPresynced {
  ps_clean : forall k, k ∉ st.(ss_dirty) -> (is_Some (entry_at st k) <-> is_Some (m !! k));
  ps_dropped : forall k, k ∈ st.(ss_dirty) -> entry_at st k = None -> is_Some (m !! k);
}.

(** [m'] is the log [m] after the store [st] was written to it. *)
Definition rewritten st m m' : Prop :=
  forall k, match entry_at st k with
            | Some e => (exists d, m' !! k = Some d /\ durable_entry k.1 e = Ok d)
                        \/ ((k ∉ st.(ss_dirty)) /\ m' !! k = m !! k)
            | None => m' !! k = None
            end.

Lemma entry_at_key st k e : entry_at st k = Some e -> en_key e = k.2.
Proof. apply find_key_Some'. Qed.

Lemma rewritten_domain st m m' k :
  presynced m st -> rewritten st m m' -> (is_Some (m' !! k) <-> is_Some (entry_at st k)).
Proof.
  intros [Hc _] Hr. specialize (Hr k). destruct (entry_at st k) as [e|] eqn:Ee.
  - split; [done|]. intros _. destruct Hr as [(d & -> & _)|[Hd ->]]; [done|].
    apply (Hc k Hd). by rewrite Ee.
  - rewrite Hr. done.
Qed.

Lemma rewritten_size st m m' :
  keys_unique st -> presynced m st -> rewritten st m m' ->
  (size m' <= entry_count st.(ss_entries))%nat.
Proof.
  intros Hu Hp Hr. rewrite <-all_entries_length, <-(length_fmap entry_key), <-size_dom.
  assert (dom m' ⊆ list_to_set (entry_key <$> all_entries st)) as Hsub.
  { intros k Hk. apply elem_of_dom, (rewritten_domain _ _ _ _ Hp Hr) in Hk as [e He].
    apply elem_of_list_to_set, list_elem_of_fmap. exists (k.1, e).
    unfold entry_key. simpl. rewrite (entry_at_key _ _ _ He). split; [by destruct k|].
    apply all_entries_at; [done|]. rewrite (entry_at_key _ _ _ He). by destruct k. }
  etrans; [apply subseteq_size, Hsub|].
  rewrite size_list_to_set; [done|]. by apply all_entries_nodup.
Qed.

Lemma durable_entry_storable p e d :
  valid_key (en_key e) -> lasting e -> durable_entry p e = Ok d -> storable d.
Proof.
  intros Hk Hl E. pose proof (durable_entry_ok _ _ _ E) as (Hkey & Hx & Hst).
  injection Hkey as _ Hkey. split; [by rewrite Hkey|].
  assert (match en_state e with Retained _ _ => True | _ => de_expires_at d = None end) as Hn.
  { rewrite Hx. destruct Hl as [Hl|Hl]; unfold evictable, entry_is_evictable in Hl;
      destruct (en_state e); done. }
  unfold durable_state in Hst. destruct (en_state e) as [g c|o b|]; [injection Hst as <-; done| |injection Hst as <-; done]. apply rbind_ok in Hst as (v' & _ & Hst).
  apply rbind_ok in Hst as (b0 & Hb & Hst). apply map_err_ok in Hb.
  destruct (Z.ltb_spec MAX_DURABLE_VALUE_BYTES (blen b0)); [done|]. injection Hst as <-. eauto.
Qed.

Lemma durable_of_principal (l : list (PrincipalId * entry)) es p :
  Forall2 (fun pe d => durable_entry pe.1 pe.2 = Ok d) l es ->
  length (filter (fun d => de_principal_id d = p) es)
  = length (filter (fun pe : PrincipalId * entry => pe.1 = p) l).
Proof.
  induction 1 as [|[q e] d l es Hd _ IH]; [done|]. rewrite !filter_cons. simpl.
  apply durable_entry_ok in Hd as (Hk & _). injection Hk as Hq _. rewrite Hq.
  case_decide; simpl; by rewrite IH.
Qed.

Lemma all_entries_of st p :
  length (filter (fun pe : PrincipalId * entry => pe.1 = p) (all_entries st)) = length (bucket_of st p).
Proof.
  assert (forall q (b : list entry), filter (fun pe : PrincipalId * entry => pe.1 = p) ((fun e => (q, e)) <$> b)
            = if decide (q = p) then (fun e => (q, e)) <$> b else []) as Hb.
  { intros q b. induction b as [|e b IH]; [by case_decide|]. csimpl. rewrite filter_cons, IH. simpl.
    by case_decide. }
  unfold all_entries, bucket_of. pose proof (NoDup_fst_map_to_list (ss_entries st)) as Hn.
  assert (default [] (ss_entries st !! p) = default [] (list_to_map (M := gmap PrincipalId _) (map_to_list (ss_entries st)) !! p)) as ->
    by (by rewrite list_to_map_to_list).
  induction (map_to_list (ss_entries st)) as [|[q b] l IH]; [done|]. csimpl in *.
  apply NoDup_cons in Hn as [Hq Hn]. rewrite filter_app, length_app, Hb. simpl.
  destruct (decide (q = p)) as [->|Hne].
  - rewrite lookup_insert_eq. simpl. rewrite length_fmap, IH by done.
    apply not_elem_of_list_to_map_1 in Hq. rewrite Hq. simpl. lia.
  - rewrite lookup_insert_ne by done. simpl. by apply IH.
Qed.

Lemma asks_rewrites st (log : P) m w :
  log_ok log -> log_view log = Some m -> keyed m -> (forall k, is_Some (m !! k) -> valid_key k.2) ->
  presynced m st -> keys_unique st -> keys_valid st ->
  (forall k e, entry_at st k = Some e -> lasting e) ->
  (forall p, Z.of_nat (length (bucket_of st p)) <= 256) -> Z.of_nat (entry_count st.(ss_entries)) <= 4096 -> asks st log w ->
  exists m', rewritten st m m' /\ keyed m'
    /\ (forall log', w log = (Ok tt, log') -> log_ok log' /\ log_view log' = Some m')
    /\ (forall (err : IoError) log', w log = (Err err, log') ->
          log_view log' = None \/ log_view log' = Some m \/ log_view log' = Some m').
Proof.
  intros Hok Hv Hkm Hmv Hp Hu Hkv Hlast Hbk Hn Ha. destruct Ha as [es Hc Hes|us rs Hc Hch].
  - apply collect_ok in Hes.
    assert (forall pe d, durable_entry pe.1 pe.2 = Ok d -> durable_key d = entry_key pe) as Hk.
    { intros pe d Hd. by apply durable_entry_ok in Hd as (-> & _). }
    assert (durable_key <$> es = entry_key <$> all_entries st) as Hkeys.
    { clear -Hes Hk. induction Hes; csimpl; [done|]. f_equal; auto. }
    assert (NoDup (durable_key <$> es)) as Hnd by (rewrite Hkeys; by apply all_entries_nodup).
    assert (log_fits es) as Hfit.
    { apply log_roomy. split; [| |done|].
      - rewrite <-(Forall2_length _ _ _ Hes), all_entries_length. done.
      - intros p. specialize (Hbk p). rewrite (durable_of_principal _ _ p Hes), all_entries_of. done.
      - assert (Forall (fun pe : PrincipalId * entry => valid_key (en_key pe.2) /\ lasting pe.2) (all_entries st)) as Hf.
        { apply Forall_forall. intros [p e] Hin%all_entries_at; [|done].
          split; [exact (Hkv _ _ Hin)|exact (Hlast _ _ Hin)]. }
        clear -Hes Hf. induction Hes as [|[p e] d l ds Hd _ IH]; [constructor|].
        apply Forall_cons in Hf as [[??]?]. constructor; [by eapply durable_entry_storable|auto]. }
    exists (to_map es). split_and!.
    + intros k. destruct (entry_at st k) as [e|] eqn:Ee.
      * left. assert ((k.1, e) ∈ all_entries st) as Hin.
        { apply all_entries_at; [done|]. rewrite (entry_at_key _ _ _ Ee). by destruct k. }
        apply list_elem_of_lookup in Hin as [i Hi].
        destruct (Forall2_lookup_l _ _ _ _ _ Hes Hi) as (d & Hd & Hdd). exists d. split; [|done].
        apply to_map_lookup; [done|]. split; [by eapply list_elem_of_lookup_2|].
        rewrite (Hk _ _ Hdd). unfold entry_key. simpl. rewrite (entry_at_key _ _ _ Ee). by destruct k.
      * apply eq_None_not_Some. intros [d Hd]. apply to_map_lookup in Hd as [Hd Hkd]; [|done].
        apply list_elem_of_lookup in Hd as [i Hi].
        destruct (Forall2_lookup_r _ _ _ _ _ Hes Hi) as ([p e] & Hpe & Hdd).
        apply list_elem_of_lookup_2, all_entries_at in Hpe; [|done].
        rewrite <-Hkd, (Hk _ _ Hdd) in Ee. unfold entry_key in Ee. simpl in *. congruence.
    + intros k d Hd. by apply to_map_lookup in Hd as [_ ?].
    + intros log' E. by apply (checkpoint_ok log).
    + intros e log' E. destruct (checkpoint_err _ _ _ _ Hnd Hfit E) as [?|[E'|?]]; auto.
      right; left. congruence.
  - apply changes_of_ok in Hch as (H1' & H2' & H3' & H4' & H5').
    specialize (H5' (NoDup_elements _)).
    assert (rewritten st m (apply_change m us rs)) as Hrw.
    { intros k. destruct (apply_change_lookup m us rs k H5') as (L1 & L2 & L3).
      destruct (decide (k ∈ ss_dirty st)) as [Hd|Hd]; [apply elem_of_elements in Hd|].
      - destruct (entry_at st k) as [e|] eqn:Ee.
        + left. destruct (H3' k e Hd Ee) as (d & Hin & Hk & Hde). exists d. split; [by apply L1|done].
        + by apply L2, H4'.
      - rewrite L3.
        + destruct (entry_at st k) as [e|] eqn:Ee; [by right|]. apply eq_None_not_Some.
          intros Hs. apply (ps_clean _ _ Hp k Hd) in Hs. rewrite Ee in Hs. by destruct Hs.
        + intros Hin. destruct (H2' k Hin) as [Hx _]. by apply elem_of_elements in Hx.
        + intros Hin. apply list_elem_of_fmap in Hin as (d & -> & Hin).
          destruct (H1' d Hin) as [Hx _]. by apply elem_of_elements in Hx. }
    assert (change_valid m us rs) as Hcv.
    { split; [done|..].
      - intros k Hin. destruct (H2' k Hin) as [Hx Hn']. apply elem_of_elements in Hx.
        by apply (ps_dropped _ _ Hp).
      - intros k [Hin|Hin]%elem_of_app.
        + destruct (H2' k Hin) as [Hx Hn']. apply elem_of_elements in Hx.
          by apply Hmv, (ps_dropped _ _ Hp).
        + apply list_elem_of_fmap in Hin as (d & -> & Hin). destruct (H1' d Hin) as (_ & e & He & _).
          exact (Hkv _ _ He).
      - pose proof (rewritten_size _ _ _ Hu Hp Hrw). lia. }
    exists (apply_change m us rs). split_and!; [done|by apply apply_change_keyed|..].
    + intros log' E. by eapply append_ok.
    + intros e log' E. by eapply append_err.
Qed.
End Durable.

(** ** The operations *)

Section Operations.
Context {O P : Type} `{RetainedOutcome O, DurableLog P, JsonLib}.
Abbreviation store := (IdempotencyStore O P).
Abbreviation entry := (Entry O).
Abbreviation state := (StoreState O).
Implicit Types (s : store) (st : state) (k : Key) (e : entry) (pm : IdempotencyPermit).

(** The entry of one key is set or removed; what is dirty only grows, by that key. *)
Record writes st st' k (o : option entry) : Prop := MkWrites {
  wr_unique : keys_unique st';
  wr_entry : updates st st' k o;
  wr_dirty : st'.(ss_dirty) = {[k]} ∪ st.(ss_dirty) \/ st'.(ss_dirty) = st.(ss_dirty);
}.

Lemma existsb_key st k :
  existsb (fun e => bool_decide (en_key e = k.2)) (bucket_of st k.1) = bool_decide (is_Some (entry_at st k)).
Proof.
  unfold entry_at. induction (bucket_of st k.1) as [|e b IH]; [done|]. simpl.
  rewrite find_key_cons, IH. destruct (decide (en_key e = k.2)) as [E|E].
  - rewrite (bool_decide_eq_true_2 (en_key e = k.2)) by done. symmetry.
    by apply bool_decide_eq_true_2.
  - by rewrite (bool_decide_eq_false_2 (en_key e = k.2)).
Qed.

(** Appending an entry under a key that has none. *)
Lemma add_entry st p e :
  keys_unique st -> entry_at st (p, en_key e) = None ->
  let st' := set_bucket p (bucket_of st p ++ [e]) st in
  keys_unique st' /\ updates st st' (p, en_key e) (Some e)
  /\ entry_count st'.(ss_entries) = S (entry_count st.(ss_entries))
  /\ (forall q, length (bucket_of st' q)
               = if decide (q = p) then S (length (bucket_of st p)) else length (bucket_of st q)).
Proof.
  intros Hu Hn st'.
  assert (rebucket st st' p (e :: bucket_of st p)) as Hr.
  { apply rebucket_insert. by rewrite Permutation_app_comm. }
  destruct (rebucket_add _ _ _ _ Hu Hr Hn) as [? ?]. split_and!; try done.
  - unfold st', set_bucket. simpl. rewrite entry_count_add, length_app. simpl.
    rewrite (entry_count_delete (ss_entries st) p). unfold bucket_of. lia.
  - intros q. unfold st'. rewrite bucket_of_insert. case_decide; case_decide; subst; try done.
    rewrite length_app. simpl. lia.
Qed.

Lemma ensure_writable_cases c s r s' :
  ensure_writable c s = (r, s') ->
  s' = s /\ (r = Ok tt <-> integrity_issue s = None).
Proof. unfold ensure_writable. destruct (integrity_issue s); intros [= <- <-]; naive_solver. Qed.

Lemma unresolve_found_spec st p key e :
  keys_unique st -> entry_at st (p, key) = Some e ->
  writes st (set_bucket p (unresolve_found key (bucket_of st p)) st) (p, key)
    (Some (e <| en_state := UnresolvedEntry |>)).
Proof.
  intros Hu He. unfold unresolve_found.
  destruct (list_find _ _) as [[index e0]|] eqn:Ef.
  2: { apply (find_none st (p, key)) in Ef. congruence. }
  apply (find_split st (p, key)) in Ef as (He0 & Hi & Hk & Hp). assert (e0 = e) as -> by congruence.
  simpl in *. pose (e1 := e <| en_state := UnresolvedEntry |>).
  destruct (rebucket_replace st (set_bucket p (<[index := e1]> (bucket_of st p)) st) p e e1
              (delete index (bucket_of st p)) Hu Hp) as [? Hup]; [|done|].
  { apply rebucket_insert. by eapply insert_perm. }
  rewrite Hk in Hup. split; [done|exact Hup|by right].
Qed.

Lemma reserve_acquire_spec args now s permits r s' :
  state_inv s.(is_state) permits -> reserve_acquire args now s = (r, s') ->
  let k := args_key args in
  ((forall pm, r <> Ok (Some pm))
   /\ exists st1, sheds evictable s.(is_state) st1 /\ s' = s <| is_state := st1 |>)
  \/ exists st1 st2 e pm rp sp,
      integrity_issue s = None /\ sheds evictable s.(is_state) st1 /\ entry_at st1 k = None
      /\ writes st1 st2 k (Some e) /\ k ∈ st2.(ss_dirty)
      /\ st2.(ss_channels) = st1.(ss_channels) ++ [MkChannel 0 UpPending]
      /\ Z.of_nat (entry_count st2.(ss_entries)) <= s.(is_global_capacity)
      /\ (forall q, Z.of_nat (length (bucket_of st2 q)) <= s.(is_per_principal_capacity)
                    \/ (length (bucket_of st2 q) <= length (bucket_of st1 q))%nat)
      /\ e.(en_expires_at) = None /\ reserved_for pm e (length st1.(ss_channels))
      /\ permit_key pm = k /\ pm.(ip_durable) = bool_decide (is_Some s.(is_durable))
      /\ pm.(ip_operation) = args.(ra_operation) /\ pm.(ip_sha256) = args.(ra_sha256)
      /\ persist_locked (s <| is_state := st2 |>) = (rp, sp)
      /\ match rp with
         | Ok _ => r = Ok (Some pm) /\ s' = sp
         | Err _ => (forall pm, r <> Ok (Some pm))
                    /\ exists st3, s' = sp <| is_state := st3 |>
                         /\ writes sp.(is_state) st3 k (Some (e <| en_state := UnresolvedEntry |>))
                         /\ st3.(ss_channels) = sp.(is_state).(ss_channels)
                         /\ st3.(ss_dirty) = sp.(is_state).(ss_dirty)
         end.
Proof.
  intros I E k. unfold reserve_acquire, sbind, smodify, sget, sput, sret, sfail in E.
  destruct (ensure_writable _ s) as [[[]|err] s0] eqn:Ew;
    apply ensure_writable_cases in Ew as [-> Hw].
  2: { injection E as <- <-. left. split; [done|]. exists (is_state s). split; [apply sheds_refl|].
       by destruct s. }
  pose proof (state_inv_cleanup now _ _ I) as Hs1. pose proof (state_inv_sheds _ _ _ Hs1 I) as I1.
  set (st1 := cleanup_expired now (is_state s)) in *.
  change (is_state (set_state (cleanup_expired now) s)) with st1 in E.
  change (existsb _ (bucket_of st1 (ra_principal_id args))) with
    (existsb (fun e => bool_decide (en_key e = k.2)) (bucket_of st1 k.1)) in E.
  rewrite existsb_key in E. case_bool_decide as Hk.
  { injection E as <- <-. left. split; [done|]. by exists st1. }
  apply eq_None_not_Some in Hk.
  cbn [is_global_capacity is_per_principal_capacity is_state set_state set_field eta] in E.
  set (st2 := make_global_room _ _) in E.
  assert (sheds evictable st1 st2) as Hs2.
  { eapply sheds_trans; [apply make_principal_room_sheds, I1|].
    apply make_global_room_sheds. eapply sheds_unique; [apply make_principal_room_sheds, I1|apply I1]. }
  pose proof (sheds_trans _ _ _ _ Hs1 Hs2) as Hs. pose proof (state_inv_sheds _ _ _ Hs2 I1) as I2.
  assert (entry_at st2 k = None) as Hk2.
  { destruct (sh_entry _ _ _ Hs2 k) as [->|(? & ? & _)]; congruence. }
  destruct (_ || _ || _ || _) eqn:Ecap.
  { injection E as <- <-. left. split; [done|]. exists st2. done. }
  rewrite !orb_false_iff in Ecap. destruct Ecap as (((_ & _) & Hc1) & Hc2).
  right.
  unfold new_channel in E. cbv beta iota zeta in E.
  pose (st3 := bump_sequence st2 <| ss_channels := ss_channels st2 ++ [MkChannel 0 UpPending] |>).
  pose (e := MkEntry (O := O) (ra_key args) (ra_operation args) (ra_sha256 args)
              (Reserved (ss_sequence (bump_sequence st2)) (length (ss_channels st2))) None
              (ss_sequence (bump_sequence st2))).
  pose proof (add_entry st3 (ra_principal_id args) e (si_unique _ _ I2) Hk2) as (Hu & Hup & Hcnt & Hlen).
  pose (st4 := mark_dirty k
                (set_bucket (ra_principal_id args) (bucket_of st3 (ra_principal_id args) ++ [e]) st3)).
  assert (exists rp sp, persist_locked (s <| is_state := st4 |>) = (rp, sp)
    /\ match rp with
       | Err error =>
          (Err (persistence_error (ra_correlation_id args) error),
           set_state (fun st => match ss_entries st !! ra_principal_id args with
                  | Some b => set_bucket (ra_principal_id args) (unresolve_found (ra_key args) b) st
                  | None => st end) sp)
       | Ok _ => (Ok (Some (MkIdempotencyPermit (ra_principal_id args) (ra_key args)
                              (ra_operation args) (ra_sha256 args) (ss_sequence (bump_sequence st2))
                              (ra_correlation_id args) (bool_decide (is_Some sp.(is_durable))))), sp)
       end = (r, s')) as (rp & sp & Hpl & E').
  { match type of E with context [persist_locked ?x] => change x with (s <| is_state := st4 |>) in E end.
    destruct (persist_locked _) as [rp sp]. exists rp, sp. split; [done|]. destruct rp; exact E. }
  clear E. pose proof (persist_frame _ _ _ Hpl) as (Fe & Fc & _ & _ & _ & _ & _ & Fd). simpl in Fd.
  pose (pm := MkIdempotencyPermit (ra_principal_id args) (ra_key args) (ra_operation args)
                (ra_sha256 args) (ss_sequence (bump_sequence st2)) (ra_correlation_id args)
                (bool_decide (is_Some s.(is_durable)))).
  exists st2, st4, e, pm, rp, sp.
  split; [by apply Hw|]. split; [done|]. split; [done|].
  split; [split; [exact Hu|exact Hup|by left]|].
  split; [unfold st4, mark_dirty; simpl; set_solver|]. split; [done|].
  split; [change (entry_count (ss_entries st4)) with
            (entry_count (ss_entries (set_bucket (ra_principal_id args)
               (bucket_of st3 (ra_principal_id args) ++ [e]) st3)));
          rewrite Hcnt; change (ss_entries st3) with (ss_entries st2); lia|].
  split.
  { intros q. specialize (Hlen q). change (bucket_of st4 q) with
      (bucket_of (set_bucket (ra_principal_id args) (bucket_of st3 (ra_principal_id args) ++ [e]) st3) q).
    rewrite Hlen. change (bucket_of st3) with (bucket_of st2).
    case_decide; [left; lia|right; done]. }
  split; [done|]. split; [done|]. split; [done|]. split; [done|]. split; [done|]. split; [done|].
  split; [exact Hpl|].
  destruct rp as [[]|err].
  - injection E' as <- <-. split; [|done]. unfold pm. do 3 f_equal. by apply bool_decide_ext.
  - injection E' as <- <-. split; [done|].
    assert (keys_unique (is_state sp)) as Hus.
    { intros q. unfold bucket_of. rewrite Fe. exact (Hu q). }
    assert (entry_at (is_state sp) k = Some e) as Hes.
    { unfold entry_at, bucket_of. rewrite Fe. exact (proj1 Hup). }
    pose proof (unresolve_found_spec _ _ _ _ Hus Hes) as Hwr.
    destruct (ss_entries (is_state sp) !! ra_principal_id args) as [b|] eqn:Eb.
    2: { unfold entry_at, bucket_of in Hes. simpl in Hes. by rewrite Eb in Hes. }
    rewrite (bucket_some _ _ _ Eb) in Hwr.
    eexists. split; [unfold set_state; rewrite Eb; reflexivity|]. by split_and!.
Qed.

(** *** Releasing a permit *)

(** The bucket [b] has the entry [e] at [index]; removing it and putting [extra] after the
    rest. *)
Lemma remove_entry st k index e :
  keys_unique st -> list_find (fun e => en_key e = k.2) (bucket_of st k.1) = Some (index, e) ->
  let st' := set_bucket k.1 (delete index (bucket_of st k.1)) st in
  keys_unique st' /\ updates st st' k None.
Proof.
  intros Hu Hf st'. apply find_split in Hf as (_ & _ & Hk & Hp).
  destruct (rebucket_remove st st' k.1 e _ Hu Hp) as [? Hup]; [by apply rebucket_insert|].
  split; [done|]. rewrite Hk in Hup. by destruct k.
Qed.

Lemma updates_chain st st1 st2 k o o' :
  updates st st1 k o -> updates st1 st2 k o' -> updates st st2 k o'.
Proof. intros [_ A] [B C]. split; [done|]. intros k' Hne. by rewrite C, A. Qed.

Lemma writes_ext st st' st1 k o :
  (forall p, bucket_of st' p = bucket_of st1 p) -> st'.(ss_dirty) = st1.(ss_dirty) ->
  writes st st1 k o -> writes st st' k o.
Proof.
  intros Hb Hd [A [B C] D]. split; [intros p; by rewrite Hb| |by rewrite Hd].
  unfold updates, entry_at in *. setoid_rewrite Hb. done.
Qed.

(** The entry of a permit that is out. *)
Lemma held_found st permits pm :
  state_inv st permits -> pm ∈ permits ->
  exists index e c,
    list_find (fun e => en_key e = pm.(ip_key)) (bucket_of st pm.(ip_principal_id)) = Some (index, e)
    /\ entry_at st (permit_key pm) = Some e /\ reserved_for pm e c.
Proof.
  intros I Hpm. destruct (si_held _ _ I pm Hpm) as (e & c & He & Hr). pose proof He as He'.
  unfold entry_at, find_key in He. simpl in He.
  destruct (list_find _ _) as [[index e0]|] eqn:Ef; [|done]. injection He as ->. eauto 10.
Qed.

Lemma matches_found st permits pm index e c :
  state_inv st permits ->
  list_find (fun e => en_key e = pm.(ip_key)) (bucket_of st pm.(ip_principal_id)) = Some (index, e) ->
  reserved_for pm e c ->
  list_find (matches_permit pm.(ip_key) pm.(ip_operation) pm.(ip_sha256) pm.(ip_generation))
    (bucket_of st pm.(ip_principal_id)) = Some (index, e).
Proof.
  intros I Hf (R1 & R2 & R3). apply list_find_Some in Hf as (Hl & Hk & Hb).
  apply list_find_Some. split_and!; [done|..].
  - unfold matches_permit. by rewrite R3.
  - intros j y Hy Hlt (Hk' & _). by eapply Hb.
Qed.

(** [abandon_entry] removes the reservation and tells who waits for it. *)
Lemma abandon_entry_spec st permits pm :
  state_inv st permits -> pm ∈ permits ->
  let st' := abandon_entry pm.(ip_principal_id) pm.(ip_key) pm.(ip_operation) pm.(ip_sha256)
               pm.(ip_generation) st in
  exists e c, entry_at st (permit_key pm) = Some e /\ reserved_for pm e c
    /\ writes st st' (permit_key pm) None /\ permit_key pm ∈ st'.(ss_dirty)
    /\ st'.(ss_channels) = alter (fun ch => MkChannel (ch.(wc_version) + 1) UpReleased) c st.(ss_channels).
Proof.
  intros I Hpm st'. destruct (held_found _ _ _ I Hpm) as (index & e & c & Hf & He & Hr).
  exists e, c. split; [done|]. split; [done|].
  pose proof (remove_entry st (permit_key pm) index e (si_unique _ _ I) Hf) as [Hu Hup].
  subst st'. unfold abandon_entry. rewrite (matches_found _ _ _ _ _ _ I Hf Hr).
  assert (entry_channel e = Some c) as Hc by (unfold entry_channel; destruct Hr as (_ & _ & ->); done).
  rewrite Hc. cbv zeta. split; [|split; [unfold send_replace, mark_dirty; simpl; set_solver|done]].
  split; [|split|by left].
  - intros p. change (NoDup (en_key <$> bucket_of (remove_empty_buckets
      (set_bucket (permit_key pm).1 (delete index (bucket_of st (permit_key pm).1)) st)) p)).
    rewrite bucket_of_remove_empty. apply Hu.
  - change (entry_at (remove_empty_buckets
      (set_bucket (permit_key pm).1 (delete index (bucket_of st (permit_key pm).1)) st)) (permit_key pm) = None).
    rewrite entry_at_remove_empty. apply Hup.
  - intros k' Hne. change (entry_at (remove_empty_buckets
      (set_bucket (permit_key pm).1 (delete index (bucket_of st (permit_key pm).1)) st)) k' = entry_at st k').
    rewrite entry_at_remove_empty. by apply Hup.
Qed.

(** [unresolve_entry] keeps the key as unresolved and tells who waits for it. *)
Lemma unresolve_entry_spec st permits pm :
  state_inv st permits -> pm ∈ permits ->
  let st' := unresolve_entry pm.(ip_principal_id) pm.(ip_key) pm.(ip_operation) pm.(ip_sha256)
               pm.(ip_generation) st in
  exists e c, entry_at st (permit_key pm) = Some e /\ reserved_for pm e c
    /\ writes st st' (permit_key pm) (Some (e <| en_state := UnresolvedEntry |>))
    /\ permit_key pm ∈ st'.(ss_dirty)
    /\ st'.(ss_channels) = alter (fun ch => MkChannel (ch.(wc_version) + 1) UpUnresolved) c st.(ss_channels).
Proof.
  intros I Hpm st'. destruct (held_found _ _ _ I Hpm) as (index & e & c & Hf & He & Hr).
  exists e, c. split; [done|]. split; [done|].
  pose proof (unresolve_found_spec st _ _ e (si_unique _ _ I) He) as [Hu Hup _].
  unfold unresolve_found in Hu, Hup. rewrite Hf in Hu, Hup.
  subst st'. unfold unresolve_entry. rewrite (matches_found _ _ _ _ _ _ I Hf Hr).
  assert (entry_channel e = Some c) as Hc by (unfold entry_channel; destruct Hr as (_ & _ & ->); done).
  rewrite Hc. cbv zeta. split; [|split; [unfold send_replace, mark_dirty; simpl; set_solver|done]].
  split; [exact Hu|exact Hup|by left].
Qed.

(** [drop_permit]: a durable reservation stays unresolved, another one is given up. *)
Lemma drop_permit_spec s permits pm :
  state_inv s.(is_state) permits -> pm ∈ permits ->
  exists st' e c, drop_permit pm s = s <| is_state := st' |>
    /\ entry_at s.(is_state) (permit_key pm) = Some e /\ reserved_for pm e c
    /\ writes s.(is_state) st' (permit_key pm)
         (if pm.(ip_durable) then Some (e <| en_state := UnresolvedEntry |>) else None)
    /\ permit_key pm ∈ st'.(ss_dirty)
    /\ st'.(ss_channels) = alter (fun ch => MkChannel (ch.(wc_version) + 1)
         (if pm.(ip_durable) then UpUnresolved else UpReleased)) c s.(is_state).(ss_channels).
Proof.
  intros I Hpm. unfold drop_permit, set_state.
  destruct (ip_durable pm).
  - destruct (unresolve_entry_spec _ _ _ I Hpm) as (e & c & ? & ? & ? & ? & ?). by eexists _, e, c.
  - destruct (abandon_entry_spec _ _ _ I Hpm) as (e & c & ? & ? & ? & ? & ?). by eexists _, e, c.
Qed.

Lemma tombstone_spec st pm :
  keys_unique st ->
  exists t, t.(en_state) = UnresolvedEntry /\ t.(en_expires_at) = None
    /\ writes st (set_bucket pm.(ip_principal_id) (tombstone pm (bucket_of st pm.(ip_principal_id))) st)
         (permit_key pm) (Some t).
Proof.
  intros Hu. unfold tombstone. destruct (list_find _ _) as [[index e]|] eqn:Ef.
  - exists (e <| en_state := UnresolvedEntry |> <| en_expires_at := None |>).
    split; [done|]. split; [done|].
    apply (find_split st (permit_key pm)) in Ef as (He & Hi & Hk & Hp). simpl in *.
    pose (e1 := e <| en_state := UnresolvedEntry |> <| en_expires_at := None |>).
    destruct (rebucket_replace st (set_bucket (ip_principal_id pm)
       (<[index := e1]> (bucket_of st (ip_principal_id pm))) st) _ e e1
       (delete index (bucket_of st (ip_principal_id pm))) Hu Hp) as [? Hup]; [|done|].
    { apply rebucket_insert. by eapply insert_perm. }
    rewrite Hk in Hup. split; [done|exact Hup|by right].
  - exists (unresolved_for pm). split; [done|]. split; [done|].
    apply (find_none st (permit_key pm)) in Ef.
    pose proof (add_entry st (ip_principal_id pm) (unresolved_for pm) Hu Ef) as (Hu' & Hup & _).
    split; [exact Hu'|exact Hup|by right].
Qed.

(** What finishing leaves under the key. *)
Definition finished_entry (outcome : O) (ttl now last_used : Z) e : option entry :=
  if releases_reservation outcome then None
  else let safety := safety_relevant outcome in
       Some (e <| en_last_used := last_used |>
               <| en_expires_at := if safety then None else Some (now + ttl) |>
               <| en_state := Retained outcome safety |>).

Lemma finish_spec pm outcome now s permits r s' :
  state_inv s.(is_state) permits -> pm ∈ permits -> finish pm outcome now s = (r, s') ->
  (is_Some (integrity_issue s) /\ is_ok r = false /\ s' = drop_permit pm s)
  \/ exists st2 e c u rp sp, integrity_issue s = None
      /\ entry_at s.(is_state) (permit_key pm) = Some e /\ reserved_for pm e c
      /\ writes s.(is_state) st2 (permit_key pm) (finished_entry outcome s.(is_ttl) now u e)
      /\ permit_key pm ∈ st2.(ss_dirty) /\ st2.(ss_channels) = s.(is_state).(ss_channels)
      /\ persist_locked (s <| is_state := st2 |>) = (rp, sp)
      /\ match rp with
         | Ok _ => r = Ok tt
             /\ s' = set_state (send_replace c (if releases_reservation outcome then UpReleased
                                                else UpReplay outcome)) sp
         | Err _ => is_ok r = false /\ exists st3 t, t.(en_state) = UnresolvedEntry
             /\ t.(en_expires_at) = None /\ writes sp.(is_state) st3 (permit_key pm) (Some t)
             /\ st3.(ss_channels) = sp.(is_state).(ss_channels)
             /\ st3.(ss_dirty) = sp.(is_state).(ss_dirty)
             /\ s' = sp <| is_state := send_replace c UpUnresolved st3 |>
         end.
Proof.
  intros I Hpm E. unfold finish, finish_inner in E.
  destruct (ensure_writable _ s) as [r0 s0] eqn:Ew. pose proof Ew as Ew'.
  apply ensure_writable_cases in Ew' as [-> Hw].
  destruct r0 as [[]|err].
  2: { injection E as <- <-. left. split; [|done]. destruct (integrity_issue s); [done|].
       by destruct Hw as [_ Hw]; specialize (Hw eq_refl). }
  right. destruct (held_found _ _ _ I Hpm) as (index & e & c & Hf & He & Hr).
  destruct (ss_entries (is_state s) !! ip_principal_id pm) as [b|] eqn:Eb.
  2: { unfold bucket_of in Hf. rewrite Eb in Hf. done. }
  apply bucket_some in Eb. subst b. rewrite Hf in E. destruct Hr as (R1 & R2 & R3).
  rewrite R3, R1, R2, !bool_decide_eq_true_2, Z.eqb_refl in E by done. cbn [negb orb] in E.
  cbv zeta in E.
  set (u := ss_sequence (bump_sequence (is_state s))) in E.
  match type of E with context [persist_locked (s <| is_state := ?x |>)] => set (st2 := x) in E end.
  assert (writes (is_state s) st2 (permit_key pm) (finished_entry outcome s.(is_ttl) now u e)) as Hwr.
  { apply writes_ext with (st1 := mark_dirty (permit_key pm)
      (if releases_reservation outcome
       then set_bucket (permit_key pm).1 (delete index (bucket_of (is_state s) (permit_key pm).1)) (is_state s)
       else set_bucket (ip_principal_id pm) (delete index (bucket_of (is_state s) (ip_principal_id pm))
              ++ [e <| en_last_used := u |>
                    <| en_expires_at := if safety_relevant outcome then None else Some (now + is_ttl s) |>
                    <| en_state := Retained outcome (safety_relevant outcome) |>]) (bump_sequence (is_state s)))).
    - intros p. unfold st2. rewrite bucket_of_remove_empty. done.
    - done.
    - unfold finished_entry. destruct (releases_reservation outcome).
      + pose proof (remove_entry _ (permit_key pm) index e (si_unique _ _ I) Hf) as [Hu Hup].
        split; [exact Hu|exact Hup|by left].
      + match goal with |- writes _ (mark_dirty _ (set_bucket _ (_ ++ [?e1]) _)) _ _ =>
          pose proof (move_to_end (bump_sequence (is_state s)) _ _ index e e1 (si_unique _ _ I) Hf eq_refl)
            as [Hu Hup] end.
        split; [exact Hu|exact Hup|by left]. }
  assert (permit_key pm ∈ ss_dirty st2) as Hdk.
  { unfold st2. change (permit_key pm ∈ ss_dirty (mark_dirty (permit_key pm)
      (if releases_reservation outcome then is_state s else is_state s)) ) || idtac.
    unfold remove_empty_buckets, mark_dirty. simpl. set_solver. }
  assert (ss_channels st2 = ss_channels (is_state s)) as Hch.
  { unfold st2. destruct (releases_reservation outcome); done. }
  clearbody st2.
  destruct (persist_locked (s <| is_state := st2 |>)) as [rp sp] eqn:Epl.
  exists st2, e, c, u, rp, sp.
  split; [by apply Hw|]. split; [done|]. split; [done|]. split; [done|]. split; [done|].
  split; [done|]. split; [done|].
  destruct rp as [[]|err]; injection E as <- <-; [done|]. split; [done|].
  pose proof (persist_frame _ _ _ Epl) as (Fe & _).
  assert (keys_unique (is_state sp)) as Hus.
  { intros q. unfold bucket_of. rewrite Fe. apply (wr_unique _ _ _ _ Hwr q). }
  destruct (tombstone_spec (is_state sp) pm Hus) as (t & T1 & T2 & T3).
  by eexists _, t.
Qed.

Lemma abandon_spec pm s permits :
  state_inv s.(is_state) permits -> pm ∈ permits ->
  exists st2 e c rp sp, entry_at s.(is_state) (permit_key pm) = Some e /\ reserved_for pm e c
      /\ writes s.(is_state) st2 (permit_key pm) None
      /\ permit_key pm ∈ st2.(ss_dirty)
      /\ st2.(ss_channels) = alter (fun ch => MkChannel (ch.(wc_version) + 1) UpReleased) c
                               s.(is_state).(ss_channels)
      /\ persist_locked (s <| is_state := st2 |>) = (rp, sp)
      /\ match rp with
         | Ok _ => abandon pm s = sp
         | Err _ => exists st3 t, t.(en_state) = UnresolvedEntry /\ t.(en_expires_at) = None
             /\ writes sp.(is_state) st3 (permit_key pm) (Some t)
             /\ st3.(ss_channels) = sp.(is_state).(ss_channels)
             /\ st3.(ss_dirty) = sp.(is_state).(ss_dirty)
             /\ abandon pm s = sp <| is_state := st3 |>
         end.
Proof.
  intros I Hpm. destruct (abandon_entry_spec _ _ _ I Hpm) as (e & c & He & Hr & Hw & Hd & Hc).
  set (st2 := abandon_entry _ _ _ _ _ _) in *.
  assert (abandon pm s = match persist_locked (s <| is_state := st2 |>) with
            | (Ok _, s) => s
            | (Err _, s) => set_state (fun st => set_bucket (ip_principal_id pm)
                (bucket_of st (ip_principal_id pm) ++ [unresolved_for pm]) st) s
            end) as -> by reflexivity.
  clearbody st2.
  destruct (persist_locked (s <| is_state := st2 |>)) as [rp sp] eqn:Epl.
  exists st2, e, c, rp, sp. do 6 (split; [done|]).
  destruct rp as [[]|err]; [done|].
  pose proof (persist_frame _ _ _ Epl) as (Fe & _).
  assert (keys_unique (is_state sp)) as Hus.
  { intros q. unfold bucket_of. rewrite Fe. apply (wr_unique _ _ _ _ Hw q). }
  assert (entry_at (is_state sp) (permit_key pm) = None) as Hn.
  { unfold entry_at, bucket_of. rewrite Fe. apply (wr_entry _ _ _ _ Hw). }
  pose proof (add_entry (is_state sp) (ip_principal_id pm) (unresolved_for pm) Hus Hn) as (Hu' & Hup & _).
  eexists _, (unresolved_for pm). do 2 (split; [done|]).
  split; [split; [exact Hu'|exact Hup|by right]|]. split; [reflexivity|]. split; [reflexivity|]. reflexivity.
Qed.
End Operations.
