(* ===== verification/IdempotencyWorld.v ===== *)
(** * The idempotency store, its permits and its log, over time

    A world is the store, the permits that are out and the keys that have been issued: a key
    is issued when its permit is handed out, and stays so until the holder reports an outcome
    that allows another attempt or need not be remembered, gives the key up, or is gone where
    keys are kept in memory only; or until a restart, where the journal answers such an outcome.  The invariant says that an issued key
    is protected in memory as long as the store accepts writes, and in every content the log
    can have.  It is kept by each operation and by a restart from the log. *)

From S2P Require Import Prelude Text SkillTypes Receipt Job Interface Ledger Json Idempotency IdempotencyInv DurableLog IdempotencySteps.

(** ** Bounds on sets of keys *)

Definition within (per_principal global : Z) (X : gset Key) : Prop :=
  Z.of_nat (size X) <= global
  /\ forall p, Z.of_nat (size (filter (fun k : Key => k.1 = p) X)) <= per_principal.

Lemma within_mono (per_principal global : Z) (X Y : gset Key) :
  Y ⊆ X -> within per_principal global X -> within per_principal global Y.
Proof.
  intros Hs [A B]. split; [pose proof (subseteq_size _ _ Hs); lia|]. intros p. specialize (B p).
  assert (filter (fun k : Key => k.1 = p) Y ⊆ filter (fun k : Key => k.1 = p) X) as Hf by set_solver.
  apply subseteq_size in Hf. lia.
Qed.

Section Keys.
Context {O : Type}.
Implicit Types (st : StoreState O) (k : Key).

Definition store_keys st : gset Key := list_to_set (entry_key <$> all_entries st).

Lemma elem_store_keys st k : keys_unique st -> k ∈ store_keys st <-> is_Some (entry_at st k).
Proof.
  intros Hu. unfold store_keys. rewrite elem_of_list_to_set, list_elem_of_fmap. split.
  - intros ([p e] & -> & Hin). apply all_entries_at in Hin; [|done]. by exists e.
  - intros [e He]. exists (k.1, e). pose proof (entry_at_key _ _ _ He) as Hk. unfold entry_key. simpl.
    rewrite Hk. split; [by destruct k|]. apply all_entries_at; [done|]. rewrite Hk. by destruct k.
Qed.

Lemma store_keys_size st : keys_unique st -> size (store_keys st) = entry_count st.(ss_entries).
Proof.
  intros Hu. unfold store_keys. rewrite size_list_to_set by (by apply all_entries_nodup).
  by rewrite length_fmap, all_entries_length.
Qed.

Lemma store_keys_bucket st p :
  keys_unique st -> size (filter (fun k : Key => k.1 = p) (store_keys st)) = length (bucket_of st p).
Proof.
  intros Hu.
  assert (filter (fun k : Key => k.1 = p) (store_keys st)
          = list_to_set ((fun e => (p, en_key e)) <$> bucket_of st p)) as ->.
  { apply set_eq. intros k. rewrite elem_of_filter, elem_store_keys, elem_of_list_to_set by done.
    rewrite list_elem_of_fmap. split.
    - intros [<- [e He]]. exists e. apply find_key_Some in He as [? Hk]; [|apply Hu].
      rewrite Hk. split; [by destruct k|done].
    - intros (e & -> & He). split; [done|]. exists e. apply find_key_Some; [apply Hu|done]. }
  rewrite size_list_to_set; [by rewrite length_fmap|].
  pose proof (Hu p) as Hn. apply (NoDup_fmap_2_strong (fun key => (p, key))) in Hn; [|naive_solver].
  by rewrite <-list_fmap_compose in Hn.
Qed.

Lemma within_store (per_principal global : Z) st :
  keys_unique st -> Z.of_nat (entry_count st.(ss_entries)) <= global ->
  (forall p, Z.of_nat (length (bucket_of st p)) <= per_principal) ->
  within per_principal global (store_keys st).
Proof.
  intros Hu Hc Hb. split; [by rewrite store_keys_size|]. intros p. by rewrite store_keys_bucket.
Qed.

Lemma within_bounds (per_principal global : Z) st :
  keys_unique st -> within per_principal global (store_keys st) ->
  Z.of_nat (entry_count st.(ss_entries)) <= global
  /\ forall p, Z.of_nat (length (bucket_of st p)) <= per_principal.
Proof.
  intros Hu [A B]. rewrite store_keys_size in A by done. split; [done|]. intros p.
  specialize (B p). by rewrite store_keys_bucket in B.
Qed.

Lemma store_keys_sub st st' :
  keys_unique st -> keys_unique st' ->
  (forall k, is_Some (entry_at st' k) -> is_Some (entry_at st k)) -> store_keys st' ⊆ store_keys st.
Proof. intros Hu Hu' Hk k. rewrite !elem_store_keys by done. apply Hk. Qed.
End Keys.

(** ** The invariant of memory and of the log *)

Section World.
Context {O P : Type} `{RetainedOutcome O, DurableLogLaws P, JsonLib, !RoomyLog P}.
Abbreviation store := (IdempotencyStore O P).
Abbreviation entry := (Entry O).
Abbreviation state := (StoreState O).
Implicit Types (s : store) (st : state) (k : Key) (e : entry) (pm : IdempotencyPermit)
  (m : gmap Key DurableEntry) (X Y : gset Key).

(** What is retained is marked by its safety. *)
Definition retained_ok e : Prop :=
  forall o b, e.(en_state) = Retained o b -> b = safety_relevant o.

Definition durable_ok (d : DurableEntry) : Prop :=
  valid_key d.(de_key)
  /\ match d.(de_state) with
     | DurRetained v => exists b, to_vec v = Ok b /\ blen b <= MAX_DURABLE_VALUE_BYTES
     | DurReserved | DurUnresolved => d.(de_expires_at) = None
     end.

(** A content of the log that protects the keys of [X]. *)
Record disk_ok X m : Prop := MkDiskOk {
  do_keyed : keyed m;
  do_within : within 256 4096 (dom m);
  do_entries : forall k d, m !! k = Some d -> durable_ok d;
  do_issued : forall k, k ∈ X -> exists d, m !! k = Some d /\ d.(de_expires_at) = None;
}.

Record mem_ok st X : Prop := MkMemOk {
  mo_unique : keys_unique st;
  mo_valid : keys_valid st;
  mo_lasting : forall k e, entry_at st k = Some e -> lasting e;
  mo_retained : forall k e, entry_at st k = Some e -> retained_ok e;
  mo_within : within 256 4096 (store_keys st);
  mo_guard : forall k, k ∈ X -> exists e, entry_at st k = Some e /\ ~ evictable e;
}.

Lemma disk_ok_mono X Y m : Y ⊆ X -> disk_ok X m -> disk_ok Y m.
Proof. intros Hs [A B C D]. split; auto. Qed.

Lemma durable_entry_good p e d :
  valid_key (en_key e) -> lasting e -> retained_ok e -> durable_entry p e = Ok d -> durable_ok d.
Proof.
  intros Hv Hl Hr Hd. pose proof (durable_entry_ok _ _ _ Hd) as (Hk & Hx & Hs).
  injection Hk as _ Hk. split; [by rewrite Hk|].
  unfold durable_state in Hs. destruct (en_state e) as [g c|o b|] eqn:Es.
  - injection Hs as <-. rewrite Hx. destruct Hl as [Hl|?]; [|done].
    unfold evictable, entry_is_evictable in Hl. by rewrite Es in Hl.
  - apply rbind_ok in Hs as (v & Hv' & Hs). apply rbind_ok in Hs as (bs & Hbs & Hs).
    apply map_err_ok in Hbs. destruct (Z.ltb_spec MAX_DURABLE_VALUE_BYTES (blen bs)); [done|].
    injection Hs as <-. by exists bs.
  - injection Hs as <-. rewrite Hx. destruct Hl as [Hl|?]; [|done].
    unfold evictable, entry_is_evictable in Hl. by rewrite Es in Hl.
Qed.

(** A store that is written protects in the log what it protects in memory. *)
Lemma rewritten_disk_ok st m m' X Y :
  mem_ok st Y -> disk_ok X m -> presynced m st -> keyed m' -> rewritten st m m' ->
  (forall k, k ∈ Y -> k ∈ X \/ k ∈ st.(ss_dirty)) -> disk_ok Y m'.
Proof.
  intros M D Hp Hk Hr HY. split; [done|..].
  - eapply within_mono; [|apply (mo_within _ _ M)]. intros k Hin.
    apply elem_store_keys; [apply M|]. by apply (rewritten_domain _ _ _ _ Hp Hr), elem_of_dom.
  - intros k d Hd. specialize (Hr k). destruct (entry_at st k) as [e|] eqn:Ee; [|congruence].
    destruct Hr as [(d' & Hd' & He)|[_ Hm]].
    + assert (d' = d) as -> by congruence. eapply durable_entry_good; [| | |exact He].
      * rewrite (entry_at_key _ _ _ Ee). by eapply (mo_valid _ _ M).
      * by eapply (mo_lasting _ _ M).
      * by eapply (mo_retained _ _ M).
    + rewrite Hm in Hd. by eapply (do_entries _ _ D).
  - intros k Hin. destruct (mo_guard _ _ M k Hin) as (e & He & Hne). specialize (Hr k).
    rewrite He in Hr. destruct Hr as [(d & Hd & Hde)|[Hnd Hm]].
    + exists d. split; [done|]. apply durable_entry_ok in Hde as (_ & -> & _).
      by destruct (mo_lasting _ _ M _ _ He).
    + rewrite Hm. destruct (HY k Hin) as [HX|?]; [|done]. by apply (do_issued _ _ D).
Qed.

(** Every entry is in the log or unresolved. *)
Definition synced m st : Prop :=
  presynced m st
  /\ forall k e, entry_at st k = Some e -> is_Some (m !! k) \/ e.(en_state) = UnresolvedEntry.

Definition disk_safe s X : Prop :=
  forall log m, s.(is_durable) = Some log -> log_view log = Some m -> disk_ok X m.

Definition disk_ready (R : gmap Key DurableEntry -> state -> Prop) s : Prop :=
  forall log, s.(is_durable) = Some log -> integrity_issue s = None ->
    log_ok log /\ exists m, log_view log = Some m /\ R m s.(is_state).


Lemma synced_written m m' st : presynced m st -> rewritten st m m' -> synced m' (clear_dirty st).
Proof.
  intros Hp Hr.
  assert (forall k, is_Some (m' !! k) <-> is_Some (entry_at st k)) as Hd
    by (intros k; by apply (rewritten_domain _ _ _ _ Hp Hr)).
  split; [split|].
  - intros k _. symmetry. apply Hd.
  - intros k Hk. by apply not_elem_of_empty in Hk.
  - intros k e He. left. apply Hd. by exists e.
Qed.

(** Writing the store: on success the log protects [Y]; on failure it protects what it
    protected and [Y] both, and either nothing was written or the store is closed. *)
Lemma persist_disk s X Y r s' :
  (is_Some s.(is_durable) -> mem_ok s.(is_state) Y) -> disk_safe s X -> disk_ready presynced s ->
  (forall k, k ∈ Y -> k ∈ X \/ k ∈ s.(is_state).(ss_dirty)) ->
  persist_locked s = (r, s') ->
  if is_ok r then disk_safe s' Y /\ disk_ready synced s'
  else disk_safe s' (X ∩ Y) /\ (s' = s \/ is_Some (integrity_issue s')).
Proof.
  intros HM HD HR HY E.
  apply persist_cases in E as [(-> & ->)|[(-> & Hi & Hd & ->)|[(-> & Hi & [log Hd] & He & ->)|E]]].
  - split; [|by left]. intros log m Hl Hv. eapply disk_ok_mono; [|by eapply HD]. set_solver.
  - simpl. split; intros log; simpl; congruence.
  - simpl. specialize (HM (ex_intro _ _ Hd)). destruct (HR log Hd Hi) as (Hok & m & Hv & Hp). split.
    + intros log' m' Hl Hv'. assert (log' = log) as -> by congruence.
      eapply disk_ok_mono; [|by eapply HD]. intros k Hk. rewrite He in HY. set_solver.
    + intros log' Hl _. assert (log' = log) as -> by congruence. split; [done|]. exists m.
      split; [done|]. split; [done|]. intros k e Hk. left. apply (ps_clean _ _ Hp); [|by exists e].
      rewrite He. apply not_elem_of_empty.
  - destruct E as (log & w & log' & Hd & Hi & Ha & Hw & ->).
    specialize (HM (ex_intro _ _ Hd)). destruct (HR log Hd Hi) as (Hok & m & Hv & Hp).
    pose proof (HD _ _ Hd Hv) as D.
    assert (Z.of_nat (entry_count (ss_entries (is_state s))) <= 4096) as Hn
      by (rewrite <-store_keys_size by apply HM; apply HM).
    assert (forall k, is_Some (m !! k) -> valid_key k.2) as Hmv.
    { intros k [d Hk]. destruct (do_entries _ _ D k d Hk) as [Hkv _].
      by rewrite <-(do_keyed _ _ D k d Hk). }
    assert (forall p, Z.of_nat (length (bucket_of (is_state s) p)) <= 256) as Hbk.
    { apply within_bounds with (global := 4096); [apply HM|apply HM]. }
    destruct (asks_rewrites _ _ _ w Hok Hv (do_keyed _ _ D) Hmv Hp (mo_unique _ _ HM) (mo_valid _ _ HM)
                (mo_lasting _ _ HM) Hbk Hn Ha)
      as (m' & Hr & Hk & H1' & H2').
    assert (disk_ok Y m') as D' by (by eapply rewritten_disk_ok).
    destruct r as [[]|err]; simpl.
    + destruct (H1' _ Hw) as [Hok' Hv']. split.
      * intros l1 m1 [= <-] Hm1. congruence.
      * intros l1 [= <-] _. split; [done|]. exists m'. split; [done|]. by eapply synced_written.
    + split.
      * intros l1 m1 [= <-] Hm1. destruct (H2' _ _ Hw) as [E0|[E0|E0]]; [congruence|..].
        -- assert (m1 = m) as -> by congruence. eapply disk_ok_mono; [|exact D]. set_solver.
        -- assert (m1 = m') as -> by congruence. eapply disk_ok_mono; [|exact D']. set_solver.
      * right. unfold integrity_issue. simpl. by destruct (is_integrity_issue s).
Qed.

(** ** Worlds and their steps *)

Record World := MkWorld {
  w_store : store;
  w_permits : list IdempotencyPermit;
  w_issued : gset Key;
}.

Definition without (pm : IdempotencyPermit) (permits : list IdempotencyPermit) :=
  filter (fun q => permit_key q <> permit_key pm) permits.

(** The outcome says that another attempt is harmless, or need not be remembered for ever. *)
Definition settles_key (outcome : O) : bool :=
  releases_reservation outcome || negb (safety_relevant outcome).

Definition running (ph : ReservePhase (O := O)) : bool :=
  match ph with Finished _ => false | _ => true end.

Inductive Label :=
| LReserve (args : ReserveArgs) (utc_now : Time) (ph : ReservePhase (O := O))
| LFinish (pm : IdempotencyPermit) (outcome : O) (now : Time)
| LAbandon (pm : IdempotencyPermit)
| LDrop (pm : IdempotencyPermit)
| LRestart (resolve : JsonValue -> result (option O) IoError) (now : Time).

(** The keys that a restart restores with an outcome that need not be remembered for ever,
    because that is what [resolve] finds for them, and what it finds. *)
Definition resolved_keys (resolve : JsonValue -> result (option O) IoError) (loaded : result (list DurableEntry) string) : list (Key * O) :=
  match loaded with
  | Ok entries =>
      omap (fun d => match restore_state resolve d.(de_state) with Retained o false => Some (durable_key d, o) | _ => None end) entries
  | Err _ => []
  end.

(** One step: a scope of some call of [reserve], a permit finished, abandoned or dropped by
    its holder, or the process ending and the store being opened again. *)
Definition world_step (l : Label) (w : World) : option World :=
  let s := w.(w_store) in
  match l with
  | LReserve args utc_now ph =>
      if running ph && is_ok (IdempotencyKey_try_from args.(ra_key)) then
        let '(ph, s) := reserve_step args utc_now ph s in
        Some (match ph with
              | Finished (Ok (Acquired pm)) =>
                  MkWorld s (pm :: w.(w_permits)) ({[args_key args]} ∪ w.(w_issued))
              | _ => MkWorld s w.(w_permits) w.(w_issued)
              end)
      else None
  | LFinish pm outcome now =>
      if bool_decide (pm ∈ w.(w_permits)) then
        Some (MkWorld (finish pm outcome now s).2 (without pm w.(w_permits))
                (if settles_key outcome then w.(w_issued) ∖ {[permit_key pm]} else w.(w_issued)))
      else None
  | LAbandon pm =>
      if bool_decide (pm ∈ w.(w_permits)) then
        Some (MkWorld (abandon pm s) (without pm w.(w_permits)) (w.(w_issued) ∖ {[permit_key pm]}))
      else None
  | LDrop pm =>
      if bool_decide (pm ∈ w.(w_permits)) then
        Some (MkWorld (drop_permit pm s) (without pm w.(w_permits))
                (if pm.(ip_durable) then w.(w_issued) else w.(w_issued) ∖ {[permit_key pm]}))
      else None
  | LRestart resolve now =>
      match s.(is_durable) ≫= log_open now with
      | Some opened =>
          Some (MkWorld (open_durable resolve now opened) [] (w.(w_issued) ∖ list_to_set (resolved_keys resolve opened.2).*1))
      | None => None
      end
  end.

Fixpoint world_run (ls : list Label) (w : World) : option World :=
  match ls with [] => Some w | l :: ls => world_step l w ≫= world_run ls end.

(** A store in memory, or one opened on an empty log. *)
Inductive fresh : World -> Prop :=
| fresh_memory per_principal global ttl :
    0 <= per_principal -> 0 <= global ->
    fresh (MkWorld (with_global_capacity per_principal global ttl) [] ∅)
| fresh_durable resolve now log :
    log_ok log -> log_view log = Some ∅ ->
    fresh (MkWorld (open_durable resolve now (log, Ok [])) [] ∅).

(** ** The invariant *)

Definition good_entry k e : Prop := valid_key k.2 /\ retained_ok e.
Definition good st : Prop := forall k e, entry_at st k = Some e -> good_entry k e.
Definition guarded st X : Prop := forall k, k ∈ X -> exists e, entry_at st k = Some e /\ ~ evictable e.

Record world_inv w : Prop := MkWorldInv {
  wi_state : state_inv w.(w_store).(is_state) w.(w_permits);
  wi_durable : forall pm, pm ∈ w.(w_permits) ->
    pm.(ip_durable) = bool_decide (is_Some w.(w_store).(is_durable))
    /\ permit_key pm ∈ w.(w_issued);
  wi_caps : is_Some w.(w_store).(is_durable) ->
    w.(w_store).(is_per_principal_capacity) = 256 /\ w.(w_store).(is_global_capacity) = 4096;
  wi_within : within w.(w_store).(is_per_principal_capacity) w.(w_store).(is_global_capacity)
                (store_keys w.(w_store).(is_state));
  wi_good : good w.(w_store).(is_state);
  wi_guard : integrity_issue w.(w_store) = None -> guarded w.(w_store).(is_state) w.(w_issued);
  wi_issue : is_Some w.(w_store).(is_integrity_issue) -> is_Some w.(w_store).(is_durable);
  wi_safe : disk_safe w.(w_store) w.(w_issued);
  wi_ready : disk_ready synced w.(w_store);
}.

Lemma good_sheds st st' : sheds evictable st st' -> good st -> good st'.
Proof. intros Hs Hg k e He. apply Hg. by eapply sheds_lookup. Qed.

Lemma good_updates st st' k o :
  updates st st' k o -> (forall e, o = Some e -> good_entry k e) -> good st -> good st'.
Proof.
  intros [A B] Ho Hg k' e He. destruct (decide (k' = k)) as [->|Hne]; [apply Ho; congruence|].
  apply Hg. by rewrite <-B.
Qed.

Lemma guarded_sheds st st' X : sheds evictable st st' -> guarded st X -> guarded st' X.
Proof.
  intros Hs Hg k Hk. destruct (Hg k Hk) as (e & He & Hne). exists e. split; [|done].
  by eapply sheds_keeps.
Qed.

Lemma guarded_updates st st' k o X :
  updates st st' k o -> (k ∈ X -> exists e, o = Some e /\ ~ evictable e) ->
  guarded st (X ∖ {[k]}) -> guarded st' X.
Proof.
  intros [A B] Ho Hg k' Hk. destruct (decide (k' = k)) as [->|Hne].
  - destruct (Ho Hk) as (e & -> & ?). by exists e.
  - rewrite B by done. apply Hg. set_solver.
Qed.

Lemma guarded_mono st X Y : Y ⊆ X -> guarded st X -> guarded st Y.
Proof. intros Hs Hg k Hk. apply Hg. set_solver. Qed.

Lemma synced_sheds m st st' :
  sheds evictable st st' -> synced m st -> synced m st'.
Proof.
  intros Hs [[A B] C]. split; [split|].
  - intros k Hk. destruct (sh_entry _ _ _ Hs k) as [->|(e & _ & _ & _ & ?)]; [|done].
    apply A. intros Hd. apply Hk. by apply (sh_dirty _ _ _ Hs).
  - intros k Hk Hn. destruct (sh_entry _ _ _ Hs k) as [E|(e & He & Hv & _)].
    + destruct (sh_marked _ _ _ Hs k Hk) as [Hd|Hsome]; [|rewrite <-E, Hn in Hsome; by destruct Hsome].
      apply B; [done|congruence].
    + destruct (C k e He) as [?|Hu]; [done|]. unfold evictable, entry_is_evictable in Hv.
      by rewrite Hu in Hv.
  - intros k e He. apply C. by eapply sheds_lookup.
Qed.

(** One key changes and is marked; it stays in the log when it is removed. *)
Lemma presynced_writes m st st' k o :
  writes st st' k o -> k ∈ st'.(ss_dirty) -> (o = None -> is_Some (m !! k)) ->
  presynced m st -> presynced m st'.
Proof.
  intros [_ [A B] D] Hk Ho [C1 C2].
  assert (forall k', k' <> k -> k' ∈ st'.(ss_dirty) <-> k' ∈ st.(ss_dirty)) as Hd.
  { intros k' Hne. destruct D as [-> | ->]; set_solver. }
  split.
  - intros k' Hk'. assert (k' <> k) as Hne by congruence. rewrite B by done. apply C1. by rewrite <-Hd.
  - intros k' Hk' Hn. destruct (decide (k' = k)) as [->|Hne]; [apply Ho; congruence|].
    apply C2; [by apply Hd|by rewrite <-B].
Qed.

Lemma synced_writes m st st' k o :
  writes st st' k o -> k ∈ st'.(ss_dirty) -> (o = None -> is_Some (m !! k)) ->
  (forall e, o = Some e -> is_Some (m !! k) \/ e.(en_state) = UnresolvedEntry) ->
  (forall k' e, k' <> k -> entry_at st k' = Some e -> is_Some (m !! k') \/ e.(en_state) = UnresolvedEntry) ->
  presynced m st -> synced m st'.
Proof.
  intros W Hk Ho Hs Hr Hp. split; [by eapply presynced_writes|].
  destruct W as [_ [A B] _]. intros k' e He. destruct (decide (k' = k)) as [->|Hne].
  - apply Hs. congruence.
  - apply Hr; [done|by rewrite <-B].
Qed.
End World.
