(* ===== verification/IdempotencyKeep.v ===== *)
(** * Every step keeps the invariant of the idempotency store

    The operations of [IdempotencySteps] and a restart, shown to keep [world_inv]. *)

From S2P Require Import Prelude Text SkillTypes Receipt Job Interface Ledger Json Idempotency IdempotencyInv DurableLog IdempotencySteps IdempotencyWorld.

Section Keep.
Context {O P : Type} `{RetainedOutcome O, DurableLogLaws P, JsonLib, !RoomyLog P}.
Abbreviation store := (IdempotencyStore O P).
Abbreviation entry := (Entry O).
Abbreviation state := (StoreState O).
Implicit Types (s : store) (st : state) (k : Key) (e : entry) (pm : IdempotencyPermit)
  (m : gmap Key DurableEntry) (X Y : gset Key) (permits : list IdempotencyPermit).

Lemma entries_ext st st' :
  st'.(ss_entries) = st.(ss_entries) ->
  (forall k, entry_at st' k = entry_at st k) /\ (forall p, bucket_of st' p = bucket_of st p)
  /\ store_keys st' = store_keys st.
Proof.
  intros E. unfold entry_at, bucket_of, store_keys, all_entries. rewrite E. done.
Qed.

Lemma synced_ext m st st' :
  (forall k, entry_at st' k = entry_at st k) -> st'.(ss_dirty) = st.(ss_dirty) ->
  synced m st -> synced m st'.
Proof.
  intros He Hd [[A B] C]. split; [split|].
  - intros k. rewrite He, Hd. apply A.
  - intros k. rewrite He, Hd. apply B.
  - intros k e. rewrite He. apply C.
Qed.

Definition permits_ok s permits X : Prop :=
  forall pm, pm ∈ permits ->
    pm.(ip_durable) = bool_decide (is_Some s.(is_durable)) /\ permit_key pm ∈ X.

(** A step that changes the state only. *)
Lemma keep_state s permits X st' permits' Y :
  world_inv (MkWorld s permits X) -> state_inv st' permits' -> permits_ok s permits' Y ->
  Y ⊆ X -> store_keys st' ⊆ store_keys s.(is_state) -> good st' ->
  (guarded s.(is_state) X -> guarded st' Y) ->
  (forall m, disk_ok X m -> synced m s.(is_state) -> synced m st') ->
  world_inv (MkWorld (s <| is_state := st' |>) permits' Y).
Proof.
  intros [I1 I2 I3 I4 I5 I6 I9 I7 I8] Hst Hpm Hs Hk Hg Hgd Hsy. simpl in *. split; simpl.
  - done.
  - exact Hpm.
  - exact I3.
  - by eapply within_mono.
  - done.
  - intros Hi. by apply Hgd, I6.
  - exact I9.
  - intros log m Hl Hv. eapply disk_ok_mono; [done|]. exact (I7 log m Hl Hv).
  - intros log Hl Hi. destruct (I8 log Hl Hi) as (? & m & Hv & Hm). split; [done|]. exists m.
    split; [done|]. apply Hsy; [|done]. exact (I7 log m Hl Hv).
Qed.

Lemma mem_ok_of st permits X :
  state_inv st permits -> good st -> within 256 4096 (store_keys st) -> guarded st X -> mem_ok st X.
Proof.
  intros I Hg Hw Hgd. split; [apply I|..].
  - intros k e He. by destruct (Hg k e He).
  - apply I.
  - intros k e He. by destruct (Hg k e He).
  - done.
  - done.
Qed.

(** What a step asks of the state [st2] it writes. *)
Record to_write s permits X st2 permits2 Y : Prop := MkToWrite {
  tw_inv : world_inv (MkWorld s permits X);
  tw_state : state_inv st2 permits2;
  tw_good : good st2;
  tw_within : within s.(is_per_principal_capacity) s.(is_global_capacity) (store_keys st2);
  tw_guard : integrity_issue s = None -> guarded st2 Y;
  tw_sync : forall m, disk_ok X m -> synced m s.(is_state) -> presynced m st2;
  tw_new : forall k, k ∈ Y -> k ∈ X \/ k ∈ st2.(ss_dirty);
}.

Lemma to_write_disk s permits X st2 permits2 Y rp sp :
  to_write s permits X st2 permits2 Y -> persist_locked (s <| is_state := st2 |>) = (rp, sp) ->
  if is_ok rp then disk_safe sp Y /\ disk_ready synced sp
  else disk_safe sp (X ∩ Y) /\ (sp = s <| is_state := st2 |> \/ is_Some (integrity_issue sp)).
Proof.
  intros [[I1 I2 I3 I4 I5 I6 I9 I7 I8] A B C D E F] Hp. cbn [w_store w_permits w_issued] in *.
  destruct (integrity_issue s) as [issue|] eqn:Ei.
  { apply persist_cases in Hp as [(-> & ->)|[(_ & Hi & _)|[(_ & Hi & _)|(? & ? & ? & _ & Hi & _)]]];
      [|change (integrity_issue s = None) in Hi; congruence..].
    split; [|by left]. intros log m Hl Hv. eapply disk_ok_mono; [|by eapply I7]. set_solver. }
  eapply (persist_disk (s <| is_state := st2 |>) X Y rp sp); [..|exact Hp].
  - intros Hd. destruct (I3 Hd) as [E1 E2]. rewrite E1, E2 in C. eapply mem_ok_of; eauto.
  - exact I7.
  - intros log Hl _. destruct (I8 log Hl Ei) as (? & m & Hv & Hm). split; [done|]. exists m.
    split; [done|]. apply E; [by eapply I7|done].
  - done.
Qed.

Lemma keep_written s permits X st2 permits2 Y sp r st' permits' :
  to_write s permits X st2 permits2 Y -> persist_locked (s <| is_state := st2 |>) = (Ok r, sp) ->
  st'.(ss_entries) = sp.(is_state).(ss_entries) -> st'.(ss_dirty) = sp.(is_state).(ss_dirty) ->
  state_inv st' permits' -> permits_ok s permits' Y ->
  world_inv (MkWorld (sp <| is_state := st' |>) permits' Y).
Proof.
  intros Htw Hp He Hd Hst Hpm. pose proof (to_write_disk _ _ _ _ _ _ _ _ Htw Hp) as [D1 D2].
  pose proof (persist_frame _ _ _ Hp) as (Fe & Fc & _ & F1 & F2 & _ & F3 & F4). simpl in *.
  destruct Htw as [[I1 I2 I3 I4 I5 I6 I9 I7 I8] A B C D E F]. cbn [w_store w_permits w_issued] in *.
  destruct (entries_ext st2 st') as (Ea & Eb & Ek); [congruence|].
  split; simpl.
  - done.
  - intros pm Hin. destruct (Hpm pm Hin) as [-> ?]. split; [|done]. by apply bool_decide_ext.
  - rewrite F1, F2, F4. done.
  - by rewrite F1, F2, Ek.
  - intros k e. rewrite Ea. apply B.
  - intros Hi k Hk. rewrite Ea. apply D; [|done].
    apply persist_cases in Hp as [(? & _)|[(_ & ? & _)|[(_ & ? & _)|(? & ? & ? & _ & ? & _)]]]; done.
  - rewrite F3, F4. exact I9.
  - exact D1.
  - intros log Hl Hi. destruct (D2 log Hl Hi) as (? & m & Hv & Hm). split; [done|]. exists m.
    split; [done|]. eapply synced_ext; [|exact Hd|exact Hm].
    intros k. destruct (entries_ext (is_state sp) st' He) as (-> & _). done.
Qed.

Lemma keep_unwritten s permits X st2 permits2 Y sp err st3 permits' :
  to_write s permits X st2 permits2 Y -> persist_locked (s <| is_state := st2 |>) = (Err err, sp) ->
  state_inv st3 permits' -> permits_ok s permits' (X ∩ Y) -> good st3 ->
  within s.(is_per_principal_capacity) s.(is_global_capacity) (store_keys st3) ->
  (guarded st2 Y -> guarded st3 (X ∩ Y)) ->
  (forall m, disk_ok X m -> synced m s.(is_state) -> presynced m st2 ->
     sp.(is_state) = st2 -> synced m st3) ->
  world_inv (MkWorld (sp <| is_state := st3 |>) permits' (X ∩ Y)).
Proof.
  intros Htw Hp Hst Hpm Hg Hw Hgd Hsy.
  pose proof (to_write_disk _ _ _ _ _ _ _ _ Htw Hp) as [D1 D2].
  pose proof (persist_frame _ _ _ Hp) as (Fe & Fc & _ & F1 & F2 & _ & F3 & F4). simpl in *.
  destruct Htw as [[I1 I2 I3 I4 I5 I6 I9 I7 I8] A B C D E F]. cbn [w_store w_permits w_issued] in *.
  assert (integrity_issue sp = None -> sp = s <| is_state := st2 |>) as Hsame.
  { intros Hi. destruct D2 as [?|[? Hx]]; [done|congruence]. }
  split; simpl.
  - done.
  - intros pm Hin. destruct (Hpm pm Hin) as [-> ?]. split; [|done]. by apply bool_decide_ext.
  - rewrite F1, F2, F4. done.
  - by rewrite F1, F2.
  - done.
  - intros Hi. change (integrity_issue sp = None) in Hi. pose proof (Hsame Hi) as Hx. apply Hgd, D.
    rewrite Hx in Hi. exact Hi.
  - rewrite F3, F4. exact I9.
  - exact D1.
  - intros log Hl Hi. change (integrity_issue sp = None) in Hi. pose proof (Hsame Hi) as Hx.
    rewrite Hx in Hl, Hi. destruct (I8 log Hl Hi) as (? & m & Hv & Hm). split; [done|]. exists m.
    split; [done|]. pose proof (I7 _ _ Hl Hv) as Hdk. apply Hsy; [done|done|by apply E|].
    by rewrite Hx.
Qed.

(** ** Looking up *)

Lemma keep_sheds s permits X st' :
  world_inv (MkWorld s permits X) -> sheds evictable s.(is_state) st' ->
  world_inv (MkWorld (s <| is_state := st' |>) permits X).
Proof.
  intros W Hs. eapply keep_state; [done|..].
  - eapply state_inv_sheds; [done|apply W].
  - exact (wi_durable _ W).
  - done.
  - apply store_keys_sub; [apply W|eapply sheds_unique; [done|apply W]|].
    intros k [e He]. exists e. by eapply sheds_lookup.
  - eapply good_sheds; [done|apply W].
  - by apply guarded_sheds.
  - intros m _. by apply synced_sheds.
Qed.

Lemma touched_evictable e e' : touched e e' -> evictable e' <-> evictable e.
Proof. intros (_ & E & _). unfold evictable, entry_is_evictable. by rewrite E. Qed.

Lemma keep_lookup s permits X args now ph st' :
  world_inv (MkWorld s permits X) -> reserve_lookup args now s.(is_state) = (ph, st') ->
  world_inv (MkWorld (s <| is_state := st' |>) permits X).
Proof.
  intros W E. pose proof (wi_state _ W) as I. simpl in I.
  pose proof (state_inv_cleanup now _ _ I) as Hs. pose proof (keep_sheds _ _ _ _ W Hs) as W1.
  apply reserve_lookup_spec in E as (Hu & Hc & Hm); [|apply I].
  rewrite <-(sh_channels _ _ _ Hs) in Hc, Hm. set (st1 := cleanup_expired now (is_state s)) in *.
  clearbody st1. clear W I Hs. set (s1 := s <| is_state := st1 |>) in *.
  change (s <| is_state := st' |>) with (s1 <| is_state := st' |>).
  assert (is_state s1 = st1) as Es by done. clearbody s1. clear s. subst st1.
  pose proof (wi_state _ W1) as I. simpl in I.
  destruct (entry_at (is_state s1) (args_key args)) as [e|] eqn:Ek.
  - destruct Hm as (_ & e' & Ht & Hup & Hd).
    assert (forall k, is_Some (entry_at st' k) <-> is_Some (entry_at (is_state s1) k)) as Hdom.
    { intros k. destruct (decide (k = args_key args)) as [->|Hne].
      - rewrite (proj1 Hup), Ek. by split.
      - by rewrite (proj2 Hup). }
    pose proof Ht as (T1 & T2 & T3 & T4 & T5).
    eapply keep_state; [done|..].
    + eapply state_inv_touch; [exact I|exact Hu|exact Hup|exact Ek|done..].
    + exact (wi_durable _ W1).
    + done.
    + apply store_keys_sub; [apply I|done|]. intros k. apply Hdom.
    + eapply good_updates; [exact Hup| |apply W1]. intros e0 [= <-].
      destruct (wi_good _ W1 _ _ Ek) as [G1 G2]. split; [done|].
      intros o b. rewrite T2. apply G2.
    + intros Hg. eapply guarded_updates; [exact Hup| |].
      * intros Hk. exists e'. split; [done|]. destruct (Hg _ Hk) as (e0 & He0 & Hne).
        rewrite (touched_evictable _ _ Ht). congruence.
      * eapply guarded_mono; [|exact Hg]. set_solver.
    + intros m Hdk Hsy. destruct Hd as [[-> Hd]|Hd].
      * eapply synced_ext; [|exact Hd|exact Hsy]. intros k.
        destruct (decide (k = args_key args)) as [->|Hne]; [|by apply (proj2 Hup)].
        rewrite (proj1 Hup). done.
      * eapply synced_writes; [split; [exact Hu|exact Hup|by left]|set_solver|done|..].
        -- intros e0 [= <-]. rewrite T2. destruct Hsy as [_ Hsy]. by apply Hsy.
        -- intros k' e0 _. apply Hsy.
        -- apply Hsy.
  - destruct Hm as (_ & He & Hd).
    destruct (entries_ext (is_state s1) st' He) as (Ea & _ & Ek').
    eapply keep_state; [done|..].
    + eapply state_inv_ext; [exact He|exact Hc|done].
    + exact (wi_durable _ W1).
    + done.
    + by rewrite Ek'.
    + intros k e. rewrite Ea. apply W1.
    + intros Hg k. rewrite Ea. apply Hg.
    + intros m _. by apply synced_ext.
Qed.

(** ** Giving a permit back *)

Lemma filter_all {A} (Q : A -> Prop) `{forall x, Decision (Q x)} (l : list A) :
  (forall x, x ∈ l -> Q x) -> filter Q l = l.
Proof.
  induction l as [|x l IH]; intros HQ; [done|]. rewrite filter_cons_True by (apply HQ; by left).
  f_equal. apply IH. intros y Hy. apply HQ. by right.
Qed.

Lemma without_perm pm permits :
  NoDup (permit_key <$> permits) -> pm ∈ permits -> permits ≡ₚ pm :: without pm permits.
Proof.
  unfold without. induction permits as [|q permits IH]; intros Hn Hin; [by apply not_elem_of_nil in Hin|].
  csimpl in Hn. apply NoDup_cons in Hn as [Hq Hn]. apply elem_of_cons in Hin as [->|Hin].
  - rewrite filter_cons_False by (intros Hx; by apply Hx). f_equiv.
    assert (filter (fun x => permit_key x <> permit_key q) permits = permits) as ->; [|done].
    apply filter_all. intros x Hx Hk. apply Hq. rewrite <-Hk. by apply list_elem_of_fmap_2.
  - rewrite filter_cons_True.
    + rewrite (IH Hn Hin) at 1. apply Permutation_swap.
    + intros Hk. apply Hq. rewrite Hk. by apply list_elem_of_fmap_2.
Qed.

Lemma without_elem pm q permits : q ∈ without pm permits -> q ∈ permits /\ permit_key q <> permit_key pm.
Proof. unfold without. rewrite list_elem_of_filter. tauto. Qed.

Lemma permits_ok_without s permits X pm Y :
  permits_ok s permits X -> X ∖ {[permit_key pm]} ⊆ Y -> permits_ok s (without pm permits) Y.
Proof.
  intros Hp Hs q Hq. apply without_elem in Hq as [Hq Hne]. destruct (Hp q Hq) as [? ?].
  split; [done|]. apply Hs. set_solver.
Qed.

Lemma reserved_expires st permits k e :
  state_inv st permits -> entry_at st k = Some e -> is_reserved e -> e.(en_expires_at) = None.
Proof.
  intros I He Hr. destruct (si_lasting _ _ I k e He) as [Hv|?]; [|done].
  by destruct (evictable_not_reserved e Hv).
Qed.

Lemma unresolved_fine k e :
  e.(en_state) = UnresolvedEntry -> e.(en_expires_at) = None -> valid_key k.2 ->
  (~ is_reserved e) /\ lasting e /\ good_entry k e /\ ~ evictable e.
Proof.
  intros Hs Hx Hv. split_and!.
  - intros (g & c & E). congruence.
  - by right.
  - split; [done|]. intros o b E. congruence.
  - unfold evictable, entry_is_evictable. by rewrite Hs.
Qed.

Lemma alter_other {A} (f : A -> A) (l : list A) (c c' : nat) : c' <> c -> alter f c l !! c' = l !! c'.
Proof. intros Hne. by apply list_lookup_alter_ne. Qed.

(** The keys after one of them changes that was there. *)
Lemma store_keys_writes st st' k o e :
  keys_unique st -> writes st st' k o -> entry_at st k = Some e -> store_keys st' ⊆ store_keys st.
Proof.
  intros Hu [Hu' [A B] _] He. apply store_keys_sub; [done|done|]. intros k' Hk'.
  destruct (decide (k' = k)) as [->|Hne]; [by exists e|by rewrite <-B].
Qed.

Lemma keep_drop s permits X pm :
  world_inv (MkWorld s permits X) -> pm ∈ permits ->
  world_inv (MkWorld (drop_permit pm s) (without pm permits)
               (if pm.(ip_durable) then X else X ∖ {[permit_key pm]})).
Proof.
  intros W Hpm. pose proof (wi_state _ W) as I. simpl in I.
  destruct (drop_permit_spec _ _ _ I Hpm) as (st' & e & c & -> & He & Hr & Hw & Hd & Hc).
  pose proof (without_perm _ _ (si_permits _ _ I) Hpm) as Hperm.
  assert (is_reserved e) as Hres by (destruct Hr as (_ & _ & ?); by eexists _, _).
  pose proof (reserved_expires _ _ _ _ I He Hres) as Hx.
  pose proof (proj1 (wi_good _ W _ _ He)) as Hv.
  pose proof (unresolved_fine (permit_key pm) (e <| en_state := UnresolvedEntry |>) eq_refl Hx Hv)
    as (U1 & U2 & U3 & U4).
  assert (permit_key pm ∈ X) as HX by (by apply (wi_durable _ W)).
  eapply keep_state; [exact W|..].
  - eapply state_inv_release; [exact I|exact Hperm|exact He|exact Hr|apply Hw|apply Hw|..].
    + intros e'. destruct (ip_durable pm); [|done]. by intros [= <-].
    + intros c' Hne. rewrite Hc. by apply alter_other.
  - eapply permits_ok_without; [exact (wi_durable _ W)|]. destruct (ip_durable pm); set_solver.
  - destruct (ip_durable pm); set_solver.
  - eapply store_keys_writes; [apply I|exact Hw|exact He].
  - eapply good_updates; [apply Hw| |apply W]. intros e'. destruct (ip_durable pm); [|done].
    by intros [= <-].
  - intros Hg. eapply guarded_updates; [apply Hw| |].
    + intros Hk. destruct (ip_durable pm); [by eexists|set_solver].
    + eapply guarded_mono; [|exact Hg]. destruct (ip_durable pm); set_solver.
  - intros m Hdk [Hp Hsy]. destruct (do_issued _ _ Hdk _ HX) as (d & Hm & _).
    eapply synced_writes; [exact Hw|done|by exists d|..|done].
    + intros e' _. left. by exists d.
    + intros k' e' _. apply Hsy.
Qed.

Lemma world_inv_mono s permits X Y :
  world_inv (MkWorld s permits X) -> Y ⊆ X -> permits_ok s permits Y ->
  world_inv (MkWorld s permits Y).
Proof.
  intros W Hs Hp. assert (s <| is_state := s.(is_state) |> = s) as Es by (by destruct s).
  rewrite <-Es. eapply keep_state; [exact W|apply W|exact Hp|done|done|apply W| |done].
  by apply guarded_mono.
Qed.

Lemma writes_entries st st2 st' k o :
  writes st st2 k o -> st'.(ss_entries) = st2.(ss_entries) -> keys_unique st' /\ updates st st' k o.
Proof.
  intros [Hu [A B] _] He. destruct (entries_ext st2 st' He) as (Ea & Eb & _). split.
  - intros p. by rewrite Eb.
  - split; [by rewrite Ea|]. intros k' Hne. by rewrite Ea, B.
Qed.

(** Apart from channel [c], the channels are the same. *)
Definition same_but (c : ChannelId) st st' : Prop :=
  forall c', c' <> c -> st'.(ss_channels) !! c' = st.(ss_channels) !! c'.

(** The end of a step that uses up a permit, after its write. *)
Definition release_end pm (c : ChannelId) (rp : result unit IoError) (sp s' : store) : Prop :=
  match rp with
  | Ok _ => exists st', s' = sp <| is_state := st' |> /\ st'.(ss_entries) = sp.(is_state).(ss_entries)
              /\ st'.(ss_dirty) = sp.(is_state).(ss_dirty) /\ same_but c sp.(is_state) st'
  | Err _ => exists st3 t, s' = sp <| is_state := st3 |> /\ t.(en_state) = UnresolvedEntry
              /\ t.(en_expires_at) = None /\ writes sp.(is_state) st3 (permit_key pm) (Some t)
              /\ st3.(ss_dirty) = sp.(is_state).(ss_dirty) /\ same_but c sp.(is_state) st3
  end.

Section Release.
Context (s : store) (permits : list IdempotencyPermit) (X Y : gset Key) (pm : IdempotencyPermit)
  (e : entry) (c : ChannelId) (st2 : state) (o : option entry).
Hypothesis W : world_inv (MkWorld s permits X).
Hypothesis Hpm : pm ∈ permits.
Hypothesis He : entry_at s.(is_state) (permit_key pm) = Some e.
Hypothesis Hr : reserved_for pm e c.
Hypothesis Hw : writes s.(is_state) st2 (permit_key pm) o.
Hypothesis Hd : permit_key pm ∈ st2.(ss_dirty).
Hypothesis Hc : same_but c s.(is_state) st2.
Hypothesis Hnew : forall e', o = Some e' -> (~ is_reserved e') /\ lasting e' /\ good_entry (permit_key pm) e'.
Hypothesis HY : Y ⊆ X /\ X ∖ {[permit_key pm]} ⊆ Y.
Hypothesis Hprot : permit_key pm ∈ Y -> exists e', o = Some e' /\ ~ evictable e'.

Lemma issued_in_log m : disk_ok X m -> is_Some (m !! permit_key pm).
Proof using W Hpm.
  intros Hdk. destruct (do_issued _ _ Hdk (permit_key pm)) as (d & Hm & _); [|by exists d].
  by apply (wi_durable _ W).
Qed.

Lemma release_state st' o' :
  keys_unique st' -> updates s.(is_state) st' (permit_key pm) o' -> same_but c s.(is_state) st' ->
  (forall e', o' = Some e' -> (~ is_reserved e') /\ lasting e') ->
  state_inv st' (without pm permits).
Proof using W Hpm He Hr.
  intros Hu Hup Hch Ho. pose proof (wi_state _ W) as I.
  eapply state_inv_release; [exact I|by apply without_perm; [apply I|]|exact He|exact Hr|exact Hu|
    exact Hup|exact Ho|exact Hch].
Qed.

Lemma release_to_write : to_write s permits X st2 (without pm permits) Y.
Proof using All.
  split.
  - exact W.
  - eapply release_state; [apply Hw|apply Hw|exact Hc|]. intros e' E. by destruct (Hnew e' E) as (? & ? & _).
  - eapply good_updates; [apply Hw| |apply W]. intros e' E. by destruct (Hnew e' E) as (? & ? & ?).
  - eapply within_mono; [|apply W]. eapply store_keys_writes; [apply W|exact Hw|exact He].
  - intros Hi. eapply guarded_updates; [apply Hw|exact Hprot|].
    eapply guarded_mono; [|by apply (wi_guard _ W)]. simpl. set_solver.
  - intros m Hdk [Hp _]. eapply presynced_writes; [exact Hw|exact Hd| |exact Hp].
    intros _. by apply issued_in_log.
  - intros k Hk. left. set_solver.
Qed.

Lemma keep_release rp sp s' :
  persist_locked (s <| is_state := st2 |>) = (rp, sp) -> release_end pm c rp sp s' ->
  world_inv (MkWorld s' (without pm permits) Y).
Proof using All.
  intros Hp Hend. pose proof release_to_write as Htw.
  pose proof (persist_frame _ _ _ Hp) as (Fe & Fc & _). simpl in Fe, Fc.
  pose proof (permits_ok_without s permits X pm Y (wi_durable _ W) (proj2 HY)) as Hpk.
  destruct (writes_entries _ _ (is_state sp) _ _ Hw Fe) as [Hus Hups].
  destruct rp as [[]|err]; simpl in Hend.
  - destruct Hend as (st' & -> & E1 & E2 & E3).
    destruct (writes_entries _ _ st' _ _ Hw) as [Hu' Hup']; [congruence|].
    eapply keep_written; [exact Htw|exact Hp|exact E1|exact E2| |exact Hpk].
    eapply release_state; [exact Hu'|exact Hup'| |].
    + intros c' Hne. rewrite E3, Fc by done. by apply Hc.
    + intros e' E. by destruct (Hnew e' E) as (? & ? & _).
  - destruct Hend as (st3 & t & -> & T1 & T2 & T3 & E2 & E3).
    pose proof (proj1 (wi_good _ W _ _ He)) as Hv.
    destruct (unresolved_fine (permit_key pm) t T1 T2 Hv) as (U1 & U2 & U3 & U4).
    pose proof (updates_chain _ _ _ _ _ _ Hups (wr_entry _ _ _ _ T3)) as Hup3.
    assert (Y = X ∩ Y) as -> by (apply set_eq; set_solver).
    eapply keep_unwritten; [exact Htw|exact Hp|..].
    + eapply release_state; [apply T3|exact Hup3| |].
      * intros c' Hne. rewrite E3, Fc by done. by apply Hc.
      * by intros e' [= <-].
    + intros q Hq. destruct (Hpk q Hq). split; [done|]. set_solver.
    + eapply good_updates; [exact Hup3| |apply W]. by intros e' [= <-].
    + eapply within_mono; [|apply W]. apply store_keys_sub; [apply W|apply T3|].
      intros k Hk. destruct (decide (k = permit_key pm)) as [->|Hne]; [by exists e|].
      by rewrite <-(proj2 Hup3).
    + intros Hg. assert (guarded (is_state sp) Y) as Hg'.
      { intros k Hk. destruct (entries_ext st2 (is_state sp) Fe) as (-> & _). by apply Hg. }
      eapply guarded_updates; [apply T3|by exists t|]. eapply guarded_mono; [|exact Hg']. set_solver.
    + intros m Hdk [_ Hsy] Hpre Esp. rewrite Esp in T3, E2.
      eapply synced_writes; [exact T3|by rewrite E2|done|..|exact Hpre].
      * intros e' [= <-]. by right.
      * intros k' e' Hne Hk'. apply Hsy. by rewrite <-(proj2 (wr_entry _ _ _ _ Hw)).
Qed.
End Release.

Lemma same_but_alter f c st st' :
  st'.(ss_channels) = alter f c st.(ss_channels) -> same_but c st st'.
Proof. intros E c' Hne. rewrite E. by apply alter_other. Qed.

Lemma keep_finish s permits X pm outcome now :
  world_inv (MkWorld s permits X) -> pm ∈ permits ->
  world_inv (MkWorld (finish pm outcome now s).2 (without pm permits)
               (if settles_key outcome then X ∖ {[permit_key pm]} else X)).
Proof.
  intros W Hpm. destruct (finish pm outcome now s) as [r s'] eqn:E.
  pose proof (wi_state _ W) as I. simpl in I |- *.
  assert (forall Y : gset Key, Y = (if settles_key outcome then X ∖ {[permit_key pm]} else X) ->
    Y ⊆ X /\ X ∖ {[permit_key pm]} ⊆ Y) as HY.
  { intros Y ->. destruct (settles_key outcome); set_solver. }
  specialize (HY _ eq_refl). apply (finish_spec _ _ _ _ permits) in E; [|done|done].
  destruct E as [(Hi & _ & ->)|(st2 & e & c & u & rp & sp & Hi & He & Hr & Hw & Hd & Hc & Hp & Hend)].
  - pose proof (keep_drop _ _ _ _ W Hpm) as Wd. pose proof (wi_durable _ W pm Hpm) as [Hdur _].
    simpl in Hdur. rewrite bool_decide_eq_true_2 in Hdur.
    2: { unfold integrity_issue in Hi. destruct (is_integrity_issue s) eqn:Eq.
         - apply (wi_issue _ W). simpl. by rewrite Eq.
         - destruct (is_durable s); [done|]. by destruct Hi. }
    rewrite Hdur in Wd. eapply world_inv_mono; [exact Wd|apply HY|].
    assert (is_durable (drop_permit pm s) = is_durable s) as Eq by done.
    unfold permits_ok. rewrite Eq. eapply (permits_ok_without s permits X); [exact (wi_durable _ W)|apply HY].
  - assert (is_reserved e) as Hres by (destruct Hr as (_ & _ & ?); by eexists _, _).
    pose proof (reserved_expires _ _ _ _ I He Hres) as Hx.
    eapply (keep_release s permits X _ pm e c st2); [exact W|exact Hpm|exact He|exact Hr|exact Hw|
      exact Hd|intros c' _; by rewrite Hc| |exact HY| |exact Hp|].
    + unfold finished_entry. destruct (releases_reservation outcome); [done|]. intros e' [= <-].
      split_and!.
      * intros (g & c0 & Eq). done.
      * unfold lasting, evictable, entry_is_evictable. simpl.
        destruct (safety_relevant outcome); [by right|by left].
      * split; [exact (proj1 (wi_good _ W _ _ He))|]. simpl. by intros o b [= <- <-].
    + unfold finished_entry, settles_key. destruct (releases_reservation outcome); simpl; [set_solver|].
      destruct (safety_relevant outcome) eqn:Es; simpl; [|set_solver]. intros _.
      eexists. split; [reflexivity|]. done.
    + destruct rp as [[]|err]; simpl.
      * destruct Hend as [_ ->]. eexists. split; [reflexivity|]. split; [done|]. split; [done|].
        by eapply same_but_alter.
      * destruct Hend as (_ & st3 & t & T1 & T2 & T3 & T4 & T5 & ->).
        eexists _, t. split; [reflexivity|]. split; [done|]. split; [done|]. split; [exact T3 || (destruct T3; split; done)|].
        split; [done|]. intros c' Hne. rewrite <-T4. by apply alter_other.
Qed.

Lemma keep_abandon s permits X pm :
  world_inv (MkWorld s permits X) -> pm ∈ permits ->
  world_inv (MkWorld (abandon pm s) (without pm permits) (X ∖ {[permit_key pm]})).
Proof.
  intros W Hpm. pose proof (wi_state _ W) as I. simpl in I.
  destruct (abandon_spec pm s permits I Hpm) as (st2 & e & c & rp & sp & He & Hr & Hw & Hd & Hc & Hp & Hend).
  eapply (keep_release s permits X _ pm e c st2 None); [exact W|exact Hpm|exact He|exact Hr|exact Hw|
      exact Hd|by eapply same_but_alter|done|set_solver|set_solver|exact Hp|].
  destruct rp as [[]|err]; simpl.
  - exists (is_state sp). rewrite Hend. split; [by destruct sp|]. done.
  - destruct Hend as (st3 & t & T1 & T2 & T3 & T4 & T5 & ->).
    exists st3, t. split; [done|]. split; [done|]. split; [done|]. split; [done|].
    split; [done|]. intros c' Hne. by rewrite T4.
Qed.

(** ** Acquiring *)

Lemma eta_store s : s <| is_state := s.(is_state) |> = s.
Proof. by destruct s. Qed.

(** A key that has been issued is not handed out, as long as the store accepts writes. *)
Lemma guarded_not_acquired s permits X st1 k :
  world_inv (MkWorld s permits X) -> integrity_issue s = None ->
  sheds evictable s.(is_state) st1 -> entry_at st1 k = None -> k ∉ X.
Proof.
  intros W Hi Hs Hn HX. destruct (wi_guard _ W Hi k HX) as (e & He & Hne). simpl in He.
  pose proof (sheds_keeps _ _ _ _ _ Hs He Hne). congruence.
Qed.

Lemma keep_acquire s permits X args now r s' :
  world_inv (MkWorld s permits X) -> valid_key args.(ra_key) -> reserve_acquire args now s = (r, s') ->
  match r with
  | Ok (Some pm) => (args_key args ∉ X) /\ permit_key pm = args_key args
                    /\ world_inv (MkWorld s' (pm :: permits) ({[args_key args]} ∪ X))
  | _ => world_inv (MkWorld s' permits X)
  end.
Proof.
  intros W Hv E. pose proof (wi_state _ W) as I. simpl in I.
  apply (reserve_acquire_spec _ _ _ permits) in E; [|done]. cbv zeta in E.
  destruct E as [(Hr & st1 & Hs & ->)|(st1 & st2 & e & pm & rp & sp & Hi & Hs & Hn & Hw & Hd & Hc & Hg & Hb
    & Hx & Hrf & Hk & Hdur & _ & _ & Hp & Hend)].
  { pose proof (keep_sheds _ _ _ _ W Hs) as W1. destruct r as [[pm|]|]; try done. by destruct (Hr pm). }
  set (k := args_key args) in *.
  pose proof (keep_sheds _ _ _ _ W Hs) as W1. pose proof (state_inv_sheds _ _ _ Hs I) as I1.
  assert (lasting e) as Hl by (by right).
  assert (is_reserved e) as Hres by (destruct Hrf as (_ & _ & ?); by eexists _, _).
  assert (~ evictable e) as Hne by (intros Hv'; by apply (evictable_not_reserved e)).
  assert (good_entry k e) as Hge.
  { split; [done|]. intros o b Eq. destruct Hres as (? & ? & ?). congruence. }
  assert (state_inv st2 (pm :: permits)) as I2.
  { eapply state_inv_add; [exact I1|apply Hw|apply Hw|exact Hn|exact Hl|exact Hc|exact Hk|exact Hrf]. }
  assert (within (is_per_principal_capacity s) (is_global_capacity s) (store_keys st2)) as Hin.
  { apply within_store; [apply Hw|done|]. intros p. destruct (Hb p) as [?|Hle]; [done|].
    destruct (within_bounds _ _ _ (si_unique _ _ I) (wi_within _ W)) as [_ Hbs]. specialize (Hbs p).
    simpl in Hbs. pose proof (sheds_length _ _ _ p Hs). lia. }
  assert (to_write s permits X st2 (pm :: permits) ({[k]} ∪ X)) as Htw.
  { split.
    - exact W.
    - exact I2.
    - eapply good_updates; [apply Hw| |apply W1]. by intros e' [= <-].
    - exact Hin.
    - intros _. eapply guarded_updates; [apply Hw|by exists e|].
      eapply guarded_mono; [|apply (wi_guard _ W1 Hi)]. simpl. set_solver.
    - intros m Hdk Hsy. eapply presynced_writes; [exact Hw|exact Hd|done|].
      eapply synced_sheds in Hsy as [? _]; [done|exact Hs].
    - intros k' [->%elem_of_singleton|?]%elem_of_union; auto. }
  pose proof (persist_frame _ _ _ Hp) as (Fe & Fc & _). simpl in Fe, Fc.
  destruct rp as [[]|err].
  - destruct Hend as [-> ->]. split; [exact (guarded_not_acquired _ _ _ _ _ W Hi Hs Hn)|]. split; [done|].
    rewrite <-(eta_store sp). eapply keep_written; [exact Htw|exact Hp|done|done|..].
    + eapply state_inv_ext; [exact Fe|exact Fc|exact I2].
    + intros q [->|Hq]%elem_of_cons; [rewrite Hk; split; [done|set_solver]|].
      destruct (wi_durable _ W q Hq). split; [done|set_solver].
  - destruct Hend as (Hr & st3 & -> & T3 & E3 & E2).
    enough (world_inv (MkWorld (sp <| is_state := st3 |>) permits X)) as Wn.
    { destruct r as [[pm'|]|]; try done. by destruct (Hr pm'). }
    assert (X = X ∩ ({[k]} ∪ X)) as Eq by (apply set_eq; set_solver). rewrite Eq. clear Eq.
    pose proof (unresolved_fine k (e <| en_state := UnresolvedEntry |>) eq_refl Hx Hv) as (U1 & U2 & U3 & U4).
    destruct (writes_entries _ _ (is_state sp) _ _ Hw Fe) as [Hus Hups].
    pose proof (updates_chain _ _ _ _ _ _ Hups (wr_entry _ _ _ _ T3)) as Hup3.
    eapply keep_unwritten; [exact Htw|exact Hp|..].
    + eapply (state_inv_add st1 st3); [exact I1|apply T3|exact Hup3|exact Hn|exact U2|congruence|exact U1].
    + intros q Hq. destruct (wi_durable _ W q Hq). split; [done|]. simpl in *. set_solver.
    + eapply good_updates; [exact Hup3| |apply W1]. by intros e' [= <-].
    + eapply within_mono; [|exact Hin]. apply store_keys_sub; [apply Hw|apply T3|].
      intros k' Hk'. destruct (decide (k' = k)) as [->|Hne']; [exists e; apply Hw|].
      rewrite (proj2 Hup3) in Hk' by done. by rewrite (proj2 (wr_entry _ _ _ _ Hw)).
    + intros Hgd. assert (guarded (is_state sp) ({[k]} ∪ X)) as Hg'.
      { intros k' Hk'. destruct (entries_ext st2 (is_state sp) Fe) as (-> & _). by apply Hgd. }
      eapply guarded_updates; [apply T3|by eexists|]. eapply guarded_mono; [|exact Hg']. set_solver.
    + intros m Hdk Hsy Hpre Esp. rewrite Esp in T3, E2.
      eapply synced_sheds in Hsy as [_ Hsy]; [|exact Hs].
      eapply synced_writes; [exact T3|by rewrite E2|done|..|exact Hpre].
      * intros e' [= <-]. by right.
      * intros k' e' Hne' Hk'. apply Hsy. by rewrite <-(proj2 (wr_entry _ _ _ _ Hw)).
Qed.

(** ** Opening *)

Section Restore.
Context (resolve : JsonValue -> result (option O) IoError) (now : Time).

Definition lapsed (d : DurableEntry) : bool :=
  match d.(de_expires_at) with Some t => t <=? now | None => false end.

Definition restored_entry (d : DurableEntry) : entry :=
  let restored := restore_state resolve d.(de_state) in
  MkEntry d.(de_key) d.(de_operation) d.(de_sha256) restored
    (if keeps_forever restored then None else d.(de_expires_at)) d.(de_last_used).

Record restored (es : list DurableEntry) st : Prop := MkRestored {
  rs_unique : keys_unique st;
  rs_channels : st.(ss_channels) = [];
  rs_entry : forall k e, entry_at st k = Some e <->
    exists d, d ∈ es /\ durable_key d = k /\ lapsed d = false /\ e = restored_entry d;
  rs_dirty : forall k, k ∈ st.(ss_dirty) -> exists d, d ∈ es /\ durable_key d = k;
  rs_lapsed : forall d, d ∈ es -> lapsed d = true -> durable_key d ∈ st.(ss_dirty);
}.

Lemma restore_all es :
  NoDup (durable_key <$> es) ->
  restored es (fold_left (restore_entry resolve now) es (StoreState_default, false)).1.
Proof.
  induction es as [|d es IH] using rev_ind; intros Hn.
  { split; try done.
    - intros p. apply NoDup_nil_2.
    - intros k e. split; [done|]. intros (d & Hd & _). by apply not_elem_of_nil in Hd.
    - intros d Hd. by apply not_elem_of_nil in Hd. }
  rewrite fmap_app in Hn. apply NoDup_app in Hn as (Hn & Hdis & _). specialize (IH Hn).
  rewrite fold_left_app. simpl. destruct (fold_left _ _ _) as [st pr]. simpl in IH.
  destruct IH as [A B C D E]. unfold restore_entry. fold (lapsed d).
  assert (durable_key d ∉ durable_key <$> es) as Hfresh.
  { intros Hin. apply (Hdis _ Hin). csimpl. by left. }
  assert (entry_at st (durable_key d) = None) as Hnone.
  { apply eq_None_not_Some. intros [e He]. apply C in He as (d' & Hd' & Hk & _).
    apply Hfresh. rewrite <-Hk. by apply list_elem_of_fmap_2. }
  destruct (lapsed d) eqn:El.
  - simpl. split; [exact A|exact B|..].
    + intros k e. change (entry_at (mark_dirty (durable_key d) st) k) with (entry_at st k).
      rewrite C. split; intros (d' & Hd' & Hk & Hl & He).
      * exists d'. split_and!; [apply elem_of_app; by left|done..].
      * apply elem_of_app in Hd' as [?|Heq%list_elem_of_singleton]; [eauto|congruence].
    + intros k Hk. unfold mark_dirty in Hk. simpl in Hk. apply elem_of_union in Hk as [->%elem_of_singleton|Hk].
      * exists d. split; [set_solver|done].
      * destruct (D k Hk) as (d' & ? & ?). exists d'. split; [set_solver|done].
    + intros d' [Hd'|Heq%list_elem_of_singleton]%elem_of_app Hl; unfold mark_dirty; simpl; [|set_solver].
      specialize (E d' Hd' Hl). set_solver.
  - cbv zeta. set (st1 := if _ && _ then mark_dirty _ st else st).
    assert (st1.(ss_entries) = st.(ss_entries) /\ st1.(ss_channels) = st.(ss_channels)
      /\ st.(ss_dirty) ⊆ st1.(ss_dirty) /\ (forall k, k ∈ st1.(ss_dirty) -> k ∈ st.(ss_dirty) \/ k = durable_key d))
      as (S1 & S2 & S3 & S4).
    { unfold st1. destruct (_ && _); unfold mark_dirty; simpl; split_and!; try done; set_solver. }
    destruct (entries_ext st st1 S1) as (Ea & Eb & _).
    assert (keys_unique st1) as Hu1 by (intros p; rewrite Eb; apply A).
    clearbody st1. fold (restored_entry d). cbn [fst].
    assert (entry_at st1 (de_principal_id d, en_key (restored_entry d)) = None) as Hn1 by (rewrite Ea; exact Hnone).
    pose proof (add_entry st1 (de_principal_id d) (restored_entry d) Hu1 Hn1) as (Hu2 & Hup & _).
    split.
    + exact Hu2.
    + change (ss_channels st1 = []). congruence.
    + intros k e. destruct (decide (k = durable_key d)) as [->|Hne].
      * transitivity (Some (restored_entry d) = Some e); [by rewrite <-(proj1 Hup)|]. split.
        -- intros [= <-]. exists d. split_and!; [set_solver|done..].
        -- intros (d' & [Hd'|Heq%list_elem_of_singleton]%elem_of_app & Hk & Hl & ->); [|by subst].
           destruct Hfresh. rewrite <-Hk. by apply list_elem_of_fmap_2.
      * transitivity (entry_at st k = Some e); [by rewrite <-Ea, <-(proj2 Hup)|]. rewrite C.
        split; intros (d' & Hd' & Hk & Hl & He).
        -- exists d'. split_and!; [apply elem_of_app; by left|done..].
        -- apply elem_of_app in Hd' as [?|Heq%list_elem_of_singleton]; [eauto|congruence].
    + intros k Hk. change (k ∈ ss_dirty st1) in Hk. destruct (S4 k Hk) as [Hk'| ->].
      * destruct (D k Hk') as (d' & ? & ?). exists d'. split; [set_solver|done].
      * exists d. split; [set_solver|done].
    + intros d' [Hd'|Heq%list_elem_of_singleton]%elem_of_app Hl; [|congruence].
      change (durable_key d' ∈ ss_dirty st1). apply S3. by apply E.
Qed.
End Restore.

Lemma state_inv_idle st :
  keys_unique st -> (forall k e, entry_at st k = Some e -> ~ is_reserved e /\ lasting e) ->
  state_inv st [].
Proof.
  intros Hu He. split; [done|apply NoDup_nil_2|..].
  - intros k e Hk Hr. by destruct (He k e Hk).
  - intros pm Hpm. by apply not_elem_of_nil in Hpm.
  - intros k e Hk. by destruct (He k e Hk).
  - intros k e g c Hk Hr. destruct (He k e Hk) as [Hn _]. destruct Hn. by exists g, c.
  - intros k k' e e' g g' c Hk _ Hr _. destruct (He k e Hk) as [Hn _]. destruct Hn. by exists g, c.
Qed.

(** What an entry of the log becomes. *)
Lemma restored_fine resolve k d :
  durable_key d = k -> durable_ok d ->
  let e := restored_entry resolve d in
  (~ is_reserved e) /\ lasting e /\ good_entry k e
  /\ (evictable e -> exists o, restore_state resolve d.(de_state) = Retained o false).
Proof.
  intros <- [Hv Hs]. unfold restored_entry, restore_state, keeps_forever, lasting, good_entry,
    retained_ok, evictable, entry_is_evictable, is_reserved. cbv zeta.
  destruct (de_state d) as [| |v]; simpl; [split_and!; [by intros (? & ? & ?)|by right|done|done|done]..|].
  destruct (resolve v) as [[o'|]|] eqn:Er; simpl;
    [|split_and!; [by intros (? & ? & ?)|by right|done|done|done]..].
  split_and!; [by intros (? & ? & ?)|..|done| |].
  - destruct (safety_relevant o'); [by right|by left].
  - by intros o0 b [= <- <-].
  - destruct (safety_relevant o'); [done|]. intros _. by exists o'.
Qed.

Lemma elem_resolved resolve es d o :
  d ∈ es -> restore_state resolve d.(de_state) = Retained o false -> durable_key d ∈ (resolved_keys resolve (Ok es)).*1.
Proof.
  intros Hd Hr. apply list_elem_of_fmap. exists (durable_key d, o). split; [done|]. apply list_elem_of_omap. exists d. by rewrite Hr.
Qed.

Lemma keep_restart s permits X resolve now log opened :
  world_inv (MkWorld s permits X) -> s.(is_durable) = Some log ->
  log_open now log = Some opened ->
  world_inv (MkWorld (open_durable resolve now opened) [] (X ∖ list_to_set (resolved_keys resolve opened.2).*1)).
Proof.
  intros W Hlog Ho. destruct opened as [log' [es|issue]].
  - apply open_ok in Ho as (Hok & m & Hv & Hv' & Hkm & Hes).
    pose proof (wi_safe _ W log m Hlog Hv) as D. simpl in D.
    assert (forall d, d ∈ es <-> m !! durable_key d = Some d) as Hin.
    { intros d. rewrite Hes, list_elem_of_fmap. split.
      - intros ([k d'] & -> & Hk%elem_of_map_to_list). simpl. by rewrite (Hkm _ _ Hk).
      - intros Hk. exists (durable_key d, d). split; [done|]. by apply elem_of_map_to_list. }
    assert (NoDup (durable_key <$> es)) as Hnd.
    { rewrite Hes.
      assert (durable_key <$> (map_to_list m).*2 = (map_to_list m).*1) as ->; [|apply NoDup_fst_map_to_list].
      rewrite <-list_fmap_compose. apply list_fmap_ext. intros i [k d] Hi. simpl.
      apply Hkm. apply elem_of_map_to_list. by eapply list_elem_of_lookup_2. }
    set (Y := X ∖ list_to_set (resolved_keys resolve (Ok es)).*1). assert (Y ⊆ X) as HYX by (unfold Y; set_solver).
    cbn [snd]. fold Y. unfold open_durable. pose proof (restore_all resolve now es Hnd) as Hrs.
    destruct (fold_left _ _ _) as [st protect]. simpl in Hrs. destruct Hrs as [R1 R2 R3 R4 R5].
    assert (forall k e, entry_at st k = Some e -> exists d, m !! k = Some d /\ durable_ok d
              /\ e = restored_entry resolve d) as Hat.
    { intros k e He. apply R3 in He as (d & Hd & <- & _ & ->). exists d. apply Hin in Hd.
      split; [done|]. split; [by eapply (do_entries _ _ D)|done]. }
    assert (forall k d, m !! k = Some d -> lapsed now d = false -> entry_at st k = Some (restored_entry resolve d)) as Hfind.
    { intros k d Hd Hl. apply R3. exists d. pose proof (Hkm _ _ Hd) as <-. rewrite Hin. done. }
    set (s0 := (IdempotencyStore_default <| is_durable := Some log' |> : store)).
    assert (state_inv st []) as Hst.
    { apply state_inv_idle; [done|]. intros k e He. destruct (Hat k e He) as (d & Hd & Hdk & ->).
      destruct (restored_fine resolve k d (Hkm _ _ Hd) Hdk) as (? & ? & _). done. }
    assert (synced m st) as Hsy.
    { split; [split|].
      - intros k Hk. split; [intros [e He]; destruct (Hat _ _ He) as (d & ? & _); by exists d|].
        intros [d Hd]. exists (restored_entry resolve d). apply Hfind; [done|].
        destruct (lapsed now d) eqn:El; [|done]. destruct Hk. rewrite <-(Hkm _ _ Hd).
        apply R5; [|done]. apply Hin. by rewrite (Hkm _ _ Hd).
      - intros k Hk _. destruct (R4 k Hk) as (d & Hd & <-). exists d. by apply Hin.
      - intros k e He. destruct (Hat _ _ He) as (d & ? & _). left. by exists d. }
    assert (world_inv (MkWorld (s0 <| is_state := st |>) [] Y)) as W0.
    { split; simpl.
      - done.
      - intros pm Hpm. by apply not_elem_of_nil in Hpm.
      - done.
      - eapply within_mono; [|apply (do_within _ _ D)]. intros k Hk.
        apply elem_store_keys in Hk as [e He]; [|done]. apply elem_of_dom.
        destruct (Hat _ _ He) as (d & ? & _). by exists d.
      - intros k e He. destruct (Hat k e He) as (d & Hd & Hdk & ->).
        destruct (restored_fine resolve k d (Hkm _ _ Hd) Hdk) as (_ & _ & ? & _). done.
      - intros _ k Hk. destruct (do_issued _ _ D k (HYX _ Hk)) as (d & Hd & Hx).
        exists (restored_entry resolve d). split.
        + apply Hfind; [done|]. unfold lapsed. by rewrite Hx.
        + destruct (restored_fine resolve k d (Hkm _ _ Hd) (do_entries _ _ D _ _ Hd)) as (_ & _ & _ & Hne).
          intros [o Ho']%Hne. apply (elem_of_difference X) in Hk as [_ Hk]. apply Hk, elem_of_list_to_set.
          rewrite <- (Hkm _ _ Hd). eapply elem_resolved; [|exact Ho']. apply Hin. by rewrite (Hkm _ _ Hd).
      - intros [? ?]. done.
      - intros l1 m1 [= <-] Hm1. assert (m1 = m) as -> by congruence. by eapply disk_ok_mono.
      - intros l1 [= <-] _. split; [done|]. by exists m. }
    destruct protect; [|exact W0].
    change (s0 <| is_state := st |>) with (s0 <| is_state := st |>) in W0.
    assert (to_write (s0 <| is_state := st |>) [] Y st [] Y) as Htw.
    { split; [exact W0|exact Hst|apply W0|apply W0|apply (wi_guard _ W0)| |by left].
      intros m1 _ [? _]. done. }
    destruct (persist_locked (s0 <| is_state := st |>)) as [[[]|err] sp] eqn:Hp.
    + rewrite <-(eta_store sp). eapply keep_written; [exact Htw|exact Hp|done|done| |].
      * pose proof (persist_frame _ _ _ Hp) as (Fe & Fc & _). eapply state_inv_ext; [exact Fe|exact Fc|done].
      * intros pm Hpm. by apply not_elem_of_nil in Hpm.
    + pose proof (to_write_disk _ _ _ _ _ _ _ _ Htw Hp) as [D1 _].
      pose proof (persist_frame _ _ _ Hp) as (Fe & Fc & _ & F1 & F2 & _ & F3 & F4). simpl in *.
      destruct (entries_ext _ _ Fe) as (Ea & Eb & Ek). simpl in Ea, Ek.
      assert (Y ∩ Y = Y) as EX by (apply set_eq; set_solver). rewrite EX in D1.
      split; simpl.
      * eapply state_inv_ext; [exact Fe|exact Fc|done].
      * intros pm Hpm. by apply not_elem_of_nil in Hpm.
      * by rewrite F1, F2.
      * rewrite F1, F2, Ek. apply (wi_within _ W0).
      * intros k e. rewrite Ea. apply (wi_good _ W0).
      * done.
      * intros _. rewrite F4. by eexists.
      * exact D1.
      * done.
  - pose proof (open_err _ _ _ _ Ho) as Hv. unfold open_durable.
    assert (forall k : Key, entry_at (O := O) StoreState_default k = None) as Hnone.
    { intros k. done. }
    split; simpl; try done.
    + apply state_inv_idle; [intros p; apply NoDup_nil_2|done].
    + intros pm Hpm. by apply not_elem_of_nil in Hpm.
    + intros l1 m1 [= <-] Hm1. eapply disk_ok_mono; [|apply (wi_safe _ W log m1 Hlog); congruence]. set_solver.
Qed.

(** ** Every step *)

Lemma fresh_inv w : fresh w -> world_inv w.
Proof.
  intros Hf. destruct Hf as [per global ttl Hp Hg|resolve now log Hok Hv]; split; simpl; try done;
    try (apply state_inv_idle; [intros p; apply NoDup_nil_2|done]);
    try (intros pm Hpm; by apply not_elem_of_nil in Hpm); try (by intros [? ?]).
  - intros l1 m1 [= <-] Hm1. assert (m1 = ∅) as -> by congruence. by split.
  - intros l1 [= <-] _. split; [done|]. exists ∅. split; [done|].
    split; [split|]; [by intros k _; split; intros [? ?]|by intros k Hk|by intros k e].
Qed.

Lemma valid_key_try (key : IdempotencyKey) : is_ok (IdempotencyKey_try_from key) = true -> valid_key key.
Proof. unfold valid_key, IdempotencyKey_try_from. by destruct (_ || _). Qed.

(** A permit that comes out of a call is for a key that had not been issued. *)
Lemma keep_reserve args utc_now ph s permits X ph' s' :
  world_inv (MkWorld s permits X) -> running ph = true -> valid_key args.(ra_key) ->
  reserve_step args utc_now ph s = (ph', s') ->
  match ph' with
  | Finished (Ok (Acquired pm)) => (args_key args ∉ X) /\ permit_key pm = args_key args
      /\ world_inv (MkWorld s' (pm :: permits) ({[args_key args]} ∪ X))
  | _ => world_inv (MkWorld s' permits X)
  end.
Proof.
  intros W Hr Hv E. destruct ph as [now|now|rx|rx|now|r]; [..|done]; unfold reserve_step in E.
  - destruct (ensure_writable _ s) as [[]  s0] eqn:Ew; apply ensure_writable_cases in Ew as [-> _];
      injection E as <- <-; done.
  - destruct (reserve_lookup args now (is_state s)) as [ph1 st] eqn:El. injection E as <- <-.
    pose proof (keep_lookup _ _ _ _ _ _ _ W El) as W'.
    apply reserve_lookup_spec in El as (_ & _ & Hm); [|apply (wi_state _ W)].
    destruct (entry_at _ (args_key args)) as [e|]; [|by destruct Hm as (-> & _)].
    destruct Hm as (-> & _). unfold lookup_answer. destruct (same_identity args e); [|done].
    by destruct (en_state e).
  - destruct (_ <? _); injection E as <- <-; done.
  - unfold reserve_poll in E. destruct (_ || _).
    + destruct (match ss_channels _ !! _ with Some c => _ | None => _ end); injection E as <- <-; done.
    + destruct (_ <=? _); injection E as <- <-; done.
  - destruct (reserve_acquire args now s) as [r s1] eqn:Ea.
    pose proof (keep_acquire _ _ _ _ _ _ _ W Hv Ea) as Hk.
    destruct r as [[pm|]|err]; injection E as <- <-; done.
Qed.

Lemma step_inv l w w' : world_inv w -> world_step l w = Some w' -> world_inv w'.
Proof.
  destruct w as [s permits X]. intros W E. destruct l as [args utc ph|pm o now|pm|pm|resolve now];
    cbn [world_step w_store w_permits w_issued] in E.
  - destruct (running ph) eqn:Hr; [|done]. destruct (is_ok _) eqn:Hk; [|done]. cbn [andb] in E.
    destruct (reserve_step args utc ph s) as [ph' s'] eqn:Es. injection E as <-.
    pose proof (keep_reserve _ _ _ _ _ _ _ _ W Hr (valid_key_try _ Hk) Es) as Hkeep.
    destruct ph' as [| | | | |[[pm|o]|err]]; try done. by destruct Hkeep as (_ & _ & ?).
  - case_bool_decide as Hp; [|done]. injection E as <-. by apply keep_finish.
  - case_bool_decide as Hp; [|done]. injection E as <-. by apply keep_abandon.
  - case_bool_decide as Hp; [|done]. injection E as <-. by apply keep_drop.
  - destruct (is_durable s) as [log|] eqn:Ed; [|done]. simpl in E.
    destruct (log_open now log) as [opened|] eqn:Eo; [|done]. injection E as <-.
    by eapply keep_restart.
Qed.

Lemma run_inv ls w w' :
  world_inv w -> world_run ls w = Some w' -> world_inv w'.
Proof.
  revert w. induction ls as [|l ls IH]; intros w W E; simpl in E; [by simplify_eq|].
  apply bind_Some in E as (w1 & E1 & E). eapply IH; [|exact E]. by eapply step_inv.
Qed.
End Keep.
