(* ===== verification/IdempotencyThms.v ===== *)
(** * What the idempotency store guarantees

    The theorems about the store of [Idempotency], over every sequence of steps of
    [IdempotencyWorld], with restarts from the durable log and writes that fail. *)

From S2P Require Import Prelude Text SkillTypes Receipt Job Interface Ledger Json Idempotency IdempotencyInv DurableLog IdempotencySteps IdempotencyWorld IdempotencyKeep.

Section Theorems.
Context {O P : Type} `{RetainedOutcome O, DurableLogLaws P, JsonLib, !RoomyLog P}.
Abbreviation store := (IdempotencyStore O P).
Abbreviation state := (StoreState O).
Abbreviation world := (World (O := O) (P := P)).
Implicit Types (s : store) (st : state) (k : Key) (pm : IdempotencyPermit) (w : world).

(** Worlds that a new store can come to. *)
Definition reachable w : Prop :=
  exists w0 ls, fresh w0 /\ world_run ls w0 = Some w.

Lemma reachable_inv w : reachable w -> world_inv w.
Proof. intros (w0 & ls & Hf & Hr). eapply run_inv; [by apply fresh_inv|done]. Qed.

(** A permit is given only where no entry is left after what has expired was removed. *)
Lemma acquired_absent args now s pm s' :
  reserve_acquire args now s = (Ok (Some pm), s') -> entry_at (cleanup_expired now s.(is_state)) (args_key args) = None.
Proof.
  intros E. unfold reserve_acquire, sbind, smodify, sget, sput, sret, sfail in E.
  destruct (ensure_writable _ s) as [[[]|err] s0] eqn:Ew; apply ensure_writable_cases in Ew as [-> _]; [|done].
  set (st1 := cleanup_expired now (is_state s)) in *. change (is_state (set_state (cleanup_expired now) s)) with st1 in E.
  change (existsb _ (bucket_of st1 (ra_principal_id args))) with
    (existsb (fun e => bool_decide (en_key e = (args_key args).2)) (bucket_of st1 (args_key args).1)) in E.
  rewrite existsb_key in E. case_bool_decide as Hk; [done|]. by apply eq_None_not_Some.
Qed.

(** Only the last scope of a call gives out a permit. *)
Lemma acquired_phase args utc_now ph s pm s' :
  running ph = true -> reserve_step args utc_now ph s = (Finished (Ok (Acquired pm)), s') ->
  exists now, ph = Acquiring now /\ reserve_acquire args now s = (Ok (Some pm), s').
Proof.
  intros Hr E. destruct ph as [now|now|rx|rx|now|r]; [..|done]; unfold reserve_step in E.
  - by destruct (ensure_writable _ s) as [[] s0].
  - destruct (reserve_lookup args now (is_state s)) as [ph1 st] eqn:El. injection E as -> <-. exfalso. revert El.
    unfold reserve_lookup. repeat case_match; by intros [= ? ?].
  - by destruct (_ <? _).
  - unfold reserve_poll in E. destruct (_ || _); [by destruct (match ss_channels _ !! _ with Some c => _ | None => _ end)|by destruct (_ <=? _)].
  - exists now. split; [done|]. destruct (reserve_acquire args now s) as [[[q|]|err] s1]; [|done..]. by injection E as -> ->.
Qed.

(** C6: a call of [reserve] hands out a permit only for a key of which the store holds nothing
    that has not expired, whose permit nobody holds, and that is not issued.  A key is issued
    from the moment its permit is handed out, over failing writes and restarts from the log,
    whatever write the process died in, until one of these: its holder reports a completed
    outcome or one that allows another attempt (even if the report cannot be written), its
    holder gives it up, its holder is gone and the store keeps keys in memory only, or at a
    restart the journal answers for it with a completed outcome. *)
Theorem issued_keys_never_reissued w args utc_now ph pm s' :
  reachable w -> running ph = true -> is_ok (IdempotencyKey_try_from args.(ra_key)) = true ->
  reserve_step args utc_now ph w.(w_store) = (Finished (Ok (Acquired pm)), s') ->
  permit_key pm = args_key args /\ (permit_key pm ∉ w.(w_issued))
  /\ (permit_key pm ∉ permit_key <$> w.(w_permits))
  /\ exists now, ph = Acquiring now /\ entry_at (cleanup_expired now w.(w_store).(is_state)) (permit_key pm) = None.
Proof.
  intros Hr Hp Hk E. pose proof (reachable_inv w Hr) as W. destruct w as [s permits X]. simpl in *.
  pose proof E as Es. apply (keep_reserve _ _ _ _ permits X) in E as (Hn & Hkey & _); [|done..|by apply valid_key_try].
  rewrite Hkey. split; [done|]. split; [done|]. split.
  - intros Hin. apply list_elem_of_fmap in Hin as (q & Hq & Hin).
    destruct (wi_durable _ W q Hin) as [_ Hx]. simpl in Hx. by rewrite <-Hq in Hx.
  - destruct (acquired_phase _ _ _ _ _ _ Hp Es) as (now & -> & Ea). exists now. split; [done|]. by eapply acquired_absent.
Qed.

(** The call is over, without a permit. *)
Definition refused (ph : ReservePhase (O := O)) : bool :=
  match ph with
  | Finished (Ok (Replay _)) | Finished (Err _) => true
  | _ => false
  end.

Lemma issued_lookup w args now :
  world_inv w -> integrity_issue w.(w_store) = None -> args_key args ∈ w.(w_issued) ->
  exists e, entry_at (cleanup_expired now w.(w_store).(is_state)) (args_key args) = Some e
    /\ (reserve_lookup args now w.(w_store).(is_state)).1
       = lookup_answer args w.(w_store).(is_state).(ss_channels) e.
Proof.
  intros W Hi Hk. destruct (wi_guard _ W Hi _ Hk) as (e & He & Hne).
  pose proof (state_inv_cleanup now _ _ (wi_state _ W)) as Hs.
  pose proof (sheds_keeps _ _ _ _ _ Hs He Hne) as He1.
  destruct (reserve_lookup args now (is_state (w_store w))) as [ph st'] eqn:E.
  apply reserve_lookup_spec in E as (_ & _ & Hm); [|apply W]. rewrite He1 in Hm.
  destruct Hm as (-> & _). exists e. by rewrite He1.
Qed.

(** After a restart, the lookup of a key that was issued before it and is still ends the call
    at once: with the retained outcome or an error, never with a wait and never with a permit. *)
Theorem restart_answers_issued_keys w resolve now w' args now' :
  reachable w -> world_step (LRestart resolve now) w = Some w' ->
  integrity_issue w'.(w_store) = None -> args_key args ∈ w'.(w_issued) ->
  refused (reserve_lookup args now' w'.(w_store).(is_state)).1 = true.
Proof.
  intros Hr E Hi Hk. pose proof (step_inv (LRestart resolve now) _ _ (reachable_inv w Hr) E) as W'.
  assert (w'.(w_permits) = []) as Ep.
  { simpl in E. destruct (_ ≫= _); [|done]. injection E as <-. done. }
  destruct (issued_lookup w' args now' W' Hi Hk) as (e & He & ->).
  unfold lookup_answer. destruct (same_identity args e); [|done].
  destruct (en_state e) as [g c| |] eqn:Es; try done. exfalso.
  pose proof (state_inv_sheds _ _ _ (state_inv_cleanup now' _ _ (wi_state _ W')) (wi_state _ W')) as I.
  rewrite Ep in I. pose proof (si_reserved _ _ I _ _ He (ex_intro _ g (ex_intro _ c Es))) as Hin.
  by apply not_elem_of_nil in Hin.
Qed.

(** The store never holds more entries than its capacity, nor more of one principal
    than the capacity per principal. *)
Theorem idempotency_store_bounded w :
  reachable w ->
  Z.of_nat (entry_count w.(w_store).(is_state).(ss_entries)) <= w.(w_store).(is_global_capacity)
  /\ forall p, Z.of_nat (length (bucket_of w.(w_store).(is_state) p))
               <= w.(w_store).(is_per_principal_capacity).
Proof. intros W%reachable_inv. apply within_bounds; [apply W|]. apply (wi_within _ W). Qed.

(** While the store accepts writes, opening its log again would give back an entry for
    each key of the store that has no change pending and for no key that left it before;
    and each permit that is out has an entry there that never expires. *)
Theorem log_mirrors_store w log :
  reachable w -> w.(w_store).(is_durable) = Some log -> integrity_issue w.(w_store) = None ->
  exists m, log_view log = Some m
    /\ (forall k, k ∉ w.(w_store).(is_state).(ss_dirty) ->
          (is_Some (entry_at w.(w_store).(is_state) k) <-> is_Some (m !! k)))
    /\ (forall pm, pm ∈ w.(w_permits) -> exists d, m !! permit_key pm = Some d
                                                   /\ d.(de_expires_at) = None).
Proof.
  intros W%reachable_inv Hl Hi. destruct (wi_ready _ W log Hl Hi) as (_ & m & Hv & [Hp _] & _).
  exists m. split; [done|]. split; [done|]. intros pm Hpm.
  apply (do_issued _ _ (wi_safe _ W _ _ Hl Hv)). by apply (wi_durable _ W).
Qed.

(** ** Replaying *)

Definition asks_for (args : ReserveArgs) pm : Prop :=
  args_key args = permit_key pm /\ args.(ra_operation) = pm.(ip_operation)
  /\ args.(ra_sha256) = pm.(ip_sha256).

(** An outcome that was finished and is not a release is replayed to the next request for
    the same key, operation and fingerprint, whenever it comes if the outcome is relevant to
    safety and within the time to live if not; a request with another operation or
    fingerprint is an error. *)
Theorem finished_outcome_is_replayed w pm outcome now s' args now' :
  reachable w -> pm ∈ w.(w_permits) -> releases_reservation outcome = false ->
  finish pm outcome now w.(w_store) = (Ok tt, s') ->
  (safety_relevant outcome = true \/ now' < now + w.(w_store).(is_ttl)) ->
  args_key args = permit_key pm ->
  (asks_for args pm -> (reserve_lookup args now' s'.(is_state)).1 = Finished (Ok (Replay outcome)))
  /\ (~ asks_for args pm -> exists e, (reserve_lookup args now' s'.(is_state)).1 = Finished (Err e)).
Proof.
  intros W%reachable_inv Hpm Hrel E Hlive Hk. pose proof (wi_state _ W) as I.
  apply (finish_spec _ _ _ _ (w_permits w)) in E; [|done|done].
  destruct E as [(_ & ? & _)|(st2 & e & c & u & rp & sp & _ & He & (R1 & R2 & _) & Hw & _ & _ & Hp & Hend)]; [done|].
  destruct rp; [|by destruct Hend]. destruct Hend as [_ ->].
  pose proof (persist_frame _ _ _ Hp) as (Fe & _). simpl in Fe.
  set (st' := is_state (set_state _ sp)).
  destruct (writes_entries _ _ st' _ _ Hw) as [Hu [Hat _]]; [exact Fe|].
  unfold finished_entry in Hat. rewrite Hrel in Hat. clearbody st'.
  match type of Hat with _ = Some ?x => set (e' := x) in Hat end.
  assert (expired now' e' = false) as Hx.
  { unfold e', expired. simpl. destruct (safety_relevant outcome); [done|].
    destruct Hlive as [?|?]; [done|]. by apply Z.leb_gt. }
  pose proof (cleanup_sheds now' st' Hu) as Hs.
  assert (entry_at (cleanup_expired now' st') (args_key args) = Some e') as He'.
  { eapply sheds_keeps; [exact Hs|by rewrite Hk|]. intros Hb. cbv beta in Hb. congruence. }
  destruct (reserve_lookup args now' st') as [ph st3] eqn:E. simpl.
  apply reserve_lookup_spec in E as (_ & _ & Hm); [|done]. rewrite He' in Hm.
  destruct Hm as (-> & _). unfold lookup_answer, same_identity, e'. simpl. rewrite R1, R2.
  split.
  - intros (_ & -> & ->). by rewrite !bool_decide_eq_true_2.
  - intros Hn. destruct (bool_decide _ && bool_decide _) eqn:Eb; [|by eexists].
    apply andb_prop in Eb as [B1%bool_decide_eq_true B2%bool_decide_eq_true]. destruct Hn. done.
Qed.

(** ** Waiting *)

Definition waits (ph : ReservePhase (O := O)) : bool :=
  match ph with Waiting _ => true | _ => false end.

Definition ends_permit (l : Label (O := O)) pm : Prop :=
  match l with LFinish q _ _ | LAbandon q | LDrop q => q = pm | _ => False end.

(** The channel of a reservation was signalled or has lost its sender. *)
Definition signalled st (c : ChannelId) : Prop := channel_version st c <> 0.

Lemma signalled_poll args c utc_now st :
  signalled st c -> waits (reserve_poll args (MkReceiver c 0) utc_now st) = false.
Proof.
  intros Hs. unfold reserve_poll. simpl. destruct (Z.eqb_spec (channel_version st c) 0); [done|]. simpl.
  by destruct (match ss_channels st !! c with Some ch => wc_value ch | None => UpPending end).
Qed.

Lemma signalled_alter st st' (u : ReservationUpdate O) c :
  st.(ss_channels) !! c = Some (MkChannel 0 UpPending) ->
  st'.(ss_channels) = alter (fun ch => MkChannel (ch.(wc_version) + 1) u) c st.(ss_channels) ->
  signalled st' c.
Proof.
  intros Hc E. unfold signalled, channel_version. rewrite E.
  assert (alter (fun ch => MkChannel (ch.(wc_version) + 1) u) c st.(ss_channels) !! c
          = Some (MkChannel 1 u)) as ->; [|done].
  etrans; [apply list_lookup_alter_eq|].
  exact (f_equal (fmap (fun ch => MkChannel (ch.(wc_version) + 1) u)) Hc).
Qed.

Lemma held_channel st permits pm e g c :
  state_inv st permits -> pm ∈ permits -> entry_at st (permit_key pm) = Some e ->
  e.(en_state) = Reserved g c ->
  st.(ss_channels) !! c = Some (MkChannel 0 UpPending)
  /\ forall e' c', entry_at st (permit_key pm) = Some e' -> reserved_for pm e' c' -> c' = c.
Proof.
  intros I Hpm He Hs. split; [by eapply (si_pending _ _ I)|].
  intros e' c' He' (_ & _ & Hs'). congruence.
Qed.

(** Whoever waits for a key another call holds is answered: the receiver that its lookup
    gave it sees a change as soon as the holder finishes, abandons or drops the permit,
    whether or not the log could be written, and a wait never outlasts the deadline. *)
Theorem waiter_is_answered w l pm e g c args now w' utc_now :
  reachable w -> pm ∈ w.(w_permits) ->
  entry_at w.(w_store).(is_state) (permit_key pm) = Some e -> e.(en_state) = Reserved g c ->
  asks_for args pm -> ends_permit l pm -> world_step l w = Some w' ->
  (reserve_lookup args now w.(w_store).(is_state)).1 = Subscribed (MkReceiver c 0)
  /\ waits (reserve_poll args (MkReceiver c 0) utc_now w'.(w_store).(is_state)) = false
  /\ (args.(ra_deadline) <= utc_now ->
      waits (reserve_poll args (MkReceiver c 0) utc_now w.(w_store).(is_state)) = false).
Proof.
  intros W%reachable_inv Hpm He Hs (A1 & A2 & A3) Hl E. pose proof (wi_state _ W) as I.
  destruct (held_channel _ _ _ _ _ _ I Hpm He Hs) as [Hc Hsame].
  split; [|split].
  - pose proof (state_inv_cleanup now _ _ I) as Hsh.
    assert (~ evictable e) as Hne by (unfold evictable, entry_is_evictable; by rewrite Hs).
    pose proof (sheds_keeps _ _ _ _ _ Hsh He Hne) as He1.
    destruct (reserve_lookup args now _) as [ph st'] eqn:El. simpl.
    apply reserve_lookup_spec in El as (_ & _ & Hm); [|apply I]. rewrite A1, He1 in Hm.
    destruct Hm as (-> & _). unfold lookup_answer, same_identity.
    destruct (si_held _ _ I pm Hpm) as (e0 & c0 & He0 & (R1 & R2 & _)).
    assert (e0 = e) as -> by congruence. rewrite R1, R2, A2, A3, !bool_decide_eq_true_2, Hs, Hc by done.
    done.
  - apply signalled_poll. destruct l as [|q o t|q|q|]; try done; simpl in Hl; subst q;
      cbn [world_step] in E; (case_bool_decide; [|done]); injection E as <-; cbn [w_store].
    + destruct (finish pm o t (w_store w)) as [r s'] eqn:Ef. cbn [snd].
      apply (finish_spec _ _ _ _ (w_permits w)) in Ef; [|done|done].
      destruct Ef as [(_ & _ & ->)|(st2 & e1 & c1 & u & rp & sp & _ & He1 & Hr1 & _ & _ & Hch & Hp & Hend)].
      * destruct (drop_permit_spec _ _ _ I Hpm) as (st' & e1 & c1 & -> & He1 & Hr1 & _ & _ & Hch).
        rewrite (Hsame _ _ He1 Hr1) in Hch. by eapply signalled_alter.
      * rewrite (Hsame _ _ He1 Hr1) in Hend. pose proof (persist_frame _ _ _ Hp) as (_ & Fc & _).
        simpl in Fc. rewrite <-Hch, <-Fc in Hc. destruct rp.
        -- destruct Hend as [_ ->]. eapply (signalled_alter (is_state sp)); [exact Hc|]. reflexivity.
        -- destruct Hend as (_ & st3 & t' & _ & _ & _ & T4 & _ & ->). rewrite <-T4 in Hc.
           eapply (signalled_alter st3); [exact Hc|]. reflexivity.
    + destruct (abandon_spec pm (w_store w) (w_permits w) I Hpm)
        as (st2 & e1 & c1 & rp & sp & He1 & Hr1 & _ & _ & Hch & Hp & Hend).
      rewrite (Hsame _ _ He1 Hr1) in Hch. pose proof (persist_frame _ _ _ Hp) as (_ & Fc & _).
      simpl in Fc. rewrite <-Fc in Hch. destruct rp.
      * rewrite Hend. by eapply signalled_alter.
      * destruct Hend as (st3 & t' & _ & _ & _ & T4 & _ & ->). rewrite <-T4 in Hch.
        by eapply signalled_alter.
    + destruct (drop_permit_spec _ _ _ I Hpm) as (st' & e1 & c1 & -> & He1 & Hr1 & _ & _ & Hch).
      rewrite (Hsame _ _ He1 Hr1) in Hch. by eapply signalled_alter.
  - intros Hd. unfold reserve_poll. destruct (_ || _).
    + by destruct (match ss_channels _ !! _ with Some ch => _ | None => _ end).
    + apply Z.leb_le in Hd. by rewrite Hd.
Qed.
End Theorems.

(** ** A run *)

Module SampleIdempotency.
Ltac by_eval_true := exact_no_check I.

Definition present {A} (o : option A) : bool := match o with Some _ => true | None => false end.

Lemma present_default {A} (d : A) o : present o = true -> o = Some (default d o).
Proof. by destruct o. Qed.

#[local] Existing Instance SampleJson.json.

(** A log in memory whose writes succeed. *)
Definition MapLog : Type := gmap Key DurableEntry.

#[export] Instance map_log : DurableLog MapLog := {|
  needs_checkpoint _ := false;
  log_checkpoint es := fun _ => (Ok tt, to_map es);
  log_append us rs := fun m => (Ok tt, apply_change m us rs);
|}.

Definition map_keyed (m : MapLog) : bool :=
  bool_decide (map_Forall (fun k d => durable_key d = k) m).

#[export] Program Instance map_log_laws : DurableLogLaws MapLog := {|
  log_view m := Some m;
  log_ok _ := True;
  log_fits _ := True;
  log_open _ m := if map_keyed m then Some (m, Ok (map_to_list m).*2) else None;
|}.
Next Obligation. intros log es log' _ _ [= <-]. done. Qed.
Next Obligation. done. Qed.
Next Obligation. intros log m us rs log' _ _ [= <-] _ [= <-]. done. Qed.
Next Obligation. done. Qed.
Next Obligation.
  intros now m m' es. cbv beta. destruct (map_keyed m) eqn:E; [|done]. intros [= <- <-].
  apply bool_decide_eq_true in E. split; [done|]. exists m. done.
Qed.
Next Obligation. intros now m m' issue. cbv beta. by destruct (map_keyed m). Qed.

#[export] Instance map_log_roomy : RoomyLog MapLog.
Proof. by split. Qed.

(** Two commands: one that completed, one whose effect is unknown. *)
#[export] Instance hex_uuid : UuidText := fun id => pretty.pretty id.

Definition done_7 : CommandOutcome := OutcomeCompleted 7%N [].
Definition unknown_9 : CommandOutcome :=
  OutcomeNeedsReconciliation 9%N (MkCommandError CodeInternal "lost" LayerBrowser false) [].

Definition journal_lookup (v : JsonValue) : result (option CommandOutcome) IoError :=
  Ok (if decide (v = JString "7") then Some done_7
      else if decide (v = JString "9") then Some unknown_9 else None).

Definition args (p : PrincipalId) (key : string) : ReserveArgs :=
  MkReserveArgs p key SubmitCommand [1] 5000 3%N.
Definition permit (p : PrincipalId) (key : string) (g : Z) : IdempotencyPermit :=
  MkIdempotencyPermit p key SubmitCommand [1] g 3%N true.

Definition w0 : World (O := CommandOutcome) (P := MapLog) :=
  MkWorld (open_durable journal_lookup 0 (∅, Ok [])) [] ∅.

Lemma w0_fresh : fresh w0.
Proof. by constructor. Qed.

(** Three keys are taken; one command completes, one has an unknown effect. *)
Definition labels : list (Label (O := CommandOutcome)) :=
  [LReserve (args 1%N "a") 10 (Starting 10); LReserve (args 1%N "a") 10 (Looking 10);
   LReserve (args 1%N "a") 10 (Acquiring 10); LReserve (args 1%N "b") 11 (Acquiring 11);
   LReserve (args 2%N "c") 12 (Acquiring 12);
   LFinish (permit 1%N "b" 3) unknown_9 13].

Definition after (w : option (World (O := CommandOutcome) (P := MapLog))) : World :=
  default w0 w.
Definition w1 : World := after (world_run labels w0).

Lemma w1_reachable : reachable w1.
Proof.
  exists w0, labels. split; [apply w0_fresh|].
  apply present_default. by_eval.
Qed.

(** Key "a" of another principal is free. *)
Definition step_d := reserve_step (args 2%N "a") 14 (Acquiring 14) w1.(w_store).

Lemma issued_keys_never_reissued_witness :
  step_d.1 = Finished (Ok (Acquired (permit 2%N "a" 6)))
  /\ permit_key (permit 2%N "a" 6) = args_key (args 2%N "a")
  /\ (permit_key (permit 2%N "a" 6) ∉ w1.(w_issued))
  /\ (permit_key (permit 2%N "a" 6) ∉ permit_key <$> w1.(w_permits))
  /\ exists now, Acquiring (O := CommandOutcome) 14 = Acquiring now
       /\ entry_at (cleanup_expired now w1.(w_store).(is_state)) (permit_key (permit 2%N "a" 6)) = None.
Proof.
  assert (step_d = (Finished (Ok (Acquired (permit 2%N "a" 6))), step_d.2)) as E by (apply pair_fst; by_eval).
  split; [by rewrite E|].
  refine (issued_keys_never_reissued w1 (args 2%N "a") 14 (Acquiring 14) _ step_d.2 w1_reachable eq_refl _ E).
  by_eval.
Defined.

Definition restarted : World := after (world_step (LRestart journal_lookup 20) w1).

Lemma restart_answers_issued_keys_witness :
  refused (reserve_lookup (args 1%N "a") 30 restarted.(w_store).(is_state)).1 = true.
Proof.
  refine (restart_answers_issued_keys w1 journal_lookup 20 restarted _ _ w1_reachable _ _ _);
    [apply present_default; by_eval|by_eval|]. apply (bool_decide_unpack _). by_eval_true.
Defined.

Lemma idempotency_store_bounded_witness :
  Z.of_nat (entry_count w1.(w_store).(is_state).(ss_entries)) = 3
  /\ Z.of_nat (entry_count w1.(w_store).(is_state).(ss_entries)) <= w1.(w_store).(is_global_capacity)
  /\ forall p, Z.of_nat (length (bucket_of w1.(w_store).(is_state) p))
               <= w1.(w_store).(is_per_principal_capacity).
Proof. split; [by_eval|]. exact (idempotency_store_bounded w1 w1_reachable). Defined.

Definition log1 : MapLog := default ∅ w1.(w_store).(is_durable).

Lemma log_mirrors_store_witness :
  exists m, log_view log1 = Some m
    /\ (forall k, k ∉ w1.(w_store).(is_state).(ss_dirty) ->
          (is_Some (entry_at w1.(w_store).(is_state) k) <-> is_Some (m !! k)))
    /\ (forall pm, pm ∈ w1.(w_permits) -> exists d, m !! permit_key pm = Some d
                                                    /\ d.(de_expires_at) = None).
Proof. refine (log_mirrors_store w1 log1 w1_reachable _ _); [apply present_default|]; by_eval. Defined.

Definition finish_a := finish (permit 1%N "a" 2) done_7 40 w1.(w_store).

Lemma finished_outcome_is_replayed_witness :
  (reserve_lookup (args 1%N "a") 50 finish_a.2.(is_state)).1 = Finished (Ok (Replay done_7)).
Proof.
  assert (finish_a = (Ok tt, finish_a.2)) as E by (apply pair_fst; by_eval).
  refine (proj1 (finished_outcome_is_replayed w1 (permit 1%N "a" 2) done_7 40 finish_a.2
            (args 1%N "a") 50 w1_reachable _ eq_refl E _ eq_refl) _).
  - apply (bool_decide_unpack _). by_eval_true.
  - right. apply Z.ltb_lt. by_eval.
  - by split_and!.
Defined.

Definition entry_a : Entry CommandOutcome :=
  MkEntry "a" SubmitCommand [1] (Reserved 2 0%nat) None 2.
Definition dropped_a : World := after (world_step (LDrop (permit 1%N "a" 2)) w1).

Lemma waiter_is_answered_witness :
  (reserve_lookup (args 1%N "a") 20 w1.(w_store).(is_state)).1 = Subscribed (MkReceiver 0%nat 0)
  /\ waits (reserve_poll (args 1%N "a") (MkReceiver 0%nat 0) 30 dropped_a.(w_store).(is_state)) = false
  /\ (5000 <= 30 ->
      waits (reserve_poll (args 1%N "a") (MkReceiver 0%nat 0) 30 w1.(w_store).(is_state)) = false).
Proof.
  refine (waiter_is_answered w1 (LDrop (permit 1%N "a" 2)) (permit 1%N "a" 2) entry_a 2 0%nat
            (args 1%N "a") 20 dropped_a 30 w1_reachable _ _ eq_refl _ eq_refl _).
  - apply (bool_decide_unpack _). by_eval_true.
  - by_eval.
  - by split_and!.
  - apply present_default. by_eval.
Defined.
End SampleIdempotency.
