(* ===== verification/KeyedRuns.v ===== *)
(** * Requests that carry a key

    What a caller of the idempotency store does, whichever operation it serves: it opens a
    reservation, takes turns in [reserve], and with a permit either finishes with an outcome,
    gives the key back because nothing was started, or is lost while it runs.  A log keeps
    what happened to each key.  Between two runs under one key the first one must have ended
    in an outcome that lets another attempt be made, over restarts and failing writes. *)

From S2P Require Import Prelude Text SkillTypes Receipt Job Interface Ledger Json Idempotency IdempotencyInv DurableLog IdempotencySteps IdempotencyWorld IdempotencyKeep.

Inductive KeyTask {O : Type} :=
| KeyAsking (args : ReserveArgs) (ph : ReservePhase (O := O))
| KeyHolding (pm : IdempotencyPermit).
Arguments KeyTask : clear implicits.

(** [KeyTaken]: the permit is out; [KeyRan]: what it stands for was or may have been carried
    out; [KeySettled]: it ended in an outcome that need not be remembered for ever;
    [KeyUnstarted]: nothing was carried out; [KeyLost]: its holder of a store in memory is
    gone; [KeyResolved]: at a restart, the journal answered for it with an outcome that need
    not be remembered for ever. *)
Inductive KeyEvent {O : Type} :=
| KeyTaken (k : Key)
| KeyRan (k : Key)
| KeySettled (k : Key) (outcome : O)
| KeyUnstarted (k : Key)
| KeyLost (k : Key)
| KeyResolved (k : Key) (outcome : O).
Arguments KeyEvent : clear implicits.

Record KeyState (O P : Type) := MkKeyState {
  ky_store : IdempotencyStore O P;
  ky_tasks : gmap nat (KeyTask O);
  ky_events : list (KeyEvent O);
}.
Arguments ky_store {O P} _.
Arguments ky_tasks {O P} _.
Arguments ky_events {O P} _.
Arguments MkKeyState {O P} _ _ _.

Inductive KeyLabel {O : Type} :=
| KeyOpen (id : nat) (args : ReserveArgs) (now : Time)
| KeyTurn (id : nat) (now : Time) (keep : bool)
| KeyFinish (id : nat) (outcome : O) (now : Time)
| KeyReturn (id : nat)
| KeyDrop (id : nat)
| KeyRestart (resolve : JsonValue -> result (option O) IoError) (now : Time).
Arguments KeyLabel : clear implicits.

(** ** The log of one key *)

Inductive KeyStatus := KeyFree | KeyHeld | KeySpent.
#[export] Instance KeyStatus_eq_dec : EqDecision KeyStatus.
Proof. solve_decision. Defined.

Section Log.
Context {O : Type}.
Implicit Types (k : Key) (events : list (KeyEvent O)).

Definition event_key (ev : KeyEvent O) : Key :=
  match ev with KeyTaken k | KeyRan k | KeySettled k _ | KeyUnstarted k | KeyLost k | KeyResolved k _ => k end.

(** What may happen to a key next. *)
Definition advance (st : KeyStatus) (ev : KeyEvent O) : option KeyStatus :=
  match st, ev with
  | KeyFree, KeyTaken _ => Some KeyHeld
  | KeyHeld, KeyRan _ => Some KeySpent
  | KeyHeld, KeyUnstarted _ => Some KeyFree
  | KeySpent, KeySettled _ _ | KeySpent, KeyLost _ | _, KeyResolved _ _ => Some KeyFree
  | _, _ => None
  end.

Definition track k (st : option KeyStatus) (ev : KeyEvent O) : option KeyStatus :=
  if bool_decide (event_key ev = k) then st ≫= (fun st => advance st ev) else st.

Definition status k events : option KeyStatus := foldl (track k) (Some KeyFree) events.

Lemma track_None k events : foldl (track k) None events = None.
Proof. induction events as [|ev events IH]; [done|]. cbn. unfold track at 2. by case_bool_decide. Qed.

Lemma status_app k events events' : status k (events ++ events') = foldl (track k) (status k events) events'.
Proof. apply foldl_app. Qed.

(** The first run of a key is over. *)
Definition released k events : Prop :=
  (exists o, KeySettled k o ∈ events) \/ (exists o, KeyResolved k o ∈ events) \/ KeyLost k ∈ events.

Lemma released_later k ev events : released k events -> released k (ev :: events).
Proof. intros [[o Ho]|[[o Ho]|Ho]]; [left; exists o|right; left; exists o|right; right]; by right. Qed.

(** A key that is spent stays so until it is released. *)
Lemma spent_until_released k events st :
  foldl (track k) (Some KeySpent) events = Some st -> st = KeySpent \/ released k events.
Proof.
  induction events as [|ev events IH]; intros E; [left; by injection E|]. cbn in E. unfold track in E at 2.
  case_bool_decide as Hk; [|destruct (IH E); [by left|right; by apply released_later]].
  destruct ev; cbn in E, Hk; subst; try (by rewrite track_None in E); right.
  - left. eexists. by left.
  - right. right. by left.
  - right. left. eexists. by left.
Qed.

Lemma track_same k st ev : event_key ev = k -> track k st ev = st ≫= (fun st => advance st ev).
Proof. intros E. unfold track. by rewrite bool_decide_eq_true_2. Qed.

Lemma track_other k st ev : event_key ev <> k -> track k st ev = st.
Proof. intros E. unfold track. by rewrite bool_decide_eq_false_2. Qed.

(** Between two runs of a key lies the end of the first. *)
Lemma runs_are_separated k h1 h2 h3 :
  is_Some (status k (h1 ++ KeyRan k :: h2 ++ KeyRan k :: h3)) -> released k h2.
Proof.
  intros [st E]. rewrite status_app in E. cbn [foldl] in E. rewrite foldl_app in E. cbn [foldl] in E.
  rewrite (track_same k _ (KeyRan k)) in E by done.
  destruct (foldl (track k) (track k (status k h1) (KeyRan k)) h2) as [st2|] eqn:E2; [|cbn in E; by rewrite track_None in E].
  rewrite track_same in E2 by done. destruct (status k h1) as [[]|]; cbn in E2; try (by rewrite track_None in E2).
  apply spent_until_released in E2 as [->|Hr]; [|done]. cbn in E. by rewrite track_None in E.
Qed.
End Log.

(** ** Steps *)

Section Steps.
Context {O P : Type} `{RetainedOutcome O, DurableLogLaws P, JsonLib, !RoomyLog P}.
Implicit Types (s : KeyState O P) (k : Key) (pm : IdempotencyPermit) (events more : list (KeyEvent O)) (ev : KeyEvent O).

Definition held_permit (t : KeyTask O) : option IdempotencyPermit :=
  match t with KeyHolding pm => Some pm | KeyAsking _ _ => None end.
Definition held (tasks : gmap nat (KeyTask O)) : list IdempotencyPermit := omap held_permit (map_to_list tasks).*2.

(** What a restart leaves in the log: what was held may have run, and what the journal answers. *)
Definition restarted_events (permits : list IdempotencyPermit) (resolved : list (Key * O)) : list (KeyEvent O) :=
  (KeyRan ∘ permit_key <$> permits) ++ ((fun ko => KeyResolved ko.1 ko.2) <$> resolved).

Definition key_step (l : KeyLabel O) s : option (KeyState O P) :=
  let 'MkKeyState store tasks events := s in
  match l with
  | KeyOpen id args now =>
      match tasks !! id with
      | Some _ => None
      | None => if is_ok (IdempotencyKey_try_from args.(ra_key))
                then Some (MkKeyState store (<[id := KeyAsking args (Starting now)]> tasks) events) else None
      end
  | KeyTurn id now keep =>
      match tasks !! id with
      | Some (KeyAsking args ph) =>
          let '(ph, store) := reserve_step args now ph store in
          Some (match ph with
                | Finished (Ok (Acquired pm)) =>
                    if keep then MkKeyState store (<[id := KeyHolding pm]> tasks) (events ++ [KeyTaken (permit_key pm)])
                    else MkKeyState (abandon pm store) (delete id tasks) events
                | Finished _ => MkKeyState store (delete id tasks) events
                | ph => MkKeyState store (<[id := KeyAsking args ph]> tasks) events
                end)
      | _ => None
      end
  | KeyFinish id outcome now =>
      match tasks !! id with
      | Some (KeyHolding pm) =>
          Some (MkKeyState (finish pm outcome now store).2 (delete id tasks)
                  (events ++ KeyRan (permit_key pm) ::
                     (if settles_key outcome then [KeySettled (permit_key pm) outcome] else [])))
      | _ => None
      end
  | KeyReturn id =>
      match tasks !! id with
      | Some (KeyHolding pm) =>
          Some (MkKeyState (abandon pm store) (delete id tasks) (events ++ [KeyUnstarted (permit_key pm)]))
      | _ => None
      end
  | KeyDrop id =>
      match tasks !! id with
      | Some (KeyHolding pm) =>
          Some (MkKeyState (drop_permit pm store) (delete id tasks)
                  (events ++ KeyRan (permit_key pm) :: (if pm.(ip_durable) then [] else [KeyLost (permit_key pm)])))
      | Some (KeyAsking _ _) => Some (MkKeyState store (delete id tasks) events)
      | None => None
      end
  | KeyRestart resolve now =>
      match store.(is_durable) ≫= log_open now with
      | Some opened =>
          Some (MkKeyState (open_durable resolve now opened) ∅ (events ++ restarted_events (held tasks) (resolved_keys resolve opened.2)))
      | None => None
      end
  end.

Fixpoint key_run (ls : list (KeyLabel O)) s : option (KeyState O P) :=
  match ls with [] => Some s | l :: ls => key_step l s ≫= key_run ls end.

(** ** The invariant *)

(** [X] is the set of keys whose log does not say that they are free. *)
Definition tracks (X : gset Key) (events : list (KeyEvent O)) : Prop :=
  forall k, exists st, status k events = Some st /\ (k ∈ X <-> st <> KeyFree).

(** The store with the permits of the tasks is a world; a key is issued when its log says it
    is not free, and is held by at most one task, and only before it ran. *)
Record key_inv s : Prop := MkKeyInv {
  ki_world : exists permits X, world_inv (MkWorld s.(ky_store) permits X) /\ permits ≡ₚ held s.(ky_tasks)
    /\ tracks X s.(ky_events);
  ki_held : forall pm, pm ∈ held s.(ky_tasks) -> status (permit_key pm) s.(ky_events) = Some KeyHeld;
  ki_asking : forall id args ph, s.(ky_tasks) !! id = Some (KeyAsking args ph) ->
    running ph = true /\ is_ok (IdempotencyKey_try_from args.(ra_key)) = true;
}.

(** ** Permits of tasks *)

Lemma held_insert tasks id t :
  tasks !! id = None -> held (<[id := t]> tasks) ≡ₚ option_list (held_permit t) ++ held tasks.
Proof. intros E. unfold held. rewrite map_to_list_insert by done. cbn. by destruct (held_permit t). Qed.

Lemma held_delete tasks id t :
  tasks !! id = Some t -> held tasks ≡ₚ option_list (held_permit t) ++ held (delete id tasks).
Proof. intros E. rewrite <- (insert_delete_id tasks id t E) at 1. apply held_insert, lookup_delete_eq. Qed.

Lemma held_replace tasks id t t' :
  tasks !! id = Some t -> held (<[id := t']> tasks) ≡ₚ option_list (held_permit t') ++ held (delete id tasks).
Proof. intros E. rewrite <- insert_delete_eq. apply held_insert, lookup_delete_eq. Qed.

Lemma without_held pm permits rest :
  NoDup (permit_key <$> permits) -> permits ≡ₚ pm :: rest -> without pm permits ≡ₚ rest.
Proof.
  intros Hn Hp. assert (pm ∈ permits) as Hin by (rewrite Hp; by left).
  apply (Permutation_cons_inv (a := pm)). by rewrite <- without_perm.
Qed.

Lemma other_keys pm rest q :
  NoDup (permit_key <$> pm :: rest) -> q ∈ rest -> permit_key q <> permit_key pm.
Proof.
  rewrite fmap_cons. intros [Hn _]%NoDup_cons Hq E. apply Hn. rewrite <- E. by apply list_elem_of_fmap_2.
Qed.

(** ** The log after a step *)

Lemma status_untouched k events more :
  Forall (fun ev => event_key ev <> k) more -> status k (events ++ more) = status k events.
Proof.
  intros Hm. rewrite status_app. generalize (status k events) as st. induction Hm as [|ev more He _ IH]; intros st; [done|].
  cbn. by rewrite track_other.
Qed.

Lemma status_last k events ev : event_key ev = k -> status k (events ++ [ev]) = status k events ≫= (fun st => advance st ev).
Proof. intros E. rewrite status_app. cbn. by apply track_same. Qed.

(** A log that grows at one key. *)
Lemma tracks_grow X events k more st' :
  tracks X events -> Forall (fun ev => event_key ev = k) more -> status k (events ++ more) = Some st' ->
  tracks (if decide (st' = KeyFree) then X ∖ {[k]} else {[k]} ∪ X) (events ++ more).
Proof.
  intros Ht Hm Hs k'. destruct (decide (k' = k)) as [->|Hne].
  - exists st'. split; [done|]. case_decide; set_solver.
  - destruct (Ht k') as (st & E & Hx). exists st. rewrite status_untouched.
    + split; [done|]. rewrite <- Hx. case_decide; set_solver.
    + eapply Forall_impl; [exact Hm|]. by intros ev ->.
Qed.

Lemma tracks_eq X Y events : X = Y -> tracks X events -> tracks Y events.
Proof. by intros ->. Qed.

Lemma free_of_tracks X events k : tracks X events -> k ∉ X -> status k events = Some KeyFree.
Proof.
  intros Ht Hk. destruct (Ht k) as (st & E & Hx). rewrite E. destruct (decide (st = KeyFree)) as [->|Hne]; [done|]. by destruct Hk; apply Hx.
Qed.

Lemma held_stays pm events more :
  status (permit_key pm) events = Some KeyHeld -> Forall (fun ev => event_key ev <> permit_key pm) more ->
  status (permit_key pm) (events ++ more) = Some KeyHeld.
Proof. intros E Hm. by rewrite status_untouched. Qed.

(** The holders of a process that ends: each key they hold may have run. *)
Lemma status_ran k events permits :
  NoDup (permit_key <$> permits) -> (forall pm, pm ∈ permits -> status (permit_key pm) events = Some KeyHeld) ->
  status k (events ++ (KeyRan (O := O) ∘ permit_key <$> permits))
  = if decide (k ∈ permit_key <$> permits) then Some KeySpent else status k events.
Proof.
  intros Hn Hh. rewrite status_app. assert (k ∈ permit_key <$> permits -> status k events = Some KeyHeld) as Hk.
  { intros (pm & -> & Hin)%list_elem_of_fmap. by apply Hh. }
  clear Hh. revert Hk. generalize (status k events) as st.
  induction permits as [|pm permits IH]; intros st Hk; [done|]. rewrite !fmap_cons in *. apply NoDup_cons in Hn as [Hpm Hn]. cbn [foldl].
  destruct (decide (k = permit_key pm)) as [->|Hne].
  - rewrite (decide_True (P := _ ∈ _ :: _)) by (by left). rewrite Hk by (by left). rewrite track_same by done. cbn [mbind option_bind compose advance].
    clear IH Hk. revert Hpm. generalize (permit_key pm) as k. intros k Hpm. induction permits as [|q permits IH]; [done|].
    rewrite !fmap_cons in *. cbn [foldl]. rewrite track_other by (cbn; set_solver). apply IH; [|set_solver]. by apply NoDup_cons in Hn as [_ ?].
  - rewrite track_other by (cbn; congruence). rewrite IH; [|done|intros Hin; apply Hk; by right].
    destruct (decide (k ∈ permit_key <$> permits)) as [Hin|Hout].
    + by rewrite decide_True by (by right).
    + rewrite decide_False; [done|]. by intros [?|?]%elem_of_cons.
Qed.

(** What the journal answers frees keys that nobody holds. *)
Lemma status_resolved k st (resolved : list (Key * O)) :
  foldl (track k) (Some st) ((fun ko => KeyResolved ko.1 ko.2) <$> resolved)
  = Some (if decide (k ∈ resolved.*1) then KeyFree else st).
Proof.
  revert st. induction resolved as [|[k' o] resolved IH]; intros st; [done|]. rewrite !fmap_cons. cbn [foldl fst snd].
  destruct (decide (k' = k)) as [->|Hne].
  - rewrite track_same by done. rewrite (decide_True (P := _ ∈ _ :: _)) by (by left).
    destruct st; cbn [mbind option_bind advance]; rewrite IH; by case_decide.
  - rewrite track_other by done. rewrite IH. destruct (decide (k ∈ resolved.*1)) as [Hin|Hout].
    + by rewrite decide_True by (by right).
    + rewrite decide_False; [done|]. by intros [?|?]%elem_of_cons.
Qed.

Lemma status_restarted k events permits (resolved : list (Key * O)) st :
  NoDup (permit_key <$> permits) -> (forall pm, pm ∈ permits -> status (permit_key pm) events = Some KeyHeld) ->
  status k events = Some st ->
  status k (events ++ restarted_events permits resolved)
  = Some (if decide (k ∈ resolved.*1) then KeyFree else if decide (k ∈ permit_key <$> permits) then KeySpent else st).
Proof.
  intros Hn Hh Est. unfold restarted_events. rewrite app_assoc, status_app, (status_ran k events _ Hn Hh).
  destruct (decide (k ∈ permit_key <$> permits)) as [Hin|Hout]; [by apply status_resolved|]. rewrite Est. apply status_resolved.
Qed.

(** ** Every step keeps the invariant *)

(** A task that does not hold a permit may come, go and change. *)
Lemma inv_asking store store' tasks tasks' events permits X :
  key_inv (MkKeyState store tasks events) ->
  world_inv (MkWorld store' permits X) -> permits ≡ₚ held tasks -> tracks X events ->
  held tasks' ≡ₚ held tasks ->
  (forall id args ph, tasks' !! id = Some (KeyAsking args ph) ->
     tasks !! id = Some (KeyAsking args ph) \/ running ph = true /\ is_ok (IdempotencyKey_try_from args.(ra_key)) = true) ->
  key_inv (MkKeyState store' tasks' events).
Proof.
  intros [_ Hh Ha] Hw Hp Ht He Hask. split; cbn in *.
  - exists permits, X. by rewrite He.
  - intros pm. rewrite He. apply Hh.
  - intros id args ph E. destruct (Hask id args ph E) as [E'|?]; [|done]. exact (Ha _ _ _ E').
Qed.

Lemma holds_in tasks id pm permits : tasks !! id = Some (KeyHolding pm) -> permits ≡ₚ held tasks -> pm ∈ permits.
Proof. intros E Hp. rewrite Hp, (held_delete tasks id _ E). by left. Qed.

(** The holder of a key ends: the log moves the key on from held. *)
Lemma inv_release store store' tasks events id pm more st' permits X Y :
  key_inv (MkKeyState store tasks events) -> tasks !! id = Some (KeyHolding pm) ->
  world_inv (MkWorld store permits X) -> permits ≡ₚ held tasks -> tracks X events ->
  world_inv (MkWorld store' (without pm permits) Y) ->
  Forall (fun ev => event_key ev = permit_key pm) more ->
  foldl (track (permit_key pm)) (Some KeyHeld) more = Some st' ->
  Y = (if decide (st' = KeyFree) then X ∖ {[permit_key pm]} else X) ->
  key_inv (MkKeyState store' (delete id tasks) (events ++ more)).
Proof.
  intros Hi Hid Hw Hp Ht Hw' Hm Hst ->. pose proof (held_delete tasks id _ Hid) as Hd. cbn in Hd.
  pose proof (si_permits _ _ (wi_state _ Hw)) as Hn. cbn in Hn. pose proof (holds_in _ _ _ _ Hid Hp) as Hin.
  pose proof (proj2 (wi_durable _ Hw pm Hin)) as HX. cbn in HX.
  assert (pm ∈ held tasks) as Hin' by (by rewrite <- Hp). pose proof (ki_held _ Hi pm Hin' : status _ events = _) as Hh.
  split; cbn [ky_store ky_tasks ky_events].
  - eexists (without pm permits), _. split_and!; [exact Hw'|apply without_held; [done|by rewrite Hp]|].
    eapply tracks_eq; [|eapply (tracks_grow X events (permit_key pm) more st'); [done|done|by rewrite status_app, Hh]].
    case_decide; set_solver.
  - intros q Hq. assert (permit_key q <> permit_key pm) as Hne.
    { eapply other_keys; [|exact Hq]. rewrite <- Hd, <- Hp. done. }
    apply held_stays; [apply (ki_held _ Hi); cbn; rewrite Hd; by right|]. eapply Forall_impl; [exact Hm|].
    intros ev Hev Hx. apply Hne. by rewrite <- Hev, <- Hx.
  - intros i args ph [_ E]%lookup_delete_Some. exact (ki_asking _ Hi _ _ _ E).
Qed.

Lemma turn_inv store tasks events id now keep s' :
  key_inv (MkKeyState store tasks events) -> key_step (KeyTurn id now keep) (MkKeyState store tasks events) = Some s' ->
  key_inv s'.
Proof.
  intros Hi E. cbn in E. destruct (tasks !! id) as [[args ph|pm]|] eqn:Eid; [|done..].
  destruct (ki_asking _ Hi _ _ _ Eid) as [Hr Hk]. destruct (ki_world _ Hi) as (permits & X & Hw & Hp & Ht). cbn in Hw, Hp, Ht.
  destruct (reserve_step args now ph store) as [ph' store'] eqn:Es. injection E as <-.
  pose proof (keep_reserve _ _ _ _ _ _ _ _ Hw Hr (valid_key_try _ Hk) Es) as Hkeep.
  pose proof (held_delete tasks id _ Eid) as Hd. cbn in Hd.
  assert (forall ph', running ph' = true -> world_inv (MkWorld store' permits X) ->
    key_inv (MkKeyState store' (<[id := KeyAsking args ph']> tasks) events)) as Hon.
  { intros ph1 Hr1 Hw1. eapply inv_asking; [exact Hi|exact Hw1|done|done|by rewrite (held_replace tasks id _ _ Eid), Hd|].
    intros i a p. rewrite lookup_insert. case_decide; [intros [= <- <-]; by right|by left]. }
  assert (forall permits1 X1 store1, world_inv (MkWorld store1 permits1 X1) -> permits1 ≡ₚ held tasks -> tracks X1 events ->
    key_inv (MkKeyState store1 (delete id tasks) events)) as Hoff.
  { intros permits1 X1 store1 Hw1 Hp1 Ht1. eapply inv_asking; [exact Hi|exact Hw1|done|done|by rewrite Hd|].
    intros i a p [_ E]%lookup_delete_Some. by left. }
  destruct ph' as [| | | | |[[pm|o]|err]]; try (by apply Hon); [|by eapply Hoff..].
  destruct Hkeep as (Hn & Hkey & Hw'). rewrite <- Hkey in Hn, Hw'. destruct keep.
  - pose proof (free_of_tracks _ _ _ Ht Hn) as Hf.
    assert (status (permit_key pm) (events ++ [KeyTaken (permit_key pm)]) = Some KeyHeld) as Hst
      by (rewrite status_last by done; by rewrite Hf).
    split; cbn.
    + exists (pm :: permits), ({[permit_key pm]} ∪ X). split_and!; [done|by rewrite (held_replace tasks id _ _ Eid), Hp, Hd|].
      eapply tracks_eq; [|eapply (tracks_grow X events (permit_key pm) [KeyTaken (permit_key pm)] KeyHeld); try done; by constructor].
      by rewrite decide_False.
    + intros q. rewrite (held_replace tasks id _ _ Eid). cbn. intros [->|Hq]%elem_of_cons; [done|].
      assert (q ∈ held tasks) as Hq' by (by rewrite Hd). pose proof (ki_held _ Hi q Hq' : status _ events = _) as Hst'.
      apply held_stays; [done|]. constructor; [|constructor]. cbn. intros Ek. rewrite Ek, Hst' in Hf. discriminate Hf.
    + intros i a p. rewrite lookup_insert. case_decide; [done|]. apply (ki_asking _ Hi).
  - pose proof (step_inv (LAbandon pm) _ (MkWorld (abandon pm store') (without pm (pm :: permits)) (({[permit_key pm]} ∪ X) ∖ {[permit_key pm]})) Hw') as Hw2.
    cbn [world_step w_store w_permits w_issued] in Hw2. rewrite bool_decide_eq_true_2 in Hw2 by (by left). specialize (Hw2 eq_refl).
    eapply Hoff; [exact Hw2| |].
    + rewrite without_held; [exact Hp| |done]. exact (si_permits _ _ (wi_state _ Hw')).
    + eapply tracks_eq; [|exact Ht]. set_solver.
Qed.

Lemma key_step_inv l s s' : key_inv s -> key_step l s = Some s' -> key_inv s'.
Proof.
  destruct s as [store tasks events]. intros Hi E.
  pose proof (ki_world _ Hi) as (permits & X & Hw & Hp & Ht). cbn in Hw, Hp, Ht.
  destruct l as [id args now|id now keep|id outcome now|id|id|resolve now]; [|by eapply turn_inv|..]; cbn in E.
  - destruct (tasks !! id) eqn:Eid; [done|]. destruct (is_ok _) eqn:Ek; [|done]. injection E as <-.
    eapply inv_asking; [exact Hi|exact Hw|done|done|by rewrite held_insert|].
    intros i a p. rewrite lookup_insert. case_decide; [intros [= <- <-]; by right|by left].
  - destruct (tasks !! id) as [[|pm]|] eqn:Eid; [done| |done]. injection E as <-.
    pose proof (fun w' => step_inv (LFinish pm outcome now) _ w' Hw) as Hw'. cbn [world_step w_store w_permits w_issued] in Hw'.
    rewrite bool_decide_eq_true_2 in Hw' by (by eapply holds_in).
    destruct (settles_key outcome);
      (eapply (inv_release _ _ _ _ _ pm); [exact Hi|done|exact Hw|done|done|exact (Hw' _ eq_refl)|by repeat constructor| |]).
    + cbn. by rewrite !track_same.
    + by rewrite decide_True.
    + cbn. by rewrite track_same.
    + by rewrite decide_False.
  - destruct (tasks !! id) as [[|pm]|] eqn:Eid; [done| |done]. injection E as <-.
    pose proof (fun w' => step_inv (LAbandon pm) _ w' Hw) as Hw'. cbn [world_step w_store w_permits w_issued] in Hw'.
    rewrite bool_decide_eq_true_2 in Hw' by (by eapply holds_in).
    eapply (inv_release _ _ _ _ _ pm); [exact Hi|done|exact Hw|done|done|exact (Hw' _ eq_refl)|by repeat constructor| |].
    + cbn. by rewrite track_same.
    + by rewrite decide_True.
  - destruct (tasks !! id) as [[args ph|pm]|] eqn:Eid; [| |done]; injection E as <-.
    { eapply inv_asking; [exact Hi|exact Hw|done|done| |intros i a p [_ E]%lookup_delete_Some; by left].
      by rewrite (held_delete tasks id _ Eid). }
    pose proof (fun w' => step_inv (LDrop pm) _ w' Hw) as Hw'. cbn [world_step w_store w_permits w_issued] in Hw'.
    rewrite bool_decide_eq_true_2 in Hw' by (by eapply holds_in).
    destruct (ip_durable pm);
      (eapply (inv_release _ _ _ _ _ pm); [exact Hi|done|exact Hw|done|done|exact (Hw' _ eq_refl)|by repeat constructor| |]).
    + cbn. by rewrite track_same.
    + by rewrite decide_False.
    + cbn. by rewrite !track_same.
    + by rewrite decide_True.
  - destruct (is_durable store ≫= log_open now) as [opened|] eqn:Eo; [|done]. injection E as <-.
    set (resolved := resolved_keys resolve opened.2).
    pose proof (step_inv (LRestart resolve now) _ (MkWorld (open_durable resolve now opened) [] (X ∖ list_to_set resolved.*1)) Hw) as Hw'.
    cbn [world_step w_store w_permits w_issued] in Hw'. rewrite Eo in Hw'. specialize (Hw' eq_refl).
    assert (NoDup (permit_key <$> held tasks)) as Hn by (rewrite <- Hp; exact (si_permits _ _ (wi_state _ Hw))).
    assert (forall pm, pm ∈ held tasks -> permit_key pm ∈ X) as HX by (intros pm Hpm; rewrite <- Hp in Hpm; exact (proj2 (wi_durable _ Hw pm Hpm))).
    split; cbn; [|by intros pm Hpm%not_elem_of_nil|by intros id args ph E%lookup_empty_Some].
    exists [], (X ∖ list_to_set resolved.*1). split_and!; [done|done|]. intros k. destruct (Ht k) as (st & Est & Hst).
    rewrite (status_restarted k events _ resolved st Hn (ki_held _ Hi) Est). eexists. split; [reflexivity|].
    rewrite elem_of_difference, elem_of_list_to_set. case_decide as Hr; [naive_solver|]. case_decide as Hk; [|naive_solver].
    split; [done|]. intros _. apply list_elem_of_fmap in Hk as (pm & -> & Hpm). split; [by apply HX|done].
Qed.

Lemma key_run_inv ls s s' : key_inv s -> key_run ls s = Some s' -> key_inv s'.
Proof.
  revert s. induction ls as [|l ls IH]; intros s Hi E; cbn in E; [by injection E as <-|].
  apply bind_Some in E as (s1 & E1 & E). eapply IH; [|exact E]. by eapply key_step_inv.
Qed.

Lemma fresh_key_inv store : fresh (MkWorld store [] ∅) -> key_inv (MkKeyState store ∅ []).
Proof.
  intros Hf%fresh_inv. split; cbn.
  - exists [], ∅. split_and!; [done|done|]. intros k. exists KeyFree. split; [done|]. set_solver.
  - by intros pm Hpm%not_elem_of_nil.
  - by intros id args ph E%lookup_empty_Some.
Qed.

(** What a log calls settled allows another attempt, or is remembered for a while only. *)
Definition settled_ok ev : Prop :=
  match ev with KeySettled _ o => settles_key o = true | KeyResolved _ o => safety_relevant o = false | _ => True end.

Lemma resolved_ordinary resolve loaded k (o : O) : (k, o) ∈ resolved_keys resolve loaded -> safety_relevant o = false.
Proof.
  destruct loaded as [es|]; [|by intros ?%not_elem_of_nil]. intros (d & _ & E)%list_elem_of_omap. unfold restore_state in E.
  destruct (de_state d) as [| |v]; [done..|]. destruct (resolve v) as [[o'|]|]; [|done..]. destruct (safety_relevant o') eqn:Es; [done|].
  by injection E as _ <-.
Qed.

Lemma key_step_settled l s s' :
  key_step l s = Some s' -> Forall settled_ok s.(ky_events) -> Forall settled_ok s'.(ky_events).
Proof.
  destruct s as [store tasks events]. cbn [ky_events].
  assert (forall more s', s'.(ky_events) = events ++ more -> Forall settled_ok more -> Forall settled_ok events ->
    Forall settled_ok s'.(ky_events)) as Hmore by (intros more s1 -> ? ?; by apply Forall_app).
  assert (forall s', s'.(ky_events) = events -> Forall settled_ok events -> Forall settled_ok s'.(ky_events)) as Hsame
    by (by intros s1 ->).
  intros E He. destruct l as [id args now|id now keep|id outcome now|id|id|resolve now]; cbn in E.
  - destruct (tasks !! id); [done|]. destruct (is_ok _); [|done]. injection E as <-. by apply Hsame.
  - destruct (tasks !! id) as [[args ph|pm]|]; [|done..]. destruct (reserve_step _ _ _ _) as [ph' store']. injection E as <-.
    destruct ph' as [| | | | |[[pm|o]|err]]; try (by apply Hsame). destruct keep; [|by apply Hsame].
    eapply Hmore; [done| |done]. by repeat constructor.
  - destruct (tasks !! id) as [[|pm]|]; [done| |done]. injection E as <-. eapply Hmore; [done| |done].
    destruct (settles_key outcome) eqn:Es; by repeat constructor.
  - destruct (tasks !! id) as [[|pm]|]; [done| |done]. injection E as <-. eapply Hmore; [done| |done]. by repeat constructor.
  - destruct (tasks !! id) as [[|pm]|]; [| |done]; injection E as <-; [by apply Hsame|]. eapply Hmore; [done| |done].
    destruct (ip_durable pm); by repeat constructor.
  - destruct (is_durable store ≫= log_open now) as [opened|]; [|done]. injection E as <-. eapply Hmore; [done| |done].
    apply Forall_app. split; [apply Forall_fmap, Forall_true; by intros pm|]. apply Forall_fmap, Forall_forall. intros [k o] Hin. cbn.
    by eapply resolved_ordinary.
Qed.

(** Two runs under one key are separated by the end of the first. *)
Lemma key_runs_separated s k h1 h2 h3 :
  key_inv s -> Forall settled_ok s.(ky_events) -> s.(ky_events) = h1 ++ KeyRan k :: h2 ++ KeyRan k :: h3 ->
  (exists o, KeySettled k o ∈ h2 /\ settles_key o = true)
  \/ (exists o, KeyResolved k o ∈ h2 /\ safety_relevant o = false) \/ KeyLost k ∈ h2.
Proof.
  intros Hi Hs E. destruct (ki_world _ Hi) as (permits & X & _ & _ & Ht). destruct (Ht k) as (st & Est & _). rewrite E in Est, Hs.
  rewrite Forall_forall in Hs.
  destruct (runs_are_separated k h1 h2 h3) as [[o Ho]|[[o Ho]|Hl]]; [by rewrite Est|left|right; left|by right; right]; exists o; (split; [done|]).
  - apply (Hs (KeySettled k o)). set_solver.
  - apply (Hs (KeyResolved k o)). set_solver.
Qed.
End Steps.
