(* ===== verification/Front.v ===== *)
(** * The authenticated runtime

    [AuthenticatedRuntime] of [crates/sdk-core/src/interface.rs]: every operation of the
    interface passes the guard of the caller's capability handle and the ownership of the
    session, and commands, sessions and checkpoints that carry an idempotency key pass the
    idempotency stores.

    A handler that waits (in [reserve], or for the runtime) is cut where it waits: [_begin] is
    the code up to the first wait, [_poll] one turn of [reserve] and what follows it, [_run] the
    call of the runtime and what follows it.  A handler that does not wait on others is one
    function.  The handle is the caller's, the rest is shared state.  Fresh identities and the
    clock are arguments; the dispatch counters, traces, metrics, the context graph and the
    information routes are left out. *)

From S2P Require Import Prelude Text SkillTypes Receipt Job Ledger Json Nodes Commands CommandJournal CommandLog Checkpoint CheckpointStore Recovery Executor RuntimeService Interface Authority SessionOwnership Idempotency.

(** ** Small parts *)

Definition error_with (ctx : RequestContext) (code : InterfaceErrorCode) (message : string) : InterfaceError :=
  MkInterfaceError code LayerInterface message ctx.(rc_correlation_id) None false None false None.

Definition internal_error (ctx : RequestContext) : InterfaceError := error_with ctx IfInternal "runtime operation failed".

Definition not_found (ctx : RequestContext) : InterfaceError := error_with ctx IfNotFound "runtime resource was not found".

Definition map_runtime_error (ctx : RequestContext) (e : RuntimeError) : InterfaceError :=
  match e with
  | RtNotFound detail => error_with ctx IfNotFound ("runtime resource was not found: " +:+ detail)
  | RtInvalidRequest detail => error_with ctx IfInvalidRequest ("runtime request is invalid: " +:+ detail)
  | RtEngineUnreachable detail => error_with ctx IfEngineUnreachable detail
  | RtInternal detail => error_with ctx IfInternal ("runtime operation failed: " +:+ detail)
  end.

Definition recovery_lookup_error (ctx : RequestContext) (e : RecoveryError) : InterfaceError :=
  match e with
  | RecoveryStore (StoreNotFound _) => not_found ctx
  | _ => internal_error ctx
  end.

(** What [recover] and [recovery_status] answer for an error of the service. *)
Definition recovery_call_error (ctx : RequestContext) (e : RecoveryError) : InterfaceError :=
  match e with SessionMismatch => not_found ctx | _ => internal_error ctx end.

Definition sets_files (a : ControlAction) : bool := match a with SetFiles _ => true | _ => false end.

Definition command_extra_capabilities (c : RuntimeCommand) : list Capability :=
  match c with
  | Primitive (UploadFiles _) | Primitive (UploadAndConfirm _) => [FileUpload]
  | Primitive (ControlActionCommand _ action) => if sets_files action then [FileUpload] else []
  | Primitive (DownloadUrl _) | Primitive (ClickAndWaitForDownload _) => [FileDownload]
  | Primitive (EvaluateJavaScript _) => [JavascriptEvaluate]
  | Primitive (ExtractStructured _) => [VisionAssist]
  | Primitive _ => []
  | Intent (Fill fill) => if sets_files fill.(fi_value) then [IntentExecute; FileUpload] else [IntentExecute]
  | Intent (CompleteForm form) =>
      if existsb (fun field => sets_files field.(cf_value)) form.(cfi_fields)
      then [IntentExecute; FileUpload] else [IntentExecute]
  | Intent (DetectChallenge _) | Intent (SolveChallenge _) => [IntentExecute; VisionAssist]
  | Intent _ => [IntentExecute]
  end.

(** Reading commands are let through when the history of keys is damaged. *)
Definition reads_only (c : RuntimeCommand) : bool :=
  match c with
  | Primitive (Commands.Inspect _) | Primitive ListPages | Primitive (AccessibilitySnapshot _)
  | Primitive (GetCookies _) | Primitive (NetworkLog _) => true
  | _ => false
  end.

(** The JSON values that are digested; [None] when serialization fails. *)
Class RequestJson := {
  session_json : SessionId -> option JsonValue;
  page_json : option PageId -> option JsonValue;
  command_json : RuntimeCommand -> option JsonValue;
  create_json : CreateSessionRequest -> option JsonValue;
  checkpoint_json : WorkflowCheckpoint * list Evidence -> option JsonValue;
}.

Abbreviation LifecycleOutcome := (SessionCheckpointOutcome SessionState WorkflowCheckpoint).

(** Where a handler with a key stands. *)
Inductive Phase (O A : Type) :=
| Reserving (args : ReserveArgs) (ph : ReservePhase (O := O)) (vision : bool)
| Running (permit : option IdempotencyPermit) (vision : bool)
| Answered (r : result A InterfaceError).
Arguments Reserving {O A} args ph vision.
Arguments Running {O A} permit vision.
Arguments Answered {O A} r.

Section Front.
Context {W P : Type} `{Sha2, ReceiptCodec, CheckpointCodec, BrowserPool, NodeLib, !ServicePages W}.
Context `{RetainedOutcome CommandOutcome, RetainedOutcome LifecycleOutcome, !DurableLog P, JsonLib, Decimal16, RequestJson}.
Variable recovery_text : RecoveryError -> string.

Record Front := MkFront {
  fr_authority : AuthorityStore;
  fr_commands : IdempotencyStore CommandOutcome P;
  fr_lifecycle : IdempotencyStore LifecycleOutcome P;
  fr_ownership : option RegistryState;
  fr_service : RuntimeService W;
}.
#[export] Instance eta_Front : Eta Front := fun f =>
  MkFront (fr_authority f) (fr_commands f) (fr_lifecycle f) (fr_ownership f) (fr_service f).

Definition Handler (A : Type) : Type := ST Front InterfaceError A.

(** The answer once the key is settled. *)
Definition settled {A} (r : result unit InterfaceError) (a : A) : result A InterfaceError :=
  match r with Ok _ => Ok a | Err e => Err e end.

(** Calls of the parts. *)
Definition on_service {A E} (m : ST (RuntimeService W) E A) : ST Front E A := fun f =>
  let '(r, s) := m f.(fr_service) in (r, f <| fr_service := s |>).
Definition on_commands {A} (m : Idem (O := CommandOutcome) (P := P) A) : Handler A := fun f =>
  let '(r, s) := m f.(fr_commands) in (r, f <| fr_commands := s |>).
Definition on_lifecycle {A} (m : Idem (O := LifecycleOutcome) (P := P) A) : Handler A := fun f =>
  let '(r, s) := m f.(fr_lifecycle) in (r, f <| fr_lifecycle := s |>).
Definition smap_err {S E F A} (g : E -> F) (m : ST S E A) : ST S F A := fun s => let '(r, s) := m s in (map_err g r, s).

Section Caller.
Variable authority : CapabilityHandle.
Variable ctx : RequestContext.

(** ** Guards *)

Definition authorized (operation : InterfaceOperation) (now : Time) : Handler unit := fun f =>
  (authorize f.(fr_authority) authority now ctx operation, f).

Definition holds_capability (capability : Capability) : Handler unit := fun f =>
  (Authority.require_capability authority ctx capability, f).

Definition holds_vision_assist : bool :=
  CapabilitySet_contains authority.(ch_capabilities) VisionAssist && CapabilitySet_contains ctx.(rc_capabilities) VisionAssist.

Definition commands_writable : Handler unit := on_commands (ensure_writable ctx.(rc_correlation_id)).
Definition lifecycle_writable : Handler unit := on_lifecycle (ensure_writable ctx.(rc_correlation_id)).

Definition owns (session : SessionId) (f : Front) : bool :=
  match f.(fr_ownership) with
  | Some registry => owns_authenticated_session registry ctx.(rc_principal_id) session
  | None => true
  end.

Definition require_owned_session (session : SessionId) : Handler unit := fun f =>
  (refuse_if (negb (owns session f)) (not_found ctx), f).

Fixpoint require_all (capabilities : list Capability) : Handler unit :=
  match capabilities with
  | [] => sret tt
  | c :: capabilities => holds_capability c ;; require_all capabilities
  end.

Definition authorize_submit (command : RuntimeCommand) (one_shot : bool) (now : Time) : Handler unit :=
  authorized SubmitCommand now ;;
  (if reads_only command then sret tt else commands_writable ;; lifecycle_writable) ;;
  require_all (command_extra_capabilities command) ;;
  if one_shot then holds_capability VisionAssist else sret tt.

(** ** Commands *)

Definition identity_of (e : CommandEnvelope) (one_shot : bool) : option Digest :=
  command_identity_sha256 e.(ev_schema_version) (session_json e.(ev_session_id)) (page_json e.(ev_page_id))
    (command_json e.(ev_command)) one_shot.

Definition reserve_args (key : IdempotencyKey) (operation : InterfaceOperation) (sha : Digest) : ReserveArgs :=
  MkReserveArgs ctx.(rc_principal_id) key operation sha ctx.(rc_deadline) ctx.(rc_correlation_id).

(** The key of a request opens a reservation, under the digest of its content. *)
Definition open_reservation {O A} (operation : InterfaceOperation) (sha : option Digest) (fresh : CorrelationId)
    (vision : bool) (now : Time) : Handler (Phase O A) :=
  match ctx.(rc_idempotency_key) with
  | None => sret (Running None vision)
  | Some key =>
      do digest <- slift (ok_or sha (canonicalization_error fresh));
      sret (Reserving (reserve_args key operation digest) (Starting now) vision)
  end.

(** A handler whose first part failed has its answer. *)
Definition begun {O A} (m : Handler (Phase O A)) (f : Front) : Phase O A * Front :=
  match m f with
  | (Ok phase, f) => (phase, f)
  | (Err e, f) => (Answered (Err e), f)
  end.

Definition submit_guard (e : CommandEnvelope) (one_shot : bool) (now : Time) : Handler unit :=
  authorize_submit e.(ev_command) one_shot now ;; require_owned_session e.(ev_session_id).

Definition submit_begin (e : CommandEnvelope) (one_shot : bool) (fresh : CorrelationId) (now : Time) (f : Front)
    : Phase CommandOutcome CommandOutcome * Front :=
  begun (submit_guard e one_shot now ;;
         open_reservation SubmitCommand (identity_of e one_shot) fresh holds_vision_assist now) f.

(** A key that was acquired is given back when the guard no longer passes. *)
Definition submit_acquired (e : CommandEnvelope) (one_shot : bool) (permit : IdempotencyPermit) (vision : bool) (now : Time)
    (f : Front) : Phase CommandOutcome CommandOutcome * Front :=
  match submit_guard e one_shot now f with
  | (Ok _, f) => (Running (Some permit) vision, f)
  | (Err error, f) => (Answered (Err error), f <| fr_commands := abandon permit f.(fr_commands) |>)
  end.

Definition submit_replayed (e : CommandEnvelope) (one_shot : bool) (outcome : CommandOutcome) (now : Time)
    : Handler CommandOutcome := submit_guard e one_shot now ;; sret outcome.

Definition submit_poll (e : CommandEnvelope) (one_shot : bool) (now : Time) (phase : Phase CommandOutcome CommandOutcome)
    (f : Front) : Phase CommandOutcome CommandOutcome * Front :=
  match phase with
  | Reserving args ph vision =>
      let '(ph, s) := reserve_step args now ph f.(fr_commands) in
      let f := f <| fr_commands := s |> in
      match ph with
      | Finished (Ok (Acquired permit)) => submit_acquired e one_shot permit vision now f
      | Finished (Ok (Replay outcome)) => let '(r, f) := submit_replayed e one_shot outcome now f in (Answered r, f)
      | Finished (Err error) => (Answered (Err error), f)
      | _ => (Reserving args ph vision, f)
      end
  | _ => (phase, f)
  end.

Definition submit_run (e : CommandEnvelope) (one_shot : bool) (now : Time) (phase : Phase CommandOutcome CommandOutcome)
    (f : Front) : Phase CommandOutcome CommandOutcome * Front :=
  match phase with
  | Running permit vision =>
      let '(outcome, s) := submit_with_vision_grant e vision one_shot now f.(fr_service) in
      let f := f <| fr_service := s |> in
      match permit with
      | None => (Answered (Ok outcome), f)
      | Some permit => let '(r, f) := on_commands (finish permit outcome now) f in (Answered (settled r outcome), f)
      end
  | _ => (phase, f)
  end.

(** *** With a checkpoint of its own *)

Definition AutoAnswer : Type := CommandOutcome * option CheckpointId.

Definition auto_guard (e : CommandEnvelope) (now : Time) : Handler unit :=
  authorized CreateCheckpoint now ;;
  lifecycle_writable ;;
  authorize_submit e.(ev_command) false now ;;
  require_owned_session e.(ev_session_id).

Definition auto_begin (e : CommandEnvelope) (fresh : CorrelationId) (now : Time) (f : Front)
    : Phase CommandOutcome AutoAnswer * Front :=
  begun (auto_guard e now ;;
         open_reservation SubmitCommand (identity_of e false) fresh holds_vision_assist now) f.

Definition auto_replayed (e : CommandEnvelope) (outcome : CommandOutcome) (now : Time) : Handler AutoAnswer :=
  authorized CreateCheckpoint now ;;
  authorize_submit e.(ev_command) false now ;;
  require_owned_session e.(ev_session_id) ;;
  sret (outcome, None).

(** Here an acquired key is used without looking at the guard again. *)
Definition auto_poll (e : CommandEnvelope) (now : Time) (phase : Phase CommandOutcome AutoAnswer) (f : Front)
    : Phase CommandOutcome AutoAnswer * Front :=
  match phase with
  | Reserving args ph vision =>
      let '(ph, s) := reserve_step args now ph f.(fr_commands) in
      let f := f <| fr_commands := s |> in
      match ph with
      | Finished (Ok (Acquired permit)) => (Running (Some permit) vision, f)
      | Finished (Ok (Replay outcome)) => let '(r, f) := auto_replayed e outcome now f in (Answered r, f)
      | Finished (Err error) => (Answered (Err error), f)
      | _ => (Reserving args ph vision, f)
      end
  | _ => (phase, f)
  end.

Definition auto_run (e : CommandEnvelope) (id : CheckpointId) (nonce : Uuid) (now : Time)
    (phase : Phase CommandOutcome AutoAnswer) (f : Front) : Phase CommandOutcome AutoAnswer * Front :=
  match phase with
  | Running permit vision =>
      let '(r, s) := submit_with_auto_checkpoint recovery_text e vision false id nonce now f.(fr_service) in
      let f := f <| fr_service := s |> in
      match permit, r with
      | None, Ok (outcome, id) => (Answered (Ok (outcome, Some id)), f)
      | None, Err error => (Answered (Err (map_runtime_error ctx error)), f)
      | Some permit, Ok (outcome, id) =>
          let '(r, f) := on_commands (finish permit outcome now) f in (Answered (settled r (outcome, Some id)), f)
      | Some permit, Err error =>
          (Answered (Err (map_runtime_error ctx error)), f <| fr_commands := abandon permit f.(fr_commands) |>)
      end
  | _ => (phase, f)
  end.
(** ** Sessions *)

(** The rest of [dispatch_create_session] once the service has answered. *)
Definition finish_ownership (reservation : option Reservation) (session : SessionState) : Handler SessionState := fun f =>
  match reservation, f.(fr_ownership) with
  | Some reservation, Some registry =>
      let '(r, registry) := finalize reservation session.(ses_id) registry in
      let f := f <| fr_ownership := Some registry |> in
      match r with
      | Ok _ => (Ok session, f)
      | Err _ =>
          let '(_, f) := on_service (manager_delete session.(ses_id)) f in
          (Err (error_with ctx IfResourceExhausted "session ownership finalization failed"), f)
      end
  | _, _ => (Ok session, f)
  end.

Definition reserve_ownership : Handler (option Reservation) := fun f =>
  match f.(fr_ownership) with
  | None => (Ok None, f)
  | Some registry =>
      let '(r, registry) := reserve ctx.(rc_principal_id) registry in
      let f := f <| fr_ownership := Some registry |> in
      (match r with
       | Ok reservation => Ok (Some reservation)
       | Err _ => Err (error_with ctx IfResourceExhausted "session ownership capacity exhausted")
       end, f)
  end.

Definition drop_ownership (reservation : option Reservation) (f : Front) : Front :=
  match reservation with
  | Some reservation => f <| fr_ownership := drop_reservation reservation <$> f.(fr_ownership) |>
  | None => f
  end.

Definition capability_if (flag : bool) (c : Capability) : Handler unit := if flag then holds_capability c else sret tt.

Definition dispatch_create_session (req : CreateSessionRequest) (id : SessionId) (now : Time) : Handler SessionState :=
  capability_if (req.(cs_execution_policy).(xp_fingerprint) || req.(cs_zigzagzig)) BrowserFingerprint ;;
  capability_if (req.(cs_execution_policy).(xp_humanize) || req.(cs_zigzagzig)) BrowserHumanize ;;
  do reservation <- reserve_ownership;
  fun f =>
    match on_service (service_create_session req id now) f with
    | (Err error, f) => (Err (map_runtime_error ctx error), drop_ownership reservation f)
    | (Ok session, f) => finish_ownership reservation session f
    end.

Definition create_begin (req : CreateSessionRequest) (fresh : CorrelationId) (now : Time) (f : Front)
    : Phase LifecycleOutcome SessionState * Front :=
  begun (authorized CreateSession now ;; lifecycle_writable ;;
         open_reservation CreateSession (canonical_sha256 (create_json req)) fresh false now) f.

(** A turn of [reserve] on the store of sessions and checkpoints; [expect] is the outcome that
    the operation replays. *)
Definition lifecycle_poll {A} (expect : LifecycleOutcome -> option A) (now : Time) (phase : Phase LifecycleOutcome A) (f : Front)
    : Phase LifecycleOutcome A * Front :=
  match phase with
  | Reserving args ph vision =>
      let '(ph, s) := reserve_step args now ph f.(fr_lifecycle) in
      let f := f <| fr_lifecycle := s |> in
      match ph with
      | Finished (Ok (Acquired permit)) => (Running (Some permit) vision, f)
      | Finished (Ok (Replay outcome)) => (Answered (ok_or (expect outcome) (internal_error ctx)), f)
      | Finished (Err error) => (Answered (Err error), f)
      | _ => (Reserving args ph vision, f)
      end
  | _ => (phase, f)
  end.

Definition create_poll : Time -> Phase LifecycleOutcome SessionState -> Front -> Phase LifecycleOutcome SessionState * Front :=
  lifecycle_poll (fun o => match o with OutSession session => Some session | OutCheckpoint _ => None end).

Definition create_run (req : CreateSessionRequest) (id : SessionId) (now : Time) (phase : Phase LifecycleOutcome SessionState)
    (f : Front) : Phase LifecycleOutcome SessionState * Front :=
  match phase with
  | Running None _ => let '(r, f) := dispatch_create_session req id now f in (Answered r, f)
  | Running (Some permit) _ =>
      match dispatch_create_session req id now f with
      | (Ok session, f) =>
          let '(r, f) := on_lifecycle (finish permit (OutSession session) now) f in (Answered (settled r session), f)
      | (Err error, f) =>
          (Answered (Err error),
           f <| fr_lifecycle := (if bool_decide (error.(ie_code) = IfMissingCapability) then abandon permit f.(fr_lifecycle)
                                 else drop_permit permit f.(fr_lifecycle)) |>)
      end
  | _ => (phase, f)
  end.

Definition list_sessions (now : Time) : Handler (list SessionState) :=
  authorized ReadSession now ;;
  do f <- sget;
  sret (filter (fun session => owns session.(ses_id) f = true) (manager_list f.(fr_service))).

(** Pages the session had, by its own record and by the page registry. *)
Definition forget_pages (session : SessionId) (recorded : list PageId) (f : Front) : Front :=
  let '(removed, w) := pg_remove_session_pages session f.(fr_service).(sv_pages) in
  f <| fr_service := f.(fr_service) <| sv_pages := pg_forget_all (remove_dups (recorded ++ removed)) w |> |>.

Definition delete_session (session : SessionId) (now : Time) : Handler unit :=
  authorized DeleteSession now ;;
  require_owned_session session ;;
  do f <- sget;
  let recorded := match manager_get session f.(fr_service) with Ok state => state.(ses_page_ids) | Err _ => [] end in
  smap_err (map_runtime_error ctx) (on_service (manager_delete session)) ;;
  smodify (forget_pages session recorded) ;;
  smodify (fun f => f <| fr_ownership := release_authenticated_session ctx.(rc_principal_id) session <$> f.(fr_ownership) |>).

Definition front_open_page (session : SessionId) (now : Time) : Handler PageState :=
  authorized OpenPage now ;;
  lifecycle_writable ;;
  require_owned_session session ;;
  smap_err (map_runtime_error ctx) (on_service (service_open_page session now)).

(** ** Checkpoints and recovery *)

Definition checkpoint_begin (c : WorkflowCheckpoint) (evidence : list Evidence) (fresh : CorrelationId) (now : Time) (f : Front)
    : Phase LifecycleOutcome WorkflowCheckpoint * Front :=
  begun (authorized CreateCheckpoint now ;; require_owned_session c.(cp_session_id) ;; lifecycle_writable ;;
         open_reservation CreateCheckpoint (canonical_sha256 (checkpoint_json (c, evidence))) fresh false now) f.

Definition checkpoint_poll
    : Time -> Phase LifecycleOutcome WorkflowCheckpoint -> Front -> Phase LifecycleOutcome WorkflowCheckpoint * Front :=
  lifecycle_poll (fun o => match o with OutCheckpoint c => Some c | OutSession _ => None end).

Definition dispatch_checkpoint (c : WorkflowCheckpoint) (evidence : list Evidence) (nonce : Uuid) : Handler WorkflowCheckpoint :=
  smap_err (fun _ => internal_error ctx) (on_service (checkpoint_with_evidence c evidence nonce)).

Definition checkpoint_run (c : WorkflowCheckpoint) (evidence : list Evidence) (nonce : Uuid) (now : Time)
    (phase : Phase LifecycleOutcome WorkflowCheckpoint) (f : Front) : Phase LifecycleOutcome WorkflowCheckpoint * Front :=
  match phase with
  | Running None _ => let '(r, f) := dispatch_checkpoint c evidence nonce f in (Answered r, f)
  | Running (Some permit) _ =>
      match dispatch_checkpoint c evidence nonce f with
      | (Ok saved, f) =>
          let '(r, f) := on_lifecycle (finish permit (OutCheckpoint saved) now) f in (Answered (settled r saved), f)
      | (Err error, f) => (Answered (Err error), f <| fr_lifecycle := drop_permit permit f.(fr_lifecycle) |>)
      end
  | _ => (phase, f)
  end.

(** A call of the page runtime that only answers with [not_found]. *)
Definition found {A E} (m : ST W E A) : Handler A := smap_err (fun _ => not_found ctx) (on_service (on_pages m)).

Fixpoint resolve_each (ids : list CommandId) : Handler (list Evidence) :=
  match ids with
  | [] => sret []
  | id :: ids =>
      do session_id <- found (pg_command_session id);
      require_owned_session session_id ;;
      do items <- found (pg_evidence_for_command id);
      do rest <- resolve_each ids;
      sret (items ++ rest)
  end.

Definition resolve_command_evidence (ids : list CommandId) (now : Time) : Handler (list Evidence) :=
  authorized CreateCheckpoint now ;; resolve_each ids.

Definition front_recovery_status (workflow : WorkflowId) (now : Time)
    : Handler (WorkflowId * WorkflowCheckpoint * list RecoveryReceipt) :=
  authorized ReadCheckpoint now ;;
  do session_id <- smap_err (recovery_lookup_error ctx) (on_service (recovery_session workflow));
  require_owned_session session_id ;;
  smap_err (recovery_call_error ctx) (on_service (recovery_status workflow)).

Definition front_workflows_for_session (session : SessionId) (limit : nat) (now : Time) : Handler (list WorkflowId) :=
  authorized ReadCheckpoint now ;;
  require_owned_session session ;;
  smap_err (fun _ => internal_error ctx) (on_service (service_workflows_for_session session limit)).

Definition front_recover (workflow : WorkflowId) (attempt_id : AttemptId) (nonce : Uuid) (now : Time) : Handler RecoveryDecision :=
  authorized RecoverWorkflow now ;;
  commands_writable ;;
  lifecycle_writable ;;
  do session_id <- smap_err (recovery_lookup_error ctx) (on_service (recovery_session workflow));
  require_owned_session session_id ;;
  smap_err (recovery_call_error ctx) (on_service (service_recover_for_session workflow session_id attempt_id now nonce)).
End Caller.
End Front.
