(* ===== verification/FrontThms.v ===== *)
(** * What reaches the runtime through the front

    A command reaches the runtime only when its caller is valid, holds the capabilities the
    command needs and owns its session; who does not own a session changes nothing of it and
    reads nothing of it; a session that changes what a page sees is created only for who
    may. *)

From S2P Require Import Prelude Text SkillTypes Receipt Job Ledger Json Nodes Commands CommandJournal CommandLog Checkpoint CheckpointStore Recovery Executor RuntimeService Interface Authority SessionOwnership Idempotency IdempotencySteps Front.

Section Guards.
Context {W P : Type} `{Sha2, ReceiptCodec, CheckpointCodec, BrowserPool, NodeLib, !ServicePages W}.
Context `{RetainedOutcome CommandOutcome, RetainedOutcome LifecycleOutcome, !DurableLog P, JsonLib, Decimal16, RequestJson}.
Abbreviation front := (Front (W := W) (P := P)).
Implicit Types f : front.

(** ** Guards *)

(** A handler that only looks. *)
Definition looks {A} (m : Handler (W := W) (P := P) A) : Prop := forall f, (m f).2 = f.

Lemma looks_ret {A} (a : A) : looks (sret a).
Proof. done. Qed.

Lemma looks_bind {A B} (m : Handler A) (k : A -> Handler B) : looks m -> (forall a, looks (k a)) -> looks (sbind m k).
Proof.
  intros Hm Hk f. unfold sbind. pose proof (Hm f) as E. destruct (m f) as [[a|e] f1]; cbn in E; subst; [apply Hk|done].
Qed.

Lemma looks_ok {A B} (m : Handler A) (k : A -> Handler B) f b f' :
  looks m -> sbind m k f = (Ok b, f') -> exists a, m f = (Ok a, f) /\ k a f = (Ok b, f').
Proof. intros Hm (a & f1 & E1 & E2)%sbind_ok. pose proof (Hm f) as E. rewrite E1 in E. cbn in E. subst. by exists a. Qed.

Lemma looks_err {A B} (m : Handler A) (k : A -> Handler B) f e :
  looks m -> m f = (Err e, f) -> sbind m k f = (Err e, f).
Proof. intros _ E. unfold sbind. by rewrite E. Qed.

Lemma looks_authorized authority ctx operation now : looks (authorized authority ctx operation now).
Proof. done. Qed.

Lemma looks_capability authority ctx c : looks (holds_capability authority ctx c).
Proof. done. Qed.

Lemma looks_commands_writable ctx : looks (commands_writable ctx).
Proof.
  intros f. unfold commands_writable, on_commands, ensure_writable. by destruct (integrity_issue _), f.
Qed.

Lemma looks_lifecycle_writable ctx : looks (lifecycle_writable ctx).
Proof.
  intros f. unfold lifecycle_writable, on_lifecycle, ensure_writable. by destruct (integrity_issue _), f.
Qed.

Lemma looks_owned ctx session : looks (require_owned_session ctx session).
Proof. done. Qed.

Lemma looks_all authority ctx cs : looks (require_all authority ctx cs).
Proof. induction cs; [done|]. apply looks_bind; [done|]. by intros []. Qed.

Lemma looks_authorize_submit authority ctx c one_shot now : looks (authorize_submit authority ctx c one_shot now).
Proof.
  apply looks_bind; [done|]. intros []. apply looks_bind.
  { destruct (reads_only c); [done|]. apply looks_bind; [apply looks_commands_writable|]. intros []. apply looks_lifecycle_writable. }
  intros []. apply looks_bind; [apply looks_all|]. intros []. by destruct one_shot.
Qed.

Lemma looks_submit_guard authority ctx e one_shot now : looks (submit_guard authority ctx e one_shot now).
Proof. apply looks_bind; [apply looks_authorize_submit|]. by intros []. Qed.

Lemma looks_auto_guard authority ctx e now : looks (auto_guard authority ctx e now).
Proof.
  apply looks_bind; [done|]. intros []. apply looks_bind; [apply looks_lifecycle_writable|]. intros [].
  apply looks_bind; [apply looks_authorize_submit|]. by intros [].
Qed.

Lemma looks_open {O A} ctx operation sha fresh vision now : looks (open_reservation (O := O) (A := A) ctx operation sha fresh vision now).
Proof. unfold open_reservation. destruct (rc_idempotency_key ctx); [|done]. apply looks_bind; [|done]. by intros ?. Qed.

Lemma begun_looks {O A} (m : Handler (Phase O A)) f : looks m -> (begun m f).2 = f.
Proof. intros Hm. unfold begun. pose proof (Hm f) as E. by destruct (m f) as [[a|e] f1]. Qed.

(** ** What a passed guard says *)

(** The handle is alive and the request is its own and in time. *)
Record admissible_caller (authority : CapabilityHandle) (ctx : RequestContext) (now : Time) f : Prop := MkAdmissibleCaller {
  caller_valid : is_valid_at f.(fr_authority) authority now = true;
  caller_same : ctx.(rc_principal_id) = authority.(ch_principal_id);
  caller_in_time : now < ctx.(rc_deadline);
}.

Definition holds (authority : CapabilityHandle) (ctx : RequestContext) (c : Capability) : Prop :=
  handle_allows authority c = true /\ CapabilitySet_contains ctx.(rc_capabilities) c = true.

Lemma capability_ok authority ctx c f x f' : holds_capability authority ctx c f = (Ok x, f') -> holds authority ctx c.
Proof.
  unfold holds_capability, Authority.require_capability, holds.
  by destruct (handle_allows authority c), (CapabilitySet_contains (rc_capabilities ctx) c).
Qed.

Lemma authorized_ok authority ctx operation now f x f' :
  authorized authority ctx operation now f = (Ok x, f') ->
  admissible_caller authority ctx now f /\ Forall (holds authority ctx) (required operation).
Proof.
  unfold authorized, authorize, guard_validate, validate_at. intros [= E _].
  apply rbind_ok in E as ([] & E & Ec). apply rbind_ok in E as ([] & Ed & Ev).
  split.
  - destruct (Z.leb_spec (rc_deadline ctx) now); [done|]. cbn in Ev.
    destruct (is_invalid_at _ _ _) eqn:Ei; [done|]. cbn in Ev. case_bool_decide; [|done]. split; [unfold is_valid_at; by rewrite Ei|done|lia].
  - destruct x. apply check_all_ok in Ec. eapply Forall_impl; [exact Ec|]. intros c E.
    apply (capability_ok authority ctx c f tt f). unfold holds_capability. by rewrite E.
Qed.

Lemma require_all_ok authority ctx cs f x f' :
  require_all authority ctx cs f = (Ok x, f') -> Forall (holds authority ctx) cs.
Proof.
  induction cs as [|c cs IH]; [constructor|]. intros E. apply looks_ok in E as (a & E1 & E2); [|done].
  constructor; [by eapply capability_ok|auto].
Qed.

Lemma owned_ok ctx session f x f' : require_owned_session ctx session f = (Ok x, f') -> owns ctx session f = true.
Proof. unfold require_owned_session. by destruct (owns ctx session f). Qed.

(** Everything a submission needs. *)
Record cleared (authority : CapabilityHandle) (ctx : RequestContext) (e : CommandEnvelope) (one_shot : bool) (now : Time) f
    : Prop := MkCleared {
  cleared_caller : admissible_caller authority ctx now f;
  cleared_mutate : holds authority ctx BrowserMutate;
  cleared_extra : Forall (holds authority ctx) (command_extra_capabilities e.(ev_command));
  cleared_vision : one_shot = true -> holds authority ctx VisionAssist;
  cleared_owned : owns ctx e.(ev_session_id) f = true;
  cleared_history : reads_only e.(ev_command) = false ->
    integrity_issue f.(fr_commands) = None /\ integrity_issue f.(fr_lifecycle) = None;
}.

Lemma commands_writable_ok ctx f x f' : commands_writable ctx f = (Ok x, f') -> integrity_issue f.(fr_commands) = None.
Proof. unfold commands_writable, on_commands, ensure_writable. by destruct (integrity_issue (fr_commands f)). Qed.

Lemma lifecycle_writable_ok ctx f x f' : lifecycle_writable ctx f = (Ok x, f') -> integrity_issue f.(fr_lifecycle) = None.
Proof. unfold lifecycle_writable, on_lifecycle, ensure_writable. by destruct (integrity_issue (fr_lifecycle f)). Qed.

Lemma submit_guard_ok authority ctx e one_shot now f x f' :
  submit_guard authority ctx e one_shot now f = (Ok x, f') -> cleared authority ctx e one_shot now f.
Proof.
  intros E. apply looks_ok in E as (a & Ea & Eo); [|apply looks_authorize_submit]. apply owned_ok in Eo.
  unfold authorize_submit in Ea. apply looks_ok in Ea as (a1 & E1 & E2); [|done].
  apply authorized_ok in E1 as [Hc Hm]. apply (Forall_singleton (holds authority ctx) BrowserMutate) in Hm.
  apply looks_ok in E2 as (a2 & E2 & E3).
  2: { destruct (reads_only _); [done|]. apply looks_bind; [apply looks_commands_writable|]. intros []. apply looks_lifecycle_writable. }
  apply looks_ok in E3 as (a3 & E3 & E4); [|apply looks_all]. apply require_all_ok in E3.
  split; auto.
  - intros ->. by eapply capability_ok.
  - intros Er. rewrite Er in E2. apply looks_ok in E2 as (a4 & E5 & E6); [|apply looks_commands_writable].
    split; [by eapply commands_writable_ok|by eapply lifecycle_writable_ok].
Qed.

(** ** Submissions *)

Lemma begun_running {O A} (m : Handler (Phase O A)) f permit vision f' :
  begun m f = (Running permit vision, f') -> m f = (Ok (Running permit vision), f').
Proof. unfold begun. destruct (m f) as [[phase|e] f1]; [by intros [= -> ->]|done]. Qed.

Lemma submit_begin_running authority ctx e one_shot fresh now f permit vision f' :
  submit_begin authority ctx e one_shot fresh now f = (Running permit vision, f') ->
  cleared authority ctx e one_shot now f /\ permit = None /\ ctx.(rc_idempotency_key) = None /\ vision = holds_vision_assist authority ctx.
Proof.
  intros E%begun_running. apply looks_ok in E as (a & E1 & E2); [|apply looks_submit_guard].
  apply submit_guard_ok in E1. unfold open_reservation in E2. destruct (rc_idempotency_key ctx).
  - apply sbind_ok in E2 as (d & f1 & _ & E2). done.
  - by injection E2 as <- <- _.
Qed.

Lemma submit_poll_running authority ctx e one_shot now args ph vision f permit vision' f' :
  submit_poll authority ctx e one_shot now (Reserving args ph vision) f = (Running permit vision', f') ->
  exists pm s, permit = Some pm /\ reserve_step args now ph f.(fr_commands) = (Finished (Ok (Acquired pm)), s)
    /\ f' = f <| fr_commands := s |> /\ cleared authority ctx e one_shot now f'.
Proof.
  unfold submit_poll. destruct (reserve_step args now ph (fr_commands f)) as [ph' s] eqn:Er.
  destruct ph' as [| | | | |[[pm|o]|err]]; try done; [|by destruct (submit_replayed _ _ _ _ _ _ _)].
  unfold submit_acquired. pose proof (looks_submit_guard authority ctx e one_shot now (f <| fr_commands := s |>)) as Hl.
  destruct (submit_guard _ _ _ _ _ _) as [[[]|err] f1] eqn:Eg; [|done]. cbn in Hl. subst f1. intros [= <- <- <-].
  apply submit_guard_ok in Eg. by exists pm, s.
Qed.

Lemma submit_begin_same authority ctx e one_shot fresh now f : (submit_begin authority ctx e one_shot fresh now f).2 = f.
Proof. apply begun_looks, looks_bind; [apply looks_submit_guard|]. intros []. apply looks_open. Qed.

(** A turn of a submission touches the store of its keys and nothing else. *)
Lemma submit_poll_same authority ctx e one_shot now phase f :
  exists s, (submit_poll authority ctx e one_shot now phase f).2 = f <| fr_commands := s |>.
Proof.
  assert (f = f <| fr_commands := f.(fr_commands) |>) as Hf by (by destruct f).
  destruct phase as [args ph vision|pm v|r]; [|by exists f.(fr_commands)..].
  unfold submit_poll, submit_acquired, submit_replayed. destruct (reserve_step _ _ _ _) as [ph' s].
  pose proof (looks_submit_guard authority ctx e one_shot now (f <| fr_commands := s |>)) as Hl.
  destruct ph' as [| | | | |[[pm|o]|err]]; try (by exists s);
    unfold sbind; destruct (submit_guard _ _ _ _ _ _) as [[[]|err] f1]; cbn in Hl; subst f1; by eexists.
Qed.

(** C5: a plain submission, one that does not bring its own checkpoint, becomes ready to run
    only when, at that moment, the handle of the caller is valid and is the one of the
    request, the request is in time, handle and request both carry the capabilities that
    mutation and this command need, the caller owns the session, and the histories of keys
    are sound unless the command only reads; so also when it had to wait for its key.  Until
    it is ready nothing but the store of keys changes, and only a submission that is ready
    is run, by asking the service for this command. *)
Theorem dispatch_is_cleared authority ctx e one_shot fresh now phase f :
  (let '(phase', f') := submit_begin authority ctx e one_shot fresh now f in
   f' = f /\ forall permit vision, phase' = Running permit vision ->
     cleared authority ctx e one_shot now f' /\ vision = holds_vision_assist authority ctx)
  /\ (let '(phase', f') := submit_poll authority ctx e one_shot now phase f in
      f' = f <| fr_commands := f'.(fr_commands) |>
      /\ forall permit vision, phase' = Running permit vision -> phase' = phase \/ cleared authority ctx e one_shot now f')
  /\ (let '(phase', f') := submit_run e one_shot now phase f in
      match phase with
      | Running _ vision => f'.(fr_service) = (submit_with_vision_grant e vision one_shot now f.(fr_service)).2
      | _ => phase' = phase /\ f' = f
      end).
Proof.
  split; [|split].
  - pose proof (submit_begin_same authority ctx e one_shot fresh now f) as Hs.
    destruct (submit_begin _ _ _ _ _ _ _) as [phase' f'] eqn:E. cbn in Hs. subst f'. split; [done|].
    intros permit vision ->. by apply submit_begin_running in E as (? & _ & _ & ?).
  - destruct (submit_poll_same authority ctx e one_shot now phase f) as [s Hs].
    destruct (submit_poll _ _ _ _ _ _ _) as [phase' f'] eqn:E. cbn in Hs. split; [by rewrite Hs|].
    intros permit vision ->. destruct phase as [args ph v|pm v|r]; [right|left; by injection E as -> -> _|done].
    by apply submit_poll_running in E as (pm & s1 & _ & _ & _ & ?).
  - unfold submit_run. destruct phase as [args ph v|pm v|r]; [done| |done].
    destruct (submit_with_vision_grant e v one_shot now (fr_service f)) as [o s]. destruct pm as [pm|]; [|done].
    unfold on_commands. by destruct (finish pm o now _).
Qed.

(** ** Strangers *)

(** Operations on a session that the caller names. *)
Inductive SessionCall :=
| AskSubmit (e : CommandEnvelope) (one_shot : bool) (fresh : CorrelationId)
| AskAuto (e : CommandEnvelope) (fresh : CorrelationId)
| AskDelete (session : SessionId)
| AskOpenPage (session : SessionId)
| AskCheckpoint (c : WorkflowCheckpoint) (evidence : list Evidence) (fresh : CorrelationId)
| AskWorkflows (session : SessionId) (limit : nat).

Definition call_session (call : SessionCall) : SessionId :=
  match call with
  | AskSubmit e _ _ | AskAuto e _ => e.(ev_session_id)
  | AskDelete session | AskOpenPage session | AskWorkflows session _ => session
  | AskCheckpoint c _ _ => c.(cp_session_id)
  end.

(** Whether an operation has been refused. *)
Definition refusal {O A} (phase : Phase O A) : option InterfaceError :=
  match phase with Answered (Err e) => Some e | _ => None end.
Definition failure {A} (r : result A InterfaceError) : option InterfaceError :=
  match r with Err e => Some e | Ok _ => None end.

Definition ask_session (authority : CapabilityHandle) (ctx : RequestContext) (call : SessionCall) (now : Time) f
    : option InterfaceError * front :=
  match call with
  | AskSubmit e one_shot fresh => let '(p, f) := submit_begin authority ctx e one_shot fresh now f in (refusal p, f)
  | AskAuto e fresh => let '(p, f) := auto_begin authority ctx e fresh now f in (refusal p, f)
  | AskDelete session => let '(r, f) := delete_session authority ctx session now f in (failure r, f)
  | AskOpenPage session => let '(r, f) := front_open_page authority ctx session now f in (failure r, f)
  | AskCheckpoint c evidence fresh =>
      let '(p, f) := checkpoint_begin authority ctx c evidence fresh now f in (refusal p, f)
  | AskWorkflows session limit => let '(r, f) := front_workflows_for_session authority ctx session limit now f in (failure r, f)
  end.

(** [m] ends in an error and changes nothing. *)
Definition refuses {A} (m : Handler (W := W) (P := P) A) f : Prop := exists e, m f = (Err e, f).

Lemma refuses_first {A B} (m : Handler A) (k : A -> Handler B) f :
  looks m -> (forall a, refuses (k a) f) -> refuses (sbind m k) f.
Proof.
  intros Hm Hk. unfold refuses, sbind. pose proof (Hm f) as E. destruct (m f) as [[a|e] f1]; cbn in E; subst f1; [apply Hk|by exists e].
Qed.

Lemma refuses_owned ctx session {B} (k : unit -> Handler B) f :
  owns ctx session f = false -> refuses (sbind (require_owned_session ctx session) k) f.
Proof. intros E. exists (not_found ctx). unfold sbind, require_owned_session. by rewrite E. Qed.

Lemma refuses_owned_last ctx session f : owns ctx session f = false -> refuses (require_owned_session ctx session) f.
Proof. intros E. exists (not_found ctx). unfold require_owned_session. by rewrite E. Qed.

Lemma refuses_bind {A B} (m : Handler A) (k : A -> Handler B) f : refuses m f -> refuses (sbind m k) f.
Proof. intros [e E]. exists e. unfold sbind. by rewrite E. Qed.

Lemma refused_begun {O A} (m : Handler (Phase O A)) f : refuses m f -> exists e, begun m f = (Answered (Err e), f).
Proof. intros [e E]. exists e. unfold begun. by rewrite E. Qed.

Lemma submit_guard_refuses authority ctx e one_shot now f :
  owns ctx e.(ev_session_id) f = false -> refuses (submit_guard authority ctx e one_shot now) f.
Proof. intros E. apply refuses_first; [apply looks_authorize_submit|]. intros []. by apply refuses_owned_last. Qed.

Lemma auto_guard_refuses authority ctx e now f :
  owns ctx e.(ev_session_id) f = false -> refuses (auto_guard authority ctx e now) f.
Proof.
  intros E. apply refuses_first; [done|]. intros []. apply refuses_first; [apply looks_lifecycle_writable|]. intros [].
  apply refuses_first; [apply looks_authorize_submit|]. intros []. by apply refuses_owned_last.
Qed.

(** C15: an operation on a session that the caller does not own is refused, and nothing at all
    changes: no command is begun, no key is taken, no page is opened, no session is
    deleted, no checkpoint is written and no workflow is named. *)
Theorem strangers_change_nothing authority ctx call now f :
  owns ctx (call_session call) f = false -> exists e, ask_session authority ctx call now f = (Some e, f).
Proof.
  intros E. destruct call; cbn [call_session] in E; cbn [ask_session].
  - destruct (refused_begun _ f (refuses_bind _ (fun _ => open_reservation (O := CommandOutcome) (A := CommandOutcome) ctx
      SubmitCommand (identity_of e one_shot) fresh (holds_vision_assist authority ctx) now) f
      (submit_guard_refuses authority ctx e one_shot now f E))) as [err Er].
    exists err. unfold submit_begin. by rewrite Er.
  - destruct (refused_begun _ f (refuses_bind _ (fun _ => open_reservation (O := CommandOutcome) (A := AutoAnswer) ctx
      SubmitCommand (identity_of e false) fresh (holds_vision_assist authority ctx) now) f
      (auto_guard_refuses authority ctx e now f E))) as [err Er].
    exists err. unfold auto_begin. by rewrite Er.
  - assert (refuses (delete_session authority ctx session now) f) as [err Er]; [|exists err; by rewrite Er].
    apply refuses_first; [done|]. intros []. by apply refuses_owned.
  - assert (refuses (front_open_page authority ctx session now) f) as [err Er]; [|exists err; by rewrite Er].
    apply refuses_first; [done|]. intros []. apply refuses_first; [apply looks_lifecycle_writable|]. intros []. by apply refuses_owned.
  - assert (exists err, checkpoint_begin authority ctx c evidence fresh now f = (Answered (Err err), f)) as [err Er];
      [|exists err; by rewrite Er].
    apply refused_begun, refuses_first; [done|]. intros []. by apply refuses_owned.
  - assert (refuses (front_workflows_for_session authority ctx session limit now) f) as [err Er]; [|exists err; by rewrite Er].
    apply refuses_first; [done|]. intros []. by apply refuses_owned.
Qed.

(** ** Answers *)

Lemma owns_service ctx session f {A E} (m : ST (RuntimeService W) E A) : owns ctx session (on_service m f).2 = owns ctx session f.
Proof. unfold on_service. by destruct (m _). Qed.

Lemma smap_err_ok {S E F A} (g : E -> F) (m : ST S E A) s a s' : smap_err g m s = (Ok a, s') <-> m s = (Ok a, s').
Proof. unfold smap_err. destruct (m s) as [[x|e] s1]; cbn; naive_solver. Qed.

Lemma found_ok {E A} ctx (m : ST W E A) f a f' :
  found ctx m f = (Ok a, f') -> (exists w w', m w = (Ok a, w')) /\ f'.(fr_ownership) = f.(fr_ownership).
Proof.
  unfold found. rewrite smap_err_ok. unfold on_service, on_pages. destruct (m _) as [r w] eqn:Em. intros [= -> <-].
  split; [by eexists _, _|done].
Qed.

(** A command whose owning session, by the journal, is the caller's. *)
Definition own_command (ctx : RequestContext) f (id : CommandId) : Prop :=
  exists session w w', pg_command_session id w = (Ok session, w') /\ owns ctx session f = true.

Lemma resolve_each_owned ctx ids : forall f items f',
  resolve_each ctx ids f = (Ok items, f') -> Forall (own_command ctx f) ids.
Proof.
  induction ids as [|id ids IH]; intros f items f' E; [constructor|]. cbn in E.
  apply sbind_ok in E as (session & f1 & E1 & E). apply found_ok in E1 as [(w & w' & E1) Eo1].
  apply looks_ok in E as (a & E2 & E); [|done]. apply owned_ok in E2.
  apply sbind_ok in E as (some & f2 & E3 & E). apply found_ok in E3 as [_ Eo2].
  apply sbind_ok in E as (rest & f3 & E4 & _). apply IH in E4.
  assert (forall session, owns ctx session f1 = owns ctx session f) as Hf1 by (intros x; unfold owns; by rewrite Eo1).
  constructor; [exists session, w, w'; by rewrite <- Hf1|]. eapply Forall_impl; [exact E4|].
  intros i (s & v & v' & Es & Ew). exists s, v, v'. split; [done|]. rewrite <- Hf1. unfold owns in *. by rewrite <- Eo2.
Qed.

(** The session of a workflow, by its checkpoint, is the caller's. *)
Definition own_workflow (ctx : RequestContext) f (workflow : WorkflowId) : Prop :=
  exists session s', recovery_session workflow f.(fr_service) = (Ok session, s') /\ owns ctx session f = true.

Lemma lookup_owned ctx workflow {B} (k : SessionId -> unit -> Handler B) f b f' :
  (do session_id <- smap_err (recovery_lookup_error ctx) (on_service (recovery_session workflow));
   sbind (require_owned_session ctx session_id) (k session_id)) f = (Ok b, f') -> own_workflow ctx f workflow.
Proof.
  intros (session & f1 & E1 & E2)%sbind_ok. apply smap_err_ok in E1.
  apply looks_ok in E2 as (a & E2 & _); [|done]. apply owned_ok in E2. pose proof (owns_service ctx session f (recovery_session workflow)) as Ho.
  rewrite E1 in Ho. cbn in Ho. exists session. unfold on_service in E1.
  destruct (recovery_session workflow (fr_service f)) as [r s']. injection E1 as -> _. exists s'. by rewrite <- Ho.
Qed.

(** What is answered about sessions, workflows and recorded commands is the caller's own:
    listed sessions are owned, a workflow is recovered or shown only to the owner of the
    session its checkpoint names, and evidence is resolved only for commands whose journal
    names an owned session. *)
Theorem answers_are_owned authority ctx now f :
  (forall l f', list_sessions authority ctx now f = (Ok l, f') -> Forall (fun ses => owns ctx ses.(ses_id) f = true) l)
  /\ (forall workflow attempt nonce d f', front_recover authority ctx workflow attempt nonce now f = (Ok d, f') ->
        own_workflow ctx f workflow)
  /\ (forall workflow status f', front_recovery_status authority ctx workflow now f = (Ok status, f') ->
        own_workflow ctx f workflow)
  /\ (forall ids items f', resolve_command_evidence authority ctx ids now f = (Ok items, f') -> Forall (own_command ctx f) ids).
Proof.
  split_and!.
  - intros l f' E. apply looks_ok in E as (a & _ & E); [|done]. cbn in E. unfold sbind, sget, sret in E. injection E as <- _.
    apply Forall_forall. intros ses Hin. by apply list_elem_of_filter in Hin as [? _].
  - intros workflow attempt nonce d f' E. apply looks_ok in E as (a & _ & E); [|done].
    apply looks_ok in E as (b & _ & E); [|apply looks_commands_writable].
    apply looks_ok in E as (c & _ & E); [|apply looks_lifecycle_writable]. by apply (lookup_owned ctx workflow (fun id _ => smap_err (recovery_call_error ctx)
      (on_service (service_recover_for_session workflow id attempt now nonce)))) in E.
  - intros workflow status f' E. apply looks_ok in E as (a & _ & E); [|done]. by apply (lookup_owned ctx workflow (fun _ _ => smap_err (recovery_call_error ctx)
      (on_service (recovery_status workflow)))) in E.
  - intros ids items f' E. apply looks_ok in E as (a & _ & E); [|done]. by apply resolve_each_owned in E.
Qed.

(** ** New sessions *)

(** Slots are numbered below the next one. *)
Definition numbered (registry : RegistryState) : Prop :=
  forall n, is_Some (registry.(rs_reservations) !! n) -> n < registry.(rs_next_reservation_id).

(** The same owners and the same slots. *)
Definition same_slots (registry registry' : RegistryState) : Prop :=
  registry'.(rs_owners) = registry.(rs_owners) /\ registry'.(rs_reservations) = registry.(rs_reservations).

Lemma reserve_cases principal registry r registry' :
  reserve principal registry = (r, registry') ->
  match r with
  | Err _ => registry' = registry
  | Ok slot => registry.(rs_poisoned) = false /\ slot = MkReservation registry.(rs_next_reservation_id) true
      /\ exists next, registry' = registry <| rs_next_reservation_id := next |>
           <| rs_reservations := <[registry.(rs_next_reservation_id) := principal]> registry.(rs_reservations) |>
  end.
Proof.
  unfold reserve, write_lock, sbind, slift, sput, sret, sfail. destruct (rs_poisoned registry) eqn:Ep; [by intros [= <- <-]|].
  destruct (_ <=? _); [by intros [= <- <-]|]. destruct (checked_add _ _) as [next|]; cbn; [|by intros [= <- <-]].
  intros [= <- <-]. split_and!; [done..|by exists next].
Qed.

Lemma drop_reserved principal registry slot registry' :
  numbered registry -> reserve principal registry = (Ok slot, registry') ->
  same_slots registry (drop_reservation slot registry').
Proof.
  intros Hn (Ep & -> & next & ->)%reserve_cases. unfold drop_reservation. cbn. rewrite Ep. cbn. split; [done|]. cbn.
  rewrite delete_insert_id; [done|]. destruct (rs_reservations registry !! _) eqn:E; [|done].
  assert (rs_next_reservation_id registry < rs_next_reservation_id registry); [apply Hn; by rewrite E|lia].
Qed.

Lemma finalize_reserved principal registry slot registry' session r registry2 :
  numbered registry -> registry.(rs_owners) !! session = None -> reserve principal registry = (Ok slot, registry') ->
  finalize slot session registry' = (r, registry2) ->
  match r with
  | Err _ => same_slots registry registry2
  | Ok _ => owns_authenticated_session registry2 principal session = true
  end.
Proof.
  intros Hn Hs (Ep & -> & next & ->)%reserve_cases. unfold finalize, write_lock. cbn. rewrite Ep. cbn. rewrite lookup_insert_eq.
  assert (rs_reservations registry !! rs_next_reservation_id registry = None) as Hf.
  { destruct (rs_reservations registry !! _) eqn:E; [|done].
    assert (rs_next_reservation_id registry < rs_next_reservation_id registry); [apply Hn; by rewrite E|lia]. }
  destruct (rs_fail_next_finalize registry).
  - intros [= <- <-]. split; [done|]. cbn. by rewrite delete_insert_id.
  - rewrite Hs. intros [= <- <-]. unfold owns_authenticated_session. cbn.
    rewrite ?Ep, lookup_insert_eq. by case_bool_decide.
Qed.

Lemma service_create_result req id now (s : RuntimeService W) r s' :
  service_create_session req id now s = (r, s') ->
  match r with
  | Err _ => s'.(sv_sessions) = s.(sv_sessions)
  | Ok ses => ses = session_of_request (profile_request s req) id now /\ s'.(sv_sessions) = <[id := ses]> s.(sv_sessions)
  end.
Proof.
  unfold service_create_session, manager_create, sbind, sget, slift, sret, smodify. cbv zeta.
  destruct (refuse_if _ _); [|by intros [= <- <-]]. destruct (sv_session_workers s); [|by intros [= <- <-]].
  unfold on_pages. destruct (pg_lease id (sv_pages s)) as [[[]|err] w]; cbn; by intros [= <- <-].
Qed.

Lemma manager_delete_present id (s : RuntimeService W) ses :
  s.(sv_sessions) !! id = Some ses -> (manager_delete id s).2.(sv_sessions) = delete id s.(sv_sessions).
Proof.
  intros E. unfold manager_delete, sbind, sget, sret, smodify, sfail. rewrite bool_decide_eq_true_2 by (by rewrite E).
  cbn. by destruct (sv_session_workers s).
Qed.

Lemma profile_flags (s : RuntimeService W) req id now :
  let ses := session_of_request (profile_request s req) id now in
  ses.(ses_execution_policy).(xp_fingerprint) = req.(cs_execution_policy).(xp_fingerprint) || req.(cs_zigzagzig)
  /\ ses.(ses_execution_policy).(xp_humanize) = req.(cs_execution_policy).(xp_humanize) || req.(cs_zigzagzig).
Proof.
  cbn. unfold session_policy, profile_request.
  destruct (_ && _), (cs_zigzagzig req) eqn:Ez; cbn; rewrite ?Ez; cbn; by rewrite ?orb_true_r, ?orb_false_r.
Qed.

Lemma capability_if_cases authority ctx flag c f r f' :
  capability_if authority ctx flag c f = (r, f') -> f' = f /\ (r = Ok tt -> flag = true -> holds authority ctx c).
Proof.
  unfold capability_if. destruct flag; [|by intros [= <- <-]]. intros E. split; [by injection E|].
  intros -> _. by eapply capability_ok.
Qed.

(** C16: a session is created together with its owner or not at all: on success it is in the
    table, the caller owns it, and a fingerprint, humanized input or the recovery ladder,
    which force both, were only granted to a caller that holds their capabilities; on an
    error the table of sessions, the owners and the slots are what they were. *)
Theorem created_session_is_owned authority ctx req id now f registry r f' :
  f.(fr_ownership) = Some registry -> numbered registry -> registry.(rs_owners) !! id = None ->
  f.(fr_service).(sv_sessions) !! id = None ->
  dispatch_create_session authority ctx req id now f = (r, f') ->
  match r with
  | Ok ses => ses.(ses_id) = id /\ f'.(fr_service).(sv_sessions) !! id = Some ses /\ owns ctx id f' = true
      /\ (ses.(ses_execution_policy).(xp_fingerprint) = true -> holds authority ctx BrowserFingerprint)
      /\ (ses.(ses_execution_policy).(xp_humanize) = true -> holds authority ctx BrowserHumanize)
  | Err _ => f'.(fr_service).(sv_sessions) = f.(fr_service).(sv_sessions)
      /\ exists registry', f'.(fr_ownership) = Some registry' /\ same_slots registry registry'
  end.
Proof.
  intros Eo Hn Hid Hs. unfold dispatch_create_session.
  unfold sbind at 1. destruct (capability_if _ _ _ BrowserFingerprint f) as [[[]|err] f1] eqn:G1;
    apply capability_if_cases in G1 as [-> G1]; [|intros [= <- <-]; split; [done|]; by exists registry].
  unfold sbind at 1. destruct (capability_if _ _ _ BrowserHumanize f) as [[[]|err] f1] eqn:G2;
    apply capability_if_cases in G2 as [-> G2]; [|intros [= <- <-]; split; [done|]; by exists registry].
  unfold sbind, reserve_ownership. rewrite Eo. destruct (reserve (rc_principal_id ctx) registry) as [[slot|err] reg1] eqn:Er.
  2: { apply reserve_cases in Er as ->. intros [= <- <-]. split; [done|]. by exists registry. }
  unfold on_service at 1. cbn [fr_service set_field].
  change (fr_service (f <| fr_ownership := Some reg1 |>)) with (fr_service f).
  destruct (service_create_session req id now (fr_service f)) as [[ses|err] s1] eqn:Ec;
    apply service_create_result in Ec.
  2: { intros [= <- <-]. split; [exact Ec|]. exists (drop_reservation slot reg1). split; [done|].
       by eapply drop_reserved. }
  destruct Ec as [-> Es]. unfold finish_ownership. cbn -[session_of_request finalize].
  destruct (finalize slot _ reg1) as [[[]|err] reg2] eqn:Ef; eapply finalize_reserved in Ef; try done.
  - intros [= <- <-]. split_and!; [done|cbn; by rewrite Es, lookup_insert_eq|exact Ef| |].
    + rewrite (proj1 (profile_flags (fr_service f) req id now)). by apply G1.
    + rewrite (proj2 (profile_flags (fr_service f) req id now)). by apply G2.
  - cbn -[session_of_request]. intros E. cbn in E.
    pose proof (manager_delete_present id s1 (session_of_request (profile_request (fr_service f) req) id now)) as Hd.
    unfold on_service in E. cbn -[manager_delete] in E. destruct (manager_delete id s1) as [rd s2]. injection E as <- <-. cbn in *.
    rewrite Hd by (by rewrite Es, lookup_insert_eq). rewrite Es, delete_insert_id by done. split; [done|]. by exists reg2.
Qed.
End Guards.
