(* ===== verification/FrontRuns.v ===== *)
(** * Keyed commands through the front

    Many submissions at once: each is a task between its begin, its turns in [reserve] and its
    run; a task may be cancelled, everything else of the system may change, and the process
    may end and start again.  The machine refines [KeyedRuns]; so under one key a command is
    run again only after its first run ended in an outcome that allows it. *)

From S2P Require Import Prelude Text SkillTypes Receipt Job Ledger Json Nodes Commands CommandJournal CommandLog Checkpoint CheckpointStore Recovery Executor RuntimeService Interface Authority SessionOwnership Idempotency IdempotencyInv DurableLog IdempotencySteps IdempotencyWorld IdempotencyKeep KeyedRuns CheckpointStoreThms RecoveryThms ExecutorThms RuntimeServiceThms IdempotencyThms Front FrontThms.

Inductive FrontTask :=
| PlainTask (authority : CapabilityHandle) (ctx : RequestContext) (e : CommandEnvelope) (one_shot : bool)
    (phase : Phase CommandOutcome CommandOutcome)
| AutoTask (authority : CapabilityHandle) (ctx : RequestContext) (e : CommandEnvelope) (phase : Phase CommandOutcome AutoAnswer).

Section Runs.
Context {W P : Type} `{Sha2, ReceiptCodec, CheckpointCodec, BrowserPool, NodeLib, !ServicePages W}.
Context `{UuidText, RetainedOutcome LifecycleOutcome, DurableLogLaws P, JsonLib, !RoomyLog P, Decimal16, RequestJson}.
Variable recovery_text : RecoveryError -> string.
Abbreviation front := (Front (W := W) (P := P)).

Record FrontWorld := MkFrontWorld {
  fw_front : front;
  fw_tasks : gmap nat FrontTask;
  fw_events : list (KeyEvent CommandOutcome);
}.

(** [FlElsewhere] is any other operation: it may change everything but the store of command
    keys.  [FlCancel] ends a task, whatever the service has done for it by then; [FlRestart]
    ends all of them. *)
Inductive FrontLabel :=
| FlSubmit (id : nat) (authority : CapabilityHandle) (ctx : RequestContext) (e : CommandEnvelope) (one_shot : bool)
    (fresh : CorrelationId) (now : Time)
| FlAuto (id : nat) (authority : CapabilityHandle) (ctx : RequestContext) (e : CommandEnvelope) (fresh : CorrelationId) (now : Time)
| FlPoll (id : nat) (now : Time)
| FlRun (id : nat) (checkpoint_id : CheckpointId) (nonce : Uuid) (now : Time)
| FlCancel (id : nat) (service : RuntimeService W)
| FlElsewhere (authority : AuthorityStore) (lifecycle : IdempotencyStore LifecycleOutcome P) (ownership : option RegistryState)
    (service : RuntimeService W)
| FlRestart (resolve : JsonValue -> result (option CommandOutcome) IoError) (now : Time) (authority : AuthorityStore)
    (lifecycle : IdempotencyStore LifecycleOutcome P) (ownership : option RegistryState) (service : RuntimeService W).

Definition valid_request (ctx : RequestContext) : bool :=
  match ctx.(rc_idempotency_key) with Some key => is_ok (IdempotencyKey_try_from key) | None => true end.

(** What the log says of a phase that was entered, and of a run. *)
Definition taken {A} (phase phase' : Phase CommandOutcome A) : list (KeyEvent CommandOutcome) :=
  match phase, phase' with
  | Reserving _ _ _, Running (Some pm) _ => [KeyTaken (permit_key pm)]
  | _, _ => []
  end.

Definition ran (permit : option IdempotencyPermit) (outcome : option CommandOutcome) : list (KeyEvent CommandOutcome) :=
  match permit, outcome with
  | Some pm, Some outcome =>
      KeyRan (permit_key pm) :: (if settles_key outcome then [KeySettled (permit_key pm) outcome] else [])
  | Some pm, None => [KeyUnstarted (permit_key pm)]
  | None, _ => []
  end.

(** The outcome of a run; none when the checkpoint of the command could not be prepared. *)
Definition run_outcome (t : FrontTask) (checkpoint_id : CheckpointId) (nonce : Uuid) (now : Time) (s : RuntimeService W)
    : option CommandOutcome :=
  match t with
  | PlainTask _ _ e one_shot (Running _ vision) => Some (submit_with_vision_grant e vision one_shot now s).1
  | AutoTask _ _ e (Running _ vision) =>
      match (submit_with_auto_checkpoint recovery_text e vision false checkpoint_id nonce now s).1 with
      | Ok (outcome, _) => Some outcome
      | Err _ => None
      end
  | _ => None
  end.

Definition run_permit (t : FrontTask) : option IdempotencyPermit :=
  match t with
  | PlainTask _ _ _ _ (Running permit _) | AutoTask _ _ _ (Running permit _) => permit
  | _ => None
  end.

Definition view_phase {A} (phase : Phase CommandOutcome A) : option (KeyTask CommandOutcome) :=
  match phase with
  | Reserving args ph _ => Some (KeyAsking args ph)
  | Running (Some pm) _ => Some (KeyHolding pm)
  | _ => None
  end.

Definition view_task (t : FrontTask) : option (KeyTask CommandOutcome) :=
  match t with PlainTask _ _ _ _ phase => view_phase phase | AutoTask _ _ _ phase => view_phase phase end.

(** Who holds a permit, and what a task that ends leaves in the log. *)
Definition cancelled (t : FrontTask) : list (KeyEvent CommandOutcome) :=
  match run_permit t with
  | Some pm => KeyRan (permit_key pm) :: (if pm.(ip_durable) then [] else [KeyLost (permit_key pm)])
  | None => []
  end.

Definition front_step (l : FrontLabel) (w : FrontWorld) : option FrontWorld :=
  let 'MkFrontWorld f tasks events := w in
  match l with
  | FlSubmit id authority ctx e one_shot fresh now =>
      match tasks !! id with
      | Some _ => None
      | None =>
          if valid_request ctx then
            let '(phase, f) := submit_begin authority ctx e one_shot fresh now f in
            Some (MkFrontWorld f (<[id := PlainTask authority ctx e one_shot phase]> tasks) events)
          else None
      end
  | FlAuto id authority ctx e fresh now =>
      match tasks !! id with
      | Some _ => None
      | None =>
          if valid_request ctx then
            let '(phase, f) := auto_begin authority ctx e fresh now f in
            Some (MkFrontWorld f (<[id := AutoTask authority ctx e phase]> tasks) events)
          else None
      end
  | FlPoll id now =>
      match tasks !! id with
      | Some (PlainTask authority ctx e one_shot phase) =>
          let '(phase', f) := submit_poll authority ctx e one_shot now phase f in
          Some (MkFrontWorld f (<[id := PlainTask authority ctx e one_shot phase']> tasks) (events ++ taken phase phase'))
      | Some (AutoTask authority ctx e phase) =>
          let '(phase', f) := auto_poll authority ctx e now phase f in
          Some (MkFrontWorld f (<[id := AutoTask authority ctx e phase']> tasks) (events ++ taken phase phase'))
      | None => None
      end
  | FlRun id checkpoint_id nonce now =>
      match tasks !! id with
      | Some (PlainTask authority ctx e one_shot phase as t) =>
          let happened := ran (run_permit t) (run_outcome t checkpoint_id nonce now f.(fr_service)) in
          let '(phase, f) := submit_run e one_shot now phase f in
          Some (MkFrontWorld f (<[id := PlainTask authority ctx e one_shot phase]> tasks) (events ++ happened))
      | Some (AutoTask authority ctx e phase as t) =>
          let happened := ran (run_permit t) (run_outcome t checkpoint_id nonce now f.(fr_service)) in
          let '(phase, f) := auto_run recovery_text ctx e checkpoint_id nonce now phase f in
          Some (MkFrontWorld f (<[id := AutoTask authority ctx e phase]> tasks) (events ++ happened))
      | None => None
      end
  | FlCancel id service =>
      match tasks !! id with
      | Some t =>
          let f := f <| fr_service := service |> in
          let f := match run_permit t with Some pm => f <| fr_commands := drop_permit pm f.(fr_commands) |> | None => f end in
          Some (MkFrontWorld f (delete id tasks) (events ++ cancelled t))
      | None => None
      end
  | FlElsewhere authority lifecycle ownership service =>
      Some (MkFrontWorld (MkFront authority f.(fr_commands) lifecycle ownership service) tasks events)
  | FlRestart resolve now authority lifecycle ownership service =>
      match f.(fr_commands).(is_durable) ≫= log_open now with
      | Some opened =>
          Some (MkFrontWorld (MkFront authority (open_durable resolve now opened) lifecycle ownership service) ∅
                  (events ++ restarted_events (held (omap view_task tasks)) (resolved_keys resolve opened.2)))
      | None => None
      end
  end.

Inductive front_reached : FrontWorld -> Prop :=
| reached_fresh f : fresh (MkWorld f.(fr_commands) [] ∅) -> front_reached (MkFrontWorld f ∅ [])
| reached_step l w w' : front_reached w -> front_step l w = Some w' -> front_reached w'.

(** ** Refinement *)

Definition view (w : FrontWorld) : KeyState CommandOutcome P :=
  MkKeyState w.(fw_front).(fr_commands) (omap view_task w.(fw_tasks)) w.(fw_events).

Lemma view_insert (tasks : gmap nat FrontTask) id t :
  omap view_task (<[id := t]> tasks)
  = match view_task t with Some v => <[id := v]> (omap view_task tasks) | None => delete id (omap view_task tasks) end.
Proof.
  destruct (view_task t) as [v|] eqn:E; [by apply omap_insert_Some|]. by rewrite omap_insert_None.
Qed.

Lemma view_lookup (tasks : gmap nat FrontTask) id t : tasks !! id = Some t -> omap view_task tasks !! id = view_task t.
Proof. intros E. by rewrite lookup_omap, E. Qed.

Lemma view_absent (tasks : gmap nat FrontTask) id :
  (tasks !! id ≫= view_task) = None -> delete id (omap view_task tasks) = omap view_task tasks.
Proof. intros E. apply delete_id. by rewrite lookup_omap. Qed.

Lemma view_same (tasks : gmap nat FrontTask) id t t' :
  tasks !! id = Some t -> view_task t' = view_task t -> omap view_task (<[id := t']> tasks) = omap view_task tasks.
Proof.
  intros E Ev. rewrite view_insert, Ev. destruct (view_task t) as [v|] eqn:Et.
  - apply insert_id. by rewrite (view_lookup _ _ _ E).
  - apply view_absent. by rewrite E.
Qed.

(** What a handler has opened. *)
Lemma begun_phase {O A} (guard : Handler (W := W) (P := P) unit) ctx operation sha fresh vision now f :
  looks guard ->
  match (begun (guard ;; open_reservation (O := O) (A := A) ctx operation sha fresh vision now) f).1 with
  | Reserving args ph _ => ctx.(rc_idempotency_key) = Some args.(ra_key) /\ ph = Starting now
  | Running permit _ => permit = None
  | Answered _ => True
  end.
Proof.
  intros Hl. unfold begun, sbind. pose proof (Hl f) as E. destruct (guard f) as [[[]|err] f1]; cbn in E; [|done].
  unfold open_reservation. destruct (rc_idempotency_key ctx) as [key|]; [|done].
  unfold sbind, slift. by destruct (ok_or sha _).
Qed.

Definition steps_to (s s' : KeyState CommandOutcome P) : Prop :=
  s' = s \/ exists l, key_step l s = Some s'.

(** A task that begins. *)
Lemma opens {A} f tasks events id t (phase : Phase CommandOutcome A) now :
  tasks !! id = None -> view_task t = view_phase phase ->
  match phase with
  | Reserving args ph _ => is_ok (IdempotencyKey_try_from args.(ra_key)) = true /\ ph = Starting now
  | Running permit _ => permit = None
  | Answered _ => True
  end ->
  steps_to (view (MkFrontWorld f tasks events)) (view (MkFrontWorld f (<[id := t]> tasks) events)).
Proof.
  intros Eid Ev Hp. unfold view. cbn [fw_front fw_tasks fw_events]. rewrite view_insert, Ev.
  assert (omap view_task tasks !! id = None) as Eo by (by rewrite lookup_omap, Eid).
  destruct phase as [args ph vision|permit vision|r]; cbn.
  - destruct Hp as [Hk ->]. right. exists (KeyOpen id args now). cbn. by rewrite Eo, Hk.
  - subst permit. left. by rewrite delete_id.
  - left. by rewrite delete_id.
Qed.

Lemma submit_opens f tasks events id authority ctx e one_shot fresh now w' :
  front_step (FlSubmit id authority ctx e one_shot fresh now) (MkFrontWorld f tasks events) = Some w' ->
  steps_to (view (MkFrontWorld f tasks events)) (view w').
Proof.
  cbn. destruct (tasks !! id) eqn:Eid; [done|]. destruct (valid_request ctx) eqn:Ek; [|done].
  pose proof (submit_begin_same authority ctx e one_shot fresh now f) as Hs.
  pose proof (begun_phase (O := CommandOutcome) (A := CommandOutcome) (submit_guard authority ctx e one_shot now) ctx SubmitCommand (identity_of e one_shot) fresh
    (holds_vision_assist authority ctx) now f (looks_submit_guard _ _ _ _ _)) as Hp.
  unfold submit_begin in *. destruct (begun _ f) as [phase f1]. cbn in Hs, Hp. subst f1. intros [= <-].
  eapply (opens _ _ _ _ _ phase now); [done|done|]. destruct phase as [args ph v| |]; try done. destruct Hp as [Hk ->].
  unfold valid_request in Ek. by rewrite Hk in Ek.
Qed.

Lemma auto_opens f tasks events id authority ctx e fresh now w' :
  front_step (FlAuto id authority ctx e fresh now) (MkFrontWorld f tasks events) = Some w' ->
  steps_to (view (MkFrontWorld f tasks events)) (view w').
Proof.
  cbn. destruct (tasks !! id) eqn:Eid; [done|]. destruct (valid_request ctx) eqn:Ek; [|done].
  pose proof (begun_looks (auto_guard authority ctx e now ;; open_reservation (O := CommandOutcome) (A := AutoAnswer) ctx SubmitCommand
    (identity_of e false) fresh (holds_vision_assist authority ctx) now) f) as Hs.
  pose proof (begun_phase (O := CommandOutcome) (A := AutoAnswer) (auto_guard authority ctx e now) ctx SubmitCommand (identity_of e false) fresh
    (holds_vision_assist authority ctx) now f (looks_auto_guard _ _ _ _)) as Hp.
  unfold auto_begin in *. destruct (begun _ f) as [phase f1]. cbn in Hs, Hp.
  assert (f1 = f) as -> by (apply Hs, looks_bind; [apply looks_auto_guard|intros []; apply looks_open]). intros [= <-].
  eapply (opens _ _ _ _ _ phase now); [done|done|]. destruct phase as [args ph v| |]; try done. destruct Hp as [Hk ->].
  unfold valid_request in Ek. by rewrite Hk in Ek.
Qed.

(** What a turn in [reserve] leads to. *)
Definition turned {A} (args : ReserveArgs) (now : Time) (ph : ReservePhase) (f f' : front) (phase' : Phase CommandOutcome A) : Prop :=
  let '(ph', s) := reserve_step args now ph f.(fr_commands) in
  match ph' with
  | Finished (Ok (Acquired pm)) =>
      (exists vision, phase' = Running (Some pm) vision) /\ f'.(fr_commands) = s
      \/ (exists r, phase' = Answered r) /\ f'.(fr_commands) = abandon pm s
  | Finished _ => (exists r, phase' = Answered r) /\ f'.(fr_commands) = s
  | _ => (exists vision, phase' = Reserving args ph' vision) /\ f'.(fr_commands) = s
  end.

Lemma turns {A} f f' tasks events id t t' args ph vision (phase' : Phase CommandOutcome A) now :
  tasks !! id = Some t -> view_task t = Some (KeyAsking args ph) -> view_task t' = view_phase phase' ->
  turned args now ph f f' phase' ->
  steps_to (view (MkFrontWorld f tasks events))
    (view (MkFrontWorld f' (<[id := t']> tasks) (events ++ taken (Reserving args ph vision) phase'))).
Proof.
  intros Eid Et Et' Ht. unfold turned in Ht. unfold view. cbn [fw_front fw_tasks fw_events]. rewrite view_insert, Et'.
  pose proof (view_lookup _ _ _ Eid) as Eo. rewrite Et in Eo. right.
  exists (KeyTurn id now (match phase' with Answered _ => false | _ => true end)). cbn. rewrite Eo.
  destruct (reserve_step args now ph (fr_commands f)) as [ph' s].
  destruct ph' as [| | | | |[[pm|o]|err]].
  1-5: destruct Ht as [[v ->] ->]; cbn; by rewrite app_nil_r.
  - destruct Ht as [[[v ->] ->]|[[r ->] ->]]; cbn; by rewrite ?app_nil_r.
  - destruct Ht as [[r ->] ->]; cbn; by rewrite app_nil_r.
  - destruct Ht as [[r ->] ->]; cbn; by rewrite app_nil_r.
Qed.

Lemma submit_turned authority ctx e one_shot now args ph vision f phase' f' :
  submit_poll authority ctx e one_shot now (Reserving args ph vision) f = (phase', f') -> turned args now ph f f' phase'.
Proof.
  unfold submit_poll, turned. destruct (reserve_step _ _ _ _) as [ph' s].
  destruct ph' as [| | | | |[[pm|o]|err]]; try (intros [= <- <-]; split; [by eexists|done]).
  - unfold submit_acquired. pose proof (looks_submit_guard authority ctx e one_shot now (f <| fr_commands := s |>)) as Hl.
    destruct (submit_guard _ _ _ _ _ _) as [[[]|err] f1]; cbn in Hl; subst f1; intros [= <- <-];
      [left|right]; (split; [by eexists|done]).
  - unfold submit_replayed, sbind. pose proof (looks_submit_guard authority ctx e one_shot now (f <| fr_commands := s |>)) as Hl.
    destruct (submit_guard _ _ _ _ _ _) as [[[]|err] f1]; cbn in Hl; subst f1; intros [= <- <-]; (split; [by eexists|done]).
Qed.

Lemma looks_auto_replayed authority ctx e outcome now : looks (W := W) (P := P) (auto_replayed authority ctx e outcome now).
Proof.
  apply looks_bind; [done|]. intros []. apply looks_bind; [apply looks_authorize_submit|]. intros []. apply looks_bind; [done|].
  by intros [].
Qed.

Lemma auto_turned authority ctx e now args ph vision f phase' f' :
  auto_poll authority ctx e now (Reserving args ph vision) f = (phase', f') -> turned args now ph f f' phase'.
Proof.
  unfold auto_poll, turned. destruct (reserve_step _ _ _ _) as [ph' s].
  destruct ph' as [| | | | |[[pm|o]|err]]; try (intros [= <- <-]; split; [by eexists|done]).
  - intros [= <- <-]. left. split; [by eexists|done].
  - pose proof (looks_auto_replayed authority ctx e o now (f <| fr_commands := s |>)) as Hl.
    destruct (auto_replayed _ _ _ _ _ _) as [r f1]. cbn in Hl. subst f1. intros [= <- <-]. split; [by eexists|done].
Qed.

Lemma view_idle f tasks events id t t' :
  tasks !! id = Some t -> view_task t' = view_task t ->
  steps_to (view (MkFrontWorld f tasks events)) (view (MkFrontWorld f (<[id := t']> tasks) (events ++ []))).
Proof. intros Eid Ev. left. unfold view. cbn. by rewrite (view_same _ _ _ _ Eid Ev), app_nil_r. Qed.

Lemma poll_steps f tasks events id now w' :
  front_step (FlPoll id now) (MkFrontWorld f tasks events) = Some w' -> steps_to (view (MkFrontWorld f tasks events)) (view w').
Proof.
  cbn. destruct (tasks !! id) as [[authority ctx e one_shot phase|authority ctx e phase]|] eqn:Eid; [| |done].
  - destruct (submit_poll _ _ _ _ _ _ _) as [phase' f'] eqn:Ep. intros [= <-].
    destruct phase as [args ph vision|pm v|r].
    + eapply turns; [exact Eid|done|done|by eapply submit_turned].
    + injection Ep as <- <-. by eapply view_idle.
    + injection Ep as <- <-. by eapply view_idle.
  - destruct (auto_poll _ _ _ _ _ _) as [phase' f'] eqn:Ep. intros [= <-].
    destruct phase as [args ph vision|pm v|r].
    + eapply turns; [exact Eid|done|done|by eapply auto_turned].
    + injection Ep as <- <-. by eapply view_idle.
    + injection Ep as <- <-. by eapply view_idle.
Qed.

(** A run that ends. *)
Lemma ends f f' tasks events id t t' pm outcome now :
  tasks !! id = Some t -> view_task t = Some (KeyHolding pm) -> view_task t' = None ->
  f'.(fr_commands) = (match outcome with Some o => (finish pm o now f.(fr_commands)).2 | None => abandon pm f.(fr_commands) end) ->
  steps_to (view (MkFrontWorld f tasks events))
    (view (MkFrontWorld f' (<[id := t']> tasks) (events ++ ran (Some pm) outcome))).
Proof.
  intros Eid Et Et' Ec. unfold view. cbn [fw_front fw_tasks fw_events]. rewrite view_insert, Et', Ec.
  pose proof (view_lookup _ _ _ Eid) as Eo. rewrite Et in Eo. right. destruct outcome as [o|].
  - exists (KeyFinish id o now). cbn. by rewrite Eo.
  - exists (KeyReturn id). cbn. by rewrite Eo.
Qed.

Lemma on_commands_state {A} (m : Idem A) (f : front) : (on_commands m f).2.(fr_commands) = (m f.(fr_commands)).2.
Proof. unfold on_commands. by destruct (m _). Qed.

Lemma submit_steps f tasks events id authority ctx e one_shot phase checkpoint_id nonce now phase' f' :
  tasks !! id = Some (PlainTask authority ctx e one_shot phase) ->
  submit_run e one_shot now phase f = (phase', f') ->
  let t := PlainTask authority ctx e one_shot phase in
  steps_to (view (MkFrontWorld f tasks events))
    (view (MkFrontWorld f' (<[id := PlainTask authority ctx e one_shot phase']> tasks)
       (events ++ ran (run_permit t) (run_outcome t checkpoint_id nonce now f.(fr_service))))).
Proof.
  intros Eid E. destruct phase as [args ph vision|[pm|] vision|r]; cbn in E |- *.
  - injection E as <- <-. by eapply view_idle.
  - destruct (submit_with_vision_grant e vision one_shot now (fr_service f)) as [o s] eqn:Es.
    pose proof (on_commands_state (finish pm o now) (f <| fr_service := s |>)) as Hc.
    destruct (on_commands _ _) as [r f1]. injection E as <- <-. cbn in Hc.
    by apply (ends f f1 tasks events id _ _ pm (Some o) now Eid).
  - destruct (submit_with_vision_grant e vision one_shot now (fr_service f)) as [o s]. injection E as <- <-.
    left. unfold view. cbn. by rewrite (view_same _ _ _ _ Eid), app_nil_r.
  - injection E as <- <-. by eapply view_idle.
Qed.

Lemma auto_steps f tasks events id authority ctx e phase checkpoint_id nonce now phase' f' :
  tasks !! id = Some (AutoTask authority ctx e phase) ->
  auto_run recovery_text ctx e checkpoint_id nonce now phase f = (phase', f') ->
  let t := AutoTask authority ctx e phase in
  steps_to (view (MkFrontWorld f tasks events))
    (view (MkFrontWorld f' (<[id := AutoTask authority ctx e phase']> tasks)
       (events ++ ran (run_permit t) (run_outcome t checkpoint_id nonce now f.(fr_service))))).
Proof.
  intros Eid E. destruct phase as [args ph vision|[pm|] vision|r];
    cbn -[submit_with_auto_checkpoint] in E |- *.
  - injection E as <- <-. by eapply view_idle.
  - destruct (submit_with_auto_checkpoint recovery_text e vision false checkpoint_id nonce now (fr_service f)) as [[[o c]|err] s] eqn:Es.
    + pose proof (on_commands_state (finish pm o now) (f <| fr_service := s |>)) as Hc.
      destruct (on_commands _ _) as [r f1]. injection E as <- <-. cbn in Hc.
      by apply (ends f f1 tasks events id _ _ pm (Some o) now Eid).
    + injection E as <- <-. by apply (ends f _ tasks events id _ _ pm None now Eid).
  - destruct (submit_with_auto_checkpoint recovery_text e vision false checkpoint_id nonce now (fr_service f)) as [[[o c]|err] s];
      injection E as <- <-; left; unfold view; cbn; by rewrite (view_same _ _ _ _ Eid), app_nil_r.
  - injection E as <- <-. by eapply view_idle.
Qed.

(** Every step of the front is a step of the keys, or none. *)
Lemma front_refines l w w' : front_step l w = Some w' -> steps_to (view w) (view w').
Proof.
  destruct w as [f tasks events]. destruct l as [id authority ctx e one_shot fresh now|id authority ctx e fresh now|id now
    |id checkpoint_id nonce now|id service|authority lifecycle ownership service|resolve now authority lifecycle ownership service]; intros E.
  - by eapply submit_opens.
  - by eapply auto_opens.
  - by eapply poll_steps.
  - cbn in E. destruct (tasks !! id) as [[authority ctx e one_shot phase|authority ctx e phase]|] eqn:Eid; [| |done].
    + destruct (submit_run _ _ _ _ _) as [phase' f'] eqn:Er. injection E as <-. by eapply (submit_steps _ _ _ _ _ _ _ _ _ checkpoint_id nonce now).
    + destruct (auto_run _ _ _ _ _ _ _ _) as [phase' f'] eqn:Er. injection E as <-. by eapply auto_steps.
  - cbn in E. destruct (tasks !! id) as [t|] eqn:Eid; [|done]. injection E as <-. unfold view, cancelled. cbn [fw_front fw_tasks fw_events].
    rewrite omap_delete. pose proof (view_lookup _ _ _ Eid) as Eo.
    destruct (run_permit t) as [pm|] eqn:Ep.
    + right. exists (KeyDrop id). cbn. rewrite Eo.
      by destruct t as [? ? ? ? [|[]|]|? ? ? [|[]|]]; cbn in Ep |- *; simplify_eq.
    + rewrite app_nil_r. destruct (view_task t) as [v|] eqn:Ev; [right; exists (KeyDrop id); cbn; rewrite Eo|left; by rewrite delete_id].
      by destruct t as [? ? ? ? [|[]|]|? ? ? [|[]|]]; cbn in Ep, Ev; simplify_eq.
  - injection E as <-. by left.
  - cbn in E. destruct (is_durable (fr_commands f) ≫= log_open now) as [opened|] eqn:Eo; [|done]. injection E as <-.
    right. exists (KeyRestart resolve now). unfold view. cbn. rewrite Eo. by rewrite omap_empty.
Qed.

Lemma front_inv w : front_reached w -> key_inv (view w) /\ Forall settled_ok (view w).(ky_events).
Proof.
  induction 1 as [f Hf|l w w' Hr [Hi Hs] E].
  - split; [|constructor]. unfold view. cbn. rewrite omap_empty. by apply fresh_key_inv.
  - destruct (front_refines l w w' E) as [->|(kl & Ek)]; [done|].
    split; [by eapply key_step_inv|by eapply key_step_settled].
Qed.

(** C2: however submissions with and without a checkpoint of their own interleave with each
    other, with cancellations, with everything else the system does and with restarts from
    the log, whatever the journal of commands then answers: a command is run a second time
    under one key of a principal only after its first run was reported completed, or with an
    outcome that invites another attempt; or after a restart at which the journal answered
    that the command of the key is completed; or, where keys are kept in memory only, after
    its caller went away. *)
Theorem keyed_command_runs_once w k h1 h2 h3 :
  front_reached w -> w.(fw_events) = h1 ++ KeyRan k :: h2 ++ KeyRan k :: h3 ->
  (exists o, KeySettled k o ∈ h2 /\ (is_completed o = true \/ outcome_releases o = true))
  \/ (exists o, KeyResolved k o ∈ h2 /\ is_completed o = true)
  \/ KeyLost k ∈ h2.
Proof.
  intros [Hi Hs]%front_inv E. destruct (key_runs_separated (view w) k h1 h2 h3 Hi Hs E) as [(o & Ho & Hk)|[(o & Ho & Hk)|Hl]].
  - left. exists o. split; [done|]. unfold settles_key in Hk. cbn in Hk. apply orb_true_iff in Hk as [Hk|Hk]; [by right|left].
    by destruct o.
  - right. left. exists o. split; [done|]. by destruct o.
  - by right; right.
Qed.
End Runs.

(** ** A front over the sample service *)

Module SampleFront.
#[export] Existing Instances SampleJson.sha SampleJson.digits16 SampleCheckpoints.receipts SampleService.codec SampleService.codec_laws
  SampleRecovery.pool SampleService.nodes_lib SampleService.pages SampleIdempotency.map_log SampleIdempotency.map_log_laws
  SampleIdempotency.hex_uuid.

#[export] Instance json : JsonLib := fun _ => Ok [].
#[export] Instance lifecycle_value : ToValue LifecycleOutcome := fun _ => Ok Null.
#[export] Instance request_json : RequestJson :=
  {| session_json _ := Some Null; page_json _ := Some Null; command_json _ := Some Null;
     create_json _ := Some Null; checkpoint_json _ := Some Null |}.
#[export] Instance roomy : RoomyLog SampleIdempotency.MapLog.
Proof. by split. Qed.

Abbreviation SFront := (Front (W := SampleService.Pages) (P := SampleIdempotency.MapLog)).
Abbreviation SWorld := (FrontWorld (W := SampleService.Pages) (P := SampleIdempotency.MapLog)).
Abbreviation SLabel := (FrontLabel (W := SampleService.Pages) (P := SampleIdempotency.MapLog)).

Definition capabilities : CapabilitySet :=
  CapabilitySet_new [BrowserMutate; RecoveryWrite; JavascriptEvaluate; SessionWrite; BrowserFingerprint].
Definition handle : CapabilityHandle := MkCapabilityHandle 1%N capabilities 1000 0%nat.
Definition request (key : option IdempotencyKey) : RequestContext := MkRequestContext 9%N 1%N capabilities 500 key.

Definition start (ownership : option RegistryState) : SFront :=
  MkFront AuthorityStore_default IdempotencyStore_default IdempotencyStore_default ownership SampleService.service.
Definition script : CommandEnvelope := MkCommandEnvelope 2 5%N 1%N 2%N 3%N (Some 4%N) 100 (Primitive (EvaluateJavaScript Null)).

Fixpoint front_run (ls : list SLabel) (w : SWorld) : option SWorld :=
  match ls with [] => Some w | l :: ls => front_step SampleService.text l w ≫= front_run ls end.

Lemma reached_run ls w w' :
  front_reached SampleService.text w -> front_run ls w = Some w' -> front_reached SampleService.text w'.
Proof.
  revert w. induction ls as [|l ls IH]; intros w Hr E; cbn in E; [by injection E as <-|].
  destruct (front_step SampleService.text l w) as [w1|] eqn:E1; [|done]. cbn in E.
  eapply IH; [|exact E]. by eapply reached_step.
Qed.

Definition world0 : SWorld := MkFrontWorld (start None) ∅ [].

Lemma world0_reached : front_reached SampleService.text world0.
Proof. apply reached_fresh. by apply fresh_memory. Qed.

(** A front whose keys are kept in a log. *)
Definition start_durable : SFront :=
  MkFront AuthorityStore_default (open_durable SampleIdempotency.journal_lookup 0 (∅, Ok [])) IdempotencyStore_default None SampleService.service.
Definition durable0 : SWorld := MkFrontWorld start_durable ∅ [].

Lemma durable0_reached : front_reached SampleService.text durable0.
Proof. apply reached_fresh. by apply fresh_durable. Qed.

(** A script is refused by the policy of its session, twice under one key, before and after a
    restart. *)
Definition submit_key (id : nat) : list SLabel :=
  [FlSubmit id handle (request (Some "a")) script false 0%N 10; FlPoll id 10; FlPoll id 10; FlPoll id 10; FlRun id 0%N 0%N 10].
Definition restart_now : SLabel :=
  FlRestart SampleIdempotency.journal_lookup 20 AuthorityStore_default IdempotencyStore_default None SampleService.service.
Definition twice_labels : list SLabel := submit_key 0%nat ++ restart_now :: submit_key 1%nat.
Definition twice : option SWorld := front_run twice_labels durable0.
Definition refused_script : CommandOutcome := policy_denied script "javascript evaluation is not permitted for this session".

Definition events_of (w : option SWorld) : list (KeyEvent CommandOutcome) := default [] (fw_events <$> w).
Lemma events_of_some w : events_of w <> [] -> exists w', w = Some w'.
Proof. destruct w; [by eexists|done]. Qed.

Definition key_a : Key := (1%N, "a").
Lemma twice_events :
  events_of twice = [KeyTaken key_a] ++ KeyRan key_a :: [KeySettled key_a refused_script; KeyTaken key_a]
                    ++ KeyRan key_a :: [KeySettled key_a refused_script].
Proof. by_eval. Qed.

Lemma keyed_command_runs_once_witness :
  exists o, KeySettled key_a o ∈ [KeySettled key_a refused_script; KeyTaken key_a]
    /\ (is_completed o = true \/ outcome_releases o = true).
Proof.
  destruct (events_of_some twice) as [w Ew]; [by rewrite twice_events|].
  assert (w.(fw_events) = [KeyTaken key_a] ++ KeyRan key_a :: [KeySettled key_a refused_script; KeyTaken key_a]
                          ++ KeyRan key_a :: [KeySettled key_a refused_script]) as E
    by (rewrite <- twice_events; unfold events_of; by rewrite Ew).
  destruct (keyed_command_runs_once SampleService.text w key_a _ _ _
    (reached_run twice_labels _ _ durable0_reached Ew) E) as [Ho|[(o & Hl & _)|Hl]]; [exact Ho|exfalso..];
  (apply elem_of_cons in Hl as [Hl|[Hl|Hl]%elem_of_cons]; [discriminate Hl..|]; by apply not_elem_of_nil in Hl).
Defined.

(** A submission without a key is ready at once. *)
Definition begun_click := submit_begin handle (request None) (SampleExecutor.click None) false 0%N 10 (start None).

Lemma begun_click_ready : begun_click.1 = Running None false.
Proof. by_eval. Qed.

Lemma dispatch_is_cleared_witness :
  begun_click.1 = Running None false /\ cleared handle (request None) (SampleExecutor.click None) false 10 begun_click.2.
Proof.
  split; [exact begun_click_ready|].
  assert (let '(phase', f') := begun_click in f' = start None /\ forall permit vision, phase' = Running permit vision ->
    cleared handle (request None) (SampleExecutor.click None) false 10 f' /\ vision = holds_vision_assist handle (request None)) as T
    by exact (proj1 (dispatch_is_cleared handle (request None) (SampleExecutor.click None) false 0%N 10 (Running None false) (start None))).
  rewrite (pair_fst _ _ begun_click_ready) in T. destruct T as [_ T]. exact (proj1 (T None false eq_refl)).
Defined.

(** Another principal owns session 3. *)
Definition registry : RegistryState := MkRegistryState 4 {[3%N := 2%N]} ∅ 1 false false.

Lemma strangers_change_nothing_witness :
  exists e, ask_session handle (request None) (AskSubmit script false 0%N) 10 (start (Some registry)) = (Some e, start (Some registry)).
Proof. exact (strangers_change_nothing handle (request None) (AskSubmit script false 0%N) 10 (start (Some registry)) eq_refl). Defined.

Definition create_result := dispatch_create_session handle (request None) SampleService.request 6%N 10 (start (Some registry)).

Lemma sample_session_created : create_result.1 = Ok (session_of_request SampleService.request 6%N 10).
Proof. by_eval. Qed.

Lemma numbered_registry : numbered registry.
Proof. intros n [x E]. cbn in E. rewrite lookup_empty in E. discriminate E. Qed.

Lemma created_session_is_owned_witness : owns (request None) 6%N create_result.2 = true.
Proof.
  assert (create_result = (Ok (session_of_request SampleService.request 6%N 10), create_result.2)) as E
    by (rewrite <- sample_session_created; exact (surjective_pairing _)).
  exact (proj1 (proj2 (proj2 (created_session_is_owned handle (request None) SampleService.request 6%N 10 (start (Some registry))
    registry _ _ eq_refl numbered_registry eq_refl eq_refl E)))).
Defined.

(** ** Authority that is taken away while a request waits

    Both kinds of submission begin with a valid handle; then the handle is revoked, and the
    key is acquired.  A plain submission looks again and is refused; one that brings its own
    checkpoint runs. *)
Definition revoked : AuthorityStore := MkAuthorityStore [] 1024 [true].
Definition revoke_now : SLabel := FlElsewhere revoked IdempotencyStore_default None SampleService.service.
Definition click : CommandEnvelope := SampleExecutor.click None.
Definition polls : list SLabel := [FlPoll 0%nat 4; FlPoll 0%nat 4; FlPoll 0%nat 4; FlRun 0%nat 8%N 11%N 4].
Definition waited (first : SLabel) : option SWorld := front_run (first :: revoke_now :: polls) world0.
Definition executed (w : option SWorld) : list CommandEnvelope :=
  default [] ((fun w => (fw_front w).(fr_service).(sv_executions).*1) <$> w).

Lemma revoked_caller_still_runs :
  is_valid_at revoked handle 4 = false
  /\ executed (waited (FlAuto 0%nat handle (request (Some "a")) click 0%N 4)) = [click]
  /\ executed (waited (FlSubmit 0%nat handle (request (Some "a")) click false 0%N 4)) = [].
Proof. split_and!; by_eval. Qed.
End SampleFront.
