(* ===== verification/IdempotencyLedger.v ===== *)
(** * The durable log of the idempotency store

    [crates/interface-core/src/idempotency/durable.rs]: a header line with the entries, then
    one line per change, each naming the digest of the one before it; opening, appending,
    replacing the file by a checkpoint, inspecting it and converting it back to version 1.

    A ledger is the file at its path, the writer of [Journal] and a list of faults, one per
    I/O call.  [lw_handle] is the writer's open file; once another file has taken the path
    the handle writes to an orphan.  JSON encoding is third-party code: the class
    [LedgerCodec] has what is called, [LedgerCodecLaws] what is relied on.  An [IoError] that
    is a [DataError] is one of kind [InvalidData] or [Other]; only the former occurs while
    loading.  The names of temporary files are not modelled. *)

From S2P Require Import Prelude Text SkillTypes Receipt Job Interface Ledger LedgerRun Json Idempotency DurableLog.

Definition MAX_LINE_BYTES : Z := (64 * 1024 + 2048) * 4096.
Definition COMPACT_RECORDS : Z := 4096.
Definition COMPACT_BYTES : Z := 16 * 1024 * 1024.

Record Header := MkHeader {
  hd_schema_version : Z;
  hd_entries : list DurableEntry;
  hd_sha256 : Digest;
}.

Record Change := MkChange {
  cg_sequence : Z;
  cg_previous_sha256 : Digest;
  cg_updates : list DurableEntry;
  cg_removes : list Key;
}.

Record LedgerRecord := MkLedgerRecord {
  lr_schema_version : Z;
  lr_change : Change;
  lr_sha256 : Digest;
}.

Record DurableSnapshot := MkDurableSnapshot {
  sn_schema_version : Z;
  sn_entries : list DurableEntry;
}.

(** [serde_json] on the lines of the ledger and on what is checksummed. *)
Class LedgerCodec := {
  header_to_vec : Header -> result bytes string;
  record_to_vec : LedgerRecord -> result bytes string;
  snapshot_to_vec : DurableSnapshot -> result bytes string;
  header_from_slice : bytes -> option Header;
  record_from_slice : bytes -> option LedgerRecord;
  snapshot_from_slice : bytes -> option DurableSnapshot;
  snapshot_to_value : DurableSnapshot -> option JsonValue;
  change_to_value : Change -> option JsonValue;
}.

Record Loaded := MkLoaded {
  ld_health : LedgerHealth;
  ld_entries : list DurableEntry;
  ld_format : Z;
  ld_sequence : Z;
  ld_sha256 : Digest;
  ld_appended_bytes : Z;
}.

(** The writer's file: none, the one at the path, or one that was replaced. *)
Inductive Handle := NoFile | AtPath | Replaced.

Record LogWriter := MkLogWriter {
  lw_file : option bytes;
  lw_faults : list Fault;
  lw_backups : list bytes;
  lw_handle : Handle;
  lw_format : Z;
  lw_sequence : Z;
  lw_sha256 : Digest;
  lw_appended_bytes : Z;
}.
#[export] Instance eta_LogWriter : Eta LogWriter := fun w =>
  MkLogWriter (lw_file w) (lw_faults w) (lw_backups w) (lw_handle w) (lw_format w) (lw_sequence w)
    (lw_sha256 w) (lw_appended_bytes w).

Definition LogIO (A : Type) : Type := ST LogWriter IoError A.

Definition zero_digest : Digest := replicate 32 0.

Definition invalid : IoError := DataError "idempotency history requires repair".

Definition log_fault : LogIO Fault :=
  fun w => match w.(lw_faults) with
           | [] => (Ok IoOk, w)
           | f :: fs => (Ok f, w <| lw_faults := fs |>)
           end.

(** An I/O call that changes nothing at the path. *)
Definition log_io : LogIO unit :=
  do f <- log_fault;
  match f with
  | IoOk => sret tt
  | IoFails m | IoPartial _ m => sfail (DeviceError m)
  end.

(** Bytes written through the writer's handle. *)
Definition handle_append (b : bytes) (w : LogWriter) : LogWriter :=
  match w.(lw_handle) with
  | AtPath => w <| lw_file := Some (default [] w.(lw_file) ++ b) |>
  | _ => w
  end.

Definition handle_write_all (b : bytes) : LogIO unit :=
  do f <- log_fault;
  match f with
  | IoOk => smodify (handle_append b)
  | IoFails m => sfail (DeviceError m)
  | IoPartial n m => smodify (handle_append (take n b)) ;; sfail (DeviceError m)
  end.

Section Ledger.
Context `{JsonLib, Sha2, LedgerCodec}.

Definition checksum (value : option JsonValue) : result Digest IoError :=
  match canonical_sha256 value with Some d => Ok d | None => Err invalid end.

(** ** Validation *)

(** The loop of [validate]: the keys seen and how many of each principal; [lapsed] is whether
    an entry has expired. *)
Fixpoint validate_from (lapsed : DurableEntry -> bool) (keys : gset Key) (counts : gmap PrincipalId Z)
    (entries : list DurableEntry) : result unit string :=
  match entries with
  | [] => Ok tt
  | e :: entries =>
      let? _ := match e.(de_state) with
                | DurReserved | DurUnresolved =>
                    if bool_decide (is_Some e.(de_expires_at)) then Err "invalidLedgerState" else Ok tt
                | DurRetained value =>
                    match to_vec value with
                    | Err _ => Err "unreadableLedger"
                    | Ok b => if 64 * 1024 <? blen b then Err "ledgerCapacityExceeded" else Ok tt
                    end
                end in
      if lapsed e then validate_from lapsed keys counts entries
      else if bool_decide (durable_key e ∈ keys) then Err "duplicateLedgerKey"
      else
        let keys := {[durable_key e]} ∪ keys in
        let count := default 0 (counts !! e.(de_principal_id)) + 1 in
        let counts := <[e.(de_principal_id) := count]> counts in
        if (256 <? count) || (4096 <? Z.of_nat (size keys)) then Err "ledgerCapacityExceeded"
        else validate_from lapsed keys counts entries
  end.

Definition has_lapsed (now : Time) (e : DurableEntry) : bool :=
  match e.(de_expires_at) with Some t => t <=? now | None => false end.

Definition validate (now : Time) (entries : list DurableEntry) : result unit string :=
  validate_from (has_lapsed now) ∅ ∅ entries.

(** ** Reading version 2 *)

Inductive V2Prepared :=
| PreparedHeader (entries : gmap Key DurableEntry) (sha256 : Digest)
| PreparedChange (record : LedgerRecord).

Record V2Decoder := MkV2Decoder {
  vd_header : option Header;
  vd_entries : gmap Key DurableEntry;
  vd_sequence : Z;
  vd_sha256 : Digest;
  vd_appended_bytes : Z;
}.
#[export] Instance eta_V2Decoder : Eta V2Decoder := fun d =>
  MkV2Decoder (vd_header d) (vd_entries d) (vd_sequence d) (vd_sha256 d) (vd_appended_bytes d).

Definition V2Decoder_new (header : Header) : V2Decoder :=
  MkV2Decoder (Some header) ∅ 0 zero_digest 0.

Definition rejected (kind : LedgerIssueKind) (sequence : option Z) : PreparedRecord V2Prepared :=
  MkPreparedRecord (Rejected sequence kind) None.

(** The header's entries by key; [None] when two have the same. *)
Fixpoint header_entries (m : gmap Key DurableEntry) (entries : list DurableEntry)
    : option (gmap Key DurableEntry) :=
  match entries with
  | [] => Some m
  | e :: entries =>
      match m !! durable_key e with
      | Some _ => None
      | None => header_entries (<[durable_key e := e]> m) entries
      end
  end.

(** [check] is whether the header's entries pass [validate]. *)
Definition decode_header (check : list DurableEntry -> bool) (header : Header)
    : result (PreparedRecord V2Prepared) IoError :=
  if negb (header.(hd_schema_version) =? 2) then Ok (rejected Schema None) else
  let? expected := checksum (snapshot_to_value (MkDurableSnapshot 2 header.(hd_entries))) in
  Ok (if negb (bool_decide (header.(hd_sha256) = expected)) then rejected Checksum None
      else if negb (check header.(hd_entries)) then rejected LedgerInvalidState None
      else match header_entries ∅ header.(hd_entries) with
           | None => rejected LedgerInvalidState None
           | Some entries =>
               MkPreparedRecord (Accepted None) (Some (PreparedHeader entries header.(hd_sha256)))
           end).

(** The removed keys are distinct and present. *)
Fixpoint removes_ok (m : gmap Key DurableEntry) (changed : gset Key) (removes : list Key)
    : option (gset Key) :=
  match removes with
  | [] => Some changed
  | k :: removes =>
      if bool_decide (k ∈ changed) || negb (bool_decide (is_Some (m !! k))) then None
      else removes_ok m ({[k]} ∪ changed) removes
  end.

(** The updated keys are distinct; the number of entries they leave. *)
Fixpoint updates_ok (m : gmap Key DurableEntry) (changed : gset Key) (size : Z)
    (updates : list DurableEntry) : option Z :=
  match updates with
  | [] => Some size
  | e :: updates =>
      let k := durable_key e in
      if bool_decide (k ∈ changed) then None
      else updates_ok m ({[k]} ∪ changed)
             (if bool_decide (is_Some (m !! k)) then size else size + 1) updates
  end.

Definition change_size (m : gmap Key DurableEntry) (change : Change) : option Z :=
  match removes_ok m ∅ change.(cg_removes) with
  | None => None
  | Some changed =>
      updates_ok m changed (Z.of_nat (size m) - Z.of_nat (length change.(cg_removes)))
        change.(cg_updates)
  end.

Definition decode_change (line : bytes) (d : V2Decoder) : result (PreparedRecord V2Prepared) IoError :=
  match record_from_slice line with
  | None => Ok (rejected Decode None)
  | Some record =>
      let change := record.(lr_change) in
      let sequence := Some change.(cg_sequence) in
      if negb (record.(lr_schema_version) =? 2) then Ok (rejected Schema sequence)
      else if negb (bool_decide (change.(cg_previous_sha256) = d.(vd_sha256)))
      then Ok (rejected Checksum sequence)
      else
        let? sha := checksum (change_to_value change) in
        Ok (if negb (bool_decide (sha = record.(lr_sha256))) then rejected Checksum sequence
            else match change_size d.(vd_entries) change with
                 | None => rejected LedgerInvalidState sequence
                 | Some size =>
                     if (4096 <? size) || (COMPACT_RECORDS <=? d.(vd_sequence))
                        || (COMPACT_BYTES + MAX_LINE_BYTES
                            <? saturating_add d.(vd_appended_bytes) (blen line))
                     then rejected LedgerInvalidState sequence
                     else MkPreparedRecord (Accepted sequence) (Some (PreparedChange record))
                 end)
  end.

Definition V2Decoder_decode (check : list DurableEntry -> bool) (ln : JsonlLine)
    : ST V2Decoder IoError (PreparedRecord V2Prepared) :=
  fun d => match d.(vd_header) with
           | Some header => (decode_header check header, d <| vd_header := None |>)
           | None => (decode_change ln.(ln_bytes) d, d)
           end.

Definition V2Decoder_apply (ln : JsonlLine) (prepared : PreparedRecord V2Prepared)
    (verdict : SequenceVerdict) : ST V2Decoder IoError ScanControl :=
  if bool_decide (verdict = Invalid) then sret StopScan
  else match prepared.(pr_record) with
       | Some (PreparedHeader entries sha256) =>
           smodify (fun d => d <| vd_sha256 := sha256 |> <| vd_entries := entries |>) ;;
           sret Continue
       | Some (PreparedChange record) =>
           let change := record.(lr_change) in
           smodify (fun d =>
             d <| vd_entries := apply_change d.(vd_entries) change.(cg_updates) change.(cg_removes) |>
               <| vd_sequence := change.(cg_sequence) |>
               <| vd_sha256 := record.(lr_sha256) |>
               <| vd_appended_bytes := d.(vd_appended_bytes) + blen ln.(ln_bytes) |>) ;;
           sret Continue
       | None => sfail invalid
       end.

Definition v2_decoder (check : list DurableEntry -> bool) : LedgerDecoder V2Decoder V2Prepared :=
  MkLedgerDecoder (V2Decoder_decode check) V2Decoder_apply.

(** ** Loading *)

(** [reader.take(limit).read_to_end]. *)
Definition read_to_end (limit : Z) (r : Reader) : result bytes IoError :=
  let b := take (Z.to_nat limit) r.(rd_bytes) in
  match (if blen b <? limit then r.(rd_fails) else None) with
  | Some m => Err (DeviceError m)
  | None => Ok b
  end.

(** Version 1: the whole file is one snapshot. *)
Definition load_v1 (first : bytes) (r : Reader) : result Loaded IoError :=
  let remaining := saturating_sub MAX_LINE_BYTES (blen first) in
  let? rest := read_to_end (remaining + 1) r in
  let b := first ++ rest in
  if MAX_LINE_BYTES <? blen b then Err invalid else
  match snapshot_from_slice b with
  | None => Err invalid
  | Some snapshot =>
      if negb (snapshot.(sn_schema_version) =? 1) then Err invalid
      else Ok (MkLoaded (LedgerHealth_default <| lh_exists := true |> <| lh_bytes_observed := blen b |>
                           <| lh_decoded_records := 1 |>)
                 snapshot.(sn_entries) 1 0 zero_digest 0)
  end.

Definition load_v2 (now : Time) (header : Header) (first : JsonlRead) (r : Reader)
    : result Loaded IoError :=
  match scan_jsonl_prefetched (v2_decoder (fun es => is_ok (validate now es)))
          (consecutive MAX_LINE_BYTES) r first (V2Decoder_new header) with
  | (Err e, _) => Err e
  | (Ok health, d) =>
      match health.(lh_first_issue) with
      | Some _ => Err invalid
      | None => Ok (MkLoaded health (map_to_list d.(vd_entries)).*2 2 d.(vd_sequence)
                      d.(vd_sha256) d.(vd_appended_bytes))
      end
  end.

Definition load_reader (now : Time) (r : Reader) : result Loaded IoError :=
  match read_jsonl_line r MAX_LINE_BYTES with
  | (Err e, _) => Err e
  | (Ok TooLong, _) => Err invalid
  | (Ok first, r) =>
      let first_bytes := match first with Complete b | Torn b => b | _ => [] end in
      match header_from_slice first_bytes with
      | None => load_v1 first_bytes r
      | Some header => load_v2 now header first r
      end
  end.

(** [load]: [None] when there is no file. *)
Definition load (now : Time) : LogIO (option Loaded) :=
  log_io ;;
  do w <- sget;
  match w.(lw_file) with
  | None => sret None
  | Some b =>
      do f <- log_fault;
      do loaded <- slift (load_reader now
        match f with
        | IoOk => MkReader b None
        | IoFails m => MkReader [] (Some m)
        | IoPartial n m => MkReader (take n b) (Some m)
        end);
      sret (Some loaded)
  end.

(** ** Opening *)

Definition set_writer (handle : Handle) (format sequence : Z) (sha256 : Digest) (appended : Z)
    (w : LogWriter) : LogWriter :=
  w <| lw_handle := handle |> <| lw_format := format |> <| lw_sequence := sequence |>
    <| lw_sha256 := sha256 |> <| lw_appended_bytes := appended |>.

(** [Persistence::open]: the directory, the lock, the file. *)
Definition persistence_open (now : Time) : LogIO (result (list DurableEntry) string) :=
  log_io ;;
  log_io ;;
  fun w =>
  match load now w with
  | (Ok loaded, w) =>
      let '(format, sequence, sha256, appended, entries) :=
        match loaded with
        | None => (0, 0, zero_digest, 0, [])
        | Some s => (s.(ld_format), s.(ld_sequence), s.(ld_sha256), s.(ld_appended_bytes),
                     s.(ld_entries))
        end in
      let validation := match validate now entries with Ok _ => Ok entries | Err e => Err e end in
      (if format =? 2 then
         log_io ;; smodify (set_writer AtPath format sequence sha256 appended) ;; sret validation
       else smodify (set_writer NoFile format sequence sha256 appended) ;; sret validation) w
  | (Err (DataError _), w) =>
      (Ok (Err "unreadableLedger"), set_writer NoFile 0 0 zero_digest 0 w)
  | (Err e, w) => (Err e, w)
  end.

(** ** Writing *)

Definition journal_needs_checkpoint (w : LogWriter) : bool :=
  negb (w.(lw_format) =? 2) || (COMPACT_RECORDS <=? w.(lw_sequence))
  || (COMPACT_BYTES <=? w.(lw_appended_bytes)).

(** The temporary file is complete and takes the path; a writer of the old file keeps it. *)
Definition rename_over (b : bytes) (w : LogWriter) : LogWriter :=
  w <| lw_file := Some b |>
    <| lw_handle := match w.(lw_handle) with NoFile => NoFile | _ => Replaced end |>.

(** [replace]: create, write and sync the temporary file, rename it, sync the directory; on
    an error the temporary file is removed. *)
Definition replace (b : bytes) : LogIO unit :=
  fun w =>
  match (log_io ;; log_io ;; log_io ;; log_io ;; smodify (rename_over b) ;; log_io ;; log_io) w with
  | (Ok _, w) => (Ok tt, w)
  | (Err e, w) => (Err e, (log_fault w).2)
  end.

Definition checkpoint (entries : list DurableEntry) : LogIO unit :=
  do sha256 <- slift (checksum (snapshot_to_value (MkDurableSnapshot 2 entries)));
  do b <- slift (map_err DataError (header_to_vec (MkHeader 2 entries sha256)));
  replace (b ++ [newline]) ;;
  log_io ;;
  smodify (set_writer AtPath 2 0 sha256 0).

Definition append_change (updates : list DurableEntry) (removes : list Key) : LogIO unit :=
  do w <- sget;
  match checked_add w.(lw_sequence) 1 with
  | None => sfail invalid
  | Some sequence =>
      let change := MkChange sequence w.(lw_sha256) updates removes in
      do sha256 <- slift (checksum (change_to_value change));
      do b <- slift (map_err DataError (record_to_vec (MkLedgerRecord 2 change sha256)));
      let b := b ++ [newline] in
      if MAX_LINE_BYTES <? blen b then sfail invalid else
      match w.(lw_handle) with
      | NoFile => sfail invalid
      | _ =>
          handle_write_all b ;;
          log_io ;;
          log_io ;;
          smodify (fun w => set_writer w.(lw_handle) w.(lw_format) (w.(lw_sequence) + 1) sha256
                              (w.(lw_appended_bytes) + blen b) w)
      end
  end.

#[export] Instance ledger_log : DurableLog LogWriter := {|
  needs_checkpoint := journal_needs_checkpoint;
  log_checkpoint := checkpoint;
  log_append := append_change;
|}.

(** ** Inspecting and converting *)

Record IdempotencyLedgerHealth := MkIdempotencyLedgerHealth {
  ih_exists : bool;
  ih_format : option Z;
  ih_entries : Z;
  ih_integrity_issue : option string;
}.

Definition result_err {A E} (r : result A E) : option E :=
  match r with Ok _ => None | Err e => Some e end.

(** [inspect_idempotency_ledger]; the first call takes a shared lock. *)
Definition inspect_idempotency_ledger (now : Time) : LogIO IdempotencyLedgerHealth :=
  log_io ;;
  fun w =>
  match load now w with
  | (Ok None, w) => (Ok (MkIdempotencyLedgerHealth false None 0 None), w)
  | (Ok (Some loaded), w) =>
      (Ok (MkIdempotencyLedgerHealth loaded.(ld_health).(lh_exists) (Some loaded.(ld_format))
             (Z.of_nat (length loaded.(ld_entries))) (result_err (validate now loaded.(ld_entries)))), w)
  | (Err (DataError _), w) =>
      (Ok (MkIdempotencyLedgerHealth true None 0 (Some "unreadableLedger")), w)
  | (Err e, w) => (Err e, w)
  end.

(** A reservation may have taken effect: it is unresolved in version 1. *)
Definition downgrade_entry (e : DurableEntry) : DurableEntry :=
  match e.(de_state) with
  | DurReserved | DurUnresolved => e <| de_state := DurUnresolved |> <| de_expires_at := None |>
  | DurRetained _ => e
  end.

(** [downgrade_idempotency_ledger]: whether a backup was made. *)
Definition downgrade_idempotency_ledger (now : Time) : LogIO bool :=
  log_io ;;
  do w <- sget;
  match w.(lw_file) with
  | None => sret false
  | Some source =>
      log_io ;;
      do loaded <- load now;
      match loaded with
      | None => sret false
      | Some loaded =>
          slift (map_err (fun _ => invalid) (validate now loaded.(ld_entries))) ;;
          if loaded.(ld_format) =? 1 then sret false
          else
            let entries := downgrade_entry <$> loaded.(ld_entries) in
            log_io ;; log_io ;; log_io ;;
            smodify (fun w => w <| lw_backups := source :: w.(lw_backups) |>) ;;
            log_io ;; log_io ;; log_io ;;
            do b <- slift (map_err DataError (snapshot_to_vec (MkDurableSnapshot 1 entries)));
            replace b ;;
            sret true
      end
  end.
End Ledger.
