(* ===== verification/LedgerLaws.v ===== *)
(** * The durable log keeps what the idempotency store asks of it

    The content of a version 2 log is what its lines say ([content_view]).  Opening a log
    gives its content; a write that succeeds changes it as asked, and one that fails leaves
    the old content, the new one or a log that cannot be read.  This makes [LogWriter] an
    instance of [DurableLogLaws]. *)

From S2P Require Import Prelude Text SkillTypes Receipt Job Interface Ledger LedgerRun Json Idempotency DurableLog IdempotencySteps IdempotencyLedger.

(** What is relied on in [serde_json]: one line per value, read back as the value when its
    keys are valid ([IdempotencyKey] checks itself when it is read), and room for a store
    that is full. *)
Class LedgerCodecLaws `{LedgerCodec, JsonLib} := {
  header_roundtrip h b :
    Forall (fun d => valid_key d.(de_key)) h.(hd_entries) -> header_to_vec h = Ok b ->
    no_newline b /\ header_from_slice (b ++ [newline]) = Some h;
  record_roundtrip r b :
    Forall (fun d => valid_key d.(de_key)) r.(lr_change).(cg_updates) ->
    Forall (fun k : Key => valid_key k.2) r.(lr_change).(cg_removes) -> record_to_vec r = Ok b ->
    no_newline b /\ record_from_slice (b ++ [newline]) = Some r;
  snapshot_roundtrip s b :
    Forall (fun d => valid_key d.(de_key)) s.(sn_entries) -> snapshot_to_vec s = Ok b ->
    no_newline b /\ header_from_slice b = None /\ snapshot_from_slice b = Some s;
  header_empty : header_from_slice [] = None;
  header_size h b :
    full_store h.(hd_entries) -> header_to_vec h = Ok b -> blen b < MAX_LINE_BYTES;
  snapshot_size s b :
    full_store s.(sn_entries) -> snapshot_to_vec s = Ok b -> blen b < MAX_LINE_BYTES;
}.

(** What is checksummed is told apart by its members: a snapshot has entries, a change a
    sequence, the digest before it, its updates and its removals. *)
Class LedgerValueLaws `{LedgerCodec} := {
  snapshot_value_inj s s' v v' :
    snapshot_to_value s = Some v -> snapshot_to_value s' = Some v' ->
    canonicalize v = canonicalize v' -> s = s';
  change_value_inj c c' v v' :
    change_to_value c = Some v -> change_to_value c' = Some v' ->
    canonicalize v = canonicalize v' -> c = c';
  snapshot_value_change s c v v' :
    snapshot_to_value s = Some v -> change_to_value c = Some v' -> canonicalize v <> canonicalize v';
}.

Section Laws.
Context `{JsonLib, Sha2, LedgerCodec, !LedgerCodecLaws}.
Implicit Types (w : LogWriter) (d : V2Decoder) (m : gmap Key DurableEntry).

(** The entries pass [validate] whatever the time is. *)
Definition valid_always (es : list DurableEntry) : bool :=
  is_ok (validate_from (fun _ => false) ∅ ∅ es).

Abbreviation lenient := (v2_decoder valid_always).

Lemma v2_plain check : plain (v2_decoder check).
Proof.
  split.
  - intros ln ln' E. simpl. unfold V2Decoder_decode. by rewrite E.
  - intros ln ln' E. simpl. unfold V2Decoder_apply. by rewrite E.
  - intros ln d p d'. simpl. unfold V2Decoder_decode. destruct (vd_header d) as [h|].
    + unfold decode_header. destruct (negb _); [by intros [= <- <-]|].
      destruct (checksum _); [|done]. simpl. intros [= <- <-].
      destruct (negb (bool_decide _)); [done|]. destruct (negb (check _)); [done|].
      by destruct (header_entries _ _).
    + unfold decode_change. destruct (record_from_slice _); [|by intros [= <- <-]].
      destruct (negb _); [by intros [= <- <-]|]. destruct (negb _); [by intros [= <- <-]|].
      destruct (checksum _); [|done]. simpl. intros [= <- <-]. destruct (negb _); [done|].
      destruct (change_size _ _); [|done]. by destruct (_ || _ || _).
  - intros ln p v d d'. simpl. unfold V2Decoder_apply. case_bool_decide; [done|].
    by destruct (pr_record p) as [[]|].
Qed.

Lemma max_line : 0 <= MAX_LINE_BYTES < u64_max.
Proof. done. Qed.

(** ** The content of a file *)

(** What the lines of a file say; [None] for anything but a sound version 2 log. *)
Definition content_view (b : bytes) : option V2Decoder :=
  match jsonl_lines b with
  | (first :: lines, []) =>
      if forallb (fun l => blen l <=? MAX_LINE_BYTES) (first :: lines) then
        header ← header_from_slice first;
        snd <$> run lenient (first :: lines) None (V2Decoder_new header)
      else None
  | _ => None
  end.

Definition writer_view w : option (gmap Key DurableEntry) :=
  match w.(lw_file) with
  | None => Some ∅
  | Some b => vd_entries <$> content_view b
  end.

Lemma content_view_Some b d :
  content_view b = Some d <->
  exists first lines header last, b = concat (first :: lines)
    /\ Forall (line_ok MAX_LINE_BYTES) (first :: lines) /\ header_from_slice first = Some header
    /\ run lenient (first :: lines) None (V2Decoder_new header) = Some (last, d).
Proof.
  unfold content_view. split.
  - destruct (jsonl_lines b) as [[|first lines] [|? ?]] eqn:El; try done.
    apply jsonl_lines_spec in El as (-> & Hs & _). rewrite app_nil_r.
    destruct (forallb _ _) eqn:Ef; [|done].
    intros E. apply bind_Some in E as (header & Hh & E). apply fmap_Some in E as ([last d'] & Hr & ->).
    exists first, lines, header, last. split_and!; try done.
    apply Forall_forall. intros l Hl. split; [by eapply Forall_forall in Hs|].
    rewrite forallb_forall in Ef. apply list_elem_of_In in Hl. specialize (Ef l Hl). lia.
  - intros (first & lines & header & last & -> & Hok & Hh & Hr).
    assert (Forall line_shape (first :: lines)) as Hs by (eapply Forall_impl; [exact Hok|by intros ? [? _]]).
    pose proof (jsonl_lines_concat _ [] Hs (Forall_nil_2 _)) as El. rewrite app_nil_r in El. rewrite El.
    destruct (forallb _ _) eqn:Ef; [|exfalso; revert Ef; apply not_false_iff_true, forallb_forall;
      intros l Hl; apply list_elem_of_In in Hl; eapply Forall_forall in Hok; [|exact Hl]; destruct Hok; lia].
    rewrite Hh. cbn [mbind option_bind]. exact (f_equal (fmap snd) Hr).
Qed.

(** ** What the lines leave behind *)

(** The header is looked at once; a weaker check takes what a stronger one does. *)
Definition check_weaker (c1 c2 : list DurableEntry -> bool) d : Prop :=
  forall h, d.(vd_header) = Some h -> c1 h.(hd_entries) = true -> c2 h.(hd_entries) = true.

Lemma run_line_check c1 c2 l last d x :
  run_line (v2_decoder c1) l last d = Some x -> check_weaker c1 c2 d ->
  run_line (v2_decoder c2) l last d = Some x /\ x.2.(vd_header) = None.
Proof.
  unfold run_line. simpl. unfold V2Decoder_decode. intros E Hc. split.
  - destruct (vd_header d) as [h|] eqn:Eh; [|done]. specialize (Hc h Eh). revert E.
    unfold decode_header. destruct (negb (hd_schema_version h =? 2)); [done|].
    destruct (checksum _); [|done]. simpl. destruct (negb (bool_decide _)); [done|].
    destruct (c1 (hd_entries h)); [|done]. by rewrite Hc.
  - revert E. set (p := match vd_header d with Some h => _ | None => _ end).
    assert (vd_header p.2 = None) as Hp by (unfold p; by destruct (vd_header d) eqn:Eh).
    clearbody p. destruct p as [[p|e] d1]; [|done]. destruct (pr_observation p); [done| |done].
    destruct (in_sequence _ _); [|done]. unfold V2Decoder_apply. simpl in Hp.
    case_bool_decide as Hv; [by destruct (bool_decide (is_Some _)) in Hv|].
    destruct (pr_record p) as [[]|]; intros E; simplify_eq/=; done.
Qed.

Lemma run_check c1 c2 ls last d x :
  run (v2_decoder c1) ls last d = Some x -> check_weaker c1 c2 d ->
  run (v2_decoder c2) ls last d = Some x.
Proof.
  revert last d. induction ls as [|l ls IH]; intros last d; [done|]. cbn [run].
  destruct (run_line (v2_decoder c1) l last d) as [[last1 d1]|] eqn:E; [|done]. intros Hr Hc.
  destruct (run_line_check c1 c2 _ _ _ _ E Hc) as [-> Hn]. simpl in Hn. apply IH; [done|].
  intros h Hh. congruence.
Qed.

(** The last sequence of the scan is the decoder's. *)
Record settled (last : option Z) d : Prop := MkSettled {
  st_header : d.(vd_header) = None;
  st_last : (last = None /\ d.(vd_sequence) = 0) \/ last = Some d.(vd_sequence);
  st_keyed : keyed d.(vd_entries);
  st_nonneg : 0 <= d.(vd_sequence) /\ 0 <= d.(vd_appended_bytes);
}.

Lemma insert_keyed m e : keyed m -> keyed (<[durable_key e := e]> m).
Proof.
  intros Hm k d Hd. destruct (decide (k = durable_key e)) as [->|Hne].
  - rewrite lookup_insert_eq in Hd. congruence.
  - rewrite lookup_insert_ne in Hd by done. by apply Hm.
Qed.

Lemma apply_keyed m us rs : keyed m -> keyed (apply_change m us rs).
Proof.
  intros Hm. unfold apply_change.
  assert (keyed (fold_left (fun m k => delete k m) rs m)) as Hr.
  { revert m Hm. induction rs as [|r rs IH]; intros m Hm; [done|]. simpl. apply IH.
    intros k d [_ Hd]%lookup_delete_Some. by apply Hm. }
  revert Hr. generalize (fold_left (fun m k => delete k m) rs m). clear.
  induction us as [|u us IH]; intros m Hm; [done|]. simpl. by apply IH, insert_keyed.
Qed.

Lemma header_entries_keyed es m m' : keyed m -> header_entries m es = Some m' -> keyed m'.
Proof.
  revert m. induction es as [|e es IH]; intros m Hm E; simpl in E; [by simplify_eq|].
  destruct (m !! durable_key e); [done|]. eapply IH; [|exact E]. by apply insert_keyed.
Qed.

Lemma run_line_change line last d last' d' :
  settled last d -> run_line lenient line last d = Some (last', d') -> settled last' d'.
Proof.
  intros [Hh Hl Hk [N1 N2]]. unfold run_line. simpl. unfold V2Decoder_decode. rewrite Hh.
  unfold decode_change. destruct (record_from_slice _) as [r|]; [|done].
  destruct (negb _); [done|]. destruct (negb _); [done|]. destruct (checksum _); [|done]. simpl.
  destruct (negb _); [done|]. destruct (change_size _ _); [|done]. destruct (_ || _ || _); [done|].
  simpl. destruct (bool_decide (next_sequence last = _)) eqn:Eseq; [|done].
  apply bool_decide_eq_true in Eseq. destruct (negb _); [|done]. unfold V2Decoder_apply. simpl.
  intros [= <- <-]. split; simpl; [done|by right|by apply apply_keyed|]. split.
  - unfold next_sequence, checked_add in Eseq. destruct Hl as [[-> _]| ->]; [injection Eseq; lia|].
    destruct (_ <=? _); [|done]. injection Eseq. lia.
  - pose proof (blen_nonneg line). lia.
Qed.

Lemma run_settled ls last d last' d' :
  settled last d -> run lenient ls last d = Some (last', d') -> settled last' d'.
Proof.
  revert last d. induction ls as [|l ls IH]; intros last d Hs E; cbn [run] in E; [congruence|].
  destruct (run_line lenient l last d) as [[last1 d1]|] eqn:E1; [|done].
  eapply IH; [|exact E]. by eapply run_line_change.
Qed.

(** The header line. *)
Lemma run_line_header line header last' d' :
  run_line lenient line None (V2Decoder_new header) = Some (last', d') ->
  settled last' d' /\ last' = None.
Proof.
  unfold run_line. simpl. unfold V2Decoder_decode. simpl. unfold decode_header.
  destruct (negb (hd_schema_version header =? 2)); [done|]. destruct (checksum _); [|done]. simpl.
  destruct (negb (bool_decide _)); [done|]. destruct (negb (valid_always _)); [done|].
  destruct (header_entries ∅ (hd_entries header)) as [m|] eqn:Em; [|done]. simpl.
  intros [= <- <-]. split; [|done]. split; simpl; [done|by left| |lia].
  eapply header_entries_keyed; [|exact Em]. intros k d Hd. by rewrite lookup_empty in Hd.
Qed.

Lemma view_settled first lines header last d :
  run lenient (first :: lines) None (V2Decoder_new header) = Some (last, d) -> settled last d.
Proof.
  cbn [run]. destruct (run_line _ first _ _) as [[last1 d1]|] eqn:E1; [|done].
  apply run_line_header in E1 as [Hs _]. by apply run_settled.
Qed.

Lemma header_entries_map es m :
  NoDup (durable_key <$> es) -> (forall e, e ∈ es -> m !! durable_key e = None) ->
  header_entries m es = Some (to_map es ∪ m).
Proof.
  revert m. induction es as [|e es IH]; intros m Hn Hd; simpl.
  { f_equal. unfold to_map. simpl. by rewrite (left_id_L ∅ (∪)). }
  csimpl in Hn. apply NoDup_cons in Hn as [He Hn]. rewrite (Hd e) by left.
  rewrite IH; [|done|].
  - f_equal. unfold to_map. csimpl. rewrite <-insert_union_l, insert_union_r; [done|].
    apply not_elem_of_list_to_map_1. by rewrite <-list_fmap_compose.
  - intros e' He'. rewrite lookup_insert_ne; [apply Hd; by right|].
    intros Hk. apply He. rewrite Hk. by apply list_elem_of_fmap_2.
Qed.

(** A log that was just replaced. *)
Lemma view_checkpoint es sha b :
  NoDup (durable_key <$> es) -> Forall (fun e : DurableEntry => valid_key e.(de_key)) es ->
  valid_always es = true -> checksum (snapshot_to_value (MkDurableSnapshot 2 es)) = Ok sha ->
  header_to_vec (MkHeader 2 es sha) = Ok b -> blen b < MAX_LINE_BYTES ->
  content_view (b ++ [newline]) = Some (MkV2Decoder None (to_map es) 0 sha 0).
Proof.
  intros Hn Hv Hva Hc Hb Hl. destruct (header_roundtrip (MkHeader 2 es sha) b Hv Hb) as [Hnl Hh].
  apply content_view_Some. exists (b ++ [newline]), [], (MkHeader 2 es sha), None.
  split; [simpl; by rewrite app_nil_r|]. split.
  { constructor; [|constructor]. split; [by exists b|]. rewrite blen_app.
    change (blen [newline]) with 1. lia. }
  split; [done|]. cbn [run]. unfold run_line. simpl. unfold V2Decoder_decode. simpl.
  unfold decode_header. simpl. rewrite Hc. simpl. rewrite bool_decide_eq_true_2, Hva by done. simpl.
  rewrite header_entries_map; [|done|by intros; apply lookup_empty]. simpl.
  by rewrite (right_id_L ∅ (∪)).
Qed.

(** ** The size after a change *)

Lemma removes_ok_valid m changed rs :
  NoDup rs -> (forall k, k ∈ rs -> (k ∉ changed) /\ is_Some (m !! k)) ->
  removes_ok m changed rs = Some (list_to_set rs ∪ changed).
Proof.
  revert changed. induction rs as [|k rs IH]; intros changed Hn Hr; simpl.
  { f_equal. apply set_eq. set_solver. }
  apply NoDup_cons in Hn as [Hk Hn]. destruct (Hr k) as [Hc Hs]; [by left|].
  rewrite bool_decide_eq_false_2, bool_decide_eq_true_2 by done. simpl. rewrite IH; [|done|].
  - f_equal. apply set_eq. set_solver.
  - intros k' Hk'. destruct (Hr k') as [Hc' Hs']; [by right|]. split; [|done].
    intros [->%elem_of_singleton|?]%elem_of_union; done.
Qed.

Lemma deletes_size (rs : list Key) m :
  NoDup rs -> (forall k, k ∈ rs -> is_Some (m !! k)) ->
  Z.of_nat (size (fold_left (fun m k => delete k m) rs m)) = Z.of_nat (size m) - Z.of_nat (length rs).
Proof.
  revert m. induction rs as [|k rs IH]; intros m Hn Hr; simpl; [lia|].
  apply NoDup_cons in Hn as [Hk Hn]. destruct (Hr k) as [d Hd]; [by left|].
  rewrite IH; [|done|].
  - rewrite (map_size_delete_Some k m) by (by exists d).
    assert (size m <> 0%nat) by (apply map_size_ne_0_lookup_2 with k; by exists d). lia.
  - intros k' Hk'. rewrite lookup_delete_ne; [apply Hr; by right|]. by intros ->.
Qed.

Lemma updates_ok_valid m m' changed us n :
  NoDup (durable_key <$> us) -> (forall k, k ∉ changed -> m' !! k = m !! k) ->
  (forall e, e ∈ us -> durable_key e ∉ changed) -> n = Z.of_nat (size m') ->
  updates_ok m changed n us
  = Some (Z.of_nat (size (fold_left (fun m e => <[durable_key e := e]> m) us m'))).
Proof.
  revert m' changed n. induction us as [|e us IH]; intros m' changed n Hn Hm Hc ->; simpl; [done|].
  csimpl in Hn. apply NoDup_cons in Hn as [He Hn]. pose proof (Hc e ltac:(by left)) as Hce.
  rewrite bool_decide_eq_false_2 by done. apply IH; [done|..].
  - intros k Hk. rewrite lookup_insert_ne by set_solver. apply Hm. set_solver.
  - intros e' He' [Heq%elem_of_singleton|?]%elem_of_union.
    + apply He. rewrite <-Heq. by apply list_elem_of_fmap_2.
    + by eapply Hc; [right|].
  - rewrite <-(Hm _ Hce). case_bool_decide as Hs.
    + destruct Hs as [d Hd]. rewrite map_size_insert_Some; [done|by exists d].
    + apply eq_None_not_Some in Hs. rewrite map_size_insert_None by done. lia.
Qed.

Lemma change_size_valid m seq prev us rs :
  change_valid m us rs ->
  change_size m (MkChange seq prev us rs) = Some (Z.of_nat (size (apply_change m us rs))).
Proof.
  intros [Hn Hp _ _]. apply NoDup_app in Hn as (Hr & Hd & Hu). unfold change_size. simpl.
  rewrite removes_ok_valid; [|done|intros k Hk; split; [apply not_elem_of_empty|by apply Hp]].
  unfold apply_change. apply updates_ok_valid; [done|..].
  - intros k Hk. rewrite removes_lookup, decide_False; [done|]. set_solver.
  - intros e He Hin. apply elem_of_union in Hin as [Hin|Hin]; [|set_solver].
    apply elem_of_list_to_set in Hin. apply (Hd _ Hin). by apply list_elem_of_fmap_2.
  - symmetry. by apply deletes_size.
Qed.

(** ** Appending a line *)

Definition changed_by (line : bytes) (r : LedgerRecord) d : V2Decoder :=
  MkV2Decoder None (apply_change d.(vd_entries) r.(lr_change).(cg_updates) r.(lr_change).(cg_removes))
    r.(lr_change).(cg_sequence) r.(lr_sha256) (d.(vd_appended_bytes) + blen line).

Lemma checked_add_small n : 0 <= n -> n < COMPACT_RECORDS -> checked_add n 1 = Some (n + 1).
Proof. unfold checked_add, COMPACT_RECORDS, u64_max. intros. destruct (_ <=? _) eqn:E; [done|lia]. Qed.

Lemma run_line_accepts line last d r seq :
  settled last d -> record_from_slice line = Some r -> r.(lr_schema_version) = 2 ->
  r.(lr_change).(cg_previous_sha256) = d.(vd_sha256) ->
  checksum (change_to_value r.(lr_change)) = Ok r.(lr_sha256) ->
  (exists n, change_size d.(vd_entries) r.(lr_change) = Some n /\ n <= 4096) ->
  0 <= d.(vd_sequence) < COMPACT_RECORDS -> 0 <= d.(vd_appended_bytes) < COMPACT_BYTES ->
  blen line <= MAX_LINE_BYTES -> seq = d.(vd_sequence) + 1 -> r.(lr_change).(cg_sequence) = seq ->
  run_line lenient line last d = Some (Some seq, changed_by line r d).
Proof.
  intros [Hh Hl _ _] Hr Hv Hp Hc (n & Hn & Hle) Hs Ha Hb -> Hseq. unfold run_line. simpl.
  unfold V2Decoder_decode. rewrite Hh. unfold decode_change. simpl. rewrite Hr, Hv. simpl.
  rewrite (bool_decide_eq_true_2 (cg_previous_sha256 _ = _)) by done. simpl. rewrite Hc. simpl.
  rewrite (bool_decide_eq_true_2 (lr_sha256 r = _)) by done. simpl. rewrite Hn.
  assert ((4096 <? n) || (COMPACT_RECORDS <=? vd_sequence d)
    || (COMPACT_BYTES + MAX_LINE_BYTES <? saturating_add (vd_appended_bytes d) (blen line)) = false) as ->.
  { unfold saturating_add. rewrite !orb_false_iff. split_and!; lia. }
  simpl. rewrite Hseq.
  assert (next_sequence last = Some (vd_sequence d + 1)) as Hnext.
  { destruct Hl as [[-> ->]|[= ->]]; [done|]. apply checked_add_small; lia. }
  rewrite (bool_decide_eq_true_2 (next_sequence last = _)) by done.
  assert ((vd_sequence d + 1 =? u64_max) = false) as -> by (unfold COMPACT_RECORDS, u64_max in *; lia).
  simpl. unfold V2Decoder_apply. simpl. unfold changed_by, set_field, eta, eta_V2Decoder. simpl.
  by rewrite Hh, Hseq.
Qed.

Lemma content_view_snoc b d line r :
  content_view b = Some d -> line_ok MAX_LINE_BYTES line ->
  (forall last, settled last d -> run_line lenient line last d = Some (Some r.(lr_change).(cg_sequence), changed_by line r d)) ->
  content_view (b ++ line) = Some (changed_by line r d).
Proof.
  intros Hv Hl Hr. apply content_view_Some in Hv as (first & lines & header & last & -> & Hok & Hh & Hrun).
  pose proof (view_settled _ _ _ _ _ Hrun) as Hs.
  apply content_view_Some. exists first, (lines ++ [line]), header, (Some r.(lr_change).(cg_sequence)).
  split; [by rewrite app_comm_cons, concat_app; simpl; rewrite app_nil_r|].
  split; [rewrite app_comm_cons; apply Forall_app; split; [done|by constructor]|]. split; [done|].
  rewrite app_comm_cons, run_app, Hrun. cbn [run]. by rewrite (Hr last Hs).
Qed.

(** A line that is cut short leaves a log that cannot be read. *)
Lemma content_view_torn b d body n :
  content_view b = Some d -> no_newline body -> (0 < n <= length body)%nat ->
  content_view (b ++ take n (body ++ [newline])) = None.
Proof.
  intros Hv Hb Hn. apply content_view_Some in Hv as (first & lines & header & last & -> & Hok & _).
  rewrite take_app_le by lia. unfold content_view. rewrite jsonl_lines_concat.
  - destruct (take n body) as [|c t] eqn:E; [|done].
    apply (f_equal length) in E. rewrite length_take in E. simpl in E. lia.
  - eapply Forall_impl; [exact Hok|]. by intros ? [? _].
  - by apply Forall_take.
Qed.

(** ** The laws *)

Definition quiet w w' : Prop := exists fs, w' = w <| lw_faults := fs |>.

Lemma untouched_refl w : quiet w w.
Proof. exists (lw_faults w). by destruct w. Qed.

Lemma untouched_trans w1 w2 w3 : quiet w1 w2 -> quiet w2 w3 -> quiet w1 w3.
Proof. intros [fs ->] [fs' ->]. exists fs'. done. Qed.

Lemma log_fault_quiet w r w' : log_fault w = (r, w') -> quiet w w'.
Proof.
  unfold log_fault. destruct (lw_faults w) as [|f fs] eqn:E; intros [= <- <-]; [apply untouched_refl|].
  by exists fs.
Qed.

Lemma log_io_quiet w r w' : log_io w = (r, w') -> quiet w w'.
Proof.
  unfold log_io, sbind. destruct (log_fault w) as [[f|e] w1] eqn:E; apply log_fault_quiet in E.
  - destruct f; intros [= <- <-]; done.
  - by intros [= <- <-].
Qed.

Lemma quiet_fields w w' : quiet w w' ->
  w'.(lw_file) = w.(lw_file) /\ w'.(lw_handle) = w.(lw_handle) /\ w'.(lw_format) = w.(lw_format)
  /\ w'.(lw_sequence) = w.(lw_sequence) /\ w'.(lw_sha256) = w.(lw_sha256)
  /\ w'.(lw_appended_bytes) = w.(lw_appended_bytes).
Proof. by intros [fs ->]. Qed.

(** One I/O call and what follows it. *)
Lemma log_io_then {A} (m : LogIO A) w r w' :
  (log_io ;; m) w = (r, w') ->
  exists w1, quiet w w1 /\ ((exists e, r = Err e /\ w' = w1) \/ m w1 = (r, w')).
Proof.
  unfold sbind. destruct (log_io w) as [[u|e] w1] eqn:E; apply log_io_quiet in E; intros Hm;
    exists w1; (split; [done|]); [by right|left]. injection Hm as <- <-. eauto.
Qed.

Lemma replace_spec b w r w' :
  replace b w = (r, w') ->
  match r with
  | Ok _ => w'.(lw_file) = Some b
  | Err _ => w'.(lw_file) = w.(lw_file) \/ w'.(lw_file) = Some b
  end.
Proof.
  unfold replace. destruct (sbind _ _ w) as [r0 w0] eqn:E. intros E0.
  assert (match r0 with Ok _ => lw_file w0 = Some b | Err _ => lw_file w0 = lw_file w \/ lw_file w0 = Some b end) as H0'.
  { clear E0. do 4 (apply log_io_then in E as (? & [? ->] & [(? & -> & ->)|E]); [by left|]).
    unfold sbind at 1, smodify in E.
    apply log_io_then in E as (? & [? ->] & [(? & -> & ->)|E]); [by right|].
    apply log_io_quiet, quiet_fields in E as (-> & _). destruct r0; [done|by right]. }
  destruct r0; injection E0 as <- <-; [done|].
  destruct (log_fault w0) as [f w1] eqn:Ef. apply log_fault_quiet, quiet_fields in Ef as (Ef & _).
  simpl. by rewrite Ef.
Qed.

Definition writer_ok w : Prop :=
  w.(lw_format) = 2 ->
  w.(lw_handle) = AtPath /\ exists b d, w.(lw_file) = Some b /\ content_view b = Some d
    /\ d.(vd_sequence) = w.(lw_sequence) /\ d.(vd_sha256) = w.(lw_sha256)
    /\ d.(vd_appended_bytes) = w.(lw_appended_bytes)
    /\ 0 <= w.(lw_sequence) /\ 0 <= w.(lw_appended_bytes).

Definition writer_fits (es : list DurableEntry) : Prop :=
  Forall (fun e => valid_key e.(de_key)) es /\ valid_always es = true
  /\ forall sha b, header_to_vec (MkHeader 2 es sha) = Ok b -> blen b < MAX_LINE_BYTES.

Lemma checkpoint_cases es w r w' :
  NoDup (durable_key <$> es) -> writer_fits es -> checkpoint es w = (r, w') ->
  match r with
  | Ok _ => writer_ok w' /\ writer_view w' = Some (to_map es)
  | Err _ => writer_view w' = writer_view w \/ writer_view w' = Some (to_map es)
  end.
Proof.
  intros Hn (Hv & Hva & Hf) E. unfold checkpoint in E. unfold sbind at 1, slift in E.
  destruct (checksum _) as [sha|e] eqn:Ec; [|injection E as <- <-; by left].
  unfold sbind at 1, slift in E.
  destruct (header_to_vec _) as [b|e] eqn:Eb; [|injection E as <- <-; by left]. cbn [map_err] in E.
  pose proof (view_checkpoint es sha b Hn Hv Hva Ec Eb (Hf _ _ Eb)) as Hview.
  unfold sbind at 1 in E. destruct (replace _ w) as [r1 w1] eqn:Er. apply replace_spec in Er.
  assert (forall x, lw_file x = Some (b ++ [newline]) -> writer_view x = Some (to_map es)) as Hx.
  { intros x Ex. unfold writer_view. by rewrite Ex, Hview. }
  destruct r1 as [[]|e].
  - apply log_io_then in E as (w2 & [fs ->] & [(e & -> & ->)|E]); [right; by apply Hx|].
    injection E as <- <-. split; [|by apply Hx]. intros _. split; [done|].
    eexists _, _. split; [exact Er|]. split; [exact Hview|]. done.
  - injection E as <- <-. destruct Er as [Er|Er]; [left|right; by apply Hx].
    unfold writer_view. by rewrite Er.
Qed.

Lemma needs_checkpoint_false w :
  journal_needs_checkpoint w = false ->
  w.(lw_format) = 2 /\ w.(lw_sequence) < COMPACT_RECORDS /\ w.(lw_appended_bytes) < COMPACT_BYTES.
Proof. unfold journal_needs_checkpoint. rewrite !orb_false_iff. lia. Qed.

(** The record an append writes, in the log it is appended to. *)
Lemma append_view w m us rs b d sha body :
  writer_ok w -> journal_needs_checkpoint w = false -> change_valid m us rs ->
  w.(lw_file) = Some b -> content_view b = Some d -> d.(vd_entries) = m ->
  d.(vd_sequence) = w.(lw_sequence) -> d.(vd_sha256) = w.(lw_sha256) ->
  d.(vd_appended_bytes) = w.(lw_appended_bytes) -> 0 <= w.(lw_sequence) -> 0 <= w.(lw_appended_bytes) ->
  let change := MkChange (w.(lw_sequence) + 1) w.(lw_sha256) us rs in
  checksum (change_to_value change) = Ok sha ->
  record_to_vec (MkLedgerRecord 2 change sha) = Ok body -> blen (body ++ [newline]) <= MAX_LINE_BYTES ->
  no_newline body
  /\ content_view (b ++ body ++ [newline])
     = Some (changed_by (body ++ [newline]) (MkLedgerRecord 2 change sha) d).
Proof.
  intros Hok Hnc Hcv Hf Hview Hm E1 E2 E3 P1 P2 change Hc Hb Hl.
  destruct (record_roundtrip (MkLedgerRecord 2 change sha) body) as [Hnl Hrt]; [..|exact Hb|].
  - simpl. apply Forall_forall. intros e He.
    apply (cv_keys _ _ _ Hcv (durable_key e)), elem_of_app. right. by apply list_elem_of_fmap_2.
  - simpl. apply Forall_forall. intros k Hk. apply (cv_keys _ _ _ Hcv), elem_of_app. by left.
  - split; [done|]. destruct (needs_checkpoint_false w Hnc) as (_ & Q1 & Q2).
    apply content_view_snoc; [done|split; [by exists body|done]|].
    intros last Hs. simpl.
    apply run_line_accepts; [done|exact Hrt|done|simpl; congruence|exact Hc| |lia|lia|done|lia|done].
    rewrite Hm. exists (Z.of_nat (size (apply_change m us rs))).
    split; [by apply change_size_valid|]. apply Hcv.
Qed.

Lemma append_cases w m us rs r w' :
  writer_ok w -> journal_needs_checkpoint w = false -> writer_view w = Some m ->
  change_valid m us rs -> append_change us rs w = (r, w') ->
  match r with
  | Ok _ => writer_ok w' /\ writer_view w' = Some (apply_change m us rs)
  | Err _ => writer_view w' = None \/ writer_view w' = Some m
             \/ writer_view w' = Some (apply_change m us rs)
  end.
Proof.
  intros Hok Hnc Hv Hcv E. destruct (needs_checkpoint_false w Hnc) as (Hfmt & Q1 & Q2).
  destruct (Hok Hfmt) as (Hh & b & d & Hf & Hview & E1 & E2 & E3 & P1 & P2).
  assert (vd_entries d = m) as Hm by (unfold writer_view in Hv; rewrite Hf, Hview in Hv; by injection Hv).
  unfold append_change in E. unfold sbind at 1, sget in E.
  rewrite (checked_add_small (lw_sequence w)) in E by lia. cbv zeta in E.
  set (change := MkChange _ _ us rs) in E.
  unfold sbind at 1, slift in E.
  destruct (checksum _) as [sha|e] eqn:Ec; [|injection E as <- <-; by right; left].
  unfold sbind at 1, slift in E.
  destruct (record_to_vec _) as [body|e] eqn:Eb; [|injection E as <- <-; by right; left]. cbn [map_err] in E.
  destruct (Z.ltb_spec MAX_LINE_BYTES (blen (body ++ [newline]))) as [Hl|Hl];
    [injection E as <- <-; by right; left|].
  destruct (append_view w m us rs b d sha body) as [Hnl Hnew]; [done..|]. fold change in Hnew.
  rewrite Hh in E. unfold sbind at 1 in E.
  assert (forall x n, lw_file x = Some (b ++ take n (body ++ [newline])) ->
    writer_view x = None \/ writer_view x = Some m \/ writer_view x = Some (apply_change m us rs)) as Hpart.
  { intros x n Ex. unfold writer_view. rewrite Ex.
    destruct (decide (n = 0%nat)) as [->|Hn0].
    { rewrite take_0, app_nil_r, Hview, <-Hm. by right; left. }
    destruct (decide (n <= length body)%nat) as [Hle|Hgt].
    - rewrite (content_view_torn b d body n Hview Hnl) by lia. by left.
    - rewrite take_ge by (rewrite length_app; simpl; lia). rewrite Hnew, <-Hm. by right; right. }
  assert (forall n, lw_file (handle_append (take n (body ++ [newline])) w)
    = Some (b ++ take n (body ++ [newline]))) as Hwr.
  { intros n. unfold handle_append. rewrite Hh. simpl. by rewrite Hf. }
  assert (forall x, lw_file x = Some b -> writer_view x = Some m) as Hold.
  { intros x Ex. unfold writer_view. by rewrite Ex, Hview, <-Hm. }
  unfold handle_write_all, sbind at 1 in E.
  destruct (log_fault w) as [[f|e] w1] eqn:Ef; apply log_fault_quiet in Ef as [fs ->];
    [|injection E as <- <-; right; left; by apply Hold].
  destruct f as [|msg|n msg].
  - unfold smodify at 1 in E. cbv beta iota in E.
    apply log_io_then in E as (w2 & [fs2 ->] & [(e & -> & ->)|E]).
    { specialize (Hpart (handle_append (body ++ [newline]) (w <| lw_faults := fs |>) <| lw_faults := fs2 |>)
        (length (body ++ [newline]))). rewrite firstn_all in Hpart. apply Hpart.
      unfold handle_append. simpl. rewrite Hh. simpl. by rewrite Hf. }
    apply log_io_then in E as (w3 & [fs3 ->] & [(e & -> & ->)|E]).
    { specialize (Hpart (handle_append (body ++ [newline]) (w <| lw_faults := fs |>) <| lw_faults := fs3 |>)
        (length (body ++ [newline]))). rewrite firstn_all in Hpart. apply Hpart.
      unfold handle_append. simpl. rewrite Hh. simpl. by rewrite Hf. }
    injection E as <- <-. unfold handle_append. simpl. rewrite Hh. simpl. rewrite Hf. simpl. split.
    + intros _. split; [done|]. eexists _, _. split; [reflexivity|]. split; [exact Hnew|]. simpl.
      split_and!; [lia|done|lia|lia|]. pose proof (blen_nonneg (body ++ [newline])). lia.
    + unfold writer_view. simpl. rewrite Hnew. simpl. by rewrite Hm.
  - injection E as <- <-. right; left. by apply Hold.
  - injection E as <- <-. apply (Hpart _ n). unfold handle_append. simpl. rewrite Hh. simpl. by rewrite Hf.
Qed.

(** ** Opening *)

Lemma line_shapes_inj ls ls' :
  Forall line_shape ls -> Forall line_shape ls' -> concat ls = concat ls' -> ls = ls'.
Proof.
  intros Hs Hs' E. pose proof (jsonl_lines_concat ls [] Hs (Forall_nil_2 _)) as E1.
  pose proof (jsonl_lines_concat ls' [] Hs' (Forall_nil_2 _)) as E2. rewrite E, E2 in E1. by simplify_eq.
Qed.

(** A file that loads as version 2 ran through the decoder, to its end. *)
Lemma load_v2_run now b fails l :
  load_reader now (MkReader b fails) = Ok l -> l.(ld_format) = 2 ->
  fails = None /\ exists first lines header last d, b = concat (first :: lines)
    /\ Forall (line_ok MAX_LINE_BYTES) (first :: lines) /\ header_from_slice first = Some header
    /\ run (v2_decoder (fun es => is_ok (validate now es))) (first :: lines) None (V2Decoder_new header)
       = Some (last, d)
    /\ l.(ld_entries) = (map_to_list d.(vd_entries)).*2 /\ l.(ld_sequence) = d.(vd_sequence)
    /\ l.(ld_sha256) = d.(vd_sha256) /\ l.(ld_appended_bytes) = d.(vd_appended_bytes).
Proof.
  unfold load_reader, read_jsonl_line. intros E Hf.
  destruct (read_jsonl_line_buffered _ _) as [[first|e] r'] eqn:Er; [|done].
  assert (exists header fb, header_from_slice fb = Some header /\ load_v2 now header first r' = Ok l
    /\ fb = match first with Complete b | Torn b => b | _ => [] end) as (header & fb & Hh & E2 & Hfb).
  { destruct first as [|x|x|]; [| | |done].
    all: match type of E with match ?h with _ => _ end = _ => destruct h as [header|] eqn:Eh end.
    all: try (eexists header, _; split; [exact Eh|]; split; [exact E|done]).
    all: unfold load_v1 in E; destruct (read_to_end _ _); [|done]; simpl in E;
         destruct (_ <? _); [done|]; destruct (snapshot_from_slice _); [|done];
         destruct (negb _); [done|]; injection E as <-; done. }
  clear E. unfold load_v2, scan_jsonl_prefetched, scan in E2.
  destruct (scan_loop _ _ _ _ _ _ _) as [[health|e] d'] eqn:Es; [|done].
  destruct (lh_first_issue health) as [i|] eqn:Hi; [done|]. injection E2 as <-. simpl.
  assert (scan_loop (v2_decoder (fun es => is_ok (validate now es))) (consecutive MAX_LINE_BYTES)
    (length (rd_bytes r') + 2) (MkReader b fails) None health_start (V2Decoder_new header) = (Ok health, d')) as Es'.
  { rewrite <-Es. replace (length (rd_bytes r') + 2)%nat with (S (length (rd_bytes r') + 1)) by lia.
    cbn [scan_loop so_max_line_bytes consecutive]. by rewrite Er. }
  pose proof (run_of_scan _ _ (v2_plain _) max_line _ _ health_start None _ _ _ ltac:(done) Es' Hi)
    as (Hfl & lines & last & Hb & Hls & Hr). simpl in Hfl, Hb. subst b fails.
  split; [done|]. destruct lines as [|first0 lines].
  - exfalso. cbn [concat] in Er. rewrite (read_last [] MAX_LINE_BYTES) in Er by (done || constructor).
    injection Er as <- <-. subst fb. cbn in Hh. by rewrite header_empty in Hh.
  - cbn [concat] in Er. pose proof Hls as [Hl1 _]%Forall_cons.
    rewrite (line_ok_read MAX_LINE_BYTES max_line first0 (concat lines) Hl1) in Er. injection Er as <- <-.
    subst fb. exists first0, lines, header, last, d'. done.
Qed.

Lemma load_v2_view now b fails l :
  load_reader now (MkReader b fails) = Ok l -> l.(ld_format) = 2 ->
  fails = None /\ exists d0, forall d, content_view b = Some d -> d = d0 /\ l.(ld_entries) = (map_to_list d.(vd_entries)).*2
    /\ l.(ld_sequence) = d.(vd_sequence) /\ l.(ld_sha256) = d.(vd_sha256)
    /\ l.(ld_appended_bytes) = d.(vd_appended_bytes).
Proof.
  intros E Hf. destruct (load_v2_run now b fails l E Hf)
    as (-> & first & lines & header & last & d' & Hb & Hls & Hh & Hr & L).
  split; [done|]. exists d'. intros d Hview.
  apply content_view_Some in Hview as (first0 & lines0 & header0 & last0 & Hb0 & Hok0 & Hh0 & Hr0).
  assert (first0 :: lines0 = first :: lines) as [= -> ->].
  { apply line_shapes_inj; [eapply Forall_impl; [exact Hok0|by intros ? [? _]]|
      eapply Forall_impl; [exact Hls|by intros ? [? _]]|congruence]. }
  assert (header0 = header) as -> by congruence.
  apply (run_check _ (fun _ => true)) in Hr, Hr0; [|done..]. by simplify_eq.
Qed.

Lemma load_formats now r l :
  load_reader now r = Ok l -> l.(ld_format) = 1 \/ l.(ld_format) = 2.
Proof.
  assert (forall header first r l, load_v2 now header first r = Ok l -> ld_format l = 2) as H2'.
  { intros header first r0 l0. unfold load_v2. repeat case_match; intros E; simplify_eq; done. }
  assert (forall b r l, load_v1 b r = Ok l -> ld_format l = 1) as H1'.
  { intros b r0 l0. unfold load_v1. cbv zeta. destruct (read_to_end _ _); [|done]. simpl.
    repeat case_match; intros E; simplify_eq; done. }
  unfold load_reader. destruct (read_jsonl_line _ _) as [[[|x|x|]|e] r']; try done;
    (case_match; intros E; [right; by eapply H2'|left; by eapply H1']).
Qed.

Lemma load_cases now w r w' :
  load now w = (r, w') ->
  quiet w w' /\ match r with
                | Ok None => w.(lw_file) = None
                | Ok (Some l) => exists b fails full, w.(lw_file) = Some full
                    /\ load_reader now (MkReader b fails) = Ok l /\ (fails = None -> b = full)
                | Err _ => True
                end.
Proof.
  unfold load. intros E. apply log_io_then in E as (w1 & Hq & [(e & -> & ->)|E]); [done|].
  unfold sbind at 1, sget in E. pose proof (quiet_fields _ _ Hq) as (Hf & _). rewrite Hf in E.
  destruct (lw_file w) as [b|]; [|injection E as <- <-; by split].
  unfold sbind at 1 in E. destruct (log_fault w1) as [[f|e] w2] eqn:Ef; apply log_fault_quiet in Ef.
  2: { injection E as <- <-. split; [by eapply untouched_trans|done]. }
  pose proof (untouched_trans _ _ _ Hq Ef) as Hq2. unfold sbind, slift in E.
  destruct (load_reader now _) as [l|e] eqn:El; injection E as <- <-; (split; [done|]); [|done].
  destruct f as [|msg|n msg]; eexists _, _, b; (split; [done|]); (split; [exact El|]); done.
Qed.

(** A device that fails is noticed. *)
Lemma load_whole now b msg l : load_reader now (MkReader b (Some msg)) <> Ok l.
Proof.
  intros E. destruct (load_formats _ _ _ E) as [E2|E2].
  2: { destruct (load_v2_view _ _ _ _ E E2) as [? _]. done. }
  unfold load_reader, read_jsonl_line in E.
  destruct (read_jsonl_line_buffered _ _) as [[first|e] r'] eqn:Er; [|done].
  apply read_inv in Er as [Hf _]. simpl in Hf.
  assert (forall fb, load_v1 fb r' <> Ok l) as Hv1.
  { intros fb. unfold load_v1, read_to_end. cbv zeta. rewrite Hf.
    set (limit := saturating_sub MAX_LINE_BYTES (blen fb) + 1).
    destruct (Z.ltb_spec (blen (take (Z.to_nat limit) (rd_bytes r'))) limit) as [Hlt|Hge]; [done|].
    simpl. destruct (Z.ltb_spec MAX_LINE_BYTES (blen (fb ++ take (Z.to_nat limit) (rd_bytes r')))) as [?|Hle];
      [done|]. rewrite blen_app in Hle. unfold limit, saturating_sub in *. lia. }
  assert (forall h f, load_v2 now h f r' = Ok l -> False) as Hv2.
  { intros h f Hx. unfold load_v2 in Hx. repeat case_match; simplify_eq; done. }
  destruct first as [|x|x|]; try done; case_match; (by eapply Hv2) || (by eapply Hv1).
Qed.

(** A file with the lines of a version 2 log is not taken for version 1. *)
Lemma view_not_v1 now b d l :
  content_view b = Some d -> load_reader now (MkReader b None) = Ok l -> l.(ld_format) = 2.
Proof.
  intros Hview E. apply content_view_Some in Hview as (first & lines & header & last & -> & Hok & Hh & _).
  apply Forall_cons in Hok as [Hl _]. unfold load_reader, read_jsonl_line in E. cbn [concat] in E.
  rewrite (line_ok_read MAX_LINE_BYTES max_line first (concat lines) Hl), Hh in E.
  unfold load_v2 in E. repeat case_match; simplify_eq; done.
Qed.

(** Opening changes no file. *)
Lemma open_same_file now w r w' : persistence_open now w = (r, w') -> w'.(lw_file) = w.(lw_file).
Proof.
  unfold persistence_open. intros E.
  apply log_io_then in E as (w1 & [fs1 ->] & [(e & -> & ->)|E]); [done|].
  apply log_io_then in E as (w2 & [fs2 ->] & [(e & -> & ->)|E]); [done|].
  destruct (load now _) as [[loaded|e] w3] eqn:El; apply load_cases in El as [[fs3 ->] _].
  - cbv zeta in E. destruct loaded as [l|]; cbv beta iota in E; [|by injection E as <- <-].
    destruct (ld_format l =? 2); [|by injection E as <- <-].
    apply log_io_then in E as (w4 & [fs4 ->] & [(e & -> & ->)|E]); [done|]. by injection E as <- <-.
  - destruct e; by injection E as <- <-.
Qed.

(** What opening a log returns. *)
Lemma open_cases now w es w' m :
  persistence_open now w = (Ok (Ok es), w') -> writer_view w = Some m ->
  writer_ok w' /\ keyed m /\ es ≡ₚ (map_to_list m).*2.
Proof.
  unfold persistence_open. intros E Hm.
  apply log_io_then in E as (w1 & Hq1 & [(e & ? & ->)|E]); [done|].
  apply log_io_then in E as (w2 & Hq2 & [(e & ? & ->)|E]); [done|].
  pose proof (untouched_trans _ _ _ Hq1 Hq2) as Hq. clear Hq1 Hq2.
  destruct (load now w2) as [[loaded|e] w3] eqn:El; [|by destruct e].
  apply load_cases in El as [Hq3 Hl]. pose proof (untouched_trans _ _ _ Hq Hq3) as Hq'.
  pose proof (quiet_fields _ _ Hq) as (Hf & _). rewrite Hf in Hl. unfold writer_view in Hm.
  destruct loaded as [l|]; cbv beta iota zeta in E.
  - destruct Hl as (b & fails & full & Hfull & Hload & Hwhole). rewrite Hfull in Hm.
    apply fmap_Some in Hm as (d & Hview & ->).
    destruct (load_formats _ _ _ Hload) as [E2|E2]; rewrite E2 in E; cbn [Z.eqb] in E.
    + exfalso. injection E as Ev <-.
      destruct fails as [msg|]; [by eapply load_whole|].
      rewrite (Hwhole eq_refl) in Hload. pose proof (view_not_v1 _ _ _ _ Hview Hload). congruence.
    + apply log_io_then in E as (w4 & Hq4 & [(e & ? & ->)|E]); [done|].
      pose proof (quiet_fields _ _ (untouched_trans _ _ _ Hq' Hq4)) as (Hf4 & _).
      injection E as Ev <-.
      destruct (load_v2_view now b fails l Hload E2) as (-> & d0 & Hd0).
      specialize (Hwhole eq_refl) as ->. destruct (Hd0 d Hview) as (<- & L1 & L2 & L3 & L4).
      pose proof Hview as Hview'.
      apply content_view_Some in Hview' as (first & lines & header & last & Hbytes & Hok & Hh & Hrun).
      pose proof (view_settled _ _ _ _ _ Hrun) as Hs.
      destruct (validate now (ld_entries l)) as [u|e]; [|done]. injection Ev as <-.
      split; [|split; [apply Hs|by rewrite L1]].
      intros _. simpl. split; [done|]. exists full, d. rewrite Hf4. split_and!; try done.
      * rewrite L2. apply Hs.
      * rewrite L4. apply Hs.
  - injection E as <- <-. split; [by intros [=]|]. rewrite Hl in Hm. injection Hm as <-. done.
Qed.

(** A restart reads what this writer wrote: a file that is no version 2 log of its own, as a
    version 1 file is, is not covered. *)
#[export] Program Instance ledger_log_laws : DurableLogLaws LogWriter := {|
  log_view := writer_view;
  log_ok := writer_ok;
  log_fits := writer_fits;
  log_open now w :=
    match persistence_open now w with
    | (Ok (Ok es), w') => if bool_decide (is_Some (writer_view w)) then Some (w', Ok es) else None
    | (Ok (Err issue), w') => Some (w', Err issue)
    | (Err _, _) => None
    end;
|}.
Next Obligation. intros log es log' Hn Hf E. exact (checkpoint_cases es log (Ok tt) log' Hn Hf E). Qed.
Next Obligation.
  intros log es e log' Hn Hf E. right. exact (checkpoint_cases es log (Err e) log' Hn Hf E).
Qed.
Next Obligation.
  intros log m us rs log' Hok Hc Hv Hcv E. exact (append_cases log m us rs (Ok tt) log' Hok Hc Hv Hcv E).
Qed.
Next Obligation.
  intros log m us rs e log' Hok Hc Hv Hcv E. exact (append_cases log m us rs (Err e) log' Hok Hc Hv Hcv E).
Qed.
Next Obligation.
  intros now w w' es. cbv beta. destruct (persistence_open now w) as [[[es'|issue]|e] w1] eqn:E; try done.
  case_bool_decide as Hs; [|done]. intros [= <- <-]. destruct Hs as [m Hm].
  destruct (open_cases _ _ _ _ _ E Hm) as (Hok & Hk & Hp). split; [done|]. exists m.
  split_and!; try done. unfold writer_view. by rewrite (open_same_file _ _ _ _ E).
Qed.
Next Obligation.
  intros now w w' issue. cbv beta. destruct (persistence_open now w) as [[[es'|issue']|e] w1] eqn:E; try done.
  - by case_bool_decide.
  - intros [= <- <-]. unfold writer_view. by rewrite (open_same_file _ _ _ _ E).
Qed.
End Laws.
