(* ===== verification/LedgerThms.v ===== *)
(** * What the durable idempotency log guarantees

    The store of [Idempotency] on the log of [IdempotencyLedger]: a log that the store writes
    can always be opened again, and converting it back to version 1 keeps every key. *)

From Stdlib Require Import Ascii.
From S2P Require Import Prelude Text SkillTypes Receipt Job Interface Ledger LedgerRun Json Idempotency IdempotencyInv DurableLog IdempotencySteps IdempotencyWorld IdempotencyKeep IdempotencyThms IdempotencyLedger LedgerLaws.

Section Validity.
Context `{JsonLib}.
Implicit Types (es : list DurableEntry) (m : gmap Key DurableEntry).

Definition of_principal (p : PrincipalId) es : list DurableEntry :=
  filter (fun d => de_principal_id d = p) es.

(** Entries within the bounds of a store pass, whichever of them have expired. *)
Lemma validate_ok lapsed keys (counts : gmap PrincipalId Z) es :
  Forall storable es -> NoDup (durable_key <$> es) ->
  (forall d, d ∈ es -> durable_key d ∉ keys) ->
  (forall p, default 0 (counts !! p) + Z.of_nat (length (of_principal p es)) <= 256) ->
  Z.of_nat (size keys) + Z.of_nat (length es) <= 4096 ->
  validate_from lapsed keys counts es = Ok tt.
Proof.
  revert keys counts. induction es as [|d es IH]; intros keys counts Hs Hn Hk Hc Hsz; [done|].
  apply Forall_cons in Hs as [[_ Hd] Hs]. csimpl in Hn. apply NoDup_cons in Hn as [Hdk Hn].
  cbn [validate_from].
  assert (match de_state d with
          | DurReserved | DurUnresolved =>
              if bool_decide (is_Some (de_expires_at d)) then Err "invalidLedgerState" else Ok tt
          | DurRetained value => match to_vec value with
              | Err _ => Err "unreadableLedger"
              | Ok b => if 64 * 1024 <? blen b then Err "ledgerCapacityExceeded" else Ok tt
              end
          end = Ok tt) as ->.
  { destruct (de_state d) as [| |v]; [by rewrite Hd..|]. destruct Hd as (b & -> & Hb).
    unfold MAX_DURABLE_VALUE_BYTES in Hb. by destruct (Z.ltb_spec (64 * 1024) (blen b)); [lia|]. }
  assert (forall q, Z.of_nat (length (of_principal q es))
            = Z.of_nat (length (of_principal q (d :: es))) - (if decide (de_principal_id d = q) then 1 else 0)) as Hlen.
  { intros q. unfold of_principal. rewrite filter_cons. case_decide; simpl; lia. }
  simpl length in Hsz. cbn [rbind]. destruct (lapsed d).
  - apply IH; [done|done|by intros d' ?; apply Hk; right| |lia].
    intros q. specialize (Hc q). rewrite Hlen. case_decide; lia.
  - rewrite bool_decide_eq_false_2 by (apply Hk; by left). cbv zeta.
    assert (size ({[durable_key d]} ∪ keys) = S (size keys)) as Hsize.
    { rewrite size_union, size_singleton; [done|]. specialize (Hk d ltac:(by left)). set_solver. }
    assert (1 <= Z.of_nat (length (of_principal (de_principal_id d) (d :: es)))) as H1.
    { unfold of_principal. rewrite filter_cons_True by done. simpl. lia. }
    pose proof (Hc (de_principal_id d)) as Hcd.
    destruct (Z.ltb_spec 256 (default 0 (counts !! de_principal_id d) + 1)); [lia|].
    destruct (Z.ltb_spec 4096 (Z.of_nat (size ({[durable_key d]} ∪ keys)))); [lia|]. cbn [orb].
    apply IH; [done|done|..|lia].
    + intros d' Hd' [Heq%elem_of_singleton|?]%elem_of_union.
      * apply Hdk. rewrite <-Heq. by apply list_elem_of_fmap_2.
      * by eapply Hk; [right|].
    + intros q. rewrite Hlen. specialize (Hc q). destruct (decide (de_principal_id d = q)) as [->|Hne].
      * rewrite lookup_insert_eq. simpl. lia.
      * rewrite lookup_insert_ne by done. lia.
Qed.

Lemma full_store_valid lapsed es : full_store es -> validate_from lapsed ∅ ∅ es = Ok tt.
Proof.
  intros [A B C D]. apply validate_ok; [done|done|..].
  - intros d _. apply not_elem_of_empty.
  - intros p. rewrite lookup_empty. exact (B p).
  - rewrite size_empty. lia.
Qed.

(** The values of a map of entries under their own keys, in any order. *)
Lemma map_values_full m es :
  keyed m -> within 256 4096 (dom m) -> (forall k d, m !! k = Some d -> storable d) ->
  es ≡ₚ (map_to_list m).*2 -> full_store es.
Proof.
  intros Hk [Hs Hp] Hst Hes.
  assert (forall d, d ∈ es <-> m !! durable_key d = Some d) as Hin.
  { intros d. rewrite Hes, list_elem_of_fmap. split.
    - intros ([k d'] & -> & Hd%elem_of_map_to_list). simpl. by rewrite (Hk _ _ Hd).
    - intros Hd. exists (durable_key d, d). split; [done|]. by apply elem_of_map_to_list. }
  assert (NoDup (durable_key <$> es)) as Hnd.
  { rewrite Hes. assert (durable_key <$> (map_to_list m).*2 = (map_to_list m).*1) as ->;
      [|apply NoDup_fst_map_to_list].
    rewrite <-list_fmap_compose. apply list_fmap_ext. intros i [k d] Hi. simpl.
    apply Hk, elem_of_map_to_list. by eapply list_elem_of_lookup_2. }
  assert (forall p, NoDup (durable_key <$> of_principal p es)) as Hnp.
  { intros p. eapply sublist_NoDup; [exact Hnd|]. apply fmap_sublist, sublist_filter. }
  split; [| |done|].
  - assert (length es = size (dom m)) as ->; [|done].
    rewrite Hes, length_fmap, size_dom. by rewrite length_map_to_list.
  - intros p. specialize (Hp p). etrans; [|exact Hp]. apply inj_le.
    rewrite <-(length_fmap durable_key), <-(size_list_to_set (C := gset Key)) by apply Hnp.
    apply subseteq_size. intros k Hkin. apply elem_of_list_to_set, list_elem_of_fmap in Hkin as (d & -> & Hd).
    apply list_elem_of_filter in Hd as [Hdp Hd]. apply elem_of_filter. split; [done|].
    apply elem_of_dom. exists d. by apply Hin.
  - apply Forall_forall. intros d Hd%Hin. by eapply Hst.
Qed.
End Validity.

#[export] Instance ledger_roomy `{JsonLib, Sha2, LedgerCodec, !LedgerCodecLaws} : RoomyLog LogWriter.
Proof.
  split. intros es Hf. split; [|split].
  - eapply Forall_impl; [exact (fs_storable _ Hf)|]. by intros d [? _].
  - unfold valid_always. by rewrite full_store_valid.
  - intros sha b Hb. by apply (header_size (MkHeader 2 es sha)).
Qed.

(** ** Opening again *)

(** Entries that have expired are not counted: fewer keys, smaller counts. *)
Lemma validate_weaker `{JsonLib} (lapsed : DurableEntry -> bool) (keys keys' : gset Key) (counts counts' : gmap PrincipalId Z) es :
  keys' ⊆ keys -> (forall p, default 0 (counts' !! p) <= default 0 (counts !! p)) ->
  validate_from (fun _ => false) keys counts es = Ok tt ->
  validate_from lapsed keys' counts' es = Ok tt.
Proof.
  revert keys keys' counts counts'. induction es as [|d es IH]; intros keys keys' counts counts' Hk Hc; [done|].
  cbn [validate_from]. cbv zeta. intros E.
  match type of E with rbind ?c _ = _ => destruct c as [[]|] end; [|done]. cbn [rbind] in *.
  destruct (bool_decide (durable_key d ∈ keys)) eqn:Ed; [done|]. apply bool_decide_eq_false in Ed.
  destruct (_ || _) eqn:Eo in E; [done|]. apply orb_false_iff in Eo as [Eo1 Eo2].
  pose proof (Hc (de_principal_id d)) as Hcd. destruct (lapsed d).
  - eapply IH; [| |exact E]; [set_solver|]. intros q. etrans; [apply Hc|].
    destruct (decide (q = de_principal_id d)) as [->|Hne]; [rewrite lookup_insert_eq; simpl; lia|].
    by rewrite lookup_insert_ne.
  - rewrite bool_decide_eq_false_2 by set_solver.
    assert ({[durable_key d]} ∪ keys' ⊆ {[durable_key d]} ∪ keys) as Hs by set_solver.
    pose proof (subseteq_size _ _ Hs).
    destruct (_ || _) eqn:Eo'; [apply orb_true_iff in Eo' as [?|?]; lia|].
    eapply IH; [exact Hs| |exact E]. intros q.
    destruct (decide (q = de_principal_id d)) as [->|Hne]; [rewrite !lookup_insert_eq; simpl; lia|].
    by rewrite !lookup_insert_ne.
Qed.

Lemma valid_at `{JsonLib} now es : valid_always es = true -> is_ok (validate now es) = true.
Proof.
  unfold valid_always, validate. intros E.
  rewrite (validate_weaker (has_lapsed now) ∅ ∅ ∅ ∅ es); [done|done|done|].
  by destruct (validate_from _ _ _ _) as [[]|].
Qed.

Section Reopen.
Context `{JsonLib, Sha2, LedgerCodec, !LedgerCodecLaws}.

(** A file with a content loads as that content. *)
Lemma load_of_view now b d :
  content_view b = Some d ->
  exists health, load_reader now (MkReader b None)
    = Ok (MkLoaded health (map_to_list d.(vd_entries)).*2 2 d.(vd_sequence) d.(vd_sha256)
            d.(vd_appended_bytes)).
Proof.
  intros Hv. apply content_view_Some in Hv as (first & lines & header & last & -> & Hok & Hh & Hr).
  apply (run_check _ (fun es => is_ok (validate now es))) in Hr; [|by intros h _ ?; apply valid_at].
  pose proof Hok as [Hl Hls]%Forall_cons. cbn [concat]. unfold load_reader, read_jsonl_line.
  rewrite (line_ok_read MAX_LINE_BYTES max_line first (concat lines) Hl), Hh.
  unfold load_v2, scan_jsonl_prefetched, scan. cbn [rd_bytes].
  destruct (scan_of_run _ _ (v2_plain _) max_line (first :: lines) (length (concat lines) + 2)
              health_start None _ _ _ Hok ltac:(done) Hr) as (health & Es & Hi).
  { pose proof (lines_short lines) as Hlen. simpl.
    assert (Forall line_shape lines) by (eapply Forall_impl; [exact Hls|by intros ? [? _]]).
    specialize (Hlen ltac:(done)). lia. }
  assert (scan_loop (v2_decoder (fun es => is_ok (validate now es))) (consecutive MAX_LINE_BYTES)
    (length (concat lines) + 2) (MkReader (concat lines) None) (Some (Complete first)) health_start
    (V2Decoder_new header) = (Ok health, d)) as ->.
  { rewrite <-Es. replace (length (concat lines) + 2)%nat with (S (length (concat lines) + 1)) by lia.
    cbn [scan_loop so_max_line_bytes consecutive concat].
    by rewrite (line_ok_read MAX_LINE_BYTES max_line first (concat lines) Hl). }
  rewrite Hi. by exists health.
Qed.

(** Without faults the log opens. *)
Lemma open_of_view now w m :
  lw_faults w = [] -> writer_view w = Some m -> full_store (map_to_list m).*2 ->
  exists w', log_open now w = Some (w', Ok (map_to_list m).*2).
Proof.
  intros Hf Hv Hfull. destruct w as [file faults backups handle fmt sq sha app]. simpl in Hf. subst faults.
  unfold log_open, ledger_log_laws. rewrite Hv, bool_decide_eq_true_2 by done.
  unfold writer_view in Hv. simpl in Hv. destruct file as [b|].
  - apply fmap_Some in Hv as (d & Hv & ->). destruct (load_of_view now b d Hv) as [health Hl].
    eexists. unfold persistence_open, load, log_io, log_fault, sbind, sget, sret, slift, smodify.
    cbn [lw_faults lw_file set_field eta eta_LogWriter]. rewrite Hl. cbn [ld_format ld_entries Z.eqb].
    cbn [lw_faults lw_file set_field eta eta_LogWriter].
    unfold validate. by rewrite (full_store_valid _ _ Hfull).
  - injection Hv as <-. rewrite map_to_list_empty. eexists. reflexivity.
Qed.

Context {O : Type} `{RetainedOutcome O}.
Abbreviation world := (World (O := O) (P := LogWriter)).

Lemma durable_ok_storable d : durable_ok d -> storable d.
Proof. intros [Hk Hs]. split; [done|]. by destruct (de_state d). Qed.

(** What the log of a store that accepts writes has in it. *)
Lemma ready_full (w : world) log :
  world_inv w -> w.(w_store).(is_durable) = Some log -> integrity_issue w.(w_store) = None ->
  exists m, log_view log = Some m /\ presynced m w.(w_store).(is_state) /\ disk_ok w.(w_issued) m
    /\ full_store (map_to_list m).*2.
Proof.
  intros W Hl Hi. destruct (wi_ready _ W log Hl Hi) as (_ & m & Hv & [Hp _]).
  exists m. pose proof (wi_safe _ W _ _ Hl Hv) as D. split_and!; [done..|].
  eapply map_values_full; [apply D|apply D| |done]. intros k d Hd.
  apply durable_ok_storable. by eapply (do_entries _ _ D).
Qed.

Lemma elem_values m d : keyed m -> d ∈ (map_to_list m).*2 <-> m !! durable_key d = Some d.
Proof.
  intros Hk. rewrite list_elem_of_fmap. split.
  - intros ([k d'] & -> & Hd%elem_of_map_to_list). simpl. by rewrite (Hk _ _ Hd).
  - intros Hd. exists (durable_key d, d). split; [done|]. by apply elem_of_map_to_list.
Qed.

Lemma elem_value_keys m k : keyed m -> k ∈ durable_key <$> (map_to_list m).*2 <-> is_Some (m !! k).
Proof.
  intros Hk. rewrite list_elem_of_fmap. split.
  - intros (d & -> & Hd%elem_values); [by exists d|done].
  - intros [d Hd]. exists d. pose proof (Hk _ _ Hd) as Hkd. split; [done|].
    apply elem_values; [done|]. by rewrite Hkd.
Qed.

(** What a reader of the log learns about the store: one entry for each key without a change
    pending, none for a key that left, one that never expires for each permit. *)
Definition tells_store (w : world) (es : list DurableEntry) : Prop :=
  NoDup (durable_key <$> es)
  /\ (forall k, k ∉ w.(w_store).(is_state).(ss_dirty) ->
        (is_Some (entry_at w.(w_store).(is_state) k) <-> k ∈ durable_key <$> es))
  /\ (forall pm, pm ∈ w.(w_permits) ->
        exists d, d ∈ es /\ durable_key d = permit_key pm /\ d.(de_expires_at) = None).

(** C11: the log of a store that accepts writes can be opened again at any time, if the
    device works: the file passes every check of the reader, however many changes and
    compactions wrote it, and gives one entry for each key of the store that has no change
    pending, none for a key that left it, and one that never expires for each permit. *)
Theorem ledger_always_reopens (w : world) log now :
  reachable w -> w.(w_store).(is_durable) = Some log -> integrity_issue w.(w_store) = None ->
  log.(lw_faults) = [] ->
  exists es log', persistence_open now log = (Ok (Ok es), log') /\ tells_store w es.
Proof.
  intros W%reachable_inv Hl Hi Hf. destruct (ready_full w log W Hl Hi) as (m & Hv & Hp & D & Hfull).
  destruct (open_of_view now log m Hf Hv Hfull) as [log' E]. pose proof (do_keyed _ _ D) as Hk.
  exists (map_to_list m).*2, log'. unfold tells_store. split_and!; [|apply Hfull|..].
  - unfold log_open, ledger_log_laws in E. destruct (persistence_open now log) as [[[es|]|] w1]; try done.
    case_bool_decide; [|done]. by injection E as -> ->.
  - intros k Hd. rewrite elem_value_keys by done. by apply (ps_clean _ _ Hp).
  - intros pm Hpm. destruct (do_issued _ _ D (permit_key pm)) as (d & Hd & Hx); [by apply (wi_durable _ W)|].
    exists d. pose proof (Hk _ _ Hd) as Hkd. split; [|done]. apply elem_values; [done|]. by rewrite Hkd.
Qed.

(** ** Converting back *)

Lemma downgrade_key d : durable_key (downgrade_entry d) = durable_key d.
Proof. unfold downgrade_entry. by destruct (de_state d). Qed.

Lemma downgrade_keys (es : list DurableEntry) : durable_key <$> (downgrade_entry <$> es) = durable_key <$> es.
Proof. rewrite <-list_fmap_compose. apply list_fmap_ext. intros i d _. apply downgrade_key. Qed.

Lemma downgrade_full (es : list DurableEntry) : full_store es -> full_store (downgrade_entry <$> es).
Proof.
  intros [A B C D]. split.
  - by rewrite length_fmap.
  - intros p. specialize (B p). etrans; [|exact B]. apply inj_le, Nat.eq_le_incl. clear.
    induction es as [|d es IH]; [done|]. csimpl. rewrite !filter_cons.
    assert (de_principal_id (downgrade_entry d) = de_principal_id d) as ->
      by (exact (f_equal fst (downgrade_key d))).
    case_decide; simpl; congruence.
  - by rewrite downgrade_keys.
  - apply Forall_fmap. eapply Forall_impl; [exact D|]. intros d [Hk Hs]. unfold compose, downgrade_entry.
    destruct (de_state d) eqn:Es; split; simpl; try done. by rewrite Es.
Qed.

(** A version 1 file loads as its snapshot. *)
Lemma load_v1_file now (s : DurableSnapshot) b :
  full_store s.(sn_entries) -> s.(sn_schema_version) = 1 -> snapshot_to_vec s = Ok b ->
  exists health, load_reader now (MkReader b None) = Ok (MkLoaded health s.(sn_entries) 1 0 zero_digest 0).
Proof.
  intros Hf Hv Hb. assert (Forall (fun d => valid_key (de_key d)) (sn_entries s)) as Hk
    by (eapply Forall_impl; [apply Hf|by intros d [? _]]).
  destruct (snapshot_roundtrip s b Hk Hb) as (Hn & Hh & Hs).
  pose proof (snapshot_size s b Hf Hb) as Hl. pose proof (blen_nonneg b).
  unfold load_reader, read_jsonl_line. rewrite (read_last b MAX_LINE_BYTES) by (done || lia).
  assert (exists health, load_v1 b (MkReader [] None) = Ok (MkLoaded health (sn_entries s) 1 0 zero_digest 0)) as [health Hload].
  { unfold load_v1. cbn [rd_bytes rd_fails]. unfold read_to_end. cbn [rd_bytes rd_fails].
    rewrite take_nil. cbv zeta. assert ((if blen [] <? saturating_sub MAX_LINE_BYTES (blen b) + 1 then @None string else None) = None) as -> by (by destruct (_ <? _)).
    cbn [rbind]. rewrite app_nil_r. destruct (Z.ltb_spec MAX_LINE_BYTES (blen b)); [lia|].
    rewrite Hs, Hv. cbn [Z.eqb negb]. eauto. }
  exists health. destruct (Z.eqb_spec (blen b) 0) as [E0|E0]; [|by rewrite Hh].
  destruct b; [by rewrite header_empty|]. unfold blen in E0. simpl in E0. lia.
Qed.

Definition never_runs_again (d : DurableEntry) : Prop :=
  match d.(de_state) with
  | DurReserved => False
  | DurUnresolved => d.(de_expires_at) = None
  | DurRetained _ => True
  end.

Lemma downgrade_spec now log b d out :
  log.(lw_faults) = [] -> log.(lw_file) = Some b -> content_view b = Some d ->
  let es := (map_to_list d.(vd_entries)).*2 in
  full_store es -> snapshot_to_vec (MkDurableSnapshot 1 (downgrade_entry <$> es)) = Ok out ->
  downgrade_idempotency_ledger now log
  = (Ok true, log <| lw_backups := b :: log.(lw_backups) |> <| lw_file := Some out |>
                  <| lw_handle := match log.(lw_handle) with NoFile => NoFile | _ => Replaced end |>).
Proof.
  intros Hf Hb Hv es Hfull Hout. destruct log as [file faults backups handle fmt sq sha app].
  simpl in Hf, Hb. subst faults file. destruct (load_of_view now b d Hv) as [health Hl].
  unfold downgrade_idempotency_ledger, load, replace, log_io, log_fault, sbind, sget, sret, slift, smodify.
  cbn [lw_faults lw_file set_field eta eta_LogWriter]. rewrite Hl. cbn [ld_format ld_entries].
  fold es. unfold validate. rewrite (full_store_valid _ _ Hfull). cbn [map_err Z.eqb].
  cbn [lw_faults lw_file set_field eta eta_LogWriter]. rewrite Hout. cbn [map_err]. reflexivity.
Qed.

(** Converting the log of a store back to version 1 keeps a copy of it and loses no key:
    the new file can be opened at any time, has an entry for each key the old one had, and
    none that is still reserved; a key whose permit was out is unresolved for ever. *)
Theorem downgrade_keeps_every_key (w : world) log b out now now' :
  reachable w -> w.(w_store).(is_durable) = Some log -> integrity_issue w.(w_store) = None ->
  log.(lw_faults) = [] -> log.(lw_file) = Some b ->
  forall m, log_view log = Some m ->
  snapshot_to_vec (MkDurableSnapshot 1 (downgrade_entry <$> (map_to_list m).*2)) = Ok out ->
  exists log' log'' es, downgrade_idempotency_ledger now log = (Ok true, log')
    /\ log'.(lw_backups) = b :: log.(lw_backups) /\ log'.(lw_file) = Some out
    /\ persistence_open now' log' = (Ok (Ok es), log'')
    /\ (forall k, k ∈ durable_key <$> es <-> is_Some (m !! k)) /\ Forall never_runs_again es.
Proof.
  intros W%reachable_inv Hl Hi Hf Hb m Hv Hout.
  destruct (ready_full w log W Hl Hi) as (m0 & Hv0 & _ & D & Hfull).
  assert (m0 = m) as -> by congruence. simpl in Hv. unfold writer_view in Hv. rewrite Hb in Hv.
  apply fmap_Some in Hv as (d & Hv & ->). pose proof (downgrade_full _ Hfull) as Hfull'.
  destruct (load_v1_file now' (MkDurableSnapshot 1 _) out Hfull' eq_refl Hout) as [health Hload].
  eexists _, _, _. split; [by eapply downgrade_spec|]. split_and!; [done|done|..].
  - unfold persistence_open, load, log_io, log_fault, sbind, sget, sret, slift, smodify.
    cbn [lw_faults lw_file set_field eta eta_LogWriter]. rewrite Hf.
    cbn [lw_faults lw_file set_field eta eta_LogWriter]. rewrite Hload.
    cbn [ld_format ld_entries Z.eqb sn_entries]. unfold validate.
    rewrite (full_store_valid _ _ Hfull'). reflexivity.
  - intros k. rewrite downgrade_keys. apply elem_value_keys, D.
  - apply Forall_fmap, Forall_forall. intros x _. unfold compose, never_runs_again, downgrade_entry.
    destruct (de_state x) eqn:Es; simpl; try done. by rewrite Es.
Qed.
End Reopen.

(** ** The chain of digests *)

Section Chain.
Context `{JsonLib, Sha2, LedgerCodec, !LedgerCodecLaws, !LedgerValueLaws, !CollisionFree}.
Implicit Types (d : V2Decoder).
Abbreviation any_entries := (v2_decoder (fun _ => true)).

Lemma checksum_eq v w sha :
  checksum v = Ok sha -> checksum w = Ok sha ->
  exists x y, v = Some x /\ w = Some y /\ canonicalize x = canonicalize y.
Proof.
  unfold checksum, canonical_sha256. destruct v as [x|]; [|done]. destruct w as [y|]; [|done]. simpl.
  destruct (to_vec (canonicalize x)) as [bx|] eqn:Ex; [|done].
  destruct (to_vec (canonicalize y)) as [cy|] eqn:Ey; [|done]. intros [= <-] [= E].
  exists x, y. split_and!; [done..|]. symmetry in E. by eapply digest_inj.
Qed.

(** What the header line leaves. *)
Lemma header_chain line header last d :
  run_line any_entries line None (V2Decoder_new header) = Some (last, d) ->
  checksum (snapshot_to_value (MkDurableSnapshot 2 header.(hd_entries))) = Ok d.(vd_sha256)
  /\ header_entries ∅ header.(hd_entries) = Some d.(vd_entries) /\ d.(vd_sequence) = 0.
Proof.
  unfold run_line. simpl. unfold V2Decoder_decode. simpl. unfold decode_header.
  destruct (negb (hd_schema_version header =? 2)); [done|].
  destruct (checksum _) as [sha|] eqn:Ec; [|done]. simpl.
  destruct (bool_decide (hd_sha256 header = sha)) eqn:Es; [|done]. apply bool_decide_eq_true in Es. simpl.
  destruct (header_entries ∅ (hd_entries header)) as [m|] eqn:Em; [|done]. simpl.
  intros [= <- <-]. simpl. by rewrite Es.
Qed.

(** What a change leaves. *)
Lemma change_chain line last d last' d' :
  d.(vd_header) = None -> run_line any_entries line last d = Some (last', d') ->
  exists c, checksum (change_to_value c) = Ok d'.(vd_sha256) /\ c.(cg_previous_sha256) = d.(vd_sha256)
    /\ d'.(vd_entries) = apply_change d.(vd_entries) c.(cg_updates) c.(cg_removes)
    /\ d'.(vd_sequence) = c.(cg_sequence).
Proof.
  intros Hh. unfold run_line. simpl. unfold V2Decoder_decode. rewrite Hh.
  unfold decode_change. destruct (record_from_slice _) as [r|]; [|done].
  destruct (negb _); [done|].
  destruct (bool_decide (cg_previous_sha256 _ = _)) eqn:Ep; [|done]. apply bool_decide_eq_true in Ep.
  simpl. destruct (checksum _) as [sha|] eqn:Ec; [|done]. simpl.
  destruct (bool_decide (sha = lr_sha256 r)) eqn:Es; [|done]. apply bool_decide_eq_true in Es. simpl.
  destruct (change_size _ _); [|done]. destruct (_ || _ || _); [done|]. simpl.
  destruct (_ && _); [|done]. unfold V2Decoder_apply. simpl. intros [= <- <-]. simpl.
  exists (lr_change r). by rewrite Ec, Es.
Qed.

(** A log that was read: its header, or a log and one more change. *)
Inductive history : V2Decoder -> Prop :=
| history_header line header last d :
    run_line any_entries line None (V2Decoder_new header) = Some (last, d) -> history d
| history_change line last d last' d' :
    history d -> d.(vd_header) = None -> run_line any_entries line last d = Some (last', d') -> history d'.

Lemma run_history ls last d last' d' :
  d.(vd_header) = None -> history d -> run any_entries ls last d = Some (last', d') -> history d'.
Proof.
  revert last d. induction ls as [|l ls IH]; intros last d Hn Hh E; cbn [run] in E; [congruence|].
  destruct (run_line any_entries l last d) as [[last1 d1]|] eqn:E1; [|done].
  eapply IH; [|by eapply history_change|exact E].
  by apply (run_line_check _ (fun _ => true)) in E1 as [_ ?].
Qed.

Lemma load_history now b l :
  load_reader now (MkReader b None) = Ok l -> l.(ld_format) = 2 ->
  exists d, history d /\ l.(ld_entries) = (map_to_list d.(vd_entries)).*2
    /\ l.(ld_sequence) = d.(vd_sequence) /\ l.(ld_sha256) = d.(vd_sha256).
Proof.
  intros E Hf. destruct (load_v2_run now b None l E Hf)
    as (_ & first & lines & header & last & d & _ & _ & _ & Hr & L1 & L2 & L3 & _).
  exists d. split; [|done]. apply (run_check _ (fun _ => true)) in Hr; [|done].
  cbn [run] in Hr. destruct (run_line _ first _ _) as [[last1 d1]|] eqn:E1; [|done].
  eapply run_history; [|by eapply history_header|exact Hr].
  by apply (run_line_check _ (fun _ => true)) in E1 as [_ ?].
Qed.

Lemma history_determined d d' :
  history d -> history d' -> d.(vd_sha256) = d'.(vd_sha256) ->
  d.(vd_entries) = d'.(vd_entries) /\ d.(vd_sequence) = d'.(vd_sequence).
Proof.
  intros Hd. revert d'. induction Hd as [line header last d E|line last d last' d1 Hd IH Hh E];
    intros d' Hd'; destruct Hd' as [line' header' last0 d' E'|line' last0 d' last0' d1' Hd' Hh' E']; intros Hs.
  - apply header_chain in E as (C & M & S), E' as (C' & M' & S'). rewrite <-Hs in C'.
    destruct (checksum_eq _ _ _ C C') as (x & y & Ex & Ey & Exy).
    pose proof (snapshot_value_inj _ _ _ _ Ex Ey Exy) as [= Hes]. rewrite Hes in M. split; congruence.
  - apply header_chain in E as (C & _). apply change_chain in E' as (c & C' & _); [|done]. exfalso.
    rewrite <-Hs in C'. destruct (checksum_eq _ _ _ C C') as (x & y & Ex & Ey & Exy).
    by eapply snapshot_value_change.
  - apply header_chain in E' as (C & _). apply change_chain in E as (c & C' & _); [|done]. exfalso.
    rewrite Hs in C'. destruct (checksum_eq _ _ _ C C') as (x & y & Ex & Ey & Exy).
    by eapply snapshot_value_change.
  - apply change_chain in E as (c & C & P & M & S); [|done].
    apply change_chain in E' as (c' & C' & P' & M' & S'); [|done]. rewrite <-Hs in C'.
    destruct (checksum_eq _ _ _ C C') as (x & y & Ex & Ey & Exy).
    pose proof (change_value_inj _ _ _ _ Ex Ey Exy) as <-.
    destruct (IH d' Hd') as [IHm _]; [congruence|]. rewrite M, M', IHm. split; congruence.
Qed.

Definition same_history (l l' : Loaded) : Prop :=
  l.(ld_entries) = l'.(ld_entries) /\ l.(ld_sequence) = l'.(ld_sequence).

(** The digest of the last line fixes the whole history: two files that the reader
    accepts and that end in the same digest hold the same entries after the same number of
    changes; a record that was altered, dropped, repeated or moved cannot be hidden behind
    the lines that follow it. *)
Theorem last_digest_fixes_history now now' b b' l l' :
  load_reader now (MkReader b None) = Ok l -> load_reader now' (MkReader b' None) = Ok l' ->
  l.(ld_format) = 2 -> l'.(ld_format) = 2 -> l.(ld_sha256) = l'.(ld_sha256) ->
  same_history l l'.
Proof.
  intros Hl Hl' Hf Hf' E. unfold same_history. destruct (load_history _ _ _ Hl Hf) as (d & Hd & -> & -> & Hs).
  destruct (load_history _ _ _ Hl' Hf') as (d' & Hd' & -> & -> & Hs').
  destruct (history_determined d d') as [-> ->]; [done|done|congruence|done].
Qed.
End Chain.

(** ** A log on disk *)

Module SampleLedger.
Import SampleIdempotency.
#[local] Existing Instance SampleJson.json.

#[export] Instance operation_countable : Countable InterfaceOperation.
Proof.
  refine (inj_countable InterfaceOperation_as_str
    (fun s => list_find (fun o => InterfaceOperation_as_str o = s) InterfaceOperation_ALL ≫= fun x => Some x.2) _).
  by intros [].
Defined.
#[export] Instance durable_state_eq : EqDecision DurableState.
Proof. solve_decision. Defined.
#[export] Instance durable_entry_eq : EqDecision DurableEntry.
Proof. solve_decision. Defined.

#[export] Instance durable_state_countable : Countable DurableState.
Proof.
  refine (inj_countable'
    (fun s => match s with DurReserved => inl true | DurUnresolved => inl false | DurRetained v => inr v end)
    (fun x : bool + JsonValue => match x with
              | inl true => DurReserved | inl false => DurUnresolved | inr v => DurRetained v end) _).
  by intros [].
Defined.

(** The fields one after the other; pairs of fields would interleave their bits. *)
Definition entry_fields (e : DurableEntry) : list positive :=
  [encode (de_principal_id e); encode (de_key e); encode (de_operation e); encode (de_sha256 e);
   encode (de_expires_at e); encode (de_last_used e); encode (de_state e)].

Definition entry_of_fields (l : list positive) : option DurableEntry :=
  match l with
  | [p; k; o; h; x; u; s] =>
      p ← decode p; k ← decode k; o ← decode o; h ← decode h; x ← decode x; u ← decode u; s ← decode s;
      Some (MkDurableEntry p k o h x u s)
  | _ => None
  end.

#[export] Instance durable_entry_countable : Countable DurableEntry.
Proof.
  refine (inj_countable entry_fields entry_of_fields _).
  intros []. unfold entry_fields, entry_of_fields. cbn -[encode decode].
  repeat (rewrite decode_encode; cbn -[encode decode]). done.
Defined.

Definition change_fields (c : Change) : list positive :=
  [encode (cg_sequence c); encode (cg_previous_sha256 c); encode (cg_updates c); encode (cg_removes c)].

Definition change_of_fields (l : list positive) : option Change :=
  match l with
  | [q; h; us; rs] =>
      q ← decode q; h ← decode h; us ← decode us; rs ← decode rs; Some (MkChange q h us rs)
  | _ => None
  end.

Lemma change_fields_spec c : change_of_fields (change_fields c) = Some c.
Proof.
  destruct c. unfold change_fields, change_of_fields. cbn -[encode decode].
  repeat (rewrite decode_encode; cbn -[encode decode]). done.
Qed.

Definition write {A} `{Countable A} (tag : ascii) (a : A) : bytes := tag :: SampleJson.digits (encode a).

Definition read {A} `{Countable A} (tag : ascii) (b : bytes) : option A :=
  match b with
  | c :: b => if Ascii.eqb c tag then SampleJson.undigits b ≫= decode else None
  | [] => None
  end.

Lemma read_write {A} `{Countable A} tag (a : A) tail :
  SampleJson.undigits tail = None -> read tag (write tag a ++ tail) = Some a.
Proof.
  intros Ht. simpl. rewrite Ascii.eqb_refl, SampleJson.undigits_of by done. simpl. apply decode_encode.
Qed.

Lemma write_plain {A} `{Countable A} tag (a : A) : tag <> newline -> no_newline (write tag a).
Proof.
  intros Ht. apply Forall_cons. split; [done|].
  generalize (encode a). intros p. induction p; simpl; repeat constructor; done.
Qed.

(** A value that fills a line is refused. *)
Definition fitting (b : bytes) : result bytes string :=
  if blen b <? MAX_LINE_BYTES then Ok b else Err "too large".

#[export] Instance codec : LedgerCodec := {|
  header_to_vec h :=
    fitting (write "H"%char [encode (hd_schema_version h); encode (hd_entries h); encode (hd_sha256 h)]);
  record_to_vec r :=
    fitting (write "R"%char [encode (lr_schema_version r); encode (change_fields (lr_change r));
                             encode (lr_sha256 r)]);
  snapshot_to_vec s := fitting (write "S"%char [encode (sn_schema_version s); encode (sn_entries s)]);
  header_from_slice b :=
    l ← read "H"%char b;
    match l : list positive with
    | [v; es; h] => v ← decode v; es ← decode es; h ← decode h; Some (MkHeader v es h)
    | _ => None
    end;
  record_from_slice b :=
    l ← read "R"%char b;
    match l : list positive with
    | [v; c; h] =>
        v ← decode v; fs ← decode c; c ← change_of_fields fs; h ← decode h; Some (MkLedgerRecord v c h)
    | _ => None
    end;
  snapshot_from_slice b :=
    l ← read "S"%char b;
    match l : list positive with
    | [v; es] => v ← decode v; es ← decode es; Some (MkDurableSnapshot v es)
    | _ => None
    end;
  snapshot_to_value s :=
    Some (JString (String.string_of_list_ascii
      (write "S"%char [encode (sn_schema_version s); encode (sn_entries s)])));
  change_to_value c := Some (JString (String.string_of_list_ascii (write "C"%char (change_fields c))));
|}.

Lemma fitting_ok b b' : fitting b = Ok b' -> b' = b /\ blen b' < MAX_LINE_BYTES.
Proof. unfold fitting. destruct (Z.ltb_spec (blen b) MAX_LINE_BYTES); [|done]. by intros [= <-]. Qed.

Ltac decoded := cbn -[encode decode write read change_of_fields change_fields]; repeat (rewrite decode_encode; cbn -[encode decode write read change_of_fields change_fields]).

#[export] Instance codec_laws : LedgerCodecLaws.
Proof.
  split; unfold header_to_vec, record_to_vec, snapshot_to_vec, codec.
  - intros h b _ [-> _]%fitting_ok. split; [by apply write_plain|].
    unfold header_from_slice. rewrite read_write by done. decoded. by destruct h.
  - intros r b _ _ [-> _]%fitting_ok. split; [by apply write_plain|].
    unfold record_from_slice. rewrite read_write by done. decoded. rewrite change_fields_spec. decoded.
    by destruct r.
  - intros s b _ [-> _]%fitting_ok. split; [by apply write_plain|]. split; [done|].
    unfold snapshot_from_slice.
    pose proof (read_write "S"%char [encode (sn_schema_version s); encode (sn_entries s)] [] eq_refl) as E.
    rewrite app_nil_r in E. rewrite E. decoded. by destruct s.
  - done.
  - by intros h b _ [_ ?]%fitting_ok.
  - by intros s b _ [_ ?]%fitting_ok.
Qed.

Lemma text_inj {A} `{Countable A} (a a' : A) :
  String.string_of_list_ascii (SampleJson.digits (encode a))
  = String.string_of_list_ascii (SampleJson.digits (encode a')) -> a = a'.
Proof.
  intros E%(f_equal String.list_ascii_of_string). rewrite !String.list_ascii_of_string_of_list_ascii in E.
  by apply (inj encode), SampleJson.digits_inj.
Qed.

#[export] Instance value_laws : LedgerValueLaws.
Proof.
  split; unfold snapshot_to_value, change_to_value, codec.
  - intros [v es] [v' es'] ? ? [= <-] [= <-] [= E]. apply text_inj in E.
    injection E as E1 E2. by rewrite (inj encode _ _ E1), (inj encode _ _ E2).
  - intros c c' ? ? [= <-] [= <-] [= E]. apply text_inj in E.
    apply (f_equal change_of_fields) in E. rewrite !change_fields_spec in E. congruence.
  - by intros s c ? ? [= <-] [= <-].
Qed.

(** The run of [SampleIdempotency] with a file for a log. *)
Definition blank : LogWriter := MkLogWriter None [] [] NoFile 0 0 zero_digest 0.

Section Files.
#[local] Instance short_sha : Sha2 := fun b => [Z.of_nat (length b) mod 251].

Definition f0 : World (O := CommandOutcome) (P := LogWriter) :=
  MkWorld (open_durable journal_lookup 0 (blank, Ok [])) [] ∅.
Definition f1 : World (O := CommandOutcome) (P := LogWriter) := default f0 (world_run labels f0).
Definition disk : LogWriter := default blank f1.(w_store).(is_durable).

Lemma f1_reachable : reachable f1.
Proof.
  exists f0, labels. split; [by apply fresh_durable|].
  apply present_default. by_eval.
Qed.

Lemma ledger_always_reopens_witness :
  exists es log', persistence_open 99 disk = (Ok (Ok es), log') /\ tells_store f1 es.
Proof. refine (ledger_always_reopens f1 disk 99 f1_reachable _ _ _); [apply present_default|..]; by_eval. Defined.

Definition disk_bytes : bytes := default [] disk.(lw_file).
Definition disk_view : gmap Key DurableEntry := default ∅ (log_view disk).
Definition ok_or {A E} (d : A) (r : result A E) : A := match r with Ok a => a | Err _ => d end.

Lemma ok_or_eq {A E} (d : A) (r : result A E) : is_ok r = true -> r = Ok (ok_or d r).
Proof. by destruct r. Qed.

Definition v1_bytes : bytes :=
  ok_or [] (snapshot_to_vec (MkDurableSnapshot 1 (downgrade_entry <$> (map_to_list disk_view).*2))).

Lemma downgrade_keeps_every_key_witness :
  exists log' log'' es, downgrade_idempotency_ledger 50 disk = (Ok true, log')
    /\ log'.(lw_backups) = disk_bytes :: disk.(lw_backups) /\ log'.(lw_file) = Some v1_bytes
    /\ persistence_open 60 log' = (Ok (Ok es), log'')
    /\ (forall k, k ∈ durable_key <$> es <-> is_Some (disk_view !! k)) /\ Forall never_runs_again es.
Proof.
  refine (downgrade_keeps_every_key f1 disk disk_bytes v1_bytes 50 60 f1_reachable _ _ _ _ disk_view _ _).
  - apply present_default. by_eval.
  - by_eval.
  - by_eval.
  - apply present_default. by_eval.
  - apply present_default. by_eval.
  - apply ok_or_eq. by_eval.
Defined.
End Files.

(** A digest without collisions on the sample JSON text: the text as a number. *)
Section Chained.
#[local] Instance text_sha : Sha2 := fun b => match SampleJson.undigits b with Some p => [Z.pos p] | None => [] end.

#[local] Instance text_sha_collision_free : CollisionFree.
Proof.
  split. intros v w b c [= <-] [= <-]. unfold sha256, text_sha.
  pose proof (SampleJson.undigits_of (encode v) [] eq_refl) as Ev. rewrite app_nil_r in Ev.
  pose proof (SampleJson.undigits_of (encode w) [] eq_refl) as Ew. rewrite app_nil_r in Ew.
  rewrite Ev, Ew. intros [= E]. by apply (inj encode).
Qed.

(** An empty header and an empty change: the size of the digests grows with the chain. *)
Definition file_of (m : LogIO unit) (w : LogWriter) : LogWriter := (m w).2.
Definition chained : bytes :=
  default [] (file_of (append_change [] []) (file_of (checkpoint []) blank)).(lw_file).
Definition loaded (now : Time) : Loaded :=
  ok_or (MkLoaded health_start [] 0 0 [] 0) (load_reader now (MkReader chained None)).

Lemma loaded_ok now :
  is_ok (load_reader now (MkReader chained None)) = true ->
  load_reader now (MkReader chained None) = Ok (loaded now).
Proof. unfold loaded. generalize (load_reader now (MkReader chained None)). by intros []. Qed.

Lemma last_digest_fixes_history_witness :
  (loaded 5).(ld_sequence) = 1 /\ same_history (loaded 5) (loaded 9).
Proof.
  split; [by_eval|].
  refine (last_digest_fixes_history 5 9 chained chained (loaded 5) (loaded 9) _ _ _ _ _).
  - apply loaded_ok. by_eval.
  - apply loaded_ok. by_eval.
  - by_eval.
  - by_eval.
  - apply (bool_decide_unpack _). by_eval_true.
Defined.
End Chained.
End SampleLedger.
